(* ===== verification/_CoqProject ===== *)
-Q . S2P
Prelude.v
GoStd.v
Quantity.v
GoText.v
TokenTypes.v
Der.v
Asn1.v
Request.v
Keys.v
Rwset.v
Translator.v
Ledger.v
Chain.v
Htlc.v
Limits.v
PolicyParser.v
Composite.v
Validator.v
ZkMath.v
ZkIpa.v
ZkRange.v
ZkSigma.v
ZkCodec.v
ZkTransfer.v
ZkClaims.v
Csp.v
CspFold.v
CspSound.v
Lagrange.v
LagrangeSpec.v
LagrangeTree.v
CspRange.v
CspRangeSpec.v
CspRangeSound.v
CspRangeExtract.v
CspTransfer.v
CspClaims.v
FabtokenActions.v
FabtokenValidator.v
FabtokenSafety.v
FabtokenLedger.v
ZkActions.v
ZkValidator.v
ZkSafety.v
ZkSetup.v
ZkSetupClaims.v
Sherdlock.v
SherdlockSafety.v
SherdlockTotal.v
SherdlockWitness.v
ShardedLocker.v
ShardedLockerSafety.v
SimpleSelector.v
SimpleLocking.v
Fetcher.v
FetcherSafety.v
Metadata.v
Auditor.v
FabtokenAudit.v
ZkAudit.v
ZkAuditSafety.v
ZkTokens.v
Upgrade.v
UpgradeSafety.v
UpgradeClaims.v
