(* ===== verification/Prelude.v ===== *)
(** * Panurus: a verification development of the token core

    Panurus is a token stack for permissioned ledgers, written in Go.  Clients
    assemble a token request (issues, transfers, redeems); endorsers validate
    it against the public parameters and translate the accepted actions into
    writes on the ledger; a request commits when its reads are still valid.
    This library models the code that decides which requests are accepted and
    what they do to the ledger, as executable definitions, and proves what
    makes it correct.  File and function names below are those under src/token.

    ** The parts and the files that model them

    - [Prelude]: bytes, errors and the result type [res] ([Ok], [Err] for a
      returned error, [Panic] for a run-time panic), the state-and-result monad
      [M], loops over slices ([rangeM], [rangeR]), Go maps as association lists
      in iteration order ([gomap]), integer widths, the class [IdentityOps] of
      the third-party identity type, tactics and hint databases.
    - [GoStd]: what the code uses of Go's standard library at byte level:
      SHA-256, hexadecimal, base64, little-endian integers, UTF-8 decoding.
    - [Quantity] (token/quantity.go): the 64-bit and the big-integer quantity,
      with math/big's parser and printer.
    - [GoText]: UTF-8 decoding into runes, Unicode classes (a parameter).
    - [TokenTypes] (token/token.go): ids, tokens, lists of tokens.
    - [Der] (services/identity/marshal/marshal.go, typed.go): the hand-written
      DER codec of typed identities.
    - [Asn1] (marshal.go, UnmarshalCanonicalDER): encoding/asn1 for the
      structures the identity layer decodes.
    - [Request] (driver/request.go up to line 454, driver/asn1_fast.go,
      services/utils/protos/protos.go): token requests, their protobuf form and
      the message that is signed; [Metadata] (the rest of driver/request.go,
      driver/marshaller.go): the request metadata and its protobuf form.
    - [Keys] (services/network/common/rws/keys/keys.go and the key translators
      of translator/rwset.go): the composite keys of ledger entries.
    - [Rwset] (translator/rwset.go, network/fabricx/endorsement/rwset.go): the
      read-write set interfaces as classes with laws, the two wrappers.
    - [Translator] (translator/translator.go, action.go): the operations that
      check and commit an action, and their specification as a pure log.
    - [Ledger]: the abstract ledger of unspent outputs and its simulation by
      the store under composite keys.
    - [Chain]: histories of committed requests, as an inductive relation, with
      the invariant of the ledger.
    - [Htlc] (services/interop/htlc/script.go, keys.go, signer.go,
      interop/encoding/encoding.go, services/identity/interop/htlc/validator.go):
      hash time-locked scripts.
    - [Limits] (driver/limits.go): resource limits.
    - [PolicyParser] (services/identity/boolpolicy/parser.go): the grammar of
      policies, with its printer.
    - [Composite] (services/identity/boolpolicy, multisig, deserializer/
      verifier.go, interop/htlc/deserializer.go, driver/identity_nesting.go):
      policy, multi-signature and script identities and their verifiers.
    - [Validator] (core/common/backend.go, limits.go, validator.go and the
      generic validation functions): the validation pipeline, generic in the
      driver.
    - [FabtokenActions] (core/fabtoken/v1/actions): the cleartext driver's
      actions.
    - [FabtokenValidator] (core/fabtoken/v1/validator): its validation steps.
    - [FabtokenSafety]: the pipeline run with these steps.
    - [FabtokenLedger] (network/fabric/tcc/tcc.go, ProcessRequest): validation
      followed by translation, over a history.
    - [ZkMath] (core/zkatdlog/nogh/v1/crypto/math, crypto/common): the curve
      library as a class with laws, vector arithmetic, transcripts.
    - [ZkIpa], [ZkRange] (crypto/rp/bulletproof): inner-product arguments and
      range proofs, prover and verifiers, in generic and native arithmetic.
    - [ZkSigma] (issue/sametype.go, transfer/typeandsum.go, token/token.go):
      commitments and the sigma protocols over them, with their extractors.
    - [ZkCodec] (core/common/encoding/asn1/asn1.go and the Serialize,
      Deserialize and Validate methods of the proofs): proofs as bytes.
    - [ZkTransfer] (transfer/bftransfer.go, issue/bfissue.go, issue/verifier.go):
      proofs of transfers and of issues; [ZkClaims]: their theorems, and a curve
      of five elements on which every hypothesis is met.
    - [Csp] (crypto/rp/csp/csp.go, msm.go, validation.go, errors.go): the
      compressed sigma protocol of the second range-proof system; [CspFold]: its
      folding and the exactness of its verifier; [CspSound]: completeness and
      the extractor.
    - [Lagrange] (the Lagrange routines of crypto/rp/csp/rp.go,
      lagrange_native.go, lagrange_cache.go, lagrange_pool.go); [LagrangeSpec],
      [LagrangeTree]: they agree with Lagrange's formula, the tree of products
      included.
    - [CspRange] (crypto/rp/csp/rp.go, rp_native.go): range proofs over it;
      [CspRangeSpec]: completeness; [CspRangeSound], [CspRangeExtract]: the
      interactive verifier, what an accepted run says and the extractor; [CspTransfer]
      (crypto/rp/csp/rangecorrectness.go, transfer/csptransfer.go,
      issue/cspissue.go): batches, proofs of transfers and issues, their bytes;
      [CspClaims]: their theorems.
    - [ZkActions] (transfer/action.go, issue/action.go): the driver's actions;
      [ZkValidator] (zkatdlog/nogh/v1/validator): its validation steps;
      [ZkSafety]: the pipeline run with these steps.
    - [ZkSetup] (zkatdlog/nogh/v1/setup/setup.go, core/naming.go,
      core/common/encoding/pp/pp.go): the public parameters, their generation,
      validation and wire format; [ZkSetupClaims]: their theorems.
    - [Auditor] (core/common/auditor.go): what both auditors share;
      [FabtokenAudit] (core/fabtoken/v1/audit/auditor.go, v1/auditor.go) and
      [ZkAudit] (zkatdlog/nogh/v1/audit/auditor.go, v1/auditor.go): the checks of
      the two drivers; [ZkAuditSafety]: what the second one guarantees.
    - [ZkTokens] (zkatdlog/nogh/v1/token/service.go, fabtoken.go, the codecs of
      token.go, core/fabtoken/v1/tokens.go, services/utils/hashable.go): the
      formats of tokens, opening of commitments, local upgrades.
    - [Upgrade] (zkatdlog/nogh/v1/crypto/upgrade): upgrades an issuer mediates,
      and the history of public parameters; [UpgradeSafety]: what they keep and
      guarantee, and that honest runs succeed; [UpgradeClaims]: the theorems.
    - [Sherdlock] (services/selector/sherdlock/selector.go, tuning.go): the token
      selector; [SherdlockSafety]: the laws of its lock store and what a result
      guarantees; [SherdlockTotal]: termination and liveness;
      [SherdlockWitness]: a bank on which it runs.
    - [ShardedLocker] (services/selector/simple/inmemory/locker.go): the
      in-memory locker as interleaved goroutines; [ShardedLockerSafety]: its
      invariant, the table of locks it implements, progress.
    - [SimpleSelector] (services/selector/simple/selector.go): the simple
      selector over an interface of lock stores; [SimpleLocking]: the in-memory
      locker implements it.
    - [Fetcher], [FetcherSafety] (services/selector/sherdlock/fetcher.go): the
      sources of candidates, with the cache refreshed by concurrent goroutines.

    ** How state and operations correspond

    A Go method on a mutable receiver is a function in the monad [M] over a
    record of its fields: the translator's state is [TranslatorState] (read-write
    set, spent ids, output counter), a validation context is [Ctx], the
    signature provider is [Backend] with its cursor.  A value of an interface is
    a record of what its methods return, or a class where several
    implementations exist.  Nil pointers, slices entries and interfaces are
    [option]s; dereferencing nil is [Panic].  Error texts are kept up to their
    formatted arguments, sentinel errors by name.  Loggers and Go contexts are
    left out.  A [uint64] counter wraps ([u64]), indices and action ids too.
    The selectors run in a world of their own type: lock stores, queries and the
    clock are functions that may change it arbitrarily, which is how other
    processes act.  Goroutines that share memory (locker, eager fetcher) are
    program counters over a common state; a step is one critical section, atomic
    access or call out, and a step relation interleaves them.  The cache of the
    history of public parameters is state of [M]; where its mutex is taken, what
    others did to the maps since is an arbitrary function of them.

    ** What the theorems show

    - Quantities: exact arithmetic or an error, never a wrapped value; text
      round trips; sums.
    - Encodings: the identity codec is a bijection onto what it accepts; the
      message to sign is the nested DER encoding and binds actions and anchor;
      requests and their metadata survive protobuf; composite keys are injective and the kinds of
      entries separate.
    - Translator: the recorded writes are those of the log; inputs of a request
      are distinct; the ledger of unspent outputs moves as the request says.
    - Histories: the ledger invariant, no token spent twice, every spent token
      created before with the claimed content, queries truthful.
    - Validation: an accepted request is within its limits and audited, each
      action is verified in order with exactly its own signatures.
    - fabtoken: accepted transfers conserve value, are signed by the owners of
      their inputs and, when they redeem, by an authorized issuer; issues are
      signed by an authorized issuer; hash time-locks are respected; every
      metadata entry is accounted for.
    - Together: over any history of processed requests the value of the unspent
      tokens of a type is what was issued minus what was redeemed.
    - Identities: the policy parser is exact for its grammar, terminates and
      inverts the printer; a policy identity accepts exactly the joined
      signatures its policy allows; deserialization is bounded by the nesting
      budget.
    - Zero-knowledge proofs: the provers of transfers and issues are complete,
      the verifiers never panic on bytes, native and generic arithmetic agree,
      the proof of type and sum is special sound with an explicit extractor,
      proofs survive their encoding.  The second range-proof system is complete
      too, its verifiers never panic, the verifier of the compressed protocol is
      exactly the recursive one; the range verifier is the interactive one with
      the challenges of its transcript, and from a tree of runs the latter accepts
      an opening of the commitment within the range is computed unless a relation
      between the generators is or a run is degenerate; the Lagrange routines are
      exact in both arithmetics.
    - Public parameters: what [Validate] accepts is what provers and verifiers
      rely on, and on tokens of the curve they never panic with it; the setup generates parameters that validate; encoding restores
      them with the transcript header recomputed.
    - Auditing: what the zero-knowledge auditor accepts matches its metadata,
      openings and the identities it inspects included (of a redeem neither the
      issuer nor receivers are), and names no token twice; the fabtoken auditor
      is blind to the tokens of a transfer.
    - Upgrades: an accepted request is signed by the owners and returns exactly
      the content of its tokens, opened under parameters that produced their
      format; no request panics or spoils the cache, whatever concurrent ones
      do; an honest owner's request is accepted; a token upgraded locally passes
      the validator.
    - zkatdlog: accepted transfers and issues are signed as in fabtoken, their
      proofs are verified for exactly their commitments, upgraded inputs open
      to the cleartext tokens they replace, hash time-locks are respected.
    - Selectors: a selection returns tokens that cover the request and whose
      locks it took, all of the wallet and type if the source answers so and
      nothing of an earlier selection is left over, or fails and releases them; it ends
      whatever other processes do, and serves a wallet that can pay when nobody
      competes.  The in-memory locker implements one table of exclusive locks
      under any interleaving, every removal included, without deadlock, and
      [Lock] returns.  The eager fetcher answers with the tokens read of one
      iterator of the store, and of a later one after an invalidation that does
      not fall into the window of [invalidation_lost].
    - Defects found in the code are stated as theorems:
      [GetTransferMetadataSubKey_never], [serial_number_spent_twice],
      [foreign_token_panics], [reused_selector_crosses_types],
      [simple_iterator_error_leaks], [tokenKey_collides],
      [groupTokensByKey_partial], [invalidation_lost],
      [adapter_misses_race_when_debugging], [fabtoken_audit_blind],
      [receivers_flag_irrelevant], [lower_precision_stranded],
      [deobfuscate_foreign_panics] and [digest_moves_bytes].

    ** Parameters and hypotheses

    Code outside the repository is a parameter: the protobuf and JSON codecs,
    signature verifiers and the deserializer that finds them, the registry of
    hash functions, the identity type, the Unicode tables, the elliptic-curve
    library (classes [Curve], [Native], [Wire] and [CspCurve] with the laws of a
    prime-order group, of its encodings and of hashing to it; [ForeignCurves] for
    elements of the library's other curves), random readers, the store and the matchers of an
    auditor, the store of public parameters and what other requests do to the
    cache over it, the read-write set of the ledger
    (with the documented laws of a simulated transaction, discharged for a
    concrete stub).  Theorems over histories assume that the tokens that occur have
    pairwise distinct serial-number keys, which are SHA-256 digests, and where
    the content of a token matters that distinct tokens of the history
    serialize differently.  The lock store of the sherdlock selector, its
    candidate source and the bounded cache of the eager fetcher are classes with
    laws, each discharged for a concrete instance; that of the simple selector is
    discharged by the in-memory locker.  Termination of a sherdlock selection
    assumes candidates of positive worth.

    ** Bounds and fuel

    Loops over slices are structural.  Fuel occurs in the UTF-8 decoder (the
    length of the string, every step consumes a byte) and in number printing
    (the bit length of the number bounds its digits).  The SHA-256 rounds are
    folds.  The policy parser runs with five units of fuel per rune and ten more,
    the descent into nested identities with one level more than the budget; both
    are proved to be enough.  The loop of a sherdlock selection takes fuel, with
    which it is proved to end; its inner loops run with the number of candidates
    left, which never runs out.  The loop that pads a statement to a power of two
    runs with the size of the statement as fuel, which doubling never uses up.
    Range proofs are of 1 to 64 bits, so the trees of products have at most 129
    leaves.  Quantities of precision 1 to 2^63-1 are covered; requests of at most
    2^32 actions, which is above any configured limit; DER lengths below 2^32.

    ** Not modelled

    Storage (SQL statements for a database), network sessions and the protocols
    between nodes, key management and wallets (third-party membership and idemix
    libraries), configuration and dependency injection, the request builder and
    streams of request.go and stream.go (client code over wallets and services;
    what it assembles is checked by the validators and auditors modelled here),
    and the auditor service (locks and records in a database): all are I/O or glue around
    third-party code.  The rate limiter of the selectors computes with
    floating-point numbers.  Memory pools and executors of goroutines without
    shared state are left out where their result does not depend on them. *)

From Stdlib Require Import ZArith Lia.
From Stdlib Require Import Strings.Byte.
From stdpp Require Export prelude list gmap strings.

(** ** Byte strings

    Go's [string] and [[]byte] are both sequences of bytes; a conversion
    between them is the identity on the sequence.  [b2z] is the unsigned
    value of a byte, [z2b] is Go's conversion [byte(x)], which keeps the low
    eight bits. *)
Abbreviation byte := (Init.Byte.byte).
Abbreviation bytes := (list Init.Byte.byte).

Definition b2z (b : byte) : Z := Z.of_N (Byte.to_N b).

Definition z2b (z : Z) : byte :=
  match Byte.of_N (Z.to_N (z `mod` 256)) with
  | Some b => b
  | None => Byte.x00
  end.

(** A string literal of the source. *)
Definition str (s : string) : bytes := String.list_byte_of_string s.

#[global] Instance byte_eq_dec : EqDecision byte := Byte.byte_eq_dec.

#[global] Program Instance byte_countable : Countable byte :=
  inj_countable Byte.to_N Byte.of_N _.
Next Obligation. intros b. apply Byte.of_to_N. Qed.

Lemma b2z_range b : (0 <= b2z b < 256)%Z.
Proof.
  unfold b2z. pose proof (Byte.to_N_bounded b). lia.
Qed.

Lemma b2z_inj a b : b2z a = b2z b -> a = b.
Proof.
  unfold b2z. intros H%N2Z.inj.
  assert (Some a = Some b) as HS; [|congruence].
  by rewrite <- (Byte.of_to_N a), <- (Byte.of_to_N b), H.
Qed.

Lemma b2z_z2b z : b2z (z2b z) = (z `mod` 256)%Z.
Proof.
  unfold z2b. pose proof (Z.mod_pos_bound z 256 ltac:(lia)) as Hr.
  destruct (Byte.of_N _) as [b|] eqn:E.
  - apply Byte.to_of_N in E. unfold b2z. rewrite E. by rewrite Z2N.id by lia.
  - apply Byte.of_N_None_iff in E. lia.
Qed.

Lemma z2b_b2z b : z2b (b2z b) = b.
Proof.
  apply b2z_inj. rewrite b2z_z2b. apply Z.mod_small, b2z_range.
Qed.

Lemma b2z_z2b_small z : (0 <= z < 256)%Z -> b2z (z2b z) = z.
Proof. intros. rewrite b2z_z2b. by apply Z.mod_small. Qed.

(** ** Errors, results and panics

    A Go [error] is a message, a wrapped error ([errors.Wrap],
    [errors.Wrapf], [errors.WithMessagef]) or a join ([errors.Join]); the
    formatted arguments of a message are left out.  [errors_Is] is [errors.Is] against a sentinel.  A
    call returns a value, returns an error, or panics. *)
Inductive error : Type :=
| EMsg (msg : string)
| EWrap (cause : error) (msg : string)
| EJoin (first second : error).

#[global] Instance error_eq_dec : EqDecision error.
Proof. solve_decision. Defined.

Fixpoint errors_Is (e target : error) : bool :=
  bool_decide (e = target) ||
  match e with
  | EMsg _ => false
  | EWrap c _ => errors_Is c target
  | EJoin a b => errors_Is a target || errors_Is b target
  end.

Inductive res (A : Type) : Type :=
| Ok (a : A)
| Err (e : error)
| Panic.
Arguments Ok {A} a.
Arguments Err {A} e.
Arguments Panic {A}.

#[global] Instance res_mret : MRet res := fun A a => Ok a.
#[global] Instance res_mbind : MBind res := fun A B f m =>
  match m with
  | Ok a => f a
  | Err e => Err e
  | Panic => Panic
  end.

(** [errors.Wrapf(err, msg)] on the error branch of a call. *)
Definition wrap {A} (msg : string) (r : res A) : res A :=
  match r with
  | Err e => Err (EWrap e msg)
  | _ => r
  end.

(** [errors.Join(target, err)] and [errors.Join(err, target)] on the error
    branch of a call. *)
Definition join_err {A} (target : error) (r : res A) : res A :=
  match r with
  | Err e => Err (EJoin target e)
  | _ => r
  end.
Definition err_join {A} (r : res A) (target : error) : res A :=
  match r with
  | Err e => Err (EJoin e target)
  | _ => r
  end.

(** [if err != nil { return errors.Errorf(msg) }]: the cause is dropped. *)
Definition replace_err {A} (msg : string) (r : res A) : res A :=
  match r with
  | Err _ => Err (EMsg msg)
  | _ => r
  end.

(** [if bad { return err }]. *)
Definition reject_if (bad : bool) (e : error) : res unit :=
  if bad then Err e else Ok tt.

Definition is_ok {A} (r : res A) : bool :=
  match r with Ok _ => true | _ => false end.

Definition no_panic {A} (r : res A) : Prop :=
  match r with Panic => False | _ => True end.

(** ** State passing

    A method on a mutable object: the state survives an error, since Go does
    not roll back the writes made before a [return err]. *)
Definition M (S A : Type) : Type := S -> res A * S.

#[global] Instance M_mret {S} : MRet (M S) := fun A a s => (Ok a, s).
#[global] Instance M_mbind {S} : MBind (M S) := fun A B f m s =>
  match m s with
  | (Ok a, s') => f a s'
  | (Err e, s') => (Err e, s')
  | (Panic, s') => (Panic, s')
  end.

Definition lift {S A} (r : res A) : M S A := fun s => (r, s).
Definition getS {S} : M S S := fun s => (Ok s, s).
Definition putS {S} (s : S) : M S unit := fun _ => (Ok tt, s).
Definition modifyS {S} (f : S -> S) : M S unit := fun s => (Ok tt, f s).

Definition wrapM {S A} (msg : string) (m : M S A) : M S A := fun s =>
  let '(r, s') := m s in (wrap msg r, s').

Definition replace_errM {S A} (msg : string) (m : M S A) : M S A := fun s =>
  let '(r, s') := m s in (replace_err msg r, s').

(** [for i, x := range l { f(i, x) }], stopping at the first error. *)
Fixpoint rangeM {S A} (f : nat -> A -> M S unit) (i : nat) (l : list A) : M S unit :=
  match l with
  | [] => mret tt
  | x :: l => f i x ;; rangeM f (Datatypes.S i) l
  end.

Fixpoint rangeR {A} (f : nat -> A -> res unit) (i : nat) (l : list A) : res unit :=
  match l with
  | [] => Ok tt
  | x :: l => f i x ;; rangeR f (Datatypes.S i) l
  end.

(** ** Lemmas and automation on results *)

Lemma res_bind_Ok {A B} (m : res A) (f : A -> res B) b :
  (m ≫= f) = Ok b <-> exists a, m = Ok a /\ f a = Ok b.
Proof. destruct m; split; cbn; naive_solver. Qed.

Lemma M_bind_Ok {S A B} (m : M S A) (f : A -> M S B) s b s' :
  (m ≫= f) s = (Ok b, s') <-> exists a s1, m s = (Ok a, s1) /\ f a s1 = (Ok b, s').
Proof.
  unfold mbind, M_mbind. destruct (m s) as [[a|e|] s1]; naive_solver.
Qed.

Lemma bind_no_panic {A B} (m : res A) (f : A -> res B) : m <> Panic -> (forall a, f a <> Panic) -> m ≫= f <> Panic.
Proof. by destruct m; cbn. Qed.

Lemma wrap_no_panic {A} msg (r : res A) : r <> Panic -> wrap msg r <> Panic.
Proof. by destruct r. Qed.

Lemma wrap_Ok {A} msg (r : res A) a : wrap msg r = Ok a <-> r = Ok a.
Proof. destruct r; naive_solver. Qed.

Lemma join_err_Ok {A} e (r : res A) a : join_err e r = Ok a <-> r = Ok a.
Proof. destruct r; naive_solver. Qed.

Lemma omap_some {A} (l : list A) : omap id (Some <$> l) = l.
Proof. induction l as [|x l IH]; cbn; [done|by f_equal]. Qed.

Lemma err_join_Ok {A} e (r : res A) a : err_join r e = Ok a <-> r = Ok a.
Proof. destruct r; naive_solver. Qed.

Lemma join_err_no_panic {A} e (r : res A) : r <> Panic -> join_err e r <> Panic.
Proof. by destruct r. Qed.

Lemma err_join_no_panic {A} e (r : res A) : r <> Panic -> err_join r e <> Panic.
Proof. by destruct r. Qed.

Lemma replace_err_Ok {A} msg (r : res A) a : replace_err msg r = Ok a <-> r = Ok a.
Proof. destruct r; naive_solver. Qed.

Lemma reject_if_Ok b e u : reject_if b e = Ok u <-> b = false.
Proof. destruct b, u; naive_solver. Qed.

Lemma wrapM_Ok {S A} msg (m : M S A) s a s' :
  wrapM msg m s = (Ok a, s') <-> m s = (Ok a, s').
Proof. unfold wrapM. destruct (m s) as [[] ?]; naive_solver. Qed.

Lemma replace_errM_Ok {S A} msg (m : M S A) s a s' :
  replace_errM msg m s = (Ok a, s') <-> m s = (Ok a, s').
Proof. unfold replace_errM. destruct (m s) as [[] ?]; naive_solver. Qed.

Lemma lift_Ok {S A} (r : res A) (s : S) a s' :
  lift r s = (Ok a, s') <-> r = Ok a /\ s' = s.
Proof. unfold lift. naive_solver. Qed.

Lemma M_ret_Ok {S A} (x a : A) (s s' : S) :
  (mret x : M S A) s = (Ok a, s') <-> a = x /\ s' = s.
Proof. unfold mret, M_mret. naive_solver. Qed.

(** [res_inv] breaks every hypothesis that says a sequence of calls returned
    successfully into the successes of the individual calls. *)
Ltac res_inv_step :=
  match goal with
  | H : (_ ≫= _) _ = (Ok _, _) |- _ =>
      apply M_bind_Ok in H; destruct H as (? & ? & ? & ?)
  | H : (_ ≫= _) = Ok _ |- _ =>
      apply res_bind_Ok in H; destruct H as (? & ? & ?)
  | H : wrap _ _ = Ok _ |- _ => apply wrap_Ok in H
  | H : replace_err _ _ = Ok _ |- _ => apply replace_err_Ok in H
  | H : join_err _ _ = Ok _ |- _ => apply join_err_Ok in H
  | H : err_join _ _ = Ok _ |- _ => apply err_join_Ok in H
  | H : wrapM _ _ _ = (Ok _, _) |- _ => apply wrapM_Ok in H
  | H : replace_errM _ _ _ = (Ok _, _) |- _ => apply replace_errM_Ok in H
  | H : lift _ _ = (Ok _, _) |- _ => apply lift_Ok in H; destruct H as [? ?]
  | H : reject_if _ _ = Ok _ |- _ => apply reject_if_Ok in H
  | H : mret _ _ = (Ok _, _) |- _ => apply M_ret_Ok in H; destruct H as [? ?]
  | H : mret _ = Ok _ |- _ => unfold mret, res_mret in H
  | H : modifyS _ _ = (Ok _, _) |- _ => unfold modifyS in H
  | H : putS _ _ = (Ok _, _) |- _ => unfold putS in H
  | H : getS _ = (Ok _, _) |- _ => unfold getS in H
  | H : Ok _ = Ok _ |- _ => injection H as H
  | H : Err _ = Ok _ |- _ => discriminate H
  | H : Panic = Ok _ |- _ => discriminate H
  | H : (_, _) = (_, _) |- _ => injection H as H
  end.
Ltac res_inv := repeat (res_inv_step; simplify_eq/=).

(** Case analysis on the next [match] or [if] of a hypothesis. *)
Ltac case_hyp H :=
  match type of H with
  | context [match ?x with _ => _ end] => destruct x eqn:?
  end.

Create HintDb panurus.
Create Rewrite HintDb panurus.

Lemma rangeR_Ok {A} (f : nat -> A -> res unit) l i :
  rangeR f i l = Ok tt <-> forall k x, l !! k = Some x -> f (i + k) x = Ok tt.
Proof.
  revert i; induction l as [|y l IH]; intros i; cbn.
  - split; [intros _ k x; by rewrite lookup_nil|done].
  - rewrite res_bind_Ok. split.
    + intros ([] & Hy & Hl) [|k] x Hk; cbn in Hk; simplify_eq.
      * by rewrite Nat.add_0_r.
      * rewrite <- Nat.add_succ_comm. by apply IH.
    + intros Hall. exists tt. split.
      * rewrite <- (Nat.add_0_r i). by apply Hall.
      * apply IH. intros k x Hk. rewrite Nat.add_succ_comm. by apply Hall.
Qed.

Lemma rangeR_no_panic {A} (f : nat -> A -> res unit) l i :
  (forall k x, l !! k = Some x -> no_panic (f (i + k) x)) -> no_panic (rangeR f i l).
Proof.
  revert i; induction l as [|y l IH]; intros i H; cbn; [done|].
  pose proof (H 0 y eq_refl) as H0. rewrite Nat.add_0_r in H0.
  destruct (f i y); cbn; [|done..]. apply IH. intros k x Hk.
  rewrite Nat.add_succ_comm. by apply H.
Qed.

(** ** Go maps

    A Go map is represented by its entries in the order in which one run
    ranges over it; the theorems quantify over that order.  Keys are unique
    ([gomap_wf]). *)
Definition gomap (V : Type) : Type := list (bytes * V).

Definition gomap_wf {V} (m : gomap V) : Prop := NoDup m.*1.

Fixpoint gomap_get {V} (m : gomap V) (k : bytes) : option V :=
  match m with
  | [] => None
  | (k', v) :: m => if decide (k' = k) then Some v else gomap_get m k
  end.

Lemma gomap_get_elem {V} (m : gomap V) k v :
  gomap_get m k = Some v -> (k, v) ∈ m.
Proof.
  induction m as [|[k' v'] m IH]; cbn; [done|].
  case_decide; intros; simplify_eq; [left|right; auto].
Qed.

Lemma gomap_elem_get {V} (m : gomap V) k v :
  gomap_wf m -> (k, v) ∈ m -> gomap_get m k = Some v.
Proof.
  unfold gomap_wf. induction m as [|[k' v'] m IH]; cbn; [by intros ? ?%elem_of_nil|].
  intros [Hni Hnd]%NoDup_cons [|Hin]%elem_of_cons; simplify_eq.
  - by rewrite decide_True.
  - rewrite decide_False; [auto|]. intros ->. apply Hni.
    apply list_elem_of_fmap. by exists (k, v).
Qed.

(** ** Machine integers *)
Definition two64 : Z := 18446744073709551616.
Definition two63 : Z := 9223372036854775808.

(** Go's [uint64] wrap-around and the conversion [int(x)] of a [uint64] on a
    64-bit platform. *)
Definition u64 (z : Z) : Z := (z `mod` two64)%Z.
Definition int_of_u64 (z : Z) : Z := if (z <? two63)%Z then z else (z - two64)%Z.

(** The conversion [uint32(x)]. *)
Definition two32 : Z := 4294967296.
Definition u32 (z : Z) : Z := (z `mod` two32)%Z.

Definition zlen {A} (l : list A) : Z := Z.of_nat (length l).

Lemma zlen_nonneg {A} (l : list A) : (0 <= zlen l)%Z.
Proof. unfold zlen. lia. Qed.

Lemma zlen_app {A} (l k : list A) : zlen (l ++ k) = (zlen l + zlen k)%Z.
Proof. unfold zlen. rewrite length_app. lia. Qed.

Lemma zlen_cons {A} (x : A) l : zlen (x :: l) = (1 + zlen l)%Z.
Proof. unfold zlen. cbn. lia. Qed.

Lemma zlen_zero_nil {A} (l : list A) : zlen l = 0%Z -> l = [].
Proof. unfold zlen. destruct l; cbn; [done|lia]. Qed.

#[export] Hint Resolve zlen_nonneg b2z_range : panurus.
#[export] Hint Rewrite @zlen_app @zlen_cons : panurus.

(** ** Identities

    An identity is a byte slice of the smart client's [view.Identity]; its
    [Equal] compares the bytes and [IsNone] tests for the empty slice. *)
Class IdentityOps := {
  Identity_Equal : bytes -> bytes -> bool;
  Identity_IsNone : bytes -> bool;
  Identity_Equal_spec a b : Identity_Equal a b = true <-> a = b;
  Identity_IsNone_spec a : Identity_IsNone a = true <-> a = [];
}.

Program Definition bytes_identity : IdentityOps := {|
  Identity_Equal a b := bool_decide (a = b);
  Identity_IsNone a := bool_decide (a = []);
|}.
Next Obligation. intros. apply bool_decide_eq_true. Qed.
Next Obligation. intros. apply bool_decide_eq_true. Qed.

Lemma Identity_Equal_false `{!IdentityOps} a b : Identity_Equal a b = false <-> a <> b.
Proof. rewrite <- not_true_iff_false, Identity_Equal_spec. done. Qed.

Lemma existsb_Identity `{!IdentityOps} a l : existsb (Identity_Equal a) l = true <-> a ∈ l.
Proof.
  rewrite existsb_exists. split.
  - intros (x & Hx%list_elem_of_In & Heq%Identity_Equal_spec). by subst.
  - intros Hin. exists a. split; [by apply list_elem_of_In|by apply Identity_Equal_spec].
Qed.

(** A [driver.Verifier] is its [Verify] method, on a message and a signature. *)
Abbreviation verifier := (bytes -> bytes -> res unit).
