(* ===== verification/GoStd.v ===== *)
(** * Byte-level functions of Go's standard library used by the keys and
      scripts: crypto/sha256, encoding/hex, encoding/binary, unicode/utf8 *)

From S2P Require Import Prelude.
From Stdlib Require Import ZArith Lia.
Local Open Scope Z_scope.

(** ** SHA-256 (FIPS 180-4) on 32-bit words *)

Definition rotr (n x : Z) : Z := Z.lor (Z.shiftr x n) (u32 (Z.shiftl x (32 - n))).
Definition sha_not (x : Z) : Z := 4294967295 - x.
Definition sha_ch (x y z : Z) : Z := Z.lxor (Z.land x y) (Z.land (sha_not x) z).
Definition sha_maj (x y z : Z) : Z := Z.lxor (Z.lxor (Z.land x y) (Z.land x z)) (Z.land y z).
Definition sha_S0 (x : Z) : Z := Z.lxor (Z.lxor (rotr 2 x) (rotr 13 x)) (rotr 22 x).
Definition sha_S1 (x : Z) : Z := Z.lxor (Z.lxor (rotr 6 x) (rotr 11 x)) (rotr 25 x).
Definition sha_s0 (x : Z) : Z := Z.lxor (Z.lxor (rotr 7 x) (rotr 18 x)) (Z.shiftr x 3).
Definition sha_s1 (x : Z) : Z := Z.lxor (Z.lxor (rotr 17 x) (rotr 19 x)) (Z.shiftr x 10).

(** The round constants: the first 32 bits of the fractional parts of the cube
    roots of the first 64 primes. *)
Fixpoint cube_root (bits : nat) (n root : Z) : Z :=
  match bits with
  | O => root
  | S b => let r := root + 2 ^ Z.of_nat b in cube_root b n (if r * r * r <=? n then r else root)
  end.

Definition first_primes : list Z :=
  filter (fun n => forallb (fun d => negb (n mod d =? 0)) (filter (fun d => d < n) (Z.of_nat <$> seq 2 311)))
    (Z.of_nat <$> seq 2 310).

Definition sha_K : list Z :=
  Eval vm_compute in (fun q => u32 (cube_root 36 (q * 2 ^ 96) 0)) <$> first_primes.

Record sha_state := mkSha { sa : Z; sb : Z; sc : Z; sd : Z; se : Z; sf : Z; sg : Z; sh : Z }.

Definition sha_init : sha_state :=
  mkSha 0x6a09e667 0xbb67ae85 0x3c6ef372 0xa54ff53a 0x510e527f 0x9b05688c 0x1f83d9ab 0x5be0cd19.

(** One round with the schedule as a sliding window of sixteen words. *)
Definition sha_round (k : Z) (st : list Z * sha_state) : list Z * sha_state :=
  let '(w, s) := st in
  let w0 := nth 0 w 0 in
  let t1 := sh s + sha_S1 (se s) + sha_ch (se s) (sf s) (sg s) + k + w0 in
  let t2 := sha_S0 (sa s) + sha_maj (sa s) (sb s) (sc s) in
  let w16 := u32 (sha_s1 (nth 14 w 0) + nth 9 w 0 + sha_s0 (nth 1 w 0) + w0) in
  (drop 1 w ++ [w16],
   mkSha (u32 (t1 + t2)) (sa s) (sb s) (sc s) (u32 (sd s + t1)) (se s) (sf s) (sg s)).

Definition sha_block (s : sha_state) (w : list Z) : sha_state :=
  let '(_, r) := foldl (fun st k => sha_round k st) (w, s) sha_K in
  mkSha (u32 (sa s + sa r)) (u32 (sb s + sb r)) (u32 (sc s + sc r)) (u32 (sd s + sd r))
        (u32 (se s + se r)) (u32 (sf s + sf r)) (u32 (sg s + sg r)) (u32 (sh s + sh r)).

Fixpoint words32 (l : bytes) : list Z :=
  match l with
  | a :: b :: c :: d :: l => (((b2z a * 256 + b2z b) * 256 + b2z c) * 256 + b2z d) :: words32 l
  | _ => []
  end.

Definition be_bytes (n : nat) (z : Z) : bytes :=
  (fun i => z2b (Z.shiftr z (8 * Z.of_nat (n - 1 - i)))) <$> seq 0 n.

Definition sha_pad (m : bytes) : bytes :=
  m ++ z2b 128 :: replicate (Z.to_nat ((55 - zlen m) `mod` 64)) (z2b 0) ++ be_bytes 8 (8 * zlen m).

Fixpoint sha_blocks (n : nat) (s : sha_state) (w : list Z) : sha_state :=
  match n with
  | O => s
  | S n => sha_blocks n (sha_block s (take 16 w)) (drop 16 w)
  end.

Definition sha256 (m : bytes) : bytes :=
  let w := words32 (sha_pad m) in
  let s := sha_blocks (length w / 16) sha_init w in
  be_bytes 4 (sa s) ++ be_bytes 4 (sb s) ++ be_bytes 4 (sc s) ++ be_bytes 4 (sd s) ++
  be_bytes 4 (se s) ++ be_bytes 4 (sf s) ++ be_bytes 4 (sg s) ++ be_bytes 4 (sh s).

Lemma sha256_length m : length (sha256 m) = 32%nat.
Proof. reflexivity. Qed.

(** ** encoding/hex: [EncodeToString] *)

Definition hex_digit (d : Z) : byte := z2b (if d <? 10 then 48 + d else 87 + d).

Definition hex_EncodeToString (l : bytes) : bytes :=
  concat ((fun b => [hex_digit (b2z b `div` 16); hex_digit (b2z b `mod` 16)]) <$> l).

Example sha256_abc :
  hex_EncodeToString (sha256 (str "abc"))
  = str "ba7816bf8f01cfea414140de5dae2223b00361a396177a9cb410ff61f20015ad".
Proof. vm_compute. reflexivity. Qed.

Example sha256_two_blocks :
  hex_EncodeToString (sha256 (str "abcdbcdecdefdefgefghfghighijhijkijkljklmklmnlmnomnopnopq"))
  = str "248d6a61d20638b8e5c026930c3e6039a33ce45964ff2167f6ecedd419db06c1".
Proof. vm_compute. reflexivity. Qed.

Lemma hex_digit_inj d d' : 0 <= d < 16 -> 0 <= d' < 16 -> hex_digit d = hex_digit d' -> d = d'.
Proof.
  intros H H' E. apply (f_equal b2z) in E. unfold hex_digit in E.
  destruct (Z.ltb_spec d 10), (Z.ltb_spec d' 10); rewrite !b2z_z2b_small in E by lia; lia.
Qed.

Lemma hex_inj a : forall b, hex_EncodeToString a = hex_EncodeToString b -> a = b.
Proof.
  induction a as [|x a IH]; intros [|y b]; [done|done|done|]. intros H.
  injection H as H1 H2 H. pose proof (b2z_range x). pose proof (b2z_range y).
  pose proof (Z.div_mod (b2z x) 16 ltac:(lia)). pose proof (Z.div_mod (b2z y) 16 ltac:(lia)).
  pose proof (Z.mod_pos_bound (b2z x) 16 ltac:(lia)). pose proof (Z.mod_pos_bound (b2z y) 16 ltac:(lia)).
  apply hex_digit_inj in H1, H2; [|lia..].
  f_equal; [apply b2z_inj; lia|by apply IH].
Qed.

Lemma hex_digit_range d : 0 <= d < 16 -> 48 <= b2z (hex_digit d) < 128.
Proof.
  intros H. unfold hex_digit. destruct (Z.ltb_spec d 10); rewrite b2z_z2b_small by lia; lia.
Qed.

Lemma hex_ascii l : Forall (fun c => 48 <= b2z c < 128) (hex_EncodeToString l).
Proof.
  induction l as [|x l IH]; [constructor|]. change (hex_EncodeToString (x :: l))
    with (hex_digit (b2z x `div` 16) :: hex_digit (b2z x `mod` 16) :: hex_EncodeToString l).
  pose proof (b2z_range x). pose proof (Z.div_mod (b2z x) 16 ltac:(lia)).
  pose proof (Z.mod_pos_bound (b2z x) 16 ltac:(lia)).
  repeat constructor; try apply hex_digit_range; try done; lia.
Qed.

(** ** encoding/binary: [LittleEndian.PutUint64] *)

Definition le_bytes (n : nat) (z : Z) : bytes :=
  (fun i => z2b (Z.shiftr z (8 * Z.of_nat i))) <$> seq 0 n.

Lemma le_bytes_length n z : length (le_bytes n z) = n.
Proof. unfold le_bytes. by rewrite length_fmap, length_seq. Qed.

Lemma le_bytes_inj n x y : 0 <= x < 2 ^ (8 * Z.of_nat n) -> 0 <= y < 2 ^ (8 * Z.of_nat n) ->
  le_bytes n x = le_bytes n y -> x = y.
Proof.
  intros Hx Hy H. apply Z.bits_inj'. intros k Hk.
  destruct (Z.lt_ge_cases k (8 * Z.of_nat n)) as [Hlt|Hge].
  - assert (Hi : (Z.to_nat (k / 8) < n)%nat).
    { apply Nat2Z.inj_lt. rewrite Z2Nat.id by (apply Z.div_pos; lia). apply Z.div_lt_upper_bound; lia. }
    assert (E : forall z, le_bytes n z !! Z.to_nat (k / 8) = Some (z2b (Z.shiftr z (8 * (k / 8))))).
    { intros z. unfold le_bytes. rewrite list_lookup_fmap, lookup_seq_lt by done. cbn.
      rewrite Z2Nat.id by (apply Z.div_pos; lia). done. }
    pose proof (E x) as Ex. rewrite H, E in Ex. injection Ex as Ex.
    apply (f_equal b2z) in Ex. rewrite !b2z_z2b in Ex.
    change 256 with (2 ^ 8) in Ex. rewrite <- !Z.land_ones in Ex by lia.
    apply (f_equal (fun z => Z.testbit z (k mod 8))) in Ex.
    pose proof (Z.mod_pos_bound k 8 ltac:(lia)). pose proof (Z.div_pos k 8 ltac:(lia) ltac:(lia)).
    rewrite !Z.land_spec, !Z.ones_spec_low, !andb_true_r, !Z.shiftr_spec in Ex by lia.
    replace (k mod 8 + 8 * (k / 8)) with k in Ex by (pose proof (Z.div_mod k 8); lia). done.
  - assert (Hb : forall z, 0 <= z < 2 ^ (8 * Z.of_nat n) -> Z.testbit z k = false).
    { intros z Hz. destruct (Z.eq_dec z 0) as [->|]; [apply Z.bits_0|].
      apply Z.bits_above_log2; [lia|]. assert (Z.log2 z < 8 * Z.of_nat n) by (apply Z.log2_lt_pow2; lia). lia. }
    by rewrite !Hb.
Qed.

(** ** unicode/utf8 *)

(** The rune at the head of a string and its width, [None] for an invalid
    encoding; the ranges of the second byte are those of Go's table. *)
Definition in_range (lo hi : Z) (b : byte) : bool := (lo <=? b2z b) && (b2z b <=? hi).
Definition is_cont (b : byte) : bool := in_range 128 191 b.
Definition cont (acc : Z) (b : byte) : Z := acc * 64 + (b2z b - 128).

Definition DecodeRune (s : bytes) : option (Z * bytes) :=
  match s with
  | [] => None
  | b0 :: s1 =>
      let x := b2z b0 in
      if x <? 128 then Some (x, s1)
      else match s1 with
      | b1 :: s2 =>
          if (194 <=? x) && (x <=? 223) then
            if is_cont b1 then Some (cont (x - 192) b1, s2) else None
          else match s2 with
          | b2 :: s3 =>
              if (224 <=? x) && (x <=? 239) then
                if in_range (if x =? 224 then 160 else 128) (if x =? 237 then 159 else 191) b1
                   && is_cont b2
                then Some (cont (cont (x - 224) b1) b2, s3) else None
              else match s3 with
              | b3 :: s4 =>
                  if (240 <=? x) && (x <=? 244) then
                    if in_range (if x =? 240 then 144 else 128) (if x =? 244 then 143 else 191) b1
                       && is_cont b2 && is_cont b3
                    then Some (cont (cont (cont (x - 240) b1) b2) b3, s4) else None
                  else None
              | [] => None
              end
          | [] => None
          end
      | [] => None
      end
  end.

(** The runes of a string; [None] when it is not valid UTF-8.  Every rune
    consumes at least one byte, so the length of the string is enough fuel. *)
Fixpoint runes_fuel (fuel : nat) (s : bytes) : option (list Z) :=
  match s with
  | [] => Some []
  | _ => match fuel with
         | O => None
         | S fuel => '(r, s') ← DecodeRune s; l ← runes_fuel fuel s'; Some (r :: l)
         end
  end.

Definition runes (s : bytes) : option (list Z) := runes_fuel (length s) s.

Definition ValidString (s : bytes) : bool := if runes s then true else false.

Lemma is_cont_pos b : is_cont b = true -> 128 <= b2z b.
Proof. unfold is_cont, in_range. intros [?%Z.leb_le _]%andb_true_iff. done. Qed.

Lemma in_range_pos lo hi b : 128 <= lo -> in_range lo hi b = true -> 128 <= b2z b.
Proof. unfold in_range. intros ? [?%Z.leb_le _]%andb_true_iff. lia. Qed.

(** A decoded rune is either one ASCII byte or a sequence of bytes above 127. *)
Lemma DecodeRune_shape s r s' : DecodeRune s = Some (r, s') ->
  exists p, s = p ++ s' /\ p <> [] /\
    ((exists b, p = [b] /\ r = b2z b /\ r < 128) \/ Forall (fun b => 128 <= b2z b) p).
Proof.
  destruct s as [|b0 s1]; [done|]. unfold DecodeRune.
  destruct (Z.ltb_spec (b2z b0) 128) as [Hlt|Hge].
  { intros [= <- <-]. exists [b0]. split_and!; [done|done|left; eauto]. }
  destruct s1 as [|b1 s2]; [done|].
  destruct ((194 <=? b2z b0) && (b2z b0 <=? 223)).
  { destruct (is_cont b1) eqn:E1; [|done]. intros [= <- <-]. exists [b0; b1].
    split_and!; [done|done|right]. repeat constructor; eauto using is_cont_pos. }
  destruct s2 as [|b2 s3]; [done|].
  destruct ((224 <=? b2z b0) && (b2z b0 <=? 239)).
  { destruct (_ && _) eqn:E; [|done]. apply andb_true_iff in E as [E1 E2].
    intros [= <- <-]. exists [b0; b1; b2]. split_and!; [done|done|right].
    repeat constructor; eauto using is_cont_pos.
    eapply in_range_pos; [|exact E1]. case_match; lia. }
  destruct s3 as [|b3 s4]; [done|].
  destruct ((240 <=? b2z b0) && (b2z b0 <=? 244)); [|done].
  destruct (_ && _) eqn:E; [|done]. apply andb_true_iff in E as [E E3].
  apply andb_true_iff in E as [E1 E2].
  intros [= <- <-]. exists [b0; b1; b2; b3]. split_and!; [done|done|right].
  repeat constructor; eauto using is_cont_pos.
  eapply in_range_pos; [|exact E1]. case_match; lia.
Qed.

(** The fuel is enough: more of it changes nothing, so [runes] satisfies the
    equation of the loop. *)
Lemma runes_fuel_enough n : forall f s, (length s <= n)%nat -> (length s <= f)%nat -> runes_fuel f s = runes_fuel n s.
Proof.
  induction n as [|n IH]; intros f [|b s] Hn Hf; cbn [length] in Hn, Hf; try lia; try (by destruct f).
  destruct f as [|f]; [lia|]. cbn [runes_fuel]. destruct (DecodeRune (b :: s)) as [[r s']|] eqn:E; [|done].
  apply DecodeRune_shape in E as (q & Hs & Hq & _). apply (f_equal length) in Hs. rewrite length_app in Hs.
  destruct q; [done|]. cbn in Hs. cbn. rewrite (IH f); [done|lia|lia].
Qed.

Lemma runes_equation s : runes s = match s with
                                   | [] => Some []
                                   | _ => '(r, s') ← DecodeRune s; l ← runes s'; Some (r :: l)
                                   end.
Proof.
  destruct s as [|b s]; [done|]. unfold runes at 1. cbn [length runes_fuel].
  destruct (DecodeRune (b :: s)) as [[r s']|] eqn:E; [|done].
  apply DecodeRune_shape in E as (q & Hs & Hq & _). apply (f_equal length) in Hs. rewrite length_app in Hs.
  destruct q; [done|]. cbn in Hs. cbn [mbind option_bind]. unfold runes. rewrite (runes_fuel_enough (length s')); [done|lia|lia].
Qed.

Lemma runes_fuel_nul fuel s l : runes_fuel fuel s = Some l -> 0 ∉ l -> z2b 0 ∉ s.
Proof.
  revert s l; induction fuel as [|fuel IH]; intros [|b s] l; cbn [runes_fuel].
  - intros _ _. apply not_elem_of_nil.
  - done.
  - intros _ _. apply not_elem_of_nil.
  - intros ([r s'] & Hd & (l' & Hl & [= <-])%bind_Some)%bind_Some Hnl.
    apply not_elem_of_cons in Hnl as [Hr Hnl].
    apply DecodeRune_shape in Hd as (p & -> & _ & Hp). rewrite elem_of_app. intros [Hin|Hin].
    + destruct Hp as [(c & -> & -> & _)|Hp].
      * apply list_elem_of_singleton in Hin as <-. apply Hr. reflexivity.
      * eapply (proj1 (Forall_forall _ _)) in Hp; [|exact Hin]. vm_compute in Hp. done.
    + by eapply IH.
Qed.

Lemma runes_ascii s : Forall (fun b => b2z b < 128) s -> runes s = Some (b2z <$> s).
Proof.
  unfold runes. induction 1 as [|b s Hb _ IH]; [done|]. cbn -[DecodeRune].
  unfold DecodeRune. destruct (Z.ltb_spec (b2z b) 128); [|lia]. cbn. by rewrite IH.
Qed.

(** ** encoding/base64: [StdEncoding.EncodeToString] *)

Definition b64_char (d : Z) : byte :=
  z2b (if d <? 26 then 65 + d
       else if d <? 52 then 97 + (d - 26)
       else if d <? 62 then 48 + (d - 52)
       else if d =? 62 then 43 else 47).

Fixpoint base64_EncodeToString (l : bytes) : bytes :=
  match l with
  | [] => []
  | [a] =>
      [b64_char (b2z a `div` 4); b64_char (b2z a `mod` 4 * 16); z2b 61; z2b 61]
  | [a; b] =>
      [b64_char (b2z a `div` 4); b64_char (b2z a `mod` 4 * 16 + b2z b `div` 16);
       b64_char (b2z b `mod` 16 * 4); z2b 61]
  | a :: b :: c :: l =>
      b64_char (b2z a `div` 4) :: b64_char (b2z a `mod` 4 * 16 + b2z b `div` 16) ::
      b64_char (b2z b `mod` 16 * 4 + b2z c `div` 64) :: b64_char (b2z c `mod` 64) ::
      base64_EncodeToString l
  end.

Example base64_foobar : base64_EncodeToString (str "foobar") = str "Zm9vYmFy" /\
  base64_EncodeToString (str "foob") = str "Zm9vYg==" /\ base64_EncodeToString (str "fooba") = str "Zm9vYmE=".
Proof. vm_compute. done. Qed.
