(* ===== verification/Quantity.v ===== *)
(** * Token quantities (token/token/quantity.go)

    [Quantity] is Go's interface with its two implementations, a 64-bit
    machine integer and an arbitrary-precision integer that carries its
    precision in bits, plus the nil interface value.  The parser
    [SetString0] is [big.Int.SetString(q, 0)], the printers are
    [strconv.FormatUint] and [big.Int.Text].  The lemmas relate both
    representations to the integers they denote. *)

From S2P Require Import Prelude.
From Stdlib Require Import ZArith Lia.
Local Open Scope Z_scope.

(** ** Numerals: what the source uses of [math/big] and [strconv] *)

Definition ch (s : string) : byte := default Byte.x00 (head (str s)).

(** The digit value of a character for bases up to 36, as in [nat.scan]. *)
Definition digit_val (c : byte) : option Z :=
  let z := b2z c in
  if (48 <=? z) && (z <=? 57) then Some (z - 48)
  else if (97 <=? z) && (z <=? 122) then Some (z - 97 + 10)
  else if (65 <=? z) && (z <=? 90) then Some (z - 65 + 10)
  else None.

(** The state of the digit loop of [nat.scan] with base argument 0:
    [prev] is the previously seen character class. *)
Inductive prev_class := PDot | PDigit | PSep.

Record scan_result := ScanResult {
  sc_value : Z;       (** the digits read so far *)
  sc_count : Z;       (** how many digits *)
  sc_bad : bool;      (** a misplaced separator was seen *)
  sc_prev : prev_class;
  sc_rest : bytes;    (** the unread input *)
}.

Fixpoint scan_digits (b : Z) (acc count : Z) (bad : bool) (prev : prev_class) (s : bytes)
    : scan_result :=
  match s with
  | [] => ScanResult acc count bad prev []
  | c :: s' =>
      if decide (c = ch "_") then
        let bad' := match prev with PDigit => bad | _ => true end in
        scan_digits b acc count bad' PSep s'
      else
        match digit_val c with
        | Some d =>
            if d <? b then scan_digits b (acc * b + d) (count + 1) bad PDigit s'
            else ScanResult acc count bad prev s
        | None => ScanResult acc count bad prev s
        end
  end.

(** [nat.scan(r, 0, false)]: value and unread input, [None] on an error. *)
Definition nat_scan0 (s : bytes) : option (Z * bytes) :=
  let finish (octal0 : bool) (r : scan_result) :=
    if sc_bad r || match sc_prev r with PSep => true | _ => false end then None
    else if sc_count r =? 0 then
      (if octal0 then Some (0, sc_rest r) else None)
    else Some (sc_value r, sc_rest r) in
  match s with
  | c :: s1 =>
      if decide (c = ch "0") then
        match s1 with
        | [] => Some (0, [])
        | p :: s2 =>
            if decide (p = ch "b" \/ p = ch "B") then finish false (scan_digits 2 0 0 false PDigit s2)
            else if decide (p = ch "o" \/ p = ch "O") then finish false (scan_digits 8 0 0 false PDigit s2)
            else if decide (p = ch "x" \/ p = ch "X") then finish false (scan_digits 16 0 0 false PDigit s2)
            else finish true (scan_digits 8 0 0 false PDigit s1)
        end
      else finish false (scan_digits 10 0 0 false PDot s)
  | [] => finish false (scan_digits 10 0 0 false PDot s)
  end.

(** [new(big.Int).SetString(s, 0)]: an optional sign, a numeral, and the
    whole string must be consumed. *)
Definition SetString0 (s : bytes) : option Z :=
  match s with
  | [] => None
  | c :: s' =>
      let '(neg, s1) :=
        if decide (c = ch "-") then (true, s')
        else if decide (c = ch "+") then (false, s')
        else (false, s) in
      match nat_scan0 s1 with
      | Some (v, []) => Some (if neg : bool then - v else v)
      | _ => None
      end
  end.

(** The lower-case digits of a non-negative number, as printed by
    [strconv.FormatUint] and [big.Int.Text]; [fuel] bounds the digits. *)
Definition digit_char (d : Z) : byte := z2b (if d <? 10 then 48 + d else 87 + d).

Fixpoint digits_rev (fuel : nat) (base n : Z) : bytes :=
  match fuel with
  | O => []
  | S f => digit_char (n mod base) ::
           (if n / base =? 0 then [] else digits_rev f base (n / base))
  end.

Definition format_nat (base n : Z) : bytes :=
  rev (digits_rev (S (Z.to_nat (Z.log2 n))) base n).

(** [x.Text(base)] of a [big.Int]. *)
Definition Text (base n : Z) : bytes :=
  if n <? 0 then ch "-" :: format_nat base (- n) else format_nat base n.

(** [x.BitLen()]: the length of the absolute value in bits. *)
Definition BitLen (v : Z) : Z := if v =? 0 then 0 else Z.log2 (Z.abs v) + 1.

(** ** The interface and its implementations *)

Inductive Quantity : Type :=
| UInt64Quantity (Value : Z)
| BigQuantity (Int : Z) (Precision : Z)
| NilQuantity.

Definition validateBigIntForQuantity (v precision : Z) : res unit :=
  if v <? 0 then Err (EMsg "quantity must be larger than 0")
  else if BitLen v >? int_of_u64 precision then Err (EMsg "has precision")
  else Ok tt.

Definition ToQuantity (q : bytes) (precision : Z) : res Quantity :=
  if precision =? 0 then Err (EMsg "precision must be larger than 0")
  else match SetString0 q with
       | None => Err (EMsg "invalid input")
       | Some v =>
           validateBigIntForQuantity v precision ;;
           if precision =? 64 then Ok (UInt64Quantity (u64 v))
           else Ok (BigQuantity v precision)
       end.

Definition UInt64ToQuantity (u precision : Z) : res Quantity :=
  if precision =? 0 then Err (EMsg "precision must be larger than 0")
  else if precision =? 64 then Ok (UInt64Quantity u)
  else if BitLen u >? int_of_u64 precision then Err (EMsg "has precision")
  else Ok (BigQuantity u precision).

Definition NewZeroQuantity (precision : Z) : Quantity :=
  if precision =? 64 then UInt64Quantity 0 else BigQuantity 0 precision.

Definition NewOneQuantity (precision : Z) : Quantity :=
  if precision =? 64 then UInt64Quantity 1 else BigQuantity 1 precision.

Definition NewUBigQuantity (q : bytes) (precision : Z) : res Quantity :=
  if precision =? 0 then Err (EMsg "precision must be larger than 0")
  else match SetString0 q with
       | None => Err (EMsg "invalid input")
       | Some v => validateBigIntForQuantity v precision ;; Ok (BigQuantity v precision)
       end.

Definition NewQuantityFromUInt64 (q : Z) : Quantity := UInt64Quantity q.

Definition BigQuantity_Add (Int Precision : Z) (b : Quantity) : res Quantity :=
  match b with
  | BigQuantity bInt _ =>
      let sum := Int + bInt in
      if BitLen sum >? int_of_u64 Precision then Err (EMsg "overflow: exceeds precision")
      else Ok (BigQuantity sum Precision)
  | _ => Err (EMsg "expected BigQuantity")
  end.

Definition BigQuantity_Sub (Int Precision : Z) (b : Quantity) : res Quantity :=
  match b with
  | BigQuantity bInt _ =>
      if Int <? bInt then Err (EMsg "underflow")
      else Ok (BigQuantity (Int - bInt) Precision)
  | _ => Err (EMsg "expected BigQuantity")
  end.

(** [x.Cmp(y)] of [big.Int]. *)
Definition big_Cmp (x y : Z) : Z :=
  match x ?= y with Lt => -1 | Eq => 0 | Gt => 1 end.

Definition BigQuantity_Cmp (Int : Z) (b : Quantity) : res Z :=
  match b with
  | BigQuantity bInt _ => Ok (big_Cmp Int bInt)
  | UInt64Quantity v => if BitLen Int >? 64 then Ok 1 else Ok (big_Cmp Int v)
  | NilQuantity => Panic
  end.

Definition UInt64Quantity_Add (Value : Z) (b : Quantity) : res Quantity :=
  match b with
  | UInt64Quantity bValue =>
      let sum := u64 (Value + bValue) in
      if sum <? Value then Err (EMsg "overflow: exceeds uint64")
      else Ok (UInt64Quantity sum)
  | _ => Err (EMsg "expected UInt64Quantity")
  end.

Definition UInt64Quantity_Sub (Value : Z) (b : Quantity) : res Quantity :=
  match b with
  | UInt64Quantity bValue =>
      if bValue >? Value then Err (EMsg "underflow")
      else Ok (UInt64Quantity (u64 (Value - bValue)))
  | _ => Err (EMsg "expected UInt64Quantity")
  end.

Definition UInt64Quantity_Cmp (Value : Z) (b : Quantity) : res Z :=
  match b with
  | UInt64Quantity bValue =>
      if Value <? bValue then Ok (-1) else if Value >? bValue then Ok 1 else Ok 0
  | BigQuantity bInt _ => if BitLen bInt >? 64 then Ok (-1) else Ok (big_Cmp Value bInt)
  | NilQuantity => Panic
  end.

(** Dynamic dispatch of the interface; a method call on nil panics. *)
Definition Add (q b : Quantity) : res Quantity :=
  match q with
  | UInt64Quantity v => UInt64Quantity_Add v b
  | BigQuantity i p => BigQuantity_Add i p b
  | NilQuantity => Panic
  end.

Definition Sub (q b : Quantity) : res Quantity :=
  match q with
  | UInt64Quantity v => UInt64Quantity_Sub v b
  | BigQuantity i p => BigQuantity_Sub i p b
  | NilQuantity => Panic
  end.

Definition Cmp (q b : Quantity) : res Z :=
  match q with
  | UInt64Quantity v => UInt64Quantity_Cmp v b
  | BigQuantity i _ => BigQuantity_Cmp i b
  | NilQuantity => Panic
  end.

Definition BigQuantity_Hex (Int : Z) : bytes := str "0x" ++ Text 16 Int.
Definition BigQuantity_Decimal (Int : Z) : bytes := Text 10 Int.
Definition UInt64Quantity_Hex (Value : Z) : bytes := str "0x" ++ format_nat 16 Value.
Definition UInt64Quantity_Decimal (Value : Z) : bytes := format_nat 10 Value.

Definition Hex (q : Quantity) : res bytes :=
  match q with
  | UInt64Quantity v => Ok (UInt64Quantity_Hex v)
  | BigQuantity i _ => Ok (BigQuantity_Hex i)
  | NilQuantity => Panic
  end.

Definition Decimal (q : Quantity) : res bytes :=
  match q with
  | UInt64Quantity v => Ok (UInt64Quantity_Decimal v)
  | BigQuantity i _ => Ok (BigQuantity_Decimal i)
  | NilQuantity => Panic
  end.

Definition ToBigInt (q : Quantity) : res Z :=
  match q with
  | UInt64Quantity v => Ok v
  | BigQuantity i _ => Ok i
  | NilQuantity => Panic
  end.

(** [ToQuantitySum]: the step of the reducer, whose [recover] turns a panic
    into an error, and the reduction of a sequence of quantities. *)
Definition recover {A} (msg : string) (r : res A) : res A :=
  match r with Panic => Err (EMsg msg) | _ => r end.

Definition sum_step (precision : Z) (sum : Quantity) (quantity : bytes) : res Quantity :=
  recover "failed to sum quantities" (q ← ToQuantity quantity precision; Add sum q).

Definition ToQuantitySum (precision : Z) (quantities : list bytes) : res Quantity :=
  foldl (fun acc q => sum ← acc; sum_step precision sum q)
        (Ok (NewZeroQuantity precision)) quantities.

(** ** What a quantity denotes *)

Definition value (q : Quantity) : Z :=
  match q with
  | UInt64Quantity v => v
  | BigQuantity i _ => i
  | NilQuantity => 0
  end.

(** A quantity of precision [p]: its value fits in [p] bits.  The precision
    is below 2^63, where Go's conversion [int(precision)] is exact. *)
Definition wf (p : Z) (q : Quantity) : Prop :=
  match q with
  | UInt64Quantity v => p = 64 /\ 0 <= v < 2 ^ 64
  | BigQuantity i p' => p' = p /\ 0 < p < two63 /\ 0 <= i < 2 ^ p
  | NilQuantity => False
  end.

Definition same_repr (a b : Quantity) : Prop :=
  match a, b with
  | UInt64Quantity _, UInt64Quantity _ => True
  | BigQuantity _ _, BigQuantity _ _ => True
  | _, _ => False
  end.

(** The representation [ToQuantity] chooses for precision [p]. *)
Definition mkQuantity (p v : Z) : Quantity :=
  if p =? 64 then UInt64Quantity v else BigQuantity v p.

(** ** Lemmas *)

Lemma BitLen_le v p : 0 <= v -> 0 <= p -> BitLen v <= p <-> v < 2 ^ p.
Proof.
  intros Hv Hp. unfold BitLen. destruct (Z.eqb_spec v 0) as [->|Hne].
  - split; [intros _; lia|lia].
  - rewrite Z.abs_eq by lia. pose proof (Z.log2_lt_pow2 v p ltac:(lia)). lia.
Qed.

Lemma int_of_u64_small p : p < two63 -> int_of_u64 p = p.
Proof. intros. unfold int_of_u64. destruct (Z.ltb_spec p two63); lia. Qed.

Lemma BitLen_gt_dec v p : 0 <= v -> 0 < p < two63 ->
  (BitLen v >? int_of_u64 p) = negb (v <? 2 ^ p).
Proof.
  intros Hv Hp. rewrite int_of_u64_small by lia.
  pose proof (BitLen_le v p Hv ltac:(lia)).
  destruct (Z.ltb_spec v (2 ^ p)); cbn; rewrite Z.gtb_ltb;
    [apply Z.ltb_ge; lia|apply Z.ltb_lt; lia].
Qed.

Lemma u64_small v : 0 <= v < 2 ^ 64 -> u64 v = v.
Proof. intros. apply Z.mod_small. unfold two64. lia. Qed.

Lemma wf_mkQuantity p v : 0 < p < two63 -> 0 <= v < 2 ^ p -> wf p (mkQuantity p v).
Proof.
  intros Hp Hv. unfold mkQuantity. destruct (Z.eqb_spec p 64); subst; cbn; auto.
Qed.

Lemma value_mkQuantity p v : value (mkQuantity p v) = v.
Proof. unfold mkQuantity. by destruct (p =? 64). Qed.

Lemma same_repr_mkQuantity p v w : same_repr (mkQuantity p v) (mkQuantity p w).
Proof. unfold mkQuantity. by destruct (p =? 64). Qed.

Lemma wf_range p q : wf p q -> 0 <= value q < 2 ^ p.
Proof. destruct q; cbn; intros; destruct_and?; subst; lia. Qed.

Lemma wf_precision p q : wf p q -> 0 < p < two63.
Proof. destruct q; cbn; intros; destruct_and?; subst; unfold two63 in *; lia. Qed.

Lemma NewZeroQuantity_mk p : NewZeroQuantity p = mkQuantity p 0.
Proof. done. Qed.

Lemma validate_spec v p : 0 < p < two63 ->
  validateBigIntForQuantity v p = Ok tt <-> 0 <= v < 2 ^ p.
Proof.
  intros Hp. unfold validateBigIntForQuantity.
  destruct (Z.ltb_spec v 0); [split; [done|lia]|].
  rewrite BitLen_gt_dec by lia. destruct (Z.ltb_spec v (2 ^ p)); cbn; (split; [intros; try done; lia|intros; try done; lia]).
Qed.

Lemma ToQuantity_mk s p v : 0 < p < two63 ->
  SetString0 s = Some v -> 0 <= v < 2 ^ p -> ToQuantity s p = Ok (mkQuantity p v).
Proof.
  intros Hp Hs Hv. unfold ToQuantity, mkQuantity.
  destruct (Z.eqb_spec p 0); [lia|]. rewrite Hs.
  rewrite (proj2 (validate_spec v p Hp) Hv). cbn.
  destruct (Z.eqb_spec p 64); subst; [by rewrite u64_small|done].
Qed.

Lemma ToQuantity_inv s p q : 0 < p < two63 -> ToQuantity s p = Ok q ->
  exists v, SetString0 s = Some v /\ 0 <= v < 2 ^ p /\ q = mkQuantity p v.
Proof.
  intros Hp. unfold ToQuantity. destruct (Z.eqb_spec p 0); [lia|].
  destruct (SetString0 s) as [v|]; [|done]. intros ([] & Hv%validate_spec & Hq)%res_bind_Ok; [|done]. exists v.
  unfold mkQuantity. destruct (Z.eqb_spec p 64); simplify_eq; [|done].
  by rewrite u64_small.
Qed.

(** Both outcomes of an addition, for either representation. *)
Lemma Add_cases p a b : wf p a -> wf p b -> same_repr a b ->
  if value a + value b <? 2 ^ p
  then exists c, Add a b = Ok c /\ wf p c /\ same_repr a c /\ value c = value a + value b
  else exists e, Add a b = Err e.
Proof.
  destruct a as [v|i p1|], b as [w|j p2|]; cbn; try done; intros Ha Hb _; destruct_and?; subst.
  - unfold u64, two64. destruct (Z.ltb_spec (v + w) (2 ^ 64)).
    + rewrite Z.mod_small by lia. destruct (Z.ltb_spec (v + w) v); [lia|].
      eexists; split_and!; [done|cbn; lia..].
    + replace ((v + w) mod 18446744073709551616) with (v + w - 2 ^ 64).
      * destruct (Z.ltb_spec (v + w - 2 ^ 64) v); [eauto|lia].
      * apply Z.mod_unique with (q := 1); lia.
  - rewrite BitLen_gt_dec by lia. destruct (Z.ltb_spec (i + j) (2 ^ p)); cbn; [|eauto].
    eexists; split_and!; [done|cbn; lia..].
Qed.

Lemma Add_Ok_iff p a b c : wf p a -> wf p b -> same_repr a b ->
  Add a b = Ok c -> wf p c /\ same_repr a c /\ value c = value a + value b /\ value a + value b < 2 ^ p.
Proof.
  intros Ha Hb Hs HA. pose proof (Add_cases p a b Ha Hb Hs) as H.
  destruct (Z.ltb_spec (value a + value b) (2 ^ p)).
  - destruct H as (c' & H1 & ?). assert (c' = c) as -> by congruence. naive_solver.
  - destruct H as [e H]. congruence.
Qed.

(** ** Numerals: printing then parsing *)

Fixpoint zdigits (fuel : nat) (base n : Z) : list Z :=
  match fuel with
  | O => []
  | S f => n mod base :: (if n / base =? 0 then [] else zdigits f base (n / base))
  end.

Definition digits_value (base acc : Z) (ds : list Z) : Z :=
  foldl (fun a d => a * base + d) acc ds.

Lemma digits_rev_zdigits fuel base n :
  digits_rev fuel base n = map digit_char (zdigits fuel base n).
Proof.
  revert n; induction fuel as [|f IH]; intros n; cbn; [done|].
  f_equal. destruct (n / base =? 0); [done|apply IH].
Qed.

Lemma digits_value_snoc base acc ds d :
  digits_value base acc (ds ++ [d]) = digits_value base acc ds * base + d.
Proof. unfold digits_value. by rewrite foldl_snoc. Qed.

(** [zdigits] with enough fuel lists base-[base] digits of [n], least
    significant first, the last one not zero unless [n] is. *)
Lemma zdigits_spec base fuel n : 2 <= base -> 0 <= n -> n < base ^ Z.of_nat fuel -> (0 < fuel)%nat ->
  Forall (fun d => 0 <= d < base) (zdigits fuel base n) /\
  digits_value base 0 (rev (zdigits fuel base n)) = n /\
  (0 < n -> exists d ds, rev (zdigits fuel base n) = d :: ds /\ 0 < d).
Proof.
  intros Hb. revert n; induction fuel as [|f IH]; intros n Hn Hlt Hf; [lia|].
  cbn [zdigits]. pose proof (Z.mod_pos_bound n base ltac:(lia)) as Hm.
  pose proof (Z.div_mod n base ltac:(lia)) as Hdm.
  destruct (Z.eqb_spec (n / base) 0) as [H0|H0].
  - cbn. split_and!; [auto|nia|]. intros. eexists _, []. split; [done|nia].
  - assert (0 <= n / base) by (apply Z.div_pos; lia).
    assert (n / base < base ^ Z.of_nat f) as Hlt'.
    { apply Z.div_lt_upper_bound; [lia|].
      replace (base * base ^ Z.of_nat f) with (base ^ Z.of_nat (S f)); [done|].
      rewrite Nat2Z.inj_succ, Z.pow_succ_r; lia. }
    destruct f as [|f']; [cbn in Hlt'; lia|].
    destruct (IH (n / base)) as (HF & HV & HD); [lia..|].
    split_and!; [constructor; auto| |].
    + cbn [rev]. rewrite digits_value_snoc, HV. lia.
    + intros _. destruct HD as (d & ds & Hrev & Hd); [lia|].
      cbn [rev]. rewrite Hrev. exists d, (ds ++ [n mod base]). auto.
Qed.

Lemma log2_fuel base n : 2 <= base -> 0 <= n -> n < base ^ Z.of_nat (S (Z.to_nat (Z.log2 n))).
Proof.
  intros Hb Hn. rewrite Nat2Z.inj_succ, Z2Nat.id by apply Z.log2_nonneg.
  apply Z.lt_le_trans with (2 ^ Z.succ (Z.log2 n)).
  - destruct (Z.eq_dec n 0) as [->|]; [reflexivity|]. apply Z.log2_spec. lia.
  - apply Z.pow_le_mono_l. lia.
Qed.

Lemma digit_char_val d : 0 <= d < 16 ->
  digit_val (digit_char d) = Some d /\ digit_char d <> ch "_" /\
  digit_char d <> ch "-" /\ digit_char d <> ch "+" /\ (0 < d -> digit_char d <> ch "0").
Proof.
  intros Hd.
  assert (exists k : nat, (k < 16)%nat /\ d = Z.of_nat k) as (k & Hk & ->)
    by (exists (Z.to_nat d); lia).
  do 16 (destruct k as [|k]; [vm_compute; split_and!; congruence|]). lia.
Qed.

Lemma scan_digits_all b acc cnt prev ds : 2 <= b <= 16 -> ds <> [] ->
  Forall (fun d => 0 <= d < b) ds ->
  scan_digits b acc cnt false prev (map digit_char ds)
  = ScanResult (digits_value b acc ds) (cnt + zlen ds) false PDigit [].
Proof.
  intros Hb. revert acc cnt prev; induction ds as [|d ds IH]; intros acc cnt prev Hne HF; [done|].
  apply Forall_cons in HF as [Hd HF].
  destruct (digit_char_val d) as (Hv & Hu & _); [lia|].
  cbn [map scan_digits]. rewrite decide_False by done. rewrite Hv.
  destruct (Z.ltb_spec d b); [|lia].
  destruct ds as [|d' ds'].
  - cbn. done.
  - rewrite IH by done. unfold digits_value; cbn [foldl]. rewrite !zlen_cons.
    f_equal. lia.
Qed.

Lemma format_nat_digits base n : 2 <= base <= 16 -> 0 <= n ->
  exists ds, format_nat base n = map digit_char ds /\ ds <> [] /\
    Forall (fun d => 0 <= d < base) ds /\ digits_value base 0 ds = n /\
    (0 < n -> exists d ds', ds = d :: ds' /\ 0 < d).
Proof.
  intros Hb Hn. unfold format_nat. rewrite digits_rev_zdigits, <- map_rev.
  set (fuel := S (Z.to_nat (Z.log2 n))).
  destruct (zdigits_spec base fuel n) as (HF & HV & HD); [lia..| |lia|].
  { apply log2_fuel; lia. }
  exists (rev (zdigits fuel base n)). split_and!; auto.
  - intros Hnil%(f_equal (@length Z)). rewrite length_rev in Hnil. by cbn in Hnil.
  - apply Forall_rev, HF.
Qed.

Lemma nat_scan0_decimal n : 0 <= n -> nat_scan0 (format_nat 10 n) = Some (n, []).
Proof.
  intros Hn. destruct (Z.eq_dec n 0) as [->|Hne]; [vm_compute; reflexivity|].
  destruct (format_nat_digits 10 n) as (ds & -> & Hds & HF & HV & HD); [lia..|].
  destruct HD as (d & ds' & -> & Hd); [lia|].
  pose proof (Forall_inv HF) as Hr; cbn in Hr. destruct (digit_char_val d) as (_ & _ & _ & _ & H0); [lia|].
  unfold nat_scan0. cbn [map]. rewrite decide_False by auto.
  rewrite <- (map_cons digit_char). rewrite scan_digits_all by (done || lia). cbn -[zlen].
  rewrite zlen_cons. pose proof (zlen_nonneg ds').
  destruct (Z.eqb_spec (0 + (1 + zlen ds')) 0); [lia|]. by rewrite <- HV.
Qed.

Lemma SetString0_unsigned s d ds n : s = digit_char d :: ds -> 0 <= d < 16 ->
  nat_scan0 s = Some (n, []) -> SetString0 s = Some n.
Proof.
  intros -> Hd Hs. unfold SetString0.
  destruct (digit_char_val d Hd) as (_ & _ & Hm & Hp & _).
  rewrite !decide_False by done. by rewrite Hs.
Qed.

Lemma SetString0_decimal n : 0 <= n -> SetString0 (format_nat 10 n) = Some n.
Proof.
  intros Hn. destruct (format_nat_digits 10 n) as (ds & He & Hds & HF & _); [lia..|].
  destruct ds as [|d ds]; [done|].
  apply (SetString0_unsigned _ d (map digit_char ds)); [done| |by apply nat_scan0_decimal].
  pose proof (Forall_inv HF). cbn in *. lia.
Qed.

Lemma SetString0_hex n : 0 <= n -> SetString0 (str "0x" ++ format_nat 16 n) = Some n.
Proof.
  intros Hn. destruct (format_nat_digits 16 n) as (ds & -> & Hds & HF & HV & _); [lia..|].
  change (str "0x") with [digit_char 0; ch "x"]. cbn [app].
  apply (SetString0_unsigned _ 0 (ch "x" :: map digit_char ds)); [done|lia|].
  unfold nat_scan0. rewrite decide_True by (vm_compute; reflexivity).
  rewrite (decide_False (P := _ \/ _)) by (vm_compute; intros [|]; discriminate).
  rewrite (decide_False (P := _ \/ _)) by (vm_compute; intros [|]; discriminate).
  rewrite decide_True by (left; reflexivity).
  rewrite scan_digits_all by (done || lia). cbn -[zlen]. rewrite HV.
  destruct ds as [|d ds]; [done|]. rewrite zlen_cons. pose proof (zlen_nonneg ds).
  destruct (Z.eqb_spec (0 + (1 + zlen ds)) 0); [lia|done].
Qed.

Lemma big_Cmp_ltb x y :
  big_Cmp x y = (if x <? y then -1 else if x >? y then 1 else 0).
Proof.
  unfold big_Cmp, Z.ltb, Z.gtb. by destruct (x ?= y).
Qed.

(** ** The sum of a list of quantities *)

Definition parsed (p : Z) (quantity : bytes) : option Z :=
  v ← SetString0 quantity; if (0 <=? v) && (v <? 2 ^ p) then Some v else None.

Lemma parsed_Some p s v : parsed p s = Some v <-> SetString0 s = Some v /\ 0 <= v < 2 ^ p.
Proof.
  unfold parsed. destruct (SetString0 s) as [w|]; cbn; [|naive_solver].
  destruct (Z.leb_spec 0 w), (Z.ltb_spec w (2 ^ p)); cbn; naive_solver lia.
Qed.

Lemma ToQuantity_parsed p s : 0 < p < two63 ->
  match parsed p s with
  | Some v => ToQuantity s p = Ok (mkQuantity p v)
  | None => exists e, ToQuantity s p = Err e
  end.
Proof.
  intros Hp. destruct (parsed p s) as [v|] eqn:E.
  - apply parsed_Some in E as [? ?]. by apply ToQuantity_mk.
  - destruct (ToQuantity s p) as [q|e|] eqn:Hq; [|eauto|].
    + apply ToQuantity_inv in Hq as (v & Hs & Hv & _); [|done].
      assert (parsed p s = Some v) by (by apply parsed_Some). congruence.
    + unfold ToQuantity, validateBigIntForQuantity in Hq. repeat case_hyp Hq; done.
Qed.

Definition Zsum (l : list Z) : Z := foldr Z.add 0 l.

(** Folding [Add] over quantities parsed at precision [p]: the exact sum, or
    an error as soon as a quantity does not parse or the running sum no
    longer fits. *)
Lemma foldl_sum_Err p qs e :
  foldl (fun acc q => sum ← acc; sum_step p sum q) (Err e) qs = Err e.
Proof. induction qs; cbn; auto. Qed.

Lemma sum_step_spec p acc s : 0 < p < two63 -> 0 <= acc < 2 ^ p ->
  match parsed p s with
  | Some v => if acc + v <? 2 ^ p
              then sum_step p (mkQuantity p acc) s = Ok (mkQuantity p (acc + v))
              else exists e, sum_step p (mkQuantity p acc) s = Err e
  | None => exists e, sum_step p (mkQuantity p acc) s = Err e
  end.
Proof.
  intros Hp Ha. pose proof (ToQuantity_parsed p s Hp) as HT. unfold sum_step.
  destruct (parsed p s) as [v|] eqn:E.
  - apply parsed_Some in E as [_ Hv]. rewrite HT. cbn.
    pose proof (Add_cases p (mkQuantity p acc) (mkQuantity p v)
      (wf_mkQuantity _ _ Hp Ha) (wf_mkQuantity _ _ Hp Hv) (same_repr_mkQuantity _ _ _)) as HA.
    rewrite !value_mkQuantity in HA. destruct (acc + v <? 2 ^ p).
    + destruct HA as (c & -> & Hwf & Hr & Hval). cbn. f_equal.
      unfold mkQuantity in *. destruct (p =? 64), c; cbn in *; destruct_and?; simplify_eq; done.
    + destruct HA as [e ->]. cbn. eauto.
  - destruct HT as [e ->]. cbn. eauto.
Qed.

Lemma foldl_sum_spec p qs acc : 0 < p < two63 -> 0 <= acc < 2 ^ p ->
  match mapM (parsed p) qs with
  | Some vs => if acc + Zsum vs <? 2 ^ p
               then foldl (fun acc q => sum ← acc; sum_step p sum q) (Ok (mkQuantity p acc)) qs
                    = Ok (mkQuantity p (acc + Zsum vs))
               else exists e, foldl (fun acc q => sum ← acc; sum_step p sum q)
                                    (Ok (mkQuantity p acc)) qs = Err e
  | None => exists e, foldl (fun acc q => sum ← acc; sum_step p sum q)
                            (Ok (mkQuantity p acc)) qs = Err e
  end.
Proof.
  intros Hp. revert acc; induction qs as [|s qs IH]; intros acc Ha.
  - cbn. rewrite Z.add_0_r. destruct (Z.ltb_spec acc (2 ^ p)); [done|lia].
  - cbn [foldl mapM]. pose proof (sum_step_spec p acc s Hp Ha) as Hs.
    change (Ok (mkQuantity p acc) ≫= ?f) with (f (mkQuantity p acc)). cbv beta.
    destruct (parsed p s) as [v|] eqn:E; cbn [mbind option_bind].
    + apply parsed_Some in E as [_ Hv]. destruct (Z.ltb_spec (acc + v) (2 ^ p)).
      * rewrite Hs. assert (0 <= acc + v < 2 ^ p) as Hav by lia. specialize (IH (acc + v) Hav).
        destruct (mapM (parsed p) qs) as [vs|]; cbn; [|done].
        by rewrite <- Z.add_assoc in IH.
      * destruct Hs as [e ->]. rewrite foldl_sum_Err.
        destruct (mapM (parsed p) qs) as [vs|] eqn:Em; cbn -[Zsum]; [|eauto].
        change (Zsum (v :: vs)) with (v + Zsum vs).
        assert (0 <= Zsum vs).
        { apply mapM_Some in Em. clear -Em. induction Em as [|? w ? vs' Hw ? IH]; cbn; [lia|].
          apply parsed_Some in Hw as [_ ?]. unfold Zsum in *. lia. }
        destruct (Z.ltb_spec (acc + (v + Zsum vs)) (2 ^ p)); [lia|eauto].
    + destruct Hs as [e ->]. rewrite foldl_sum_Err. eauto.
Qed.

Lemma Cmp_sgn pa pb a b : wf pa a -> wf pb b ->
  Cmp a b = Ok (Z.sgn (value a - value b)).
Proof.
  assert (Hsgn : forall x y, big_Cmp x y = Z.sgn (x - y)).
  { intros x y. rewrite big_Cmp_ltb. rewrite Z.gtb_ltb.
    destruct (Z.ltb_spec x y); [lia|]. destruct (Z.ltb_spec y x); lia. }
  intros Ha Hb. pose proof (wf_range _ _ Ha) as Ra. pose proof (wf_range _ _ Hb) as Rb.
  destruct a as [v|i p1|], b as [w|j p2|]; cbn in *; try done; rewrite ?Z.gtb_ltb.
  - rewrite <- Hsgn, big_Cmp_ltb, Z.gtb_ltb. repeat case_match; auto.
  - pose proof (BitLen_le j 64 ltac:(lia) ltac:(lia)).
    destruct (Z.ltb_spec 64 (BitLen j)); rewrite ?Hsgn; f_equal; destruct_and?; subst; lia.
  - pose proof (BitLen_le i 64 ltac:(lia) ltac:(lia)).
    destruct (Z.ltb_spec 64 (BitLen i)); rewrite ?Hsgn; f_equal; destruct_and?; subst; lia.
  - by rewrite Hsgn.
Qed.

(** ** Properties *)

(** C40: adding two quantities of the same representation and precision
    returns the exact sum, again well formed, when it fits in the precision;
    otherwise it returns an error.  The 64-bit wrap-around is never
    observable. *)
Theorem Quantity_Add_exact p a b : wf p a -> wf p b -> same_repr a b ->
  (value a + value b < 2 ^ p ->
     exists c, Add a b = Ok c /\ wf p c /\ same_repr a c /\ value c = value a + value b) /\
  (2 ^ p <= value a + value b -> exists e, Add a b = Err e).
Proof.
  intros Ha Hb Hs. pose proof (Add_cases p a b Ha Hb Hs) as H.
  destruct (Z.ltb_spec (value a + value b) (2 ^ p)); split; intros; auto; lia.
Qed.

Lemma Quantity_Add_exact_witness :
  (exists c, Add (UInt64Quantity 5) (UInt64Quantity 7) = Ok c /\ wf 64 c /\
     same_repr (UInt64Quantity 5) c /\ value c = 5 + 7) /\
  (exists e, Add (UInt64Quantity (2 ^ 64 - 1)) (UInt64Quantity 1) = Err e).
Proof.
  split.
  - apply (Quantity_Add_exact 64 (UInt64Quantity 5) (UInt64Quantity 7)); cbn; lia.
  - apply (Quantity_Add_exact 64 (UInt64Quantity (2 ^ 64 - 1)) (UInt64Quantity 1)); cbn; lia.
Defined.

(** Subtracting returns the exact difference, well formed at the same
    precision, when the minuend is large enough; otherwise it returns an
    error. *)
Theorem Quantity_Sub_exact p a b : wf p a -> wf p b -> same_repr a b ->
  (value b <= value a ->
     exists c, Sub a b = Ok c /\ wf p c /\ same_repr a c /\ value c = value a - value b) /\
  (value a < value b -> exists e, Sub a b = Err e).
Proof.
  destruct a as [v|i p1|], b as [w|j p2|]; cbn; try done; intros Ha Hb _; destruct_and?; subst.
  - rewrite Z.gtb_ltb. destruct (Z.ltb_spec v w); split; intros; try lia; [eauto|].
    rewrite u64_small by lia. eexists; split_and!; [done|cbn; lia..].
  - destruct (Z.ltb_spec i j); split; intros; try lia; [eauto|].
    eexists; split_and!; [done|cbn; lia..].
Qed.

Lemma Quantity_Sub_exact_witness :
  (exists c, Sub (BigQuantity 9 128) (BigQuantity 4 128) = Ok c /\ wf 128 c /\
     same_repr (BigQuantity 9 128) c /\ value c = 9 - 4) /\
  (exists e, Sub (UInt64Quantity 3) (UInt64Quantity 4) = Err e).
Proof.
  split.
  - apply (Quantity_Sub_exact 128 (BigQuantity 9 128) (BigQuantity 4 128)); cbn; unfold two63; lia.
  - apply (Quantity_Sub_exact 64 (UInt64Quantity 3) (UInt64Quantity 4)); cbn; lia.
Defined.

(** Comparison of two well-formed quantities, of any representations and
    precisions, returns the sign of the difference of their values; the fast
    path on values longer than 64 bits agrees with the exact comparison. *)
Theorem Quantity_Cmp_exact pa pb a b : wf pa a -> wf pb b ->
  Cmp a b = Ok (Z.sgn (value a - value b)).
Proof. apply Cmp_sgn. Qed.

Lemma Quantity_Cmp_exact_witness : Cmp (BigQuantity (2 ^ 70) 128) (UInt64Quantity 1) = Ok 1.
Proof.
  apply (Quantity_Cmp_exact 128 64 (BigQuantity (2 ^ 70) 128) (UInt64Quantity 1));
    cbn; unfold two63; lia.
Defined.

(** The decimal and the hexadecimal rendering of a quantity parse back to
    that quantity at the same precision. *)
Theorem Quantity_text_roundtrip p v : 0 < p < two63 -> 0 <= v < 2 ^ p ->
  (Decimal (mkQuantity p v) ≫= fun s => ToQuantity s p) = Ok (mkQuantity p v) /\
  (Hex (mkQuantity p v) ≫= fun s => ToQuantity s p) = Ok (mkQuantity p v).
Proof.
  intros Hp Hv.
  assert (Ht : forall base, Text base v = format_nat base v).
  { intros base. unfold Text. destruct (Z.ltb_spec v 0); [lia|done]. }
  assert (Hd : Decimal (mkQuantity p v) = Ok (format_nat 10 v)).
  { unfold mkQuantity. destruct (p =? 64); cbn; [done|]. unfold BigQuantity_Decimal. by rewrite Ht. }
  assert (Hh : Hex (mkQuantity p v) = Ok (str "0x" ++ format_nat 16 v)).
  { unfold mkQuantity. destruct (p =? 64); cbn -[str]; [done|]. unfold BigQuantity_Hex. by rewrite Ht. }
  rewrite Hd, Hh. split; apply ToQuantity_mk; auto.
  - apply SetString0_decimal; lia.
  - apply SetString0_hex; lia.
Qed.

Lemma Quantity_text_roundtrip_witness :
  (Decimal (UInt64Quantity 1000) ≫= fun s => ToQuantity s 64) = Ok (UInt64Quantity 1000) /\
  (Hex (UInt64Quantity 1000) ≫= fun s => ToQuantity s 64) = Ok (UInt64Quantity 1000).
Proof. apply (Quantity_text_roundtrip 64 1000); unfold two63; lia. Defined.

(** Summing the quantities of a list of tokens returns their exact sum
    when every quantity parses to a value within the precision and the sum
    fits; in every other case it returns an error and never a wrapped sum. *)
Theorem ToQuantitySum_exact p qs : 0 < p < two63 ->
  match mapM (parsed p) qs with
  | Some vs => if Zsum vs <? 2 ^ p
               then ToQuantitySum p qs = Ok (mkQuantity p (Zsum vs))
               else exists e, ToQuantitySum p qs = Err e
  | None => exists e, ToQuantitySum p qs = Err e
  end.
Proof.
  intros Hp. pose proof (foldl_sum_spec p qs 0 Hp) as H.
  unfold ToQuantitySum. rewrite NewZeroQuantity_mk. apply H.
  split; [lia|]. apply Z.pow_pos_nonneg; lia.
Qed.

Lemma ToQuantitySum_exact_witness :
  ToQuantitySum 64 [str "7"; str "0x10"; str "1_000"] = Ok (UInt64Quantity 1023).
Proof. apply (ToQuantitySum_exact 64 [str "7"; str "0x10"; str "1_000"]); unfold two63; lia. Defined.
