(* ===== verification/GoText.v ===== *)
(** * Text functions of Go's standard library used by the policy parser:
      conversions between strings and runes, character classes of package
      unicode, [strings.ToUpper] and [strconv.Atoi] *)

From S2P Require Import Prelude GoStd Quantity.
From Stdlib Require Import ZArith Lia.
Local Open Scope Z_scope.

(** ** Strings and runes *)

(** [utf8.RuneError], the rune of a byte that starts no valid encoding. *)
Definition RuneError : Z := 65533.

(** [[]rune(s)]: an invalid byte becomes [RuneError] and the decoder moves on by
    one byte, so the length of the string is enough fuel. *)
Fixpoint string_runes_fuel (fuel : nat) (s : bytes) : list Z :=
  match s, fuel with
  | [], _ | _, O => []
  | _ :: s1, S fuel =>
      match DecodeRune s with
      | Some (r, s') => r :: string_runes_fuel fuel s'
      | None => RuneError :: string_runes_fuel fuel s1
      end
  end.

Definition string_runes (s : bytes) : list Z := string_runes_fuel (length s) s.

(** [utf8.AppendRune]: the encoding of a rune; surrogates and values past the
    last code point are encoded as [RuneError]. *)
Definition cont_byte (x : Z) : byte := z2b (128 + x mod 64).

Definition rune_bytes (r : Z) : bytes :=
  if (0 <=? r) && (r <? 128) then [z2b r]
  else if (0 <=? r) && (r <? 2048) then [z2b (192 + r / 64); cont_byte r]
  else
    let r := if (r <? 0) || (1114111 <? r) || ((55296 <=? r) && (r <=? 57343)) then RuneError else r in
    if r <? 65536 then [z2b (224 + r / 4096); cont_byte (r / 64); cont_byte r]
    else [z2b (240 + r / 262144); cont_byte (r / 4096); cont_byte (r / 64); cont_byte r].

(** [string(rs)] for a slice of runes. *)
Definition runes_string (rs : list Z) : bytes := concat (rune_bytes <$> rs).

(** ** Character classes

    The ASCII part of Unicode's tables is written out; the rest is given by the
    class [UnicodeTables].  The law is a fact of Unicode's case mappings: the
    only characters outside ASCII with an ASCII upper case are the dotless i
    and the long s, so none becomes a letter of the words AND and OR. *)

Definition keyword_letters : list Z := b2z <$> str "ANDOR".

Class UnicodeTables := {
  letter_table : Z -> bool;
  digit_table : Z -> bool;
  upper_table : Z -> Z;
  upper_table_law r : 128 <= r -> upper_table r ∉ keyword_letters;
}.

(** [unicode.IsSpace]: the characters with the property White_Space. *)
Definition IsSpace (r : Z) : bool :=
  ((9 <=? r) && (r <=? 13)) || (r =? 32) || (r =? 133) || (r =? 160) || (r =? 5760) ||
  ((8192 <=? r) && (r <=? 8202)) || (r =? 8232) || (r =? 8233) || (r =? 8239) || (r =? 8287) || (r =? 12288).

Definition ascii_upper (r : Z) : bool := (65 <=? r) && (r <=? 90).
Definition ascii_lower (r : Z) : bool := (97 <=? r) && (r <=? 122).
Definition ascii_digit (r : Z) : bool := (48 <=? r) && (r <=? 57).

Section Unicode.
Context {UT : UnicodeTables}.

Definition IsLetter (r : Z) : bool := if r <? 128 then ascii_upper r || ascii_lower r else letter_table r.
Definition IsDigit (r : Z) : bool := if r <? 128 then ascii_digit r else digit_table r.

(** [unicode.ToUpper], and [strings.ToUpper] as the map of it over the runes of
    a word. *)
Definition rune_ToUpper (r : Z) : Z :=
  if r <? 128 then (if ascii_lower r then r - 32 else r) else upper_table r.

Definition ToUpper (rs : list Z) : list Z := rune_ToUpper <$> rs.

End Unicode.

(** The tables restricted to ASCII, an instance for evaluation. *)
#[local] Lemma ascii_tables_law r : 128 <= r -> r ∉ keyword_letters.
Proof.
  intros Hr Hin. assert (Forall (fun x => x < 128) keyword_letters) as HF.
  { refine (bool_decide_unpack _ _). vm_compute. exact I. }
  pose proof (proj1 (Forall_forall _ _) HF r Hin) as H; cbn in H. lia.
Qed.

Definition ascii_tables : UnicodeTables :=
  {| letter_table _ := false; digit_table _ := false; upper_table r := r; upper_table_law := ascii_tables_law |}.

(** ** strconv.Atoi *)

Definition ErrSyntax : error := EMsg "invalid syntax".
Definition ErrRange : error := EMsg "value out of range".

(** The loop of [strconv.ParseUint] in base 10, with its two overflow tests.
    On fewer than 19 digits it computes what the fast path of [Atoi] does. *)
Fixpoint parse_uint (n : Z) (s : bytes) : res Z :=
  match s with
  | [] => Ok n
  | c :: s =>
      if negb (ascii_digit (b2z c)) then Err ErrSyntax
      else if two64 / 10 + 1 <=? n then Err ErrRange
      else let n10 := n * 10 in
           let n1 := u64 (n10 + (b2z c - 48)) in
           if n1 <? n10 then Err ErrRange else parse_uint n1 s
  end.

Definition Atoi (s : bytes) : res Z :=
  match s with
  | [] => Err ErrSyntax
  | c :: rest =>
      let neg := bool_decide (c = ch "-") in
      let digits := if neg || bool_decide (c = ch "+") then rest else s in
      match digits with
      | [] => Err ErrSyntax
      | _ => un ← parse_uint 0 digits;
             if negb neg && (two63 <=? un) then Err ErrRange
             else if neg && (two63 <? un) then Err ErrRange
             else Ok (if neg then - un else un)
      end
  end.

(** ** Lemmas *)

Lemma string_runes_ascii s : Forall (fun b => b2z b < 128) s -> string_runes s = b2z <$> s.
Proof.
  unfold string_runes. induction 1 as [|b s Hb _ IH]; [done|]. cbn -[DecodeRune].
  unfold DecodeRune. destruct (Z.ltb_spec (b2z b) 128); [|lia]. by rewrite IH.
Qed.

Lemma runes_string_ascii s : Forall (fun b => b2z b < 128) s -> runes_string (b2z <$> s) = s.
Proof.
  unfold runes_string. induction 1 as [|b s Hb _ IH]; [done|].
  rewrite !fmap_cons. cbn [concat]. rewrite IH. unfold rune_bytes.
  pose proof (b2z_range b). destruct (Z.leb_spec 0 (b2z b)), (Z.ltb_spec (b2z b) 128); try lia.
  cbn [andb app]. by rewrite z2b_b2z.
Qed.

Lemma length_string_runes s : (length (string_runes s) <= length s)%nat.
Proof.
  unfold string_runes. enough (forall n s, (length (string_runes_fuel n s) <= n)%nat) by auto.
  clear s. induction n as [|n IH]; intros [|b s]; cbn [string_runes_fuel]; try (cbn; lia).
  destruct (DecodeRune (b :: s)) as [[r s']|]; cbn [length]; pose proof (IH s); try pose proof (IH s'); lia.
Qed.

Lemma digit_char_ascii d : 0 <= d < 10 -> b2z (digit_char d) = 48 + d.
Proof. intros. unfold digit_char. destruct (Z.ltb_spec d 10); [|lia]. apply b2z_z2b_small. lia. Qed.

Lemma digits_value_mono acc ds : 0 <= acc -> Forall (fun d => 0 <= d < 10) ds -> acc <= digits_value 10 acc ds.
Proof.
  unfold digits_value. revert acc; induction ds as [|d ds IH]; intros acc Ha HF; cbn [foldl]; [lia|].
  apply Forall_cons in HF as [Hd HF]. specialize (IH (acc * 10 + d) ltac:(lia) HF). lia.
Qed.

(** On decimal digits the loop computes the number they denote. *)
Lemma parse_uint_digits ds : forall acc, 0 <= acc -> Forall (fun d => 0 <= d < 10) ds ->
  digits_value 10 acc ds < two64 -> parse_uint acc (map digit_char ds) = Ok (digits_value 10 acc ds).
Proof.
  induction ds as [|d ds IH]; intros acc Ha HF Hv; [done|]. apply Forall_cons in HF as [Hd HF].
  pose proof (digits_value_mono (acc * 10 + d) ds ltac:(lia) HF) as Hm.
  change (digits_value 10 acc (d :: ds)) with (digits_value 10 (acc * 10 + d) ds) in *.
  cbn [map parse_uint]. rewrite digit_char_ascii by lia. unfold ascii_digit.
  destruct (Z.leb_spec 48 (48 + d)), (Z.leb_spec (48 + d) 57); try lia. cbn [andb negb].
  destruct (Z.leb_spec (two64 / 10 + 1) acc) as [Hle|_].
  { exfalso. unfold two64 in *. change (18446744073709551616 / 10) with 1844674407370955161 in Hle. lia. }
  replace (u64 (acc * 10 + (48 + d - 48))) with (acc * 10 + d).
  2:{ unfold u64. rewrite Z.mod_small; lia. }
  destruct (Z.ltb_spec (acc * 10 + d) (acc * 10)); [lia|]. apply IH; [lia|done|done].
Qed.

(** [Atoi] reads back what [fmt.Sprintf] prints of a non-negative [int]. *)
Lemma Atoi_format n : 0 <= n < two63 -> Atoi (format_nat 10 n) = Ok n.
Proof.
  intros Hn. destruct (format_nat_digits 10 n) as (ds & -> & Hne & HF & HV & _); [lia..|].
  destruct ds as [|d ds]; [done|]. pose proof (Forall_inv HF) as Hd; cbn in Hd.
  destruct (digit_char_val d) as (_ & _ & Hm & Hp & _); [lia|].
  unfold Atoi. cbn [map]. rewrite !bool_decide_false by done. cbn [orb]. rewrite <- (map_cons digit_char).
  rewrite parse_uint_digits; [|lia|done|unfold two63, two64 in *; lia]. rewrite HV. cbn [mbind res_mbind andb negb].
  destruct (Z.leb_spec two63 n); [lia|done].
Qed.

(** What [Atoi] accepts of unsigned digits is a non-negative [int]. *)
Lemma parse_uint_range s : forall n v, 0 <= n -> parse_uint n s = Ok v -> 0 <= v.
Proof.
  induction s as [|c s IH]; intros n v Hn; cbn [parse_uint]; [by intros [= <-]|].
  destruct (negb _); [done|]. destruct (_ <=? n); [done|]. destruct (_ <? _); [done|].
  apply IH. unfold u64, two64. apply Z.mod_pos_bound. lia.
Qed.

Lemma Atoi_range s v : Atoi s = Ok v -> - two63 <= v < two63.
Proof.
  destruct s as [|c s]; [done|]. unfold Atoi. set (neg := bool_decide (c = ch "-")).
  set (l := if neg || _ then s else c :: s). destruct l as [|b l]; [done|].
  intros (un & Hu & Hv)%res_bind_Ok. apply parse_uint_range in Hu; [|lia].
  destruct neg; cbn [negb andb] in Hv.
  - destruct (Z.ltb_spec two63 un); [done|]. injection Hv as <-. unfold two63 in *; lia.
  - destruct (Z.leb_spec two63 un); [done|]. injection Hv as <-. unfold two63 in *; lia.
Qed.

Lemma parse_uint_no_panic s : forall n, parse_uint n s <> Panic.
Proof. induction s as [|c s IH]; intros n; cbn [parse_uint]; repeat case_match; done || apply IH. Qed.

Lemma Atoi_no_panic s : Atoi s <> Panic.
Proof.
  destruct s as [|c s]; [done|]. unfold Atoi. set (neg := bool_decide (c = ch "-")).
  set (l := if neg || _ then s else c :: s). destruct l as [|b l]; [done|].
  destruct (parse_uint 0 (b :: l)) eqn:E; cbn [mbind res_mbind]; [repeat case_match; done|done|].
  by apply parse_uint_no_panic in E.
Qed.

Example Atoi_bounds :
  Atoi (str "9223372036854775807") = Ok 9223372036854775807 /\ Atoi (str "9223372036854775808") = Err ErrRange /\
  Atoi (str "-9223372036854775808") = Ok (-9223372036854775808) /\ Atoi (str "99999999999999999999a") = Err ErrRange /\
  Atoi (str "12a") = Err ErrSyntax /\ Atoi (str "+") = Err ErrSyntax.
Proof. vm_compute. done. Qed.
