(* ===== verification/TokenTypes.v ===== *)
(** * Token data types (token/token/token.go)

    Identifiers, tokens and the list types the vault and the selectors
    return, with their sums. *)

From S2P Require Import Prelude Quantity.
From Stdlib Require Import ZArith Lia.
Local Open Scope Z_scope.

Record ID := mkID { TxId : bytes; Index : Z }.

#[global] Instance ID_eq_dec : EqDecision ID.
Proof. solve_decision. Defined.

Definition ID_Equal (id right : ID) : bool :=
  bool_decide (TxId id = TxId right) && (Index id =? Index right).

Record Token := mkToken { Token_Owner : bytes; Token_Type : bytes; Token_Quantity : bytes }.

#[global] Instance Token_eq_dec : EqDecision Token.
Proof. solve_decision. Defined.

Record IssuedToken := mkIssuedToken {
  IssuedToken_Id : ID;
  IssuedToken_Owner : bytes;
  IssuedToken_Type : bytes;
  IssuedToken_Quantity : bytes;
  IssuedToken_Issuer : bytes;
}.

Record UnspentToken := mkUnspentToken {
  UnspentToken_Id : ID;
  UnspentToken_Owner : bytes;
  UnspentToken_Type : bytes;
  UnspentToken_Quantity : bytes;
}.

Record LedgerToken := mkLedgerToken {
  LedgerToken_ID : ID;
  LedgerToken_Format : bytes;
  LedgerToken_Token : bytes;
  LedgerToken_TokenMetadata : bytes;
}.

Definition LedgerToken_Equal (t right : LedgerToken) : bool :=
  ID_Equal (LedgerToken_ID t) (LedgerToken_ID right) &&
  bool_decide (LedgerToken_Format t = LedgerToken_Format right) &&
  bool_decide (LedgerToken_Token t = LedgerToken_Token right) &&
  bool_decide (LedgerToken_TokenMetadata t = LedgerToken_TokenMetadata right).

(** [Sum] over a list of quantities, shared by the two list types: an error
    of the parser or of the addition becomes a panic. *)
Definition panic_on_err {A} (r : res A) : res A :=
  match r with Err _ => Panic | _ => r end.

Definition Sum_quantities (precision : Z) (quantities : list bytes) : res Quantity :=
  foldl (fun acc s => sum ← acc;
           q ← panic_on_err (ToQuantity s precision);
           panic_on_err (Add sum q))
        (Ok (NewZeroQuantity precision)) quantities.

Definition IssuedTokens_Sum (precision : Z) (tokens : list IssuedToken) : res Quantity :=
  Sum_quantities precision (map IssuedToken_Quantity tokens).

Definition IssuedTokens_ByType (typ : bytes) (tokens : list IssuedToken) : list IssuedToken :=
  foldl (fun res t => if decide (IssuedToken_Type t = typ) then res ++ [t] else res) [] tokens.

Definition IssuedTokens_Count (tokens : list IssuedToken) : Z := zlen tokens.

Definition UnspentTokens_Count (tokens : list UnspentToken) : Z := zlen tokens.

Definition UnspentTokens_Sum (precision : Z) (tokens : list UnspentToken) : res Quantity :=
  Sum_quantities precision (map UnspentToken_Quantity tokens).

Definition UnspentTokens_ByType (typ : bytes) (tokens : list UnspentToken) : list UnspentToken :=
  foldl (fun res t => if decide (UnspentToken_Type t = typ) then res ++ [t] else res) [] tokens.

(** [it.Tokens[i]], which panics out of range. *)
Definition UnspentTokens_At (tokens : list UnspentToken) (i : Z) : res UnspentToken :=
  if i <? 0 then Panic
  else match tokens !! Z.to_nat i with Some t => Ok t | None => Panic end.

(** ** Lemmas *)

Lemma ID_Equal_true a b : ID_Equal a b = true <-> a = b.
Proof.
  unfold ID_Equal. destruct a as [t i], b as [t' i']. cbn.
  rewrite andb_true_iff, bool_decide_eq_true, Z.eqb_eq. naive_solver.
Qed.

Lemma LedgerToken_Equal_true a b : LedgerToken_Equal a b = true <-> a = b.
Proof.
  unfold LedgerToken_Equal. destruct a, b. cbn.
  rewrite !andb_true_iff, ID_Equal_true, !bool_decide_eq_true. naive_solver.
Qed.

Lemma ByType_filter typ tokens :
  UnspentTokens_ByType typ tokens = filter (fun t => UnspentToken_Type t = typ) tokens.
Proof.
  unfold UnspentTokens_ByType.
  enough (H : forall acc, foldl (fun res t => if decide (UnspentToken_Type t = typ) then res ++ [t] else res)
                   acc tokens = acc ++ filter (fun t => UnspentToken_Type t = typ) tokens).
  { by rewrite H. }
  induction tokens as [|t l IH]; intros acc; cbn; [by rewrite app_nil_r|].
  rewrite IH. unfold filter. cbn. case_decide; [by rewrite <- app_assoc|done].
Qed.

(** The panicking sum agrees with the reducer: same value, and a panic where
    the reducer returns an error. *)
Lemma Sum_quantities_reducer p qs : 0 < p < two63 ->
  Sum_quantities p qs = panic_on_err (ToQuantitySum p qs).
Proof.
  intros Hp. unfold Sum_quantities, ToQuantitySum.
  assert (HP : forall l, foldl (fun acc s => sum ← acc; q ← panic_on_err (ToQuantity s p);
                 panic_on_err (Add sum q)) Panic l = Panic) by (induction l; cbn; auto).
  rewrite NewZeroQuantity_mk.
  assert (H0 : 0 <= 0 < 2 ^ p) by (split; [lia|apply Z.pow_pos_nonneg; lia]).
  revert H0. generalize 0 at 2 3 4 5 as acc.
  induction qs as [|s qs IH]; intros acc Ha; [done|]. cbn [foldl].
  pose proof (sum_step_spec p acc s Hp Ha) as Hs. pose proof (ToQuantity_parsed p s Hp) as HT.
  change (Ok (mkQuantity p acc) ≫= ?f) with (f (mkQuantity p acc)). cbv beta.
  assert (Hd : sum_step p (mkQuantity p acc) s =
    recover "failed to sum quantities" (q ← ToQuantity s p; Add (mkQuantity p acc) q)) by done.
  destruct (parsed p s) as [v|] eqn:E.
  - rewrite HT in Hd |- *. cbn [panic_on_err mbind res_mbind] in *.
    apply parsed_Some in E as [_ ?]. destruct (Z.ltb_spec (acc + v) (2 ^ p)).
    + rewrite Hs in *. destruct (Add _ _) as [c| |]; cbn in Hd; simplify_eq. cbn [panic_on_err].
      apply IH. lia.
    + destruct Hs as [e Hs]. rewrite Hs in *. rewrite foldl_sum_Err.
      destruct (Add _ _) as [c| |]; cbn in Hd; simplify_eq; apply HP.
  - destruct HT as [e HT], Hs as [e' Hs]. rewrite HT, Hs, foldl_sum_Err. apply HP.
Qed.

(** ** Properties *)

(** The sum over the unspent tokens of one type is exact: it is the sum
    of the quantities of the tokens of that type in list order, and it
    panics exactly when one of them does not parse or the sum exceeds the
    precision. *)
Theorem UnspentTokens_ByType_Sum_exact p typ tokens : 0 < p < two63 ->
  UnspentTokens_Sum p (UnspentTokens_ByType typ tokens) =
  match mapM (parsed p) (map UnspentToken_Quantity (filter (fun t => UnspentToken_Type t = typ) tokens)) with
  | Some vs => if Zsum vs <? 2 ^ p then Ok (mkQuantity p (Zsum vs)) else Panic
  | None => Panic
  end.
Proof.
  intros Hp. unfold UnspentTokens_Sum. rewrite ByType_filter, Sum_quantities_reducer by done.
  set (qs := map _ _). pose proof (foldl_sum_spec p qs 0 Hp) as H.
  unfold ToQuantitySum. rewrite NewZeroQuantity_mk.
  assert (H0 : 0 <= 0 < 2 ^ p) by (split; [lia|apply Z.pow_pos_nonneg; lia]).
  specialize (H H0). destruct (mapM (parsed p) qs) as [vs|].
  - rewrite Z.add_0_l in H. destruct (Zsum vs <? 2 ^ p); [by rewrite H|].
    destruct H as [e H]. by rewrite H.
  - destruct H as [e H]. by rewrite H.
Qed.

Lemma UnspentTokens_ByType_Sum_exact_witness :
  UnspentTokens_Sum 64 (UnspentTokens_ByType (str "USD")
    [mkUnspentToken (mkID (str "a") 0) [] (str "USD") (str "5");
     mkUnspentToken (mkID (str "a") 1) [] (str "EUR") (str "9");
     mkUnspentToken (mkID (str "b") 0) [] (str "USD") (str "0x0a")]) = Ok (UInt64Quantity 15).
Proof. rewrite UnspentTokens_ByType_Sum_exact by (unfold two63; lia). reflexivity. Defined.
