(* ===== verification/Der.v ===== *)
(** * The hand-written DER codec of identities
      (token/services/identity/marshal/marshal.go, token/services/identity/typed.go)

    [EncodeIdentity] and [DecodeIdentity] turn a typed identity into a DER
    SEQUENCE of its type and its payload and back.  Positions in the buffer
    are [nat], declared lengths are [Z]. *)

From S2P Require Import Prelude.
From Stdlib Require Import ZArith Lia.
Local Open Scope Z_scope.

(** ** Tags, errors, results *)

Definition tagInteger : byte := z2b 2.
Definition tagOctetString : byte := z2b 4.
Definition tagUTF8String : byte := z2b 12.
Definition tagPrintableString : byte := z2b 19.
Definition tagSequence : byte := z2b (Z.lor 16 32).

Definition ErrTruncated := EMsg "asn1: truncated data".
Definition ErrUnexpectedTag := EMsg "asn1: unexpected tag".
Definition ErrIntOverflow := EMsg "asn1: integer overflows int32".
Definition ErrInvalidLen := EMsg "asn1: invalid length encoding".
Definition ErrTrailingBytes := EMsg "asn1: trailing bytes after value".
Definition ErrNonMinimalLen := EMsg "asn1: non-minimal length encoding".
Definition ErrNonMinimalInt := EMsg "asn1: non-minimal integer encoding".

Record Result := mkResult { IsInt : bool; Int32 : Z; Str : bytes; Data : bytes }.

#[global] Instance Result_eq_dec : EqDecision Result.
Proof. solve_decision. Defined.

(** The reserved identity types of token/driver/wallet.go. *)
Definition IdemixIdentityType : Z := 1.
Definition X509IdentityType : Z := 2.
Definition IdemixNymIdentityType : Z := 3.
Definition HTLCScriptIdentityType : Z := 4.
Definition MultiSigIdentityType : Z := 5.
Definition PolicyIdentityType : Z := 6.

(** ** Lengths and integers *)

(** The slice [b[i:i+n]]. *)
Definition slice (b : bytes) (i : nat) (n : Z) : bytes := take (Z.to_nat n) (drop i b).

(** [v<<8 | c] for a byte [c]. *)
Definition shift_or (v : Z) (c : byte) : Z := Z.lor (Z.shiftl v 8) (b2z c).

Definition readLen (b : bytes) (pos : nat) : res (Z * nat) :=
  match b !! pos with
  | None => Err ErrTruncated
  | Some fb =>
      if b2z fb <? 128 then Ok (b2z fb, S pos)
      else
        let n := Z.land (b2z fb) 127 in
        if (n =? 0) || (n >? 4) || (Z.of_nat pos + 1 + n >? zlen b) then Err ErrInvalidLen
        else
          let pos := S pos in
          if decide (b !! pos = Some (z2b 0)) then Err ErrNonMinimalLen
          else
            let l := foldl shift_or 0 (slice b pos n) in
            let pos := (pos + Z.to_nat n)%nat in
            if l <? 128 then Err ErrNonMinimalLen
            else if l >? zlen b - Z.of_nat pos then Err ErrTruncated
            else Ok (l, pos)
  end.

Definition high_bit (b : byte) : bool := negb (Z.land (b2z b) 128 =? 0).

Definition parseInt32 (b : bytes) : res Z :=
  if (zlen b =? 0) || (zlen b >? 5) then Err ErrIntOverflow
  else
    let nonminimal :=
      match b with
      | b0 :: b1 :: _ =>
          ((b2z b0 =? 0) && negb (high_bit b1)) || ((b2z b0 =? 255) && high_bit b1)
      | _ => false
      end in
    if nonminimal then Err ErrNonMinimalInt
    else
      let v0 := match b with b0 :: _ => if high_bit b0 then -1 else 0 | [] => 0 end in
      let v := foldl shift_or v0 b in
      if (v >? 2147483647) || (v <? -2147483648) then Err ErrIntOverflow
      else Ok v.

Definition appendTLV (dst : bytes) (tag : byte) (val : bytes) : bytes :=
  let dst := dst ++ [tag] in
  let l := zlen val in
  let dst :=
    if l <? 128 then dst ++ [z2b l]
    else if l <? 256 then dst ++ [z2b 129; z2b l]
    else if l <? 65536 then dst ++ [z2b 130; z2b (Z.shiftr l 8); z2b l]
    else if l <? 16777216 then dst ++ [z2b 131; z2b (Z.shiftr l 16); z2b (Z.shiftr l 8); z2b l]
    else dst ++ [z2b 132; z2b (Z.shiftr l 24); z2b (Z.shiftr l 16); z2b (Z.shiftr l 8); z2b l] in
  dst ++ val.

(** [for i < 3 && p(b[i], b[i+1]) { i++ }; return b[i:]] on a 4-byte array. *)
Fixpoint skip_while (p : byte -> byte -> bool) (l : bytes) : bytes :=
  match l with
  | a :: (c :: _) as tl => if p a c then skip_while p tl else l
  | _ => l
  end.

Definition encodeInt32 (v : Z) : bytes :=
  let b := [z2b (Z.shiftr v 24); z2b (Z.shiftr v 16); z2b (Z.shiftr v 8); z2b v] in
  let b := skip_while (fun a c => (b2z a =? 0) && negb (high_bit c)) b in
  skip_while (fun a c => (b2z a =? 255) && high_bit c) b.

(** ** Identities *)

Definition Encode (r : Result) : bytes :=
  let first := if IsInt r then appendTLV [] tagInteger (encodeInt32 (Int32 r))
               else appendTLV [] tagUTF8String (Str r) in
  appendTLV [] tagSequence (first ++ appendTLV [] tagOctetString (Data r)).

Definition EncodeIdentity (t : Z) (data : bytes) : bytes :=
  appendTLV [] tagSequence
    (appendTLV [] tagInteger (encodeInt32 t) ++ appendTLV [] tagOctetString data).

(** The string names of the identity types, folded onto the integers for
    legacy reasons; the policy type has no such name here. *)
Definition legacy_fold (r : Result) : Result :=
  if IsInt r then r
  else if decide (Str r = str "x509") then mkResult true X509IdentityType (Str r) (Data r)
  else if decide (Str r = str "idemix") then mkResult true IdemixIdentityType (Str r) (Data r)
  else if decide (Str r = str "idemixnym") then mkResult true IdemixNymIdentityType (Str r) (Data r)
  else if decide (Str r = str "multisig") then mkResult true MultiSigIdentityType (Str r) (Data r)
  else if decide (Str r = str "htlc") then mkResult true HTLCScriptIdentityType (Str r) (Data r)
  else r.

(** The first element: its type, as a partial result, and the next position. *)
Definition decode_first (b : bytes) (pos : nat) : res (Result * nat) :=
  match b !! pos with
  | None => Err ErrTruncated
  | Some tag =>
      if decide (tag = tagInteger) then
        '(l, np) ← readLen b (S pos);
        if Z.of_nat np + l >? zlen b then Err ErrTruncated
        else v ← parseInt32 (slice b np l);
             Ok (mkResult true v [] [], (np + Z.to_nat l)%nat)
      else if decide (tag = tagUTF8String \/ tag = tagPrintableString) then
        '(l, np) ← readLen b (S pos);
        if Z.of_nat np + l >? zlen b then Err ErrTruncated
        else Ok (mkResult false 0 (slice b np l) [], (np + Z.to_nat l)%nat)
      else Err ErrUnexpectedTag
  end.

Definition DecodeIdentity (b : bytes) : res Result :=
  if decide (b !! 0%nat = Some tagSequence) then
    '(seqLen, pos) ← readLen b 1;
    if Z.of_nat pos + seqLen >? zlen b then Err ErrTruncated
    else if Z.of_nat pos + seqLen <? zlen b then Err ErrTrailingBytes
    else
      '(r, pos) ← decode_first b pos;
      match b !! pos with
      | None => Err ErrTruncated
      | Some tag =>
          if decide (tag = tagOctetString) then
            '(l, np) ← readLen b (S pos);
            if Z.of_nat np + l >? zlen b then Err ErrTruncated
            else if negb (Z.of_nat np + l =? zlen b) then Err ErrTrailingBytes
            else Ok (legacy_fold (mkResult (IsInt r) (Int32 r) (Str r) (slice b np l)))
          else Err ErrUnexpectedTag
      end
  else Err ErrUnexpectedTag.

(** ** Typed identities (token/services/identity/typed.go) *)

Record TypedIdentity := mkTypedIdentity { TI_Type : Z; TI_Identity : bytes }.

Definition TypedIdentity_Bytes (i : TypedIdentity) : bytes :=
  EncodeIdentity (TI_Type i) (TI_Identity i).

Definition UnmarshalTypedIdentity (id : bytes) : res TypedIdentity :=
  r ← wrap "failed to unmarshal to TypedIdentity" (DecodeIdentity id);
  if IsInt r then Ok (mkTypedIdentity (Int32 r) (Data r))
  else Err (EMsg "invalid identity, type not recognized").

Definition WrapWithType (idType : Z) (id : bytes) : bytes :=
  TypedIdentity_Bytes (mkTypedIdentity idType id).

Example decode_htlc :
  DecodeIdentity (WrapWithType HTLCScriptIdentityType (str "{}"))
  = Ok (mkResult true 4 [] (str "{}")).
Proof. vm_compute. reflexivity. Qed.

Example decode_legacy :
  DecodeIdentity (Encode (mkResult false 0 (str "x509") (str "ab")))
  = Ok (mkResult true 2 (str "x509") (str "ab")).
Proof. vm_compute. reflexivity. Qed.

(** Decoding never panics. *)
Lemma readLen_no_panic b pos : readLen b pos <> Panic.
Proof. unfold readLen. repeat case_match; done. Qed.

Lemma parseInt32_no_panic b : parseInt32 b <> Panic.
Proof. unfold parseInt32. repeat case_match; done. Qed.

Lemma decode_first_no_panic b pos : decode_first b pos <> Panic.
Proof.
  unfold decode_first. repeat (case_decide || case_match); try done;
    (apply bind_no_panic; [apply readLen_no_panic|]; intros [l np]; case_match; [done|]); [|done].
  apply bind_no_panic; [apply parseInt32_no_panic|done].
Qed.

Lemma UnmarshalTypedIdentity_no_panic id : UnmarshalTypedIdentity id <> Panic.
Proof.
  unfold UnmarshalTypedIdentity. apply bind_no_panic; [|intros r; by case_match]. apply wrap_no_panic.
  unfold DecodeIdentity. case_decide; [|done]. apply bind_no_panic; [apply readLen_no_panic|]. intros [l np].
  do 2 (case_match; [done|]). apply bind_no_panic; [apply decode_first_no_panic|]. intros [r pos].
  case_match; [|done]. case_decide; [|done]. apply bind_no_panic; [apply readLen_no_panic|]. intros [l' np'].
  by do 2 (case_match; [done|]).
Qed.

(** ** Lemmas: big-endian digits *)

Lemma shift_or_val v c : shift_or v c = v * 256 + b2z c.
Proof.
  unfold shift_or. pose proof (b2z_range c) as Hc.
  rewrite <- Z.lxor_lor, <- Z.add_nocarry_lxor.
  - rewrite Z.shiftl_mul_pow2 by lia. change (2 ^ 8) with 256. lia.
  - apply Z.bits_inj'. intros n Hn. rewrite Z.land_spec, Z.bits_0.
    destruct (Z.lt_ge_cases n 8).
    + by rewrite Z.shiftl_spec_low.
    + destruct (Z.eq_dec (b2z c) 0) as [->|]; [by rewrite Z.bits_0, andb_false_r|].
      rewrite (Z.bits_above_log2 (b2z c) n), andb_false_r; [done|lia|].
      assert (Z.log2 (b2z c) < 8) by (apply Z.log2_lt_pow2; lia). lia.
  - apply Z.bits_inj'. intros n Hn. rewrite Z.land_spec, Z.bits_0.
    destruct (Z.lt_ge_cases n 8).
    + by rewrite Z.shiftl_spec_low.
    + destruct (Z.eq_dec (b2z c) 0) as [->|]; [by rewrite Z.bits_0, andb_false_r|].
      rewrite (Z.bits_above_log2 (b2z c) n), andb_false_r; [done|lia|].
      assert (Z.log2 (b2z c) < 8) by (apply Z.log2_lt_pow2; lia). lia.
Qed.

Lemma shiftr8 x : Z.shiftr x 8 = x / 256.
Proof. rewrite Z.shiftr_div_pow2 by lia. done. Qed.
Lemma shiftr16 x : Z.shiftr x 16 = x / 256 / 256.
Proof. rewrite Z.shiftr_div_pow2 by lia. rewrite Z.div_div by lia. done. Qed.
Lemma shiftr24 x : Z.shiftr x 24 = x / 256 / 256 / 256.
Proof. rewrite Z.shiftr_div_pow2 by lia. rewrite !Z.div_div by lia. done. Qed.

Lemma be_div v c : (v * 256 + b2z c) / 256 = v.
Proof. pose proof (b2z_range c). symmetry. apply Z.div_unique with (r := b2z c); lia. Qed.

Lemma be_low v c : z2b (v * 256 + b2z c) = c.
Proof.
  apply b2z_inj. rewrite b2z_z2b. pose proof (b2z_range c).
  symmetry. apply Z.mod_unique with (q := v); lia.
Qed.

Lemma be_split x : x = x / 256 * 256 + b2z (z2b x).
Proof. rewrite b2z_z2b. pose proof (Z.div_mod x 256). lia. Qed.

(** ** Lemmas: lengths *)

Definition derlen (l : Z) : bytes :=
  if l <? 128 then [z2b l]
  else if l <? 256 then [z2b 129; z2b l]
  else if l <? 65536 then [z2b 130; z2b (Z.shiftr l 8); z2b l]
  else if l <? 16777216 then [z2b 131; z2b (Z.shiftr l 16); z2b (Z.shiftr l 8); z2b l]
  else [z2b 132; z2b (Z.shiftr l 24); z2b (Z.shiftr l 16); z2b (Z.shiftr l 8); z2b l].

Lemma appendTLV_eq dst tag val :
  appendTLV dst tag val = dst ++ tag :: derlen (zlen val) ++ val.
Proof.
  unfold appendTLV, derlen. repeat case_match; by rewrite <- !app_assoc.
Qed.

Lemma readLen_app pre s :
  readLen (pre ++ s) (length pre) =
  match readLen s 0 with
  | Ok (l, np) => Ok (l, (length pre + np)%nat)
  | Err e => Err e
  | Panic => Panic
  end.
Proof.
  unfold readLen. rewrite lookup_app_r by lia. rewrite Nat.sub_diag.
  destruct (s !! 0%nat) as [fb|] eqn:E; [|done].
  destruct (b2z fb <? 128); [f_equal; f_equal; lia|]. cbv zeta.
  rewrite zlen_app. set (n := Z.land (b2z fb) 127).
  replace (Z.of_nat (length pre) + 1 + n >? zlen pre + zlen s)
    with (Z.of_nat 0 + 1 + n >? zlen s)
    by (unfold zlen; rewrite !Z.gtb_ltb; destruct (Z.ltb_spec (Z.of_nat (length s)) (Z.of_nat 0 + 1 + n));
        destruct (Z.ltb_spec (Z.of_nat (length pre) + Z.of_nat (length s)) (Z.of_nat (length pre) + 1 + n)); lia).
  destruct (_ || _); [done|].
  rewrite lookup_app_r by lia. replace (S (length pre) - length pre)%nat with 1%nat by lia.
  case_decide; [done|].
  assert (Hsl : slice (pre ++ s) (S (length pre)) n = slice s 1 n).
  { unfold slice. rewrite drop_app_ge by lia. do 2 f_equal. lia. }
  rewrite Hsl. set (l := foldl shift_or 0 (slice s 1 n)).
  destruct (l <? 128); [done|].
  replace (l >? zlen pre + zlen s - Z.of_nat (S (length pre) + Z.to_nat n))
    with (l >? zlen s - Z.of_nat (1 + Z.to_nat n))
    by (f_equal; unfold zlen; lia).
  destruct (l >? _); [done|]. f_equal. f_equal. lia.
Qed.

Lemma land127 x : 128 <= x < 256 -> Z.land x 127 = x - 128.
Proof.
  intros Hx. change 127 with (Z.ones 7). rewrite Z.land_ones by lia.
  symmetry. apply Z.mod_unique with (q := 1); lia.
Qed.

(** The bytes of a long-form length: one to four, no leading zero, and a
    value the short form cannot carry. *)
Definition long_len (bs : bytes) (l : Z) : Prop :=
  (1 <= length bs <= 4)%nat /\ head bs <> Some (z2b 0) /\ l = foldl shift_or 0 bs /\ 128 <= l.

Lemma be_bound bs acc : 0 <= acc -> 0 <= foldl shift_or acc bs < (acc + 1) * 256 ^ zlen bs.
Proof.
  revert acc; induction bs as [|c bs IH]; intros acc Ha; cbn [foldl].
  - unfold zlen; cbn. lia.
  - pose proof (b2z_range c). rewrite shift_or_val.
    specialize (IH (acc * 256 + b2z c) ltac:(lia)).
    rewrite zlen_cons, Z.pow_add_r by (try apply zlen_nonneg; lia).
    pose proof (Z.pow_pos_nonneg 256 (zlen bs) ltac:(lia) (zlen_nonneg _)). nia.
Qed.

Lemma long_len_bound bs l : long_len bs l -> l < 2 ^ 32.
Proof.
  intros (Hn & _ & -> & _). pose proof (be_bound bs 0 ltac:(lia)) as Hb.
  assert (256 ^ zlen bs <= 256 ^ 4) by (apply Z.pow_le_mono_r; unfold zlen; lia). lia.
Qed.

Lemma readLen_long bs rest l : long_len bs l -> l <= zlen rest ->
  readLen (z2b (128 + zlen bs) :: bs ++ rest) 0 = Ok (l, S (length bs)).
Proof.
  intros (Hn & Hh & Hl & Hlo) Hr. unfold readLen. cbn [lookup list_lookup].
  rewrite b2z_z2b_small by (unfold zlen; lia).
  destruct (Z.ltb_spec (128 + zlen bs) 128); [unfold zlen in *; lia|].
  rewrite land127 by (unfold zlen; lia). cbv zeta. rewrite zlen_cons, zlen_app.
  replace (128 + zlen bs - 128) with (zlen bs) by lia.
  pose proof (zlen_nonneg rest).
  replace (_ || _) with false.
  2:{ symmetry. rewrite !orb_false_iff, !Z.gtb_ltb, Z.eqb_neq, !Z.ltb_ge. unfold zlen in *. lia. }
  rewrite decide_False.
  2:{ destruct bs as [|c bs]; [cbn in Hn; lia|]. exact Hh. }
  assert (Hs : slice (z2b (128 + zlen bs) :: bs ++ rest) 1 (zlen bs) = bs).
  { unfold slice, zlen. rewrite Nat2Z.id. apply take_app_length. }
  rewrite Hs, <- Hl. destruct (Z.ltb_spec l 128); [lia|].
  rewrite Z.gtb_ltb. destruct (Z.ltb_spec (1 + (zlen bs + zlen rest) - Z.of_nat (1 + Z.to_nat (zlen bs))) l).
  { unfold zlen in *. lia. }
  f_equal. f_equal. unfold zlen. lia.
Qed.

Lemma readLen_inv s l np : readLen s 0 = Ok (l, np) ->
  (exists fb rest, s = fb :: rest /\ l = b2z fb /\ l < 128 /\ np = 1%nat) \/
  (exists bs rest, s = z2b (128 + zlen bs) :: bs ++ rest /\ long_len bs l /\
     l <= zlen rest /\ np = S (length bs)).
Proof.
  unfold readLen. destruct s as [|fb s]; [done|]. cbn [lookup list_lookup].
  pose proof (b2z_range fb) as Hfb.
  destruct (Z.ltb_spec (b2z fb) 128) as [Hs|Hs].
  { intros; simplify_eq. left. eauto 10. }
  rewrite land127 by lia. cbv zeta. set (n := b2z fb - 128).
  destruct (_ || _) eqn:Hc; [done|].
  rewrite !orb_false_iff, !Z.gtb_ltb, Z.eqb_neq, !Z.ltb_ge, zlen_cons in Hc.
  case_decide as Hz; [done|]. intros H. right.
  exists (take (Z.to_nat n) s), (drop (Z.to_nat n) s).
  assert (Hlen : length (take (Z.to_nat n) s) = Z.to_nat n).
  { rewrite length_take. unfold zlen in *. lia. }
  revert H. change (slice (fb :: s) 1 n) with (take (Z.to_nat n) s).
  destruct (Z.ltb_spec (foldl shift_or 0 (take (Z.to_nat n) s)) 128) as [|Hlo]; [done|].
  rewrite Z.gtb_ltb, zlen_cons.
  match goal with |- context [?x <? ?y] => destruct (Z.ltb_spec x y) as [|Hhi] end; [done|].
  intros [= <- <-].
  assert (Hh : head (take (Z.to_nat n) s) <> Some (z2b 0)).
  { destruct s as [|c s]; [by rewrite take_nil|].
    destruct (Z.to_nat n) eqn:En; [lia|]. cbn. exact Hz. }
  assert (Hn : 1 <= n <= 4) by (subst n; lia).
  split_and!; [|unfold long_len; rewrite Hlen; split_and!; [lia..|done|done|lia]| |by rewrite Hlen].
  - rewrite take_drop. f_equal. rewrite <- (z2b_b2z fb). f_equal.
    unfold zlen. rewrite Hlen. lia.
  - unfold zlen in *. rewrite length_drop. lia.
Qed.

Ltac be_simp := rewrite ?shiftr8, ?shiftr16, ?shiftr24, ?be_div, ?be_low.

Lemma derlen_long bs l : long_len bs l -> derlen l = z2b (128 + zlen bs) :: bs.
Proof.
  intros (Hn & Hh & -> & Hlo). unfold derlen.
  destruct (Z.ltb_spec (foldl shift_or 0 bs) 128); [lia|].
  assert (Hnz : forall c, Some c <> Some (z2b 0) -> 0 < b2z c < 256).
  { intros c Hc. pose proof (b2z_range c). split; [|lia].
    destruct (Z.eq_dec (b2z c) 0); [|lia]. exfalso. apply Hc. f_equal. by apply b2z_inj. }
  destruct bs as [|a bs]; [cbn in Hn; lia|]. cbn [head] in Hh. apply Hnz in Hh.
  destruct bs as [|c [|d [|e bs]]]; [| | |destruct bs as [|? bs]; [|cbn in Hn; lia]];
    cbn [foldl] in *; rewrite !shift_or_val in *; rewrite ?Z.mul_0_l, ?Z.add_0_l in *;
    try pose proof (b2z_range c); try pose proof (b2z_range d); try pose proof (b2z_range e);
    unfold zlen; cbn [length].
  - destruct (Z.ltb_spec (b2z a) 256); [|lia]. by rewrite z2b_b2z.
  - destruct (Z.ltb_spec (b2z a * 256 + b2z c) 256); [lia|].
    destruct (Z.ltb_spec (b2z a * 256 + b2z c) 65536); [|lia]. be_simp. by rewrite z2b_b2z.
  - set (x := b2z a * 256 + b2z c) in *.
    destruct (Z.ltb_spec (x * 256 + b2z d) 256); [lia|].
    destruct (Z.ltb_spec (x * 256 + b2z d) 65536); [lia|].
    destruct (Z.ltb_spec (x * 256 + b2z d) 16777216); [|lia]. be_simp. subst x. be_simp. by rewrite z2b_b2z.
  - set (x := b2z a * 256 + b2z c) in *.
    destruct (Z.ltb_spec ((x * 256 + b2z d) * 256 + b2z e) 256); [lia|].
    destruct (Z.ltb_spec ((x * 256 + b2z d) * 256 + b2z e) 65536); [lia|].
    destruct (Z.ltb_spec ((x * 256 + b2z d) * 256 + b2z e) 16777216); [lia|].
    be_simp. subst x. be_simp. by rewrite z2b_b2z.
Qed.

Lemma long_len_exists l : 128 <= l < 2 ^ 32 -> exists bs, long_len bs l.
Proof.
  intros Hl.
  assert (Hd : forall x, 0 <= x -> 0 <= x / 256) by (intros; apply Z.div_pos; lia).
  assert (Hu : forall x k, x < 256 * k -> x / 256 < k) by (intros; apply Z.div_lt_upper_bound; lia).
  assert (Hlo : forall x, 256 <= x -> 1 <= x / 256) by (intros; apply Z.div_le_lower_bound; lia).
  assert (Hnz : forall x, 0 < x < 256 -> Some (z2b x) <> Some (z2b 0)).
  { intros x Hx He. injection He as He%(f_equal b2z). rewrite !b2z_z2b_small in He by lia. lia. }
  set (x := l / 256). set (y := x / 256). set (z := y / 256).
  pose proof (be_split l) as El. pose proof (be_split x) as Ex. pose proof (be_split y) as Ey.
  fold x in El. fold y in Ex. fold z in Ey.
  destruct (Z.lt_ge_cases l 256); [|destruct (Z.lt_ge_cases l 65536); [|destruct (Z.lt_ge_cases l 16777216)]].
  - exists [z2b l]. unfold long_len. cbn [length head foldl]. rewrite shift_or_val.
    rewrite b2z_z2b_small by lia. split_and!; [lia..|apply Hnz; lia|lia|lia].
  - assert (1 <= x < 256) by (split; [apply Hlo; lia|apply Hu; lia]).
    exists [z2b x; z2b l]. unfold long_len. cbn [length head foldl]. rewrite !shift_or_val.
    rewrite (b2z_z2b_small x) by lia. split_and!; [lia..|apply Hnz; lia|lia|lia].
  - assert (256 <= x < 65536) by (split; [apply Z.div_le_lower_bound; lia|apply Hu; lia]).
    assert (1 <= y < 256) by (split; [apply Hlo; lia|apply Hu; lia]).
    exists [z2b y; z2b x; z2b l]. unfold long_len. cbn [length head foldl]. rewrite !shift_or_val.
    rewrite (b2z_z2b_small y) by lia. split_and!; [lia..|apply Hnz; lia|lia|lia].
  - assert (65536 <= x < 16777216) by (split; [apply Z.div_le_lower_bound; lia|apply Hu; lia]).
    assert (256 <= y < 65536) by (split; [apply Z.div_le_lower_bound; lia|apply Hu; lia]).
    assert (1 <= z < 256) by (split; [apply Hlo; lia|apply Hu; lia]).
    exists [z2b z; z2b y; z2b x; z2b l]. unfold long_len. cbn [length head foldl].
    rewrite !shift_or_val. rewrite (b2z_z2b_small z) by lia.
    split_and!; [lia..|apply Hnz; lia|lia|lia].
Qed.

(** The canonical length encoding is read back, and whatever [readLen] reads
    is the canonical encoding. *)
Lemma derlen_read l rest : 0 <= l < 2 ^ 32 -> l <= zlen rest ->
  readLen (derlen l ++ rest) 0 = Ok (l, length (derlen l)).
Proof.
  intros Hl Hr. destruct (Z.lt_ge_cases l 128) as [H|H].
  - unfold derlen. destruct (Z.ltb_spec l 128); [|lia].
    unfold readLen; cbn [app lookup list_lookup]. rewrite b2z_z2b_small by lia.
    destruct (Z.ltb_spec l 128); [done|lia].
  - destruct (long_len_exists l) as [bs Hbs]; [lia|].
    rewrite (derlen_long bs l Hbs). cbn [app length]. by apply readLen_long.
Qed.

Lemma readLen_derlen s l np : readLen s 0 = Ok (l, np) ->
  s = derlen l ++ drop np s /\ np = length (derlen l) /\ 0 <= l < 2 ^ 32.
Proof.
  intros [(fb & rest & -> & -> & Hl & ->)|(bs & rest & -> & Hbs & Hr & ->)]%readLen_inv.
  - pose proof (b2z_range fb). unfold derlen. destruct (Z.ltb_spec (b2z fb) 128); [|lia].
    rewrite z2b_b2z. cbn. split_and!; auto; lia.
  - rewrite (derlen_long bs l Hbs). pose proof (long_len_bound _ _ Hbs). destruct Hbs as (_ & _ & _ & ?).
    cbn [length drop app]. rewrite drop_app_length. split_and!; auto; lia.
Qed.

Lemma derlen_length l : (1 <= length (derlen l) <= 5)%nat.
Proof. unfold derlen. repeat case_match; cbn; lia. Qed.

(** ** Lemmas: integers *)

Lemma high_bit_spec b : high_bit b = (128 <=? b2z b).
Proof. destruct b; vm_compute; reflexivity. Qed.

Definition sign0 (b : bytes) : Z :=
  match b with b0 :: _ => if 128 <=? b2z b0 then -1 else 0 | [] => 0 end.

(** The two's complement value of a byte string. *)
Definition sval (b : bytes) : Z := foldl shift_or (sign0 b) b.

Definition redundant (a c : byte) : bool :=
  ((b2z a =? 0) && (b2z c <? 128)) || ((b2z a =? 255) && (128 <=? b2z c)).

Definition minimal (b : bytes) : Prop :=
  match b with a :: c :: _ => redundant a c = false | _ => True end.

Lemma sval_redundant a c l : redundant a c = true -> sval (a :: c :: l) = sval (c :: l).
Proof.
  unfold redundant, sval. intros H. cbn [foldl sign0]. f_equal.
  rewrite (shift_or_val _ a). rewrite orb_true_iff, !andb_true_iff, !Z.eqb_eq in H.
  destruct H as [[Ha Hc]|[Ha Hc]]; rewrite Ha; cbn.
  - apply Z.ltb_lt in Hc. destruct (Z.leb_spec 128 (b2z c)); [lia|done].
  - rewrite Hc. done.
Qed.

Lemma skip_while_cons p a c l :
  skip_while p (a :: c :: l) = if p a c then skip_while p (c :: l) else a :: c :: l.
Proof. done. Qed.

Lemma skip_while_sval p l : (forall a c, p a c = true -> redundant a c = true) ->
  sval (skip_while p l) = sval l.
Proof.
  intros Hp. induction l as [|a [|c l] IH]; [done..|].
  rewrite skip_while_cons. destruct (p a c) eqn:E; [|done].
  rewrite IH. symmetry. by apply sval_redundant, Hp.
Qed.

Lemma skip_while_length p l : (length (skip_while p l) <= length l)%nat /\
  (l <> [] -> skip_while p l <> []).
Proof.
  induction l as [|a [|c l] [IH1 IH2]]; [cbn; auto..|].
  rewrite skip_while_cons. destruct (p a c); [|by cbn; auto]. split; [cbn in *; lia|].
  intros _. by apply IH2.
Qed.

Lemma skip_while_head p l a c l' : skip_while p l = a :: c :: l' -> p a c = false.
Proof.
  induction l as [|x [|y l] IH]; [done..|]. rewrite skip_while_cons.
  destruct (p x y) eqn:E; [auto|]. intros; by simplify_eq.
Qed.

Lemma skip_while_fix p l : match l with a :: c :: _ => p a c = false | _ => True end ->
  skip_while p l = l.
Proof. destruct l as [|a [|c l]]; cbn; [done..|]. by intros ->. Qed.

Lemma foldl_shift_or_app acc l k :
  foldl shift_or acc (l ++ k) = foldl shift_or (foldl shift_or acc l) k.
Proof. apply foldl_app. Qed.

Lemma sval_snoc l c : l <> [] -> sval (l ++ [c]) = sval l * 256 + b2z c.
Proof.
  intros Hl. unfold sval. destruct l as [|a l]; [done|]. cbn [sign0 app].
  rewrite app_comm_cons, foldl_shift_or_app. cbn [foldl]. by rewrite shift_or_val.
Qed.

Lemma sval_one c : sval [c] = if 128 <=? b2z c then b2z c - 256 else b2z c.
Proof. unfold sval. cbn [foldl sign0]. rewrite shift_or_val. case_match; lia. Qed.

Lemma minimal_snoc l c : minimal (l ++ [c]) -> minimal l.
Proof. destruct l as [|a [|b l]]; cbn; auto. Qed.

(** Minimal two's complement strings are determined by their value. *)
Lemma minimal_unique n b1 b2 : (length b1 + length b2 <= n)%nat ->
  b1 <> [] -> b2 <> [] -> minimal b1 -> minimal b2 -> sval b1 = sval b2 -> b1 = b2.
Proof.
  revert b1 b2; induction n as [|n IH]; intros b1 b2 Hn H1 H2 M1 M2 Hs.
  { destruct b1; [done|cbn in Hn; lia]. }
  destruct b1 as [|c1 l1] using rev_ind; [done|]. clear IHl1.
  destruct b2 as [|c2 l2] using rev_ind; [done|]. clear IHl2.
  pose proof (b2z_range c1). pose proof (b2z_range c2). rewrite !length_app in Hn. cbn in Hn.
  apply minimal_snoc in M1 as M1'. apply minimal_snoc in M2 as M2'.
  assert (Hone : forall l c, l <> [] -> minimal l -> minimal (l ++ [c]) ->
    (length l + 1 <= n)%nat -> sval [c] = sval (l ++ [c]) -> False).
  { intros l c Hl Ml Ml' Hlen He. rewrite sval_snoc in He by done.
    pose proof (b2z_range c). rewrite sval_one in He.
    destruct (Z.leb_spec 128 (b2z c)).
    - assert (l = [z2b 255]) as -> by (apply IH; [cbn; lia|done..|]; change (sval [z2b 255]) with (-1); lia).
      cbn in Ml'. unfold redundant in Ml'. rewrite b2z_z2b_small in Ml' by lia.
      rewrite (proj2 (Z.leb_le _ _)) in Ml' by done. by rewrite orb_true_r in Ml'.
    - assert (l = [z2b 0]) as -> by (apply IH; [cbn; lia|done..|]; change (sval [z2b 0]) with 0; lia).
      cbn in Ml'. unfold redundant in Ml'. rewrite b2z_z2b_small in Ml' by lia.
      rewrite (proj2 (Z.ltb_lt _ _)) in Ml' by done. done. }
  assert (Hmod : c1 = c2).
  { apply b2z_inj. destruct l1 as [|a1 l1], l2 as [|a2 l2]; cbn [app] in *;
      rewrite ?app_comm_cons, ?sval_snoc, ?sval_one in Hs by done;
      repeat case_match; lia. }
  subst c2. destruct l1 as [|a1 l1], l2 as [|a2 l2].
  - done.
  - exfalso. eapply (Hone (a2 :: l2) c1); [done..|cbn in *; lia|done].
  - exfalso. eapply (Hone (a1 :: l1) c1); [done..|cbn in *; lia|by symmetry].
  - f_equal. apply IH; [lia|done..|]. rewrite !sval_snoc in Hs by done. lia.
Qed.

Lemma parseInt32_spec b v : parseInt32 b = Ok v <->
  (1 <= length b <= 5)%nat /\ minimal b /\ v = sval b /\ -2147483648 <= v <= 2147483647.
Proof.
  unfold parseInt32.
  destruct ((zlen b =? 0) || (zlen b >? 5)) eqn:Hl.
  { rewrite orb_true_iff, Z.eqb_eq, Z.gtb_lt in Hl. split; [done|]. unfold zlen in Hl. lia. }
  rewrite orb_false_iff, Z.eqb_neq, Z.gtb_ltb, Z.ltb_ge in Hl. unfold zlen in Hl.
  set (nm := match b with _ :: _ :: _ => _ | _ => _ end).
  assert (Hnm : nm = false <-> minimal b).
  { unfold nm, minimal. destruct b as [|a [|c b]]; [done..|].
    rewrite high_bit_spec. unfold redundant.
    replace (negb (128 <=? b2z c)) with (b2z c <? 128); [done|].
    destruct (Z.leb_spec 128 (b2z c)), (Z.ltb_spec (b2z c) 128); cbn; (done || lia). }
  replace (match b with b0 :: _ => if high_bit b0 then -1 else 0 | [] => 0 end) with (sign0 b)
    by (destruct b; cbn; [done|by rewrite high_bit_spec]).
  change (foldl shift_or (sign0 b) b) with (sval b). cbv zeta.
  destruct nm.
  - split; [done|]. intros (_ & Hm & _). by apply Hnm in Hm.
  - destruct (_ || _) eqn:Hr.
    + rewrite orb_true_iff, Z.gtb_lt, Z.ltb_lt in Hr. split; [done|]. lia.
    + rewrite orb_false_iff, Z.gtb_ltb, !Z.ltb_ge in Hr. split.
      * intros [= <-]. split_and!; [lia..|by apply Hnm|done|lia|lia].
      * by intros (_ & _ & -> & _).
Qed.

Definition int32 (v : Z) : Prop := -2147483648 <= v <= 2147483647.

Lemma sval_be4 v : int32 v ->
  sval [z2b (Z.shiftr v 24); z2b (Z.shiftr v 16); z2b (Z.shiftr v 8); z2b v] = v.
Proof.
  intros Hv. unfold int32 in Hv. rewrite shiftr8, shiftr16, shiftr24.
  set (x := v / 256). set (y := x / 256). set (w := y / 256).
  assert (-128 <= w < 128).
  { subst w y x. rewrite !Z.div_div by lia. split.
    - apply Z.div_le_lower_bound; lia.
    - apply Z.div_lt_upper_bound; lia. }
  assert (Hw : sval [z2b w] = w).
  { rewrite sval_one, b2z_z2b. destruct (Z.lt_ge_cases w 0).
    - replace (w mod 256) with (w + 256) by (apply Z.mod_unique with (q := -1); lia).
      destruct (Z.leb_spec 128 (w + 256)); lia.
    - rewrite Z.mod_small by lia. destruct (Z.leb_spec 128 w); lia. }
  change [z2b w; z2b y; z2b x; z2b v] with ((([z2b w] ++ [z2b y]) ++ [z2b x]) ++ [z2b v]).
  rewrite !sval_snoc by done. rewrite Hw.
  unfold w. rewrite <- be_split. unfold y. rewrite <- be_split. unfold x. by rewrite <- be_split.
Qed.

Definition pad00 (a c : byte) : bool := (b2z a =? 0) && negb (high_bit c).
Definition padff (a c : byte) : bool := (b2z a =? 255) && high_bit c.

Lemma pads_redundant a c : redundant a c = pad00 a c || padff a c.
Proof.
  unfold redundant, pad00, padff. rewrite high_bit_spec.
  replace (negb (128 <=? b2z c)) with (b2z c <? 128); [done|].
  destruct (Z.leb_spec 128 (b2z c)), (Z.ltb_spec (b2z c) 128); cbn; (done || lia).
Qed.

Lemma skip_padff_suffix l a m : skip_while padff l = a :: m -> l = a :: m \/ 128 <= b2z a.
Proof.
  induction l as [|x [|y l] IH]; [done|by left|]. rewrite skip_while_cons.
  destruct (padff x y) eqn:E; [|by left]. intros H. right.
  destruct (IH H) as [[= -> ->]|]; [|done].
  unfold padff in E. rewrite high_bit_spec in E. apply andb_true_iff in E as [_ ?%Z.leb_le]. done.
Qed.

Lemma skip_pads_minimal l : minimal (skip_while padff (skip_while pad00 l)).
Proof.
  destruct (skip_while padff (skip_while pad00 l)) as [|a [|c m]] eqn:E; [done..|].
  cbn. rewrite pads_redundant. apply orb_false_iff. split; [|by eapply skip_while_head].
  destruct (skip_padff_suffix _ _ _ E) as [E0|Ha].
  - by eapply skip_while_head.
  - unfold pad00. destruct (Z.eqb_spec (b2z a) 0); [lia|done].
Qed.

Lemma encodeInt32_spec v : int32 v ->
  (1 <= length (encodeInt32 v) <= 4)%nat /\ minimal (encodeInt32 v) /\ sval (encodeInt32 v) = v.
Proof.
  intros Hv. pose proof (sval_be4 v Hv) as Hs.
  change (encodeInt32 v) with (skip_while padff (skip_while pad00
    [z2b (Z.shiftr v 24); z2b (Z.shiftr v 16); z2b (Z.shiftr v 8); z2b v])).
  revert Hs. generalize (z2b (Z.shiftr v 24)), (z2b (Z.shiftr v 16)), (z2b (Z.shiftr v 8)), (z2b v).
  intros b0 b1 b2 b3 Hs.
  destruct (skip_while_length pad00 [b0; b1; b2; b3]) as [L0 N0].
  destruct (skip_while_length padff (skip_while pad00 [b0; b1; b2; b3])) as [L1 N1].
  split_and!; [|cbn [length] in L0; lia|apply skip_pads_minimal|].
  - assert (Hne : forall r : bytes, r <> [] -> (1 <= length r)%nat) by (intros []; cbn; [done|lia]).
    exact (Hne _ (N1 (N0 ltac:(discriminate)))).
  - rewrite !skip_while_sval; [done|..]; intros a c H; rewrite pads_redundant, H, ?orb_true_r; done.
Qed.

Lemma parse_encodeInt32 v : int32 v -> parseInt32 (encodeInt32 v) = Ok v.
Proof.
  intros Hv. destruct (encodeInt32_spec v Hv) as (Hl & Hm & Hs).
  apply parseInt32_spec. split_and!; [lia..|done|done|apply Hv|apply Hv].
Qed.

Lemma length_pos (r : bytes) : (1 <= length r)%nat -> r <> [].
Proof. intros H ->. cbn in H. lia. Qed.

Lemma encode_parseInt32 b v : parseInt32 b = Ok v -> encodeInt32 v = b /\ int32 v.
Proof.
  intros (Hl & Hm & Hs & Hv)%parseInt32_spec. split; [|done].
  destruct (encodeInt32_spec v Hv) as (Hl' & Hm' & Hs').
  apply (minimal_unique (length (encodeInt32 v) + length b)); [lia|..|done|done|congruence].
  - apply length_pos. lia.
  - apply length_pos. lia.
Qed.

(** ** Lemmas: one tag-length-value element inside a buffer *)

Lemma tlv_read pre tag val post : zlen val < 2 ^ 32 ->
  let b := pre ++ appendTLV [] tag val ++ post in
  let np := (length pre + 1 + length (derlen (zlen val)))%nat in
  b !! length pre = Some tag /\
  readLen b (S (length pre)) = Ok (zlen val, np) /\
  slice b np (zlen val) = val /\
  (np + Z.to_nat (zlen val))%nat = length (pre ++ appendTLV [] tag val).
Proof.
  intros Hv b np. pose proof (zlen_nonneg val). pose proof (zlen_nonneg post).
  assert (Hb : b = (pre ++ [tag]) ++ derlen (zlen val) ++ val ++ post).
  { subst b. rewrite appendTLV_eq. cbn [app]. rewrite <- !app_assoc. cbn [app].
    done. }
  assert (Hlen : length (pre ++ [tag]) = S (length pre)) by (rewrite length_app; cbn; lia).
  clearbody b. subst b. split_and!.
  - rewrite <- app_assoc, lookup_app_r by lia. by rewrite Nat.sub_diag.
  - rewrite <- Hlen, readLen_app, derlen_read by (rewrite ?zlen_app; lia).
    subst np. rewrite Hlen. do 2 f_equal. lia.
  - unfold slice. rewrite app_assoc, drop_app_length' by (subst np; rewrite length_app; lia).
    unfold zlen. rewrite Nat2Z.id. apply take_app_length.
  - rewrite appendTLV_eq. subst np. rewrite !length_app. cbn. rewrite length_app. unfold zlen. lia.
Qed.

Lemma tlv_inv b pos tag l np : b !! pos = Some tag -> readLen b (S pos) = Ok (l, np) ->
  Z.of_nat np + l <= zlen b ->
  let val := slice b np l in
  b = take pos b ++ appendTLV [] tag val ++ drop (np + Z.to_nat l) b /\
  zlen val = l /\ l < 2 ^ 32 /\ (S pos <= np)%nat.
Proof.
  intros Hp Hr Hb. cbv zeta.
  assert (Hpos : (pos < length b)%nat) by (by eapply lookup_lt_Some).
  assert (Hsplit : b = (take pos b ++ [tag]) ++ drop (S pos) b).
  { rewrite <- app_assoc. cbn. rewrite <- (take_drop_middle b pos tag Hp) at 1. done. }
  assert (Hlen : length (take pos b ++ [tag]) = S pos) by (rewrite length_app, length_take; cbn; lia).
  assert (Hr' : readLen ((take pos b ++ [tag]) ++ drop (S pos) b) (length (take pos b ++ [tag]))
                = Ok (l, np)) by (by rewrite <- Hsplit, Hlen).
  rewrite readLen_app, Hlen in Hr'. revert Hr'. destruct (readLen (drop (S pos) b) 0) as [[l' np']| |] eqn:E; [|done..].
  intros [= -> <-].
  apply readLen_derlen in E as (Hd & Hnp & Hl).
  subst np'. rewrite drop_drop in Hd.
  set (np := S (pos + length (derlen l))) in *. change (S pos + length (derlen l))%nat with np in Hd.
  assert (Hval : zlen (slice b np l) = l).
  { unfold zlen, slice. rewrite length_take, length_drop. unfold zlen in Hb. lia. }
  split_and!; [|done|lia|lia].
  rewrite appendTLV_eq, Hval. cbn [app]. rewrite Hsplit at 1. rewrite <- !app_assoc. cbn [app].
  f_equal. f_equal. rewrite Hd. rewrite <- ?app_assoc. f_equal.
  unfold slice. rewrite <- (take_drop (Z.to_nat l) (drop np b)) at 1.
  f_equal. by rewrite drop_drop.
Qed.

(** ** Lemmas: identities *)

Definition encoding (tag : byte) (payload data : bytes) : bytes :=
  appendTLV [] tagSequence (appendTLV [] tag payload ++ appendTLV [] tagOctetString data).

Lemma appendTLV_zlen tag val : zlen (appendTLV [] tag val) <= zlen val + 6.
Proof.
  rewrite appendTLV_eq. cbn [app]. rewrite zlen_cons, zlen_app.
  pose proof (derlen_length (zlen val)). unfold zlen in *. lia.
Qed.

Lemma app_nil_mid (a b : bytes) : a ++ b = a ++ b ++ [].
Proof. by rewrite app_nil_r. Qed.

(** Decoding an element-wise canonical encoding, whatever the type tag. *)
Lemma DecodeIdentity_encoding tag payload data r0 :
  zlen payload + zlen data + 12 < 2 ^ 32 ->
  (forall pre post,
     decode_first (pre ++ appendTLV [] tag payload ++ post) (length pre)
     = Ok (r0, length (pre ++ appendTLV [] tag payload))) ->
  DecodeIdentity (encoding tag payload data)
  = Ok (legacy_fold (mkResult (IsInt r0) (Int32 r0) (Str r0) data)).
Proof.
  intros Hlen Hfirst. unfold DecodeIdentity, encoding.
  set (first := appendTLV [] tag payload). set (second := appendTLV [] tagOctetString data).
  pose proof (appendTLV_zlen tag payload). pose proof (appendTLV_zlen tagOctetString data).
  pose proof (zlen_nonneg payload). pose proof (zlen_nonneg data).
  assert (Hbody : zlen (first ++ second) < 2 ^ 32) by (rewrite zlen_app; subst first second; lia).
  destruct (tlv_read [] tagSequence (first ++ second) [] Hbody) as (T1 & T2 & _ & T4).
  cbn [app length] in T1, T2, T4. rewrite app_nil_r in T1, T2.
  set (b := appendTLV [] tagSequence (first ++ second)) in *.
  rewrite decide_True by done. rewrite T2. cbn [mbind res_mbind].
  set (pos := (0 + 1 + length (derlen (zlen (first ++ second))))%nat) in *.
  assert (Hb : b = (tagSequence :: derlen (zlen (first ++ second))) ++ first ++ second).
  { subst b. rewrite appendTLV_eq. done. }
  assert (Hpos : Z.of_nat pos + zlen (first ++ second) = zlen b).
  { change (zlen b) with (Z.of_nat (length b)). rewrite <- T4. pose proof (zlen_nonneg (first ++ second)). lia. }
  rewrite Hpos, Z.gtb_ltb, Z.ltb_irrefl.
  set (pre := tagSequence :: derlen (zlen (first ++ second))) in *.
  assert (Hpre : length pre = pos) by done. clearbody b pos pre. subst pos b.
  subst first. rewrite Hfirst. cbn [mbind res_mbind].
  set (pre2 := pre ++ appendTLV [] tag payload). rewrite app_assoc. fold pre2.
  destruct (tlv_read pre2 tagOctetString data []) as (U1 & U2 & U3 & U4); [lia|].
  rewrite app_nil_r in U1, U2, U3. fold second in U1, U2, U3, U4.
  rewrite U1, decide_True, U2 by done. cbn [mbind res_mbind].
  assert (Hend : Z.of_nat (length pre2 + 1 + length (derlen (zlen data))) + zlen data = zlen (pre2 ++ second)).
  { change (zlen (pre2 ++ second)) with (Z.of_nat (length (pre2 ++ second))). rewrite <- U4. lia. }
  rewrite Hend, Z.gtb_ltb, Z.ltb_irrefl, Z.eqb_refl, U3. done.
Qed.

Lemma decode_first_int v : int32 v -> forall pre post,
  decode_first (pre ++ appendTLV [] tagInteger (encodeInt32 v) ++ post) (length pre)
  = Ok (mkResult true v [] [], length (pre ++ appendTLV [] tagInteger (encodeInt32 v))).
Proof.
  intros Hv pre post. destruct (encodeInt32_spec v Hv) as ([_ Hl] & _).
  destruct (tlv_read pre tagInteger (encodeInt32 v) post) as (T1 & T2 & T3 & T4).
  { unfold zlen. lia. }
  unfold decode_first. rewrite T1, decide_True, T2 by done. cbn [mbind res_mbind].
  rewrite T3, parse_encodeInt32, T4 by done.
  rewrite Z.gtb_ltb. rewrite (proj2 (Z.ltb_ge _ _)); [done|].
  rewrite app_assoc, zlen_app.
  change (zlen (pre ++ appendTLV [] tagInteger (encodeInt32 v)))
    with (Z.of_nat (length (pre ++ appendTLV [] tagInteger (encodeInt32 v)))). rewrite <- T4.
  pose proof (zlen_nonneg post). pose proof (zlen_nonneg (encodeInt32 v)). lia.
Qed.

Lemma decode_first_inv b pos r np : decode_first b pos = Ok (r, np) ->
  exists tag payload, b = take pos b ++ appendTLV [] tag payload ++ drop np b /\
    (pos < np)%nat /\ (np <= length b)%nat /\
    ((tag = tagInteger /\ payload = encodeInt32 (Int32 r) /\ IsInt r = true /\ Str r = []) \/
     ((tag = tagUTF8String \/ tag = tagPrintableString) /\ payload = Str r /\ IsInt r = false)).
Proof.
  unfold decode_first. destruct (b !! pos) as [tag|] eqn:Ht; [|done].
  case_decide as Hi.
  - intros ([l np'] & Hl & H)%res_bind_Ok. destruct (Z.gtb_spec (Z.of_nat np' + l) (zlen b)) as [|Hb]; [done|].
    apply res_bind_Ok in H as (v & Hv & H). simplify_eq.
    destruct (tlv_inv _ _ _ _ _ Ht Hl Hb) as (He & Hz & _ & Hlt).
    apply encode_parseInt32 in Hv as [Hv _].
    eexists _, _. split; [exact He|]. pose proof (zlen_nonneg (slice b np' l)).
    split_and!; [lia|unfold zlen in *; lia|left].
    split_and!; [done|symmetry; exact Hv|done|done].
  - case_decide as Hs; [|done].
    intros ([l np'] & Hl & H)%res_bind_Ok. destruct (Z.gtb_spec (Z.of_nat np' + l) (zlen b)) as [|Hb]; [done|].
    simplify_eq. destruct (tlv_inv _ _ _ _ _ Ht Hl Hb) as (He & Hz & _ & Hlt).
    eexists _, _. split; [exact He|]. pose proof (zlen_nonneg (slice b np' l)).
    split_and!; [lia|unfold zlen in *; lia|right]. auto.
Qed.

Lemma legacy_fold_data r : Data (legacy_fold r) = Data r /\ Str (legacy_fold r) = Str r /\
  (IsInt r = true -> legacy_fold r = r).
Proof. unfold legacy_fold. destruct (IsInt r) eqn:E; [done|]. repeat case_decide; cbn; split_and!; done. Qed.

Lemma DecodeIdentity_inv b r : DecodeIdentity b = Ok r ->
  exists tag payload, b = encoding tag payload (Data r) /\
    ((tag = tagInteger /\ payload = encodeInt32 (Int32 r) /\ IsInt r = true /\ Str r = []) \/
     ((tag = tagUTF8String \/ tag = tagPrintableString) /\ payload = Str r)).
Proof.
  unfold DecodeIdentity. case_decide as H0; [|done].
  intros ([sl pos] & Hl & H)%res_bind_Ok.
  destruct (Z.gtb_spec (Z.of_nat pos + sl) (zlen b)) as [|Hle]; [done|].
  destruct (Z.ltb_spec (Z.of_nat pos + sl) (zlen b)) as [|Hge]; [done|].
  apply res_bind_Ok in H as ([r1 p1] & H1 & H).
  destruct (b !! p1) as [tag2|] eqn:Ht2; [|done]. case_decide as Ho; [|done]. subst tag2.
  apply res_bind_Ok in H as ([l np] & Hl2 & H).
  destruct (Z.gtb_spec (Z.of_nat np + l) (zlen b)) as [|Hle2]; [done|].
  destruct (Z.eqb_spec (Z.of_nat np + l) (zlen b)) as [Heq|]; [|done]. cbn in H. simplify_eq.
  destruct (tlv_inv _ _ _ _ _ H0 Hl Hle) as (Hb & Hz & _ & _).
  apply decode_first_inv in H1 as (tag & payload & Hf & Hlt & Hbd & Hcase).
  destruct (tlv_inv _ _ _ _ _ Ht2 Hl2 Hle2) as (Hs & Hz2 & _ & _).
  pose proof (zlen_nonneg (slice b pos sl)). pose proof (zlen_nonneg (slice b np l)).
  assert (Hbody : slice b pos sl = appendTLV [] tag payload ++ appendTLV [] tagOctetString (slice b np l)).
  { assert (Hd : slice b pos sl = drop pos b).
    { unfold slice. apply take_ge. rewrite length_drop. unfold zlen in *. lia. }
    assert (Hpos : length (take pos b) = pos) by (rewrite length_take; lia).
    assert (Hp1 : length (take p1 b) = p1) by (rewrite length_take; lia).
    assert (Hd1 : drop p1 b = appendTLV [] tagOctetString (slice b np l)).
    { rewrite Hs at 1. rewrite drop_app_length' by done.
      rewrite (drop_ge b) by (unfold zlen in *; lia). by rewrite app_nil_r. }
    rewrite Hd, <- Hd1. rewrite Hf at 1. by rewrite drop_app_length' by done. }
  destruct (legacy_fold_data (mkResult (IsInt r1) (Int32 r1) (Str r1) (slice b np l))) as (D1 & D2 & D3).
  exists tag, payload. rewrite D1, D2. cbn [Data Str IsInt] in *. split.
  - unfold encoding. rewrite <- Hbody. rewrite Hb at 1.
    rewrite (drop_ge b) by (unfold zlen in *; lia). by rewrite app_nil_r.
  - destruct Hcase as [(-> & -> & Hi & Hs1)|(? & -> & _)]; [left|by right].
    rewrite D3 by done. done.
Qed.

Lemma typed_roundtrip t id : int32 t -> zlen id + 16 < 2 ^ 32 ->
  UnmarshalTypedIdentity (TypedIdentity_Bytes (mkTypedIdentity t id)) = Ok (mkTypedIdentity t id).
Proof.
  intros Ht Hlen. unfold UnmarshalTypedIdentity, TypedIdentity_Bytes, EncodeIdentity.
  cbn [TI_Type TI_Identity]. destruct (encodeInt32_spec t Ht) as ([_ Hl] & _).
  pose proof (DecodeIdentity_encoding tagInteger (encodeInt32 t) id (mkResult true t [] [])) as HD.
  unfold encoding in HD. rewrite HD; [done|unfold zlen in *; lia|by apply decode_first_int].
Qed.

(** ** Properties *)

(** Wrapping an identity with a type and unmarshalling the result gives
    back the type and the identity, for every [int32] type and every payload
    below the 4 GiB bound of the length encoding. *)
Theorem TypedIdentity_roundtrip t id : int32 t -> zlen id + 16 < 2 ^ 32 ->
  UnmarshalTypedIdentity (WrapWithType t id) = Ok (mkTypedIdentity t id).
Proof. apply typed_roundtrip. Qed.

Lemma TypedIdentity_roundtrip_witness :
  UnmarshalTypedIdentity (WrapWithType PolicyIdentityType (str "policy")) = Ok (mkTypedIdentity 6 (str "policy")).
Proof. apply TypedIdentity_roundtrip; [split; discriminate|reflexivity]. Defined.

(** The decoder accepts only canonical encodings.  Whatever bytes it
    accepts are exactly the encoding of the decoded type and payload, so no
    other spelling of the lengths or of the integer, no trailing bytes and no
    extra elements decode to the same identity; the legacy string form is
    canonical too once its string tag is fixed. *)
Theorem DecodeIdentity_canonical b r : DecodeIdentity b = Ok r ->
  (IsInt r = true /\ Str r = [] /\ b = EncodeIdentity (Int32 r) (Data r)) \/
  (exists tag, (tag = tagUTF8String \/ tag = tagPrintableString) /\
     b = appendTLV [] tagSequence (appendTLV [] tag (Str r) ++ appendTLV [] tagOctetString (Data r))).
Proof.
  intros (tag & payload & -> & [(-> & -> & ? & ?)|(Htag & ->)])%DecodeIdentity_inv; [left|right].
  - done.
  - by exists tag.
Qed.

Lemma DecodeIdentity_canonical_witness :
  DecodeIdentity (EncodeIdentity (-300) (str "id")) = Ok (mkResult true (-300) [] (str "id")) /\
  ((true = true /\ [] = [] :> bytes /\ EncodeIdentity (-300) (str "id") = EncodeIdentity (-300) (str "id")) \/
   (exists tag, (tag = tagUTF8String \/ tag = tagPrintableString) /\
     EncodeIdentity (-300) (str "id")
     = appendTLV [] tagSequence (appendTLV [] tag [] ++ appendTLV [] tagOctetString (str "id")))).
Proof.
  split; [vm_compute; reflexivity|].
  apply (DecodeIdentity_canonical (EncodeIdentity (-300) (str "id")) (mkResult true (-300) [] (str "id"))).
  vm_compute. reflexivity.
Defined.
