(* ===== verification/Asn1.v ===== *)
(** * Canonical DER of composite identities and signatures
      (services/identity/marshal/marshal.go, [UnmarshalCanonicalDER])

    [UnmarshalCanonicalDER] is generic in the destination type; the class
    [ASN1] is what it needs of package encoding/asn1 at a type, and the class
    [ASN1Laws] what is relied on: decoding reads back what encoding wrote.  The
    encoder and decoder of encoding/asn1 are then written out for the two shapes
    the identity layer uses, a SEQUENCE with a SEQUENCE OF OCTET STRING and one
    with a string before it, and shown to satisfy the law. *)

From S2P Require Import Prelude GoStd GoText Der.
From Stdlib Require Import ZArith Lia.
Local Open Scope Z_scope.

Definition ErrNonCanonical : error := EMsg "asn1: not the canonical encoding for this type".

Class ASN1 (T : Type) := {
  asn1_Marshal : T -> res bytes;
  asn1_Unmarshal : bytes -> res (T * bytes);
}.

(** [encodable v]: the values the decoder reads back. *)
Class ASN1Laws (T : Type) `{!ASN1 T} := {
  encodable : T -> Prop;
  asn1_roundtrip v : encodable v -> exists b, asn1_Marshal v = Ok b /\ asn1_Unmarshal b = Ok (v, []);
  asn1_Marshal_no_panic v : asn1_Marshal v <> Panic;
  asn1_Unmarshal_no_panic b : asn1_Unmarshal b <> Panic;
}.

Definition UnmarshalCanonicalDER {T} `{!ASN1 T} (b : bytes) : res T :=
  '(v, rest) ← asn1_Unmarshal b;
  if negb (zlen rest =? 0) then Err ErrTrailingBytes
  else
    reencoded ← asn1_Marshal v;
    if negb (bool_decide (b = reencoded)) then Err ErrNonCanonical else Ok v.

(** However lenient the decoder, only the encoding of a value is accepted. *)
Lemma Canonical_Ok {T} `{!ASN1 T} b (v : T) :
  UnmarshalCanonicalDER b = Ok v <-> asn1_Unmarshal b = Ok (v, []) /\ asn1_Marshal v = Ok b.
Proof.
  unfold UnmarshalCanonicalDER. rewrite res_bind_Ok. split.
  - intros ([v' rest] & Hu & H). destruct (Z.eqb_spec (zlen rest) 0) as [Hz%zlen_zero_nil|]; [|done].
    apply res_bind_Ok in H as (re & Hm & H). case_bool_decide as Heq; [|done]. cbn in H. injection H as <-. by subst.
  - intros [Hu Hm]. exists (v, []). split; [done|]. cbn. rewrite Hm. cbn. by rewrite bool_decide_true.
Qed.

Lemma Canonical_encode {T} `{HA : !ASN1 T} `{!ASN1Laws T} (v : T) : encodable v ->
  exists b, asn1_Marshal v = Ok b /\ UnmarshalCanonicalDER b = Ok v.
Proof. intros (b & Hm & Hu)%asn1_roundtrip. exists b. split; [done|]. by apply Canonical_Ok. Qed.

Lemma Canonical_no_panic {T} `{HA : !ASN1 T} `{!ASN1Laws T} b : UnmarshalCanonicalDER (T := T) b <> Panic.
Proof.
  unfold UnmarshalCanonicalDER. destruct (asn1_Unmarshal b) as [[v rest]|e|] eqn:E; cbn [mbind res_mbind]; [|done|].
  - destruct (negb _); [done|]. destruct (asn1_Marshal v) as [re|e|] eqn:E'; cbn [mbind res_mbind]; [by destruct (negb _)|done|].
    by apply asn1_Marshal_no_panic in E'.
  - by apply asn1_Unmarshal_no_panic in E.
Qed.

(** ** encoding/asn1: headers *)

Definition asn1_err (msg : string) : error := EMsg msg.

(** The loop of [parseTagAndLength] over the bytes of a long length. *)
Fixpoint long_length (numBytes : nat) (l : Z) (b : bytes) : res (Z * bytes) :=
  match numBytes with
  | O => if l <? 128 then Err (asn1_err "non-minimal length") else Ok (l, b)
  | S n =>
      match b with
      | [] => Err (asn1_err "truncated tag or length")
      | c :: b =>
          if 2 ^ 23 <=? l then Err (asn1_err "length too large")
          else let l := shift_or l c in
               if l =? 0 then Err (asn1_err "superfluous leading zeros in length") else long_length n l b
      end
  end.

Definition parse_length (b : bytes) : res (Z * bytes) :=
  match b with
  | [] => Err (asn1_err "truncated tag or length")
  | c :: b =>
      if Z.land (b2z c) 128 =? 0 then Ok (Z.land (b2z c) 127, b)
      else let numBytes := Z.land (b2z c) 127 in
           if numBytes =? 0 then Err (asn1_err "indefinite length found (not DER)")
           else long_length (Z.to_nat numBytes) 0 b
  end.

(** [parseTagAndLength] and the check of the length: the first byte (class,
    constructed bit and tag), the contents and what follows.  No type here has a
    tag of more than one byte, so these never match. *)
Definition parse_header (b : bytes) : res (byte * bytes * bytes) :=
  match b with
  | [] => Err (asn1_err "sequence truncated")
  | tag :: b =>
      if Z.land (b2z tag) 31 =? 31 then Err (asn1_err "tags don't match")
      else '(l, b) ← parse_length b;
           if zlen b <? l then Err (asn1_err "data truncated")
           else Ok (tag, take (Z.to_nat l) b, drop (Z.to_nat l) b)
  end.

Definition parse_tagged (expected : byte) (b : bytes) : res (bytes * bytes) :=
  '(tag, val, rest) ← parse_header b;
  if bool_decide (tag = expected) then Ok (val, rest) else Err (asn1_err "tags don't match").

(** ** A field of type [[][]byte] *)

(** The elements of a SEQUENCE OF OCTET STRING; an element takes two bytes at
    least, so the length of the contents is enough fuel. *)
Fixpoint parse_elements (fuel : nat) (b : bytes) : res (list bytes) :=
  match b with
  | [] => Ok []
  | _ => match fuel with
         | O => Panic
         | S fuel =>
             '(val, rest) ← parse_tagged tagOctetString b;
             l ← parse_elements fuel rest;
             Ok (val :: l)
         end
  end.

Definition parse_octets_list (b : bytes) : res (list bytes * bytes) :=
  '(val, rest) ← parse_tagged tagSequence b;
  l ← parse_elements (length val) val;
  Ok (l, rest).

Definition tlv (tag : byte) (val : bytes) : bytes := tag :: derlen (zlen val) ++ val.

Definition octets_list (l : list bytes) : bytes := tlv tagSequence (concat (tlv tagOctetString <$> l)).

(** ** A field of type [string]

    The decoder accepts every string type; the encoder writes a UTF8String, as
    the field's annotation says. *)

Definition is_printable (c : Z) : bool :=
  ascii_lower c || ascii_upper c || ascii_digit c || ((39 <=? c) && (c <=? 41)) || ((43 <=? c) && (c <=? 47)) ||
  (c =? 32) || (c =? 58) || (c =? 61) || (c =? 63) || (c =? 42) || (c =? 38).

Definition is_numeric (c : Z) : bool := ascii_digit c || (c =? 32).

(** [utf16.Decode] on big-endian units: a surrogate pair is one rune, a lone
    surrogate [RuneError]. *)
Fixpoint utf16_runes (b : bytes) : list Z :=
  match b with
  | h1 :: l1 :: rest =>
      let u := b2z h1 * 256 + b2z l1 in
      match rest with
      | h2 :: l2 :: rest' =>
          let v := b2z h2 * 256 + b2z l2 in
          if (55296 <=? u) && (u <? 56320) && (56320 <=? v) && (v <? 57344)
          then (u - 55296) * 1024 + (v - 56320) + 65536 :: utf16_runes rest'
          else (if (55296 <=? u) && (u <? 57344) then RuneError else u) :: utf16_runes rest
      | _ => [if (55296 <=? u) && (u <? 57344) then RuneError else u]
      end
  | _ => []
  end.

Definition parse_BMPString (b : bytes) : res bytes :=
  if negb (zlen b mod 2 =? 0) then Err (asn1_err "invalid BMPString")
  else
    let n := length b in
    let b := if (2 <=? zlen b) && bool_decide (b !! (n - 1)%nat = Some (z2b 0)) && bool_decide (b !! (n - 2)%nat = Some (z2b 0))
             then take (n - 2) b else b in
    Ok (runes_string (utf16_runes b)).

Definition parse_string_contents (tag : byte) (val : bytes) : res bytes :=
  let t := b2z tag in
  let all (p : Z -> bool) := forallb (fun c => p (b2z c)) val in
  if t =? 12 then if ValidString val then Ok val else Err (asn1_err "asn1: invalid UTF-8 string")
  else if t =? 19 then if all is_printable then Ok val else Err (asn1_err "PrintableString contains invalid character")
  else if t =? 22 then if all (fun c => c <? 128) then Ok val else Err (asn1_err "IA5String contains invalid character")
  else if t =? 18 then if all is_numeric then Ok val else Err (asn1_err "NumericString contains invalid character")
  else if (t =? 20) || (t =? 27) then Ok val
  else if t =? 30 then parse_BMPString val
  else Err (asn1_err "tags don't match").

Definition parse_string (b : bytes) : res (bytes * bytes) :=
  '(tag, val, rest) ← parse_header b;
  s ← parse_string_contents tag val;
  Ok (s, rest).

(** ** The two structures

    A SEQUENCE may have elements after the fields of the structure; the decoder
    ignores them. *)

Definition octets_struct_Marshal (l : list bytes) : bytes := tlv tagSequence (octets_list l).

Definition octets_struct_Unmarshal (b : bytes) : res (list bytes * bytes) :=
  '(body, rest) ← parse_tagged tagSequence b;
  '(l, _) ← parse_octets_list body;
  Ok (l, rest).

Definition string_octets_Marshal (s : bytes) (l : list bytes) : bytes :=
  tlv tagSequence (tlv tagUTF8String s ++ octets_list l).

Definition string_octets_Unmarshal (b : bytes) : res (bytes * list bytes * bytes) :=
  '(body, rest) ← parse_tagged tagSequence b;
  '(s, body) ← parse_string body;
  '(l, _) ← parse_octets_list body;
  Ok (s, l, rest).

(** ** Decoding what was encoded *)

Definition small (b : bytes) : Prop := zlen b < 2 ^ 31.

Lemma long_length_read bs : forall l rest, 0 <= l -> (0 < l \/ match bs with c :: _ => b2z c <> 0 | [] => False end) ->
  128 <= foldl shift_or l bs -> foldl shift_or l bs < 2 ^ 31 ->
  long_length (length bs) l (bs ++ rest) = Ok (foldl shift_or l bs, rest).
Proof.
  induction bs as [|c bs IH]; intros l rest Hl Hh Hge Hlt; cbn [length foldl long_length app] in *.
  - destruct (Z.ltb_spec l 128); [lia|done].
  - pose proof (b2z_range c) as Hc. rewrite shift_or_val in *.
    pose proof (be_bound bs (l * 256 + b2z c) ltac:(lia)) as [_ _].
    assert (l * 256 + b2z c <= foldl shift_or (l * 256 + b2z c) bs) as Hmono.
    { clear -Hl Hc. assert (0 <= l * 256 + b2z c) as H by lia. revert H. generalize (l * 256 + b2z c). clear.
      induction bs as [|d bs IH]; intros z Hz; cbn [foldl]; [lia|]. pose proof (b2z_range d).
      rewrite shift_or_val. specialize (IH (z * 256 + b2z d) ltac:(lia)). lia. }
    destruct (Z.leb_spec (2 ^ 23) l); [lia|]. destruct (Z.eqb_spec (l * 256 + b2z c) 0); [destruct Hh; lia|].
    apply IH; [lia|left; lia|done|done].
Qed.

Lemma parse_length_read l rest : 0 <= l < 2 ^ 31 -> parse_length (derlen l ++ rest) = Ok (l, rest).
Proof.
  intros Hl. destruct (Z.ltb_spec l 128) as [Hs|Hs].
  - unfold derlen. destruct (Z.ltb_spec l 128); [|lia]. cbn [app parse_length]. rewrite b2z_z2b_small by lia.
    assert (Z.land l 128 = 0) as ->.
    { change 128 with (2 ^ 7). apply Z.bits_inj. intros n. rewrite Z.land_spec, Z.bits_0.
      destruct (Z.eq_dec n 7) as [->|Hn]; [|by rewrite (Z.pow2_bits_false 7) by lia; apply andb_false_r].
      assert (Z.testbit l 7 = false) as ->; [|done]. destruct (Z.eq_dec l 0) as [->|]; [done|].
      apply Z.bits_above_log2; [lia|]. apply Z.log2_lt_pow2; lia. }
    cbn [Z.eqb]. do 2 f_equal. change 127 with (Z.ones 7). rewrite Z.land_ones by lia. apply Z.mod_small. lia.
  - destruct (long_len_exists l) as (bs & HL); [lia|]. rewrite (derlen_long bs l HL).
    destruct HL as (Hn & Hh & Hv & Hm). cbn [app parse_length].
    assert (1 <= zlen bs <= 4) by (unfold zlen; lia). rewrite b2z_z2b_small by lia.
    rewrite land127 by lia. replace (128 + zlen bs - 128) with (zlen bs) by lia.
    destruct (Z.eqb_spec (Z.land (128 + zlen bs) 128) 0) as [E|_].
    { exfalso. assert (zlen bs = 1 \/ zlen bs = 2 \/ zlen bs = 3 \/ zlen bs = 4) as [H1|[H1|[H1|H1]]] by lia;
        rewrite H1 in E; done. }
    destruct (Z.eqb_spec (zlen bs) 0); [lia|]. unfold zlen at 1. rewrite Nat2Z.id, Hv.
    apply long_length_read; [lia| |lia|lia]. right. destruct bs as [|c bs]; [cbn in Hn; lia|].
    intros Hz. apply Hh. cbn. f_equal. apply b2z_inj. by rewrite Hz.
Qed.

Lemma parse_header_tlv tag val rest : Z.land (b2z tag) 31 <> 31 -> small val ->
  parse_header (tlv tag val ++ rest) = Ok (tag, val, rest).
Proof.
  intros Ht Hv. pose proof (zlen_nonneg val). pose proof (zlen_nonneg rest). unfold tlv. cbn [app parse_header].
  destruct (Z.eqb_spec (Z.land (b2z tag) 31) 31); [done|]. rewrite <- app_assoc, parse_length_read by done.
  cbn [mbind res_mbind]. rewrite zlen_app. destruct (Z.ltb_spec (zlen val + zlen rest) (zlen val)); [lia|].
  unfold zlen. rewrite Nat2Z.id, take_app_length, drop_app_length. done.
Qed.

Lemma parse_tagged_tlv tag val rest : Z.land (b2z tag) 31 <> 31 -> small val ->
  parse_tagged tag (tlv tag val ++ rest) = Ok (val, rest).
Proof. intros. unfold parse_tagged. rewrite parse_header_tlv by done. cbn. by rewrite bool_decide_true. Qed.

Lemma tlv_bounds tag val : zlen val < zlen (tlv tag val) <= zlen val + 6.
Proof.
  unfold tlv. rewrite zlen_cons, zlen_app. pose proof (derlen_length (zlen val)). unfold zlen in *. lia.
Qed.

Lemma parse_elements_read l : forall fuel, (length (concat (tlv tagOctetString <$> l)) <= fuel)%nat ->
  small (concat (tlv tagOctetString <$> l)) -> parse_elements fuel (concat (tlv tagOctetString <$> l)) = Ok l.
Proof.
  induction l as [|x l IH]; intros fuel Hf Hs; [by destruct fuel|].
  rewrite fmap_cons in *. cbn [concat] in *. rewrite length_app in Hf. pose proof (tlv_bounds tagOctetString x) as Ht.
  unfold small in Hs. rewrite zlen_app in Hs. pose proof (zlen_nonneg (concat (tlv tagOctetString <$> l))).
  destruct fuel as [|fuel]; [unfold zlen in Ht; lia|]. unfold tlv at 1. cbn [app parse_elements].
  change (tagOctetString :: (derlen (zlen x) ++ x) ++ ?r) with (tlv tagOctetString x ++ r).
  rewrite parse_tagged_tlv; [|done|unfold small; lia]. cbn [mbind res_mbind].
  pose proof (zlen_nonneg x). rewrite IH; [done| |unfold small; lia]. unfold zlen in Ht. lia.
Qed.

Lemma parse_octets_list_read l rest : small (octets_list l) ->
  parse_octets_list (octets_list l ++ rest) = Ok (l, rest).
Proof.
  intros Hs. unfold parse_octets_list, octets_list in *.
  pose proof (tlv_bounds tagSequence (concat (tlv tagOctetString <$> l))). unfold small in Hs.
  rewrite parse_tagged_tlv; [|done|unfold small; lia]. cbn [mbind res_mbind].
  rewrite parse_elements_read; [done|lia|unfold small; lia].
Qed.

Lemma octets_struct_read l : small (octets_struct_Marshal l) ->
  octets_struct_Unmarshal (octets_struct_Marshal l) = Ok (l, []).
Proof.
  intros Hs. unfold octets_struct_Unmarshal, octets_struct_Marshal in *. unfold small in Hs.
  pose proof (tlv_bounds tagSequence (octets_list l)).
  rewrite <- (app_nil_r (tlv _ _)), parse_tagged_tlv; [|done|unfold small; lia]. cbn [mbind res_mbind].
  rewrite <- (app_nil_r (octets_list l)), parse_octets_list_read; [done|unfold small; lia].
Qed.

Lemma string_octets_read s l : small (string_octets_Marshal s l) -> ValidString s = true ->
  string_octets_Unmarshal (string_octets_Marshal s l) = Ok (s, l, []).
Proof.
  intros Hs Hu. unfold string_octets_Unmarshal, string_octets_Marshal in *. unfold small in Hs.
  pose proof (tlv_bounds tagSequence (tlv tagUTF8String s ++ octets_list l)) as H1. rewrite zlen_app in H1.
  pose proof (tlv_bounds tagUTF8String s). pose proof (zlen_nonneg (octets_list l)). pose proof (zlen_nonneg s).
  rewrite <- (app_nil_r (tlv tagSequence _)), parse_tagged_tlv; [|done|unfold small; rewrite zlen_app; lia]. cbn [mbind res_mbind].
  unfold parse_string. rewrite parse_header_tlv; [|done|unfold small; lia]. cbn [mbind res_mbind].
  unfold parse_string_contents. change (b2z tagUTF8String =? 12) with true. cbn [mbind res_mbind]. rewrite Hu. cbn [mbind res_mbind].
  rewrite <- (app_nil_r (octets_list l)), parse_octets_list_read; [done|unfold small; lia].
Qed.

(** The decoder of the elements never runs out of fuel. *)
Lemma long_length_le n : forall l b l' b', long_length n l b = Ok (l', b') -> (length b' <= length b)%nat.
Proof.
  induction n as [|n IH]; intros l b l' b'; cbn [long_length].
  - destruct (l <? 128); [done|]. by intros [= _ <-].
  - destruct b as [|c b]; [done|]. destruct (_ <=? l); [done|]. destruct (_ =? 0); [done|].
    intros H%IH. cbn. lia.
Qed.

Lemma parse_header_shorter b tag val rest : parse_header b = Ok (tag, val, rest) -> (length rest < length b)%nat.
Proof.
  destruct b as [|t b]; [done|]. cbn [parse_header]. destruct (_ =? 31); [done|].
  intros ([l b'] & Hl & H)%res_bind_Ok. destruct (_ <? l); [done|]. injection H as <- <- <-. rewrite length_drop. cbn [length].
  assert (length b' <= length b)%nat; [|lia]. destruct b as [|c b]; [done|]. cbn [parse_length] in Hl.
  destruct (_ =? 0) in Hl; [injection Hl as <- <-; cbn; lia|]. destruct (_ =? 0) in Hl; [done|].
  apply long_length_le in Hl. cbn. lia.
Qed.

Lemma long_length_no_panic n : forall l b, long_length n l b <> Panic.
Proof. induction n as [|n IH]; intros l b; cbn [long_length]; repeat case_match; done || apply IH. Qed.

Lemma parse_header_no_panic b : parse_header b <> Panic.
Proof.
  destruct b as [|t b]; [done|]. cbn [parse_header]. destruct (_ =? 31); [done|].
  destruct (parse_length b) as [[l b']|e|] eqn:E; cbn; [by destruct (_ <? l)|done|].
  destruct b as [|c b]; [done|]. cbn [parse_length] in E. destruct (_ =? 0) in E; [done|].
  destruct (_ =? 0) in E; [done|]. by apply long_length_no_panic in E.
Qed.

Lemma parse_tagged_no_panic t b : parse_tagged t b <> Panic.
Proof.
  unfold parse_tagged. destruct (parse_header b) as [[[tag val] rest]|e|] eqn:E; cbn; [by case_bool_decide|done|].
  by apply parse_header_no_panic in E.
Qed.

Lemma parse_elements_no_panic fuel : forall b, (length b <= fuel)%nat -> parse_elements fuel b <> Panic.
Proof.
  induction fuel as [|fuel IH]; intros [|c b] Hb; cbn [parse_elements length] in *; try done; [lia|].
  destruct (parse_tagged tagOctetString (c :: b)) as [[val rest]|e|] eqn:E; cbn [mbind res_mbind]; [|done|].
  2:{ by apply parse_tagged_no_panic in E. }
  assert (length rest < length (c :: b))%nat as Hl.
  { unfold parse_tagged in E. apply res_bind_Ok in E as ([[t v] r] & Hh & H). case_bool_decide; [|done].
    injection H as <- <-. by eapply parse_header_shorter. }
  specialize (IH rest ltac:(cbn in Hl; lia)). by destruct (parse_elements fuel rest).
Qed.

Lemma parse_octets_list_no_panic b : parse_octets_list b <> Panic.
Proof.
  unfold parse_octets_list. destruct (parse_tagged tagSequence b) as [[val rest]|e|] eqn:E; cbn [mbind res_mbind]; [|done|].
  - pose proof (parse_elements_no_panic (length val) val ltac:(lia)). by destruct (parse_elements _ _).
  - by apply parse_tagged_no_panic in E.
Qed.

Lemma octets_struct_no_panic b : octets_struct_Unmarshal b <> Panic.
Proof.
  unfold octets_struct_Unmarshal. destruct (parse_tagged _ _) as [[body rest]|e|] eqn:E; cbn [mbind res_mbind]; [|done|].
  - destruct (parse_octets_list body) as [[l r]|e|] eqn:E'; [done..|]. by apply parse_octets_list_no_panic in E'.
  - by apply parse_tagged_no_panic in E.
Qed.

Lemma parse_string_no_panic b : parse_string b <> Panic.
Proof.
  unfold parse_string. destruct (parse_header b) as [[[tag val] rest]|e|] eqn:E; cbn [mbind res_mbind]; [|done|].
  - unfold parse_string_contents, parse_BMPString. repeat case_match; done.
  - by apply parse_header_no_panic in E.
Qed.

Lemma string_octets_no_panic b : string_octets_Unmarshal b <> Panic.
Proof.
  unfold string_octets_Unmarshal. destruct (parse_tagged _ _) as [[body rest]|e|] eqn:E; cbn [mbind res_mbind]; [|done|].
  - destruct (parse_string body) as [[s r]|e|] eqn:E1; cbn [mbind res_mbind]; [|done|by apply parse_string_no_panic in E1].
    destruct (parse_octets_list r) as [[l r']|e|] eqn:E'; [done..|]. by apply parse_octets_list_no_panic in E'.
  - by apply parse_tagged_no_panic in E.
Qed.
