(* ===== verification/Request.v ===== *)
(** * Token requests (token/driver/request.go, token/driver/asn1_fast.go,
      token/services/utils/protos/protos.go)

    The request a client submits, its protobuf form, its structural
    validation, and the message its signers sign.  A Go pointer that may be
    nil is an [option]; the protobuf messages are the records prefixed with
    [P]. *)

From S2P Require Import Prelude Der.
From Stdlib Require Import ZArith Lia.
Local Open Scope Z_scope.

Definition ProtocolV1 : Z := 1.
Definition MaxAnchorSize : Z := 128.

Definition ErrAnchorEmpty := EMsg "anchor cannot be empty".
Definition ErrAnchorTooLarge := EMsg "anchor size exceeds maximum allowed size of 128 bytes".
Definition ErrUnsupportedVersion := EMsg "unsupported token request version".
Definition ErrInvalidVersion := EMsg "invalid token request: protocol version cannot be 0".
Definition ErrVersionBelowMinimum :=
  EMsg "token request protocol version is below minimum required version".

(** The protobuf enumeration [ActionType]; protobuf keeps unknown values. *)
Definition ACTION_TYPE_UNSPECIFIED : Z := 0.
Definition ACTION_TYPE_ISSUE : Z := 1.
Definition ACTION_TYPE_TRANSFER : Z := 2.

(** ** Data *)

Record ActionSignature := mkActionSignature { AS_ActionID : Z; AS_Signature : bytes }.
Record AuditorSignature := mkAuditorSignature { AU_Identity : bytes; AU_Signature : bytes }.
Record RequestSignature := mkRequestSignature {
  RS_Action : option ActionSignature;
  RS_Auditor : option AuditorSignature;
}.
Record TypedAction := mkTypedAction { TA_Type : Z; TA_Raw : bytes }.
Record TokenRequest := mkTokenRequest {
  Version : Z;
  Actions : list (option TypedAction);
  Signatures : list (option RequestSignature);
}.

#[global] Instance TypedAction_eq_dec : EqDecision TypedAction.
Proof. solve_decision. Defined.
#[global] Instance ActionSignature_eq_dec : EqDecision ActionSignature.
Proof. solve_decision. Defined.
#[global] Instance AuditorSignature_eq_dec : EqDecision AuditorSignature.
Proof. solve_decision. Defined.
#[global] Instance RequestSignature_eq_dec : EqDecision RequestSignature.
Proof. solve_decision. Defined.

(** The generated protobuf messages. *)
Record PActionSignature := mkPActionSignature { PAS_ActionId : Z; PAS_Signature : option bytes }.
Record PAuditorSignature := mkPAuditorSignature {
  PAU_Identity : option bytes;
  PAU_Signature : option bytes;
}.
Inductive PSignatureOneof :=
| PActionSig (s : option PActionSignature)
| PAuditorSig (s : option PAuditorSignature)
| PNoSig.
Record PTypedAction := mkPTypedAction { PTA_Type : Z; PTA_Raw : bytes }.
(** The [Action] oneof: a typed action, or another case (a hashed action or
    no case at all). *)
Inductive PAction :=
| PTyped (a : option PTypedAction)
| POther.
Record PTokenRequest := mkPTokenRequest {
  PVersion : Z;
  PActions : list (option PAction);
  PSignatures : list (option PSignatureOneof);
}.

(** ** Slices of pointers (token/services/utils/protos/protos.go) *)

Fixpoint ToProtosSlice {S T} (conv : S -> res T) (s : list (option S)) : res (list (option T)) :=
  match s with
  | [] => Ok []
  | None :: s => l ← ToProtosSlice conv s; Ok (None :: l)
  | Some x :: s => t ← conv x; l ← ToProtosSlice conv s; Ok (Some t :: l)
  end.

(** [FromProtosSlice t s]: [s] holds freshly allocated destinations, one per
    element; a nil element of [t] leaves a nil destination. *)
Fixpoint FromProtosSlice {S T} (conv : T -> S -> res S) (t : list (option T)) (s : list S)
    : res (list (option S)) :=
  match t, s with
  | [], [] => Ok []
  | None :: t, _ :: s => l ← FromProtosSlice conv t s; Ok (None :: l)
  | Some x :: t, d :: s => y ← conv x d; l ← FromProtosSlice conv t s; Ok (Some y :: l)
  | _, _ => Err (EMsg "mismatched slice lengths")
  end.

(** ** Signatures *)

Definition ActionSignature_ToProtos (r : ActionSignature) : res PActionSignature :=
  Ok (mkPActionSignature (AS_ActionID r) (Some (AS_Signature r))).

Definition ActionSignature_FromProtos (tr : PActionSignature) (r : ActionSignature)
    : res ActionSignature :=
  Ok (mkActionSignature (PAS_ActionId tr)
        (match PAS_Signature tr with Some raw => raw | None => AS_Signature r end)).

Definition AuditorSignature_ToProtos (r : AuditorSignature) : res PAuditorSignature :=
  Ok (mkPAuditorSignature (Some (AU_Identity r)) (Some (AU_Signature r))).

Definition AuditorSignature_FromProtos (tr : PAuditorSignature) (r : AuditorSignature)
    : res AuditorSignature :=
  Ok (mkAuditorSignature
        (match PAU_Identity tr with Some raw => raw | None => AU_Identity r end)
        (match PAU_Signature tr with Some raw => raw | None => AU_Signature r end)).

Definition RequestSignature_ToProtos (r : RequestSignature) : res PSignatureOneof :=
  match RS_Action r, RS_Auditor r with
  | Some _, Some _ =>
      Err (EMsg "request signature cannot contain both action and auditor signatures")
  | Some a, None =>
      p ← wrap "failed converting action signature" (ActionSignature_ToProtos a);
      Ok (PActionSig (Some p))
  | None, Some a =>
      p ← wrap "failed converting auditor signature" (AuditorSignature_ToProtos a);
      Ok (PAuditorSig (Some p))
  | None, None =>
      Err (EMsg "request signature must contain either an action or auditor signature")
  end.

Definition RequestSignature_FromProtos (tr : PSignatureOneof) (r : RequestSignature)
    : res RequestSignature :=
  match tr with
  | PActionSig (Some a) =>
      x ← ActionSignature_FromProtos a (mkActionSignature 0 []);
      Ok (mkRequestSignature (Some x) (RS_Auditor r))
  | PAuditorSig (Some a) =>
      x ← AuditorSignature_FromProtos a (mkAuditorSignature [] []);
      Ok (mkRequestSignature (RS_Action r) (Some x))
  | _ => Err (EMsg "request signature type not recognized")
  end.

(** ** Requests *)

(** [action.Type == t] for every action, in order; a nil action panics. *)
Fixpoint actions_of_type (t : Z) (actions : list (option TypedAction)) : res (list bytes) :=
  match actions with
  | [] => Ok []
  | None :: _ => Panic
  | Some a :: l =>
      rest ← actions_of_type t l;
      Ok (if TA_Type a =? t then TA_Raw a :: rest else rest)
  end.

Definition GetIssues (r : TokenRequest) : res (list bytes) :=
  actions_of_type ACTION_TYPE_ISSUE (Actions r).

Definition GetTransfers (r : TokenRequest) : res (list bytes) :=
  actions_of_type ACTION_TYPE_TRANSFER (Actions r).

Fixpoint count_type (t : Z) (actions : list (option TypedAction)) (count : Z) : res Z :=
  match actions with
  | [] => Ok count
  | None :: _ => Panic
  | Some a :: l => count_type t l (if TA_Type a =? t then count + 1 else count)
  end.

Definition NumIssues (r : TokenRequest) : res Z := count_type ACTION_TYPE_ISSUE (Actions r) 0.
Definition NumTransfers (r : TokenRequest) : res Z := count_type ACTION_TYPE_TRANSFER (Actions r) 0.

Fixpoint actions_ToProtos (l : list (option TypedAction)) : res (list (option PAction)) :=
  match l with
  | [] => Ok []
  | None :: _ => Err (EMsg "nil action found")
  | Some a :: l =>
      rest ← actions_ToProtos l;
      Ok (Some (PTyped (Some (mkPTypedAction (TA_Type a) (TA_Raw a)))) :: rest)
  end.

Definition TokenRequest_ToProtos (r : TokenRequest) : res PTokenRequest :=
  actions ← actions_ToProtos (Actions r);
  signatures ← wrap "failed converting request signatures"
    (ToProtosSlice RequestSignature_ToProtos (Signatures r));
  let version := if Version r =? 0 then ProtocolV1 else Version r in
  Ok (mkPTokenRequest version actions signatures).

Definition action_FromProtos (action : option PAction) : res (option TypedAction) :=
  match action with
  | None => Err (EMsg "nil action found")
  | Some (PTyped (Some ta)) =>
      if PTA_Type ta =? ACTION_TYPE_UNSPECIFIED
      then Err (EMsg "action type must be explicitly specified (ACTION_TYPE_UNSPECIFIED is not allowed)")
      else if (PTA_Type ta =? ACTION_TYPE_ISSUE) || (PTA_Type ta =? ACTION_TYPE_TRANSFER)
      then Ok (Some (mkTypedAction (PTA_Type ta) (PTA_Raw ta)))
      else Err (EMsg "unknown action type")
  | Some _ => Err (EMsg "only TypedAction is currently supported")
  end.

Definition signature_FromProtos (signature : option PSignatureOneof) : res (option RequestSignature) :=
  match signature with
  | None => Err (EMsg "nil signature found")
  | Some s =>
      rs ← wrap "failed converting request signature"
             (RequestSignature_FromProtos s (mkRequestSignature None None));
      match RS_Action rs, RS_Auditor rs with
      | Some a, _ =>
          if zlen (AS_Signature a) =? 0 then Err (EMsg "nil action signature found")
          else match RS_Auditor rs with
               | Some u => if zlen (AU_Signature u) =? 0 then Err (EMsg "nil auditor signature found")
                           else Ok (Some rs)
               | None => Ok (Some rs)
               end
      | None, Some u =>
          if zlen (AU_Signature u) =? 0 then Err (EMsg "nil auditor signature found")
          else Ok (Some rs)
      | None, None => Ok (Some rs)
      end
  end.

Definition Validate_action (i : nat) (action : option TypedAction) : res unit :=
  match action with
  | None => Err (EMsg "action is nil")
  | Some a => if zlen (TA_Raw a) =? 0 then Err (EMsg "action has empty Raw bytes") else Ok tt
  end.

Definition Validate_signature (i : nat) (sig : option RequestSignature) : res unit :=
  match sig with
  | None => Err (EMsg "signature is nil")
  | Some s =>
      match RS_Action s, RS_Auditor s with
      | Some a, _ => if zlen (AS_Signature a) =? 0
                     then Err (EMsg "action signature has empty signature bytes") else Ok tt
      | None, Some u => if zlen (AU_Signature u) =? 0
                        then Err (EMsg "auditor signature has empty signature bytes") else Ok tt
      | None, None => Err (EMsg "signature has neither action nor auditor signature")
      end
  end.

Definition TokenRequest_Validate (r : TokenRequest) : res unit :=
  rangeR Validate_action 0 (Actions r) ;;
  rangeR Validate_signature 0 (Signatures r).

(** [FromProtos] on a receiver [r]: the version and the actions are
    overwritten, the signatures are appended to those already there. *)
Definition TokenRequest_FromProtos (tr : PTokenRequest) (r : TokenRequest) : res TokenRequest :=
  if negb (PVersion tr =? ProtocolV1) then Err (EWrap ErrUnsupportedVersion "expected [1]")
  else
    actions ← mapM action_FromProtos (PActions tr);
    signatures ← mapM signature_FromProtos (PSignatures tr);
    let r := mkTokenRequest (PVersion tr) actions (Signatures r ++ signatures) in
    wrap "token request validation failed" (TokenRequest_Validate r) ;;
    Ok r.

(** ** The message to sign (token/driver/asn1_fast.go) *)

Definition encodedLength (length : Z) : Z :=
  if length <? 128 then 1
  else if length <? 256 then 2
  else if length <? 65536 then 3
  else if length <? 16777216 then 4
  else 5.

Definition appendLength (buf : bytes) (length : Z) : bytes :=
  if length <? 128 then buf ++ [z2b length]
  else if length <? 256 then buf ++ [z2b 129; z2b length]
  else if length <? 65536 then buf ++ [z2b 130; z2b (Z.shiftr length 8); z2b length]
  else if length <? 16777216 then
    buf ++ [z2b 131; z2b (Z.shiftr length 16); z2b (Z.shiftr length 8); z2b length]
  else
    let l := u32 length in
    buf ++ [z2b 132; z2b (Z.shiftr l 24); z2b (Z.shiftr l 16); z2b (Z.shiftr l 8); z2b l].

Definition fastMarshalSignatureMessageV1 (request anchor : bytes) : res bytes :=
  let requestLen := zlen request in
  let anchorLen := zlen anchor in
  let contentLen := 1 + encodedLength requestLen + requestLen + 1 + encodedLength anchorLen + anchorLen in
  let result := [z2b 48] in
  let result := appendLength result contentLen in
  let result := result ++ [z2b 4] in
  let result := appendLength result requestLen in
  let result := result ++ request in
  let result := result ++ [z2b 4] in
  let result := appendLength result anchorLen in
  let result := result ++ anchor in
  Ok result.

(** The content length of one action: type INTEGER, data OCTET STRING. *)
Definition actionContentLen (a : TypedAction) : Z :=
  let typeEncoding := 3 in
  let dataLen := zlen (TA_Raw a) in
  let dataEncoding := 1 + encodedLength dataLen + dataLen in
  typeEncoding + dataEncoding.

(** The first loop: the length of the actions' SEQUENCE; a nil action
    panics. *)
Fixpoint actionsContentLen (actions : list (option TypedAction)) : res Z :=
  match actions with
  | [] => Ok 0
  | None :: _ => Panic
  | Some a :: l =>
      let actionContentLen := actionContentLen a in
      let actionTotal := 1 + encodedLength actionContentLen + actionContentLen in
      rest ← actionsContentLen l;
      Ok (actionTotal + rest)
  end.

Definition actionTypeInt (t : Z) : Z := if t =? 1 then 0 else if t =? 2 then 1 else 0.

(** The second loop: append every action to the buffer. *)
Fixpoint appendActions (result : bytes) (actions : list (option TypedAction)) : res bytes :=
  match actions with
  | [] => Ok result
  | None :: _ => Panic
  | Some a :: l =>
      let result := result ++ [z2b 48] in
      let result := appendLength result (actionContentLen a) in
      let result := result ++ [z2b 2] in
      let result := result ++ [z2b 1] in
      let result := result ++ [z2b (actionTypeInt (TA_Type a))] in
      let result := result ++ [z2b 4] in
      let result := appendLength result (zlen (TA_Raw a)) in
      let result := result ++ TA_Raw a in
      appendActions result l
  end.

Definition fastMarshalTokenRequestForSigning (actions : list (option TypedAction)) : res bytes :=
  contentLen ← actionsContentLen actions;
  let actionsTotal := 1 + encodedLength contentLen + contentLen in
  let result := [z2b 48] in
  let result := appendLength result actionsTotal in
  let result := result ++ [z2b 48] in
  let result := appendLength result contentLen in
  appendActions result actions.

Definition marshalToMessageToSignV1 (r : TokenRequest) (anchor : bytes) : res bytes :=
  if zlen anchor =? 0 then Err ErrAnchorEmpty
  else if zlen anchor >? MaxAnchorSize then Err ErrAnchorTooLarge
  else
    requestBytes ← wrap "error marshal token request for signature"
      (fastMarshalTokenRequestForSigning (Actions r));
    wrap "error marshal signature message" (fastMarshalSignatureMessageV1 requestBytes anchor).

Definition MarshalToMessageToSign (r : TokenRequest) (anchor : bytes) : res bytes :=
  marshalToMessageToSignV1 r anchor.

(** ** Lemmas: the hand-written encoder is the DER encoder of [Der] *)

Lemma z2b_mod z z' : z `mod` 256 = z' `mod` 256 -> z2b z = z2b z'.
Proof. intros H. apply b2z_inj. by rewrite !b2z_z2b. Qed.

Lemma u32_shiftr_byte l n : 0 <= n -> n + 8 <= 32 ->
  z2b (Z.shiftr (u32 l) n) = z2b (Z.shiftr l n).
Proof.
  intros Hn H8. apply z2b_mod. unfold u32. change two32 with (2 ^ 32).
  change 256 with (2 ^ 8). rewrite <- !Z.land_ones by lia. apply Z.bits_inj'. intros k Hk.
  rewrite !Z.land_spec, !Z.shiftr_spec, Z.land_spec by lia.
  destruct (Z.lt_ge_cases k 8).
  - rewrite (Z.ones_spec_low 32) by lia. by rewrite andb_true_r.
  - rewrite (Z.ones_spec_high 8) by lia. by rewrite !andb_false_r.
Qed.

Lemma appendLength_eq buf l : appendLength buf l = buf ++ derlen l.
Proof.
  unfold appendLength, derlen. repeat (case_match; [done|]).
  by rewrite !u32_shiftr_byte, <- (Z.shiftr_0_r (u32 l)), u32_shiftr_byte, Z.shiftr_0_r by lia.
Qed.

Lemma encodedLength_eq l : encodedLength l = zlen (derlen l).
Proof. unfold encodedLength, derlen. by repeat case_match. Qed.

Lemma tlv_zlen tag v : zlen (appendTLV [] tag v) = 1 + encodedLength (zlen v) + zlen v.
Proof.
  rewrite appendTLV_eq, encodedLength_eq. cbn [app].
  rewrite zlen_cons, zlen_app. lia.
Qed.

(** One action, and the whole request, as nested elements. *)
Definition action_der (a : TypedAction) : bytes :=
  appendTLV [] tagSequence
    (appendTLV [] tagInteger [z2b (actionTypeInt (TA_Type a))] ++ appendTLV [] tagOctetString (TA_Raw a)).

Definition request_der (actions : list TypedAction) : bytes :=
  appendTLV [] tagSequence (appendTLV [] tagSequence (concat (action_der <$> actions))).

Definition message_der (actions : list TypedAction) (anchor : bytes) : bytes :=
  appendTLV [] tagSequence
    (appendTLV [] tagOctetString (request_der actions) ++ appendTLV [] tagOctetString anchor).

Lemma actionContentLen_eq a :
  actionContentLen a
  = zlen (appendTLV [] tagInteger [z2b (actionTypeInt (TA_Type a))] ++ appendTLV [] tagOctetString (TA_Raw a)).
Proof. rewrite zlen_app, !tlv_zlen. unfold actionContentLen, zlen; cbn.
  change (encodedLength (Z.of_nat 1)) with 1. lia.
Qed.

Lemma actionsContentLen_eq l :
  actionsContentLen (Some <$> l) = Ok (zlen (concat (action_der <$> l))).
Proof.
  induction l as [|a l IH]; [done|]. cbn [fmap list_fmap actionsContentLen concat].
  change (list_fmap _ _ Some l) with (Some <$> l). rewrite IH. cbn [mbind res_mbind].
  rewrite zlen_app. unfold action_der at 2. by rewrite tlv_zlen, <- actionContentLen_eq.
Qed.

Lemma appendActions_eq l : forall buf,
  appendActions buf (Some <$> l) = Ok (buf ++ concat (action_der <$> l)).
Proof.
  induction l as [|a l IH]; intros buf; [cbn; by rewrite app_nil_r|].
  cbn [fmap list_fmap appendActions concat]. cbv zeta.
  change (list_fmap _ _ Some l) with (Some <$> l). rewrite IH. f_equal. rewrite !appendLength_eq.
  rewrite actionContentLen_eq. unfold action_der at 2. rewrite !appendTLV_eq. cbn [app].
  repeat (rewrite <- !app_assoc; cbn [app]). done.
Qed.

Lemma fastMarshal_eq l :
  fastMarshalTokenRequestForSigning (Some <$> l) = Ok (request_der l).
Proof.
  unfold fastMarshalTokenRequestForSigning. rewrite actionsContentLen_eq. cbn [mbind res_mbind].
  rewrite <- (tlv_zlen tagSequence). rewrite !appendLength_eq, appendActions_eq. f_equal.
  unfold request_der. rewrite !(appendTLV_eq [] tagSequence).
  repeat (rewrite <- ?app_assoc; cbn [app]). done.
Qed.

Lemma all_some {A} (l : list (option A)) : None ∉ l -> exists l', l = Some <$> l'.
Proof.
  induction l as [|[a|] l IH]; intros H; [by exists []| |set_solver].
  destruct IH as [l' ->]; [set_solver|]. by exists (a :: l').
Qed.

Lemma fastMarshal_nil l : None ∈ l -> fastMarshalTokenRequestForSigning l = Panic.
Proof.
  intros H. unfold fastMarshalTokenRequestForSigning.
  assert (actionsContentLen l = Panic) as ->; [|done].
  induction l as [|[a|] l IH]; [by apply elem_of_nil in H| |done].
  cbn. rewrite IH; [done|]. by apply elem_of_cons in H as [|].
Qed.

(** Elements are prefix free. *)
Lemma tlv_prefix_free t t' a b p q : zlen a < 2 ^ 32 -> zlen b < 2 ^ 32 ->
  appendTLV [] t a ++ p = appendTLV [] t' b ++ q -> t = t' /\ a = b /\ p = q.
Proof.
  intros Ha Hb. rewrite !appendTLV_eq. cbn [app]. rewrite <- !app_assoc. intros [= -> H].
  assert (Hlen : zlen a = zlen b).
  { pose proof (zlen_nonneg a). pose proof (zlen_nonneg b).
    pose proof (zlen_nonneg p). pose proof (zlen_nonneg q).
    pose proof (derlen_read (zlen a) (a ++ p) ltac:(lia) ltac:(rewrite zlen_app; lia)) as R1.
    pose proof (derlen_read (zlen b) (b ++ q) ltac:(lia) ltac:(rewrite zlen_app; lia)) as R2.
    congruence. }
  rewrite Hlen in H. apply app_inv_head in H. apply app_inj_1 in H as [-> ->]; [done|].
  unfold zlen in Hlen. lia.
Qed.

Lemma tlv_inj t t' a b : zlen a < 2 ^ 32 -> zlen b < 2 ^ 32 ->
  appendTLV [] t a = appendTLV [] t' b -> t = t' /\ a = b.
Proof.
  intros Ha Hb H. destruct (tlv_prefix_free t t' a b [] []) as (? & ? & _); [done..| |done].
  by rewrite H.
Qed.

Lemma tlv_content tag v : zlen v <= zlen (appendTLV [] tag v).
Proof.
  rewrite tlv_zlen, encodedLength_eq. pose proof (zlen_nonneg (derlen (zlen v))). lia.
Qed.

(** The types an action may have after decoding. *)
Definition known_type (a : TypedAction) : Prop :=
  TA_Type a = ACTION_TYPE_ISSUE \/ TA_Type a = ACTION_TYPE_TRANSFER.

Lemma action_der_prefix_free a b p q : known_type a -> known_type b ->
  zlen (action_der a) < 2 ^ 32 -> zlen (action_der b) < 2 ^ 32 ->
  action_der a ++ p = action_der b ++ q -> a = b /\ p = q.
Proof.
  intros Ka Kb Ha Hb H. unfold action_der in *.
  pose proof (tlv_content tagSequence (appendTLV [] tagInteger [z2b (actionTypeInt (TA_Type a))] ++ appendTLV [] tagOctetString (TA_Raw a))) as La.
  pose proof (tlv_content tagSequence (appendTLV [] tagInteger [z2b (actionTypeInt (TA_Type b))] ++ appendTLV [] tagOctetString (TA_Raw b))) as Lb.
  apply tlv_prefix_free in H as (_ & H & ->); [|lia..].
  rewrite zlen_app in La, Lb.
  pose proof (zlen_nonneg (appendTLV [] tagInteger [z2b (actionTypeInt (TA_Type a))])).
  pose proof (zlen_nonneg (appendTLV [] tagInteger [z2b (actionTypeInt (TA_Type b))])).
  pose proof (tlv_content tagOctetString (TA_Raw a)). pose proof (tlv_content tagOctetString (TA_Raw b)).
  apply tlv_prefix_free in H as (_ & Ht & H); [|unfold zlen; cbn; lia..].
  apply tlv_inj in H as [_ H]; [|lia..].
  split; [|done]. destruct a as [ta ra], b as [tb rb]. cbn in *. subst rb. f_equal.
  destruct Ka as [Ka|Ka], Kb as [Kb|Kb]; cbn in Ka, Kb; subst; done.
Qed.

Lemma concat_zlen_cons (a : bytes) l : zlen (concat (a :: l)) = zlen a + zlen (concat l).
Proof. apply zlen_app. Qed.

Lemma actions_der_inj l : forall l', Forall known_type l -> Forall known_type l' ->
  zlen (concat (action_der <$> l)) < 2 ^ 32 -> zlen (concat (action_der <$> l')) < 2 ^ 32 ->
  concat (action_der <$> l) = concat (action_der <$> l') -> l = l'.
Proof.
  assert (Hne : forall a p, action_der a ++ p <> []).
  { intros a p. unfold action_der. rewrite appendTLV_eq. done. }
  induction l as [|a l IH]; intros [|b l'] Hk Hk'; cbn [fmap list_fmap concat]; intros Hl Hl' H.
  - done.
  - by apply symmetry, Hne in H.
  - by apply Hne in H.
  - apply Forall_cons in Hk as [Ka Hk], Hk' as [Kb Hk'].
    rewrite zlen_app in Hl, Hl'.
    pose proof (zlen_nonneg (action_der a)). pose proof (zlen_nonneg (action_der b)).
    pose proof (zlen_nonneg (concat (action_der <$> l))). pose proof (zlen_nonneg (concat (action_der <$> l'))).
    change (list_fmap _ _ action_der l) with (action_der <$> l) in *.
    change (list_fmap _ _ action_der l') with (action_der <$> l') in *.
    apply action_der_prefix_free in H as [-> H]; [|done|done|lia|lia].
    f_equal. apply IH; [done|done|lia|lia|done].
Qed.

Lemma message_der_inj l l' anchor anchor' : Forall known_type l -> Forall known_type l' ->
  zlen (message_der l anchor) < 2 ^ 32 ->
  message_der l anchor = message_der l' anchor' -> l = l' /\ anchor = anchor'.
Proof.
  intros Hk Hk' Hlen H. assert (Hlen' : zlen (message_der l' anchor') < 2 ^ 32) by (by rewrite <- H).
  assert (Hsub : forall l anchor, zlen (message_der l anchor) < 2 ^ 32 ->
    zlen (appendTLV [] tagOctetString (request_der l) ++ appendTLV [] tagOctetString anchor) < 2 ^ 32 /\
    zlen (request_der l) < 2 ^ 32 /\ zlen anchor < 2 ^ 32 /\
    zlen (appendTLV [] tagSequence (concat (action_der <$> l))) < 2 ^ 32 /\
    zlen (concat (action_der <$> l)) < 2 ^ 32).
  { clear. intros l anchor. unfold message_der.
    pose proof (tlv_content tagSequence (appendTLV [] tagOctetString (request_der l) ++ appendTLV [] tagOctetString anchor)) as H1.
    pose proof (tlv_content tagOctetString (request_der l)). pose proof (tlv_content tagOctetString anchor).
    pose proof (tlv_content tagSequence (appendTLV [] tagSequence (concat (action_der <$> l)))) as H2.
    pose proof (tlv_content tagSequence (concat (action_der <$> l))).
    fold (request_der l) in H2.
    rewrite zlen_app in *. pose proof (zlen_nonneg anchor). pose proof (zlen_nonneg (request_der l)). lia. }
  destruct (Hsub _ _ Hlen) as (? & ? & ? & ? & ?), (Hsub _ _ Hlen') as (? & ? & ? & ? & ?). clear Hsub.
  unfold message_der in H. apply tlv_inj in H as [_ H]; [|done..].
  apply tlv_prefix_free in H as (_ & Hr & Ha); [|done..].
  apply tlv_inj in Ha as [_ Ha]; [|done..]. split; [|done].
  unfold request_der in Hr. apply tlv_inj in Hr as [_ Hr]; [|done..].
  apply tlv_inj in Hr as [_ Hr]; [|done..]. by apply actions_der_inj.
Qed.

Lemma message_eq r l anchor : Actions r = Some <$> l -> 1 <= zlen anchor <= MaxAnchorSize ->
  MarshalToMessageToSign r anchor = Ok (message_der l anchor).
Proof.
  intros Hl Ha. unfold MarshalToMessageToSign, marshalToMessageToSignV1.
  destruct (Z.eqb_spec (zlen anchor) 0); [lia|].
  destruct (Z.gtb_spec (zlen anchor) MaxAnchorSize); [lia|].
  rewrite Hl, fastMarshal_eq. cbn [wrap mbind res_mbind].
  unfold fastMarshalSignatureMessageV1. rewrite !appendLength_eq. cbn [wrap]. f_equal.
  unfold message_der. rewrite (appendTLV_eq [] tagSequence), zlen_app, !tlv_zlen, !appendTLV_eq.
  rewrite <- !Z.add_assoc. cbn [app]. repeat (rewrite <- ?app_assoc; cbn [app]). done.
Qed.

(** ** Lemmas: protobuf conversions *)

Lemma mapM_res_Ok {A B} (f : A -> res B) l k :
  mapM f l = Ok k <-> Forall2 (fun x y => f x = Ok y) l k.
Proof.
  revert k; induction l as [|x l IH]; intros k; cbn.
  - split; [intros [= <-]; constructor|inversion 1; done].
  - rewrite res_bind_Ok. split.
    + intros (y & Hy & H). apply res_bind_Ok in H as (k' & Hk & [= <-]).
      constructor; [done|by apply IH].
    + inversion 1 as [|? y ? k' Hy Hk]; subst. exists y. split; [done|].
      apply res_bind_Ok. exists k'. split; [by apply IH|done].
Qed.

(** A request as a client submits it and as the decoder accepts it. *)
Definition action_wf (a : option TypedAction) : Prop :=
  exists t, a = Some t /\ known_type t /\ TA_Raw t <> [].

Definition signature_wf (s : option RequestSignature) : Prop :=
  (exists id sg, s = Some (mkRequestSignature (Some (mkActionSignature id sg)) None) /\ sg <> []) \/
  (exists id sg, s = Some (mkRequestSignature None (Some (mkAuditorSignature id sg))) /\ sg <> []).

Definition request_wf (r : TokenRequest) : Prop :=
  Version r = ProtocolV1 /\ Forall action_wf (Actions r) /\ Forall signature_wf (Signatures r).

Lemma zlen_eqb0 {A} (l : list A) : (zlen l =? 0) = false <-> l <> [].
Proof. rewrite Z.eqb_neq. unfold zlen. destruct l; cbn; naive_solver lia. Qed.

Lemma actions_ToProtos_wf l : Forall action_wf l ->
  exists p, actions_ToProtos l = Ok p /\ mapM action_FromProtos p = Ok l.
Proof.
  induction 1 as [|a l (t & -> & Hk & Hr) _ (p & Hp & IH)]; [by exists []|].
  cbn. rewrite Hp. eexists; split; [done|]. apply mapM_res_Ok. constructor; [|by apply mapM_res_Ok].
  destruct t as [ty raw]. cbn in *. unfold known_type, ACTION_TYPE_ISSUE, ACTION_TYPE_TRANSFER in *.
  cbn in Hk. by destruct Hk as [->| ->].
Qed.

Lemma signatures_ToProtos_wf l : Forall signature_wf l ->
  exists p, ToProtosSlice RequestSignature_ToProtos l = Ok p /\ mapM signature_FromProtos p = Ok l.
Proof.
  induction 1 as [|s l Hs _ (p & Hp & IH)]; [by exists []|].
  destruct Hs as [(id & sg & -> & Hsg)|(id & sg & -> & Hsg)]; cbn; rewrite Hp;
    (eexists; split; [done|]; apply mapM_res_Ok; constructor; [|by apply mapM_res_Ok]);
    cbn; by rewrite (proj2 (zlen_eqb0 _)).
Qed.

Lemma Validate_wf r : Forall action_wf (Actions r) -> Forall signature_wf (Signatures r) ->
  TokenRequest_Validate r = Ok tt.
Proof.
  intros Ha Hs. unfold TokenRequest_Validate.
  apply res_bind_Ok. exists tt. split; apply rangeR_Ok; intros k x Hk.
  - eapply Forall_lookup_1 in Ha as (? & -> & _ & ?); [|exact Hk]. cbn. by rewrite (proj2 (zlen_eqb0 _)).
  - eapply Forall_lookup_1 in Hs as [(? & ? & -> & ?)|(? & ? & -> & ?)]; [..|exact Hk]; cbn;
      by rewrite (proj2 (zlen_eqb0 _)).
Qed.

Lemma action_FromProtos_known p a : action_FromProtos p = Ok a ->
  exists t, a = Some t /\ known_type t.
Proof.
  destruct p as [[[[ty raw]|]|]|]; cbn; [|done..].
  destruct (ty =? _); [done|]. destruct (_ || _) eqn:E; [|done]. intros [= <-].
  eexists; split; [done|]. unfold known_type; cbn.
  apply orb_true_iff in E as [?%Z.eqb_eq|?%Z.eqb_eq]; auto.
Qed.

Lemma signature_FromProtos_wf p s : signature_FromProtos p = Ok s -> signature_wf s.
Proof.
  destruct p as [[[[id sg]|]|[[id sg]|]|]|]; cbn; [|done| |done..];
    (destruct (_ =? 0) eqn:E; [done|]); intros [= <-]; [left|right];
    (eexists _, _; split; [done|by apply zlen_eqb0]).
Qed.

Lemma FromProtos_wf tr r : TokenRequest_FromProtos tr (mkTokenRequest 0 [] []) = Ok r -> request_wf r.
Proof.
  unfold TokenRequest_FromProtos. destruct (Z.eqb_spec (PVersion tr) ProtocolV1) as [Hv|]; [|done].
  cbn [negb]. intros (acts & Ha & H)%res_bind_Ok. apply res_bind_Ok in H as (sigs & Hs & H).
  cbv zeta in H. apply res_bind_Ok in H as ([] & HV & [= <-]). apply wrap_Ok in HV.
  unfold TokenRequest_Validate in HV. apply res_bind_Ok in HV as ([] & HVa & _). cbn in *.
  apply mapM_res_Ok in Ha, Hs. split_and!; [done| |].
  - apply Forall_lookup. intros i a Hi.
    destruct (Forall2_lookup_r _ _ _ _ _ Ha Hi) as (p & _ & Hp).
    apply action_FromProtos_known in Hp as (t & -> & Hk). eexists. split_and!; [done..|].
    apply rangeR_Ok with (k := i) (x := Some t) in HVa; [|done].
    cbn in HVa. destruct (_ =? 0) eqn:E; [done|]. by apply zlen_eqb0.
  - cbn. apply Forall_lookup. intros i s Hi.
    destruct (Forall2_lookup_r _ _ _ _ _ Hs Hi) as (p & _ & Hp). by eapply signature_FromProtos_wf.
Qed.

(** ** Properties *)

(** C36: the message to sign binds the signer to the whole request and to its
    anchor.  Two requests whose actions have a type the decoder accepts and
    whose messages (below the 4 GiB bound of the length encoding) coincide
    have the same list of actions, in the same order with the same types and
    bytes, and the same anchor. *)
Theorem MarshalToMessageToSign_injective r r' anchor anchor' m :
  Forall action_wf (Actions r) -> Forall action_wf (Actions r') -> zlen m < 2 ^ 32 ->
  MarshalToMessageToSign r anchor = Ok m -> MarshalToMessageToSign r' anchor' = Ok m ->
  Actions r = Actions r' /\ anchor = anchor'.
Proof.
  assert (Hsplit : forall acts, Forall action_wf acts ->
    exists l, acts = Some <$> l /\ Forall known_type l).
  { induction 1 as [|a l (t & -> & ? & _) _ (l' & -> & ?)]; [by exists []|]. exists (t :: l'). auto. }
  assert (Hanc : forall r anchor, MarshalToMessageToSign r anchor = Ok m -> 1 <= zlen anchor <= MaxAnchorSize).
  { clear. intros r anchor. unfold MarshalToMessageToSign, marshalToMessageToSignV1.
    pose proof (zlen_nonneg anchor).
    destruct (Z.eqb_spec (zlen anchor) 0); [done|]. destruct (Z.gtb_spec (zlen anchor) MaxAnchorSize); [done|lia]. }
  intros (l & Hl & Hk)%Hsplit (l' & Hl' & Hk')%Hsplit Hm H H'.
  rewrite (message_eq r l) in H by eauto. rewrite (message_eq r' l') in H' by eauto. simplify_eq.
  destruct (message_der_inj l l' anchor anchor') as [-> ->]; [done|done|congruence|congruence|]. by rewrite Hl, Hl'.
Qed.

Definition example_request : TokenRequest :=
  mkTokenRequest 1 [Some (mkTypedAction 1 (str "issue")); Some (mkTypedAction 2 (str "transfer"))]
    [Some (mkRequestSignature (Some (mkActionSignature 0 (str "sig"))) None);
     Some (mkRequestSignature None (Some (mkAuditorSignature (str "auditor") (str "sig"))))].

Lemma example_actions_wf : Forall action_wf (Actions example_request).
Proof. repeat constructor; eexists; unfold known_type; cbn; eauto. Qed.

Lemma MarshalToMessageToSign_injective_witness :
  exists m, MarshalToMessageToSign example_request (str "tx1") = Ok m /\
    (Actions example_request = Actions example_request /\ str "tx1" = str "tx1").
Proof.
  eexists. split; [vm_compute; reflexivity|].
  eapply (MarshalToMessageToSign_injective example_request example_request);
    [apply example_actions_wf..| |vm_compute; reflexivity|vm_compute; reflexivity].
  vm_compute. reflexivity.
Defined.

(** The hand-written single-pass encoder, which precomputes every length,
    produces exactly the nested DER of the request and the anchor; an empty
    anchor and an anchor above 128 bytes are rejected, and a nil action is a
    nil dereference on every other input. *)
Theorem MarshalToMessageToSign_spec r anchor :
  MarshalToMessageToSign r anchor =
  if decide (anchor = []) then Err ErrAnchorEmpty
  else if decide (MaxAnchorSize < zlen anchor) then Err ErrAnchorTooLarge
  else if decide (None ∈ Actions r) then Panic
  else Ok (message_der (omap id (Actions r)) anchor).
Proof.
  case_decide as H0; [by subst|]. case_decide as H1; [|case_decide as H2].
  - unfold MarshalToMessageToSign, marshalToMessageToSignV1. rewrite (proj2 (zlen_eqb0 _)) by done.
    by destruct (Z.gtb_spec (zlen anchor) MaxAnchorSize); [|lia].
  - unfold MarshalToMessageToSign, marshalToMessageToSignV1. rewrite (proj2 (zlen_eqb0 _)) by done.
    destruct (Z.gtb_spec (zlen anchor) MaxAnchorSize); [lia|]. by rewrite fastMarshal_nil.
  - destruct (all_some _ H2) as [l Hl]. rewrite (message_eq r l); [|done|].
    + rewrite Hl. do 2 f_equal. clear. induction l as [|a l IH]; cbn; [done|by f_equal].
    + pose proof (zlen_nonneg anchor). apply zlen_eqb0, Z.eqb_neq in H0. lia.
Qed.

(** A well-formed request survives the conversion to its protobuf message
    and back into a fresh request. *)
Theorem TokenRequest_protos_roundtrip r : request_wf r ->
  exists tr, TokenRequest_ToProtos r = Ok tr /\
    TokenRequest_FromProtos tr (mkTokenRequest 0 [] []) = Ok r.
Proof.
  intros (Hv & Ha & Hs). destruct (actions_ToProtos_wf _ Ha) as (pa & Hpa & Hra).
  destruct (signatures_ToProtos_wf _ Hs) as (ps & Hps & Hrs).
  unfold TokenRequest_ToProtos. rewrite Hpa. cbn [mbind res_mbind]. rewrite Hps. cbn [wrap mbind res_mbind].
  eexists; split; [done|]. unfold TokenRequest_FromProtos. rewrite Hv. cbn [PVersion PActions PSignatures].
  change (if ProtocolV1 =? 0 then ProtocolV1 else ProtocolV1) with ProtocolV1.
  change (negb (ProtocolV1 =? ProtocolV1)) with false. cbv iota.
  rewrite Hra. cbn [mbind res_mbind]. rewrite Hrs. cbn [mbind res_mbind Signatures app].
  rewrite Validate_wf by done. destruct r; cbn in *; by subst.
Qed.

Lemma example_request_wf : request_wf example_request.
Proof.
  split_and!; [done|apply example_actions_wf|].
  repeat apply Forall_cons_2; [left|right|constructor]; by do 2 eexists.
Qed.

Lemma TokenRequest_protos_roundtrip_witness :
  exists tr, TokenRequest_ToProtos example_request = Ok tr /\
    TokenRequest_FromProtos tr (mkTokenRequest 0 [] []) = Ok example_request.
Proof. apply TokenRequest_protos_roundtrip, example_request_wf. Defined.

(** C39: whatever protobuf message the decoder accepts into a fresh request
    yields a well-formed request: version 1, every action non-nil, of a known
    type and non-empty, every signature non-nil, with exactly one of its two
    forms and non-empty; such a request can be signed for every anchor of 1 to
    128 bytes. *)
Theorem TokenRequest_FromProtos_sound tr r :
  TokenRequest_FromProtos tr (mkTokenRequest 0 [] []) = Ok r ->
  request_wf r /\
  forall anchor, 1 <= zlen anchor <= MaxAnchorSize -> exists m, MarshalToMessageToSign r anchor = Ok m.
Proof.
  intros H. pose proof (FromProtos_wf _ _ H) as (Hv & Ha & Hs). split; [done|].
  intros anchor Hanc. destruct (all_some (Actions r)) as [l Hl].
  { intros (t & Hn & _)%(proj1 (Forall_forall _ _) Ha). done. }
  eexists. by apply (message_eq r l).
Qed.

Definition example_protos : PTokenRequest :=
  mkPTokenRequest 1
    [Some (PTyped (Some (mkPTypedAction 1 (str "issue")))); Some (PTyped (Some (mkPTypedAction 2 (str "transfer"))))]
    [Some (PActionSig (Some (mkPActionSignature 0 (Some (str "sig")))));
     Some (PAuditorSig (Some (mkPAuditorSignature (Some (str "auditor")) (Some (str "sig")))))].

Lemma TokenRequest_FromProtos_sound_witness :
  TokenRequest_FromProtos example_protos (mkTokenRequest 0 [] []) = Ok example_request /\
  (request_wf example_request /\
   forall anchor, 1 <= zlen anchor <= MaxAnchorSize ->
     exists m, MarshalToMessageToSign example_request anchor = Ok m).
Proof.
  split; [vm_compute; reflexivity|].
  apply (TokenRequest_FromProtos_sound example_protos). vm_compute. reflexivity.
Defined.
