(* ===== verification/Keys.v ===== *)
(** * Ledger keys (token/services/network/common/rws/keys/keys.go and the key
      half of token/services/network/common/rws/translator/rwset.go)

    The interface [KeyTranslator], its composite-key implementation and the
    hashing wrapper around any implementation. *)

From S2P Require Import Prelude GoStd Quantity.
From Stdlib Require Import ZArith Lia.
Local Open Scope Z_scope.

(** ** The interface (translator/rwset.go) *)

Record KeyTranslator := mkKeyTranslator {
  CreateTokenRequestKey : bytes -> res bytes;
  CreateSetupKey : res bytes;
  CreateSetupHashKey : res bytes;
  CreateOutputKey : bytes -> Z -> res bytes;
  CreateOutputSNKey : bytes -> Z -> bytes -> res bytes;
  CreateInputSNKey : bytes -> res bytes;
  CreateIssueActionMetadataKey : bytes -> res bytes;
  CreateTransferActionMetadataKey : bytes -> res bytes;
  GetTransferMetadataSubKey : bytes -> res bytes;
  TransferActionMetadataKeyPrefix : res bytes;
}.

(** ** Composite keys (keys/keys.go) *)

Definition nul : byte := z2b 0.
Definition maxUnicodeRuneValue : Z := 1114111.
Definition numComponentsInKey : nat := 2.

Definition OutputSNKeyPrefix := str "osn".
Definition TokenSetupKeyPrefix := str "se".
Definition TokenSetupHashKeyPrefix := str "seh".
Definition TokenRequestKeyPrefix := str "tr".
Definition InputSerialNumberPrefix := str "sn".
Definition IssueActionMetadataPrefix := str "iam".
Definition TransferActionMetadataPrefix := str "tam".

Definition validateCompositeKeyAttribute (s : bytes) : res unit :=
  match runes s with
  | None => Err (EMsg "not a valid utf8 string")
  | Some rs =>
      if bool_decide (0 ∈ rs) || bool_decide (maxUnicodeRuneValue ∈ rs)
      then Err (EMsg "input contain unicode U+0000 or U+10FFFF")
      else Ok tt
  end.

Fixpoint compositeAttributes (attributes : list bytes) : res bytes :=
  match attributes with
  | [] => Ok []
  | att :: l =>
      validateCompositeKeyAttribute att ;;
      rest ← compositeAttributes l;
      Ok (att ++ [nul] ++ rest)
  end.

Definition createCompositeKey (objectType : bytes) (attributes : list bytes) : res bytes :=
  validateCompositeKeyAttribute objectType ;;
  let ck := [nul] ++ objectType ++ [nul] in
  rest ← compositeAttributes attributes;
  Ok (ck ++ rest).

(** The loop of [splitCompositeKey]: [cur] is the component read so far, a
    trailing component without terminator is dropped. *)
Fixpoint splitComponents (cur : bytes) (s : bytes) : list bytes :=
  match s with
  | [] => []
  | b :: s => if decide (b = nul) then cur :: splitComponents [] s
              else splitComponents (cur ++ [b]) s
  end.

Definition splitCompositeKey (compositeKey : bytes) : res (bytes * list bytes) :=
  let components := splitComponents [] (drop 1 compositeKey) in
  match components with
  | c0 :: cs => if (length components <? numComponentsInKey + 1)%nat
                then Err (EMsg "invalid composite key - not enough components found in key")
                else Ok (c0, cs)
  | [] => Err (EMsg "invalid composite key - not enough components found in key")
  end.

(** [errors.Wrapf] of a nil error comes from a package outside this
    repository: [wrapf_nil] is what it returns. *)
Definition keys_GetTransferMetadataSubKey (wrapf_nil : option error) (k : bytes) : res bytes :=
  '(prefix, components) ← wrap "failed to split composite key" (splitCompositeKey k);
  match components with
  | [c] => if decide (prefix = TransferActionMetadataPrefix) then Ok c
           else Err (EMsg "key doesn not contain the token key prefix")
  | _ => match wrapf_nil with Some e => Err e | None => Ok [] end
  end.

Definition OutputSN_preimage (id : bytes) (index : Z) (output : bytes) : bytes :=
  OutputSNKeyPrefix ++ id ++ le_bytes 8 index ++ output.

Definition keys_CreateOutputSNKey (id : bytes) (index : Z) (output : bytes) : res bytes :=
  createCompositeKey OutputSNKeyPrefix [hex_EncodeToString (sha256 (OutputSN_preimage id index output))].

Definition keys_CreateOutputKey (id : bytes) (index : Z) : res bytes :=
  createCompositeKey id [format_nat 10 index].

Definition keys_Translator (wrapf_nil : option error) : KeyTranslator := {|
  CreateTokenRequestKey id := createCompositeKey TokenRequestKeyPrefix [id];
  CreateSetupKey := createCompositeKey TokenSetupKeyPrefix [];
  CreateSetupHashKey := createCompositeKey TokenSetupHashKeyPrefix [];
  CreateOutputKey := keys_CreateOutputKey;
  CreateOutputSNKey := keys_CreateOutputSNKey;
  CreateInputSNKey id := createCompositeKey InputSerialNumberPrefix [id];
  CreateIssueActionMetadataKey key := createCompositeKey IssueActionMetadataPrefix [key];
  CreateTransferActionMetadataKey key := createCompositeKey TransferActionMetadataPrefix [key];
  GetTransferMetadataSubKey := keys_GetTransferMetadataSubKey wrapf_nil;
  TransferActionMetadataKeyPrefix := createCompositeKey TransferActionMetadataPrefix [];
|}.

(** ** The hashing wrapper (translator/rwset.go) *)

Definition hkt_hash (code : Z) (k : bytes) : res bytes :=
  Ok (hex_EncodeToString (sha256 (z2b code :: k))).

Definition HashedKeyTranslator (KT : KeyTranslator) : KeyTranslator := {|
  CreateTokenRequestKey id := k ← CreateTokenRequestKey KT id; hkt_hash 0 k;
  CreateSetupKey := k ← CreateSetupKey KT; hkt_hash 1 k;
  CreateSetupHashKey := k ← CreateSetupHashKey KT; hkt_hash 2 k;
  CreateOutputSNKey id index output := k ← CreateOutputSNKey KT id index output; hkt_hash 3 k;
  CreateOutputKey id index := k ← CreateOutputKey KT id index; hkt_hash 4 k;
  GetTransferMetadataSubKey k := key ← GetTransferMetadataSubKey KT k; hkt_hash 5 key;
  CreateInputSNKey id := k ← CreateInputSNKey KT id; hkt_hash 6 k;
  CreateIssueActionMetadataKey key := k ← CreateIssueActionMetadataKey KT key; hkt_hash 7 k;
  CreateTransferActionMetadataKey key := k ← CreateTransferActionMetadataKey KT key; hkt_hash 8 k;
  TransferActionMetadataKeyPrefix := Ok [];
|}.

Example output_key : keys_CreateOutputKey (str "tx") 12 = Ok (nul :: str "tx" ++ nul :: str "12" ++ [nul]).
Proof. vm_compute. reflexivity. Qed.

(** ** Lemmas: composite keys *)

Lemma single_inj {A} (a b : A) : [a] = [b] -> a = b.
Proof. by intros [=]. Qed.

Lemma validate_nul s : validateCompositeKeyAttribute s = Ok tt -> nul ∉ s.
Proof.
  unfold validateCompositeKeyAttribute, runes. destruct (runes_fuel _ s) as [rs|] eqn:E; [|done].
  destruct (bool_decide (0 ∈ rs)) eqn:H0; [done|]. intros _.
  eapply runes_fuel_nul; [done|]. by apply bool_decide_eq_false in H0.
Qed.

Lemma validate_ascii s : Forall (fun b => 1 <= b2z b < 128) s -> validateCompositeKeyAttribute s = Ok tt.
Proof.
  intros H. unfold validateCompositeKeyAttribute. rewrite runes_ascii.
  2:{ eapply Forall_impl; [exact H|]. cbn. lia. }
  rewrite !bool_decide_eq_false_2; [done|..]; intros (b & Hb & Hin)%list_elem_of_fmap;
    eapply (proj1 (Forall_forall _ _)) in H; [|exact Hin| |exact Hin]; cbn in H; unfold maxUnicodeRuneValue in *; lia.
Qed.

Lemma compositeAttributes_eq l : forall r, compositeAttributes l = Ok r ->
  r = concat ((fun a => a ++ [nul]) <$> l) /\ Forall (fun a => nul ∉ a) l.
Proof.
  induction l as [|a l IH]; intros r; cbn [compositeAttributes].
  - intros [= <-]. done.
  - intros ([] & Ha%validate_nul & (rest & Hr & [= <-])%res_bind_Ok)%res_bind_Ok.
    destruct (IH _ Hr) as [-> ?]. split; [cbn; by rewrite <- app_assoc|by constructor].
Qed.

Lemma createCompositeKey_eq o l k : createCompositeKey o l = Ok k ->
  k = nul :: concat ((fun a => a ++ [nul]) <$> o :: l) /\ Forall (fun a => nul ∉ a) (o :: l).
Proof.
  unfold createCompositeKey. intros ([] & Ho%validate_nul & (rest & Hr & [= <-])%res_bind_Ok)%res_bind_Ok.
  apply compositeAttributes_eq in Hr as [-> ?]. split; [cbn; by rewrite <- app_assoc|by constructor].
Qed.

Lemma split_component c s : forall cur, nul ∉ c ->
  splitComponents cur (c ++ nul :: s) = (cur ++ c) :: splitComponents [] s.
Proof.
  induction c as [|b c IH]; intros cur H; cbn.
  - rewrite decide_True by done. by rewrite app_nil_r.
  - apply not_elem_of_cons in H as [? ?]. rewrite decide_False by done.
    rewrite IH by done. by rewrite <- app_assoc.
Qed.

Lemma split_components l : Forall (fun a => nul ∉ a) l ->
  splitComponents [] (concat ((fun a => a ++ [nul]) <$> l)) = l.
Proof.
  induction 1 as [|a l Ha _ IH]; [done|]. cbn [fmap list_fmap concat].
  rewrite <- app_assoc. cbn [app]. rewrite split_component by done. by rewrite IH.
Qed.

Lemma createCompositeKey_components o l k : createCompositeKey o l = Ok k ->
  splitComponents [] (drop 1 k) = o :: l.
Proof. intros [-> H]%createCompositeKey_eq. cbn [drop]. by apply split_components. Qed.

Lemma createCompositeKey_inj o l o' l' k :
  createCompositeKey o l = Ok k -> createCompositeKey o' l' = Ok k -> o = o' /\ l = l'.
Proof. intros H%createCompositeKey_components H'%createCompositeKey_components. rewrite H in H'. by simplify_eq. Qed.

Lemma format_nat_inj n n' : 0 <= n -> 0 <= n' -> format_nat 10 n = format_nat 10 n' -> n = n'.
Proof.
  intros H H' E. pose proof (SetString0_decimal n H) as S1. rewrite E, SetString0_decimal in S1 by done. congruence.
Qed.

Lemma keys_OutputKey_inj id i id' i' k : 0 <= i -> 0 <= i' ->
  keys_CreateOutputKey id i = Ok k -> keys_CreateOutputKey id' i' = Ok k -> id = id' /\ i = i'.
Proof.
  intros Hi Hi' H H'. destruct (createCompositeKey_inj _ _ _ _ _ H H') as [-> [= E]].
  split; [done|]. by apply format_nat_inj.
Qed.

(** The object types of the keys that are not output keys. *)
Definition reserved_prefixes : list bytes :=
  [OutputSNKeyPrefix; TokenSetupKeyPrefix; TokenSetupHashKeyPrefix; TokenRequestKeyPrefix;
   InputSerialNumberPrefix; IssueActionMetadataPrefix; TransferActionMetadataPrefix].

(** The kinds of entries the translator stores, and the key of each. *)
Inductive entry :=
| EOutput (id : bytes) (index : Z)
| EOutputSN (id : bytes) (index : Z) (output : bytes)
| ESetup
| ESetupHash
| ETokenRequest (id : bytes)
| EInputSN (sn : bytes)
| EIssueMetadata (key : bytes)
| ETransferMetadata (key : bytes).

Definition entry_key (KT : KeyTranslator) (e : entry) : res bytes :=
  match e with
  | EOutput id index => CreateOutputKey KT id index
  | EOutputSN id index output => CreateOutputSNKey KT id index output
  | ESetup => CreateSetupKey KT
  | ESetupHash => CreateSetupHashKey KT
  | ETokenRequest id => CreateTokenRequestKey KT id
  | EInputSN sn => CreateInputSNKey KT sn
  | EIssueMetadata key => CreateIssueActionMetadataKey KT key
  | ETransferMetadata key => CreateTransferActionMetadataKey KT key
  end.

(** Indices are [uint64]; transaction ids are not a reserved prefix. *)
Definition entry_ok (e : entry) : Prop :=
  match e with
  | EOutput id index => 0 <= index < two64 /\ id ∉ reserved_prefixes
  | EOutputSN id index _ => 0 <= index < two64
  | _ => True
  end.

(** Two entries that share a key: the same entry, or two serial numbers whose
    preimages share a digest. *)
Definition same_or_digest (e e' : entry) : Prop :=
  e = e' \/
  match e, e' with
  | EOutputSN id i o, EOutputSN id' i' o' =>
      sha256 (OutputSN_preimage id i o) = sha256 (OutputSN_preimage id' i' o')
  | _, _ => False
  end.

Ltac not_reserved H := exfalso; apply H; repeat first [by left | right].

Lemma OutputSN_preimage_inj id i o id' i' o' : length id = length id' ->
  0 <= i < two64 -> 0 <= i' < two64 ->
  OutputSN_preimage id i o = OutputSN_preimage id' i' o' -> id = id' /\ i = i' /\ o = o'.
Proof.
  unfold OutputSN_preimage. intros Hl Hi Hi' [-> H]%app_inv_head%app_inj_1; [|done].
  apply app_inj_1 in H as [Hle ->]; [|by rewrite !le_bytes_length].
  split_and!; [done| |done]. by apply (le_bytes_inj 8).
Qed.

Lemma ledger_keys_sep w e e' k : entry_ok e -> entry_ok e' ->
  entry_key (keys_Translator w) e = Ok k -> entry_key (keys_Translator w) e' = Ok k ->
  same_or_digest e e'.
Proof.
  intros He He' H H'. unfold same_or_digest.
  destruct e, e'; cbn -[createCompositeKey] in H, H', He, He';
    destruct (createCompositeKey_inj _ _ _ _ _ H H') as [Ho Hl]; try discriminate Ho;
    try discriminate Hl; subst; try (left; reflexivity);
    try solve [not_reserved (proj2 He)]; try solve [not_reserved (proj2 He')].
  - injection Hl as Hl. left. f_equal. apply format_nat_inj; lia || done.
  - apply single_inj, hex_inj in Hl. by right.
  - by simplify_eq; left.
  - by simplify_eq; left.
  - by simplify_eq; left.
  - by simplify_eq; left.
Qed.

(** ** Properties *)

(** Composite keys are injective and valid keys split back into their
    parts.  The key built from an object type and attributes determines them,
    because no accepted component contains the separator. *)
Theorem createCompositeKey_injective o l o' l' k :
  createCompositeKey o l = Ok k -> createCompositeKey o' l' = Ok k ->
  o = o' /\ l = l' /\
  ((numComponentsInKey <= length l)%nat -> splitCompositeKey k = Ok (o, l)).
Proof.
  intros H H'. destruct (createCompositeKey_inj _ _ _ _ _ H H') as [-> ->]. split_and!; [done..|].
  intros Hn. unfold splitCompositeKey. rewrite (createCompositeKey_components _ _ _ H').
  cbn [length]. destruct (Nat.ltb_spec (S (length l')) (numComponentsInKey + 1)); [lia|done].
Qed.

Lemma createCompositeKey_injective_witness :
  createCompositeKey (str "o") [str "a"; str "b"] = Ok (nul :: str "o" ++ nul :: str "a" ++ nul :: str "b" ++ [nul]) /\
  (str "o" = str "o" /\ [str "a"; str "b"] = [str "a"; str "b"] /\
   ((numComponentsInKey <= 2)%nat ->
    splitCompositeKey (nul :: str "o" ++ nul :: str "a" ++ nul :: str "b" ++ [nul]) = Ok (str "o", [str "a"; str "b"]))).
Proof.
  split; [vm_compute; reflexivity|].
  apply (createCompositeKey_injective (str "o") [str "a"; str "b"]); vm_compute; reflexivity.
Defined.

(** The entries of the ledger do not interfere.  Under the composite-key
    translator two entries (outputs, output serial numbers, spent serial
    numbers, token requests, public parameters and their hash, issue and
    transfer metadata) share a key only if they are the same entry or two
    serial numbers whose preimages have the same SHA-256 digest, provided the
    transaction ids of outputs are not one of the reserved prefixes. *)
Theorem ledger_keys_separate w e e' k : entry_ok e -> entry_ok e' ->
  entry_key (keys_Translator w) e = Ok k -> entry_key (keys_Translator w) e' = Ok k ->
  same_or_digest e e'.
Proof. apply ledger_keys_sep. Qed.

Lemma ledger_keys_separate_witness : exists k,
  entry_key (keys_Translator None) (EOutput (str "tx") 3) = Ok k /\
  same_or_digest (EOutput (str "tx") 3) (EOutput (str "tx") 3).
Proof.
  eexists. split; [vm_compute; reflexivity|].
  assert (Hok : entry_ok (EOutput (str "tx") 3)).
  { split; [split; [discriminate|reflexivity]|]. refine (bool_decide_unpack (str "tx" ∉ reserved_prefixes) _). vm_compute. exact I. }
  eapply (ledger_keys_separate None); [exact Hok|exact Hok|vm_compute; reflexivity|vm_compute; reflexivity].
Defined.

(** The key under which the serial number of an output is stored is the
    digest of the token id and the token content.  For transaction ids of one
    length (as those of a ledger are), two tokens share it only if they agree
    on id, index and content, or their preimages are a SHA-256 collision. *)
Theorem CreateOutputSNKey_binds id i o id' i' o' k :
  length id = length id' -> 0 <= i < two64 -> 0 <= i' < two64 ->
  keys_CreateOutputSNKey id i o = Ok k -> keys_CreateOutputSNKey id' i' o' = Ok k ->
  (id = id' /\ i = i' /\ o = o') \/
  (OutputSN_preimage id i o <> OutputSN_preimage id' i' o' /\
   sha256 (OutputSN_preimage id i o) = sha256 (OutputSN_preimage id' i' o')).
Proof.
  intros Hl Hi Hi' H H'. destruct (createCompositeKey_inj _ _ _ _ _ H H') as [_ E%single_inj%hex_inj].
  destruct (decide (OutputSN_preimage id i o = OutputSN_preimage id' i' o')) as [Heq|]; [left|by right].
  by apply OutputSN_preimage_inj.
Qed.

Lemma CreateOutputSNKey_binds_witness : exists k,
  keys_CreateOutputSNKey (str "tx") 3 (str "out") = Ok k /\
  ((str "tx" = str "tx" /\ 3 = 3 /\ str "out" = str "out") \/
   (OutputSN_preimage (str "tx") 3 (str "out") <> OutputSN_preimage (str "tx") 3 (str "out") /\
    sha256 (OutputSN_preimage (str "tx") 3 (str "out")) = sha256 (OutputSN_preimage (str "tx") 3 (str "out")))).
Proof.
  eexists. split; [vm_compute; reflexivity|].
  eapply (CreateOutputSNKey_binds (str "tx") 3 (str "out"));
    [reflexivity|split; [discriminate|reflexivity]|split; [discriminate|reflexivity]|vm_compute; reflexivity|vm_compute; reflexivity].
Defined.

(** A transfer metadata key cannot be taken apart again.  The splitter
    asks for two components after the prefix and the caller for exactly one,
    so extracting the sub key of a key the same translator created always
    fails, and no key at all yields a non-empty sub key. *)
Theorem GetTransferMetadataSubKey_never w key k :
  (CreateTransferActionMetadataKey (keys_Translator w) key = Ok k ->
   GetTransferMetadataSubKey (keys_Translator w) k
   = Err (EWrap (EMsg "invalid composite key - not enough components found in key") "failed to split composite key")) /\
  forall sub, GetTransferMetadataSubKey (keys_Translator w) k = Ok sub -> sub = [] /\ w = None.
Proof.
  cbn -[createCompositeKey]. unfold keys_GetTransferMetadataSubKey, splitCompositeKey. split.
  - intros H. rewrite (createCompositeKey_components _ _ _ H). done.
  - intros sub. destruct (splitComponents [] (drop 1 k)) as [|c0 [|c1 [|c2 cs]]]; [done..|].
    cbn. destruct w; [done|]. by intros [= <-].
Qed.

Lemma GetTransferMetadataSubKey_never_witness : exists k,
  CreateTransferActionMetadataKey (keys_Translator None) (str "key") = Ok k /\
  ((CreateTransferActionMetadataKey (keys_Translator None) (str "key") = Ok k ->
    GetTransferMetadataSubKey (keys_Translator None) k
    = Err (EWrap (EMsg "invalid composite key - not enough components found in key") "failed to split composite key")) /\
   forall sub, GetTransferMetadataSubKey (keys_Translator None) k = Ok sub -> sub = [] /\ None = @None error).
Proof. eexists. split; [vm_compute; reflexivity|]. apply GetTransferMetadataSubKey_never. Defined.
