(* ===== verification/Rwset.v ===== *)
(** * Read-write sets (token/services/network/common/rws/translator/rwset.go,
      token/services/network/fabricx/endorsement/rwset.go)

    The two interfaces through which the translator reads and writes the
    ledger, the wrapper that implements one on top of the other, and the laws
    the translator relies on.  The read-write sets themselves belong to
    Fabric; they are the instances of [RWSet], with the documented behaviour
    of a simulated transaction as the class [RWSetLaws]. *)

From S2P Require Import Prelude.
From Stdlib Require Import ZArith Lia.
Local Open Scope Z_scope.

(** ** Interfaces *)

Class RWSet (S : Type) := {
  rw_SetState : bytes -> bytes -> bytes -> M S unit;
  rw_GetState : bytes -> bytes -> M S bytes;
  rw_DeleteState : bytes -> bytes -> M S unit;
}.

Definition Latest : Z := 0.
Definition VersionZero : Z := 1.

Class ExRWSet (S : Type) := {
  SetState : bytes -> bytes -> M S unit;
  GetState : bytes -> M S bytes;
  DeleteState : bytes -> M S unit;
  StateMustNotExist : bytes -> M S unit;
  StateMustExist : bytes -> Z -> M S unit;
}.

(** ** The wrapper of a read-write set in one namespace (translator/rwset.go) *)

Section Wrapper.
Context {S : Type} `{!RWSet S} (Namespace : bytes).

Definition RWSetWrapper_SetState (key value : bytes) : M S unit := rw_SetState Namespace key value.
Definition RWSetWrapper_GetState (key : bytes) : M S bytes := rw_GetState Namespace key.
Definition RWSetWrapper_DeleteState (key : bytes) : M S unit := rw_DeleteState Namespace key.

Definition RWSetWrapper_StateMustNotExist (key : bytes) : M S unit :=
  tr ← wrapM "failed to read state" (rw_GetState Namespace key);
  lift (reject_if (negb (zlen tr =? 0)) (EMsg "state already exists")).

(** The version is ignored: keys are used only once. *)
Definition RWSetWrapper_StateMustExist (key : bytes) (version : Z) : M S unit :=
  h ← wrapM "failed to read state" (rw_GetState Namespace key);
  lift (reject_if (zlen h =? 0) (EMsg "state does not exist")).

Definition RWSetWrapper : ExRWSet S := {|
  SetState := RWSetWrapper_SetState;
  GetState := RWSetWrapper_GetState;
  DeleteState := RWSetWrapper_DeleteState;
  StateMustNotExist := RWSetWrapper_StateMustNotExist;
  StateMustExist := RWSetWrapper_StateMustExist;
|}.
End Wrapper.

(** ** The Fabric-X wrapper (fabricx/endorsement/rwset.go)

    Existence is not read: it becomes a read dependency at a version, which
    the committer checks.  [MarshalVersion] encodes a version. *)

Class XRWSet (S : Type) := {
  xrw_base : RWSet S;
  AddReadAt : bytes -> bytes -> option bytes -> M S unit;
}.

Section FabricxWrapper.
Context {S : Type} `{!XRWSet S} (MarshalVersion : Z -> bytes) (Namespace : bytes) (ppVersion : Z).

Definition XRWSetWrapper_StateMustNotExist (key : bytes) : M S unit :=
  AddReadAt Namespace key None.

Definition XRWSetWrapper_StateMustExist (key : bytes) (version : Z) : M S unit :=
  if version =? VersionZero then AddReadAt Namespace key (Some (MarshalVersion 0))
  else if version =? Latest then AddReadAt Namespace key (Some (MarshalVersion ppVersion))
  else lift (Err (EMsg "invalid version")).

Definition XRWSetWrapper : ExRWSet S := {|
  SetState := @rw_SetState S xrw_base Namespace;
  GetState := @rw_GetState S xrw_base Namespace;
  DeleteState := @rw_DeleteState S xrw_base Namespace;
  StateMustNotExist := XRWSetWrapper_StateMustNotExist;
  StateMustExist := XRWSetWrapper_StateMustExist;
|}.
End FabricxWrapper.

(** ** Laws

    [store] is the committed state the transaction was simulated against (an
    absent key reads as the empty value), [pending] the writes recorded so
    far, in order, [None] for a deletion.  A read returns the committed value
    or, where the implementation lets a transaction see its own writes, the
    last pending one. *)

Definition write : Type := bytes * option bytes.

Fixpoint last_write (k : bytes) (ws : list write) : option (option bytes) :=
  match ws with
  | [] => None
  | (k', v) :: ws =>
      match last_write k ws with
      | Some r => Some r
      | None => if decide (k' = k) then Some v else None
      end
  end.

(** The state after the writes are committed. *)
Definition apply_writes (st : bytes -> bytes) (ws : list write) : bytes -> bytes := fun k =>
  match last_write k ws with
  | Some v => default [] v
  | None => st k
  end.

Definition readable (st : bytes -> bytes) (ws : list write) (k v : bytes) : Prop :=
  v = st k \/ v = apply_writes st ws k.

Class RWSetLaws (S : Type) `{!RWSet S} (ns : bytes) := {
  rw_store : S -> bytes -> bytes;
  rw_pending : S -> list write;
  rw_SetState_spec k v s u s' : rw_SetState ns k v s = (Ok u, s') ->
    rw_store s' = rw_store s /\ rw_pending s' = rw_pending s ++ [(k, Some v)];
  rw_DeleteState_spec k s u s' : rw_DeleteState ns k s = (Ok u, s') ->
    rw_store s' = rw_store s /\ rw_pending s' = rw_pending s ++ [(k, None)];
  rw_GetState_spec k s v s' : rw_GetState ns k s = (Ok v, s') ->
    rw_store s' = rw_store s /\ rw_pending s' = rw_pending s /\
    readable (rw_store s) (rw_pending s) k v;
}.

Class ExRWSetLaws (S : Type) `{!ExRWSet S} := {
  store : S -> bytes -> bytes;
  pending : S -> list write;
  SetState_spec k v s u s' : SetState k v s = (Ok u, s') ->
    store s' = store s /\ pending s' = pending s ++ [(k, Some v)];
  DeleteState_spec k s u s' : DeleteState k s = (Ok u, s') ->
    store s' = store s /\ pending s' = pending s ++ [(k, None)];
  GetState_spec k s v s' : GetState k s = (Ok v, s') ->
    store s' = store s /\ pending s' = pending s /\ readable (store s) (pending s) k v;
  StateMustNotExist_spec k s u s' : StateMustNotExist k s = (Ok u, s') ->
    store s' = store s /\ pending s' = pending s /\ readable (store s) (pending s) k [];
  StateMustExist_spec k ver s u s' : StateMustExist k ver s = (Ok u, s') ->
    store s' = store s /\ pending s' = pending s /\
    exists v, v <> [] /\ readable (store s) (pending s) k v;
}.

Lemma zlen_zero {A} (l : list A) : zlen l = 0 <-> l = [].
Proof. unfold zlen. destruct l; cbn; split; intros; done || lia. Qed.

(** The wrapper discharges the laws of the interface the translator uses. *)
#[global] Program Instance RWSetWrapper_laws {S} `{HR : RWSet S} ns `{!RWSetLaws S ns} :
    @ExRWSetLaws S (RWSetWrapper ns) := {
  store := rw_store;
  pending := rw_pending;
}.
Next Obligation. intros. by eapply rw_SetState_spec. Qed.
Next Obligation. intros. by eapply rw_DeleteState_spec. Qed.
Next Obligation. intros. by eapply rw_GetState_spec. Qed.
Next Obligation.
  intros S HR ns HL k s u s' H. cbn in H. unfold RWSetWrapper_StateMustNotExist in H. res_inv.
  match goal with H : rw_GetState _ _ _ = _ |- _ => apply rw_GetState_spec in H as (-> & -> & Hr) end.
  match goal with H : negb _ = false |- _ => apply negb_false_iff, Z.eqb_eq, zlen_zero in H end. by subst.
Qed.
Next Obligation.
  intros S HR ns HL k ver s u s' H. cbn in H. unfold RWSetWrapper_StateMustExist in H. res_inv.
  match goal with H : rw_GetState _ _ _ = (Ok ?v, _) |- _ =>
    apply rw_GetState_spec in H as (-> & -> & Hr); split_and!; [done..|exists v; split; [|done]] end.
  intros ->. done.
Qed.

(** ** A simulated transaction

    A concrete read-write set in the style of the chaincode stub: reads go to
    the committed state, writes are recorded. *)
Record stub := mkStub { stub_state : gmap bytes bytes; stub_writes : list write }.

#[global] Instance stub_RWSet : RWSet stub := {|
  rw_SetState _ k v := fun s => (Ok tt, mkStub (stub_state s) (stub_writes s ++ [(k, Some v)]));
  rw_GetState _ k := fun s => (Ok (default [] (stub_state s !! k)), s);
  rw_DeleteState _ k := fun s => (Ok tt, mkStub (stub_state s) (stub_writes s ++ [(k, None)]));
|}.

#[global] Program Instance stub_laws ns : RWSetLaws stub ns := {
  rw_store s k := default [] (stub_state s !! k);
  rw_pending := stub_writes;
}.
Next Obligation. cbn. intros. by simplify_eq. Qed.
Next Obligation. cbn. intros. by simplify_eq. Qed.
Next Obligation. cbn. intros. simplify_eq. split_and!; [done..|by left]. Qed.

(** ** Lemmas on writes *)

Lemma last_write_app k ws ws' :
  last_write k (ws ++ ws') = match last_write k ws' with Some r => Some r | None => last_write k ws end.
Proof.
  induction ws as [|[k' v] ws IH]; cbn; [by destruct (last_write k ws')|].
  rewrite IH. by destruct (last_write k ws').
Qed.

Lemma apply_writes_app st ws ws' k :
  apply_writes st (ws ++ ws') k = apply_writes (apply_writes st ws) ws' k.
Proof. unfold apply_writes. rewrite last_write_app. by destruct (last_write k ws'). Qed.

Lemma last_write_None k ws : last_write k ws = None <-> k ∉ ws.*1.
Proof.
  induction ws as [|[k' v] ws IH]; cbn; [split; [intros _; apply not_elem_of_nil|done]|].
  rewrite not_elem_of_cons, <- IH. destruct (last_write k ws); [naive_solver|].
  case_decide; naive_solver.
Qed.

Lemma apply_writes_frame st ws k : k ∉ ws.*1 -> apply_writes st ws k = st k.
Proof. unfold apply_writes. by intros ->%last_write_None. Qed.
