(* ===== verification/Translator.v ===== *)
(** * The translator of actions into ledger writes
      (token/services/network/common/rws/translator/translator.go, action.go)

    The translator keeps the read-write set, the ids spent so far and the
    output counter of one transaction.  An action is what its accessors
    return: the interfaces of action.go are records, a pointer that may be nil
    is an [option], a metadata map is a [gomap] in iteration order. *)

From S2P Require Import Prelude GoStd TokenTypes Keys Rwset.
From Stdlib Require Import ZArith Lia.
Local Open Scope Z_scope.

(** ** Actions (action.go) *)

Record ActionWithInputs := mkActionWithInputs {
  GetInputs : list (option ID);
  GetSerializedInputs : res (list bytes);
  GetSerialNumbers : list bytes;
}.

Record IssueAction := mkIssueAction {
  issue_inputs : ActionWithInputs;
  issue_GetSerializedOutputs : res (list bytes);
  issue_GetMetadata : gomap bytes;
  issue_IsGraphHiding : bool;
}.

Record TransferAction := mkTransferAction {
  transfer_inputs : ActionWithInputs;
  NumOutputs : nat;
  IsRedeemAt : nat -> bool;
  SerializeOutputAt : nat -> res bytes;
  transfer_GetMetadata : gomap bytes;
  transfer_IsGraphHiding : bool;
}.

(** The dynamic type of the argument of [Write]. *)
Inductive action :=
| AIssue (a : IssueAction)
| ATransfer (a : TransferAction)
| ASetup (GetSetupParameters : res bytes)
| AOther.

Definition NotEmpty : bytes := [z2b 1].

(** ** State *)

Record TranslatorState (S : Type) := mkTranslator {
  t_RWSet : S;
  SpentIDs : list bytes;
  counter : Z;
}.
Arguments mkTranslator {S}.
Arguments t_RWSet {S}.
Arguments SpentIDs {S}.
Arguments counter {S}.

Section Translator.
Context {S : Type} `{!ExRWSet S} (KT : KeyTranslator) (TxID : bytes).

Abbreviation T := (M (TranslatorState S)).

Definition New (rws : S) : TranslatorState S := mkTranslator rws [] 0.

(** A call on the read-write set. *)
Definition rws {A} (m : M S A) : T A := fun t =>
  let '(r, s) := m (t_RWSet t) in (r, mkTranslator s (SpentIDs t) (counter t)).

Definition CommitTokenRequest (raw : bytes) (storeHash : bool) : T bytes :=
  key ← replace_errM "can't create for token request" (lift (CreateTokenRequestKey KT TxID));
  wrapM "failed to read token request" (rws (StateMustNotExist key)) ;;
  let raw' := if storeHash then sha256 raw else raw in
  let h := if storeHash then raw' else [] in
  wrapM "failed to write token request" (rws (SetState key raw')) ;;
  mret h.

Definition ReadTokenRequest : T bytes :=
  key ← replace_errM "can't create for token request" (lift (CreateTokenRequestKey KT TxID));
  wrapM "failed to read token request" (rws (GetState key)).

Definition ReadSetupParameters : T bytes :=
  setupKey ← wrapM "failed to create setup key" (lift (CreateSetupKey KT));
  wrapM "failed to get setup parameters" (rws (GetState setupKey)).

Definition AddPublicParamsDependency : T unit :=
  setupKey ← wrapM "failed to create setup key" (lift (CreateSetupHashKey KT));
  wrapM "failed to add public params dependency" (rws (StateMustExist setupKey Latest)).

(** The body of the loop of [QueryTokens]: the entry of the result and
    whether an error was recorded. *)
Definition QueryToken (id : option ID) : T (bytes * bool) := fun t =>
  match id with
  | None => (Ok ([], true), t)
  | Some id =>
      match CreateOutputKey KT (TxId id) (Index id) with
      | Ok outputID =>
          match rws (GetState outputID) t with
          | (Ok v, t') => (Ok (v, false), t')
          | (Err _, t') => (Ok ([], true), t')
          | (Panic, t') => (Panic, t')
          end
      | Err _ => (Ok ([], true), t)
      | Panic => (Panic, t)
      end
  end.

Definition QueryTokens (ids : list (option ID)) : T (list bytes) :=
  res ← mapM QueryToken ids;
  if existsb snd res then lift (Err (EMsg "failed quering tokens"))
  else mret (fst <$> res).

Definition AreTokensSpent (ids : list bytes) (graphHiding : bool) : T (list bool) :=
  if graphHiding then
    mapM (fun id =>
      k ← wrapM "failed to generate key for id" (lift (CreateInputSNKey KT id));
      v ← wrapM "failed to get serial number" (rws (GetState k));
      mret (negb (zlen v =? 0))) ids
  else
    mapM (fun id =>
      v ← wrapM "failed to get output" (rws (GetState id));
      mret (zlen v =? 0)) ids.

Definition appendSpentID (id : bytes) : T unit := fun t =>
  if bool_decide (id ∈ SpentIDs t) then (Err (EMsg "already spent"), t)
  else (Ok tt, mkTranslator (t_RWSet t) (SpentIDs t ++ [id]) (counter t)).

(** [x[i]] on a slice. *)
Definition index_or_panic {A} (l : list A) (i : nat) : res A :=
  match l !! i with Some x => Ok x | None => Panic end.

(** A field of a pointer that may be nil. *)
Definition deref {A} (p : option A) : res A :=
  match p with Some x => Ok x | None => Panic end.

Definition checkInput (serializedInputs : list bytes) (i : nat) (input : option ID) : T unit :=
  id ← lift (deref input);
  si ← lift (index_or_panic serializedInputs i);
  key ← wrapM "invalid transfer: failed creating output ID"
          (lift (CreateOutputSNKey KT (TxId id) (Index id) si));
  wrapM "invalid transfer: input must exist" (rws (StateMustExist key VersionZero)).

Definition checkInputs (a : ActionWithInputs) : T unit :=
  rangeM (fun _ key =>
    wrapM "invalid transfer: serial number must not exist" (rws (StateMustNotExist key)))
    0 (GetSerialNumbers a) ;;
  serializedInputs ← wrapM "failed to get serialized inputs" (lift (GetSerializedInputs a));
  lift (reject_if (negb (length serializedInputs =? length (GetInputs a))%nat)
          (EMsg "inputs and serialized inputs length mismatch")) ;;
  rangeM (checkInput serializedInputs) 0 (GetInputs a).

Definition spendInput (serializedInputs : list bytes) (i : nat) (input : option ID) : T unit :=
  inp ← lift (deref input);
  si ← lift (index_or_panic serializedInputs i);
  id ← wrapM "invalid transfer: failed creating output ID"
         (lift (CreateOutputSNKey KT (TxId inp) (Index inp) si));
  wrapM "failed to delete output" (rws (DeleteState id)) ;;
  id ← wrapM "invalid transfer: failed creating output ID"
         (lift (CreateOutputKey KT (TxId inp) (Index inp)));
  wrapM "failed to delete output" (rws (DeleteState id)) ;;
  wrapM "failed to append spent id" (appendSpentID id).

Definition spendSerialNumber (id : bytes) : T unit :=
  k ← wrapM "failed to generate key for id" (lift (CreateInputSNKey KT id));
  wrapM "failed to add serial number" (rws (SetState k NotEmpty)) ;;
  wrapM "failed to append spent id" (appendSpentID id).

Definition spendInputs (a : ActionWithInputs) : T unit :=
  (match GetInputs a with
   | [] => mret tt
   | ids =>
       serializedInputs ← wrapM "error serializing transfer inputs" (lift (GetSerializedInputs a));
       rangeM (spendInput serializedInputs) 0 ids
   end) ;;
  rangeM (fun _ => spendSerialNumber) 0 (GetSerialNumbers a).

Definition storeOutput (graphNonHiding : bool) (index : Z) (output : bytes) : T unit :=
  outputID ← replace_errM "error creating output ID" (lift (CreateOutputKey KT TxID index));
  rws (SetState outputID output) ;;
  if graphNonHiding then
    sn ← replace_errM "error creating output ID" (lift (CreateOutputSNKey KT TxID index output));
    rws (SetState sn NotEmpty)
  else mret tt.

Definition storeMetadata (createKey : bytes -> res bytes) (occupied : string)
    (metadata : gomap bytes) : T unit :=
  rangeM (fun _ '(key, value) =>
    k ← wrapM "failed constructing metadata key" (lift (createKey key));
    replace_errM occupied (rws (StateMustNotExist k)) ;;
    rws (SetState k value)) 0 metadata.

Definition addCounter (n : nat) : T unit :=
  modifyS (fun t => mkTranslator (t_RWSet t) (SpentIDs t) (u64 (counter t + Z.of_nat n))).

Definition commitIssueAction (a : IssueAction) : T unit :=
  t ← getS;
  let base := counter t in
  let graphNonHiding := negb (issue_IsGraphHiding a) in
  outputs ← lift (issue_GetSerializedOutputs a);
  rangeM (fun i output => storeOutput graphNonHiding (u64 (base + Z.of_nat i)) output) 0 outputs ;;
  spendInputs (issue_inputs a) ;;
  storeMetadata (CreateIssueActionMetadataKey KT) "entry with issue metadata key is already occupied"
    (issue_GetMetadata a) ;;
  addCounter (length outputs).

Definition storeTransferOutput (a : TransferAction) (base : Z) (i : nat) : T unit :=
  let graphNonHiding := negb (transfer_IsGraphHiding a) in
  if negb (IsRedeemAt a i) then
    output ← wrapM "error serializing transfer output at index" (lift (SerializeOutputAt a i));
    storeOutput graphNonHiding (u64 (base + Z.of_nat i)) output
  else mret tt.

Definition commitTransferAction (a : TransferAction) : T unit :=
  t ← getS;
  let base := counter t in
  rangeM (fun _ i => storeTransferOutput a base i) 0 (seq 0 (NumOutputs a)) ;;
  spendInputs (transfer_inputs a) ;;
  storeMetadata (CreateTransferActionMetadataKey KT) "entry with transfer metadata key is already occupied"
    (transfer_GetMetadata a) ;;
  addCounter (NumOutputs a).

Definition commitSetupAction (setup : res bytes) : T unit :=
  raw ← lift setup;
  setupKey ← lift (CreateSetupKey KT);
  rws (SetState setupKey raw) ;;
  setupHashKey ← lift (CreateSetupHashKey KT);
  rws (SetState setupHashKey (sha256 raw)).

Definition checkAction (a : action) : T unit :=
  match a with
  | AIssue a => checkInputs (issue_inputs a)
  | ATransfer a => checkInputs (transfer_inputs a)
  | ASetup _ => mret tt
  | AOther => lift (Err (EMsg "unknown token action"))
  end.

Definition commitAction (a : action) : T unit :=
  match a with
  | AIssue a => commitIssueAction a
  | ATransfer a => commitTransferAction a
  | ASetup s => commitSetupAction s
  | AOther => mret tt
  end.

Definition Write (a : action) : T unit :=
  checkAction a ;; commitAction a.

(** The writing half of [ProcessRequest] (fabric/tcc/tcc.go) and of the
    endorser (fabric/endorsement/fsc/responder.go): every action in order, then
    the dependency on the public parameters, then the request itself. *)
Definition WriteRequest (actions : list action) (tokenRequestToSign : bytes) : T unit :=
  rangeM (fun _ => Write) 0 actions ;;
  AddPublicParamsDependency ;;
  _ ← CommitTokenRequest tokenRequestToSign true;
  mret tt.

End Translator.

(** ** Specification: the log of an action

    What an accepted action does to the transaction, as a pure function of
    the action and of the counter: the writes in order, and the ids it
    spends. *)

Inductive event :=
| EvWrite (e : entry) (v : option bytes)
| EvSpendOutput (id : ID)
| EvSpendSN (sn : bytes).

Fixpoint rangeLog {A} (f : nat -> A -> res (list event)) (i : nat) (l : list A) : res (list event) :=
  match l with
  | [] => Ok []
  | x :: l => e ← f i x; r ← rangeLog f (S i) l; Ok (e ++ r)
  end.

Section Spec.
Context (TxID : bytes).

Definition output_log (graphNonHiding : bool) (index : Z) (output : bytes) : res (list event) :=
  if graphNonHiding
  then Ok [EvWrite (EOutput TxID index) (Some output); EvWrite (EOutputSN TxID index output) (Some NotEmpty)]
  else Ok [EvWrite (EOutput TxID index) (Some output)].

Definition input_log (sis : list bytes) (i : nat) (input : option ID) : res (list event) :=
  inp ← deref input;
  si ← index_or_panic sis i;
  Ok [EvWrite (EOutputSN (TxId inp) (Index inp) si) None; EvWrite (EOutput (TxId inp) (Index inp)) None;
      EvSpendOutput inp].

Definition sn_log (_ : nat) (id : bytes) : res (list event) :=
  Ok [EvWrite (EInputSN id) (Some NotEmpty); EvSpendSN id].

Definition inputs_log (a : ActionWithInputs) : res (list event) :=
  sis ← GetSerializedInputs a;
  l ← rangeLog (input_log sis) 0 (GetInputs a);
  l' ← rangeLog sn_log 0 (GetSerialNumbers a);
  Ok (l ++ l').

Definition metadata_log (entry_of : bytes -> entry) (m : gomap bytes) : res (list event) :=
  rangeLog (fun _ '(key, value) => Ok [EvWrite (entry_of key) (Some value)]) 0 m.

Definition transfer_output_log (a : TransferAction) (base : Z) (_ : nat) (i : nat) : res (list event) :=
  if IsRedeemAt a i then Ok []
  else output ← SerializeOutputAt a i;
       output_log (negb (transfer_IsGraphHiding a)) (u64 (base + Z.of_nat i)) output.

(** The outputs, the inputs and the metadata of an action, in the order in
    which they are written, and the number of indices it takes. *)
Definition outputs_log (base : Z) (a : action) : res (list event) :=
  match a with
  | AIssue a =>
      outputs ← issue_GetSerializedOutputs a;
      rangeLog (fun i o => output_log (negb (issue_IsGraphHiding a)) (u64 (base + Z.of_nat i)) o) 0 outputs
  | ATransfer a => rangeLog (transfer_output_log a base) 0 (seq 0 (NumOutputs a))
  | ASetup setup =>
      raw ← setup;
      Ok [EvWrite ESetup (Some raw); EvWrite ESetupHash (Some (sha256 raw))]
  | AOther => Ok []
  end.

Definition action_inputs_log (a : action) : res (list event) :=
  match a with
  | AIssue a => inputs_log (issue_inputs a)
  | ATransfer a => inputs_log (transfer_inputs a)
  | _ => Ok []
  end.

Definition action_metadata_log (a : action) : res (list event) :=
  match a with
  | AIssue a => metadata_log EIssueMetadata (issue_GetMetadata a)
  | ATransfer a => metadata_log ETransferMetadata (transfer_GetMetadata a)
  | _ => Ok []
  end.

Definition action_log (base : Z) (a : action) : res (list event) :=
  o ← outputs_log base a;
  i ← action_inputs_log a;
  m ← action_metadata_log a;
  Ok (o ++ i ++ m).

Definition action_outputs (a : action) : nat :=
  match a with
  | AIssue a => match issue_GetSerializedOutputs a with Ok l => length l | _ => 0%nat end
  | ATransfer a => NumOutputs a
  | _ => 0%nat
  end.

(** The whole request: the counter runs over the actions. *)
Fixpoint request_log (base : Z) (actions : list action) : res (list event) :=
  match actions with
  | [] => Ok []
  | a :: l =>
      e ← action_log base a;
      r ← request_log (u64 (base + Z.of_nat (action_outputs a))) l;
      Ok (e ++ r)
  end.

End Spec.

(** The entries as keys of a translator. *)
Definition event_write (KT : KeyTranslator) (e : event) : res (list write) :=
  match e with
  | EvWrite e v => k ← entry_key KT e; Ok [(k, v)]
  | _ => Ok []
  end.

(** What an event adds to [SpentIDs]: the key of a spent output, or a serial
    number as it is. *)
Definition event_spent (KT : KeyTranslator) (e : event) : res (list bytes) :=
  match e with
  | EvWrite _ _ => Ok []
  | EvSpendOutput id => k ← CreateOutputKey KT (TxId id) (Index id); Ok [k]
  | EvSpendSN sn => Ok [sn]
  end.

Fixpoint concatM {A B} (f : A -> res (list B)) (l : list A) : res (list B) :=
  match l with
  | [] => Ok []
  | x :: l => h ← f x; r ← concatM f l; Ok (h ++ r)
  end.

Definition log_writes (KT : KeyTranslator) : list event -> res (list write) := concatM (event_write KT).
Definition log_spent (KT : KeyTranslator) : list event -> res (list bytes) := concatM (event_spent KT).

(** ** Lemmas: effects *)

Lemma concatM_app {A B} (f : A -> res (list B)) l l' r1 r2 :
  concatM f l = Ok r1 -> concatM f l' = Ok r2 -> concatM f (l ++ l') = Ok (r1 ++ r2).
Proof.
  revert r1; induction l as [|x l IH]; intros r1; cbn [concatM app]; [by intros [= <-]|].
  intros (h & -> & (r & Hr & [= <-])%res_bind_Ok)%res_bind_Ok H2.
  cbn. rewrite (IH r) by done. cbn. by rewrite app_assoc.
Qed.

Section Effects.
Context {S : Type} `{HR : !ExRWSet S} `{HL : !ExRWSetLaws S} (KT : KeyTranslator) (TxID : bytes).
Abbreviation TS := (TranslatorState S).

(** The state [t'] is [t] after the events [l]. *)
Definition effect (t : TS) (l : list event) (t' : TS) : Prop :=
  store (t_RWSet t') = store (t_RWSet t) /\
  (exists ws, log_writes KT l = Ok ws /\ pending (t_RWSet t') = pending (t_RWSet t) ++ ws) /\
  (exists sp, log_spent KT l = Ok sp /\ SpentIDs t' = SpentIDs t ++ sp) /\
  counter t' = counter t /\
  (NoDup (SpentIDs t) -> NoDup (SpentIDs t')).

Lemma effect_refl t : effect t [] t.
Proof. split_and!; [done|exists []|exists []|done|done]; by rewrite app_nil_r. Qed.

Lemma effect_trans t1 l1 t2 l2 t3 : effect t1 l1 t2 -> effect t2 l2 t3 -> effect t1 (l1 ++ l2) t3.
Proof.
  intros (Es & (w1 & Hw1 & Ep) & (s1 & Hs1 & El) & Ec & En)
         (Es' & (w2 & Hw2 & Ep') & (s2 & Hs2 & El') & Ec' & En').
  split_and!; [congruence|exists (w1 ++ w2)|exists (s1 ++ s2)|congruence|auto];
    (split; [by apply concatM_app|rewrite app_assoc; congruence]).
Qed.

Lemma rws_Ok {A} (m : M S A) (t t' : TS) a : rws m t = (Ok a, t') ->
  exists s', m (t_RWSet t) = (Ok a, s') /\ t' = mkTranslator s' (SpentIDs t) (counter t).
Proof. unfold rws. destruct (m (t_RWSet t)) as [[] s']; intros; simplify_eq. eauto. Qed.

Lemma rws_SetState t e k v t' u : entry_key KT e = Ok k ->
  rws (SetState k v) t = (Ok u, t') -> effect t [EvWrite e (Some v)] t'.
Proof.
  intros Hk (s' & [Hs Hp]%SetState_spec & ->)%rws_Ok.
  split_and!; [done|exists [(k, Some v)]|exists []|done|done]; cbn; rewrite ?Hk, ?app_nil_r; done.
Qed.

Lemma rws_DeleteState t e k t' u : entry_key KT e = Ok k ->
  rws (DeleteState k) t = (Ok u, t') -> effect t [EvWrite e None] t'.
Proof.
  intros Hk (s' & [Hs Hp]%DeleteState_spec & ->)%rws_Ok.
  split_and!; [done|exists [(k, None)]|exists []|done|done]; cbn; rewrite ?Hk, ?app_nil_r; done.
Qed.

Lemma effect_nil_intro t s' : store s' = store (t_RWSet t) -> pending s' = pending (t_RWSet t) ->
  effect t [] (mkTranslator s' (SpentIDs t) (counter t)).
Proof. intros Hs Hp. split_and!; [done|exists []|exists []|done|done]; by rewrite app_nil_r. Qed.

Lemma rws_StateMustNotExist t k t' u : rws (StateMustNotExist k) t = (Ok u, t') ->
  effect t [] t' /\ readable (store (t_RWSet t)) (pending (t_RWSet t)) k [].
Proof.
  intros (s' & (Hs & Hp & Hr)%StateMustNotExist_spec & ->)%rws_Ok. split; [by apply effect_nil_intro|done].
Qed.

Lemma rws_StateMustExist t k ver t' u : rws (StateMustExist k ver) t = (Ok u, t') ->
  effect t [] t' /\ exists v, v <> [] /\ readable (store (t_RWSet t)) (pending (t_RWSet t)) k v.
Proof.
  intros (s' & (Hs & Hp & Hr)%StateMustExist_spec & ->)%rws_Ok. split; [by apply effect_nil_intro|done].
Qed.

Lemma appendSpentID_effect t e id t' u : event_write KT e = Ok [] -> event_spent KT e = Ok [id] ->
  appendSpentID id t = (Ok u, t') -> effect t [e] t'.
Proof.
  intros Hw Hs. unfold appendSpentID. case_bool_decide as Hin; [done|]. intros [= <- <-].
  split_and!; [done|exists []|exists [id]|done|]; cbn; rewrite ?Hw, ?Hs, ?app_nil_r; try done.
  intros. apply NoDup_app. split_and!; [done| |by apply NoDup_singleton].
  intros x Hx ->%list_elem_of_singleton. done.
Qed.

Lemma rangeM_effect {A} (f : nat -> A -> M TS unit) g l : forall i t t' u,
  (forall i x t t' u, f i x t = (Ok u, t') -> exists e, g i x = Ok e /\ effect t e t') ->
  rangeM f i l t = (Ok u, t') -> exists e, rangeLog g i l = Ok e /\ effect t e t'.
Proof.
  induction l as [|x l IH]; intros i t t' u Hf; cbn [rangeM rangeLog].
  - intros; res_inv. eauto using effect_refl.
  - intros; res_inv.
    match goal with H : f _ _ _ = _ |- _ => apply Hf in H as (e & -> & He) end.
    match goal with H : rangeM _ _ _ _ = _ |- _ => apply IH in H as (e' & -> & He'); [|done] end.
    cbn. eauto using effect_trans.
Qed.

End Effects.

Section ActionEffects.
Context {S : Type} `{HR : !ExRWSet S} `{HL : !ExRWSetLaws S} (KT : KeyTranslator) (TxID : bytes).
Abbreviation TS := (TranslatorState S).

Lemma storeOutput_effect gnh i o (t t' : TS) u : storeOutput KT TxID gnh i o t = (Ok u, t') ->
  exists e, output_log TxID gnh i o = Ok e /\ effect KT t e t'.
Proof.
  unfold storeOutput, output_log.
  intros (k & t0 & [Hk ->]%replace_errM_Ok%lift_Ok & ([] & t1 & H1 & H)%M_bind_Ok)%M_bind_Ok.
  apply (rws_SetState KT t (EOutput TxID i)) in H1; [|done]. destruct gnh; [|res_inv; eauto].
  apply M_bind_Ok in H as (sn & t2 & [Hsn ->]%replace_errM_Ok%lift_Ok & H).
  apply (rws_SetState KT t1 (EOutputSN TxID i o)) in H; [|done].
  eexists; split; [done|]. by eapply (effect_trans _ _ [_] _ [_]).
Qed.

Lemma spendInput_effect sis i input (t t' : TS) u : spendInput KT sis i input t = (Ok u, t') ->
  exists e, input_log sis i input = Ok e /\ effect KT t e t'.
Proof.
  unfold spendInput, input_log. intros (inp & t0 & [-> ->]%lift_Ok & H)%M_bind_Ok.
  apply M_bind_Ok in H as (si & t0 & [-> ->]%lift_Ok & H).
  apply M_bind_Ok in H as (sn & t0 & [Hsn ->]%wrapM_Ok%lift_Ok & H).
  apply M_bind_Ok in H as ([] & t1 & H1%wrapM_Ok & H).
  apply M_bind_Ok in H as (k & t0 & [Hk ->]%wrapM_Ok%lift_Ok & H).
  apply M_bind_Ok in H as ([] & t2 & H2%wrapM_Ok & H3%wrapM_Ok).
  eexists; split; [done|].
  apply (rws_DeleteState KT t (EOutputSN (TxId inp) (Index inp) si)) in H1; [|done].
  apply (rws_DeleteState KT t1 (EOutput (TxId inp) (Index inp))) in H2; [|done].
  apply (appendSpentID_effect KT t2 (EvSpendOutput inp)) in H3; [|done|cbn; by rewrite Hk].
  eapply (effect_trans _ _ [_] _ [_; _]); [done|]. by eapply (effect_trans _ _ [_] _ [_]).
Qed.

Lemma spendSerialNumber_effect (i : nat) id (t t' : TS) u : spendSerialNumber KT id t = (Ok u, t') ->
  exists e, sn_log i id = Ok e /\ effect KT t e t'.
Proof.
  unfold spendSerialNumber, sn_log. intros (k & t0 & [Hk ->]%wrapM_Ok%lift_Ok & H)%M_bind_Ok.
  apply M_bind_Ok in H as ([] & t1 & H1%wrapM_Ok & H2%wrapM_Ok).
  apply (rws_SetState KT t (EInputSN id)) in H1; [|done].
  apply (appendSpentID_effect KT t1 (EvSpendSN id)) in H2; [|done..].
  eexists; split; [done|]. by eapply (effect_trans _ _ [_] _ [_]).
Qed.

Lemma storeMetadata_effect ck ent msg m (t t' : TS) u : (forall key, entry_key KT (ent key) = ck key) ->
  storeMetadata ck msg m t = (Ok u, t') -> exists e, metadata_log ent m = Ok e /\ effect KT t e t'.
Proof.
  intros Hent. apply rangeM_effect. intros i [key value] t1 t1' u1.
  intros (k & t0 & [Hk ->]%wrapM_Ok%lift_Ok & H)%M_bind_Ok.
  apply M_bind_Ok in H as ([] & t2 & [H1 _]%replace_errM_Ok%(rws_StateMustNotExist KT) & H2).
  apply (rws_SetState KT t2 (ent key)) in H2; [|by rewrite Hent].
  eexists; split; [done|]. by eapply (effect_trans _ _ [] _ [_]).
Qed.

Lemma spendInputs_effect a (t t' : TS) u sis : GetSerializedInputs a = Ok sis ->
  spendInputs KT a t = (Ok u, t') -> exists e, inputs_log a = Ok e /\ effect KT t e t'.
Proof.
  unfold spendInputs, inputs_log. intros -> H. apply M_bind_Ok in H as ([] & t1 & H1 & H2).
  assert (exists e, rangeLog (input_log sis) 0 (GetInputs a) = Ok e /\ effect KT t e t1) as (e & He & Heff).
  { destruct (GetInputs a) as [|x l]; [res_inv; eauto using effect_refl|].
    apply M_bind_Ok in H1 as (sis' & t2 & [[= <-] ->]%wrapM_Ok%lift_Ok & H1).
    eapply rangeM_effect; [|done]. intros. by eapply spendInput_effect. }
  eapply rangeM_effect in H2 as (e' & He' & Heff'); [|intros; by eapply spendSerialNumber_effect].
  cbn [mbind res_mbind]. rewrite He. cbn [mbind res_mbind]. rewrite He'. cbn. eauto using effect_trans.
Qed.

(** What the checks establish: the serialized inputs are there, every input
    is non-nil, and its serial number key reads as present. *)
Definition input_present (st : bytes -> bytes) (ws : list write) (sis : list bytes) (i : nat) (input : option ID) : Prop :=
  exists id si k v, input = Some id /\ sis !! i = Some si /\
    CreateOutputSNKey KT (TxId id) (Index id) si = Ok k /\ v <> [] /\ readable st ws k v.

Lemma effect_nil_trans (t1 t2 t3 : TS) : effect KT t1 [] t2 -> effect KT t2 [] t3 -> effect KT t1 [] t3.
Proof. intros. by eapply (effect_trans _ _ [] _ []). Qed.

Lemma effect_nil_view (t1 t2 : TS) : effect KT t1 [] t2 ->
  store (t_RWSet t2) = store (t_RWSet t1) /\ pending (t_RWSet t2) = pending (t_RWSet t1).
Proof.
  intros (? & (? & [= <-] & Hp) & _). by rewrite app_nil_r in Hp.
Qed.

Lemma checkInput_spec sis i input (t t' : TS) u : checkInput KT sis i input t = (Ok u, t') ->
  effect KT t [] t' /\ input_present (store (t_RWSet t)) (pending (t_RWSet t)) sis i input.
Proof.
  unfold checkInput. intros (inp & t0 & [Hi ->]%lift_Ok & H)%M_bind_Ok.
  apply M_bind_Ok in H as (si & t0 & [Hsi ->]%lift_Ok & H).
  apply M_bind_Ok in H as (k & t0 & [Hk ->]%wrapM_Ok%lift_Ok & H).
  apply wrapM_Ok, (rws_StateMustExist KT) in H as [? (v & ? & ?)]. split; [done|].
  unfold deref, index_or_panic in *. repeat case_match; simplify_eq.
  unfold input_present. eauto 10.
Qed.

(** A loop of pure checks establishes each check, all against the same state. *)
Lemma rangeM_checks {A} (f : nat -> A -> M TS unit) (P : (bytes -> bytes) -> list write -> nat -> A -> Prop) l :
  (forall i x t t' u, f i x t = (Ok u, t') -> effect KT t [] t' /\ P (store (t_RWSet t)) (pending (t_RWSet t)) i x) ->
  forall i t t' u, rangeM f i l t = (Ok u, t') -> effect KT t [] t' /\
    forall j x, l !! j = Some x -> P (store (t_RWSet t)) (pending (t_RWSet t)) (i + j)%nat x.
Proof.
  intros Hf. induction l as [|x l IH]; intros i t t' u; cbn [rangeM]; intros H.
  - res_inv. split; [apply effect_refl|done].
  - apply M_bind_Ok in H as ([] & t1 & [E1 P1]%Hf & [E2 P2]%IH).
    destruct (effect_nil_view _ _ E1) as [V1 V2]. rewrite V1, V2 in P2.
    split; [by eapply effect_nil_trans|]. intros [|j] y Hj; cbn in Hj; simplify_eq.
    + by rewrite Nat.add_0_r.
    + rewrite <- Nat.add_succ_comm. by apply P2.
Qed.

Lemma checkInputs_spec a (t t' : TS) u : checkInputs KT a t = (Ok u, t') ->
  effect KT t [] t' /\ exists sis, GetSerializedInputs a = Ok sis /\ length sis = length (GetInputs a) /\
    (forall sn, sn ∈ GetSerialNumbers a -> readable (store (t_RWSet t)) (pending (t_RWSet t)) sn []) /\
    forall i input, GetInputs a !! i = Some input ->
      input_present (store (t_RWSet t)) (pending (t_RWSet t)) sis i input.
Proof.
  unfold checkInputs. intros ([] & t1 & H1 & H)%M_bind_Ok.
  apply M_bind_Ok in H as (sis & t2 & [Hsis ->]%wrapM_Ok%lift_Ok & H).
  apply M_bind_Ok in H as ([] & t3 & [Hlen%reject_if_Ok ->]%lift_Ok & H2).
  apply negb_false_iff, Nat.eqb_eq in Hlen.
  eapply (rangeM_checks _ (fun st ws _ sn => readable st ws sn [])) in H1 as [E1 P1].
  2:{ intros i x s s' u' Hx%wrapM_Ok. by eapply (rws_StateMustNotExist KT). }
  eapply (rangeM_checks _ (fun st ws => input_present st ws sis)) in H2 as [E2 P2].
  2:{ intros. by eapply checkInput_spec. }
  destruct (effect_nil_view _ _ E1) as [V1 V2]. rewrite V1, V2 in P2.
  split; [by eapply effect_nil_trans|]. exists sis. split_and!; [done|done| |done].
  intros sn [j Hj]%list_elem_of_lookup. by eapply P1.
Qed.

Lemma addCounter_eq n (t t' : TS) u : addCounter n t = (Ok u, t') ->
  t' = mkTranslator (t_RWSet t) (SpentIDs t) (u64 (counter t + Z.of_nat n)).
Proof. unfold addCounter, modifyS. by intros [= <- <-]. Qed.

(** [t'] is [t] after the events [l], with the counter at [c]. *)
Definition effect_c (t : TS) (l : list event) (c : Z) (t' : TS) : Prop :=
  effect KT t l (mkTranslator (t_RWSet t') (SpentIDs t') (counter t)) /\ counter t' = c.

Lemma commit_tail o a ck ent msg m n (t t1 t' : TS) u sis : GetSerializedInputs a = Ok sis ->
  (forall key, entry_key KT (ent key) = ck key) -> effect KT t o t1 ->
  (spendInputs KT a ;; storeMetadata ck msg m ;; addCounter n) t1 = (Ok u, t') ->
  exists i e, inputs_log a = Ok i /\ metadata_log ent m = Ok e /\
    effect_c t (o ++ i ++ e) (u64 (counter t + Z.of_nat n)) t'.
Proof.
  intros Hs Hent E1 ([] & t2 & H1 & H)%M_bind_Ok. apply M_bind_Ok in H as ([] & t3 & H2 & ->%addCounter_eq).
  eapply spendInputs_effect in H1 as (i & Hi & E2); [|done].
  apply (storeMetadata_effect _ ent) in H2 as (e & He & E3); [|done].
  exists i, e. split_and!; [done..|].
  pose proof (effect_trans _ _ _ _ _ _ E1 (effect_trans _ _ _ _ _ _ E2 E3)) as E.
  assert (counter t3 = counter t) as Hc by apply E. split; [destruct t3; cbn in *; by subst|cbn; by rewrite Hc].
Qed.

Lemma commitIssue_effect a (t t' : TS) u sis : GetSerializedInputs (issue_inputs a) = Ok sis ->
  commitIssueAction KT TxID a t = (Ok u, t') ->
  exists l, action_log TxID (counter t) (AIssue a) = Ok l /\
    effect_c t l (u64 (counter t + Z.of_nat (action_outputs (AIssue a)))) t'.
Proof.
  unfold commitIssueAction. intros Hs (t0 & t0' & [= <- <-] & H)%M_bind_Ok.
  apply M_bind_Ok in H as (outs & t1 & [Ho ->]%lift_Ok & H).
  apply M_bind_Ok in H as ([] & t2 & H1 & H).
  eapply rangeM_effect in H1 as (o & Hol & E1); [|intros; by eapply storeOutput_effect].
  eapply (commit_tail _ _ _ EIssueMetadata) in H as (i & e & Hi & He & Eff); [|done..].
  exists (o ++ i ++ e). unfold action_log, outputs_log, action_outputs. cbn [action_inputs_log action_metadata_log].
  rewrite Ho. cbn [mbind res_mbind]. rewrite Hol. cbn [mbind res_mbind]. by rewrite Hi, He.
Qed.

Lemma commitTransfer_effect a (t t' : TS) u sis : GetSerializedInputs (transfer_inputs a) = Ok sis ->
  commitTransferAction KT TxID a t = (Ok u, t') ->
  exists l, action_log TxID (counter t) (ATransfer a) = Ok l /\
    effect_c t l (u64 (counter t + Z.of_nat (action_outputs (ATransfer a)))) t'.
Proof.
  unfold commitTransferAction. intros Hs (t0 & t0' & [= <- <-] & H)%M_bind_Ok.
  apply M_bind_Ok in H as ([] & t2 & H1 & H).
  eapply (rangeM_effect _ _ (transfer_output_log TxID a (counter t))) in H1 as (o & Hol & E1).
  2:{ intros i0 i t1 t1' u1. unfold storeTransferOutput, transfer_output_log.
      destruct (IsRedeemAt a i); cbn [negb]; intros; res_inv; [eauto using effect_refl|].
      match goal with H : ?r = Ok _ |- context [?r] => rewrite H; cbn [mbind res_mbind] end.
      by eapply storeOutput_effect. }
  eapply (commit_tail _ _ _ ETransferMetadata) in H as (i & e & Hi & He & Eff); [|done..].
  exists (o ++ i ++ e). unfold action_log, outputs_log, action_outputs. cbn [action_inputs_log action_metadata_log].
  rewrite Hol. cbn [mbind res_mbind]. by rewrite Hi, He.
Qed.

Lemma commitSetup_effect r (t t' : TS) u : commitSetupAction KT r t = (Ok u, t') ->
  exists l, action_log TxID (counter t) (ASetup r) = Ok l /\ effect KT t l t'.
Proof.
  unfold commitSetupAction. intros (raw & t0 & [-> ->]%lift_Ok & H)%M_bind_Ok.
  apply M_bind_Ok in H as (k & t0 & [Hk ->]%lift_Ok & H). apply M_bind_Ok in H as ([] & t1 & H1 & H).
  apply M_bind_Ok in H as (kh & t0 & [Hkh ->]%lift_Ok & H2).
  apply (rws_SetState KT t ESetup) in H1; [|done]. apply (rws_SetState KT t1 ESetupHash) in H2; [|done].
  eexists; split; [done|]. by eapply (effect_trans _ _ [_] _ [_]).
Qed.

(** What an accepted action has been checked for. *)
Definition inputs_checked (st : bytes -> bytes) (ws : list write) (a : ActionWithInputs) : Prop :=
  exists sis, GetSerializedInputs a = Ok sis /\ length sis = length (GetInputs a) /\
    (forall sn, sn ∈ GetSerialNumbers a -> readable st ws sn []) /\
    forall i input, GetInputs a !! i = Some input -> input_present st ws sis i input.

Definition action_checked (st : bytes -> bytes) (ws : list write) (a : action) : Prop :=
  match a with
  | AIssue a => inputs_checked st ws (issue_inputs a)
  | ATransfer a => inputs_checked st ws (transfer_inputs a)
  | ASetup _ => True
  | AOther => False
  end.

Lemma Write_effect a (t t' : TS) u : 0 <= counter t < two64 -> Write KT TxID a t = (Ok u, t') ->
  action_checked (store (t_RWSet t)) (pending (t_RWSet t)) a /\
  exists l, action_log TxID (counter t) a = Ok l /\
    effect_c t l (u64 (counter t + Z.of_nat (action_outputs a))) t'.
Proof.
  intros Hc. unfold Write. intros ([] & t1 & H1 & H2)%M_bind_Ok.
  assert (Hcomb : forall l c, effect KT t [] t1 -> effect_c t1 l c t' -> effect_c t l c t').
  { unfold effect_c. intros l c E1 [E2 ->]. split; [|done].
    assert (counter t1 = counter t) as Hct by apply E1. rewrite Hct in E2.
    by pose proof (effect_trans _ _ _ _ _ _ E1 E2). }
  destruct a as [a|a|r|]; cbn [checkAction commitAction] in H1, H2.
  - apply checkInputs_spec in H1 as (E1 & sis & Hs & Hrest). split; [by exists sis|].
    assert (counter t1 = counter t) as Hct by apply E1.
    eapply commitIssue_effect in H2 as (l & Hl & E2); [|done]. rewrite Hct in Hl, E2. eauto.
  - apply checkInputs_spec in H1 as (E1 & sis & Hs & Hrest). split; [by exists sis|].
    assert (counter t1 = counter t) as Hct by apply E1.
    eapply commitTransfer_effect in H2 as (l & Hl & E2); [|done]. rewrite Hct in Hl, E2. eauto.
  - res_inv. split; [done|]. apply commitSetup_effect in H2 as (l & Hl & E). exists l. split; [done|].
    assert (counter t' = counter t) as Hc' by apply E.
    split; [destruct t'; cbn in *; by subst|]. cbn. rewrite Z.add_0_r. unfold u64. by rewrite Z.mod_small.
  - res_inv.
Qed.
End ActionEffects.

(** ** Lemmas: whole requests *)

Section Requests.
Context {S : Type} `{HR : !ExRWSet S} `{HL : !ExRWSetLaws S} (KT : KeyTranslator) (TxID : bytes).
Abbreviation TS := (TranslatorState S).

(** Every action was checked against the committed state and the writes of
    the actions before it. *)
Fixpoint request_checked (st : bytes -> bytes) (ws : list write) (base : Z) (actions : list action) : Prop :=
  match actions with
  | [] => True
  | a :: l =>
      action_checked KT st ws a /\
      exists e w, action_log TxID base a = Ok e /\ log_writes KT e = Ok w /\
        request_checked st (ws ++ w) (u64 (base + Z.of_nat (action_outputs a))) l
  end.

Lemma u64_range z : 0 <= u64 z < two64.
Proof. apply Z.mod_pos_bound. done. Qed.

Lemma effect_c_trans t1 l1 c1 t2 l2 c2 t3 :
  effect_c KT t1 l1 c1 t2 -> effect_c KT t2 l2 c2 t3 -> effect_c KT t1 (l1 ++ l2) c2 t3.
Proof.
  intros [E1 Hc1] [E2 Hc2]. split; [|done].
  destruct E1 as (Es & (w1 & Hw1 & Ep) & (s1 & Hs1 & El) & _ & En).
  destruct E2 as (Es' & (w2 & Hw2 & Ep') & (s2 & Hs2 & El') & _ & En'). cbn in *.
  split_and!; [cbn; congruence|exists (w1 ++ w2)|exists (s1 ++ s2)|done|auto];
    (split; [by apply concatM_app|cbn; rewrite app_assoc; congruence]).
Qed.

Lemma Writes_effect actions : forall i (t t' : TS) u, 0 <= counter t < two64 ->
  rangeM (fun _ => Write KT TxID) i actions t = (Ok u, t') ->
  request_checked (store (t_RWSet t)) (pending (t_RWSet t)) (counter t) actions /\
  exists l, request_log TxID (counter t) actions = Ok l /\ effect_c KT t l (counter t') t'.
Proof.
  induction actions as [|a l IH]; intros i t t' u Hc; cbn [rangeM request_checked request_log].
  - intros [-> ->]%M_ret_Ok. split; [done|]. exists []. split; [done|].
    split; [destruct t; apply effect_refl|done].
  - intros ([] & t1 & (Hchk & e & He & E1)%Write_effect & H2)%M_bind_Ok; [|done].
    assert (Hc1 : counter t1 = u64 (counter t + Z.of_nat (action_outputs a))) by apply E1.
    apply IH in H2 as (Hchk2 & r & Hr & E2); [|rewrite Hc1; apply u64_range].
    rewrite He. cbn [mbind res_mbind]. rewrite <- Hc1, Hr. cbn [mbind res_mbind].
    pose proof (proj1 E1) as (Es & (w & Hw & Ep) & _). cbn in Es, Ep.
    split; [|exists (e ++ r); split; [done|by eapply effect_c_trans]].
    split; [done|]. exists e, w. rewrite Es, Ep in Hchk2. done.
Qed.

Lemma WriteRequest_effect actions raw s (t' : TS) u :
  WriteRequest KT TxID actions raw (New s) = (Ok u, t') ->
  exists l ws sp kr kh v,
    request_log TxID 0 actions = Ok l /\ log_writes KT l = Ok ws /\ log_spent KT l = Ok sp /\
    CreateTokenRequestKey KT TxID = Ok kr /\ CreateSetupHashKey KT = Ok kh /\
    store (t_RWSet t') = store s /\
    pending (t_RWSet t') = pending s ++ ws ++ [(kr, Some (sha256 raw))] /\
    SpentIDs t' = sp /\ NoDup sp /\
    request_checked (store s) (pending s) 0 actions /\
    readable (store s) (pending s ++ ws) kr [] /\
    v <> [] /\ readable (store s) (pending s ++ ws) kh v.
Proof.
  unfold WriteRequest. intros ([] & t1 & (Hchk & l & Hl & E1)%Writes_effect & H)%M_bind_Ok; [|done].
  apply M_bind_Ok in H as ([] & t2 & H2 & H). unfold AddPublicParamsDependency in H2.
  apply M_bind_Ok in H2 as (kh & t0 & [Hkh ->]%wrapM_Ok%lift_Ok & H2).
  apply wrapM_Ok, (rws_StateMustExist KT) in H2 as [E2 (v & Hv & Rv)].
  apply M_bind_Ok in H as (h & t3 & H3 & [_ ->]%M_ret_Ok). unfold CommitTokenRequest in H3.
  apply M_bind_Ok in H3 as (kr & t0 & [Hkr ->]%replace_errM_Ok%lift_Ok & H3).
  apply M_bind_Ok in H3 as ([] & t4 & [E3 Rr]%wrapM_Ok%(rws_StateMustNotExist KT) & H3).
  apply M_bind_Ok in H3 as ([] & t5 & H5%wrapM_Ok & [_ ->]%M_ret_Ok).
  apply (rws_SetState KT t4 (ETokenRequest TxID)) in H5; [|done].
  destruct E1 as [(Es & (ws & Hws & Ep) & (sp & Hsp & El) & _ & Hnd) _]. cbn in Es, Ep, El, Hnd.
  destruct (effect_nil_view _ _ _ E2) as [V1 V2], (effect_nil_view _ _ _ E3) as [V3 V4].
  destruct E2 as (_ & _ & (? & [= <-] & L2) & _), E3 as (_ & _ & (? & [= <-] & L3) & _).
  destruct H5 as (V5 & (ws5 & Hws5 & V6) & (sp5 & [= <-] & L5) & _).
  cbn in Hws5. rewrite Hkr in Hws5. cbn in Hws5. injection Hws5 as <-.
  rewrite app_nil_r in L2, L3, L5. rewrite V1, V2 in *. rewrite Es, Ep in *.
  exists l, ws, sp, kr, kh, v. split_and!; try done; try congruence.
  - rewrite V6, V4, <- app_assoc. done.
  - rewrite <- El. apply Hnd. by apply NoDup_nil_2.
Qed.
End Requests.
