(* ===== verification/Ledger.v ===== *)
(** * The ledger of unspent outputs

    What the writes of the translator (Translator.v) mean for the tokens on
    the ledger: an abstract ledger maps token ids to serialized outputs, an
    accepted request removes the inputs of its actions and adds their outputs,
    and the store under the composite keys of Keys.v simulates it. *)

From S2P Require Import Prelude GoStd TokenTypes Keys Rwset Translator.
From Stdlib Require Import ZArith Lia.
Local Open Scope Z_scope.

(** ** The inputs and outputs of a request *)

Definition action_ins (a : action) : list (option ID) :=
  match a with
  | AIssue a => GetInputs (issue_inputs a)
  | ATransfer a => GetInputs (transfer_inputs a)
  | _ => []
  end.

Definition request_inputs (actions : list action) : list ID :=
  omap id (concat (action_ins <$> actions)).

Fixpoint transfer_outs (TxID : bytes) (a : TransferAction) (base : Z) (idx : list nat) : res (list (ID * bytes)) :=
  match idx with
  | [] => Ok []
  | i :: idx =>
      if IsRedeemAt a i then transfer_outs TxID a base idx
      else o ← SerializeOutputAt a i;
           r ← transfer_outs TxID a base idx;
           Ok ((mkID TxID (u64 (base + Z.of_nat i)), o) :: r)
  end.

Definition action_outs (TxID : bytes) (base : Z) (a : action) : res (list (ID * bytes)) :=
  match a with
  | AIssue a =>
      outputs ← issue_GetSerializedOutputs a;
      Ok (imap (fun i o => (mkID TxID (u64 (base + Z.of_nat i)), o)) outputs)
  | ATransfer a => transfer_outs TxID a base (seq 0 (NumOutputs a))
  | _ => Ok []
  end.

Fixpoint request_outputs (TxID : bytes) (base : Z) (actions : list action) : res (list (ID * bytes)) :=
  match actions with
  | [] => Ok []
  | a :: l =>
      o ← action_outs TxID base a;
      r ← request_outputs TxID (u64 (base + Z.of_nat (action_outputs a))) l;
      Ok (o ++ r)
  end.

(** The number of output indices a request takes. *)
Definition request_size (actions : list action) : Z :=
  foldr (fun a n => Z.of_nat (action_outputs a) + n) 0 actions.

(** ** The abstract ledger *)

Definition utxo : Type := ID -> bytes.

Definition utxo_set (u : utxo) (id : ID) (v : bytes) : utxo := fun id' => if decide (id' = id) then v else u id'.

Definition apply_event (u : utxo) (e : event) : utxo :=
  match e with
  | EvWrite (EOutput id index) v => utxo_set u (mkID id index) (default [] v)
  | _ => u
  end.

(** The ids a list of events writes, and those it spends. *)
Definition touched (l : list event) : list ID :=
  omap (fun e => match e with EvWrite (EOutput id i) _ => Some (mkID id i) | _ => None end) l.
Definition spent (l : list event) : list ID :=
  omap (fun e => match e with EvSpendOutput id => Some id | _ => None end) l.

(** ** Lemmas: the abstract ledger *)

Lemma apply_untouched l : forall u id, id ∉ touched l -> foldl apply_event u l id = u id.
Proof.
  induction l as [|e l IH]; intros u id H; [done|]. cbn [foldl].
  rewrite IH.
  - destruct e as [[] v| |]; try done. cbn. unfold utxo_set. rewrite decide_False; [done|].
    intros ->. apply H. by left.
  - intros Hin. apply H. unfold touched. cbn. destruct e as [[] v| |]; try done. by right.
Qed.

Lemma apply_written l : forall u id v0,
  (forall v, EvWrite (EOutput (TxId id) (Index id)) v ∈ l -> v = v0) ->
  EvWrite (EOutput (TxId id) (Index id)) v0 ∈ l -> foldl apply_event u l id = default [] v0.
Proof.
  induction l as [|e l IH]; intros u id v0 Hall Hin; [by apply elem_of_nil in Hin|]. cbn [foldl].
  destruct (decide (id ∈ touched l)) as [Ht|Ht].
  - apply list_elem_of_omap in Ht as (e' & Hin' & He').
    destruct e' as [[] v| |]; try done. injection He' as <-. cbn in *.
    rewrite (Hall v) in Hin' by (by right). apply IH; [|done]. intros v' Hv'. apply Hall. by right.
  - rewrite apply_untouched by done. apply elem_of_cons in Hin as [<-|Hin].
    + cbn. unfold utxo_set. rewrite decide_True by (by destruct id). done.
    + exfalso. apply Ht. apply list_elem_of_omap. eexists; split; [exact Hin|]. by destruct id.
Qed.

Lemma foldl_event_ext l : forall u u' id, u id = u' id -> foldl apply_event u l id = foldl apply_event u' l id.
Proof.
  induction l as [|e l IH]; intros u u' id H; [done|]. cbn [foldl]. apply IH.
  destruct e as [[] v| |]; try done. cbn. unfold utxo_set. by case_decide.
Qed.

Lemma NoDup_fst_inj {A B} (l : list (A * B)) a b b' : NoDup l.*1 -> (a, b) ∈ l -> (a, b') ∈ l -> b' = b.
Proof.
  intros Hnd [i Hi]%list_elem_of_lookup [j Hj]%list_elem_of_lookup.
  assert (i = j) as ->; [|congruence].
  eapply NoDup_lookup; [exact Hnd|..]; rewrite list_lookup_fmap; [by rewrite Hi|by rewrite Hj].
Qed.

(** ** Lemmas: the events of a request *)

Lemma rangeLog_elem {A} (g : nat -> A -> res (list event)) l : forall i e ev,
  rangeLog g i l = Ok e ->
  ev ∈ e <-> exists j x es, l !! j = Some x /\ g (i + j)%nat x = Ok es /\ ev ∈ es.
Proof.
  induction l as [|x l IH]; intros i e ev; cbn [rangeLog].
  - intros [= <-]. split; [by intros ?%elem_of_nil|]. by intros (j & x & es & H & _).
  - intros (e1 & H1 & (r & Hr & [= <-])%res_bind_Ok)%res_bind_Ok. rewrite elem_of_app, (IH _ _ _ Hr). split.
    + intros [Hin|(j & y & es & Hj & Hg & Hin)].
      * exists 0%nat, x, e1. by rewrite Nat.add_0_r.
      * exists (S j), y, es. by rewrite <- Nat.add_succ_comm.
    + intros ([|j] & y & es & Hj & Hg & Hin); cbn in Hj; simplify_eq.
      * rewrite Nat.add_0_r in Hg. assert (es = e1) as -> by congruence. by left.
      * right. exists j, y, es. by rewrite Nat.add_succ_comm.
Qed.

Lemma rangeLog_lookup {A} (g : nat -> A -> res (list event)) l : forall i e j x,
  rangeLog g i l = Ok e -> l !! j = Some x -> exists es, g (i + j)%nat x = Ok es.
Proof.
  induction l as [|y l IH]; intros i e j x; cbn [rangeLog]; [done|].
  intros (e1 & H1 & (r & Hr & _)%res_bind_Ok)%res_bind_Ok Hj. destruct j as [|j]; cbn in Hj; simplify_eq.
  - exists e1. by rewrite Nat.add_0_r.
  - rewrite <- Nat.add_succ_comm. eauto.
Qed.

Lemma metadata_no_output ent m e t i v : (forall key, ent key <> EOutput t i) ->
  metadata_log ent m = Ok e -> EvWrite (EOutput t i) v ∉ e.
Proof.
  intros Hent H Hin. apply (rangeLog_elem _ _ _ _ _ H) in Hin as (j & [key value] & es & _ & [= <-] & Hin).
  apply list_elem_of_singleton in Hin as [= Heq _]. by apply (Hent key).
Qed.

Lemma inputs_log_output a e t i v : inputs_log a = Ok e ->
  EvWrite (EOutput t i) v ∈ e <-> v = None /\ Some (mkID t i) ∈ GetInputs a.
Proof.
  unfold inputs_log. intros (sis & Hs & (l & Hl & (l' & Hl' & [= <-])%res_bind_Ok)%res_bind_Ok)%res_bind_Ok.
  rewrite elem_of_app, (rangeLog_elem _ _ _ _ _ Hl). split.
  - intros [(j & x & es & Hj & Hg & Hin)|Hin].
    + unfold input_log in Hg. destruct x as [inp|]; [|done]. cbn in Hg.
      destruct (index_or_panic sis j); cbn in Hg; simplify_eq. destruct inp as [t' i']. cbn in *.
      rewrite !elem_of_cons, elem_of_nil in Hin.
      destruct Hin as [[=]|[[=]|[[=]|[]]]]; subst. split; [done|]. by eapply list_elem_of_lookup_2.
    + apply (rangeLog_elem _ _ _ _ _ Hl') in Hin as (j & x & es & _ & [= <-] & Hin).
      rewrite !elem_of_cons, elem_of_nil in Hin. by destruct Hin as [?|[?|[]]].
  - intros [-> Hin]. left. apply list_elem_of_lookup in Hin as [j Hj]. exists j, (Some (mkID t i)).
    destruct (rangeLog_lookup _ _ _ _ _ _ Hl Hj) as [es Hes]. exists es. split_and!; [done..|].
    unfold input_log in Hes. cbn in Hes. destruct (index_or_panic sis j); cbn in Hes; simplify_eq.
    right. left.
Qed.

Lemma output_log_output TxID gnh index o e t i v : output_log TxID gnh index o = Ok e ->
  EvWrite (EOutput t i) v ∈ e <-> t = TxID /\ i = index /\ v = Some o.
Proof.
  unfold output_log. destruct gnh; intros [= <-]; rewrite !elem_of_cons, elem_of_nil; naive_solver.
Qed.

Lemma transfer_outs_elem TxID a base l : forall k e outs t i v,
  rangeLog (transfer_output_log TxID a base) k l = Ok e -> transfer_outs TxID a base l = Ok outs ->
  EvWrite (EOutput t i) v ∈ e <-> exists o, v = Some o /\ (mkID t i, o) ∈ outs.
Proof.
  induction l as [|x l IH]; intros k e outs t i v; cbn [rangeLog transfer_outs].
  - intros [= <-] [= <-]. setoid_rewrite elem_of_nil. naive_solver.
  - intros (e1 & H1 & (r & Hr & [= <-])%res_bind_Ok)%res_bind_Ok Ho. unfold transfer_output_log in H1.
    destruct (IsRedeemAt a x).
    + injection H1 as <-. by apply (IH _ _ _ _ _ _ Hr).
    + apply res_bind_Ok in H1 as (o & Hso & H1). rewrite Hso in Ho. cbn [mbind res_mbind] in Ho.
      apply res_bind_Ok in Ho as (outs' & Houts & [= <-]).
      rewrite elem_of_app, (output_log_output _ _ _ _ _ _ _ _ H1), (IH _ _ _ _ _ _ Hr Houts).
      setoid_rewrite elem_of_cons. split.
      * intros [(-> & -> & ->)|(o' & -> & ?)]; eauto.
      * intros (o' & -> & [[= -> -> ->]|?]); eauto.
Qed.

Lemma outputs_log_output TxID base a e outs t i v :
  outputs_log TxID base a = Ok e -> action_outs TxID base a = Ok outs ->
  EvWrite (EOutput t i) v ∈ e <-> exists o, v = Some o /\ (mkID t i, o) ∈ outs.
Proof.
  destruct a as [a|a|r|]; cbn [outputs_log action_outs].
  - intros (os & Hos & H)%res_bind_Ok. rewrite Hos. cbn [mbind res_mbind]. intros [= <-].
    rewrite (rangeLog_elem _ _ _ _ _ H). split.
    + intros (j & o & es & Hj & Hes & (-> & -> & ->)%(output_log_output _ _ _ _ _ _ _ _ Hes)).
      exists o. split; [done|]. apply list_elem_of_lookup. exists j. by rewrite list_lookup_imap, Hj.
    + intros (o & -> & (j & Hj)%list_elem_of_lookup). rewrite list_lookup_imap in Hj.
      destruct (os !! j) as [o'|] eqn:Hoj; [|done]. cbn in Hj. injection Hj as <- <- <-.
      destruct (rangeLog_lookup _ _ _ _ _ _ H Hoj) as [es Hes]. exists j, o', es. split_and!; [done..|].
      by apply (output_log_output _ _ _ _ _ _ _ _ Hes).
  - apply transfer_outs_elem.
  - intros (raw & -> & [= <-])%res_bind_Ok [= <-]. rewrite !elem_of_cons. setoid_rewrite elem_of_nil. naive_solver.
  - intros [= <-] [= <-]. setoid_rewrite elem_of_nil. naive_solver.
Qed.

Lemma action_log_output TxID base a e outs t i v :
  action_log TxID base a = Ok e -> action_outs TxID base a = Ok outs ->
  EvWrite (EOutput t i) v ∈ e <->
  (exists o, v = Some o /\ (mkID t i, o) ∈ outs) \/ (v = None /\ Some (mkID t i) ∈ action_ins a).
Proof.
  unfold action_log. intros (lo & Ho & (li & Hi & (lm & Hm & [= <-])%res_bind_Ok)%res_bind_Ok)%res_bind_Ok Houts.
  rewrite !elem_of_app, (outputs_log_output _ _ _ _ _ _ _ _ Ho Houts).
  assert (Hmeta : EvWrite (EOutput t i) v ∉ lm).
  { destruct a as [a|a|r|]; cbn in Hm; [by refine (metadata_no_output _ _ _ _ _ _ _ Hm)..| |];
      injection Hm as <-; apply not_elem_of_nil. }
  assert (Hin : EvWrite (EOutput t i) v ∈ li <-> v = None /\ Some (mkID t i) ∈ action_ins a).
  { destruct a as [a|a|r|]; cbn in Hi |- *; [by apply inputs_log_output|by apply inputs_log_output|..];
      injection Hi as <-; rewrite !elem_of_nil; naive_solver. }
  rewrite Hin. naive_solver.
Qed.

Lemma action_outs_Ok TxID base a e : action_log TxID base a = Ok e -> exists outs, action_outs TxID base a = Ok outs.
Proof.
  unfold action_log. intros (lo & Ho & _)%res_bind_Ok. destruct a as [a|a|r|]; cbn in *.
  - apply res_bind_Ok in Ho as (os & -> & _). cbn. eauto.
  - revert Ho. generalize (seq 0 (NumOutputs a)) as l. generalize 0%nat as k. intros k l. revert k lo.
    induction l as [|x l IH]; intros k lo; cbn [rangeLog transfer_outs]; [eauto|].
    intros (e1 & H1 & (r & [outs Hr]%IH & _)%res_bind_Ok)%res_bind_Ok. unfold transfer_output_log in H1.
    destruct (IsRedeemAt a x); [eauto|]. apply res_bind_Ok in H1 as (o & -> & _). cbn. rewrite Hr. cbn. eauto.
  - eauto.
  - eauto.
Qed.

Lemma request_log_output TxID actions : forall base e,
  request_log TxID base actions = Ok e -> exists outs, request_outputs TxID base actions = Ok outs /\
  forall t i v, EvWrite (EOutput t i) v ∈ e <->
    (exists o, v = Some o /\ (mkID t i, o) ∈ outs) \/ (v = None /\ mkID t i ∈ request_inputs actions).
Proof.
  induction actions as [|a l IH]; intros base e; cbn [request_log request_outputs].
  - intros [= <-]. exists []. split; [done|]. intros. unfold request_inputs. cbn.
    setoid_rewrite elem_of_nil. naive_solver.
  - intros (e1 & H1 & (r & Hr & [= <-])%res_bind_Ok)%res_bind_Ok.
    destruct (action_outs_Ok _ _ _ _ H1) as [o1 Ho1], (IH _ _ Hr) as (o2 & Ho2 & Hiff).
    exists (o1 ++ o2). rewrite Ho1. cbn [mbind res_mbind]. rewrite Ho2. split; [done|].
    intros t i v. rewrite elem_of_app, (action_log_output _ _ _ _ _ _ _ _ H1 Ho1), Hiff.
    unfold request_inputs. cbn [fmap list_fmap concat]. rewrite omap_app, elem_of_app.
    setoid_rewrite elem_of_app. split.
    + intros [[(o & -> & ?)|[-> ?]]|[(o & -> & ?)|[-> ?]]]; [eauto 10| |eauto 10|eauto 10].
      right. split; [done|]. left. apply list_elem_of_omap. by exists (Some (mkID t i)).
    + intros [(o & -> & [?|?])|(-> & [(x & Hx & Hid)%list_elem_of_omap|?])]; [eauto 10..| |by right; right].
      left. right. split; [done|]. cbn in Hid. by subst x.
Qed.

(** The ids of the outputs are consecutive indices of the transaction, with
    the redeemed ones left out. *)
Definition out_id (TxID : bytes) (base : Z) (j : Z) : ID := mkID TxID (u64 (base + j)).

Definition out_ids (TxID : bytes) (base n : Z) (ids : list ID) : Prop :=
  exists js, ids = out_id TxID base <$> js /\ NoDup js /\ Forall (fun j => 0 <= j < n) js.

Lemma transfer_outs_ids TxID a base n : forall m outs, transfer_outs TxID a base (seq m n) = Ok outs ->
  exists js, outs.*1 = out_id TxID base <$> js /\ NoDup js /\ Forall (fun j => Z.of_nat m <= j < Z.of_nat (m + n)) js.
Proof.
  induction n as [|n IH]; intros m outs; cbn [seq transfer_outs].
  - intros [= <-]. exists []. split_and!; [done|by apply NoDup_nil_2|constructor].
  - destruct (IsRedeemAt a m).
    + intros (js & -> & Hnd & Hf)%IH. exists js. split_and!; [done..|].
      eapply Forall_impl; [exact Hf|]. cbn. lia.
    + intros (o & _ & (r & (js & Hjs & Hnd & Hf)%IH & [= <-])%res_bind_Ok)%res_bind_Ok.
      exists (Z.of_nat m :: js). cbn. rewrite Hjs. split_and!; [done| |].
      * apply NoDup_cons. split; [|done]. intros Hin.
        eapply (proj1 (Forall_forall _ _)) in Hf; [|exact Hin]. cbn in Hf. lia.
      * constructor; [lia|]. eapply Forall_impl; [exact Hf|]. cbn. lia.
Qed.

Lemma action_outs_ids TxID base a outs : action_outs TxID base a = Ok outs ->
  out_ids TxID base (Z.of_nat (action_outputs a)) outs.*1.
Proof.
  unfold out_ids. destruct a as [a|a|r|]; cbn [action_outs action_outputs].
  - intros (os & -> & [= <-])%res_bind_Ok. exists (Z.of_nat <$> seq 0 (length os)). split_and!.
    + apply list_eq. intros k. rewrite !list_lookup_fmap, list_lookup_imap.
      destruct (os !! k) as [o|] eqn:E.
      * rewrite lookup_seq_lt by (by eapply lookup_lt_Some). done.
      * rewrite lookup_seq_ge by (by apply lookup_ge_None). done.
    + apply NoDup_fmap_2; [apply _|apply NoDup_seq].
    + apply Forall_fmap, Forall_forall. intros x Hx%elem_of_seq. cbn. lia.
  - intros (js & ? & ? & Hf)%transfer_outs_ids. exists js. split_and!; done.
  - intros [= <-]. exists []. split_and!; [done|by apply NoDup_nil_2|constructor].
  - intros [= <-]. exists []. split_and!; [done|by apply NoDup_nil_2|constructor].
Qed.

Lemma out_ids_app TxID base n m ids ids' : 0 <= n -> 0 <= m -> out_ids TxID base n ids ->
  out_ids TxID (u64 (base + n)) m ids' -> out_ids TxID base (n + m) (ids ++ ids').
Proof.
  intros Hn Hm (js & -> & Hnd & Hf) (js' & -> & Hnd' & Hf').
  exists (js ++ (Z.add n <$> js')). split_and!.
  - rewrite fmap_app. f_equal. rewrite <- list_fmap_compose. apply list_fmap_ext. intros i j _. cbn.
    unfold out_id, u64. f_equal. rewrite Zplus_mod_idemp_l. f_equal. lia.
  - apply NoDup_app. split_and!; [done| |apply NoDup_fmap_2; [|done]; intros x y; lia].
    intros j Hj (j' & -> & Hj')%list_elem_of_fmap.
    eapply (proj1 (Forall_forall _ _)) in Hf, Hf'; [|done..]. cbn in *. lia.
  - apply Forall_app. split; [eapply Forall_impl; [exact Hf|cbn; lia]|].
    apply Forall_fmap. eapply Forall_impl; [exact Hf'|cbn; lia].
Qed.

Lemma request_size_nonneg actions : 0 <= request_size actions.
Proof. induction actions as [|a l IH]; [done|]. cbn. unfold request_size in IH. lia. Qed.

Lemma request_outputs_ids TxID actions : forall base outs, request_outputs TxID base actions = Ok outs ->
  out_ids TxID base (request_size actions) outs.*1.
Proof.
  induction actions as [|a l IH]; intros base outs; cbn [request_outputs request_size foldr].
  - intros [= <-]. exists []. split_and!; [done|by apply NoDup_nil_2|constructor].
  - intros (o & Ho%action_outs_ids & (r & Hr%IH & [= <-])%res_bind_Ok)%res_bind_Ok.
    rewrite fmap_app. apply out_ids_app; [lia|apply request_size_nonneg|done|done].
Qed.

Lemma out_ids_NoDup TxID n ids : n <= two64 -> out_ids TxID 0 n ids ->
  NoDup ids /\ Forall (fun id => TxId id = TxID /\ 0 <= Index id < two64) ids.
Proof.
  intros Hn (js & -> & Hnd & Hf). split.
  - apply NoDup_fmap_2_strong; [|done]. intros x y Hx Hy. unfold out_id, u64. intros [= H].
    eapply (proj1 (Forall_forall _ _)) in Hf as Hfx; [|exact Hx].
    eapply (proj1 (Forall_forall _ _)) in Hf as Hfy; [|exact Hy]. cbn in *.
    rewrite !Z.mod_small in H by lia. done.
  - apply Forall_fmap, Forall_forall. intros j _. cbn. split; [done|]. apply u64_range.
Qed.

(** ** Simulation by the store under composite keys *)

Section Simulation.
Context (w : option error).
Abbreviation KT := (keys_Translator w).

Definition id_ok (id : ID) : Prop := entry_ok (EOutput (TxId id) (Index id)).

Definition simulates (st : bytes -> bytes) (u : utxo) : Prop :=
  forall id k, id_ok id -> CreateOutputKey KT (TxId id) (Index id) = Ok k -> st k = u id.

Definition event_ok (e : event) : Prop :=
  match e with EvWrite e _ => entry_ok e | _ => True end.

Lemma simulates_event st u e ws : event_ok e -> simulates st u ->
  event_write KT e = Ok ws -> simulates (apply_writes st ws) (apply_event u e).
Proof.
  intros He Hsim Hw id k Hid Hk. destruct e as [e v| |]; cbn [event_write] in Hw;
    [|injection Hw as <-; by apply Hsim..].
  apply res_bind_Ok in Hw as (k' & Hk' & [= <-]). unfold apply_writes. cbn [last_write].
  case_decide as Heq.
  - subst k'. destruct (ledger_keys_sep w e (EOutput (TxId id) (Index id)) k) as [->|Hd]; [done..| |].
    + cbn. unfold utxo_set. rewrite decide_True; [done|by destruct id].
    + by destruct e.
  - rewrite (Hsim id k Hid Hk). destruct e; try done. cbn. unfold utxo_set.
    rewrite decide_False; [done|]. intros ->. cbn -[createCompositeKey] in Hk, Hk'. congruence.
Qed.

Lemma simulates_log l : forall st u ws, Forall event_ok l -> simulates st u ->
  log_writes KT l = Ok ws -> simulates (apply_writes st ws) (foldl apply_event u l).
Proof.
  induction l as [|e l IH]; intros st u ws Hok Hsim; unfold log_writes; cbn [concatM foldl].
  - by intros [= <-].
  - apply Forall_cons in Hok as [He Hok].
    intros (h & Hh & (r & Hr & [= <-])%res_bind_Ok)%res_bind_Ok id k Hid Hk.
    rewrite apply_writes_app. eapply IH; [done| |done|done|done]. by eapply simulates_event.
Qed.
End Simulation.

(** ** Lemmas: spent ids *)

Lemma spent_app l l' : spent (l ++ l') = spent l ++ spent l'.
Proof. apply omap_app. Qed.

Lemma rangeLog_spent {A} (g : nat -> A -> res (list event)) (h : A -> list ID) l :
  (forall i x e, g i x = Ok e -> spent e = h x) ->
  forall i e, rangeLog g i l = Ok e -> spent e = concat (h <$> l).
Proof.
  intros Hg. induction l as [|x l IH]; intros i e; cbn [rangeLog]; [by intros [= <-]|].
  intros (e1 & H1%Hg & (r & Hr%IH & [= <-])%res_bind_Ok)%res_bind_Ok.
  rewrite spent_app, H1, Hr. done.
Qed.

Lemma concat_nils {A B} (l : list A) : concat ((fun _ => []) <$> l) = @nil B.
Proof. induction l; done. Qed.

Lemma concat_option (l : list (option ID)) :
  concat ((fun x => match x with Some id => [id] | None => [] end) <$> l) = omap id l.
Proof. induction l as [|[x|] l IH]; cbn; [done|by f_equal|done]. Qed.

Lemma spent_inputs a e : inputs_log a = Ok e -> spent e = omap id (GetInputs a).
Proof.
  unfold inputs_log. intros (sis & _ & (l & Hl & (l' & Hl' & [= <-])%res_bind_Ok)%res_bind_Ok)%res_bind_Ok.
  assert (spent l = omap id (GetInputs a)) as E1.
  { rewrite <- concat_option. eapply rangeLog_spent; [|exact Hl].
    intros i [inp|] e; unfold input_log; cbn; [|done].
    destruct (index_or_panic sis i); cbn; [|done..]. by intros [= <-]. }
  assert (spent l' = []) as E2.
  { rewrite <- (concat_nils (GetSerialNumbers a)). eapply rangeLog_spent; [|exact Hl'].
    unfold sn_log. by intros i x e [= <-]. }
  by rewrite spent_app, E1, E2, app_nil_r.
Qed.

Lemma spent_outputs TxID base a e : outputs_log TxID base a = Ok e -> spent e = [].
Proof.
  assert (Hout : forall gnh i o e, output_log TxID gnh i o = Ok e -> spent e = []).
  { intros gnh i o e'. unfold output_log. destruct gnh; by intros [= <-]. }
  destruct a as [a|a|r|]; cbn [outputs_log].
  - intros (os & _ & H)%res_bind_Ok. rewrite <- (concat_nils os). eapply rangeLog_spent; [|exact H]. intros i o e' He. exact (Hout _ _ _ _ He).
  - intros H. rewrite <- (concat_nils (seq 0 (NumOutputs a))). eapply rangeLog_spent; [|exact H].
    intros i x e'. unfold transfer_output_log. destruct (IsRedeemAt a x); [by intros [= <-]|].
    intros (o & _ & He)%res_bind_Ok. by eapply Hout.
  - by intros (raw & _ & [= <-])%res_bind_Ok.
  - by intros [= <-].
Qed.

Lemma spent_metadata ent m e : metadata_log ent m = Ok e -> spent e = [].
Proof.
  intros H. rewrite <- (concat_nils m). eapply rangeLog_spent; [|exact H].
  by intros i [key value] e' [= <-].
Qed.

Lemma spent_action TxID base a e : action_log TxID base a = Ok e -> spent e = omap id (action_ins a).
Proof.
  unfold action_log. intros (lo & Ho & (li & Hi & (lm & Hm & [= <-])%res_bind_Ok)%res_bind_Ok)%res_bind_Ok.
  rewrite !spent_app, (spent_outputs _ _ _ _ Ho). cbn [app].
  assert (spent lm = []) as ->.
  { destruct a; cbn in Hm; [by eapply spent_metadata..| |]; by injection Hm as <-. }
  rewrite app_nil_r. destruct a; cbn in Hi |- *; [by apply spent_inputs..| |]; by injection Hi as <-.
Qed.

Lemma spent_request TxID actions : forall base e, request_log TxID base actions = Ok e ->
  spent e = request_inputs actions.
Proof.
  induction actions as [|a l IH]; intros base e; cbn [request_log]; [by intros [= <-]|].
  intros (e1 & H1%spent_action & (r & Hr%IH & [= <-])%res_bind_Ok)%res_bind_Ok.
  rewrite spent_app, H1, Hr. unfold request_inputs. cbn [fmap list_fmap concat]. by rewrite omap_app.
Qed.

(** A spent output adds its key to the spent ids, so distinct spent ids mean
    distinct outputs. *)
Lemma spent_key KT l sp id k : log_spent KT l = Ok sp -> id ∈ spent l ->
  CreateOutputKey KT (TxId id) (Index id) = Ok k -> k ∈ sp.
Proof.
  revert sp; induction l as [|e l IH]; intros sp; unfold log_spent; cbn [concatM].
  - by intros _ ?%elem_of_nil.
  - intros (h & Hh & (r & Hr & [= <-])%res_bind_Ok)%res_bind_Ok Hin Hk. rewrite elem_of_app.
    change (e :: l) with ([e] ++ l) in Hin. rewrite spent_app, elem_of_app in Hin.
    destruct Hin as [Hin|Hin]; [left|right; by eapply IH].
    destruct e as [e v|inp|sn]; cbn in Hin; [by apply elem_of_nil in Hin| |by apply elem_of_nil in Hin].
    apply list_elem_of_singleton in Hin as <-. cbn in Hh. rewrite Hk in Hh. injection Hh as <-. by left.
Qed.

Lemma spent_NoDup KT l : forall sp, log_spent KT l = Ok sp -> NoDup sp -> NoDup (spent l).
Proof.
  induction l as [|e l IH]; intros sp; unfold log_spent; cbn [concatM]; [intros; by apply NoDup_nil_2|].
  intros (h & Hh & (r & Hr & [= <-])%res_bind_Ok)%res_bind_Ok (_ & Hdis & Hnd)%NoDup_app.
  change (e :: l) with ([e] ++ l). rewrite spent_app.
  destruct e as [e v|inp|sn]; cbn [spent omap list_omap app]; [by eapply IH| |by eapply IH].
  apply NoDup_cons. split; [|by eapply IH]. intros Hin.
  cbn in Hh. apply res_bind_Ok in Hh as (k & Hk & [= <-]).
  apply (Hdis k); [by left|]. by eapply spent_key.
Qed.

(** ** Lemmas: the entries of a request are well formed *)

Ltac events_ok := repeat first [apply Forall_cons_2 | apply Forall_nil_2]; cbn; tauto.

Lemma rangeLog_ok {A} (g : nat -> A -> res (list event)) l :
  (forall i j x e, l !! j = Some x -> g i x = Ok e -> Forall event_ok e) ->
  forall i e, rangeLog g i l = Ok e -> Forall event_ok e.
Proof.
  intros Hg i e H. apply Forall_forall. intros ev (j & x & es & Hj & Hes & Hin)%(rangeLog_elem _ _ _ _ _ H).
  eapply (proj1 (Forall_forall _ _)); [by eapply Hg|done].
Qed.

Lemma action_log_ok TxID base a e : TxID ∉ reserved_prefixes -> Forall id_ok (omap id (action_ins a)) ->
  action_log TxID base a = Ok e -> Forall event_ok e.
Proof.
  intros Hres Hins. unfold action_log.
  intros (lo & Ho & (li & Hi & (lm & Hm & [= <-])%res_bind_Ok)%res_bind_Ok)%res_bind_Ok.
  assert (Hout : forall gnh j o e, output_log TxID gnh (u64 j) o = Ok e -> Forall event_ok e).
  { intros gnh j o e. unfold output_log. pose proof (u64_range j). destruct gnh; intros [= <-]; events_ok. }
  assert (Hin : forall a, Forall id_ok (omap id (GetInputs a)) -> inputs_log a = Ok li -> Forall event_ok li).
  { intros ai Hall. unfold inputs_log. intros (sis & _ & (l & Hl & (l' & Hl' & [= <-])%res_bind_Ok)%res_bind_Ok)%res_bind_Ok.
    apply Forall_app. split; (eapply rangeLog_ok; [|done]).
    - intros i j [inp|] e Hj; unfold input_log; cbn; [|done]. destruct (index_or_panic sis i); cbn; [|done..].
      intros [= <-]. assert (Hok : id_ok inp).
      { eapply (proj1 (Forall_forall _ _) Hall), list_elem_of_omap. exists (Some inp).
        split; [by eapply list_elem_of_lookup_2|done]. }
      unfold id_ok in Hok. cbn in Hok. events_ok.
    - unfold sn_log. intros i j x e _ [= <-]. events_ok. }
  rewrite !Forall_app. split_and!.
  - destruct a as [a|a|r|]; cbn [outputs_log] in Ho.
    + apply res_bind_Ok in Ho as (os & _ & Ho). eapply rangeLog_ok; [|exact Ho]. intros i j x e _ He. exact (Hout _ _ _ _ He).
    + eapply rangeLog_ok; [|exact Ho]. intros i j x e _. unfold transfer_output_log.
      destruct (IsRedeemAt a x); [by intros [= <-]|]. intros (o & _ & He)%res_bind_Ok. by eapply Hout.
    + apply res_bind_Ok in Ho as (raw & _ & [= <-]). events_ok.
    + by injection Ho as <-.
  - destruct a as [a|a|r|]; cbn in Hi, Hins; [by refine (Hin _ _ Hi)..| |]; by injection Hi as <-.
  - assert (Hmd : forall ent m, (forall key, entry_ok (ent key)) -> metadata_log ent m = Ok lm -> Forall event_ok lm).
    { intros ent m He. apply rangeLog_ok. intros i j [key value] e _ [= <-]. constructor; [apply He|constructor]. }
    destruct a as [a|a|r|]; cbn in Hm; [by refine (Hmd _ _ _ Hm)..| |]; by injection Hm as <-.
Qed.

Lemma request_log_ok TxID actions : TxID ∉ reserved_prefixes -> forall base e,
  Forall id_ok (request_inputs actions) -> request_log TxID base actions = Ok e -> Forall event_ok e.
Proof.
  intros Hres. induction actions as [|a l IH]; intros base e; cbn [request_log]; [by intros _ [= <-]|].
  unfold request_inputs. cbn [fmap list_fmap concat]. rewrite omap_app. intros [H1 H2]%Forall_app.
  intros (e1 & He1 & (r & Hr & [= <-])%res_bind_Ok)%res_bind_Ok. apply Forall_app. split; [by eapply action_log_ok|by eapply IH].
Qed.

(** The log and the request's own entry, seen at one output key. *)
Lemma commit_simulates w st l ws TxID kr x id k : Forall event_ok l ->
  log_writes (keys_Translator w) l = Ok ws -> CreateTokenRequestKey (keys_Translator w) TxID = Ok kr ->
  id_ok id -> CreateOutputKey (keys_Translator w) (TxId id) (Index id) = Ok k ->
  apply_writes st (ws ++ [(kr, Some x)]) k = foldl apply_event (fun _ => st k) l id.
Proof.
  intros Hok Hws Hkr Hid Hk.
  set (u0 := fun id => match CreateOutputKey (keys_Translator w) (TxId id) (Index id) with
                       | Ok k => st k | _ => [] end).
  assert (Heq : simulates w st u0).
  { intros id' k' _ Hk'. unfold u0. by rewrite Hk'. }
  assert (Hall : Forall event_ok (l ++ [EvWrite (ETokenRequest TxID) (Some x)])).
  { apply Forall_app. split; [done|by repeat constructor]. }
  assert (Hlog : log_writes (keys_Translator w) (l ++ [EvWrite (ETokenRequest TxID) (Some x)])
                 = Ok (ws ++ [(kr, Some x)])).
  { apply concatM_app; [done|]. cbn [concatM event_write entry_key]. by rewrite Hkr. }
  rewrite (simulates_log w _ _ _ _ Hall Heq Hlog id k Hid Hk), foldl_app. cbn [foldl apply_event].
  apply foldl_event_ext. unfold u0. by rewrite Hk.
Qed.

(** ** Properties *)

Section Properties.
Context {S : Type} `{HR : !ExRWSet S} `{HL : !ExRWSetLaws S}.

(** An accepted request records exactly the writes of its log.  If the
    translator writes every action of a request, adds the dependency on the
    public parameters and commits the request, then the pending writes are
    those of the specification, in order, followed by the hash of the request
    under its transaction id; the ids recorded as spent are those of the
    specification and pairwise distinct; the public parameters' hash was
    present and the transaction id was not used before. *)
Theorem WriteRequest_refines_log (KT : KeyTranslator) TxID actions raw s (t' : TranslatorState S) u :
  WriteRequest KT TxID actions raw (New s) = (Ok u, t') ->
  exists l ws sp kr kh v,
    request_log TxID 0 actions = Ok l /\ log_writes KT l = Ok ws /\ log_spent KT l = Ok sp /\
    CreateTokenRequestKey KT TxID = Ok kr /\ CreateSetupHashKey KT = Ok kh /\
    store (t_RWSet t') = store s /\
    pending (t_RWSet t') = pending s ++ ws ++ [(kr, Some (sha256 raw))] /\
    SpentIDs t' = sp /\ NoDup sp /\
    request_checked KT TxID (store s) (pending s) 0 actions /\
    readable (store s) (pending s ++ ws) kr [] /\
    v <> [] /\ readable (store s) (pending s ++ ws) kh v.
Proof. apply WriteRequest_effect. Qed.

(** No output is spent twice in a request.  Whatever the key translator
    and the read-write set, if every action of a request is written then the
    inputs of all its actions, taken together, are pairwise distinct. *)
Theorem WriteRequest_no_double_spend (KT : KeyTranslator) TxID actions raw s (t' : TranslatorState S) u :
  WriteRequest KT TxID actions raw (New s) = (Ok u, t') -> NoDup (request_inputs actions).
Proof.
  intros (l & ws & sp & kr & kh & v & Hl & _ & Hsp & _ & _ & _ & _ & _ & Hnd & _)%WriteRequest_effect.
  rewrite <- (spent_request _ _ _ _ Hl). by eapply spent_NoDup.
Qed.

(** C7: the committed request moves the ledger of unspent outputs as it says.
    Under the composite keys, for a transaction id that is fresh (no input
    belongs to it) and not a reserved prefix, committing the recorded writes
    leaves every input's entry empty, stores every output that is not redeemed
    under the next indices of the transaction, and changes no other output. *)
Theorem WriteRequest_utxo w TxID actions raw s (t' : TranslatorState S) u :
  WriteRequest (keys_Translator w) TxID actions raw (New s) = (Ok u, t') ->
  pending s = [] -> TxID ∉ reserved_prefixes -> Forall id_ok (request_inputs actions) ->
  Forall (fun id => TxId id <> TxID) (request_inputs actions) -> request_size actions <= two64 ->
  exists outs, request_outputs TxID 0 actions = Ok outs /\
  forall id k, id_ok id -> CreateOutputKey (keys_Translator w) (TxId id) (Index id) = Ok k ->
    let after := apply_writes (store s) (pending (t_RWSet t')) in
    (id ∈ request_inputs actions -> after k = []) /\
    (forall o, (id, o) ∈ outs -> after k = o) /\
    (id ∉ request_inputs actions -> id ∉ outs.*1 -> after k = store s k).
Proof.
  intros (l & ws & sp & kr & kh & v & Hl & Hws & _ & Hkr & _ & _ & Hp & _)%WriteRequest_effect.
  rewrite Hp. intros -> Hres Hins Hfresh Hsize. cbn [app].
  destruct (request_log_output _ _ _ _ Hl) as (outs & Houts & Hiff). exists outs. split; [done|].
  destruct (out_ids_NoDup _ _ _ Hsize (request_outputs_ids _ _ _ _ Houts)) as [Hnd Hown].
  intros [t i] k Hid Hk. cbn [TxId Index] in Hk.
  assert (Hsim : apply_writes (store s) (ws ++ [(kr, Some (sha256 raw))]) k
                 = foldl apply_event (fun _ => store s k) l (mkID t i)).
  { eapply commit_simulates; [by eapply request_log_ok|done..]. }
  cbv zeta. rewrite Hsim. split_and!.
  - intros Hin. change (@nil byte) with (default [] (@None bytes)).
    apply apply_written; [|apply Hiff; by right]. intros v'. cbn [TxId Index]. intros [(o & -> & Ho)|[-> _]]%Hiff; [|done].
    exfalso. apply (proj1 (Forall_forall _ _) Hfresh _ Hin). cbn.
    apply (proj1 (Forall_forall _ _) Hown (mkID t i)). apply list_elem_of_fmap. by exists (mkID t i, o).
  - intros o Ho. change o with (default [] (Some o)).
    apply apply_written; [|apply Hiff; left; eauto]. intros v'. cbn [TxId Index]. intros [(o' & -> & Ho')|[-> Hin]]%Hiff.
    + f_equal. by eapply NoDup_fst_inj.
    + exfalso. apply (proj1 (Forall_forall _ _) Hfresh _ Hin). cbn.
      apply (proj1 (Forall_forall _ _) Hown (mkID t i)). apply list_elem_of_fmap. by exists (mkID t i, o).
  - intros Hni Hno. rewrite apply_untouched; [done|]. intros (e & He & Ht)%list_elem_of_omap.
    destruct e as [[t2 i2| | | | | | |] v2| |]; try done. injection Ht as -> ->.
    apply Hiff in He as [(o & -> & Ho)|[-> Hin]]; [|done].
    apply Hno, list_elem_of_fmap. by exists (mkID t i, o).
Qed.
End Properties.

(** ** Witnesses: a request on a concrete ledger *)

Lemma run_ok {S A} (r : res A * S) a : fst r = Ok a -> r = (Ok a, snd r).
Proof. destruct r. by intros <-. Qed.

Definition key_of (e : entry) : bytes :=
  match entry_key (keys_Translator None) e with Ok k => k | _ => [] end.

Definition example_stub : stub := mkStub
  (<[key_of (EOutput (str "tx0") 0) := str "coin"]>
   (<[key_of (EOutputSN (str "tx0") 0 (str "coin")) := NotEmpty]>
    (<[key_of (EOutput (str "tx0") 1) := str "other"]>
     (<[key_of ESetupHash := str "hash"]> ∅)))) [].

(** Spends the coin into one output and a redeemed one, after an issue. *)
Definition example_actions : list action :=
  [AIssue (mkIssueAction (mkActionWithInputs [] (Ok []) []) (Ok [str "new"]) [] false);
   ATransfer (mkTransferAction
     (mkActionWithInputs [Some (mkID (str "tx0") 0)] (Ok [str "coin"]) [])
     2 (fun i => (i =? 0)%nat) (fun i => Ok (str "change")) [(str "key", str "value")] false)].

#[local] Instance example_rws : ExRWSet stub := RWSetWrapper [].

Definition example_run : res unit * TranslatorState stub :=
  WriteRequest (keys_Translator None) (str "tx1") example_actions (str "request") (New example_stub).

Lemma example_run_Ok : example_run = (Ok tt, snd example_run).
Proof. apply run_ok. vm_compute. reflexivity. Qed.

Lemma WriteRequest_refines_log_witness :
  exists l ws sp kr kh v,
    request_log (str "tx1") 0 example_actions = Ok l /\ log_writes (keys_Translator None) l = Ok ws /\
    log_spent (keys_Translator None) l = Ok sp /\
    CreateTokenRequestKey (keys_Translator None) (str "tx1") = Ok kr /\ CreateSetupHashKey (keys_Translator None) = Ok kh /\
    store (t_RWSet (snd example_run)) = store example_stub /\
    pending (t_RWSet (snd example_run)) = pending example_stub ++ ws ++ [(kr, Some (sha256 (str "request")))] /\
    SpentIDs (snd example_run) = sp /\ NoDup sp /\
    request_checked (keys_Translator None) (str "tx1") (store example_stub) (pending example_stub) 0 example_actions /\
    readable (store example_stub) (pending example_stub ++ ws) kr [] /\
    v <> [] /\ readable (store example_stub) (pending example_stub ++ ws) kh v.
Proof. apply (WriteRequest_refines_log _ _ _ _ _ _ tt), example_run_Ok. Defined.

Lemma WriteRequest_no_double_spend_witness : NoDup (request_inputs example_actions).
Proof.
  apply (WriteRequest_no_double_spend (keys_Translator None) (str "tx1") example_actions (str "request") example_stub
           (snd example_run) tt), example_run_Ok.
Defined.

Lemma example_ids_ok : Forall id_ok (request_inputs example_actions).
Proof.
  repeat constructor; try discriminate.
  refine (bool_decide_unpack (str "tx0" ∉ reserved_prefixes) _). vm_compute. exact I.
Qed.

Lemma WriteRequest_utxo_witness :
  exists outs, request_outputs (str "tx1") 0 example_actions = Ok outs /\
  forall id k, id_ok id -> CreateOutputKey (keys_Translator None) (TxId id) (Index id) = Ok k ->
    let after := apply_writes (store example_stub) (pending (t_RWSet (snd example_run))) in
    (id ∈ request_inputs example_actions -> after k = []) /\
    (forall o, (id, o) ∈ outs -> after k = o) /\
    (id ∉ request_inputs example_actions -> id ∉ outs.*1 -> after k = store example_stub k).
Proof.
  apply (WriteRequest_utxo None (str "tx1") example_actions (str "request") example_stub (snd example_run) tt).
  - apply example_run_Ok.
  - reflexivity.
  - refine (bool_decide_unpack (str "tx1" ∉ reserved_prefixes) _). vm_compute. exact I.
  - apply example_ids_ok.
  - repeat constructor. discriminate.
  - discriminate.
Defined.
