(* ===== verification/Chain.v ===== *)
(** * The history of the ledger

    Requests committed one after the other through the translator
    (Translator.v, Ledger.v) under the composite keys (Keys.v): the invariant
    of the committed state, and what it means over the whole history for the
    tokens that are spent. *)

From S2P Require Import Prelude GoStd TokenTypes Keys Rwset Translator Ledger.
From Stdlib Require Import ZArith Lia.
Local Open Scope Z_scope.

#[global] Instance entry_eq_dec : EqDecision entry.
Proof. solve_decision. Defined.

(** ** Transactions and chains *)

Record tx := mkTx { tx_id : bytes; tx_actions : list action; tx_raw : bytes }.

(** The committed state: an absent key reads as the empty value. *)
Definition state : Type := bytes -> bytes.

Section Chain.
Context {S : Type} `{HR : !ExRWSet S} `{HL : !ExRWSetLaws S} (w : option error).
Abbreviation KT := (keys_Translator w).

(** [commits st t st']: simulated against [st], the transaction is accepted,
    and its recorded writes lead to [st']. *)
Definition commits (st : state) (t : tx) (st' : state) : Prop :=
  exists (s : S) (t' : TranslatorState S) u, (forall k, store s k = st k) /\ pending s = [] /\
    WriteRequest KT (tx_id t) (tx_actions t) (tx_raw t) (New s) = (Ok u, t') /\
    forall k, st' k = apply_writes st (pending (t_RWSet t')) k.

(** The tokens a history writes or spends: [P id o] for a token [o] at [id].
    Transaction ids are not reserved prefixes, a transaction does not spend
    its own outputs, its outputs fit the 64-bit index. *)
Definition tx_ok (P : ID -> bytes -> Prop) (t : tx) : Prop :=
  tx_id t ∉ reserved_prefixes /\ Forall id_ok (request_inputs (tx_actions t)) /\
  Forall (fun id => TxId id <> tx_id t) (request_inputs (tx_actions t)) /\
  request_size (tx_actions t) <= two64 /\
  forall l id i o v, request_log (tx_id t) 0 (tx_actions t) = Ok l -> EvWrite (EOutputSN id i o) v ∈ l -> P (mkID id i) o.

(** The tokens a request says it spends: each input with its content. *)
Definition inputs_spent (a : ActionWithInputs) : list (ID * bytes) :=
  match GetSerializedInputs a with
  | Ok sis => omap (fun '(input, si) => match input with Some id => Some (id, si) | None => None end) (zip (GetInputs a) sis)
  | _ => []
  end.

Definition action_spends (a : action) : list (ID * bytes) :=
  match a with
  | AIssue a => inputs_spent (issue_inputs a)
  | ATransfer a => inputs_spent (transfer_inputs a)
  | _ => []
  end.

Definition request_spends (actions : list action) : list (ID * bytes) := concat (action_spends <$> actions).

Inductive chain (P : ID -> bytes -> Prop) (st0 : state) : list tx -> state -> Prop :=
| chain_genesis : chain P st0 [] st0
| chain_commit h st t st' : chain P st0 h st -> tx_ok P t -> commits st t st' -> chain P st0 (h ++ [t]) st'.

(** No two of the tokens share a serial-number key. *)
Definition sn_distinct (P : ID -> bytes -> Prop) : Prop :=
  forall id o id' o' k, P id o -> P id' o' ->
    CreateOutputSNKey KT (TxId id) (Index id) o = Ok k -> CreateOutputSNKey KT (TxId id') (Index id') o' = Ok k ->
    id = id' /\ o = o'.

(** No serial number of a token is present. *)
Definition sn_free (P : ID -> bytes -> Prop) (st : state) : Prop :=
  forall id o k, P id o -> CreateOutputSNKey KT (TxId id) (Index id) o = Ok k -> st k = [].

(** The invariant: a serial number that is present stands for the token
    stored under its id, by a transaction that was committed. *)
Definition ledger_inv (P : ID -> bytes -> Prop) (st : state) : Prop :=
  forall id o ks, P id o -> CreateOutputSNKey KT (TxId id) (Index id) o = Ok ks -> st ks <> [] ->
    (forall k, CreateOutputKey KT (TxId id) (Index id) = Ok k -> st k = o) /\
    (forall kr, CreateTokenRequestKey KT (TxId id) = Ok kr -> st kr <> []).
End Chain.

(** ** Lemmas: the last event on an entry *)

Fixpoint last_event (e : entry) (l : list event) : option (option bytes) :=
  match l with
  | [] => None
  | EvWrite e' v :: l =>
      match last_event e l with
      | Some r => Some r
      | None => if decide (e' = e) then Some v else None
      end
  | _ :: l => last_event e l
  end.

Lemma last_event_None e l : last_event e l = None <-> forall v, EvWrite e v ∉ l.
Proof.
  induction l as [|ev l IH]; cbn; [split; [intros _ v; apply not_elem_of_nil|done]|].
  setoid_rewrite not_elem_of_cons. destruct ev as [e' v'| |]; [|naive_solver..].
  destruct (last_event e l); [naive_solver|]. case_decide; naive_solver.
Qed.

Lemma last_event_Some e l v : last_event e l = Some v -> EvWrite e v ∈ l.
Proof.
  induction l as [|ev l IH]; cbn; [done|]. destruct ev as [e' v'| |]; [|by intros; right; auto..].
  destruct (last_event e l); [by intros; right; auto|]. case_decide; [|done]. intros [= <-]. subst. by left.
Qed.

Section Events.
Context (w : option error) (P : ID -> bytes -> Prop).
Abbreviation KT := (keys_Translator w).
Hypothesis P_distinct : sn_distinct w P.

Definition entry_in (e : entry) : Prop :=
  entry_ok e /\ match e with EOutputSN t i o => P (mkID t i) o | _ => True end.

Definition event_in (e : event) : Prop :=
  match e with EvWrite e _ => entry_in e | _ => True end.

Lemma entry_key_inj e e' k : entry_in e -> entry_in e' ->
  entry_key KT e = Ok k -> entry_key KT e' = Ok k -> e = e'.
Proof.
  intros [He HP] [He' HP'] Hk Hk'. destruct (ledger_keys_sep w e e' k He He' Hk Hk') as [|Hd]; [done|].
  destruct e as [|t i o| | | | | |], e' as [|t' i' o'| | | | | |]; try done.
  by destruct (P_distinct (mkID t i) o (mkID t' i') o' k HP HP' Hk Hk') as [[= -> ->] ->].
Qed.

Lemma apply_log e k l : entry_in e -> entry_key KT e = Ok k -> Forall event_in l -> forall st ws,
  log_writes KT l = Ok ws ->
  apply_writes st ws k = match last_event e l with Some v => default [] v | None => st k end.
Proof.
  intros He Hk Hl st ws Hws. unfold apply_writes. assert (last_write k ws = last_event e l) as ->; [|done].
  revert ws Hws. induction Hl as [|ev l Hev Hl IH]; intros ws; unfold log_writes; cbn [concatM last_event].
  - by intros [= <-].
  - intros (h & Hh & (r & Hr & [= <-])%res_bind_Ok)%res_bind_Ok.
    destruct ev as [e' v| |]; cbn [event_write] in Hh; [|by injection Hh as <-; apply IH..].
    apply res_bind_Ok in Hh as (k' & Hk' & [= <-]). cbn [app last_write]. rewrite (IH r Hr).
    destruct (last_event e l); [done|]. destruct (decide (k' = k)) as [->|Hne], (decide (e' = e)) as [->|Hne']; try done.
    + exfalso. apply Hne'. by apply (entry_key_inj e' e k).
    + congruence.
Qed.
End Events.

(** ** Lemmas: the events of a request *)

Lemma inputs_log_sn a e t i o v : inputs_log a = Ok e ->
  EvWrite (EOutputSN t i o) v ∈ e -> v = None /\ Some (mkID t i) ∈ GetInputs a.
Proof.
  unfold inputs_log. intros (sis & _ & (l & Hl & (l' & Hl' & [= <-])%res_bind_Ok)%res_bind_Ok)%res_bind_Ok.
  rewrite elem_of_app. intros [Hin|Hin].
  - apply (rangeLog_elem _ _ _ _ _ Hl) in Hin as (j & [inp|] & es & Hj & Hg & Hin); [|done].
    unfold input_log in Hg. cbn in Hg. destruct (index_or_panic sis j); cbn in Hg; simplify_eq.
    rewrite !elem_of_cons, elem_of_nil in Hin. destruct Hin as [[= -> -> -> ->]|[[=]|[[=]|[]]]].
    split; [done|]. destruct inp. by eapply list_elem_of_lookup_2.
  - apply (rangeLog_elem _ _ _ _ _ Hl') in Hin as (j & x & es & _ & [= <-] & Hin).
    rewrite !elem_of_cons, elem_of_nil in Hin. by destruct Hin as [?|[?|[]]].
Qed.

(** The serial number of an output is written together with it. *)
Lemma output_log_sn TxID gnh index o0 e t i o v : output_log TxID gnh index o0 = Ok e ->
  EvWrite (EOutputSN t i o) v ∈ e -> t = TxID /\ EvWrite (EOutput t i) (Some o) ∈ e /\ v = Some NotEmpty.
Proof.
  unfold output_log. destruct gnh; intros [= <-]; rewrite ?elem_of_cons, ?elem_of_nil; [|naive_solver].
  intros [[=]|[[= -> -> -> ->]|[]]]. naive_solver.
Qed.

Lemma outputs_log_sn TxID base a e t i o v : outputs_log TxID base a = Ok e ->
  EvWrite (EOutputSN t i o) v ∈ e -> t = TxID /\ EvWrite (EOutput t i) (Some o) ∈ e /\ v = Some NotEmpty.
Proof.
  destruct a as [a|a|r|]; cbn [outputs_log].
  - intros (os & _ & H)%res_bind_Ok (j & o' & es & Hj & Hes & Hin)%(rangeLog_elem _ _ _ _ _ H).
    pose proof (output_log_sn _ _ _ _ _ _ _ _ _ Hes Hin) as (-> & Ho & ->). split_and!; [done| |done].
    apply (rangeLog_elem _ _ _ _ _ H). eauto 10.
  - intros H (j & o' & es & Hj & Hes & Hin)%(rangeLog_elem _ _ _ _ _ H). pose proof Hes as Hes0.
    unfold transfer_output_log in Hes. destruct (IsRedeemAt a o'); [injection Hes as <-; by apply elem_of_nil in Hin|].
    apply res_bind_Ok in Hes as (out & Hout & Hes).
    pose proof (output_log_sn _ _ _ _ _ _ _ _ _ Hes Hin) as (-> & Ho & ->). split_and!; [done| |done].
    apply (rangeLog_elem _ _ _ _ _ H). eauto 10.
  - intros (raw & _ & [= <-])%res_bind_Ok. rewrite !elem_of_cons, elem_of_nil. naive_solver.
  - by intros [= <-] ?%elem_of_nil.
Qed.

(** No metadata or output log writes an entry of another kind. *)
Lemma metadata_log_elem ent m e ev : metadata_log ent m = Ok e -> ev ∈ e -> exists key v, ev = EvWrite (ent key) (Some v).
Proof.
  intros H (j & [key v] & es & _ & [= <-] & ->%list_elem_of_singleton)%(rangeLog_elem _ _ _ _ _ H). eauto.
Qed.

Lemma action_log_sn TxID base a e t i o v : action_log TxID base a = Ok e ->
  EvWrite (EOutputSN t i o) v ∈ e ->
  (v = Some NotEmpty /\ t = TxID /\ EvWrite (EOutput t i) (Some o) ∈ e) \/ (v = None /\ Some (mkID t i) ∈ action_ins a).
Proof.
  unfold action_log. intros (lo & Ho & (li & Hi & (lm & Hm & [= <-])%res_bind_Ok)%res_bind_Ok)%res_bind_Ok.
  rewrite !elem_of_app. intros [Hin|[Hin|Hin]].
  - left. destruct (outputs_log_sn _ _ _ _ _ _ _ _ Ho Hin) as (-> & ? & ->). auto.
  - right. destruct a as [a|a|r|]; cbn in Hi |- *; [by eapply inputs_log_sn..| |];
      injection Hi as <-; by apply elem_of_nil in Hin.
  - exfalso. destruct a as [a|a|r|]; cbn in Hm.
    1,2: by apply (metadata_log_elem _ _ _ _ Hm) in Hin as (? & ? & [=]).
    all: injection Hm as <-; by apply elem_of_nil in Hin.
Qed.

Lemma inputs_log_no_request a e t v : inputs_log a = Ok e -> EvWrite (ETokenRequest t) v ∉ e.
Proof.
  unfold inputs_log. intros (sis & _ & (l & Hl & (l' & Hl' & [= <-])%res_bind_Ok)%res_bind_Ok)%res_bind_Ok.
  rewrite elem_of_app. intros [Hin|Hin].
  - apply (rangeLog_elem _ _ _ _ _ Hl) in Hin as (j & [inp|] & es & Hj & Hg & Hin); [|done].
    unfold input_log in Hg. cbn in Hg. destruct (index_or_panic sis j); cbn in Hg; simplify_eq.
    rewrite !elem_of_cons, elem_of_nil in Hin. naive_solver.
  - apply (rangeLog_elem _ _ _ _ _ Hl') in Hin as (j & x & es & _ & [= <-] & Hin).
    rewrite !elem_of_cons, elem_of_nil in Hin. naive_solver.
Qed.

Lemma action_log_no_request TxID base a e t v : action_log TxID base a = Ok e -> EvWrite (ETokenRequest t) v ∉ e.
Proof.
  unfold action_log. intros (lo & Ho & (li & Hi & (lm & Hm & [= <-])%res_bind_Ok)%res_bind_Ok)%res_bind_Ok.
  assert (Hout : forall gnh j o e, output_log TxID gnh j o = Ok e -> EvWrite (ETokenRequest t) v ∉ e).
  { intros gnh j o e. unfold output_log. destruct gnh; intros [= <-]; rewrite !elem_of_cons, elem_of_nil; naive_solver. }
  rewrite !elem_of_app. intros [Hin|[Hin|Hin]].
  - destruct a as [a|a|r|]; cbn [outputs_log] in Ho.
    + apply res_bind_Ok in Ho as (os & _ & Ho).
      apply (rangeLog_elem _ _ _ _ _ Ho) in Hin as (j & x & es & _ & He & Hin). by apply (Hout _ _ _ _ He).
    + apply (rangeLog_elem _ _ _ _ _ Ho) in Hin as (j & x & es & _ & He & Hin). unfold transfer_output_log in He.
      destruct (IsRedeemAt a x); [injection He as <-; by apply elem_of_nil in Hin|].
      apply res_bind_Ok in He as (o & _ & He). by apply (Hout _ _ _ _ He).
    + apply res_bind_Ok in Ho as (raw & _ & [= <-]). rewrite !elem_of_cons, elem_of_nil in Hin. naive_solver.
    + injection Ho as <-. by apply elem_of_nil in Hin.
  - destruct a as [a|a|r|]; cbn in Hi; [by eapply inputs_log_no_request..| |]; injection Hi as <-; by apply elem_of_nil in Hin.
  - destruct a as [a|a|r|]; cbn in Hm.
    1,2: by apply (metadata_log_elem _ _ _ _ Hm) in Hin as (? & ? & [=]).
    all: injection Hm as <-; by apply elem_of_nil in Hin.
Qed.

Lemma request_log_sn TxID actions : forall base e t i o v, request_log TxID base actions = Ok e ->
  EvWrite (EOutputSN t i o) v ∈ e ->
  (v = Some NotEmpty /\ t = TxID /\ EvWrite (EOutput t i) (Some o) ∈ e) \/ (v = None /\ mkID t i ∈ request_inputs actions).
Proof.
  induction actions as [|a l IH]; intros base e t i o v; cbn [request_log]; [by intros [= <-] ?%elem_of_nil|].
  intros (e1 & H1 & (r & Hr & [= <-])%res_bind_Ok)%res_bind_Ok.
  unfold request_inputs. cbn [fmap list_fmap concat]. rewrite omap_app, !elem_of_app. intros [Hin|Hin].
  - destruct (action_log_sn _ _ _ _ _ _ _ _ H1 Hin) as [(-> & -> & ?)|[-> ?]]; [by auto|].
    right. split; [done|]. left. apply list_elem_of_omap. by exists (Some (mkID t i)).
  - destruct (IH _ _ _ _ _ _ Hr Hin) as [(-> & -> & ?)|[-> ?]]; auto.
Qed.

Lemma request_log_no_request TxID actions : forall base e t v, request_log TxID base actions = Ok e ->
  EvWrite (ETokenRequest t) v ∉ e.
Proof.
  induction actions as [|a l IH]; intros base e t v; cbn [request_log]; [intros [= <-]; apply not_elem_of_nil|].
  intros (e1 & H1 & (r & Hr & [= <-])%res_bind_Ok)%res_bind_Ok. rewrite elem_of_app.
  intros [Hin|Hin]; [by eapply action_log_no_request|by eapply IH].
Qed.

(** ** Lemmas: the inputs of an accepted request *)

Section Inputs.
Context (KT : KeyTranslator) (TxID : bytes).

(** The serial number of the input [id], with content [o], reads as present. *)
Definition sn_present (st : state) (ws : list write) (id : ID) (o : bytes) : Prop :=
  exists k v, CreateOutputSNKey KT (TxId id) (Index id) o = Ok k /\ v <> [] /\ readable st ws k v.

Lemma inputs_checked_sn st ws a e id o : inputs_checked KT st ws a -> inputs_log a = Ok e -> (id, o) ∈ inputs_spent a ->
  sn_present st ws id o /\ EvWrite (EOutputSN (TxId id) (Index id) o) None ∈ e.
Proof.
  intros (sis & Hs & _ & _ & Hpres). unfold inputs_log, inputs_spent. rewrite Hs. cbn [mbind res_mbind].
  intros (l & Hl & (l' & _ & [= <-])%res_bind_Ok)%res_bind_Ok ([inp si] & (i & Hi)%list_elem_of_lookup & Hm)%list_elem_of_omap.
  destruct inp as [id'|]; [|done]. injection Hm as -> ->.
  apply lookup_zip_with_Some in Hi as (x & y & [= <- <-] & Hi & Hsi).
  destruct (Hpres _ _ Hi) as (id' & si & k & v & [= <-] & Hsi' & Hk & Hv & Hr).
  assert (si = o) as -> by congruence. split; [by exists k, v|]. apply elem_of_app. left. apply (rangeLog_elem _ _ _ _ _ Hl).
  destruct (rangeLog_lookup _ _ _ _ _ _ Hl Hi) as [es Hes]. exists i, (Some id), es. split_and!; [done..|].
  unfold input_log in Hes. cbn in Hes. unfold index_or_panic in Hes. rewrite Hsi in Hes. cbn in Hes. injection Hes as <-. by left.
Qed.

Lemma inputs_spent_ids st ws a : inputs_checked KT st ws a -> (inputs_spent a).*1 = omap id (GetInputs a).
Proof.
  intros (sis & Hs & Hlen & _). unfold inputs_spent. rewrite Hs. clear Hs.
  revert sis Hlen. induction (GetInputs a) as [|[x|] l IH]; intros [|si sis] Hlen; try done.
  - cbn. f_equal. apply IH. cbn in Hlen. lia.
  - cbn. apply IH. cbn in Hlen. lia.
Qed.

Lemma request_checked_sn st actions id o : forall ws base e,
  request_checked KT TxID st ws base actions -> request_log TxID base actions = Ok e -> (id, o) ∈ request_spends actions ->
  exists e1 e2 w1, e = e1 ++ e2 /\ log_writes KT e1 = Ok w1 /\ sn_present st (ws ++ w1) id o /\
    EvWrite (EOutputSN (TxId id) (Index id) o) None ∈ e2.
Proof.
  induction actions as [|a l IH]; intros ws base e; cbn [request_checked request_log]; [by intros _ _ ?%elem_of_nil|].
  intros (Hc & e1 & w1 & He1 & Hw1 & Hrest) (e1' & He1' & (r & Hr & [= <-])%res_bind_Ok)%res_bind_Ok.
  rewrite He1 in He1'. injection He1' as <-.
  unfold request_spends. cbn [fmap list_fmap concat]. rewrite elem_of_app. intros [Hin|Hin].
  - assert (sn_present st ws id o /\ EvWrite (EOutputSN (TxId id) (Index id) o) None ∈ e1) as (Ho & Hev).
    { unfold action_log in He1. apply res_bind_Ok in He1 as (lo & _ & (li & Hi & (lm & _ & [= <-])%res_bind_Ok)%res_bind_Ok).
      rewrite !elem_of_app.
      destruct a as [a|a|rr|]; cbn in Hc, Hi, Hin; [| |by apply elem_of_nil in Hin..];
        destruct (inputs_checked_sn _ _ _ _ _ _ Hc Hi Hin); auto. }
    exists [], (e1 ++ r), []. split_and!; [done|done|by rewrite app_nil_r|]. apply elem_of_app. by left.
  - destruct (IH _ _ _ Hrest Hr Hin) as (e3 & e4 & w3 & -> & Hw3 & Hp & Hev).
    exists (e1 ++ e3), e4, (w1 ++ w3). split_and!; [by rewrite app_assoc|by apply concatM_app|by rewrite app_assoc|done].
Qed.

Lemma request_spends_ids st actions : forall ws base,
  request_checked KT TxID st ws base actions -> (request_spends actions).*1 = request_inputs actions.
Proof.
  induction actions as [|a l IH]; intros ws base; cbn [request_checked]; [done|].
  intros (Hc & e1 & w1 & He1 & Hw1 & Hrest). unfold request_spends, request_inputs. cbn [fmap list_fmap concat].
  rewrite fmap_app, omap_app. f_equal; [|by eapply IH].
  destruct a as [a|a|r|]; cbn in *; [by eapply inputs_spent_ids..|done|done].
Qed.
End Inputs.

(** ** Lemmas: one commit *)

(** ** Lemmas: one commit

    What an accepted request does to the state, as the last event on each
    entry of its log [l], which ends with the entry of the request itself. *)

Record commit_view (w : option error) (P : ID -> bytes -> Prop) (st : state) (t : tx) (st' : state)
    (l : list event) (outs : list (ID * bytes)) : Prop := {
  cv_read e k : entry_in P e -> entry_key (keys_Translator w) e = Ok k ->
    st' k = match last_event e l with Some v => default [] v | None => st k end;
  cv_sn id i o v : EvWrite (EOutputSN id i o) v ∈ l ->
    (v = Some NotEmpty /\ id = tx_id t /\ EvWrite (EOutput id i) (Some o) ∈ l) \/
    (v = None /\ mkID id i ∈ request_inputs (tx_actions t));
  cv_output id i v : EvWrite (EOutput id i) v ∈ l <->
    (exists o, v = Some o /\ (mkID id i, o) ∈ outs) \/ (v = None /\ mkID id i ∈ request_inputs (tx_actions t));
  cv_request id v : EvWrite (ETokenRequest id) v ∈ l <-> id = tx_id t /\ v = Some (sha256 (tx_raw t));
  cv_fresh : exists kr, CreateTokenRequestKey (keys_Translator w) (tx_id t) = Ok kr /\ st kr = [];
  cv_outs : request_outputs (tx_id t) 0 (tx_actions t) = Ok outs;
  cv_nodup : NoDup outs.*1;
  cv_own : Forall (fun id => TxId id = tx_id t /\ 0 <= Index id < two64) outs.*1;
  cv_spends : (request_spends (tx_actions t)).*1 = request_inputs (tx_actions t);
  cv_inputs id o : (id, o) ∈ request_spends (tx_actions t) -> P id o /\
    EvWrite (EOutputSN (TxId id) (Index id) o) None ∈ l /\
    exists ks, CreateOutputSNKey (keys_Translator w) (TxId id) (Index id) o = Ok ks /\ st ks <> [];
  cv_keys id : id ∈ request_inputs (tx_actions t) ->
    exists k, CreateOutputKey (keys_Translator w) (TxId id) (Index id) = Ok k;
  cv_distinct : NoDup (request_inputs (tx_actions t));
}.

Lemma concatM_elem {A B} (f : A -> res (list B)) l r x : concatM f l = Ok r -> x ∈ l -> exists y, f x = Ok y.
Proof.
  revert r; induction l as [|a l IH]; intros r; cbn [concatM]; [by intros _ ?%elem_of_nil|].
  intros (h & Hh & (r' & Hr & _)%res_bind_Ok)%res_bind_Ok [->|Hin]%elem_of_cons; eauto.
Qed.

Section Commit.
Context {S : Type} `{HR : !ExRWSet S} `{HL : !ExRWSetLaws S} (w : option error) (P : ID -> bytes -> Prop).
Abbreviation KT := (keys_Translator w).
Hypothesis P_distinct : sn_distinct w P.

Lemma request_log_in t l : tx_ok P t -> request_log (tx_id t) 0 (tx_actions t) = Ok l -> Forall (event_in P) l.
Proof.
  intros (Hres & Hids & _ & _ & HP) Hl. pose proof (request_log_ok _ _ Hres _ _ Hids Hl) as Hok.
  apply Forall_forall. intros ev Hin. pose proof (proj1 (Forall_forall _ _) Hok ev Hin) as He.
  destruct ev as [e v| |]; [|done..]. split; [done|]. destruct e; try done. by eapply HP.
Qed.

Lemma commits_view st t st' : tx_ok P t -> commits w st t st' -> exists l outs, commit_view w P st t st' l outs.
Proof.
  intros Hok (s & t' & u & Hst & Hp0 & HW & Hst').
  pose proof HW as (l & ws & sp & kr & kh & v & Hl & Hws & Hsp & Hkr & _ & _ & Hp & _ & Hnd & Hchk & Hrd & _)%WriteRequest_effect.
  rewrite Hp0 in *. cbn [app] in *. rewrite Hp in Hst'.
  pose proof (request_log_in _ _ Hok Hl) as Hin. destruct Hok as (Hres & Hids & Hself & Hsize & HP).
  destruct (request_log_output _ _ _ _ Hl) as (outs & Houts & Hiff).
  destruct (out_ids_NoDup _ _ _ Hsize (request_outputs_ids _ _ _ _ Houts)) as [Hnodup Hown].
  set (ev := EvWrite (ETokenRequest (tx_id t)) (Some (sha256 (tx_raw t)))).
  assert (Hlog : log_writes KT (l ++ [ev]) = Ok (ws ++ [(kr, Some (sha256 (tx_raw t)))])).
  { apply concatM_app; [done|]. cbn [concatM event_write entry_key ev]. by rewrite Hkr. }
  assert (Hin' : Forall (event_in P) (l ++ [ev])).
  { apply Forall_app. split; [done|by repeat constructor]. }
  assert (Hev : forall e v, EvWrite e v ∈ l ++ [ev] <-> EvWrite e v ∈ l \/ (e = ETokenRequest (tx_id t) /\ v = Some (sha256 (tx_raw t)))).
  { intros e v'. rewrite elem_of_app, list_elem_of_singleton. unfold ev. naive_solver. }
  exists (l ++ [ev]), outs. split; try done.
  - intros e k He Hk. rewrite Hst'. by eapply apply_log.
  - intros id i o v' [H|[? _]]%Hev; [|done]. rewrite Hev.
    destruct (request_log_sn _ _ _ _ _ _ _ _ Hl H) as [(-> & -> & ?)|?]; [left; auto|by right].
  - intros id i v'. rewrite Hev, <- Hiff. naive_solver.
  - intros id v'. rewrite Hev. split; [|intros [-> ->]; by right].
    intros [H|[[= ->] ->]]; [|done]. by apply (request_log_no_request _ _ _ _ _ _ Hl) in H.
  - exists kr. split; [done|]. rewrite <- Hst. destruct Hrd as [|Hrd]; [done|].
    rewrite (apply_log w P P_distinct (ETokenRequest (tx_id t)) kr l) in Hrd by done.
    destruct (last_event _ _) as [v'|] eqn:E; [|done].
    by apply last_event_Some, (request_log_no_request _ _ _ _ _ _ Hl) in E.
  - by eapply request_spends_ids.
  - intros id o Hid. destruct (request_checked_sn _ _ _ _ _ _ _ _ _ Hchk Hl Hid) as (e1 & e2 & w1 & -> & Hw1 & Hpres & Hdel).
    apply (list_elem_of_fmap_2 fst) in Hid. cbn in Hid. rewrite (request_spends_ids _ _ _ _ _ _ Hchk) in Hid.
    destruct Hpres as (ks & v' & Hks & Hv' & Hread). cbn [app] in Hread. destruct id as [id i]; cbn [TxId Index] in *.
    assert (Hdel' : EvWrite (EOutputSN id i o) None ∈ e1 ++ e2) by (apply elem_of_app; by right).
    pose proof (HP _ _ _ _ _ Hl Hdel') as HPo. split_and!; [done|apply elem_of_app; by left|].
    exists ks. split; [done|].
    rewrite <- Hst. destruct Hread as [->| ->]; [done|]. apply Forall_app in Hin as [Hin1 _].
    assert (Hent : entry_in P (EOutputSN id i o)).
    { split; [|done]. apply (proj1 (Forall_forall _ _) Hids) in Hid. by destruct Hid. }
    rewrite (apply_log w P P_distinct (EOutputSN id i o) ks e1) in Hv' by done.
    destruct (last_event _ _) as [v'|] eqn:E; [|done]. apply last_event_Some in E.
    assert (EvWrite (EOutputSN id i o) v' ∈ e1 ++ e2) as E' by (apply elem_of_app; by left).
    destruct (request_log_sn _ _ _ _ _ _ _ _ Hl E') as [(_ & -> & _)|[-> _]]; [|done].
    by apply (proj1 (Forall_forall _ _) Hself) in Hid.
  - intros [id i] Hid.
    assert (EvWrite (EOutput id i) None ∈ l) as Hdel by (apply Hiff; by right).
    destruct (concatM_elem _ _ _ _ Hws Hdel) as (ws' & (k & Hk & _)%res_bind_Ok). by exists k.
  - rewrite <- (spent_request _ _ _ _ Hl). by eapply spent_NoDup.
Qed.
End Commit.

(** ** Lemmas: the invariant over a history *)

Section History.
Context {S : Type} `{HR : !ExRWSet S} `{HL : !ExRWSetLaws S} (w : option error) (P : ID -> bytes -> Prop).
Abbreviation KT := (keys_Translator w).
Hypothesis P_distinct : sn_distinct w P.
Hypothesis P_ok : forall id o, P id o -> id_ok id.

Lemma entry_in_sn id o : P id o -> entry_in P (EOutputSN (TxId id) (Index id) o).
Proof. intros HP. destruct (P_ok _ _ HP), id. split; [by cbn|done]. Qed.

Lemma entry_in_output id o : P id o -> entry_in P (EOutput (TxId id) (Index id)).
Proof. intros HP. split; [|done]. by eapply P_ok. Qed.

(** Where a serial number that is present after a commit comes from: it is a
    new output of the transaction, or it was there and its token is not spent. *)
Lemma sn_after st t st' l outs id o ks : ledger_inv w P st -> commit_view w P st t st' l outs ->
  Forall (fun id => TxId id <> tx_id t) (request_inputs (tx_actions t)) ->
  P id o -> CreateOutputSNKey KT (TxId id) (Index id) o = Ok ks -> st' ks <> [] ->
  (TxId id = tx_id t /\ (id, o) ∈ outs) \/
  (TxId id <> tx_id t /\ st ks <> [] /\ id ∉ request_inputs (tx_actions t)).
Proof.
  intros Hinv V Hself HP Hks Hst. destruct (cv_fresh _ _ _ _ _ _ _ V) as (kr & Hkr & Hfree).
  rewrite (cv_read _ _ _ _ _ _ _ V _ _ (entry_in_sn _ _ HP) Hks) in Hst.
  destruct (last_event _ _) as [v|] eqn:E.
  - apply last_event_Some, (cv_sn _ _ _ _ _ _ _ V) in E as [(-> & Ht & Hout)|[-> _]]; [|done].
    left. split; [done|]. apply (cv_output _ _ _ _ _ _ _ V) in Hout as [(o' & [= <-] & Ho)|[? _]]; [|done]. by destruct id.
  - right. destruct (Hinv _ _ _ HP Hks Hst) as [Hk Hr]. split_and!; [|done|].
    + intros Ht. rewrite Ht in Hr. by apply (Hr _ Hkr).
    + intros Hid. pose proof Hid as Hsp. rewrite <- (cv_spends _ _ _ _ _ _ _ V) in Hsp.
      apply list_elem_of_fmap in Hsp as ([id' si] & -> & Hsp). cbn [fst] in *.
      destruct (cv_inputs _ _ _ _ _ _ _ V _ _ Hsp) as (HP' & Hdel & ks' & Hks' & Hst').
      destruct (cv_keys _ _ _ _ _ _ _ V _ Hid) as (k & Hkk). destruct (Hinv _ _ _ HP' Hks' Hst') as [Hk' _].
      assert (o = si) as -> by (rewrite <- (Hk _ Hkk); by apply Hk').
      by apply (proj1 (last_event_None _ _) E) in Hdel.
Qed.

Lemma ledger_inv_step st t st' : ledger_inv w P st -> tx_ok P t -> commits w st t st' -> ledger_inv w P st'.
Proof.
  intros Hinv Hok Hc. destruct (commits_view w P P_distinct _ _ _ Hok Hc) as (l & outs & V).
  destruct Hok as (_ & _ & Hself & _). intros id o ks HP Hks Hst.
  destruct (sn_after _ _ _ _ _ _ _ _ Hinv V Hself HP Hks Hst) as [(Ht & Ho)|(Ht & Hold & Hni)].
  - split.
    + intros k Hk. rewrite (cv_read _ _ _ _ _ _ _ V _ _ (entry_in_output _ _ HP) Hk).
      destruct (last_event _ _) as [v|] eqn:E.
      * apply last_event_Some, (cv_output _ _ _ _ _ _ _ V) in E as [(o' & -> & Ho')|[-> Hin]].
        -- cbn. destruct id. cbn in Ho'. by eapply (NoDup_fst_inj outs); [exact (cv_nodup _ _ _ _ _ _ _ V)|..].
        -- exfalso. apply (proj1 (Forall_forall _ _) Hself) in Hin. by apply Hin.
      * exfalso. apply (proj1 (last_event_None _ _) E (Some o)), (cv_output _ _ _ _ _ _ _ V). left. exists o. by destruct id.
    + intros kr Hkr. assert (Hent : entry_in P (ETokenRequest (TxId id))) by done.
      rewrite (cv_read _ _ _ _ _ _ _ V _ _ Hent Hkr). destruct (last_event _ _) as [v|] eqn:E.
      * apply last_event_Some, (cv_request _ _ _ _ _ _ _ V) in E as [_ ->].
        change (sha256 (tx_raw t) <> []). intros H%(f_equal length). by rewrite sha256_length in H.
      * exfalso. by apply (proj1 (last_event_None _ _) E (Some (sha256 (tx_raw t)))), (cv_request _ _ _ _ _ _ _ V).
  - destruct (Hinv _ _ _ HP Hks Hold) as [Hk Hr]. split.
    + intros k Hkk. rewrite (cv_read _ _ _ _ _ _ _ V _ _ (entry_in_output _ _ HP) Hkk).
      destruct (last_event _ _) as [v|] eqn:E; [|by apply Hk].
      apply last_event_Some, (cv_output _ _ _ _ _ _ _ V) in E as [(o' & -> & Ho')|[-> Hin]].
      * exfalso. apply Ht. apply (proj1 (Forall_forall _ _) (cv_own _ _ _ _ _ _ _ V) (mkID (TxId id) (Index id))).
        apply list_elem_of_fmap. by exists (mkID (TxId id) (Index id), o').
      * exfalso. apply Hni. by destruct id.
    + intros kr Hkr. assert (Hent : entry_in P (ETokenRequest (TxId id))) by done.
      rewrite (cv_read _ _ _ _ _ _ _ V _ _ Hent Hkr). destruct (last_event _ _) as [v|] eqn:E; [|by apply Hr].
      by apply last_event_Some, (cv_request _ _ _ _ _ _ _ V) in E as [? _].
Qed.

Lemma sn_free_inv st : sn_free w P st -> ledger_inv w P st.
Proof. intros Hf id o ks HP Hks Hst. by rewrite (Hf _ _ _ HP Hks) in Hst. Qed.

Lemma chain_inv st0 h st : sn_free w P st0 -> chain w P st0 h st -> ledger_inv w P st.
Proof. intros Hf. induction 1; [by apply sn_free_inv|by eapply ledger_inv_step]. Qed.

(** *** What a history has created and spent *)

Definition tx_creates (t : tx) (id : ID) (o : bytes) : Prop :=
  exists outs, request_outputs (tx_id t) 0 (tx_actions t) = Ok outs /\ (id, o) ∈ outs.

Definition spends_of (h : list tx) : list (ID * bytes) := concat ((fun t => request_spends (tx_actions t)) <$> h).

Record history_inv (h : list tx) (st : state) : Prop := {
  hi_ledger : ledger_inv w P st;
  hi_requests t kr : t ∈ h -> CreateTokenRequestKey KT (tx_id t) = Ok kr -> st kr <> [];
  hi_present id o ks : P id o -> CreateOutputSNKey KT (TxId id) (Index id) o = Ok ks -> st ks <> [] ->
    (exists t, t ∈ h /\ tx_creates t id o) /\ id ∉ (spends_of h).*1;
  hi_spent id o : (id, o) ∈ spends_of h -> exists t, t ∈ h /\ TxId id = tx_id t;
  hi_nodup : NoDup (spends_of h).*1;
  hi_created_once t t' id o o' : t ∈ h -> t' ∈ h -> tx_creates t id o -> tx_creates t' id o' -> t = t' /\ o = o';
}.

Lemma spends_of_snoc h t : spends_of (h ++ [t]) = spends_of h ++ request_spends (tx_actions t).
Proof. unfold spends_of. rewrite fmap_app, concat_app. cbn. by rewrite app_nil_r. Qed.

(** The transaction id of a commit is new to the history. *)
Lemma commit_fresh h st t st' l outs : history_inv h st -> commit_view w P st t st' l outs ->
  forall t', t' ∈ h -> tx_id t' <> tx_id t.
Proof.
  intros HI V t' Ht' E. destruct (cv_fresh _ _ _ _ _ _ _ V) as (kr & Hkr & Hfree).
  apply (hi_requests _ _ HI t' kr); [done|by rewrite E|done].
Qed.

(** What a commit spends was created before and not spent since. *)
Lemma commit_spends h st t st' l outs id o : history_inv h st -> commit_view w P st t st' l outs ->
  (id, o) ∈ request_spends (tx_actions t) -> (exists t', t' ∈ h /\ tx_creates t' id o) /\ id ∉ (spends_of h).*1.
Proof.
  intros HI V Hin. destruct (cv_inputs _ _ _ _ _ _ _ V _ _ Hin) as (HP & _ & ks & Hks & Hst).
  by eapply (hi_present _ _ HI).
Qed.

(** Any creation of the transaction goes to its own id. *)
Lemma creates_own st t st' l outs id o : commit_view w P st t st' l outs -> tx_creates t id o ->
  (id, o) ∈ outs /\ TxId id = tx_id t.
Proof.
  intros V (outs' & Ho & Hin). rewrite (cv_outs _ _ _ _ _ _ _ V) in Ho. injection Ho as <-. split; [done|].
  apply (proj1 (Forall_forall _ _) (cv_own _ _ _ _ _ _ _ V) id). apply list_elem_of_fmap. by exists (id, o).
Qed.

Lemma history_step h st t st' (Hown : forall t' id o, t' ∈ h -> tx_creates t' id o -> TxId id = tx_id t') :
  history_inv h st -> tx_ok P t -> commits w st t st' -> history_inv (h ++ [t]) st'.
Proof.
  intros HI Hok Hc. pose proof Hok as (_ & _ & Hself & _).
  pose proof (ledger_inv_step _ _ _ (hi_ledger _ _ HI) Hok Hc) as Hinv'.
  destruct (commits_view w P P_distinct _ _ _ Hok Hc) as (l & outs & V).
  pose proof (commit_fresh _ _ _ _ _ _ HI V) as Hfr.
  assert (Hcr : forall id o, (id, o) ∈ outs -> tx_creates t id o) by (intros id o Ho; exists outs; split; [apply V|done]).
  split; [done| | | | |].
  - intros t' kr Ht' Hkr. assert (Hent : entry_in P (ETokenRequest (tx_id t'))) by done.
    rewrite (cv_read _ _ _ _ _ _ _ V _ _ Hent Hkr). destruct (last_event _ _) as [v|] eqn:E.
    + apply last_event_Some, (cv_request _ _ _ _ _ _ _ V) in E as [_ ->].
      change (sha256 (tx_raw t) <> []). intros H%(f_equal length). by rewrite sha256_length in H.
    + apply elem_of_app in Ht' as [Ht'|Ht'%list_elem_of_singleton]; [by eapply (hi_requests _ _ HI)|]. subst t'.
      exfalso. by apply (proj1 (last_event_None _ _) E (Some (sha256 (tx_raw t)))), (cv_request _ _ _ _ _ _ _ V).
  - intros id o ks HP Hks Hst. rewrite spends_of_snoc, fmap_app, not_elem_of_app, (cv_spends _ _ _ _ _ _ _ V).
    setoid_rewrite elem_of_app.
    destruct (sn_after _ _ _ _ _ _ _ _ (hi_ledger _ _ HI) V Hself HP Hks Hst) as [(Ht & Ho)|(Ht & Hold & Hni)].
    + split_and!.
      * exists t. split; [right; by left|by apply Hcr].
      * intros ([id' o'] & -> & (t' & Ht' & E)%(hi_spent _ _ HI))%list_elem_of_fmap. cbn in *. apply (Hfr t' Ht'). congruence.
      * intros Hin%(proj1 (Forall_forall _ _) Hself). done.
    + destruct (hi_present _ _ HI _ _ _ HP Hks Hold) as [(t' & Ht' & Hcr') Hns]. eauto 10.
  - intros id o. rewrite spends_of_snoc, elem_of_app. setoid_rewrite elem_of_app. intros [Hin|Hin].
    + destruct (hi_spent _ _ HI _ _ Hin) as (t' & ? & ?). eauto.
    + destruct (commit_spends _ _ _ _ _ _ _ _ HI V Hin) as [(t' & Ht' & Hcr') _]. exists t'. split; [by left|by eapply Hown].
  - rewrite spends_of_snoc, fmap_app. apply NoDup_app. split_and!; [apply HI| |rewrite (cv_spends _ _ _ _ _ _ _ V); apply V].
    intros id Hid ([id' o] & -> & Hin)%list_elem_of_fmap. by destruct (commit_spends _ _ _ _ _ _ _ _ HI V Hin) as [_ []].
  - intros t1 t2 id o o'. rewrite !elem_of_app, !list_elem_of_singleton. intros [H1|H1] [H2|H2] C1 C2; subst.
    + by eapply (hi_created_once _ _ HI).
    + exfalso. apply (Hfr t1 H1). rewrite <- (Hown _ _ _ H1 C1). by destruct (creates_own _ _ _ _ _ _ _ V C2).
    + exfalso. apply (Hfr t2 H2). rewrite <- (Hown _ _ _ H2 C2). by destruct (creates_own _ _ _ _ _ _ _ V C1).
    + split; [done|]. destruct (creates_own _ _ _ _ _ _ _ V C1), (creates_own _ _ _ _ _ _ _ V C2).
      symmetry. by eapply (NoDup_fst_inj outs); [exact (cv_nodup _ _ _ _ _ _ _ V)|..].
Qed.

Lemma chain_own st0 h st : chain w P st0 h st -> forall t id o, t ∈ h -> tx_creates t id o -> TxId id = tx_id t.
Proof.
  induction 1 as [|h st t st' Hch IH Hok Hc]; intros t1 id o; [by intros ?%elem_of_nil|].
  rewrite elem_of_app, list_elem_of_singleton. intros [Ht| ->] Hcr; [by eapply IH|].
  destruct (commits_view w P P_distinct _ _ _ Hok Hc) as (l & outs & V). by eapply creates_own.
Qed.

Lemma chain_history st0 h st : sn_free w P st0 -> chain w P st0 h st -> history_inv h st.
Proof.
  intros Hf H. induction H as [|h st t st' Hch IH Hok Hc].
  - split.
    + by apply sn_free_inv.
    + by intros t kr ?%elem_of_nil.
    + intros id o ks HP Hks Hst. by rewrite (Hf _ _ _ HP Hks) in Hst.
    + by intros id o ?%elem_of_nil.
    + apply NoDup_nil_2.
    + by intros t t' id o o' ?%elem_of_nil.
  - eapply history_step; [|done..]. by eapply chain_own.
Qed.

Lemma chain_prefix st0 h1 : forall h2 st, chain w P st0 (h1 ++ h2) st -> exists st1, chain w P st0 h1 st1.
Proof.
  intros h2. induction h2 as [|t h2 IH] using rev_ind; intros st; [rewrite app_nil_r; eauto|].
  rewrite app_assoc. remember ((h1 ++ h2) ++ [t]) as h eqn:E. intros H. revert E.
  destruct H as [|h' st' t' st'' Hch _ _]; intros E.
  - by destruct (h1 ++ h2).
  - apply app_inj_tail in E as [-> _]. by eapply IH.
Qed.

Lemma chain_spends_created st0 h1 t h2 st id o : sn_free w P st0 -> chain w P st0 (h1 ++ t :: h2) st ->
  (id, o) ∈ request_spends (tx_actions t) -> exists t', t' ∈ h1 /\ tx_creates t' id o.
Proof.
  intros Hf H Hin. replace (h1 ++ t :: h2) with ((h1 ++ [t]) ++ h2) in H by (by rewrite <- app_assoc).
  apply chain_prefix in H as (st2 & H). remember (h1 ++ [t]) as h eqn:E. revert E.
  destruct H as [|h st1 t' st' Hch Hok Hc]; intros E.
  - by destruct h1.
  - apply app_inj_tail in E as [-> ->]. pose proof (chain_history _ _ _ Hf Hch) as HI.
    destruct (commits_view w P P_distinct _ _ _ Hok Hc) as (l & outs & V).
    by eapply (proj1 (commit_spends _ _ _ _ _ _ _ _ HI V Hin)).
Qed.

(** *** Created, spent and unspent tokens *)

Definition tx_outs (t : tx) : list (ID * bytes) :=
  match request_outputs (tx_id t) 0 (tx_actions t) with Ok outs => outs | _ => [] end.

Definition creates_of (h : list tx) : list (ID * bytes) := concat (tx_outs <$> h).

(** The tokens created and not spent. *)
Definition unspent_of (h : list tx) : list (ID * bytes) :=
  filter (fun x => x.1 ∉ (spends_of h).*1) (creates_of h).

Lemma tx_creates_outs t id o : tx_creates t id o <-> (id, o) ∈ tx_outs t.
Proof.
  unfold tx_creates, tx_outs. destruct (request_outputs _ _ _) as [outs| |]; [naive_solver|..];
    (split; [by intros (? & ? & _)|by intros ?%elem_of_nil]).
Qed.

Lemma creates_of_elem h id o : (id, o) ∈ creates_of h <-> exists t, t ∈ h /\ tx_creates t id o.
Proof.
  unfold creates_of. rewrite list_elem_of_In, in_concat. setoid_rewrite tx_creates_outs. split.
  - intros (l & Hl%list_elem_of_In & Hin%list_elem_of_In). apply list_elem_of_fmap in Hl as (t & -> & Ht). eauto.
  - intros (t & Ht & Hin). exists (tx_outs t). rewrite <- !list_elem_of_In. split; [by apply list_elem_of_fmap_2|done].
Qed.

Lemma creates_of_snoc h t : creates_of (h ++ [t]) = creates_of h ++ tx_outs t.
Proof. unfold creates_of. rewrite fmap_app, concat_app. cbn. by rewrite app_nil_r. Qed.

Lemma chain_created_ok st0 h st t id o : chain w P st0 h st -> t ∈ h -> tx_creates t id o -> entry_ok (EOutput (TxId id) (Index id)).
Proof.
  induction 1 as [|h st t1 st' Hch IH Hok Hc]; [by intros ?%elem_of_nil|].
  rewrite elem_of_app, list_elem_of_singleton. intros [Ht| ->] Hcr; [by eapply IH|].
  destruct (commits_view w P P_distinct _ _ _ Hok Hc) as (l & outs & V).
  destruct (creates_own _ _ _ _ _ _ _ V Hcr) as [Hin Ht]. destruct Hok as (Hres & _). cbn. rewrite Ht. split; [|done].
  apply (proj1 (Forall_forall _ _) (cv_own _ _ _ _ _ _ _ V) id). apply list_elem_of_fmap. by exists (id, o).
Qed.

Lemma chain_creates st0 h st : sn_free w P st0 -> chain w P st0 h st ->
  NoDup (creates_of h).*1 /\
  (forall id o k, (id, o) ∈ unspent_of h -> CreateOutputKey KT (TxId id) (Index id) = Ok k -> st k = o).
Proof.
  intros Hf H. induction H as [|h st t st' Hch [IHn IHl] Hok Hc].
  { split; [apply NoDup_nil_2|]. by intros id o k ?%elem_of_nil. }
  pose proof (chain_history _ _ _ Hf Hch) as HI. pose proof Hok as (Hres & _ & Hself & _).
  destruct (commits_view w P P_distinct _ _ _ Hok Hc) as (l & outs & V).
  pose proof (commit_fresh _ _ _ _ _ _ HI V) as Hfr.
  assert (Ho : tx_outs t = outs) by (unfold tx_outs; by rewrite (cv_outs _ _ _ _ _ _ _ V)).
  rewrite creates_of_snoc, Ho, fmap_app. split.
  - apply NoDup_app. split_and!; [done| |exact (cv_nodup _ _ _ _ _ _ _ V)].
    intros id ([id' o] & -> & (t' & Ht' & Hcr)%creates_of_elem)%list_elem_of_fmap Hin. cbn in Hin.
    apply (Hfr t' Ht'). rewrite <- (chain_own _ _ _ Hch _ _ _ Ht' Hcr).
    apply (proj1 (Forall_forall _ _) (cv_own _ _ _ _ _ _ _ V) id' Hin).
  - intros id o k. unfold unspent_of. rewrite list_elem_of_filter. cbn [fst].
    rewrite creates_of_snoc, Ho, spends_of_snoc, fmap_app, (cv_spends _ _ _ _ _ _ _ V), not_elem_of_app, elem_of_app. intros [[Hns Hni] [Hin|Hin]] Hk.
    + pose proof Hin as (t' & Ht' & Hcr)%creates_of_elem. pose proof (chain_own _ _ _ Hch _ _ _ Ht' Hcr) as Hid.
      assert (Hold : st k = o) by (eapply IHl; [apply list_elem_of_filter; by split|done]).
      pose proof (chain_created_ok _ _ _ _ _ _ Hch Ht' Hcr) as Hent.
      rewrite (cv_read _ _ _ _ _ _ _ V (EOutput (TxId id) (Index id)) k (conj Hent I) Hk).
      destruct (last_event _ _) as [v|] eqn:E; [|done]. exfalso.
      apply last_event_Some, (cv_output _ _ _ _ _ _ _ V) in E as [(o' & -> & Ho')|[-> Hin']].
        -- apply (Hfr t' Ht'). rewrite <- Hid.
           apply (proj1 (Forall_forall _ _) (cv_own _ _ _ _ _ _ _ V) (mkID (TxId id) (Index id))).
           apply list_elem_of_fmap. by exists (mkID (TxId id) (Index id), o').
        -- apply Hni. by destruct id.
    + assert (Hown : TxId id = tx_id t /\ 0 <= Index id < two64).
      { apply (proj1 (Forall_forall _ _) (cv_own _ _ _ _ _ _ _ V) id). apply list_elem_of_fmap. by exists (id, o). }
      assert (Hent : entry_ok (EOutput (TxId id) (Index id))) by (cbn; destruct Hown as [-> ?]; done).
      rewrite (cv_read _ _ _ _ _ _ _ V (EOutput (TxId id) (Index id)) k (conj Hent I) Hk).
      destruct (last_event _ _) as [v|] eqn:E.
      * apply last_event_Some, (cv_output _ _ _ _ _ _ _ V) in E as [(o' & -> & Ho')|[-> Hin']].
        -- cbn. destruct id. by eapply (NoDup_fst_inj outs); [exact (cv_nodup _ _ _ _ _ _ _ V)|..].
        -- exfalso. apply Hni. by destruct id.
      * exfalso. apply (proj1 (last_event_None _ _) E (Some o)), (cv_output _ _ _ _ _ _ _ V). left. exists o. by destruct id.
Qed.

(** The entry of a spent token is empty. *)
Lemma chain_spent_empty st0 h st : sn_free w P st0 -> chain w P st0 h st ->
  forall id k, id ∈ (spends_of h).*1 -> CreateOutputKey KT (TxId id) (Index id) = Ok k -> st k = [].
Proof.
  intros Hf H. induction H as [|h st t st' Hch IH Hok Hc]; [by intros id k ?%elem_of_nil|].
  pose proof (chain_history _ _ _ Hf Hch) as HI. pose proof Hok as (_ & _ & Hself & _).
  destruct (commits_view w P P_distinct _ _ _ Hok Hc) as (l & outs & V).
  intros id k Hin Hk.
  assert (Hown : exists t' o, t' ∈ h /\ tx_creates t' id o).
  { rewrite spends_of_snoc in Hin. apply list_elem_of_fmap in Hin as ([id' o] & -> & [Hin|Hin]%elem_of_app); cbn [fst] in *.
    - unfold spends_of in Hin. apply list_elem_of_In, in_concat in Hin as (x & Hx%list_elem_of_In & Hin%list_elem_of_In).
      apply list_elem_of_fmap in Hx as (t1 & -> & (h1 & h2 & ->)%list_elem_of_split).
      destruct (chain_spends_created _ _ _ _ _ _ _ Hf Hch Hin) as (t' & Ht' & Hcr).
      exists t', o. split; [apply elem_of_app; by left|done].
    - destruct (commit_spends _ _ _ _ _ _ _ _ HI V Hin) as [(t' & ? & ?) _]. eauto. }
  destruct Hown as (t' & o & Ht' & Hcr).
  pose proof (chain_created_ok _ _ _ _ _ _ Hch Ht' Hcr) as Hent.
  assert (Hne : TxId id <> tx_id t).
  { rewrite (chain_own _ _ _ Hch _ _ _ Ht' Hcr). by apply (commit_fresh _ _ _ _ _ _ HI V). }
  rewrite (cv_read _ _ _ _ _ _ _ V (EOutput (TxId id) (Index id)) k (conj Hent I) Hk).
  destruct (last_event _ _) as [v|] eqn:E.
  - apply last_event_Some, (cv_output _ _ _ _ _ _ _ V) in E as [(o' & -> & Ho')|[-> _]]; [|done]. exfalso. apply Hne.
    apply (proj1 (Forall_forall _ _) (cv_own _ _ _ _ _ _ _ V) (mkID (TxId id) (Index id))).
    apply list_elem_of_fmap. by exists (mkID (TxId id) (Index id), o').
  - apply (IH id k); [|done]. rewrite spends_of_snoc, fmap_app, elem_of_app in Hin. destruct Hin as [|Hin]; [done|].
    exfalso. rewrite (cv_spends _ _ _ _ _ _ _ V) in Hin.
    apply (proj1 (last_event_None _ _) E None), (cv_output _ _ _ _ _ _ _ V). right. by destruct id.
Qed.

(** The tokens ever created are those spent and those unspent. *)
Lemma chain_partition st0 h st : sn_free w P st0 -> chain w P st0 h st ->
  creates_of h ≡ₚ unspent_of h ++ spends_of h.
Proof.
  intros Hf Hch. pose proof (chain_history _ _ _ Hf Hch) as HI. destruct (chain_creates _ _ _ Hf Hch) as [Hnd _].
  assert (Hsub : forall id o, (id, o) ∈ spends_of h -> (id, o) ∈ creates_of h).
  { intros id o (l & Hl%list_elem_of_In & Hin%list_elem_of_In)%list_elem_of_In%in_concat.
    apply list_elem_of_fmap in Hl as (t & -> & (h1 & h2 & ->)%list_elem_of_split).
    destruct (chain_spends_created _ _ _ _ _ _ _ Hf Hch Hin) as (t' & Ht' & Hcr).
    apply creates_of_elem. exists t'. split; [apply elem_of_app; by left|done]. }
  apply NoDup_Permutation.
  - by apply NoDup_fmap_1 in Hnd.
  - apply NoDup_app. split_and!.
    + apply NoDup_filter. by apply NoDup_fmap_1 in Hnd.
    + intros [id o] [Hns _]%list_elem_of_filter Hin. apply Hns. cbn. apply list_elem_of_fmap. by exists (id, o).
    + pose proof (hi_nodup _ _ HI) as H. by apply NoDup_fmap_1 in H.
  - intros [id o]. rewrite elem_of_app. unfold unspent_of. rewrite list_elem_of_filter. cbn [fst]. split.
    + intros Hin. destruct (decide (id ∈ (spends_of h).*1)) as [Hs|Hs]; [right|by left].
      apply list_elem_of_fmap in Hs as ([id' o'] & -> & Hs). cbn in *.
      by rewrite (NoDup_fst_inj (creates_of h) id' o' o) by (done || by apply Hsub).
    + intros [[_ ?]|?]; [done|by apply Hsub].
Qed.

(** ** Properties *)

(** C8: the invariant of the ledger.  In every state reached from an empty
    ledger by committed requests, if the serial number of a token is present
    then the token, with exactly that content, is the value stored under its
    id; it was written by a committed transaction of the history and has not
    been spent. *)
Theorem ledger_invariant st0 h st id o ks k :
  sn_free w P st0 -> chain w P st0 h st -> P id o ->
  CreateOutputSNKey KT (TxId id) (Index id) o = Ok ks -> CreateOutputKey KT (TxId id) (Index id) = Ok k ->
  st ks <> [] -> st k = o /\ (exists t, t ∈ h /\ tx_creates t id o) /\ id ∉ (spends_of h).*1.
Proof.
  intros Hf Hch HP Hks Hk Hst. pose proof (chain_history _ _ _ Hf Hch) as HI.
  split; [by eapply (hi_ledger _ _ HI)|by eapply (hi_present _ _ HI)].
Qed.

(** C2: no token is ever spent twice.  Over a whole history of committed
    requests, the inputs of all actions of all requests are pairwise
    distinct. *)
Theorem ledger_no_double_spend st0 h st :
  sn_free w P st0 -> chain w P st0 h st -> NoDup (spends_of h).*1.
Proof. intros Hf Hch. apply (chain_history _ _ _ Hf Hch). Qed.

(** C5: only existing tokens are spent.  Every token a committed request
    spends was created, with exactly the content the request claims for it, by
    exactly one earlier request of the history. *)
Theorem ledger_spends_existing st0 h1 t h2 st id o :
  sn_free w P st0 -> chain w P st0 (h1 ++ t :: h2) st -> (id, o) ∈ request_spends (tx_actions t) ->
  exists t', t' ∈ h1 /\ tx_creates t' id o /\
    forall t'' o'', t'' ∈ h1 ++ t :: h2 -> tx_creates t'' id o'' -> t'' = t' /\ o'' = o.
Proof.
  intros Hf Hch Hin. destruct (chain_spends_created _ _ _ _ _ _ _ Hf Hch Hin) as (t' & Ht' & Hcr).
  exists t'. split_and!; [done..|]. intros t'' o'' Ht'' Hcr''.
  eapply (hi_created_once _ _ (chain_history _ _ _ Hf Hch)); [done| |done|done]. apply elem_of_app. by left.
Qed.

(** *** Queries *)

(** A simulation of the state [st] without pending writes. *)
Definition simulation (st : state) (t : TranslatorState S) : Prop :=
  (forall k, store (t_RWSet t) k = st k) /\ pending (t_RWSet t) = [].

Lemma rws_GetState st t k v t' : simulation st t -> rws (GetState k) t = (Ok v, t') -> v = st k /\ simulation st t'.
Proof.
  intros [Hst Hp] (s1 & (E1 & E2 & Hr)%GetState_spec & ->)%rws_Ok. rewrite Hp in *.
  split; [destruct Hr as [->| ->]; apply Hst|]. split; [cbn; by rewrite E1|done].
Qed.

Lemma QueryTokens_Ok st ids ks : Forall2 (fun id k => CreateOutputKey KT (TxId id) (Index id) = Ok k) ids ks ->
  forall t r t', simulation st t -> QueryTokens KT (Some <$> ids) t = (Ok r, t') -> r = st <$> ks.
Proof.
  intros HF t r t' Hsim. unfold QueryTokens. intros (res & t1 & H & Hr)%M_bind_Ok.
  destruct (existsb snd res) eqn:Hex; [done|]. apply M_ret_Ok in Hr as [-> ->].
  revert t t1 res Hsim H Hex. induction HF as [|id k ids ks Hk _ IH]; intros t t1 res Hsim.
  - by intros [-> _]%M_ret_Ok.
  - cbn [fmap list_fmap mapM]. intros ([v b] & t2 & Hq & (rest & t3 & Hrest & [-> ->]%M_ret_Ok)%M_bind_Ok)%M_bind_Ok.
    cbn [existsb snd]. intros [-> Hex]%orb_false_iff. unfold QueryToken in Hq. rewrite Hk in Hq.
    destruct (rws (GetState k) t) as [[v'| |] t4] eqn:E; [|done..]. injection Hq as <- <-.
    apply (rws_GetState _ _ _ _ _ Hsim) in E as [-> Hsim']. cbn. f_equal. by eapply (IH t4).
Qed.

Lemma AreTokensSpent_Ok st ks : forall t r t', simulation st t -> AreTokensSpent KT ks false t = (Ok r, t') ->
  r = (fun k => bool_decide (st k = [])) <$> ks.
Proof.
  unfold AreTokensSpent. induction ks as [|k ks IH]; intros t r t' Hsim; cbn [mapM].
  - by intros [-> _]%M_ret_Ok.
  - intros (b & t1 & (v & t2 & Hg%wrapM_Ok & [-> ->]%M_ret_Ok)%M_bind_Ok & (rest & t3 & Hrest & [-> ->]%M_ret_Ok)%M_bind_Ok)%M_bind_Ok.
    apply (rws_GetState _ _ _ _ _ Hsim) in Hg as [-> Hsim']. cbn [fmap list_fmap]. f_equal; [|by eapply (IH t2)].
    destruct (Z.eqb_spec (zlen (st k)) 0) as [E%zlen_zero|E].
    + by rewrite bool_decide_eq_true_2.
    + rewrite bool_decide_eq_false_2; [done|]. intros H0. apply E. by rewrite H0.
Qed.

(** The ledger answers queries truthfully.  In every reachable state, for
    tokens the history created with non-empty content, [QueryTokens] returns
    the content of those not spent and nothing for those spent, and
    [AreTokensSpent] on their keys tells exactly the spent ones. *)
Theorem ledger_queries st0 h st ids toks ks t :
  sn_free w P st0 -> chain w P st0 h st -> simulation st t ->
  Forall2 (fun id o => (id, o) ∈ creates_of h /\ o <> []) ids toks ->
  Forall2 (fun id k => CreateOutputKey KT (TxId id) (Index id) = Ok k) ids ks ->
  (forall r t', QueryTokens KT (Some <$> ids) t = (Ok r, t') ->
     r = zip_with (fun id o => if decide (id ∈ (spends_of h).*1) then [] else o) ids toks) /\
  (forall r t', AreTokensSpent KT ks false t = (Ok r, t') ->
     r = (fun id => bool_decide (id ∈ (spends_of h).*1)) <$> ids).
Proof.
  intros Hf Hch Hsim Htoks Hks.
  assert (Hst : Forall2 (fun '(id, o) k => st k = (if decide (id ∈ (spends_of h).*1) then [] else o) /\ o <> []) (zip ids toks) ks).
  { revert ks Hks. induction Htoks as [|id o ids toks [Hin Hne] _ IH]; intros ks Hks.
    - apply Forall2_nil_inv_l in Hks as ->. constructor.
    - apply Forall2_cons_inv_l in Hks as (k & ks' & Hk & Hks' & ->). cbn. constructor; [|by apply IH]. split; [|done].
      case_decide as Hs; [by eapply chain_spent_empty|].
      eapply (chain_creates _ _ _ Hf Hch); [apply list_elem_of_filter; by split|done]. }
  assert (Hlen : length ids = length toks) by (by eapply Forall2_length). split.
  - intros r t' Hr. rewrite (QueryTokens_Ok st ids ks Hks _ _ _ Hsim Hr). clear -Hst Hlen.
    revert toks ks Hst Hlen. induction ids as [|id ids IH]; intros [|o toks] ks Hst Hlen; try done.
    + by apply Forall2_nil_inv_l in Hst as ->.
    + apply Forall2_cons_inv_l in Hst as (k & ks' & [Hk _] & Hst & ->). cbn [zip_with]. rewrite fmap_cons, Hk. f_equal. apply IH; [done|]. cbn in Hlen. lia.
  - intros r t' Hr. rewrite (AreTokensSpent_Ok st ks _ _ _ Hsim Hr). clear -Hst Hlen.
    revert toks ks Hst Hlen. induction ids as [|id ids IH]; intros [|o toks] ks Hst Hlen; try done.
    + by apply Forall2_nil_inv_l in Hst as ->.
    + apply Forall2_cons_inv_l in Hst as (k & ks' & [Hk Hne] & Hst & ->). rewrite !fmap_cons. f_equal; [|eapply (IH toks); [done|cbn in Hlen; lia]].
      rewrite Hk. case_decide; [by rewrite !bool_decide_eq_true_2|by rewrite !bool_decide_eq_false_2].
Qed.
End History.

(** ** Witnesses: a token is issued, then transferred *)

(** The state after the recorded writes of a simulated transaction. *)
Definition stub_commit (s : stub) : stub :=
  mkStub (foldl (fun m '(k, v) => match v with Some v => <[k:=v]> m | None => delete k m end) (stub_state s) (stub_writes s)) [].

Lemma stub_commit_spec s k :
  default [] (stub_state (stub_commit s) !! k) = apply_writes (fun k => default [] (stub_state s !! k)) (stub_writes s) k.
Proof.
  unfold stub_commit. cbn. destruct s as [m ws]. cbn. revert m. induction ws as [|[k' v] ws IH] using rev_ind; intros m; [done|].
  rewrite foldl_app, apply_writes_app. cbn [foldl]. unfold apply_writes at 1. cbn [last_write].
  destruct (decide (k' = k)) as [->|Hne].
  - destruct v as [v|]; [by rewrite lookup_insert, decide_True|by rewrite lookup_delete, decide_True].
  - rewrite <- IH. destruct v as [v|]; [by rewrite lookup_insert_ne|by rewrite lookup_delete_ne].
Qed.

#[local] Existing Instance example_rws.

Definition issue_tx : tx := mkTx (str "tx1")
  [AIssue (mkIssueAction (mkActionWithInputs [] (Ok []) []) (Ok [str "coin"]) [] false)] (str "request1").
Definition transfer_tx : tx := mkTx (str "tx2")
  [ATransfer (mkTransferAction (mkActionWithInputs [Some (mkID (str "tx1") 0)] (Ok [str "coin"]) [])
     1 (fun _ => false) (fun _ => Ok (str "change")) [] false)] (str "request2").

(** A history with two tokens. *)
Definition two_tokens (a b : ID * bytes) (id : ID) (o : bytes) : Prop := (id, o) ∈ [a; b].

Definition sn_key_of (x : ID * bytes) : res bytes := CreateOutputSNKey (keys_Translator None) (TxId x.1) (Index x.1) x.2.

Lemma two_tokens_cases a b id o : two_tokens a b id o -> (id, o) = a \/ (id, o) = b.
Proof. unfold two_tokens. rewrite !elem_of_cons, elem_of_nil. tauto. Qed.

Lemma two_distinct a b ka kb : sn_key_of a = Ok ka -> sn_key_of b = Ok kb -> ka <> kb -> sn_distinct None (two_tokens a b).
Proof.
  unfold sn_key_of. intros Ha Hb Hne id o id' o' k [<-|<-]%two_tokens_cases [E|E]%two_tokens_cases Hk Hk';
    (injection E as -> -> || (subst; cbn [fst snd] in * )); try done; exfalso; apply Hne; congruence.
Qed.

Lemma two_free a b ka kb st : sn_key_of a = Ok ka -> sn_key_of b = Ok kb -> st ka = [] -> st kb = [] ->
  sn_free None (two_tokens a b) st.
Proof. unfold sn_key_of. intros Ha Hb Ea Eb id o k [<-|<-]%two_tokens_cases Hk; cbn [fst snd] in *; congruence. Qed.

Definition example_P : ID -> bytes -> Prop :=
  two_tokens (mkID (str "tx1") 0, str "coin") (mkID (str "tx2") 0, str "change").

Definition run_tx (t : tx) (s : stub) : res unit * TranslatorState stub :=
  WriteRequest (keys_Translator None) (tx_id t) (tx_actions t) (tx_raw t) (New s).
Definition after_tx (t : tx) (s : stub) : stub := stub_commit (t_RWSet (snd (run_tx t s))).

Definition genesis : stub := mkStub (<[key_of ESetupHash := str "hash"]> ∅) [].
Definition state1 : stub := Eval vm_compute in after_tx issue_tx genesis.
Definition state2 : stub := Eval vm_compute in after_tx transfer_tx state1.

Lemma run_commits t s s' : stub_writes s = [] -> fst (run_tx t s) = Ok tt -> s' = after_tx t s ->
  commits None (fun k => default [] (stub_state s !! k)) t (fun k => default [] (stub_state s' !! k)).
Proof.
  intros Hw Hr ->. apply run_ok in Hr. exists s, (snd (run_tx t s)), tt. split_and!; [done|done|done|].
  destruct (WriteRequest_effect _ _ _ _ _ _ _ Hr) as (l & ws & sp & kr & kh & v & _ & _ & _ & _ & _ & Hst & _).
  intros k. unfold after_tx. rewrite stub_commit_spec.
  change (fun k => default [] (stub_state (t_RWSet (snd (run_tx t s))) !! k)) with (store (t_RWSet (snd (run_tx t s)))).
  by rewrite Hst.
Qed.

Lemma not_reserved x : bool_decide (x ∉ reserved_prefixes) = true -> x ∉ reserved_prefixes.
Proof. intros H. by apply bool_decide_eq_true in H. Qed.

Lemma issue_tx_ok : tx_ok example_P issue_tx.
Proof.
  unfold tx_ok. split_and!.
  - by apply not_reserved; vm_compute.
  - constructor.
  - constructor.
  - by vm_compute.
  - intros l id i o v Hl Hin. vm_compute in Hl. injection Hl as <-. rewrite !elem_of_cons, elem_of_nil in Hin.
    destruct Hin as [[=]|[[= -> -> -> ->]|[]]]. by left.
Qed.

Lemma transfer_tx_ok : tx_ok example_P transfer_tx.
Proof.
  unfold tx_ok. split_and!.
  - by apply not_reserved; vm_compute.
  - apply Forall_singleton. split; [done|]. by apply not_reserved; vm_compute.
  - by apply Forall_singleton.
  - by vm_compute.
  - intros l id i o v Hl Hin. vm_compute in Hl. injection Hl as <-. rewrite !elem_of_cons, elem_of_nil in Hin.
    destruct Hin as [[=]|[[= -> -> -> ->]|[[= -> -> -> ->]|[[=]|[[=]|[]]]]]]; [right; by left|by left].
Qed.

Lemma commits1 : commits None (fun k => default [] (stub_state genesis !! k)) issue_tx (fun k => default [] (stub_state state1 !! k)).
Proof. apply (run_commits issue_tx genesis state1); [reflexivity|vm_compute; reflexivity..]. Qed.

Lemma commits2 : commits None (fun k => default [] (stub_state state1 !! k)) transfer_tx (fun k => default [] (stub_state state2 !! k)).
Proof. apply (run_commits transfer_tx state1 state2); [reflexivity|vm_compute; reflexivity..]. Qed.

Lemma example_chain : chain None example_P (fun k => default [] (stub_state genesis !! k)) [issue_tx; transfer_tx]
  (fun k => default [] (stub_state state2 !! k)).
Proof.
  apply (chain_commit None example_P _ [issue_tx] (fun k => default [] (stub_state state1 !! k))).
  - apply (chain_commit None example_P _ [] (fun k => default [] (stub_state genesis !! k))); [constructor|apply issue_tx_ok|].
    exact commits1.
  - apply transfer_tx_ok.
  - exact commits2.
Qed.

Definition key1 : bytes := Eval vm_compute in key_of (EOutputSN (str "tx1") 0 (str "coin")).
Definition key2 : bytes := Eval vm_compute in key_of (EOutputSN (str "tx2") 0 (str "change")).

Lemma example_distinct : sn_distinct None example_P.
Proof. apply (two_distinct _ _ key1 key2); [vm_compute; reflexivity..|discriminate]. Qed.

Lemma example_P_ok id o : example_P id o -> id_ok id.
Proof. intros [[= -> ->]|[= -> ->]]%two_tokens_cases; (split; [done|by apply not_reserved; vm_compute]). Qed.

Lemma example_free : sn_free None example_P (fun k => default [] (stub_state genesis !! k)).
Proof. apply (two_free _ _ key1 key2); vm_compute; reflexivity. Qed.

Lemma ledger_invariant_witness : exists ks k,
  CreateOutputSNKey (keys_Translator None) (str "tx2") 0 (str "change") = Ok ks /\
  CreateOutputKey (keys_Translator None) (str "tx2") 0 = Ok k /\
  (default [] (stub_state state2 !! k) = str "change" /\
   (exists t, t ∈ [issue_tx; transfer_tx] /\ tx_creates t (mkID (str "tx2") 0) (str "change")) /\
   mkID (str "tx2") 0 ∉ (spends_of [issue_tx; transfer_tx]).*1).
Proof.
  do 2 eexists. split; [vm_compute; reflexivity|]. split; [vm_compute; reflexivity|].
  eapply (ledger_invariant None example_P example_distinct example_P_ok _ [issue_tx; transfer_tx] _ (mkID (str "tx2") 0)
            (str "change") _ _ example_free example_chain);
    [right; left|vm_compute; reflexivity|vm_compute; reflexivity|vm_compute; discriminate].
Defined.

Lemma ledger_no_double_spend_witness : NoDup (spends_of [issue_tx; transfer_tx]).*1.
Proof. apply (ledger_no_double_spend None example_P example_distinct example_P_ok _ _ _ example_free example_chain). Defined.

Lemma ledger_spends_existing_witness : exists t', t' ∈ [issue_tx] /\ tx_creates t' (mkID (str "tx1") 0) (str "coin") /\
  forall t'' o'', t'' ∈ [issue_tx] ++ [transfer_tx] -> tx_creates t'' (mkID (str "tx1") 0) o'' -> t'' = t' /\ o'' = str "coin".
Proof.
  apply (ledger_spends_existing None example_P example_distinct example_P_ok _ [issue_tx] transfer_tx [] _ (mkID (str "tx1") 0)
           (str "coin") example_free example_chain). left.
Defined.

Lemma ledger_queries_witness :
  let t := New state2 in
  (forall r t', QueryTokens (keys_Translator None) (Some <$> [mkID (str "tx1") 0; mkID (str "tx2") 0]) t = (Ok r, t') ->
     r = zip_with (fun id o => if decide (id ∈ (spends_of [issue_tx; transfer_tx]).*1) then [] else o)
           [mkID (str "tx1") 0; mkID (str "tx2") 0] [str "coin"; str "change"]) /\
  (forall r t', AreTokensSpent (keys_Translator None) [key_of (EOutput (str "tx1") 0); key_of (EOutput (str "tx2") 0)] false t = (Ok r, t') ->
     r = (fun id => bool_decide (id ∈ (spends_of [issue_tx; transfer_tx]).*1)) <$> [mkID (str "tx1") 0; mkID (str "tx2") 0]).
Proof.
  intros t. apply (ledger_queries None example_P example_distinct example_P_ok _ [issue_tx; transfer_tx] _ _ _ _ t example_free example_chain).
  - split; [reflexivity|reflexivity].
  - repeat constructor; try discriminate; apply (bool_decide_unpack _); vm_compute; exact I.
  - repeat constructor; vm_compute; reflexivity.
Defined.

(** ** A defect: spent serial numbers are not checked *)

(** A transfer that spends by serial number. *)
Definition sn_tx (id : bytes) : tx := mkTx id
  [ATransfer (mkTransferAction (mkActionWithInputs [] (Ok []) [str "serial"]) 0 (fun _ => false) (fun _ => Ok []) [] true)]
  (str "request").

Definition sn_state1 : stub := Eval vm_compute in after_tx (sn_tx (str "tx1")) genesis.
Definition sn_state2 : stub := Eval vm_compute in after_tx (sn_tx (str "tx2")) sn_state1.

(** A spent serial number does not stop a second spending of it.  The
    check reads the serial number itself as a key, while spending it writes
    another key, for every serial number: nothing recorded makes the check
    fail.  On a concrete ledger two requests that spend the same serial number
    are committed one after the other. *)
Theorem serial_number_spent_twice :
  (forall w sn k st ws v, CreateInputSNKey (keys_Translator w) sn = Ok k ->
     k <> sn /\ apply_writes st (ws ++ [(k, v)]) sn = apply_writes st ws sn) /\
  exists st st1 st2, commits None st (sn_tx (str "tx1")) st1 /\ commits None st1 (sn_tx (str "tx2")) st2.
Proof.
  split.
  - intros w sn k st ws v Hk.
    assert (Hne : k <> sn).
    { intros ->. apply createCompositeKey_eq in Hk as [Hk _]. apply (f_equal length) in Hk. cbn in Hk.
      rewrite !length_app in Hk. cbn in Hk. lia. }
    split; [done|]. unfold apply_writes. rewrite last_write_app. cbn. by rewrite decide_False.
  - exists (fun k => default [] (stub_state genesis !! k)), (fun k => default [] (stub_state sn_state1 !! k)),
      (fun k => default [] (stub_state sn_state2 !! k)).
    split; [apply (run_commits _ genesis sn_state1)|apply (run_commits _ sn_state1 sn_state2)];
      try reflexivity; vm_compute; reflexivity.
Qed.
