(* ===== verification/Htlc.v ===== *)
(** * Hash time-locked contracts (token/services/interop/htlc/script.go,
      keys.go, signer.go, token/services/interop/encoding/encoding.go,
      token/services/identity/interop/htlc/validator.go)

    The script that owns a locked token, the verifier of a claim or reclaim
    signature, and the checks the transfer validators run on a spent or
    created script.  Instants are integers.  Parameters: the registry of
    [crypto.Hash] functions linked into the binary, and the JSON decoders of
    the script and of the claim signature. *)

From S2P Require Import Prelude GoStd Der.
From Stdlib Require Import ZArith Lia.
Local Open Scope Z_scope.

(** ** Encodings (interop/encoding/encoding.go) *)

Definition maxEncoding : Z := 3.

Definition Encodings (e : Z) : option (bytes -> bytes) :=
  if e =? 0 then Some (fun src => src)
  else if e =? 1 then Some base64_EncodeToString
  else if e =? 2 then Some hex_EncodeToString
  else None.

Definition Encoding_New (e : Z) : option (bytes -> bytes) :=
  if e <? maxEncoding then Encodings e else None.

Definition Encoding_Available (e : Z) : bool :=
  (e <? maxEncoding) && (if Encodings e then true else false).

(** ** Scripts (interop/htlc/script.go) *)

Record HashInfo := mkHashInfo { Hash : bytes; HashFunc : Z; HashEncoding : Z }.

Record Script := mkScript {
  Script_Sender : bytes;
  Script_Recipient : bytes;
  Script_Deadline : Z;
  Script_HashInfo : HashInfo;
}.

Record ClaimSignature := mkClaimSignature { RecipientSignature : bytes; Preimage : bytes }.

Definition ScriptType : Z := HTLCScriptIdentityType.

Section Htlc.
Context `{IO : !IdentityOps}.
(** [crypto.Hash(h).New()] followed by [Write] and [Sum], for an available [h]. *)
Context (crypto_Hash : Z -> option (bytes -> bytes)).
(** The lenient and the strict decoder of a claim signature, and the strict
    decoder of a script. *)
Context (json_ClaimSignature json_ClaimSignature_strict : bytes -> res ClaimSignature).
Context (json_Script : bytes -> res Script).

Definition HashInfo_Validate (i : HashInfo) : res unit :=
  if negb (if crypto_Hash (HashFunc i) then true else false) then Err (EMsg "hash function not available")
  else if negb (Encoding_Available (HashEncoding i)) then Err (EMsg "encoding function not available")
  else Ok tt.

Definition HashInfo_Image (i : HashInfo) (preImage : bytes) : res bytes :=
  wrap "hash info not valid" (HashInfo_Validate i) ;;
  match crypto_Hash (HashFunc i), Encoding_New (HashEncoding i) with
  | Some h, Some enc => Ok (enc (h preImage))
  | _, _ => Panic
  end.

Definition HashInfo_Compare (i : HashInfo) (image : bytes) : res unit :=
  if bool_decide (image = Hash i) then Ok tt else Err (EMsg "passed image does not match the hash").

Definition Script_Validate (s : Script) (timeReference : Z) : res unit :=
  if Identity_IsNone (Script_Sender s) then Err (EMsg "sender not set")
  else if Identity_IsNone (Script_Recipient s) then Err (EMsg "recipient not set")
  else if Script_Deadline s <? timeReference then Err (EMsg "expiration date has already passed")
  else HashInfo_Validate (Script_HashInfo s).

(** ** Keys (interop/htlc/keys.go) *)

Definition ClaimPreImage : bytes := str "htlc.cpi".
Definition LockHash : bytes := str "htlc.lh".
Definition ClaimKey (v : bytes) : bytes := ClaimPreImage ++ hex_EncodeToString v.
Definition LockKey (v : bytes) : bytes := LockHash ++ hex_EncodeToString v.
Definition LockValue (v : bytes) : bytes := hex_EncodeToString v.

(** ** Claim and reclaim signatures (interop/htlc/signer.go)

    A verifier is its [Verify] method ([verifier] of Prelude). *)

Definition concatTokenRequestTxIDPreimage (tokenRequestAndTxID preImage : bytes) : bytes :=
  tokenRequestAndTxID ++ preImage.

Definition ClaimVerifier_Verify (Recipient : verifier) (info : HashInfo)
    (tokenRequestAndTxID claimSignature : bytes) : res unit :=
  sig ← wrap "failed to unmarshal claim signature" (json_ClaimSignature claimSignature);
  let msg := concatTokenRequestTxIDPreimage tokenRequestAndTxID (Preimage sig) in
  wrap "failed to verify recipient signature" (Recipient msg (RecipientSignature sig)) ;;
  image ← wrap "failed to compute hash image of the claim preimage" (HashInfo_Image info (Preimage sig));
  if negb (bool_decide (Hash info = image)) then Err (EMsg "hash mismatch") else Ok tt.

(** [now] is what the verifier's clock returns. *)
Definition Verifier_Verify (Recipient Sender : verifier) (Deadline : Z) (info : HashInfo)
    (now : Z) (msg sigma : bytes) : res unit :=
  if now <? Deadline then
    wrap "failed verifying htlc claim signature" (ClaimVerifier_Verify Recipient info msg sigma)
  else
    wrap "deadline elapsed, failed verifying htlc reclaim signature" (Sender msg sigma).

(** ** Checks of the transfer validators (identity/interop/htlc/validator.go) *)

Inductive OperationType := OpNone | OpClaim | OpReclaim.

#[global] Instance OperationType_eq_dec : EqDecision OperationType.
Proof. solve_decision. Defined.

Definition VerifyOwner (senderRawOwner outRawOwner : bytes) (now : Z) : res (Script * OperationType) :=
  if zlen outRawOwner =? 0 then Err (EMsg "the output owner must be set")
  else
    sender ← UnmarshalTypedIdentity senderRawOwner;
    if negb (TI_Type sender =? ScriptType) then Err (EMsg "invalid identity type")
    else
      script ← json_Script (TI_Identity sender);
      if now <? Script_Deadline script then
        if negb (Identity_Equal (Script_Recipient script) outRawOwner)
        then Err (EMsg "owner of output token does not correspond to recipient in htlc request")
        else Ok (script, OpClaim)
      else
        if negb (Identity_Equal (Script_Sender script) outRawOwner)
        then Err (EMsg "owner of output token does not correspond to sender in htlc request")
        else Ok (script, OpReclaim).

Definition MetadataClaimKeyCheck (metadata : gomap bytes) (script : Script) (op : OperationType)
    (sig : bytes) : res bytes :=
  if bool_decide (op = OpReclaim) then Ok []
  else
    claim ← wrap "failed unmarshalling claim signature" (json_ClaimSignature_strict sig);
    if (zlen (Preimage claim) =? 0) || (zlen (RecipientSignature claim) =? 0)
    then Err (EMsg "expected a valid claim preImage and recipient signature")
    else if zlen metadata =? 0 then Err (EMsg "cannot find htlc pre-image, no metadata")
    else
      image ← wrap "failed to compute image" (HashInfo_Image (Script_HashInfo script) (Preimage claim));
      let key := ClaimKey image in
      match gomap_get metadata key with
      | None => Err (EMsg "cannot find htlc pre-image, missing metadata entry")
      | Some value =>
          if negb (bool_decide (value = Preimage claim))
          then Err (EMsg "invalid action, cannot match htlc pre-image with metadata")
          else Ok key
      end.

Definition MetadataLockKeyCheck (metadata : gomap bytes) (script : Script) : res bytes :=
  if zlen metadata =? 0 then Err (EMsg "cannot find htlc lock, no metadata")
  else
    let key := LockKey (Hash (Script_HashInfo script)) in
    match gomap_get metadata key with
    | None => Err (EMsg "cannot find htlc lock, missing metadata entry")
    | Some value =>
        if negb (bool_decide (value = LockValue (Hash (Script_HashInfo script))))
        then Err (EMsg "invalid action, cannot match htlc lock with metadata")
        else Ok key
    end.

(** ** Lemmas *)

Lemma Image_Ok info pre image : HashInfo_Image info pre = Ok image ->
  exists h enc, crypto_Hash (HashFunc info) = Some h /\ Encodings (HashEncoding info) = Some enc /\
    image = enc (h pre).
Proof.
  unfold HashInfo_Image, HashInfo_Validate, Encoding_Available, Encoding_New.
  destruct (crypto_Hash (HashFunc info)) as [h|]; [|done]. cbn.
  destruct (HashEncoding info <? maxEncoding); [|done]. cbn.
  destruct (Encodings (HashEncoding info)) as [enc|]; [|done]. cbn. intros [= <-]. eauto.
Qed.

Lemma Image_no_panic info pre : no_panic (HashInfo_Image info pre).
Proof.
  unfold HashInfo_Image, HashInfo_Validate, Encoding_Available, Encoding_New.
  destruct (crypto_Hash (HashFunc info)) as [h|]; [|done]. cbn.
  destruct (HashEncoding info <? maxEncoding); [|done]. cbn.
  by destruct (Encodings (HashEncoding info)).
Qed.

Lemma ClaimVerifier_Ok Recipient info msg sigma u :
  ClaimVerifier_Verify Recipient info msg sigma = Ok u <->
  exists sig, json_ClaimSignature sigma = Ok sig /\
    Recipient (msg ++ Preimage sig) (RecipientSignature sig) = Ok tt /\
    HashInfo_Image info (Preimage sig) = Ok (Hash info).
Proof.
  destruct u. unfold ClaimVerifier_Verify, concatTokenRequestTxIDPreimage. rewrite res_bind_Ok. split.
  - intros (sig & Hj%wrap_Ok & ([] & Hv%wrap_Ok & (image & Hi%wrap_Ok & H)%res_bind_Ok)%res_bind_Ok).
    exists sig. case_bool_decide; [|done]. subst image. done.
  - intros (sig & Hj & Hv & Hi). exists sig. split; [by apply wrap_Ok|].
    rewrite res_bind_Ok. exists tt. split; [by apply wrap_Ok|]. rewrite res_bind_Ok.
    exists (Hash info). split; [by apply wrap_Ok|]. by rewrite bool_decide_eq_true_2.
Qed.

Lemma ClaimKey_inj v w : ClaimKey v = ClaimKey w -> v = w.
Proof. unfold ClaimKey. intros H%app_inv_head. by apply hex_inj. Qed.

Lemma LockKey_inj v w : LockKey v = LockKey w -> v = w.
Proof. unfold LockKey. intros H%app_inv_head. by apply hex_inj. Qed.

Lemma Claim_Lock_disjoint v w : ClaimKey v <> LockKey w.
Proof. unfold ClaimKey, LockKey. done. Qed.

Lemma VerifyOwner_Ok senderRawOwner outRawOwner now script op :
  VerifyOwner senderRawOwner outRawOwner now = Ok (script, op) <->
  outRawOwner <> [] /\
  (exists id, UnmarshalTypedIdentity senderRawOwner = Ok (mkTypedIdentity ScriptType id) /\
     json_Script id = Ok script) /\
  ((now < Script_Deadline script /\ op = OpClaim /\ outRawOwner = Script_Recipient script) \/
   (Script_Deadline script <= now /\ op = OpReclaim /\ outRawOwner = Script_Sender script)).
Proof.
  unfold VerifyOwner. destruct outRawOwner as [|b out]; [naive_solver|].
  set (outRawOwner := b :: out). change (zlen outRawOwner =? 0) with false. cbv iota.
  rewrite res_bind_Ok. split.
  - intros ([ty id] & Hu & H). cbn [TI_Type TI_Identity] in H.
    destruct (Z.eqb_spec ty ScriptType) as [->|]; [|done]. cbn [negb] in H.
    apply res_bind_Ok in H as (sc & Hj & H).
    destruct (Z.ltb_spec now (Script_Deadline sc)).
    + destruct (Identity_Equal _ _) eqn:E; [|done]. apply Identity_Equal_spec in E. cbn in H. simplify_eq.
      split_and!; [done|eauto|left; done].
    + destruct (Identity_Equal _ _) eqn:E; [|done]. apply Identity_Equal_spec in E. cbn in H. simplify_eq.
      split_and!; [done|eauto|right; done].
  - intros (_ & (id & Hu & Hj) & Hcase). eexists. split; [exact Hu|]. cbn [TI_Type TI_Identity].
    rewrite Z.eqb_refl. cbn [negb]. rewrite Hj. cbn [mbind res_mbind].
    destruct Hcase as [(Hn & -> & ->)|(Hn & -> & ->)].
    + destruct (Z.ltb_spec now (Script_Deadline script)); [|lia].
      by rewrite (proj2 (Identity_Equal_spec _ _)).
    + destruct (Z.ltb_spec now (Script_Deadline script)); [lia|].
      by rewrite (proj2 (Identity_Equal_spec _ _)).
Qed.

(** ** Properties *)

(** A script's token is claimed or reclaimed, never both.  Before the
    deadline a signature is accepted exactly when it carries a preimage of the
    script's hash and the recipient's signature over the message extended with
    that preimage; from the deadline on, exactly when it is the sender's
    signature over the message. *)
Theorem Verifier_Verify_exact Recipient Sender Deadline info now msg sigma :
  Verifier_Verify Recipient Sender Deadline info now msg sigma = Ok tt <->
  (now < Deadline /\ exists sig, json_ClaimSignature sigma = Ok sig /\
     Recipient (msg ++ Preimage sig) (RecipientSignature sig) = Ok tt /\
     HashInfo_Image info (Preimage sig) = Ok (Hash info)) \/
  (Deadline <= now /\ Sender msg sigma = Ok tt).
Proof.
  unfold Verifier_Verify. destruct (Z.ltb_spec now Deadline); rewrite wrap_Ok.
  - rewrite ClaimVerifier_Ok. split; [by left|]. by intros [[_ ?]|[? _]]; [|lia].
  - split; [by right|]. by intros [[? _]|[_ ?]]; [lia|].
Qed.

(** Where a spent script sends its token.  The owner check accepts an
    output owner exactly when it is set, the input's owner is an HTLC script,
    and the output owner is the script's recipient before the deadline (a
    claim) or the script's sender from the deadline on (a reclaim). *)
Theorem VerifyOwner_exact senderRawOwner outRawOwner now script op :
  VerifyOwner senderRawOwner outRawOwner now = Ok (script, op) <->
  outRawOwner <> [] /\
  (exists id, UnmarshalTypedIdentity senderRawOwner = Ok (mkTypedIdentity ScriptType id) /\
     json_Script id = Ok script) /\
  ((now < Script_Deadline script /\ op = OpClaim /\ outRawOwner = Script_Recipient script) \/
   (Script_Deadline script <= now /\ op = OpReclaim /\ outRawOwner = Script_Sender script)).
Proof. apply VerifyOwner_Ok. Qed.

(** A claim publishes the preimage.  If the claim signature verifies
    against the script and the metadata check accepts the same signature, with
    the two JSON decoders agreeing on it, then the action's metadata holds,
    under the claim key of the script's hash, a non-empty preimage of that
    hash: the counterparty can read it off the ledger and claim the other leg
    of the swap. *)
Theorem claim_publishes_preimage Recipient metadata script msg sigma sig key :
  json_ClaimSignature sigma = Ok sig -> json_ClaimSignature_strict sigma = Ok sig ->
  ClaimVerifier_Verify Recipient (Script_HashInfo script) msg sigma = Ok tt ->
  MetadataClaimKeyCheck metadata script OpClaim sigma = Ok key ->
  key = ClaimKey (Hash (Script_HashInfo script)) /\
  gomap_get metadata key = Some (Preimage sig) /\ Preimage sig <> [] /\
  HashInfo_Image (Script_HashInfo script) (Preimage sig) = Ok (Hash (Script_HashInfo script)).
Proof.
  intros Hj Hs (sig' & Hj' & _ & Hi)%ClaimVerifier_Ok. assert (sig' = sig) as -> by congruence.
  unfold MetadataClaimKeyCheck. rewrite bool_decide_eq_false_2 by done. rewrite Hs. cbn [wrap mbind res_mbind].
  destruct (zlen (Preimage sig) =? 0) eqn:Hp; [done|]. cbn [orb].
  destruct (zlen (RecipientSignature sig) =? 0); [done|]. destruct (zlen metadata =? 0); [done|].
  rewrite Hi. cbn [wrap mbind res_mbind]. cbv zeta.
  destruct (gomap_get metadata _) as [value|] eqn:Hg; [|done]. case_bool_decide; [|done].
  cbn. intros [= <-]. subst value. split_and!; [done|done| |done]. intros Hnil. by rewrite Hnil in Hp.
Qed.

(** The two metadata keys of a swap do not interfere.  A claim key and a
    lock key determine the image or the hash they are built from and are never
    equal; the lock check accepts exactly the metadata that maps the lock key
    of the script's hash to its hexadecimal text. *)
Theorem htlc_keys_exact metadata script key v v' :
  (ClaimKey v = ClaimKey v' <-> v = v') /\ (LockKey v = LockKey v' <-> v = v') /\ ClaimKey v <> LockKey v' /\
  (MetadataLockKeyCheck metadata script = Ok key <->
   key = LockKey (Hash (Script_HashInfo script)) /\
   gomap_get metadata key = Some (LockValue (Hash (Script_HashInfo script)))).
Proof.
  split_and!; [split; [apply ClaimKey_inj|by intros ->]|split; [apply LockKey_inj|by intros ->]|apply Claim_Lock_disjoint|].
  unfold MetadataLockKeyCheck. cbv zeta. destruct metadata as [|kv metadata]; [cbn; naive_solver|].
  replace (zlen (kv :: metadata) =? 0) with false by (rewrite zlen_cons; pose proof (zlen_nonneg metadata); lia).
  destruct (gomap_get _ _) as [value|] eqn:Hg.
  - case_bool_decide as Hv; cbn [negb].
    + split; [intros [= <-]; by rewrite Hg, Hv|by intros [-> _]].
    + split; [done|]. intros [-> Hg']. congruence.
  - split; [done|]. intros [-> Hg']. congruence.
Qed.
End Htlc.

(** ** What the metadata checks establish *)

Section HtlcMetadata.
Context (crypto_Hash : Z -> option (bytes -> bytes)) (json_ClaimSignature_strict : bytes -> res ClaimSignature).

(** [sigma] carries a preimage, published under its claim key [k]. *)
Definition claim_published (metadata : gomap bytes) (script : Script) (sigma k : bytes) : Prop :=
  exists claim image, json_ClaimSignature_strict sigma = Ok claim /\
    HashInfo_Image crypto_Hash (Script_HashInfo script) (Preimage claim) = Ok image /\
    k = ClaimKey image /\ gomap_get metadata k = Some (Preimage claim).

Definition lock_published (metadata : gomap bytes) (script : Script) (k : bytes) : Prop :=
  k = LockKey (Hash (Script_HashInfo script)) /\
  gomap_get metadata k = Some (LockValue (Hash (Script_HashInfo script))).

Lemma MetadataClaimKeyCheck_Ok metadata script op sigma k : op <> OpReclaim ->
  MetadataClaimKeyCheck crypto_Hash json_ClaimSignature_strict metadata script op sigma = Ok k ->
  claim_published metadata script sigma k.
Proof.
  intros Hop. unfold MetadataClaimKeyCheck. rewrite bool_decide_eq_false_2 by done.
  intros (claim & Hj%wrap_Ok & H)%res_bind_Ok. destruct (_ || _); [done|]. destruct (zlen _ =? 0); [done|].
  apply res_bind_Ok in H as (image & Hi%wrap_Ok & H). cbv zeta in H.
  destruct (gomap_get _ _) as [value|] eqn:Hg; [|done]. case_bool_decide; [|done]. cbn in H. injection H as <-.
  subst value. by exists claim, image.
Qed.

Lemma MetadataLockKeyCheck_Ok metadata script k :
  MetadataLockKeyCheck metadata script = Ok k -> lock_published metadata script k.
Proof.
  unfold MetadataLockKeyCheck, lock_published. destruct (zlen _ =? 0); [done|]. cbv zeta.
  destruct (gomap_get _ _) as [value|] eqn:Hg; [|done]. case_bool_decide; [|done]. cbn. intros [= <-]. by subst.
Qed.

Lemma claim_published_in metadata script sigma k : claim_published metadata script sigma k -> k ∈ metadata.*1.
Proof. intros (claim & image & _ & _ & _ & H%gomap_get_elem). apply list_elem_of_fmap. by exists (k, Preimage claim). Qed.

Lemma lock_published_in metadata script k : lock_published metadata script k -> k ∈ metadata.*1.
Proof. intros [_ H%gomap_get_elem]. apply list_elem_of_fmap. by eexists (k, _). Qed.
End HtlcMetadata.

(** ** Witnesses: a swap locked by the SHA-256 of a preimage *)

Definition example_info : HashInfo := mkHashInfo (sha256 (str "secret")) 5 0.
Definition example_script : Script := mkScript (str "alice") (str "bob") 100 example_info.
Definition example_hash (h : Z) : option (bytes -> bytes) := if h =? 5 then Some sha256 else None.
Definition example_claim (_ : bytes) : res ClaimSignature := Ok (mkClaimSignature (str "sigma") (str "secret")).
Definition example_metadata : gomap bytes := [(ClaimKey (sha256 (str "secret")), str "secret")].

Lemma claim_publishes_preimage_witness :
  MetadataClaimKeyCheck example_hash example_claim example_metadata example_script OpClaim (str "s")
    = Ok (ClaimKey (sha256 (str "secret"))) /\
  (ClaimKey (sha256 (str "secret")) = ClaimKey (Hash (Script_HashInfo example_script)) /\
   gomap_get example_metadata (ClaimKey (sha256 (str "secret"))) = Some (str "secret") /\ str "secret" <> [] /\
   HashInfo_Image example_hash (Script_HashInfo example_script) (str "secret")
     = Ok (Hash (Script_HashInfo example_script))).
Proof.
  split; [vm_compute; reflexivity|].
  apply (claim_publishes_preimage example_hash example_claim example_claim (fun _ _ => Ok tt) example_metadata
           example_script (str "msg") (str "s") (mkClaimSignature (str "sigma") (str "secret")));
    vm_compute; reflexivity.
Defined.

Lemma VerifyOwner_exact_witness :
  @VerifyOwner bytes_identity (fun _ => Ok example_script) (WrapWithType ScriptType (str "{}")) (str "bob") 99
    = Ok (example_script, OpClaim).
Proof.
  apply (@VerifyOwner_exact bytes_identity example_hash example_claim example_claim (fun _ => Ok example_script)). split_and!; [discriminate| |left; done].
  exists (str "{}"). split; [vm_compute; reflexivity|reflexivity].
Defined.
