(* ===== verification/Limits.v ===== *)
(** * Resource limits (token/driver/limits.go)

    The bounds a validator enforces on untrusted requests, their defaults and
    the overlay of the defaults on a partial configuration. *)

From S2P Require Import Prelude.
From Stdlib Require Import ZArith Lia.
Local Open Scope Z_scope.

Record ResourceLimits := mkResourceLimits {
  MaxRequestBytes : Z;
  MaxActions : Z;
  MaxSignatures : Z;
  MaxSignatureBytes : Z;
  MaxActionBytes : Z;
  MaxInputs : Z;
  MaxOutputs : Z;
  MaxMetadataEntries : Z;
  MaxMetadataKeyBytes : Z;
  MaxMetadataValueBytes : Z;
  MaxProofBytes : Z;
  MaxIdentityDepth : Z;
  MaxIdentityComponents : Z;
}.

Definition DefaultResourceLimits : ResourceLimits := {|
  MaxRequestBytes := Z.shiftl 256 10;
  MaxActions := 256;
  MaxSignatures := 4096;
  MaxSignatureBytes := Z.shiftl 4 10;
  MaxActionBytes := Z.shiftl 256 10;
  MaxInputs := 256;
  MaxOutputs := 256;
  MaxMetadataEntries := 64;
  MaxMetadataKeyBytes := 256;
  MaxMetadataValueBytes := Z.shiftl 4 10;
  MaxProofBytes := Z.shiftl 128 10;
  MaxIdentityDepth := 5;
  MaxIdentityComponents := 16;
|}.

(** [if l.F <= 0 { l.F = d.F }]. *)
Definition or_default (v d : Z) : Z := if v <=? 0 then d else v.

Definition WithDefaults (l : ResourceLimits) : ResourceLimits :=
  let d := DefaultResourceLimits in {|
  MaxRequestBytes := or_default (MaxRequestBytes l) (MaxRequestBytes d);
  MaxActions := or_default (MaxActions l) (MaxActions d);
  MaxSignatures := or_default (MaxSignatures l) (MaxSignatures d);
  MaxSignatureBytes := or_default (MaxSignatureBytes l) (MaxSignatureBytes d);
  MaxActionBytes := or_default (MaxActionBytes l) (MaxActionBytes d);
  MaxInputs := or_default (MaxInputs l) (MaxInputs d);
  MaxOutputs := or_default (MaxOutputs l) (MaxOutputs d);
  MaxMetadataEntries := or_default (MaxMetadataEntries l) (MaxMetadataEntries d);
  MaxMetadataKeyBytes := or_default (MaxMetadataKeyBytes l) (MaxMetadataKeyBytes d);
  MaxMetadataValueBytes := or_default (MaxMetadataValueBytes l) (MaxMetadataValueBytes d);
  MaxProofBytes := or_default (MaxProofBytes l) (MaxProofBytes d);
  MaxIdentityDepth := or_default (MaxIdentityDepth l) (MaxIdentityDepth d);
  MaxIdentityComponents := or_default (MaxIdentityComponents l) (MaxIdentityComponents d);
|}.

(** The fields, for statements about all of them. *)
Definition limit_fields : list (ResourceLimits -> Z) :=
  [MaxRequestBytes; MaxActions; MaxSignatures; MaxSignatureBytes; MaxActionBytes; MaxInputs; MaxOutputs;
   MaxMetadataEntries; MaxMetadataKeyBytes; MaxMetadataValueBytes; MaxProofBytes; MaxIdentityDepth;
   MaxIdentityComponents].

Lemma or_default_spec v d : 0 < d -> 0 < or_default v d /\ (0 < v -> or_default v d = v) /\
  (v <= 0 -> or_default v d = d) /\ or_default (or_default v d) d = or_default v d.
Proof.
  unfold or_default. intros Hd. destruct (Z.leb_spec v 0).
  - destruct (Z.leb_spec d 0); [lia|]. split_and!; lia.
  - destruct (Z.leb_spec v 0); [lia|]. split_and!; lia.
Qed.

(** No limit is ever disabled.  Whatever a configuration leaves unset or
    gets wrong, every effective limit is positive: a positive setting is kept,
    any other setting becomes the default; resolving twice changes nothing. *)
Theorem WithDefaults_effective l :
  Forall (fun f => 0 < f (WithDefaults l) /\ (0 < f l -> f (WithDefaults l) = f l) /\
                   (f l <= 0 -> f (WithDefaults l) = f DefaultResourceLimits)) limit_fields /\
  WithDefaults (WithDefaults l) = WithDefaults l.
Proof.
  split.
  - repeat (apply Forall_cons_2; [cbn [WithDefaults MaxRequestBytes MaxActions MaxSignatures MaxSignatureBytes
      MaxActionBytes MaxInputs MaxOutputs MaxMetadataEntries MaxMetadataKeyBytes MaxMetadataValueBytes
      MaxProofBytes MaxIdentityDepth MaxIdentityComponents];
      match goal with |- 0 < or_default ?v ?d /\ _ => destruct (or_default_spec v d) as (? & ? & ? & _); [reflexivity|] end;
      split_and!; assumption|]). apply Forall_nil_2.
  - unfold WithDefaults at 1. cbn [WithDefaults MaxRequestBytes MaxActions MaxSignatures MaxSignatureBytes
      MaxActionBytes MaxInputs MaxOutputs MaxMetadataEntries MaxMetadataKeyBytes MaxMetadataValueBytes
      MaxProofBytes MaxIdentityDepth MaxIdentityComponents].
    unfold WithDefaults. f_equal; apply or_default_spec; reflexivity.
Qed.
