(* ===== verification/PolicyParser.v ===== *)
(** * The parser of boolean policies (services/identity/boolpolicy/parser.go)

    The tree, the lexer over the runes of the expression, and the recursive
    descent with its one-token lookahead, its latched error and its three
    limits.  The loops of the parser are recursive functions with fuel; [None]
    is a parser that has run out of it, which [Parse] turns into a panic.  The
    specification is the grammar of the package comment as an inductive relation
    ([derives]), with the nesting depth as an index: the parser accepts exactly
    the texts whose tokens the grammar derives within the limits, it always
    terminates, and it reads back the printed form of a tree. *)

From S2P Require Import Prelude GoStd Quantity GoText.
From Stdlib Require Import ZArith Lia.
Local Open Scope Z_scope.

Definition maxPolicyLen : Z := 4 * 1024.
Definition maxParseDepth : Z := 64.
Definition maxParseNodes : Z := 1024.

(** ** The tree

    The interface [Node] has three implementations; [NilNode] is its nil value,
    which the parser returns and may hang under a node on an error path. *)
Inductive Node : Type :=
| NilNode
| RefNode (Index : Z)
| AndNode (Left Right : Node)
| OrNode (Left Right : Node).

#[global] Instance Node_eq_dec : EqDecision Node.
Proof. solve_decision. Defined.

(** [Eval] on a nil node is a nil dereference. *)
Fixpoint Eval (n : Node) (refs : list bool) : res bool :=
  match n with
  | NilNode => Panic
  | RefNode i => if (i <? 0) || (zlen refs <=? i) then Ok false else Ok (default false (refs !! Z.to_nat i))
  | AndNode l r => Eval l refs ≫= fun b : bool => if b then Eval r refs else Ok false
  | OrNode l r => Eval l refs ≫= fun b : bool => if b then Ok true else Eval r refs
  end.

(** [String], with [%s] of a nil interface. *)
Fixpoint Node_String (n : Node) : bytes :=
  match n with
  | NilNode => str "%!s(<nil>)"
  | RefNode i => ch "$" :: Text 10 i
  | AndNode l r => str "(" ++ Node_String l ++ str " AND " ++ Node_String r ++ str ")"
  | OrNode l r => str "(" ++ Node_String l ++ str " OR " ++ Node_String r ++ str ")"
  end.

(** ** Lexer *)

Inductive tokenKind := tokEOF | tokRef | tokAnd | tokOr | tokLParen | tokRParen.

#[global] Instance tokenKind_eq_dec : EqDecision tokenKind.
Proof. solve_decision. Defined.

Record lexToken := mkTok { kind : tokenKind; index : Z }.

#[global] Instance lexToken_eq_dec : EqDecision lexToken.
Proof. solve_decision. Defined.

Record lexer := mkLexer { l_runes : list Z; l_pos : nat }.

Definition newLexer (s : bytes) : lexer := mkLexer (string_runes s) 0.

(** [for l.pos < len(l.runes) && p(l.runes[l.pos]) { l.pos++ }]. *)
Fixpoint span (p : Z -> bool) (rs : list Z) : nat :=
  match rs with
  | r :: rs => if p r then S (span p rs) else O
  | [] => O
  end.

Definition scan (p : Z -> bool) (l : lexer) : lexer :=
  mkLexer (l_runes l) (l_pos l + span p (drop (l_pos l) (l_runes l))).

Definition skipSpace (l : lexer) : lexer := scan IsSpace l.

(** [l.runes[start:l.pos]]. *)
Definition l_slice (l : lexer) (start : nat) : list Z := take (l_pos l - start) (drop start (l_runes l)).

Definition bump (l : lexer) : lexer := mkLexer (l_runes l) (S (l_pos l)).

Definition word (s : string) : list Z := b2z <$> str s.
Definition rune (s : string) : Z := b2z (ch s).

Section Parser.
Context {UT : UnicodeTables}.

Definition next (l : lexer) : res lexToken * lexer :=
  let l := skipSpace l in
  match l_runes l !! l_pos l with
  | None => (Ok (mkTok tokEOF 0), l)
  | Some c =>
      if c =? rune "(" then (Ok (mkTok tokLParen 0), bump l)
      else if c =? rune ")" then (Ok (mkTok tokRParen 0), bump l)
      else if c =? rune "$" then
        let l := bump l in
        let start := l_pos l in
        let l := scan IsDigit l in
        if (l_pos l =? start)%nat then (Err (EMsg "expected digit after '$'"), l)
        else (idx ← wrap "invalid index" (Atoi (runes_string (l_slice l start))); Ok (mkTok tokRef idx), l)
      else if IsLetter c then
        let start := l_pos l in
        let l := scan IsLetter l in
        let w := ToUpper (l_slice l start) in
        if bool_decide (w = word "AND") then (Ok (mkTok tokAnd 0), l)
        else if bool_decide (w = word "OR") then (Ok (mkTok tokOr 0), l)
        else (Err (EMsg "unknown keyword"), l)
      else (Err (EMsg "unexpected character"), l)
  end.

(** ** Parser *)

Record parser := mkParser { lex : lexer; current : lexToken; err : option error; nodes : Z }.

Definition set_err (e : error) (p : parser) : parser := mkParser (lex p) (current p) (Some e) (nodes p).

(** [p.nodes++], the test of the budget and the latched error. *)
Definition countNode (p : parser) : bool * parser :=
  let p := mkParser (lex p) (current p) (err p) (nodes p + 1) in
  if maxParseNodes <? nodes p then
    (false, match err p with
            | None => set_err (EMsg "policy expression exceeds maximum node count") p
            | Some _ => p
            end)
  else (true, p).

(** [p.current, p.err = p.lex.next()]; on an error the token is the zero one,
    which is the end of input. *)
Definition advance (p : parser) : parser :=
  match err p with
  | Some _ => p
  | None =>
      match next (lex p) with
      | (Ok t, l) => mkParser l t None (nodes p)
      | (Err e, l) => mkParser l (mkTok tokEOF 0) (Some e) (nodes p)
      | (Panic, l) => mkParser l (mkTok tokEOF 0) None (nodes p)
      end
  end.

(** [p.err == nil && p.current.kind == k]. *)
Definition at_kind (k : tokenKind) (p : parser) : bool :=
  match err p with None => bool_decide (kind (current p) = k) | Some _ => false end.

Fixpoint parseOr (fuel : nat) (depth : Z) (p : parser) : option (Node * parser) :=
  match fuel with
  | O => None
  | S f => '(lft, p) ← parseAnd f depth p; or_loop f depth lft p
  end
with or_loop (fuel : nat) (depth : Z) (lft : Node) (p : parser) : option (Node * parser) :=
  match fuel with
  | O => None
  | S f =>
      if at_kind tokOr p then
        '(rgt, p) ← parseAnd f depth (advance p);
        match countNode p with
        | (false, p) => Some (NilNode, p)
        | (true, p) => or_loop f depth (OrNode lft rgt) p
        end
      else Some (lft, p)
  end
with parseAnd (fuel : nat) (depth : Z) (p : parser) : option (Node * parser) :=
  match fuel with
  | O => None
  | S f => '(lft, p) ← parsePrimary f depth p; and_loop f depth lft p
  end
with and_loop (fuel : nat) (depth : Z) (lft : Node) (p : parser) : option (Node * parser) :=
  match fuel with
  | O => None
  | S f =>
      if at_kind tokAnd p then
        '(rgt, p) ← parsePrimary f depth (advance p);
        match countNode p with
        | (false, p) => Some (NilNode, p)
        | (true, p) => and_loop f depth (AndNode lft rgt) p
        end
      else Some (lft, p)
  end
with parsePrimary (fuel : nat) (depth : Z) (p : parser) : option (Node * parser) :=
  match fuel with
  | O => None
  | S f =>
      match err p with
      | Some _ => Some (NilNode, p)
      | None =>
          match kind (current p) with
          | tokRef =>
              match countNode p with
              | (false, p) => Some (NilNode, p)
              | (true, p) => Some (RefNode (index (current p)), advance p)
              end
          | tokLParen =>
              if maxParseDepth <=? depth then
                Some (NilNode, set_err (EMsg "policy expression exceeds maximum nesting depth") p)
              else
                '(node, p) ← parseOr f (depth + 1) (advance p);
                match err p with
                | Some _ => Some (NilNode, p)
                | None =>
                    if bool_decide (kind (current p) = tokRParen) then Some (node, advance p)
                    else Some (NilNode, set_err (EMsg "expected ')'") p)
                end
          | _ => Some (NilNode, set_err (EMsg "expected '$N' or '('") p)
          end
      end
  end.

(** Five calls are made at most between two tokens. *)
Definition parse_fuel (input : bytes) : nat := 5 * length (string_runes input) + 10.

Definition Parse (input : bytes) : res Node :=
  _ ← reject_if (maxPolicyLen <? zlen input) (EMsg "policy expression exceeds maximum length");
  let p := advance (mkParser (newLexer input) (mkTok tokEOF 0) None 0) in
  match err p with
  | Some e => Err e
  | None =>
      match parseOr (parse_fuel input) 0 p with
      | None => Panic
      | Some (node, p) =>
          match err p with
          | Some e => Err e
          | None =>
              _ ← reject_if (negb (bool_decide (kind (current p) = tokEOF))) (EMsg "unexpected token after expression");
              Ok node
          end
      end
  end.

(** ** Termination

    [weight] counts the tokens the parser may still read: every [advance] past a
    token decreases it, and no function increases it. *)

Definition remaining (l : lexer) : nat := length (l_runes l) - l_pos l.

Definition weight (p : parser) : nat :=
  match err p with
  | Some _ => 0
  | None => if bool_decide (kind (current p) = tokEOF) then 0 else S (remaining (lex p))
  end.

Lemma span_length q rs : (span q rs <= length rs)%nat.
Proof. induction rs as [|r rs IH]; cbn; [lia|]. destruct (q r); lia. Qed.

Lemma scan_remaining q l : (remaining (scan q l) <= remaining l)%nat.
Proof. unfold remaining, scan; cbn. lia. Qed.

(** Reading a token either reaches the end of the text or moves forward. *)
Lemma next_progress l t l' : next l = (Ok t, l') -> kind t = tokEOF \/ (remaining l' < remaining l)%nat.
Proof.
  unfold next. pose proof (scan_remaining IsSpace l) as Hs. fold (skipSpace l) in Hs. set (l1 := skipSpace l) in *. clearbody l1.
  destruct (l_runes l1 !! l_pos l1) as [c|] eqn:Hc; [|intros [= <- <-]; by left].
  apply lookup_lt_Some in Hc as Hlt.
  assert (remaining (bump l1) < remaining l1)%nat as Hb by (unfold remaining; cbn; lia).
  destruct (c =? rune "("); [intros [= <- <-]; right; lia|].
  destruct (c =? rune ")"); [intros [= <- <-]; right; lia|].
  destruct (c =? rune "$").
  { pose proof (scan_remaining IsDigit (bump l1)). case_match; [done|].
    intros [= _ <-]. right. lia. }
  destruct (IsLetter c) eqn:HL; [|done].
  assert (remaining (scan IsLetter l1) < remaining l1)%nat as Hw.
  { unfold remaining, scan; cbn. rewrite (drop_S _ c) by done. cbn [span]. rewrite HL. lia. }
  repeat case_match; try done; intros [= _ <-]; right; lia.
Qed.

Lemma at_kind_true k p : at_kind k p = true <-> err p = None /\ kind (current p) = k.
Proof. unfold at_kind. destruct (err p); [naive_solver|]. rewrite bool_decide_eq_true. naive_solver. Qed.

Lemma advance_weight p : (weight (advance p) <= remaining (lex p))%nat \/ err p <> None.
Proof.
  unfold advance. destruct (err p); [by right|]. left. destruct (next (lex p)) as [[t|e|] l] eqn:E; unfold weight; cbn [err current kind lex]; try lia.
  - apply next_progress in E as [E|]; case_bool_decide; done || lia.
  - rewrite bool_decide_true by done. lia.
Qed.

Lemma advance_decreases p : err p = None -> kind (current p) <> tokEOF -> (weight (advance p) < weight p)%nat.
Proof.
  intros He Hk. destruct (advance_weight p) as [H|]; [|done].
  unfold weight at 2. rewrite He, bool_decide_false by done. lia.
Qed.

Lemma countNode_weight p : (weight (snd (countNode p)) <= weight p)%nat.
Proof.
  unfold countNode, weight; cbn [nodes err]. destruct (_ <? _); cbn [snd]; [|done].
  destruct (err p) as [e|] eqn:He; cbn [err set_err]; lia.
Qed.

Lemma set_err_weight e p : weight (set_err e p) = O.
Proof. done. Qed.

(** A parsing function returns, on a parser with no more tokens to read. *)
Definition returns (r : option (Node * parser)) (p : parser) : Prop :=
  exists n p', r = Some (n, p') /\ (weight p' <= weight p)%nat.

Lemma returns_bind r p q k : returns r q -> (weight q <= weight p)%nat ->
  (forall n p', (weight p' <= weight q)%nat -> returns (k (n, p')) p) -> returns (r ≫= k) p.
Proof. intros (n & p' & -> & Hw) Hq Hk. cbn. by apply Hk. Qed.

Lemma returns_le r p q : returns r q -> (weight q <= weight p)%nat -> returns r p.
Proof. intros (n & p' & -> & Hw) Hq. exists n, p'. split; [done|lia]. Qed.

Lemma returns_now n p q : (weight q <= weight p)%nat -> returns (Some (n, q)) p.
Proof. by exists n, q. Qed.

(** The fuel each function needs, by the tokens left. *)
Lemma parser_returns f :
  (forall d p, (5 * weight p + 5 <= f)%nat -> returns (parseOr f d p) p) /\
  (forall d n p, (5 * weight p + 4 <= f)%nat -> returns (or_loop f d n p) p) /\
  (forall d p, (5 * weight p + 3 <= f)%nat -> returns (parseAnd f d p) p) /\
  (forall d n p, (5 * weight p + 2 <= f)%nat -> returns (and_loop f d n p) p) /\
  (forall d p, (5 * weight p + 1 <= f)%nat -> returns (parsePrimary f d p) p).
Proof.
  induction f as [|f (IHor & IHol & IHand & IHal & IHp)]; [split_and!; intros; lia|].
  split_and!.
  - intros d p Hf. cbn [parseOr]. eapply returns_bind; [apply IHand; lia|done|].
    intros n p' Hw; cbn. eapply returns_le; [apply IHol|]; lia.
  - intros d n p Hf. cbn [or_loop]. destruct (at_kind tokOr p) eqn:Hk; [|by apply returns_now].
    apply at_kind_true in Hk as [He Hk]. pose proof (advance_decreases p He ltac:(congruence)) as Hd.
    eapply returns_bind; [apply IHand; lia|lia|]. intros n' p' Hw; cbn.
    pose proof (countNode_weight p') as Hc. destruct (countNode p') as [[] p'']; cbn in Hc.
    + eapply returns_le; [apply IHol|]; lia.
    + apply returns_now. lia.
  - intros d p Hf. cbn [parseAnd]. eapply returns_bind; [apply IHp; lia|done|].
    intros n p' Hw; cbn. eapply returns_le; [apply IHal|]; lia.
  - intros d n p Hf. cbn [and_loop]. destruct (at_kind tokAnd p) eqn:Hk; [|by apply returns_now].
    apply at_kind_true in Hk as [He Hk]. pose proof (advance_decreases p He ltac:(congruence)) as Hd.
    eapply returns_bind; [apply IHp; lia|lia|]. intros n' p' Hw; cbn.
    pose proof (countNode_weight p') as Hc. destruct (countNode p') as [[] p'']; cbn in Hc.
    + eapply returns_le; [apply IHal|]; lia.
    + apply returns_now. lia.
  - intros d p Hf. cbn [parsePrimary]. destruct (err p) eqn:He; [by apply returns_now|].
    destruct (kind (current p)) eqn:Hk; try (apply returns_now; rewrite set_err_weight; lia).
    + pose proof (countNode_weight p) as Hc. destruct (countNode p) as [[] p''] eqn:Ec; cbn in Hc; apply returns_now; [|lia].
      unfold countNode in Ec. case_match; [destruct (err p); done|]. injection Ec as <-.
      assert (weight (advance p) < weight p)%nat by (apply advance_decreases; congruence).
      enough (weight (advance (mkParser (lex p) (current p) (err p) (nodes p + 1))) = weight (advance p)) by lia.
      unfold advance, weight; cbn. rewrite He. by destruct (next (lex p)) as [[| |] ?].
    + destruct (maxParseDepth <=? d); [apply returns_now; rewrite set_err_weight; lia|].
      pose proof (advance_decreases p He ltac:(congruence)) as Hd.
      eapply returns_bind; [apply IHor; lia|lia|]. intros n p' Hw; cbn.
      destruct (err p') eqn:He'; [apply returns_now; lia|]. case_bool_decide as Hk'; apply returns_now.
      * pose proof (advance_decreases p' He' ltac:(congruence)). lia.
      * rewrite set_err_weight. lia.
Qed.

Definition initial (input : bytes) : parser := mkParser (newLexer input) (mkTok tokEOF 0) None 0.

Lemma initial_returns input :
  returns (parseOr (parse_fuel input) 0 (advance (initial input))) (advance (initial input)).
Proof.
  destruct (parser_returns (parse_fuel input)) as (Hor & _). apply Hor.
  destruct (advance_weight (initial input)) as [H|]; [|done]. unfold parse_fuel.
  change (remaining (lex (initial input))) with (length (string_runes input) - 0)%nat in H. lia.
Qed.

Lemma Parse_no_panic input : no_panic (Parse input).
Proof.
  unfold Parse. destruct (reject_if _ _) eqn:E0; cbn [mbind res_mbind]; [|done|by unfold reject_if in E0; case_match].
  fold (initial input). destruct (err (advance (initial input))); [done|].
  destruct (initial_returns input) as (n & p' & -> & _).
  destruct (err p'); [done|]. unfold reject_if. by case_match.
Qed.

(** ** The grammar

    [derives s d ts n]: the nonterminal [s], inside [d] parentheses, derives the
    tokens [ts] with the tree [n].  The repetitions of the package comment are
    left recursive here, since both operators associate to the left. *)

Inductive symbol := or_expr | and_expr | primary.

Inductive derives : symbol -> Z -> list lexToken -> Node -> Prop :=
| D_or_and d ts n : derives and_expr d ts n -> derives or_expr d ts n
| D_or d ts1 t ts2 l r :
    derives or_expr d ts1 l -> kind t = tokOr -> derives and_expr d ts2 r ->
    derives or_expr d (ts1 ++ t :: ts2) (OrNode l r)
| D_and_primary d ts n : derives primary d ts n -> derives and_expr d ts n
| D_and d ts1 t ts2 l r :
    derives and_expr d ts1 l -> kind t = tokAnd -> derives primary d ts2 r ->
    derives and_expr d (ts1 ++ t :: ts2) (AndNode l r)
| D_ref d t : kind t = tokRef -> derives primary d [t] (RefNode (index t))
| D_paren d t ts t' n :
    kind t = tokLParen -> d < maxParseDepth -> derives or_expr (d + 1) ts n -> kind t' = tokRParen ->
    derives primary d (t :: ts ++ [t']) n.

(** The number of nodes of a tree. *)
Fixpoint node_count (n : Node) : Z :=
  match n with
  | NilNode => 0
  | RefNode _ => 1
  | AndNode l r | OrNode l r => node_count l + node_count r + 1
  end.

Lemma node_count_nonneg n : 0 <= node_count n.
Proof. induction n; cbn; lia. Qed.

(** The tokens the lexer produces up to the end of the text. *)
Inductive tokens : lexer -> list lexToken -> Prop :=
| tokens_eof l t l' : next l = (Ok t, l') -> kind t = tokEOF -> tokens l []
| tokens_cons l t l' ts : next l = (Ok t, l') -> kind t <> tokEOF -> tokens l' ts -> tokens l (t :: ts).

(** The tokens ahead of a parser, the current one first. *)
Definition ahead (p : parser) (ts : list lexToken) : Prop :=
  err p = None /\
  match ts with
  | [] => kind (current p) = tokEOF
  | t :: ts => current p = t /\ kind t <> tokEOF /\ tokens (lex p) ts
  end.

(** ** Soundness: what the parser accepts, the grammar derives *)

(** [p] reads the tokens [ts] and becomes [p']. *)
Definition reads (p : parser) (ts : list lexToken) (p' : parser) : Prop :=
  forall rest, ahead p' rest -> ahead p (ts ++ rest).

Lemma reads_app p ts p1 ts' p2 : reads p ts p1 -> reads p1 ts' p2 -> reads p (ts ++ ts') p2.
Proof. intros H1 H2 rest H. rewrite <- app_assoc. by apply H1, H2. Qed.

Lemma reads_same p p' : err p = err p' -> current p = current p' -> lex p = lex p' -> reads p [] p'.
Proof. intros He Hc Hl rest. unfold ahead. cbn. by rewrite He, Hc, Hl. Qed.

Lemma next_no_panic l l' : next l <> (Panic, l').
Proof.
  unfold next. repeat case_match; try done. intros [= HP _]. revert HP. unfold wrap.
  destruct (Atoi _) eqn:E; try done. by apply Atoi_no_panic in E.
Qed.

Lemma ahead_advance p rest : err p = None -> ahead (advance p) rest <-> tokens (lex p) rest.
Proof.
  intros He. unfold ahead, advance. rewrite He.
  split.
  - destruct (next (lex p)) as [[t|e|] l] eqn:E; cbn [err current lex].
    + intros [_ H]. destruct rest as [|t' rest]; [by eapply tokens_eof|].
      destruct H as (<- & Hk & Ht). by eapply tokens_cons.
    + by intros [[=] _].
    + by apply next_no_panic in E.
  - inversion 1 as [? t l' En Hk|? t l' ts En Hk Ht]; subst; rewrite En; cbn; auto.
Qed.


Lemma reads_advance p : err p = None -> kind (current p) <> tokEOF -> reads p [current p] (advance p).
Proof. intros He Hk rest H%ahead_advance; [|done]. by split. Qed.

Lemma advance_err p : err (advance p) = None -> err p = None.
Proof. unfold advance. destruct (err p) eqn:E; [by rewrite E|done]. Qed.

Lemma advance_nodes p : nodes (advance p) = nodes p.
Proof. unfold advance. destruct (err p); [done|]. by destruct (next (lex p)) as [[| |] ?]. Qed.

Lemma countNode_inv p b p' : countNode p = (b, p') -> err p' = None ->
  b = true /\ p' = mkParser (lex p) (current p) (err p) (nodes p + 1) /\ nodes p' <= maxParseNodes.
Proof.
  unfold countNode; cbn [nodes err]. destruct (Z.ltb_spec maxParseNodes (nodes p + 1)).
  - intros [= <- <-]. destruct (err p) eqn:E; cbn; congruence.
  - intros [= <- <-] _. split_and!; [done|done|cbn; lia].
Qed.

(** The outcome of a parsing function that did not fail: it read tokens that the
    grammar derives, and counted the nodes of the tree. *)
Definition parsed_as (s : symbol) (d : Z) (p : parser) (n : Node) (p' : parser) : Prop :=
  err p = None /\ nodes p' = nodes p + node_count n /\ nodes p' <= maxParseNodes /\
  exists ts, derives s d ts n /\ reads p ts p'.

(** The outcome of a loop: it extends the derivation of what is on its left. *)
Definition loop_as (s : symbol) (d : Z) (lft : Node) (p : parser) (n : Node) (p' : parser) : Prop :=
  err p = None /\ nodes p' = nodes p + node_count n - node_count lft /\
  (nodes p <= maxParseNodes -> nodes p' <= maxParseNodes) /\
  exists ts, (forall ts0, derives s d ts0 lft -> derives s d (ts0 ++ ts) n) /\ reads p ts p'.

Lemma loop_stop s d n p : err p = None -> loop_as s d n p n p.
Proof.
  intros He. split_and!; [done|lia|done|]. exists []. split; [intros ?; by rewrite app_nil_r|by apply reads_same].
Qed.

Lemma loop_parsed s s' d p n1 p1 n p' : (forall ts, derives s' d ts n1 -> derives s d ts n1) ->
  parsed_as s' d p n1 p1 -> loop_as s d n1 p1 n p' -> parsed_as s d p n p'.
Proof.
  intros Hs (He & Hn & Hm & ts & Hd & Hr) (_ & Hn' & Hm' & ts' & Hd' & Hr'). split_and!; [done|lia|auto|].
  exists (ts ++ ts'). split; [auto|by eapply reads_app].
Qed.

(** One turn of a loop: an operator token, an operand and one more node. *)
Lemma loop_turn s s' d k lft rgt p p1 p2 n p' (op : Node -> Node -> Node) :
  (forall ts t ts' l r, derives s d ts l -> kind t = k -> derives s' d ts' r -> derives s d (ts ++ t :: ts') (op l r)) ->
  (forall l r, node_count (op l r) = node_count l + node_count r + 1) ->
  k <> tokEOF -> at_kind k p = true -> parsed_as s' d (advance p) rgt p1 -> countNode p1 = (true, p2) -> err p2 = None ->
  loop_as s d (op lft rgt) p2 n p' -> loop_as s d lft p n p'.
Proof.
  intros Hop Hc Hk [He Hk']%at_kind_true (He1 & Hn1 & Hm1 & ts1 & Hd1 & Hr1) Hcn He2 (_ & Hn & Hm & ts & Hd & Hr).
  destruct (countNode_inv _ _ _ Hcn He2) as (_ & -> & Hm2). cbn [nodes] in *. rewrite advance_nodes in Hn1.
  rewrite Hc in Hn. split_and!; [done|lia|auto|]. exists (current p :: ts1 ++ ts). split.
  - intros ts0 H0. specialize (Hop _ _ _ _ _ H0 Hk' Hd1). apply Hd in Hop. by rewrite <- app_assoc in Hop.
  - change (current p :: ts1 ++ ts) with ([current p] ++ (ts1 ++ ts)).
    eapply reads_app; [apply reads_advance; congruence|]. eapply reads_app; [exact Hr1|].
    intros rest H. specialize (Hr _ H). by destruct Hr.
Qed.

(** A reference: one node, one token. *)
Lemma ref_parsed d p p1 : err p = None -> kind (current p) = tokRef -> countNode p = (true, p1) ->
  parsed_as primary d p (RefNode (index (current p1))) (advance p1).
Proof.
  intros He Hk Hc. assert (err p1 = None) as He1.
  { unfold countNode in Hc. case_match; [done|]. by injection Hc as <-. }
  destruct (countNode_inv _ _ _ Hc He1) as (_ & -> & Hm). cbn [current nodes] in *.
  split_and!; [done|by rewrite advance_nodes|by rewrite advance_nodes|]. exists [current p].
  split; [by constructor|]. intros rest H%ahead_advance; [|done]. split; [done|]. split_and!; [done|congruence|done].
Qed.

Lemma parser_sound f :
  (forall d p n p', parseOr f d p = Some (n, p') -> err p' = None -> parsed_as or_expr d p n p') /\
  (forall d l p n p', or_loop f d l p = Some (n, p') -> err p' = None -> loop_as or_expr d l p n p') /\
  (forall d p n p', parseAnd f d p = Some (n, p') -> err p' = None -> parsed_as and_expr d p n p') /\
  (forall d l p n p', and_loop f d l p = Some (n, p') -> err p' = None -> loop_as and_expr d l p n p') /\
  (forall d p n p', parsePrimary f d p = Some (n, p') -> err p' = None -> parsed_as primary d p n p').
Proof.
  induction f as [|f (IHor & IHol & IHand & IHal & IHp)]; [done|]. split_and!.
  - intros d p n p' ([n1 p1] & H1 & H2)%bind_Some He. cbn in H2. specialize (IHol _ _ _ _ _ H2 He) as Hl.
    eapply loop_parsed; [|eapply IHand; [exact H1|apply Hl]|exact Hl]. by constructor.
  - intros d l p n p'. cbn [or_loop]. destruct (at_kind tokOr p) eqn:Hk.
    2:{ intros [= -> ->] He. by apply loop_stop. }
    intros ([r p1] & H1 & H2)%bind_Some He. cbn in H2. destruct (countNode p1) as [b p2] eqn:Hc. destruct b.
    + pose proof (IHol _ _ _ _ _ H2 He) as Hl. destruct (countNode_inv _ _ _ Hc (proj1 Hl)) as (_ & -> & _).
      eapply (loop_turn _ and_expr _ tokOr _ r p p1 _ _ _ OrNode); eauto; [by constructor| |apply Hl].
      eapply IHand; [exact H1|apply Hl].
    + injection H2 as <- <-. by destruct (countNode_inv _ _ _ Hc He).
  - intros d p n p' ([n1 p1] & H1 & H2)%bind_Some He. cbn in H2. specialize (IHal _ _ _ _ _ H2 He) as Hl.
    eapply loop_parsed; [|eapply IHp; [exact H1|apply Hl]|exact Hl]. by constructor.
  - intros d l p n p'. cbn [and_loop]. destruct (at_kind tokAnd p) eqn:Hk.
    2:{ intros [= -> ->] He. by apply loop_stop. }
    intros ([r p1] & H1 & H2)%bind_Some He. cbn in H2. destruct (countNode p1) as [b p2] eqn:Hc. destruct b.
    + pose proof (IHal _ _ _ _ _ H2 He) as Hl. destruct (countNode_inv _ _ _ Hc (proj1 Hl)) as (_ & -> & _).
      eapply (loop_turn _ primary _ tokAnd _ r p p1 _ _ _ AndNode); eauto; [by constructor| |apply Hl].
      eapply IHp; [exact H1|apply Hl].
    + injection H2 as <- <-. by destruct (countNode_inv _ _ _ Hc He).
  - intros d p n p'. cbn [parsePrimary]. destruct (err p) eqn:He0; [intros [= <- <-]; congruence|].
    destruct (kind (current p)) eqn:Hk; try (by intros [= <- <-]).
    + destruct (countNode p) as [b p1] eqn:Hc. destruct b; intros [= <- <-] He.
      * by apply ref_parsed.
      * by destruct (countNode_inv _ _ _ Hc He).
    + destruct (Z.leb_spec maxParseDepth d) as [|Hd]; [by intros [= <- <-]|].
      intros ([n1 p1] & H1 & H2)%bind_Some He. cbn in H2. destruct (err p1) eqn:He1; [injection H2 as <- <-; congruence|].
      case_bool_decide as Hk1; [|by injection H2 as <- <-]. injection H2 as <- <-.
      destruct (IHor _ _ _ _ H1 He1) as (_ & Hn & Hm & ts & Hd1 & Hr). rewrite advance_nodes in Hn.
      split_and!; [done|by rewrite advance_nodes|by rewrite advance_nodes|].
      exists (current p :: ts ++ [current p1]). split; [by constructor|].
      change (current p :: ts ++ [current p1]) with ([current p] ++ (ts ++ [current p1])).
      eapply reads_app; [apply reads_advance; congruence|]. eapply reads_app; [exact Hr|].
      apply reads_advance; congruence.
Qed.

(** ** Completeness: what the grammar derives, the parser accepts *)

Lemma bind_mono (r r' : option (Node * parser)) (k k' : Node * parser -> option (Node * parser)) x : (r ≫= k = Some x) ->
  (forall y, r = Some y -> r' = Some y) -> (forall y, k y = Some x -> k' y = Some x) -> r' ≫= k' = Some x.
Proof. intros (y & Hr & Hk)%bind_Some H1 H2. rewrite (H1 _ Hr). cbn. by apply H2. Qed.

(** More fuel changes no result. *)
Lemma fuel_mono f : forall g, (f <= g)%nat ->
  (forall d p x, parseOr f d p = Some x -> parseOr g d p = Some x) /\
  (forall d l p x, or_loop f d l p = Some x -> or_loop g d l p = Some x) /\
  (forall d p x, parseAnd f d p = Some x -> parseAnd g d p = Some x) /\
  (forall d l p x, and_loop f d l p = Some x -> and_loop g d l p = Some x) /\
  (forall d p x, parsePrimary f d p = Some x -> parsePrimary g d p = Some x).
Proof.
  induction f as [|f IH]; intros g Hg; [done|]. destruct g as [|g]; [lia|].
  destruct (IH g ltac:(lia)) as (Hor & Hol & Hand & Hal & Hp). split_and!.
  - intros d p x H. cbn [parseOr] in *. eapply bind_mono; [exact H|apply Hand|intros [n q]; apply Hol].
  - intros d l p x. cbn [or_loop]. destruct (at_kind tokOr p); [|done]. intros H.
    eapply bind_mono; [exact H|apply Hand|]. intros [n q]; cbn. destruct (countNode q) as [[] ?]; [apply Hol|done].
  - intros d p x H. cbn [parseAnd] in *. eapply bind_mono; [exact H|apply Hp|intros [n q]; apply Hal].
  - intros d l p x. cbn [and_loop]. destruct (at_kind tokAnd p); [|done]. intros H.
    eapply bind_mono; [exact H|apply Hp|]. intros [n q]; cbn. destruct (countNode q) as [[] ?]; [apply Hal|done].
  - intros d p x. cbn [parsePrimary]. destruct (err p); [done|]. destruct (kind (current p)); try done.
    destruct (_ <=? d); [done|]. intros H. eapply bind_mono; [exact H|apply Hor|done].
Qed.

(** After its tokens, a parser has the rest of the tokens ahead and has counted
    the nodes of the tree. *)
Definition after (p : parser) (n : Node) (rest : list lexToken) (p' : parser) : Prop :=
  ahead p' rest /\ nodes p' = nodes p + node_count n.

(** With enough fuel, [parse] returns the tree. *)
Definition accepts (parse : nat -> parser -> option (Node * parser)) (p : parser) (n : Node) (p' : parser) : Prop :=
  exists k, forall f, (k <= f)%nat -> parse f p = Some (n, p').

(** With enough fuel, [parse] reaches its loop with the tree on the left. *)
Definition reaches (parse : nat -> parser -> option (Node * parser))
    (loop : nat -> Node -> parser -> option (Node * parser)) (p : parser) (n : Node) (p' : parser) : Prop :=
  exists k, forall f, exists f', (f <= f')%nat /\ parse (k + f)%nat p = loop f' n p'.

Definition completes (s : symbol) (d : Z) (p : parser) (n : Node) (p' : parser) : Prop :=
  match s with
  | or_expr => reaches (fun f => parseOr f d) (fun f => or_loop f d) p n p'
  | and_expr => reaches (fun f => parseAnd f d) (fun f => and_loop f d) p n p'
  | primary => accepts (fun f => parsePrimary f d) p n p'
  end.

(** The tokens after an expression: neither a conjunction nor, where an
    [or_expr] is complete, a disjunction goes on. *)
Definition no_kind (k : tokenKind) (ts : list lexToken) : Prop :=
  match ts with [] => True | t :: _ => kind t <> k end.

Lemma ahead_not_at k p ts : ahead p ts -> k <> tokEOF -> no_kind k ts -> at_kind k p = false.
Proof.
  intros [He H] Hk Hn. apply not_true_iff_false. rewrite at_kind_true. intros [_ Hc].
  destruct ts as [|t ts]; [congruence|]. destruct H as (<- & _). done.
Qed.

Lemma ahead_cons p t ts : ahead p (t :: ts) -> err p = None /\ current p = t /\ kind t <> tokEOF /\ ahead (advance p) ts.
Proof. intros (He & Hc & Hk & Ht). split_and!; try done. by apply ahead_advance. Qed.

Lemma stops (parse : nat -> parser -> option (Node * parser)) loop p n p' :
  reaches parse loop p n p' -> (forall f, loop (S f) n p' = Some (n, p')) -> accepts parse p n p'.
Proof.
  intros (k & H) Hs. exists (S k). intros f Hf. destruct (H (f - k)%nat) as (f' & Hf' & He).
  replace (k + (f - k))%nat with f in * by lia. rewrite He. destruct f' as [|f']; [lia|]. apply Hs.
Qed.

Lemma countNode_ok p ts : ahead p ts -> nodes p + 1 <= maxParseNodes ->
  exists p', countNode p = (true, p') /\ ahead p' ts /\ nodes p' = nodes p + 1 /\ lex p' = lex p /\
    current p' = current p /\ err p' = err p.
Proof.
  intros Ha Hn. unfold countNode; cbn [nodes]. destruct (Z.ltb_spec maxParseNodes (nodes p + 1)); [lia|].
  by eexists.
Qed.

(** A turn of a loop of the parser: with an operator ahead and an operand after
    it, the loop goes on with the combined tree on its left. *)
Lemma turn (parse : nat -> parser -> option (Node * parser)) operand loop (op : Node -> Node -> Node) k p l p1 r p2 rest :
  (forall f n q, loop (S f) n q = if at_kind k q then
       '(rgt, q) ← operand f (advance q);
       match countNode q with (false, q) => Some (NilNode, q) | (true, q) => loop f (op n rgt) q end
     else Some (n, q)) ->
  reaches parse loop p l p1 -> at_kind k p1 = true -> accepts operand (advance p1) r p2 ->
  ahead p2 rest -> nodes p2 + 1 <= maxParseNodes ->
  exists p3, reaches parse loop p (op l r) p3 /\ ahead p3 rest /\ nodes p3 = nodes p2 + 1.
Proof.
  intros Hloop (m & Hm) Hk (m' & Ho) Ha Hn. destruct (countNode_ok _ _ Ha Hn) as (p3 & Hc & Ha3 & Hn3 & _).
  exists p3. split_and!; [|done|done]. exists (m + S m')%nat. intros f.
  destruct (Hm (S m' + f)%nat) as (f' & Hf' & He). destruct f' as [|f']; [lia|].
  exists f'. split; [lia|]. rewrite <- Nat.add_assoc, He, Hloop, Hk, Ho by lia. cbn. by rewrite Hc.
Qed.

Lemma grammar_complete s d ts n : derives s d ts n -> forall p rest,
  ahead p (ts ++ rest) -> (s = or_expr -> no_kind tokAnd rest) -> nodes p + node_count n <= maxParseNodes ->
  exists p', completes s d p n p' /\ after p n rest p'.
Proof.
  induction 1 as [d ts n H IH|d ts1 t ts2 l r Hl IHl Ht Hr IHr|d ts n H IH|d ts1 t ts2 l r Hl IHl Ht Hr IHr
                 |d t Ht|d t ts t' n Ht Hd H IH Ht']; intros p rest Ha Hno Hn.
  - destruct (IH p rest Ha ltac:(done) Hn) as (p' & Hc & Haf). exists p'. split; [|done].
    apply stops in Hc as (k & Hk).
    2:{ intros f. cbn [and_loop]. rewrite (ahead_not_at tokAnd _ rest); [done|apply Haf|done|by apply Hno]. }
    exists (S k). intros f. exists (k + f)%nat. split; [lia|]. cbn [Nat.add parseOr]. by rewrite Hk by lia.
  - cbn [node_count] in Hn. pose proof (node_count_nonneg l). pose proof (node_count_nonneg r).
    rewrite <- app_assoc in Ha. cbn [app] in Ha.
    destruct (IHl p _ Ha) as (p1 & Hc1 & Ha1 & Hn1); [intros _; cbn; congruence|lia|].
    destruct (ahead_cons _ _ _ Ha1) as (He1 & Hcur & _ & Ha1').
    destruct (IHr (advance p1) rest Ha1') as (p2 & Hc2 & Ha2 & Hn2); [done|rewrite advance_nodes; lia|].
    rewrite advance_nodes in Hn2. apply stops in Hc2.
    2:{ intros f. cbn [and_loop]. rewrite (ahead_not_at tokAnd _ rest); [done|apply Ha2|done|by apply Hno]. }
    destruct (turn _ (fun f => parseAnd f d) (fun f => or_loop f d) OrNode tokOr p l p1 r p2 rest (fun _ _ _ => eq_refl) Hc1) as (p3 & Hc3 & Ha3 & Hn3);
      [by apply at_kind_true; rewrite Hcur|exact Hc2|done|lia|].
    exists p3. split; [exact Hc3|]. split; [done|cbn; lia].
  - destruct (IH p rest Ha ltac:(done) Hn) as (p' & (k & Hk) & Haf). exists p'. split; [|done].
    exists (S k). intros f. exists (k + f)%nat. split; [lia|]. cbn [Nat.add parseAnd]. by rewrite Hk by lia.
  - cbn [node_count] in Hn. pose proof (node_count_nonneg l). pose proof (node_count_nonneg r).
    rewrite <- app_assoc in Ha. cbn [app] in Ha.
    destruct (IHl p _ Ha) as (p1 & Hc1 & Ha1 & Hn1); [done|lia|].
    destruct (ahead_cons _ _ _ Ha1) as (He1 & Hcur & _ & Ha1').
    destruct (IHr (advance p1) rest Ha1') as (p2 & Hc2 & Ha2 & Hn2); [done|rewrite advance_nodes; lia|].
    rewrite advance_nodes in Hn2.
    destruct (turn _ (fun f => parsePrimary f d) (fun f => and_loop f d) AndNode tokAnd p l p1 r p2 rest (fun _ _ _ => eq_refl) Hc1) as (p3 & Hc3 & Ha3 & Hn3);
      [by apply at_kind_true; rewrite Hcur|exact Hc2|done|lia|].
    exists p3. split; [exact Hc3|]. split; [done|cbn; lia].
  - cbn [app] in Ha. destruct (countNode_ok p _ Ha Hn) as (p1 & Hc & Ha1 & Hn1 & _ & Hcu & _).
    destruct (ahead_cons _ _ _ Ha) as (He & Hcur & _ & _). destruct (ahead_cons _ _ _ Ha1) as (_ & _ & _ & Ha1').
    exists (advance p1). split; [|split; [done|rewrite advance_nodes; done]].
    exists 1%nat. intros [|f] Hf; [lia|]. cbn [parsePrimary]. by rewrite He, Hcur, Ht, Hc, Hcu, Hcur.
  - cbn [app] in Ha. rewrite <- app_assoc in Ha. cbn [app] in Ha.
    destruct (ahead_cons _ _ _ Ha) as (He & Hcur & _ & Ha1).
    destruct (IH (advance p) (t' :: rest) Ha1) as (p1 & Hc1 & Ha2 & Hn1); [intros _; cbn; congruence|by rewrite advance_nodes|].
    rewrite advance_nodes in Hn1. destruct (ahead_cons _ _ _ Ha2) as (He1 & Hcur1 & _ & Ha3).
    apply stops in Hc1 as (k & Hk).
    2:{ intros f. cbn [or_loop]. rewrite (ahead_not_at tokOr _ (t' :: rest)); [done|done|done|cbn; congruence]. }
    exists (advance p1). split; [|split; [done|by rewrite advance_nodes]].
    exists (S k). intros [|f] Hf; [lia|]. cbn [parsePrimary]. rewrite He, Hcur, Ht.
    destruct (Z.leb_spec maxParseDepth d); [lia|]. rewrite Hk by lia. cbn [mbind option_bind].
    by rewrite He1, Hcur1, bool_decide_true.
Qed.

(** ** [Parse] against the grammar *)

Lemma Parse_Ok input n : Parse input = Ok n <->
  zlen input <= maxPolicyLen /\ exists p', parseOr (parse_fuel input) 0 (advance (initial input)) = Some (n, p') /\
    err (advance (initial input)) = None /\ ahead p' [].
Proof.
  unfold Parse, reject_if. fold (initial input). destruct (Z.ltb_spec maxPolicyLen (zlen input)); cbn [mbind res_mbind].
  { split; [done|]. intros [? _]. lia. }
  destruct (err (advance (initial input))) as [e|] eqn:He0; [naive_solver|].
  destruct (parseOr (parse_fuel input) 0 (advance (initial input))) as [[n' p']|]; [|naive_solver].
  unfold ahead. destruct (err p') as [e|] eqn:He; [split; [done|]; intros (_ & ? & [= <- <-] & _ & Hx & _); congruence|].
  destruct (decide (kind (current p') = tokEOF)) as [Hk|Hk].
  - rewrite bool_decide_true by done. cbn. split.
    + intros [= <-]. split; [done|]. by exists p'.
    + by intros (_ & ? & [= <- _] & _).
  - rewrite bool_decide_false by done. cbn. split; [done|]. by intros (_ & ? & [= _ <-] & _ & _ & ?).
Qed.

Lemma Parse_grammar input n : Parse input = Ok n <->
  zlen input <= maxPolicyLen /\ node_count n <= maxParseNodes /\
  exists ts, tokens (newLexer input) ts /\ derives or_expr 0 ts n.
Proof.
  rewrite Parse_Ok. set (p0 := initial input).
  assert (nodes (advance p0) = 0) as Hn0 by by rewrite advance_nodes. split.
  - intros (Hl & p' & Hp & He0 & Ha). destruct (parser_sound (parse_fuel input)) as (Hs & _).
    destruct (Hs _ _ _ _ Hp (proj1 Ha)) as (_ & Hn & Hm & ts & Hd & Hr). split_and!; [done|lia|].
    exists ts. split; [|done]. specialize (Hr [] Ha). rewrite app_nil_r in Hr. by apply ahead_advance in Hr.
  - intros (Hl & Hn & ts & Ht & Hd). split; [done|].
    assert (ahead (advance p0) (ts ++ [])) as Ha by (rewrite app_nil_r; by apply ahead_advance).
    destruct (grammar_complete _ _ _ _ Hd _ [] Ha) as (p' & Hc & Ha' & _); [done|lia|].
    apply stops in Hc as (k & Hk); [|intros f; cbn [or_loop]; by rewrite (ahead_not_at tokOr _ [])].
    exists p'. split_and!; [|by destruct Ha|done].
    destruct (initial_returns input) as (n1 & p1 & H1 & _). fold p0 in H1.
    rewrite H1. set (F := Nat.max k (parse_fuel input)).
    destruct (fuel_mono (parse_fuel input) F ltac:(lia)) as (Hmono & _). specialize (Hmono _ _ _ H1).
    rewrite Hk in Hmono by lia. congruence.
Qed.

(** ** Lexing a printed tree *)

Definition at_text (l : lexer) (rs : list Z) : Prop := drop (l_pos l) (l_runes l) = rs.

Lemma at_text_lookup l rs : at_text l rs -> l_runes l !! l_pos l = head rs.
Proof. intros <-. by rewrite head_lookup, lookup_drop, Nat.add_0_r. Qed.

Lemma at_text_scan q l rs : at_text l rs -> at_text (scan q l) (drop (span q rs) rs).
Proof. intros <-. unfold at_text, scan. cbn. by rewrite drop_drop. Qed.

Lemma at_text_bump l r rs : at_text l (r :: rs) -> at_text (bump l) rs.
Proof.
  unfold at_text, bump. cbn. intros H. replace (S (l_pos l)) with (l_pos l + 1)%nat by lia. by rewrite <- drop_drop, H.
Qed.

Lemma at_text_slice q l rs : at_text l rs -> l_slice (scan q l) (l_pos l) = take (span q rs) rs.
Proof. intros <-. unfold l_slice, scan. cbn. f_equal. lia. Qed.

Definition not_head (q : Z -> bool) (rs : list Z) : Prop := match rs with r :: _ => q r = false | [] => True end.

Lemma span_app q rs rest : Forall (fun r => q r = true) rs -> not_head q rest -> span q (rs ++ rest) = length rs.
Proof.
  intros HF Hr. induction HF as [|r rs Hq _ IH]; cbn.
  - destruct rest as [|r rest]; [done|]. cbn. by rewrite Hr.
  - by rewrite Hq, IH.
Qed.

Lemma next_paren l s rs k : at_text l (rune s :: rs) -> (s = "(" /\ k = tokLParen) \/ (s = ")" /\ k = tokRParen) ->
  exists l', next l = (Ok (mkTok k 0), l') /\ at_text l' rs.
Proof.
  intros Ha Hs. assert (span IsSpace (rune s :: rs) = O) as H0 by (destruct Hs as [[-> _]|[-> _]]; done).
  pose proof (at_text_scan IsSpace _ _ Ha) as Ha1. rewrite H0, drop_0 in Ha1. fold (skipSpace l) in Ha1.
  exists (bump (skipSpace l)). split; [|by eapply at_text_bump].
  unfold next. rewrite (at_text_lookup _ _ Ha1). cbn [head]. by destruct Hs as [[-> ->]|[-> ->]].
Qed.

Lemma next_word l w rs k : at_text l (32 :: word w ++ 32 :: rs) ->
  (w = "AND" /\ k = tokAnd) \/ (w = "OR" /\ k = tokOr) ->
  exists l', next l = (Ok (mkTok k 0), l') /\ at_text l' (32 :: rs).
Proof.
  intros Ha Hw. assert (span IsSpace (32 :: word w ++ 32 :: rs) = 1%nat) as H1 by (destruct Hw as [[-> _]|[-> _]]; done).
  pose proof (at_text_scan IsSpace _ _ Ha) as Ha1. rewrite H1 in Ha1. change (at_text (skipSpace l) (word w ++ 32 :: rs)) in Ha1.
  assert (span IsLetter (word w ++ 32 :: rs) = length (word w)) as H2.
  { apply span_app; [|done]. destruct Hw as [[-> _]|[-> _]]; repeat constructor. }
  pose proof (at_text_scan IsLetter _ _ Ha1) as Ha2. pose proof (at_text_slice IsLetter _ _ Ha1) as Hsl.
  rewrite H2, drop_app_length in Ha2. rewrite H2, take_app_length in Hsl. exists (scan IsLetter (skipSpace l)). split; [|done].
  unfold next. rewrite (at_text_lookup _ _ Ha1), Hsl. by destruct Hw as [[-> ->]|[-> ->]].
Qed.

Lemma next_ref l i rs : 0 <= i < two63 -> at_text l ((b2z <$> ch "$" :: format_nat 10 i) ++ rs) -> not_head IsDigit rs ->
  exists l', next l = (Ok (mkTok tokRef i), l') /\ at_text l' rs.
Proof.
  intros Hi Ha Hr. rewrite fmap_cons in Ha. cbn [app] in Ha. set (ds := b2z <$> format_nat 10 i) in *.
  assert (Forall (fun r => IsDigit r = true) ds /\ ds <> [] /\ runes_string ds = format_nat 10 i) as (Hd & Hne & Hrs).
  { destruct (format_nat_digits 10 i) as (zs & Hz & Hzs & HF & _); [lia..|]. subst ds. rewrite Hz. split_and!.
    - apply Forall_fmap, List.Forall_map. eapply Forall_impl; [exact HF|]. intros d Hd; cbn in Hd |- *.
      rewrite digit_char_ascii by lia. unfold IsDigit, ascii_digit.
      destruct (Z.ltb_spec (48 + d) 128), (Z.leb_spec 48 (48 + d)), (Z.leb_spec (48 + d) 57); try lia; done.
    - by destruct zs.
    - apply runes_string_ascii, List.Forall_map. eapply Forall_impl; [exact HF|]. intros d Hd; cbn in Hd |- *.
      rewrite digit_char_ascii; lia. }
  pose proof (at_text_scan IsSpace _ _ Ha) as Ha1. change (span IsSpace _) with O in Ha1. rewrite drop_0 in Ha1. fold (skipSpace l) in Ha1.
  pose proof (at_text_bump _ _ _ Ha1) as Ha2.
  pose proof (at_text_scan IsDigit _ _ Ha2) as Ha3. pose proof (at_text_slice IsDigit _ _ Ha2) as Hsl.
  rewrite span_app in Ha3, Hsl by done. rewrite drop_app_length in Ha3. rewrite take_app_length in Hsl.
  exists (scan IsDigit (bump (skipSpace l))). split; [|done].
  unfold next. rewrite (at_text_lookup _ _ Ha1). cbn [head]. change (b2z (ch "$")) with (rune "$") in *.
  change (rune "$" =? rune "(") with false. change (rune "$" =? rune ")") with false. rewrite Z.eqb_refl. cbn [negb].
  rewrite Hsl, Hrs, Atoi_format by done. cbn [wrap mbind res_mbind].
  destruct (Nat.eqb_spec (l_pos (scan IsDigit (bump (skipSpace l)))) (l_pos (bump (skipSpace l)))) as [E|]; [|done].
  exfalso. assert (length (l_slice (scan IsDigit (bump (skipSpace l))) (l_pos (bump (skipSpace l)))) = O) as HL.
  { unfold l_slice. rewrite E, Nat.sub_diag. done. }
  rewrite Hsl in HL. by destruct ds.
Qed.

Lemma tokens_space l rs ts : at_text l (32 :: rs) -> tokens (bump l) ts -> tokens l ts.
Proof.
  intros Ha Ht. assert (next l = next (bump l)) as Hn.
  { unfold next. replace (skipSpace l) with (skipSpace (bump l)); [done|]. unfold skipSpace, scan.
    pose proof (at_text_bump _ _ _ Ha) as Hb. rewrite Ha, Hb. cbn [span]. change (IsSpace 32) with true. cbn. f_equal. lia. }
  destruct Ht as [? t l' H Hk|? t l' ts H Hk Ht]; rewrite <- Hn in H; [by eapply tokens_eof|by eapply tokens_cons].
Qed.

(** The trees that print to a policy: no nil node, and indices of type [int]
    that are not negative. *)
Fixpoint node_ok (n : Node) : Prop :=
  match n with
  | NilNode => False
  | RefNode i => 0 <= i < two63
  | AndNode l r | OrNode l r => node_ok l /\ node_ok r
  end.

Fixpoint height (n : Node) : Z :=
  match n with
  | NilNode | RefNode _ => 0
  | AndNode l r | OrNode l r => 1 + Z.max (height l) (height r)
  end.

Lemma height_nonneg n : 0 <= height n.
Proof. induction n; cbn; lia. Qed.

Fixpoint node_tokens (n : Node) : list lexToken :=
  match n with
  | NilNode => []
  | RefNode i => [mkTok tokRef i]
  | AndNode l r => mkTok tokLParen 0 :: (node_tokens l ++ mkTok tokAnd 0 :: node_tokens r) ++ [mkTok tokRParen 0]
  | OrNode l r => mkTok tokLParen 0 :: (node_tokens l ++ mkTok tokOr 0 :: node_tokens r) ++ [mkTok tokRParen 0]
  end.

Lemma node_tokens_derives n : forall d, node_ok n -> d + height n <= maxParseDepth -> derives primary d (node_tokens n) n.
Proof.
  induction n as [|i|l IHl r IHr|l IHl r IHr]; intros d Hok Hh; cbn [node_ok height node_tokens] in *; [done| | |].
  - by apply (D_ref d (mkTok tokRef i)).
  - pose proof (height_nonneg l). apply D_paren; [done|lia| |done]. apply D_or_and, D_and; [|done|].
    + apply D_and_primary, IHl; [tauto|lia].
    + apply IHr; [tauto|lia].
  - pose proof (height_nonneg l). apply D_paren; [done|lia| |done]. apply D_or; [|done|].
    + apply D_or_and, D_and_primary, IHl; [tauto|lia].
    + apply D_and_primary, IHr; [tauto|lia].
Qed.

(** The tokens of a printed operator node, from those of its operands. *)
Lemma tokens_binary l w k sl sr tsl tsr rest ts :
  (w = "AND" /\ k = tokAnd) \/ (w = "OR" /\ k = tokOr) ->
  (forall m rest ts, at_text m (sl ++ rest) -> not_head IsDigit rest -> (forall m', at_text m' rest -> tokens m' ts) -> tokens m (tsl ++ ts)) ->
  (forall m rest ts, at_text m (sr ++ rest) -> not_head IsDigit rest -> (forall m', at_text m' rest -> tokens m' ts) -> tokens m (tsr ++ ts)) ->
  at_text l (rune "(" :: sl ++ 32 :: word w ++ 32 :: sr ++ rune ")" :: rest) ->
  (forall m, at_text m rest -> tokens m ts) ->
  tokens l ((mkTok tokLParen 0 :: (tsl ++ mkTok k 0 :: tsr) ++ [mkTok tokRParen 0]) ++ ts).
Proof.
  intros Hw Hl Hr Ha Hk. destruct (next_paren l "(" _ tokLParen Ha ltac:(auto)) as (l1 & Hn1 & Ha1).
  cbn [app]. eapply tokens_cons; [exact Hn1|done|]. rewrite <- !app_assoc. eapply Hl; [exact Ha1|done|].
  intros l2 Ha2. destruct (next_word l2 w _ k Ha2 Hw) as (l3 & Hn3 & Ha3).
  eapply tokens_cons; [exact Hn3|by destruct Hw as [[_ ->]|[_ ->]]|].
  eapply tokens_space; [exact Ha3|]. eapply Hr; [by eapply at_text_bump|done|].
  intros l4 Ha4. destruct (next_paren l4 ")" _ tokRParen Ha4 ltac:(auto)) as (l5 & Hn5 & Ha5).
  eapply tokens_cons; [exact Hn5|done|auto].
Qed.

Lemma tokens_String n : node_ok n -> forall l rest ts, at_text l ((b2z <$> Node_String n) ++ rest) -> not_head IsDigit rest ->
  (forall l', at_text l' rest -> tokens l' ts) -> tokens l (node_tokens n ++ ts).
Proof.
  induction n as [|i|nl IHl nr IHr|nl IHl nr IHr]; intros Hok l rest ts Ha Hr Hk; cbn [node_ok Node_String node_tokens] in *; [done| | |].
  - unfold Text in Ha. destruct (Z.ltb_spec i 0); [lia|]. destruct (next_ref l i rest Hok Ha Hr) as (l' & Hn & Ha').
    cbn [app]. eapply tokens_cons; [exact Hn|done|auto].
  - eapply (tokens_binary _ "AND"); [auto|apply IHl; tauto|apply IHr; tauto| |exact Hk].
    rewrite !fmap_app, <- !app_assoc in Ha. exact Ha.
  - eapply (tokens_binary _ "OR"); [auto|apply IHl; tauto|apply IHr; tauto| |exact Hk].
    rewrite !fmap_app, <- !app_assoc in Ha. exact Ha.
Qed.

Lemma Node_String_ascii n : node_ok n -> Forall (fun b => b2z b < 128) (Node_String n).
Proof.
  induction n as [|i|l IHl r IHr|l IHl r IHr]; cbn [node_ok Node_String]; [done| | |].
  - intros Hi. constructor; [done|]. unfold Text. destruct (Z.ltb_spec i 0); [lia|].
    destruct (format_nat_digits 10 i) as (ds & -> & _ & HF & _); [lia..|]. apply List.Forall_map.
    eapply Forall_impl; [exact HF|]. intros d Hd; cbn in Hd |- *. rewrite digit_char_ascii; lia.
  - intros [Hl Hr]. repeat (apply Forall_app; split); try (by apply IHl || by apply IHr);
      refine (bool_decide_unpack _ _); vm_compute; exact I.
  - intros [Hl Hr]. repeat (apply Forall_app; split); try (by apply IHl || by apply IHr);
      refine (bool_decide_unpack _ _); vm_compute; exact I.
Qed.

(** ** Properties *)

(** The parser of policies terminates.  On every byte string, valid UTF-8
    or not, [Parse] returns a tree or an error: the recursive descent returns
    with fuel five times the number of characters plus ten, and any larger fuel
    gives the same result. *)
Theorem Parse_terminates input : no_panic (Parse input) /\
  exists r, forall f, (parse_fuel input <= f)%nat -> parseOr f 0 (advance (initial input)) = Some r.
Proof.
  split; [apply Parse_no_panic|]. destruct (initial_returns input) as (n & p' & Hp & _). exists (n, p').
  intros f Hf. by apply (fuel_mono (parse_fuel input) f Hf).
Qed.

(** C35: the parser accepts exactly the grammar, within its limits.  [Parse]
    returns the tree [n] if and only if the text is at most 4096 bytes long, the
    tree has at most 1024 nodes, and the tokens of the text are derived, as an
    or-expression with tree [n], by the grammar in which AND binds tighter than
    OR, both associate to the left and parentheses nest at most 64 deep. *)
Theorem Parse_exact input n : Parse input = Ok n <->
  zlen input <= maxPolicyLen /\ node_count n <= maxParseNodes /\
  exists ts, tokens (newLexer input) ts /\ derives or_expr 0 ts n.
Proof. apply Parse_grammar. Qed.

(** Printing and parsing are inverse.  The printed form of a tree with
    indices of type int, within the limits of size, nesting and length, parses
    to the same tree. *)
Theorem Parse_String_roundtrip n :
  node_ok n -> node_count n <= maxParseNodes -> height n <= maxParseDepth -> zlen (Node_String n) <= maxPolicyLen ->
  Parse (Node_String n) = Ok n.
Proof.
  intros Hok Hc Hh Hl. apply Parse_grammar. split_and!; [done|done|]. exists (node_tokens n ++ []). split.
  - eapply (tokens_String n Hok _ []); [|done|].
    + rewrite app_nil_r. unfold at_text. cbn [l_pos l_runes newLexer]. rewrite drop_0. by apply string_runes_ascii, Node_String_ascii.
    + intros l' Ha. eapply (tokens_eof _ (mkTok tokEOF 0)); [|done]. unfold next.
      pose proof (at_text_scan IsSpace _ _ Ha) as Ha'. fold (skipSpace l') in Ha'. by rewrite (at_text_lookup _ _ Ha').
  - rewrite app_nil_r. apply D_or_and, D_and_primary, node_tokens_derives; [done|lia].
Qed.

End Parser.

(** ** A concrete policy *)

Definition example_policy : Node := OrNode (RefNode 0) (AndNode (RefNode 1) (RefNode 12)).

Lemma Parse_String_roundtrip_witness :
  Node_String example_policy = str "($0 OR ($1 AND $12))" /\
  Parse (UT := ascii_tables) (Node_String example_policy) = Ok example_policy.
Proof.
  split; [vm_compute; reflexivity|]. apply (Parse_String_roundtrip (UT := ascii_tables)).
  - cbn. unfold two63. lia.
  - vm_compute. discriminate.
  - vm_compute. discriminate.
  - vm_compute. discriminate.
Defined.

(** Precedence and associativity on a text with lower-case words. *)
Example Parse_precedence :
  Parse (UT := ascii_tables) (str "$0 or $1 AND $2 or$3") =
  Ok (OrNode (OrNode (RefNode 0) (AndNode (RefNode 1) (RefNode 2))) (RefNode 3)).
Proof. vm_compute. reflexivity. Qed.
