(* ===== verification/Composite.v ===== *)
(** * Composite identities (services/identity/boolpolicy, services/identity/multisig,
      services/identity/deserializer/verifier.go, driver/identity_nesting.go)

    Identities made of component identities: a boolean policy over them, a
    multi-signature, a hash time-locked script.  The identity layer decodes such
    an identity, recursively through a multiplexer keyed by the type tag, into a
    verifier; the budget carried by the context bounds the nesting and the
    fan-out of the descent.  Parameters: the unique id and comparison of the
    smart client's identity type, the verifiers of the leaf identities, the JSON
    decoders of scripts and claims and the hash functions of scripts, the clock. *)

From S2P Require Import Prelude GoStd GoText Der Asn1 Limits Htlc PolicyParser.
From Stdlib Require Import ZArith Lia.
Local Open Scope Z_scope.

(** ** The nesting budget (driver/identity_nesting.go) *)

Definition ErrIdentityNestingTooDeep : error := EMsg "composite identity nesting is too deep".
Definition ErrTooManyIdentityComponents : error := EMsg "composite identity has too many components".

Record identityNesting := mkNesting { n_depth : Z; n_maxDepth : Z; n_maxComponents : Z }.

(** A context, as far as this package is concerned: the budget it carries, if
    any. *)
Abbreviation context := (option identityNesting).

Definition WithIdentityNestingLimits (maxDepth maxComponents : Z) : context :=
  let d := DefaultResourceLimits in
  Some (mkNesting 0 (or_default maxDepth (MaxIdentityDepth d)) (or_default maxComponents (MaxIdentityComponents d))).

Definition nestingFrom (ctx : context) : identityNesting :=
  match ctx with
  | Some n => n
  | None => let d := DefaultResourceLimits in mkNesting 0 (MaxIdentityDepth d) (MaxIdentityComponents d)
  end.

Definition EnterCompositeIdentity (ctx : context) : res context :=
  let n := nestingFrom ctx in
  if n_maxDepth n <=? n_depth n
  then Err (EWrap ErrIdentityNestingTooDeep "nesting exceeds the maximum depth")
  else Ok (Some (mkNesting (n_depth n + 1) (n_maxDepth n) (n_maxComponents n))).

Definition MaxIdentityComponentsFrom (ctx : context) : Z := n_maxComponents (nestingFrom ctx).

(** ** Structures and their encodings *)

Record PolicyIdentity := mkPolicyIdentity { PI_Policy : bytes; PI_Identities : list bytes }.
Record MultiIdentity := mkMultiIdentity { MI_Identities : list bytes }.
Record PolicySignature := mkPolicySignature { PS_Signatures : list bytes }.
Record MultiSignature := mkMultiSignature { MS_Signatures : list bytes }.

#[global] Instance PolicyIdentity_ASN1 : ASN1 PolicyIdentity := {|
  asn1_Marshal p := Ok (string_octets_Marshal (PI_Policy p) (PI_Identities p));
  asn1_Unmarshal b := '(s, l, rest) ← string_octets_Unmarshal b; Ok (mkPolicyIdentity s l, rest);
|}.

#[global] Instance MultiIdentity_ASN1 : ASN1 MultiIdentity := {|
  asn1_Marshal m := Ok (octets_struct_Marshal (MI_Identities m));
  asn1_Unmarshal b := '(l, rest) ← octets_struct_Unmarshal b; Ok (mkMultiIdentity l, rest);
|}.

#[global] Instance PolicySignature_ASN1 : ASN1 PolicySignature := {|
  asn1_Marshal s := Ok (octets_struct_Marshal (PS_Signatures s));
  asn1_Unmarshal b := '(l, rest) ← octets_struct_Unmarshal b; Ok (mkPolicySignature l, rest);
|}.

#[global] Instance MultiSignature_ASN1 : ASN1 MultiSignature := {|
  asn1_Marshal s := Ok (octets_struct_Marshal (MS_Signatures s));
  asn1_Unmarshal b := '(l, rest) ← octets_struct_Unmarshal b; Ok (mkMultiSignature l, rest);
|}.

#[local] Ltac octets_laws :=
  first [ intros [l] Hs; cbn in *; eexists; split; [reflexivity|]; rewrite octets_struct_read by exact Hs; reflexivity
        | intros ? ; discriminate
        | intros b; cbn; destruct (octets_struct_Unmarshal b) as [[? ?]| |] eqn:E; try done; by apply octets_struct_no_panic in E ].

#[global] Program Instance MultiIdentity_Laws : ASN1Laws MultiIdentity := {|
  encodable m := small (octets_struct_Marshal (MI_Identities m)) |}.
Solve Obligations with octets_laws.

#[global] Program Instance PolicySignature_Laws : ASN1Laws PolicySignature := {|
  encodable s := small (octets_struct_Marshal (PS_Signatures s)) |}.
Solve Obligations with octets_laws.

#[global] Program Instance MultiSignature_Laws : ASN1Laws MultiSignature := {|
  encodable s := small (octets_struct_Marshal (MS_Signatures s)) |}.
Solve Obligations with octets_laws.

#[global] Program Instance PolicyIdentity_Laws : ASN1Laws PolicyIdentity := {|
  encodable p := small (string_octets_Marshal (PI_Policy p) (PI_Identities p)) /\ ValidString (PI_Policy p) = true |}.
Next Obligation. intros [s l] [Hs Hu]; cbn in *. eexists. split; [done|]. by rewrite string_octets_read. Qed.
Next Obligation. done. Qed.
Next Obligation.
  intros b; cbn. destruct (string_octets_Unmarshal b) as [[[? ?] ?]| |] eqn:E; try done. by apply string_octets_no_panic in E.
Qed.

Definition Policy : Z := PolicyIdentityType.
Definition Multisig : Z := MultiSigIdentityType.

(** ** Evaluating a policy on signatures (boolpolicy/sig.go) *)

Inductive refResult := refUnknown | refPass | refFail.

#[global] Instance refResult_eq_dec : EqDecision refResult.
Proof. solve_decision. Defined.

(** What [evalNode] mutates: the memo, and the trace of the component verifiers
    it has called. *)
Record memo_state := mkMemo { memo : list refResult; calls : list Z }.

(** [PolicyVerifier]: a tree and one verifier per component, nil or not. *)
Record PolicyVerifier := mkPolicyVerifier { PV_Policy : Node; PV_Verifiers : list (option verifier) }.

Definition evalRef (v : PolicyVerifier) (i : Z) (msg : bytes) (sigs : list bytes) : M memo_state bool := fun st =>
  if (i <? 0) || (zlen sigs <=? i) || (zlen (memo st) <=? i) || (zlen (PV_Verifiers v) <=? i) then (Ok false, st)
  else
    let k := Z.to_nat i in
    match sigs !! k, PV_Verifiers v !! k, memo st !! k with
    | Some sig, Some ver, Some m =>
        match (zlen sig =? 0), ver with
        | true, _ | _, None => (Ok false, st)
        | false, Some verify =>
            if negb (bool_decide (m = refUnknown)) then (Ok (bool_decide (m = refPass)), st)
            else
              let st := mkMemo (memo st) (calls st ++ [i]) in
              match verify msg sig with
              | Panic => (Panic, st)
              | Ok _ => (Ok true, mkMemo (<[k := refPass]> (memo st)) (calls st))
              | Err _ => (Ok false, mkMemo (<[k := refFail]> (memo st)) (calls st))
              end
        end
    | _, _, _ => (Panic, st)
    end.

Fixpoint evalNode (v : PolicyVerifier) (node : Node) (msg : bytes) (sigs : list bytes) : M memo_state bool :=
  match node with
  | RefNode i => evalRef v i msg sigs
  | AndNode l r => evalNode v l msg sigs ≫= fun b : bool => if b then evalNode v r msg sigs else mret false
  | OrNode l r => evalNode v l msg sigs ≫= fun b : bool => if b then mret true else evalNode v r msg sigs
  | NilNode => mret false
  end.

(** [Verify], with the final state of the memo. *)
Definition PolicyVerifier_run (v : PolicyVerifier) (msg sigBytes : bytes) : res unit * memo_state :=
  match wrap "failed to unmarshal policy signature" (UnmarshalCanonicalDER (T := PolicySignature) sigBytes) with
  | Err e => (Err e, mkMemo [] [])
  | Panic => (Panic, mkMemo [] [])
  | Ok sig =>
      let sigs := PS_Signatures sig in
      let st := mkMemo (replicate (length sigs) refUnknown) [] in
      if negb (zlen sigs =? zlen (PV_Verifiers v)) then (Err (EMsg "policy signature has the wrong number of slots"), st)
      else (evalNode v (PV_Policy v) msg sigs ≫= fun ok : bool =>
              lift (reject_if (negb ok) (EMsg "policy not satisfied"))) st
  end.

Definition PolicyVerifier_Verify (v : PolicyVerifier) (msg sigBytes : bytes) : res unit :=
  fst (PolicyVerifier_run v msg sigBytes).

(** ** Lemmas: evaluation of a policy *)

(** A slot of a policy signature is good when a signature is present and the
    component's verifier accepts it. *)
Definition slot_valid (msg : bytes) (ver : option verifier) (sig : bytes) : bool :=
  match ver with
  | Some verify => negb (zlen sig =? 0) && is_ok (verify msg sig)
  | None => false
  end.

Definition slots (v : PolicyVerifier) (msg : bytes) (sigs : list bytes) : list bool :=
  zip_with (slot_valid msg) (PV_Verifiers v) sigs.

(** The memo only records outcomes, and of components that were called. *)
Record memo_ok (v : PolicyVerifier) (msg : bytes) (sigs : list bytes) (st : memo_state) : Prop := {
  mo_length : length (memo st) = length sigs;
  mo_pass k : memo st !! k = Some refPass -> slots v msg sigs !! k = Some true;
  mo_fail k : memo st !! k = Some refFail -> slots v msg sigs !! k = Some false;
  mo_calls i : i ∈ calls st -> 0 <= i /\ memo st !! Z.to_nat i <> Some refUnknown;
  mo_once : NoDup (calls st);
}.

Definition verifiers_safe (v : PolicyVerifier) : Prop :=
  forall verify msg sig, Some verify ∈ PV_Verifiers v -> verify msg sig <> Panic.

(** Recording the outcome of a call. *)
Lemma memo_ok_call v msg sigs st i r : memo_ok v msg sigs st -> 0 <= i -> memo st !! Z.to_nat i = Some refUnknown ->
  slots v msg sigs !! Z.to_nat i = Some (bool_decide (r = refPass)) -> r <> refUnknown ->
  memo_ok v msg sigs (mkMemo (<[Z.to_nat i := r]> (memo st)) (calls st ++ [i])).
Proof.
  intros [Hl Hp Hf Hc Ho] Hi Hm Hs Hr. apply lookup_lt_Some in Hm as Hlt. split; cbn [memo calls].
  - by rewrite length_insert.
  - intros k. rewrite list_lookup_insert. destruct (decide _) as [[<- _]|_]; [|apply Hp]. intros [= ->]. by rewrite Hs.
  - intros k. rewrite list_lookup_insert. destruct (decide _) as [[<- _]|_]; [|apply Hf]. intros [= ->]. by rewrite Hs.
  - intros j. rewrite elem_of_app, list_elem_of_singleton. intros [Hj | ->].
    + destruct (Hc j Hj) as [? Hu]. split; [done|]. rewrite list_lookup_insert. destruct (decide _); [congruence|done].
    + split; [done|]. rewrite list_lookup_insert. destruct (decide _); [congruence|tauto].
  - apply NoDup_app. split_and!; [done| |apply NoDup_singleton].
    intros j Hj ->%list_elem_of_singleton. destruct (Hc i Hj) as [_ Hu]. done.
Qed.

Lemma evalRef_ok v msg sigs st i : length sigs = length (PV_Verifiers v) -> verifiers_safe v -> memo_ok v msg sigs st ->
  exists b st', evalRef v i msg sigs st = (Ok b, st') /\ Eval (RefNode i) (slots v msg sigs) = Ok b /\ memo_ok v msg sigs st'.
Proof.
  intros Hlen Hsafe Hst. pose proof (mo_length _ _ _ _ Hst) as Hml. unfold evalRef. cbn [Eval].
  assert (zlen (slots v msg sigs) = zlen sigs) as Hsl by (unfold zlen, slots; rewrite length_zip_with; lia).
  replace (zlen (memo st)) with (zlen sigs) by (unfold zlen; lia). replace (zlen (PV_Verifiers v)) with (zlen sigs) by (unfold zlen; lia).
  rewrite Hsl. destruct (Z.ltb_spec i 0) as [Hi|Hi]; cbn [orb]; [by exists false, st|].
  destruct (Z.leb_spec (zlen sigs) i) as [Hr|Hr]; cbn [orb]; [by exists false, st|]. set (k := Z.to_nat i).
  assert (k < length sigs)%nat as Hk by (unfold zlen in Hr; lia).
  destruct (lookup_lt_is_Some_2 sigs k) as [sig Hsig]; [lia|]. destruct (lookup_lt_is_Some_2 (PV_Verifiers v) k) as [ver Hver]; [lia|].
  destruct (lookup_lt_is_Some_2 (memo st) k) as [m Hm]; [lia|]. rewrite Hsig, Hver, Hm.
  assert (slots v msg sigs !! k = Some (slot_valid msg ver sig)) as Hb by (unfold slots; by rewrite lookup_zip_with, Hver; cbn; rewrite Hsig).
  rewrite Hb. cbn [default from_option id]. destruct ver as [verify|]; cbn [slot_valid] in *; [|destruct (zlen sig =? 0); by exists false, st].
  destruct (zlen sig =? 0) eqn:Hz; cbn [negb andb] in *; [by exists false, st|].
  case_bool_decide as Hu; cbn [negb].
  - subst m. assert (verify msg sig <> Panic) as Hnp by (apply Hsafe; by apply list_elem_of_lookup_2 in Hver).
    destruct (verify msg sig) as [u|e|] eqn:Ev; [| |done]; cbn [is_ok memo calls] in *; eexists _, _; (split_and!; [done|done|]);
      (eapply (memo_ok_call _ _ _ st); [done|lia|done|exact Hb|done]).
  - eexists _, st. split_and!; [done| |done]. f_equal. destruct m; [done| |].
    + apply (mo_pass _ _ _ _ Hst) in Hm. rewrite bool_decide_true by done. congruence.
    + apply (mo_fail _ _ _ _ Hst) in Hm. rewrite bool_decide_false by done. congruence.
Qed.

(** A tree with no nil node, as [Parse] returns. *)
Fixpoint no_nil_node (n : Node) : Prop :=
  match n with
  | NilNode => False
  | RefNode _ => True
  | AndNode l r | OrNode l r => no_nil_node l /\ no_nil_node r
  end.

Lemma derives_no_nil `{!UnicodeTables} s d ts n : derives s d ts n -> no_nil_node n.
Proof. induction 1; cbn; auto. Qed.

Lemma Parse_no_nil `{!UnicodeTables} s n : Parse s = Ok n -> no_nil_node n.
Proof. intros (_ & _ & ts & _ & Hd)%Parse_grammar. by eapply derives_no_nil. Qed.

Lemma evalNode_ok v msg sigs n : length sigs = length (PV_Verifiers v) -> verifiers_safe v -> no_nil_node n ->
  forall st, memo_ok v msg sigs st ->
  exists b st', evalNode v n msg sigs st = (Ok b, st') /\ Eval n (slots v msg sigs) = Ok b /\ memo_ok v msg sigs st'.
Proof.
  intros Hlen Hsafe. induction n as [|i|l IHl r IHr|l IHl r IHr]; intros Hn st Hst; [done|by apply evalRef_ok| |];
    destruct Hn as [Hnl Hnr]; destruct (IHl Hnl st Hst) as (b & st1 & E1 & V1 & H1);
    cbn [evalNode Eval]; unfold mbind at 1, M_mbind at 1; rewrite E1, V1; cbn [mbind res_mbind]; destruct b;
    try (by eexists _, st1); by apply IHr.
Qed.

(** The outcome of [Verify] on well-formed slots. *)
Lemma PolicyVerifier_run_ok v msg raw sigs : verifiers_safe v -> no_nil_node (PV_Policy v) ->
  UnmarshalCanonicalDER raw = Ok (mkPolicySignature sigs) -> length sigs = length (PV_Verifiers v) ->
  exists b st, Eval (PV_Policy v) (slots v msg sigs) = Ok b /\ memo_ok v msg sigs st /\
    PolicyVerifier_run v msg raw = (reject_if (negb b) (EMsg "policy not satisfied"), st).
Proof.
  intros Hs Hn Hraw Hlen. unfold PolicyVerifier_run. rewrite Hraw. cbn [wrap PS_Signatures].
  replace (zlen sigs =? zlen (PV_Verifiers v)) with true by (unfold zlen; rewrite Hlen; by rewrite Z.eqb_refl). cbn [negb].
  destruct (evalNode_ok v msg sigs (PV_Policy v) Hlen Hs Hn (mkMemo (replicate (length sigs) refUnknown) [])) as (b & st & E & V & H).
  { split; cbn; [apply length_replicate|..]; try (intros k Hk%lookup_replicate; by destruct Hk).
    - by intros ? ?%not_elem_of_nil.
    - apply NoDup_nil_2. }
  exists b, st. split_and!; [done|done|]. unfold mbind, M_mbind. rewrite E. by destruct b.
Qed.

(** A component is verified at most once.  Whatever the policy and the
    signature, when no component verifier panics, [Verify] accepts if and only if
    the bytes are the canonical encoding of one slot per component and the policy
    holds on the good slots; and each component's verifier is called at most
    once, however often the policy refers to it. *)
Theorem PolicyVerifier_exact v msg raw : verifiers_safe v -> no_nil_node (PV_Policy v) ->
  (PolicyVerifier_Verify v msg raw = Ok tt <->
   exists sigs, asn1_Marshal (mkPolicySignature sigs) = Ok raw /\ UnmarshalCanonicalDER raw = Ok (mkPolicySignature sigs) /\
     length sigs = length (PV_Verifiers v) /\ Eval (PV_Policy v) (slots v msg sigs) = Ok true) /\
  NoDup (calls (snd (PolicyVerifier_run v msg raw))).
Proof.
  intros Hs Hn. unfold PolicyVerifier_Verify.
  destruct (UnmarshalCanonicalDER (T := PolicySignature) raw) as [[sigs]|e|] eqn:E.
  - destruct (decide (length sigs = length (PV_Verifiers v))) as [Hl|Hl].
    + destruct (PolicyVerifier_run_ok v msg raw sigs Hs Hn E Hl) as (b & st & Hb & Hst & ->). split; [|apply Hst]. cbn [fst]. split.
      * destruct b; [|done]. intros _. exists sigs. apply Canonical_Ok in E as E'. by destruct E'.
      * intros (sigs' & _ & [= <-] & _ & Hb'). rewrite Hb in Hb'. by injection Hb' as ->.
    + unfold PolicyVerifier_run. rewrite E. cbn [wrap PS_Signatures].
      destruct (Z.eqb_spec (zlen sigs) (zlen (PV_Verifiers v))) as [H|]; [unfold zlen in H; lia|]. cbn. split; [|apply NoDup_nil_2].
      split; [done|]. by intros (sigs' & _ & [= <-] & ? & _).
  - unfold PolicyVerifier_run. rewrite E. cbn. split; [|apply NoDup_nil_2]. split; [done|]. by intros (? & _ & ? & _).
  - by apply Canonical_no_panic in E.
Qed.

Section Composite.
Context {UT : UnicodeTables} {IO : IdentityOps}.
(** [id.UniqueID()] of the smart client. *)
Context (UniqueID : bytes -> bytes).

(** ** Component identities *)

(** The loop over the components; [seen] holds the ids met so far. *)
Fixpoint check_components (seen : list bytes) (ids : list bytes) : res unit :=
  match ids with
  | [] => Ok tt
  | id :: ids =>
      if Identity_IsNone id then Err (EMsg "component identity must not be empty")
      else if bool_decide (UniqueID id ∈ seen)
      then Err (EMsg "component identity is a duplicate of an earlier identity")
      else check_components (UniqueID id :: seen) ids
  end.

(** Written twice in the source, in both packages. *)
Definition validateComponentIdentities (ids : list bytes) (maxComponents : Z) : res unit :=
  if maxComponents <? zlen ids then Err (EWrap ErrTooManyIdentityComponents "component identities")
  else check_components [] ids.

Definition WrapPolicyIdentity (policy : bytes) (ids : list bytes) : res bytes :=
  if zlen ids =? 0 then Err (EMsg "policy identity requires at least one component identity")
  else if bool_decide (policy = []) then Err (EMsg "policy expression must not be empty")
  else
    validateComponentIdentities ids (MaxIdentityComponents DefaultResourceLimits) ;;
    inner ← wrap "failed marshalling policy identity" (asn1_Marshal (mkPolicyIdentity policy ids));
    Ok (TypedIdentity_Bytes (mkTypedIdentity Policy inner)).

(** [Unwrap]; [None] is [(nil, false, nil)], an identity of another type. *)
Definition Policy_Unwrap (raw : bytes) : res (option PolicyIdentity) :=
  ti ← wrap "failed unmarshalling typed identity" (UnmarshalTypedIdentity raw);
  if negb (TI_Type ti =? Policy) then Ok None
  else pi ← wrap "failed deserialising policy identity body" (UnmarshalCanonicalDER (TI_Identity ti)); Ok (Some pi).

Definition WrapIdentities (ids : list bytes) : res bytes :=
  if zlen ids =? 0 then Err (EMsg "no identities provided")
  else
    validateComponentIdentities ids (MaxIdentityComponents DefaultResourceLimits) ;;
    raw ← wrap "failed marshalling multi identity" (asn1_Marshal (mkMultiIdentity ids));
    Ok (TypedIdentity_Bytes (mkTypedIdentity Multisig raw)).

Definition Multisig_Unwrap (raw : bytes) : res (option (list bytes)) :=
  ti ← wrap "failed unmarshalling typed identity" (UnmarshalTypedIdentity raw);
  if negb (TI_Type ti =? Multisig) then Ok None
  else mi ← wrap "failed unmarshalling multi identity" (UnmarshalCanonicalDER (TI_Identity ti));
       Ok (Some (MI_Identities mi)).

(** ** Signatures of policy identities (boolpolicy/sig.go) *)

Definition Policy_JoinSignatures (identities : list bytes) (sigmas : gomap bytes) : res bytes :=
  asn1_Marshal (mkPolicySignature ((fun id => default [] (gomap_get sigmas (UniqueID id))) <$> identities)).

(** ** Multi-signatures (multisig/sig.go) *)

Fixpoint join_all (identities : list bytes) (sigmas : gomap bytes) : res (list bytes) :=
  match identities with
  | [] => Ok []
  | id :: ids =>
      match gomap_get sigmas (UniqueID id) with
      | None => Err (EMsg "signature for identity is missing")
      | Some sigma => l ← join_all ids sigmas; Ok (sigma :: l)
      end
  end.

Definition Multisig_JoinSignatures (identities : list bytes) (sigmas : gomap bytes) : res bytes :=
  signatures ← join_all identities sigmas;
  asn1_Marshal (mkMultiSignature signatures).

Definition Multisig_Verify (Verifiers : list verifier) (msg raw : bytes) : res unit :=
  if zlen Verifiers =? 0 then Err (EMsg "multisig verifier has no members")
  else
    sig ← wrap "failed to unmarshal multisig" (UnmarshalCanonicalDER raw);
    if negb (zlen Verifiers =? zlen (MS_Signatures sig)) then Err (EMsg "invalid multisig: wrong number of signatures")
    else rangeR (fun _ '(ver, s) => replace_err "invalid multisig: signature does not verify" (ver msg s)) 0
           (zip Verifiers (MS_Signatures sig)).

(** ** Deserializing verifiers *)

Context (crypto_Hash : Z -> option (bytes -> bytes)).
Context (json_ClaimSignature : bytes -> res ClaimSignature) (json_Script : bytes -> res Script).
(** The instant a script's verifier reads from the clock. *)
Context (now : Z).

(** The verifiers of a list of components, in order; [des] is the parent
    multiplexer.  The counter of the monad is the number of identities the
    multiplexer has been asked to deserialize. *)
Fixpoint deserialize_all (des : context -> bytes -> M Z verifier) (msg : string) (ctx : context) (ids : list bytes)
    : M Z (list verifier) :=
  match ids with
  | [] => mret []
  | id :: ids =>
      v ← wrapM msg (des ctx id);
      vs ← deserialize_all des msg ctx ids;
      mret (v :: vs)
  end.

(** boolpolicy/deserializer.go *)
Definition Policy_DeserializeVerifier (des : context -> bytes -> M Z verifier) (ctx : context) (raw : bytes) : M Z verifier :=
  ctx ← lift (wrap "cannot deserialize policy identity" (EnterCompositeIdentity ctx));
  pi ← lift (wrap "failed to unmarshal policy identity" (UnmarshalCanonicalDER (T := PolicyIdentity) raw));
  _ ← lift (wrap "invalid policy identity" (validateComponentIdentities (PI_Identities pi) (MaxIdentityComponentsFrom ctx)));
  node ← lift (wrap "failed to parse policy expression" (Parse (PI_Policy pi)));
  verifiers ← deserialize_all des "failed to deserialise verifier for component identity" ctx (PI_Identities pi);
  mret (PolicyVerifier_Verify (mkPolicyVerifier node (Some <$> verifiers))).

(** multisig/deserializer.go *)
Definition Multisig_DeserializeVerifier (des : context -> bytes -> M Z verifier) (ctx : context) (raw : bytes) : M Z verifier :=
  ctx ← lift (wrap "cannot deserialize multisig identity" (EnterCompositeIdentity ctx));
  mi ← lift (replace_err "failed to unmarshal multisig identity" (UnmarshalCanonicalDER (T := MultiIdentity) raw));
  _ ← lift (reject_if (zlen (MI_Identities mi) =? 0) (EMsg "multisig identity has no members"));
  _ ← lift (wrap "invalid multisig identity" (validateComponentIdentities (MI_Identities mi) (MaxIdentityComponentsFrom ctx)));
  verifiers ← deserialize_all des "failed to unmarshal multisig identity" ctx (MI_Identities mi);
  mret (Multisig_Verify verifiers).

(** interop/htlc/deserializer.go *)
Definition Htlc_DeserializeVerifier (des : context -> bytes -> M Z verifier) (ctx : context) (typ : Z) (raw : bytes) : M Z verifier :=
  _ ← lift (reject_if (negb (typ =? ScriptType)) (EMsg "cannot deserializer type"));
  ctx ← lift (wrap "cannot deserialize htlc script identity" (EnterCompositeIdentity ctx));
  script ← lift (replace_err "failed to unmarshal TypedIdentity as an htlc script" (json_Script raw));
  sender ← wrapM "failed to unmarshal the identity of the sender in the htlc script" (des ctx (Script_Sender script));
  recipient ← wrapM "failed to unmarshal the identity of the recipient in the htlc script" (des ctx (Script_Recipient script));
  mret (Verifier_Verify crypto_Hash json_ClaimSignature recipient sender (Script_Deadline script) (Script_HashInfo script) now).

(** A registered deserializer of verifiers. *)
Inductive TypedVerifierDeserializer :=
| LeafDeserializer (DeserializeVerifier : bytes -> res verifier)
| HtlcDeserializer
| MultisigDeserializer
| PolicyDeserializer.

Definition typed_DeserializeVerifier (d : TypedVerifierDeserializer) (des : context -> bytes -> M Z verifier)
    (ctx : context) (typ : Z) (raw : bytes) : M Z verifier :=
  match d with
  | LeafDeserializer f => lift (f raw)
  | HtlcDeserializer => Htlc_DeserializeVerifier des ctx typ raw
  | MultisigDeserializer => Multisig_DeserializeVerifier des ctx raw
  | PolicyDeserializer => Policy_DeserializeVerifier des ctx raw
  end.

(** The registered deserializers are tried in turn, the errors are joined. *)
Fixpoint try_deserializers (f : TypedVerifierDeserializer -> M Z verifier) (errs : option error)
    (dess : list TypedVerifierDeserializer) : M Z verifier :=
  match dess with
  | [] => fun n => (Err (default (EMsg "") errs), n)
  | d :: dess => fun n =>
      match f d n with
      | (Err e, n) => try_deserializers f (Some (match errs with None => e | Some e0 => EJoin e0 e end)) dess n
      | r => r
      end
  end.

(** The multiplexer (deserializer/verifier.go); [deserializers] is its map, with
    the empty list where a type is not registered.  The recursion through the
    composite types has fuel. *)
Fixpoint DeserializeVerifier (deserializers : Z -> list TypedVerifierDeserializer) (fuel : nat)
    (ctx : context) (id : bytes) : M Z verifier :=
  match fuel with
  | O => lift Panic
  | S fuel =>
      _ ← modifyS (fun n => n + 1);
      si ← lift (wrap "failed to unmarshal to TypedIdentity" (UnmarshalTypedIdentity id));
      match deserializers (TI_Type si) with
      | [] => lift (Err (EMsg "no deserializer found"))
      | dess =>
          wrapM "failed to deserialize verifier"
            (try_deserializers (fun d => typed_DeserializeVerifier d (DeserializeVerifier deserializers fuel) ctx (TI_Type si) (TI_Identity si))
               None dess)
      end
  end.

(** The registrations of both drivers: a deserializer for each composite type,
    and the leaf ones ([fabtoken]: X.509; [zkatdlog]: also Idemix, one per issuer
    key of the public parameters). *)
Definition NewDeserializer (leaves : Z -> list (bytes -> res verifier)) (typ : Z) : list TypedVerifierDeserializer :=
  if typ =? ScriptType then [HtlcDeserializer]
  else if typ =? Multisig then [MultisigDeserializer]
  else if typ =? Policy then [PolicyDeserializer]
  else LeafDeserializer <$> leaves typ.

(** The fuel that suffices for a context: one more than the levels left. *)
Definition descent_fuel (ctx : context) : nat := S (Z.to_nat (n_maxDepth (nestingFrom ctx) - n_depth (nestingFrom ctx))).

(** ** Lemmas: the descent *)

(** A computation that does not panic and counts at most [k] identities. *)
Definition bounded {A} (k : Z) (m : M Z A) : Prop := forall n, fst (m n) <> Panic /\ snd (m n) <= n + k.

Lemma bounded_lift {A} (r : res A) : r <> Panic -> bounded 0 (lift r).
Proof. intros H n. cbn. split; [done|lia]. Qed.

Lemma bounded_ret {A} (a : A) : bounded 0 (mret a).
Proof. intros n. cbn. split; [done|lia]. Qed.

Lemma bounded_le {A} j k (m : M Z A) : bounded j m -> j <= k -> bounded k m.
Proof. intros H Hk n. destruct (H n). split; [done|lia]. Qed.

Lemma bounded_bind {A B} j k (m : M Z A) (f : A -> M Z B) :
  0 <= k -> bounded j m -> (forall s a s', m s = (Ok a, s') -> bounded k (f a)) -> bounded (j + k) (m ≫= f).
Proof.
  intros Hk Hm Hf n. destruct (Hm n) as [Hp Hn]. unfold mbind, M_mbind. destruct (m n) as [[a|e|] n'] eqn:E; cbn in *.
  - destruct (Hf _ _ _ E n') as [Hp' Hn']. split; [done|lia].
  - split; [done|lia].
  - done.
Qed.

Lemma bounded_lift_bind {A B} k (r : res A) (f : A -> M Z B) :
  0 <= k -> r <> Panic -> (forall a, r = Ok a -> bounded k (f a)) -> bounded k (lift r ≫= f).
Proof.
  intros Hk Hr Hf. replace k with (0 + k) by lia. apply bounded_bind; [done|by apply bounded_lift|].
  intros s a s' [= -> _]. by apply Hf.
Qed.

Lemma bounded_wrapM {A} k msg (m : M Z A) : bounded k m -> bounded k (wrapM msg m).
Proof. intros H n. destruct (H n) as [Hp Hn]. unfold wrapM. destruct (m n) as [[| |] ?]; done. Qed.

Lemma deserialize_all_bounded des msg ctx ids k : 0 <= k -> (forall id, bounded k (des ctx id)) ->
  bounded (zlen ids * k) (deserialize_all des msg ctx ids).
Proof.
  intros Hk H. induction ids as [|id ids IH]; cbn [deserialize_all].
  - apply bounded_ret.
  - rewrite zlen_cons. pose proof (zlen_nonneg ids). replace ((1 + zlen ids) * k) with (k + (zlen ids * k + 0)) by lia.
    apply bounded_bind; [nia|by apply bounded_wrapM|]. intros _ v _ _.
    apply bounded_bind; [lia|done|]. intros; apply bounded_ret.
Qed.

Lemma try_deserializers_one f d : (try_deserializers f None [d]) = fun n => match f d n with (Err e, n) => (Err e, n) | r => r end.
Proof. done. Qed.

(** The number of identities met by a descent of [levels] levels. *)
Fixpoint work (fanout : Z) (levels : nat) : Z :=
  match levels with
  | O => 1
  | S l => 1 + fanout * work fanout l
  end.

Lemma work_pos c l : 0 <= c -> 1 <= work c l.
Proof. intros Hc. induction l as [|l IH]; cbn; nia. Qed.

Definition levels (ctx : context) : nat := Z.to_nat (n_maxDepth (nestingFrom ctx) - n_depth (nestingFrom ctx)).

Lemma Enter_Ok ctx ctx' : EnterCompositeIdentity ctx = Ok ctx' ->
  levels ctx = S (levels ctx') /\ MaxIdentityComponentsFrom ctx' = MaxIdentityComponentsFrom ctx.
Proof.
  unfold EnterCompositeIdentity. destruct (Z.leb_spec (n_maxDepth (nestingFrom ctx)) (n_depth (nestingFrom ctx))); [done|].
  intros [= <-]. unfold levels, MaxIdentityComponentsFrom. cbn. split; [lia|done].
Qed.

Lemma Enter_no_panic ctx : EnterCompositeIdentity ctx <> Panic.
Proof. unfold EnterCompositeIdentity. by case_match. Qed.

Lemma check_components_no_panic ids : forall seen, check_components seen ids <> Panic.
Proof. induction ids as [|id ids IH]; intros seen; cbn; repeat case_match; done || apply IH. Qed.

Lemma validate_no_panic ids m : validateComponentIdentities ids m <> Panic.
Proof. unfold validateComponentIdentities. case_match; [done|]. apply check_components_no_panic. Qed.

Lemma validate_Ok ids m u : validateComponentIdentities ids m = Ok u -> zlen ids <= m.
Proof. unfold validateComponentIdentities. by destruct (Z.ltb_spec m (zlen ids)). Qed.

Lemma replace_err_no_panic {A} msg (r : res A) : r <> Panic -> replace_err msg r <> Panic.
Proof. by destruct r. Qed.

Lemma reject_if_no_panic b e : reject_if b e <> Panic.
Proof. by destruct b. Qed.

#[local] Hint Resolve wrap_no_panic replace_err_no_panic reject_if_no_panic Enter_no_panic validate_no_panic
  UnmarshalTypedIdentity_no_panic : safe.
#[local] Hint Extern 0 (UnmarshalCanonicalDER _ <> Panic) => apply Canonical_no_panic : safe.

Lemma Parse_not_panic s : Parse s <> Panic.
Proof. pose proof (Parse_no_panic s). by destruct (Parse s). Qed.

#[local] Hint Resolve Parse_not_panic : safe.

Section Descent.
Context (leaves : Z -> list (bytes -> res verifier)).
Hypothesis leaves_safe : forall t f raw, f ∈ leaves t -> f raw <> Panic.
Hypothesis json_Script_safe : forall raw, json_Script raw <> Panic.

(** One level of the descent, from what the multiplexer does one level down. *)
Lemma typed_bounded d des ctx typ raw c :
  match d with LeafDeserializer f => f raw <> Panic | _ => True end ->
  Z.max 2 (MaxIdentityComponentsFrom ctx) <= c ->
  (forall ctx' id, EnterCompositeIdentity ctx = Ok ctx' -> bounded (work c (levels ctx')) (des ctx' id)) ->
  bounded (work c (levels ctx) - 1) (typed_DeserializeVerifier d des ctx typ raw).
Proof.
  intros Hd Hc Hdes. pose proof (work_pos c (levels ctx) ltac:(lia)) as Hw.
  assert (forall ctx', EnterCompositeIdentity ctx = Ok ctx' ->
            work c (levels ctx) - 1 = c * work c (levels ctx') /\ 1 <= work c (levels ctx')) as Hstep.
  { intros ctx' [Hl _]%Enter_Ok. rewrite Hl. cbn [work]. split; [lia|]. apply work_pos. lia. }
  destruct d as [f| | |]; cbn [typed_DeserializeVerifier].
  - eapply bounded_le; [by apply bounded_lift|lia].
  - apply bounded_lift_bind; [lia|auto with safe|intros _ _]. apply bounded_lift_bind; [lia|auto with safe|].
    intros ctx' He%wrap_Ok. destruct (Hstep _ He) as [-> Hw']. apply bounded_lift_bind; [nia|auto with safe|intros script _].
    eapply (bounded_le (work c (levels ctx') + (work c (levels ctx') + 0))); [|nia].
    apply bounded_bind; [lia|by apply bounded_wrapM, Hdes|intros _ s _ _].
    apply bounded_bind; [lia|by apply bounded_wrapM, Hdes|intros; apply bounded_ret].
  - apply bounded_lift_bind; [lia|auto with safe|]. intros ctx' He%wrap_Ok. destruct (Hstep _ He) as [-> Hw'].
    apply Enter_Ok in He as He'. destruct He' as [_ Hm].
    apply bounded_lift_bind; [nia|auto with safe|intros mi _]. apply bounded_lift_bind; [nia|auto with safe|intros _ _].
    apply bounded_lift_bind; [nia|auto with safe|intros u Hv%wrap_Ok%validate_Ok].
    eapply (bounded_le (zlen (MI_Identities mi) * work c (levels ctx') + 0)); [|nia].
    apply bounded_bind; [lia|apply deserialize_all_bounded; [lia|by intros; apply Hdes]|intros; apply bounded_ret].
  - apply bounded_lift_bind; [lia|auto with safe|]. intros ctx' He%wrap_Ok. destruct (Hstep _ He) as [-> Hw'].
    apply Enter_Ok in He as He'. destruct He' as [_ Hm].
    apply bounded_lift_bind; [nia|auto with safe|intros pi _].
    apply bounded_lift_bind; [nia|auto with safe|intros u Hv%wrap_Ok%validate_Ok].
    apply bounded_lift_bind; [nia|auto with safe|intros node _].
    eapply (bounded_le (zlen (PI_Identities pi) * work c (levels ctx') + 0)); [|nia].
    apply bounded_bind; [lia|apply deserialize_all_bounded; [lia|by intros; apply Hdes]|intros; apply bounded_ret].
Qed.

Lemma try_bounded f k dess : 0 <= k -> (forall d, d ∈ dess -> bounded 0 (f d)) \/ (exists d, dess = [d] /\ bounded k (f d)) ->
  forall errs, bounded k (try_deserializers f errs dess).
Proof.
  intros Hk [H|(d & -> & H)].
  - induction dess as [|d dess IH]; intros errs n; cbn [try_deserializers]; [cbn; split; [done|lia]|].
    destruct (H d ltac:(left) n) as [Hp Hn]. destruct (f d n) as [[v|e|] n'] eqn:E; cbn in *; [split; [done|lia]| |done].
    assert (forall d, d ∈ dess -> bounded 0 (f d)) as H' by (intros; apply H; by right).
    match goal with |- context [try_deserializers f ?e dess n'] => destruct (IH H' e n') as [Hp' Hn'] end. split; [exact Hp'|lia].
  - intros errs n. cbn [try_deserializers]. destruct (H n) as [Hp Hn]. by destruct (f d n) as [[v|e|] n'].
Qed.

(** The registered deserializers of a type: leaves, or a single composite one. *)
Lemma NewDeserializer_cases typ :
  (exists fs, fs = leaves typ /\ NewDeserializer leaves typ = LeafDeserializer <$> fs) \/
  (exists d, NewDeserializer leaves typ = [d] /\ match d with LeafDeserializer _ => False | _ => True end).
Proof.
  unfold NewDeserializer. repeat (case_match; [right; by eexists|]). left. by eexists.
Qed.

Lemma descent_bounded c : forall l ctx id fuel, levels ctx = l -> (l < fuel)%nat -> Z.max 2 (MaxIdentityComponentsFrom ctx) <= c ->
  bounded (work c l) (DeserializeVerifier (NewDeserializer leaves) fuel ctx id).
Proof.
  induction l as [l IH] using lt_wf_ind. intros ctx id fuel Hl Hf Hc. destruct fuel as [|fuel]; [lia|]. cbn [DeserializeVerifier].
  pose proof (work_pos c l ltac:(lia)). replace (work c l) with (1 + (work c l - 1)) by lia.
  apply bounded_bind; [lia|intros n; cbn; split; [done|lia]|intros _ _ _ _].
  apply bounded_lift_bind; [lia|auto with safe|intros si _].
  destruct (NewDeserializer leaves (TI_Type si)) as [|d0 dess0] eqn:Hreg; [eapply bounded_le; [by apply bounded_lift|lia]|].
  rewrite <- Hreg. apply bounded_wrapM, try_bounded; [lia|]. destruct (NewDeserializer_cases (TI_Type si)) as [(fs & -> & ->)|(d & -> & Hd)].
  - left. intros d (f & -> & Hin)%list_elem_of_fmap. apply bounded_lift. by eapply leaves_safe.
  - right. exists d. split; [done|]. subst l. apply typed_bounded; [by destruct d|done|].
    intros ctx' id' He. destruct (Enter_Ok _ _ He) as [Hl' Hm]. apply (IH (levels ctx')); [lia|done|lia|lia].
Qed.

(** More fuel than the levels left changes nothing. *)
Lemma deserialize_all_ext des des' msg ctx ids : (forall id n, des ctx id n = des' ctx id n) ->
  forall n, deserialize_all des msg ctx ids n = deserialize_all des' msg ctx ids n.
Proof.
  intros H. induction ids as [|id ids IH]; intros n; [done|]. cbn [deserialize_all]. unfold mbind, M_mbind, wrapM. rewrite H.
  destruct (des' ctx id n) as [[v|e|] n']; cbn; try done. by rewrite IH.
Qed.

Lemma lift_bind_ext {A B} (r : res A) (f g : A -> M Z B) n : (forall a, r = Ok a -> f a n = g a n) -> (lift r ≫= f) n = (lift r ≫= g) n.
Proof. intros H. unfold mbind, M_mbind, lift. destruct r; try done. by apply H. Qed.

Lemma bind_ext {A B} (m m' : M Z A) (f g : A -> M Z B) n : m n = m' n -> (forall a n', f a n' = g a n') -> (m ≫= f) n = (m' ≫= g) n.
Proof. intros Hm H. unfold mbind, M_mbind. rewrite Hm. by destruct (m' n) as [[| |] ?]. Qed.

Lemma typed_ext d des des' ctx typ raw :
  (forall ctx' id n, EnterCompositeIdentity ctx = Ok ctx' -> des ctx' id n = des' ctx' id n) ->
  forall n, typed_DeserializeVerifier d des ctx typ raw n = typed_DeserializeVerifier d des' ctx typ raw n.
Proof.
  intros H n. destruct d as [f| | |]; cbn [typed_DeserializeVerifier]; [done|..].
  - apply lift_bind_ext. intros _ _. apply lift_bind_ext. intros ctx' He%wrap_Ok. apply lift_bind_ext. intros script _.
    apply bind_ext; [unfold wrapM; by rewrite (H _ _ _ He)|]. intros s n'.
    apply bind_ext; [unfold wrapM; by rewrite (H _ _ _ He)|done].
  - apply lift_bind_ext. intros ctx' He%wrap_Ok. apply lift_bind_ext. intros mi _. apply lift_bind_ext. intros _ _.
    apply lift_bind_ext. intros _ _. apply bind_ext; [|done]. apply deserialize_all_ext. intros; by apply H.
  - apply lift_bind_ext. intros ctx' He%wrap_Ok. apply lift_bind_ext. intros pi _. apply lift_bind_ext. intros _ _.
    apply lift_bind_ext. intros node _. apply bind_ext; [|done]. apply deserialize_all_ext. intros; by apply H.
Qed.

Lemma try_ext f g dess : (forall d n, f d n = g d n) -> forall errs n, try_deserializers f errs dess n = try_deserializers g errs dess n.
Proof.
  intros H. induction dess as [|d dess IH]; intros errs n; [done|]. cbn [try_deserializers]. rewrite H.
  destruct (g d n) as [[| |] ?]; done || apply IH.
Qed.

Lemma descent_fuel_enough dess : forall l ctx id f g n, levels ctx = l -> (l < f)%nat -> (l < g)%nat ->
  DeserializeVerifier dess f ctx id n = DeserializeVerifier dess g ctx id n.
Proof.
  induction l as [l IH] using lt_wf_ind. intros ctx id f g n Hl Hf Hg. destruct f as [|f], g as [|g]; try lia. cbn [DeserializeVerifier].
  apply bind_ext; [done|]. intros _ n1. apply lift_bind_ext. intros si _. destruct (dess (TI_Type si)) as [|d0 ds]; [done|].
  unfold wrapM. rewrite (try_ext _ (fun d => typed_DeserializeVerifier d (DeserializeVerifier dess g) ctx (TI_Type si) (TI_Identity si))); [done|].
  intros d n2. apply typed_ext. intros ctx' id' n3 He. destruct (Enter_Ok _ _ He) as [Hl' _]. apply (IH (levels ctx')); [lia|done|lia|lia].
Qed.

(** ** Lemmas: deserialized verifiers *)

Definition verifier_safe (v : verifier) : Prop := forall msg sig, v msg sig <> Panic.

Lemma PolicyVerifier_Verify_safe v : verifiers_safe v -> no_nil_node (PV_Policy v) -> verifier_safe (PolicyVerifier_Verify v).
Proof.
  intros Hs Hn msg raw. unfold PolicyVerifier_Verify.
  destruct (UnmarshalCanonicalDER (T := PolicySignature) raw) as [[sigs]|e|] eqn:E.
  - destruct (decide (length sigs = length (PV_Verifiers v))) as [Hl|Hl].
    + destruct (PolicyVerifier_run_ok v msg raw sigs Hs Hn E Hl) as (b & st & _ & _ & ->). by destruct b.
    + unfold PolicyVerifier_run. rewrite E. cbn [wrap PS_Signatures].
      destruct (Z.eqb_spec (zlen sigs) (zlen (PV_Verifiers v))) as [H|]; [unfold zlen in H; lia|done].
  - unfold PolicyVerifier_run. by rewrite E.
  - by apply Canonical_no_panic in E.
Qed.

Lemma Multisig_Verify_Ok vs msg raw : Multisig_Verify vs msg raw = Ok tt <->
  vs <> [] /\ exists sigs, UnmarshalCanonicalDER raw = Ok (mkMultiSignature sigs) /\ Forall2 (fun v s => v msg s = Ok tt) vs sigs.
Proof.
  unfold Multisig_Verify. destruct (Z.eqb_spec (zlen vs) 0) as [Hz%zlen_zero_nil|Hz]; [subst; split; [done|by intros []]|].
  assert (vs <> []) as Hne by (intros ->; done). rewrite res_bind_Ok. split.
  - intros ([sigs] & Hc%wrap_Ok & H). split; [done|]. exists sigs. split; [done|]. cbn [MS_Signatures] in H.
    destruct (Z.eqb_spec (zlen vs) (zlen sigs)) as [Hl|]; [|done]. cbn [negb] in H. rewrite rangeR_Ok in H.
    apply Forall2_same_length_lookup_2; [unfold zlen in Hl; lia|]. intros k v s Hv Hs.
    specialize (H k (v, s)). rewrite lookup_zip_with, Hv in H. cbn in H. rewrite Hs in H. specialize (H eq_refl). by apply replace_err_Ok in H.
  - intros (_ & sigs & Hc & HF). exists (mkMultiSignature sigs). split; [by apply wrap_Ok|]. cbn [MS_Signatures].
    replace (zlen vs =? zlen sigs) with true by (unfold zlen; rewrite (Forall2_length _ _ _ HF); by rewrite Z.eqb_refl). cbn [negb].
    rewrite rangeR_Ok. intros k [v s] Hk. rewrite lookup_zip_with in Hk. apply bind_Some in Hk as (v' & Hv & (s' & Hs & [= <- <-])%bind_Some).
    apply replace_err_Ok. by eapply Forall2_lookup_lr in HF.
Qed.

Lemma rangeR_safe {A} (f : nat -> A -> res unit) l : (forall i x, x ∈ l -> f i x <> Panic) -> forall i, rangeR f i l <> Panic.
Proof.
  induction l as [|x l IH]; intros H i; [done|]. cbn [rangeR]. apply bind_no_panic; [apply H; left|]. intros _. apply IH. intros; apply H; by right.
Qed.

Lemma Multisig_Verify_safe vs : Forall verifier_safe vs -> verifier_safe (Multisig_Verify vs).
Proof.
  intros HF msg raw. unfold Multisig_Verify. case_match; [done|]. apply bind_no_panic; [apply wrap_no_panic, Canonical_no_panic|].
  intros sig. case_match; [done|]. apply rangeR_safe. intros i [v s] Hin. apply replace_err_no_panic.
  apply list_elem_of_lookup in Hin as (k & Hk). rewrite lookup_zip_with in Hk. apply bind_Some in Hk as (v' & Hv & (s' & Hs & [= <- <-])%bind_Some).
  apply list_elem_of_lookup_2 in Hv. eapply Forall_forall in HF; [|exact Hv]. apply HF.
Qed.

Lemma deserialize_all_Ok des msg ctx ids : forall n vs n', deserialize_all des msg ctx ids n = (Ok vs, n') ->
  Forall2 (fun id v => exists k k', des ctx id k = (Ok v, k')) ids vs.
Proof.
  induction ids as [|id ids IH]; intros n vs n'; cbn [deserialize_all]; [by intros [= <- _]|].
  intros (v & n1 & Hv%wrapM_Ok & (vs' & n2 & Hvs & H)%M_bind_Ok)%M_bind_Ok.
  apply M_ret_Ok in H as [-> _]. constructor; [eauto|by eapply IH].
Qed.

Hypothesis leaf_verifiers_safe : forall t f raw v, f ∈ leaves t -> f raw = Ok v -> verifier_safe v.
Hypothesis json_ClaimSignature_safe : forall raw, json_ClaimSignature raw <> Panic.

Lemma Verifier_Verify_safe r s deadline info : verifier_safe r -> verifier_safe s ->
  verifier_safe (Verifier_Verify crypto_Hash json_ClaimSignature r s deadline info now).
Proof.
  intros Hr Hs msg raw. unfold Verifier_Verify. case_match; apply wrap_no_panic; [|apply Hs].
  unfold ClaimVerifier_Verify. apply bind_no_panic; [by apply wrap_no_panic|intros sig].
  apply bind_no_panic; [apply wrap_no_panic, Hr|intros _].
  apply bind_no_panic; [|intros img; by case_match]. apply wrap_no_panic.
  pose proof (Image_no_panic crypto_Hash info (Preimage sig)). by destruct (HashInfo_Image _ _ _).
Qed.

Lemma typed_safe d des ctx typ raw n v n' :
  (forall ctx id n v n', des ctx id n = (Ok v, n') -> verifier_safe v) ->
  match d with LeafDeserializer f => forall v, f raw = Ok v -> verifier_safe v | _ => True end ->
  typed_DeserializeVerifier d des ctx typ raw n = (Ok v, n') -> verifier_safe v.
Proof.
  intros Hdes Hd. destruct d as [f| | |]; cbn [typed_DeserializeVerifier].
  - intros [Hf _]%lift_Ok. by apply Hd.
  - intros (_ & ? & _ & (c' & ? & _ & (script & ? & _ & (s & ? & Hs%wrapM_Ok & (r & ? & Hr%wrapM_Ok & Hv)%M_bind_Ok)%M_bind_Ok)%M_bind_Ok)%M_bind_Ok)%M_bind_Ok.
    apply M_ret_Ok in Hv as [-> _]. apply Verifier_Verify_safe; eauto.
  - intros (c' & ? & _ & (mi & ? & _ & (_ & ? & _ & (_ & ? & _ & (vs & ? & Hvs & Hv)%M_bind_Ok)%M_bind_Ok)%M_bind_Ok)%M_bind_Ok)%M_bind_Ok.
    apply M_ret_Ok in Hv as [-> _]. apply Multisig_Verify_safe. apply deserialize_all_Ok in Hvs.
    clear - Hvs Hdes. induction Hvs as [|id v ids vs (k & k' & H) _ IH]; constructor; eauto.
  - intros (c' & ? & _ & (pi & ? & _ & (_ & ? & _ & (node & ? & [Hp%wrap_Ok _]%lift_Ok & (vs & ? & Hvs & Hv)%M_bind_Ok)%M_bind_Ok)%M_bind_Ok)%M_bind_Ok)%M_bind_Ok.
    apply M_ret_Ok in Hv as [-> _]. apply PolicyVerifier_Verify_safe; [|by eapply Parse_no_nil].
    apply deserialize_all_Ok in Hvs. intros verify msg sig (w & [= ->] & Hin)%list_elem_of_fmap.
    apply list_elem_of_lookup in Hin as (k & Hk). destruct (Forall2_lookup_r _ _ _ _ _ Hvs Hk) as (id & _ & q & q' & H). by eapply Hdes.
Qed.

(** No verifier the multiplexer builds ever panics. *)
Lemma deserialized_safe fuel : forall ctx id n v n',
  DeserializeVerifier (NewDeserializer leaves) fuel ctx id n = (Ok v, n') -> verifier_safe v.
Proof.
  induction fuel as [|fuel IH]; intros ctx id n v n'; [done|]. cbn [DeserializeVerifier].
  intros (_ & ? & _ & (si & ? & _ & H)%M_bind_Ok)%M_bind_Ok.
  destruct (NewDeserializer leaves (TI_Type si)) as [|d0 ds] eqn:Hreg; [done|]. apply wrapM_Ok in H. revert H.
  assert (forall d, d ∈ d0 :: ds -> match d with LeafDeserializer f => forall v, f (TI_Identity si) = Ok v -> verifier_safe v | _ => True end) as Hall.
  { intros d Hin. rewrite <- Hreg in Hin. destruct (NewDeserializer_cases (TI_Type si)) as [(fs & -> & E)|(d' & E & Hd')]; rewrite E in Hin.
    - apply list_elem_of_fmap in Hin as (f & -> & Hin). intros. by eapply leaf_verifiers_safe.
    - apply list_elem_of_singleton in Hin as ->. by destruct d'. }
  clear Hreg. generalize (@None error). generalize x0. induction (d0 :: ds) as [|d dl IHd]; intros k errs; cbn [try_deserializers]; [done|].
  destruct (typed_DeserializeVerifier d _ _ _ _ k) as [[w|e|] k'] eqn:E; [|apply IHd; intros; apply Hall; by right|done].
  intros [= <- _]. eapply typed_safe; [apply IH|apply Hall; left|exact E].
Qed.

(** The verifier of a policy identity, opened up. *)
Lemma policy_verifier_inv f ctx raw id n v n' : UnmarshalTypedIdentity id = Ok (mkTypedIdentity Policy raw) ->
  DeserializeVerifier (NewDeserializer leaves) (S f) ctx id n = (Ok v, n') ->
  exists ctx' pi node vs, EnterCompositeIdentity ctx = Ok ctx' /\ UnmarshalCanonicalDER raw = Ok pi /\ Parse (PI_Policy pi) = Ok node /\
    Forall2 (fun id w => exists k k', DeserializeVerifier (NewDeserializer leaves) f ctx' id k = (Ok w, k')) (PI_Identities pi) vs /\
    v = PolicyVerifier_Verify (mkPolicyVerifier node (Some <$> vs)).
Proof.
  intros Hid. cbn [DeserializeVerifier]. intros (_ & ? & _ & (si & ? & [Hsi%wrap_Ok _]%lift_Ok & H)%M_bind_Ok)%M_bind_Ok.
  rewrite Hid in Hsi. injection Hsi as <-. cbn [TI_Type TI_Identity] in H. change (NewDeserializer leaves Policy) with [PolicyDeserializer] in H.
  apply wrapM_Ok in H. cbn [try_deserializers] in H.
  destruct (typed_DeserializeVerifier PolicyDeserializer _ ctx Policy raw _) as [[w|e|] k] eqn:E in H; [|done|done].
  injection H as -> _. cbn [typed_DeserializeVerifier] in E.
  apply M_bind_Ok in E as (c' & ? & [Hc%wrap_Ok _]%lift_Ok & (pi & ? & [Hpi%wrap_Ok _]%lift_Ok & (_ & ? & _ & (node & ? & [Hp%wrap_Ok _]%lift_Ok & (vs & ? & Hvs & Hv)%M_bind_Ok)%M_bind_Ok)%M_bind_Ok)%M_bind_Ok).
  apply M_ret_Ok in Hv as [-> _]. exists c', pi, node, vs. split_and!; try done. by eapply deserialize_all_Ok.
Qed.

Lemma WrapPolicyIdentity_Ok policy ids id : WrapPolicyIdentity policy ids = Ok id ->
  id = TypedIdentity_Bytes (mkTypedIdentity Policy (string_octets_Marshal policy ids)).
Proof. unfold WrapPolicyIdentity. do 2 (case_match; [done|]). intros ([] & _ & Hid)%res_bind_Ok. cbn in Hid. by injection Hid as <-. Qed.

(** ** Properties *)

(** C34: deserializing an identity terminates, whatever it contains.  Under the
    registrations of the drivers, if leaf deserializers and the script decoder
    do not panic, then for any bytes and any context the descent through nested
    policies, multi-signatures and scripts returns with one call of the
    multiplexer per level of the budget; more fuel gives the same result; and it
    deserializes at most [work c l] identities, where [l] is the number of
    levels left and [c] the limit on components (at least two, for the two
    parties of a script): 1 + c + ... + c^l. *)
Theorem composite_descent_bounded ctx id fuel n : (levels ctx < fuel)%nat ->
  let run := DeserializeVerifier (NewDeserializer leaves) (S (levels ctx)) ctx id n in
  DeserializeVerifier (NewDeserializer leaves) fuel ctx id n = run /\
  fst run <> Panic /\ snd run <= n + work (Z.max 2 (MaxIdentityComponentsFrom ctx)) (levels ctx).
Proof.
  intros Hf run. split.
  - eapply descent_fuel_enough; [done|done|lia].
  - apply (descent_bounded (Z.max 2 (MaxIdentityComponentsFrom ctx)) (levels ctx)); [done|lia|lia].
Qed.

(** C33: a policy identity is spent exactly by the signatures its policy asks
    for.  Take an identity wrapped from a policy and component identities, the
    verifier the multiplexer builds from it, and a signature joined from
    signatures of some of the components, by unique id.  The policy then parses,
    every component has a verifier of its own, and the joined signature is
    accepted if and only if the policy evaluates to true on the components that
    are present with a non-empty signature their verifier accepts. *)
Theorem policy_identity_exact policy ids id f ctx n v n' sigmas raw msg :
  WrapPolicyIdentity policy ids = Ok id -> ValidString policy = true -> small (string_octets_Marshal policy ids) ->
  DeserializeVerifier (NewDeserializer leaves) (S f) ctx id n = (Ok v, n') ->
  Policy_JoinSignatures ids sigmas = Ok raw -> small raw ->
  exists ctx' node vs,
    EnterCompositeIdentity ctx = Ok ctx' /\ Parse policy = Ok node /\
    Forall2 (fun id w => exists k k', DeserializeVerifier (NewDeserializer leaves) f ctx' id k = (Ok w, k')) ids vs /\
    (v msg raw = Ok tt <->
     Eval node (zip_with (fun id w => slot_valid msg (Some w) (default [] (gomap_get sigmas (UniqueID id)))) ids vs) = Ok true).
Proof.
  intros ->%WrapPolicyIdentity_Ok Hu Hs Hv [= <-] Hraw.
  assert (zlen (string_octets_Marshal policy ids) + 16 < 2 ^ 32) as Hsz by (unfold small in Hs; lia).
  eapply policy_verifier_inv in Hv as (ctx' & pi & node & vs & He & Hpi & Hp & HF & ->); [|by apply typed_roundtrip].
  assert (pi = mkPolicyIdentity policy ids) as ->.
  { destruct (Canonical_encode (mkPolicyIdentity policy ids)) as (b & [= <-] & Hd); [done|]. cbn [PI_Policy PI_Identities] in Hd. congruence. }
  exists ctx', node, vs. split_and!; try done. cbn [PI_Identities] in HF.
  set (sigs := (fun id => default [] (gomap_get sigmas (UniqueID id))) <$> ids) in *.
  set (pv := mkPolicyVerifier node (Some <$> vs)).
  assert (UnmarshalCanonicalDER (octets_struct_Marshal sigs) = Ok (mkPolicySignature sigs)) as Hc.
  { by destruct (Canonical_encode (mkPolicySignature sigs)) as (b & [= <-] & Hd). }
  destruct (PolicyVerifier_run_ok pv msg (octets_struct_Marshal sigs) sigs) as (b & st & Hb & _ & Hrun).
  - intros w m sg (w' & [= ->] & Hin)%list_elem_of_fmap. apply list_elem_of_lookup in Hin as (k & Hk).
    destruct (Forall2_lookup_r _ _ _ _ _ HF Hk) as (cid & _ & q & q' & Hq). by eapply deserialized_safe in Hq.
  - by eapply Parse_no_nil.
  - done.
  - subst sigs. cbn. rewrite !length_fmap. by apply Forall2_length in HF.
  - unfold PolicyVerifier_Verify. rewrite Hrun. cbn [fst pv PV_Policy] in *.
    replace (slots pv msg sigs) with (zip_with (fun id w => slot_valid msg (Some w) (default [] (gomap_get sigmas (UniqueID id)))) ids vs) in Hb.
    { rewrite Hb. destruct b; cbn; split; congruence. }
    unfold slots, sigs; cbn. clear. revert vs. induction ids as [|id l IH]; intros [|w vs]; [done..|]. cbn. f_equal. apply IH.
Qed.

End Descent.

(** A multi-signature needs every member.  [Verify] accepts if and only if
    there are members, the bytes are a canonical encoding of a signature list and
    the members' verifiers accept its entries one by one, in order. *)
Theorem Multisig_exact vs msg raw : Multisig_Verify vs msg raw = Ok tt <->
  vs <> [] /\ exists sigs, UnmarshalCanonicalDER raw = Ok (mkMultiSignature sigs) /\
    Forall2 (fun v s => v msg s = Ok tt) vs sigs.
Proof. apply Multisig_Verify_Ok. Qed.

End Composite.

(** ** A concrete policy identity

    Two components of the X.509 type, whose verifiers accept the component's
    name followed by the message, under the policy "$0 OR $1". *)

Definition example_leaves (typ : Z) : list (bytes -> res verifier) :=
  if typ =? X509IdentityType then [fun raw => Ok (fun msg sig => if bool_decide (sig = raw ++ msg) then Ok tt else Err (EMsg "invalid"))]
  else [].

Definition example_script (raw : bytes) : res Script := Err (EMsg "not a script").
Definition example_claim (raw : bytes) : res ClaimSignature := Err (EMsg "not a claim").

Definition example_components : list bytes := [WrapWithType X509IdentityType (str "alice"); WrapWithType X509IdentityType (str "bob")].
Definition example_id : bytes := Eval vm_compute in
  match WrapPolicyIdentity (IO := bytes_identity) (fun id => id) (str "$0 OR $1") example_components with Ok id => id | _ => [] end.
Definition example_sigmas : gomap bytes := [(WrapWithType X509IdentityType (str "bob"), str "bobm")].
Definition example_raw : bytes := Eval vm_compute in
  match Policy_JoinSignatures (fun id => id) example_components example_sigmas with Ok raw => raw | _ => [] end.

Definition example_run (fuel : nat) (ctx : context) (owner : bytes) : res verifier * Z :=
  DeserializeVerifier (UT := ascii_tables) (IO := bytes_identity) (fun id => id) (fun _ => None)
    example_claim example_script 0 (NewDeserializer example_leaves) fuel ctx owner 0.

Lemma example_leaves_safe t f raw : f ∈ example_leaves t -> f raw <> Panic.
Proof. unfold example_leaves. case_match; intros Hin; [by apply list_elem_of_singleton in Hin as ->|by apply not_elem_of_nil in Hin]. Qed.

Lemma example_leaf_verifiers_safe t f raw v : f ∈ example_leaves t -> f raw = Ok v -> verifier_safe v.
Proof.
  unfold example_leaves. case_match; intros Hin; [|by apply not_elem_of_nil in Hin]. apply list_elem_of_singleton in Hin as ->.
  intros [= <-] msg sig. by case_match.
Qed.

Lemma composite_descent_bounded_witness :
  example_run 9%nat None example_id = example_run 6%nat None example_id /\ fst (example_run 6%nat None example_id) <> Panic /\
  snd (example_run 6%nat None example_id) <= 0 + work 16 5.
Proof.
  apply (composite_descent_bounded (UT := ascii_tables) (IO := bytes_identity) (fun id => id) (fun _ => None) example_claim example_script 0
           example_leaves example_leaves_safe ltac:(done) None example_id 9 0). vm_compute. lia.
Defined.

(** Bob's signature alone satisfies the policy. *)
Lemma policy_identity_exact_witness :
  exists v n' ctx' node vs, example_run 6%nat None example_id = (Ok v, n') /\
    EnterCompositeIdentity None = Ok ctx' /\ Parse (UT := ascii_tables) (str "$0 OR $1") = Ok node /\
    Forall2 (fun id w => exists k k', DeserializeVerifier (UT := ascii_tables) (IO := bytes_identity) (fun id => id) (fun _ => None)
       example_claim example_script 0 (NewDeserializer example_leaves) 5 ctx' id k = (Ok w, k')) example_components vs /\
    (v (str "m") example_raw = Ok tt <->
     Eval node (zip_with (fun id w => slot_valid (str "m") (Some w) (default [] (gomap_get example_sigmas id))) example_components vs) = Ok true).
Proof.
  destruct (example_run 6%nat None example_id) as [r n'] eqn:E.
  assert (exists v, r = Ok v) as (v & ->).
  { destruct r as [v|e|]; [by eexists| |]; exfalso; apply (f_equal (fun p => is_ok (fst p))) in E; vm_compute in E; discriminate. }
  exists v, n'.
  destruct (policy_identity_exact (UT := ascii_tables) (IO := bytes_identity) (fun id => id) (fun _ => None) example_claim example_script 0
              example_leaves example_leaf_verifiers_safe ltac:(done) (str "$0 OR $1") example_components example_id 5 None 0 v n'
              example_sigmas example_raw (str "m")) as (ctx' & node & vs & H1 & H2 & H3 & H4).
  - vm_compute. reflexivity.
  - vm_compute. reflexivity.
  - vm_compute. reflexivity.
  - exact E.
  - vm_compute. reflexivity.
  - vm_compute. reflexivity.
  - exists ctx', node, vs. split_and!; assumption || reflexivity.
Defined.

Example policy_identity_accepts :
  match fst (example_run 6%nat None example_id) with
  | Ok v => v (str "m") example_raw = Ok tt /\ v (str "n") example_raw = Err (EMsg "policy not satisfied")
  | _ => False
  end.
Proof. vm_compute. done. Qed.

Definition example_verifier : PolicyVerifier :=
  mkPolicyVerifier (AndNode (RefNode 0) (OrNode (RefNode 0) (RefNode 1)))
    [Some (fun msg sig => if bool_decide (sig = msg) then Ok tt else Err (EMsg "invalid")); None].

Lemma PolicyVerifier_exact_witness :
  let raw := octets_struct_Marshal [str "m"; []] in
  (PolicyVerifier_Verify example_verifier (str "m") raw = Ok tt <->
   exists sigs, asn1_Marshal (mkPolicySignature sigs) = Ok raw /\ UnmarshalCanonicalDER raw = Ok (mkPolicySignature sigs) /\
     length sigs = length (PV_Verifiers example_verifier) /\ Eval (PV_Policy example_verifier) (slots example_verifier (str "m") sigs) = Ok true) /\
  NoDup (calls (snd (PolicyVerifier_run example_verifier (str "m") raw))) /\
  PolicyVerifier_Verify example_verifier (str "m") raw = Ok tt.
Proof.
  intros raw. destruct (PolicyVerifier_exact example_verifier (str "m") raw) as [H1 H2].
  - intros verify msg sig. unfold example_verifier; cbn [PV_Verifiers]. rewrite !elem_of_cons. intros [[= ->]|[?|?%not_elem_of_nil]]; [|done..].
    by case_match.
  - cbn. auto.
  - split_and!; [exact H1|exact H2|vm_compute; reflexivity].
Defined.
