(* ===== verification/Validator.v ===== *)
(** * The validation pipeline of token requests (token/core/common/backend.go,
      limits.go, validator.go, validator_auditing.go, validator_issue.go,
      validator_transfer.go)

    Generic in the driver: the types of its transfer and issue actions and of
    its input tokens, its action deserializer and its lists of validation
    functions.  A validation function runs on the mutable part of the Go
    [Context] (the signature provider, the collected signatures and input
    tokens, the metadata counter); public parameters and deserializer are
    fixed when the function is built.  A nil pointer or interface is [None]. *)

From S2P Require Import Prelude Request Limits.
From Stdlib Require Import ZArith Lia.
Local Open Scope Z_scope.

Definition ErrUnconsumedSignatures := EMsg "unconsumed signatures".
Definition ErrNilSignatureVerifier := EMsg "signature verifier is nil".
Definition ErrNoActions := EMsg "token request has no actions".
Definition ErrNilActionDeserializer := EMsg "action deserializer is nil".
Definition ErrNilAction := EMsg "deserialized action is nil".
Definition ErrNilSignatureProvider := EMsg "signature provider is nil".
Definition ErrActionSignatureIDOutOfRange := EMsg "action signature ID is out of range".
Definition ErrRequestTooLarge := EMsg "token request exceeds maximum allowed size".
Definition ErrTooManyActions := EMsg "token request exceeds maximum allowed number of actions".
Definition ErrTooManySignatures := EMsg "token request exceeds maximum allowed number of signatures".
Definition ErrSignatureTooLarge := EMsg "signature exceeds maximum allowed size".
Definition ErrActionTooLarge := EMsg "action exceeds maximum allowed size".
Definition ErrAuditorSignaturesMissing := EMsg "auditor signatures missing".
Definition ErrAuditorSignaturesPresent := EMsg "auditor signatures present".

(** ** The signature backend (backend.go) *)

Record Backend := mkBackend { Message : bytes; Cursor : nat; Sigs : list bytes }.

Definition NewBackend (message : bytes) (sigs : list bytes) : Backend := mkBackend message 0 sigs.

(** On a non-nil backend; the identity is only logged. *)
Definition Backend_HasBeenSignedBy (v : option verifier) : M Backend bytes := fun b =>
  if (length (Sigs b) <=? Cursor b)%nat
  then (Err (EMsg "invalid state, insufficient number of signatures"), b)
  else
    match v with
    | None => (Err ErrNilSignatureVerifier, b)
    | Some verify =>
        match Sigs b !! Cursor b with
        | None => (Panic, b)
        | Some sigma =>
            let b' := mkBackend (Message b) (S (Cursor b)) (Sigs b) in
            (match verify (Message b) sigma with
             | Ok _ => Ok sigma
             | Err e => Err e
             | Panic => Panic
             end, b')
        end
    end.

Definition EnsureExhausted (b : Backend) : res unit :=
  if negb (Cursor b =? length (Sigs b))%nat then Err (EWrap ErrUnconsumedSignatures "consumed of")
  else Ok tt.

(** ** The validation context *)

Record Ctx (Tok : Type) := mkCtx {
  SignatureProvider : option Backend;
  ctx_Signatures : list bytes;
  InputTokens : list (option Tok);
  MetadataCounter : list (bytes * Z);
}.
Arguments mkCtx {Tok}.
Arguments SignatureProvider {Tok}.
Arguments ctx_Signatures {Tok}.
Arguments InputTokens {Tok}.
Arguments MetadataCounter {Tok}.

(** [counter[key] = counter[key] + 1]. *)
Fixpoint count_key (key : bytes) (counter : list (bytes * Z)) : list (bytes * Z) :=
  match counter with
  | [] => [(key, 1)]
  | (k, c) :: l => if decide (k = key) then (k, c + 1) :: l else (k, c) :: count_key key l
  end.

Definition CountMetadataKey {Tok} (key : bytes) : M (Ctx Tok) unit :=
  modifyS (fun c => mkCtx (SignatureProvider c) (ctx_Signatures c) (InputTokens c)
                      (count_key key (MetadataCounter c))).

(** [ctx.SignatureProvider.HasBeenSignedBy], after the nil check that
    precedes every use. *)
Definition HasBeenSignedBy {Tok} (v : option verifier) : M (Ctx Tok) bytes := fun c =>
  match SignatureProvider c with
  | None => (Err (EMsg "signature backend is nil"), c)
  | Some b =>
      let '(r, b') := Backend_HasBeenSignedBy v b in
      (r, mkCtx (Some b') (ctx_Signatures c) (InputTokens c) (MetadataCounter c))
  end.

Definition require_provider {Tok} : M (Ctx Tok) unit := fun c =>
  match SignatureProvider c with
  | None => (Err ErrNilSignatureProvider, c)
  | Some _ => (Ok tt, c)
  end.

(** [for k, c := range MetadataCounter { ... }]. *)
Fixpoint sum_counts (l : list (bytes * Z)) (counter : Z) : res Z :=
  match l with
  | [] => Ok counter
  | (k, c) :: l => if c >? 1 then Err (EMsg "metadata key appeared more than one time")
                   else sum_counts l (counter + c)
  end.

Definition check_metadata (counts : list (bytes * Z)) (metadata : gomap bytes) : res unit :=
  counter ← sum_counts counts 0;
  if negb (zlen metadata =? counter) then Err (EMsg "more metadata than those validated")
  else Ok tt.

(** ** Limits (limits.go) *)

Definition CheckRawRequestSize (limits : ResourceLimits) (raw : bytes) : res unit :=
  reject_if (zlen raw >? MaxRequestBytes limits) (EWrap ErrRequestTooLarge "limit").

Definition CheckActionSize (limits : ResourceLimits) (_ : nat) (action : option TypedAction) : res unit :=
  match action with
  | None => Ok tt
  | Some a => reject_if (zlen (TA_Raw a) >? MaxActionBytes limits) (EWrap ErrActionTooLarge "action at index")
  end.

Definition CheckSignatureSize (limits : ResourceLimits) (_ : nat) (sig : option RequestSignature) : res unit :=
  match sig with
  | None => Ok tt
  | Some s =>
      let too_large := fun l => zlen l >? MaxSignatureBytes limits in
      if match RS_Action s with Some a => too_large (AS_Signature a) | None => false end
      then Err (EWrap ErrSignatureTooLarge "action signature at index")
      else if match RS_Auditor s with Some a => too_large (AU_Signature a) | None => false end
      then Err (EWrap ErrSignatureTooLarge "auditor signature at index")
      else Ok tt
  end.

Definition CheckRequestLimits (limits : ResourceLimits) (tr : TokenRequest) : res unit :=
  reject_if (zlen (Actions tr) >? MaxActions limits) (EWrap ErrTooManyActions "limit") ;;
  reject_if (zlen (Signatures tr) >? MaxSignatures limits) (EWrap ErrTooManySignatures "limit") ;;
  rangeR (CheckActionSize limits) 0 (Actions tr) ;;
  rangeR (CheckSignatureSize limits) 0 (Signatures tr).

(** ** Auditor signatures (validator_auditing.go) *)

Definition auditor_signatures (tr : TokenRequest) : list AuditorSignature :=
  omap (fun s => s ≫= RS_Auditor) (Signatures tr).

Section Auditing.
Context `{IO : !IdentityOps} {Tok : Type} (Auditors : list bytes)
        (GetAuditorVerifier : bytes -> res (option verifier)).

Definition verifyAuditorSignature (_ : nat) (auditorSignature : AuditorSignature) : M (Ctx Tok) unit :=
  let auditor := AU_Identity auditorSignature in
  if negb (existsb (Identity_Equal auditor) Auditors)
  then lift (Err (EMsg "auditor is not in auditors"))
  else
    v ← wrapM "failed to deserialize auditor's public key" (lift (GetAuditorVerifier auditor));
    require_provider ;;
    wrapM "failed to verify auditor's signature" (HasBeenSignedBy v) ;;
    mret tt.

Definition AuditingSignaturesValidate (_ : bytes) (tr : TokenRequest) : M (Ctx Tok) unit :=
  let auditorSignatures := auditor_signatures tr in
  if zlen Auditors =? 0 then
    if negb (zlen auditorSignatures =? 0) then lift (Err ErrAuditorSignaturesPresent) else mret tt
  else if zlen auditorSignatures =? 0 then lift (Err ErrAuditorSignaturesMissing)
  else rangeM verifyAuditorSignature 0 auditorSignatures.
End Auditing.

(** ** Application metadata (validator_issue.go, validator_transfer.go) *)

Definition PublicMetadataPrefix : bytes := str "pub.".

Definition ApplicationDataValidate {Tok} (metadata : gomap bytes) : M (Ctx Tok) unit :=
  rangeM (fun _ '(key, _) =>
    if bool_decide (PublicMetadataPrefix `prefix_of` key) then CountMetadataKey key else mret tt) 0 metadata.

(** ** The validator (validator.go) *)

Section Validator.
Context {TA IA Tok : Type} (TA_GetMetadata : TA -> gomap bytes) (IA_GetMetadata : IA -> gomap bytes).

Record Validator := mkValidator {
  AuditingValidators : list (bytes -> TokenRequest -> M (Ctx Tok) unit);
  TransferValidators : list (bytes -> TokenRequest -> TA -> M (Ctx Tok) unit);
  IssueValidators : list (bytes -> TokenRequest -> IA -> M (Ctx Tok) unit);
  DeserializeActions : option (TokenRequest -> res (list (option IA) * list (option TA)));
  Limits : ResourceLimits;
  MinProtocolVersion : Z;
}.

Context (v : Validator).

(** A context is built around the provider it shares with the caller. *)
Definition in_context {A} (m : M (Ctx Tok) A) (k : A -> Ctx Tok -> res unit) : M (option Backend) unit := fun p =>
  match m (mkCtx p [] [] []) with
  | (Ok a, c) => (k a c, SignatureProvider c)
  | (Err e, c) => (Err e, SignatureProvider c)
  | (Panic, c) => (Panic, SignatureProvider c)
  end.

Definition VerifyIssue (anchor : bytes) (tr : TokenRequest) (action : option IA) : M (option Backend) unit :=
  match action with
  | None => lift (Err ErrNilAction)
  | Some a =>
      in_context (rangeM (fun _ f => f anchor tr a) 0 (IssueValidators v))
        (fun _ c => check_metadata (MetadataCounter c) (IA_GetMetadata a))
  end.

Definition VerifyTransfer (anchor : bytes) (tr : TokenRequest) (action : option TA) : M (option Backend) unit :=
  match action with
  | None => lift (Err ErrNilAction)
  | Some a =>
      in_context (rangeM (fun _ f => f anchor tr a) 0 (TransferValidators v))
        (fun _ c => check_metadata (MetadataCounter c) (TA_GetMetadata a))
  end.

Definition VerifyAuditing (anchor : bytes) (tr : TokenRequest) : M (option Backend) unit :=
  in_context (rangeM (fun _ f => f anchor tr) 0 (AuditingValidators v)) (fun _ _ => Ok tt).

Record deserializedAction := mkDeserializedAction {
  da_index : nat;
  da_actionID : Z;
  da_typeID : Z;
  da_issue : option IA;
  da_transfer : option TA;
}.

(** What [value] returns: an action of one of the two types. *)
Inductive action_value := VIssue (a : option IA) | VTransfer (a : option TA).

Definition da_value (a : deserializedAction) : action_value :=
  if da_typeID a =? ACTION_TYPE_ISSUE then VIssue (da_issue a) else VTransfer (da_transfer a).

Fixpoint orderActions (issues : list (option IA)) (transfers : list (option TA))
    (index issueIndex transferIndex : nat) (actions : list (option TypedAction))
    : res (list deserializedAction * nat * nat) :=
  match actions with
  | [] => Ok ([], issueIndex, transferIndex)
  | None :: _ => Err (EWrap ErrNilAction "action at request index")
  | Some ta :: l =>
      if TA_Type ta =? ACTION_TYPE_ISSUE then
        match issues !! issueIndex with
        | Some (Some ia) =>
            '(rest, ii, ti) ← orderActions issues transfers (S index) (S issueIndex) transferIndex l;
            Ok (mkDeserializedAction index (u32 (Z.of_nat index)) (TA_Type ta) (Some ia) None :: rest, ii, ti)
        | _ => Err (EWrap ErrNilAction "issue action at request index")
        end
      else if TA_Type ta =? ACTION_TYPE_TRANSFER then
        match transfers !! transferIndex with
        | Some (Some t) =>
            '(rest, ii, ti) ← orderActions issues transfers (S index) issueIndex (S transferIndex) l;
            Ok (mkDeserializedAction index (u32 (Z.of_nat index)) (TA_Type ta) None (Some t) :: rest, ii, ti)
        | _ => Err (EWrap ErrNilAction "transfer action at request index")
        end
      else Err (EMsg "unknown action type at request index")
  end.

Definition deserializeActionsInRequestOrder (tr : TokenRequest) : res (list deserializedAction) :=
  match DeserializeActions v with
  | None => Err ErrNilActionDeserializer
  | Some d =>
      '(issues, transfers) ← d tr;
      '(actions, issueIndex, transferIndex) ← orderActions issues transfers 0 0 0 (Actions tr);
      if negb (issueIndex =? length issues)%nat || negb (transferIndex =? length transfers)%nat
      then Err (EMsg "deserialized action count mismatch")
      else Ok actions
  end.

Definition verifyDeserializedAction (anchor : bytes) (tr : TokenRequest) (action : deserializedAction)
    : M (option Backend) unit :=
  if da_typeID action =? ACTION_TYPE_ISSUE then
    wrapM "failed to verify issue action at request index" (VerifyIssue anchor tr (da_issue action))
  else if da_typeID action =? ACTION_TYPE_TRANSFER then
    wrapM "failed to verify transfer action at request index" (VerifyTransfer anchor tr (da_transfer action))
  else lift (Err (EMsg "unknown action type at request index")).

(** [VerifyTokenRequest]: one provider for the whole request. *)
Definition VerifyTokenRequest (anchor : bytes) (tr : TokenRequest) : M (option Backend) (list action_value) :=
  match DeserializeActions v with
  | None => lift (Err ErrNilActionDeserializer)
  | Some _ =>
      wrapM "failed to verify auditor signatures" (VerifyAuditing anchor tr) ;;
      actions ← wrapM "failed to unmarshal actions" (lift (deserializeActionsInRequestOrder tr));
      rangeM (fun _ action => verifyDeserializedAction anchor tr action) 0 actions ;;
      mret (map da_value actions)
  end.

(** One provider per action id; an id without an entry gets an empty one. *)
Definition verifyScopedAction (anchor : bytes) (tr : TokenRequest) (action : deserializedAction)
    : M (gmap Z Backend) unit := fun providers =>
  let provider := default (NewBackend [] []) (providers !! da_actionID action) in
  match verifyDeserializedAction anchor tr action (Some provider) with
  | (Ok _, p) =>
      match p with
      | None => (Panic, providers)
      | Some b =>
          (wrap "failed to consume signatures for action at request index" (EnsureExhausted b),
           <[da_actionID action := b]> providers)
      end
  | (Err e, _) => (Err e, providers)
  | (Panic, _) => (Panic, providers)
  end.

Definition verifyTokenRequestWithScopedSignatures (auditorProvider : Backend)
    (actionProviders : gmap Z Backend) (anchor : bytes) (tr : TokenRequest) : res (list action_value) :=
  match wrapM "failed to verify auditor signatures" (VerifyAuditing anchor tr) (Some auditorProvider) with
  | (Ok _, Some b) =>
      wrap "failed to consume auditor signatures" (EnsureExhausted b) ;;
      actions ← wrap "failed to unmarshal actions" (deserializeActionsInRequestOrder tr);
      fst (rangeM (fun _ action => verifyScopedAction anchor tr action) 0 actions actionProviders) ;;
      Ok (map da_value actions)
  | (Ok _, None) => Panic
  | (Err e, _) => Err e
  | (Panic, _) => Panic
  end.

(** The loop that sorts the signatures: the auditors', the actions', and the
    actions' by action id. *)
Fixpoint sortSignatures (nActions : Z) (sigs : list (option RequestSignature))
    : res (list bytes * list (Z * bytes)) :=
  match sigs with
  | [] => Ok ([], [])
  | None :: l => sortSignatures nActions l
  | Some s :: l =>
      match RS_Auditor s, RS_Action s with
      | Some a, _ => '(aud, act) ← sortSignatures nActions l; Ok (AU_Signature a :: aud, act)
      | None, Some a =>
          if nActions <=? AS_ActionID a
          then Err (EWrap ErrActionSignatureIDOutOfRange "action signature ID")
          else '(aud, act) ← sortSignatures nActions l;
               Ok (aud, (AS_ActionID a, AS_Signature a) :: act)
      | None, None => sortSignatures nActions l
      end
  end.

Definition signatures_of (id : Z) (act : list (Z * bytes)) : list bytes :=
  omap (fun '(i, s) => if i =? id then Some s else None) act.

Definition providers_of (message : bytes) (n : nat) (act : list (Z * bytes)) : gmap Z Backend :=
  list_to_map ((fun i => (u32 (Z.of_nat i), NewBackend message (signatures_of (u32 (Z.of_nat i)) act))) <$> seq 0 n).

Record ValidationAttributes := mkValidationAttributes {
  TokenRequestToSign : bytes;
  TokenRequestSignatures : bytes;
}.

(** [proto_Unmarshal] decodes the protobuf message, [json_Marshal] encodes
    the list of signatures. *)
Context (proto_Unmarshal : bytes -> res PTokenRequest) (json_Marshal : list bytes -> res bytes).

Definition TokenRequest_FromBytes (raw : bytes) : res TokenRequest :=
  tr ← wrap "failed unmarshalling token request" (proto_Unmarshal raw);
  TokenRequest_FromProtos tr (mkTokenRequest 0 [] []).

Definition UnmarshalActions (raw : bytes) : res (list action_value) :=
  tr ← wrap "failed to unmarshal token request" (TokenRequest_FromBytes raw);
  match DeserializeActions v return res (list action_value) with
  | None => Err ErrNilActionDeserializer
  | Some _ =>
      actions ← wrap "failed to unmarshal actions" (deserializeActionsInRequestOrder tr);
      Ok (map da_value actions)
  end.

Definition VerifyTokenRequestFromRaw (anchor raw : bytes) : res (list action_value * ValidationAttributes) :=
  reject_if (zlen raw =? 0) (EMsg "empty token request") ;;
  CheckRawRequestSize (Limits v) raw ;;
  tr ← wrap "failed to unmarshal token request" (TokenRequest_FromBytes raw);
  reject_if (Version tr =? 0) ErrInvalidVersion ;;
  reject_if ((MinProtocolVersion v >? 0) && (Version tr <? MinProtocolVersion v))
    (EWrap ErrVersionBelowMinimum "got version") ;;
  reject_if (zlen (Actions tr) =? 0) ErrNoActions ;;
  CheckRequestLimits (Limits v) tr ;;
  signed ← wrap "failed to marshal signed token request" (MarshalToMessageToSign tr anchor);
  '(aud, act) ← sortSignatures (zlen (Actions tr)) (Signatures tr);
  sigs ← wrap "failed to marshal token request signatures" (json_Marshal (aud ++ act.*2));
  let attributes := mkValidationAttributes signed sigs in
  res ← verifyTokenRequestWithScopedSignatures (NewBackend signed aud)
          (providers_of signed (length (Actions tr)) act) anchor tr;
  Ok (res, attributes).
End Validator.

(** ** Lemmas: the backend

    [signed_by b vs b']: from [b] to [b'] the verifiers [vs], in order, have
    each accepted the next signature of the backend on its message. *)

Definition signed_by (b : Backend) (vs : list verifier) (b' : Backend) : Prop :=
  Message b' = Message b /\ Sigs b' = Sigs b /\ Cursor b' = (Cursor b + length vs)%nat /\
  forall i ver, vs !! i = Some ver ->
    exists s, Sigs b !! (Cursor b + i)%nat = Some s /\ ver (Message b) s = Ok tt.

Lemma signed_by_refl b : signed_by b [] b.
Proof. unfold signed_by. rewrite Nat.add_0_r. done. Qed.

Lemma signed_by_trans b vs b' ws b'' : signed_by b vs b' -> signed_by b' ws b'' -> signed_by b (vs ++ ws) b''.
Proof.
  intros (M1 & S1 & C1 & H1) (M2 & S2 & C2 & H2). unfold signed_by.
  rewrite M2, M1, S2, S1, C2, C1, length_app. split_and!; [done|done|lia|].
  intros i ver [Hi|[Hge Hi]]%lookup_app_Some; [by apply H1|].
  apply H2 in Hi as (s & Hs & Hv). rewrite S1, C1 in Hs. rewrite M1 in Hv.
  exists s. split; [|done]. rewrite <- Hs. by replace (Cursor b + length vs + (i - length vs))%nat with (Cursor b + i)%nat by lia.
Qed.

Lemma Backend_HasBeenSignedBy_Ok v b sigma b' : Backend_HasBeenSignedBy v b = (Ok sigma, b') ->
  exists ver, v = Some ver /\ Sigs b !! Cursor b = Some sigma /\ signed_by b [ver] b'.
Proof.
  unfold Backend_HasBeenSignedBy. destruct (_ <=? _)%nat; [done|]. destruct v as [ver|]; [|done].
  destruct (Sigs b !! Cursor b) as [s|] eqn:Hs; [|done].
  destruct (ver (Message b) s) as [[]| |] eqn:Hv; [|done..]. intros [= <- <-].
  exists ver. split_and!; [done..|]. unfold signed_by; cbn. split_and!; [done|done|lia|].
  intros [|i] v' Hi; cbn in Hi; simplify_eq. rewrite Nat.add_0_r. eauto.
Qed.

Lemma Backend_HasBeenSignedBy_no_panic v b : (forall ver m s, v = Some ver -> no_panic (ver m s)) ->
  no_panic (fst (Backend_HasBeenSignedBy v b)).
Proof.
  intros Hv. unfold Backend_HasBeenSignedBy. destruct (Nat.leb_spec (length (Sigs b)) (Cursor b)); [done|].
  destruct v as [ver|]; [|done]. destruct (Sigs b !! Cursor b) as [s|] eqn:Hs.
  - cbn. specialize (Hv ver (Message b) s eq_refl). by destruct (ver (Message b) s).
  - apply lookup_ge_None in Hs. lia.
Qed.

(** The provider of a context moves by accepted signatures only; the other
    fields are tracked where they matter. *)
Definition moves {Tok} (c : Ctx Tok) (vs : list verifier) (c' : Ctx Tok) : Prop :=
  match SignatureProvider c, SignatureProvider c' with
  | Some b, Some b' => signed_by b vs b'
  | None, None => vs = []
  | _, _ => False
  end.

Lemma moves_refl {Tok} (c : Ctx Tok) : moves c [] c.
Proof. unfold moves. destruct (SignatureProvider c); [apply signed_by_refl|done]. Qed.

Lemma moves_trans {Tok} (c : Ctx Tok) vs c' ws c'' : moves c vs c' -> moves c' ws c'' -> moves c (vs ++ ws) c''.
Proof.
  unfold moves. destruct (SignatureProvider c), (SignatureProvider c'), (SignatureProvider c''); try done.
  - apply signed_by_trans.
  - by intros -> ->.
Qed.

Lemma HasBeenSignedBy_Ok {Tok} v (c : Ctx Tok) sigma c' : HasBeenSignedBy v c = (Ok sigma, c') ->
  exists ver, v = Some ver /\ moves c [ver] c' /\
    ctx_Signatures c' = ctx_Signatures c /\ InputTokens c' = InputTokens c /\ MetadataCounter c' = MetadataCounter c.
Proof.
  unfold HasBeenSignedBy, moves. destruct (SignatureProvider c) as [b|]; [|done].
  destruct (Backend_HasBeenSignedBy v b) as [r b'] eqn:E. intros [= -> <-].
  apply Backend_HasBeenSignedBy_Ok in E as (ver & -> & Hs & Hsb). cbn. eauto 10.
Qed.

Lemma require_provider_Ok {Tok} (c : Ctx Tok) u c' : require_provider c = (Ok u, c') -> c' = c.
Proof. unfold require_provider. destruct (SignatureProvider c); [|done]. by intros [= _ <-]. Qed.

Lemma in_context_Ok {Tok A} (m : M (Ctx Tok) A) k p u p' : in_context m k p = (Ok u, p') ->
  exists a c, m (mkCtx p [] [] []) = (Ok a, c) /\ k a c = Ok u /\ SignatureProvider c = p'.
Proof. unfold in_context. destruct (m _) as [[a| |] c]; [|done..]. intros [= Hk <-]. eauto. Qed.

(** ** Lemmas: signatures

    [consumes c vs sigs c']: from [c] to [c'] the provider moved over the
    signatures [sigs], accepted in order by the verifiers [vs]. *)

Definition consumes {Tok} (c : Ctx Tok) (vs : list verifier) (sigs : list bytes) (c' : Ctx Tok) : Prop :=
  exists b b', SignatureProvider c = Some b /\ SignatureProvider c' = Some b' /\
    Message b' = Message b /\ Sigs b' = Sigs b /\ Cursor b' = (Cursor b + length sigs)%nat /\
    (forall i s, sigs !! i = Some s -> Sigs b !! (Cursor b + i)%nat = Some s) /\
    Forall2 (fun (ver : verifier) s => ver (Message b) s = Ok tt) vs sigs.

Lemma consumes_refl {Tok} (c : Ctx Tok) b : SignatureProvider c = Some b -> consumes c [] [] c.
Proof.
  intros Hb. exists b, b. split_and!; [done..|by rewrite Nat.add_0_r|done|constructor].
Qed.

Lemma consumes_trans {Tok} (c : Ctx Tok) vs sigs c' vs' sigs' c'' :
  consumes c vs sigs c' -> consumes c' vs' sigs' c'' -> consumes c (vs ++ vs') (sigs ++ sigs') c''.
Proof.
  intros (b & b' & P & P' & Hm & Hs & Hc & Hi & HF) (b1 & b2 & P1 & P2 & Hm' & Hs' & Hc' & Hi' & HF').
  rewrite P' in P1. injection P1 as <-. exists b, b2.
  split_and!; [done|done|congruence|congruence|rewrite length_app; lia| |].
  - intros i s [H|[Hge H]]%lookup_app_Some; [by apply Hi|]. apply Hi' in H. rewrite Hs, Hc in H.
    rewrite <- H. by replace (Cursor b + length sigs + (i - length sigs))%nat with (Cursor b + i)%nat by lia.
  - apply Forall2_app; [done|]. by rewrite <- Hm.
Qed.

Lemma HasBeenSignedBy_consumes {Tok} v (c : Ctx Tok) sigma c' : HasBeenSignedBy v c = (Ok sigma, c') ->
  exists ver, v = Some ver /\ consumes c [ver] [sigma] c' /\
    ctx_Signatures c' = ctx_Signatures c /\ InputTokens c' = InputTokens c /\ MetadataCounter c' = MetadataCounter c.
Proof.
  unfold HasBeenSignedBy. destruct (SignatureProvider c) as [b|] eqn:P; [|done].
  destruct (Backend_HasBeenSignedBy v b) as [r b'] eqn:E. intros [= -> <-].
  unfold Backend_HasBeenSignedBy in E. destruct (_ <=? _)%nat; [done|]. destruct v as [ver|]; [|done].
  destruct (Sigs b !! Cursor b) as [s|] eqn:Hs; [|done].
  destruct (ver (Message b) s) as [[]| |] eqn:Hv; [|done..]. injection E as <- <-.
  exists ver. split_and!; try done. eexists b, _. split_and!; try done; cbn; [lia| |by repeat constructor].
  intros [|i] s' Hi; cbn in Hi; simplify_eq. by rewrite Nat.add_0_r.
Qed.

(** Only the provider moves along a [consumes]; appending a signature to the
    context keeps it. *)
Lemma consumes_ctx {Tok} (c : Ctx Tok) vs sigs c' c2 : consumes c vs sigs c' -> SignatureProvider c2 = SignatureProvider c' ->
  consumes c vs sigs c2.
Proof. intros (b & b' & P & P' & H) E. exists b, b'. rewrite E. done. Qed.

Lemma consumes_all {Tok} (c : Ctx Tok) vs sigs c' b b' : consumes c vs sigs c' ->
  SignatureProvider c = Some b -> Cursor b = 0%nat ->
  SignatureProvider c' = Some b' -> Cursor b' = length (Sigs b') ->
  sigs = Sigs b /\ Forall2 (fun (ver : verifier) s => ver (Message b) s = Ok tt) vs (Sigs b).
Proof.
  intros (b1 & b2 & P1 & P2 & Hm & Hs & Hc & Hi & HF) P C P' C'.
  rewrite P in P1. injection P1 as <-. rewrite P' in P2. injection P2 as <-.
  assert (sigs = Sigs b) as ->; [|done]. apply list_eq_same_length with (n := length sigs); [|done|].
  - rewrite <- Hs, <- C', Hc, C. done.
  - intros i x y _ Hx Hy. apply Hi in Hx. rewrite C in Hx. cbn in Hx. congruence.
Qed.

(** ** Lemmas: auditor signatures *)

Section AuditingLemmas.
Context `{IO : !IdentityOps} {Tok : Type} (Auditors : list bytes)
        (GetAuditorVerifier : bytes -> res (option verifier)).

Lemma verifyAuditorSignatures_Ok l : forall i (c c' : Ctx Tok) u,
  rangeM (verifyAuditorSignature Auditors GetAuditorVerifier) i l c = (Ok u, c') ->
  exists vs, moves c vs c' /\
    Forall2 (fun a ver => AU_Identity a ∈ Auditors /\ GetAuditorVerifier (AU_Identity a) = Ok (Some ver)) l vs.
Proof.
  induction l as [|a l IH]; intros i c c' u; cbn [rangeM].
  - intros [_ ->]%M_ret_Ok. exists []. split; [apply moves_refl|constructor].
  - intros ([] & c1 & H1 & (vs & Hm & Hf)%IH)%M_bind_Ok. unfold verifyAuditorSignature in H1.
    destruct (existsb _ _) eqn:Hin; [|done]. apply existsb_Identity in Hin. cbn [negb] in H1.
    apply M_bind_Ok in H1 as (v & c2 & [Hv ->]%wrapM_Ok%lift_Ok & H1).
    apply M_bind_Ok in H1 as ([] & c3 & ->%require_provider_Ok & H1).
    apply M_bind_Ok in H1 as (sg & c4 & Hs%wrapM_Ok & [_ ->]%M_ret_Ok).
    apply HasBeenSignedBy_Ok in Hs as (ver & -> & Hm1 & _).
    exists (ver :: vs). split; [by apply (moves_trans _ [ver] _ vs _ Hm1)|by constructor].
Qed.

Lemma AuditingSignaturesValidate_Ok anchor tr (c c' : Ctx Tok) u :
  AuditingSignaturesValidate Auditors GetAuditorVerifier anchor tr c = (Ok u, c') ->
  (Auditors = [] <-> auditor_signatures tr = []) /\
  exists vs, moves c vs c' /\
    Forall2 (fun a ver => AU_Identity a ∈ Auditors /\ GetAuditorVerifier (AU_Identity a) = Ok (Some ver))
      (auditor_signatures tr) vs.
Proof.
  assert (Hz : forall {A} (l : list A), (zlen l =? 0) = true <-> l = []).
  { intros A l. rewrite Z.eqb_eq. unfold zlen. destruct l; cbn; naive_solver lia. }
  unfold AuditingSignaturesValidate. cbv zeta.
  destruct (zlen Auditors =? 0) eqn:Ha.
  - apply Hz in Ha. destruct (zlen (auditor_signatures tr) =? 0) eqn:Hs; [|done]. apply Hz in Hs.
    cbn [negb]. intros [_ ->]%M_ret_Ok. rewrite Hs. split; [done|]. exists []. split; [apply moves_refl|constructor].
  - destruct (zlen (auditor_signatures tr) =? 0) eqn:Hs; [done|].
    intros H%verifyAuditorSignatures_Ok. split; [|done].
    rewrite <- (Hz _ Auditors), <- (Hz _ (auditor_signatures tr)), Ha, Hs. done.
Qed.
End AuditingLemmas.

(** ** Lemmas: sorted signatures *)

Lemma sortSignatures_Ok n l : forall aud act, sortSignatures n l = Ok (aud, act) ->
  aud = AU_Signature <$> omap (fun s => s ≫= RS_Auditor) l /\
  act = omap (fun s => match s with
                       | Some s => match RS_Auditor s, RS_Action s with
                                   | None, Some a => Some (AS_ActionID a, AS_Signature a)
                                   | _, _ => None
                                   end
                       | None => None
                       end) l /\
  Forall (fun '(id, _) => id < n) act.
Proof.
  induction l as [|[s|] l IH]; intros aud act; cbn [sortSignatures].
  - by intros [= <- <-].
  - destruct s as [[a|] [u|]]; cbn [RS_Auditor RS_Action].
    + intros ([aud' act'] & (-> & -> & HF)%IH & [= <- <-])%res_bind_Ok. done.
    + destruct (Z.leb_spec n (AS_ActionID a)); [done|].
      intros ([aud' act'] & (-> & -> & HF)%IH & [= <- <-])%res_bind_Ok.
      split_and!; [done|done|by constructor].
    + intros ([aud' act'] & (-> & -> & HF)%IH & [= <- <-])%res_bind_Ok. done.
    + apply IH.
  - apply IH.
Qed.

(** ** Lemmas: ordered actions *)

Section OrderLemmas.
Context {TA IA : Type}.

Definition issue_values (l : list (action_value (TA := TA) (IA := IA))) : list (option IA) :=
  omap (fun a => match a with VIssue a => Some a | _ => None end) l.
Definition transfer_values (l : list (action_value (TA := TA) (IA := IA))) : list (option TA) :=
  omap (fun a => match a with VTransfer a => Some a | _ => None end) l.

(** A value of the type the request gives to its position, and not nil. *)
Definition value_matches (t : option TypedAction) (a : action_value (TA := TA) (IA := IA)) : Prop :=
  exists ta, t = Some ta /\
    ((TA_Type ta = ACTION_TYPE_ISSUE /\ exists x, a = VIssue (Some x)) \/
     (TA_Type ta = ACTION_TYPE_TRANSFER /\ exists x, a = VTransfer (Some x))).

Lemma orderActions_Ok issues transfers actions : forall index ii ti l ii' ti',
  orderActions issues transfers index ii ti actions = Ok (l, ii', ti') ->
  (ii <= ii')%nat /\ (ti <= ti')%nat /\
  Forall2 value_matches actions (map da_value l) /\
  issue_values (map da_value l) = take (ii' - ii) (drop ii issues) /\
  transfer_values (map da_value l) = take (ti' - ti) (drop ti transfers) /\
  da_index <$> l = seq index (length actions) /\
  Forall (fun a => da_actionID a = u32 (Z.of_nat (da_index a))) l.
Proof.
  induction actions as [|[ta|] actions IH]; intros index ii ti l ii' ti'; cbn [orderActions]; [| |done].
  { intros [= <- <- <-]. rewrite !Nat.sub_diag. split_and!; [done|done|constructor|done|done|done|constructor]. }
  destruct (Z.eqb_spec (TA_Type ta) ACTION_TYPE_ISSUE) as [Hi|Hni].
  - destruct (issues !! ii) as [[ia|]|] eqn:Hl; [|done..].
    intros ([[rest ii1] ti1] & (L1 & L2 & HF & HI & HT & HX & HA)%IH & [= <- <- <-])%res_bind_Ok.
    split_and!; [lia|lia| | | |cbn; by rewrite HX|by constructor].
    + cbn [map]. constructor; [|done]. exists ta. split; [done|left]. split; [done|].
      unfold da_value. cbn. rewrite Hi. cbn. eauto.
    + cbn [map]. unfold da_value at 1. cbn [da_typeID da_issue]. rewrite Hi, Z.eqb_refl.
      cbn [issue_values omap list_omap]. rewrite (drop_S _ _ _ Hl).
      replace (ii1 - ii)%nat with (S (ii1 - S ii)) by lia. cbn [take]. f_equal. done.
    + cbn [map]. unfold da_value at 1. cbn [da_typeID da_issue]. rewrite Hi, Z.eqb_refl. done.
  - destruct (Z.eqb_spec (TA_Type ta) ACTION_TYPE_TRANSFER) as [Ht|]; [|done].
    destruct (transfers !! ti) as [[t|]|] eqn:Hl; [|done..].
    intros ([[rest ii1] ti1] & (L1 & L2 & HF & HI & HT & HX & HA)%IH & [= <- <- <-])%res_bind_Ok.
    assert (Hv : forall r, map da_value (mkDeserializedAction index (u32 (Z.of_nat index)) (TA_Type ta) None (Some t) :: r)
                 = VTransfer (Some t) :: map (da_value (TA := TA) (IA := IA)) r).
    { intros r. cbn [map]. unfold da_value at 1. cbn [da_typeID da_transfer]. by rewrite Ht. }
    rewrite Hv. split_and!; [lia|lia| |done| |cbn; by rewrite HX|by constructor].
    + constructor; [|done]. exists ta. split; [done|right]. eauto.
    + cbn [transfer_values omap list_omap]. rewrite (drop_S _ _ _ Hl).
      replace (ti1 - ti)%nat with (S (ti1 - S ti)) by lia. cbn [take]. f_equal. done.
Qed.
End OrderLemmas.

(** ** Lemmas: accepted requests *)

Section Accepted.
Context {TA IA Tok : Type} (TA_GetMetadata : TA -> gomap bytes) (IA_GetMetadata : IA -> gomap bytes).
Context (v : Validator (TA := TA) (IA := IA) (Tok := Tok)).
Context (proto_Unmarshal : bytes -> res PTokenRequest) (json_Marshal : list bytes -> res bytes).

Abbreviation verifyAction := (verifyDeserializedAction TA_GetMetadata IA_GetMetadata v).

(** An action is accepted with its own signatures, all of them used. *)
Definition action_verified (anchor : bytes) (tr : TokenRequest) (b : Backend) (a : deserializedAction) : Prop :=
  exists b', verifyAction anchor tr a (Some b) = (Ok tt, Some b') /\ EnsureExhausted b' = Ok tt.

Lemma scoped_loop anchor tr l : forall i provs u provs', NoDup (da_actionID <$> l) ->
  rangeM (fun _ action => verifyScopedAction TA_GetMetadata IA_GetMetadata v anchor tr action) i l provs = (Ok u, provs') ->
  Forall (fun a => action_verified anchor tr (default (NewBackend [] []) (provs !! da_actionID a)) a) l.
Proof.
  induction l as [|a l IH]; intros i provs u provs' Hnd; [constructor|]. cbn [rangeM].
  cbn in Hnd. apply NoDup_cons in Hnd as [Hni Hnd].
  intros ([] & p1 & H1 & H2)%M_bind_Ok. unfold verifyScopedAction in H1.
  destruct (verifyAction anchor tr a _) as [[[]| |] [b|]] eqn:E; [|done..].
  injection H1 as H1 <-. apply wrap_Ok in H1. constructor; [by exists b|].
  apply IH in H2; [|done]. apply Forall_forall. intros a' Ha'.
  pose proof (proj1 (Forall_forall _ _) H2 a' Ha') as Hv. cbn in Hv.
  rewrite lookup_insert_ne in Hv; [done|]. intros Heq. apply Hni. rewrite Heq. by apply list_elem_of_fmap_2.
Qed.

(** The signatures a request carries for one action, in order. *)
Definition action_signatures (tr : TokenRequest) (id : Z) : list bytes :=
  omap (fun s => match s with
                 | Some s => match RS_Auditor s, RS_Action s with
                             | None, Some a => if AS_ActionID a =? id then Some (AS_Signature a) else None
                             | _, _ => None
                             end
                 | None => None
                 end) (Signatures tr).

Lemma u32_small i : 0 <= i < two32 -> u32 i = i.
Proof. intros. unfold u32. by apply Z.mod_small. Qed.

Lemma providers_lookup m n act i : (i < n)%nat -> Z.of_nat n <= two32 ->
  providers_of m n act !! Z.of_nat i = Some (NewBackend m (signatures_of (Z.of_nat i) act)).
Proof.
  intros Hi Hn. unfold providers_of. apply elem_of_list_to_map_1.
  - rewrite <- list_fmap_compose. cbn. apply NoDup_fmap_2_strong; [|apply NoDup_seq].
    intros x y Hx%elem_of_seq Hy%elem_of_seq. cbn. rewrite !u32_small by lia. lia.
  - apply list_elem_of_fmap. exists i. rewrite u32_small by lia. split; [done|]. apply elem_of_seq. lia.
Qed.

Lemma signatures_of_request tr act id :
  act = omap (fun s => match s with
                       | Some s => match RS_Auditor s, RS_Action s with
                                   | None, Some a => Some (AS_ActionID a, AS_Signature a)
                                   | _, _ => None
                                   end
                       | None => None
                       end) (Signatures tr) ->
  signatures_of id act = action_signatures tr id.
Proof.
  intros ->. unfold signatures_of, action_signatures. induction (Signatures tr) as [|[[[a|] [u|]]|] l IH]; cbn; [done|done|..|done|done|done].
  destruct (AS_ActionID a =? id); [by f_equal|done].
Qed.

Lemma da_ids_NoDup n (l : list (deserializedAction (TA := TA) (IA := IA))) : Z.of_nat n <= two32 ->
  da_index <$> l = seq 0 n -> Forall (fun a => da_actionID a = u32 (Z.of_nat (da_index a))) l ->
  Forall (fun a => da_actionID a = Z.of_nat (da_index a) /\ (da_index a < n)%nat) l /\ NoDup (da_actionID <$> l).
Proof.
  intros Hn Hi Hf.
  assert (Hall : Forall (fun a => da_actionID a = Z.of_nat (da_index a) /\ (da_index a < n)%nat) l).
  { apply Forall_forall. intros a Ha. pose proof (proj1 (Forall_forall _ _) Hf a Ha) as Hid. cbn in Hid.
    assert (da_index a ∈ seq 0 n) as Hs%elem_of_seq by (rewrite <- Hi; by apply list_elem_of_fmap_2).
    rewrite u32_small in Hid by lia. split; [done|lia]. }
  split; [done|]. assert (da_actionID <$> l = Z.of_nat <$> (da_index <$> l)) as ->.
  { rewrite <- list_fmap_compose. apply list_fmap_ext. intros i a Ha. cbn.
    by apply (proj1 (Forall_forall _ _) Hall a), list_elem_of_lookup_2 with i. }
  rewrite Hi. apply NoDup_fmap_2; [apply _|apply NoDup_seq].
Qed.

Lemma gtb_reject x y e : reject_if (x >? y) e = Ok tt -> x <= y.
Proof. intros H%reject_if_Ok. rewrite Z.gtb_ltb, Z.ltb_ge in H. done. Qed.

Lemma FromProtos_version raw tr : TokenRequest_FromBytes proto_Unmarshal raw = Ok tr -> Version tr = ProtocolV1.
Proof. unfold TokenRequest_FromBytes. by intros (p & _ & [? _]%FromProtos_wf)%res_bind_Ok. Qed.

Lemma FromRaw_Ok anchor raw res attrs : MaxActions (Limits v) <= two32 ->
  VerifyTokenRequestFromRaw TA_GetMetadata IA_GetMetadata v proto_Unmarshal json_Marshal anchor raw = Ok (res, attrs) ->
  exists tr acts, TokenRequest_FromBytes proto_Unmarshal raw = Ok tr /\
    zlen raw <= MaxRequestBytes (Limits v) /\ Actions tr <> [] /\ MinProtocolVersion v <= Version tr /\
    CheckRequestLimits (Limits v) tr = Ok tt /\
    MarshalToMessageToSign tr anchor = Ok (TokenRequestToSign attrs) /\
    deserializeActionsInRequestOrder v tr = Ok acts /\ res = map da_value acts /\
    (exists b, VerifyAuditing v anchor tr
        (Some (NewBackend (TokenRequestToSign attrs) (AU_Signature <$> auditor_signatures tr))) = (Ok tt, Some b) /\
      EnsureExhausted b = Ok tt) /\
    Forall (fun a => action_verified anchor tr
      (NewBackend (TokenRequestToSign attrs) (action_signatures tr (Z.of_nat (da_index a)))) a) acts.
Proof.
  intros Hmax. unfold VerifyTokenRequestFromRaw.
  intros ([] & _ & H)%res_bind_Ok. apply res_bind_Ok in H as ([] & Hsz%gtb_reject & H).
  apply res_bind_Ok in H as (tr & Htr%wrap_Ok & H). apply res_bind_Ok in H as ([] & Hv0%reject_if_Ok & H).
  apply res_bind_Ok in H as ([] & Hmin%reject_if_Ok & H). apply res_bind_Ok in H as ([] & Hne%reject_if_Ok & H).
  apply res_bind_Ok in H as ([] & Hlim & H). apply res_bind_Ok in H as (m & Hm%wrap_Ok & H).
  apply res_bind_Ok in H as ([aud act] & (Haud & Hact & _)%sortSignatures_Ok & H).
  apply res_bind_Ok in H as (sg & _ & H). cbv zeta in H. apply res_bind_Ok in H as (r & H & [= <- <-]).
  cbn [TokenRequestToSign]. exists tr.
  assert (Hn : Z.of_nat (length (Actions tr)) <= two32).
  { unfold CheckRequestLimits in Hlim. apply res_bind_Ok in Hlim as ([] & Hl%gtb_reject & _). unfold zlen in Hl. lia. }
  unfold verifyTokenRequestWithScopedSignatures in H.
  destruct (wrapM _ _ _) as [[[]| |] [b|]] eqn:Hau; [|done..]. apply wrapM_Ok in Hau.
  apply res_bind_Ok in H as ([] & Hex%wrap_Ok & H). apply res_bind_Ok in H as (acts & Hacts%wrap_Ok & H).
  apply res_bind_Ok in H as ([] & Hloop & [= <-]). exists acts.
  assert (Hord : da_index <$> acts = seq 0 (length (Actions tr)) /\
                 Forall (fun a => da_actionID a = u32 (Z.of_nat (da_index a))) acts).
  { unfold deserializeActionsInRequestOrder in Hacts. destruct (DeserializeActions v) as [d|]; [|done].
    apply res_bind_Ok in Hacts as ([iss trs] & _ & Hacts).
    apply res_bind_Ok in Hacts as ([[l ii] ti] & Ho%orderActions_Ok & Hacts).
    destruct (_ || _); [done|]. injection Hacts as ->. tauto. }
  destruct (da_ids_NoDup _ _ Hn (proj1 Hord) (proj2 Hord)) as [Hids Hnd].
  split_and!; try done.
  - intros E. by rewrite E in Hne.
  - destruct (Z.gtb_spec (MinProtocolVersion v) 0).
    + cbn in Hmin. by apply Z.ltb_ge in Hmin.
    + apply Z.eqb_neq in Hv0. apply FromProtos_version in Htr. unfold ProtocolV1 in Htr. lia.
  - exists b. unfold auditor_signatures. by rewrite <- Haud.
  - destruct (rangeM _ 0 acts _) as [rr provs'] eqn:Er. cbn in Hloop. subst rr.
    apply scoped_loop in Er; [|done]. apply Forall_forall. intros a Ha.
    pose proof (proj1 (Forall_forall _ _) Er a Ha) as Hv. cbn in Hv.
    destruct (proj1 (Forall_forall _ _) Hids a Ha) as [Hid Hlt]. rewrite Hid, providers_lookup in Hv by done.
    cbn in Hv. by rewrite (signatures_of_request tr) in Hv.
Qed.
End Accepted.

(** ** Lemmas: metadata counters *)

Definition count_keys (ks : list bytes) (m : list (bytes * Z)) : list (bytes * Z) :=
  foldl (fun m k => count_key k m) m ks.

(** A step that only counts metadata keys. *)
Definition counts {Tok} (c : Ctx Tok) (ks : list bytes) (c' : Ctx Tok) : Prop :=
  c' = mkCtx (SignatureProvider c) (ctx_Signatures c) (InputTokens c) (count_keys ks (MetadataCounter c)).

Lemma counts_refl {Tok} (c : Ctx Tok) : counts c [] c.
Proof. unfold counts. by destruct c. Qed.

Lemma counts_trans {Tok} (c : Ctx Tok) ks c' ks' c'' : counts c ks c' -> counts c' ks' c'' -> counts c (ks ++ ks') c''.
Proof. unfold counts, count_keys. intros -> ->. cbn. by rewrite foldl_app. Qed.

Lemma CountMetadataKey_counts {Tok} key (c c' : Ctx Tok) u : CountMetadataKey key c = (Ok u, c') -> counts c [key] c'.
Proof. unfold CountMetadataKey, modifyS, counts. by intros [= _ <-]. Qed.

(** A loop whose body only counts keys: what each iteration establishes. *)
Lemma rangeM_counts {Tok A} (f : nat -> A -> M (Ctx Tok) unit) (sigs : list bytes)
    (Q : nat -> A -> Prop) (P : bytes -> Prop) l : forall i0,
  (forall i x c c' u, l !! i = Some x -> ctx_Signatures c = sigs -> f (i0 + i)%nat x c = (Ok u, c') ->
     Q (i0 + i)%nat x /\ exists ks, counts c ks c' /\ Forall P ks) ->
  forall c c' u, ctx_Signatures c = sigs -> rangeM f i0 l c = (Ok u, c') ->
  (forall i x, l !! i = Some x -> Q (i0 + i)%nat x) /\ exists ks, counts c ks c' /\ Forall P ks.
Proof.
  induction l as [|x l IH]; intros i0 Hf c c' u Hs; cbn [rangeM].
  - intros [_ ->]%M_ret_Ok. split; [done|]. exists []. split; [apply counts_refl|constructor].
  - intros ([] & c1 & H1 & H2)%M_bind_Ok.
    destruct (Hf 0%nat x c c1 tt eq_refl Hs) as (HQ & ks & Hc & HP); [by rewrite Nat.add_0_r|].
    apply IH in H2 as (HQ' & ks' & Hc' & HP').
    + split; [|exists (ks ++ ks'); split; [by eapply counts_trans|by apply Forall_app]].
      intros [|i] y Hi; cbn in Hi; [by simplify_eq|]. rewrite <- Nat.add_succ_comm. by apply HQ'.
    + intros i y c2 c2' u2 Hi Hs2 Hr. rewrite Nat.add_succ_comm in Hr |- *. by eapply Hf.
    + rewrite Hc. done.
Qed.

Definition Zsum_counts (m : list (bytes * Z)) : Z := foldr (fun kc n => snd kc + n) 0 m.

Definition count_of (key : bytes) (m : list (bytes * Z)) : Z := default 0 (gomap_get m key).

Lemma count_key_sum key m : Zsum_counts (count_key key m) = Zsum_counts m + 1.
Proof. unfold Zsum_counts. induction m as [|[k c] m IH]; cbn; [done|]. case_decide; cbn; lia. Qed.

Lemma count_keys_sum ks : forall m, Zsum_counts (count_keys ks m) = Zsum_counts m + zlen ks.
Proof.
  induction ks as [|k ks IH]; intros m; [unfold count_keys, zlen; cbn [foldl length]; lia|].
  change (count_keys (k :: ks) m) with (count_keys ks (count_key k m)). rewrite IH, count_key_sum, zlen_cons. lia.
Qed.

Lemma count_key_of key k m : count_of k (count_key key m) = count_of k m + (if decide (key = k) then 1 else 0).
Proof.
  unfold count_of. induction m as [|[k' c] m IH]; cbn.
  - by destruct (decide (key = k)).
  - destruct (decide (k' = key)) as [->|]; cbn.
    + destruct (decide (key = k)); cbn; lia.
    + destruct (decide (k' = k)) as [->|]; [|done]. destruct (decide (key = k)); [congruence|cbn; lia].
Qed.

Lemma count_keys_of k ks : forall m, count_of k m <= count_of k (count_keys ks m) /\
  (k ∈ ks -> count_of k m + 1 <= count_of k (count_keys ks m)).
Proof.
  induction ks as [|k' ks IH]; intros m.
  - change (count_keys [] m) with m. split; [lia|]. by intros ?%elem_of_nil.
  - change (count_keys (k' :: ks) m) with (count_keys ks (count_key k' m)). destruct (IH (count_key k' m)) as [H1 H2]. rewrite count_key_of in H1, H2.
    split; [destruct (decide (k' = k)); lia|]. intros [->|Hin]%elem_of_cons.
    + rewrite decide_True in H1 by done. lia.
    + specialize (H2 Hin). destruct (decide (k' = k)); lia.
Qed.

Lemma sum_counts_Ok m : forall acc n, sum_counts m acc = Ok n ->
  n = acc + Zsum_counts m /\ forall k, count_of k m <= 1.
Proof.
  induction m as [|[k c] m IH]; intros acc n; cbn [sum_counts].
  - intros [= <-]. split; [cbn; lia|]. intros k. unfold count_of. cbn. lia.
  - destruct (Z.gtb_spec c 1); [done|]. intros [-> Hc]%IH. split; [unfold Zsum_counts; cbn; lia|].
    intros k'. unfold count_of in *. cbn. case_decide; cbn; [lia|apply Hc].
Qed.

Lemma count_keys_NoDup ks : forall m, (forall k, 0 <= count_of k m) -> (forall k, count_of k (count_keys ks m) <= 1) -> NoDup ks.
Proof.
  induction ks as [|k ks IH]; intros m H0 H1; [apply NoDup_nil_2|].
  change (count_keys (k :: ks) m) with (count_keys ks (count_key k m)) in H1.
  assert (Hk : forall k', 0 <= count_of k' (count_key k m)).
  { intros k'. rewrite count_key_of. specialize (H0 k'). case_decide; lia. }
  apply NoDup_cons. split; [|by eapply IH]. intros Hin.
  destruct (count_keys_of k ks (count_key k m)) as [_ H2]. specialize (H2 Hin).
  rewrite count_key_of, decide_True in H2 by done. specialize (H0 k). specialize (H1 k). lia.
Qed.

(** If every counted key is a key of the metadata, then the final check of
    [VerifyIssue] and [VerifyTransfer] leaves no metadata entry uncounted. *)
Lemma check_metadata_all ks metadata : gomap_wf metadata -> Forall (fun k => k ∈ metadata.*1) ks ->
  check_metadata (count_keys ks []) metadata = Ok tt -> forall k, k ∈ metadata.*1 -> k ∈ ks.
Proof.
  intros Hwf Hks. unfold check_metadata. intros (n & [-> Hle]%sum_counts_Ok & H)%res_bind_Ok.
  destruct (Z.eqb_spec (zlen metadata) (0 + Zsum_counts (count_keys ks []))) as [Hlen|]; [|done].
  rewrite count_keys_sum in Hlen. cbn in Hlen.
  assert (Hnd : NoDup ks) by (eapply (count_keys_NoDup ks []); [by intros|done]).
  intros k. rewrite !list_elem_of_In. apply (NoDup_length_incl (l := ks) (l' := metadata.*1)).
  - by apply NoDup_ListNoDup.
  - rewrite length_fmap. unfold zlen in Hlen. lia.
  - intros x Hx%list_elem_of_In. apply list_elem_of_In. by apply (proj1 (Forall_forall _ _) Hks).
Qed.

Lemma ApplicationData_Ok {Tok} metadata (c c' : Ctx Tok) u : ApplicationDataValidate metadata c = (Ok u, c') ->
  exists ks, counts c ks c' /\ Forall (fun k => PublicMetadataPrefix `prefix_of` k /\ k ∈ metadata.*1) ks.
Proof.
  intros H. unfold ApplicationDataValidate in H.
  eapply (rangeM_counts _ (ctx_Signatures c) (fun _ _ => True)) in H; [exact (proj2 H)| |done].
  intros i [k v] c1 c2 u1 Hi _. case_bool_decide as Hp.
  - intros Hc%CountMetadataKey_counts. split; [done|]. exists [k]. split; [done|]. apply Forall_singleton.
    split; [done|]. apply list_elem_of_fmap. exists (k, v). split; [done|]. by apply list_elem_of_lookup_2 with i.
  - intros [_ ->]%M_ret_Ok. split; [done|]. exists []. split; [apply counts_refl|constructor].
Qed.

(** ** Properties *)

Section Properties.
Context `{IO : !IdentityOps} {TA IA Tok : Type}.
Context (TA_GetMetadata : TA -> gomap bytes) (IA_GetMetadata : IA -> gomap bytes).
Context (v : Validator (TA := TA) (IA := IA) (Tok := Tok)).
Context (proto_Unmarshal : bytes -> res PTokenRequest) (json_Marshal : list bytes -> res bytes).
Abbreviation VerifyFromRaw :=
  (VerifyTokenRequestFromRaw TA_GetMetadata IA_GetMetadata v proto_Unmarshal json_Marshal).

(** C9: an accepted request satisfies the auditing policy.  With the standard
    auditing validator, if no auditor is configured the request carries no
    auditor signature; otherwise it carries at least one, and every auditor
    signature in it names a configured auditor whose verifier accepts that
    very signature on the message built from the request's actions and the
    anchor. *)
Theorem accepted_request_audited Auditors GetAuditorVerifier anchor raw res attrs :
  AuditingValidators v = [AuditingSignaturesValidate Auditors GetAuditorVerifier] ->
  MaxActions (Limits v) <= two32 -> VerifyFromRaw anchor raw = Ok (res, attrs) ->
  exists tr, TokenRequest_FromBytes proto_Unmarshal raw = Ok tr /\
    MarshalToMessageToSign tr anchor = Ok (TokenRequestToSign attrs) /\
    (Auditors = [] <-> auditor_signatures tr = []) /\
    forall a, a ∈ auditor_signatures tr -> AU_Identity a ∈ Auditors /\
      exists ver, GetAuditorVerifier (AU_Identity a) = Ok (Some ver) /\
        ver (TokenRequestToSign attrs) (AU_Signature a) = Ok tt.
Proof.
  intros Hav Hmax (tr & acts & Htr & _ & _ & _ & _ & Hm & _ & _ & (b & Hau & Hex) & _)%FromRaw_Ok; [|done].
  apply in_context_Ok in Hau as ([] & c & E & _ & Hc). rewrite Hav in E.
  apply M_bind_Ok in E as ([] & c1 & E & [_ ->]%M_ret_Ok).
  apply AuditingSignaturesValidate_Ok in E as (Hiff & vs & Hmv & HF).
  exists tr. split_and!; [done..|].
  intros a (i & Hi)%list_elem_of_lookup.
  destruct (Forall2_lookup_l _ _ _ _ _ HF Hi) as (ver & Hver & Hin & HG). split; [done|].
  exists ver. split; [done|]. unfold moves in Hmv. cbn in Hmv. rewrite Hc in Hmv.
  destruct Hmv as (_ & _ & _ & Hsig). cbn in Hsig. destruct (Hsig i ver Hver) as (s & Hs & Hok).
  rewrite list_lookup_fmap, Hi in Hs. cbn in Hs. by injection Hs as <-.
Qed.

(** The per-action outcome of an accepted request; the theorems of the drivers start
    from it. *)
Lemma actions_in_order anchor raw res attrs :
  MaxActions (Limits v) <= two32 -> VerifyFromRaw anchor raw = Ok (res, attrs) ->
  exists tr d issues transfers, TokenRequest_FromBytes proto_Unmarshal raw = Ok tr /\
    DeserializeActions v = Some d /\ d tr = Ok (issues, transfers) /\
    Forall2 value_matches (Actions tr) res /\
    issue_values res = issues /\ transfer_values res = transfers /\
    forall i a, res !! i = Some a ->
      let provider := NewBackend (TokenRequestToSign attrs) (action_signatures tr (Z.of_nat i)) in
      exists b', Cursor b' = length (Sigs b') /\
        match a with
        | VIssue x => VerifyIssue IA_GetMetadata v anchor tr x (Some provider) = (Ok tt, Some b')
        | VTransfer x => VerifyTransfer TA_GetMetadata v anchor tr x (Some provider) = (Ok tt, Some b')
        end.
Proof.
  intros Hmax (tr & acts & Htr & _ & _ & _ & _ & Hm & Hd & -> & _ & Hall)%FromRaw_Ok; [|done].
  exists tr. unfold deserializeActionsInRequestOrder in Hd.
  destruct (DeserializeActions v) as [d|] eqn:Hde; [|done].
  apply res_bind_Ok in Hd as ([issues transfers] & Hdt & Hd).
  apply res_bind_Ok in Hd as ([[l ii] ti] & (L1 & L2 & HF & HI & HT & HX & HA)%orderActions_Ok & Hd).
  destruct (_ || _) eqn:Hn; [done|]. injection Hd as ->.
  apply orb_false_iff in Hn as [Hn1%negb_false_iff%Nat.eqb_eq Hn2%negb_false_iff%Nat.eqb_eq].
  exists d, issues, transfers. split_and!; try done.
  - rewrite HI, Nat.sub_0_r, Hn1, drop_0. by apply take_ge.
  - rewrite HT, Nat.sub_0_r, Hn2, drop_0. by apply take_ge.
  - intros i a Ha. cbv zeta. change (map da_value acts) with (da_value <$> acts) in Ha.
    rewrite list_lookup_fmap in Ha. destruct (acts !! i) as [da|] eqn:Hda; [|done]. cbn in Ha. injection Ha as <-.
    assert (Hidx : da_index da = i).
    { assert ((da_index <$> acts) !! i = Some (da_index da)) as E by (by rewrite list_lookup_fmap, Hda).
      rewrite HX in E. apply lookup_seq in E as [-> _]. done. }
    eapply Forall_lookup_1 in Hall as (b' & Hv & Hex); [|exact Hda]. rewrite Hidx in Hv.
    exists b'. split.
    { unfold EnsureExhausted in Hex. destruct (_ =? _)%nat eqn:E; [|done]. by apply Nat.eqb_eq in E. }
    unfold verifyDeserializedAction in Hv. unfold da_value.
    destruct (da_typeID da =? ACTION_TYPE_ISSUE); [by apply wrapM_Ok in Hv|].
    destruct (da_typeID da =? ACTION_TYPE_TRANSFER); [by apply wrapM_Ok in Hv|done].
Qed.

(** C6: the actions of an accepted request are verified in its own order,
    each with its own signatures.  The result has one non-nil action per entry
    of the request, of the type the entry declares; its issues and transfers,
    in order, are exactly the deserialized ones; and the action at each index
    passed its validators with a provider that held exactly the signatures the
    request attaches to that index, all of which were consumed. *)
Theorem accepted_actions_in_order anchor raw res attrs :
  MaxActions (Limits v) <= two32 -> VerifyFromRaw anchor raw = Ok (res, attrs) ->
  exists tr d issues transfers, TokenRequest_FromBytes proto_Unmarshal raw = Ok tr /\
    DeserializeActions v = Some d /\ d tr = Ok (issues, transfers) /\
    Forall2 value_matches (Actions tr) res /\
    issue_values res = issues /\ transfer_values res = transfers /\
    forall i a, res !! i = Some a ->
      let provider := NewBackend (TokenRequestToSign attrs) (action_signatures tr (Z.of_nat i)) in
      exists b', Cursor b' = length (Sigs b') /\
        match a with
        | VIssue x => VerifyIssue IA_GetMetadata v anchor tr x (Some provider) = (Ok tt, Some b')
        | VTransfer x => VerifyTransfer TA_GetMetadata v anchor tr x (Some provider) = (Ok tt, Some b')
        end.
Proof. apply actions_in_order. Qed.

(** An accepted request is within the resource limits: its raw size, the
    number of its actions and signatures and the size of each of them, as
    configured; and it has at least one action. *)
Theorem accepted_request_within_limits anchor raw res attrs :
  MaxActions (Limits v) <= two32 -> VerifyFromRaw anchor raw = Ok (res, attrs) ->
  zlen raw <= MaxRequestBytes (Limits v) /\
  exists tr, TokenRequest_FromBytes proto_Unmarshal raw = Ok tr /\
    0 < zlen (Actions tr) <= MaxActions (Limits v) /\ zlen (Signatures tr) <= MaxSignatures (Limits v) /\
    (forall a, Some a ∈ Actions tr -> zlen (TA_Raw a) <= MaxActionBytes (Limits v)) /\
    (forall s a, Some s ∈ Signatures tr -> RS_Action s = Some a -> zlen (AS_Signature a) <= MaxSignatureBytes (Limits v)) /\
    (forall s a, Some s ∈ Signatures tr -> RS_Auditor s = Some a -> zlen (AU_Signature a) <= MaxSignatureBytes (Limits v)).
Proof.
  intros Hmax (tr & acts & Htr & Hsz & Hne & _ & Hlim & _)%FromRaw_Ok; [|done]. split; [done|]. exists tr.
  unfold CheckRequestLimits in Hlim. apply res_bind_Ok in Hlim as ([] & Hna%gtb_reject & Hlim).
  apply res_bind_Ok in Hlim as ([] & Hns%gtb_reject & Hlim). apply res_bind_Ok in Hlim as ([] & Hact & Hsig).
  split_and!; try done.
  - unfold zlen. destruct (Actions tr); [done|cbn; lia].
  - intros a (i & Hi)%list_elem_of_lookup. apply (proj1 (rangeR_Ok _ _ _) Hact) in Hi. by apply gtb_reject in Hi.
  - intros s a (i & Hi)%list_elem_of_lookup Hs. apply (proj1 (rangeR_Ok _ _ _) Hsig) in Hi. cbn in Hi.
    rewrite Hs in Hi. destruct (Z.gtb_spec (zlen (AS_Signature a)) (MaxSignatureBytes (Limits v))); [done|lia].
  - intros s a (i & Hi)%list_elem_of_lookup Hs. apply (proj1 (rangeR_Ok _ _ _) Hsig) in Hi. cbn in Hi.
    rewrite Hs in Hi. destruct (RS_Action s) as [x|]; [destruct (zlen (AS_Signature x) >? _); [done|]|];
      (destruct (Z.gtb_spec (zlen (AU_Signature a)) (MaxSignatureBytes (Limits v))); [done|lia]).
Qed.
End Properties.

(** ** Witnesses: a driver with one issue validator and one auditor *)

Definition example_verifier : verifier := fun _ s => if bool_decide (s = str "sig") then Ok tt else Err (EMsg "bad").

Definition example_validator : Validator (TA := unit) (IA := unit) (Tok := unit) := {|
  AuditingValidators := [@AuditingSignaturesValidate bytes_identity unit [str "auditor"] (fun _ => Ok (Some example_verifier))];
  TransferValidators := [];
  IssueValidators := [fun _ _ _ => HasBeenSignedBy (Some example_verifier) ;; mret tt];
  DeserializeActions := Some (fun _ => Ok ([Some tt], [Some tt]));
  Limits := DefaultResourceLimits;
  MinProtocolVersion := 1;
|}.

Definition example_attrs : ValidationAttributes :=
  mkValidationAttributes
    (match MarshalToMessageToSign example_request (str "tx1") with Ok m => m | _ => [] end) (str "json").

Definition example_unmarshal (_ : bytes) : res PTokenRequest := Ok example_protos.
Definition example_json (_ : list bytes) : res bytes := Ok (str "json").

Lemma example_accepted :
  VerifyTokenRequestFromRaw (fun _ => []) (fun _ => []) example_validator example_unmarshal example_json (str "tx1") (str "raw")
  = Ok ([VIssue (Some tt); VTransfer (Some tt)], example_attrs).
Proof. vm_compute. reflexivity. Qed.

Lemma accepted_request_audited_witness :
  exists tr, TokenRequest_FromBytes example_unmarshal (str "raw") = Ok tr /\
    MarshalToMessageToSign tr (str "tx1") = Ok (TokenRequestToSign example_attrs) /\
    ([str "auditor"] = [] <-> auditor_signatures tr = []) /\
    forall a, a ∈ auditor_signatures tr -> AU_Identity a ∈ [str "auditor"] /\
      exists ver, Ok (Some example_verifier) = Ok (Some ver) /\
        ver (TokenRequestToSign example_attrs) (AU_Signature a) = Ok tt.
Proof.
  apply (accepted_request_audited (IO := bytes_identity) _ _ example_validator _ _ [str "auditor"]
           (fun _ => Ok (Some example_verifier)) (str "tx1") (str "raw") _ example_attrs eq_refl
           ltac:(vm_compute; discriminate) example_accepted).
Defined.

Lemma accepted_actions_in_order_witness :
  exists tr d issues transfers, TokenRequest_FromBytes example_unmarshal (str "raw") = Ok tr /\
    DeserializeActions example_validator = Some d /\ d tr = Ok (issues, transfers) /\
    Forall2 value_matches (Actions tr) [VIssue (Some tt); VTransfer (Some tt)] /\
    issue_values [VIssue (Some tt); VTransfer (Some tt)] = issues /\
    transfer_values [VIssue (Some tt); VTransfer (Some tt)] = transfers /\
    forall i a, [VIssue (Some tt); VTransfer (Some tt)] !! i = Some a ->
      let provider := NewBackend (TokenRequestToSign example_attrs) (action_signatures tr (Z.of_nat i)) in
      exists b', Cursor b' = length (Sigs b') /\
        match a with
        | VIssue x => VerifyIssue (fun _ => []) example_validator (str "tx1") tr x (Some provider) = (Ok tt, Some b')
        | VTransfer x => VerifyTransfer (fun _ => []) example_validator (str "tx1") tr x (Some provider) = (Ok tt, Some b')
        end.
Proof.
  apply (accepted_actions_in_order _ _ example_validator _ _ (str "tx1") (str "raw") _ example_attrs
           ltac:(vm_compute; discriminate) example_accepted).
Defined.

Lemma accepted_request_within_limits_witness :
  zlen (str "raw") <= MaxRequestBytes (Limits example_validator) /\
  exists tr, TokenRequest_FromBytes example_unmarshal (str "raw") = Ok tr /\
    0 < zlen (Actions tr) <= MaxActions (Limits example_validator) /\
    zlen (Signatures tr) <= MaxSignatures (Limits example_validator) /\
    (forall a, Some a ∈ Actions tr -> zlen (TA_Raw a) <= MaxActionBytes (Limits example_validator)) /\
    (forall s a, Some s ∈ Signatures tr -> RS_Action s = Some a ->
       zlen (AS_Signature a) <= MaxSignatureBytes (Limits example_validator)) /\
    (forall s a, Some s ∈ Signatures tr -> RS_Auditor s = Some a ->
       zlen (AU_Signature a) <= MaxSignatureBytes (Limits example_validator)).
Proof.
  apply (accepted_request_within_limits _ _ example_validator _ _ (str "tx1") (str "raw") _ example_attrs
           ltac:(vm_compute; discriminate) example_accepted).
Defined.
