(* ===== verification/ZkMath.v ===== *)
(** * The algebra under the zero-knowledge driver
      (core/zkatdlog/nogh/v1/crypto/math, crypto/common, core/common/crypto)

    The elliptic-curve library is a parameter: a class of the operations the
    driver calls on scalars ([Zr]) and points ([G1]) and a class of the laws of a
    prime-order group they document.  On top of it: sums over slices, a decision
    tactic for equations between linear combinations of points, the driver's own
    helpers (inner products, batch inversion, cached powers of two) and the
    Fiat-Shamir transcript. *)

From S2P Require Import Prelude GoStd Der Asn1.
From Stdlib Require Import ZArith Lia Ring Ring_theory.

(** ** The curve library *)

Class Curve := {
  Zr : Type;
  G1 : Type;
  Zr_eq_dec : EqDecision Zr;
  G1_eq_dec : EqDecision G1;
  (** Scalars: [NewZrFromUint64], [ModAdd], [ModSub], [ModMul], [Neg],
      [InvModOrder], [PowMod] and the fused [ModAddMul], [ModAddMul2]. *)
  NewZrFromUint64 : Z -> Zr;
  ModAdd : Zr -> Zr -> Zr;
  ModSub : Zr -> Zr -> Zr;
  ModMul : Zr -> Zr -> Zr;
  Neg : Zr -> Zr;
  InvModOrder : Zr -> Zr;
  PowMod : Zr -> Zr -> Zr;
  ModAddMul : list Zr -> list Zr -> Zr;
  ModAddMul2 : Zr -> Zr -> Zr -> Zr -> Zr;
  (** Points: [NewG1] (the identity), [Add], [Sub], [Mul], [Mul2],
      [MultiScalarMul]. *)
  NewG1 : G1;
  G1_Add : G1 -> G1 -> G1;
  G1_Sub : G1 -> G1 -> G1;
  G1_Mul : G1 -> Zr -> G1;
  Mul2 : G1 -> Zr -> G1 -> Zr -> G1;
  MultiScalarMul : list G1 -> list Zr -> G1;
  (** Encodings and hashing. *)
  Zr_Bytes : Zr -> bytes;
  G1_Bytes : G1 -> bytes;
  HashToZr : bytes -> Zr;
}.

#[global] Existing Instance Zr_eq_dec.
#[global] Existing Instance G1_eq_dec.

Declare Scope zr_scope.
Delimit Scope zr_scope with zr.
Arguments ModAdd {_} (_ _)%_zr.
Arguments ModSub {_} (_ _)%_zr.
Arguments ModMul {_} (_ _)%_zr.
Arguments Neg {_} _%_zr.
Infix "+" := ModAdd : zr_scope.
Infix "-" := ModSub : zr_scope.
Infix "*" := ModMul : zr_scope.
Notation "- x" := (Neg x) : zr_scope.

Declare Scope g1_scope.
Delimit Scope g1_scope with g1.
Bind Scope zr_scope with Zr.
Bind Scope g1_scope with G1.
Arguments G1_Mul {_} _%_g1 _%_zr.
Arguments G1_Add {_} (_ _)%_g1.
Arguments G1_Sub {_} (_ _)%_g1.
Arguments Mul2 {_} _%_g1 _%_zr _%_g1 _%_zr.
Infix "+" := G1_Add : g1_scope.
Infix "-" := G1_Sub : g1_scope.
Infix "⋅" := G1_Mul (at level 40, left associativity) : g1_scope.

(** [math.Zero], [math.One], [math.Two]: the cached small integers. *)
Definition Zero `{!Curve} : Zr := NewZrFromUint64 0.
Definition One `{!Curve} : Zr := NewZrFromUint64 1.
Definition Two `{!Curve} : Zr := NewZrFromUint64 2.

(** Finite sums. *)
Definition zsum `{!Curve} (l : list Zr) : Zr := foldr ModAdd Zero l.
Definition gsum `{!Curve} (l : list G1) : G1 := foldr G1_Add NewG1 l.

(** The reference meaning of the fused operations. *)
Definition ip `{!Curve} (l r : list Zr) : Zr := zsum (zip_with ModMul l r).
Definition msm `{!Curve} (ps : list G1) (ss : list Zr) : G1 := gsum (zip_with G1_Mul ps ss).

Class CurveLaws `{!Curve} := {
  zr_ring : ring_theory Zero One ModAdd ModMul ModSub Neg eq;
  zr_inv x : x <> Zero -> (x * InvModOrder x)%zr = One;
  zr_one_zero : One <> Zero;
  zr_succ n : (0 <= n < two64 - 1)%Z -> NewZrFromUint64 (n + 1) = (NewZrFromUint64 n + One)%zr;
  zr_pow2 x : PowMod x Two = (x * x)%zr;
  zr_addmul l r : length l = length r -> ModAddMul l r = ip l r;
  zr_addmul2 a b c d : ModAddMul2 a b c d = (a * b + c * d)%zr;
  g1_assoc a b c : (a + (b + c) = a + b + c)%g1;
  g1_comm a b : (a + b = b + a)%g1;
  g1_zero a : (NewG1 + a = a)%g1;
  g1_sub a b : (a - b = a + b ⋅ (- One)%zr)%g1;
  g1_mul_add g a b : (g ⋅ (a + b)%zr = g ⋅ a + g ⋅ b)%g1;
  g1_add_mul g h a : ((g + h) ⋅ a = g ⋅ a + h ⋅ a)%g1;
  g1_mul_mul g a b : (g ⋅ a ⋅ b = g ⋅ (a * b)%zr)%g1;
  g1_mul_one g : (g ⋅ One = g)%g1;
  g1_mul_zero g : (g ⋅ Zero = NewG1)%g1;
  g1_mul2 g a h b : Mul2 g a h b = (g ⋅ a + h ⋅ b)%g1;
  g1_msm ps ss : length ps = length ss -> MultiScalarMul ps ss = msm ps ss;
  g1_bytes_len p : (zlen (G1_Bytes p) <= 4294967295)%Z;
}.

(** The curves the driver names; [DispatchCurve] selects the native field
    arithmetic of gnark-crypto by the identifier of the group order. *)
Inductive CurveID :=
| BN254 | BLS12_381 | BLS12_381_GURVY | BLS12_381_BBS | BLS12_381_BBS_GURVY | BLS12_381_BBS_GURVY_FAST_RNG | OtherCurve (id : Z).

(** gnark-crypto's field elements ([GnarkFr], crypto/math/native.go) and the
    conversions of both libraries. *)
Class Native `{!Curve} := {
  GroupOrder_CurveID : CurveID;
  Fr : Type;
  Fr_Add : Fr -> Fr -> Fr;
  Fr_Sub : Fr -> Fr -> Fr;
  Fr_Mul : Fr -> Fr -> Fr;
  Fr_Inverse : Fr -> Fr;
  Fr_One : Fr;
  Fr_Zero : Fr;
  Fr_SetInt64 : Z -> Fr;
  Fr_SetBigInt : Z -> Fr;
  Fr_Bytes : Fr -> bytes;
  Zr_BigInt : Zr -> Z;
  NewZrFromBytes : bytes -> Zr;
}.

Definition DispatchCurve `{!Curve, !Native} : bool * bool :=
  match GroupOrder_CurveID with
  | BLS12_381 | BLS12_381_GURVY | BLS12_381_BBS | BLS12_381_BBS_GURVY => (true, false)
  | BN254 => (false, true)
  | BLS12_381_BBS_GURVY_FAST_RNG | OtherCurve _ => (false, false)
  end.

(** The curves for which [init] fills the caches (crypto/math/curves.go). *)
Definition cached_curve `{!Curve, !Native} : bool :=
  match GroupOrder_CurveID with
  | BN254 | BLS12_381_BBS_GURVY | BLS12_381_BBS | BLS12_381_GURVY | BLS12_381_BBS_GURVY_FAST_RNG => true
  | BLS12_381 | OtherCurve _ => false
  end.

Definition SetNativeFromZr `{!Curve, !Native} (z : Zr) : Fr := Fr_SetBigInt (Zr_BigInt z).
Definition NativeToZr `{!Curve, !Native} (e : Fr) : Zr := NewZrFromBytes (Fr_Bytes e).

(** A native element stands for a scalar: the conversion is a homomorphism. *)
Class NativeLaws `{!Curve, !Native} := {
  native_set z : NativeToZr (SetNativeFromZr z) = z;
  native_add a b : NativeToZr (Fr_Add a b) = (NativeToZr a + NativeToZr b)%zr;
  native_sub a b : NativeToZr (Fr_Sub a b) = (NativeToZr a - NativeToZr b)%zr;
  native_mul a b : NativeToZr (Fr_Mul a b) = (NativeToZr a * NativeToZr b)%zr;
  native_inv a : NativeToZr a <> Zero -> NativeToZr (Fr_Inverse a) = InvModOrder (NativeToZr a);
  native_one : NativeToZr Fr_One = One;
  native_zero : NativeToZr Fr_Zero = Zero;
  native_two : NativeToZr (Fr_SetInt64 2) = Two;
}.

#[global] Hint Rewrite @native_set @native_add @native_sub @native_mul @native_one @native_zero @native_two using typeclasses eauto : native.

(** Indexing a slice panics out of range. *)
Definition index {A} (l : list A) (i : nat) : res A :=
  match l !! i with Some a => Ok a | None => Panic end.
Definition set_index {A} (l : list A) (i : nat) (a : A) : res (list A) :=
  if (i <? length l)%nat then Ok (<[i := a]> l) else Panic.

(** [for i := range n] threading a state that may stop with an error. *)
Fixpoint foldR {A B} (f : A -> B -> res A) (a : A) (l : list B) : res A :=
  match l with
  | [] => Ok a
  | b :: l => a' ← f a b; foldR f a' l
  end.

Lemma index_Some {A} (l : list A) i a : l !! i = Some a -> index l i = Ok a.
Proof. unfold index. by intros ->. Qed.

Lemma foldR_app {A B} (f : A -> B -> res A) l k a : foldR f a (l ++ k) = (a' ← foldR f a l; foldR f a' k).
Proof. revert a. induction l as [|b l IH]; intros a; [done|]. cbn. destruct (f a b); cbn; [apply IH|done..]. Qed.

Lemma mapM_cons_res {A B} (f : A -> res B) x l : mapM f (x :: l) = (y ← f x; ys ← mapM f l; Ok (y :: ys)).
Proof. done. Qed.

Lemma mapM_no_panic {A B} (f : A -> res B) l : (forall x, x ∈ l -> f x <> Panic) -> mapM f l <> Panic.
Proof.
  induction l as [|x l IH]; intros H; [done|]. rewrite mapM_cons_res. apply bind_no_panic; [apply H; left|].
  intros y. apply bind_no_panic; [|done]. apply IH. intros z Hz. apply H. by right.
Qed.

Lemma mapM_pure {A B} (f : A -> res B) (g : A -> B) l :
  (forall x, x ∈ l -> f x = Ok (g x)) -> mapM f l = Ok (g <$> l).
Proof.
  induction l as [|x l IH]; intros H; [done|]. cbn. rewrite H by left. cbn.
  change ((ys ← mapM f l; mret (g x :: ys)) = Ok (g x :: (g <$> l))). rewrite IH; [done|]. intros y Hy. apply H. by right.
Qed.

(** A loop that fills a slice entry by entry. *)
Lemma mapM_seq {A} (f : nat -> res A) (l : list A) : forall k,
  (forall i a, l !! i = Some a -> f (k + i)%nat = Ok a) -> mapM f (seq k (length l)) = Ok l.
Proof.
  induction l as [|a l IH]; intros k H; [done|]. cbn [length seq].
  change ((y ← f k; ys ← mapM f (seq (S k) (length l)); mret (y :: ys)) = Ok (a :: l)).
  pose proof (H 0%nat a eq_refl) as H0. rewrite Nat.add_0_r in H0. rewrite H0. cbn [mbind res_mbind]. rewrite IH; [done|].
  intros i b Hi. rewrite Nat.add_succ_comm. by apply H.
Qed.

Lemma mapM_fill {A} (f : nat -> res A) (l : list A) n :
  length l = n -> (forall i a, l !! i = Some a -> f i = Ok a) -> mapM f (seq 0 n) = Ok l.
Proof. intros <- H. by apply mapM_seq. Qed.

Lemma index_nth {A} (l : list A) i d : (i < length l)%nat -> index l i = Ok (nth i l d).
Proof. intros H. apply index_Some. rewrite nth_lookup. by destruct (lookup_lt_is_Some_2 l i H) as [x ->]. Qed.

(** ** Linear combinations

    [linear] proves an equation between linear combinations of points: both
    sides are reified over the list of their atoms and compared coefficient by
    coefficient with [ring]. *)

Inductive lexp `{!Curve} : Type :=
| LZero
| LAtom (i : nat)
| LAdd (a b : lexp)
| LSub (a b : lexp)
| LMul (a : lexp) (c : Zr).

Section Linear.
Context {CO : Curve} {CL : CurveLaws}.
Add Ring zr : zr_ring.
Local Open Scope zr_scope.

Fixpoint denote (env : list G1) (e : lexp) : G1 :=
  match e with
  | LZero => NewG1
  | LAtom i => nth i env NewG1
  | LAdd a b => G1_Add (denote env a) (denote env b)
  | LSub a b => G1_Sub (denote env a) (denote env b)
  | LMul a c => G1_Mul (denote env a) c
  end.

(** The vector of coefficients over [n] atoms. *)
Fixpoint coeffs (n : nat) (e : lexp) : list Zr :=
  match e with
  | LZero => replicate n Zero
  | LAtom i => (fun j => if (j =? i)%nat then One else Zero) <$> seq 0 n
  | LAdd a b => zip_with ModAdd (coeffs n a) (coeffs n b)
  | LSub a b => zip_with ModSub (coeffs n a) (coeffs n b)
  | LMul a c => (fun x => x * c) <$> coeffs n a
  end.

Lemma g1_zero_r a : (a + NewG1 = a)%g1.
Proof. rewrite g1_comm. apply g1_zero. Qed.

Lemma g1_zero_mul c : (NewG1 ⋅ c = NewG1)%g1.
Proof. rewrite <- (g1_mul_zero NewG1) at 1. rewrite g1_mul_mul. replace (Zero * c) with Zero by ring. apply g1_mul_zero. Qed.

Lemma g1_swap a b c d : ((a + b) + (c + d) = (a + c) + (b + d))%g1.
Proof. rewrite <- !g1_assoc. f_equal. rewrite (g1_assoc b c d), (g1_comm b c), <- g1_assoc. done. Qed.

Lemma length_coeffs n e : length (coeffs n e) = n.
Proof. induction e; cbn; rewrite ?length_replicate, ?length_fmap, ?length_seq, ?length_zip_with; lia. Qed.

Lemma msm_cons p ps s ss : msm (p :: ps) (s :: ss) = (p ⋅ s + msm ps ss)%g1.
Proof. done. Qed.

Lemma msm_zip_add ps : forall l r, length l = length ps -> length r = length ps ->
  msm ps (zip_with ModAdd l r) = (msm ps l + msm ps r)%g1.
Proof.
  induction ps as [|p ps IH]; intros [|a l] [|b r]; try done; cbn [length]; intros Hl Hr.
  - symmetry. apply g1_zero.
  - cbn [zip_with]. rewrite !msm_cons, IH, g1_mul_add by lia. apply g1_swap.
Qed.

Lemma msm_scale ps c : forall l, msm ps ((fun x => x * c) <$> l) = (msm ps l ⋅ c)%g1.
Proof.
  induction ps as [|p ps IH]; intros [|a l]; try (symmetry; apply g1_zero_mul).
  rewrite fmap_cons, !msm_cons, IH, g1_add_mul, g1_mul_mul. done.
Qed.

Lemma msm_zero ps : forall l, Forall (fun c => c = Zero) l -> msm ps l = NewG1.
Proof.
  induction ps as [|p ps IH]; intros [|c l] HF; try done. apply Forall_cons in HF as [-> HF].
  rewrite msm_cons, g1_mul_zero, IH by done. apply g1_zero.
Qed.

Lemma msm_unit env : forall k i, (i < length env)%nat ->
  msm env ((fun j => if (j =? k + i)%nat then One else Zero) <$> seq k (length env)) = nth i env NewG1.
Proof.
  induction env as [|g env IH]; intros k i Hi; [cbn in Hi; lia|]. cbn [length seq]. rewrite fmap_cons, msm_cons. destruct i as [|i].
  - rewrite Nat.add_0_r, Nat.eqb_refl, g1_mul_one, msm_zero; [apply g1_zero_r|].
    apply Forall_fmap, Forall_forall. intros j Hj%elem_of_seq. cbn. destruct (Nat.eqb_spec j k); [lia|done].
  - destruct (Nat.eqb_spec k (k + S i)); [lia|]. rewrite g1_mul_zero, g1_zero. cbn [nth]. rewrite <- (IH (S k) i) by (cbn in Hi; lia).
    by replace (S k + i)%nat with (k + S i)%nat by lia.
Qed.

(** An atom of a reified expression is in the environment. *)
Fixpoint scoped (n : nat) (e : lexp) : bool :=
  match e with
  | LZero => true
  | LAtom i => (i <? n)%nat
  | LAdd a b | LSub a b => scoped n a && scoped n b
  | LMul a _ => scoped n a
  end.

Lemma denote_coeffs env e : scoped (length env) e = true -> denote env e = msm env (coeffs (length env) e).
Proof.
  induction e as [|i|a IHa b IHb|a IHa b IHb|a IHa c]; cbn [scoped denote coeffs]; intros Hs.
  - symmetry. apply msm_zero. by apply Forall_replicate.
  - apply Nat.ltb_lt in Hs. symmetry. apply (msm_unit env 0 i Hs).
  - apply andb_true_iff in Hs as [Ha Hb]. rewrite IHa, IHb by done. symmetry. apply msm_zip_add; apply length_coeffs.
  - apply andb_true_iff in Hs as [Ha Hb]. rewrite IHa, IHb by done. rewrite g1_sub, <- msm_scale, <- msm_zip_add;
      rewrite ?length_fmap; try apply length_coeffs. f_equal.
    generalize (coeffs (length env) a) (coeffs (length env) b). intros l r. revert r.
    induction l as [|x l IH]; intros [|y r]; try done. cbn. f_equal; [ring|apply IH].
  - rewrite IHa by done. symmetry. apply msm_scale.
Qed.

Lemma linear_eq env e1 e2 : scoped (length env) e1 = true -> scoped (length env) e2 = true ->
  Forall2 eq (coeffs (length env) e1) (coeffs (length env) e2) -> denote env e1 = denote env e2.
Proof. intros H1 H2 HF. rewrite !denote_coeffs by done. f_equal. clear -HF. induction HF; congruence. Qed.

End Linear.

Ltac lin_add x env :=
  let rec go l := match l with
    | nil => constr:(env ++ [x])
    | x :: _ => env
    | _ :: ?l => go l
    end in
  let r := go env in eval cbn [app] in r.

Ltac lin_atoms e env :=
  lazymatch e with
  | G1_Add ?a ?b => let env := lin_atoms a env in lin_atoms b env
  | G1_Sub ?a ?b => let env := lin_atoms a env in lin_atoms b env
  | G1_Mul ?a _ => lin_atoms a env
  | NewG1 => env
  | ?x => lin_add x env
  end.

Ltac lin_index x env :=
  lazymatch env with
  | x :: _ => constr:(O)
  | _ :: ?l => let i := lin_index x l in constr:(S i)
  end.

Ltac lin_reify e env :=
  lazymatch e with
  | G1_Add ?a ?b => let a := lin_reify a env in let b := lin_reify b env in constr:(LAdd a b)
  | G1_Sub ?a ?b => let a := lin_reify a env in let b := lin_reify b env in constr:(LSub a b)
  | G1_Mul ?a ?c => let a := lin_reify a env in constr:(LMul a c)
  | NewG1 => constr:(LZero)
  | ?x => let i := lin_index x env in constr:(LAtom i)
  end.

(** Leaves the equations between coefficients that [ring] does not prove. *)
Ltac linear_with tac :=
  lazymatch goal with
  | |- @eq ?T ?a ?b =>
      let env := lin_atoms a (@nil T) in
      let env := lin_atoms b env in
      let ea := lin_reify a env in
      let eb := lin_reify b env in
      change (denote env ea = denote env eb);
      apply linear_eq; [reflexivity|reflexivity|];
      cbn [coeffs length seq fmap list_fmap zip_with Nat.eqb replicate];
      repeat (apply Forall2_cons_2; [tac|]); apply Forall2_nil_2
  end.

Ltac linear := linear_with ltac:(idtac; ring).

(** ** Scalars and sums *)

Section Scalars.
Context {CO : Curve} {CL : CurveLaws}.
Add Ring zr2 : zr_ring.
Local Open Scope zr_scope.

Lemma inv_unique x y : x * y = One -> y = InvModOrder x.
Proof.
  intros H. destruct (decide (x = Zero)) as [->|Hx].
  { exfalso. apply zr_one_zero. rewrite <- H. ring. }
  pose proof (zr_inv x Hx) as Hi. transitivity (y * (x * InvModOrder x)); [rewrite Hi; ring|].
  replace (y * (x * InvModOrder x)) with ((x * y) * InvModOrder x) by ring. rewrite H. ring.
Qed.

Lemma inv_l x : x <> Zero -> InvModOrder x * x = One.
Proof. intros H%zr_inv. rewrite <- H. ring. Qed.

Lemma mul_nonzero x y : x <> Zero -> y <> Zero -> x * y <> Zero.
Proof.
  intros Hx Hy H. apply Hy. transitivity (InvModOrder x * (x * y)).
  - replace (InvModOrder x * (x * y)) with ((x * InvModOrder x) * y) by ring. rewrite zr_inv by done. ring.
  - rewrite H. ring.
Qed.

Lemma inv_nonzero x : x <> Zero -> InvModOrder x <> Zero.
Proof. intros Hx H. apply zr_one_zero. rewrite <- (zr_inv x Hx), H. ring. Qed.

Lemma inv_mul x y : x <> Zero -> y <> Zero -> InvModOrder (x * y) = InvModOrder x * InvModOrder y.
Proof.
  intros Hx Hy. symmetry. apply inv_unique.
  replace (x * y * (InvModOrder x * InvModOrder y)) with ((x * InvModOrder x) * (y * InvModOrder y)) by ring.
  rewrite !zr_inv by done. ring.
Qed.

Lemma inv_inv x : x <> Zero -> InvModOrder (InvModOrder x) = x.
Proof. intros Hx. symmetry. apply inv_unique. by apply inv_l. Qed.

Lemma inv_one : InvModOrder One = One.
Proof. symmetry. apply inv_unique. ring. Qed.

Lemma zsum_nil : zsum [] = Zero.
Proof. done. Qed.

Lemma zsum_cons x l : zsum (x :: l) = x + zsum l.
Proof. done. Qed.

Lemma zsum_app l r : zsum (l ++ r) = zsum l + zsum r.
Proof. induction l as [|x l IH]; cbn [app]; rewrite ?zsum_nil, ?zsum_cons, ?IH; ring. Qed.

Lemma zsum_scale c l : zsum ((fun x => x * c) <$> l) = zsum l * c.
Proof. induction l as [|x l IH]; rewrite ?fmap_cons, ?fmap_nil, ?zsum_nil, ?zsum_cons, ?IH; ring. Qed.

Lemma gsum_cons x l : gsum (x :: l) = (x + gsum l)%g1.
Proof. done. Qed.

Lemma gsum_app l r : gsum (l ++ r) = (gsum l + gsum r)%g1.
Proof.
  induction l as [|x l IH]; cbn [app]; [symmetry; apply g1_zero|]. rewrite !gsum_cons, IH. apply g1_assoc.
Qed.

Lemma gsum_add {A} (f g : A -> G1) l : gsum ((fun t => f t + g t)%g1 <$> l) = (gsum (f <$> l) + gsum (g <$> l))%g1.
Proof.
  induction l as [|x l IH]; [symmetry; apply g1_zero|]. rewrite !fmap_cons, !gsum_cons, IH. apply g1_swap.
Qed.

Lemma gsum_concat ls : gsum (concat ls) = gsum (gsum <$> ls).
Proof. induction ls as [|l ls IH]; [done|]. cbn [concat]. by rewrite gsum_app, fmap_cons, gsum_cons, IH. Qed.

Lemma msm_concat {A} (p : A -> list G1) (q : A -> list Zr) l : (forall t, length (p t) = length (q t)) ->
  msm (concat (p <$> l)) (concat (q <$> l)) = gsum ((fun t => msm (p t) (q t)) <$> l).
Proof.
  intros H. induction l as [|t l IH]; [done|]. rewrite !fmap_cons. cbn [concat]. unfold msm in *.
  rewrite zip_with_app by apply H. by rewrite gsum_app, IH.
Qed.

Lemma msm_seq ps : forall ss k, length ss = length ps ->
  msm ps ss = gsum ((fun j => nth (j - k) ps NewG1 ⋅ nth (j - k) ss Zero)%g1 <$> seq k (length ps)).
Proof.
  induction ps as [|p ps IH]; intros [|s ss] k; try done. cbn [length seq]. intros [=H]. rewrite fmap_cons, gsum_cons, Nat.sub_diag. cbn [nth].
  rewrite msm_cons, (IH ss (S k)) by done. do 2 f_equal. apply list_fmap_ext. intros i j Hj%list_elem_of_lookup_2%elem_of_seq.
  by replace (j - k)%nat with (S (j - S k)) by lia.
Qed.

Lemma msm_app ps qs ss ts : length ps = length ss -> msm (ps ++ qs) (ss ++ ts) = (msm ps ss + msm qs ts)%g1.
Proof. intros H. unfold msm. rewrite zip_with_app by done. apply gsum_app. Qed.

Lemma msm_add_l ps : forall qs ss, length ps = length qs -> length ss = length qs ->
  msm (zip_with G1_Add ps qs) ss = (msm ps ss + msm qs ss)%g1.
Proof.
  induction ps as [|p ps IH]; intros [|q qs] [|s ss]; try done; cbn [length]; intros H1 H2; [symmetry; apply g1_zero|].
  cbn [zip_with]. rewrite !msm_cons, IH, g1_add_mul by lia. apply g1_swap.
Qed.

Lemma msm_mul_l ps c : forall ss, msm ((fun p => (p ⋅ c)%g1) <$> ps) ss = (msm ps ss ⋅ c)%g1.
Proof.
  induction ps as [|p ps IH]; intros [|s ss]; try (symmetry; apply g1_zero_mul).
  rewrite fmap_cons, !msm_cons, IH, g1_add_mul, !g1_mul_mul. do 2 f_equal. ring.
Qed.

Lemma ip_app l r l' r' : length l = length r -> ip (l ++ l') (r ++ r') = ip l r + ip l' r'.
Proof. intros H. unfold ip. rewrite zip_with_app by done. apply zsum_app. Qed.

Lemma ip_cons x l y r : ip (x :: l) (y :: r) = x * y + ip l r.
Proof. done. Qed.

Lemma ip_comm l : forall r, ip l r = ip r l.
Proof. induction l as [|x l IH]; intros [|y r]; try done. rewrite !ip_cons, IH. ring. Qed.

Lemma ip_add_l l : forall l' r, length l' = length l -> length r = length l ->
  ip (zip_with ModAdd l l') r = ip l r + ip l' r.
Proof.
  induction l as [|x l IH]; intros [|x' l'] [|y r]; try done; cbn [length]; intros H1 H2; [change (Zero = Zero + Zero); ring|].
  cbn [zip_with]. rewrite !ip_cons, IH by lia. ring.
Qed.

Lemma ip_scale_l c l : forall r, ip ((fun x => x * c) <$> l) r = ip l r * c.
Proof. induction l as [|x l IH]; intros [|y r]; try (change (Zero = Zero * c); ring). rewrite fmap_cons, !ip_cons, IH. ring. Qed.

(** ** The driver's helpers (crypto/math/math.go, curves.go) *)

Definition InnerProduct (l r : list Zr) : Zr := ModAddMul l r.

(** The forward pass: [inv[i] = inv[i-1] * elems[i]], from [inv[0]] on. *)
Fixpoint prefix_products (acc : Zr) (l : list Zr) : list Zr :=
  match l with
  | [] => []
  | x :: l => let p := acc * x in p :: prefix_products p l
  end.

(** The backward pass, over the pairs [(inv[i-1], elems[i])] from the last one
    down: [inv[i] = inv[i-1] * acc; acc = acc * elems[i]]. *)
Fixpoint backward_pass (acc : Zr) (pairs : list (Zr * Zr)) (out : list Zr) : list Zr :=
  match pairs with
  | [] => acc :: out
  | (prev, x) :: pairs => backward_pass (acc * x) pairs (prev * acc :: out)
  end.

Definition BatchInverse (elems : list Zr) : list Zr :=
  match elems with
  | [] => []
  | [x] => [InvModOrder x]
  | x0 :: rest =>
      let inv := x0 :: prefix_products x0 rest in
      backward_pass (InvModOrder (default x0 (last inv))) (rev (zip inv rest)) []
  end.

Lemma zip_prefix l : forall acc x,
  zip (acc :: prefix_products acc (l ++ [x])) (l ++ [x]) = zip (acc :: prefix_products acc l) l ++ [(foldl ModMul acc l, x)].
Proof. induction l as [|y l IH]; intros acc x; [done|]. cbn. f_equal. apply IH. Qed.

Lemma prefix_last l : forall acc, last (acc :: prefix_products acc l) = Some (foldl ModMul acc l).
Proof. induction l as [|y l IH]; intros acc; [done|]. cbn [prefix_products foldl]. rewrite <- IH. done. Qed.

Lemma product_nonzero l : forall acc, acc <> Zero -> Forall (fun x => x <> Zero) l -> foldl ModMul acc l <> Zero.
Proof. intros acc Ha HF. revert acc Ha. induction HF as [|y l Hy _ IH]; intros acc Ha; [done|]. cbn. apply IH. by apply mul_nonzero. Qed.

Lemma backward_spec l : forall acc a out, acc <> Zero -> Forall (fun x => x <> Zero) l ->
  a = InvModOrder (foldl ModMul acc l) ->
  backward_pass a (rev (zip (acc :: prefix_products acc l) l)) out = InvModOrder acc :: (InvModOrder <$> l) ++ out.
Proof.
  induction l as [|x l IH] using rev_ind; intros acc a out Hacc HF ->; [done|].
  apply Forall_app in HF as [HF Hx]. apply Forall_cons in Hx as [Hx _]. pose proof (product_nonzero l acc Hacc HF) as Hp.
  rewrite zip_prefix, rev_app_distr. cbn [rev app backward_pass]. rewrite foldl_snoc, (inv_mul _ x Hp Hx). rewrite (IH acc _ _ Hacc HF).
  - rewrite fmap_app, <- app_assoc. cbn. do 3 f_equal.
    replace (foldl ModMul acc l * (InvModOrder (foldl ModMul acc l) * InvModOrder x))
      with ((foldl ModMul acc l * InvModOrder (foldl ModMul acc l)) * InvModOrder x) by ring. rewrite zr_inv by done. ring.
  - replace (InvModOrder (foldl ModMul acc l) * InvModOrder x * x) with (InvModOrder (foldl ModMul acc l) * (InvModOrder x * x)) by ring.
    rewrite inv_l by done. ring.
Qed.

Lemma BatchInverse_map elems : Forall (fun x => x <> Zero) elems -> BatchInverse elems = InvModOrder <$> elems.
Proof.
  destruct elems as [|x0 [|x1 rest]]; [done..|]. intros HF. apply Forall_cons in HF as [H0 HF].
  unfold BatchInverse. rewrite (backward_spec (x1 :: rest) x0); [by rewrite app_nil_r|done|done|].
  f_equal. by rewrite (prefix_last (x1 :: rest) x0).
Qed.

(** Batch inversion on native elements: the same loops, with one inversion of
    the whole product also for a single element. *)
Fixpoint native_prefix {NA : Native} (acc : Fr) (l : list Fr) : list Fr :=
  match l with
  | [] => []
  | x :: l => let p := Fr_Mul acc x in p :: native_prefix p l
  end.

Fixpoint native_unwind {NA : Native} (acc : Fr) (pairs : list (Fr * Fr)) (out : list Fr) : list Fr :=
  match pairs with
  | [] => acc :: out
  | (prev, x) :: pairs => native_unwind (Fr_Mul acc x) pairs (Fr_Mul acc prev :: out)
  end.

Definition NativeBatchInverse {NA : Native} (elems : list Fr) : list Fr :=
  match elems with
  | [] => []
  | x0 :: rest =>
      let prefix := x0 :: native_prefix x0 rest in
      native_unwind (Fr_Inverse (default x0 (last prefix))) (rev (zip prefix rest)) []
  end.

Lemma native_prefix_map {NA : Native} {NL : NativeLaws} l : forall acc,
  NativeToZr <$> native_prefix acc l = prefix_products (NativeToZr acc) (NativeToZr <$> l).
Proof. induction l as [|x l IH]; intros acc; [done|]. cbn. rewrite native_mul. f_equal. rewrite <- native_mul. apply IH. Qed.

Lemma native_unwind_map {NA : Native} {NL : NativeLaws} pairs : forall acc out,
  NativeToZr <$> native_unwind acc pairs out
  = backward_pass (NativeToZr acc) (prod_map NativeToZr NativeToZr <$> pairs) (NativeToZr <$> out).
Proof.
  induction pairs as [|[p x] pairs IH]; intros acc out; [done|]. cbn. rewrite IH. cbn. rewrite !native_mul.
  f_equal. f_equal. ring.
Qed.

Lemma NativeBatchInverse_map {NA : Native} {NL : NativeLaws} elems : Forall (fun x => NativeToZr x <> Zero) elems ->
  NativeToZr <$> NativeBatchInverse elems = InvModOrder <$> (NativeToZr <$> elems).
Proof.
  destruct elems as [|x0 rest]; [done|]. intros HF. apply Forall_cons in HF as [H0 HF].
  assert (Forall (fun x => x <> Zero) (NativeToZr <$> rest)) as HF' by (by apply Forall_fmap). unfold NativeBatchInverse. rewrite native_unwind_map. cbn [fmap list_fmap].
  assert (NativeToZr (default x0 (last (x0 :: native_prefix x0 rest))) = foldl ModMul (NativeToZr x0) (NativeToZr <$> rest)) as Hl.
  { pose proof (prefix_last (NativeToZr <$> rest) (NativeToZr x0)) as Hl. rewrite <- native_prefix_map, <- fmap_cons, fmap_last in Hl.
    destruct (last (x0 :: native_prefix x0 rest)); [|done]. by injection Hl. }
  assert (prod_map NativeToZr NativeToZr <$> rev (zip (x0 :: native_prefix x0 rest) rest)
          = rev (zip (NativeToZr x0 :: prefix_products (NativeToZr x0) (NativeToZr <$> rest)) (NativeToZr <$> rest))) as ->.
  { rewrite <- native_prefix_map, <- fmap_cons. change (map (prod_map NativeToZr NativeToZr) (rev (zip (x0 :: native_prefix x0 rest) rest)) = rev (zip (NativeToZr <$> x0 :: native_prefix x0 rest) (NativeToZr <$> rest))).
    rewrite map_rev. f_equal. generalize (x0 :: native_prefix x0 rest). clear. intros l. revert rest.
    induction l as [|a l IH]; intros [|b rest]; cbn; [done..|]. f_equal. apply IH. }
  rewrite native_inv; [rewrite Hl, (backward_spec (NativeToZr <$> rest) _ _ _ H0 HF' eq_refl); by rewrite app_nil_r|].
  rewrite Hl. by apply product_nonzero.
Qed.

(** Powers of two: cached below 64, computed otherwise. *)
Fixpoint zpow (x : Zr) (n : nat) : Zr := match n with O => One | S n => x * zpow x n end.

Definition NumBits : nat := 64.

Definition PowerOfTwo {NA : Native} (i : nat) : Zr :=
  if cached_curve && (i <? NumBits)%nat then zpow Two i else PowMod Two (NewZrFromUint64 (Z.of_nat i)).

(** [SumOfPowersOfTwo]: only the sums of 1 to 64 powers are cached, on the
    cached curves; any other argument panics. *)
Definition SumOfPowersOfTwo {NA : Native} (n : nat) : res Zr :=
  if cached_curve && ((1 <=? n) && (n <=? NumBits))%nat then Ok (zsum (zpow Two <$> seq 0 n)) else Panic.

(** ** Hashing points (crypto/common/array.go, core/common/crypto) *)

Definition AppendFixed32 (dst : bytes) (s : list bytes) : res bytes :=
  foldl (fun acc v => dst ← acc; if (4294967295 <? zlen v)%Z then Panic else Ok (dst ++ le_bytes 4 (zlen v) ++ v)) (Ok dst) s.

Fixpoint G1Array_raw (a : list (option G1)) : res (list bytes) :=
  match a with
  | [] => Ok []
  | None :: _ => Err (EMsg "failed to marshal array of G1")
  | Some e :: a => l ← G1Array_raw a; Ok (G1_Bytes e :: l)
  end.

Definition G1Array_Bytes (a : list (option G1)) : res bytes :=
  raw ← G1Array_raw a;
  AppendFixed32 [] raw.

(** ** Transcripts (crypto/common/transcript.go); the state is [fsState] *)

Definition InitHasherWithDomain (domainSeparator : bytes) : bytes := sha256 domainSeparator.
Definition Absorb (fsState hashBytes : bytes) : bytes := sha256 (fsState ++ hashBytes).

Definition Squeeze (fsState : bytes) : Zr * bytes :=
  let x := HashToZr (tlv tagOctetString fsState) in (x, Absorb fsState (Zr_Bytes x)).

End Scalars.


#[global] Arguments Absorb : simpl never.
#[global] Arguments Squeeze : simpl never.

(** ** A concrete curve

    The laws hold in the field of five elements, taken as its own group with
    scalar multiplication; its hash never yields zero. *)
Module F5.

Inductive F := f0 | f1 | f2 | f3 | f4.

Definition of_Z (n : Z) : F :=
  let r := (n `mod` 5)%Z in
  if (r =? 0)%Z then f0 else if (r =? 1)%Z then f1 else if (r =? 2)%Z then f2 else if (r =? 3)%Z then f3 else f4.
Definition to_Z (x : F) : Z := match x with f0 => 0 | f1 => 1 | f2 => 2 | f3 => 3 | f4 => 4 end.

#[export] Instance F_eq_dec : EqDecision F.
Proof. solve_decision. Defined.

Definition add (a b : F) : F := of_Z (to_Z a + to_Z b).
Definition sub (a b : F) : F := of_Z (to_Z a - to_Z b).
Definition mul (a b : F) : F := of_Z (to_Z a * to_Z b).
Definition neg (a : F) : F := of_Z (- to_Z a).
Definition inv (a : F) : F := mul a (mul a a).
Definition dot (l r : list F) : F := foldr add f0 (zip_with mul l r).
Definition bytes_of (a : F) : bytes := [z2b (to_Z a)].
Definition of_bytes (b : bytes) : F := of_Z (foldr (fun x n => b2z x + n)%Z 0%Z b).

(** Hashes to one of the four non-zero elements. *)
Definition hash (b : bytes) : F :=
  let n := (foldr (fun x n => b2z x + n)%Z 0%Z b `mod` 4)%Z in of_Z (1 + n).

#[export] Instance curve : Curve := {|
  Zr := F; G1 := F; Zr_eq_dec := F_eq_dec; G1_eq_dec := F_eq_dec;
  NewZrFromUint64 := of_Z; ModAdd := add; ModSub := sub; ModMul := mul; Neg := neg; InvModOrder := inv;
  PowMod x e := of_Z (to_Z x ^ to_Z e); ModAddMul := dot; ModAddMul2 a b c d := add (mul a b) (mul c d);
  NewG1 := f0; G1_Add := add; G1_Sub := sub; G1_Mul := mul; Mul2 g a h b := add (mul g a) (mul h b);
  MultiScalarMul := dot; Zr_Bytes := bytes_of; G1_Bytes := bytes_of; HashToZr := hash;
|}.

#[export] Instance native : Native := {|
  GroupOrder_CurveID := BN254; Fr := F; Fr_Add := add; Fr_Sub := sub; Fr_Mul := mul; Fr_Inverse := inv;
  Fr_One := f1; Fr_Zero := f0; Fr_SetInt64 := of_Z; Fr_SetBigInt := of_Z; Fr_Bytes := bytes_of;
  Zr_BigInt := to_Z; NewZrFromBytes := of_bytes;
|}.

Lemma of_Z_succ n : of_Z (n + 1) = add (of_Z n) f1.
Proof.
  unfold add, of_Z at 1 3. pose proof (Z.mod_pos_bound n 5 ltac:(lia)) as Hb. rewrite (Z.add_mod n 1 5) by lia.
  set (r := (n `mod` 5)%Z) in *. assert (r = 0 \/ r = 1 \/ r = 2 \/ r = 3 \/ r = 4)%Z as Hr by lia.
  by destruct Hr as [->|[->|[->|[->| ->]]]].
Qed.

#[export] Instance laws : CurveLaws.
Proof.
  split.
  - split; intros; repeat match goal with x : Zr |- _ => destruct x end; reflexivity.
  - intros []; intros H; try reflexivity. by destruct H.
  - done.
  - intros n _. apply of_Z_succ.
  - by intros [].
  - done.
  - done.
  - by intros [] [] [].
  - by intros [] [].
  - by intros [].
  - by intros [] [].
  - by intros [] [] [].
  - by intros [] [] [].
  - by intros [] [] [].
  - by intros [].
  - by intros [].
  - done.
  - done.
  - intros []; cbn; unfold zlen; cbn; lia.
Qed.

#[export] Instance native_laws : NativeLaws.
Proof.
  split; try done; try (by intros []); try (by intros [] []).
Qed.

Lemma hash_nonzero b : hash b <> f0.
Proof.
  unfold hash. pose proof (Z.mod_pos_bound (foldr (fun x n => b2z x + n)%Z 0%Z b) 4 ltac:(lia)) as Hb.
  set (r := (_ `mod` 4)%Z) in *. assert (r = 0 \/ r = 1 \/ r = 2 \/ r = 3)%Z as Hr by lia.
  by destruct Hr as [->|[->|[->| ->]]].
Qed.

End F5.
