(* ===== verification/ZkIpa.v ===== *)
(** * The inner-product argument (crypto/rp/bulletproof/ipa.go, ipa_native.go)

    The prover and the verifier of the logarithmic inner-product argument, with
    the native and the generic field arithmetic the curve selects.  The state a
    run threads is the Fiat-Shamir transcript.  The module shows that the
    butterfly that computes the folded scalars is the recursive definition, that
    the two arithmetics agree, and that an honest proof is accepted. *)

From S2P Require Import Prelude GoStd Asn1 ZkMath.
From Stdlib Require Import ZArith Lia Ring.

(** [IPA]: the fields a decoded proof may leave nil are options. *)
Record IPA `{!Curve} := {
  ipa_Left : option Zr;
  ipa_Right : option Zr;
  ipa_L : list (option G1);
  ipa_R : list (option G1);
}.

(** ** The butterfly *)

Section Butterfly.
Context {T : Type} (mul : T -> T -> T).

(** One entry: [s[i+halfLen] = s[i] * c; s[i] = s[i] * cInv]. *)
Definition butterfly_entry (halfLen : nat) (c cInv : T) (s : list T) (i : nat) : res (list T) :=
  si ← index s i;
  s ← set_index s (i + halfLen) (mul si c);
  set_index s i (mul si cInv).

(** One round on both vectors; the factors of [sInv] are swapped. *)
Definition butterfly_round (challenges challengeInvs : list T) (st : list T * list T) (r : nat) : res (list T * list T) :=
  let log2n := length challenges in
  c ← index challenges (log2n - 1 - r);
  cInv ← index challengeInvs (log2n - 1 - r);
  foldR (fun '(s, sInv) i =>
    s ← butterfly_entry (2 ^ r) c cInv s i;
    sInv ← butterfly_entry (2 ^ r) cInv c sInv i;
    Ok (s, sInv)) st (seq 0 (2 ^ r)).

Definition butterfly (n : nat) (zero one : T) (challenges challengeInvs : list T) : res (list T * list T) :=
  s ← set_index (replicate n zero) 0 one;
  foldR (butterfly_round challenges challengeInvs) (s, s) (seq 0 (length challenges)).

End Butterfly.

Section Ipa.
Context {CO : Curve} {NA : Native}.
Local Open Scope zr_scope.

Definition nativeComputeSVector (n : nat) (challenges : list Zr) : res (list Zr * list Zr) :=
  let cNative : list Fr := SetNativeFromZr <$> challenges in
  let cInvNative : list Fr := Fr_Inverse <$> cNative in
  '(s, sInv) ← butterfly Fr_Mul n Fr_Zero Fr_One cNative cInvNative;
  Ok (map NativeToZr s, map NativeToZr sInv).

Definition ComputeSVector (n : nat) (challenges : list Zr) : res (list Zr * list Zr) :=
  if negb (2 ^ length challenges =? n)%nat then Panic else
  let '(isBLS, isBN254) := DispatchCurve in
  if isBLS || isBN254 then nativeComputeSVector n challenges else
  butterfly ModMul n (NewZrFromUint64 0) One challenges (BatchInverse challenges).

(** ** Folding vectors *)

Definition nativeReduceVectors (lft rgt : list Zr) (x xInv : Zr) : res (list Zr * list Zr) :=
  let l := (length lft / 2)%nat in
  let xE := SetNativeFromZr x in
  let xInvE := SetNativeFromZr xInv in
  ps ← mapM (fun i =>
    li ← index lft i; liHalf ← index lft (i + l);
    ri ← index rgt i; riHalf ← index rgt (i + l);
    Ok (NativeToZr (Fr_Add (Fr_Mul (SetNativeFromZr li) xE) (Fr_Mul (SetNativeFromZr liHalf) xInvE)),
        NativeToZr (Fr_Add (Fr_Mul (SetNativeFromZr ri) xInvE) (Fr_Mul (SetNativeFromZr riHalf) xE)))) (seq 0 l);
  Ok (ps.*1, ps.*2).

Definition reduceVectors (lft rgt : list Zr) (x xInv : Zr) : res (list Zr * list Zr) :=
  let '(isBLS, isBN254) := DispatchCurve in
  if isBLS || isBN254 then nativeReduceVectors lft rgt x xInv else
  let l := (length lft / 2)%nat in
  ps ← mapM (fun i =>
    li ← index lft i; liHalf ← index lft (i + l);
    ri ← index rgt i; riHalf ← index rgt (i + l);
    Ok (ModAddMul2 li x liHalf xInv, ModAddMul2 ri xInv riHalf x)) (seq 0 l);
  Ok (ps.*1, ps.*2).

Definition CommitVector (lft rgt : list Zr) (leftgen rightgen : list G1) : G1 :=
  MultiScalarMul (leftgen ++ rightgen) (lft ++ rgt).

Definition CommitVectorPlusOne (lft rgt : list Zr) (leftgen rightgen : list G1) (a : Zr) (b : G1) : G1 :=
  MultiScalarMul (leftgen ++ rightgen ++ [b]) (lft ++ rgt ++ [a]).

(** ** The prover *)

Record ipaProver := {
  ipp_rightVector : list Zr;
  ipp_leftVector : list Zr;
  ipp_InnerProduct : Zr;
  ipp_Q : G1;
  ipp_RightGenerators : list G1;
  ipp_LeftGenerators : list G1;
  ipp_Commitment : G1;
  ipp_NumberOfRounds : nat;
}.

(** The four slices one iteration of the inner loop appends to. *)
Definition round_terms (p : ipaProver) (lft rgt s sInv : list Zr) (n_current m j : nat)
    : res ((list G1 * list Zr) * (list G1 * list Zr)) :=
  let idxG_R := (j + (2 * m + 1) * n_current)%nat in
  let idxH_L := (j + 2 * m * n_current)%nat in
  gR ← index (ipp_LeftGenerators p) idxG_R;
  hL ← index (ipp_RightGenerators p) idxH_L;
  lj ← index lft j; sm ← index s m;
  rj' ← index rgt (n_current + j); sim ← index sInv m;
  let idxG_L := (j + 2 * m * n_current)%nat in
  let idxH_R := (j + (2 * m + 1) * n_current)%nat in
  gL ← index (ipp_LeftGenerators p) idxG_L;
  hR ← index (ipp_RightGenerators p) idxH_R;
  lj' ← index lft (n_current + j);
  rj ← index rgt j;
  Ok (([gR; hL], [lj * sm; rj' * sim]), ([gL; hR], [lj' * sm; rj * sim])).

(** The locals of [reduce] that survive an iteration: the transcript, the
    vectors, [LArray], [RArray], [xList] and [com]. *)
Record reduce_state := {
  rs_transcript : bytes;
  rs_left : list Zr;
  rs_right : list Zr;
  rs_LArray : list G1;
  rs_RArray : list G1;
  rs_xList : list Zr;
  rs_com : G1;
}.

(** [lft[n_current:]] panics when [n_current] is past the end. *)
Definition slice_from {A} (l : list A) (i : nat) : res (list A) :=
  if (i <=? length l)%nat then Ok (drop i l) else Panic.
Definition slice_to {A} (l : list A) (i : nat) : res (list A) :=
  if (i <=? length l)%nat then Ok (take i l) else Panic.

Definition reduce_round (p : ipaProver) (X : G1) (st : reduce_state) (i : nat) : res reduce_state :=
  let lft := rs_left st in
  let rgt := rs_right st in
  let n_current := (length lft / 2)%nat in
  l_lo ← slice_to lft n_current; r_hi ← slice_from rgt n_current;
  let leftIP := InnerProduct l_lo r_hi in
  l_hi ← slice_from lft n_current; r_lo ← slice_to rgt n_current;
  let rightIP := InnerProduct l_hi r_lo in
  '(s, sInv) ← (if (i =? 0)%nat then Ok ([One], [One]) else ComputeSVector (2 ^ i) (rs_xList st));
  terms ← mapM (fun m => mapM (round_terms p lft rgt s sInv n_current m) (seq 0 n_current)) (seq 0 (2 ^ i));
  let terms := concat terms in
  let Li := MultiScalarMul (concat terms.*1.*1 ++ [X]) (concat terms.*1.*2 ++ [leftIP]) in
  let Ri := MultiScalarMul (concat terms.*2.*1 ++ [X]) (concat terms.*2.*2 ++ [rightIP]) in
  let tr := Absorb (Absorb (rs_transcript st) (G1_Bytes Li)) (G1_Bytes Ri) in
  let '(x, tr) := Squeeze tr in
  let xInv := InvModOrder x in
  '(lft, rgt) ← reduceVectors lft rgt x xInv;
  let xSquare := x * x in
  let xSquareInv := InvModOrder xSquare in
  Ok {| rs_transcript := tr; rs_left := lft; rs_right := rgt;
        rs_LArray := rs_LArray st ++ [Li]; rs_RArray := rs_RArray st ++ [Ri];
        rs_xList := rs_xList st ++ [x];
        rs_com := (Mul2 Li xSquare Ri xSquareInv + rs_com st)%g1 |}.

Definition reduce (p : ipaProver) (X com : G1) (tr : bytes) : res (Zr * Zr * list G1 * list G1 * bytes) :=
  st ← foldR (reduce_round p X)
         {| rs_transcript := tr; rs_left := ipp_leftVector p; rs_right := ipp_rightVector p;
            rs_LArray := []; rs_RArray := []; rs_xList := []; rs_com := com |}
         (seq 0 (ipp_NumberOfRounds p));
  l0 ← index (rs_left st) 0;
  r0 ← index (rs_right st) 0;
  Ok (l0, r0, rs_LArray st, rs_RArray st, rs_transcript st).

(** The first challenge: the basis, the commitment and the claimed product are
    absorbed first.  [None] is a nil transcript. *)
Definition ipa_first (LeftGenerators RightGenerators : list G1) (Q Commitment : G1) (product : Zr) (tr : bytes) : res (Zr * bytes) :=
  genBytes ← G1Array_Bytes (Some <$> (RightGenerators ++ LeftGenerators ++ [Q; Commitment]));
  Ok (Squeeze (Absorb (Absorb tr genBytes) (Zr_Bytes product))).

Definition ipaProver_Prove (p : ipaProver) (Transcript : option bytes) : res (IPA * bytes) :=
  match Transcript with
  | None => Err (EMsg "invalid IPA prover: nil transcript")
  | Some tr =>
      '(x, tr) ← ipa_first (ipp_LeftGenerators p) (ipp_RightGenerators p) (ipp_Q p) (ipp_Commitment p) (ipp_InnerProduct p) tr;
      let C := (ipp_Q p ⋅ (x * ipp_InnerProduct p)%zr + ipp_Commitment p)%g1 in
      let X := (ipp_Q p ⋅ x)%g1 in
      '(lft, rgt, LArray, RArray, tr) ← reduce p X C tr;
      Ok ({| ipa_Left := Some lft; ipa_Right := Some rgt; ipa_L := Some <$> LArray; ipa_R := Some <$> RArray |}, tr)
  end.

(** ** The verifier *)

Record ipaVerifier := {
  ipv_InnerProduct : Zr;
  ipv_Q : G1;
  ipv_RightGenerators : list G1;
  ipv_LeftGenerators : list G1;
  ipv_Commitment : G1;
  ipv_NumberOfRounds : nat;
}.

(** The loop over the rounds: the transcript is replayed and the challenge of
    each round collected. *)
Fixpoint replay_rounds (tr : bytes) (Ls Rs : list (option G1)) : res (list Zr * bytes) :=
  match Ls, Rs with
  | Some l :: Ls, Some r :: Rs =>
      let '(x, tr) := Squeeze (Absorb (Absorb tr (G1_Bytes l)) (G1_Bytes r)) in
      '(xs, tr) ← replay_rounds tr Ls Rs;
      Ok (x :: xs, tr)
  | [], [] => Ok ([], tr)
  | _, _ => Err (EMsg "invalid IPA proof: nil elements")
  end.

Definition ipaVerifier_Verify (v : ipaVerifier) (proof : IPA) (Transcript : option bytes) : res bytes :=
  match ipa_Left proof, ipa_Right proof with
  | Some lft, Some rgt =>
    if negb (length (ipa_L proof) =? length (ipa_R proof))%nat || negb (length (ipa_L proof) =? ipv_NumberOfRounds v)%nat
    then Err (EMsg "invalid IPA proof") else
    if negb (length (ipv_LeftGenerators v) =? 2 ^ ipv_NumberOfRounds v)%nat
       || negb (length (ipv_LeftGenerators v) =? length (ipv_RightGenerators v))%nat
    then Err (EMsg "invalid IPA verifier: generator count does not match 2^NumberOfRounds") else
    match Transcript with
    | None => Err (EMsg "invalid IPA verifier: nil transcript")
    | Some tr =>
        '(x, tr) ← ipa_first (ipv_LeftGenerators v) (ipv_RightGenerators v) (ipv_Q v) (ipv_Commitment v) (ipv_InnerProduct v) tr;
        let C := (ipv_Q v ⋅ (x * ipv_InnerProduct v)%zr + ipv_Commitment v)%g1 in
        let X := (ipv_Q v ⋅ x)%g1 in
        '(xList, tr) ← replay_rounds tr (ipa_L proof) (ipa_R proof);
        let xSquareList : list Zr := (fun x => Neg (x * x)) <$> xList in
        let xSquareInvList : list Zr := (fun x => Neg (InvModOrder (x * x))) <$> xList in
        '(s, sInv) ← ComputeSVector (2 ^ ipv_NumberOfRounds v) xList;
        let s : list Zr := (fun si => si * lft) <$> s in
        let sInv : list Zr := (fun si => si * rgt) <$> sInv in
        let generators := ipv_LeftGenerators v ++ ipv_RightGenerators v ++ omap id (ipa_L proof) ++ omap id (ipa_R proof) ++ [X] in
        let scalars := s ++ sInv ++ xSquareList ++ xSquareInvList ++ [lft * rgt] in
        if decide (MultiScalarMul generators scalars = C) then Ok tr else Err (EMsg "invalid IPA")
    end
  | _, _ => Err (EMsg "invalid IPA proof: nil elements")
  end.

End Ipa.

(** ** The butterfly computes the folded scalars *)

(** The scalar of every generator after folding with the pairs [(x, 1/x)]: the
    first challenge is the highest bit of the index. *)
Fixpoint sv {T} (mul : T -> T -> T) (one : T) (xs : list (T * T)) : list T :=
  match xs with
  | [] => [one]
  | (x, xInv) :: xs => ((fun a => mul a xInv) <$> sv mul one xs) ++ ((fun a => mul a x) <$> sv mul one xs)
  end.

Definition flip_pair {T} (p : T * T) : T * T := (p.2, p.1).

Lemma length_sv {T} (mul : T -> T -> T) one xs : length (sv mul one xs) = (2 ^ length xs)%nat.
Proof. induction xs as [|[x xi] xs IH]; [done|]. cbn [sv length]. rewrite length_app, !length_fmap, IH, Nat.pow_succ_r'. lia. Qed.

Lemma foldR_pair {A B C} (f : A -> C -> res A) (g : B -> C -> res B) l : forall s t s' t',
  foldR f s l = Ok s' -> foldR g t l = Ok t' ->
  foldR (fun '(s, t) i => s ← f s i; t ← g t i; Ok (s, t)) (s, t) l = Ok (s', t').
Proof.
  induction l as [|i l IH]; intros s t s' t'; cbn [foldR]; [naive_solver|].
  intros (s1 & Hs & Hs')%res_bind_Ok (t1 & Ht & Ht')%res_bind_Ok. rewrite Hs. cbn. rewrite Ht. cbn. by apply IH.
Qed.

Section ButterflySpec.
Context {T : Type} (mul : T -> T -> T).

Lemma entries_spec (half : nat) (c ci : T) (s : list T) k : (k <= half)%nat -> (2 * half <= length s)%nat ->
  exists s', foldR (butterfly_entry mul half c ci) s (seq 0 k) = Ok s' /\ length s' = length s /\
    forall j, s' !! j = (if (j <? k)%nat then (fun a => mul a ci) <$> s !! j
                         else if ((half <=? j) && (j <? half + k))%nat then (fun a => mul a c) <$> s !! (j - half)%nat
                         else s !! j).
Proof.
  intros Hk Hs. induction k as [|k IH].
  { exists s. repeat split. intros j. destruct (Nat.leb_spec half j), (Nat.ltb_spec j (half + 0)); cbn; [lia|done..]. }
  destruct IH as (s1 & H1 & Hlen & Hl); [lia|]. rewrite seq_S, foldR_app, H1. cbn [mbind res_mbind foldR].
  destruct (lookup_lt_is_Some_2 s k) as [a Ha]; [lia|].
  assert (s1 !! k = Some a) as Hka.
  { rewrite Hl, Nat.ltb_irrefl. destruct (Nat.leb_spec half k); [lia|]. done. }
  unfold butterfly_entry, index, set_index. cbn [Nat.add]. rewrite Hka. cbn [mbind res_mbind].
  destruct (Nat.ltb_spec (k + half) (length s1)); [|lia]. cbn [mbind res_mbind]. rewrite length_insert.
  destruct (Nat.ltb_spec k (length s1)); [|lia]. cbn [mbind res_mbind]. eexists. split; [reflexivity|]. rewrite !length_insert. split; [done|]. intros j.
  destruct (decide (j = k)) as [->|Hj].
  { rewrite list_lookup_insert_eq by (rewrite length_insert; lia). destruct (Nat.ltb_spec k (S k)); [|lia]. by rewrite Ha. }
  rewrite list_lookup_insert_ne by done. destruct (decide (j = k + half)%nat) as [->|Hj'].
  { rewrite list_lookup_insert_eq by lia. destruct (Nat.ltb_spec (k + half) (S k)); [lia|].
    destruct (Nat.leb_spec half (k + half)); [|lia]. destruct (Nat.ltb_spec (k + half) (half + S k)); [|lia]. cbn [andb].
    replace (k + half - half)%nat with k by lia. by rewrite Ha. }
  rewrite list_lookup_insert_ne by done. rewrite Hl.
  destruct (Nat.ltb_spec j k), (Nat.ltb_spec j (S k)); try lia; [done|].
  destruct (Nat.leb_spec half j); [|done]. cbn [andb]. destruct (Nat.ltb_spec j (half + k)), (Nat.ltb_spec j (half + S k)); try lia; done.
Qed.

Lemma round_vector (half : nat) (c ci : T) (s : list T) : (2 * half <= length s)%nat ->
  exists s', foldR (butterfly_entry mul half c ci) s (seq 0 half) = Ok s' /\ length s' = length s /\
    take (2 * half) s' = ((fun a => mul a ci) <$> take half s) ++ ((fun a => mul a c) <$> take half s).
Proof.
  intros Hs. destruct (entries_spec half c ci s half) as (s' & H & Hlen & Hl); [lia..|]. exists s'. split_and!; [done..|].
  apply list_eq. intros j. destruct (Nat.ltb_spec j (2 * half)).
  - rewrite lookup_take_lt by done. rewrite Hl. destruct (Nat.ltb_spec j half).
    + rewrite lookup_app_l by (rewrite length_fmap, length_take; lia). by rewrite list_lookup_fmap, lookup_take_lt.
    + destruct (Nat.leb_spec half j); [|lia]. destruct (Nat.ltb_spec j (half + half)); [|lia]. cbn.
      rewrite lookup_app_r by (rewrite length_fmap, length_take; lia).
      rewrite length_fmap, length_take, Nat.min_l by lia. rewrite list_lookup_fmap, lookup_take_lt by lia. done.
  - rewrite lookup_take_ge by done. symmetry. apply lookup_ge_None.
    rewrite length_app, !length_fmap, length_take. lia.
Qed.

Lemma butterfly_spec (zero one : T) (ch inv : list T) : length inv = length ch ->
  butterfly mul (2 ^ length ch) zero one ch inv
  = Ok (sv mul one (zip ch inv), sv mul one (flip_pair <$> zip ch inv)).
Proof.
  intros Hinv. set (k := length ch). set (ps := zip ch inv). unfold butterfly, set_index. rewrite length_replicate.
  pose proof (Nat.pow_nonzero 2 k ltac:(lia)) as Hpos. destruct (Nat.ltb_spec 0 (2 ^ k)); [|lia]. cbn [mbind res_mbind].
  set (s0 := <[0 := one]> (replicate (2 ^ k) zero)).
  assert (forall r, (r <= k)%nat -> exists s t, foldR (butterfly_round mul ch inv) (s0, s0) (seq 0 r) = Ok (s, t) /\
            length s = (2 ^ k)%nat /\ length t = (2 ^ k)%nat /\
            take (2 ^ r) s = sv mul one (drop (k - r) ps) /\ take (2 ^ r) t = sv mul one (flip_pair <$> drop (k - r) ps)) as Hall.
  { induction r as [|r IH]; intros Hr.
    - exists s0, s0. split; [done|]. assert (length ps = k) as Hps by (unfold ps; rewrite length_zip_with; lia).
      rewrite Nat.sub_0_r, drop_ge by lia. unfold s0. rewrite length_insert, length_replicate.
      destruct (2 ^ k)%nat; [lia|]. done.
    - destruct IH as (s & t & Hf & Hs & Ht & Hsv & Htv); [lia|].
      destruct (lookup_lt_is_Some_2 ch (k - 1 - r)) as [c Hc]; [lia|].
      destruct (lookup_lt_is_Some_2 inv (k - 1 - r)) as [ci Hci]; [lia|].
      assert (2 * 2 ^ r <= 2 ^ k)%nat as Hpow by (rewrite <- Nat.pow_succ_r'; apply Nat.pow_le_mono_r; lia).
      destruct (round_vector (2 ^ r) c ci s) as (s' & Hs' & Hls & Hts); [lia|].
      destruct (round_vector (2 ^ r) ci c t) as (t' & Ht' & Hlt & Htt); [lia|].
      exists s', t'. rewrite seq_S, foldR_app, Hf. cbn [mbind res_mbind foldR Nat.add].
      assert (drop (k - S r) ps = (c, ci) :: drop (k - r) ps) as Hd.
      { replace (k - r)%nat with (S (k - S r)) by lia. apply drop_S.
        unfold ps. rewrite lookup_zip_with. replace (k - S r)%nat with (k - 1 - r)%nat by lia. by rewrite Hc, Hci. }
      split; [|split_and!; [lia|lia|..]].
      + unfold butterfly_round at 1. fold k. rewrite (index_Some _ _ _ Hc), (index_Some _ _ _ Hci). cbn [mbind res_mbind].
        rewrite (foldR_pair _ _ _ _ _ _ _ Hs' Ht'). done.
      + rewrite Nat.pow_succ_r', Hts, Hsv, Hd. done.
      + rewrite Nat.pow_succ_r', Htt, Htv, Hd. done. }
  destruct (Hall k) as (s & t & Hf & Hs & Ht & Hsv & Htv); [lia|].
  rewrite Nat.sub_diag, take_ge in Hsv, Htv by lia. change (foldR (butterfly_round mul ch inv) (s0, s0) (seq 0 k) = Ok (sv mul one ps, sv mul one (flip_pair <$> ps))). rewrite Hf, Hsv, Htv. done.
Qed.

End ButterflySpec.

(** ** Folding generators *)

Section IpaProofs.
Context {CO : Curve} {CL : CurveLaws} {NA : Native} {NL : NativeLaws}.
Add Ring zr3 : zr_ring.
Local Open Scope zr_scope.

Abbreviation svz := (sv ModMul One).

(** The challenges of the rounds with their inverses. *)
Definition with_inv (xs : list Zr) : list (Zr * Zr) := (fun x => (x, InvModOrder x)) <$> xs.

Lemma zip_with_inv xs : zip xs (InvModOrder <$> xs) = with_inv xs.
Proof. induction xs as [|x xs IH]; cbn; [done|]. by f_equal. Qed.

Lemma sv_native ps :
  NativeToZr <$> sv Fr_Mul Fr_One ps = svz (prod_map NativeToZr NativeToZr <$> ps).
Proof.
  induction ps as [|[x xi] ps IH]; [cbn; by rewrite native_one|]. cbn [sv fmap list_fmap prod_map fst snd].
  rewrite fmap_app. fold (fmap (M := list) (prod_map NativeToZr NativeToZr) ps). rewrite <- IH.
  f_equal; rewrite <- !list_fmap_compose; apply list_fmap_ext; intros ? ? _; apply native_mul.
Qed.

Lemma native_pairs xs : Forall (fun x => x <> Zero) xs ->
  prod_map NativeToZr NativeToZr <$> zip (SetNativeFromZr <$> xs) (Fr_Inverse <$> (SetNativeFromZr <$> xs)) = with_inv xs.
Proof.
  induction 1 as [|x xs Hx _ IH]; cbn; [done|]. rewrite native_set, native_inv, native_set by by rewrite native_set. by f_equal.
Qed.

Lemma ComputeSVector_spec xs : Forall (fun x => x <> Zero) xs ->
  ComputeSVector (2 ^ length xs) xs = Ok (svz (with_inv xs), svz (flip_pair <$> with_inv xs)).
Proof.
  intros Hxs. unfold ComputeSVector. rewrite Nat.eqb_refl. cbn [negb].
  assert (nativeComputeSVector (2 ^ length xs) xs = Ok (svz (with_inv xs), svz (flip_pair <$> with_inv xs))) as Hn.
  { unfold nativeComputeSVector. rewrite <- (length_fmap SetNativeFromZr xs). rewrite butterfly_spec by by rewrite !length_fmap.
    cbn [mbind res_mbind]. fold (fmap (M := list) (B := Zr) (A := Fr)).
    change (Ok (NativeToZr <$> sv Fr_Mul Fr_One (zip (SetNativeFromZr <$> xs) (Fr_Inverse <$> (SetNativeFromZr <$> xs))),
                NativeToZr <$> sv Fr_Mul Fr_One (flip_pair <$> zip (SetNativeFromZr <$> xs) (Fr_Inverse <$> (SetNativeFromZr <$> xs))))
            = Ok (svz (with_inv xs), svz (flip_pair <$> with_inv xs))).
    rewrite !sv_native, <- !(native_pairs xs Hxs), <- !list_fmap_compose. do 3 f_equal. }
  assert (butterfly ModMul (2 ^ length xs) (NewZrFromUint64 0) One xs (BatchInverse xs)
          = Ok (svz (with_inv xs), svz (flip_pair <$> with_inv xs))) as Hg.
  { rewrite BatchInverse_map by done. rewrite butterfly_spec by by rewrite length_fmap. by rewrite zip_with_inv. }
  destruct DispatchCurve as [[] []]; done.
Qed.

(** Folding a vector of scalars and a vector of points with [x]. *)
Definition fold_z (x xi : Zr) (l : list Zr) : list Zr :=
  let h := (length l / 2)%nat in zip_with (fun a b => a * x + b * xi) (take h l) (drop h l).
Definition fold_g (x xi : Zr) (g : list G1) : list G1 :=
  let h := (length g / 2)%nat in zip_with (fun a b => a ⋅ xi + b ⋅ x)%g1 (take h g) (drop h g).

Lemma half_double h : (2 * h / 2 = h)%nat.
Proof. rewrite Nat.mul_comm. by apply Nat.div_mul. Qed.

Lemma length_fold_z x xi l h : length l = (2 * h)%nat -> length (fold_z x xi l) = h.
Proof. intros H. unfold fold_z. rewrite H, half_double, length_zip_with, length_take, length_drop. lia. Qed.

Lemma length_fold_g x xi g h : length g = (2 * h)%nat -> length (fold_g x xi g) = h.
Proof. intros H. unfold fold_g. rewrite H, half_double, length_zip_with, length_take, length_drop. lia. Qed.

Lemma fold_z_lookup x xi l h i z : length l = (2 * h)%nat -> fold_z x xi l !! i = Some z ->
  exists a b, l !! i = Some a /\ l !! (i + h)%nat = Some b /\ z = a * x + b * xi.
Proof.
  intros H. unfold fold_z. rewrite H, half_double. intros (a & b & -> & Ha & Hb)%lookup_zip_with_Some.
  apply lookup_take_Some in Ha as [Ha _]. rewrite lookup_drop in Hb. exists a, b. by rewrite (Nat.add_comm i h).
Qed.

Lemma reduceVectors_spec l r x xi h : length l = (2 * h)%nat -> length r = (2 * h)%nat ->
  reduceVectors l r x xi = Ok (fold_z x xi l, fold_z xi x r).
Proof.
  intros Hl Hr. set (ps := zip (fold_z x xi l) (fold_z xi x r)).
  assert (length ps = h) as Hps by (unfold ps; rewrite length_zip_with, (length_fold_z _ _ _ h), (length_fold_z _ _ _ h) by done; lia).
  assert (ps.*1 = fold_z x xi l /\ ps.*2 = fold_z xi x r) as [H1 H2].
  { unfold ps. rewrite fst_zip, snd_zip by (rewrite !(length_fold_z _ _ _ h) by done; lia). done. }
  assert (forall i p, ps !! i = Some p -> exists a b c d, l !! i = Some a /\ l !! (i + h)%nat = Some b /\ r !! i = Some c /\ r !! (i + h)%nat = Some d /\
            p = (a * x + b * xi, c * xi + d * x)) as Hlk.
  { intros i p (z & w & -> & Hz & Hw)%lookup_zip_with_Some.
    apply (fold_z_lookup _ _ _ h) in Hz as (a & b & Ha & Hb & ->); [|done]. apply (fold_z_lookup _ _ _ h) in Hw as (c & d & Hc & Hd & ->); [|done].
    by exists a, b, c, d. }
  unfold reduceVectors, nativeReduceVectors. rewrite Hl, half_double, <- Hps.
  destruct DispatchCurve as [isBLS isBN]. destruct (isBLS || isBN).
  all: rewrite (mapM_seq _ ps); [cbn [mbind res_mbind]; by rewrite H1, H2|]; cbn [Nat.add];
    intros i p Hp; apply Hlk in Hp as (a & b & c & d & Ha & Hb & Hc & Hd & ->); rewrite Hps;
    rewrite (index_Some _ _ _ Ha), (index_Some _ _ _ Hb), (index_Some _ _ _ Hc), (index_Some _ _ _ Hd); cbn [mbind res_mbind].
  - by rewrite !native_add, !native_mul, !native_set.
  - by rewrite !zr_addmul2.
Qed.

Lemma msm_fold_g x xi g w h : length g = (2 * h)%nat -> length w = h ->
  msm (fold_g x xi g) w = (msm (take h g) w ⋅ xi + msm (drop h g) w ⋅ x)%g1.
Proof.
  intros Hg Hw. unfold fold_g. rewrite Hg, half_double.
  rewrite <- (msm_mul_l (take h g)), <- (msm_mul_l (drop h g)), <- msm_add_l;
    rewrite ?length_fmap, ?length_take, ?length_drop; [|lia..].
  f_equal. by rewrite zip_with_fmap_l, zip_with_fmap_r.
Qed.

(** The vectors folded with all the challenges, and the scalars of the unfolded
    generators: one copy of [w] per entry of [s]. *)
Definition fold_gs (ps : list (Zr * Zr)) (g : list G1) : list G1 := foldl (fun g '(x, xi) => fold_g x xi g) g ps.
Definition kron (s w : list Zr) : list Zr := concat ((fun c => (fun a => a * c) <$> w) <$> s).

Lemma kron_scale c s w : kron ((fun a => a * c) <$> s) w = (fun a => a * c) <$> kron s w.
Proof.
  induction s as [|b s IH]; [done|]. unfold kron in *. cbn. rewrite fmap_app. f_equal; [|apply IH].
  rewrite <- list_fmap_compose. apply list_fmap_ext. intros ? ? _. cbn. ring.
Qed.

Lemma kron_app s t w : kron (s ++ t) w = kron s w ++ kron t w.
Proof. unfold kron. by rewrite fmap_app, concat_app. Qed.

Lemma kron_cons c s w : kron (c :: s) w = ((fun a => a * c) <$> w) ++ kron s w.
Proof. done. Qed.

Lemma length_kron s w : length (kron s w) = (length s * length w)%nat.
Proof. induction s as [|c s IH]; [done|]. rewrite kron_cons, length_app, length_fmap, IH. cbn. lia. Qed.

Lemma length_fold_gs ps : forall g h, length g = (2 ^ length ps * h)%nat -> length (fold_gs ps g) = h.
Proof.
  induction ps as [|[x xi] ps IH]; intros g h H; cbn [fold_gs foldl length] in *; [cbn in H; lia|].
  apply IH. apply length_fold_g. rewrite H, Nat.pow_succ_r'. lia.
Qed.

Lemma msm_fold_gs ps : forall g w, length g = (2 ^ length ps * length w)%nat ->
  msm (fold_gs ps g) w = msm g (kron (svz ps) w).
Proof.
  induction ps as [|[x xi] ps IH]; intros g w H; cbn [fold_gs foldl length sv].
  - unfold kron. cbn. rewrite app_nil_r. f_equal. symmetry. etrans; [|apply list_fmap_id]. apply list_fmap_ext. intros ? ? _. cbn. ring.
  - change (msm (fold_gs ps (fold_g x xi g)) w = msm g (kron (((fun a => a * xi) <$> svz ps) ++ ((fun a => a * x) <$> svz ps)) w)).
    set (h := (2 ^ length ps * length w)%nat).
    assert (length g = 2 * h)%nat as Hg by (rewrite H; cbn [length]; rewrite Nat.pow_succ_r'; unfold h; lia).
    assert (length (kron (svz ps) w) = h) as Hk by (rewrite length_kron, length_sv; done).
    rewrite IH by (apply length_fold_g; done). rewrite (msm_fold_g _ _ _ _ h) by done.
    rewrite kron_app, !kron_scale. rewrite <- (take_drop h g) at 3.
    rewrite msm_app by (rewrite length_fmap, length_take; lia). by rewrite !msm_scale.
Qed.

End IpaProofs.

(** ** One round of the prover *)

Section IpaRound.
Context {CO : Curve} {CL : CurveLaws} {NA : Native} {NL : NativeLaws}.
Add Ring zr4 : zr_ring.
Local Open Scope zr_scope.

(** [v] placed at offset [o] of a vector of twice its length. *)
Definition pad (o : nat) (v : list Zr) : list Zr := replicate o Zero ++ v ++ replicate (length v - o) Zero.

Lemma length_pad o v : (o <= length v)%nat -> length (pad o v) = (2 * length v)%nat.
Proof. intros. unfold pad. rewrite !length_app, !length_replicate. lia. Qed.

Lemma msm_pad g o v : (o <= length v)%nat -> length g = (2 * length v)%nat ->
  msm g (pad o v) = msm (take (length v) (drop o g)) v.
Proof.
  intros Ho Hg. unfold pad. rewrite <- (take_drop o g) at 1. rewrite msm_app by (rewrite length_replicate, length_take; lia).
  rewrite (msm_zero (take o g)) by by apply Forall_replicate. rewrite g1_zero.
  rewrite <- (take_drop (length v) (drop o g)) at 1. rewrite msm_app by (rewrite length_take, length_drop; lia).
  rewrite (msm_zero (drop (length v) (drop o g))) by by apply Forall_replicate. apply g1_zero_r.
Qed.

Lemma pad_scale o v c : (fun a => a * c) <$> pad o v = pad o ((fun a => a * c) <$> v).
Proof.
  unfold pad. rewrite !fmap_app, !fmap_replicate, length_fmap. replace (Zero * c) with Zero by ring. done.
Qed.

Lemma nth_fmap_scale v c j : nth j ((fun a => a * c) <$> v) Zero = nth j v Zero * c.
Proof.
  revert j. induction v as [|a v IH]; intros [|j]; [change (Zero = Zero * c); ring..|done|]. apply IH.
Qed.

(** The double loop of a round is one linear combination of the generators. *)
Lemma block_sum s : forall g v o, (o <= length v)%nat -> length g = (length s * (2 * length v))%nat ->
  gsum ((fun m => gsum ((fun j => nth (j + 2 * m * length v + o) g NewG1 ⋅ (nth j v Zero * nth m s Zero))%g1 <$> seq 0 (length v))) <$> seq 0 (length s))
  = msm g (kron s (pad o v)).
Proof.
  induction s as [|c s IH]; intros g v o Ho Hg; [cbn in Hg; by destruct g|].
  cbn [length seq]. rewrite fmap_cons, gsum_cons, kron_cons.
  transitivity (msm (take (2 * length v) g ++ drop (2 * length v) g) (((fun a => a * c) <$> pad o v) ++ kron s (pad o v))); [|by rewrite take_drop].
  rewrite msm_app by (rewrite length_fmap, length_pad, length_take by done; cbn in Hg; lia). f_equal.
  - rewrite pad_scale, msm_pad; rewrite ?length_fmap, ?length_take; [|lia|cbn in Hg; lia].
    assert (length (take (length v) (drop o (take (2 * length v) g))) = length v) as Hlen
      by (rewrite length_take, length_drop, length_take; cbn in Hg; lia).
    rewrite (msm_seq _ _ 0) by by rewrite length_fmap. rewrite Hlen. f_equal. apply list_fmap_ext. intros ? j Hj%list_elem_of_lookup_2%elem_of_seq.
    rewrite Nat.sub_0_r, nth_fmap_scale. f_equal. rewrite !nth_lookup, lookup_take_lt, lookup_drop, lookup_take_lt by lia.
    do 2 f_equal. lia.
  - rewrite <- (IH (drop (2 * length v) g) v o) by (rewrite ?length_drop; cbn in Hg; lia).
    rewrite <- fmap_S_seq, <- list_fmap_compose. f_equal. apply list_fmap_ext. intros ? m _. cbn. f_equal.
    apply list_fmap_ext. intros ? j _. f_equal. rewrite !nth_lookup, lookup_drop. do 2 f_equal. lia.
Qed.

(** The slices of a round, when no index is out of range. *)
Definition term (G H : list G1) (a b s sInv : list Zr) (n m j : nat) : (list G1 * list Zr) * (list G1 * list Zr) :=
  (([nth (j + (2 * m + 1) * n) G NewG1; nth (j + 2 * m * n) H NewG1],
    [nth j a Zero * nth m s Zero; nth (n + j) b Zero * nth m sInv Zero]),
   ([nth (j + 2 * m * n) G NewG1; nth (j + (2 * m + 1) * n) H NewG1],
    [nth (n + j) a Zero * nth m s Zero; nth j b Zero * nth m sInv Zero])).

Lemma round_terms_spec p a b s sInv n M :
  length a = (2 * n)%nat -> length b = (2 * n)%nat -> length s = M -> length sInv = M ->
  length (ipp_LeftGenerators p) = (M * (2 * n))%nat -> length (ipp_RightGenerators p) = (M * (2 * n))%nat ->
  mapM (fun m => mapM (round_terms p a b s sInv n m) (seq 0 n)) (seq 0 M)
  = Ok ((fun m => term (ipp_LeftGenerators p) (ipp_RightGenerators p) a b s sInv n m <$> seq 0 n) <$> seq 0 M).
Proof.
  intros Ha Hb Hs Hsi HG HH. apply mapM_pure. intros m Hm%elem_of_seq. apply mapM_pure. intros j Hj%elem_of_seq.
  assert (j + 2 * m * n < M * (2 * n) /\ j + (2 * m + 1) * n < M * (2 * n))%nat as [H1 H2] by nia.
  unfold round_terms. repeat (rewrite (index_nth _ _ NewG1) by lia; cbn [mbind res_mbind]).
  rewrite (index_nth a j Zero), (index_nth s m Zero), (index_nth b (n + j) Zero), (index_nth sInv m Zero), (index_nth a (n + j) Zero), (index_nth b j Zero) by lia.
  done.
Qed.

Lemma msm_two (p q : G1) (c d : Zr) : msm [p; q] [c; d] = (p ⋅ c + q ⋅ d)%g1.
Proof. rewrite !msm_cons. f_equal. apply g1_zero_r. Qed.

Lemma nth_drop {A} (l : list A) n j d : nth (n + j) l d = nth j (drop n l) d.
Proof. by rewrite !nth_lookup, lookup_drop. Qed.

Lemma nth_take_lt {A} (l : list A) n j d : (j < n)%nat -> nth j (take n l) d = nth j l d.
Proof. intros. by rewrite !nth_lookup, lookup_take_lt. Qed.

Lemma gsum_fmap_concat {A} (f : A -> G1) (ls : list (list A)) :
  gsum (f <$> concat ls) = gsum ((fun l => gsum (f <$> l)) <$> ls).
Proof. induction ls as [|l ls IH]; [done|]. cbn [concat]. by rewrite fmap_app, gsum_app, fmap_cons, gsum_cons, IH. Qed.

Lemma terms_sum {A} (f g : A -> G1) (ls : list (list A)) (T : A -> list G1 * list Zr) :
  (forall t, length (T t).1 = length (T t).2) -> (forall t, msm (T t).1 (T t).2 = (f t + g t)%g1) ->
  msm (concat (T <$> concat ls).*1) (concat (T <$> concat ls).*2)
  = (gsum ((fun l => gsum (f <$> l)) <$> ls) + gsum ((fun l => gsum (g <$> l)) <$> ls))%g1.
Proof.
  intros Hlen Hsum. rewrite <- !list_fmap_compose. rewrite msm_concat by done.
  transitivity (gsum (fmap (M := list) (fun t => (f t + g t)%g1) (concat ls))).
  { f_equal. apply list_fmap_ext. intros ? t _. apply Hsum. }
  by rewrite gsum_add, !gsum_fmap_concat.
Qed.

Lemma fmap_concat {A B} (f : A -> B) (ls : list (list A)) : fmap (M := list) f (concat ls) = concat (fmap (M := list) (fmap (M := list) f) ls).
Proof. induction ls as [|l ls IH]; [done|]. cbn [concat]. by rewrite fmap_app, IH. Qed.

Lemma block_sum_ext (f : nat * nat -> G1) s g v o n M : length v = n -> length s = M -> (o <= n)%nat -> length g = (M * (2 * n))%nat ->
  (forall m j, (j < n)%nat -> f (m, j) = (nth (j + 2 * m * n + o) g NewG1 ⋅ (nth j v Zero * nth m s Zero))%g1) ->
  gsum ((fun l => gsum (f <$> l)) <$> ((fun m => pair m <$> seq 0 n) <$> seq 0 M)) = msm g (kron s (pad o v)).
Proof.
  intros <- <- Ho Hg Hf. rewrite <- block_sum by done. rewrite <- list_fmap_compose. f_equal. apply list_fmap_ext. intros ? m _. cbn.
  rewrite <- list_fmap_compose. f_equal. apply list_fmap_ext. intros ? j Hj%list_elem_of_lookup_2%elem_of_seq. apply Hf. lia.
Qed.

(** The two commitments of a round, over the generators that are not folded. *)
Lemma round_points (G H : list G1) a b s sInv n M X cl cr :
  length a = (2 * n)%nat -> length b = (2 * n)%nat -> length s = M -> length sInv = M ->
  length G = (M * (2 * n))%nat -> length H = (M * (2 * n))%nat ->
  let terms := concat ((fun m => term G H a b s sInv n m <$> seq 0 n) <$> seq 0 M) in
  MultiScalarMul (concat terms.*1.*1 ++ [X]) (concat terms.*1.*2 ++ [cl])
  = (msm G (kron s (pad n (take n a))) + msm H (kron sInv (pad 0 (drop n b))) + X ⋅ cl)%g1 /\
  MultiScalarMul (concat terms.*2.*1 ++ [X]) (concat terms.*2.*2 ++ [cr])
  = (msm G (kron s (pad 0 (drop n a))) + msm H (kron sInv (pad n (take n b))) + X ⋅ cr)%g1.
Proof.
  intros Ha Hb Hs Hsi HG HH terms. set (ls := fmap (M := list) (fun m => fmap (M := list) (pair m) (seq 0 n)) (seq 0 M)).
  assert (terms = fmap (M := list) (fun mj => term G H a b s sInv n mj.1 mj.2) (concat ls)) as Ht.
  { unfold terms, ls. rewrite fmap_concat, <- list_fmap_compose. f_equal. apply list_fmap_ext. intros ? m _. cbn. by rewrite <- list_fmap_compose. }
  assert (terms.*1 = fmap (M := list) (fun mj => (term G H a b s sInv n mj.1 mj.2).1) (concat ls) /\
          terms.*2 = fmap (M := list) (fun mj => (term G H a b s sInv n mj.1 mj.2).2) (concat ls)) as [-> ->]
    by (rewrite Ht, <- !list_fmap_compose; done).
  assert (length (take n a) = n /\ length (drop n a) = n /\ length (take n b) = n /\ length (drop n b) = n) as (L1 & L2 & L3 & L4)
    by (rewrite !length_take, !length_drop; lia).
  assert (forall (T : nat * nat -> list G1 * list Zr) P Q c,
    (forall t, length (T t).1 = length (T t).2) ->
    msm (concat (T <$> concat ls).*1) (concat (T <$> concat ls).*2) = (P + Q)%g1 ->
    MultiScalarMul (concat (T <$> concat ls).*1 ++ [X]) (concat (T <$> concat ls).*2 ++ [c]) = (P + Q + X ⋅ c)%g1) as Hmsm.
  { intros T P Q c Hlen Hsum. assert (length (concat (T <$> concat ls).*1) = length (concat (T <$> concat ls).*2)) as Hl.
    { generalize (concat ls). intros l. induction l as [|t l IH]; [done|]. cbn. rewrite !length_app. f_equal; [apply Hlen|apply IH]. }
    rewrite g1_msm by (rewrite !length_app, Hl; done). rewrite msm_app by done. rewrite Hsum. f_equal. rewrite msm_cons. apply g1_zero_r. }
  split.
  - apply (Hmsm (fun mj => (term G H a b s sInv n mj.1 mj.2).1)); [done|].
    etrans; [apply terms_sum; [done|intros mj; apply msm_two]|]. unfold ls. cbn [fst snd]. f_equal.
    + apply block_sum_ext; [done|done|lia|done|]. intros m j Hj. cbn [fst snd]. rewrite nth_take_lt by done.
      do 2 f_equal. lia.
    + apply block_sum_ext; [done|done|lia|done|]. intros m j Hj. cbn [fst snd]. rewrite (nth_drop b n j).
      do 2 f_equal. lia.
  - apply (Hmsm (fun mj => (term G H a b s sInv n mj.1 mj.2).2)); [done|].
    etrans; [apply terms_sum; [done|intros mj; apply msm_two]|]. unfold ls. cbn [fst snd]. f_equal.
    + apply block_sum_ext; [done|done|lia|done|]. intros m j Hj. cbn [fst snd]. rewrite (nth_drop a n j).
      do 2 f_equal. lia.
    + apply block_sum_ext; [done|done|lia|done|]. intros m j Hj. cbn [fst snd]. rewrite nth_take_lt by done.
      do 2 f_equal. lia.
Qed.

End IpaRound.

(** ** Completeness *)

Section IpaComplete.
Context {CO : Curve} {CL : CurveLaws} {NA : Native} {NL : NativeLaws}.
Add Ring zr5 : zr_ring.
Local Open Scope zr_scope.

Abbreviation svz := (sv ModMul One).
Abbreviation nonzero := (Forall (fun x => x <> Zero)).

Lemma length_BatchInverse l : length (BatchInverse l) = length l.
Proof.
  assert (forall pairs acc out, length (backward_pass acc pairs out) = (length pairs + 1 + length out)%nat) as Hb.
  { induction pairs as [|[a b] pairs IH]; intros acc out; [done|]. cbn. rewrite IH. cbn. lia. }
  assert (forall l acc, length (prefix_products acc l) = length l) as Hp.
  { induction l0 as [|x l0 IH]; intros acc; [done|]. cbn. by rewrite IH. }
  destruct l as [|x [|y l]]; [done..|]. unfold BatchInverse. rewrite Hb, length_rev, length_zip_with. cbn [length]. rewrite Hp. cbn [length]. lia.
Qed.

(** The scalars of a round exist whatever the challenges are. *)
Lemma ComputeSVector_total xs : exists s sInv, ComputeSVector (2 ^ length xs) xs = Ok (s, sInv) /\
  length s = (2 ^ length xs)%nat /\ length sInv = (2 ^ length xs)%nat.
Proof.
  unfold ComputeSVector. rewrite Nat.eqb_refl. cbn [negb].
  assert (exists s sInv, nativeComputeSVector (2 ^ length xs) xs = Ok (s, sInv) /\
            length s = (2 ^ length xs)%nat /\ length sInv = (2 ^ length xs)%nat) as Hn.
  { unfold nativeComputeSVector. rewrite <- (length_fmap SetNativeFromZr xs). rewrite butterfly_spec by by rewrite !length_fmap.
    cbn [mbind res_mbind]. do 2 eexists. split; [done|].
    split; rewrite length_map, length_sv, ?length_fmap, length_zip_with, !length_fmap; f_equal; lia. }
  assert (exists s sInv, butterfly ModMul (2 ^ length xs) (NewZrFromUint64 0) One xs (BatchInverse xs) = Ok (s, sInv) /\
            length s = (2 ^ length xs)%nat /\ length sInv = (2 ^ length xs)%nat) as Hg.
  { rewrite butterfly_spec by apply length_BatchInverse. do 2 eexists. split; [done|].
    split; rewrite length_sv, ?length_fmap, length_zip_with, length_BatchInverse; f_equal; lia. }
  destruct DispatchCurve as [[] []]; done.
Qed.

Lemma round_scalars xs : exists s sInv,
  (if (length xs =? 0)%nat then Ok ([One], [One]) else ComputeSVector (2 ^ length xs) xs) = Ok (s, sInv) /\
  length s = (2 ^ length xs)%nat /\ length sInv = (2 ^ length xs)%nat /\
  (nonzero xs -> s = svz (with_inv xs) /\ sInv = svz (flip_pair <$> with_inv xs)).
Proof.
  destruct (Nat.eqb_spec (length xs) 0) as [E|_].
  { destruct xs; [|done]. by exists [One], [One]. }
  destruct (ComputeSVector_total xs) as (s & sInv & H & Hs & Hsi). exists s, sInv. split_and!; [done..|].
  intros Hnz. rewrite ComputeSVector_spec in H by done. by injection H.
Qed.

(** The generators folded with the challenges so far. *)
Definition folded (xs : list Zr) (g : list G1) : list G1 := fold_gs (with_inv xs) g.
Definition folded' (xs : list Zr) (h : list G1) : list G1 := fold_gs (flip_pair <$> with_inv xs) h.

Lemma reduce_round_spec p X st n :
  let xs := rs_xList st in let a := rs_left st in let b := rs_right st in
  length a = (2 * n)%nat -> length b = (2 * n)%nat ->
  length (ipp_LeftGenerators p) = (2 ^ length xs * (2 * n))%nat -> length (ipp_RightGenerators p) = (2 ^ length xs * (2 * n))%nat ->
  exists Li Ri com x tr,
    Squeeze (Absorb (Absorb (rs_transcript st) (G1_Bytes Li)) (G1_Bytes Ri)) = (x, tr) /\
    reduce_round p X st (length xs) = Ok {| rs_transcript := tr; rs_left := fold_z x (InvModOrder x) a; rs_right := fold_z (InvModOrder x) x b;
      rs_LArray := rs_LArray st ++ [Li]; rs_RArray := rs_RArray st ++ [Ri]; rs_xList := xs ++ [x]; rs_com := com |} /\
    (nonzero xs ->
      let G := folded xs (ipp_LeftGenerators p) in let H := folded' xs (ipp_RightGenerators p) in
      Li = (msm (drop n G) (take n a) + msm (take n H) (drop n b) + X ⋅ ip (take n a) (drop n b))%g1 /\
      Ri = (msm (take n G) (drop n a) + msm (drop n H) (take n b) + X ⋅ ip (drop n a) (take n b))%g1).
Proof.
  intros xs a b Ha Hb HG HH. destruct (round_scalars xs) as (s & sInv & Hsv & Hs & Hsi & Hnz).
  pose proof (round_points _ _ a b s sInv n (2 ^ length xs) X (ip (take n a) (drop n b)) (ip (drop n a) (take n b)) Ha Hb Hs Hsi HG HH) as [HL HR].
  unfold reduce_round. fold xs a b. rewrite Ha, half_double. unfold slice_to, slice_from. rewrite Ha, Hb.
  destruct (Nat.leb_spec n (2 * n)); [|lia]. cbn [mbind res_mbind]. rewrite Hsv. cbn [mbind res_mbind].
  rewrite (round_terms_spec p a b s sInv n (2 ^ length xs)) by done. cbn [mbind res_mbind].
  unfold InnerProduct. rewrite !zr_addmul by (rewrite length_take, length_drop; lia). rewrite HL, HR.
  destruct (Squeeze _) as [x tr] eqn:Esq. rewrite (reduceVectors_spec _ _ _ _ n) by done. cbn [mbind res_mbind].
  do 5 eexists. split; [exact Esq|]. split; [reflexivity|]. intros Hz. destruct (Hnz Hz) as [-> ->].
  assert (length (take n a) = n /\ length (drop n a) = n /\ length (take n b) = n /\ length (drop n b) = n) as (L1 & L2 & L3 & L4)
    by (rewrite !length_take, !length_drop; lia).
  assert (length (with_inv xs) = length xs) as Lw by apply length_fmap.
  assert (length (flip_pair <$> with_inv xs) = length xs) as Lf by by rewrite !length_fmap.
  assert (length (folded xs (ipp_LeftGenerators p)) = 2 * n)%nat as LG by (apply length_fold_gs; by rewrite Lw).
  assert (length (folded' xs (ipp_RightGenerators p)) = 2 * n)%nat as LH by (apply length_fold_gs; by rewrite Lf).
  rewrite <- !msm_fold_gs by (rewrite ?Lw, ?Lf, length_pad by lia; rewrite ?L1, ?L2, ?L3, ?L4; done).
  fold (folded xs (ipp_LeftGenerators p)). fold (folded' xs (ipp_RightGenerators p)).
  rewrite !msm_pad by (rewrite ?L1, ?L2, ?L3, ?L4; lia). rewrite L1, L2, L3, L4, !drop_0.
  rewrite !(take_ge (drop n _)) by (rewrite length_drop; lia). done.
Qed.

(** Folding the vectors and the generators with the same challenge. *)
Lemma msm_fold_z g x xi a n : length a = (2 * n)%nat -> length g = n ->
  msm g (fold_z x xi a) = (msm g (take n a) ⋅ x + msm g (drop n a) ⋅ xi)%g1.
Proof.
  intros Ha Hg. unfold fold_z. rewrite Ha, half_double. rewrite <- !msm_scale, <- msm_zip_add by (rewrite length_fmap, ?length_take, ?length_drop; lia).
  f_equal. by rewrite zip_with_fmap_l, zip_with_fmap_r.
Qed.

Lemma ip_fold_z l x xi a n : length a = (2 * n)%nat -> length l = n ->
  ip l (fold_z x xi a) = ip l (take n a) * x + ip l (drop n a) * xi.
Proof.
  intros Ha Hg. unfold fold_z. rewrite Ha, half_double. rewrite !(ip_comm l). rewrite <- !ip_scale_l, <- ip_add_l
    by (rewrite ?length_fmap, ?length_take, ?length_drop; lia).
  f_equal. by rewrite zip_with_fmap_l, zip_with_fmap_r.
Qed.

Lemma halves_msm g a n : length g = (2 * n)%nat -> length a = (2 * n)%nat -> msm g a = (msm (take n g) (take n a) + msm (drop n g) (drop n a))%g1.
Proof. intros Hg Ha. rewrite <- msm_app by (rewrite !length_take; lia). by rewrite !take_drop. Qed.

Lemma halves_ip l r n : length l = (2 * n)%nat -> length r = (2 * n)%nat -> ip l r = ip (take n l) (take n r) + ip (drop n l) (drop n r).
Proof. intros Hg Ha. rewrite <- ip_app by (rewrite !length_take; lia). by rewrite !take_drop. Qed.

(** The commitment of the next round opens to the folded vectors. *)
Lemma fold_step G H a b x xi X n : x * xi = One ->
  length G = (2 * n)%nat -> length H = (2 * n)%nat -> length a = (2 * n)%nat -> length b = (2 * n)%nat ->
  (msm (fold_g x xi G) (fold_z x xi a) + msm (fold_g xi x H) (fold_z xi x b) + X ⋅ ip (fold_z x xi a) (fold_z xi x b)
   = msm G a + msm H b + X ⋅ ip a b
     + (msm (drop n G) (take n a) + msm (take n H) (drop n b) + X ⋅ ip (take n a) (drop n b)) ⋅ (x * x)%zr
     + (msm (take n G) (drop n a) + msm (drop n H) (take n b) + X ⋅ ip (drop n a) (take n b)) ⋅ (xi * xi)%zr)%g1.
Proof.
  intros Hx HG HH Ha Hb.
  rewrite (msm_fold_g x xi G _ n), (msm_fold_g xi x H _ n) by (try apply length_fold_z; done).
  rewrite !(msm_fold_z _ _ _ _ n) by (rewrite ?length_take, ?length_drop; lia).
  rewrite (ip_fold_z _ _ _ _ n), !(ip_comm (fold_z _ _ _)), !(ip_fold_z _ _ _ _ n) by (rewrite ?length_fold_z with (h := n), ?length_take, ?length_drop by done; lia).
  rewrite (halves_msm G a n), (halves_msm H b n), (halves_ip a b n) by done.
  rewrite !(ip_comm (take n b)), !(ip_comm (drop n b)).
  linear_with ltac:(idtac; ring [Hx]).
Qed.

Definition sq (xs : list Zr) : list Zr := (fun x => x * x) <$> xs.
Definition isq (xs : list Zr) : list Zr := (fun x => InvModOrder (x * x)) <$> xs.

(** The invariant of [reduce] after some rounds: the transcript is the one the
    verifier replays, and the folded vectors open the commitment. *)
Record reduce_inv (p : ipaProver) (X C : G1) (tr0 : bytes) (k : nat) (st : reduce_state) : Prop := {
  inv_rounds : (length (rs_xList st) <= k)%nat;
  inv_left : length (rs_left st) = (2 ^ (k - length (rs_xList st)))%nat;
  inv_right : length (rs_right st) = (2 ^ (k - length (rs_xList st)))%nat;
  inv_L : length (rs_LArray st) = length (rs_xList st);
  inv_R : length (rs_RArray st) = length (rs_xList st);
  inv_replay : replay_rounds tr0 (Some <$> rs_LArray st) (Some <$> rs_RArray st) = Ok (rs_xList st, rs_transcript st);
  inv_open : nonzero (rs_xList st) ->
    (C + msm (rs_LArray st) (sq (rs_xList st)) + msm (rs_RArray st) (isq (rs_xList st))
     = msm (folded (rs_xList st) (ipp_LeftGenerators p)) (rs_left st)
       + msm (folded' (rs_xList st) (ipp_RightGenerators p)) (rs_right st) + X ⋅ ip (rs_left st) (rs_right st))%g1;
}.

Lemma replay_snoc Ls : forall Rs tr xs tr' l r x tr'', length Ls = length Rs ->
  replay_rounds tr (Some <$> Ls) (Some <$> Rs) = Ok (xs, tr') ->
  Squeeze (Absorb (Absorb tr' (G1_Bytes l)) (G1_Bytes r)) = (x, tr'') ->
  replay_rounds tr (Some <$> (Ls ++ [l])) (Some <$> (Rs ++ [r])) = Ok (xs ++ [x], tr'').
Proof.
  induction Ls as [|l0 Ls IH]; intros [|r0 Rs] tr xs tr' l r x tr'' Hlen Hrep Hsq; try done.
  - cbn [fmap list_fmap replay_rounds] in Hrep. injection Hrep as <- <-. cbn [fmap list_fmap app replay_rounds]. rewrite Hsq. done.
  - cbn [fmap list_fmap app replay_rounds] in *. destruct (Squeeze (Absorb (Absorb tr (G1_Bytes l0)) (G1_Bytes r0))) as [y tr1].
    apply res_bind_Ok in Hrep as ([ys tr2] & Hrep & [= <- <-]). cbn in Hlen. injection Hlen as Hlen.
    rewrite (IH Rs tr1 ys tr2 l r x tr'' Hlen Hrep Hsq). done.
Qed.

Lemma msm_snoc ps p ss c : length ps = length ss -> msm (ps ++ [p]) (ss ++ [c]) = (msm ps ss + p ⋅ c)%g1.
Proof. intros H. rewrite msm_app by done. f_equal. rewrite msm_cons. apply g1_zero_r. Qed.

Lemma reduce_inv_step p X C tr0 k st :
  length (ipp_LeftGenerators p) = (2 ^ k)%nat -> length (ipp_RightGenerators p) = (2 ^ k)%nat ->
  reduce_inv p X C tr0 k st -> (length (rs_xList st) < k)%nat ->
  exists st', reduce_round p X st (length (rs_xList st)) = Ok st' /\ reduce_inv p X C tr0 k st' /\ length (rs_xList st') = S (length (rs_xList st)).
Proof.
  intros HG HH [_ Ha Hb HL HR Hrep Hopen] Hk. set (xs := rs_xList st) in *. set (n := (2 ^ (k - S (length xs)))%nat).
  assert (2 ^ (k - length xs) = 2 * n)%nat as Hn by (unfold n; rewrite <- Nat.pow_succ_r'; f_equal; lia).
  assert (2 ^ k = 2 ^ length xs * (2 * n))%nat as Hk2 by (rewrite <- Hn, <- Nat.pow_add_r; f_equal; lia).
  destruct (reduce_round_spec p X st n) as (Li & Ri & com & x & tr & Hsq & Hround & Hpts); rewrite ?Ha, ?Hb, ?HG, ?HH; try done.
  fold xs in Hround, Hpts. eexists. split; [exact Hround|]. split; [|cbn; rewrite length_app; cbn; lia].
  split; cbn [rs_xList rs_left rs_right rs_LArray rs_RArray rs_transcript]; rewrite ?length_app; cbn [length]; rewrite ?Nat.add_1_r.
  - lia.
  - apply length_fold_z. by rewrite Ha.
  - apply length_fold_z. by rewrite Hb.
  - by f_equal.
  - by f_equal.
  - apply (replay_snoc _ _ _ _ (rs_transcript st)); [congruence|done|done].
  - intros [Hz Hx]%Forall_app. apply Forall_cons in Hx as [Hx _]. destruct (Hpts Hz) as [HLi HRi].
    unfold sq, isq. rewrite !fmap_app. cbn [fmap list_fmap]. rewrite !msm_snoc by (unfold sq, isq; rewrite length_fmap; done).
    rewrite inv_mul by done. pose proof (zr_inv x Hx) as Hxi.
    assert (forall g, folded (xs ++ [x]) g = fold_g x (InvModOrder x) (folded xs g)) as -> by (intros g; unfold folded, with_inv, fold_gs; by rewrite fmap_app, foldl_app).
    assert (forall g, folded' (xs ++ [x]) g = fold_g (InvModOrder x) x (folded' xs g)) as -> by (intros g; unfold folded', with_inv, fold_gs; by rewrite !fmap_app, foldl_app).
    rewrite (fold_step _ _ _ _ _ _ _ n) by (try apply length_fold_gs; rewrite ?length_fmap; unfold with_inv; rewrite ?length_fmap; try done; by rewrite ?Ha, ?Hb, ?HG, ?HH).
    rewrite <- HLi, <- HRi, <- (Hopen Hz). fold (sq xs) (isq xs). linear.
Qed.

Lemma reduce_loop p X C tr0 k j : (j <= k)%nat ->
  length (ipp_LeftGenerators p) = (2 ^ k)%nat -> length (ipp_RightGenerators p) = (2 ^ k)%nat ->
  forall st, reduce_inv p X C tr0 k st -> length (rs_xList st) = (k - j)%nat ->
  exists st', foldR (reduce_round p X) st (seq (k - j) j) = Ok st' /\ reduce_inv p X C tr0 k st' /\ length (rs_xList st') = k.
Proof.
  intros Hj HG HH. induction j as [|j IH]; intros st Hinv Hlen; [exists st; cbn; split_and!; [done|done|lia]|].
  destruct (reduce_inv_step p X C tr0 k st HG HH Hinv) as (st1 & Hr & Hinv1 & Hlen1); [lia|].
  destruct (IH ltac:(lia) st1 Hinv1) as (st' & Hf & Hinv' & Hlen'); [lia|].
  exists st'. split; [|done]. cbn [seq foldR]. rewrite <- Hlen, Hr. cbn [mbind res_mbind].
  by replace (S (length (rs_xList st))) with (k - j)%nat by lia.
Qed.

Lemma kron_single s l : kron s [l] = (fun c => c * l) <$> s.
Proof. induction s as [|c s IH]; [done|]. rewrite kron_cons, IH. cbn. f_equal. ring. Qed.

Lemma msm_neg ps f (xs : list Zr) : msm ps ((fun x => Neg (f x)) <$> xs) = (msm ps (f <$> xs) ⋅ (Neg One))%g1.
Proof. rewrite <- msm_scale, <- list_fmap_compose. f_equal. apply list_fmap_ext. intros ? x _. cbn. ring. Qed.

(** The single multi-exponentiation of the verifier is the check on the folded
    generators. *)
Lemma verify_msm xs G H Ls Rs X l r : nonzero xs ->
  length G = (2 ^ length xs)%nat -> length H = (2 ^ length xs)%nat -> length Ls = length xs -> length Rs = length xs ->
  MultiScalarMul (G ++ H ++ Ls ++ Rs ++ [X])
    (((fun si => si * l) <$> svz (with_inv xs)) ++ ((fun si => si * r) <$> svz (flip_pair <$> with_inv xs)) ++
     ((fun x => Neg (x * x)) <$> xs) ++ ((fun x => Neg (InvModOrder (x * x))) <$> xs) ++ [l * r])
  = (msm (folded xs G) [l] + msm (folded' xs H) [r] + X ⋅ (l * r)%zr + msm Ls (sq xs) ⋅ (Neg One) + msm Rs (isq xs) ⋅ (Neg One))%g1.
Proof.
  intros Hz HG HH HL HR.
  assert (length (with_inv xs) = length xs) as Lw by apply length_fmap.
  assert (length (flip_pair <$> with_inv xs) = length xs) as Lf by by rewrite !length_fmap.
  rewrite g1_msm by (rewrite !length_app, !length_fmap, !length_sv, Lw, Lf, HG, HH, HL, HR; done).
  rewrite !msm_app by (rewrite length_fmap, ?length_sv, ?Lw, ?Lf; done).
  unfold folded, folded'. rewrite !msm_fold_gs by (rewrite ?Lw, ?Lf; cbn [length]; lia). rewrite !kron_single, !msm_neg.
  fold (sq xs) (isq xs). rewrite msm_cons. change (msm [] []) with NewG1. linear.
Qed.

(** The verifier that has the prover's public inputs. *)
Definition verifier_of (p : ipaProver) : ipaVerifier :=
  {| ipv_InnerProduct := ipp_InnerProduct p; ipv_Q := ipp_Q p; ipv_RightGenerators := ipp_RightGenerators p;
     ipv_LeftGenerators := ipp_LeftGenerators p; ipv_Commitment := ipp_Commitment p; ipv_NumberOfRounds := ipp_NumberOfRounds p |}.

(** The challenges of the rounds of a proof, as the verifier replays them. *)
Definition ipa_challenges (v : ipaVerifier) (proof : IPA) (tr : bytes) : list Zr :=
  match ipa_first (ipv_LeftGenerators v) (ipv_RightGenerators v) (ipv_Q v) (ipv_Commitment v) (ipv_InnerProduct v) tr with
  | Ok (_, tr) => match replay_rounds tr (ipa_L proof) (ipa_R proof) with Ok (xs, _) => xs | _ => [] end
  | _ => []
  end.

Lemma AppendFixed32_total l : forall dst, Forall (fun v => zlen v <= 4294967295)%Z l -> exists b, AppendFixed32 dst l = Ok b.
Proof.
  induction l as [|v l IH]; intros dst HF; [by exists dst|]. apply Forall_cons in HF as [Hv HF].
  unfold AppendFixed32. cbn [foldl mbind res_mbind]. destruct (Z.ltb_spec 4294967295 (zlen v)); [lia|]. by apply IH.
Qed.

Lemma G1Array_Bytes_total l : exists b, G1Array_Bytes (Some <$> l) = Ok b.
Proof.
  unfold G1Array_Bytes. assert (G1Array_raw (Some <$> l) = Ok (G1_Bytes <$> l)) as ->.
  { induction l as [|p l IH]; [done|]. rewrite !fmap_cons. cbn [G1Array_raw]. by rewrite IH. }
  cbn [mbind res_mbind]. apply AppendFixed32_total. apply Forall_fmap, Forall_forall. intros p _. apply g1_bytes_len.
Qed.

Lemma ipa_first_total G H Q C c tr : exists x tr', ipa_first G H Q C c tr = Ok (x, tr').
Proof.
  unfold ipa_first. destruct (G1Array_Bytes_total (H ++ G ++ [Q; C])) as [b ->]. cbn [mbind res_mbind].
  destruct (Squeeze _) as [x tr']. by exists x, tr'.
Qed.

Lemma omap_Some {A} (l : list A) : omap id (Some <$> l) = l.
Proof. induction l as [|a l IH]; [done|]. cbn. f_equal. apply IH. Qed.

(** The proofs of the honest prover are accepted. *)
Lemma ipa_completeness p tr :
  let k := ipp_NumberOfRounds p in
  length (ipp_leftVector p) = (2 ^ k)%nat -> length (ipp_rightVector p) = (2 ^ k)%nat ->
  length (ipp_LeftGenerators p) = (2 ^ k)%nat -> length (ipp_RightGenerators p) = (2 ^ k)%nat ->
  ipp_Commitment p = CommitVector (ipp_leftVector p) (ipp_rightVector p) (ipp_LeftGenerators p) (ipp_RightGenerators p) ->
  ipp_InnerProduct p = InnerProduct (ipp_leftVector p) (ipp_rightVector p) ->
  exists proof tr', ipaProver_Prove p (Some tr) = Ok (proof, tr') /\
    (nonzero (ipa_challenges (verifier_of p) proof tr) -> ipaVerifier_Verify (verifier_of p) proof (Some tr) = Ok tr').
Proof.
  intros k Ha Hb HG HH HC HI.
  destruct (ipa_first_total (ipp_LeftGenerators p) (ipp_RightGenerators p) (ipp_Q p) (ipp_Commitment p) (ipp_InnerProduct p) tr) as (x & tr1 & Hx).
  set (C := (ipp_Q p ⋅ (x * ipp_InnerProduct p)%zr + ipp_Commitment p)%g1). set (X := (ipp_Q p ⋅ x)%g1).
  set (st0 := {| rs_transcript := tr1; rs_left := ipp_leftVector p; rs_right := ipp_rightVector p;
                 rs_LArray := []; rs_RArray := []; rs_xList := []; rs_com := C |}).
  assert (reduce_inv p X C tr1 k st0) as Hinv.
  { split; cbn [st0 rs_xList rs_left rs_right rs_LArray rs_RArray rs_transcript length]; rewrite ?Nat.sub_0_r; try done; [lia|]. intros _.
    unfold CommitVector in HC. rewrite g1_msm, msm_app in HC by (rewrite ?length_app; lia).
    unfold C, X. rewrite HC, HI. unfold InnerProduct. rewrite zr_addmul by lia.
    change (msm [] (sq [])) with NewG1. change (msm [] (isq [])) with NewG1.
    change (folded [] (ipp_LeftGenerators p)) with (ipp_LeftGenerators p). change (folded' [] (ipp_RightGenerators p)) with (ipp_RightGenerators p). linear. }
  destruct (reduce_loop p X C tr1 k k) with (st := st0) as (st & Hf & [_ La Lb LL LR Hrep Hopen] & Hlen); try done; [cbn; lia|].
  rewrite Hlen, Nat.sub_diag in La, Lb. cbn in La, Lb. destruct (rs_left st) as [|l [|]] eqn:El; try done. destruct (rs_right st) as [|r [|]] eqn:Er; try done.
  exists {| ipa_Left := Some l; ipa_Right := Some r; ipa_L := Some <$> rs_LArray st; ipa_R := Some <$> rs_RArray st |}, (rs_transcript st).
  split.
  - unfold ipaProver_Prove. rewrite Hx. cbn [mbind res_mbind]. fold C X. unfold reduce. fold k st0. rewrite Nat.sub_diag in Hf. rewrite Hf. cbn [mbind res_mbind].
    by rewrite El, Er.
  - unfold ipa_challenges, ipaVerifier_Verify. cbn [verifier_of ipv_LeftGenerators ipv_RightGenerators ipv_Q ipv_Commitment ipv_InnerProduct ipv_NumberOfRounds ipa_Left ipa_Right ipa_L ipa_R].
    rewrite Hx, Hrep. intros Hz. fold k. rewrite !length_fmap, LL, LR, Hlen, HG, HH, !Nat.eqb_refl. cbn [negb orb mbind res_mbind].
    rewrite Hrep. cbn [mbind res_mbind]. rewrite <- Hlen at 1. rewrite ComputeSVector_spec by done. cbn [mbind res_mbind].
    rewrite !omap_Some, verify_msm by (first [done|by rewrite Hlen]). rewrite decide_True; [done|].
    fold C X. specialize (Hopen Hz). transitivity (C + msm (rs_LArray st) (sq (rs_xList st)) + msm (rs_RArray st) (isq (rs_xList st))
      + msm (rs_LArray st) (sq (rs_xList st)) ⋅ (Neg One) + msm (rs_RArray st) (isq (rs_xList st)) ⋅ (Neg One))%g1; [|linear].
    rewrite Hopen. do 2 f_equal. do 2 f_equal. rewrite ip_cons. change (ip [] []) with Zero. ring.
Qed.

(** ** The verifier never panics *)

Lemma replay_rounds_no_panic Ls : forall Rs tr, replay_rounds tr Ls Rs <> Panic.
Proof.
  induction Ls as [|[l|] Ls IH]; intros [|[r|] Rs] tr; try done. cbn [replay_rounds]. destruct (Squeeze _) as [x tr'].
  apply bind_no_panic; [apply IH|]. by intros [].
Qed.

Lemma replay_rounds_length Ls : forall Rs tr xs tr', replay_rounds tr Ls Rs = Ok (xs, tr') -> length xs = length Ls.
Proof.
  induction Ls as [|[l|] Ls IH]; intros [|[r|] Rs] tr xs tr'; try done; cbn [replay_rounds]; [by intros [= <- _]|].
  destruct (Squeeze _) as [x tr1]. intros ([ys tr2] & H & [= <- _])%res_bind_Ok. cbn. f_equal. by eapply IH.
Qed.

Lemma ipaVerifier_no_panic v proof tr : ipaVerifier_Verify v proof (Some tr) <> Panic.
Proof.
  unfold ipaVerifier_Verify. destruct (ipa_Left proof), (ipa_Right proof); try done.
  destruct (Nat.eqb_spec (length (ipa_L proof)) (length (ipa_R proof))) as [E1|]; [|done].
  destruct (Nat.eqb_spec (length (ipa_L proof)) (ipv_NumberOfRounds v)) as [E2|]; [|done]. cbn [negb orb].
  destruct (negb _ || _); [done|]. destruct (ipa_first_total (ipv_LeftGenerators v) (ipv_RightGenerators v) (ipv_Q v) (ipv_Commitment v) (ipv_InnerProduct v) tr) as (x & tr1 & ->).
  cbn [mbind res_mbind]. destruct (replay_rounds tr1 _ _) as [[xs tr2]|e|] eqn:Er; cbn [mbind res_mbind]; [|done|by apply replay_rounds_no_panic in Er].
  apply replay_rounds_length in Er. rewrite <- E2, <- Er. destruct (ComputeSVector_total xs) as (s & sInv & -> & _). cbn [mbind res_mbind]. by destruct (decide _).
Qed.

End IpaComplete.
