(* ===== verification/ZkRange.v ===== *)
(** * Range proofs (crypto/rp/bulletproof/rp.go, rp_native.go, rangecorrectness.go)

    The prover and the verifier of the Bulletproof range proof on top of the
    inner-product argument, on the native and on the generic field arithmetic,
    and the set of range proofs of a transaction.  The readers a prover draws
    its randomness from are arguments: the n-th scalar of a reader is its n-th
    draw.  The module shows that the two arithmetics agree and that the proof of
    a value below [2^BitLength] is accepted. *)

From S2P Require Import Prelude GoStd Quantity Asn1 ZkMath ZkIpa.
From Stdlib Require Import ZArith Lia Ring.

Record RangeProofData `{!Curve} := {
  rpd_T1 : option G1;
  rpd_T2 : option G1;
  rpd_Tau : option Zr;
  rpd_C : option G1;
  rpd_D : option G1;
  rpd_Delta : option Zr;
  rpd_InnerProduct : option Zr;
}.

Record RangeProof `{!Curve} := {
  rp_Data : option RangeProofData;
  rp_IPA : option IPA;
}.

Section Range.
Context {CO : Curve} {NA : Native}.
Local Open Scope zr_scope.

Definition TranscriptDomain : bytes := str "Bulletproof-RangeProof-v1".

(** [new(big.Int).SetUint64(n).Bytes()]: big-endian, no leading zero. *)
Definition big_Bytes (n : Z) : bytes := be_bytes (Z.to_nat ((BitLen n + 7) / 8)) n.

Definition absorbPublicStatement (tr : bytes) (commitmentGenerators leftGenerators rightGenerators : list G1) (bitLength : nat) : bytes :=
  let tr := foldl (fun tr g => Absorb tr (G1_Bytes g)) tr commitmentGenerators in
  let tr := foldl (fun tr g => Absorb tr (G1_Bytes g)) tr leftGenerators in
  let tr := foldl (fun tr g => Absorb tr (G1_Bytes g)) tr rightGenerators in
  Absorb tr (big_Bytes (Z.of_nat bitLength)).

(** ** The prover *)

Record rangeProver := {
  rpr_value : Z;
  rpr_blindingFactor : Zr;
  rpr_Commitment : G1;
  rpr_CommitmentGenerators : list G1;
  rpr_LeftGenerators : list G1;
  rpr_RightGenerators : list G1;
  rpr_P : G1;
  rpr_Q : G1;
  rpr_NumberOfRounds : nat;
  rpr_BitLength : nat;
}.

(** [b := 1 << i & p.value; if b > 0 { b = 1 }] on [uint64]. *)
Definition value_bit (value : Z) (i : nat) : Z :=
  let b := Z.land (u64 (Z.shiftl 1 (Z.of_nat i))) value in if (0 <? b)%Z then 1%Z else b.

(** The vectors [leftPrime], [rightPrime], [randRightPrime], [zPrime], one
    entry per iteration. *)
Fixpoint prime_loop (y z zSquare y2i : Zr) (i : nat) (lft rgt randomRight : list Zr) : list (Zr * Zr * Zr * Zr) :=
  match lft, rgt, randomRight with
  | l :: lft, r :: rgt, v :: randomRight =>
      let y2i := if (i =? 0)%nat then One else y * y2i in
      (l - z, (r + z) * y2i, v * y2i, zSquare * PowerOfTwo i) :: prime_loop y z zSquare y2i (S i) lft rgt randomRight
  | _, _, _ => []
  end.

(** What both arithmetics return: the folded vectors, [y], the proof data but
    the inner product, and the transcript. *)
Record preprocessed := {
  pre_left : list Zr;
  pre_right : list Zr;
  pre_y : Zr;
  pre_T1 : G1;
  pre_T2 : G1;
  pre_C : G1;
  pre_D : G1;
  pre_Tau : Zr;
  pre_Delta : Zr;
  pre_transcript : bytes;
}.

(** The loop of [nativeRPPreprocess] over the entries. *)
Fixpoint native_prime_loop (yE zE zSquareE y2iE twoPowE : Fr) (lft rgt randomRight : list Zr) : list (Fr * Fr * Fr * Fr) :=
  match lft, rgt, randomRight with
  | l :: lft, r :: rgt, v :: randomRight =>
      (Fr_Sub (SetNativeFromZr l) zE, Fr_Mul (Fr_Add (SetNativeFromZr r) zE) y2iE,
       Fr_Mul (SetNativeFromZr v) y2iE, Fr_Mul zSquareE twoPowE)
      :: native_prime_loop yE zE zSquareE (Fr_Mul y2iE yE) (Fr_Mul twoPowE (Fr_SetInt64 2)) lft rgt randomRight
  | _, _, _ => []
  end.

(** [t1]: three products are added per entry; [t2]: one. *)
Definition native_t1 (es : list (Fr * Fr * Fr * Fr)) (randomLeft : list Zr) : Fr :=
  foldl (fun t1E '((lp, rp, rrp, zp), rl) =>
    let rlE := SetNativeFromZr rl in
    let t1E := Fr_Add t1E (Fr_Mul lp rrp) in
    let t1E := Fr_Add t1E (Fr_Mul rp rlE) in
    Fr_Add t1E (Fr_Mul zp rlE)) Fr_Zero (zip es randomLeft).
Definition native_t2 (es : list (Fr * Fr * Fr * Fr)) (randomLeft : list Zr) : Fr :=
  foldl (fun t2E '((lp, rp, rrp, zp), rl) => Fr_Add t2E (Fr_Mul (SetNativeFromZr rl) rrp)) Fr_Zero (zip es randomLeft).

Definition nativeRPPreprocess (p : rangeProver) (lft rgt randomLeft randomRight : list Zr) (y z : Zr) (C D : G1)
    (rho eta : Zr) (randReader : nat -> Zr) (tr : bytes) : res preprocessed :=
  let yE := SetNativeFromZr y in
  let zE := SetNativeFromZr z in
  let zSquareE := Fr_Mul zE zE in
  let es := native_prime_loop yE zE zSquareE Fr_One Fr_One lft rgt randomRight in
  let t1 := NativeToZr (native_t1 es randomLeft) in
  let tau1 := randReader 0%nat in
  g0 ← index (rpr_CommitmentGenerators p) 0; g1 ← index (rpr_CommitmentGenerators p) 1;
  let T1 := Mul2 g0 t1 g1 tau1 in
  let t2 := NativeToZr (native_t2 es randomLeft) in
  let tau2 := randReader 1%nat in
  let T2 := Mul2 g0 t2 g1 tau2 in
  let tr := Absorb (Absorb tr (G1_Bytes T1)) (G1_Bytes T2) in
  let '(x, tr) := Squeeze tr in
  let xE := SetNativeFromZr x in
  let xSquareE := Fr_Mul xE xE in
  let folded := zip_with (fun '(lp, rp, rrp, zp) rl =>
      (NativeToZr (Fr_Add lp (Fr_Mul xE (SetNativeFromZr rl))), NativeToZr (Fr_Add (Fr_Add rp (Fr_Mul xE rrp)) zp))) es randomLeft in
  let tauE := Fr_Add Fr_Zero (Fr_Mul xE (SetNativeFromZr tau1)) in
  let tauE := Fr_Add tauE (Fr_Mul xSquareE (SetNativeFromZr tau2)) in
  let tauE := Fr_Add tauE (Fr_Mul zSquareE (SetNativeFromZr (rpr_blindingFactor p))) in
  let deltaE := Fr_Add (Fr_Mul (SetNativeFromZr eta) xE) (SetNativeFromZr rho) in
  Ok {| pre_left := folded.*1; pre_right := folded.*2; pre_y := y; pre_T1 := T1; pre_T2 := T2; pre_C := C; pre_D := D;
        pre_Tau := NativeToZr tauE; pre_Delta := NativeToZr deltaE; pre_transcript := tr |}.

(** The generic arithmetic, from [leftPrime] on; [rand] continues the reader of
    the bit vectors. *)
Definition genericRPPreprocess (p : rangeProver) (lft rgt randomLeft randomRight : list Zr) (y z : Zr) (C D : G1)
    (rho eta : Zr) (rand : nat -> Zr) (tr : bytes) : res preprocessed :=
  let zSquare := PowMod z Two in
  let es := prime_loop y z zSquare One 0 lft rgt randomRight in
  let leftPrime := es.*1.*1.*1 in
  let rightPrime := es.*1.*1.*2 in
  let randRightPrime := es.*1.*2 in
  let zPrime := es.*2 in
  let t1 := InnerProduct (leftPrime ++ rightPrime ++ zPrime) (randRightPrime ++ randomLeft ++ randomLeft) in
  let tau1 := rand (2 + 2 * length lft)%nat in
  g0 ← index (rpr_CommitmentGenerators p) 0; g1 ← index (rpr_CommitmentGenerators p) 1;
  let T1 := Mul2 g0 t1 g1 tau1 in
  let t2 := InnerProduct randomLeft randRightPrime in
  let tau2 := rand (3 + 2 * length lft)%nat in
  let T2 := Mul2 g0 t2 g1 tau2 in
  let tr := Absorb (Absorb tr (G1_Bytes T1)) (G1_Bytes T2) in
  let '(x, tr) := Squeeze tr in
  let folded := zip_with (fun '(lp, rp, rrp, zp) u => (ModAddMul2 lp One x u, (rp + x * rrp) + zp)) es randomLeft in
  let tau := x * tau1 + ModAddMul2 tau2 (PowMod x Two) zSquare (rpr_blindingFactor p) in
  let delta := rho + eta * x in
  Ok {| pre_left := folded.*1; pre_right := folded.*2; pre_y := y; pre_T1 := T1; pre_T2 := T2; pre_C := C; pre_D := D;
        pre_Tau := tau; pre_Delta := delta; pre_transcript := tr |}.

(** [rand] is the reader of the whole function, [rand2] the one the native path
    asks for. *)
Definition preprocess (p : rangeProver) (rand rand2 : res (nat -> Zr)) : res preprocessed :=
  rand ← rand;
  let rho := rand 0%nat in
  let eta := rand 1%nat in
  let ix := seq 0 (rpr_BitLength p) in
  let lft : list Zr := (fun i => NewZrFromUint64 (value_bit (rpr_value p) i)) <$> ix in
  let rgt : list Zr := (fun l => l - One) <$> lft in
  let randomLeft : list Zr := (fun i => rand (2 + 2 * i)%nat) <$> ix in
  let randomRight : list Zr := (fun i => rand (3 + 2 * i)%nat) <$> ix in
  let C := CommitVectorPlusOne lft rgt (rpr_LeftGenerators p) (rpr_RightGenerators p) rho (rpr_P p) in
  let D := CommitVectorPlusOne randomLeft randomRight (rpr_LeftGenerators p) (rpr_RightGenerators p) eta (rpr_P p) in
  let tr := InitHasherWithDomain TranscriptDomain in
  let tr := absorbPublicStatement tr (rpr_CommitmentGenerators p) (rpr_LeftGenerators p) (rpr_RightGenerators p) (rpr_BitLength p) in
  let tr := Absorb (Absorb (Absorb tr (G1_Bytes (rpr_Commitment p))) (G1_Bytes C)) (G1_Bytes D) in
  let '(y, tr) := Squeeze tr in
  let '(z, tr) := Squeeze tr in
  let '(isBLS, isBN254) := DispatchCurve in
  if isBLS || isBN254 then
    rand2 ← rand2;
    nativeRPPreprocess p lft rgt randomLeft randomRight y z C D rho eta rand2 tr
  else genericRPPreprocess p lft rgt randomLeft randomRight y z C D rho eta rand tr.

(** [H'_i = H_i^{1/y^i}], with the running power of [1/y]. *)
Fixpoint scale_generators (yInv yInv2i : Zr) (gs : list G1) : list G1 :=
  match gs with
  | [] => []
  | g :: gs => (g ⋅ yInv2i)%g1 :: scale_generators yInv (yInv2i * yInv) gs
  end.

Definition rangeProver_Prove (p : rangeProver) (rand rand2 : res (nat -> Zr)) : res RangeProof :=
  pre ← preprocess p rand rand2;
  let yInv := InvModOrder (pre_y pre) in
  let rightGeneratorsPrime := scale_generators yInv One (rpr_RightGenerators p) in
  let com := CommitVector (pre_left pre) (pre_right pre) (rpr_LeftGenerators p) rightGeneratorsPrime in
  let product := InnerProduct (pre_left pre) (pre_right pre) in
  let ipp := {| ipp_InnerProduct := product; ipp_leftVector := pre_left pre; ipp_rightVector := pre_right pre; ipp_Q := rpr_Q p;
                ipp_LeftGenerators := rpr_LeftGenerators p; ipp_RightGenerators := rightGeneratorsPrime; ipp_Commitment := com;
                ipp_NumberOfRounds := rpr_NumberOfRounds p |} in
  '(ipa, _) ← ipaProver_Prove ipp (Some (pre_transcript pre));
  Ok {| rp_Data := Some {| rpd_T1 := Some (pre_T1 pre); rpd_T2 := Some (pre_T2 pre); rpd_Tau := Some (pre_Tau pre);
                           rpd_C := Some (pre_C pre); rpd_D := Some (pre_D pre); rpd_Delta := Some (pre_Delta pre);
                           rpd_InnerProduct := Some product |};
        rp_IPA := Some ipa |}.

(** ** The verifier *)

Record rangeVerifier := {
  rpv_Commitment : G1;
  rpv_CommitmentGenerators : list G1;
  rpv_LeftGenerators : list G1;
  rpv_RightGenerators : list G1;
  rpv_P : G1;
  rpv_Q : G1;
  rpv_NumberOfRounds : nat;
  rpv_BitLength : nat;
}.

(** The elements of a well-formed proof, all present. *)
Record proof_elements := {
  pe_T1 : G1; pe_T2 : G1; pe_Tau : Zr; pe_C : G1; pe_D : G1; pe_Delta : Zr; pe_InnerProduct : Zr; pe_IPA : IPA;
}.

Definition proof_elements_of (rp : option RangeProof) : res proof_elements :=
  let bad := Err (EMsg "invalid range proof: nil elements") in
  match rp with
  | None => bad
  | Some rp =>
      match rp_Data rp with
      | None => bad
      | Some d =>
          match rpd_InnerProduct d, rpd_C d, rpd_D d, rpd_T1 d, rpd_T2 d, rpd_Tau d, rpd_Delta d, rp_IPA rp with
          | Some ip, Some C, Some D, Some T1, Some T2, Some Tau, Some Delta, Some ipa =>
              Ok {| pe_T1 := T1; pe_T2 := T2; pe_Tau := Tau; pe_C := C; pe_D := D; pe_Delta := Delta; pe_InnerProduct := ip; pe_IPA := ipa |}
          | _, _, _, _, _, _, _, _ => bad
          end
      end
  end.

(** [yPow] with the running sum [ipy]. *)
Fixpoint y_powers (y prev ipy : Zr) (i n : nat) : list Zr * Zr :=
  match n with
  | O => ([], ipy)
  | S n =>
      let p := if (i =? 0)%nat then One else y * prev in
      let '(ps, ipy) := y_powers y p (ipy + p) (S i) n in (p :: ps, ipy)
  end.

(** The last steps of [verifyIPA] and [nativeRPVerifyIPA]: the statement of the
    inner-product argument and its verification. *)
Definition ipa_statement (v : rangeVerifier) (e : proof_elements) (x zNeg deltaNeg : Zr) (ziScalars : list Zr)
    (rightGeneratorsPrime : list G1) : ipaVerifier :=
  let n := length (rpv_LeftGenerators v) in
  let allPoints := [pe_D e; pe_C e] ++ rpv_LeftGenerators v ++ rightGeneratorsPrime ++ [rpv_P v] in
  let allScalars := [x; NewZrFromUint64 1] ++ replicate n zNeg ++ ziScalars ++ [deltaNeg] in
  let com := MultiScalarMul allPoints allScalars in
  {| ipv_InnerProduct := pe_InnerProduct e; ipv_Q := rpv_Q v; ipv_LeftGenerators := rpv_LeftGenerators v;
     ipv_RightGenerators := rightGeneratorsPrime; ipv_Commitment := com; ipv_NumberOfRounds := rpv_NumberOfRounds v |}.

Definition check_ipa (v : rangeVerifier) (e : proof_elements) (x zNeg deltaNeg : Zr) (ziScalars : list Zr)
    (rightGeneratorsPrime : list G1) (tr : bytes) : res unit :=
  _ ← ipaVerifier_Verify (ipa_statement v e x zNeg deltaNeg ziScalars rightGeneratorsPrime) (pe_IPA e) (Some tr);
  Ok tt.

Definition verifyIPA (v : rangeVerifier) (e : proof_elements) (x : Zr) (yPow : list Zr) (z zSquare : Zr) (tr : bytes) : res unit :=
  let n := length (rpv_LeftGenerators v) in
  let yInv := BatchInverse yPow in
  ziScalars ← mapM (fun i => yi ← index yPow i; Ok (ModAddMul2 z yi zSquare (PowerOfTwo i))) (seq 0 n);
  rightGeneratorsPrime ← mapM (fun i => h ← index (rpv_RightGenerators v) i; yi ← index yInv i; Ok (h ⋅ yi)%g1) (seq 0 n);
  let zNeg := NewZrFromUint64 0 - z in
  let deltaNeg := NewZrFromUint64 0 - pe_Delta e in
  check_ipa v e x zNeg deltaNeg ziScalars rightGeneratorsPrime tr.

(** The native loop of [nativeRPVerify]: the powers of [y], their sum and the
    sum of the powers of two. *)
Fixpoint native_powers (yE y2iE twoPowE ipyE ip2E : Fr) (n : nat) : list Fr * Fr * Fr :=
  match n with
  | O => ([], ipyE, ip2E)
  | S n =>
      let '(ps, ipyE, ip2E) :=
        native_powers yE (Fr_Mul y2iE yE) (Fr_Mul twoPowE (Fr_SetInt64 2)) (Fr_Add ipyE y2iE) (Fr_Add ip2E twoPowE) n in
      (y2iE :: ps, ipyE, ip2E)
  end.

Fixpoint native_zi (zE zSquareE twoPowE : Fr) (yPowE : list Fr) : list Zr :=
  match yPowE with
  | [] => []
  | yi :: yPowE => NativeToZr (Fr_Add (Fr_Mul zE yi) (Fr_Mul zSquareE twoPowE)) :: native_zi zE zSquareE (Fr_Mul twoPowE (Fr_SetInt64 2)) yPowE
  end.

Definition nativeRPVerifyIPA (v : rangeVerifier) (e : proof_elements) (xE : Fr) (yPowE : list Fr) (zE zSquareE : Fr) (tr : bytes) : res unit :=
  let n := length (rpv_LeftGenerators v) in
  yPowPtrs ← mapM (fun i => index yPowE i) (seq 0 n);
  let yInv := NativeBatchInverse yPowPtrs in
  let ziScalars := native_zi zE zSquareE Fr_One yPowPtrs in
  rightGeneratorsPrime ← mapM (fun i => h ← index (rpv_RightGenerators v) i; yi ← index yInv i; Ok (h ⋅ NativeToZr yi)%g1) (seq 0 n);
  let zNeg := NativeToZr (Fr_Sub Fr_Zero zE) in
  let deltaNeg := NativeToZr (Fr_Sub Fr_Zero (SetNativeFromZr (pe_Delta e))) in
  check_ipa v e (NativeToZr xE) zNeg deltaNeg ziScalars rightGeneratorsPrime tr.

(** The check on the committed value, shared by both paths. *)
Definition check_value (v : rangeVerifier) (e : proof_elements) (x xSquare zSquare polEval : Zr) : res unit :=
  g0 ← index (rpv_CommitmentGenerators v) 0; g1 ← index (rpv_CommitmentGenerators v) 1;
  let com := (g0 ⋅ pe_InnerProduct e + g1 ⋅ pe_Tau e - pe_T1 e ⋅ x - pe_T2 e ⋅ xSquare)%g1 in
  let comPrime := Mul2 (rpv_Commitment v) zSquare g0 polEval in
  if decide (com = comPrime) then Ok tt else Err (EMsg "invalid range proof").

Definition nativeRPVerify (v : rangeVerifier) (e : proof_elements) (x y z : Zr) (tr : bytes) : res unit :=
  let n := length (rpv_RightGenerators v) in
  let yE := SetNativeFromZr y in
  let zE := SetNativeFromZr z in
  let zSquareE := Fr_Mul zE zE in
  let zCubeE := Fr_Mul zSquareE zE in
  let '(yPowE, ipyE, ip2E) := native_powers yE Fr_One Fr_One Fr_Zero Fr_Zero n in
  let polEvalE := Fr_Sub (Fr_Mul (Fr_Sub zE zSquareE) ipyE) (Fr_Mul zCubeE ip2E) in
  let xE := SetNativeFromZr x in
  let xSquareE := Fr_Mul xE xE in
  check_value v e x (NativeToZr xSquareE) (NativeToZr zSquareE) (NativeToZr polEvalE) ;;
  nativeRPVerifyIPA v e xE yPowE zE zSquareE tr.

Definition genericRPVerify (v : rangeVerifier) (e : proof_elements) (x xSquare y z : Zr) (tr : bytes) : res unit :=
  let zSquare := PowMod z Two in
  let zCube := zSquare * z in
  ip2 ← SumOfPowersOfTwo (length (rpv_RightGenerators v));
  let '(yPow, ipy) := y_powers y Zero Zero 0 (length (rpv_RightGenerators v)) in
  let polEval := (z - zSquare) * ipy - zCube * ip2 in
  check_value v e x xSquare zSquare polEval ;;
  verifyIPA v e x yPow z zSquare tr.

Definition rangeVerifier_Verify (v : rangeVerifier) (rp : option RangeProof) : res unit :=
  e ← proof_elements_of rp;
  if negb (length (rpv_LeftGenerators v) =? length (rpv_RightGenerators v))%nat || negb (length (rpv_LeftGenerators v) =? rpv_BitLength v)%nat
  then Err (EMsg "invalid range proof: generator/bit-length mismatch") else
  let tr := InitHasherWithDomain TranscriptDomain in
  let tr := absorbPublicStatement tr (rpv_CommitmentGenerators v) (rpv_LeftGenerators v) (rpv_RightGenerators v) (rpv_BitLength v) in
  let tr := Absorb (Absorb (Absorb tr (G1_Bytes (rpv_Commitment v))) (G1_Bytes (pe_C e))) (G1_Bytes (pe_D e)) in
  let '(y, tr) := Squeeze tr in
  let '(z, tr) := Squeeze tr in
  let tr := Absorb (Absorb tr (G1_Bytes (pe_T1 e))) (G1_Bytes (pe_T2 e)) in
  let '(x, tr) := Squeeze tr in
  let xSquare := PowMod x Two in
  let '(isBLS, isBN254) := DispatchCurve in
  if isBLS || isBN254 then nativeRPVerify v e x y z tr
  else genericRPVerify v e x xSquare y z tr.

End Range.

(** ** The two arithmetics agree *)

Section RangeSpec.
Context {CO : Curve} {CL : CurveLaws} {NA : Native} {NL : NativeLaws}.
Add Ring zr6 : zr_ring.
Local Open Scope zr_scope.

Abbreviation powers y i n := (zpow y <$> seq i n).
Abbreviation quad := (Zr * Zr * Zr * Zr)%type.

(** The entries of the primed vectors, from index [i] on. *)
Fixpoint entries (y z zs : Zr) (i : nat) (l r v : list Zr) : list quad :=
  match l, r, v with
  | a :: l, b :: r, c :: v => (a - z, (b + z) * zpow y i, c * zpow y i, zs * zpow Two i) :: entries y z zs (S i) l r v
  | _, _, _ => []
  end.

Lemma zpow_S x n : zpow x (S n) = x * zpow x n.
Proof. done. Qed.

Lemma PowerOfTwo_cached i : cached_curve = true -> (i < NumBits)%nat -> PowerOfTwo i = zpow Two i.
Proof. intros H Hi. unfold PowerOfTwo. rewrite H. apply Nat.ltb_lt in Hi. rewrite Hi. done. Qed.

Lemma prime_loop_spec y z zs l : forall r v i y2i, cached_curve = true -> (i + length l <= NumBits)%nat -> (i = 0%nat \/ y * y2i = zpow y i) ->
  prime_loop y z zs y2i i l r v = entries y z zs i l r v.
Proof.
  induction l as [|a l IH]; intros [|b r] [|c v] i y2i Hc Hi Hy; try done. cbn [prime_loop entries]. cbn [length] in Hi.
  assert ((if (i =? 0)%nat then One else y * y2i) = zpow y i) as Hp.
  { destruct Hy as [->|Hy]; [done|]. destruct (Nat.eqb_spec i 0) as [->|_]; done. }
  rewrite Hp, PowerOfTwo_cached by (done || lia). f_equal. apply IH; [done|lia|]. right. done.
Qed.

Definition to_quad (q : Fr * Fr * Fr * Fr) : quad :=
  let '(a, b, c, d) := q in (NativeToZr a, NativeToZr b, NativeToZr c, NativeToZr d).

Lemma native_prime_spec yE zE zsE l : forall r v i y2iE twoE, NativeToZr y2iE = zpow (NativeToZr yE) i -> NativeToZr twoE = zpow Two i ->
  to_quad <$> native_prime_loop yE zE zsE y2iE twoE l r v = entries (NativeToZr yE) (NativeToZr zE) (NativeToZr zsE) i l r v.
Proof.
  induction l as [|a l IH]; intros [|b r] [|c v] i y2iE twoE Hy Ht; try done. cbn [native_prime_loop entries]. rewrite fmap_cons. f_equal.
  - cbn. rewrite native_sub, !native_mul, native_add, !native_set, Hy, Ht. done.
  - apply IH; rewrite native_mul, ?native_two, ?Hy, ?Ht; cbn [zpow]; ring.
Qed.

(** The two coefficients of the polynomial. *)
Definition t1_of (es : list quad) (u : list Zr) : Zr :=
  zsum (zip_with (fun '(lp, rp, rrp, zp) u => lp * rrp + rp * u + zp * u) es u).
Definition t2_of (es : list quad) (u : list Zr) : Zr := zsum (zip_with (fun '(lp, rp, rrp, zp) u => u * rrp) es u).

Lemma native_t1_spec es : forall u, NativeToZr (native_t1 es u) = t1_of (to_quad <$> es) u.
Proof.
  unfold native_t1, t1_of. intros u.
  assert (forall acc, NativeToZr (foldl (fun t1E '((lp, rp, rrp, zp), rl) =>
      Fr_Add (Fr_Add (Fr_Add t1E (Fr_Mul lp rrp)) (Fr_Mul rp (SetNativeFromZr rl))) (Fr_Mul zp (SetNativeFromZr rl))) acc (zip es u))
    = NativeToZr acc + zsum (zip_with (fun '(lp, rp, rrp, zp) u => lp * rrp + rp * u + zp * u) (to_quad <$> es) u)) as H.
  { revert u. induction es as [|[[[lp rp] rrp] zp] es IH]; intros [|a u] acc; try (cbn [zip_with foldl fmap list_fmap]; rewrite zsum_nil; ring).
    rewrite fmap_cons. cbn [zip_with foldl to_quad]. rewrite IH, !native_add, !native_mul, native_set, zsum_cons. ring. }
  rewrite H, native_zero. ring.
Qed.

Lemma native_t2_spec es : forall u, NativeToZr (native_t2 es u) = t2_of (to_quad <$> es) u.
Proof.
  unfold native_t2, t2_of. intros u.
  assert (forall acc, NativeToZr (foldl (fun t2E '((lp, rp, rrp, zp), rl) => Fr_Add t2E (Fr_Mul (SetNativeFromZr rl) rrp)) acc (zip es u))
    = NativeToZr acc + zsum (zip_with (fun '(lp, rp, rrp, zp) u => u * rrp) (to_quad <$> es) u)) as H.
  { revert u. induction es as [|[[[lp rp] rrp] zp] es IH]; intros [|a u] acc; try (cbn [zip_with foldl fmap list_fmap]; rewrite zsum_nil; ring).
    rewrite fmap_cons. cbn [zip_with foldl to_quad]. rewrite IH, native_add, native_mul, native_set, zsum_cons. ring. }
  rewrite H, native_zero. ring.
Qed.

Lemma generic_t1_spec es : forall u, length u = length es ->
  InnerProduct (es.*1.*1.*1 ++ es.*1.*1.*2 ++ es.*2) (es.*1.*2 ++ u ++ u) = t1_of es u.
Proof.
  intros u Hu. unfold InnerProduct. rewrite zr_addmul by (rewrite !length_app, !length_fmap, Hu; lia).
  rewrite !ip_app by (rewrite !length_fmap; done). unfold t1_of. revert u Hu.
  induction es as [|[[[lp rp] rrp] zp] es IH]; intros [|a u]; try done; intros Hu.
  - change (Zero + (Zero + Zero) = Zero). ring.
  - cbn [fmap list_fmap fst snd zip_with]. rewrite !ip_cons, zsum_cons, <- IH by (cbn in Hu; lia). ring.
Qed.

Lemma generic_t2_spec es : forall u, length u = length es -> InnerProduct u es.*1.*2 = t2_of es u.
Proof.
  intros u Hu. unfold InnerProduct. rewrite zr_addmul by (rewrite !length_fmap; done). unfold t2_of. revert u Hu.
  induction es as [|[[[lp rp] rrp] zp] es IH]; intros [|a u]; try done; intros Hu.
  cbn [fmap list_fmap fst snd zip_with]. rewrite ip_cons, zsum_cons, <- IH by (cbn in Hu; lia). done.
Qed.

(** The vectors of the inner-product argument. *)
Definition left_of (x : Zr) (es : list quad) (u : list Zr) : list Zr := zip_with (fun '(lp, rp, rrp, zp) u => lp + x * u) es u.
Definition right_of (x : Zr) (es : list quad) (u : list Zr) : list Zr := zip_with (fun '(lp, rp, rrp, zp) u => rp + x * rrp + zp) es u.

(** The result of both preprocessings, with the two last random scalars. *)
Definition preprocess_spec (p : rangeProver) (l r u v : list Zr) (y z : Zr) (C D : G1) (rho eta tau1 tau2 : Zr) (tr : bytes) : res preprocessed :=
  let es := entries y z (z * z) 0 l r v in
  g0 ← index (rpr_CommitmentGenerators p) 0; g1 ← index (rpr_CommitmentGenerators p) 1;
  let T1 := (g0 ⋅ t1_of es u + g1 ⋅ tau1)%g1 in
  let T2 := (g0 ⋅ t2_of es u + g1 ⋅ tau2)%g1 in
  let '(x, tr) := Squeeze (Absorb (Absorb tr (G1_Bytes T1)) (G1_Bytes T2)) in
  Ok {| pre_left := left_of x es u; pre_right := right_of x es u; pre_y := y; pre_T1 := T1; pre_T2 := T2; pre_C := C; pre_D := D;
        pre_Tau := x * tau1 + (x * x * tau2 + z * z * rpr_blindingFactor p); pre_Delta := rho + eta * x; pre_transcript := tr |}.

Lemma length_entries y z zs l : forall r v i, length r = length l -> length v = length l -> length (entries y z zs i l r v) = length l.
Proof. induction l as [|a l IH]; intros [|b r] [|c v] i; try done. cbn. intros [=H1] [=H2]. by rewrite IH. Qed.


Lemma nativeRPPreprocess_spec p l r u v y z C D rho eta rand tr :
  nativeRPPreprocess p l r u v y z C D rho eta rand tr = preprocess_spec p l r u v y z C D rho eta (rand 0%nat) (rand 1%nat) tr.
Proof.
  unfold nativeRPPreprocess, preprocess_spec.
  set (esE := native_prime_loop _ _ _ _ _ l r v).
  assert (entries y z (z * z) 0 l r v = to_quad <$> esE) as ->.
  { unfold esE. rewrite (native_prime_spec _ _ _ l r v 0) by apply native_one. by rewrite native_mul, !native_set. }
  destruct (index (rpr_CommitmentGenerators p) 0) as [g0| |]; [|done..]. destruct (index (rpr_CommitmentGenerators p) 1) as [g1| |]; [|done..].
  cbn [mbind res_mbind]. rewrite native_t1_spec, native_t2_spec, !g1_mul2. destruct (Squeeze _) as [x tr'].
  do 2 f_equal.
  - unfold left_of. generalize u. clear -NL. induction esE as [|[[[lp rp] rrp] zp] es IH]; intros [|a u]; try done.
    rewrite fmap_cons. cbn [zip_with to_quad fmap list_fmap fst]. f_equal; [|apply IH]. by rewrite native_add, native_mul, !native_set.
  - unfold right_of. generalize u. clear -NL. induction esE as [|[[[lp rp] rrp] zp] es IH]; intros [|a u]; try done.
    rewrite fmap_cons. cbn [zip_with to_quad fmap list_fmap snd]. f_equal; [|apply IH]. by rewrite !native_add, native_mul, !native_set.
  - rewrite !native_add, !native_mul, !native_set, native_zero. ring.
  - rewrite !native_add, !native_mul, !native_set. ring.
Qed.

Lemma genericRPPreprocess_spec p l r u v y z C D rho eta rand tr :
  cached_curve = true -> (length l <= NumBits)%nat -> length r = length l -> length v = length l -> length u = length l ->
  genericRPPreprocess p l r u v y z C D rho eta rand tr
  = preprocess_spec p l r u v y z C D rho eta (rand (2 + 2 * length l)%nat) (rand (3 + 2 * length l)%nat) tr.
Proof.
  intros Hc Hn Hr Hv Hu. unfold genericRPPreprocess, preprocess_spec. rewrite zr_pow2, (prime_loop_spec _ _ _ l r v 0) by (done || (left; done)).
  pose proof (length_entries y z (z * z) l r v 0 Hr Hv) as Hes. set (es := entries _ _ _ _ _ _ _) in *.
  destruct (index (rpr_CommitmentGenerators p) 0) as [g0| |]; [|done..]. destruct (index (rpr_CommitmentGenerators p) 1) as [g1| |]; [|done..].
  cbn [mbind res_mbind]. rewrite generic_t1_spec, generic_t2_spec, !g1_mul2 by congruence. destruct (Squeeze _) as [x tr'].
  rewrite zr_addmul2, zr_pow2. do 2 f_equal.
  - unfold left_of. generalize u. clear -CL. induction es as [|[[[lp rp] rrp] zp] es IH]; intros [|a u]; try done.
    cbn [zip_with fmap list_fmap fst]. f_equal; [|apply IH]. rewrite zr_addmul2. ring.
  - unfold right_of. generalize u. clear. induction es as [|[[[lp rp] rrp] zp] es IH]; intros [|a u]; try done.
    cbn [zip_with fmap list_fmap snd]. f_equal. apply IH.
  - ring.
Qed.

(** The powers of [y], the scaled generators and the scalars of the check. *)
Definition scaled (y : Zr) (i : nat) (gs : list G1) : list G1 := zip_with (fun g p => g ⋅ InvModOrder p)%g1 gs (powers y i (length gs)).
Definition zi_of (y z : Zr) (i n : nat) : list Zr := (fun j => z * zpow y j + z * z * zpow Two j) <$> seq i n.

Lemma zpow_nonzero y n : y <> Zero -> zpow y n <> Zero.
Proof. intros Hy. induction n as [|n IH]; [apply zr_one_zero|]. cbn. by apply mul_nonzero. Qed.

Lemma powers_nonzero y i n : y <> Zero -> Forall (fun x => x <> Zero) (powers y i n).
Proof. intros Hy. apply Forall_fmap, Forall_forall. intros j _. by apply zpow_nonzero. Qed.

Lemma scale_generators_spec y gs : forall i w, y <> Zero -> w = InvModOrder (zpow y i) -> scale_generators (InvModOrder y) w gs = scaled y i gs.
Proof.
  induction gs as [|g gs IH]; intros i w Hy ->; [done|]. cbn [scale_generators]. unfold scaled. cbn [length seq]. rewrite fmap_cons. cbn [zip_with].
  f_equal. apply IH; [done|]. rewrite zpow_S, inv_mul by (done || by apply zpow_nonzero). ring.
Qed.

Lemma y_powers_spec y n : forall i prev acc, (i = 0%nat \/ y * prev = zpow y i) ->
  y_powers y prev acc i n = (powers y i n, acc + zsum (powers y i n)).
Proof.
  induction n as [|n IH]; intros i prev acc Hy; cbn [y_powers seq]; [rewrite fmap_nil, zsum_nil; f_equal; ring|].
  assert ((if (i =? 0)%nat then One else y * prev) = zpow y i) as ->.
  { destruct Hy as [->|Hy]; [done|]. destruct (Nat.eqb_spec i 0) as [->|_]; done. }
  rewrite IH by by right. rewrite fmap_cons, zsum_cons. f_equal. ring.
Qed.

Lemma native_powers_spec yE n : forall i y2iE twoE a b, NativeToZr y2iE = zpow (NativeToZr yE) i -> NativeToZr twoE = zpow Two i ->
  exists ps ipy ip2, native_powers yE y2iE twoE a b n = (ps, ipy, ip2) /\ NativeToZr <$> ps = powers (NativeToZr yE) i n /\
    NativeToZr ipy = NativeToZr a + zsum (powers (NativeToZr yE) i n) /\ NativeToZr ip2 = NativeToZr b + zsum (powers Two i n).
Proof.
  induction n as [|n IH]; intros i y2iE twoE a b Hy Ht; cbn [native_powers seq].
  { exists [], a, b. rewrite !fmap_nil, zsum_nil. split_and!; [done|done|ring|ring]. }
  destruct (IH (S i) (Fr_Mul y2iE yE) (Fr_Mul twoE (Fr_SetInt64 2)) (Fr_Add a y2iE) (Fr_Add b twoE)) as (ps & ipy & ip2 & -> & Hps & Hi & H2);
    [rewrite native_mul, Hy; cbn [zpow]; ring|rewrite native_mul, native_two, Ht; cbn [zpow]; ring|].
  exists (y2iE :: ps), ipy, ip2. rewrite !fmap_cons, Hps, Hi, H2, !native_add, Hy, Ht, !zsum_cons. split_and!; [done|done|ring|ring].
Qed.

Lemma native_zi_spec zE zsE ps : forall i n twoE y, NativeToZr zsE = NativeToZr zE * NativeToZr zE -> NativeToZr twoE = zpow Two i ->
  NativeToZr <$> ps = powers y i n -> native_zi zE zsE twoE ps = zi_of y (NativeToZr zE) i n.
Proof.
  induction ps as [|q ps IH]; intros i [|n] twoE y Hs Ht Hp; try done; cbn [seq] in Hp; rewrite ?fmap_cons in Hp; try done.
  injection Hp as Hq Hp. cbn [native_zi]. unfold zi_of. cbn [seq]. rewrite fmap_cons. f_equal.
  - by rewrite native_add, !native_mul, Hs, Ht, Hq.
  - apply IH; [done| |done]. rewrite native_mul, native_two, Ht. cbn [zpow]. ring.
Qed.

(** What both verifiers check. *)
Definition verify_spec (v : rangeVerifier) (e : proof_elements) (x y z : Zr) (tr : bytes) : res unit :=
  let n := length (rpv_RightGenerators v) in
  check_value v e x (x * x) (z * z) ((z - z * z) * zsum (powers y 0 n) - z * z * z * zsum (powers Two 0 n)) ;;
  check_ipa v e x (Neg z) (Neg (pe_Delta e)) (zi_of y z 0 n) (scaled y 0 (rpv_RightGenerators v)) tr.

Lemma scaled_lookup y gs i g : scaled y 0 gs !! i = Some g -> exists h, gs !! i = Some h /\ (i < length gs)%nat /\ g = (h ⋅ InvModOrder (zpow y i))%g1.
Proof.
  unfold scaled. intros (h & p & -> & Hh & Hp)%lookup_zip_with_Some. exists h. split; [done|]. pose proof (lookup_lt_Some _ _ _ Hh). split; [done|].
  rewrite list_lookup_fmap, lookup_seq_lt in Hp by done. by injection Hp as <-.
Qed.

Lemma length_scaled y i gs : length (scaled y i gs) = length gs.
Proof. unfold scaled. rewrite length_zip_with, length_fmap, length_seq. lia. Qed.

Lemma powers_lookup y n i : (i < n)%nat -> powers y 0 n !! i = Some (zpow y i).
Proof. intros Hi. rewrite list_lookup_fmap, lookup_seq_lt by done. done. Qed.

Lemma nativeRPVerify_spec v e x y z tr : length (rpv_LeftGenerators v) = length (rpv_RightGenerators v) -> y <> Zero ->
  nativeRPVerify v e x y z tr = verify_spec v e x y z tr.
Proof.
  intros Hlen Hy. unfold nativeRPVerify, verify_spec. set (n := length (rpv_RightGenerators v)) in *.
  destruct (native_powers_spec (SetNativeFromZr y) n 0 Fr_One Fr_One Fr_Zero Fr_Zero) as (ps & ipy & ip2 & -> & Hps & Hipy & Hip2); [apply native_one..|].
  rewrite native_set in Hps, Hipy. rewrite native_zero in Hipy, Hip2.
  assert (length ps = n) as Hn by (apply (f_equal length) in Hps; rewrite !length_fmap, length_seq in Hps; done).
  rewrite !native_sub, !native_mul, !native_sub, !native_mul, !native_set, Hipy, Hip2.
  replace ((z - z * z) * (Zero + zsum (powers y 0 n)) - z * z * z * (Zero + zsum (powers Two 0 n)))
    with ((z - z * z) * zsum (powers y 0 n) - z * z * z * zsum (powers Two 0 n)) by ring.
  destruct (check_value _ _ _ _ _ _) as [[]| |]; [|done..]. cbn [mbind res_mbind].
  unfold nativeRPVerifyIPA. rewrite Hlen. fold n. rewrite (mapM_fill _ ps n Hn) by (intros i a Ha; by apply index_Some).
  cbn [mbind res_mbind]. rewrite (mapM_fill _ (scaled y 0 (rpv_RightGenerators v)) n (length_scaled _ _ _)).
  - cbn [mbind res_mbind]. rewrite (native_zi_spec _ _ _ 0 n _ y); [|by rewrite native_mul|apply native_one|done].
    rewrite !native_sub, native_zero, !native_set. f_equal; ring.
  - intros i g Hg. apply scaled_lookup in Hg as (h & Hh & Hi & ->). rewrite (index_Some _ _ _ Hh). cbn [mbind res_mbind].
    assert (Forall (fun q => NativeToZr q <> Zero) ps) as Hnz.
    { pose proof (powers_nonzero y 0 n Hy) as Hnz. rewrite <- Hps in Hnz. rewrite Forall_forall in Hnz. apply Forall_forall. intros q Hq. apply Hnz, list_elem_of_fmap. by exists q. }
    pose proof (NativeBatchInverse_map ps Hnz) as HB. rewrite Hps in HB. apply (f_equal (lookup i)) in HB.
    rewrite !list_lookup_fmap, lookup_seq_lt in HB by done. cbn in HB.
    destruct (NativeBatchInverse ps !! i) as [q|] eqn:Eq; [|done]. cbn in HB. injection HB as HB.
    rewrite (index_Some _ _ _ Eq). cbn [mbind res_mbind]. by rewrite HB.
Qed.

Lemma genericRPVerify_spec v e x y z tr : cached_curve = true -> (1 <= length (rpv_RightGenerators v) <= NumBits)%nat ->
  length (rpv_LeftGenerators v) = length (rpv_RightGenerators v) -> y <> Zero ->
  genericRPVerify v e x (PowMod x Two) y z tr = verify_spec v e x y z tr.
Proof.
  intros Hc Hb Hlen Hy. unfold genericRPVerify, verify_spec. set (n := length (rpv_RightGenerators v)) in *.
  unfold SumOfPowersOfTwo. rewrite Hc. destruct (Nat.leb_spec 1 n), (Nat.leb_spec n NumBits); try lia. cbn [andb mbind res_mbind].
  rewrite y_powers_spec by by left. rewrite !zr_pow2.
  replace (Zero + zsum (powers y 0 n)) with (zsum (powers y 0 n)) by ring.
  destruct (check_value _ _ _ _ _ _) as [[]| |]; [|done..]. cbn [mbind res_mbind].
  unfold verifyIPA. rewrite Hlen. fold n. rewrite BatchInverse_map by by apply powers_nonzero.
  assert (length (zi_of y z 0 n) = n) as Lz by (unfold zi_of; by rewrite length_fmap, length_seq).
  rewrite (mapM_fill _ (zi_of y z 0 n) n Lz).
  - cbn [mbind res_mbind]. rewrite (mapM_fill _ (scaled y 0 (rpv_RightGenerators v)) n (length_scaled _ _ _)).
    + cbn [mbind res_mbind]. fold Zero. f_equal; ring.
    + intros i g Hg. apply scaled_lookup in Hg as (h & Hh & Hi & ->). rewrite (index_Some _ _ _ Hh). cbn [mbind res_mbind].
      rewrite (index_Some _ i (InvModOrder (zpow y i))); [done|]. rewrite list_lookup_fmap, powers_lookup by done. done.
  - intros i a Ha. pose proof (lookup_lt_Some _ _ _ Ha) as Hj. rewrite Lz in Hj. unfold zi_of in Ha.
    rewrite list_lookup_fmap, lookup_seq_lt in Ha by done. injection Ha as <-. rewrite (index_Some _ _ _ (powers_lookup y n _ Hj)). cbn [mbind res_mbind]. rewrite zr_addmul2, PowerOfTwo_cached by (done || lia). done.
Qed.

(** ** The honest prover *)

(** The value is the sum of its bits. *)
Lemma new_add a b : (0 <= a)%Z -> (0 <= b)%Z -> (a + b < two64)%Z -> NewZrFromUint64 (a + b)%Z = NewZrFromUint64 a + NewZrFromUint64 b.
Proof.
  intros Ha Hb. revert b Hb. apply (natlike_ind (fun b => (a + b < two64)%Z -> NewZrFromUint64 (a + b)%Z = NewZrFromUint64 a + NewZrFromUint64 b)).
  - intros _. rewrite Z.add_0_r. fold Zero. ring.
  - intros b Hb IH Hlt. unfold two64 in *. replace (a + Z.succ b)%Z with (a + b + 1)%Z by lia.
    rewrite zr_succ by (unfold two64; lia). replace (Z.succ b) with (b + 1)%Z by lia. rewrite zr_succ by (unfold two64; lia).
    rewrite IH by lia. ring.
Qed.

Lemma two_one : Two = One + One.
Proof. unfold Two, One. replace 2%Z with (1 + 1)%Z by lia. rewrite new_add by (unfold two64; lia). done. Qed.

Lemma new_pow2 i : (i < 64)%nat -> NewZrFromUint64 (2 ^ Z.of_nat i)%Z = zpow Two i.
Proof.
  induction i as [|i IH]; intros Hi; [done|]. rewrite zpow_S, <- IH by lia. rewrite Nat2Z.inj_succ, Z.pow_succ_r by lia.
  assert (2 ^ Z.of_nat i <= 2 ^ 62)%Z as Hp by (apply Z.pow_le_mono_r; lia). pose proof (Z.pow_pos_nonneg 2 (Z.of_nat i) ltac:(lia) ltac:(lia)).
  replace (2 * 2 ^ Z.of_nat i)%Z with (2 ^ Z.of_nat i + 2 ^ Z.of_nat i)%Z by lia. rewrite new_add by (unfold two64; lia). rewrite two_one. ring.
Qed.

Lemma value_bit_spec v i : (i < 64)%nat -> value_bit v i = ((v / 2 ^ Z.of_nat i) mod 2)%Z.
Proof.
  intros Hi. unfold value_bit. rewrite Z.shiftl_1_l. unfold u64.
  assert (2 ^ Z.of_nat i <= 2 ^ 63)%Z as Hp by (apply Z.pow_le_mono_r; lia). pose proof (Z.pow_pos_nonneg 2 (Z.of_nat i) ltac:(lia) ltac:(lia)).
  rewrite Z.mod_small by (unfold two64; lia). rewrite <- Z.testbit_spec' by lia.
  assert (Z.land (2 ^ Z.of_nat i) v = if Z.testbit v (Z.of_nat i) then 2 ^ Z.of_nat i else 0)%Z as ->.
  { apply Z.bits_inj'. intros k Hk. rewrite Z.land_spec, Z.pow2_bits_eqb by lia. destruct (Z.eqb_spec (Z.of_nat i) k) as [<-|Hne].
    - cbn [andb]. destruct (Z.testbit v (Z.of_nat i)); [by rewrite Z.pow2_bits_true by lia|by rewrite Z.bits_0].
    - cbn [andb]. destruct (Z.testbit v (Z.of_nat i)); [by rewrite Z.pow2_bits_false by lia|by rewrite Z.bits_0]. }
  destruct (Z.testbit v (Z.of_nat i)); cbn [Z.b2z]; [destruct (Z.ltb_spec 0 (2 ^ Z.of_nat i)); [done|lia]|done].
Qed.

Abbreviation bit v i := (NewZrFromUint64 (value_bit v i)).

Lemma bits_value v n : (n <= 64)%nat -> (0 <= v)%Z -> zsum ((fun i => bit v i * zpow Two i) <$> seq 0 n) = NewZrFromUint64 (v mod 2 ^ Z.of_nat n)%Z.
Proof.
  intros Hn Hv. induction n as [|n IH].
  { cbn [seq]. rewrite fmap_nil, zsum_nil. cbn [Z.of_nat]. by rewrite Z.pow_0_r, Z.mod_1_r. }
  rewrite seq_S, fmap_app, zsum_app, IH by lia. cbn [fmap list_fmap Nat.add]. rewrite zsum_cons, zsum_nil, <- new_pow2, value_bit_spec by lia.
  assert (0 < 2 ^ Z.of_nat n <= 2 ^ 63)%Z as Hp by (split; [lia|apply Z.pow_le_mono_r; lia]).
  rewrite Nat2Z.inj_succ, Z.pow_succ_r, (Z.mul_comm 2), Z.rem_mul_r by lia.
  pose proof (Z.mod_pos_bound v (2 ^ Z.of_nat n) ltac:(lia)) as Hm. pose proof (Z.mod_pos_bound (v / 2 ^ Z.of_nat n) 2 ltac:(lia)) as Hb.
  rewrite new_add by (unfold two64; nia). assert ((v / 2 ^ Z.of_nat n) mod 2 = 0 \/ (v / 2 ^ Z.of_nat n) mod 2 = 1)%Z as [->| ->] by lia.
  - rewrite Z.mul_0_r. fold Zero. ring.
  - rewrite Z.mul_1_r. fold One. ring.
Qed.

Lemma bit_square v i : (i < 64)%nat -> bit v i * bit v i = bit v i.
Proof.
  intros Hi. rewrite value_bit_spec by done. pose proof (Z.mod_pos_bound (v / 2 ^ Z.of_nat i) 2 ltac:(lia)).
  assert ((v / 2 ^ Z.of_nat i) mod 2 = 0 \/ (v / 2 ^ Z.of_nat i) mod 2 = 1)%Z as [->| ->] by lia; [fold Zero|fold One]; ring.
Qed.

Lemma product_expand x es : forall u, length u = length es ->
  ip (left_of x es u) (right_of x es u) = zsum ((fun '(lp, rp, rrp, zp) => lp * (rp + zp)) <$> es) + x * t1_of es u + x * x * t2_of es u.
Proof.
  induction es as [|[[[lp rp] rrp] zp] es IH]; intros [|a u]; try done; intros Hu.
  - change (Zero = Zero + x * Zero + x * x * Zero). ring.
  - unfold left_of, right_of, t1_of, t2_of in *. rewrite fmap_cons. cbn [zip_with]. rewrite ip_cons, !zsum_cons, IH by (cbn in Hu; lia). ring.
Qed.

Lemma constant_term y z l : forall i v, Forall (fun a => a * a = a) l -> length v = length l ->
  zsum ((fun '(lp, rp, rrp, zp) => lp * (rp + zp)) <$> entries y z (z * z) i l ((fun a => a - One) <$> l) v)
  = (z - z * z) * zsum (powers y i (length l)) + z * z * zsum (zip_with ModMul l (powers Two i (length l))) - z * z * z * zsum (powers Two i (length l)).
Proof.
  induction l as [|a l IH]; intros i [|c v] HF; try done; intros Hv.
  - cbn [length seq]. rewrite fmap_nil. change (Zero = (z - z * z) * Zero + z * z * Zero - z * z * z * Zero). ring.
  - apply Forall_cons in HF as [Ha HF]. cbn [length seq]. rewrite !fmap_cons. cbn [entries]. rewrite fmap_cons. cbn [zip_with].
    rewrite !zsum_cons, IH by (done || (cbn in Hv; lia)). ring [Ha].
Qed.

Lemma left_commit y z zs x l : forall (g : list G1) r u v i, length g = length l -> length r = length l -> length v = length l -> length u = length l ->
  (msm g u ⋅ x + msm g l + msm g (replicate (length l) (Neg z)) = msm g (left_of x (entries y z zs i l r v) u))%g1.
Proof.
  induction l as [|a l IH]; intros [|p g] [|b r] [|d u] [|c v] i Hg Hr Hv Hu; try done.
  - change (NewG1 ⋅ x + NewG1 + NewG1 = NewG1)%g1. linear.
  - cbn [length replicate entries]. unfold left_of. cbn [zip_with]. fold (left_of x (entries y z zs (S i) l r v) u).
    rewrite !msm_cons, <- (IH g r u v (S i)) by (cbn in *; lia). linear.
Qed.

Lemma right_commit y z x l : y <> Zero -> forall (h : list G1) r u v i, length h = length l -> length r = length l -> length v = length l -> length u = length l ->
  (msm h v ⋅ x + msm h r + msm (scaled y i h) (zi_of y z i (length l)) = msm (scaled y i h) (right_of x (entries y z (z * z) i l r v) u))%g1.
Proof.
  intros Hy. induction l as [|a l IH]; intros [|p h] [|b r] [|d u] [|c v] i Hg Hr Hv Hu; try done.
  - change (NewG1 ⋅ x + NewG1 + NewG1 = NewG1)%g1. linear.
  - unfold scaled, zi_of. cbn [length seq entries]. rewrite !fmap_cons. unfold right_of. cbn [zip_with].
    fold (right_of x (entries y z (z * z) (S i) l r v) u) (scaled y (S i) h) (zi_of y z (S i) (length l)).
    rewrite !msm_cons, <- (IH h r u v (S i)) by (cbn in *; lia).
    pose proof (zr_inv _ (zpow_nonzero y i Hy)) as Hi. linear_with ltac:(idtac; ring [Hi]).
Qed.

(** The challenges of a range proof that must not vanish: [y] and those of the
    inner-product argument. *)
Definition range_challenges (v : rangeVerifier) (rp : RangeProof) : list Zr :=
  match proof_elements_of (Some rp) with
  | Ok e =>
      let tr := absorbPublicStatement (InitHasherWithDomain TranscriptDomain)
                  (rpv_CommitmentGenerators v) (rpv_LeftGenerators v) (rpv_RightGenerators v) (rpv_BitLength v) in
      let '(y, tr) := Squeeze (Absorb (Absorb (Absorb tr (G1_Bytes (rpv_Commitment v))) (G1_Bytes (pe_C e))) (G1_Bytes (pe_D e))) in
      let '(z, tr) := Squeeze tr in
      let '(x, tr) := Squeeze (Absorb (Absorb tr (G1_Bytes (pe_T1 e))) (G1_Bytes (pe_T2 e))) in
      y :: ipa_challenges (ipa_statement v e x (Neg z) (Neg (pe_Delta e)) (zi_of y z 0 (length (rpv_RightGenerators v)))
                             (scaled y 0 (rpv_RightGenerators v))) (pe_IPA e) tr
  | _ => []
  end.

(** The verifier that has the prover's public inputs. *)
Definition range_verifier_of (p : rangeProver) : rangeVerifier :=
  {| rpv_Commitment := rpr_Commitment p; rpv_CommitmentGenerators := rpr_CommitmentGenerators p;
     rpv_LeftGenerators := rpr_LeftGenerators p; rpv_RightGenerators := rpr_RightGenerators p; rpv_P := rpr_P p; rpv_Q := rpr_Q p;
     rpv_NumberOfRounds := rpr_NumberOfRounds p; rpv_BitLength := rpr_BitLength p |}.

(** The parameters are consistent: one generator of each kind per bit, a power
    of two of at most 64 bits, an arithmetic the curve supports. *)
Definition range_params_ok (p : rangeProver) : Prop :=
  rpr_BitLength p = (2 ^ rpr_NumberOfRounds p)%nat /\ (rpr_BitLength p <= NumBits)%nat /\
  length (rpr_LeftGenerators p) = rpr_BitLength p /\ length (rpr_RightGenerators p) = rpr_BitLength p /\
  (DispatchCurve <> (false, false) \/ cached_curve = true).

(** The commitment the verifier reconstructs is the one the prover opened. *)
Lemma commit_agree y z x l r u v (g h : list G1) P rho eta : y <> Zero ->
  let n := length l in
  length g = n -> length h = n -> length r = n -> length u = n -> length v = n ->
  let es := entries y z (z * z) 0 l r v in
  MultiScalarMul ([CommitVectorPlusOne u v g h eta P; CommitVectorPlusOne l r g h rho P] ++ g ++ scaled y 0 h ++ [P])
    ([x; NewZrFromUint64 1] ++ replicate n (Neg z) ++ zi_of y z 0 n ++ [Neg (rho + eta * x)])
  = CommitVector (left_of x es u) (right_of x es u) g (scaled y 0 h).
Proof.
  intros Hy n Hg Hh Hr Hu Hv es. pose proof (length_entries y z (z * z) l r v 0 Hr Hv) as Hes. fold es in Hes.
  assert (length (zi_of y z 0 n) = n) as Lz by (unfold zi_of; by rewrite length_fmap, length_seq).
  assert (length (left_of x es u) = n /\ length (right_of x es u) = n) as [Ll Lr] by (unfold left_of, right_of; rewrite !length_zip_with; lia).
  unfold CommitVectorPlusOne, CommitVector.
  rewrite !g1_msm by (rewrite ?length_app; cbn [length]; rewrite ?length_app, ?length_scaled, ?length_replicate, ?Lz, ?Ll, ?Lr; cbn [length]; lia).
  cbn [app]. rewrite !msm_cons. rewrite !msm_app by (rewrite ?length_scaled, ?length_replicate, ?Lz, ?Ll, ?Lr; lia). rewrite !msm_cons. change (msm [] []) with NewG1.
  unfold es. rewrite <- (left_commit y z (z * z) x l g r u v 0) by lia. rewrite <- (right_commit y z x l Hy h r u v 0) by lia.
  fold One n. linear.
Qed.

(** The commitment to the value passes the check of the polynomial. *)
Lemma value_agree (g0 g1 : G1) y z x l u v val bf tau1 tau2 :
  Forall (fun a => a * a = a) l -> length u = length l -> length v = length l -> zsum (zip_with ModMul l (powers Two 0 (length l))) = val ->
  let es := entries y z (z * z) 0 l ((fun a => a - One) <$> l) v in
  (g0 ⋅ ip (left_of x es u) (right_of x es u) + g1 ⋅ (x * tau1 + (x * x * tau2 + z * z * bf))%zr
   - (g0 ⋅ t1_of es u + g1 ⋅ tau1) ⋅ x - (g0 ⋅ t2_of es u + g1 ⋅ tau2) ⋅ (x * x)%zr
   = (g0 ⋅ val + g1 ⋅ bf) ⋅ (z * z)%zr
     + g0 ⋅ ((z - z * z) * zsum (powers y 0 (length l)) - z * z * z * zsum (powers Two 0 (length l)))%zr)%g1.
Proof.
  intros HF Hu Hv Hval es. unfold es. rewrite product_expand by (rewrite length_entries; rewrite ?length_fmap; done).
  rewrite constant_term by done. rewrite Hval. linear.
Qed.

Lemma zip_bits v n i : zip_with ModMul ((fun i => bit v i) <$> seq i n) (powers Two i n) = (fun i => bit v i * zpow Two i) <$> seq i n.
Proof. revert i. induction n as [|n IH]; intros i; [done|]. cbn [seq]. rewrite !fmap_cons. cbn [zip_with]. f_equal. apply IH. Qed.

Lemma length_scale_generators a gs : forall b, length (scale_generators a b gs) = length gs.
Proof. induction gs as [|g gs IH]; intros b; [done|]. cbn. by rewrite IH. Qed.

(** Both arithmetics run the same preprocessing. *)
Lemma preprocess_both p l r u v y z C D rho eta rand rand2 tr :
  range_params_ok p -> length l = rpr_BitLength p -> length r = length l -> length v = length l -> length u = length l ->
  exists tau1 tau2,
    (let '(isBLS, isBN254) := DispatchCurve in
     if isBLS || isBN254 then rand2' ← Ok rand2; nativeRPPreprocess p l r u v y z C D rho eta rand2' tr
     else genericRPPreprocess p l r u v y z C D rho eta rand tr)
    = preprocess_spec p l r u v y z C D rho eta tau1 tau2 tr.
Proof.
  intros (Hn & Hb & HL & HR & Hd) Hl Hr Hv Hu. destruct DispatchCurve as [isBLS isBN] eqn:Ed. destruct (isBLS || isBN) eqn:Eo.
  - do 2 eexists. cbn [mbind res_mbind]. apply nativeRPPreprocess_spec.
  - apply orb_false_iff in Eo as [-> ->]. destruct Hd as [Hd|Hc]; [done|]. do 2 eexists. apply genericRPPreprocess_spec; try done. lia.
Qed.

Lemma verify_both v e x y z tr : rpv_BitLength v = length (rpv_RightGenerators v) -> length (rpv_LeftGenerators v) = length (rpv_RightGenerators v) ->
  (1 <= rpv_BitLength v <= NumBits)%nat -> (DispatchCurve <> (false, false) \/ cached_curve = true) -> y <> Zero ->
  (let '(isBLS, isBN254) := DispatchCurve in
   if isBLS || isBN254 then nativeRPVerify v e x y z tr else genericRPVerify v e x (PowMod x Two) y z tr)
  = verify_spec v e x y z tr.
Proof.
  intros Hb Hl Hn Hd Hy. destruct DispatchCurve as [isBLS isBN] eqn:Ed. destruct (isBLS || isBN) eqn:Eo.
  - by apply nativeRPVerify_spec.
  - apply orb_false_iff in Eo as [-> ->]. destruct Hd as [Hd|Hc]; [done|]. apply genericRPVerify_spec; try done. lia.
Qed.

Lemma range_completeness p g0 g1 gs rand rand2 : range_params_ok p ->
  rpr_CommitmentGenerators p = g0 :: g1 :: gs -> (0 <= rpr_value p < 2 ^ Z.of_nat (rpr_BitLength p))%Z ->
  rpr_Commitment p = (g0 ⋅ NewZrFromUint64 (rpr_value p) + g1 ⋅ rpr_blindingFactor p)%g1 ->
  exists rp, rangeProver_Prove p (Ok rand) (Ok rand2) = Ok rp /\
    (Forall (fun c => c <> Zero) (range_challenges (range_verifier_of p) rp) -> rangeVerifier_Verify (range_verifier_of p) (Some rp) = Ok tt).
Proof.
  intros Hok Hgens Hval Hcom. pose proof Hok as (Hn & Hb & HL & HR & Hd). set (n := rpr_BitLength p) in *.
  unfold rangeProver_Prove, preprocess. cbn [mbind res_mbind]. fold n.
  set (l := (fun i => bit (rpr_value p) i) <$> seq 0 n). set (r := (fun l => l - One) <$> l).
  set (u := (fun i => rand (2 + 2 * i)%nat) <$> seq 0 n). set (v := (fun i => rand (3 + 2 * i)%nat) <$> seq 0 n).
  set (C := CommitVectorPlusOne l r _ _ _ _). set (D := CommitVectorPlusOne u v _ _ _ _).
  assert (length l = n /\ length r = n /\ length u = n /\ length v = n) as (Ll & Lr & Lu & Lv)
    by (unfold r, l, u, v; rewrite !length_fmap, length_seq; done).
  set (tr0 := absorbPublicStatement _ _ _ _ _). destruct (Squeeze (Absorb (Absorb (Absorb tr0 _) _) _)) as [y tr1] eqn:Ey. destruct (Squeeze tr1) as [z tr2] eqn:Ez.
  destruct (preprocess_both p l r u v y z C D (rand 0%nat) (rand 1%nat) rand rand2 tr2 Hok) as (tau1 & tau2 & Hpre); [lia..|].
  cbn [mbind res_mbind] in Hpre. rewrite Hpre. clear Hpre. unfold preprocess_spec. rewrite Hgens. cbn [index lookup list_lookup mbind res_mbind].
  set (es := entries y z (z * z) 0 l r v). set (T1 := (g0 ⋅ t1_of es u + g1 ⋅ tau1)%g1). set (T2 := (g0 ⋅ t2_of es u + g1 ⋅ tau2)%g1).
  destruct (Squeeze (Absorb (Absorb tr2 (G1_Bytes T1)) (G1_Bytes T2))) as [x tr3] eqn:Ex. cbn [mbind res_mbind pre_left pre_right pre_y pre_transcript pre_T1 pre_T2 pre_C pre_D pre_Tau pre_Delta].
  set (ipp := {| ipp_rightVector := _ |}).
  pose proof (length_entries y z (z * z) l r v 0 ltac:(lia) ltac:(lia)) as Les. fold es in Les.
  assert (length (left_of x es u) = n /\ length (right_of x es u) = n) as [L1 L2] by (unfold left_of, right_of; rewrite !length_zip_with; lia).
  destruct (ipa_completeness ipp tr3) as (ipa & tr4 & Hprove & Hverify); try (cbn; lia); try done.
  { cbn. rewrite length_scale_generators. lia. }
  rewrite Hprove. cbn [mbind res_mbind]. eexists. split; [reflexivity|].
  unfold range_challenges, rangeVerifier_Verify, proof_elements_of. cbn [rp_Data rp_IPA rpd_InnerProduct rpd_C rpd_D rpd_T1 rpd_T2 rpd_Tau rpd_Delta mbind res_mbind].
  cbn [range_verifier_of rpv_CommitmentGenerators rpv_LeftGenerators rpv_RightGenerators rpv_BitLength rpv_Commitment pe_C pe_D pe_T1 pe_T2 pe_Delta pe_IPA].
  fold n. fold tr0. rewrite Ey, Ez, Ex. intros [Hy Hz]%Forall_cons.
  rewrite HL, HR, !Nat.eqb_refl. cbn [negb orb].
  assert (1 <= n)%nat as Hpos by (rewrite Hn; pose proof (Nat.pow_nonzero 2 (rpr_NumberOfRounds p)); lia).
  rewrite verify_both; cbn [rpv_RightGenerators rpv_LeftGenerators rpv_BitLength range_verifier_of]; try done; try lia.
  unfold verify_spec. cbn [rpv_RightGenerators rpv_LeftGenerators rpv_BitLength range_verifier_of]. rewrite HR.
  set (e := {| pe_T1 := T1 |}) in *. change (pe_Delta e) with (rand 0%nat + rand 1%nat * x). assert (check_value (range_verifier_of p) e x (x * x) (z * z)
     ((z - z * z) * zsum (powers y 0 n) - z * z * z * zsum (powers Two 0 n)) = Ok tt) as ->.
  { unfold check_value. cbn [rpv_CommitmentGenerators range_verifier_of]. rewrite Hgens. cbn [index lookup list_lookup mbind res_mbind].
    rewrite decide_True; [done|]. cbn [e pe_InnerProduct pe_Tau pe_T1 pe_T2 rpv_Commitment range_verifier_of]. rewrite g1_mul2, Hcom. unfold InnerProduct. rewrite zr_addmul by lia.
    rewrite <- Ll. apply value_agree; [|lia|lia|].
    - apply Forall_fmap, Forall_forall. intros i Hi%elem_of_seq. apply bit_square. unfold NumBits in Hb. lia.
    - rewrite Ll. unfold l. rewrite zip_bits, bits_value by (unfold NumBits in Hb; lia). by rewrite Z.mod_small. }
  cbn [mbind res_mbind]. unfold check_ipa.
  assert (ipa_statement (range_verifier_of p) e x (Neg z) (Neg (rand 0%nat + rand 1%nat * x)) (zi_of y z 0 n) (scaled y 0 (rpr_RightGenerators p)) = verifier_of ipp) as Hst.
  { unfold ipa_statement, verifier_of. cbn [rpv_LeftGenerators rpv_RightGenerators rpv_P rpv_Q rpv_NumberOfRounds range_verifier_of e pe_D pe_C pe_Delta pe_InnerProduct
      ipp ipp_InnerProduct ipp_Q ipp_RightGenerators ipp_LeftGenerators ipp_Commitment ipp_NumberOfRounds].
    rewrite (scale_generators_spec y _ 0) by (done || (symmetry; apply inv_one)). f_equal. unfold C, D. rewrite HL, <- Ll. apply commit_agree; lia || done. }
  rewrite HR in Hz. rewrite Hst in Hz |- *. change (pe_IPA e) with ipa. by rewrite (Hverify Hz).
Qed.

End RangeSpec.

(** ** Sets of range proofs (rangecorrectness.go) *)

(** The tasks submitted to an executor write disjoint entries of a slice; after
    [Wait] the first error is returned.  A task that panics takes the process
    down, whatever the other tasks return. *)
Definition is_panic {A} (r : res A) : bool := match r with Panic => true | _ => false end.
Definition run_tasks {A} (tasks : list (res A)) : res (list A) :=
  if existsb is_panic tasks then Panic else mapM id tasks.

Section RangeSet.
Context {CO : Curve} {NA : Native}.

Record RangeCorrectnessProver := {
  rcp_Commitments : list G1;
  rcp_Values : list Z;
  rcp_BlindingFactors : list Zr;
  rcp_PedersenParameters : list G1;
  rcp_LeftGenerators : list G1;
  rcp_RightGenerators : list G1;
  rcp_BitLength : nat;
  rcp_NumberOfRounds : nat;
  rcp_P : G1;
  rcp_Q : G1;
}.

(** [rands i] is the pair of readers of the [i]-th proof. *)
Definition RangeCorrectnessProver_Prove (p : RangeCorrectnessProver) (rands : nat -> res (nat -> Zr) * res (nat -> Zr)) : res (list (option RangeProof)) :=
  run_tasks ((fun '(i, com) =>
    value ← index (rcp_Values p) i;
    bf ← index (rcp_BlindingFactors p) i;
    rp ← rangeProver_Prove
      {| rpr_Commitment := com; rpr_value := value; rpr_CommitmentGenerators := rcp_PedersenParameters p; rpr_blindingFactor := bf;
         rpr_LeftGenerators := rcp_LeftGenerators p; rpr_RightGenerators := rcp_RightGenerators p; rpr_P := rcp_P p; rpr_Q := rcp_Q p;
         rpr_NumberOfRounds := rcp_NumberOfRounds p; rpr_BitLength := rcp_BitLength p |} (rands i).1 (rands i).2;
    Ok (Some rp)) <$> zip (seq 0 (length (rcp_Commitments p))) (rcp_Commitments p)).

Record RangeCorrectnessVerifier := {
  rcv_Commitments : list G1;
  rcv_PedersenParameters : list G1;
  rcv_LeftGenerators : list G1;
  rcv_RightGenerators : list G1;
  rcv_BitLength : nat;
  rcv_NumberOfRounds : nat;
  rcv_P : G1;
  rcv_Q : G1;
}.

Definition RangeCorrectnessVerifier_Verify (v : RangeCorrectnessVerifier) (proofs : list (option RangeProof)) : res unit :=
  if negb (length proofs =? length (rcv_Commitments v))%nat then Err (EMsg "invalid range proof") else
  _ ← wrap "invalid range proof at index" (run_tasks (zip_with (fun proof com =>
    match proof with
    | None => Err (EMsg "invalid range proof: nil proof at index")
    | Some _ =>
        rangeVerifier_Verify
          {| rpv_Commitment := com; rpv_CommitmentGenerators := rcv_PedersenParameters v; rpv_LeftGenerators := rcv_LeftGenerators v;
             rpv_RightGenerators := rcv_RightGenerators v; rpv_P := rcv_P v; rpv_Q := rcv_Q v; rpv_NumberOfRounds := rcv_NumberOfRounds v;
             rpv_BitLength := rcv_BitLength v |} proof
    end) proofs (rcv_Commitments v)));
  Ok tt.

End RangeSet.

Section RangeSetProofs.
Context {CO : Curve} {CL : CurveLaws} {NA : Native} {NL : NativeLaws}.

Lemma run_tasks_Ok {A} (l : list A) : run_tasks (Ok <$> l) = Ok l.
Proof.
  unfold run_tasks. assert (existsb is_panic (Ok <$> l) = false) as -> by (by induction l).
  induction l as [|a l IH]; [done|]. rewrite fmap_cons. cbn [mapM]. cbn. by rewrite IH.
Qed.

(** The prover of one commitment of the set. *)
Definition set_prover (p : RangeCorrectnessProver) (com : G1) (value : Z) (bf : Zr) : rangeProver :=
  {| rpr_Commitment := com; rpr_value := value; rpr_CommitmentGenerators := rcp_PedersenParameters p; rpr_blindingFactor := bf;
     rpr_LeftGenerators := rcp_LeftGenerators p; rpr_RightGenerators := rcp_RightGenerators p; rpr_P := rcp_P p; rpr_Q := rcp_Q p;
     rpr_NumberOfRounds := rcp_NumberOfRounds p; rpr_BitLength := rcp_BitLength p |}.

Definition set_verifier_of (p : RangeCorrectnessProver) : RangeCorrectnessVerifier :=
  {| rcv_Commitments := rcp_Commitments p; rcv_PedersenParameters := rcp_PedersenParameters p; rcv_LeftGenerators := rcp_LeftGenerators p;
     rcv_RightGenerators := rcp_RightGenerators p; rcv_BitLength := rcp_BitLength p; rcv_NumberOfRounds := rcp_NumberOfRounds p;
     rcv_P := rcp_P p; rcv_Q := rcp_Q p |}.

Lemma list_choose {A B} (P : nat -> A -> B -> Prop) (l : list A) : forall k,
  (forall i a, l !! i = Some a -> exists b, P (k + i)%nat a b) ->
  exists bs, length bs = length l /\ forall i a b, l !! i = Some a -> bs !! i = Some b -> P (k + i)%nat a b.
Proof.
  induction l as [|a l IH]; intros k H; [by exists []|].
  destruct (H 0%nat a eq_refl) as [b Hb]. destruct (IH (S k)) as (bs & Hl & Hbs).
  { intros i x Hx. rewrite Nat.add_succ_comm. by apply H. }
  exists (b :: bs). split; [cbn; by f_equal|]. intros [|i] x y Hx Hy; cbn in Hx, Hy; simplify_eq; [done|].
  rewrite <- Nat.add_succ_comm. by apply Hbs.
Qed.

(** The statement of one proof of the set, as its verifier sees it. *)
Definition set_range_verifier (p : RangeCorrectnessProver) (com : G1) : rangeVerifier := range_verifier_of (set_prover p com 0 Zero).

Lemma set_completeness p g0 g1 gs rands :
  range_params_ok (set_prover p NewG1 0 Zero) -> rcp_PedersenParameters p = g0 :: g1 :: gs ->
  length (rcp_BlindingFactors p) = length (rcp_Values p) ->
  Forall (fun v => 0 <= v < 2 ^ Z.of_nat (rcp_BitLength p))%Z (rcp_Values p) ->
  rcp_Commitments p = zip_with (fun v bf => g0 ⋅ NewZrFromUint64 v + g1 ⋅ bf)%g1 (rcp_Values p) (rcp_BlindingFactors p) ->
  (forall i, exists r r2, rands i = (Ok r, Ok r2)) ->
  exists proofs, RangeCorrectnessProver_Prove p rands = Ok (Some <$> proofs) /\
    (Forall2 (fun com rp => Forall (fun c => c <> Zero) (range_challenges (set_range_verifier p com) rp)) (rcp_Commitments p) proofs ->
     RangeCorrectnessVerifier_Verify (set_verifier_of p) (Some <$> proofs) = Ok tt).
Proof.
  intros Hok Hgens Hlen Hvals Hcoms Hr. set (P := fun (i : nat) (com : G1) (rp : RangeProof) =>
    (value ← index (rcp_Values p) i; bf ← index (rcp_BlindingFactors p) i; rangeProver_Prove (set_prover p com value bf) (rands i).1 (rands i).2) = Ok rp /\
    (Forall (fun c => c <> Zero) (range_challenges (set_range_verifier p com) rp) -> rangeVerifier_Verify (set_range_verifier p com) (Some rp) = Ok tt)).
  destruct (list_choose P (rcp_Commitments p) 0) as (proofs & Hn & Hproofs).
  { intros i com Hcom. cbn [Nat.add]. rewrite Hcoms in Hcom. apply lookup_zip_with_Some in Hcom as (v & bf & -> & Hv & Hbf).
    destruct (Hr i) as (r & r2 & Hri). unfold P. rewrite (index_Some _ _ _ Hv), (index_Some _ _ _ Hbf), Hri. cbn [mbind res_mbind fst snd].
    rewrite Forall_lookup in Hvals.
    apply (range_completeness (set_prover p (g0 ⋅ NewZrFromUint64 v + g1 ⋅ bf)%g1 v bf) g0 g1 gs r r2); [done|done| |done]. by apply (Hvals i). }
  exists proofs. split.
  - unfold RangeCorrectnessProver_Prove. rewrite <- (run_tasks_Ok (Some <$> proofs)). f_equal. apply list_eq. intros i.
    rewrite !list_lookup_fmap, lookup_zip_with. destruct (rcp_Commitments p !! i) as [com|] eqn:Ec.
    + pose proof (lookup_lt_Some _ _ _ Ec) as Hi. rewrite lookup_seq_lt by done. destruct (lookup_lt_is_Some_2 proofs i) as [rp Hrp]; [lia|]. rewrite Hrp. cbn.
      destruct (Hproofs i com rp Ec Hrp) as [HP _]. cbn [Nat.add] in HP. f_equal. fold (set_prover p com).
      destruct (index (rcp_Values p) i) as [v| |]; [|done..]. cbn in HP |- *. destruct (index (rcp_BlindingFactors p) i) as [bf| |]; [|done..]. cbn in HP |- *.
      change (rangeProver_Prove (set_prover p com v bf) (rands i).1 (rands i).2 ≫= (fun rp => Ok (Some rp)) = Ok (Some rp)). by rewrite HP.
    + rewrite (lookup_ge_None_2 proofs i) by (apply lookup_ge_None in Ec; lia). by destruct (seq _ _ !! i).
  - intros HF. unfold RangeCorrectnessVerifier_Verify. cbn [set_verifier_of rcv_Commitments]. rewrite length_fmap, Hn, Nat.eqb_refl. cbn [negb].
    match goal with |- context [run_tasks ?ts] => assert (ts = Ok <$> replicate (length proofs) tt) as -> end; [|by rewrite run_tasks_Ok].
    apply list_eq. intros i. rewrite list_lookup_fmap, lookup_zip_with, list_lookup_fmap.
    destruct (proofs !! i) as [rp|] eqn:Er.
    + pose proof (lookup_lt_Some _ _ _ Er) as Hi. destruct (lookup_lt_is_Some_2 (rcp_Commitments p) i) as [com Hcom]; [lia|].
      cbn. rewrite Hcom, lookup_replicate_2 by done. cbn. f_equal. destruct (Hproofs i com rp Hcom Er) as [_ HV]. apply HV.
      by apply (Forall2_lookup_lr _ _ _ _ _ _ HF Hcom).
    + apply lookup_ge_None in Er. by rewrite (lookup_ge_None_2 (replicate _ _) i) by by rewrite length_replicate.
Qed.

(** ** The verifier never panics *)

Lemma check_ipa_no_panic v e x a b zs h tr : check_ipa v e x a b zs h tr <> Panic.
Proof. apply bind_no_panic; [apply ipaVerifier_no_panic|done]. Qed.

Lemma check_value_no_panic v e x a b c g0 g1 gs : rpv_CommitmentGenerators v = g0 :: g1 :: gs -> check_value v e x a b c <> Panic.
Proof. intros H. unfold check_value. rewrite H. cbn [index lookup list_lookup mbind res_mbind]. by destruct (decide _). Qed.

Lemma index_no_panic {A} (l : list A) i : (i < length l)%nat -> index l i <> Panic.
Proof. intros H. destruct (lookup_lt_is_Some_2 l i H) as [a Ha]. by rewrite (index_Some _ _ _ Ha). Qed.

Lemma length_NativeBatchInverse l : length (NativeBatchInverse l) = length l.
Proof.
  assert (forall pairs acc out, length (native_unwind acc pairs out) = (length pairs + 1 + length out)%nat) as Hb.
  { induction pairs as [|[a b] pairs IH]; intros acc out; [done|]. cbn. rewrite IH. cbn. lia. }
  assert (forall l acc, length (native_prefix acc l) = length l) as Hp.
  { induction l0 as [|x l0 IH]; intros acc; [done|]. cbn. by rewrite IH. }
  destruct l as [|x l]; [done|]. unfold NativeBatchInverse. rewrite Hb, length_rev, length_zip_with. cbn [length]. rewrite Hp. lia.
Qed.

Lemma length_native_powers yE n : forall a b c d, length (native_powers yE a b c d n).1.1 = n.
Proof.
  induction n as [|n IH]; intros a b c d; [done|]. cbn [native_powers].
  specialize (IH (Fr_Mul a yE) (Fr_Mul b (Fr_SetInt64 2)) (Fr_Add c a) (Fr_Add d b)). destruct (native_powers _ _ _ _ _ n) as [[ps i] j]. cbn in *. by f_equal.
Qed.

Lemma length_y_powers y n : forall prev acc i, length (y_powers y prev acc i n).1 = n.
Proof.
  induction n as [|n IH]; intros prev acc i; [done|]. cbn [y_powers].
  set (q := if (i =? 0)%nat then One else (y * prev)%zr). specialize (IH q (acc + q)%zr (S i)). destruct (y_powers _ _ _ _ n). cbn in *. by f_equal.
Qed.

(** The parameters of a verifier that cannot make it panic. *)
Definition verifier_params_ok (BitLength : nat) : Prop :=
  DispatchCurve <> (false, false) \/ (cached_curve = true /\ (1 <= BitLength <= NumBits)%nat).

Lemma rangeVerifier_no_panic v rp g0 g1 gs : rpv_CommitmentGenerators v = g0 :: g1 :: gs -> verifier_params_ok (rpv_BitLength v) ->
  rangeVerifier_Verify v rp <> Panic.
Proof.
  intros Hg Hok. unfold rangeVerifier_Verify. apply bind_no_panic.
  { unfold proof_elements_of. repeat case_match; done. }
  intros e. destruct (Nat.eqb_spec (length (rpv_LeftGenerators v)) (length (rpv_RightGenerators v))) as [E1|]; [|done].
  destruct (Nat.eqb_spec (length (rpv_LeftGenerators v)) (rpv_BitLength v)) as [E2|]; [|done]. cbn [negb orb].
  destruct (Squeeze _) as [y tr1]. destruct (Squeeze tr1) as [z tr2]. destruct (Squeeze _) as [x tr3].
  destruct DispatchCurve as [isBLS isBN] eqn:Ed. destruct (isBLS || isBN) eqn:Eo.
  - unfold nativeRPVerify. pose proof (length_native_powers (SetNativeFromZr y) (length (rpv_RightGenerators v)) Fr_One Fr_One Fr_Zero Fr_Zero) as Lp.
    destruct (native_powers _ _ _ _ _ _) as [[ps i] j]. cbn in Lp. apply bind_no_panic; [by eapply check_value_no_panic|]. intros _.
    unfold nativeRPVerifyIPA. rewrite (mapM_fill _ ps) by (first [lia|intros k a Ha; by apply index_Some]). cbn [mbind res_mbind].
    apply bind_no_panic; [|intros; apply check_ipa_no_panic]. apply mapM_no_panic. intros k Hk%elem_of_seq.
    apply bind_no_panic; [apply index_no_panic; lia|]. intros h. apply bind_no_panic; [apply index_no_panic; rewrite length_NativeBatchInverse; lia|done].
  - apply orb_false_iff in Eo as [-> ->]. destruct Hok as [Hok|[Hc Hn]]; [done|]. unfold genericRPVerify, SumOfPowersOfTwo.
    rewrite Hc. destruct (Nat.leb_spec 1 (length (rpv_RightGenerators v))), (Nat.leb_spec (length (rpv_RightGenerators v)) NumBits); try lia. cbn [andb mbind res_mbind].
    pose proof (length_y_powers y (length (rpv_RightGenerators v)) Zero Zero 0) as Lp. destruct (y_powers _ _ _ _ _) as [ps i]. cbn in Lp.
    apply bind_no_panic; [by eapply check_value_no_panic|]. intros _. unfold verifyIPA.
    apply bind_no_panic; [|intros zs; apply bind_no_panic; [|intros; apply check_ipa_no_panic]]; apply mapM_no_panic; intros k Hk%elem_of_seq.
    + apply bind_no_panic; [apply index_no_panic; lia|done].
    + apply bind_no_panic; [apply index_no_panic; lia|]. intros h. apply bind_no_panic; [apply index_no_panic; rewrite length_BatchInverse; lia|done].
Qed.

Lemma run_tasks_no_panic {A} (tasks : list (res A)) : Forall (fun r => r <> Panic) tasks -> run_tasks tasks <> Panic.
Proof.
  intros HF. unfold run_tasks. assert (existsb is_panic tasks = false) as -> by (induction HF as [|[] ? ? ? IH]; done || exact IH).
  apply mapM_no_panic. by apply Forall_forall.
Qed.

Lemma RangeCorrectness_no_panic v proofs g0 g1 gs : rcv_PedersenParameters v = g0 :: g1 :: gs -> verifier_params_ok (rcv_BitLength v) ->
  RangeCorrectnessVerifier_Verify v proofs <> Panic.
Proof.
  intros Hg Hok. unfold RangeCorrectnessVerifier_Verify. destruct (negb _); [done|]. apply bind_no_panic; [|done]. apply wrap_no_panic, run_tasks_no_panic.
  apply Forall_forall. intros r Hr. apply elem_of_lookup_zip_with in Hr as (i & p & com & -> & _ & _). destruct p; [|done]. by eapply rangeVerifier_no_panic.
Qed.

End RangeSetProofs.
