(* ===== verification/ZkSigma.v ===== *)
(** * Tokens and sigma protocols of the zero-knowledge driver
      (zkatdlog/nogh/v1/token/token.go, transfer/typeandsum.go, issue/sametype.go)

    A token is a Pedersen commitment to its type, its value and a blinding
    factor.  [TypeAndSum] shows that the inputs and the outputs of a transfer
    commit to one type and to the same total; [SameType] that the tokens of an
    issue commit to one type.  The module shows that honest proofs are accepted,
    what acceptance means exactly, and that two accepting proofs with the same
    first message and different challenges open the inputs and force the totals
    to agree. *)

From S2P Require Import Prelude GoStd TokenTypes Asn1 ZkMath ZkIpa.
From Stdlib Require Import ZArith Lia Ring.

(** ** Tokens and their openings *)

Record ZkMetadata `{!Curve} := {
  mt_Type : bytes;
  mt_Value : option Zr;
  mt_BlindingFactor : option Zr;
  mt_Issuer : bytes;
}.

Definition zk_ErrEmptyType : error := EMsg "missing Type".
Definition zk_ErrEmptyValue : error := EMsg "missing Value".
Definition zk_ErrEmptyBlindingFactor : error := EMsg "missing BlindingFactor".
Definition zk_ErrMissingIssuer : error := EMsg "missing Issuer".
Definition zk_ErrUnexpectedIssuer : error := EMsg "issuer should not be there".
Definition zk_ErrNilCommitElement : error := EMsg "cannot commit a nil element".
Definition zk_ErrTokenMismatch : error := EMsg "cannot retrieve token in the clear: output does not match provided opening".
Definition zk_ErrEmptyOwner : error := EMsg "token owner cannot be empty".
Definition zk_ErrEmptyTokenData : error := EMsg "token data cannot be empty".

(** Following a nil pointer panics. *)
Definition deref {A} (o : option A) : res A := match o with Some a => Ok a | None => Panic end.

Section Tokens.
Context {CO : Curve}.
Local Open Scope zr_scope.

Definition ZkMetadata_Validate (m : ZkMetadata) (checkIssuer : bool) : res unit :=
  if (length (mt_Type m) =? 0)%nat then Err zk_ErrEmptyType else
  match mt_Value m with
  | None => Err zk_ErrEmptyValue
  | Some _ =>
      match mt_BlindingFactor m with
      | None => Err zk_ErrEmptyBlindingFactor
      | Some _ =>
          if checkIssuer && (length (mt_Issuer m) =? 0)%nat then Err zk_ErrMissingIssuer
          else if negb checkIssuer && negb (length (mt_Issuer m) =? 0)%nat then Err zk_ErrUnexpectedIssuer
          else Ok tt
      end
  end.

(** The loop of [commit]: [com.Add(generators[i].Mul(vector[i]))]. *)
Fixpoint commit_loop (com : G1) (vector : list (option Zr)) (generators : list G1) : res G1 :=
  match vector with
  | [] => Ok com
  | None :: _ => Err zk_ErrNilCommitElement
  | Some v :: vector =>
      match generators with
      | [] => Panic
      | g :: generators => commit_loop (com + g ⋅ v)%g1 vector generators
      end
  end.

Definition commit (vector : list (option Zr)) (generators : list G1) : res G1 :=
  if (length generators <? length vector)%nat then Err (EMsg "insufficient generators: expecting at least")
  else commit_loop NewG1 vector generators.

Record ZkToken := {
  tk_Owner : bytes;
  tk_Data : option G1;
}.

Definition ZkToken_IsRedeem (t : ZkToken) : bool := (length (tk_Owner t) =? 0)%nat.

Definition ZkToken_Validate (t : ZkToken) (checkOwner : bool) : res unit :=
  if checkOwner && (length (tk_Owner t) =? 0)%nat then Err zk_ErrEmptyOwner else
  match tk_Data t with None => Err zk_ErrEmptyTokenData | Some _ => Ok tt end.

(** [ToClear]; [Zr_String] is the curve library's printer of scalars. *)
Definition ToClear (Zr_String : Zr -> bytes) (t : ZkToken) (meta : ZkMetadata) (PedersenGenerators : list G1) : res Token :=
  com ← wrap "cannot retrieve token in the clear: failed to check token data"
    (commit [Some (HashToZr (mt_Type meta)); mt_Value meta; mt_BlindingFactor meta] PedersenGenerators);
  data ← deref (tk_Data t);
  if decide (com = data) then
    v ← deref (mt_Value meta);
    Ok (mkToken (tk_Owner t) (mt_Type meta) (str "0x" ++ Zr_String v))
  else Err zk_ErrTokenMismatch.

Definition computeTokens (tw : list ZkMetadata) (pp : list G1) : res (list G1) :=
  mapM (fun m => wrap "failed to compute token" (commit [Some (HashToZr (mt_Type m)); mt_Value m; mt_BlindingFactor m] pp)) tw.

Definition GetTokensWithWitnessAndBF (values : list Z) (bfs : list Zr) (tokenType : bytes) (pp : list G1) : res (list G1 * list ZkMetadata) :=
  if negb (length values =? length bfs)%nat
  then Err (EMsg "cannot get tokens with witness: values and bfs must have the same length") else
  let tw := zip_with (fun v bf => {| mt_Type := tokenType; mt_Value := Some (NewZrFromUint64 v); mt_BlindingFactor := Some bf; mt_Issuer := [] |}) values bfs in
  tokens ← wrap "cannot get tokens with witness" (computeTokens tw pp);
  Ok (tokens, tw).

Definition GetTokensWithWitness (rand : res (nat -> Zr)) (values : list Z) (tokenType : bytes) (pp : list G1) : res (list G1 * list ZkMetadata) :=
  rand ← wrap "cannot get tokens with witness" rand;
  GetTokensWithWitnessAndBF values (rand <$> seq 0 (length values)) tokenType pp.

End Tokens.

(** ** Same type (issue/sametype.go) *)

Record SameType `{!Curve} := {
  st_Type : Zr;
  st_BlindingFactor : Zr;
  st_Challenge : Zr;
  st_CommitmentToType : G1;
}.

Definition ErrInvalidSameTypeProof : error := EMsg "invalid same type proof".
Definition ErrProveTypeFailed : error := EMsg "couldn't prove type during the issue".
Definition ErrVerifySameTypeProofFailed : error := EMsg "failed to verify same type proof".

Section SameTypeProtocol.
Context {CO : Curve}.
Local Open Scope zr_scope.

Record SameTypeProver := {
  stp_PedParams : list G1;
  stp_tokenType : bytes;
  stp_blindingFactor : Zr;
  stp_CommitmentToType : G1;
}.

(** [computeCommitment]: the commitment to fresh randomness, and the
    randomness. *)
Definition computeCommitment (p : SameTypeProver) (rand : res (nat -> Zr)) : res (G1 * Zr * Zr) :=
  rand ← replace_err "failed to get RNG" rand;
  let tokenType := rand 0%nat in
  let blindingFactor := rand 1%nat in
  p0 ← index (stp_PedParams p) 0; p2 ← index (stp_PedParams p) 2;
  Ok ((p0 ⋅ tokenType + p2 ⋅ blindingFactor)%g1, tokenType, blindingFactor).

Definition SameType_Prove (p : SameTypeProver) (rand : res (nat -> Zr)) : res SameType :=
  let tokenType := HashToZr (stp_tokenType p) in
  '(commitment, rType, rBF) ← join_err ErrProveTypeFailed (computeCommitment p rand);
  toHash ← join_err ErrProveTypeFailed (G1Array_Bytes [Some (stp_CommitmentToType p); Some commitment]);
  let chal := HashToZr toHash in
  Ok {| st_CommitmentToType := stp_CommitmentToType p; st_Challenge := chal;
        st_Type := chal * tokenType + rType; st_BlindingFactor := chal * stp_blindingFactor p + rBF |}.

(** The first message the verifier recomputes from the responses. *)
Definition SameType_com (p0 p2 : G1) (proof : SameType) : G1 :=
  (p0 ⋅ st_Type proof + p2 ⋅ st_BlindingFactor proof - st_CommitmentToType proof ⋅ st_Challenge proof)%g1.

Definition SameType_Verify (PedParams : list G1) (proof : SameType) : res unit :=
  p0 ← index PedParams 0; p2 ← index PedParams 2;
  let com := SameType_com p0 p2 proof in
  raw ← join_err ErrVerifySameTypeProofFailed (G1Array_Bytes [Some (st_CommitmentToType proof); Some com]);
  if decide (HashToZr raw = st_Challenge proof) then Ok tt else Err ErrInvalidSameTypeProof.

End SameTypeProtocol.

(** ** Type and sum (transfer/typeandsum.go) *)

Record TypeAndSumProof `{!Curve} := {
  tsp_CommitmentToType : option G1;
  tsp_InputBlindingFactors : list (option Zr);
  tsp_InputValues : list (option Zr);
  tsp_Type : option Zr;
  tsp_TypeBlindingFactor : option Zr;
  tsp_EqualityOfSum : option Zr;
  tsp_Challenge : option Zr;
}.

Record TypeAndSumWitness `{!Curve} := {
  tsw_inValues : list (option Zr);
  tsw_outValues : list (option Zr);
  tsw_Type : Zr;
  tsw_inBlindingFactors : list (option Zr);
  tsw_outBlindingFactors : list (option Zr);
  tsw_typeBlindingFactor : Zr;
}.

Definition ErrInvalidInputs : error := EMsg "invalid number of token inputs, expected at least 1".
Definition ErrMissingSumAndTypeComponents : error := EMsg "invalid sum and type proof: missing components".
Definition ErrMissingSumAndTypeInputValue : error := EMsg "invalid sum and type proof: missing input value".
Definition ErrSumAndTypeChallengeMismatch : error := EMsg "invalid sum and type proof: challenge mismatch".

Section TypeAndSum.
Context {CO : Curve}.
Local Open Scope zr_scope.

Definition NewTypeAndSumWitness (bf : Zr) (ins outs : list ZkMetadata) : res TypeAndSumWitness :=
  match ins with
  | [] => Err (EWrap ErrInvalidInputs "cannot create type-and-sum witness: no inputs")
  | first :: _ =>
      Ok {| tsw_inValues := mt_Value <$> ins; tsw_outValues := mt_Value <$> outs; tsw_Type := HashToZr (mt_Type first);
            tsw_inBlindingFactors := mt_BlindingFactor <$> ins; tsw_outBlindingFactors := mt_BlindingFactor <$> outs;
            tsw_typeBlindingFactor := bf |}
  end.

Record TypeAndSumProver := {
  tsr_PedParams : list G1;
  tsr_Inputs : list G1;
  tsr_Outputs : list G1;
  tsr_CommitmentToType : G1;
  tsr_witness : TypeAndSumWitness;
}.

Record TypeAndSumProofRandomness := {
  rnd_inValues : list Zr;
  rnd_inBF : list Zr;
  rnd_ttype : Zr;
  rnd_typeBF : Zr;
  rnd_sumBF : Zr;
}.

Record TypeAndSumProofCommitments := {
  tsc_Inputs : list G1;
  tsc_Sum : G1;
  tsc_CommitmentToType : G1;
}.

Definition computeCommitments (p : TypeAndSumProver) (rand : res (nat -> Zr)) : res (TypeAndSumProofCommitments * TypeAndSumProofRandomness) :=
  rand ← rand;
  let n := length (tsr_Inputs p) in
  let ttype := rand 0%nat in
  let typeBF := rand 1%nat in
  p0 ← index (tsr_PedParams p) 0; p2 ← index (tsr_PedParams p) 2;
  let inValues : list Zr := (fun i => rand (2 + 2 * i)%nat) <$> seq 0 n in
  let inBF : list Zr := (fun i => rand (3 + 2 * i)%nat) <$> seq 0 n in
  ins ← mapM (fun '(v, bf) => p1 ← index (tsr_PedParams p) 1; Ok (Mul2 p1 v p2 bf)) (zip inValues inBF);
  let sumBF := rand (2 + 2 * n)%nat in
  Ok ({| tsc_Inputs := ins; tsc_Sum := (p2 ⋅ sumBF)%g1; tsc_CommitmentToType := Mul2 p0 ttype p2 typeBF |},
      {| rnd_inValues := inValues; rnd_inBF := inBF; rnd_ttype := ttype; rnd_typeBF := typeBF; rnd_sumBF := sumBF |}).

(** [inputs[i]/commitmentToType], [outputs[i]/commitmentToType] and
    [sum = prod inputs / prod outputs]. *)
Definition relative (com : G1) (l : list G1) : list G1 := (fun p => (p - com)%g1) <$> l.
Definition quotient (ins outs : list G1) : G1 := foldl G1_Sub (foldl G1_Add NewG1 ins) outs.

(** The loops of [computeProof] over inputs and outputs. *)
Definition input_responses (p : TypeAndSumProver) (rnd : TypeAndSumProofRandomness) (chal : Zr) (i : nat) : res (Zr * Zr * Zr) :=
  o ← index (tsw_inValues (tsr_witness p)) i; v ← deref o;
  rv ← index (rnd_inValues rnd) i;
  o ← index (tsw_inBlindingFactors (tsr_witness p)) i; bf ← deref o;
  let t := bf - tsw_typeBlindingFactor (tsr_witness p) in
  rbf ← index (rnd_inBF rnd) i;
  Ok (chal * v + rv, chal * t + rbf, t).

Definition computeProof (p : TypeAndSumProver) (rnd : TypeAndSumProofRandomness) (chal : Zr) : res TypeAndSumProof :=
  let w := tsr_witness p in
  ins ← mapM (input_responses p rnd chal) (seq 0 (length (tsr_Inputs p)));
  let sumBF := foldl ModAdd Zero ins.*2 in
  outs ← mapM (fun i => o ← index (tsw_outBlindingFactors w) i; bf ← deref o; Ok (bf - tsw_typeBlindingFactor w)) (seq 0 (length (tsr_Outputs p)));
  let sumBF := foldl ModSub sumBF outs in
  Ok {| tsp_CommitmentToType := Some (tsr_CommitmentToType p); tsp_Challenge := Some chal;
        tsp_Type := Some (chal * tsw_Type w + rnd_ttype rnd);
        tsp_TypeBlindingFactor := Some (chal * tsw_typeBlindingFactor w + rnd_typeBF rnd);
        tsp_InputValues := Some <$> ins.*1.*1; tsp_InputBlindingFactors := Some <$> ins.*1.*2;
        tsp_EqualityOfSum := Some (chal * sumBF + rnd_sumBF rnd) |}.

(** The bytes the challenge is the hash of. *)
Definition ts_hashed (inComs : list G1) (typeCom sumCom : G1) (inputs outputs : list G1) (comType sum : G1) : res bytes :=
  G1Array_Bytes (Some <$> (inComs ++ [typeCom; sumCom] ++ inputs ++ outputs ++ [comType; sum])).

Definition TypeAndSum_Prove (p : TypeAndSumProver) (rand : res (nat -> Zr)) : res TypeAndSumProof :=
  '(commitments, randomness) ← computeCommitments p rand;
  let inputs := relative (tsr_CommitmentToType p) (tsr_Inputs p) in
  let outputs := relative (tsr_CommitmentToType p) (tsr_Outputs p) in
  let sum := quotient inputs outputs in
  raw ← wrap "cannot compute sum and type proof"
    (ts_hashed (tsc_Inputs commitments) (tsc_CommitmentToType commitments) (tsc_Sum commitments) inputs outputs (tsr_CommitmentToType p) sum);
  let chal := HashToZr raw in
  computeProof p randomness chal.

Record TypeAndSumVerifier := {
  tsv_PedParams : list G1;
  tsv_Inputs : list G1;
  tsv_Outputs : list G1;
}.

(** One input: [PedParams[1]·v + PedParams[2]·bf] folded with [-chal·input]. *)
Definition input_commitment (PedParams : list G1) (negChal : Zr) (input : G1) (value bf : option Zr) : res G1 :=
  match value with
  | None => Err ErrMissingSumAndTypeInputValue
  | Some v =>
      p1 ← index PedParams 1; p2 ← index PedParams 2;
      bf ← deref bf;
      Ok (Mul2 (Mul2 p1 v p2 bf) (NewZrFromUint64 1) input negChal)
  end.

(** The first message the verifier recomputes from the responses: [inComs],
    [typeCom] and [sumCom]. *)
Definition ts_recompute (v : TypeAndSumVerifier) (comType : G1) (type typeBF eqSum chal : Zr) (values bfs : list (option Zr))
    : res (list G1 * G1 * G1) :=
  let negChal := Neg chal in
  let one := NewZrFromUint64 1 in
  let inputs := relative comType (tsv_Inputs v) in
  inComs ← mapM (fun '(input, (value, bf)) => input_commitment (tsv_PedParams v) negChal input value bf) (zip inputs (zip values bfs));
  let sum := quotient inputs (relative comType (tsv_Outputs v)) in
  p0 ← index (tsv_PedParams v) 0; p2 ← index (tsv_PedParams v) 2;
  let sumCom := Mul2 (p2 ⋅ eqSum)%g1 one sum negChal in
  let typeCom := Mul2 (Mul2 p0 type p2 typeBF) one comType negChal in
  Ok (inComs, typeCom, sumCom).

Definition TypeAndSum_Verify (v : TypeAndSumVerifier) (stp : TypeAndSumProof) : res unit :=
  match tsp_TypeBlindingFactor stp, tsp_Type stp, tsp_CommitmentToType stp, tsp_EqualityOfSum stp with
  | Some typeBF, Some type, Some comType, Some eqSum =>
      if negb (length (tsp_InputBlindingFactors stp) =? length (tsv_Inputs v))%nat then Err ErrMissingSumAndTypeComponents else
      if negb (length (tsp_InputValues stp) =? length (tsv_Inputs v))%nat then Err ErrMissingSumAndTypeComponents else
      chal ← deref (tsp_Challenge stp);
      '(inComs, typeCom, sumCom) ← ts_recompute v comType type typeBF eqSum chal (tsp_InputValues stp) (tsp_InputBlindingFactors stp);
      let inputs := relative comType (tsv_Inputs v) in
      let outputs := relative comType (tsv_Outputs v) in
      raw ← wrap "cannot verify sum and type proof" (ts_hashed inComs typeCom sumCom inputs outputs comType (quotient inputs outputs));
      if decide (HashToZr raw = chal) then Ok tt else Err ErrSumAndTypeChallengeMismatch
  | _, _, _, _ => Err ErrMissingSumAndTypeComponents
  end.

End TypeAndSum.

(** ** Same type: completeness and soundness *)

Section SigmaProofs.
Context {CO : Curve} {CL : CurveLaws}.
Add Ring zr7 : zr_ring.
Local Open Scope zr_scope.

Lemma SameType_completeness p p0 p1 p2 ps rand : stp_PedParams p = p0 :: p1 :: p2 :: ps ->
  stp_CommitmentToType p = (p0 ⋅ HashToZr (stp_tokenType p) + p2 ⋅ stp_blindingFactor p)%g1 ->
  exists proof, SameType_Prove p (Ok rand) = Ok proof /\ st_CommitmentToType proof = stp_CommitmentToType p /\
    SameType_Verify (stp_PedParams p) proof = Ok tt.
Proof.
  intros Hps Hcom. unfold SameType_Prove, computeCommitment. rewrite Hps. cbn [replace_err mbind res_mbind index lookup list_lookup join_err].
  set (com := (p0 ⋅ rand 0%nat + p2 ⋅ rand 1%nat)%g1).
  destruct (G1Array_Bytes_total [stp_CommitmentToType p; com]) as [raw Hraw]. cbn [fmap list_fmap] in Hraw. rewrite Hraw. cbn [join_err mbind res_mbind].
  eexists. split; [reflexivity|]. split; [done|]. unfold SameType_Verify. cbn [index lookup list_lookup mbind res_mbind].
  assert (SameType_com p0 p2 {| st_Type := HashToZr raw * HashToZr (stp_tokenType p) + rand 0%nat;
            st_BlindingFactor := HashToZr raw * stp_blindingFactor p + rand 1%nat; st_Challenge := HashToZr raw; st_CommitmentToType := stp_CommitmentToType p |} = com) as ->.
  { unfold SameType_com, com. cbn [st_Type st_BlindingFactor st_Challenge st_CommitmentToType]. rewrite Hcom. linear. }
  cbn [st_CommitmentToType st_Challenge]. rewrite Hraw. cbn [join_err mbind res_mbind]. by rewrite decide_True.
Qed.

(** Dividing by the difference of two challenges. *)
Lemma extract (P : G1) (c c' : Zr) Q : c <> c' -> (P ⋅ c - P ⋅ c' = Q)%g1 -> P = (Q ⋅ InvModOrder (c - c'))%g1.
Proof.
  intros Hc <-. assert (c - c' <> Zero) as Hd.
  { intros Hz. apply Hc. transitivity ((c - c') + c'); [ring|]. rewrite Hz. ring. }
  pose proof (zr_inv _ Hd) as Hi. transitivity (P ⋅ One)%g1; [by rewrite g1_mul_one|]. rewrite <- Hi. linear.
Qed.

(** The equation two accepting transcripts with one first message give. *)
Lemma two_transcripts (P : G1) (c c' : Zr) A B : (A - P ⋅ c = B - P ⋅ c')%g1 -> (P ⋅ c - P ⋅ c' = A - B)%g1.
Proof.
  intros H. transitivity ((A - P ⋅ c') - (A - P ⋅ c))%g1; [linear|]. rewrite H. linear.
Qed.

(** The extractor: the difference of two responses over that of the
    challenges. *)
Definition response_quotient (c c' a a' : Zr) : Zr := (a - a') * InvModOrder (c - c').

Definition SameType_extract (proof proof' : SameType) : Zr * Zr :=
  let q := response_quotient (st_Challenge proof) (st_Challenge proof') in
  (q (st_Type proof) (st_Type proof'), q (st_BlindingFactor proof) (st_BlindingFactor proof')).

Lemma SameType_soundness p0 p2 proof proof' :
  st_CommitmentToType proof = st_CommitmentToType proof' -> SameType_com p0 p2 proof = SameType_com p0 p2 proof' ->
  st_Challenge proof <> st_Challenge proof' ->
  let '(t, b) := SameType_extract proof proof' in st_CommitmentToType proof = (p0 ⋅ t + p2 ⋅ b)%g1.
Proof.
  unfold SameType_com, SameType_extract, response_quotient. intros Hc Hcom Hne. rewrite <- Hc in Hcom. apply two_transcripts, extract in Hcom; [|done].
  rewrite Hcom at 1. linear.
Qed.

(** ** Type and sum *)

Lemma quotient_gsum ins outs : quotient ins outs = (gsum ins - gsum outs)%g1.
Proof.
  unfold quotient. assert (forall l a, foldl G1_Add a l = (a + gsum l)%g1) as Ha.
  { induction l as [|x l IH]; intros a; [symmetry; apply g1_zero_r|]. cbn [foldl]. rewrite IH, gsum_cons. symmetry. apply g1_assoc. }
  assert (forall l a, foldl G1_Sub a l = (a - gsum l)%g1) as Hs.
  { induction l as [|x l IH]; intros a; [change (a = a - NewG1)%g1; linear|]. cbn [foldl]. rewrite IH, gsum_cons. linear. }
  rewrite Hs, Ha, g1_zero. done.
Qed.

Lemma gsum_openings (p q : G1) vs : forall ts, length ts = length vs ->
  gsum (zip_with (fun v t => p ⋅ v + q ⋅ t)%g1 vs ts) = (p ⋅ zsum vs + q ⋅ zsum ts)%g1.
Proof.
  induction vs as [|v vs IH]; intros [|t ts] Hl; try done.
  - change (NewG1 = p ⋅ Zero + q ⋅ Zero)%g1. linear.
  - cbn [zip_with]. rewrite gsum_cons, !zsum_cons, IH by (cbn in Hl; lia). linear.
Qed.

(** The verifier's messages on present responses, in closed form. *)
Definition in_coms (p1 p2 : G1) (chal : Zr) (inputs : list G1) (vals bfs : list Zr) : list G1 :=
  zip_with (fun input '(v, bf) => p1 ⋅ v + p2 ⋅ bf - input ⋅ chal)%g1 inputs (zip vals bfs).

Lemma ts_recompute_spec v comType type typeBF eqSum chal vals bfs p0 p1 p2 ps :
  tsv_PedParams v = p0 :: p1 :: p2 :: ps ->
  ts_recompute v comType type typeBF eqSum chal (Some <$> vals) (Some <$> bfs)
  = Ok (in_coms p1 p2 chal (relative comType (tsv_Inputs v)) vals bfs,
        (p0 ⋅ type + p2 ⋅ typeBF - comType ⋅ chal)%g1,
        (p2 ⋅ eqSum - quotient (relative comType (tsv_Inputs v)) (relative comType (tsv_Outputs v)) ⋅ chal)%g1).
Proof.
  intros Hps. unfold ts_recompute. rewrite Hps. generalize (relative comType (tsv_Inputs v)) as ins. intros ins.
  assert (mapM (fun '(input, (value, bf)) => input_commitment (p0 :: p1 :: p2 :: ps) (Neg chal) input value bf) (zip ins (zip (Some <$> vals) (Some <$> bfs)))
          = Ok (in_coms p1 p2 chal ins vals bfs)) as ->.
  { revert vals bfs. induction ins as [|i ins IH]; intros [|a vals] [|b bfs]; try done. rewrite !fmap_cons. cbn [zip_with].
    rewrite mapM_cons_res.
    rewrite IH. cbn [input_commitment index lookup list_lookup deref mbind res_mbind]. unfold in_coms. cbn [zip_with]. do 2 f_equal.
    rewrite !g1_mul2. fold One. linear. }
  cbn [mbind res_mbind index lookup list_lookup]. rewrite !g1_mul2. fold One. do 3 f_equal; [f_equal|]; linear.
Qed.

Lemma ts_hashed_total a b c d e f g : exists raw, ts_hashed a b c d e f g = Ok raw.
Proof. apply G1Array_Bytes_total. Qed.

(** The tokens a witness opens. *)
Definition opens (p0 p1 p2 : G1) (T : Zr) (vals bfs : list Zr) (tokens : list G1) : Prop :=
  length bfs = length vals /\ tokens = zip_with (fun v bf => p0 ⋅ T + p1 ⋅ v + p2 ⋅ bf)%g1 vals bfs.

Lemma relative_opens p0 p1 p2 T bT vals bfs tokens : opens p0 p1 p2 T vals bfs tokens ->
  relative (p0 ⋅ T + p2 ⋅ bT)%g1 tokens = zip_with (fun v t => p1 ⋅ v + p2 ⋅ t)%g1 vals ((fun bf => bf - bT) <$> bfs).
Proof.
  intros [Hl ->]. unfold relative. rewrite zip_with_fmap_r. clear Hl. revert bfs.
  induction vals as [|v vals IH]; intros [|b bfs]; try done. cbn. f_equal; [linear|apply IH].
Qed.

(** The witness of an honest prover: one type, openings of inputs and outputs
    with equal totals. *)
Record honest (p : TypeAndSumProver) (p0 p1 p2 : G1) (ps : list G1) (ivals ibfs ovals obfs : list Zr) : Prop := {
  hn_params : tsr_PedParams p = p0 :: p1 :: p2 :: ps;
  hn_inputs : opens p0 p1 p2 (tsw_Type (tsr_witness p)) ivals ibfs (tsr_Inputs p);
  hn_outputs : opens p0 p1 p2 (tsw_Type (tsr_witness p)) ovals obfs (tsr_Outputs p);
  hn_type : tsr_CommitmentToType p = (p0 ⋅ tsw_Type (tsr_witness p) + p2 ⋅ tsw_typeBlindingFactor (tsr_witness p))%g1;
  hn_values : tsw_inValues (tsr_witness p) = Some <$> ivals;
  hn_inBF : tsw_inBlindingFactors (tsr_witness p) = Some <$> ibfs;
  hn_outBF : tsw_outBlindingFactors (tsr_witness p) = Some <$> obfs;
  hn_sum : zsum ivals = zsum ovals;
}.

Lemma length_opens p0 p1 p2 T vals bfs tokens : opens p0 p1 p2 T vals bfs tokens -> length tokens = length vals /\ length bfs = length vals.
Proof. intros [Hl ->]. rewrite length_zip_with. lia. Qed.

(** The verifier that has the prover's public inputs. *)
Definition ts_verifier_of (p : TypeAndSumProver) : TypeAndSumVerifier :=
  {| tsv_PedParams := tsr_PedParams p; tsv_Inputs := tsr_Inputs p; tsv_Outputs := tsr_Outputs p |}.

Lemma foldl_add_zsum l : forall a, foldl ModAdd a l = a + zsum l.
Proof. induction l as [|x l IH]; intros a; [change (a = a + Zero); ring|]. cbn [foldl]. rewrite IH, zsum_cons. ring. Qed.

Lemma foldl_sub_zsum l : forall a, foldl ModSub a l = a - zsum l.
Proof. induction l as [|x l IH]; intros a; [change (a = a - Zero); ring|]. cbn [foldl]. rewrite IH, zsum_cons. ring. Qed.

(** The responses to the inputs. *)
Definition responses (chal bT : Zr) (vals bfs rv rb : list Zr) : list (Zr * Zr * Zr) :=
  zip_with (fun '(v, bf) '(a, b) => (chal * v + a, chal * (bf - bT) + b, bf - bT)) (zip vals bfs) (zip rv rb).

Lemma input_responses_spec p rnd chal vals bfs i q :
  tsw_inValues (tsr_witness p) = Some <$> vals -> tsw_inBlindingFactors (tsr_witness p) = Some <$> bfs ->
  responses chal (tsw_typeBlindingFactor (tsr_witness p)) vals bfs (rnd_inValues rnd) (rnd_inBF rnd) !! i = Some q ->
  input_responses p rnd chal i = Ok q.
Proof.
  intros Hv Hb. unfold responses. intros (x & y & -> & Hx & Hy)%lookup_zip_with_Some.
  apply lookup_zip_with_Some in Hx as (v & b & -> & Hv' & Hb'). apply lookup_zip_with_Some in Hy as (c & d & -> & Hc & Hd).
  unfold input_responses. rewrite Hv, Hb. rewrite (index_Some (Some <$> vals) i (Some v)) by by rewrite list_lookup_fmap, Hv'.
  cbn [mbind res_mbind deref]. rewrite (index_Some _ _ _ Hc). cbn [mbind res_mbind].
  rewrite (index_Some (Some <$> bfs) i (Some b)) by by rewrite list_lookup_fmap, Hb'. cbn [mbind res_mbind deref]. by rewrite (index_Some _ _ _ Hd).
Qed.

Lemma computeProof_spec p p0 p1 p2 ps ivals ibfs ovals obfs rnd chal : honest p p0 p1 p2 ps ivals ibfs ovals obfs ->
  length (rnd_inValues rnd) = length ivals -> length (rnd_inBF rnd) = length ivals ->
  let w := tsr_witness p in let bT := tsw_typeBlindingFactor w in
  let rs := responses chal bT ivals ibfs (rnd_inValues rnd) (rnd_inBF rnd) in
  computeProof p rnd chal = Ok {| tsp_CommitmentToType := Some (tsr_CommitmentToType p); tsp_Challenge := Some chal;
    tsp_Type := Some (chal * tsw_Type w + rnd_ttype rnd); tsp_TypeBlindingFactor := Some (chal * bT + rnd_typeBF rnd);
    tsp_InputValues := Some <$> rs.*1.*1; tsp_InputBlindingFactors := Some <$> rs.*1.*2;
    tsp_EqualityOfSum := Some (chal * (zsum ((fun bf => bf - bT) <$> ibfs) - zsum ((fun bf => bf - bT) <$> obfs)) + rnd_sumBF rnd) |}.
Proof.
  intros [Hps Hin Hout Ht Hv Hib Hob Hsum] Hrv Hrb w bT rs. apply length_opens in Hin as [Li Lb]. apply length_opens in Hout as [Lo Lob].
  assert (length rs = length (tsr_Inputs p)) as Lrs by (unfold rs, responses; rewrite !length_zip_with; lia).
  unfold computeProof. rewrite (mapM_fill _ rs) by (done || (intros i q Hq; by apply (input_responses_spec p rnd chal ivals ibfs))).
  cbn [mbind res_mbind]. fold w. rewrite (mapM_fill _ ((fun bf => bf - bT) <$> obfs)).
  - cbn [mbind res_mbind]. fold bT. rewrite foldl_sub_zsum, foldl_add_zsum. do 3 f_equal. 
    assert (rs.*2 = (fun bf => bf - bT) <$> ibfs) as ->; [|ring].
    unfold rs, responses. clear -Lb Hrv Hrb. generalize dependent (rnd_inBF rnd). generalize dependent (rnd_inValues rnd). revert ibfs Lb.
    induction ivals as [|v ivals IH]; intros [|b ibfs] Lb [|c rv] Hrv [|d rb] Hrb; try done. cbn. f_equal. apply IH; cbn in *; lia.
  - rewrite length_fmap. lia.
  - intros i q Hq. rewrite list_lookup_fmap in Hq. destruct (obfs !! i) as [b|] eqn:Eb; [|done]. cbn in Hq. injection Hq as <-.
    unfold w. rewrite Hob, (index_Some _ i (Some b)) by (by rewrite list_lookup_fmap, Eb). done.
Qed.

Lemma computeCommitments_spec p p0 p1 p2 ps rand : tsr_PedParams p = p0 :: p1 :: p2 :: ps ->
  exists rnd, computeCommitments p (Ok rand)
    = Ok ({| tsc_Inputs := zip_with (fun v b => p1 ⋅ v + p2 ⋅ b)%g1 (rnd_inValues rnd) (rnd_inBF rnd); tsc_Sum := (p2 ⋅ rnd_sumBF rnd)%g1;
             tsc_CommitmentToType := (p0 ⋅ rnd_ttype rnd + p2 ⋅ rnd_typeBF rnd)%g1 |}, rnd) /\
    length (rnd_inValues rnd) = length (tsr_Inputs p) /\ length (rnd_inBF rnd) = length (tsr_Inputs p).
Proof.
  intros Hps. unfold computeCommitments. rewrite Hps. cbn [mbind res_mbind index lookup list_lookup].
  set (vs := (fun i => rand (2 + 2 * i)%nat) <$> _). set (bs := (fun i => rand (3 + 2 * i)%nat) <$> _).
  rewrite (mapM_pure _ (fun '(v, bf) => (p1 ⋅ v + p2 ⋅ bf)%g1)) by (intros [v b] _; by rewrite g1_mul2).
  cbn [mbind res_mbind]. eexists. rewrite g1_mul2. split.
  - do 3 f_equal. generalize vs bs. clear. induction vs as [|v vs IH]; intros [|b bs]; try done. cbn. f_equal. apply IH.
  - cbn. unfold vs, bs. by rewrite !length_fmap, length_seq.
Qed.

(** What the verifier recomputes from honest responses is the first message. *)
Lemma honest_in_coms p1 p2 chal bT vals : forall bfs rv rb, length bfs = length vals -> length rv = length vals -> length rb = length vals ->
  let rs := responses chal bT vals bfs rv rb in
  in_coms p1 p2 chal (zip_with (fun v t => p1 ⋅ v + p2 ⋅ t)%g1 vals ((fun bf => bf - bT) <$> bfs)) rs.*1.*1 rs.*1.*2
  = zip_with (fun v b => p1 ⋅ v + p2 ⋅ b)%g1 rv rb.
Proof.
  induction vals as [|v vals IH]; intros [|b bfs] [|c rv] [|d rb] H1 H2 H3; try done. unfold in_coms, responses in *. cbn.
  f_equal; [linear|]. apply (IH bfs rv rb); cbn in *; lia.
Qed.

Lemma TypeAndSum_completeness p p0 p1 p2 ps ivals ibfs ovals obfs rand : honest p p0 p1 p2 ps ivals ibfs ovals obfs ->
  exists proof, TypeAndSum_Prove p (Ok rand) = Ok proof /\ tsp_CommitmentToType proof = Some (tsr_CommitmentToType p) /\
    TypeAndSum_Verify (ts_verifier_of p) proof = Ok tt.
Proof.
  intros Hh. pose proof Hh as [Hps Hin Hout Ht Hv Hib Hob Hsum]. pose proof (length_opens _ _ _ _ _ _ _ Hin) as [Li Lb]. pose proof (length_opens _ _ _ _ _ _ _ Hout) as [Lo Lob].
  destruct (computeCommitments_spec p p0 p1 p2 ps rand Hps) as (rnd & Hc & Hrv & Hrb). unfold TypeAndSum_Prove. rewrite Hc. cbn [mbind res_mbind tsc_Inputs tsc_Sum tsc_CommitmentToType].
  set (comType := tsr_CommitmentToType p). set (ins := relative comType (tsr_Inputs p)). set (outs := relative comType (tsr_Outputs p)).
  destruct (ts_hashed_total (zip_with (fun v b => p1 ⋅ v + p2 ⋅ b)%g1 (rnd_inValues rnd) (rnd_inBF rnd)) (p0 ⋅ rnd_ttype rnd + p2 ⋅ rnd_typeBF rnd)%g1
    (p2 ⋅ rnd_sumBF rnd)%g1 ins outs comType (quotient ins outs)) as [raw Hraw].
  rewrite Hraw. cbn [wrap mbind res_mbind]. set (chal := HashToZr raw).
  rewrite (computeProof_spec p p0 p1 p2 ps ivals ibfs ovals obfs) by (done || congruence). eexists. split; [reflexivity|]. split; [done|].
  unfold TypeAndSum_Verify. cbn [tsp_TypeBlindingFactor tsp_Type tsp_CommitmentToType tsp_EqualityOfSum tsp_InputBlindingFactors tsp_InputValues tsp_Challenge ts_verifier_of tsv_Inputs tsv_Outputs].
  set (bT := tsw_typeBlindingFactor (tsr_witness p)). set (rs := responses chal bT ivals ibfs (rnd_inValues rnd) (rnd_inBF rnd)).
  assert (length rs = length (tsr_Inputs p)) as Lrs by (unfold rs, responses; rewrite !length_zip_with; lia).
  rewrite !length_fmap, Lrs, !Nat.eqb_refl. cbn [negb deref mbind res_mbind].
  rewrite (ts_recompute_spec _ _ _ _ _ _ _ _ p0 p1 p2 ps) by done. cbn [mbind res_mbind ts_verifier_of tsv_Inputs tsv_Outputs]. fold comType. fold ins outs.
  assert (ins = zip_with (fun v t => p1 ⋅ v + p2 ⋅ t)%g1 ivals ((fun bf => bf - bT) <$> ibfs)) as Ei.
  { unfold ins, comType. rewrite Ht. by apply relative_opens. }
  assert (outs = zip_with (fun v t => p1 ⋅ v + p2 ⋅ t)%g1 ovals ((fun bf => bf - bT) <$> obfs)) as Eo.
  { unfold outs, comType. rewrite Ht. by apply relative_opens. }
  assert (in_coms p1 p2 chal ins rs.*1.*1 rs.*1.*2 = zip_with (fun v b => p1 ⋅ v + p2 ⋅ b)%g1 (rnd_inValues rnd) (rnd_inBF rnd)) as ->
    by (rewrite Ei; apply honest_in_coms; lia).
  assert (p0 ⋅ (chal * tsw_Type (tsr_witness p) + rnd_ttype rnd)%zr + p2 ⋅ (chal * bT + rnd_typeBF rnd)%zr - comType ⋅ chal
          = p0 ⋅ rnd_ttype rnd + p2 ⋅ rnd_typeBF rnd)%g1 as -> by (unfold comType; rewrite Ht; fold bT; linear).
  assert (p2 ⋅ (chal * (zsum ((fun bf => bf - bT) <$> ibfs) - zsum ((fun bf => bf - bT) <$> obfs)) + rnd_sumBF rnd)%zr - quotient ins outs ⋅ chal
          = p2 ⋅ rnd_sumBF rnd)%g1 as ->.
  { rewrite quotient_gsum, Ei, Eo, !gsum_openings, Hsum by (rewrite length_fmap; lia). linear. }
  rewrite Hraw. cbn [wrap mbind res_mbind]. by rewrite decide_True.
Qed.

(** The first message a proof stands for, as its verifier recomputes it. *)
Definition ts_first_message (v : TypeAndSumVerifier) (stp : TypeAndSumProof) : res (list G1 * G1 * G1) :=
  typeBF ← deref (tsp_TypeBlindingFactor stp); type ← deref (tsp_Type stp); comType ← deref (tsp_CommitmentToType stp);
  eqSum ← deref (tsp_EqualityOfSum stp); chal ← deref (tsp_Challenge stp);
  ts_recompute v comType type typeBF eqSum chal (tsp_InputValues stp) (tsp_InputBlindingFactors stp).

Lemma some_list {A} (l : list (option A)) : Forall is_Some l -> exists k, l = Some <$> k.
Proof.
  induction 1 as [|o l [a ->] _ [k ->]]; [by exists []|]. by exists (a :: k).
Qed.

Lemma mapM_Ok_Forall {A B} (f : A -> res B) l k : mapM f l = Ok k -> Forall (fun x => exists y, f x = Ok y) l.
Proof.
  revert k. induction l as [|x l IH]; intros k H; [constructor|]. rewrite mapM_cons_res in H.
  apply res_bind_Ok in H as (y & Hy & H). apply res_bind_Ok in H as (ys & Hys & _). constructor; [by exists y|]. by eapply IH.
Qed.

(** What an accepted proof is: all the responses are present, and the challenge
    is the hash of the recomputed first message. *)
Definition well_shaped (v : TypeAndSumVerifier) (stp : TypeAndSumProof) : Prop :=
  exists comType type typeBF eqSum chal vals bfs,
    stp = {| tsp_CommitmentToType := Some comType; tsp_InputBlindingFactors := Some <$> bfs; tsp_InputValues := Some <$> vals; tsp_Type := Some type;
             tsp_TypeBlindingFactor := Some typeBF; tsp_EqualityOfSum := Some eqSum; tsp_Challenge := Some chal |} /\
    length vals = length (tsv_Inputs v) /\ length bfs = length (tsv_Inputs v).

Lemma TypeAndSum_Verify_inv v stp p0 p1 p2 ps : tsv_PedParams v = p0 :: p1 :: p2 :: ps -> TypeAndSum_Verify v stp = Ok tt -> well_shaped v stp.
Proof.
  intros Hps H. destruct stp as [oc obfs ovals ot otb oe och]. unfold TypeAndSum_Verify in H.
  cbn [tsp_TypeBlindingFactor tsp_Type tsp_CommitmentToType tsp_EqualityOfSum tsp_InputBlindingFactors tsp_InputValues tsp_Challenge] in H.
  destruct otb as [tb|], ot as [t|], oc as [c|], oe as [e|]; try done.
  destruct (Nat.eqb_spec (length obfs) (length (tsv_Inputs v))) as [Lb|]; [|done]. destruct (Nat.eqb_spec (length ovals) (length (tsv_Inputs v))) as [Lv|]; [|done].
  cbn [negb] in H. destruct och as [ch|]; [|done]. cbn [deref mbind res_mbind] in H.
  apply res_bind_Ok in H as ([[a b] d] & Hr & _). unfold ts_recompute in Hr. apply res_bind_Ok in Hr as (inComs & Hm & _).
  apply mapM_Ok_Forall in Hm. assert (length (relative c (tsv_Inputs v)) = length (tsv_Inputs v)) as Li by apply length_fmap.
  assert (Forall is_Some ovals /\ Forall is_Some obfs) as [Hv Hb].
  { revert Hm. rewrite <- Li in Lb, Lv. clear Li. generalize dependent (relative c (tsv_Inputs v)). clear -Hps. intros ins Lb Lv. revert ovals obfs Lb Lv.
    induction ins as [|i ins IH]; intros [|ov ovals] [|ob obfs] Lb Lv Hm; try done. cbn [zip_with] in Hm. apply Forall_cons in Hm as [[y Hy] Hm].
    destruct (IH ovals obfs) as [H1 H2]; [cbn in *; lia..|done|]. unfold input_commitment in Hy. destruct ov as [ov|]; [|done]. rewrite Hps in Hy.
    cbn in Hy. destruct ob as [ob|]; [|done]. split; constructor; eauto. }
  apply some_list in Hv as [vals ->]. apply some_list in Hb as [bfs ->]. rewrite length_fmap in Lb, Lv.
  by exists c, t, tb, e, ch, vals, bfs.
Qed.

Lemma in_coms_extract p1 p2 chal chal' ins : chal <> chal' -> forall vals bfs vals' bfs',
  length vals = length ins -> length bfs = length ins -> length vals' = length ins -> length bfs' = length ins ->
  in_coms p1 p2 chal ins vals bfs = in_coms p1 p2 chal' ins vals' bfs' ->
  let q := response_quotient chal chal' in
  ins = zip_with (fun x r => p1 ⋅ x + p2 ⋅ r)%g1 (zip_with q vals vals') (zip_with q bfs bfs').
Proof.
  intros Hne. induction ins as [|i ins IH]; intros [|v vals] [|b bfs] [|v' vals'] [|b' bfs'] L1 L2 L3 L4 H; try done.
  unfold in_coms in H. cbn [zip_with] in H. injection H as Hh Ht. cbn [zip_with].
  rewrite <- (IH vals bfs vals' bfs') by (done || (cbn in *; lia)). f_equal.
  apply two_transcripts, extract in Hh; [|done]. unfold response_quotient. rewrite Hh at 1. linear.
Qed.

Lemma opens_relative p0 p1 p2 T bT xs rs tokens : length rs = length xs ->
  relative (p0 ⋅ T + p2 ⋅ bT)%g1 tokens = zip_with (fun x r => p1 ⋅ x + p2 ⋅ r)%g1 xs rs ->
  opens p0 p1 p2 T xs ((fun r => r + bT) <$> rs) tokens.
Proof.
  intros Hl Hins. split; [by rewrite length_fmap|]. rewrite zip_with_fmap_r. apply list_eq. intros i. rewrite lookup_zip_with.
  apply (f_equal (lookup i)) in Hins. unfold relative in Hins. rewrite list_lookup_fmap, lookup_zip_with in Hins.
  destruct (tokens !! i) as [p|]; cbn in Hins; destruct (xs !! i) as [x|], (rs !! i) as [r|]; cbn in Hins |- *; try done.
  f_equal. injection Hins as Hp. transitivity ((p - (p0 ⋅ T + p2 ⋅ bT)) + (p0 ⋅ T + p2 ⋅ bT))%g1; [linear|]. rewrite Hp. linear.
Qed.

(** The extractor of two accepted proofs with one first message: the type and
    its blinding factor, the amounts and blinding factors of the inputs, and the
    blinding factor of the quotient of inputs and outputs. *)
Record ts_opening := { to_type : Zr; to_typeBF : Zr; to_values : list Zr; to_bfs : list Zr; to_sumBF : Zr }.

Definition ts_extract (stp stp' : TypeAndSumProof) : res ts_opening :=
  c ← deref (tsp_Challenge stp); c' ← deref (tsp_Challenge stp');
  t ← deref (tsp_Type stp); t' ← deref (tsp_Type stp');
  b ← deref (tsp_TypeBlindingFactor stp); b' ← deref (tsp_TypeBlindingFactor stp');
  e ← deref (tsp_EqualityOfSum stp); e' ← deref (tsp_EqualityOfSum stp');
  let q := response_quotient c c' in
  let bT := q b b' in
  Ok {| to_type := q t t'; to_typeBF := bT; to_values := zip_with q (omap id (tsp_InputValues stp)) (omap id (tsp_InputValues stp'));
        to_bfs := (fun r => r + bT) <$> zip_with q (omap id (tsp_InputBlindingFactors stp)) (omap id (tsp_InputBlindingFactors stp'));
        to_sumBF := q e e' |}.

(** The discrete logarithm of the generator of amounts to the base of that of
    blinding factors, computed from openings of outputs whose sum is not that
    of the inputs. *)
Definition ts_dlog (o : ts_opening) (ys qs : list Zr) : Zr :=
  (to_sumBF o - (zsum ((fun r => r - to_typeBF o) <$> to_bfs o) - zsum ((fun r => r - to_typeBF o) <$> qs)))
  * InvModOrder (zsum (to_values o) - zsum ys).

Lemma omap_present {A} (l : list A) : omap id (Some <$> l) = l.
Proof. induction l as [|a l IH]; [done|]. cbn. by f_equal. Qed.

Lemma ts_extracted v stp stp' p0 p1 p2 ps : tsv_PedParams v = p0 :: p1 :: p2 :: ps -> well_shaped v stp -> well_shaped v stp' ->
  tsp_CommitmentToType stp = tsp_CommitmentToType stp' -> ts_first_message v stp = ts_first_message v stp' -> tsp_Challenge stp <> tsp_Challenge stp' ->
  exists o, ts_extract stp stp' = Ok o /\
    let c := (p0 ⋅ to_type o + p2 ⋅ to_typeBF o)%g1 in
    tsp_CommitmentToType stp = Some c /\ opens p0 p1 p2 (to_type o) (to_values o) (to_bfs o) (tsv_Inputs v) /\
    quotient (relative c (tsv_Inputs v)) (relative c (tsv_Outputs v)) = (p2 ⋅ to_sumBF o)%g1.
Proof.
  intros Hps (c & t & tb & e & ch & vals & bfs & -> & Lv & Lb) (c' & t' & tb' & e' & ch' & vals' & bfs' & -> & Lv' & Lb') Hc Hm Hne.
  cbn [tsp_CommitmentToType tsp_Challenge] in *. injection Hc as <-. assert (ch <> ch') as Hch by congruence.
  unfold ts_first_message in Hm. cbn [deref mbind res_mbind tsp_TypeBlindingFactor tsp_Type tsp_CommitmentToType tsp_EqualityOfSum tsp_Challenge tsp_InputValues tsp_InputBlindingFactors] in Hm.
  rewrite !(ts_recompute_spec v _ _ _ _ _ _ _ p0 p1 p2 ps Hps) in Hm. injection Hm as Hin Htype Hsum.
  apply two_transcripts, extract in Htype; [|done]. apply two_transcripts, extract in Hsum; [|done].
  unfold ts_extract. cbn [deref mbind res_mbind tsp_TypeBlindingFactor tsp_Type tsp_EqualityOfSum tsp_Challenge tsp_InputValues tsp_InputBlindingFactors].
  rewrite !omap_present. eexists. split; [reflexivity|]. cbn [to_type to_typeBF to_values to_bfs to_sumBF].
  assert (c = p0 ⋅ response_quotient ch ch' t t' + p2 ⋅ response_quotient ch ch' tb tb')%g1 as Ec by (rewrite Htype at 1; unfold response_quotient; linear).
  assert (length (relative c (tsv_Inputs v)) = length (tsv_Inputs v)) as Li by apply length_fmap.
  apply in_coms_extract in Hin; [|done|congruence..]. cbv zeta. rewrite <- Ec. split_and!; [done| |].
  - apply opens_relative; [rewrite !length_zip_with; congruence|]. by rewrite <- Ec.
  - rewrite Hsum. unfold response_quotient. linear.
Qed.

(** The totals of inputs and outputs agree, or the extractor has found the
    discrete logarithm. *)
Lemma ts_sum_sound v o p0 p1 p2 ys qs : let c := (p0 ⋅ to_type o + p2 ⋅ to_typeBF o)%g1 in
  opens p0 p1 p2 (to_type o) (to_values o) (to_bfs o) (tsv_Inputs v) ->
  quotient (relative c (tsv_Inputs v)) (relative c (tsv_Outputs v)) = (p2 ⋅ to_sumBF o)%g1 ->
  opens p0 p1 p2 (to_type o) ys qs (tsv_Outputs v) -> zsum (to_values o) <> zsum ys -> p1 = (p2 ⋅ ts_dlog o ys qs)%g1.
Proof.
  intros c Hin Hq Hout Hne. pose proof (length_opens _ _ _ _ _ _ _ Hin) as [_ Li]. pose proof (length_opens _ _ _ _ _ _ _ Hout) as [_ Lo].
  unfold c in Hq. rewrite quotient_gsum, (relative_opens _ _ _ _ _ _ _ _ Hin), (relative_opens _ _ _ _ _ _ _ _ Hout), !gsum_openings in Hq by (rewrite length_fmap; done).
  unfold ts_dlog. set (rs' := _ <$> to_bfs o) in *. set (qs' := _ <$> qs) in *. set (d := zsum (to_values o) - zsum ys). set (e := to_sumBF o) in *.
  assert (d <> Zero) as Hd. { intros Hz. apply Hne. transitivity (d + zsum ys); [unfold d; ring|]. rewrite Hz. ring. }
  pose proof (zr_inv d Hd) as Hi. transitivity (p1 ⋅ d ⋅ InvModOrder d)%g1; [rewrite g1_mul_mul, Hi; symmetry; apply g1_mul_one|].
  assert (p1 ⋅ d = p2 ⋅ (e - (zsum rs' - zsum qs'))%zr)%g1 as ->; [|apply g1_mul_mul].
  transitivity ((p1 ⋅ zsum (to_values o) + p2 ⋅ zsum rs' - (p1 ⋅ zsum ys + p2 ⋅ zsum qs')) - p2 ⋅ (zsum rs' - zsum qs')%zr)%g1; [unfold d; linear|]. rewrite Hq. linear.
Qed.

(** A single output opens to the amount of a single input. *)
Lemma ts_owner_change o p0 p1 p2 input output x r : let c := (p0 ⋅ to_type o + p2 ⋅ to_typeBF o)%g1 in
  opens p0 p1 p2 (to_type o) [x] [r] [input] -> quotient (relative c [input]) (relative c [output]) = (p2 ⋅ to_sumBF o)%g1 ->
  opens p0 p1 p2 (to_type o) [x] [r - to_sumBF o] [output].
Proof.
  intros c [_ [= Hin]] Hq. split; [done|]. cbn [zip_with]. f_equal. rewrite quotient_gsum in Hq. cbn in Hq. unfold gsum in Hq. cbn in Hq.
  transitivity (input - ((input - c + NewG1) - (output - c + NewG1)))%g1; [linear|]. rewrite Hq, Hin. linear.
Qed.

End SigmaProofs.

(** ** Another oracle

    In the argument for soundness the prover is run again with other answers of
    the hash: the verifier of the second run is the same code over a curve
    library with another [HashToZr]. *)
Section Oracle.
Context {CO : Curve}.

Definition with_oracle (h : bytes -> Zr) : Curve := {|
  Zr := Zr; G1 := G1; Zr_eq_dec := Zr_eq_dec; G1_eq_dec := G1_eq_dec;
  NewZrFromUint64 := NewZrFromUint64; ModAdd := ModAdd; ModSub := ModSub; ModMul := ModMul; Neg := Neg; InvModOrder := InvModOrder;
  PowMod := PowMod; ModAddMul := ModAddMul; ModAddMul2 := ModAddMul2;
  NewG1 := NewG1; G1_Add := G1_Add; G1_Sub := G1_Sub; G1_Mul := G1_Mul; Mul2 := Mul2;
  MultiScalarMul := MultiScalarMul; Zr_Bytes := Zr_Bytes; G1_Bytes := G1_Bytes; HashToZr := h;
|}.

Definition TypeAndSum_Verify_with (h : bytes -> Zr) (v : TypeAndSumVerifier) (stp : TypeAndSumProof) : res unit :=
  TypeAndSum_Verify (CO := with_oracle h)
    (@Build_TypeAndSumVerifier (with_oracle h) (tsv_PedParams v) (tsv_Inputs v) (tsv_Outputs v))
    (@Build_TypeAndSumProof (with_oracle h) (tsp_CommitmentToType stp) (tsp_InputBlindingFactors stp) (tsp_InputValues stp) (tsp_Type stp)
       (tsp_TypeBlindingFactor stp) (tsp_EqualityOfSum stp) (tsp_Challenge stp)).

Lemma TypeAndSum_Verify_with_inv h v stp p0 p1 p2 ps : tsv_PedParams v = p0 :: p1 :: p2 :: ps -> TypeAndSum_Verify_with h v stp = Ok tt -> well_shaped v stp.
Proof.
  intros Hps Hv. destruct stp as [a b c d e f g].
  destruct (TypeAndSum_Verify_inv (CO := with_oracle h) (@Build_TypeAndSumVerifier (with_oracle h) (tsv_PedParams v) (tsv_Inputs v) (tsv_Outputs v)) _ p0 p1 p2 ps Hps Hv) as (comType & type & typeBF & eqSum & chal & vals & bfs & Heq & Lv & Lb).
  injection Heq as -> -> -> -> -> -> ->. by exists comType, type, typeBF, eqSum, chal, vals, bfs.
Qed.

End Oracle.
