(* ===== verification/ZkCodec.v ===== *)
(** * The encoding of the proofs (core/common/encoding/asn1/asn1.go and the
      [Serialize], [Deserialize] and [Validate] methods of the proofs)

    A proof travels as nested DER: [Values] is a SEQUENCE of octet strings, an
    element the pair of the identifier of its curve and its bytes.  An element of
    another curve than the one of the public parameters decodes to a foreign
    object ([Foreign]); [Validate] rejects it, and a verifier that met one would
    panic.  The module shows that decoding and validating never panic on any
    bytes, that a validated proof has all its elements on the right curve, and
    that a serialized proof is read back. *)

From S2P Require Import Prelude GoStd Der Asn1 ZkMath ZkIpa ZkRange ZkSigma.
From Stdlib Require Import ZArith Lia.

(** ** Elements on the wire *)

(** What the encoding needs of the curve library: the position of the curve in
    [math.Curves], the decoders of its points, and whether the decoder of
    another curve accepts some bytes. *)
Class Wire `{!Curve, !Native} := {
  curve_id : Z;
  num_curves : Z;
  NewG1FromBytes : bytes -> res G1;
  foreign_G1 : Z -> bytes -> res unit;
  G1_IsInfinity : G1 -> bool;
}.

Class WireLaws `{!Curve, !Native, !Wire} := {
  curve_id_range : (0 <= curve_id < num_curves)%Z /\ (num_curves <= 128)%Z;
  g1_decode p : NewG1FromBytes (G1_Bytes p) = Ok p;
  zr_decode z : NewZrFromBytes (Zr_Bytes z) = z;
  g1_decode_no_panic b : NewG1FromBytes b <> Panic;
  foreign_no_panic id b : foreign_G1 id b <> Panic;
}.

Inductive wire (T : Type) : Type :=
| Own (t : T)
| Foreign (id : Z) (raw : bytes).
Arguments Own {T} t.
Arguments Foreign {T} id raw.

(** [Element] and [Values]. *)
Record Element := mkElement { el_CurveID : Z; el_Raw : bytes }.

(** encoding/asn1 on [int]: the shortest two's complement, at most eight
    bytes. *)
Fixpoint int_len (fuel : nat) (i : Z) : nat :=
  match fuel with
  | O => 1
  | S fuel => if ((127 <? i) || (i <? -128))%Z then S (int_len fuel (Z.shiftr i 8)) else 1
  end.
Definition encode_int (i : Z) : bytes :=
  let n := int_len 7 i in (fun j => z2b (Z.shiftr i (8 * Z.of_nat (n - 1 - j)))) <$> seq 0 n.

Definition parse_int (b : bytes) : res Z :=
  match b with
  | [] => Err (asn1_err "empty integer")
  | a :: c :: _ => if redundant a c then Err (asn1_err "integer not minimally-encoded")
                   else if (8 <? length b)%nat then Err (asn1_err "integer too large") else Ok (sval b)
  | _ => Ok (sval b)
  end.

Definition Element_Marshal (e : Element) : bytes :=
  tlv tagSequence (tlv tagInteger (encode_int (el_CurveID e)) ++ tlv tagOctetString (el_Raw e)).

Definition Element_Unmarshal (b : bytes) : res (Element * bytes) :=
  '(body, rest) ← parse_tagged tagSequence b;
  '(iv, body) ← parse_tagged tagInteger body;
  id ← parse_int iv;
  '(raw, _) ← parse_tagged tagOctetString body;
  Ok (mkElement id raw, rest).

(** ** Serializers *)

(** [Marshal]: a nil serializer leaves its entry empty. *)
Definition asn1_Marshal_all (values : list (option (res bytes))) : res bytes :=
  vs ← mapM (fun o => match o with
                      | None => Ok []
                      | Some r => wrap "failed to serialize value" r
                      end) values;
  Ok (octets_struct_Marshal vs).

Definition asn1_Unmarshal_values (data : bytes) : res (list bytes) :=
  '(vs, _) ← wrap "failed to unmarshal values" (octets_struct_Unmarshal data);
  Ok vs.

(** [Unmarshal] for two and for one serializers: an empty entry leaves the
    receiver as it was. *)
Definition unmarshal_entry {A} (init : A) (f : bytes -> res A) (v : bytes) : res A :=
  if (length v =? 0)%nat then Ok init else wrap "failed to deserialize value" (f v).

Definition asn1_Unmarshal2 {A B} (data : bytes) (a0 : A) (fa : bytes -> res A) (b0 : B) (fb : bytes -> res B) : res (A * B) :=
  vs ← asn1_Unmarshal_values data;
  match vs with
  | [va; vb] => a ← unmarshal_entry a0 fa va; b ← unmarshal_entry b0 fb vb; Ok (a, b)
  | _ => Err (EMsg "number of values does not match number of values")
  end.

Definition asn1_Unmarshal1 {A} (data : bytes) (a0 : A) (fa : bytes -> res A) : res A :=
  vs ← asn1_Unmarshal_values data;
  match vs with
  | [va] => unmarshal_entry a0 fa va
  | _ => Err (EMsg "number of values does not match number of values")
  end.

Definition asn1_UnmarshalTo {A} (data : bytes) (f : bytes -> res A) : res (list A) :=
  vs ← asn1_Unmarshal_values data;
  mapM (fun v => wrap "failed to deserialize value" (f v)) vs.

(** ** The unmarshaller: the entries that are left *)

Definition Next (vs : list bytes) : res (option Element * list bytes) :=
  match vs with
  | [] => Ok (None, [])
  | v :: vs =>
      '(e, rest) ← wrap "failed to unmarshal element" (Element_Unmarshal v);
      if negb (length rest =? 0)%nat then Err (EMsg "values should not have trailing bytes") else Ok (Some e, vs)
  end.

Section Codec.
Context {CO : Curve} {NA : Native} {WI : Wire}.

Definition curveAt (id : Z) : res Z :=
  if (id <? 0)%Z || (num_curves <=? id)%Z then Err (EMsg "invalid curve id") else Ok id.

(** Decoding a scalar or a point of the curve [id]. *)
Definition decode_Zr (id : Z) (raw : bytes) : wire Zr :=
  if (id =? curve_id)%Z then Own (NewZrFromBytes raw) else Foreign id raw.
Definition decode_G1 (id : Z) (raw : bytes) : res (wire G1) :=
  if (id =? curve_id)%Z then p ← NewG1FromBytes raw; Ok (Own p) else _ ← foreign_G1 id raw; Ok (Foreign id raw).

Definition NextZr (vs : list bytes) : res (option (wire Zr) * list bytes) :=
  '(e, vs) ← Next vs;
  match e with
  | None => Ok (None, vs)
  | Some e => id ← curveAt (el_CurveID e); Ok (Some (decode_Zr id (el_Raw e)), vs)
  end.

Definition NextG1 (vs : list bytes) : res (option (wire G1) * list bytes) :=
  '(e, vs) ← Next vs;
  match e with
  | None => Ok (None, vs)
  | Some e => id ← curveAt (el_CurveID e); p ← decode_G1 id (el_Raw e); Ok (Some p, vs)
  end.

(** The entries of an array element. *)
Definition array_values (msg : string) (e : Element) : res (Z * list bytes) :=
  '(vs, rest) ← wrap msg (octets_struct_Unmarshal (el_Raw e));
  if negb (length rest =? 0)%nat then Err (EMsg "values should not have trailing bytes") else
  id ← curveAt (el_CurveID e);
  Ok (id, vs).

Definition NextZrArray (vs : list bytes) : res (option (list (wire Zr)) * list bytes) :=
  '(e, vs) ← Next vs;
  match e with
  | None => Ok (None, vs)
  | Some e => '(id, values) ← array_values "failed to serialize element" e; Ok (Some (map (decode_Zr id) values), vs)
  end.

Definition NextG1Array (vs : list bytes) : res (option (list (wire G1)) * list bytes) :=
  '(e, vs) ← Next vs;
  match e with
  | None => Ok (None, vs)
  | Some e =>
      '(id, values) ← array_values "failed to deserialize element" e;
      l ← mapM (fun v => wrap "failed to deserialize element" (decode_G1 id v)) values;
      Ok (Some l, vs)
  end.

(** ** Elements written by the prover, all of one curve *)

Inductive math_value :=
| MZr (z : option Zr)
| MG1 (p : option G1)
| MArray (raw : bytes).

(** [NewElementArray]: the curve is the one of the first element. *)
Definition NewElementArray {E} (Bytes : E -> bytes) (factors : list (option E)) : res math_value :=
  match factors with
  | [] => Err (EMsg "elements cannot be empty")
  | _ => vs ← mapM (fun o => e ← deref o; Ok (Bytes e)) factors; Ok (MArray (octets_struct_Marshal vs))
  end.

Definition element_bytes (v : math_value) : res bytes :=
  match v with
  | MZr o => z ← deref o; Ok (Zr_Bytes z)
  | MG1 o => p ← deref o; Ok (G1_Bytes p)
  | MArray raw => Ok raw
  end.

Definition MarshalMath (values : list math_value) : res bytes :=
  match values with
  | [] => Err (EMsg "cannot marshal empty values")
  | _ =>
      vs ← mapM (fun v => raw ← element_bytes v; Ok (Element_Marshal (mkElement curve_id raw))) values;
      Ok (octets_struct_Marshal vs)
  end.

(** ** The checks (crypto/math/math.go) *)

Definition CheckElement (o : option (wire G1)) : res unit :=
  match o with
  | None => Err (EMsg "element is nil")
  | Some (Foreign _ _) => Err (EMsg "element curve must equal curve ID")
  | Some (Own p) => if G1_IsInfinity p then Err (EMsg "element is infinity") else Ok tt
  end.

Definition CheckBaseElement (o : option (wire Zr)) : res unit :=
  match o with
  | None => Err (EMsg "element is nil")
  | Some (Foreign _ _) => Err (EMsg "element curve must equal curve ID")
  | Some (Own _) => Ok tt
  end.

Definition CheckElements (l : list (wire G1)) (n : nat) : res unit :=
  if negb (length l =? n)%nat then Err (EMsg "length of elements does not match length of curveID")
  else rangeR (fun _ e => CheckElement (Some e)) 0 l.

Definition CheckZrElements (l : list (wire Zr)) (n : nat) : res unit :=
  if negb (length l =? n)%nat then Err (EMsg "length of elements does not match length of curveID")
  else rangeR (fun _ e => CheckBaseElement (Some e)) 0 l.

(** The value of an element the verifier computes with: meeting a foreign one
    panics. *)
Definition own {T} (w : wire T) : res T := match w with Own t => Ok t | Foreign _ _ => Panic end.
Definition own_opt {T} (o : option (wire T)) : res (option T) :=
  match o with None => Ok None | Some w => t ← own w; Ok (Some t) end.
Definition own_list {T} (o : option (list (wire T))) : res (list (option T)) :=
  mapM (fun w => t ← own w; Ok (Some t)) (default [] o).

End Codec.

(** ** The proofs on the wire *)

Section Proofs.
Context {CO : Curve} {NA : Native} {WI : Wire}.

Record wTypeAndSumProof := {
  wts_CommitmentToType : option (wire G1);
  wts_InputBlindingFactors : option (list (wire Zr));
  wts_InputValues : option (list (wire Zr));
  wts_Type : option (wire Zr);
  wts_TypeBlindingFactor : option (wire Zr);
  wts_EqualityOfSum : option (wire Zr);
  wts_Challenge : option (wire Zr);
}.

(** [&TypeAndSumProof{}]. *)
Definition empty_ts : wTypeAndSumProof :=
  {| wts_CommitmentToType := None; wts_InputBlindingFactors := None; wts_InputValues := None; wts_Type := None;
     wts_TypeBlindingFactor := None; wts_EqualityOfSum := None; wts_Challenge := None |}.

Definition ErrInvalidSumAndTypeProof : error := EMsg "invalid sum and type proof".

Definition TypeAndSumProof_Serialize (p : TypeAndSumProof) : res bytes :=
  ibf ← err_join (NewElementArray Zr_Bytes (tsp_InputBlindingFactors p)) ErrInvalidSumAndTypeProof;
  iv ← err_join (NewElementArray Zr_Bytes (tsp_InputValues p)) ErrInvalidSumAndTypeProof;
  err_join (MarshalMath [MG1 (tsp_CommitmentToType p); ibf; iv; MZr (tsp_Type p); MZr (tsp_TypeBlindingFactor p);
                         MZr (tsp_EqualityOfSum p); MZr (tsp_Challenge p)]) ErrInvalidSumAndTypeProof.

Definition TypeAndSumProof_Deserialize (raw : bytes) : res wTypeAndSumProof :=
  err_join (
    vs ← asn1_Unmarshal_values raw;
    '(com, vs) ← NextG1 vs;
    '(ibf, vs) ← NextZrArray vs;
    '(iv, vs) ← NextZrArray vs;
    '(type, vs) ← NextZr vs;
    '(tbf, vs) ← NextZr vs;
    '(eqs, vs) ← NextZr vs;
    '(chal, vs) ← NextZr vs;
    Ok {| wts_CommitmentToType := com; wts_InputBlindingFactors := ibf; wts_InputValues := iv; wts_Type := type;
          wts_TypeBlindingFactor := tbf; wts_EqualityOfSum := eqs; wts_Challenge := chal |}) ErrInvalidSumAndTypeProof.

(** [errors.Join(err, what, ErrInvalidSumAndTypeProof)]. *)
Definition ts_check (r : res unit) (what : string) : res unit := err_join (err_join r (EMsg what)) ErrInvalidSumAndTypeProof.

Definition TypeAndSumProof_Validate (p : wTypeAndSumProof) : res unit :=
  let n := length (default [] (wts_InputValues p)) in
  ts_check (CheckElement (wts_CommitmentToType p)) "CommitmentToType is invalid" ;;
  ts_check (CheckZrElements (default [] (wts_InputBlindingFactors p)) n) "InputBlindingFactors are invalid" ;;
  ts_check (CheckZrElements (default [] (wts_InputValues p)) n) "InputValues are invalid" ;;
  ts_check (CheckBaseElement (wts_Type p)) "Type is invalid" ;;
  ts_check (CheckBaseElement (wts_TypeBlindingFactor p)) "TypeBlindingFactor is invalid" ;;
  ts_check (CheckBaseElement (wts_EqualityOfSum p)) "EqualityOfSum is invalid" ;;
  ts_check (CheckBaseElement (wts_Challenge p)) "Challenge is invalid".

Definition own_ts (p : wTypeAndSumProof) : res TypeAndSumProof :=
  com ← own_opt (wts_CommitmentToType p);
  ibf ← own_list (wts_InputBlindingFactors p);
  iv ← own_list (wts_InputValues p);
  type ← own_opt (wts_Type p);
  tbf ← own_opt (wts_TypeBlindingFactor p);
  eqs ← own_opt (wts_EqualityOfSum p);
  chal ← own_opt (wts_Challenge p);
  Ok {| tsp_CommitmentToType := com; tsp_InputBlindingFactors := ibf; tsp_InputValues := iv; tsp_Type := type;
        tsp_TypeBlindingFactor := tbf; tsp_EqualityOfSum := eqs; tsp_Challenge := chal |}.

(** [SameType]. *)
Record wSameType := {
  wst_Type : option (wire Zr);
  wst_BlindingFactor : option (wire Zr);
  wst_Challenge : option (wire Zr);
  wst_CommitmentToType : option (wire G1);
}.

Definition empty_st : wSameType := {| wst_Type := None; wst_BlindingFactor := None; wst_Challenge := None; wst_CommitmentToType := None |}.

Definition SameType_Serialize (p : SameType) : res bytes :=
  MarshalMath [MZr (Some (st_Type p)); MZr (Some (st_BlindingFactor p)); MZr (Some (st_Challenge p)); MG1 (Some (st_CommitmentToType p))].

Definition SameType_Deserialize (raw : bytes) : res wSameType :=
  vs ← join_err (EMsg "failed to initialize unmarshaller") (asn1_Unmarshal_values raw);
  '(type, vs) ← join_err (EMsg "failed to deserialize type") (NextZr vs);
  '(bf, vs) ← join_err (EMsg "failed to deserialize blinding factor") (NextZr vs);
  '(chal, vs) ← join_err (EMsg "failed to deserialize challenge") (NextZr vs);
  '(com, vs) ← join_err (EMsg "failed to deserialize commitment to type") (NextG1 vs);
  Ok {| wst_Type := type; wst_BlindingFactor := bf; wst_Challenge := chal; wst_CommitmentToType := com |}.

Definition SameType_Validate (p : wSameType) : res unit :=
  join_err ErrInvalidSameTypeProof (wrap "invalid type" (CheckBaseElement (wst_Type p))) ;;
  join_err ErrInvalidSameTypeProof (wrap "invalid blinding factor" (CheckBaseElement (wst_BlindingFactor p))) ;;
  join_err ErrInvalidSameTypeProof (wrap "invalid challenge" (CheckBaseElement (wst_Challenge p))) ;;
  join_err ErrInvalidSameTypeProof (wrap "invalid commitment to type" (CheckElement (wst_CommitmentToType p))).

(** The verifier follows all four pointers. *)
Definition own_st (p : wSameType) : res SameType :=
  type ← own_opt (wst_Type p); type ← deref type;
  bf ← own_opt (wst_BlindingFactor p); bf ← deref bf;
  chal ← own_opt (wst_Challenge p); chal ← deref chal;
  com ← own_opt (wst_CommitmentToType p); com ← deref com;
  Ok {| st_Type := type; st_BlindingFactor := bf; st_Challenge := chal; st_CommitmentToType := com |}.

(** [IPA]. *)
Record wIPA := {
  wip_Left : option (wire Zr);
  wip_Right : option (wire Zr);
  wip_L : option (list (wire G1));
  wip_R : option (list (wire G1));
}.

Definition empty_ipa : wIPA := {| wip_Left := None; wip_Right := None; wip_L := None; wip_R := None |}.

Definition IPA_Serialize (p : IPA) : res bytes :=
  lArray ← wrap "failed to serialize L" (NewElementArray G1_Bytes (ipa_L p));
  rArray ← wrap "failed to serialize R" (NewElementArray G1_Bytes (ipa_R p));
  MarshalMath [MZr (ipa_Left p); MZr (ipa_Right p); lArray; rArray].

Definition IPA_Deserialize (raw : bytes) : res wIPA :=
  vs ← wrap "failed to deserialize raw" (asn1_Unmarshal_values raw);
  '(l, vs) ← wrap "failed to deserialize Left" (NextZr vs);
  '(r, vs) ← wrap "failed to deserialize Right" (NextZr vs);
  '(ls, vs) ← wrap "failed to deserialize L" (NextG1Array vs);
  '(rs, vs) ← wrap "failed to deserialize R" (NextG1Array vs);
  Ok {| wip_Left := l; wip_Right := r; wip_L := ls; wip_R := rs |}.

Definition maxIPARounds : nat := 16.

Definition IPA_Validate (p : wIPA) : res unit :=
  reject_if (bool_decide (wip_Left p = None)) (EMsg "invalid IPA proof: nil Left") ;;
  reject_if (bool_decide (wip_Right p = None)) (EMsg "invalid IPA proof: nil Right") ;;
  wrap "invalid IPA proof: invalid Left" (CheckBaseElement (wip_Left p)) ;;
  wrap "invalid IPA proof: invalid Right" (CheckBaseElement (wip_Right p)) ;;
  match wip_L p, wip_R p with
  | None, _ => Err (EMsg "invalid IPA proof: nil L")
  | _, None => Err (EMsg "invalid IPA proof: nil R")
  | Some ls, Some rs =>
      if negb (length ls =? length rs)%nat then Err (EMsg "invalid IPA proof: L and R must have the same length") else
      if (maxIPARounds <? length ls)%nat then Err (EMsg "invalid IPA proof: L exceeds maximum of rounds") else
      wrap "invalid IPA proof: invalid L elements" (CheckElements ls (length ls)) ;;
      wrap "invalid IPA proof: invalid R elements" (CheckElements rs (length rs))
  end.

Definition own_ipa (p : wIPA) : res IPA :=
  l ← own_opt (wip_Left p);
  r ← own_opt (wip_Right p);
  ls ← own_list (wip_L p);
  rs ← own_list (wip_R p);
  Ok {| ipa_Left := l; ipa_Right := r; ipa_L := ls; ipa_R := rs |}.

(** [RangeProofData] and [RangeProof]. *)
Record wRangeProofData := {
  wrd_T1 : option (wire G1);
  wrd_T2 : option (wire G1);
  wrd_Tau : option (wire Zr);
  wrd_C : option (wire G1);
  wrd_D : option (wire G1);
  wrd_Delta : option (wire Zr);
  wrd_InnerProduct : option (wire Zr);
}.

Definition empty_rpd : wRangeProofData :=
  {| wrd_T1 := None; wrd_T2 := None; wrd_Tau := None; wrd_C := None; wrd_D := None; wrd_Delta := None; wrd_InnerProduct := None |}.

Definition RangeProofData_Serialize (p : RangeProofData) : res bytes :=
  MarshalMath [MG1 (rpd_T1 p); MG1 (rpd_T2 p); MZr (rpd_Tau p); MG1 (rpd_C p); MG1 (rpd_D p); MZr (rpd_Delta p); MZr (rpd_InnerProduct p)].

Definition RangeProofData_Deserialize (raw : bytes) : res wRangeProofData :=
  vs ← wrap "failed to get unmarshaller from bytes" (asn1_Unmarshal_values raw);
  '(t1, vs) ← wrap "failed to unmarshall T1" (NextG1 vs);
  '(t2, vs) ← wrap "failed to unmarshall T2" (NextG1 vs);
  '(tau, vs) ← wrap "failed to unmarshall Tau" (NextZr vs);
  '(c, vs) ← wrap "failed to unmarshall C" (NextG1 vs);
  '(d, vs) ← wrap "failed to unmarshall D" (NextG1 vs);
  '(delta, vs) ← wrap "failed to unmarshall Delta" (NextZr vs);
  '(ip, vs) ← wrap "failed to unmarshall InnerProduct" (NextZr vs);
  Ok {| wrd_T1 := t1; wrd_T2 := t2; wrd_Tau := tau; wrd_C := c; wrd_D := d; wrd_Delta := delta; wrd_InnerProduct := ip |}.

(** [if x == nil { return nilMsg }; if err := Check(x) { return Wrapf(err, msg) }]. *)
Definition checked {T} (check : option T -> res unit) (o : option T) (nilMsg msg : string) : res unit :=
  match o with
  | None => Err (EMsg nilMsg)
  | Some _ => wrap msg (check o)
  end.

Definition RangeProofData_Validate (p : wRangeProofData) : res unit :=
  checked CheckElement (wrd_T1 p) "invalid range proof data: nil T1" "invalid range proof data: invalid T1" ;;
  checked CheckElement (wrd_T2 p) "invalid range proof data: nil T2" "invalid range proof data: invalid T2" ;;
  checked CheckElement (wrd_C p) "invalid range proof data: nil C" "invalid range proof data: invalid C" ;;
  checked CheckElement (wrd_D p) "invalid range proof data: nil D" "invalid range proof data: invalid D" ;;
  checked CheckBaseElement (wrd_Tau p) "invalid range proof data: nil Tau" "invalid range proof data: invalid Tau" ;;
  checked CheckBaseElement (wrd_Delta p) "invalid range proof data: nil Delta" "invalid range proof data: invalid Delta" ;;
  checked CheckBaseElement (wrd_InnerProduct p) "invalid range proof data: nil InnerProduct" "invalid range proof data: invalid InnerProduct".

Definition own_rpd (p : wRangeProofData) : res RangeProofData :=
  t1 ← own_opt (wrd_T1 p); t2 ← own_opt (wrd_T2 p); tau ← own_opt (wrd_Tau p);
  c ← own_opt (wrd_C p); d ← own_opt (wrd_D p); delta ← own_opt (wrd_Delta p); ip ← own_opt (wrd_InnerProduct p);
  Ok {| rpd_T1 := t1; rpd_T2 := t2; rpd_Tau := tau; rpd_C := c; rpd_D := d; rpd_Delta := delta; rpd_InnerProduct := ip |}.

(** A decoded range proof has both parts; [None] is a nil pointer. *)
Definition RangeProof_Serialize (p : RangeProof) : res bytes :=
  asn1_Marshal_all [option_map RangeProofData_Serialize (rp_Data p); option_map IPA_Serialize (rp_IPA p)].

Definition RangeProof_Deserialize (raw : bytes) : res (wRangeProofData * wIPA) :=
  asn1_Unmarshal2 raw empty_rpd RangeProofData_Deserialize empty_ipa IPA_Deserialize.

Definition RangeProof_Validate (p : wRangeProofData * wIPA) : res unit :=
  wrap "invalid range proof: invalid data" (RangeProofData_Validate p.1) ;;
  wrap "invalid range proof: invalid IPA" (IPA_Validate p.2).

Definition own_rp (p : wRangeProofData * wIPA) : res RangeProof :=
  d ← own_rpd p.1; i ← own_ipa p.2; Ok {| rp_Data := Some d; rp_IPA := Some i |}.

(** [RangeCorrectness]. *)
Definition RangeCorrectness_Serialize (proofs : list (option RangeProof)) : res bytes :=
  asn1_Marshal_all [Some (asn1_Marshal_all (map (option_map RangeProof_Serialize) proofs))].

Definition RangeCorrectness_Deserialize (raw : bytes) : res (list (wRangeProofData * wIPA)) :=
  wrap "failed to unmarshal proofs" (asn1_Unmarshal1 raw [] (fun v => asn1_UnmarshalTo v RangeProof_Deserialize)).

Definition RangeCorrectness_Validate (proofs : list (wRangeProofData * wIPA)) : res unit :=
  rangeR (fun _ p => wrap "invalid range proof at index" (RangeProof_Validate p)) 0 proofs.

Definition own_rc (proofs : list (wRangeProofData * wIPA)) : res (list (option RangeProof)) :=
  mapM (fun p => rp ← own_rp p; Ok (Some rp)) proofs.

End Proofs.

(** ** Decoding never panics *)

Create HintDb nopanic.

(** Breaks a sequence of calls into its calls. *)
Ltac np_step :=
  match goal with
  | |- _ ≫= _ <> Panic => apply bind_no_panic
  | |- wrap _ _ <> Panic => apply wrap_no_panic
  | |- join_err _ _ <> Panic => apply join_err_no_panic
  | |- err_join _ _ <> Panic => apply err_join_no_panic
  | |- mapM _ _ <> Panic => apply mapM_no_panic; intros ? _
  | |- forall p : _ * _, _ => intros [? ?]
  | |- forall p : _, _ => intros ?
  | |- (if ?b then _ else _) <> Panic => destruct b
  | |- match ?x with _ => _ end <> Panic => destruct x
  | |- Ok _ <> Panic => discriminate
  | |- Err _ <> Panic => discriminate
  end.
Ltac np := repeat np_step; eauto with nopanic.

Lemma parse_int_no_panic b : parse_int b <> Panic.
Proof. unfold parse_int. np. Qed.
#[export] Hint Resolve parse_int_no_panic parse_tagged_no_panic octets_struct_no_panic : nopanic.

Lemma Element_no_panic b : Element_Unmarshal b <> Panic.
Proof. unfold Element_Unmarshal. np. Qed.
#[export] Hint Resolve Element_no_panic : nopanic.

Lemma Next_no_panic vs : Next vs <> Panic.
Proof. unfold Next. np. Qed.

Lemma asn1_values_no_panic b : asn1_Unmarshal_values b <> Panic.
Proof. unfold asn1_Unmarshal_values. np. Qed.
#[export] Hint Resolve Next_no_panic asn1_values_no_panic : nopanic.

Lemma unmarshal_entry_no_panic {A} (a : A) f v : (forall b, f b <> Panic) -> unmarshal_entry a f v <> Panic.
Proof. intros. unfold unmarshal_entry. np. Qed.

Lemma Unmarshal2_no_panic {A B} b (a0 : A) fa (b0 : B) fb : (forall b, fa b <> Panic) -> (forall b, fb b <> Panic) ->
  asn1_Unmarshal2 b a0 fa b0 fb <> Panic.
Proof. intros. unfold asn1_Unmarshal2. np; by apply unmarshal_entry_no_panic. Qed.

Lemma Unmarshal1_no_panic {A} b (a0 : A) fa : (forall b, fa b <> Panic) -> asn1_Unmarshal1 b a0 fa <> Panic.
Proof. intros. unfold asn1_Unmarshal1. np; by apply unmarshal_entry_no_panic. Qed.

Lemma UnmarshalTo_no_panic {A} b (f : bytes -> res A) : (forall b, f b <> Panic) -> asn1_UnmarshalTo b f <> Panic.
Proof. intros. unfold asn1_UnmarshalTo. np. Qed.
#[export] Hint Resolve Unmarshal2_no_panic Unmarshal1_no_panic UnmarshalTo_no_panic : nopanic.

Section CodecSafety.
Context {CO : Curve} {CL : CurveLaws} {NA : Native} {WI : Wire} {WL : WireLaws}.

Lemma decode_G1_no_panic id raw : decode_G1 id raw <> Panic.
Proof. unfold decode_G1. np; [apply g1_decode_no_panic|apply foreign_no_panic]. Qed.

Lemma curveAt_no_panic id : curveAt id <> Panic.
Proof. unfold curveAt. np. Qed.

#[local] Hint Resolve decode_G1_no_panic curveAt_no_panic : nopanic.

Lemma NextZr_no_panic vs : NextZr vs <> Panic.
Proof. unfold NextZr. np. Qed.
Lemma NextG1_no_panic vs : NextG1 vs <> Panic.
Proof. unfold NextG1. np. Qed.
Lemma array_values_no_panic msg e : array_values msg e <> Panic.
Proof. unfold array_values. np. Qed.
#[local] Hint Resolve array_values_no_panic : nopanic.
Lemma NextZrArray_no_panic vs : NextZrArray vs <> Panic.
Proof. unfold NextZrArray. np. Qed.
Lemma NextG1Array_no_panic vs : NextG1Array vs <> Panic.
Proof. unfold NextG1Array. np. Qed.
#[local] Hint Resolve NextZr_no_panic NextG1_no_panic NextZrArray_no_panic NextG1Array_no_panic : nopanic.

Lemma TypeAndSumProof_Deserialize_no_panic raw : TypeAndSumProof_Deserialize raw <> Panic.
Proof. unfold TypeAndSumProof_Deserialize. np. Qed.
Lemma SameType_Deserialize_no_panic raw : SameType_Deserialize raw <> Panic.
Proof. unfold SameType_Deserialize. np. Qed.
Lemma IPA_Deserialize_no_panic raw : IPA_Deserialize raw <> Panic.
Proof. unfold IPA_Deserialize. np. Qed.
Lemma RangeProofData_Deserialize_no_panic raw : RangeProofData_Deserialize raw <> Panic.
Proof. unfold RangeProofData_Deserialize. np. Qed.
#[local] Hint Resolve IPA_Deserialize_no_panic RangeProofData_Deserialize_no_panic : nopanic.
Lemma RangeProof_Deserialize_no_panic raw : RangeProof_Deserialize raw <> Panic.
Proof. unfold RangeProof_Deserialize. np. Qed.
#[local] Hint Resolve RangeProof_Deserialize_no_panic : nopanic.
Lemma RangeCorrectness_Deserialize_no_panic raw : RangeCorrectness_Deserialize raw <> Panic.
Proof. unfold RangeCorrectness_Deserialize. np. Qed.

(** ** Validated proofs have every element on the curve *)

Lemma CheckElement_Ok o : CheckElement o = Ok tt <-> exists p, o = Some (Own p) /\ G1_IsInfinity p = false.
Proof.
  unfold CheckElement. split.
  - destruct o as [[p|]|]; [|done..]. destruct (G1_IsInfinity p) eqn:E; [done|]. intros _. by exists p.
  - intros (p & -> & E). by rewrite E.
Qed.

Lemma CheckBaseElement_Ok o : CheckBaseElement o = Ok tt <-> exists z, o = Some (Own z).
Proof.
  unfold CheckBaseElement. split; [|by intros [z ->]]. destruct o as [[z|]|]; [|done..]. intros _. by exists z.
Qed.

Lemma CheckElement_no_panic o : CheckElement o <> Panic.
Proof. unfold CheckElement. np. Qed.
Lemma CheckBaseElement_no_panic o : CheckBaseElement o <> Panic.
Proof. unfold CheckBaseElement. np. Qed.

Lemma rangeR_np {A} (f : nat -> A -> res unit) l : forall i, (forall k x, f k x <> Panic) -> rangeR f i l <> Panic.
Proof. induction l as [|x l IH]; intros i H; [done|]. cbn. apply bind_no_panic; auto. Qed.

#[local] Hint Resolve CheckElement_no_panic CheckBaseElement_no_panic : nopanic.
Lemma CheckElements_no_panic l n : CheckElements l n <> Panic.
Proof. unfold CheckElements. np. apply rangeR_np. np. Qed.
Lemma CheckZrElements_no_panic l n : CheckZrElements l n <> Panic.
Proof. unfold CheckZrElements. np. apply rangeR_np. np. Qed.
#[local] Hint Resolve CheckElements_no_panic CheckZrElements_no_panic : nopanic.

Lemma own_of_check {T} (check : option (wire T) -> res unit) (l : list (wire T)) i :
  (forall w, check (Some w) = Ok tt -> exists t, w = Own t) -> rangeR (fun _ e => check (Some e)) i l = Ok tt ->
  exists ts, l = Own <$> ts.
Proof.
  intros Hc. revert i. induction l as [|w l IH]; intros i H; [by exists []|]. cbn in H. apply res_bind_Ok in H as ([] & Hw & H).
  apply Hc in Hw as [t ->]. apply IH in H as [ts ->]. by exists (t :: ts).
Qed.

Lemma CheckZrElements_Ok l n : CheckZrElements l n = Ok tt -> length l = n /\ exists zs, l = Own <$> zs.
Proof.
  unfold CheckZrElements. destruct (Nat.eqb_spec (length l) n) as [E|]; [|done]. cbn [negb]. intros H. split; [done|].
  apply (own_of_check CheckBaseElement l 0); [|done]. intros w (z & Hz)%CheckBaseElement_Ok. injection Hz as ->. by exists z.
Qed.

Lemma CheckElements_Ok l n : CheckElements l n = Ok tt -> length l = n /\ exists ps, l = Own <$> ps.
Proof.
  unfold CheckElements. destruct (Nat.eqb_spec (length l) n) as [E|]; [|done]. cbn [negb]. intros H. split; [done|].
  apply (own_of_check CheckElement l 0); [|done]. intros w (z & Hz & _)%CheckElement_Ok. injection Hz as ->. by exists z.
Qed.

Lemma own_list_Own {T} (ts : list T) o : default [] o = Own <$> ts -> own_list o = Ok (Some <$> ts).
Proof.
  unfold own_list. intros ->. induction ts as [|t ts IH]; [done|]. rewrite !fmap_cons, mapM_cons_res. cbn [own mbind res_mbind]. by rewrite IH.
Qed.

Lemma TypeAndSumProof_Validate_no_panic p : TypeAndSumProof_Validate p <> Panic.
Proof. unfold TypeAndSumProof_Validate, ts_check. np. Qed.

Lemma TypeAndSumProof_valid p : TypeAndSumProof_Validate p = Ok tt ->
  exists com ibf iv type tbf eqs chal, own_ts p = Ok {| tsp_CommitmentToType := Some com; tsp_InputBlindingFactors := Some <$> ibf; tsp_InputValues := Some <$> iv;
    tsp_Type := Some type; tsp_TypeBlindingFactor := Some tbf; tsp_EqualityOfSum := Some eqs; tsp_Challenge := Some chal |}.
Proof.
  unfold TypeAndSumProof_Validate, ts_check. intros H. res_inv.
  repeat match goal with
  | x : unit |- _ => destruct x
  | H : CheckElement _ = Ok tt |- _ => apply CheckElement_Ok in H as (? & ? & _)
  | H : CheckBaseElement _ = Ok tt |- _ => apply CheckBaseElement_Ok in H as (? & ?)
  | H : CheckZrElements _ _ = Ok tt |- _ => apply CheckZrElements_Ok in H as (_ & ? & ?)
  end.
  unfold own_ts. repeat match goal with H : _ = Some (Own _) |- _ => rewrite H; clear H end. cbn [own_opt own mbind res_mbind].
  repeat match goal with H : default [] _ = Own <$> _ |- _ => rewrite (own_list_Own _ _ H); clear H; cbn [mbind res_mbind] end.
  by repeat eexists.
Qed.

(** [validated] turns the checks that passed into the elements they found. *)
Ltac validated :=
  repeat match goal with
  | x : unit |- _ => destruct x
  | H : CheckElement _ = Ok tt |- _ => apply CheckElement_Ok in H as (? & ? & _)
  | H : CheckBaseElement _ = Ok tt |- _ => apply CheckBaseElement_Ok in H as (? & ?)
  | H : CheckElements _ _ = Ok tt |- _ => apply CheckElements_Ok in H as (_ & ? & ?)
  | H : _ = Some (Own _) |- context [own_opt ?o] => rewrite H; cbn [own_opt own mbind res_mbind deref]; clear H
  end.

Lemma SameType_Validate_no_panic p : SameType_Validate p <> Panic.
Proof. unfold SameType_Validate. np. Qed.

Lemma SameType_valid p : SameType_Validate p = Ok tt -> exists q, own_st p = Ok q.
Proof. unfold SameType_Validate, own_st. intros H. res_inv. validated. by eexists. Qed.

Lemma IPA_Validate_no_panic p : IPA_Validate p <> Panic.
Proof. unfold IPA_Validate, reject_if. np. Qed.

Lemma IPA_valid p : IPA_Validate p = Ok tt -> exists q, own_ipa p = Ok q.
Proof.
  unfold IPA_Validate, own_ipa. intros H. res_inv. destruct (wip_L p) as [ls|]; [|done]. destruct (wip_R p) as [rs|]; [|done].
  destruct (negb _); [done|]. destruct (_ <? _)%nat; [done|]. res_inv. validated.
  repeat match goal with H : ?l = Own <$> ?ts |- _ => rewrite (own_list_Own ts (Some l) H); clear H; cbn [mbind res_mbind] end. by eexists.
Qed.

Lemma checked_Ok {T} (check : option T -> res unit) o a b : checked check o a b = Ok tt -> check o = Ok tt.
Proof. unfold checked. destruct o; [|done]. by intros ?%wrap_Ok. Qed.

Lemma checked_no_panic {T} (check : option T -> res unit) o a b : (forall o, check o <> Panic) -> checked check o a b <> Panic.
Proof. intros. unfold checked. np. Qed.
#[local] Hint Resolve checked_no_panic : nopanic.

Lemma RangeProofData_Validate_no_panic p : RangeProofData_Validate p <> Panic.
Proof. unfold RangeProofData_Validate. np. Qed.

Lemma RangeProofData_valid p : RangeProofData_Validate p = Ok tt -> exists q, own_rpd p = Ok q.
Proof.
  unfold RangeProofData_Validate, own_rpd. intros H. res_inv. validated.
  repeat match goal with H : checked _ _ _ _ = Ok tt |- _ => apply checked_Ok in H end. validated. by eexists.
Qed.

#[local] Hint Resolve IPA_Validate_no_panic RangeProofData_Validate_no_panic : nopanic.
Lemma RangeProof_Validate_no_panic p : RangeProof_Validate p <> Panic.
Proof. unfold RangeProof_Validate. np. Qed.
#[local] Hint Resolve RangeProof_Validate_no_panic : nopanic.

Lemma RangeCorrectness_Validate_no_panic ps : RangeCorrectness_Validate ps <> Panic.
Proof. apply rangeR_np. intros. np. Qed.

Lemma RangeCorrectness_valid ps : RangeCorrectness_Validate ps = Ok tt -> exists qs, own_rc ps = Ok qs.
Proof.
  unfold RangeCorrectness_Validate, own_rc. generalize 0%nat. induction ps as [|p ps IH]; intros i H; [by exists []|].
  cbn in H. apply res_bind_Ok in H as ([] & Hp & H). apply wrap_Ok in Hp. unfold RangeProof_Validate in Hp. apply res_bind_Ok in Hp as ([] & Hd & Hi).
  apply wrap_Ok in Hd, Hi. apply RangeProofData_valid in Hd as [d Hd]. apply IPA_valid in Hi as [ipa Hi]. apply IH in H as [qs H].
  rewrite mapM_cons_res. assert (own_rp p = Ok {| rp_Data := Some d; rp_IPA := Some ipa |}) as -> by (unfold own_rp; rewrite Hd; cbn [mbind res_mbind]; by rewrite Hi).
  cbn [mbind res_mbind]. rewrite H. by eexists.
Qed.

End CodecSafety.

(** ** Reading back what was written *)

Lemma small_app (a b : bytes) : small (a ++ b) -> small a /\ small b.
Proof. unfold small. rewrite zlen_app. pose proof (zlen_nonneg a). pose proof (zlen_nonneg b). lia. Qed.

Lemma small_tlv tag val : small (tlv tag val) -> small val.
Proof. unfold small. pose proof (tlv_bounds tag val). lia. Qed.

Lemma small_octets vs : small (octets_struct_Marshal vs) -> Forall small vs.
Proof.
  unfold octets_struct_Marshal, octets_list. intros H%small_tlv%small_tlv. induction vs as [|v vs IH]; [constructor|].
  rewrite fmap_cons in H. cbn [concat] in H. apply small_app in H as [Hv H]. constructor; [by eapply small_tlv|by apply IH].
Qed.

Lemma small_list (l : list bytes) v : Forall small l -> v ∈ l -> small v.
Proof. rewrite Forall_forall. auto. Qed.

Lemma asn1_values_read vs : small (octets_struct_Marshal vs) -> asn1_Unmarshal_values (octets_struct_Marshal vs) = Ok vs.
Proof. intros H. unfold asn1_Unmarshal_values. by rewrite octets_struct_read. Qed.

Lemma encode_int_small i : (0 <= i < 128)%Z -> encode_int i = [z2b i].
Proof.
  intros H. unfold encode_int. assert (int_len 7 i = 1%nat) as ->; [|cbn; by rewrite Z.shiftr_0_r].
  cbn. destruct (Z.ltb_spec 127 i), (Z.ltb_spec i (-128)); try lia. done.
Qed.

Lemma Element_read e : (0 <= el_CurveID e < 128)%Z -> small (Element_Marshal e) -> Element_Unmarshal (Element_Marshal e) = Ok (e, []).
Proof.
  intros Hid Hs. unfold Element_Unmarshal, Element_Marshal in *. rewrite <- (app_nil_r (tlv _ _)).
  rewrite parse_tagged_tlv; [|done|by eapply small_tlv]. cbn [mbind res_mbind]. apply small_tlv, small_app in Hs as [H1 H2].
  rewrite parse_tagged_tlv; [|done|by eapply small_tlv]. cbn [mbind res_mbind]. rewrite encode_int_small by done. cbn [parse_int mbind res_mbind].
  rewrite <- (app_nil_r (tlv tagOctetString _)), parse_tagged_tlv; [|done|by eapply small_tlv]. cbn [mbind res_mbind].
  rewrite sval_one, b2z_z2b_small by lia. destruct (Z.leb_spec 128 (el_CurveID e)); [lia|]. by destruct e.
Qed.

(** Takes the entries of a list of small encodings apart. *)
Ltac small_entries H :=
  repeat (apply Forall_cons in H; let Hs := fresh "Hsm" in destruct H as [Hs H]).

Section CodecRoundtrip.
Context {CO : Curve} {CL : CurveLaws} {NA : Native} {WI : Wire} {WL : WireLaws}.

(** The encoding of one element of the curve. *)
Definition elem (raw : bytes) : bytes := Element_Marshal (mkElement curve_id raw).

Lemma Next_read raw vs : small (elem raw) -> Next (elem raw :: vs) = Ok (Some (mkElement curve_id raw), vs).
Proof.
  intros H. unfold Next, elem. destruct curve_id_range as [Hc Hn]. rewrite Element_read; [done|cbn; lia|done].
Qed.

Lemma curveAt_read : curveAt curve_id = Ok curve_id.
Proof.
  unfold curveAt. destruct curve_id_range as [Hc Hn]. destruct (Z.ltb_spec curve_id 0); [lia|]. destruct (Z.leb_spec num_curves curve_id); [lia|]. done.
Qed.

Lemma NextZr_read z vs : small (elem (Zr_Bytes z)) -> NextZr (elem (Zr_Bytes z) :: vs) = Ok (Some (Own z), vs).
Proof.
  intros H. unfold NextZr. rewrite Next_read by done. cbn [mbind res_mbind el_CurveID el_Raw]. rewrite curveAt_read. cbn [mbind res_mbind].
  unfold decode_Zr. by rewrite Z.eqb_refl, zr_decode.
Qed.

Lemma NextG1_read p vs : small (elem (G1_Bytes p)) -> NextG1 (elem (G1_Bytes p) :: vs) = Ok (Some (Own p), vs).
Proof.
  intros H. unfold NextG1. rewrite Next_read by done. cbn [mbind res_mbind el_CurveID el_Raw]. rewrite curveAt_read. cbn [mbind res_mbind].
  unfold decode_G1. rewrite Z.eqb_refl, g1_decode. done.
Qed.

Lemma small_elem raw : small (elem raw) -> small raw.
Proof. unfold elem, Element_Marshal. intros H%small_tlv. apply small_app in H as [_ H]. by eapply small_tlv. Qed.

Lemma array_values_read msg vs : small (elem (octets_struct_Marshal vs)) ->
  array_values msg (mkElement curve_id (octets_struct_Marshal vs)) = Ok (curve_id, vs).
Proof.
  intros H%small_elem. unfold array_values. cbn [el_Raw el_CurveID]. rewrite octets_struct_read by done. cbn [wrap mbind res_mbind length Nat.eqb negb].
  by rewrite curveAt_read.
Qed.

Lemma NextZrArray_read zs vs : small (elem (octets_struct_Marshal (Zr_Bytes <$> zs))) ->
  NextZrArray (elem (octets_struct_Marshal (Zr_Bytes <$> zs)) :: vs) = Ok (Some (Own <$> zs), vs).
Proof.
  intros H. unfold NextZrArray. rewrite Next_read by done. cbn [mbind res_mbind]. rewrite array_values_read by done. cbn [mbind res_mbind].
  do 3 f_equal. clear H. induction zs as [|z zs IH]; [done|]. rewrite !fmap_cons. cbn [map]. f_equal; [|done]. unfold decode_Zr. by rewrite Z.eqb_refl, zr_decode.
Qed.

Lemma NextG1Array_read ps vs : small (elem (octets_struct_Marshal (G1_Bytes <$> ps))) ->
  NextG1Array (elem (octets_struct_Marshal (G1_Bytes <$> ps)) :: vs) = Ok (Some (Own <$> ps), vs).
Proof.
  intros H. unfold NextG1Array. rewrite Next_read by done. cbn [mbind res_mbind]. rewrite array_values_read by done. cbn [mbind res_mbind].
  assert (mapM (fun v => wrap "failed to deserialize element" (decode_G1 curve_id v)) (G1_Bytes <$> ps) = Ok (Own <$> ps)) as ->; [|done].
  clear H. induction ps as [|p ps IH]; [done|]. rewrite !fmap_cons, mapM_cons_res.
  assert (decode_G1 curve_id (G1_Bytes p) = Ok (Own p)) as -> by (unfold decode_G1; by rewrite Z.eqb_refl, g1_decode).
  cbn [mbind res_mbind wrap]. by rewrite IH.
Qed.

(** The bytes of the elements of a proof whose pointers are all set. *)
Inductive present : math_value -> bytes -> Prop :=
| PZr z : present (MZr (Some z)) (Zr_Bytes z)
| PG1 p : present (MG1 (Some p)) (G1_Bytes p)
| PArray raw : present (MArray raw) raw.

Lemma MarshalMath_spec values raws : values <> [] -> Forall2 present values raws ->
  MarshalMath values = Ok (octets_struct_Marshal (elem <$> raws)).
Proof.
  intros Hne HF. unfold MarshalMath. destruct values as [|v0 vs0]; [done|]. clear Hne.
  assert (mapM (fun v => raw ← element_bytes v; Ok (Element_Marshal (mkElement curve_id raw))) (v0 :: vs0) = Ok (elem <$> raws)) as ->; [|done].
  induction HF as [|v raw vs raws Hv _ IH]; [done|]. rewrite mapM_cons_res, fmap_cons. destruct Hv; cbn [element_bytes deref mbind res_mbind]; by rewrite IH.
Qed.

Lemma NewElementArray_spec {E} (Bytes : E -> bytes) (l : list E) : l <> [] ->
  NewElementArray Bytes (Some <$> l) = Ok (MArray (octets_struct_Marshal (Bytes <$> l))).
Proof.
  intros Hne. unfold NewElementArray. destruct l as [|e0 l0]; [done|]. clear Hne. set (l := e0 :: l0). change (Some e0 :: (Some <$> l0)) with (Some <$> l).
  assert (mapM (fun o => e ← deref o; Ok (Bytes e)) (Some <$> l) = Ok (Bytes <$> l)) as ->; [|done].
  generalize l. clear. induction l as [|e l IH]; [done|]. rewrite !fmap_cons, mapM_cons_res. cbn [deref mbind res_mbind]. by rewrite IH.
Qed.

(** Decodes the elements of an encoding in turn. *)
Ltac read_next :=
  repeat (first [rewrite NextZr_read by done|rewrite NextG1_read by done|rewrite NextZrArray_read by done|rewrite NextG1Array_read by done];
          cbn [wrap join_err mbind res_mbind]).

(** [TypeAndSumProof] with all its pointers set. *)
Lemma TypeAndSumProof_read com ibf iv type tbf eqs chal : ibf <> [] -> iv <> [] ->
  let p := {| tsp_CommitmentToType := Some com; tsp_InputBlindingFactors := Some <$> ibf; tsp_InputValues := Some <$> iv;
              tsp_Type := Some type; tsp_TypeBlindingFactor := Some tbf; tsp_EqualityOfSum := Some eqs; tsp_Challenge := Some chal |} in
  exists b, TypeAndSumProof_Serialize p = Ok b /\ b <> [] /\
    (small b -> TypeAndSumProof_Deserialize b = Ok {| wts_CommitmentToType := Some (Own com); wts_InputBlindingFactors := Some (Own <$> ibf);
      wts_InputValues := Some (Own <$> iv); wts_Type := Some (Own type); wts_TypeBlindingFactor := Some (Own tbf);
      wts_EqualityOfSum := Some (Own eqs); wts_Challenge := Some (Own chal) |}).
Proof.
  intros Hi Hv p. unfold TypeAndSumProof_Serialize, p. cbn [tsp_InputBlindingFactors tsp_InputValues tsp_CommitmentToType tsp_Type tsp_TypeBlindingFactor tsp_EqualityOfSum tsp_Challenge].
  rewrite !NewElementArray_spec by done. cbn [err_join mbind res_mbind].
  rewrite (MarshalMath_spec _ [G1_Bytes com; octets_struct_Marshal (Zr_Bytes <$> ibf); octets_struct_Marshal (Zr_Bytes <$> iv); Zr_Bytes type; Zr_Bytes tbf; Zr_Bytes eqs; Zr_Bytes chal])
    by first [done|repeat constructor].
  cbn [err_join]. eexists. split; [reflexivity|]. split; [done|]. intros Hs. unfold TypeAndSumProof_Deserialize. rewrite asn1_values_read by done. cbn [mbind res_mbind].
  apply small_octets in Hs. cbn [fmap list_fmap] in Hs |- *. small_entries Hs. read_next. done.
Qed.

Lemma SameType_read p : exists b, SameType_Serialize p = Ok b /\ b <> [] /\
  (small b -> SameType_Deserialize b = Ok {| wst_Type := Some (Own (st_Type p)); wst_BlindingFactor := Some (Own (st_BlindingFactor p));
     wst_Challenge := Some (Own (st_Challenge p)); wst_CommitmentToType := Some (Own (st_CommitmentToType p)) |}).
Proof.
  unfold SameType_Serialize. rewrite (MarshalMath_spec _ [Zr_Bytes (st_Type p); Zr_Bytes (st_BlindingFactor p); Zr_Bytes (st_Challenge p); G1_Bytes (st_CommitmentToType p)])
    by first [done|repeat constructor].
  eexists. split; [reflexivity|]. split; [done|]. intros Hs. unfold SameType_Deserialize. rewrite asn1_values_read by done. cbn [join_err mbind res_mbind].
  apply small_octets in Hs. cbn [fmap list_fmap] in Hs |- *. small_entries Hs. read_next. done.
Qed.

Lemma IPA_read l r ls rs : ls <> [] -> rs <> [] ->
  exists b, IPA_Serialize {| ipa_Left := Some l; ipa_Right := Some r; ipa_L := Some <$> ls; ipa_R := Some <$> rs |} = Ok b /\ b <> [] /\
    (small b -> IPA_Deserialize b = Ok {| wip_Left := Some (Own l); wip_Right := Some (Own r); wip_L := Some (Own <$> ls); wip_R := Some (Own <$> rs) |}).
Proof.
  intros Hl Hr. unfold IPA_Serialize. cbn [ipa_L ipa_R ipa_Left ipa_Right]. rewrite !NewElementArray_spec by done. cbn [wrap mbind res_mbind].
  rewrite (MarshalMath_spec _ [Zr_Bytes l; Zr_Bytes r; octets_struct_Marshal (G1_Bytes <$> ls); octets_struct_Marshal (G1_Bytes <$> rs)]) by first [done|repeat constructor].
  eexists. split; [reflexivity|]. split; [done|]. intros Hs. unfold IPA_Deserialize. rewrite asn1_values_read by done. cbn [wrap mbind res_mbind].
  apply small_octets in Hs. cbn [fmap list_fmap] in Hs |- *. small_entries Hs. read_next. done.
Qed.

Lemma RangeProofData_read t1 t2 tau c d delta ip :
  exists b, RangeProofData_Serialize {| rpd_T1 := Some t1; rpd_T2 := Some t2; rpd_Tau := Some tau; rpd_C := Some c; rpd_D := Some d; rpd_Delta := Some delta; rpd_InnerProduct := Some ip |} = Ok b /\ b <> [] /\
    (small b -> RangeProofData_Deserialize b = Ok {| wrd_T1 := Some (Own t1); wrd_T2 := Some (Own t2); wrd_Tau := Some (Own tau); wrd_C := Some (Own c); wrd_D := Some (Own d);
       wrd_Delta := Some (Own delta); wrd_InnerProduct := Some (Own ip) |}).
Proof.
  unfold RangeProofData_Serialize. cbn [rpd_T1 rpd_T2 rpd_Tau rpd_C rpd_D rpd_Delta rpd_InnerProduct].
  rewrite (MarshalMath_spec _ [G1_Bytes t1; G1_Bytes t2; Zr_Bytes tau; G1_Bytes c; G1_Bytes d; Zr_Bytes delta; Zr_Bytes ip]) by first [done|repeat constructor].
  eexists. split; [reflexivity|]. split; [done|]. intros Hs. unfold RangeProofData_Deserialize. rewrite asn1_values_read by done. cbn [wrap mbind res_mbind].
  apply small_octets in Hs. cbn [fmap list_fmap] in Hs |- *. small_entries Hs. read_next. done.
Qed.

(** A range proof with all its pointers set and no point at infinity, and its
    image on the wire. *)
Record complete_rp := {
  cr_T1 : G1; cr_T2 : G1; cr_Tau : Zr; cr_C : G1; cr_D : G1; cr_Delta : Zr; cr_IP : Zr;
  cr_Left : Zr; cr_Right : Zr; cr_L : list G1; cr_R : list G1;
}.

Definition rp_of (c : complete_rp) : RangeProof :=
  {| rp_Data := Some {| rpd_T1 := Some (cr_T1 c); rpd_T2 := Some (cr_T2 c); rpd_Tau := Some (cr_Tau c); rpd_C := Some (cr_C c); rpd_D := Some (cr_D c);
                        rpd_Delta := Some (cr_Delta c); rpd_InnerProduct := Some (cr_IP c) |};
     rp_IPA := Some {| ipa_Left := Some (cr_Left c); ipa_Right := Some (cr_Right c); ipa_L := Some <$> cr_L c; ipa_R := Some <$> cr_R c |} |}.

Definition wrp_of (c : complete_rp) : wRangeProofData * wIPA :=
  ({| wrd_T1 := Some (Own (cr_T1 c)); wrd_T2 := Some (Own (cr_T2 c)); wrd_Tau := Some (Own (cr_Tau c)); wrd_C := Some (Own (cr_C c)); wrd_D := Some (Own (cr_D c));
      wrd_Delta := Some (Own (cr_Delta c)); wrd_InnerProduct := Some (Own (cr_IP c)) |},
   {| wip_Left := Some (Own (cr_Left c)); wip_Right := Some (Own (cr_Right c)); wip_L := Some (Own <$> cr_L c); wip_R := Some (Own <$> cr_R c) |}).

Lemma Marshal_all_spec l bs : Forall2 (fun o b => o = Some (Ok b)) l bs -> asn1_Marshal_all l = Ok (octets_struct_Marshal bs).
Proof.
  intros HF. unfold asn1_Marshal_all. match goal with |- mapM ?f _ ≫= _ = _ => assert (mapM f l = Ok bs) as -> end; [|done].
  induction HF as [|r b l bs -> _ IH]; [done|]. rewrite mapM_cons_res. cbn [wrap mbind res_mbind]. by rewrite IH.
Qed.

Lemma unmarshal_entry_read {A} (a0 a : A) f v : v <> [] -> f v = Ok a -> unmarshal_entry a0 f v = Ok a.
Proof. intros Hv Hf. unfold unmarshal_entry. destruct v; [done|]. cbn [length Nat.eqb]. by rewrite Hf. Qed.

Lemma RangeProof_read c : cr_L c <> [] -> cr_R c <> [] ->
  exists b, RangeProof_Serialize (rp_of c) = Ok b /\ b <> [] /\ (small b -> RangeProof_Deserialize b = Ok (wrp_of c)).
Proof.
  intros Hl Hr. destruct (RangeProofData_read (cr_T1 c) (cr_T2 c) (cr_Tau c) (cr_C c) (cr_D c) (cr_Delta c) (cr_IP c)) as (bd & Hd & Nd & Rd).
  destruct (IPA_read (cr_Left c) (cr_Right c) (cr_L c) (cr_R c) Hl Hr) as (bi & Hi & Ni & Ri).
  unfold RangeProof_Serialize, rp_of. cbn [rp_Data rp_IPA option_map]. rewrite Hd, Hi. rewrite (Marshal_all_spec _ [bd; bi]) by repeat constructor.
  eexists. split; [reflexivity|]. split; [done|]. intros Hs. unfold RangeProof_Deserialize, asn1_Unmarshal2. rewrite asn1_values_read by done. cbn [mbind res_mbind].
  apply small_octets in Hs. small_entries Hs.
  rewrite (unmarshal_entry_read _ _ _ _ Nd (Rd Hsm)). cbn [mbind res_mbind]. by rewrite (unmarshal_entry_read _ _ _ _ Ni (Ri Hsm0)).
Qed.

Lemma RangeCorrectness_read cs : Forall (fun c => cr_L c <> [] /\ cr_R c <> []) cs ->
  exists b, RangeCorrectness_Serialize (Some ∘ rp_of <$> cs) = Ok b /\ b <> [] /\ (small b -> RangeCorrectness_Deserialize b = Ok (wrp_of <$> cs)).
Proof.
  intros HF. assert (exists bs, Forall2 (fun o b => o = Some (Ok b)) (map (option_map RangeProof_Serialize) (Some ∘ rp_of <$> cs)) bs /\
    (Forall small bs -> mapM (fun v => wrap "failed to deserialize value" (RangeProof_Deserialize v)) bs = Ok (wrp_of <$> cs))) as (bs & Hm & Hr).
  { induction HF as [|c cs [Hl Hr] _ (bs & Hm & IH)]; [by exists []|]. destruct (RangeProof_read c Hl Hr) as (b & Hb & _ & Rb). exists (b :: bs). split.
    - rewrite fmap_cons. cbn [map option_map compose]. constructor; [by rewrite <- Hb|done].
    - intros [Hs Hss]%Forall_cons. rewrite mapM_cons_res, fmap_cons, (Rb Hs). cbn [wrap mbind res_mbind]. by rewrite (IH Hss). }
  unfold RangeCorrectness_Serialize. rewrite (Marshal_all_spec _ bs Hm). rewrite (Marshal_all_spec _ [octets_struct_Marshal bs]) by repeat constructor.
  eexists. split; [reflexivity|]. split; [done|]. intros Hs. unfold RangeCorrectness_Deserialize, asn1_Unmarshal1. rewrite asn1_values_read by done. cbn [mbind res_mbind].
  apply small_octets in Hs. small_entries Hs.
  rewrite (unmarshal_entry_read _ (wrp_of <$> cs)); [done|done|]. unfold asn1_UnmarshalTo. rewrite asn1_values_read by done. cbn [mbind res_mbind].
  apply Hr. by apply small_octets.
Qed.

End CodecRoundtrip.
