(* ===== verification/ZkTransfer.v ===== *)
(** * The proofs of transfers and issues
      (zkatdlog/nogh/v1/transfer/bftransfer.go, issue/bfissue.go, issue/verifier.go)

    The proof of a transfer joins the sigma protocol on types and sums with the
    range proofs of the outputs; the proof of an issue joins the one on types
    with the range proofs of the tokens.  A verifier gets bytes: it decodes them,
    validates them and runs both parts.  The module shows that no bytes make it
    panic, what acceptance means, and that the bytes of an honest prover are
    accepted. *)

From S2P Require Import Prelude GoStd Der Asn1 ZkMath ZkIpa ZkRange ZkSigma ZkCodec.
From Stdlib Require Import ZArith Lia Ring.

(** The public parameters a proof system uses. *)
Record RangeProofParams `{!Curve} := {
  rpp_LeftGenerators : list G1;
  rpp_RightGenerators : list G1;
  rpp_P : G1;
  rpp_Q : G1;
  rpp_BitLength : nat;
  rpp_NumberOfRounds : nat;
}.

Record zk_params `{!Curve} := {
  zp_PedersenGenerators : list G1;
  zp_RangeProofParams : option RangeProofParams;
}.

Definition ErrInvalidTransferProof : error := EMsg "invalid transfer proof".
Definition ErrMissingTypeAndSumProof : error := EMsg "invalid transfer proof: missing type-and-sum proof".
Definition ErrMissingRangeProof : error := EMsg "invalid transfer proof: missing range proof".
Definition ErrInvalidRangeProof : error := EMsg "invalid range proof".
Definition ErrInvalidTokenWitness : error := EMsg "invalid token witness".
Definition ErrInvalidTokenWitnessValue : error := EMsg "invalid token witness value".
Definition ErrInvalidIssueProof : error := EMsg "invalid issue proof".
Definition ErrDeserializeProofFailed : error := EMsg "failed to deserialize proof".

Section Transfer.
Context {CO : Curve} {NA : Native} {WI : Wire}.

(** ** Transfer proofs: [Proof] *)

(** A nil range proof leaves its entry empty. *)
Definition Proof_Serialize (ts : TypeAndSumProof) (rc : option (list (option RangeProof))) : res bytes :=
  asn1_Marshal_all [Some (TypeAndSumProof_Serialize ts); option_map RangeCorrectness_Serialize rc].

Definition Proof_Deserialize (raw : bytes) : res (wTypeAndSumProof * list (wRangeProofData * wIPA)) :=
  asn1_Unmarshal2 raw empty_ts TypeAndSumProof_Deserialize [] RangeCorrectness_Deserialize.

Definition Proof_Validate (p : wTypeAndSumProof * list (wRangeProofData * wIPA)) : res unit :=
  err_join (err_join (TypeAndSumProof_Validate p.1) ErrInvalidSumAndTypeProof) ErrInvalidTransferProof ;;
  err_join (err_join (RangeCorrectness_Validate p.2) ErrInvalidRangeProof) ErrInvalidTransferProof.

(** [pp.PedersenGenerators[1:]]. *)
Definition value_generators (pp : zk_params) : res (list G1) := slice_from (zp_PedersenGenerators pp) 1.

Definition NewRangeCorrectnessVerifier (pp : zk_params) : res RangeCorrectnessVerifier :=
  gens ← value_generators pp;
  r ← deref (zp_RangeProofParams pp);
  Ok {| rcv_Commitments := []; rcv_PedersenParameters := gens; rcv_LeftGenerators := rpp_LeftGenerators r; rcv_RightGenerators := rpp_RightGenerators r;
        rcv_BitLength := rpp_BitLength r; rcv_NumberOfRounds := rpp_NumberOfRounds r; rcv_P := rpp_P r; rcv_Q := rpp_Q r |}.

Definition set_commitments (v : RangeCorrectnessVerifier) (coms : list G1) : RangeCorrectnessVerifier :=
  {| rcv_Commitments := coms; rcv_PedersenParameters := rcv_PedersenParameters v; rcv_LeftGenerators := rcv_LeftGenerators v;
     rcv_RightGenerators := rcv_RightGenerators v; rcv_BitLength := rcv_BitLength v; rcv_NumberOfRounds := rcv_NumberOfRounds v;
     rcv_P := rcv_P v; rcv_Q := rcv_Q v |}.

(** ** The verifier of a transfer *)

(** A commitment of an action as it was decoded: computing with a nil pointer or
    a point of another curve panics. *)
Definition commitment : Type := option (wire G1).
Definition point (o : commitment) : res G1 := w ← deref o; own w.

(** [TypeAndSumVerifier.Verify] on such commitments: after the checks on the
    proof, the loops take the inputs and outputs in turn. *)
Definition verify_type_and_sum (PedParams : list G1) (inputs outputs : list commitment) (stp : TypeAndSumProof) : res unit :=
  match tsp_TypeBlindingFactor stp, tsp_Type stp, tsp_CommitmentToType stp, tsp_EqualityOfSum stp with
  | Some _, Some _, Some _, Some _ =>
      if negb (length (tsp_InputBlindingFactors stp) =? length inputs)%nat then Err ErrMissingSumAndTypeComponents else
      if negb (length (tsp_InputValues stp) =? length inputs)%nat then Err ErrMissingSumAndTypeComponents else
      _ ← deref (tsp_Challenge stp);
      ins ← mapM (fun '(value, input) => match value with None => Err ErrMissingSumAndTypeInputValue | Some _ => point input end) (zip (tsp_InputValues stp) inputs);
      outs ← mapM point outputs;
      TypeAndSum_Verify {| tsv_PedParams := PedParams; tsv_Inputs := ins; tsv_Outputs := outs |} stp
  | _, _, _, _ => Err ErrMissingSumAndTypeComponents
  end.

Record BulletProofVerifier := {
  bpv_PedParams : list G1;
  bpv_Inputs : list commitment;
  bpv_Outputs : list commitment;
  bpv_RangeCorrectness : option RangeCorrectnessVerifier;
}.

(** A change of owner, one input and one output, needs no range proof. *)
Definition NewBulletProofVerifier (inputs outputs : list commitment) (pp : zk_params) : res BulletProofVerifier :=
  rc ← (if negb (length inputs =? 1)%nat || negb (length outputs =? 1)%nat then rc ← NewRangeCorrectnessVerifier pp; Ok (Some rc) else Ok None);
  Ok {| bpv_PedParams := zp_PedersenGenerators pp; bpv_Inputs := inputs; bpv_Outputs := outputs; bpv_RangeCorrectness := rc |}.

Definition BulletProofVerifier_Verify (v : BulletProofVerifier) (proofRaw : bytes) : res unit :=
  proof ← wrap "invalid transfer proof" (Proof_Deserialize proofRaw);
  wrap "invalid transfer proof" (Proof_Validate proof) ;;
  ts ← own_ts proof.1;
  wrap "invalid transfer proof" (verify_type_and_sum (bpv_PedParams v) (bpv_Inputs v) (bpv_Outputs v) ts) ;;
  match bpv_RangeCorrectness v with
  | None => Ok tt
  | Some rcv =>
      commitmentToType ← deref (tsp_CommitmentToType ts);
      outs ← mapM point (bpv_Outputs v);
      let coms := relative commitmentToType outs in
      rc ← own_rc proof.2;
      RangeCorrectnessVerifier_Verify (set_commitments rcv coms) rc
  end.

(** ** The prover of a transfer *)

Record BulletProofProver := {
  bpp_TypeAndSum : TypeAndSumProver;
  bpp_RangeCorrectness : option RangeCorrectnessProver;
}.

Definition witness_ok (m : option ZkMetadata) : res ZkMetadata :=
  match m with
  | Some m => match mt_BlindingFactor m with Some _ => Ok m | None => Err ErrInvalidTokenWitness end
  | None => Err ErrInvalidTokenWitness
  end.

(** [Zr_Uint] is the curve library's conversion of a scalar to [uint64]. *)
Definition NewBulletProofProver (Zr_Uint : Zr -> res Z) (rand : res (nat -> Zr)) (inputWitness outputWitness : list (option ZkMetadata))
    (inputs outputs : list G1) (pp : zk_params) : res BulletProofProver :=
  if (length inputWitness =? 0)%nat then Err (EWrap ErrInvalidInputs "cannot create bulletproof prover: no input witnesses") else
  inW ← mapM witness_ok inputWitness;
  first ← index inW 0;
  p0 ← index (zp_PedersenGenerators pp) 0;
  rand ← rand;
  let typeBF := rand 0%nat in
  outs ← mapM (fun m => m ← witness_ok m;
                        v ← deref (mt_Value m); v ← replace_err "invalid token witness values" (Zr_Uint v);
                        bf ← deref (mt_BlindingFactor m);
                        Ok (m, v, (bf - typeBF)%zr)) outputWitness;
  p2 ← index (zp_PedersenGenerators pp) 2;
  let commitmentToType := (p0 ⋅ HashToZr (mt_Type first) + p2 ⋅ typeBF)%g1 in
  tsWitness ← NewTypeAndSumWitness typeBF inW outs.*1.*1;
  rc ← (if negb (length inputWitness =? 1)%nat || negb (length outputWitness =? 1)%nat then
          gens ← value_generators pp;
          r ← deref (zp_RangeProofParams pp);
          Ok (Some {| rcp_Commitments := relative commitmentToType outputs; rcp_Values := outs.*1.*2; rcp_BlindingFactors := outs.*2;
                      rcp_PedersenParameters := gens; rcp_LeftGenerators := rpp_LeftGenerators r; rcp_RightGenerators := rpp_RightGenerators r;
                      rcp_BitLength := rpp_BitLength r; rcp_NumberOfRounds := rpp_NumberOfRounds r; rcp_P := rpp_P r; rcp_Q := rpp_Q r |})
        else Ok None);
  Ok {| bpp_TypeAndSum := {| tsr_PedParams := zp_PedersenGenerators pp; tsr_Inputs := inputs; tsr_Outputs := outputs;
                             tsr_CommitmentToType := commitmentToType; tsr_witness := tsWitness |};
        bpp_RangeCorrectness := rc |}.

(** [rands] are the readers of the range proofs, [rand] the one of the sigma
    protocol. *)
Definition BulletProofProver_Prove (p : BulletProofProver) (rands : nat -> res (nat -> Zr) * res (nat -> Zr)) (rand : res (nat -> Zr)) : res bytes :=
  rangeProof ← (match bpp_RangeCorrectness p with
                | None => Ok None
                | Some rcp => rc ← wrap "failed to generate range proof for transfer" (RangeCorrectnessProver_Prove rcp rands); Ok (Some rc)
                end);
  tsProof ← wrap "failed to generate transfer proof" (TypeAndSum_Prove (bpp_TypeAndSum p) rand);
  Proof_Serialize tsProof rangeProof.

(** ** Issue proofs: [BulletProof] (issue/bfissue.go, issue/verifier.go) *)

Definition ErrInvalidIssueInputs : error := EMsg "invalid number of token witnesses, expected at least 1".
Definition ErrInvalidTokenWitnessValues : error := EMsg "invalid token witness values".
Definition ErrGetIssueProverFailed : error := EMsg "cannot get issue prover".
Definition ErrGenerateIssueProofFailed : error := EMsg "failed to generate issue proof".
Definition ErrGenerateRangeProofFailed : error := EMsg "failed to generate range proof for issue".

Definition BulletProof_Serialize (st : SameType) (rc : list (option RangeProof)) : res bytes :=
  asn1_Marshal_all [Some (SameType_Serialize st); Some (RangeCorrectness_Serialize rc)].

Definition BulletProof_Deserialize (raw : bytes) : res (wSameType * list (wRangeProofData * wIPA)) :=
  join_err ErrDeserializeProofFailed (asn1_Unmarshal2 raw empty_st SameType_Deserialize [] RangeCorrectness_Deserialize).

Record IssueVerifier := {
  isv_PedParams : list G1;
  isv_Tokens : list commitment;
  isv_RangeCorrectness : RangeCorrectnessVerifier;
}.

Definition NewIssueVerifier (tokens : list commitment) (pp : zk_params) : res IssueVerifier :=
  rc ← NewRangeCorrectnessVerifier pp;
  Ok {| isv_PedParams := zp_PedersenGenerators pp; isv_Tokens := tokens; isv_RangeCorrectness := rc |}.

Definition IssueVerifier_Verify (v : IssueVerifier) (proof : bytes) : res unit :=
  tp ← join_err ErrDeserializeProofFailed (BulletProof_Deserialize proof);
  join_err ErrInvalidIssueProof (SameType_Validate tp.1) ;;
  join_err ErrInvalidIssueProof (RangeCorrectness_Validate tp.2) ;;
  st ← own_st tp.1;
  join_err ErrInvalidIssueProof (SameType_Verify (isv_PedParams v) st) ;;
  tokens ← mapM point (isv_Tokens v);
  let coms := relative (st_CommitmentToType st) tokens in
  rc ← own_rc tp.2;
  join_err ErrInvalidIssueProof (RangeCorrectnessVerifier_Verify (set_commitments (isv_RangeCorrectness v) coms) rc).

Record IssueProver := {
  isp_SameType : SameTypeProver;
  isp_RangeCorrectness : RangeCorrectnessProver;
}.

Definition NewIssueProver (Zr_Uint : Zr -> res Z) (rand : res (nat -> Zr)) (tw : list (option ZkMetadata)) (tokens : list G1) (pp : zk_params)
    : res IssueProver :=
  if (length tw =? 0)%nat then Err (EWrap ErrInvalidIssueInputs "cannot create bulletproof prover: no token witnesses") else
  first ← index tw 0; first ← deref first;
  p0 ← index (zp_PedersenGenerators pp) 0;
  rand ← join_err ErrGetIssueProverFailed rand;
  let typeBF := rand 0%nat in
  p2 ← index (zp_PedersenGenerators pp) 2;
  let commitmentToType := (p0 ⋅ HashToZr (mt_Type first) + p2 ⋅ typeBF)%g1 in
  ws ← mapM (fun m => m ← witness_ok m;
                      v ← deref (mt_Value m); v ← join_err ErrInvalidTokenWitnessValues (Zr_Uint v);
                      bf ← deref (mt_BlindingFactor m);
                      Ok (v, (bf - typeBF)%zr)) tw;
  gens ← value_generators pp;
  r ← deref (zp_RangeProofParams pp);
  Ok {| isp_SameType := {| stp_PedParams := zp_PedersenGenerators pp; stp_tokenType := mt_Type first; stp_blindingFactor := typeBF;
                           stp_CommitmentToType := commitmentToType |};
        isp_RangeCorrectness :=
          {| rcp_Commitments := relative commitmentToType tokens; rcp_Values := ws.*1; rcp_BlindingFactors := ws.*2;
             rcp_PedersenParameters := gens; rcp_LeftGenerators := rpp_LeftGenerators r; rcp_RightGenerators := rpp_RightGenerators r;
             rcp_BitLength := rpp_BitLength r; rcp_NumberOfRounds := rpp_NumberOfRounds r; rcp_P := rpp_P r; rcp_Q := rpp_Q r |} |}.

Definition IssueProver_Prove (p : IssueProver) (rands : nat -> res (nat -> Zr) * res (nat -> Zr)) (rand : res (nat -> Zr)) : res bytes :=
  st ← join_err ErrGenerateIssueProofFailed (SameType_Prove (isp_SameType p) rand);
  rc ← join_err ErrGenerateRangeProofFailed (RangeCorrectnessProver_Prove (isp_RangeCorrectness p) rands);
  BulletProof_Serialize st rc.

End Transfer.

(** ** No bytes make a verifier panic *)

Section TransferSafety.
Context {CO : Curve} {CL : CurveLaws} {NA : Native} {NL : NativeLaws} {WI : Wire} {WL : WireLaws}.

(** Parameters as the setup generates them: three Pedersen generators, range
    proof parameters, and a bit length the arithmetic supports. *)
Definition params_present (pp : zk_params) (p0 p1 p2 : G1) (ps : list G1) (r : RangeProofParams) : Prop :=
  zp_PedersenGenerators pp = p0 :: p1 :: p2 :: ps /\ zp_RangeProofParams pp = Some r.

Definition range_verifier (r : RangeProofParams) (gens coms : list G1) : RangeCorrectnessVerifier :=
  {| rcv_Commitments := coms; rcv_PedersenParameters := gens; rcv_LeftGenerators := rpp_LeftGenerators r; rcv_RightGenerators := rpp_RightGenerators r;
     rcv_BitLength := rpp_BitLength r; rcv_NumberOfRounds := rpp_NumberOfRounds r; rcv_P := rpp_P r; rcv_Q := rpp_Q r |}.

Lemma NewRangeCorrectnessVerifier_spec pp p0 p1 p2 ps r : params_present pp p0 p1 p2 ps r ->
  NewRangeCorrectnessVerifier pp = Ok (range_verifier r (p1 :: p2 :: ps) []).
Proof. intros [Hp Hr]. unfold NewRangeCorrectnessVerifier, value_generators. by rewrite Hp, Hr. Qed.

(** Whether a transfer needs range proofs. *)
Definition needs_range (n m : nat) : bool := negb (n =? 1)%nat || negb (m =? 1)%nat.

Lemma NewBulletProofVerifier_spec pp p0 p1 p2 ps r inputs outputs : params_present pp p0 p1 p2 ps r ->
  NewBulletProofVerifier inputs outputs pp
  = Ok {| bpv_PedParams := zp_PedersenGenerators pp; bpv_Inputs := inputs; bpv_Outputs := outputs;
          bpv_RangeCorrectness := if needs_range (length inputs) (length outputs) then Some (range_verifier r (p1 :: p2 :: ps) []) else None |}.
Proof.
  intros Hp. unfold NewBulletProofVerifier, needs_range. destruct (negb _ || negb _); [|done].
  by rewrite (NewRangeCorrectnessVerifier_spec _ _ _ _ _ _ Hp).
Qed.

Lemma TypeAndSum_Verify_no_panic v com ibf iv type tbf eqs chal p0 p1 p2 ps : tsv_PedParams v = p0 :: p1 :: p2 :: ps ->
  TypeAndSum_Verify v {| tsp_CommitmentToType := Some com; tsp_InputBlindingFactors := Some <$> ibf; tsp_InputValues := Some <$> iv;
    tsp_Type := Some type; tsp_TypeBlindingFactor := Some tbf; tsp_EqualityOfSum := Some eqs; tsp_Challenge := Some chal |} <> Panic.
Proof.
  intros Hp. unfold TypeAndSum_Verify.
  cbn [tsp_TypeBlindingFactor tsp_Type tsp_CommitmentToType tsp_EqualityOfSum tsp_InputBlindingFactors tsp_InputValues tsp_Challenge].
  destruct (negb _); [done|]. destruct (negb _); [done|]. cbn [deref mbind res_mbind]. rewrite (ts_recompute_spec _ _ _ _ _ _ _ _ _ _ _ _ Hp). cbn [mbind res_mbind].
  match goal with |- context [ts_hashed ?a ?b ?c ?d ?e ?f ?g] => destruct (ts_hashed_total a b c d e f g) as [raw ->] end. cbn [wrap mbind res_mbind].
  by destruct (decide _).
Qed.

(** Commitments that are points of the curve. *)
Definition present_points (ps : list G1) : list commitment := (fun p => Some (Own p)) <$> ps.

Lemma points_present ps : mapM point (present_points ps) = Ok ps.
Proof. induction ps as [|p ps IH]; [done|]. unfold present_points. rewrite fmap_cons, mapM_cons_res. cbn [point deref own mbind res_mbind]. fold (present_points ps). by rewrite IH. Qed.

Lemma verify_points PedParams inputs outputs com ibf iv type tbf eqs chal :
  let stp := {| tsp_CommitmentToType := Some com; tsp_InputBlindingFactors := Some <$> ibf; tsp_InputValues := Some <$> iv;
    tsp_Type := Some type; tsp_TypeBlindingFactor := Some tbf; tsp_EqualityOfSum := Some eqs; tsp_Challenge := Some chal |} in
  verify_type_and_sum PedParams (present_points inputs) (present_points outputs) stp
  = TypeAndSum_Verify {| tsv_PedParams := PedParams; tsv_Inputs := inputs; tsv_Outputs := outputs |} stp.
Proof.
  intros stp. unfold verify_type_and_sum, stp.
  cbn [tsp_TypeBlindingFactor tsp_Type tsp_CommitmentToType tsp_EqualityOfSum tsp_InputBlindingFactors tsp_InputValues tsp_Challenge deref mbind res_mbind].
  assert (length (present_points inputs) = length inputs) as -> by apply length_fmap. rewrite !length_fmap.
  destruct (Nat.eqb_spec (length ibf) (length inputs)) as [Hb|Hb]; cycle 1.
  { unfold TypeAndSum_Verify. cbn [tsp_TypeBlindingFactor tsp_Type tsp_CommitmentToType tsp_EqualityOfSum tsp_InputBlindingFactors tsv_Inputs].
    rewrite length_fmap. by destruct (Nat.eqb_spec (length ibf) (length inputs)). }
  destruct (Nat.eqb_spec (length iv) (length inputs)) as [Hv|Hv]; cycle 1.
  { unfold TypeAndSum_Verify. cbn [tsp_TypeBlindingFactor tsp_Type tsp_CommitmentToType tsp_EqualityOfSum tsp_InputBlindingFactors tsp_InputValues tsv_Inputs].
    rewrite !length_fmap. destruct (Nat.eqb_spec (length ibf) (length inputs)); [|done]. by destruct (Nat.eqb_spec (length iv) (length inputs)). }
  cbn [negb]. rewrite points_present.
  match goal with |- (mapM ?f ?l ≫= _) = _ => assert (mapM f l = Ok inputs) as -> end; [|done].
  clear Hb. revert inputs Hv. induction iv as [|v iv IH]; intros [|p inputs] Hl; try done. unfold present_points. rewrite !fmap_cons. cbn [zip_with].
  rewrite mapM_cons_res. cbn [point deref own mbind res_mbind]. fold (present_points inputs). by rewrite IH by (cbn in Hl; lia).
Qed.

Lemma SameType_Verify_no_panic p0 p1 p2 ps st : SameType_Verify (p0 :: p1 :: p2 :: ps) st <> Panic.
Proof.
  unfold SameType_Verify. cbn [index lookup list_lookup mbind res_mbind].
  destruct (G1Array_Bytes_total [st_CommitmentToType st; SameType_com p0 p2 st]) as [raw Hraw]. rewrite !fmap_cons, fmap_nil in Hraw. rewrite Hraw.
  cbn [join_err mbind res_mbind]. by destruct (decide _).
Qed.

Lemma Proof_Deserialize_no_panic raw : Proof_Deserialize raw <> Panic.
Proof. apply Unmarshal2_no_panic; [apply TypeAndSumProof_Deserialize_no_panic|apply RangeCorrectness_Deserialize_no_panic]. Qed.

Lemma BulletProof_Deserialize_no_panic raw : BulletProof_Deserialize raw <> Panic.
Proof. apply join_err_no_panic, Unmarshal2_no_panic; [apply SameType_Deserialize_no_panic|apply RangeCorrectness_Deserialize_no_panic]. Qed.

Lemma BulletProofVerifier_no_panic pp p0 p1 p2 ps r inputs outputs raw : params_present pp p0 p1 p2 ps r -> verifier_params_ok (rpp_BitLength r) ->
  exists v, NewBulletProofVerifier (present_points inputs) (present_points outputs) pp = Ok v /\ BulletProofVerifier_Verify v raw <> Panic.
Proof.
  intros Hp Hv. rewrite (NewBulletProofVerifier_spec _ _ _ _ _ _ _ _ Hp). eexists. split; [done|]. unfold BulletProofVerifier_Verify.
  apply bind_no_panic; [apply wrap_no_panic, Proof_Deserialize_no_panic|]. intros [ts rc]. unfold Proof_Validate. cbn [fst snd].
  destruct (TypeAndSumProof_Validate ts) as [[]| |] eqn:Ets; [|by cbn|by apply TypeAndSumProof_Validate_no_panic in Ets].
  destruct (RangeCorrectness_Validate rc) as [[]| |] eqn:Erc; [|by cbn|by apply RangeCorrectness_Validate_no_panic in Erc].
  destruct (TypeAndSumProof_valid ts Ets) as (com & ibf & iv & type & tbf & eqs & chal & ->). destruct (RangeCorrectness_valid rc Erc) as [qs ->].
  cbn [err_join wrap mbind res_mbind bpv_PedParams bpv_Inputs bpv_Outputs bpv_RangeCorrectness]. rewrite verify_points.
  apply bind_no_panic; [apply wrap_no_panic; eapply TypeAndSum_Verify_no_panic, Hp|]. intros _.
  destruct (needs_range _ _); [|done]. rewrite points_present. cbn [deref tsp_CommitmentToType mbind res_mbind]. by eapply RangeCorrectness_no_panic.
Qed.

Lemma IssueVerifier_no_panic pp p0 p1 p2 ps r tokens raw : params_present pp p0 p1 p2 ps r -> verifier_params_ok (rpp_BitLength r) ->
  exists v, NewIssueVerifier (present_points tokens) pp = Ok v /\ IssueVerifier_Verify v raw <> Panic.
Proof.
  intros Hp Hv. unfold NewIssueVerifier. rewrite (NewRangeCorrectnessVerifier_spec _ _ _ _ _ _ Hp). eexists. split; [done|]. unfold IssueVerifier_Verify.
  apply bind_no_panic; [apply join_err_no_panic, BulletProof_Deserialize_no_panic|]. intros [st rc]. cbn [fst snd].
  destruct (SameType_Validate st) as [[]| |] eqn:Est; [|by cbn|by apply SameType_Validate_no_panic in Est].
  destruct (RangeCorrectness_Validate rc) as [[]| |] eqn:Erc; [|by cbn|by apply RangeCorrectness_Validate_no_panic in Erc].
  destruct (SameType_valid st Est) as [q ->]. destruct (RangeCorrectness_valid rc Erc) as [qs ->].
  cbn [join_err mbind res_mbind isv_PedParams isv_RangeCorrectness]. destruct Hp as [-> _].
  apply bind_no_panic; [apply join_err_no_panic, SameType_Verify_no_panic|]. intros _. cbn [isv_Tokens]. rewrite points_present. apply join_err_no_panic. by eapply RangeCorrectness_no_panic.
Qed.

End TransferSafety.

(** ** What an accepted range proof looks like *)

Section Shapes.
Context {CO : Curve} {CL : CurveLaws} {NA : Native} {NL : NativeLaws} {WI : Wire} {WL : WireLaws}.

Lemma replay_rounds_present Ls : forall Rs tr out, replay_rounds tr Ls Rs = Ok out -> exists ls rs, Ls = Some <$> ls /\ Rs = Some <$> rs.
Proof.
  induction Ls as [|[l|] Ls IH]; intros [|[r|] Rs] tr out H; try done; [by exists [], []|].
  cbn [replay_rounds] in H. destruct (Squeeze _) as [x tr']. apply res_bind_Ok in H as ([xs tr''] & H & _).
  destruct (IH _ _ _ H) as (ls & rs & -> & ->). by exists (l :: ls), (r :: rs).
Qed.

Lemma ipa_accepted v proof tr out : ipaVerifier_Verify v proof (Some tr) = Ok out ->
  exists l r ls rs, proof = {| ipa_Left := Some l; ipa_Right := Some r; ipa_L := Some <$> ls; ipa_R := Some <$> rs |} /\
    length ls = ipv_NumberOfRounds v /\ length rs = ipv_NumberOfRounds v.
Proof.
  destruct proof as [ol or ls rs]. unfold ipaVerifier_Verify. cbn [ipa_Left ipa_Right ipa_L ipa_R]. destruct ol as [l|]; [|done]. destruct or as [r|]; [|done].
  destruct (Nat.eqb_spec (length ls) (length rs)) as [Hlr|]; [|done]. destruct (Nat.eqb_spec (length ls) (ipv_NumberOfRounds v)) as [Hn|]; [|done]. cbn [negb orb].
  destruct (_ || _); [done|]. intros ([x tr'] & _ & H)%res_bind_Ok. cbv zeta in H. apply res_bind_Ok in H as ([xs tr''] & Hr & _).
  apply replay_rounds_present in Hr as (ls' & rs' & -> & ->). rewrite !length_fmap in *. exists l, r, ls', rs'. split_and!; [done|lia|lia].
Qed.

Lemma check_ipa_accepted v e x a b zs h tr : check_ipa v e x a b zs h tr = Ok tt ->
  exists l r ls rs, pe_IPA e = {| ipa_Left := Some l; ipa_Right := Some r; ipa_L := Some <$> ls; ipa_R := Some <$> rs |} /\
    length ls = rpv_NumberOfRounds v /\ length rs = rpv_NumberOfRounds v.
Proof. intros (out & H & _)%res_bind_Ok. by apply ipa_accepted in H. Qed.

Lemma range_accepted v rp : rangeVerifier_Verify v (Some rp) = Ok tt ->
  exists c, rp = rp_of c /\ length (cr_L c) = rpv_NumberOfRounds v /\ length (cr_R c) = rpv_NumberOfRounds v.
Proof.
  unfold rangeVerifier_Verify. intros (e & He & H)%res_bind_Ok. destruct (_ || _); [done|]. cbv zeta in H.
  destruct (Squeeze _) as [y tr1]. destruct (Squeeze tr1) as [z tr2]. destruct (Squeeze _) as [x tr3] in H.
  assert (exists l r ls rs, pe_IPA e = {| ipa_Left := Some l; ipa_Right := Some r; ipa_L := Some <$> ls; ipa_R := Some <$> rs |} /\
    length ls = rpv_NumberOfRounds v /\ length rs = rpv_NumberOfRounds v) as (l & r & ls & rs & Hi & Hl & Hr).
  { destruct DispatchCurve as [b1 b2]. destruct (b1 || b2).
    - unfold nativeRPVerify in H. cbv zeta in H. destruct (native_powers _ _ _ _ _ _) as [[ps a] b]. apply res_bind_Ok in H as ([] & _ & H).
      unfold nativeRPVerifyIPA in H. res_inv. by eapply check_ipa_accepted.
    - unfold genericRPVerify in H. cbv zeta in H. apply res_bind_Ok in H as (ip2 & _ & H). destruct (y_powers _ _ _ _ _) as [ps a].
      apply res_bind_Ok in H as ([] & _ & H). unfold verifyIPA in H. res_inv. by eapply check_ipa_accepted. }
  unfold proof_elements_of in He. destruct rp as [od oi]. cbn [rp_Data rp_IPA] in He. destruct od as [[o1 o2 o3 o4 o5 o6 o7]|]; [|done].
  cbn [rpd_T1 rpd_T2 rpd_Tau rpd_C rpd_D rpd_Delta rpd_InnerProduct] in He.
  destruct o7 as [ip|]; [|done]. destruct o4 as [C|]; [|done]. destruct o5 as [D|]; [|done]. destruct o1 as [T1|]; [|done]. destruct o2 as [T2|]; [|done].
  destruct o3 as [tau|]; [|done]. destruct o6 as [delta|]; [|done]. destruct oi as [ipa|]; [|done]. injection He as <-. cbn [pe_IPA] in Hi. subst ipa.
  by exists {| cr_T1 := T1; cr_T2 := T2; cr_Tau := tau; cr_C := C; cr_D := D; cr_Delta := delta; cr_IP := ip; cr_Left := l; cr_Right := r; cr_L := ls; cr_R := rs |}.
Qed.

Lemma run_tasks_inv {A} (tasks : list (res A)) l : run_tasks tasks = Ok l -> tasks = Ok <$> l.
Proof.
  unfold run_tasks. destruct (existsb _ _); [done|]. revert l. induction tasks as [|t ts IH]; intros l; [by intros [= <-]|].
  rewrite mapM_cons_res. intros (a & Ha & H)%res_bind_Ok. apply res_bind_Ok in H as (k & Hk & [= <-]). rewrite fmap_cons. cbn in Ha. by rewrite <- Ha, <- (IH k).
Qed.

Definition range_verifier_at (v : RangeCorrectnessVerifier) (com : G1) : rangeVerifier :=
  {| rpv_Commitment := com; rpv_CommitmentGenerators := rcv_PedersenParameters v; rpv_LeftGenerators := rcv_LeftGenerators v;
     rpv_RightGenerators := rcv_RightGenerators v; rpv_P := rcv_P v; rpv_Q := rcv_Q v; rpv_NumberOfRounds := rcv_NumberOfRounds v;
     rpv_BitLength := rcv_BitLength v |}.

(** A set is accepted when every commitment has its proof. *)
Lemma set_accepted v proofs : RangeCorrectnessVerifier_Verify v proofs = Ok tt <->
  Forall2 (fun o com => is_Some o /\ rangeVerifier_Verify (range_verifier_at v com) o = Ok tt) proofs (rcv_Commitments v).
Proof.
  unfold RangeCorrectnessVerifier_Verify. split.
  - destruct (Nat.eqb_spec (length proofs) (length (rcv_Commitments v))) as [Hl|]; [|done]. cbn [negb].
    intros (us & H%wrap_Ok%run_tasks_inv & _)%res_bind_Ok. apply Forall2_same_length_lookup_2; [done|].
    intros i o com Ho Hc. assert (zip_with _ proofs (rcv_Commitments v) !! i = (Ok <$> us) !! i) as Hi by (by rewrite H).
    rewrite lookup_zip_with, Ho, Hc in Hi. cbn in Hi. rewrite list_lookup_fmap in Hi. destruct (us !! i) as [[]|]; [|done]. injection Hi as Hi. by destruct o.
  - intros HF. rewrite (Forall2_length _ _ _ HF), Nat.eqb_refl. cbn [negb].
    match goal with |- context [run_tasks ?ts] => assert (ts = Ok <$> replicate (length proofs) tt) as -> end; [|by rewrite run_tasks_Ok].
    induction HF as [|o com proofs coms [[rp ->] Hv] _ IH]; [done|]. cbn. f_equal; [done|apply IH].
Qed.

Lemma set_shapes v proofs : RangeCorrectnessVerifier_Verify v proofs = Ok tt ->
  exists cs, proofs = Some ∘ rp_of <$> cs /\ Forall (fun c => length (cr_L c) = rcv_NumberOfRounds v /\ length (cr_R c) = rcv_NumberOfRounds v) cs.
Proof.
  intros H%set_accepted. induction H as [|o com proofs coms [[rp ->] Hv] _ (cs & -> & Hcs)]; [by exists []|].
  apply range_accepted in Hv as (c & -> & Hl & Hr). exists (c :: cs). by rewrite fmap_cons, Forall_cons.
Qed.

(** ** Honest bytes validate *)

(** The points of a proof: a verifier rejects those at infinity. *)
Definition rp_points (c : complete_rp) : list G1 := [cr_T1 c; cr_T2 c; cr_C c; cr_D c] ++ cr_L c ++ cr_R c.
Definition finite (p : G1) : Prop := G1_IsInfinity p = false.

Lemma CheckElements_Own ps : Forall finite ps -> CheckElements (Own <$> ps) (length (Own <$> ps)) = Ok tt.
Proof.
  intros HF. unfold CheckElements. rewrite Nat.eqb_refl. cbn [negb]. apply rangeR_Ok. intros k w Hw. rewrite list_lookup_fmap in Hw.
  destruct (ps !! k) as [p|] eqn:Hp; [|done]. cbn in Hw. injection Hw as <-. apply CheckElement_Ok. exists p. split; [done|].
  rewrite Forall_lookup in HF. by apply (HF k).
Qed.

Lemma CheckZrElements_Own zs n : length zs = n -> CheckZrElements (Own <$> zs) n = Ok tt.
Proof.
  intros <-. unfold CheckZrElements. rewrite length_fmap, Nat.eqb_refl. cbn [negb]. apply rangeR_Ok. intros k w Hw. rewrite list_lookup_fmap in Hw.
  destruct (zs !! k) as [z|]; [|done]. cbn in Hw. by injection Hw as <-.
Qed.

Lemma own_rp_of c : own_rp (wrp_of c) = Ok (rp_of c).
Proof.
  unfold own_rp, wrp_of. cbn [fst snd]. unfold own_rpd, own_ipa.
  cbn [wrd_T1 wrd_T2 wrd_Tau wrd_C wrd_D wrd_Delta wrd_InnerProduct wip_Left wip_Right wip_L wip_R own_opt own mbind res_mbind].
  by rewrite (own_list_Own (cr_L c) (Some (Own <$> cr_L c)) eq_refl), (own_list_Own (cr_R c) (Some (Own <$> cr_R c)) eq_refl).
Qed.

Lemma own_rc_of cs : own_rc (wrp_of <$> cs) = Ok (Some ∘ rp_of <$> cs).
Proof.
  induction cs as [|c cs IH]; [done|]. rewrite !fmap_cons. unfold own_rc. rewrite mapM_cons_res, own_rp_of. cbn [mbind res_mbind].
  fold (own_rc (wrp_of <$> cs)). by rewrite IH.
Qed.

Lemma RangeProof_validates c n : Forall finite (rp_points c) -> length (cr_L c) = n -> length (cr_R c) = n -> (n <= maxIPARounds)%nat ->
  RangeProof_Validate (wrp_of c) = Ok tt.
Proof.
  unfold rp_points. rewrite !Forall_app, !Forall_cons. unfold finite at 1 2 3 4. intros ((H1 & H2 & HC & HD & _) & HL & HR) Hl Hr Hn.
  unfold RangeProof_Validate, wrp_of. cbn [fst snd].
  unfold RangeProofData_Validate, checked. cbn [wrd_T1 wrd_T2 wrd_Tau wrd_C wrd_D wrd_Delta wrd_InnerProduct CheckElement CheckBaseElement]. rewrite H1, H2, HC, HD.
  cbn [mbind res_mbind wrap]. unfold IPA_Validate. cbn [wip_Left wip_Right wip_L wip_R CheckBaseElement].
  rewrite !CheckElements_Own by done. rewrite !length_fmap, Hl, Hr, Nat.eqb_refl. cbn [negb].
  destruct (Nat.ltb_spec maxIPARounds n) as [|_]; [lia|]. done.
Qed.

Lemma RangeCorrectness_validates cs n : (n <= maxIPARounds)%nat ->
  Forall (fun c => length (cr_L c) = n /\ length (cr_R c) = n) cs -> Forall finite (concat (rp_points <$> cs)) ->
  RangeCorrectness_Validate (wrp_of <$> cs) = Ok tt.
Proof.
  intros Hn HF Hp. apply rangeR_Ok. intros k w Hw. rewrite list_lookup_fmap in Hw. destruct (cs !! k) as [c|] eqn:Hc; [|done]. cbn in Hw. injection Hw as <-.
  rewrite Forall_lookup in HF. destruct (HF k c Hc) as [Hl Hr]. rewrite Forall_concat in Hp. rewrite Forall_fmap, Forall_lookup in Hp.
  by rewrite (RangeProof_validates c n (Hp k c Hc) Hl Hr Hn).
Qed.

End Shapes.

(** ** The proofs of honest provers are accepted *)

Section TransferComplete.
Context {CO : Curve} {CL : CurveLaws} {NA : Native} {NL : NativeLaws} {WI : Wire} {WL : WireLaws}.
Add Ring zr8 : zr_ring.
Local Open Scope zr_scope.

(** Sums of amounts as scalars. *)
Fixpoint ones (n : nat) : Zr := match n with O => Zero | S n => ones n + One end.

Lemma ones_add n m : ones (n + m) = ones n + ones m.
Proof. induction n as [|n IH]; cbn [Nat.add ones]; [ring|]. rewrite IH. ring. Qed.

Lemma new_ones n : (Z.of_nat n < two64)%Z -> NewZrFromUint64 (Z.of_nat n) = ones n.
Proof.
  induction n as [|n IH]; intros Hn; [done|]. rewrite Nat2Z.inj_succ. unfold Z.succ. rewrite new_add by lia. rewrite IH by lia. done.
Qed.

Lemma zsum_new l : Forall (fun v => 0 <= v < two64)%Z l -> zsum (NewZrFromUint64 <$> l) = ones (Z.to_nat (foldr Z.add 0%Z l)).
Proof.
  induction 1 as [|v l Hv Hl IH]; [done|]. rewrite fmap_cons, zsum_cons, IH. cbn [foldr].
  assert (0 <= foldr Z.add 0 l)%Z as H0. { clear IH. induction Hl as [|w l Hw _ IH]; cbn [foldr]; lia. }
  rewrite Z2Nat.inj_add, ones_add by lia. f_equal. rewrite <- new_ones by lia. by rewrite Z2Nat.id by lia.
Qed.

Definition metadata (type : bytes) (vals : list Z) (bfs : list Zr) : list ZkMetadata :=
  zip_with (fun v bf => {| mt_Type := type; mt_Value := Some (NewZrFromUint64 v); mt_BlindingFactor := Some bf; mt_Issuer := [] |}) vals bfs.

Lemma GetTokens_spec p0 p1 p2 ps vals bfs type tokens tw :
  GetTokensWithWitnessAndBF vals bfs type (p0 :: p1 :: p2 :: ps) = Ok (tokens, tw) ->
  length bfs = length vals /\ tw = metadata type vals bfs /\ opens p0 p1 p2 (HashToZr type) (NewZrFromUint64 <$> vals) bfs tokens.
Proof.
  unfold GetTokensWithWitnessAndBF. destruct (Nat.eqb_spec (length vals) (length bfs)) as [Hl|]; [|done]. cbn [negb].
  intros (ts & H%wrap_Ok & [= -> <-])%res_bind_Ok. split; [done|]. split; [done|]. split; [by rewrite length_fmap|].
  unfold computeTokens in H. revert bfs tokens Hl H. induction vals as [|v vals IH]; intros [|bf bfs] tokens Hl H; try done.
  - by injection H as <-.
  - cbn [zip_with] in H. rewrite mapM_cons_res in H. apply res_bind_Ok in H as (t & Ht & H). apply res_bind_Ok in H as (rest & Hr & [= <-]).
    rewrite fmap_cons. cbn [zip_with]. rewrite <- (IH bfs rest) by (done || (cbn in Hl; lia)). f_equal.
    apply wrap_Ok in Ht. cbn [commit_loop commit length Nat.ltb Nat.leb mt_Type mt_Value mt_BlindingFactor] in Ht. injection Ht as <-. linear.
Qed.

(** The run of the range prover met no zero challenge and no point at
    infinity. *)
Definition RangeProof_points (rp : RangeProof) : list G1 :=
  match rp_Data rp, rp_IPA rp with
  | Some d, Some i => omap id ([rpd_T1 d; rpd_T2 d; rpd_C d; rpd_D d] ++ ipa_L i ++ ipa_R i)
  | _, _ => []
  end.

Definition good_range_run (p : RangeCorrectnessProver) (rands : nat -> res (nat -> Zr) * res (nat -> Zr)) : Prop :=
  forall proofs, RangeCorrectnessProver_Prove p rands = Ok (Some <$> proofs) ->
    Forall2 (fun com rp => Forall (fun c => c <> Zero) (range_challenges (set_range_verifier p com) rp) /\ Forall finite (RangeProof_points rp))
      (rcp_Commitments p) proofs.

Lemma points_of c : RangeProof_points (rp_of c) = rp_points c.
Proof.
  unfold RangeProof_points, rp_of, rp_points. cbn [rp_Data rp_IPA rpd_T1 rpd_T2 rpd_C rpd_D ipa_L ipa_R]. rewrite <- fmap_app.
  change (cr_T1 c :: cr_T2 c :: cr_C c :: cr_D c :: omap id (Some <$> (cr_L c ++ cr_R c)) = [cr_T1 c; cr_T2 c; cr_C c; cr_D c] ++ cr_L c ++ cr_R c).
  by rewrite omap_Some.
Qed.

(** The parameters of the range proofs are consistent. *)
Definition range_params (r : RangeProofParams) : Prop :=
  rpp_BitLength r = (2 ^ rpp_NumberOfRounds r)%nat /\ (1 <= rpp_NumberOfRounds r)%nat /\ (rpp_BitLength r <= NumBits)%nat /\
  length (rpp_LeftGenerators r) = rpp_BitLength r /\ length (rpp_RightGenerators r) = rpp_BitLength r /\
  (DispatchCurve <> (false, false) \/ cached_curve = true).

Definition range_prover (r : RangeProofParams) (gens coms : list G1) (vals : list Z) (bfs : list Zr) : RangeCorrectnessProver :=
  {| rcp_Commitments := coms; rcp_Values := vals; rcp_BlindingFactors := bfs; rcp_PedersenParameters := gens;
     rcp_LeftGenerators := rpp_LeftGenerators r; rcp_RightGenerators := rpp_RightGenerators r;
     rcp_BitLength := rpp_BitLength r; rcp_NumberOfRounds := rpp_NumberOfRounds r; rcp_P := rpp_P r; rcp_Q := rpp_Q r |}.

Lemma rounds_small r : range_params r -> (rpp_NumberOfRounds r <= maxIPARounds)%nat.
Proof.
  intros (Hb & _ & Hn & _). unfold NumBits, maxIPARounds in *. destruct (le_lt_dec (rpp_NumberOfRounds r) 16) as [|Hgt]; [done|].
  assert (2 ^ 7 <= 2 ^ rpp_NumberOfRounds r)%nat as H by (apply Nat.pow_le_mono_r; lia). change (2 ^ 7)%nat with 128%nat in H. lia.
Qed.

(** The range part of a proof: proved, sent, decoded, validated, verified. *)
Lemma range_part_complete r g0 g1 gs vals bfs coms rands : range_params r -> length bfs = length vals ->
  Forall (fun v => 0 <= v < 2 ^ Z.of_nat (rpp_BitLength r))%Z vals ->
  coms = zip_with (fun v bf => g0 ⋅ NewZrFromUint64 v + g1 ⋅ bf)%g1 vals bfs ->
  (forall i, exists r r2, rands i = (Ok r, Ok r2)) ->
  let p := range_prover r (g0 :: g1 :: gs) coms vals bfs in
  good_range_run p rands ->
  exists cs, RangeCorrectnessProver_Prove p rands = Ok (Some ∘ rp_of <$> cs) /\
    Forall (fun c => cr_L c <> [] /\ cr_R c <> []) cs /\
    RangeCorrectness_Validate (wrp_of <$> cs) = Ok tt /\ own_rc (wrp_of <$> cs) = Ok (Some ∘ rp_of <$> cs) /\
    RangeCorrectnessVerifier_Verify (range_verifier r (g0 :: g1 :: gs) coms) (Some ∘ rp_of <$> cs) = Ok tt.
Proof.
  intros Hr Hl Hv Hc Hrands p Hgood. pose proof Hr as (Hb & H1 & Hn & HL & HR & Hd).
  destruct (set_completeness p g0 g1 gs rands) as (proofs & Hprove & Hver); [by split_and!|done..|].
  specialize (Hgood _ Hprove). assert (RangeCorrectnessVerifier_Verify (set_verifier_of p) (Some <$> proofs) = Ok tt) as HV.
  { apply Hver. eapply Forall2_impl; [exact Hgood|]. by intros ? ? [? _]. }
  destruct (set_shapes _ _ HV) as (cs & Hcs & Hlen).
  assert (proofs = rp_of <$> cs) as ->.
  { rewrite (list_fmap_compose rp_of Some) in Hcs. by apply (inj (fmap Some)) in Hcs. }
  rewrite <- list_fmap_compose in Hprove, HV.
  exists cs. split; [done|]. split.
  { eapply Forall_impl; [exact Hlen|]. cbn [p range_prover set_verifier_of rcv_NumberOfRounds rcp_NumberOfRounds]. intros c [Ha Hc'].
    split; intros E; rewrite E in *; cbn in *; lia. }
  split; [|by split; [apply own_rc_of|]]. apply (RangeCorrectness_validates cs (rpp_NumberOfRounds r)); [by apply rounds_small|done|].
  apply Forall_concat, Forall_fmap, Forall_lookup. intros i c Hi. change (Forall finite (rp_points c)). rewrite <- points_of.
  assert ((rp_of <$> cs) !! i = Some (rp_of c)) as Hi' by (by rewrite list_lookup_fmap, Hi).
  apply (Forall2_lookup_r _ _ _ _ _ Hgood) in Hi' as (com & _ & _ & Hf). done.
Qed.

Lemma witnesses_ok type vals bfs : mapM witness_ok (Some <$> metadata type vals bfs) = Ok (metadata type vals bfs).
Proof.
  unfold metadata. revert bfs. induction vals as [|v vals IH]; intros [|bf bfs]; try done. cbn [zip_with]. rewrite fmap_cons, mapM_cons_res.
  cbn [witness_ok mt_BlindingFactor mbind res_mbind]. by rewrite IH.
Qed.

(** The loop of both provers over the witnesses of the outputs. *)
Lemma witness_loop {B} (f : ZkMetadata -> Z -> Zr -> B) (conv : res Z -> res Z) Zr_Uint type vals : forall bfs,
  (forall z, conv (Ok z) = Ok z) -> Forall (fun v => Zr_Uint (NewZrFromUint64 v) = Ok v) vals ->
  mapM (fun m => m ← witness_ok m; v ← deref (mt_Value m); v ← conv (Zr_Uint v); bf ← deref (mt_BlindingFactor m); Ok (f m v bf)) (Some <$> metadata type vals bfs)
  = Ok (zip_with (fun m '(v, bf) => f m v bf) (metadata type vals bfs) (zip vals bfs)).
Proof.
  unfold metadata. induction vals as [|v vals IH]; intros [|bf bfs] Hc HF; try done. apply Forall_cons in HF as [Hv HF].
  cbn [zip_with]. rewrite fmap_cons, mapM_cons_res. cbn [witness_ok mt_BlindingFactor mt_Value deref mbind res_mbind]. rewrite Hv, Hc. cbn [mbind res_mbind].
  by rewrite IH.
Qed.

Lemma outs_parts t type vals bfs : length bfs = length vals ->
  let outs := zip_with (fun m '(v, bf) => (m, v, bf - t)) (metadata type vals bfs) (zip vals bfs) in
  outs.*1.*1 = metadata type vals bfs /\ outs.*1.*2 = vals /\ outs.*2 = (fun bf => bf - t) <$> bfs.
Proof.
  unfold metadata. revert bfs. induction vals as [|v vals IH]; intros [|bf bfs] Hl; try done. cbn [zip_with]. rewrite !fmap_cons.
  destruct (IH bfs) as (-> & -> & ->); [cbn in Hl; lia|]. done.
Qed.

Lemma metadata_values type vals bfs : length bfs = length vals ->
  mt_Value <$> metadata type vals bfs = Some <$> (NewZrFromUint64 <$> vals) /\ mt_BlindingFactor <$> metadata type vals bfs = Some <$> bfs.
Proof.
  unfold metadata. revert bfs. induction vals as [|v vals IH]; intros [|bf bfs] Hl; try done. cbn [zip_with]. rewrite !fmap_cons.
  destruct (IH bfs) as (-> & ->); [cbn in Hl; lia|]. done.
Qed.

Lemma length_metadata type vals bfs : length bfs = length vals -> length (metadata type vals bfs) = length vals.
Proof. intros Hl. unfold metadata. rewrite length_zip_with. lia. Qed.

(** The prover of a transfer for tokens the library created. *)
Definition honest_ts (pp : zk_params) (type : bytes) (ivals ovals : list Z) (ibfs obfs : list Zr) (inputs outputs : list G1) (p0 p2 : G1) (t : Zr) : TypeAndSumProver :=
  {| tsr_PedParams := zp_PedersenGenerators pp; tsr_Inputs := inputs; tsr_Outputs := outputs;
     tsr_CommitmentToType := (p0 ⋅ HashToZr type + p2 ⋅ t)%g1;
     tsr_witness := {| tsw_inValues := Some <$> (NewZrFromUint64 <$> ivals); tsw_outValues := Some <$> (NewZrFromUint64 <$> ovals); tsw_Type := HashToZr type;
                       tsw_inBlindingFactors := Some <$> ibfs; tsw_outBlindingFactors := Some <$> obfs; tsw_typeBlindingFactor := t |} |}.

Lemma NewBulletProofProver_spec Zr_Uint rand pp p0 p1 p2 ps r type ivals ovals ibfs obfs inputs outputs :
  params_present pp p0 p1 p2 ps r -> ivals <> [] -> length ibfs = length ivals -> length obfs = length ovals ->
  Forall (fun v => Zr_Uint (NewZrFromUint64 v) = Ok v) ovals ->
  let t := rand 0%nat in
  NewBulletProofProver Zr_Uint (Ok rand) (Some <$> metadata type ivals ibfs) (Some <$> metadata type ovals obfs) inputs outputs pp
  = Ok {| bpp_TypeAndSum := honest_ts pp type ivals ovals ibfs obfs inputs outputs p0 p2 t;
          bpp_RangeCorrectness := if needs_range (length ivals) (length ovals)
            then Some (range_prover r (p1 :: p2 :: ps) (relative (p0 ⋅ HashToZr type + p2 ⋅ t)%g1 outputs) ovals ((fun bf => bf - t) <$> obfs)) else None |}.
Proof.
  intros [Hp Hr] Hne Hi Ho HU t. unfold NewBulletProofProver, needs_range. rewrite !length_fmap, !length_metadata by done.
  destruct ivals as [|v0 ivals]; [done|]. destruct ibfs as [|b0 ibfs]; [done|].
  change (length (v0 :: ivals) =? 0)%nat with false. cbv iota. rewrite witnesses_ok. cbn [mbind res_mbind].
  change (index (metadata type (v0 :: ivals) (b0 :: ibfs)) 0) with (Ok {| mt_Type := type; mt_Value := Some (NewZrFromUint64 v0); mt_BlindingFactor := Some b0; mt_Issuer := [] |}).
  rewrite Hp. cbn [mbind res_mbind index lookup list_lookup mt_Type]. fold t.
  rewrite (witness_loop (fun m v bf => (m, v, bf - t)) (replace_err _)) by done. cbn [mbind res_mbind].
  destruct (outs_parts t type ovals obfs Ho) as (-> & -> & ->).
  unfold NewTypeAndSumWitness. destruct (metadata_values type (v0 :: ivals) (b0 :: ibfs) Hi) as [Ev Eb]. destruct (metadata_values type ovals obfs Ho) as [Ev' Eb'].
  destruct (metadata type (v0 :: ivals) (b0 :: ibfs)) as [|m0 ms] eqn:Em; [done|]. assert (mt_Type m0 = type) as -> by (by injection Em as <- _).
  cbn [mbind res_mbind]. rewrite Ev, Eb, Ev', Eb'. unfold value_generators, honest_ts, range_prover. rewrite Hp, Hr.
  by destruct (negb _ || negb _).
Qed.

(** The tokens relative to the commitment to the type are commitments to the
    values alone. *)
Lemma relative_values p0 p1 p2 T t vals bfs tokens : opens p0 p1 p2 T (NewZrFromUint64 <$> vals) bfs tokens ->
  relative (p0 ⋅ T + p2 ⋅ t)%g1 tokens = zip_with (fun v bf => p1 ⋅ NewZrFromUint64 v + p2 ⋅ bf)%g1 vals ((fun bf => bf - t) <$> bfs).
Proof. intros Ho. rewrite (relative_opens _ _ _ _ _ _ _ _ Ho). by rewrite zip_with_fmap_l. Qed.

Definition good_transfer_run (p : BulletProofProver) (rands : nat -> res (nat -> Zr) * res (nat -> Zr)) : Prop :=
  finite (tsr_CommitmentToType (bpp_TypeAndSum p)) /\
  match bpp_RangeCorrectness p with None => True | Some rcp => good_range_run rcp rands end.

Lemma own_ts_of com ibf iv type tbf eqs chal :
  own_ts {| wts_CommitmentToType := Some (Own com); wts_InputBlindingFactors := Some (Own <$> ibf); wts_InputValues := Some (Own <$> iv);
    wts_Type := Some (Own type); wts_TypeBlindingFactor := Some (Own tbf); wts_EqualityOfSum := Some (Own eqs); wts_Challenge := Some (Own chal) |}
  = Ok {| tsp_CommitmentToType := Some com; tsp_InputBlindingFactors := Some <$> ibf; tsp_InputValues := Some <$> iv;
          tsp_Type := Some type; tsp_TypeBlindingFactor := Some tbf; tsp_EqualityOfSum := Some eqs; tsp_Challenge := Some chal |}.
Proof.
  unfold own_ts. cbn [wts_InputValues wts_CommitmentToType wts_InputBlindingFactors wts_Type wts_TypeBlindingFactor wts_EqualityOfSum wts_Challenge own_opt own mbind res_mbind].
  by rewrite (own_list_Own ibf (Some (Own <$> ibf)) eq_refl), (own_list_Own iv (Some (Own <$> iv)) eq_refl).
Qed.

(** The sigma part of a transfer: proved, sent, decoded, validated, verified. *)
Lemma ts_part_complete p p0 p1 p2 ps ivals ibfs ovals obfs rand : honest p p0 p1 p2 ps ivals ibfs ovals obfs -> tsr_Inputs p <> [] ->
  finite (tsr_CommitmentToType p) ->
  exists ts b w, TypeAndSum_Prove p (Ok rand) = Ok ts /\ TypeAndSumProof_Serialize ts = Ok b /\ b <> [] /\
    (small b -> TypeAndSumProof_Deserialize b = Ok w) /\ TypeAndSumProof_Validate w = Ok tt /\ own_ts w = Ok ts /\
    tsp_CommitmentToType ts = Some (tsr_CommitmentToType p) /\
    verify_type_and_sum (tsr_PedParams p) (present_points (tsr_Inputs p)) (present_points (tsr_Outputs p)) ts = Ok tt.
Proof.
  intros Hh Hne Hf. destruct (TypeAndSum_completeness _ _ _ _ _ _ _ _ _ rand Hh) as (ts & Hp & Hc & Hv).
  destruct (TypeAndSum_Verify_inv (ts_verifier_of p) ts p0 p1 p2 ps (hn_params _ _ _ _ _ _ _ _ _ Hh) Hv) as (com & type & tbf & eqs & chal & vals & bfs & -> & Lv & Lb).
  cbn [ts_verifier_of tsv_Inputs tsp_CommitmentToType] in *. injection Hc as ->.
  assert (0 < length (tsr_Inputs p))%nat as Hpos by (destruct (tsr_Inputs p); [done|cbn; lia]).
  destruct (TypeAndSumProof_read (tsr_CommitmentToType p) bfs vals type tbf eqs chal) as (b & Hb & Hb' & Hd); [intros ->; cbn in *; lia..|].
  do 3 eexists. split_and!; [done|done|done|done| | |done|by rewrite verify_points].
  - unfold TypeAndSumProof_Validate, ts_check.
    cbn [wts_InputValues wts_CommitmentToType wts_InputBlindingFactors wts_Type wts_TypeBlindingFactor wts_EqualityOfSum wts_Challenge default CheckElement CheckBaseElement from_option id].
    unfold finite in Hf. rewrite Hf, !CheckZrElements_Own by (rewrite length_fmap; congruence). done.
  - apply own_ts_of.
Qed.

Lemma Proof_read ts b w (o : option (list complete_rp)) : TypeAndSumProof_Serialize ts = Ok b -> b <> [] ->
  (small b -> TypeAndSumProof_Deserialize b = Ok w) -> (forall cs, o = Some cs -> Forall (fun c => cr_L c <> [] /\ cr_R c <> []) cs) ->
  exists raw, Proof_Serialize ts (fmap (M := list) (Some ∘ rp_of) <$> o) = Ok raw /\ (small raw -> Proof_Deserialize raw = Ok (w, wrp_of <$> default [] o)).
Proof.
  intros Hb Hne Hd Ho. unfold Proof_Serialize, Proof_Deserialize, asn1_Unmarshal2. rewrite Hb. destruct o as [cs|]; cbn [fmap option_fmap option_map].
  - destruct (RangeCorrectness_read cs (Ho cs eq_refl)) as (brc & Hrc & Nrc & Rrc). rewrite Hrc. rewrite (Marshal_all_spec _ [b; brc]) by repeat constructor.
    eexists. split; [reflexivity|]. intros Hs. rewrite asn1_values_read by done. apply small_octets in Hs. small_entries Hs. cbn [mbind res_mbind].
    rewrite (unmarshal_entry_read _ _ _ _ Hne (Hd Hsm)). cbn [mbind res_mbind]. by rewrite (unmarshal_entry_read _ _ _ _ Nrc (Rrc Hsm0)).
  - eexists. split; [reflexivity|]. intros Hs. rewrite asn1_values_read by done. apply small_octets in Hs. small_entries Hs. cbn [mbind res_mbind].
    by rewrite (unmarshal_entry_read _ _ _ _ Hne (Hd Hsm)).
Qed.

Lemma honest_ts_honest pp p0 p1 p2 ps r type ivals ovals ibfs obfs inputs outputs t :
  params_present pp p0 p1 p2 ps r -> opens p0 p1 p2 (HashToZr type) (NewZrFromUint64 <$> ivals) ibfs inputs ->
  opens p0 p1 p2 (HashToZr type) (NewZrFromUint64 <$> ovals) obfs outputs ->
  Forall (fun v => 0 <= v < two64)%Z ivals -> Forall (fun v => 0 <= v < two64)%Z ovals -> foldr Z.add 0%Z ivals = foldr Z.add 0%Z ovals ->
  honest (honest_ts pp type ivals ovals ibfs obfs inputs outputs p0 p2 t) p0 p1 p2 ps (NewZrFromUint64 <$> ivals) ibfs (NewZrFromUint64 <$> ovals) obfs.
Proof. intros [Hp _] Hi Ho Bi Bo Hs. split; [done..|]. by rewrite !zsum_new, Hs. Qed.

Lemma range_values r vals : range_params r -> Forall (fun v => 0 <= v < 2 ^ Z.of_nat (rpp_BitLength r))%Z vals -> Forall (fun v => 0 <= v < two64)%Z vals.
Proof.
  intros (_ & _ & Hn & _) HF. eapply Forall_impl; [exact HF|]. cbn. intros v [H0 H1]. split; [done|]. eapply Z.lt_le_trans; [exact H1|].
  unfold NumBits in Hn. change two64 with (2 ^ 64)%Z. apply Z.pow_le_mono_r; lia.
Qed.

Lemma transfer_completeness Zr_Uint pp p0 p1 p2 ps r type ivals ovals ibfs obfs inputs outputs inW outW rand rand' rands :
  params_present pp p0 p1 p2 ps r -> range_params r -> ivals <> [] ->
  GetTokensWithWitnessAndBF ivals ibfs type (zp_PedersenGenerators pp) = Ok (inputs, inW) ->
  GetTokensWithWitnessAndBF ovals obfs type (zp_PedersenGenerators pp) = Ok (outputs, outW) ->
  Forall (fun v => 0 <= v < two64)%Z ivals -> Forall (fun v => 0 <= v < 2 ^ Z.of_nat (rpp_BitLength r))%Z ovals ->
  foldr Z.add 0%Z ivals = foldr Z.add 0%Z ovals -> Forall (fun v => Zr_Uint (NewZrFromUint64 v) = Ok v) ovals ->
  (forall i, exists r r2, rands i = (Ok r, Ok r2)) ->
  exists p, NewBulletProofProver Zr_Uint (Ok rand) (Some <$> inW) (Some <$> outW) inputs outputs pp = Ok p /\
    (good_transfer_run p rands -> exists v raw, NewBulletProofVerifier (present_points inputs) (present_points outputs) pp = Ok v /\
       BulletProofProver_Prove p rands (Ok rand') = Ok raw /\ (small raw -> BulletProofVerifier_Verify v raw = Ok tt)).
Proof.
  intros Hpp Hr Hne Hin Hout Bi Bo Hs HU Hrands. pose proof Hpp as [Hp _]. rewrite Hp in Hin, Hout.
  apply GetTokens_spec in Hin as (Li & -> & Hi). apply GetTokens_spec in Hout as (Lo & -> & Ho).
  rewrite (NewBulletProofProver_spec _ _ _ _ _ _ _ _ _ _ _ _ _ _ _ Hpp Hne Li Lo HU). eexists. split; [done|].
  rewrite (NewBulletProofVerifier_spec _ _ _ _ _ _ _ _ Hpp). set (t := rand 0%nat).
  pose proof (honest_ts_honest pp p0 p1 p2 ps r type ivals ovals ibfs obfs inputs outputs t Hpp Hi Ho Bi (range_values _ _ Hr Bo) Hs) as Hh.
  pose proof (length_opens _ _ _ _ _ _ _ Hi) as [Ein _]. pose proof (length_opens _ _ _ _ _ _ _ Ho) as [Eout _]. rewrite length_fmap in Ein, Eout.
  unfold good_transfer_run. cbn [bpp_TypeAndSum bpp_RangeCorrectness]. intros [Hf Hgood].
  destruct (ts_part_complete _ _ _ _ _ _ _ _ _ rand' Hh) as (ts & b & w & Hprove & Hser & Hnb & Hdes & Hval & Hown & Hcom & Hver).
  { cbn [honest_ts tsr_Inputs]. destruct inputs; [|done]. destruct ivals; done. } { done. }
  assert (forall l, length (present_points l) = length l) as Lp by (intros; apply length_fmap).
  rewrite !Lp, Ein, Eout. unfold BulletProofProver_Prove. cbn [bpp_TypeAndSum bpp_RangeCorrectness]. unfold BulletProofVerifier_Verify.
  destruct (needs_range (length ivals) (length ovals)).
  - destruct (range_part_complete r p1 p2 ps ovals ((fun bf => bf - t) <$> obfs) (relative (p0 ⋅ HashToZr type + p2 ⋅ t)%g1 outputs) rands) as
      (cs & Hrp & Hnil & Hrval & Hrown & Hrver); [done|by rewrite length_fmap|done|by apply relative_values|done|done|].
    destruct (Proof_read ts b w (Some cs) Hser Hnb Hdes) as (raw & Hraw & Hread); [by intros ? [= <-]|].
    eexists _, raw. split; [done|]. split; [rewrite Hrp; cbn [wrap mbind res_mbind]; rewrite Hprove; exact Hraw|].
    intros Hsm. rewrite (Hread Hsm). unfold Proof_Validate. cbn [default wrap mbind res_mbind fst snd bpv_PedParams bpv_Inputs bpv_Outputs bpv_RangeCorrectness from_option id].
    rewrite Hval, Hrval, Hown, Hrown. cbn [err_join wrap mbind res_mbind]. rewrite Hcom.
    cbn [honest_ts tsr_PedParams tsr_Inputs tsr_Outputs tsr_CommitmentToType] in Hver |- *. rewrite Hver, points_present. exact Hrver.
  - destruct (Proof_read ts b w None Hser Hnb Hdes) as (raw & Hraw & Hread); [done|].
    eexists _, raw. split; [done|]. split; [cbn [mbind res_mbind]; rewrite Hprove; exact Hraw|].
    intros Hsm. rewrite (Hread Hsm). unfold Proof_Validate. cbn [default wrap mbind res_mbind fst snd bpv_PedParams bpv_Inputs bpv_Outputs bpv_RangeCorrectness from_option id].
    rewrite Hval, Hown. cbn [err_join wrap mbind res_mbind].
    cbn [honest_ts tsr_PedParams tsr_Inputs tsr_Outputs] in Hver. by rewrite Hver.
Qed.

(** ** Issues *)

Definition honest_st (pp : zk_params) (type : bytes) (p0 p2 : G1) (t : Zr) : SameTypeProver :=
  {| stp_PedParams := zp_PedersenGenerators pp; stp_tokenType := type; stp_blindingFactor := t;
     stp_CommitmentToType := (p0 ⋅ HashToZr type + p2 ⋅ t)%g1 |}.

Lemma NewIssueProver_spec Zr_Uint rand pp p0 p1 p2 ps r type vals bfs tokens :
  params_present pp p0 p1 p2 ps r -> vals <> [] -> length bfs = length vals -> Forall (fun v => Zr_Uint (NewZrFromUint64 v) = Ok v) vals ->
  let t := rand 0%nat in
  NewIssueProver Zr_Uint (Ok rand) (Some <$> metadata type vals bfs) tokens pp
  = Ok {| isp_SameType := honest_st pp type p0 p2 t;
          isp_RangeCorrectness := range_prover r (p1 :: p2 :: ps) (relative (p0 ⋅ HashToZr type + p2 ⋅ t)%g1 tokens) vals ((fun bf => bf - t) <$> bfs) |}.
Proof.
  intros [Hp Hr] Hne Hl HU t. unfold NewIssueProver. rewrite length_fmap, length_metadata by done. destruct vals as [|v0 vals]; [done|]. destruct bfs as [|b0 bfs]; [done|].
  change (length (v0 :: vals) =? 0)%nat with false. cbv iota.
  change (index (Some <$> metadata type (v0 :: vals) (b0 :: bfs)) 0)
    with (Ok (Some {| mt_Type := type; mt_Value := Some (NewZrFromUint64 v0); mt_BlindingFactor := Some b0; mt_Issuer := [] |})).
  cbn [mbind res_mbind deref]. rewrite Hp. cbn [mbind res_mbind index lookup list_lookup mt_Type join_err]. fold t.
  rewrite (witness_loop (fun _ v bf => (v, bf - t)) (join_err _)) by done. cbn [mbind res_mbind]. unfold value_generators, honest_st, range_prover. rewrite Hp, Hr.
  assert (forall ws : list (Z * Zr), ws = zip (v0 :: vals) ((fun bf => bf - t) <$> (b0 :: bfs)) ->
    ws.*1 = v0 :: vals /\ ws.*2 = (fun bf => bf - t) <$> (b0 :: bfs)) as Hz.
  { intros ws ->. split; [apply fst_zip|apply snd_zip]; rewrite length_fmap; lia. }
  match goal with |- context [zip_with ?f ?a ?b] => destruct (Hz (zip_with f a b)) as [-> ->] end; [|done].
  clear. generalize (v0 :: vals) as l, (b0 :: bfs) as k. unfold metadata. induction l as [|v l IH]; intros [|b k]; try done. cbn. f_equal. apply IH.
Qed.

Definition good_issue_run (p : IssueProver) (rands : nat -> res (nat -> Zr) * res (nat -> Zr)) : Prop :=
  finite (stp_CommitmentToType (isp_SameType p)) /\ good_range_run (isp_RangeCorrectness p) rands.

Lemma BulletProof_read st cs : Forall (fun c => cr_L c <> [] /\ cr_R c <> []) cs ->
  exists raw, BulletProof_Serialize st (Some ∘ rp_of <$> cs) = Ok raw /\
    (small raw -> BulletProof_Deserialize raw = Ok ({| wst_Type := Some (Own (st_Type st)); wst_BlindingFactor := Some (Own (st_BlindingFactor st));
       wst_Challenge := Some (Own (st_Challenge st)); wst_CommitmentToType := Some (Own (st_CommitmentToType st)) |}, wrp_of <$> cs)).
Proof.
  intros HF. destruct (SameType_read st) as (b & Hb & Nb & Rb). destruct (RangeCorrectness_read cs HF) as (brc & Hrc & Nrc & Rrc).
  unfold BulletProof_Serialize, BulletProof_Deserialize, asn1_Unmarshal2. rewrite Hb, Hrc, (Marshal_all_spec _ [b; brc]) by repeat constructor.
  eexists. split; [reflexivity|]. intros Hs. rewrite asn1_values_read by done. apply small_octets in Hs. small_entries Hs. cbn [mbind res_mbind].
  rewrite (unmarshal_entry_read _ _ _ _ Nb (Rb Hsm)). cbn [mbind res_mbind]. by rewrite (unmarshal_entry_read _ _ _ _ Nrc (Rrc Hsm0)).
Qed.

Lemma issue_completeness Zr_Uint pp p0 p1 p2 ps r type vals bfs tokens tw rand rand' rands :
  params_present pp p0 p1 p2 ps r -> range_params r -> vals <> [] ->
  GetTokensWithWitnessAndBF vals bfs type (zp_PedersenGenerators pp) = Ok (tokens, tw) ->
  Forall (fun v => 0 <= v < 2 ^ Z.of_nat (rpp_BitLength r))%Z vals -> Forall (fun v => Zr_Uint (NewZrFromUint64 v) = Ok v) vals ->
  (forall i, exists r r2, rands i = (Ok r, Ok r2)) ->
  exists p, NewIssueProver Zr_Uint (Ok rand) (Some <$> tw) tokens pp = Ok p /\
    (good_issue_run p rands -> exists v raw, NewIssueVerifier (present_points tokens) pp = Ok v /\
       IssueProver_Prove p rands (Ok rand') = Ok raw /\ (small raw -> IssueVerifier_Verify v raw = Ok tt)).
Proof.
  intros Hpp Hr Hne Htok Bv HU Hrands. pose proof Hpp as [Hp _]. rewrite Hp in Htok. apply GetTokens_spec in Htok as (Hl & -> & Ho).
  rewrite (NewIssueProver_spec _ _ _ _ _ _ _ _ _ _ _ _ Hpp Hne Hl HU). eexists. split; [done|]. set (t := rand 0%nat).
  unfold good_issue_run. cbn [isp_SameType isp_RangeCorrectness]. intros [Hf Hgood]. unfold NewIssueVerifier. rewrite (NewRangeCorrectnessVerifier_spec _ _ _ _ _ _ Hpp).
  destruct (SameType_completeness (honest_st pp type p0 p2 t) p0 p1 p2 ps rand') as (st & Hst & Hcom & Hver); [exact Hp|done|].
  destruct (range_part_complete r p1 p2 ps vals ((fun bf => bf - t) <$> bfs) (relative (p0 ⋅ HashToZr type + p2 ⋅ t)%g1 tokens) rands) as
    (cs & Hrp & Hnil & Hrval & Hrown & Hrver); [done|by rewrite length_fmap|done|by apply relative_values|done|done|].
  destruct (BulletProof_read st cs Hnil) as (raw & Hraw & Hread). eexists _, raw. split; [done|]. unfold IssueProver_Prove. cbn [isp_SameType isp_RangeCorrectness].
  rewrite Hst, Hrp. split; [exact Hraw|]. intros Hsm. unfold IssueVerifier_Verify. rewrite (Hread Hsm). cbn [join_err mbind res_mbind fst snd].
  unfold SameType_Validate. cbn [wst_Type wst_BlindingFactor wst_Challenge wst_CommitmentToType CheckBaseElement CheckElement]. rewrite Hcom.
  unfold finite in Hf. cbn [honest_st stp_CommitmentToType] in Hf |- *. rewrite Hf, Hrval. cbn [wrap join_err mbind res_mbind].
  unfold own_st. cbn [wst_Type wst_BlindingFactor wst_Challenge wst_CommitmentToType own_opt own deref mbind res_mbind isv_PedParams].
  assert (st = {| st_Type := st_Type st; st_BlindingFactor := st_BlindingFactor st; st_Challenge := st_Challenge st; st_CommitmentToType := (p0 ⋅ HashToZr type + p2 ⋅ t)%g1 |})
    as <- by (destruct st; cbn in Hcom |- *; by subst).
  change (zp_PedersenGenerators pp) with (stp_PedParams (honest_st pp type p0 p2 t)). rewrite Hver. cbn [join_err mbind res_mbind]. rewrite Hrown, Hcom. cbn [isv_Tokens]. rewrite points_present. cbn [mbind res_mbind isv_RangeCorrectness].
  match goal with |- join_err _ ?x = _ => assert (x = Ok tt) as ->; [exact Hrver|done] end.
Qed.

End TransferComplete.
