(* ===== verification/ZkClaims.v ===== *)
(** * What the proof system promises

    The theorems about the proofs of transfers and issues, and the curve of five
    elements on which their hypotheses are met. *)

From S2P Require Import Prelude GoStd Der Asn1 ZkMath ZkIpa ZkRange ZkSigma ZkCodec ZkTransfer.
From Stdlib Require Import ZArith Lia.

(** ** The small curve on the wire *)

Module Small.
Import F5.

#[export] Instance wire : Wire := {|
  curve_id := 1; num_curves := 6; NewG1FromBytes b := Ok (of_bytes b); foreign_G1 _ _ := Err (EMsg "invalid point");
  G1_IsInfinity p := bool_decide (p = f0);
|}.

#[export] Instance wire_laws : WireLaws.
Proof. split; try done; by intros []. Qed.

Definition gens : list F := [f1; f2; f3].
Definition rpp : RangeProofParams :=
  {| rpp_LeftGenerators := [f1; f2]; rpp_RightGenerators := [f3; f4]; rpp_P := f2; rpp_Q := f1; rpp_BitLength := 2; rpp_NumberOfRounds := 1 |}.
Definition pp : zk_params := {| zp_PedersenGenerators := gens; zp_RangeProofParams := Some rpp |}.
Definition Zr_Uint (z : F) : res Z := Ok (to_Z z).
Definition stream (seed : Z) (i : nat) : F := of_Z ((seed + Z.of_nat i) * (Z.of_nat i + 3 * seed + 1)).
Definition rands (seed : Z) (i : nat) : res (nat -> F) * res (nat -> F) := (Ok (stream (seed + Z.of_nat i)), Ok (stream (seed + 7 * Z.of_nat i))).

Definition tokens (vals : list Z) (bfs : list F) : list F * list ZkMetadata :=
  match GetTokensWithWitnessAndBF vals bfs (str "EUR") gens with Ok x => x | _ => ([], []) end.

(** No challenge of this curve vanishes. *)
Lemma squeeze_nonzero tr x tr' : Squeeze tr = (x, tr') -> x <> Zero.
Proof. unfold Squeeze. intros [= <- _]. apply hash_nonzero. Qed.

Lemma replay_nonzero Ls : forall Rs tr xs tr', replay_rounds tr Ls Rs = Ok (xs, tr') -> Forall (fun x => x <> Zero) xs.
Proof.
  induction Ls as [|[l|] Ls IH]; intros [|[r|] Rs] tr xs tr' H; try done; [by injection H as <- _|].
  cbn [replay_rounds] in H. destruct (Squeeze _) as [x tr1] eqn:Ex. apply res_bind_Ok in H as ([ys tr2] & H & [= <- _]). constructor; [by eapply squeeze_nonzero|by eapply IH].
Qed.

Lemma challenges_nonzero v rp : Forall (fun x => x <> Zero) (range_challenges v rp).
Proof.
  unfold range_challenges. destruct (proof_elements_of _) as [e| |]; [|constructor..].
  destruct (Squeeze _) as [y tr1] eqn:Ey. destruct (Squeeze tr1) as [z tr2]. destruct (Squeeze _) as [x tr3] in |- *. constructor; [by eapply squeeze_nonzero|].
  unfold ipa_challenges. destruct (ipa_first _ _ _ _ _ _) as [[? tr4]| |]; [|constructor..].
  destruct (replay_rounds _ _ _) as [[xs ?]| |] eqn:Er; [by eapply replay_nonzero|constructor..].
Qed.

(** Evaluates whether a run meets no point at infinity. *)
Definition good_rangeb (p : RangeCorrectnessProver) (rs : nat -> res (nat -> F) * res (nat -> F)) : bool :=
  match RangeCorrectnessProver_Prove p rs with
  | Ok l => (length l =? length (rcp_Commitments p))%nat &&
            forallb (fun o => match o with Some rp => forallb (fun q => negb (G1_IsInfinity q)) (RangeProof_points rp) | None => false end) l
  | _ => true
  end.

Lemma good_rangeb_ok p rs : good_rangeb p rs = true -> good_range_run p rs.
Proof.
  unfold good_rangeb, good_range_run. intros H proofs Hp. rewrite Hp in H. rewrite length_fmap in H. apply andb_true_iff in H as [Hl H].
  apply Nat.eqb_eq in Hl. apply Forall2_same_length_lookup_2; [done|]. intros i com rp Hc Hrp. split; [apply challenges_nonzero|].
  rewrite forallb_forall in H. specialize (H (Some rp)). rewrite <- list_elem_of_In, forallb_forall in H. apply Forall_forall. intros x Hx.
  apply negb_true_iff, H; [|by rewrite <- list_elem_of_In]. apply list_elem_of_fmap. exists rp. split; [done|]. by eapply list_elem_of_lookup_2.
Qed.

Lemma params : params_present pp f1 f2 f3 [] rpp.
Proof. done. Qed.

Lemma params_range : range_params rpp.
Proof. unfold range_params, NumBits. cbn. split_and!; (lia || by left). Qed.

Lemma rands_ok seed i : exists r r2, rands seed i = (Ok r, Ok r2).
Proof. by do 2 eexists. Qed.

Definition ins : list F * list ZkMetadata := tokens [2%Z; 1%Z] [f1; f4].
Definition outs : list F * list ZkMetadata := tokens [3%Z] [f2].

Definition prover : res BulletProofProver :=
  NewBulletProofProver Zr_Uint (Ok (stream 1)) (Some <$> ins.2) (Some <$> outs.2) ins.1 outs.1 pp.
Definition sent : res bytes := p ← prover; BulletProofProver_Prove p (rands 2) (Ok (stream 4)).

(** The run of the example is good, and its proof short. *)
Definition goodb (r : res BulletProofProver) : bool :=
  match r with
  | Ok p => negb (G1_IsInfinity (tsr_CommitmentToType (bpp_TypeAndSum p))) &&
            match bpp_RangeCorrectness p with Some r => good_rangeb r (rands 2) | None => true end
  | _ => false
  end.

Lemma prover_good p : prover = Ok p -> good_transfer_run p (rands 2).
Proof.
  intros Hp. assert (goodb prover = true) as H by (vm_compute; reflexivity). rewrite Hp in H. apply andb_true_iff in H as [H1 H2].
  split; [by apply negb_true_iff|]. destruct (bpp_RangeCorrectness p); [by apply good_rangeb_ok|done].
Qed.

Definition smallb (r : res bytes) : bool := match r with Ok raw => (zlen raw <? 2 ^ 31)%Z | _ => false end.

Lemma sent_small raw : sent = Ok raw -> small raw.
Proof.
  intros H. assert (smallb sent = true) as Hs by (vm_compute; reflexivity).
  rewrite H in Hs. by apply Z.ltb_lt.
Qed.

(** An issue of the same output. *)
Definition issuer : res IssueProver := NewIssueProver Zr_Uint (Ok (stream 1)) (Some <$> outs.2) outs.1 pp.
Definition issued : res bytes := p ← issuer; IssueProver_Prove p (rands 2) (Ok (stream 4)).
Definition issue_goodb (r : res IssueProver) : bool :=
  match r with
  | Ok p => negb (G1_IsInfinity (stp_CommitmentToType (isp_SameType p))) && good_rangeb (isp_RangeCorrectness p) (rands 2)
  | _ => false
  end.

Lemma issuer_good p : issuer = Ok p -> good_issue_run p (rands 2).
Proof.
  intros Hp. assert (issue_goodb issuer = true) as H by (vm_compute; reflexivity). rewrite Hp in H. apply andb_true_iff in H as [H1 H2].
  split; [by apply negb_true_iff|by apply good_rangeb_ok].
Qed.

Lemma issued_small raw : issued = Ok raw -> small raw.
Proof.
  intros H. assert (smallb issued = true) as Hs by (vm_compute; reflexivity). rewrite H in Hs. by apply Z.ltb_lt.
Qed.

(** Elements of proofs. *)
Definition small_rpv : rangeVerifier :=
  {| rpv_Commitment := f3; rpv_CommitmentGenerators := [f2; f3]; rpv_LeftGenerators := [f1; f2]; rpv_RightGenerators := [f3; f4]; rpv_P := f2; rpv_Q := f1;
     rpv_NumberOfRounds := 1; rpv_BitLength := 2 |}.
Definition small_rp : complete_rp :=
  {| cr_T1 := f1; cr_T2 := f2; cr_Tau := f3; cr_C := f4; cr_D := f1; cr_Delta := f2; cr_IP := f3; cr_Left := f1; cr_Right := f4; cr_L := [f2]; cr_R := [f3] |}.
Definition small_elements : proof_elements :=
  {| pe_T1 := f1; pe_T2 := f2; pe_Tau := f3; pe_C := f4; pe_D := f1; pe_Delta := f2; pe_InnerProduct := f3;
     pe_IPA := {| ipa_Left := Some f1; ipa_Right := Some f4; ipa_L := [Some f2]; ipa_R := [Some f3] |} |}.
Definition small_ts (bf v : F) : TypeAndSumProof :=
  {| tsp_CommitmentToType := Some f1; tsp_InputBlindingFactors := [Some bf]; tsp_InputValues := [Some v];
     tsp_Type := Some f1; tsp_TypeBlindingFactor := Some f1; tsp_EqualityOfSum := Some f1; tsp_Challenge := Some f4 |}.

(** A change of owner proved twice with one randomness, the second time with
    another answer of the oracle. *)
Definition ts_prover : TypeAndSumProver := honest_ts pp (str "EUR") [3%Z] [3%Z] [f1] [f2] (tokens [3%Z] [f1]).1 (tokens [3%Z] [f2]).1 f1 f3 f4.
Definition first_run : TypeAndSumProof := match TypeAndSum_Prove ts_prover (Ok (stream 4)) with Ok p => p | _ => small_ts f0 f0 end.
Definition other_answer : F := if decide (tsp_Challenge first_run = Some f1) then f2 else f1.
Definition second_run : TypeAndSumProof :=
  match ('(_, rnd) ← computeCommitments ts_prover (Ok (stream 4)); computeProof ts_prover rnd other_answer) with Ok p => p | _ => small_ts f0 f0 end.

(** A proof of types alone, made without any secret: the prover chooses the
    commitment to the type. *)
Definition st_prover : SameTypeProver := honest_st pp (str "EUR") f1 f3 f1.

Definition no_range : bytes := Eval vm_compute in
  match (st ← SameType_Prove st_prover (Ok (stream 4)); BulletProof_Serialize st []) with Ok b => b | _ => [] end.
Definition is_ok (r : res unit) : bool := match r with Ok _ => true | _ => false end.
Definition types_hold (r : res (wSameType * list (wRangeProofData * wIPA))) : bool :=
  match r with
  | Ok tp => is_ok (SameType_Validate tp.1) && is_ok (RangeCorrectness_Validate tp.2) &&
             match own_st tp.1 with Ok st => is_ok (SameType_Verify (zp_PedersenGenerators pp) st) | _ => false end
  | _ => false
  end.

Lemma is_ok_true r : is_ok r = true -> r = Ok tt.
Proof. by destruct r as [[]| |]. Qed.

Lemma types_hold_true r : types_hold r = true -> exists tp st, r = Ok tp /\ SameType_Validate tp.1 = Ok tt /\ RangeCorrectness_Validate tp.2 = Ok tt /\
  own_st tp.1 = Ok st /\ SameType_Verify (zp_PedersenGenerators pp) st = Ok tt.
Proof.
  destruct r as [tp| |]; try done. cbn [types_hold]. intros H. apply andb_true_iff in H as [[H1%is_ok_true H2%is_ok_true]%andb_true_iff H3].
  destruct (own_st tp.1) as [st| |] eqn:E; try done. apply is_ok_true in H3. by exists tp, st.
Qed.

Definition verified : res unit :=
  raw ← sent; v ← NewBulletProofVerifier (present_points ins.1) (present_points outs.1) pp; BulletProofVerifier_Verify v raw.
End Small.

Section Claims.
Context {CO : Curve} {CL : CurveLaws} {NA : Native} {NL : NativeLaws} {WI : Wire} {WL : WireLaws}.

Lemma foreign_points tokens i id b : tokens !! i = Some (Some (Foreign id b)) -> mapM point tokens = Panic.
Proof.
  revert i. induction tokens as [|t tokens IH]; intros [|i] Hi; try done; cbn in Hi; rewrite mapM_cons_res.
  - by injection Hi as ->.
  - destruct t as [[p|]|]; try done. cbn [point deref own mbind res_mbind]. by rewrite (IH i).
Qed.

(** C19: The proof system of transfers is complete: for tokens the library
    created with amounts of equal sum, outputs within the range, the prover
    returns bytes and the verifier built from the same public data accepts
    them; the exceptions are runs that meet a zero challenge or a point at
    infinity and encodings of 2 GiB. *)
Theorem transfer_proof_complete Zr_Uint pp p0 p1 p2 ps r type ivals ovals ibfs obfs inputs outputs inW outW rand rand' rands :
  params_present pp p0 p1 p2 ps r -> range_params r -> ivals <> [] ->
  GetTokensWithWitnessAndBF ivals ibfs type (zp_PedersenGenerators pp) = Ok (inputs, inW) ->
  GetTokensWithWitnessAndBF ovals obfs type (zp_PedersenGenerators pp) = Ok (outputs, outW) ->
  Forall (fun v => 0 <= v < two64)%Z ivals -> Forall (fun v => 0 <= v < 2 ^ Z.of_nat (rpp_BitLength r))%Z ovals ->
  foldr Z.add 0%Z ivals = foldr Z.add 0%Z ovals -> Forall (fun v => Zr_Uint (NewZrFromUint64 v) = Ok v) ovals ->
  (forall i, exists r r2, rands i = (Ok r, Ok r2)) ->
  exists p, NewBulletProofProver Zr_Uint (Ok rand) (Some <$> inW) (Some <$> outW) inputs outputs pp = Ok p /\
    (good_transfer_run p rands -> exists v raw, NewBulletProofVerifier (present_points inputs) (present_points outputs) pp = Ok v /\
       BulletProofProver_Prove p rands (Ok rand') = Ok raw /\ (small raw -> BulletProofVerifier_Verify v raw = Ok tt)).
Proof. apply transfer_completeness. Qed.

(** The proof system of issues is complete, in the same sense. *)
Theorem issue_proof_complete Zr_Uint pp p0 p1 p2 ps r type vals bfs tokens tw rand rand' rands :
  params_present pp p0 p1 p2 ps r -> range_params r -> vals <> [] ->
  GetTokensWithWitnessAndBF vals bfs type (zp_PedersenGenerators pp) = Ok (tokens, tw) ->
  Forall (fun v => 0 <= v < 2 ^ Z.of_nat (rpp_BitLength r))%Z vals -> Forall (fun v => Zr_Uint (NewZrFromUint64 v) = Ok v) vals ->
  (forall i, exists r r2, rands i = (Ok r, Ok r2)) ->
  exists p, NewIssueProver Zr_Uint (Ok rand) (Some <$> tw) tokens pp = Ok p /\
    (good_issue_run p rands -> exists v raw, NewIssueVerifier (present_points tokens) pp = Ok v /\
       IssueProver_Prove p rands (Ok rand') = Ok raw /\ (small raw -> IssueVerifier_Verify v raw = Ok tt)).
Proof. apply issue_completeness. Qed.

(** C24: No bytes make the verifiers of transfers and issues panic, whatever
    points of the curve the tokens are: decoding and validation catch nil pointers, elements of other
    curves and wrong lengths before the verifiers compute with them. *)
Theorem proof_verifiers_never_panic pp p0 p1 p2 ps r inputs outputs raw : params_present pp p0 p1 p2 ps r -> verifier_params_ok (rpp_BitLength r) ->
  (exists v, NewBulletProofVerifier (present_points inputs) (present_points outputs) pp = Ok v /\ BulletProofVerifier_Verify v raw <> Panic) /\
  (exists v, NewIssueVerifier (present_points outputs) pp = Ok v /\ IssueVerifier_Verify v raw <> Panic).
Proof. intros Hp Hv. split; [by eapply BulletProofVerifier_no_panic|by eapply IssueVerifier_no_panic]. Qed.

(** A token whose commitment is a point of another curve makes the verifier
    of an issue panic, for every proof that decodes and whose proof of types
    holds: nothing checks the curve of the tokens of an action before the
    verifier subtracts from them. *)
Theorem foreign_token_panics pp p0 p1 p2 ps r tokens i id b raw tp st :
  params_present pp p0 p1 p2 ps r -> tokens !! i = Some (Some (Foreign id b)) ->
  BulletProof_Deserialize raw = Ok tp -> SameType_Validate tp.1 = Ok tt -> RangeCorrectness_Validate tp.2 = Ok tt ->
  own_st tp.1 = Ok st -> SameType_Verify (zp_PedersenGenerators pp) st = Ok tt ->
  exists v, NewIssueVerifier tokens pp = Ok v /\ IssueVerifier_Verify v raw = Panic.
Proof.
  intros Hp Hi Hd Hs Hr Ho Hv. unfold NewIssueVerifier. rewrite (NewRangeCorrectnessVerifier_spec _ _ _ _ _ _ Hp). eexists. split; [done|].
  unfold IssueVerifier_Verify. rewrite Hd. cbn [join_err mbind res_mbind]. rewrite Hs, Hr. cbn [join_err mbind res_mbind]. rewrite Ho. cbn [mbind res_mbind isv_PedParams].
  rewrite Hv. cbn [join_err mbind res_mbind isv_Tokens]. by rewrite (foreign_points tokens i id b).
Qed.

(** C18: The proof of types and sums is special sound: from two accepted proofs
    with one first message and different challenges (the second from a run in
    which the hash answers otherwise) the extractor computes
    openings of all inputs to one type, the one committed to; any opening of the
    outputs to that type has the same sum, or yields the discrete logarithm of
    one Pedersen generator to the base of another.  The output of a change of
    owner (one input, one output), which has no range proof, opens to the amount
    of the input. *)
Theorem type_and_sum_special_sound v stp stp' h p0 p1 p2 ps : tsv_PedParams v = p0 :: p1 :: p2 :: ps ->
  TypeAndSum_Verify v stp = Ok tt -> TypeAndSum_Verify_with h v stp' = Ok tt ->
  tsp_CommitmentToType stp = tsp_CommitmentToType stp' -> ts_first_message v stp = ts_first_message v stp' -> tsp_Challenge stp <> tsp_Challenge stp' ->
  exists o, ts_extract stp stp' = Ok o /\
    tsp_CommitmentToType stp = Some (p0 ⋅ to_type o + p2 ⋅ to_typeBF o)%g1 /\
    opens p0 p1 p2 (to_type o) (to_values o) (to_bfs o) (tsv_Inputs v) /\
    (forall ys qs, opens p0 p1 p2 (to_type o) ys qs (tsv_Outputs v) -> zsum (to_values o) = zsum ys \/ p1 = (p2 ⋅ ts_dlog o ys qs)%g1) /\
    (forall input output, tsv_Inputs v = [input] -> tsv_Outputs v = [output] ->
       opens p0 p1 p2 (to_type o) (to_values o) ((fun r => r - to_sumBF o)%zr <$> to_bfs o) [output]).
Proof.
  intros Hps Hv Hv' Hc Hm Hne. apply (TypeAndSum_Verify_inv _ _ _ _ _ _ Hps) in Hv. apply (TypeAndSum_Verify_with_inv _ _ _ _ _ _ _ Hps) in Hv'.
  destruct (ts_extracted _ _ _ _ _ _ _ Hps Hv Hv' Hc Hm Hne) as (o & He & Ho & Hin & Hq). exists o. split_and!; [done..| |].
  - intros ys qs Hout. destruct (decide (zsum (to_values o) = zsum ys)); [by left|right]. by eapply ts_sum_sound.
  - intros input output Ei Eo. rewrite Ei in Hin, Hq. rewrite Eo in Hq. pose proof (length_opens _ _ _ _ _ _ _ Hin) as [L1 L2].
    destruct (to_values o) as [|x [|]]; [done| |done]. destruct (to_bfs o) as [|r [|]]; [done| |done]. by eapply ts_owner_change.
Qed.

(** C25: The native arithmetic of the range verifier and the generic one decide
    alike. *)
Theorem range_verifiers_agree v e x y z tr :
  cached_curve = true -> rpv_BitLength v = length (rpv_RightGenerators v) -> length (rpv_LeftGenerators v) = length (rpv_RightGenerators v) ->
  (1 <= length (rpv_RightGenerators v) <= NumBits)%nat -> y <> Zero ->
  nativeRPVerify v e x y z tr = genericRPVerify v e x (PowMod x Two) y z tr.
Proof. intros Hc Hb Hl Hn Hy. rewrite nativeRPVerify_spec by done. symmetry. by apply genericRPVerify_spec. Qed.

(** The butterfly computes, in native arithmetic where the curve has it,
    the scalar of every generator after all folding rounds and its inverse: the
    products of the challenges or their inverses along the bits of the index. *)
Theorem s_vector_exact xs : Forall (fun x => x <> Zero) xs ->
  ComputeSVector (2 ^ length xs) xs = Ok (sv ModMul One (with_inv xs), sv ModMul One (flip_pair <$> with_inv xs)).
Proof. apply ComputeSVector_spec. Qed.

(** Encoding and decoding the proof of a transfer is the identity on proofs
    whose elements are all present. *)
Theorem transfer_proof_roundtrip com ibf iv type tbf eqs chal cs : ibf <> [] -> iv <> [] -> Forall (fun c => cr_L c <> [] /\ cr_R c <> []) cs ->
  let ts := {| tsp_CommitmentToType := Some com; tsp_InputBlindingFactors := Some <$> ibf; tsp_InputValues := Some <$> iv;
               tsp_Type := Some type; tsp_TypeBlindingFactor := Some tbf; tsp_EqualityOfSum := Some eqs; tsp_Challenge := Some chal |} in
  exists raw, Proof_Serialize ts (Some (Some ∘ rp_of <$> cs)) = Ok raw /\
    (small raw -> exists w, Proof_Deserialize raw = Ok w /\ own_ts w.1 = Ok ts /\ own_rc w.2 = Ok (Some ∘ rp_of <$> cs)).
Proof.
  intros Hb Hv HF ts. destruct (TypeAndSumProof_read com ibf iv type tbf eqs chal Hb Hv) as (b & Hs & Nb & Hd).
  destruct (Proof_read ts b _ (Some cs) Hs Nb Hd) as (raw & Hraw & Hread); [by intros ? [= <-]|]. exists raw. split; [exact Hraw|].
  intros Hsm. eexists. split; [exact (Hread Hsm)|]. split; [apply own_ts_of|apply own_rc_of].
Qed.

End Claims.

(** ** The claims on the small curve *)

Section Witnesses.
Import F5 Small.

Lemma transfer_proof_complete_witness : verified = Ok tt.
Proof.
  destruct (transfer_proof_complete (CO := curve) (CL := laws) (NA := native) (NL := native_laws) (WI := wire) (WL := wire_laws) Zr_Uint pp f1 f2 f3 [] rpp (str "EUR") [2%Z; 1%Z] [3%Z] [f1; f4] [f2] ins.1 outs.1 ins.2 outs.2 (stream 1) (stream 4) (rands 2))
    as (p & Hp & H); [exact params|exact params_range|done|reflexivity|reflexivity|repeat constructor; done..|apply rands_ok|].
  assert (prover = Ok p) as Hp' by exact Hp. destruct (H (prover_good p Hp')) as (v & raw & Hv & Hprove & Hver).
  assert (sent = Ok raw) as Hs. { unfold sent. rewrite Hp'. exact Hprove. }
  unfold verified. rewrite Hs. cbn [mbind res_mbind]. rewrite Hv. exact (Hver (sent_small raw Hs)).
Defined.

Lemma issue_proof_complete_witness : exists v raw, NewIssueVerifier (present_points outs.1) pp = Ok v /\ issued = Ok raw /\ IssueVerifier_Verify v raw = Ok tt.
Proof.
  destruct (issue_proof_complete (CO := curve) (CL := laws) (NA := native) (NL := native_laws) (WI := wire) (WL := wire_laws)
    Zr_Uint pp f1 f2 f3 [] rpp (str "EUR") [3%Z] [f2] outs.1 outs.2 (stream 1) (stream 4) (rands 2))
    as (p & Hp & H); [exact params|exact params_range|done|reflexivity|repeat constructor; done..|apply rands_ok|].
  assert (issuer = Ok p) as Hp' by exact Hp. destruct (H (issuer_good p Hp')) as (v & raw & Hv & Hprove & Hver).
  assert (issued = Ok raw) as Hs. { unfold issued. rewrite Hp'. exact Hprove. }
  exists v, raw. split; [exact Hv|]. split; [exact Hs|]. exact (Hver (issued_small raw Hs)).
Defined.

Lemma proof_verifiers_never_panic_witness : exists v, NewBulletProofVerifier (present_points [f1]) (present_points [f2; f3]) pp = Ok v /\ BulletProofVerifier_Verify v (str "no proof") <> Panic.
Proof.
  destruct (proof_verifiers_never_panic (CO := curve) (CL := laws) (NA := native) (WI := wire) (WL := wire_laws)
    pp f1 f2 f3 [] rpp [f1] [f2; f3] (str "no proof")) as [H _]; [exact params|by left|]. exact H.
Defined.

Lemma foreign_token_panics_witness : exists v, NewIssueVerifier [Some (Foreign 2 (str "point"))] pp = Ok v /\ IssueVerifier_Verify v no_range = Panic.
Proof.
  destruct (types_hold_true (BulletProof_Deserialize no_range)) as (tp & st & Hd & Hs & Hr & Ho & Hv); [vm_compute; reflexivity|].
  exact (foreign_token_panics (CO := curve) (NA := native) (WI := wire)
    pp f1 f2 f3 [] rpp [Some (Foreign 2 (str "point"))] 0 2 (str "point") no_range tp st params eq_refl Hd Hs Hr Ho Hv).
Defined.

Lemma type_and_sum_special_sound_witness : exists o, ts_extract first_run second_run = Ok o /\
  opens f1 f2 f3 (to_type o) (to_values o) ((fun r => r - to_sumBF o)%zr <$> to_bfs o) (tsr_Outputs ts_prover).
Proof.
  destruct (type_and_sum_special_sound (CO := curve) (CL := laws) (ts_verifier_of ts_prover) first_run second_run (fun _ => other_answer) f1 f2 f3 [])
    as (o & He & _ & _ & _ & Ho); [reflexivity|vm_compute; reflexivity|vm_compute; reflexivity|vm_compute; reflexivity|vm_compute; reflexivity|vm_compute; discriminate|].
  exists o. split; [exact He|]. exact (Ho _ _ eq_refl eq_refl).
Defined.

Lemma range_verifiers_agree_witness : nativeRPVerify small_rpv small_elements f2 f3 f4 [] = genericRPVerify small_rpv small_elements f2 (PowMod f2 Two) f3 f4 [].
Proof.
  apply (range_verifiers_agree (CO := curve) (CL := laws) (NA := native) (NL := native_laws) small_rpv small_elements f2 f3 f4 []);
    [reflexivity|reflexivity|reflexivity|unfold NumBits; cbn; lia|discriminate].
Defined.

Lemma s_vector_exact_witness : ComputeSVector (CO := curve) (NA := native) 4 [f2; f3] = Ok ([f1; f4; f4; f1], [f1; f4; f4; f1]).
Proof.
  exact (s_vector_exact (CO := curve) (CL := laws) (NA := native) (NL := native_laws) [f2; f3] ltac:(repeat constructor; discriminate)).
Defined.

Lemma transfer_proof_roundtrip_witness : exists raw, Proof_Serialize (small_ts f2 f3) (Some (Some ∘ rp_of <$> [small_rp])) = Ok raw /\
  (small raw -> exists w, Proof_Deserialize raw = Ok w /\ own_ts w.1 = Ok (small_ts f2 f3) /\ own_rc w.2 = Ok (Some ∘ rp_of <$> [small_rp])).
Proof.
  exact (transfer_proof_roundtrip (CO := curve) (NA := native) (WI := wire) (WL := wire_laws)
    f1 [f2] [f3] f1 f1 f1 f4 [small_rp] ltac:(discriminate) ltac:(discriminate) ltac:(repeat constructor; discriminate)).
Defined.
End Witnesses.
