(* ===== verification/Csp.v ===== *)
(** * Compressed sigma protocol (core/zkatdlog/nogh/v1/crypto/rp/csp: csp.go,
      msm.go, errors.go and the CSP part of validation.go)

    The prover shows that a vector committed under the generators has a given
    value under a linear form, in logarithmically many rounds; the verifier
    replays the transcript and checks one multi-scalar multiplication.  The module
    holds the two, with the fast path of the first round and the shortened
    multiplication of the verifier, and the recursive protocol they implement. *)

From S2P Require Import Prelude GoStd Der Asn1 ZkMath ZkIpa ZkRange ZkSigma ZkCodec.
From Stdlib Require Import ZArith Lia Ring.

(** ** What the package uses of the curve library besides [Curve] *)

Class CspCurve `{!Curve, !Native, !Wire} := {
  GenG1 : G1;
  (** The order of the group, the modulus of the scalars. *)
  GroupOrder : Z;
  ModNeg : Zr -> Zr;
  (** [ModAddMul3]: the sum of three products. *)
  ModAddMul3 : Zr -> Zr -> Zr -> Zr -> Zr -> Zr -> Zr;
  Zr_IsZero : Zr -> bool;
  Zr_IsOne : Zr -> bool;
}.

(** The value of a big-endian byte string ([big.Int.SetBytes]). *)
Definition be_value (b : bytes) : Z := foldl (fun acc x => acc * 256 + b2z x)%Z 0%Z b.

Class CspLaws `{CO : Curve, NA : !Native, WI : !Wire, CC : !CspCurve} := {
  gen_finite : G1_IsInfinity GenG1 = false;
  infinity_spec p : G1_IsInfinity p = bool_decide (p = NewG1);
  zr_neg x : ModNeg x = Neg x;
  zr_addmul3 a b c d e f : ModAddMul3 a b c d e f = (a * b + c * d + e * f)%zr;
  zr_is_zero x : Zr_IsZero x = bool_decide (x = Zero);
  zr_is_one x : Zr_IsOne x = bool_decide (x = One);
  new_nonzero k : (0 < k < GroupOrder)%Z -> (k < two64)%Z -> NewZrFromUint64 k <> Zero;
  zr_bytes_value k : (0 <= k < GroupOrder)%Z -> (k < two64)%Z -> be_value (Zr_Bytes (NewZrFromUint64 k)) = k;
  zr_pow x n : (Z.of_nat n < GroupOrder)%Z -> (Z.of_nat n < two64)%Z -> PowMod x (NewZrFromUint64 (Z.of_nat n)) = zpow x n;
  native_int k : (0 <= k < 2 ^ 63)%Z -> NativeToZr (Fr_SetInt64 k) = NewZrFromUint64 k;
  native_int_neg k : (0 <= k < 2 ^ 63)%Z -> NativeToZr (Fr_SetInt64 (- k)) = (- NewZrFromUint64 k)%zr;
}.

(** ** errors.go *)

Definition ErrNilCommitment : error := EMsg "commitment cannot be nil".
Definition ErrNilValue : error := EMsg "value cannot be nil".
Definition ErrNilRandomness : error := EMsg "randomness cannot be nil".
Definition ErrInvalidLength : error := EMsg "invalid length".
Definition ErrInvalidBitCount : error := EMsg "invalid number of bits".
Definition ErrWrongCurveID : error := EMsg "wrong curve ID".

(** A pointer that must not be nil. *)
Definition present_or {A} (e : error) (o : option A) : res A :=
  match o with Some a => Ok a | None => Err e end.

(** [1 << k] on [int]: negative at 63 bits, zero above. *)
Definition shl1 (k : nat) : Z :=
  if (k <? 63)%nat then 2 ^ Z.of_nat k else if (k =? 63)%nat then - 2 ^ 63 else 0.

(** The messages of one folding round, and the slices of a proof on the wire
    ([None] is a nil slice). *)
Record csp_round `{!Curve} := {
  rd_Left : G1;
  rd_Right : G1;
  rd_VLeft : Zr;
  rd_VRight : Zr;
}.

Record csp_Proof `{!Curve} := {
  csp_Left : list G1;
  csp_Right : list G1;
  csp_VLeft : list Zr;
  csp_VRight : list Zr;
}.

Record wcsp_Proof `{!Curve} := {
  wcsp_Left : option (list (wire G1));
  wcsp_Right : option (list (wire G1));
  wcsp_VLeft : option (list (wire Zr));
  wcsp_VRight : option (list (wire Zr));
}.

Section Csp.
Context {CO : Curve} {NA : Native} {WI : Wire} {CC : CspCurve}.
Local Open Scope zr_scope.

(** ** msm.go: points and scalars have the same, non-zero length. *)
Definition smallMSM (points : list G1) (scalars : list Zr) : G1 :=
  match points, scalars with
  | [p], s :: _ => (p ⋅ s)%g1
  | [p; q], s :: t :: _ => Mul2 p s q t
  | _, _ => MultiScalarMul points scalars
  end.

(** ** The trailing run of equal points *)

(** [for start > 0 && points[start-1].Equals(points[n-1]) { start-- }]. *)
Fixpoint run_start (points : list G1) (lastPoint : G1) (start : nat) : nat :=
  match start with
  | O => O
  | S start' => if bool_decide (nth start' points NewG1 = lastPoint) then run_start points lastPoint start' else start
  end.

Definition collapseTrailingEqualPoints (points : list G1) (scalars : list Zr) : list G1 * list Zr :=
  let n := length points in
  if (n <? 2)%nat then (points, scalars) else
  let start := run_start points (nth (n - 1) points NewG1) (n - 1) in
  if (start =? n - 1)%nat then (points, scalars) else
  let sum := foldl ModAdd (nth start scalars Zero) (drop (S start) (take n scalars)) in
  (take (S start) points, take start scalars ++ [sum]).

(** ** The statement and its validation *)

Record csp_prover := {
  cp_Generators : list G1;
  cp_NumberOfRounds : nat;
  cp_Commitment : option G1;
  cp_LinearForm : list Zr;
  cp_Value : option Zr;
  cp_witness : list Zr;
  cp_realLen : nat;
  cp_TranscriptHeader : bytes;
}.

Record csp_verifier := {
  cv_Commitment : option G1;
  cv_Generators : list G1;
  cv_LinearForm : list Zr;
  cv_Value : option Zr;
  cv_NumberOfRounds : nat;
  cv_TranscriptHeader : bytes;
}.

Definition validateG1Slice (elements : option (list (wire G1))) (expectedLen : Z) : res unit :=
  l ← present_or (EMsg "cannot be nil") elements;
  reject_if ((0 <? expectedLen)%Z && negb (Z.of_nat (length l) =? expectedLen)%Z) (EWrap ErrInvalidLength "expected") ;;
  wrap "validation failed" (CheckElements l (length l)).

Definition validateZrSlice (elements : option (list (wire Zr))) (expectedLen : Z) : res unit :=
  l ← present_or (EMsg "cannot be nil") elements;
  reject_if ((0 <? expectedLen)%Z && negb (Z.of_nat (length l) =? expectedLen)%Z) (EWrap ErrInvalidLength "expected") ;;
  wrap "validation failed" (CheckZrElements l (length l)).

(** The vectors of a statement are present and of the curve of the public
    parameters, which is what [validateCurve] asks of the curve itself. *)
Definition validateCSPProverInputs (p : csp_prover) : res unit :=
  _ ← present_or ErrNilCommitment (cp_Commitment p);
  _ ← present_or ErrNilValue (cp_Value p);
  let expected := shl1 (cp_NumberOfRounds p) in
  validateG1Slice (Some (Own <$> cp_Generators p)) expected ;;
  validateZrSlice (Some (Own <$> cp_LinearForm p)) expected ;;
  validateZrSlice (Some (Own <$> cp_witness p)) expected.

Definition validateCSPVerifierInputs (v : csp_verifier) : res unit :=
  _ ← present_or ErrNilCommitment (cv_Commitment v);
  _ ← present_or ErrNilValue (cv_Value v);
  let expected := shl1 (cv_NumberOfRounds v) in
  validateG1Slice (Some (Own <$> cv_Generators v)) expected ;;
  validateZrSlice (Some (Own <$> cv_LinearForm v)) expected.

Definition maxCSPRounds : nat := 16.

Definition validateCSPProof (proof : wcsp_Proof) (expectedRounds : nat) : res unit :=
  lft ← present_or (EMsg "proof.Left cannot be nil") (wcsp_Left proof);
  reject_if (negb (length lft =? expectedRounds)%nat) (EWrap ErrInvalidLength "proof.Left") ;;
  rgt ← present_or (EMsg "proof.Right cannot be nil") (wcsp_Right proof);
  reject_if (negb (length rgt =? expectedRounds)%nat) (EWrap ErrInvalidLength "proof.Right") ;;
  wrap "proof.Left validation failed" (CheckElements lft expectedRounds) ;;
  wrap "proof.Right validation failed" (CheckElements rgt expectedRounds) ;;
  let vl := default [] (wcsp_VLeft proof) in
  let vr := default [] (wcsp_VRight proof) in
  reject_if (negb (length vl =? expectedRounds)%nat) (EWrap ErrInvalidLength "proof.VLeft") ;;
  reject_if (negb (length vr =? expectedRounds)%nat) (EWrap ErrInvalidLength "proof.VRight") ;;
  wrap "proof.VLeft validation failed" (CheckZrElements vl expectedRounds) ;;
  wrap "proof.VRight validation failed" (CheckZrElements vr expectedRounds) ;;
  reject_if (maxCSPRounds <? length lft)%nat (EWrap ErrInvalidLength "proof.Left exceeds maximum").

(** ** The transcript, the same for both sides *)

Definition csp_transcript (header : bytes) (com : G1) (lf : list Zr) (value : Zr) : bytes :=
  let tr := Absorb header (G1_Bytes com) in
  let tr := foldl (fun tr f => Absorb tr (Zr_Bytes f)) tr lf in
  Absorb tr (Zr_Bytes value).

Definition absorb_round (tr : bytes) (r : csp_round) : bytes :=
  Absorb (Absorb (Absorb (Absorb tr (G1_Bytes (rd_Left r))) (G1_Bytes (rd_Right r))) (Zr_Bytes (rd_VLeft r))) (Zr_Bytes (rd_VRight r)).

(** ** The prover *)

(** The cross terms of a round over vectors of length [2n]. *)
Definition round_full (n : nat) (gens : list G1) (lf wit : list Zr) : csp_round :=
  {| rd_Left := smallMSM (take n gens) (drop n wit);
     rd_Right := smallMSM (drop n gens) (take n wit);
     rd_VLeft := InnerProduct (take n lf) (drop n wit);
     rd_VRight := InnerProduct (drop n lf) (take n wit) |}.

(** The cross terms of the first round when the entries from [n + nzR] on are
    padding. *)
Definition round_fast (n nzR : nat) (gens : list G1) (lf wit : list Zr) : csp_round :=
  let tailSum := foldl ModAdd Zero (drop nzR (take n wit)) in
  {| rd_Left := smallMSM (take nzR gens) (take nzR (drop n wit));
     rd_Right := smallMSM (take nzR (drop n gens) ++ [GenG1]) (take nzR wit ++ [tailSum]);
     rd_VLeft := InnerProduct (take nzR lf) (take nzR (drop n wit));
     rd_VRight := InnerProduct (take nzR (drop n lf)) (take nzR wit) |}.

(** The loop over [j], writing the first half of each vector: below [nzR] the
    full fold, above it the fold with a padded partner. *)
Definition fold_generators (n nzR : nat) (c : Zr) (gens : list G1) : list G1 :=
  let cG := (GenG1 ⋅ c)%g1 in
  zip_with (fun l r => Mul2 l One r c) (take nzR (take n gens)) (take nzR (drop n gens))
  ++ ((fun l => l + cG)%g1 <$> drop nzR (take n gens)).

Definition fold_linearForm (n nzR : nat) (c : Zr) (lf : list Zr) : list Zr :=
  zip_with (fun l r => ModAddMul2 One l c r) (take nzR (take n lf)) (take nzR (drop n lf)) ++ drop nzR (take n lf).

Definition fold_witness (n nzR : nat) (c : Zr) (wit : list Zr) : list Zr :=
  zip_with (fun l r => ModAddMul2 c l r One) (take nzR (take n wit)) (take nzR (drop n wit))
  ++ ((fun l => c * l) <$> drop nzR (take n wit)).

(** [realLen] is the hint in the first round and 0 afterwards, which is never
    above [n]. *)
Fixpoint prove_rounds (k realLen : nat) (tr : bytes) (gens : list G1) (lf wit : list Zr) : list csp_round :=
  match k with
  | O => []
  | S k =>
      let n := (length gens / 2)%nat in
      let fastRound0 := ((n <? realLen) && (realLen <? length gens))%nat in
      let nzR := if fastRound0 then (realLen - n)%nat else n in
      let r := if fastRound0 then round_fast n nzR gens lf wit else round_full n gens lf wit in
      let '(c, tr) := Squeeze (absorb_round tr r) in
      r :: prove_rounds k 0 tr (fold_generators n nzR c gens) (fold_linearForm n nzR c lf) (fold_witness n nzR c wit)
  end.

Definition proof_of_rounds (rs : list csp_round) : csp_Proof :=
  {| csp_Left := rd_Left <$> rs; csp_Right := rd_Right <$> rs; csp_VLeft := rd_VLeft <$> rs; csp_VRight := rd_VRight <$> rs |}.

Definition csp_Prove (p : csp_prover) : res csp_Proof :=
  wrap "invalid CSP prover inputs" (validateCSPProverInputs p) ;;
  reject_if (length (cp_TranscriptHeader p) =? 0)%nat (EMsg "invalid transcript header") ;;
  com ← deref (cp_Commitment p);
  value ← deref (cp_Value p);
  let tr := csp_transcript (cp_TranscriptHeader p) com (cp_LinearForm p) value in
  Ok (proof_of_rounds (prove_rounds (cp_NumberOfRounds p) (cp_realLen p) tr (cp_Generators p) (cp_LinearForm p) (cp_witness p))).

(** ** The verifier *)

(** The loop that recomputes the challenges and folds the value. *)
Fixpoint replay (tr : bytes) (val : Zr) (rs : list csp_round) : list Zr * Zr :=
  match rs with
  | [] => ([], val)
  | r :: rs =>
      let '(c, tr) := Squeeze (absorb_round tr r) in
      let val := ModAddMul3 c val (rd_VLeft r) One (c * c) (rd_VRight r) in
      let '(cs, v) := replay tr val rs in (c :: cs, v)
  end.

(** [suffProd[k-1] = 1], [suffProd[i] = suffProd[i+1] * challenges[i+1]]. *)
Fixpoint suffix_products (cs : list Zr) : list Zr :=
  match cs with
  | [] => []
  | _ :: rest =>
      let ss := suffix_products rest in
      match rest, ss with
      | c1 :: _, s1 :: ss => s1 * c1 :: s1 :: ss
      | _, _ => [One]
      end
  end.

(** The scalars of [Left[i]] and [Right[i]], in turn. *)
Fixpoint com_scalars (cs suff : list Zr) : list Zr :=
  match cs, suff with
  | c :: cs, s :: suff => s :: (c * c) * s :: com_scalars cs suff
  | _, _ => []
  end.

Definition com_points (rs : list csp_round) : list G1 := concat ((fun r => [rd_Left r; rd_Right r]) <$> rs).

(** ** The vector of folded coefficients *)

Definition sVector_entry (halfLen : nat) (c : Zr) (s : list Zr) (i : nat) : res (list Zr) :=
  a ← index s i;
  set_index s (i + halfLen) (a * c).

Definition sVector_round (challenges : list Zr) (s : list Zr) (r : nat) : res (list Zr) :=
  let halfLen := (2 ^ r)%nat in
  c ← index challenges (length challenges - 1 - r);
  foldR (sVector_entry halfLen c) s (seq 0 halfLen).

Definition sVector (n : nat) (challenges : list Zr) : res (list Zr) :=
  s ← set_index (replicate n Zero) 0 One;
  foldR (sVector_round challenges) s (seq 0 (length challenges)).

(** The rounds of a proof whose slices have the same length and hold elements
    of the curve. *)
Fixpoint rounds_of (ls rs : list G1) (vls vrs : list Zr) : list csp_round :=
  match ls, rs, vls, vrs with
  | l :: ls, r :: rs, vl :: vls, vr :: vrs => {| rd_Left := l; rd_Right := r; rd_VLeft := vl; rd_VRight := vr |} :: rounds_of ls rs vls vrs
  | _, _, _, _ => []
  end.

Definition owns {T} (o : option (list (wire T))) : res (list T) := mapM own (default [] o).

Definition own_rounds (proof : wcsp_Proof) : res (list csp_round) :=
  ls ← owns (wcsp_Left proof);
  rs ← owns (wcsp_Right proof);
  vls ← owns (wcsp_VLeft proof);
  vrs ← owns (wcsp_VRight proof);
  Ok (rounds_of ls rs vls vrs).

(** The final check, one multi-scalar multiplication. *)
Definition csp_check (com : G1) (gens : list G1) (lf : list Zr) (rs : list csp_round) (challenges : list Zr) (val : Zr) : res unit :=
  let suffProd := suffix_products challenges in
  (* suffProd[k-1] panics without a round *)
  c0 ← index challenges 0;
  s0 ← index suffProd 0;
  let comPoints := com :: com_points rs in
  let comScalars := c0 * s0 :: com_scalars challenges suffProd in
  s ← sVector (2 ^ length challenges) challenges;
  let fF := InnerProduct s lf in
  let '(genPoints, genScalars) := collapseTrailingEqualPoints gens s in
  let negVal := ModNeg val in
  let allPoints := comPoints ++ genPoints in
  let allScalars := ((fun x => x * fF) <$> comScalars) ++ ((fun x => x * negVal) <$> genScalars) in
  if G1_IsInfinity (smallMSM allPoints allScalars) then Ok tt else Err (EMsg "CSP proof verification failed").

Definition csp_Verify (v : csp_verifier) (proof : wcsp_Proof) : res unit :=
  wrap "invalid CSP verifier inputs" (validateCSPVerifierInputs v) ;;
  wrap "invalid CSP proof" (validateCSPProof proof (cv_NumberOfRounds v)) ;;
  reject_if (length (cv_TranscriptHeader v) =? 0)%nat (EMsg "invalid transcript header") ;;
  com ← deref (cv_Commitment v);
  value ← deref (cv_Value v);
  rs ← own_rounds proof;
  let tr := csp_transcript (cv_TranscriptHeader v) com (cv_LinearForm v) value in
  let '(challenges, val) := replay tr value rs in
  csp_check com (cv_Generators v) (cv_LinearForm v) rs challenges val.

End Csp.
