(* ===== verification/CspFold.v ===== *)
(** * What the compressed sigma protocol computes

    The recursive protocol behind [Csp]: one round folds the generators, the
    linear form, the commitment and the value with a challenge, the last one
    compares two points.  The verifier's single multiplication decides exactly
    this protocol, the fast first round of the prover gives the same messages as
    the full one, an honest run is accepted, and a tree of accepted runs with
    three challenges per round yields the witness. *)

From S2P Require Import Prelude GoStd Der Asn1 ZkMath ZkIpa ZkRange ZkSigma ZkCodec ZkTransfer Csp.
From Stdlib Require Import ZArith Lia Ring.

Section Fold.
Context {CO : Curve} {CL : CurveLaws} {NA : Native} {WI : Wire} {CC : CspCurve} {CP : CspLaws}.
Add Ring zr_csp : zr_ring.
Local Open Scope zr_scope.

(** ** The recursive protocol *)

Definition foldG (c : Zr) (g : list G1) : list G1 :=
  let n := (length g / 2)%nat in zip_with (fun l r => l + r ⋅ c)%g1 (take n g) (drop n g).
Definition foldF (c : Zr) (f : list Zr) : list Zr :=
  let n := (length f / 2)%nat in zip_with (fun l r => l + c * r) (take n f) (drop n f).
Definition foldW (c : Zr) (w : list Zr) : list Zr :=
  let n := (length w / 2)%nat in zip_with (fun l r => c * l + r) (take n w) (drop n w).

Definition fold_com (c : Zr) (r : csp_round) (com : G1) : G1 := (com ⋅ c + rd_Left r + rd_Right r ⋅ (c * c))%g1.
Definition fold_val (c : Zr) (r : csp_round) (val : Zr) : Zr := val * c + rd_VLeft r + c * c * rd_VRight r.

(** What the verifier has to check of a statement, given the messages and the
    challenge of each round. *)
Fixpoint csp_accepts (rs : list (csp_round * Zr)) (com : G1) (val : Zr) (gens : list G1) (lf : list Zr) : Prop :=
  match rs with
  | [] => match gens, lf with
          | [g], [f] => (com ⋅ f = g ⋅ val)%g1
          | _, _ => False
          end
  | (r, c) :: rs => csp_accepts rs (fold_com c r com) (fold_val c r val) (foldG c gens) (foldF c lf)
  end.

(** The honest messages of a round. *)
Definition honest_round (gens : list G1) (lf wit : list Zr) : csp_round :=
  let n := (length gens / 2)%nat in
  {| rd_Left := msm (take n gens) (drop n wit); rd_Right := msm (drop n gens) (take n wit);
     rd_VLeft := ip (take n lf) (drop n wit); rd_VRight := ip (drop n lf) (take n wit) |}.

(** ** Multi-scalar multiplication *)

Lemma smallMSM_spec ps ss : length ps = length ss -> smallMSM ps ss = msm ps ss.
Proof.
  destruct ps as [|p [|q [|? ?]]], ss as [|s [|t [|? ?]]]; intros H; try discriminate H; cbn [smallMSM]; try (by apply g1_msm).
  - rewrite msm_cons. symmetry. apply g1_zero_r.
  - rewrite g1_mul2, !msm_cons. f_equal. symmetry. apply g1_zero_r.
Qed.

Lemma InnerProduct_spec l r : length l = length r -> InnerProduct l r = ip l r.
Proof. apply zr_addmul. Qed.

Lemma foldl_ModAdd l : forall a, foldl ModAdd a l = a + zsum l.
Proof. induction l as [|x l IH]; intros a; cbn [foldl]; rewrite ?IH, ?zsum_cons, ?zsum_nil; ring. Qed.

(** A run of one point costs one multiplication. *)
Lemma msm_run ps : forall ss g, length ps = length ss -> Forall (fun p => p = g) ps -> msm ps ss = (g ⋅ zsum ss)%g1.
Proof.
  induction ps as [|p ps IH]; intros [|s ss] g Hl HF; try done; [symmetry; apply g1_mul_zero|].
  apply Forall_cons in HF as [-> HF]. rewrite msm_cons, (IH ss g), zsum_cons, g1_mul_add by (cbn in Hl; auto with lia). done.
Qed.

Lemma run_start_spec points lst : forall start, (start <= length points)%nat ->
  (run_start points lst start <= start)%nat /\ forall j, (run_start points lst start <= j < start)%nat -> points !! j = Some lst.
Proof.
  induction start as [|s IH]; intros Hs; [split; [done|lia]|]. cbn [run_start]. case_bool_decide as E; [|split; [done|lia]].
  destruct IH as [IH1 IH2]; [lia|]. split; [lia|]. intros j Hj. destruct (decide (j = s)) as [->|]; [|apply IH2; lia].
  destruct (lookup_lt_is_Some_2 points s) as [x Hx]; [lia|]. rewrite Hx. f_equal. rewrite <- E, nth_lookup, Hx. done.
Qed.

(** Folding the trailing run of equal points leaves the sum unchanged. *)
Lemma collapse_msm points scalars : length scalars = length points ->
  let '(ps, ss) := collapseTrailingEqualPoints points scalars in length ps = length ss /\ msm ps ss = msm points scalars.
Proof.
  intros Hl. unfold collapseTrailingEqualPoints. set (n := length points). assert (n = length points) as Hn by done. set (lst := nth (n - 1) points NewG1).
  destruct (Nat.ltb_spec n 2); [done|]. destruct (run_start_spec points lst (n - 1)) as [H1 H2]; [lia|]. set (start := run_start points lst (n - 1)) in *.
  destruct (Nat.eqb_spec start (n - 1)); [done|]. rewrite (take_ge scalars n) by lia.
  destruct (lookup_lt_is_Some_2 scalars start) as [s Hs]; [lia|]. rewrite nth_lookup, Hs. cbn [default]. rewrite foldl_ModAdd.
  assert (Forall (fun p => p = lst) (drop start points)) as HF.
  { apply Forall_forall. intros p (j & Hj)%list_elem_of_lookup. rewrite lookup_drop in Hj.
    pose proof (lookup_lt_Some _ _ _ Hj). destruct (decide (start + j = n - 1)%nat) as [E|].
    - unfold lst. by rewrite <- E, nth_lookup, Hj.
    - rewrite H2 in Hj by lia. by injection Hj. }
  split; [rewrite length_app, !length_take; cbn [length]; lia|].
  rewrite <- (take_drop start points) at 2. rewrite <- (take_drop start scalars) at 3.
  rewrite msm_app by (rewrite !length_take; lia). rewrite (msm_run (drop start points) _ lst) by (rewrite ?length_drop; auto with lia).
  rewrite (drop_S scalars s start Hs), zsum_cons.
  destruct (lookup_lt_is_Some_2 points start) as [p Hp]; [lia|]. rewrite (take_S_r points start p Hp), msm_app by (rewrite !length_take; lia).
  assert (p = lst) as ->. { rewrite H2 in Hp by lia. by injection Hp. } rewrite msm_cons. f_equal. apply g1_zero_r.
Qed.

(** ** The vector of folded coefficients *)

(** The first challenge is the highest bit of the index. *)
Fixpoint csv (cs : list Zr) : list Zr :=
  match cs with
  | [] => [One]
  | c :: cs => csv cs ++ ((fun a => a * c) <$> csv cs)
  end.

Lemma length_csv cs : length (csv cs) = (2 ^ length cs)%nat.
Proof. induction cs as [|c cs IH]; [done|]. cbn [csv length]. rewrite length_app, length_fmap, IH, Nat.pow_succ_r'. lia. Qed.

Lemma sVector_entries half c s : forall k, (k <= half)%nat -> (2 * half <= length s)%nat ->
  exists s', foldR (sVector_entry half c) s (seq 0 k) = Ok s' /\ length s' = length s /\
    forall j, s' !! j = (if ((half <=? j) && (j <? half + k))%nat then (fun a => a * c) <$> s !! (j - half)%nat else s !! j).
Proof.
  induction k as [|k IH]; intros Hk Hs.
  { exists s. repeat split. intros j. destruct (Nat.leb_spec half j), (Nat.ltb_spec j (half + 0)); cbn; [lia|done..]. }
  destruct IH as (s1 & H1 & Hlen & Hl); [lia..|]. rewrite seq_S, foldR_app, H1. cbn [mbind res_mbind foldR Nat.add].
  destruct (lookup_lt_is_Some_2 s k) as [a Ha]; [lia|].
  assert (s1 !! k = Some a) as Hka. { rewrite Hl. destruct (Nat.leb_spec half k); [lia|]. done. }
  unfold sVector_entry, index, set_index. rewrite Hka. cbn [mbind res_mbind].
  destruct (Nat.ltb_spec (k + half) (length s1)); [|lia]. cbn [mbind res_mbind]. eexists. split; [reflexivity|]. rewrite length_insert. split; [done|].
  intros j. destruct (decide (j = k + half)%nat) as [->|Hj].
  - rewrite list_lookup_insert_eq by lia. destruct (Nat.leb_spec half (k + half)); [|lia]. destruct (Nat.ltb_spec (k + half) (half + S k)); [|lia].
    cbn [andb]. replace (k + half - half)%nat with k by lia. by rewrite Ha.
  - rewrite list_lookup_insert_ne by done. rewrite Hl. destruct (Nat.leb_spec half j); [|done]. cbn [andb].
    destruct (Nat.ltb_spec j (half + k)), (Nat.ltb_spec j (half + S k)); try lia; done.
Qed.

Lemma sVector_doubles half c s : (2 * half <= length s)%nat ->
  exists s', foldR (sVector_entry half c) s (seq 0 half) = Ok s' /\ length s' = length s /\
    take (2 * half) s' = take half s ++ ((fun a => a * c) <$> take half s).
Proof.
  intros Hs. destruct (sVector_entries half c s half) as (s' & H & Hlen & Hl); [lia..|]. exists s'. split_and!; [done..|].
  apply list_eq. intros j. destruct (Nat.ltb_spec j (2 * half)).
  - rewrite lookup_take_lt, Hl by done. destruct (Nat.leb_spec half j).
    + destruct (Nat.ltb_spec j (half + half)); [|lia]. cbn [andb]. rewrite lookup_app_r by (rewrite length_take; lia).
      rewrite length_take, Nat.min_l, list_lookup_fmap, lookup_take_lt by lia. done.
    + cbn [andb]. rewrite lookup_app_l, lookup_take_lt by (rewrite ?length_take; lia). done.
  - rewrite lookup_take_ge by done. symmetry. apply lookup_ge_None. rewrite length_app, !length_fmap, length_take. lia.
Qed.

Lemma sVector_spec cs : sVector (2 ^ length cs) cs = Ok (csv cs).
Proof.
  set (k := length cs). assert (k = length cs) as Hk by done. unfold sVector, set_index. rewrite length_replicate. pose proof (Nat.pow_nonzero 2 k ltac:(lia)) as Hpos.
  destruct (Nat.ltb_spec 0 (2 ^ k)); [|lia]. cbn [mbind res_mbind]. fold k. set (s0 := <[0 := One]> (replicate (2 ^ k) Zero)).
  assert (forall r, (r <= k)%nat -> exists s, foldR (sVector_round cs) s0 (seq 0 r) = Ok s /\ length s = (2 ^ k)%nat /\ take (2 ^ r) s = csv (drop (k - r) cs)) as Hall.
  { induction r as [|r IH]; intros Hr.
    - exists s0. split; [done|]. rewrite Nat.sub_0_r, drop_ge by lia. unfold s0. rewrite length_insert, length_replicate. split; [done|].
      destruct (2 ^ k)%nat; [lia|]. done.
    - destruct IH as (s & Hf & Hs & Hsv); [lia|]. destruct (lookup_lt_is_Some_2 cs (k - 1 - r)) as [c Hc]; [lia|].
      assert (2 * 2 ^ r <= 2 ^ k)%nat as Hpow by (rewrite <- Nat.pow_succ_r'; apply Nat.pow_le_mono_r; lia).
      destruct (sVector_doubles (2 ^ r) c s) as (s' & Hs' & Hls & Hts); [lia|].
      exists s'. rewrite seq_S, foldR_app, Hf. cbn [mbind res_mbind foldR Nat.add]. split; [|split; [lia|]].
      + unfold sVector_round. fold k. rewrite (index_Some _ _ _ Hc). cbn [mbind res_mbind]. by rewrite Hs'.
      + rewrite Nat.pow_succ_r', Hts, Hsv. replace (k - r)%nat with (S (k - S r)) by lia. rewrite (drop_S cs c (k - S r)); [done|].
        by replace (k - S r)%nat with (k - 1 - r)%nat by lia. }
  destruct (Hall k) as (s & Hf & Hs & Hsv); [lia|]. rewrite Nat.sub_diag, take_ge in Hsv by lia. rewrite Hf, Hsv. done.
Qed.

Lemma half_pow {A} (l : list A) k : length l = (2 ^ S k)%nat -> (length l / 2 = 2 ^ k)%nat.
Proof. intros ->. rewrite Nat.pow_succ_r', Nat.mul_comm, Nat.div_mul; lia. Qed.

Lemma length_foldG c g k : length g = (2 ^ S k)%nat -> length (foldG c g) = (2 ^ k)%nat.
Proof. intros H. unfold foldG. rewrite (half_pow g k H), length_zip_with, length_take, length_drop, H, Nat.pow_succ_r'. lia. Qed.

Lemma length_foldF c f k : length f = (2 ^ S k)%nat -> length (foldF c f) = (2 ^ k)%nat.
Proof. intros H. unfold foldF. rewrite (half_pow f k H), length_zip_with, length_take, length_drop, H, Nat.pow_succ_r'. lia. Qed.

Lemma length_foldW c w k : length w = (2 ^ S k)%nat -> length (foldW c w) = (2 ^ k)%nat.
Proof. intros H. unfold foldW. rewrite (half_pow w k H), length_zip_with, length_take, length_drop, H, Nat.pow_succ_r'. lia. Qed.

(** Splitting a vector in two halves. *)
Lemma halves {A} (l : list A) k : length l = (2 ^ S k)%nat ->
  exists a b, l = a ++ b /\ length a = (2 ^ k)%nat /\ length b = (2 ^ k)%nat /\ take (length l / 2) l = a /\ drop (length l / 2) l = b.
Proof.
  intros H. exists (take (2 ^ k) l), (drop (2 ^ k) l). rewrite (half_pow l k H), take_drop, length_take, length_drop, H, Nat.pow_succ_r'. split_and!; auto with lia.
Qed.

Lemma msm_foldG c a : forall b s, length a = length b -> length s = length b ->
  msm (zip_with (fun l r => l + r ⋅ c)%g1 a b) s = (msm a s + msm b s ⋅ c)%g1.
Proof.
  induction a as [|x a IH]; intros [|y b] [|z s]; try done; cbn [length]; intros H1 H2.
  - cbn. linear.
  - cbn [zip_with]. rewrite !msm_cons, IH by lia. linear.
Qed.

Lemma ip_foldF c a : forall b s, length a = length b -> length s = length b ->
  ip (zip_with (fun l r => l + c * r) a b) s = ip a s + c * ip b s.
Proof.
  induction a as [|x a IH]; intros [|y b] [|z s]; try done; cbn [length]; intros H1 H2.
  - change (Zero = Zero + c * Zero). ring.
  - cbn [zip_with]. rewrite !ip_cons, IH by lia. ring.
Qed.

Lemma msm_csv c cs g : length g = (2 ^ S (length cs))%nat -> msm g (csv (c :: cs)) = msm (foldG c g) (csv cs).
Proof.
  intros H. destruct (halves g _ H) as (a & b & -> & Ha & Hb & Et & Ed). unfold foldG. rewrite Et, Ed, msm_foldG by (rewrite ?length_csv; lia).
  cbn [csv]. rewrite msm_app by (rewrite length_csv; lia). by rewrite msm_scale.
Qed.

Lemma ip_csv c cs f : length f = (2 ^ S (length cs))%nat -> ip f (csv (c :: cs)) = ip (foldF c f) (csv cs).
Proof.
  intros H. destruct (halves f _ H) as (a & b & -> & Ha & Hb & Et & Ed). unfold foldF. rewrite Et, Ed, ip_foldF by (rewrite ?length_csv; lia).
  cbn [csv]. rewrite ip_app by (rewrite length_csv; lia). rewrite (ip_comm b (_ <$> _)), ip_scale_l, (ip_comm (csv cs) b). ring.
Qed.

(** ** The final check decides the protocol *)

Fixpoint fold_coms (rs : list (csp_round * Zr)) (com : G1) : G1 :=
  match rs with [] => com | (r, c) :: rs => fold_coms rs (fold_com c r com) end.
Fixpoint fold_vals (rs : list (csp_round * Zr)) (val : Zr) : Zr :=
  match rs with [] => val | (r, c) :: rs => fold_vals rs (fold_val c r val) end.

Lemma accepts_equation rs : forall com val gens lf, length gens = (2 ^ length rs)%nat -> length lf = (2 ^ length rs)%nat ->
  csp_accepts rs com val gens lf <-> (fold_coms rs com ⋅ ip lf (csv rs.*2) = msm gens (csv rs.*2) ⋅ fold_vals rs val)%g1.
Proof.
  induction rs as [|[r c] rs IH]; intros com val gens lf Hg Hf.
  - cbn in Hg, Hf. destruct gens as [|g [|]], lf as [|f [|]]; try done. cbn [csp_accepts fold_coms fold_vals fmap list_fmap csv].
    rewrite msm_cons, ip_cons, g1_mul_one. change (msm [] []) with NewG1. change (ip [] []) with Zero. rewrite g1_zero_r.
    replace (f * One + Zero) with f by ring. done.
  - cbn [length] in Hg, Hf. cbn [csp_accepts fold_coms fold_vals]. rewrite fmap_cons. cbn [snd].
    rewrite (msm_csv c), (ip_csv c) by (by rewrite length_fmap). apply IH; [by apply length_foldG|by apply length_foldF].
Qed.

Definition zprod (l : list Zr) : Zr := foldr ModMul One l.

Lemma suffix_products_cons c cs : suffix_products (c :: cs) = zprod cs :: suffix_products cs.
Proof.
  revert c. induction cs as [|c1 cs IH]; intros c; [done|]. cbn [suffix_products] in IH |- *. rewrite (IH c1). f_equal.
  change (zprod cs * c1 = c1 * zprod cs). ring.
Qed.

Lemma fold_coms_msm rs : forall com, fold_coms rs com
  = (com ⋅ zprod rs.*2 + msm (com_points rs.*1) (com_scalars rs.*2 (suffix_products rs.*2)))%g1.
Proof.
  induction rs as [|[r c] rs IH]; intros com.
  - cbn. rewrite g1_mul_one. change (com = (com + NewG1)%g1). by rewrite g1_zero_r.
  - cbn [fold_coms]. rewrite IH. rewrite !fmap_cons. cbn [fst snd]. rewrite suffix_products_cons. cbn [com_scalars]. unfold com_points. cbn [fmap list_fmap concat app].
    rewrite !msm_cons. change (zprod (c :: rs.*2)) with (c * zprod rs.*2). fold (com_points rs.*1). unfold fold_com. linear.
Qed.

Lemma length_com_scalars cs : forall suff, length suff = length cs -> length (com_scalars cs suff) = (2 * length cs)%nat.
Proof. induction cs as [|c cs IH]; intros [|s suff]; try done. cbn [length com_scalars]. intros [=H]. rewrite IH by done. lia. Qed.

Lemma length_suffix cs : length (suffix_products cs) = length cs.
Proof. induction cs as [|c cs IH]; [done|]. rewrite suffix_products_cons. cbn. by f_equal. Qed.

Lemma length_com_points rs : length (com_points rs) = (2 * length rs)%nat.
Proof. induction rs as [|r rs IH]; [done|]. unfold com_points in *. cbn [fmap list_fmap concat length app] in *. rewrite IH. lia. Qed.

Lemma cancel_points (a b : G1) (x y : Zr) : (a ⋅ x + b ⋅ (- y) = NewG1)%g1 <-> (a ⋅ x = b ⋅ y)%g1.
Proof.
  split; intros H.
  - transitivity (a ⋅ x + b ⋅ (- y) + b ⋅ y)%g1; [linear|]. rewrite H. apply g1_zero.
  - rewrite H. linear.
Qed.

(** The single multiplication of the verifier accepts exactly when the rounds,
    played one after the other, end in the equation of the last statement. *)
Lemma csp_check_exact com gens lf rs cs val : cs <> [] -> length rs = length cs ->
  length gens = (2 ^ length cs)%nat -> length lf = (2 ^ length cs)%nat ->
  csp_check com gens lf rs cs (fold_vals (zip rs cs) val) = Ok tt <-> csp_accepts (zip rs cs) com val gens lf.
Proof.
  intros Hne Hl Hg Hf. assert (length (zip rs cs) = length cs) as Hz by (rewrite length_zip_with; lia).
  rewrite accepts_equation, fold_coms_msm by (by rewrite Hz). rewrite fst_zip, snd_zip by lia. set (v := fold_vals _ _). unfold csp_check.
  destruct cs as [|c0 cs']; [done|]. set (cs := c0 :: cs') in *. rewrite (index_nth cs 0 Zero) by (cbn; lia). cbn [mbind res_mbind].
  rewrite (index_nth (suffix_products cs) 0 Zero) by (rewrite length_suffix; cbn; lia). cbn [mbind res_mbind]. rewrite sVector_spec. cbn [mbind res_mbind].
  pose proof (collapse_msm gens (csv cs) ltac:(rewrite length_csv; done)) as Hcol. destruct (collapseTrailingEqualPoints gens (csv cs)) as [gp gs]. destruct Hcol as [Hgl Hgm].
  assert (nth 0 cs Zero * nth 0 (suffix_products cs) Zero = zprod cs) as Hp by (unfold cs; by rewrite suffix_products_cons).
  rewrite smallMSM_spec, infinity_spec.
  2:{ rewrite !length_app, !length_fmap. cbn [length]. rewrite length_com_points, length_com_scalars by apply length_suffix. lia. }
  rewrite msm_app by (cbn [length]; rewrite length_fmap; cbn [length]; rewrite length_com_points, length_com_scalars by apply length_suffix; lia).
  rewrite !msm_scale, Hgm, Hp, msm_cons, zr_neg, InnerProduct_spec, (ip_comm (csv cs)) by (rewrite length_csv; done).
  rewrite <- cancel_points. by case_bool_decide.
Qed.

(** ** The challenges the verifier recomputes *)

Fixpoint fs_challenges (tr : bytes) (rs : list csp_round) : list Zr :=
  match rs with
  | [] => []
  | r :: rs => let '(c, tr) := Squeeze (absorb_round tr r) in c :: fs_challenges tr rs
  end.

Lemma length_fs tr rs : length (fs_challenges tr rs) = length rs.
Proof. revert tr. induction rs as [|r rs IH]; intros tr; [done|]. cbn [fs_challenges]. destruct (Squeeze _) as [c tr']. cbn. by f_equal. Qed.

Lemma replay_spec rs : forall tr val, replay tr val rs = (fs_challenges tr rs, fold_vals (zip rs (fs_challenges tr rs)) val).
Proof.
  induction rs as [|r rs IH]; intros tr val; [done|]. cbn [replay fs_challenges]. destruct (Squeeze _) as [c tr']. rewrite IH. cbn [zip_with fold_vals].
  do 3 f_equal. unfold fold_val. rewrite zr_addmul3. ring.
Qed.

(** ** Validated statements and proofs *)

Lemma then_Ok (m f : res unit) : (m ;; f) = Ok tt <-> m = Ok tt /\ f = Ok tt.
Proof. rewrite res_bind_Ok. split; [by intros ([] & ? & ?)|intros [? ?]; by exists tt]. Qed.

Lemma present_Ok {A B} e (o : option A) (f : A -> res B) b : (a ← present_or e o; f a) = Ok b <-> exists a, o = Some a /\ f a = Ok b.
Proof. destruct o; cbn; naive_solver. Qed.

Lemma CheckElements_exact l n : CheckElements l n = Ok tt <-> exists ps, l = Own <$> ps /\ length ps = n /\ Forall finite ps.
Proof.
  split.
  - intros H. pose proof (CheckElements_Ok _ _ H) as [Hl [ps ->]]. rewrite length_fmap in Hl. exists ps. split_and!; [done..|].
    unfold CheckElements in H. rewrite length_fmap, Hl, Nat.eqb_refl in H. cbn [negb] in H. rewrite rangeR_Ok in H.
    apply Forall_lookup. intros i p Hp. specialize (H i (Own p)). rewrite list_lookup_fmap, Hp in H. specialize (H eq_refl).
    apply CheckElement_Ok in H as (q & Hq & Hf). by injection Hq as ->.
  - intros (ps & -> & <- & HF). rewrite <- (length_fmap Own ps). by apply CheckElements_Own.
Qed.

Lemma CheckZrElements_exact l n : CheckZrElements l n = Ok tt <-> exists zs, l = Own <$> zs /\ length zs = n.
Proof.
  split.
  - intros [Hl [zs ->]]%CheckZrElements_Ok. rewrite length_fmap in Hl. by exists zs.
  - intros (zs & -> & Hl). by apply CheckZrElements_Own.
Qed.

(** The proof that carries these messages. *)
Definition wire_proof (rs : list csp_round) : wcsp_Proof :=
  {| wcsp_Left := Some (Own <$> (rd_Left <$> rs)); wcsp_Right := Some (Own <$> (rd_Right <$> rs));
     wcsp_VLeft := Some (Own <$> (rd_VLeft <$> rs)); wcsp_VRight := Some (Own <$> (rd_VRight <$> rs)) |}.

(** A proof carries these messages, up to a nil slice for an empty one. *)
Definition carries (proof : wcsp_Proof) (rs : list csp_round) : Prop :=
  wcsp_Left proof = Some (Own <$> (rd_Left <$> rs)) /\ wcsp_Right proof = Some (Own <$> (rd_Right <$> rs)) /\
  default [] (wcsp_VLeft proof) = Own <$> (rd_VLeft <$> rs) /\ default [] (wcsp_VRight proof) = Own <$> (rd_VRight <$> rs).

Definition round_points (rs : list csp_round) : list G1 := (rd_Left <$> rs) ++ (rd_Right <$> rs).

Lemma rounds_of_spec ls : forall rs vls vrs, length rs = length ls -> length vls = length ls -> length vrs = length ls ->
  let l := rounds_of ls rs vls vrs in rd_Left <$> l = ls /\ rd_Right <$> l = rs /\ rd_VLeft <$> l = vls /\ rd_VRight <$> l = vrs.
Proof.
  induction ls as [|x ls IH]; intros [|r rs] [|vl vls] [|vr vrs]; try done. cbn [length]. intros [=H1] [=H2] [=H3].
  destruct (IH rs vls vrs H1 H2 H3) as (E1 & E2 & E3 & E4). cbn [rounds_of]. rewrite !fmap_cons. cbn [rd_Left rd_Right rd_VLeft rd_VRight]. by rewrite E1, E2, E3, E4.
Qed.

Lemma rounds_of_rounds rs : rounds_of (rd_Left <$> rs) (rd_Right <$> rs) (rd_VLeft <$> rs) (rd_VRight <$> rs) = rs.
Proof. induction rs as [|[a b c d] rs IH]; [done|]. rewrite !fmap_cons. cbn [rounds_of rd_Left rd_Right rd_VLeft rd_VRight]. by rewrite IH. Qed.

Lemma mapM_own {T} (l : list T) : mapM own (Own <$> l) = Ok l.
Proof. induction l as [|x l IH]; [done|]. rewrite fmap_cons, mapM_cons_res. cbn [own mbind res_mbind]. by rewrite IH. Qed.

Lemma own_rounds_carries proof rs : carries proof rs -> own_rounds proof = Ok rs.
Proof.
  intros (H1 & H2 & H3 & H4). unfold own_rounds, owns. rewrite H1, H2, H3, H4. cbn [default from_option id]. rewrite !mapM_own. cbn [mbind res_mbind]. by rewrite rounds_of_rounds.
Qed.

Lemma validateCSPProof_exact proof k : validateCSPProof proof k = Ok tt <->
  exists rs, carries proof rs /\ length rs = k /\ (k <= maxCSPRounds)%nat /\ Forall finite (round_points rs).
Proof.
  unfold validateCSPProof. rewrite present_Ok. split.
  - intros (lft & HL & H). apply then_Ok in H as [H1%reject_if_Ok H]. apply present_Ok in H as (rgt & HR & H). rewrite !then_Ok, !wrap_Ok, !reject_if_Ok in H.
    destruct H as (H2 & (ls & -> & Hls & Fl)%CheckElements_exact & (rs & -> & Hrs & Fr)%CheckElements_exact & H3 & H4 &
      (vls & Evl & Hvl)%CheckZrElements_exact & (vrs & Evr & Hvr)%CheckZrElements_exact & H5).
    destruct (rounds_of_spec ls rs vls vrs) as (E1 & E2 & E3 & E4); [congruence..|]. exists (rounds_of ls rs vls vrs).
    unfold carries, round_points. rewrite E1, E2, E3, E4. split_and!; [done..| | |].
    + apply (f_equal length) in E1. rewrite length_fmap in E1. congruence.
    + apply Nat.ltb_ge in H5. rewrite length_fmap in H5. lia.
    + by apply Forall_app.
  - intros (rs & (H1 & H2 & H3 & H4) & <- & Hk & [Fl Fr]%Forall_app). exists (Own <$> (rd_Left <$> rs)). split; [done|]. rewrite H2, H3, H4.
    rewrite !length_fmap, Nat.eqb_refl. cbn [negb reject_if present_or mbind res_mbind].
    assert (forall l : list G1, length l = length rs -> Forall finite l -> CheckElements (Own <$> l) (length rs) = Ok tt) as HE by (intros l <- HF; apply CheckElements_exact; eauto).
    assert (forall l : list Zr, length l = length rs -> CheckZrElements (Own <$> l) (length rs) = Ok tt) as HZ by (intros l <-; apply CheckZrElements_exact; eauto).
    rewrite !HE, !HZ by (rewrite ?length_fmap; done). cbn [wrap mbind res_mbind]. rewrite !length_fmap, Nat.eqb_refl. cbn [negb reject_if mbind res_mbind]. apply reject_if_Ok, Nat.ltb_ge. done.
Qed.

Lemma shl1_small k : (k < 63)%nat -> shl1 k = Z.of_nat (2 ^ k).
Proof. intros Hk. unfold shl1. destruct (Nat.ltb_spec k 63); [|lia]. by rewrite Nat2Z.inj_pow. Qed.

Lemma validate_slice_G1 l k : (k < 63)%nat -> validateG1Slice (Some (Own <$> l)) (shl1 k) = Ok tt <-> length l = (2 ^ k)%nat /\ Forall finite l.
Proof.
  intros Hk. unfold validateG1Slice. cbn [present_or mbind res_mbind]. rewrite then_Ok, reject_if_Ok, wrap_Ok, shl1_small, CheckElements_exact, length_fmap by done.
  pose proof (Nat.pow_nonzero 2 k ltac:(lia)). destruct (Z.ltb_spec 0 (Z.of_nat (2 ^ k))); [|lia]. cbn [andb].
  destruct (Z.eqb_spec (Z.of_nat (length l)) (Z.of_nat (2 ^ k))); cbn [negb]; [|naive_solver lia].
  split; [|intros [? ?]; split; [done|]; exists l; done]. intros (_ & ps & Hps & _ & HF). apply list_fmap_eq_inj in Hps; [subst; split; [lia|done]|congruence].
Qed.

Lemma validate_slice_Zr l k : (k < 63)%nat -> validateZrSlice (Some (Own <$> l)) (shl1 k) = Ok tt <-> length l = (2 ^ k)%nat.
Proof.
  intros Hk. unfold validateZrSlice. cbn [present_or mbind res_mbind]. rewrite then_Ok, reject_if_Ok, wrap_Ok, shl1_small, CheckZrElements_exact, length_fmap by done.
  pose proof (Nat.pow_nonzero 2 k ltac:(lia)). destruct (Z.ltb_spec 0 (Z.of_nat (2 ^ k))); [|lia]. cbn [andb].
  destruct (Z.eqb_spec (Z.of_nat (length l)) (Z.of_nat (2 ^ k))); cbn [negb]; [|naive_solver lia]. split; [lia|]. intros _. split; [done|]. by exists l.
Qed.

(** ** The verifier decides the protocol *)

Definition statement_ok (k : nat) (gens : list G1) (lf : list Zr) : Prop :=
  length gens = (2 ^ k)%nat /\ Forall finite gens /\ length lf = (2 ^ k)%nat.

Lemma verifier_inputs_exact v : (cv_NumberOfRounds v < 63)%nat ->
  validateCSPVerifierInputs v = Ok tt <-> is_Some (cv_Commitment v) /\ is_Some (cv_Value v) /\ statement_ok (cv_NumberOfRounds v) (cv_Generators v) (cv_LinearForm v).
Proof.
  intros Hk. unfold validateCSPVerifierInputs, statement_ok. rewrite present_Ok. unfold is_Some. split.
  - intros (com & Hc & H). apply present_Ok in H as (val & Hv & H). rewrite then_Ok, validate_slice_G1, validate_slice_Zr in H by done. naive_solver.
  - intros ([com Hc] & [val Hv] & Hg & Hf & Hl). exists com. split; [done|]. apply present_Ok. exists val. split; [done|].
    rewrite then_Ok, validate_slice_G1, validate_slice_Zr by done. done.
Qed.

(** The statement, the proof and the messages of a run that reaches the final
    check. *)
Definition csp_run (v : csp_verifier) (proof : wcsp_Proof) (com : G1) (val : Zr) (rs : list csp_round) : Prop :=
  cv_Commitment v = Some com /\ cv_Value v = Some val /\ carries proof rs /\ length rs = cv_NumberOfRounds v /\
  (cv_NumberOfRounds v <= maxCSPRounds)%nat /\ Forall finite (round_points rs) /\
  statement_ok (cv_NumberOfRounds v) (cv_Generators v) (cv_LinearForm v) /\ cv_TranscriptHeader v <> [].

Definition run_challenges (v : csp_verifier) (com : G1) (val : Zr) (rs : list csp_round) : list Zr :=
  fs_challenges (csp_transcript (cv_TranscriptHeader v) com (cv_LinearForm v) val) rs.

Lemma csp_Verify_run v proof com val rs : csp_run v proof com val rs ->
  csp_Verify v proof = csp_check com (cv_Generators v) (cv_LinearForm v) rs (run_challenges v com val rs) (fold_vals (zip rs (run_challenges v com val rs)) val).
Proof.
  intros (Hc & Hv & Hp & Hl & Hk & Hf & Hst & Hh). unfold csp_Verify.
  assert (validateCSPVerifierInputs v = Ok tt) as -> by (apply verifier_inputs_exact; [unfold maxCSPRounds in Hk; lia|]; rewrite Hc, Hv; eauto).
  cbn [wrap mbind res_mbind]. assert (validateCSPProof proof (cv_NumberOfRounds v) = Ok tt) as -> by (apply validateCSPProof_exact; by exists rs).
  cbn [wrap mbind res_mbind]. destruct (cv_TranscriptHeader v) as [|b h] eqn:Eh; [done|]. cbn [length Nat.eqb reject_if mbind res_mbind].
  rewrite Hc, Hv. cbn [deref mbind res_mbind]. rewrite (own_rounds_carries _ _ Hp). cbn [mbind res_mbind]. rewrite replay_spec. unfold run_challenges. by rewrite Eh.
Qed.

#[local] Hint Resolve CheckElements_no_panic CheckZrElements_no_panic : nopanic.

Lemma verifier_inputs_no_panic v : validateCSPVerifierInputs v <> Panic.
Proof. unfold validateCSPVerifierInputs, present_or, validateG1Slice, validateZrSlice, reject_if. np. Qed.

Lemma validateCSPProof_no_panic proof k : validateCSPProof proof k <> Panic.
Proof. unfold validateCSPProof, present_or, reject_if. np. Qed.

Lemma csp_Verify_inv v proof : csp_Verify v proof = Ok tt \/ csp_Verify v proof = Panic -> exists com val rs, csp_run v proof com val rs.
Proof.
  unfold csp_Verify. intros H.
  destruct (validateCSPVerifierInputs v) as [[]|e|] eqn:Ei; cbn [wrap mbind res_mbind] in H; [|naive_solver|].
  2:{ by apply verifier_inputs_no_panic in Ei. }
  destruct (validateCSPProof proof (cv_NumberOfRounds v)) as [[]|e|] eqn:Ep; cbn [wrap mbind res_mbind] in H; [|naive_solver|].
  2:{ by apply validateCSPProof_no_panic in Ep. }
  apply validateCSPProof_exact in Ep as (rs & Hc & Hl & Hk & Hf). apply verifier_inputs_exact in Ei as ([com Ecom] & [val Eval] & Hst); [|unfold maxCSPRounds in Hk; lia].
  exists com, val, rs. split_and!; try done. intros E. rewrite E in H. naive_solver.
Qed.

Lemma run_challenges_ok v proof com val rs : csp_run v proof com val rs -> length rs = length (run_challenges v com val rs).
Proof. intros _. unfold run_challenges. by rewrite length_fs. Qed.

Lemma csp_Verify_exact v proof : csp_Verify v proof = Ok tt <->
  exists com val rs, csp_run v proof com val rs /\ rs <> [] /\
    csp_accepts (zip rs (run_challenges v com val rs)) com val (cv_Generators v) (cv_LinearForm v).
Proof.
  split.
  - intros H. destruct (csp_Verify_inv v proof) as (com & val & rs & Hr); [by left|]. exists com, val, rs. rewrite (csp_Verify_run _ _ _ _ _ Hr) in H.
    pose proof (run_challenges_ok _ _ _ _ _ Hr) as Hl. destruct rs as [|r rs]; [done|]. split; [done|]. split; [done|].
    pose proof Hr as (_ & _ & _ & Hn & _ & _ & (Hg & _ & Hf) & _). rewrite <- Hn, Hl in Hg, Hf.
    apply csp_check_exact in H; [done| |done..]. intros E. by rewrite E in Hl.
  - intros (com & val & rs & Hr & Hne & Ha). rewrite (csp_Verify_run _ _ _ _ _ Hr). pose proof (run_challenges_ok _ _ _ _ _ Hr) as Hl.
    pose proof Hr as (_ & _ & _ & Hn & _ & _ & (Hg & _ & Hf) & _). rewrite <- Hn, Hl in Hg, Hf. apply csp_check_exact; [|done..].
    intros E. rewrite E in Hl. by destruct rs.
Qed.

Lemma csp_check_no_panic com gens lf rs cs val : cs <> [] -> csp_check com gens lf rs cs val <> Panic.
Proof.
  intros Hne. unfold csp_check. rewrite (index_nth cs 0 Zero), (index_nth (suffix_products cs) 0 Zero) by (rewrite ?length_suffix; destruct cs; cbn; [done|lia]).
  cbn [mbind res_mbind]. rewrite sVector_spec. cbn [mbind res_mbind]. destruct (collapseTrailingEqualPoints _ _) as [gp gs]. by destruct (G1_IsInfinity _).
Qed.

(** No proof makes the verifier panic, as long as the statement has a round. *)
Lemma csp_Verify_no_panic v proof : (0 < cv_NumberOfRounds v)%nat -> csp_Verify v proof <> Panic.
Proof.
  intros Hk H. destruct (csp_Verify_inv v proof) as (com & val & rs & Hr); [by right|]. rewrite (csp_Verify_run _ _ _ _ _ Hr) in H.
  apply csp_check_no_panic in H; [done|]. intros E. pose proof (run_challenges_ok _ _ _ _ _ Hr) as Hl. rewrite E in Hl.
  destruct Hr as (_ & _ & _ & Hn & _). cbn in Hl. lia.
Qed.
End Fold.
