(* ===== verification/CspSound.v ===== *)
(** * Completeness, the fast path and soundness of the compressed sigma protocol

    The messages of the prover are those of the recursive protocol of [CspFold],
    with or without the hint of the padding; an honest run is accepted; from a
    tree of accepted runs, three challenges per round, the witness is
    computed. *)

From S2P Require Import Prelude GoStd Der Asn1 ZkMath ZkIpa ZkRange ZkSigma ZkCodec ZkTransfer Csp CspFold.
From Stdlib Require Import ZArith Lia Ring.

Section Prover.
Context {CO : Curve} {CL : CurveLaws} {NA : Native} {WI : Wire} {CC : CspCurve} {CP : CspLaws}.
Add Ring zr_csps : zr_ring.
Local Open Scope zr_scope.

Fixpoint honest_rounds (k : nat) (tr : bytes) (gens : list G1) (lf wit : list Zr) : list csp_round :=
  match k with
  | O => []
  | S k =>
      let r := honest_round gens lf wit in
      let '(c, tr) := Squeeze (absorb_round tr r) in
      r :: honest_rounds k tr (foldG c gens) (foldF c lf) (foldW c wit)
  end.

Definition vectors (k : nat) (gens : list G1) (lf wit : list Zr) : Prop :=
  length gens = (2 ^ k)%nat /\ length lf = (2 ^ k)%nat /\ length wit = (2 ^ k)%nat.

Lemma vectors_fold k c gens lf wit : vectors (S k) gens lf wit -> vectors k (foldG c gens) (foldF c lf) (foldW c wit).
Proof. intros (Hg & Hf & Hw). split_and!; [by apply length_foldG|by apply length_foldF|by apply length_foldW]. Qed.

Lemma zip_with_ext3 {A B C} (f g : A -> B -> C) l : forall r, (forall a b, f a b = g a b) -> zip_with f l r = zip_with g l r.
Proof. intros r H. revert r. induction l as [|x l IH]; intros [|y r]; try done. cbn. by rewrite H, IH. Qed.

(** The padding of the range prover: neutral scalars and the generator of the
    curve. *)
Definition padded (realLen : nat) (gens : list G1) (lf wit : list Zr) : Prop :=
  Forall (fun g => g = GenG1) (drop realLen gens) /\ Forall (fun f => f = Zero) (drop realLen lf) /\ Forall (fun w => w = Zero) (drop realLen wit).

(** *** One round, with full vectors *)

Lemma round_full_spec k gens lf wit : vectors (S k) gens lf wit -> round_full (length gens / 2) gens lf wit = honest_round gens lf wit.
Proof.
  intros (Hg & Hf & Hw). unfold round_full, honest_round. pose proof (half_pow gens k Hg) as E. rewrite Nat.pow_succ_r' in Hg, Hf, Hw.
  f_equal; first [apply smallMSM_spec|apply InnerProduct_spec]; rewrite length_take, length_drop, ?Hg, ?Hf, ?Hw in *; rewrite E; lia.
Qed.

Lemma folds_full k c gens lf wit : vectors (S k) gens lf wit -> let n := (length gens / 2)%nat in
  fold_generators n n c gens = foldG c gens /\ fold_linearForm n n c lf = foldF c lf /\ fold_witness n n c wit = foldW c wit.
Proof.
  intros (Hg & Hf & Hw) n. unfold fold_generators, fold_linearForm, fold_witness, foldG, foldF, foldW.
  pose proof (half_pow gens k Hg) as E. rewrite (half_pow lf k Hf), (half_pow wit k Hw), E. unfold n. rewrite E. rewrite Nat.pow_succ_r' in Hg, Hf, Hw.
  rewrite !(take_ge (take _ _)), !(take_ge (drop _ _)), !(drop_ge (take _ _)) by (rewrite ?length_take, ?length_drop; lia). rewrite !fmap_nil, !app_nil_r.
  split_and!; apply zip_with_ext3; intros a b; rewrite ?g1_mul2, ?zr_addmul2, ?g1_mul_one; try done; ring.
Qed.

(** *** One round, with a padded tail *)

Section Fast.
Context (k realLen : nat) (gens : list G1) (lf wit : list Zr).
Context (Hv : vectors (S k) gens lf wit) (Hp : padded realLen gens lf wit) (Hr : (2 ^ k < realLen < 2 ^ S k)%nat).

Let n := (2 ^ k)%nat.
Let nzR := (realLen - n)%nat.

Lemma tail_const {A} (l : list A) (x : A) : length l = (2 ^ S k)%nat -> Forall (fun y => y = x) (drop realLen l) ->
  length (take nzR (drop n l)) = nzR /\ drop n l = take nzR (drop n l) ++ drop nzR (drop n l) /\ drop nzR (drop n l) = replicate (n - nzR) x.
Proof using Hr.
  intros Hl HF. rewrite Nat.pow_succ_r' in Hl, Hr. rewrite take_drop, length_take, length_drop. split_and!; [unfold nzR, n in *; lia|done|].
  rewrite drop_drop. replace (n + nzR)%nat with realLen by (unfold nzR, n; lia). symmetry. apply replicate_as_Forall. split; [rewrite length_drop; unfold nzR, n; lia|].
  apply (Forall_impl _ _ _ HF). by intros ? ->.
Qed.

Lemma head_split {A} (l : list A) : length l = (2 ^ S k)%nat -> length (take nzR (take n l)) = nzR /\ length (drop nzR (take n l)) = (n - nzR)%nat /\
  take n l = take nzR (take n l) ++ drop nzR (take n l).
Proof using Hr. intros Hl. rewrite Nat.pow_succ_r' in Hl, Hr. rewrite take_drop, length_drop, !length_take. split_and!; unfold nzR, n in *; auto with lia. Qed.

Lemma take_nzR {A} (l : list A) : take nzR l = take nzR (take n l).
Proof using Hr. rewrite take_take. f_equal. rewrite Nat.pow_succ_r' in Hr. unfold nzR, n in *. lia. Qed.

Lemma ip_zeros a m : ip a (replicate m Zero) = Zero.
Proof. revert m. induction a as [|x a IH]; intros [|m]; try done. cbn [replicate]. rewrite ip_cons, IH. ring. Qed.

Lemma round_fast_spec : round_fast n nzR gens lf wit = honest_round gens lf wit.
Proof using CL CP Hv Hp Hr.
  destruct Hv as (Hg & Hf & Hw), Hp as (Pg & Pf & Pw). unfold round_fast, honest_round. rewrite (half_pow gens k Hg). fold n.
  destruct (tail_const gens GenG1 Hg Pg) as (G1l & G2 & G3). destruct (tail_const lf Zero Hf Pf) as (F1 & F2 & F3). destruct (tail_const wit Zero Hw Pw) as (W1 & W2 & W3).
  destruct (head_split gens Hg) as (Gh & Gt & Ge). destruct (head_split lf Hf) as (Fh & Ft & Fe). destruct (head_split wit Hw) as (Wh & Wt & We).
  rewrite !(take_nzR gens), !(take_nzR lf), !(take_nzR wit). rewrite G2, F2, W2, G3, F3, W3, Ge, Fe, We.
  rewrite !(take_app_le _ _ nzR) by lia. rewrite (drop_app_ge (take nzR (take n wit))), Wh, Nat.sub_diag, drop_0 by lia.
  set (gl := take nzR (take n gens)) in *. set (gr := take nzR (drop n gens)) in *. set (wl := take nzR (take n wit)) in *. set (wr := take nzR (drop n wit)) in *.
  set (fl := take nzR (take n lf)) in *. set (fr := take nzR (drop n lf)) in *.
  set (gt := drop nzR (take n gens)) in *. set (wt := drop nzR (take n wit)) in *. set (ft := drop nzR (take n lf)) in *.
  rewrite ?(take_ge gl nzR), ?(take_ge gr nzR), ?(take_ge wl nzR), ?(take_ge wr nzR), ?(take_ge fl nzR), ?(take_ge fr nzR) by lia.
  f_equal.
  - rewrite smallMSM_spec, msm_app by lia. rewrite (msm_zero gt (replicate _ Zero)) by (by apply Forall_replicate). symmetry. apply g1_zero_r.
  - rewrite smallMSM_spec, !msm_app by (rewrite ?length_app; cbn [length]; lia). f_equal.
    rewrite (msm_run (replicate _ GenG1) wt GenG1), foldl_ModAdd by (rewrite ?length_replicate; auto using Forall_replicate with lia).
    rewrite msm_cons. change (msm [] []) with NewG1. rewrite g1_zero_r. f_equal. ring.
  - rewrite InnerProduct_spec, ip_app, ip_zeros by lia. ring.
  - rewrite InnerProduct_spec, ip_app, (ip_comm (replicate _ _)), ip_zeros by lia. ring.
Qed.

Lemma folds_fast c : fold_generators n nzR c gens = foldG c gens /\ fold_linearForm n nzR c lf = foldF c lf /\ fold_witness n nzR c wit = foldW c wit.
Proof using CL CP Hv Hp Hr.
  destruct Hv as (Hg & Hf & Hw), Hp as (Pg & Pf & Pw). unfold fold_generators, fold_linearForm, fold_witness, foldG, foldF, foldW.
  rewrite (half_pow gens k Hg), (half_pow lf k Hf), (half_pow wit k Hw). fold n.
  destruct (tail_const gens GenG1 Hg Pg) as (G1l & G2 & G3). destruct (tail_const lf Zero Hf Pf) as (F1 & F2 & F3). destruct (tail_const wit Zero Hw Pw) as (W1 & W2 & W3).
  destruct (head_split gens Hg) as (Gh & Gt & Ge). destruct (head_split lf Hf) as (Fh & Ft & Fe). destruct (head_split wit Hw) as (Wh & Wt & We).
  rewrite G3 in G2. rewrite F3 in F2. rewrite W3 in W2.
  assert (forall {A B} (f : A -> B -> A) (h : A -> A) (l r : list A) (x : B), length l = length r -> (forall a, f a x = h a) -> zip_with f l (replicate (length r) x) = h <$> l) as Hrep.
  { intros A B f h l r x Hl Hh. rewrite <- Hl. clear -Hh. induction l as [|y l IH]; [done|]. cbn. by rewrite Hh, IH. }
  assert (forall {A B C} (f : A -> B -> C) (la : list A) (lb : list B) t b, length la = length lb -> zip_with f (la ++ t) (lb ++ b) = zip_with f la lb ++ zip_with f t b) as Happ by (intros; by apply zip_with_app).
  split_and!.
  - rewrite G2 at 2. rewrite Ge at 3. rewrite Happ by lia. f_equal; [apply zip_with_ext3; intros a b; by rewrite g1_mul2, g1_mul_one|].
    rewrite <- Gt. symmetry. by apply Hrep.
  - rewrite F2 at 2. rewrite Fe at 3. rewrite Happ by lia. f_equal; [apply zip_with_ext3; intros a b; rewrite zr_addmul2; ring|].
    rewrite <- Ft, (Hrep _ _ _ id) by (try done; intros a; cbn; ring). by rewrite list_fmap_id.
  - rewrite W2 at 2. rewrite We at 3. rewrite Happ by lia. f_equal; [apply zip_with_ext3; intros a b; rewrite zr_addmul2; ring|].
    rewrite <- Wt. symmetry. apply Hrep; [done|]. intros a. ring.
Qed.
End Fast.

(** *** All rounds *)

Lemma prove_rounds_full k : forall tr gens lf wit, vectors k gens lf wit -> prove_rounds k 0 tr gens lf wit = honest_rounds k tr gens lf wit.
Proof.
  induction k as [|k IH]; intros tr gens lf wit Hv; [done|]. cbn [prove_rounds honest_rounds]. rewrite (round_full_spec k) by done.
  destruct (Nat.ltb_spec (length gens / 2) 0); [lia|]. cbn [andb]. destruct (Squeeze _) as [c tr']. destruct (folds_full k c gens lf wit Hv) as (-> & -> & ->).
  f_equal. apply IH. by apply vectors_fold.
Qed.

(** With a hint that is right about the padding, the messages are the same. *)
Lemma prove_rounds_hint k realLen tr gens lf wit : vectors k gens lf wit -> padded realLen gens lf wit ->
  prove_rounds k realLen tr gens lf wit = honest_rounds k tr gens lf wit.
Proof.
  destruct k as [|k]; [done|]. intros Hv Hp. destruct (decide (2 ^ k < realLen < 2 ^ S k)%nat) as [Hr|Hr].
  - pose proof Hv as (Hg & _ & _). cbn [prove_rounds honest_rounds]. rewrite (half_pow gens k Hg), Hg.
    destruct (Nat.ltb_spec (2 ^ k) realLen); [|lia]. destruct (Nat.ltb_spec realLen (2 ^ S k)); [|lia]. cbn [andb].
    rewrite (round_fast_spec k realLen gens lf wit Hv Hp Hr). destruct (Squeeze _) as [c tr']. destruct (folds_fast k realLen gens lf wit Hv Hp Hr c) as (-> & -> & ->).
    f_equal. apply prove_rounds_full. by apply vectors_fold.
  - rewrite <- prove_rounds_full by done. cbn [prove_rounds]. pose proof Hv as (Hg & _ & _). rewrite (half_pow gens k Hg), Hg.
    assert (((2 ^ k <? realLen) && (realLen <? 2 ^ S k))%nat = false) as ->.
    { destruct (Nat.ltb_spec (2 ^ k) realLen), (Nat.ltb_spec realLen (2 ^ S k)); try done. exfalso. by apply Hr. }
    by destruct (Nat.ltb_spec (2 ^ k) 0); [lia|].
Qed.

(** ** Completeness *)

Lemma msm_foldW c (a : list G1) u : forall w, length u = length a -> length w = length a ->
  msm a (zip_with (fun l r => c * l + r) u w) = (msm a u ⋅ c + msm a w)%g1.
Proof.
  intros w Hu Hw. replace (zip_with (fun l r => c * l + r) u w) with (zip_with ModAdd ((fun x => x * c) <$> u) w).
  - rewrite msm_zip_add, msm_scale by (rewrite ?length_fmap; done). done.
  - rewrite zip_with_fmap_l. apply zip_with_ext3. intros x y. ring.
Qed.

Lemma ip_foldW c (a : list Zr) u : forall w, length u = length a -> length w = length a ->
  ip a (zip_with (fun l r => c * l + r) u w) = c * ip a u + ip a w.
Proof.
  revert u. induction a as [|x a IH]; intros [|y u] [|z w]; try done; cbn [length]; intros H1 H2; [change (Zero = c * Zero + Zero); ring|].
  cbn [zip_with]. rewrite !ip_cons, IH by lia. ring.
Qed.

(** An honest round turns a true statement into a true statement. *)
Lemma honest_fold k c gens lf wit : vectors (S k) gens lf wit -> let r := honest_round gens lf wit in
  fold_com c r (msm gens wit) = msm (foldG c gens) (foldW c wit) /\ fold_val c r (ip lf wit) = ip (foldF c lf) (foldW c wit).
Proof.
  intros (Hg & Hf & Hw). unfold fold_com, fold_val, honest_round, foldG, foldF, foldW. cbn [rd_Left rd_Right rd_VLeft rd_VRight].
  pose proof (half_pow gens k Hg) as E. pose proof (half_pow lf k Hf) as Ef. pose proof (half_pow wit k Hw) as Ew. rewrite Ef, Ew, E.
  destruct (halves gens k Hg) as (a & b & -> & Ha & Hb & Ta & Tb). destruct (halves lf k Hf) as (f & f' & -> & Hfa & Hfb & Tf & Tf').
  destruct (halves wit k Hw) as (u & w & -> & Hu & Hw' & Tu & Tw). rewrite E in Ta, Tb. rewrite Ef in Tf, Tf'. rewrite Ew in Tu, Tw. rewrite Ta, Tb, Tf, Tf', Tu, Tw. split.
  - rewrite msm_app, msm_foldG by (rewrite ?length_zip_with; lia). rewrite !msm_foldW by lia. linear.
  - rewrite ip_app, ip_foldF by (rewrite ?length_zip_with; lia). rewrite !ip_foldW by lia. ring.
Qed.

Lemma honest_accepts k : forall tr gens lf wit, vectors k gens lf wit ->
  csp_accepts (zip (honest_rounds k tr gens lf wit) (fs_challenges tr (honest_rounds k tr gens lf wit))) (msm gens wit) (ip lf wit) gens lf.
Proof.
  induction k as [|k IH]; intros tr gens lf wit Hv.
  - destruct Hv as (Hg & Hf & Hw). destruct gens as [|g [|]], lf as [|f [|]], wit as [|w [|]]; try done. cbn [honest_rounds fs_challenges zip_with csp_accepts].
    rewrite msm_cons, ip_cons. change (msm [] []) with NewG1. change (ip [] []) with Zero. linear.
  - cbn [honest_rounds]. destruct (Squeeze _) as [c tr'] eqn:Ec. cbn [fs_challenges]. rewrite Ec. cbn [zip_with csp_accepts].
    destruct (honest_fold k c gens lf wit Hv) as [-> ->]. apply IH. by apply vectors_fold.
Qed.

Lemma length_honest k : forall tr gens lf wit, length (honest_rounds k tr gens lf wit) = k.
Proof. induction k as [|k IH]; intros; [done|]. cbn [honest_rounds]. destruct (Squeeze _). cbn. by rewrite IH. Qed.

(** The verifier of the statement of a prover. *)
Definition csp_verifier_of (p : csp_prover) : csp_verifier :=
  {| cv_Commitment := cp_Commitment p; cv_Generators := cp_Generators p; cv_LinearForm := cp_LinearForm p; cv_Value := cp_Value p;
     cv_NumberOfRounds := cp_NumberOfRounds p; cv_TranscriptHeader := cp_TranscriptHeader p |}.

(** A true statement with its witness, as the range prover builds it. *)
Definition csp_honest (p : csp_prover) : Prop :=
  vectors (cp_NumberOfRounds p) (cp_Generators p) (cp_LinearForm p) (cp_witness p) /\
  Forall finite (cp_Generators p) /\ padded (cp_realLen p) (cp_Generators p) (cp_LinearForm p) (cp_witness p) /\
  cp_Commitment p = Some (msm (cp_Generators p) (cp_witness p)) /\ cp_Value p = Some (ip (cp_LinearForm p) (cp_witness p)) /\
  (1 <= cp_NumberOfRounds p <= maxCSPRounds)%nat /\ cp_TranscriptHeader p <> [].

Definition honest_proof (p : csp_prover) : list csp_round :=
  honest_rounds (cp_NumberOfRounds p)
    (csp_transcript (cp_TranscriptHeader p) (msm (cp_Generators p) (cp_witness p)) (cp_LinearForm p) (ip (cp_LinearForm p) (cp_witness p)))
    (cp_Generators p) (cp_LinearForm p) (cp_witness p).

(** What a proof becomes on the wire. *)
Definition send_csp (pr : csp_Proof) : wcsp_Proof :=
  {| wcsp_Left := Some (Own <$> csp_Left pr); wcsp_Right := Some (Own <$> csp_Right pr);
     wcsp_VLeft := Some (Own <$> csp_VLeft pr); wcsp_VRight := Some (Own <$> csp_VRight pr) |}.

Lemma csp_Prove_honest p : csp_honest p -> csp_Prove p = Ok (proof_of_rounds (honest_proof p)).
Proof.
  intros (Hv & HF & Hp & Hc & Hval & Hk & Hh). pose proof Hv as (Hg & Hf & Hw). unfold csp_Prove.
  assert (validateCSPProverInputs p = Ok tt) as ->.
  { unfold validateCSPProverInputs. rewrite Hc, Hval. cbn [present_or mbind res_mbind]. unfold maxCSPRounds in Hk.
    rewrite !then_Ok, validate_slice_G1, !validate_slice_Zr by lia. done. }
  cbn [wrap mbind res_mbind]. destruct (cp_TranscriptHeader p) as [|b h] eqn:Eh; [done|]. cbn [length Nat.eqb reject_if mbind res_mbind].
  rewrite Hc, Hval. cbn [deref mbind res_mbind]. rewrite prove_rounds_hint by done. unfold honest_proof. by rewrite Eh.
Qed.

Lemma csp_complete p : csp_honest p -> exists proof, csp_Prove p = Ok proof /\
  (Forall finite (csp_Left proof ++ csp_Right proof) -> csp_Verify (csp_verifier_of p) (send_csp proof) = Ok tt).
Proof.
  intros H. rewrite (csp_Prove_honest p H). destruct H as (Hv & HF & Hp & Hc & Hval & Hk & Hh). pose proof Hv as (Hg & Hf & Hw).
  eexists. split; [done|]. intros Hfin. apply csp_Verify_exact. exists (msm (cp_Generators p) (cp_witness p)), (ip (cp_LinearForm p) (cp_witness p)), (honest_proof p).
  pose proof (length_honest (cp_NumberOfRounds p) (csp_transcript (cp_TranscriptHeader p) (msm (cp_Generators p) (cp_witness p)) (cp_LinearForm p) (ip (cp_LinearForm p) (cp_witness p)))
    (cp_Generators p) (cp_LinearForm p) (cp_witness p)) as Hlen. fold (honest_proof p) in Hlen.
  split; [|split; [intros E; rewrite E in Hlen; cbn in Hlen; lia|apply honest_accepts; done]].
  unfold csp_run, statement_ok. cbn [csp_verifier_of cv_Commitment cv_Value cv_NumberOfRounds cv_Generators cv_LinearForm cv_TranscriptHeader].
  split_and!; try done. lia.
Qed.

(** ** Special soundness

    A tree of runs: every node sends one message and is continued with three
    challenges. *)
Inductive csp_tree : Type :=
| Leaf
| Node (r : csp_round) (c1 c2 c3 : Zr) (t1 t2 t3 : csp_tree).

(** The runs from the root to the leaves. *)
Fixpoint runs (t : csp_tree) : list (list (csp_round * Zr)) :=
  match t with
  | Leaf => [[]]
  | Node r c1 c2 c3 t1 t2 t3 => (cons (r, c1) <$> runs t1) ++ (cons (r, c2) <$> runs t2) ++ (cons (r, c3) <$> runs t3)
  end.

(** All runs have [k] rounds, and the challenges of a node differ. *)
Fixpoint forks (k : nat) (t : csp_tree) : Prop :=
  match k, t with
  | O, Leaf => True
  | S k, Node _ c1 c2 c3 t1 t2 t3 => c1 <> c2 /\ c1 <> c3 /\ c2 <> c3 /\ forks k t1 /\ forks k t2 /\ forks k t3
  | _, _ => False
  end.

(** The coefficient of [X] in the polynomial that is 1 at [a] and 0 at [b] and
    [c]. *)
Definition middle (a b c : Zr) : Zr := - (b + c) * InvModOrder ((a - b) * (a - c)).

(** A witness of the folded vectors unfolded, weighted with [m]. *)
Definition unfold_wit (m c : Zr) (z : list Zr) : list Zr := ((fun x => x * m) <$> z) ++ ((fun x => x * (c * m)) <$> z).

Fixpoint csp_extract (t : csp_tree) (val : Zr) (lf : list Zr) : list Zr :=
  match t with
  | Leaf => match lf with [f] => [val * InvModOrder f] | _ => [] end
  | Node r c1 c2 c3 t1 t2 t3 =>
      let part c m t := unfold_wit m c (csp_extract t (fold_val c r val) (foldF c lf)) in
      zip_with ModAdd (part c1 (middle c1 c2 c3) t1) (zip_with ModAdd (part c2 (middle c2 c1 c3) t2) (part c3 (middle c3 c1 c2) t3))
  end.

Lemma sub_nonzero a b : a <> b -> a - b <> Zero.
Proof. intros H E. apply H. replace a with ((a - b) + b) by ring. rewrite E. ring. Qed.

(** The weights pick the middle coefficient of a quadratic polynomial. *)
Lemma middle_sums a b c : a <> b -> a <> c -> b <> c ->
  let x := middle a b c in let y := middle b a c in let z := middle c a b in
  x + y + z = Zero /\ x * a + y * b + z * c = One /\ x * (a * a) + y * (b * b) + z * (c * c) = Zero.
Proof.
  intros Hab Hac Hbc. unfold middle. set (d := a - b). set (e := a - c). set (f := b - c).
  assert (d <> Zero) as Hd by (by apply sub_nonzero). assert (e <> Zero) as He by (by apply sub_nonzero). assert (f <> Zero) as Hf by (by apply sub_nonzero).
  assert (forall u v, u <> Zero -> v = (- One) * u -> InvModOrder v = (- One) * InvModOrder u) as Hneg.
  { intros u v Hu ->. symmetry. apply inv_unique. transitivity (u * InvModOrder u); [ring|by apply zr_inv]. }
  rewrite (inv_mul d e), (inv_mul (b - a) f), (inv_mul (c - a) (c - b)) by (try done; apply sub_nonzero; congruence).
  rewrite (Hneg d (b - a)), (Hneg e (c - a)), (Hneg f (c - b)) by (try done; unfold d, e, f; ring).
  assert (d * InvModOrder d = One) as Id by (by apply zr_inv). assert (e * InvModOrder e = One) as Ie by (by apply zr_inv). assert (f * InvModOrder f = One) as If by (by apply zr_inv).
  set (i := InvModOrder d) in *. set (j := InvModOrder e) in *. set (k := InvModOrder f) in *.
  (* multiply by d e f, whose inverse is i j k *)
  assert (forall u v, u * (d * e * f) = v * (d * e * f) -> u = v) as Hc.
  { intros u v E. transitivity (u * (d * i) * (e * j) * (f * k)); [rewrite Id, Ie, If; ring|].
    transitivity (v * (d * i) * (e * j) * (f * k)); [|rewrite Id, Ie, If; ring]. transitivity (u * (d * e * f) * (i * j * k)); [ring|]. rewrite E. ring. }
  assert (forall P Q R T, - P * f - (- Q) * e + (- R) * d = T * (d * e * f) ->
            - P * (i * j) + - Q * (- One * i * k) + - R * (- One * j * (- One * k)) = T) as Hgen.
  { intros P Q R T HT. apply Hc. rewrite <- HT.
    transitivity (- P * f * (d * i) * (e * j) - (- Q) * e * (d * i) * (f * k) + (- R) * d * (e * j) * (f * k)); [ring|]. rewrite Id, Ie, If. ring. }
  split_and!.
  - apply (Hgen (b + c) (a + c) (a + b) Zero). unfold d, e, f. ring.
  - transitivity (- ((b + c) * a) * (i * j) + - ((a + c) * b) * (- One * i * k) + - ((a + b) * c) * (- One * j * (- One * k))); [ring|].
    apply Hgen. unfold d, e, f. ring.
  - transitivity (- ((b + c) * (a * a)) * (i * j) + - ((a + c) * (b * b)) * (- One * i * k) + - ((a + b) * (c * c)) * (- One * j * (- One * k))); [ring|].
    apply Hgen. unfold d, e, f. ring.
Qed.

Lemma length_unfold m c z k : length z = (2 ^ k)%nat -> length (unfold_wit m c z) = (2 ^ S k)%nat.
Proof. intros H. unfold unfold_wit. rewrite length_app, !length_fmap, H, Nat.pow_succ_r'. lia. Qed.

Lemma msm_unfold k m c g z : length g = (2 ^ S k)%nat -> length z = (2 ^ k)%nat -> msm g (unfold_wit m c z) = (msm (foldG c g) z ⋅ m)%g1.
Proof.
  intros Hg Hz. destruct (halves g k Hg) as (a & b & -> & Ha & Hb & Et & Ed). unfold foldG, unfold_wit. rewrite Et, Ed, msm_foldG by lia.
  rewrite msm_app, !msm_scale by (rewrite length_fmap; lia). linear.
Qed.

Lemma ip_unfold k m c f z : length f = (2 ^ S k)%nat -> length z = (2 ^ k)%nat -> ip f (unfold_wit m c z) = ip (foldF c f) z * m.
Proof.
  intros Hf Hz. destruct (halves f k Hf) as (a & b & -> & Ha & Hb & Et & Ed). unfold foldF, unfold_wit. rewrite Et, Ed, ip_foldF by lia.
  rewrite ip_app by (rewrite length_fmap; lia). rewrite (ip_comm a), (ip_comm b), !ip_scale_l, (ip_comm z a), (ip_comm z b). ring.
Qed.

(** The linear form that is left at the end of a run. *)
Fixpoint final_form (rs : list (csp_round * Zr)) (lf : list Zr) : Zr :=
  match rs with [] => match lf with [f] => f | _ => Zero end | (_, c) :: rs => final_form rs (foldF c lf) end.

Lemma extract_sound k : forall t com val gens lf, forks k t -> length gens = (2 ^ k)%nat -> length lf = (2 ^ k)%nat ->
  Forall (fun rs => csp_accepts rs com val gens lf /\ final_form rs lf <> Zero) (runs t) ->
  let w := csp_extract t val lf in length w = (2 ^ k)%nat /\ msm gens w = com /\ ip lf w = val.
Proof.
  induction k as [|k IH]; intros [|r c1 c2 c3 t1 t2 t3] com val gens lf; cbn [forks]; try done.
  - intros _ Hg Hf HF. cbn [runs] in HF. apply Forall_cons in HF as [[Ha Hn] _]. destruct gens as [|g [|]], lf as [|f [|]]; try done.
    cbn [csp_accepts final_form csp_extract] in *. split; [done|]. rewrite msm_cons, ip_cons. change (msm [] []) with NewG1. change (ip [] []) with Zero. split.
    + rewrite g1_zero_r, <- g1_mul_mul, <- Ha, g1_mul_mul, zr_inv by done. apply g1_mul_one.
    + transitivity (val * (f * InvModOrder f)); [ring|]. rewrite zr_inv by done. ring.
  - intros (N12 & N13 & N23 & F1 & F2 & F3) Hg Hf HF. cbn [runs] in HF. rewrite !Forall_app, !Forall_fmap in HF. destruct HF as (A1 & A2 & A3).
    destruct (IH t1 (fold_com c1 r com) (fold_val c1 r val) (foldG c1 gens) (foldF c1 lf)) as (L1 & M1 & I1); [done|by apply length_foldG|by apply length_foldF|exact A1|].
    destruct (IH t2 (fold_com c2 r com) (fold_val c2 r val) (foldG c2 gens) (foldF c2 lf)) as (L2 & M2 & I2); [done|by apply length_foldG|by apply length_foldF|exact A2|].
    destruct (IH t3 (fold_com c3 r com) (fold_val c3 r val) (foldG c3 gens) (foldF c3 lf)) as (L3 & M3 & I3); [done|by apply length_foldG|by apply length_foldF|exact A3|].
    cbn [csp_extract]. destruct (middle_sums c1 c2 c3 N12 N13 N23) as (S0 & S1 & S2).
    set (m1 := middle c1 c2 c3) in *. set (m2 := middle c2 c1 c3) in *. set (m3 := middle c3 c1 c2) in *.
    pose proof (length_unfold m1 c1 _ k L1) as U1. pose proof (length_unfold m2 c2 _ k L2) as U2. pose proof (length_unfold m3 c3 _ k L3) as U3.
    split; [rewrite !length_zip_with, U1, U2, U3; lia|]. split.
    + rewrite !msm_zip_add by (rewrite ?length_zip_with; lia). rewrite !(msm_unfold k) by done. rewrite M1, M2, M3. unfold fold_com.
      transitivity (rd_Left r ⋅ (m1 + m2 + m3) + com ⋅ (m1 * c1 + m2 * c2 + m3 * c3) + rd_Right r ⋅ (m1 * (c1 * c1) + m2 * (c2 * c2) + m3 * (c3 * c3)))%g1; [linear|].
      rewrite S0, S1, S2. linear.
    + rewrite ip_comm, !ip_add_l by (rewrite ?length_zip_with; lia). rewrite !(ip_comm (unfold_wit _ _ _) lf), !(ip_unfold k) by done. rewrite I1, I2, I3. unfold fold_val.
      transitivity (rd_VLeft r * (m1 + m2 + m3) + val * (m1 * c1 + m2 * c2 + m3 * c3) + rd_VRight r * (m1 * (c1 * c1) + m2 * (c2 * c2) + m3 * (c3 * c3))); [ring|].
      rewrite S0, S1, S2. ring.
Qed.

Lemma final_form_ip rs : forall lf, length lf = (2 ^ length rs)%nat -> final_form rs lf = ip lf (csv rs.*2).
Proof.
  induction rs as [|[r c] rs IH]; intros lf Hl; cbn [final_form].
  - destruct lf as [|f [|]]; try done. change (f = f * One + Zero). ring.
  - rewrite fmap_cons. cbn [snd]. rewrite ip_csv by (by rewrite length_fmap). apply IH. by apply length_foldF.
Qed.

Lemma runs_length k : forall t rs, forks k t -> rs ∈ runs t -> length rs = k.
Proof.
  induction k as [|k IH]; intros [|r c1 c2 c3 t1 t2 t3] rs; cbn [forks runs]; try done.
  - intros _ ->%list_elem_of_singleton. done.
  - intros (_ & _ & _ & F1 & F2 & F3) Hin. rewrite !elem_of_app, !list_elem_of_fmap in Hin.
    destruct Hin as [(l & -> & Hl)|[(l & -> & Hl)|(l & -> & Hl)]]; cbn; f_equal; eauto.
Qed.
(** A run that passes the verifier's final check and leaves a non-zero form. *)
Definition passes (com : G1) (val : Zr) (gens : list G1) (lf : list Zr) (rs : list (csp_round * Zr)) : Prop :=
  csp_check com gens lf rs.*1 rs.*2 (fold_vals rs val) = Ok tt /\ ip lf (csv rs.*2) <> Zero.

Lemma passes_extract k t com val gens lf : (0 < k)%nat -> forks k t -> length gens = (2 ^ k)%nat -> length lf = (2 ^ k)%nat ->
  Forall (passes com val gens lf) (runs t) ->
  length (csp_extract t val lf) = (2 ^ k)%nat /\ msm gens (csp_extract t val lf) = com /\ ip lf (csp_extract t val lf) = val.
Proof.
  intros Hk Hf Hg Hl HF. apply (extract_sound k t com val gens lf); [done..|]. apply Forall_forall. intros rs Hin. rewrite Forall_forall in HF. specialize (HF rs Hin) as [Hc Hn].
  pose proof (runs_length k t rs Hf Hin) as Hr. rewrite final_form_ip by (by rewrite Hr). split; [|done].
  assert (zip rs.*1 rs.*2 = rs) as Hz by apply zip_fst_snd. rewrite <- Hz in Hc at 3. apply csp_check_exact in Hc; [by rewrite Hz in Hc|..]; rewrite ?length_fmap, ?Hr; try done.
  intros E%fmap_nil_inv. subst rs. cbn in Hr. lia.
Qed.
End Prover.

(** ** The theorems *)

Section CspClaims.
Context {CO : Curve} {CL : CurveLaws} {NA : Native} {WI : Wire} {CC : CspCurve} {CP : CspLaws}.
Local Open Scope zr_scope.

(** C12: the verifier of the compressed sigma protocol, with its vector of
    coefficients, its shortened list of generators and its single
    multi-scalar multiplication, accepts exactly the runs of the recursive
    protocol: the statement and the proof have the right shape, no element is
    the point at infinity, and folding the statement round by round with the
    challenges of the transcript ends in a true equation. *)
Theorem csp_verifier_exact v proof : csp_Verify v proof = Ok tt <->
  exists com val rs, csp_run v proof com val rs /\ rs <> [] /\
    csp_accepts (zip rs (run_challenges v com val rs)) com val (cv_Generators v) (cv_LinearForm v).
Proof. apply csp_Verify_exact. Qed.

(** The compressed sigma protocol is complete: for a true statement, also
    with the hint of its padding, the prover returns a proof, and the verifier
    of the same statement accepts it unless a message is the point at
    infinity. *)
Theorem csp_protocol_complete p : csp_honest p -> exists proof, csp_Prove p = Ok proof /\
  (Forall finite (csp_Left proof ++ csp_Right proof) -> csp_Verify (csp_verifier_of p) (send_csp proof) = Ok tt).
Proof. apply csp_complete. Qed.

(** The fast first round changes nothing: a prover with the hint of the
    padding returns the same messages as one without. *)
Theorem csp_fast_round_equal k realLen tr gens lf wit : vectors k gens lf wit -> padded realLen gens lf wit ->
  prove_rounds k realLen tr gens lf wit = prove_rounds k 0 tr gens lf wit.
Proof. intros Hv Hp. by rewrite prove_rounds_hint, prove_rounds_full. Qed.

(** The compressed sigma protocol is special sound: from a tree of runs on one
    statement, with three different challenges after every message, all of
    which pass the verifier's final check and leave a non-zero linear form, the
    extractor computes a vector that opens the commitment and has the claimed
    value. *)
Theorem csp_special_sound k t com val gens lf : (0 < k)%nat -> forks k t -> length gens = (2 ^ k)%nat -> length lf = (2 ^ k)%nat ->
  Forall (passes com val gens lf) (runs t) ->
  msm gens (csp_extract t val lf) = com /\ ip lf (csp_extract t val lf) = val.
Proof. intros Hk Hf Hg Hl HF. by apply (passes_extract k t com val gens lf). Qed.
End CspClaims.
