(* ===== verification/Lagrange.v ===== *)
(** * Lagrange interpolation over the first integers
      (core/zkatdlog/nogh/v1/crypto/rp/csp: the Lagrange part of rp.go,
      lagrange_native.go, lagrange_cache.go, lagrange_pool.go)

    The range proof evaluates polynomials given by their values at 0, 1, ...: the
    generic routines, the native ones with cached denominators and the tree of
    products, and what they compute.  A polynomial function of bounded degree is
    characterized by Horner's rule; two of them that agree in enough points are
    equal, which is all the routines rely on. *)

From S2P Require Import Prelude GoStd Der Asn1 ZkMath ZkIpa ZkRange ZkSigma ZkCodec ZkTransfer Csp CspFold.
From Stdlib Require Import ZArith Lia Ring.

(** ** Polynomial functions *)

Section Polynomials.
Context {CO : Curve} {CL : CurveLaws}.
Add Ring zr_poly : zr_ring.
Local Open Scope zr_scope.

(** [f] is a polynomial of degree at most [d]. *)
Fixpoint polyf (d : nat) (f : Zr -> Zr) : Prop :=
  match d with
  | O => exists k, forall x, f x = k
  | S d => exists k g, polyf d g /\ forall x, f x = k + x * g x
  end.

Lemma polyf_ext d f g : (forall x, f x = g x) -> polyf d f -> polyf d g.
Proof.
  destruct d as [|d]; intros E; [intros [k H]; exists k; intros x; by rewrite <- E|].
  intros (k & h & Hh & H). exists k, h. split; [done|]. intros x. by rewrite <- E.
Qed.

Lemma polyf_const d k : polyf d (fun _ => k).
Proof. revert k. induction d as [|d IH]; intros k; [by exists k|]. exists k, (fun _ => Zero). split; [apply IH|]. intros x. ring. Qed.

Lemma polyf_S d : forall f, polyf d f -> polyf (S d) f.
Proof.
  induction d as [|d IH]; intros f.
  - intros [k H]. exists k, (fun _ => Zero). split; [by exists Zero|]. intros x. rewrite H. ring.
  - intros (k & g & Hg & H). exists k, g. split; [by apply IH|done].
Qed.

Lemma polyf_le d e f : (d <= e)%nat -> polyf d f -> polyf e f.
Proof. induction 1; [done|]. intros H'. apply polyf_S. auto. Qed.

Lemma polyf_add d : forall f g, polyf d f -> polyf d g -> polyf d (fun x => f x + g x).
Proof.
  induction d as [|d IH]; intros f g.
  - intros [k H] [l H']. exists (k + l). intros x. by rewrite H, H'.
  - intros (k & f' & Hf' & H) (l & g' & Hg' & H'). exists (k + l), (fun x => f' x + g' x). split; [by apply IH|]. intros x. rewrite H, H'. ring.
Qed.

Lemma polyf_scale d c : forall f, polyf d f -> polyf d (fun x => c * f x).
Proof.
  induction d as [|d IH]; intros f.
  - intros [k H]. exists (c * k). intros x. by rewrite H.
  - intros (k & g & Hg & H). exists (c * k), (fun x => c * g x). split; [by apply IH|]. intros x. rewrite H. ring.
Qed.

Lemma polyf_shift d f : polyf d f -> polyf (S d) (fun x => x * f x).
Proof. intros H. exists Zero, f. split; [done|]. intros x. ring. Qed.

Lemma polyf_mul d : forall e f g, polyf d f -> polyf e g -> polyf (d + e) (fun x => f x * g x).
Proof.
  induction d as [|d IH]; intros e f g.
  - intros [k H] Hg. apply (polyf_ext _ (fun x => k * g x)); [intros x; by rewrite H|]. by apply polyf_scale.
  - intros (k & f' & Hf' & H) Hg. cbn [Nat.add]. apply (polyf_ext _ (fun x => k * g x + x * (f' x * g x))); [intros x; rewrite H; ring|].
    apply polyf_add; [apply (polyf_le e); [lia|by apply polyf_scale]|]. apply polyf_shift. by apply IH.
Qed.

Lemma polyf_linear a : polyf 1 (fun x => x - a).
Proof. exists (- a), (fun _ => One). split; [by exists One|]. intros x. ring. Qed.

(** Division by a linear factor. *)
Lemma polyf_divide d a : forall f, polyf (S d) f -> exists q, polyf d q /\ forall x, f x = f a + (x - a) * q x.
Proof.
  induction d as [|d IH]; intros f (k & g & Hg & H).
  - destruct Hg as [l Hl]. exists (fun _ => l). split; [by exists l|]. intros x. rewrite !H, !Hl. ring.
  - destruct (IH g Hg) as (q & Hq & E). exists (fun x => g a + x * q x). split; [by exists (g a), q|]. intros x. rewrite !H, (E x). ring.
Qed.

(** A polynomial with more roots than its degree vanishes. *)
Lemma polyf_roots d : forall f xs, polyf d f -> NoDup xs -> length xs = S d -> Forall (fun x => f x = Zero) xs -> forall x, f x = Zero.
Proof.
  induction d as [|d IH]; intros f [|a xs] Hp Hnd Hl HF x; try done.
  - destruct Hp as [k Hk]. apply Forall_cons in HF as [Ha _]. rewrite Hk in Ha |- *. done.
  - destruct (polyf_divide d a f Hp) as (q & Hq & E). apply Forall_cons in HF as [Ha HF]. apply NoDup_cons in Hnd as [Hni Hnd].
    rewrite E, Ha, (IH q xs); [ring|done|done|by injection Hl|]. apply Forall_forall. intros b Hb. rewrite Forall_forall in HF. specialize (HF b Hb).
    rewrite E, Ha in HF. destruct (decide (q b = Zero)) as [|Hn]; [done|]. exfalso. apply (mul_nonzero (b - a) (q b)); [|done|rewrite <- HF; ring].
    intros Hz. apply Hni. replace a with b; [done|]. replace b with ((b - a) + a) by ring. rewrite Hz. ring.
Qed.

Lemma polyf_agree d f g xs : polyf d f -> polyf d g -> NoDup xs -> length xs = S d -> Forall (fun x => f x = g x) xs -> forall x, f x = g x.
Proof.
  intros Hf Hg Hnd Hl HF x. assert (f x + (- One) * g x = Zero) as E.
  - apply (polyf_roots d (fun x => f x + (- One) * g x) xs); [|done|done|].
    + apply polyf_add; [done|by apply polyf_scale].
    + apply (Forall_impl _ _ _ HF). intros y ->. ring.
  - replace (f x) with (f x + - One * g x + g x) by ring. rewrite E. ring.
Qed.

(** ** Products *)

Definition zpr (l : list Zr) : Zr := foldr ModMul One l.

Lemma zpr_cons x l : zpr (x :: l) = x * zpr l.
Proof. done. Qed.

Lemma zpr_app l r : zpr (l ++ r) = zpr l * zpr r.
Proof. induction l as [|x l IH]; cbn [app]; rewrite ?zpr_cons, ?IH; [change (zpr r = One * zpr r)|]; ring. Qed.

#[export] Instance zpr_perm : Proper (Permutation ==> eq) zpr.
Proof. induction 1 as [|x l l' _ IH|x y l|l l' l'' _ IH1 _ IH2]; [done|by rewrite !zpr_cons, IH|rewrite !zpr_cons; ring|congruence]. Qed.

Lemma zpr_nonzero l : Forall (fun x => x <> Zero) l -> zpr l <> Zero.
Proof. induction 1; [apply zr_one_zero|]. rewrite zpr_cons. by apply mul_nonzero. Qed.

Lemma polyf_product {A} (h : A -> Zr) (l : list A) : polyf (length l) (fun x => zpr ((fun j => x - h j) <$> l)).
Proof.
  induction l as [|j l IH]; [by exists One|]. cbn [length]. apply (polyf_ext _ (fun x => (x - h j) * zpr ((fun j => x - h j) <$> l))); [done|].
  apply (polyf_mul 1); [apply polyf_linear|done].
Qed.

Lemma polyf_sum d {A} (h : A -> Zr -> Zr) (l : list A) : (forall a, a ∈ l -> polyf d (h a)) -> polyf d (fun x => zsum ((fun a => h a x) <$> l)).
Proof.
  induction l as [|a l IH]; intros H; [exact (polyf_const d Zero)|].
  apply (polyf_ext _ (fun x => h a x + zsum ((fun a => h a x) <$> l))); [done|]. apply polyf_add; [apply H; left|]. apply IH. intros b Hb. apply H. by right.
Qed.

(** ** The integers as scalars *)

Lemma ones_mul a b : ones (a * b) = ones a * ones b.
Proof. induction a as [|a IH]; cbn [Nat.mul ones]; [ring|]. rewrite ones_add, IH. ring. Qed.

(** The integers below [m] are different scalars. *)
Definition distinct_below (m : nat) : Prop := forall k, (0 < k < m)%nat -> ones k <> Zero.

Lemma ones_inj m i j : distinct_below m -> (i < m)%nat -> (j < m)%nat -> ones i = ones j -> i = j.
Proof.
  intros H. assert (forall a b, (a < b < m)%nat -> ones a <> ones b) as Hlt.
  { intros a b Hab E. apply (H (b - a)%nat); [lia|]. replace (ones (b - a)) with (ones (a + (b - a)) - ones a) by (rewrite ones_add; ring).
    replace (a + (b - a))%nat with b by lia. rewrite E. ring. }
  intros Hi Hj E. destruct (Nat.lt_trichotomy i j) as [L|[->|L]]; [|done|]; exfalso; [by apply (Hlt i j)|by apply (Hlt j i)].
Qed.

Lemma points_NoDup m l : distinct_below m -> NoDup l -> Forall (fun i => (i < m)%nat) l -> NoDup (ones <$> l).
Proof.
  intros H Hl HF. induction Hl as [|i l Hi Hnd IH]; [constructor|]. apply Forall_cons in HF as [Hlt HF]. rewrite fmap_cons. constructor; [|by apply IH].
  intros (j & E & Hj)%list_elem_of_fmap. rewrite Forall_forall in HF. apply (ones_inj m) in E; [subst; done|done..|by apply HF].
Qed.

(** ** The Lagrange basis over 0, ..., m-1 *)

Definition others (m i : nat) : list nat := filter (fun j : nat => j <> i) (seq 0 m).
Definition numer (m : nat) (x : Zr) (i : nat) : Zr := zpr ((fun j => x - ones j) <$> others m i).
Definition denom (m i : nat) : Zr := numer m (ones i) i.
Definition basis (m : nat) (x : Zr) (i : nat) : Zr := numer m x i * InvModOrder (denom m i).

Lemma others_spec m i j : j ∈ others m i <-> j <> i /\ (j < m)%nat.
Proof. unfold others. rewrite list_elem_of_filter, elem_of_seq. lia. Qed.

Lemma length_others m i : (i < m)%nat -> S (length (others m i)) = m.
Proof.
  intros Hi. unfold others. assert (seq 0 m = seq 0 i ++ i :: seq (S i) (m - S i)) as ->.
  { replace m with (i + S (m - S i))%nat at 1 by lia. rewrite seq_app. done. }
  rewrite filter_app, filter_cons_False by naive_solver. assert (forall l : list nat, i ∉ l -> filter (fun j : nat => j <> i) l = l) as Hid.
  { intros l Hn. induction l as [|y l IH]; [done|]. rewrite filter_cons_True by (intros ->; apply Hn; left). rewrite IH; [done|]. intros H. apply Hn. by right. }
  rewrite !Hid by (rewrite elem_of_seq; lia). rewrite length_app, !length_seq. lia.
Qed.

Lemma numer_zero m i j : (j < m)%nat -> j <> i -> numer m (ones j) i = Zero.
Proof.
  intros Hj Hne. assert (j ∈ others m i) as Hin by (by apply others_spec). apply list_elem_of_split in Hin as (l & r & E).
  unfold numer. rewrite E, fmap_app, fmap_cons, zpr_app, zpr_cons. replace (ones j - ones j) with Zero by ring. ring.
Qed.

Lemma denom_nonzero m i : distinct_below m -> (i < m)%nat -> denom m i <> Zero.
Proof.
  intros Hd Hi. apply zpr_nonzero. apply Forall_fmap, Forall_forall. intros j [Hne Hj]%others_spec. cbn. intros E. apply Hne. symmetry. apply (ones_inj m); [done..|].
  replace (ones i) with (ones i - ones j + ones j) by ring. rewrite E. ring.
Qed.

Lemma basis_one m i : distinct_below m -> (i < m)%nat -> basis m (ones i) i = One.
Proof. intros Hd Hi. unfold basis. apply zr_inv. by apply denom_nonzero. Qed.

Lemma basis_poly m i : (i < m)%nat -> polyf (m - 1) (fun x => basis m x i).
Proof.
  intros Hi. apply (polyf_ext _ (fun x => InvModOrder (denom m i) * numer m x i)); [intros x; unfold basis; ring|]. apply polyf_scale.
  replace (m - 1)%nat with (length (others m i)) by (pose proof (length_others m i Hi); lia). apply polyf_product.
Qed.

(** The polynomial through the values [v i] at the integers [i]. *)
Definition lagrange (m : nat) (v : nat -> Zr) (x : Zr) : Zr := zsum ((fun i => basis m x i * v i) <$> seq 0 m).

Lemma lagrange_poly m v : polyf (m - 1) (lagrange m v).
Proof.
  apply polyf_sum. intros i Hi%elem_of_seq. apply (polyf_ext _ (fun x => v i * basis m x i)); [intros x; ring|]. apply polyf_scale, basis_poly. lia.
Qed.

Lemma zsum_single (f : nat -> Zr) i m : (i < m)%nat -> (forall j, (j < m)%nat -> j <> i -> f j = Zero) -> zsum (f <$> seq 0 m) = f i.
Proof.
  intros Hi H. assert (forall l, Forall (fun j => (j < m)%nat /\ j <> i) l -> zsum (f <$> l) = Zero) as Hz.
  { intros l. induction 1 as [|j l [Hj Hne] _ IH]; [done|]. rewrite fmap_cons, zsum_cons, IH, H by done. ring. }
  replace m with (i + S (m - S i))%nat by lia. rewrite seq_app, fmap_app, zsum_app. cbn [Nat.add seq]. rewrite fmap_cons, zsum_cons.
  rewrite (Hz (seq 0 i)), (Hz (seq (S i) _)) by (apply Forall_seq; lia). ring.
Qed.

Lemma lagrange_at m v i : distinct_below m -> (i < m)%nat -> lagrange m v (ones i) = v i.
Proof.
  intros Hd Hi. unfold lagrange. rewrite (zsum_single _ i m Hi), basis_one by done || (intros j Hj Hne; unfold basis; rewrite numer_zero by congruence; ring). ring.
Qed.

(** A polynomial of degree below [m] is its interpolation. *)
Lemma lagrange_unique m f : (0 < m)%nat -> distinct_below m -> polyf (m - 1) f -> forall x, lagrange m (fun i => f (ones i)) x = f x.
Proof.
  intros Hm Hd Hf. apply (polyf_agree (m - 1) _ _ (ones <$> seq 0 m)); [apply lagrange_poly|done| | |].
  - apply (points_NoDup m); [done|apply NoDup_seq|apply Forall_seq; lia].
  - rewrite length_fmap, length_seq. lia.
  - apply Forall_fmap, Forall_seq. intros i Hi. cbn. apply lagrange_at; [done|lia].
Qed.

End Polynomials.

(** ** The generic routines (rp.go)

    The evaluation points are small: [int] and [uint64] are [nat]. *)

Section LagrangeCode.
Context {CO : Curve} {NA : Native} {WI : Wire} {CC : CspCurve}.
Local Open Scope zr_scope.

(** [NewCachedZrFromInt], [NewCachedNegZrFromInt]: the caches hold what is
    computed on a miss. *)
Definition NewCachedZrFromInt (i : nat) : Zr := NewZrFromUint64 (Z.of_nat i).
Definition NewCachedNegZrFromInt (i : nat) : Zr := - NewZrFromUint64 (Z.of_nat i).

Definition fieldDiffInt (a b : nat) : Zr :=
  if (b <=? a)%nat then NewCachedZrFromInt (a - b) else NewCachedNegZrFromInt (b - a).

(** [for j := range m { if j == i { continue }; acc = acc * f(j) }]. *)
Definition skip_product (f : nat -> Zr) (m i : nat) : Zr :=
  foldl (fun acc j => if (j =? i)%nat then acc else acc * f j) One (seq 0 m).

(** [c - j] for all evaluation points. *)
Definition cMinusJ (c : Zr) (j : nat) : Zr := c + NewCachedNegZrFromInt j.

Definition genericLagrangeMultipliers (n : nat) (c : Zr) : list Zr :=
  let m := S n in
  let numers := skip_product (cMinusJ c) m <$> seq 0 m in
  let denoms := (fun i => skip_product (fieldDiffInt i) m i) <$> seq 0 m in
  zip_with ModMul numers (BatchInverse denoms).

(** The indices [0, n+1, ..., 2n]. *)
Definition relevant (n : nat) : list nat := 0%nat :: seq (S n) n.

Definition genericLagrangeMultipliersPartial (n : nat) (c : Zr) : list Zr :=
  let total := (2 * n + 1)%nat in
  let numers := skip_product (cMinusJ c) total <$> relevant n in
  let denoms := (fun i => skip_product (fieldDiffInt i) total i) <$> relevant n in
  zip_with ModMul numers (BatchInverse denoms).

(** The value at [x] of the polynomial with these values at [0, ..., n]. *)
Definition extend_at (m : nat) (denomInvs values : list Zr) (x : nat) : Zr :=
  let xMinusJ := fieldDiffInt x <$> seq 0 m in
  let px := foldl ModMul One xMinusJ in
  let xMinusJInvs := BatchInverse xMinusJ in
  foldl (fun val '(inv, dinv, v) => val + px * inv * dinv * v) Zero (zip (zip xMinusJInvs denomInvs) values).

Definition genericInterpolate (n : nat) (valuesOverN : list Zr) : list Zr :=
  let m := S n in
  let denoms := (fun i => skip_product (fieldDiffInt i) m i) <$> seq 0 m in
  let denomInvs := BatchInverse denoms in
  valuesOverN ++ (extend_at m denomInvs valuesOverN <$> seq (S n) n).

(** ** The native routines *)

Definition Fr_int (k : Z) : Fr := Fr_SetInt64 k.

Definition native_skip_product (f : nat -> Fr) (m i : nat) : Fr :=
  foldl (fun acc j => if (j =? i)%nat then acc else Fr_Mul acc (f j)) Fr_One (seq 0 m).

(** lagrange_cache.go: the inverted denominators, for the points [0..n] or, when
    [partial], for the relevant ones among [0..2n]. *)
Definition computeDenomInvs (n : nat) (partial : bool) : list Fr :=
  let m := if partial then (2 * n + 1)%nat else S n in
  let indices := if partial then relevant n else seq 0 m in
  NativeBatchInverse ((fun i => native_skip_product (fun j => Fr_int (Z.of_nat i - Z.of_nat j)) m i) <$> indices).

(** The cache, a [sync.Map]: [Load] finds an entry or not; on a miss the entry
    is computed and [LoadOrStore] returns the one another goroutine stored in
    between, if any.  [cache] and [cache'] are the contents at the two calls. *)
Definition denom_cache : Type := nat * bool -> option (list Fr).

Definition getOrComputeDenomInvs (cache cache' : denom_cache) (n : nat) (partial : bool) : list Fr * denom_cache :=
  match cache (n, partial) with
  | Some invs => (invs, cache)
  | None =>
      let invs := computeDenomInvs n partial in
      match cache' (n, partial) with
      | Some actual => (actual, cache')
      | None => (invs, fun k => if bool_decide (k = (n, partial)) then Some invs else cache' k)
      end
  end.

(** [computeNumeratorsBinaryTree]: the two halves of the slab are the tree of
    products and the tree of excluded products, both of [2m-1] nodes in the
    order of a heap; the leaves are arranged so that the parent of two leaves has
    a cheap product.  The slab comes from a pool with whatever it holds. *)
Definition leftChild (i : nat) : nat := (2 * i + 1)%nat.
Definition rightChild (i : nat) : nat := (2 * i + 2)%nat.

Definition write_leaves (m : nat) (cE : Fr) (full : list Fr) : res (list Fr) :=
  let leafStart := (m - 1)%nat in
  let m2 := (m / 2)%nat in
  let odd := (m mod 2)%nat in
  full ← (if (odd =? 1)%nat then set_index full leafStart (Fr_Sub cE (Fr_int (Z.of_nat m2))) else Ok full);
  foldR (fun full i =>
    full ← set_index full (leafStart + 2 * i + odd) (Fr_Sub cE (Fr_int (Z.of_nat i)));
    set_index full (leafStart + 2 * i + 1 + odd) (Fr_Sub cE (Fr_int (Z.of_nat (m - 1 - i))))) full (seq 0 m2).

(** [for i := leafStart - 1; i >= leafPairsStart; i--]. *)
Definition write_pairs (m : nat) (cE : Fr) (full : list Fr) : res (list Fr) :=
  let leafStart := (m - 1)%nat in
  let m2 := (m / 2)%nat in
  let leafPairsStart := (leafStart - m2)%nat in
  let ccm := Fr_Mul cE (Fr_Sub cE (Fr_int (Z.of_nat (m - 1)))) in
  foldR (fun full t =>
    let i := (leafStart - 1 - t)%nat in
    let j := (i - leafPairsStart)%nat in
    set_index full i (Fr_Add ccm (Fr_int (Z.of_nat (j * (m - 1 - j)))))) full (seq 0 m2).

(** [for i := leafPairsStart - 1; i >= 0; i--]. *)
Definition write_inner (m : nat) (full : list Fr) : res (list Fr) :=
  let leafPairsStart := (m - 1 - m / 2)%nat in
  foldR (fun full t =>
    let i := (leafPairsStart - 1 - t)%nat in
    l ← index full (leftChild i);
    r ← index full (rightChild i);
    set_index full i (Fr_Mul l r)) full (seq 0 leafPairsStart).

Definition write_excluded (m : nat) (full exclude : list Fr) : res (list Fr) :=
  exclude ← set_index exclude 0 Fr_One;
  foldR (fun exclude i =>
    r ← index full (rightChild i);
    l ← index full (leftChild i);
    e ← index exclude i;
    exclude ← set_index exclude (leftChild i) (Fr_Mul e r);
    e ← index exclude i;
    set_index exclude (rightChild i) (Fr_Mul e l)) exclude (seq 0 (m - 1)).

(** Every entry of the result is written. *)
Definition read_numerators (m : nat) (exclude : list Fr) : res (list Fr) :=
  let leafStart := (m - 1)%nat in
  let m2 := (m / 2)%nat in
  let odd := (m mod 2)%nat in
  let numers := replicate m Fr_Zero in
  numers ← (if (odd =? 1)%nat then e ← index exclude leafStart; set_index numers m2 e else Ok numers);
  foldR (fun numers i =>
    e ← index exclude (leafStart + 2 * i + odd);
    numers ← set_index numers i e;
    e ← index exclude (leafStart + 2 * i + 1 + odd);
    set_index numers (m - 1 - i) e) numers (seq 0 m2).

Definition computeNumeratorsBinaryTree (m : nat) (c : Zr) (slab : list Fr) : res (list Fr) :=
  let treeSize := (2 * m - 1)%nat in
  let cE := SetNativeFromZr c in
  full ← write_leaves m cE (take treeSize slab);
  full ← write_pairs m cE full;
  full ← write_inner m full;
  exclude ← write_excluded m full (drop treeSize slab);
  read_numerators m exclude.

(** lagrange_pool.go, [getTreeArrays]: what the pool returns, or a new slab when
    it has the wrong length. *)
Definition getTreeArrays (m : nat) (pooled : list Fr) : list Fr :=
  let total := (2 * (2 * m - 1))%nat in
  if (length pooled =? total)%nat then pooled else replicate total Fr_Zero.

Definition getLagrangeMultipliersNative (n : nat) (c : Zr) (denomInvs pooled : list Fr) : res (list Zr) :=
  let m := S n in
  numers ← computeNumeratorsBinaryTree m c (getTreeArrays m pooled);
  mapM (fun i => a ← index numers i; b ← index denomInvs i; Ok (NativeToZr (Fr_Mul a b))) (seq 0 m).

Definition getLagrangeMultipliersPartialNative (n : nat) (c : Zr) (denomInvs pooled : list Fr) : res (list Zr) :=
  let total := (2 * n + 1)%nat in
  allNumers ← computeNumeratorsBinaryTree total c (getTreeArrays total pooled);
  mapM (fun '(k, i) => a ← index allNumers i; b ← index denomInvs k; Ok (NativeToZr (Fr_Mul a b))) (zip (seq 0 (S n)) (relevant n)).

(** The three ways to convert a value agree with [SetNativeFromZr]. *)
Definition native_value (v : Zr) : Fr := if Zr_IsZero v then Fr_Zero else if Zr_IsOne v then Fr_One else SetNativeFromZr v.

Definition native_extend_at (m : nat) (denomInvs vals : list Fr) (x : nat) : Zr :=
  let xMinusJ := (fun j => Fr_int (Z.of_nat x - Z.of_nat j)) <$> seq 0 m in
  let px := foldl Fr_Mul Fr_One xMinusJ in
  let xMinusJInvs := NativeBatchInverse xMinusJ in
  NativeToZr (foldl (fun val '(inv, dinv, v) => Fr_Add val (Fr_Mul (Fr_Mul (Fr_Mul px inv) dinv) v)) Fr_Zero (zip (zip xMinusJInvs denomInvs) vals)).

Definition interpolateNative (n : nat) (valuesOverN : list Zr) (denomInvs : list Fr) : list Zr :=
  valuesOverN ++ (native_extend_at (S n) denomInvs (native_value <$> valuesOverN) <$> seq (S n) n).

(** ** Dispatch *)

Definition native_curve : bool := let '(isBLS, isBN254) := DispatchCurve in isBLS || isBN254.

(** What the shared cache and pool hold at a call: the contents of the cache at
    its two accesses, and a slab. *)
Record lagrange_env := {
  le_cache : denom_cache;
  le_cache' : denom_cache;
  le_pooled : nat -> list Fr;
}.

Definition denomInvs_of (env : lagrange_env) (n : nat) (partial : bool) : list Fr :=
  (getOrComputeDenomInvs (le_cache env) (le_cache' env) n partial).1.

Definition getLagrangeMultipliers (env : lagrange_env) (n : nat) (c : Zr) : res (list Zr) :=
  if native_curve then getLagrangeMultipliersNative n c (denomInvs_of env n false) (le_pooled env (S n)) else Ok (genericLagrangeMultipliers n c).

Definition getLagrangeMultipliersPartial (env : lagrange_env) (n : nat) (c : Zr) : res (list Zr) :=
  if native_curve then getLagrangeMultipliersPartialNative n c (denomInvs_of env n true) (le_pooled env (2 * n + 1)%nat) else Ok (genericLagrangeMultipliersPartial n c).

Definition interpolate (env : lagrange_env) (n : nat) (valuesOverN : list Zr) : list Zr :=
  if native_curve then interpolateNative n valuesOverN (denomInvs_of env n false) else genericInterpolate n valuesOverN.

End LagrangeCode.
