(* ===== verification/LagrangeSpec.v ===== *)
(** * What the Lagrange routines compute

    Generic and native routines, the latter with any consistent cache and any
    pooled memory, return the values of the Lagrange basis of [Lagrange]. *)

From S2P Require Import Prelude GoStd Der Asn1 ZkMath ZkIpa ZkRange ZkSigma ZkCodec ZkTransfer Csp CspFold Lagrange.
From Stdlib Require Import ZArith Lia Ring.

Section LagrangeSpec.
Context {CO : Curve} {CL : CurveLaws} {NA : Native} {NL : NativeLaws} {WI : Wire} {CC : CspCurve} {CP : CspLaws}.
Add Ring zr_lag : zr_ring.
Local Open Scope zr_scope.

(** All indices that occur are below this. *)
Definition small_index (i : nat) : Prop := (Z.of_nat i < 2 ^ 31)%Z.

Lemma small_ones i : small_index i -> NewZrFromUint64 (Z.of_nat i) = ones i.
Proof. unfold small_index. intros H. apply new_ones. unfold two64. lia. Qed.

Lemma cMinusJ_spec c j : small_index j -> cMinusJ c j = c - ones j.
Proof. intros H. unfold cMinusJ, NewCachedNegZrFromInt. rewrite small_ones by done. ring. Qed.

Lemma fieldDiffInt_spec a b : small_index a -> small_index b -> fieldDiffInt a b = ones a - ones b.
Proof.
  intros Ha Hb. unfold fieldDiffInt, NewCachedZrFromInt, NewCachedNegZrFromInt, small_index in *. destruct (Nat.leb_spec b a); rewrite small_ones by (unfold small_index; lia).
  - replace a with (b + (a - b))%nat at 2 by lia. rewrite ones_add. ring.
  - replace b with (a + (b - a))%nat at 2 by lia. rewrite ones_add. ring.
Qed.

Lemma Fr_int_sub a b : small_index a -> small_index b -> NativeToZr (Fr_int (Z.of_nat a - Z.of_nat b)) = ones a - ones b.
Proof.
  intros Ha Hb. rewrite <- fieldDiffInt_spec by done. unfold Fr_int, fieldDiffInt, NewCachedZrFromInt, NewCachedNegZrFromInt, small_index in *. destruct (Nat.leb_spec b a).
  - rewrite Nat2Z.inj_sub by done. apply native_int. lia.
  - rewrite Nat2Z.inj_sub by lia. replace (Z.of_nat a - Z.of_nat b)%Z with (- (Z.of_nat b - Z.of_nat a))%Z by lia. apply native_int_neg. lia.
Qed.

Lemma Fr_int_ones a : small_index a -> NativeToZr (Fr_int (Z.of_nat a)) = ones a.
Proof. intros Ha. unfold Fr_int. rewrite native_int, small_ones by (unfold small_index in Ha; lia || done). done. Qed.

(** ** Products that skip an index *)

Lemma foldl_skip (f : nat -> Zr) i l : forall acc, foldl (fun acc j => if (j =? i)%nat then acc else acc * f j) acc l
  = acc * zpr (f <$> filter (fun j : nat => j <> i) l).
Proof.
  induction l as [|j l IH]; intros acc; [cbn; ring|]. cbn [foldl]. rewrite IH. destruct (Nat.eqb_spec j i) as [->|Hne].
  - rewrite filter_cons_False by naive_solver. done.
  - rewrite filter_cons_True by done. rewrite fmap_cons, zpr_cons. ring.
Qed.

Lemma skip_product_spec f m i : skip_product f m i = zpr (f <$> others m i).
Proof. unfold skip_product. rewrite foldl_skip. unfold others. ring. Qed.

Lemma zpr_ext (f g : nat -> Zr) l : (forall j, j ∈ l -> f j = g j) -> zpr (f <$> l) = zpr (g <$> l).
Proof. intros H. f_equal. apply list_fmap_ext. intros k j Hj. apply H. by eapply list_elem_of_lookup_2. Qed.

Lemma numer_spec c m i : small_index m -> skip_product (cMinusJ c) m i = numer m c i.
Proof.
  intros Hm. rewrite skip_product_spec. apply zpr_ext. intros j [_ Hj]%others_spec. apply cMinusJ_spec. unfold small_index in *. lia.
Qed.

Lemma denom_spec m i : small_index m -> (i < m)%nat -> skip_product (fieldDiffInt i) m i = denom m i.
Proof.
  intros Hm Hi. rewrite skip_product_spec. apply zpr_ext. intros j [_ Hj]%others_spec. apply fieldDiffInt_spec; unfold small_index in *; lia.
Qed.

(** ** The generic routines *)

Lemma BatchInverse_denoms m l : small_index m -> distinct_below m -> Forall (fun i => (i < m)%nat) l ->
  BatchInverse ((fun i => skip_product (fieldDiffInt i) m i) <$> l) = (fun i => InvModOrder (denom m i)) <$> l.
Proof.
  intros Hm Hd HF. assert ((fun i => skip_product (fieldDiffInt i) m i) <$> l = denom m <$> l) as ->.
  { apply list_fmap_ext. intros k i Hi%list_elem_of_lookup_2. rewrite Forall_forall in HF. apply denom_spec; auto. }
  rewrite BatchInverse_map; [by rewrite <- list_fmap_compose|]. apply Forall_fmap. apply (Forall_impl _ _ _ HF). intros i Hi. by apply denom_nonzero.
Qed.

Lemma zip_with_fmaps {A B C D} (h : B -> C -> D) (f : A -> B) (g : A -> C) l : zip_with h (f <$> l) (g <$> l) = (fun x => h (f x) (g x)) <$> l.
Proof. induction l as [|x l IH]; [done|]. cbn. f_equal. apply IH. Qed.

Lemma basis_of c m l : small_index m -> distinct_below m -> Forall (fun i => (i < m)%nat) l ->
  zip_with ModMul (skip_product (cMinusJ c) m <$> l) (BatchInverse ((fun i => skip_product (fieldDiffInt i) m i) <$> l)) = basis m c <$> l.
Proof.
  intros Hm Hd HF. rewrite BatchInverse_denoms, zip_with_fmaps by done. apply list_fmap_ext. intros k i _. cbn. by rewrite numer_spec.
Qed.

Lemma relevant_below n : Forall (fun i => (i < 2 * n + 1)%nat) (relevant n).
Proof. constructor; [lia|]. apply Forall_seq. lia. Qed.

Lemma generic_multipliers n c : small_index (S n) -> distinct_below (S n) -> genericLagrangeMultipliers n c = basis (S n) c <$> seq 0 (S n).
Proof. intros Hm Hd. apply (basis_of c (S n) (seq 0 (S n))); [done..|]. apply Forall_seq. lia. Qed.

Lemma generic_partial n c : small_index (2 * n + 1) -> distinct_below (2 * n + 1) -> genericLagrangeMultipliersPartial n c = basis (2 * n + 1) c <$> relevant n.
Proof. intros Hm Hd. by apply (basis_of c (2 * n + 1)); [..|apply relevant_below]. Qed.

(** [px] divided by one of its factors. *)
Lemma numer_divided m x i : (i < m)%nat -> zpr ((fun j => x - ones j) <$> seq 0 m) = (x - ones i) * numer m x i.
Proof.
  intros Hi. unfold numer, others. assert (seq 0 m ≡ₚ i :: filter (fun j : nat => j <> i) (seq 0 m)) as Hp.
  { apply NoDup_Permutation; [apply NoDup_seq|constructor; [rewrite list_elem_of_filter; naive_solver|apply NoDup_filter, NoDup_seq]|].
    intros j. rewrite elem_of_cons, list_elem_of_filter, elem_of_seq. destruct (decide (j = i)); naive_solver lia. }
  rewrite Hp at 1. by rewrite fmap_cons, zpr_cons.
Qed.

Lemma foldl_zpr l : forall acc, foldl ModMul acc l = acc * zpr l.
Proof. induction l as [|x l IH]; intros acc; cbn [foldl]; [cbn; ring|]. rewrite IH, zpr_cons. ring. Qed.

(** One term of the extension. *)
Lemma basis_term m x i : distinct_below m -> (i < m)%nat -> x - ones i <> Zero ->
  zpr ((fun j => x - ones j) <$> seq 0 m) * InvModOrder (x - ones i) * InvModOrder (denom m i) = basis m x i.
Proof.
  intros Hd Hi Hx. rewrite (numer_divided m x i Hi). unfold basis.
  transitivity ((x - ones i) * InvModOrder (x - ones i) * numer m x i * InvModOrder (denom m i)); [ring|]. rewrite zr_inv by done. ring.
Qed.

Lemma zsum_terms m (f g : nat -> Zr) values : forall k, length values = m -> (forall i, (k <= i < k + m)%nat -> f i = g i) ->
  zsum (zip_with (fun i v => f i * v) (seq k m) values) = zsum ((fun i => g i * nth (i - k) values Zero) <$> seq k m).
Proof.
  revert values. induction m as [|m IH]; intros [|v values] k; try done. cbn [length seq]. intros [=Hl] H. cbn [zip_with].
  rewrite fmap_cons, !zsum_cons, Nat.sub_diag. cbn [nth]. rewrite (H k) by lia. f_equal. rewrite (IH values (S k)) by (done || intros i Hi; apply H; lia).
  f_equal. apply list_fmap_ext. intros t i Hi%list_elem_of_lookup_2%elem_of_seq. by replace (i - k)%nat with (S (i - S k)) by lia.
Qed.

(** The value at [x] of the polynomial through the given values. *)
Definition value_at (values : list Zr) (i : nat) : Zr := nth i values Zero.

Lemma extend_sum m values px (invs dinvs : nat -> Zr) :  length values = m ->
  foldl (fun val '(inv, dinv, v) => val + px * inv * dinv * v) Zero (zip (zip (invs <$> seq 0 m) (dinvs <$> seq 0 m)) values)
  = zsum ((fun i => px * invs i * dinvs i * value_at values i) <$> seq 0 m).
Proof.
  intros Hl. assert (forall l acc, foldl (fun val '(inv, dinv, v) => val + px * inv * dinv * v) acc l = acc + zsum ((fun '(inv, dinv, v) => px * inv * dinv * v) <$> l)) as Hf.
  { induction l as [|[[a b] v] l IH]; intros acc; cbn [foldl]; [cbn; ring|]. rewrite IH, fmap_cons, zsum_cons. ring. }
  rewrite Hf. transitivity (zsum (zip_with (fun i v => px * invs i * dinvs i * v) (seq 0 m) values)).
  - rewrite zip_with_fmaps. match goal with |- Zero + zsum ?l = zsum ?r => assert (l = r) as -> end; [|ring].
    clear Hf. generalize (seq 0 m). revert values Hl. intros values _ l. revert values. induction l as [|i l IH]; intros [|v values]; try done. cbn. f_equal. apply IH.
  - rewrite (zsum_terms m _ (fun i => px * invs i * dinvs i) values 0) by done. f_equal. apply list_fmap_ext. intros k i _. unfold value_at. by rewrite Nat.sub_0_r.
Qed.

Lemma diff_nonzero M a b : distinct_below M -> (a < M)%nat -> (b < M)%nat -> a <> b -> ones a - ones b <> Zero.
Proof. intros Hd Ha Hb Hne E. apply Hne, (ones_inj M); [done..|]. replace (ones a) with (ones a - ones b + ones b) by ring. rewrite E. ring. Qed.

Lemma distinct_le m M : (m <= M)%nat -> distinct_below M -> distinct_below m.
Proof. intros H Hd k Hk. apply Hd. lia. Qed.

Definition extended (n : nat) (values : list Zr) : list Zr :=
  values ++ ((fun x => lagrange (S n) (value_at values) (ones x)) <$> seq (S n) n).

Lemma generic_interpolate n values : small_index (2 * n + 1) -> distinct_below (2 * n + 1) -> length values = S n ->
  genericInterpolate n values = extended n values.
Proof.
  intros Hm Hd Hl. unfold genericInterpolate, extended. f_equal. assert (small_index (S n)) as Hs by (unfold small_index in *; lia).
  rewrite BatchInverse_denoms; [|done|by apply (distinct_le (S n) (2 * n + 1)); [lia|]|apply Forall_seq; lia].
  apply list_fmap_ext. intros k x Hx%list_elem_of_lookup_2%elem_of_seq. unfold extend_at.
  assert (fieldDiffInt x <$> seq 0 (S n) = (fun j => ones x - ones j) <$> seq 0 (S n)) as ->.
  { apply list_fmap_ext. intros t j Hj%list_elem_of_lookup_2%elem_of_seq. apply fieldDiffInt_spec; unfold small_index in *; lia. }
  rewrite BatchInverse_map, <- list_fmap_compose, foldl_zpr.
  2:{ apply Forall_fmap, Forall_seq. intros j Hj. cbn. apply (diff_nonzero (2 * n + 1)); [done|lia..]. }
  rewrite (extend_sum (S n) values _ _ _ Hl). unfold lagrange. f_equal. apply list_fmap_ext. intros t i Hi%list_elem_of_lookup_2%elem_of_seq. f_equal. cbn [compose].
  rewrite <- (basis_term (S n) (ones x) i); [cbn; ring|by apply (distinct_le (S n) (2 * n + 1)); [lia|]|lia|]. apply (diff_nonzero (2 * n + 1)); [done|lia..].
Qed.

(** ** The native routines *)

Lemma native_skip f m i (g : nat -> Zr) : (forall j, (j < m)%nat -> NativeToZr (f j) = g j) ->
  NativeToZr (native_skip_product f m i) = skip_product g m i.
Proof.
  intros H. unfold native_skip_product, skip_product. assert (forall l acc, Forall (fun j => (j < m)%nat) l ->
    NativeToZr (foldl (fun acc j => if (j =? i)%nat then acc else Fr_Mul acc (f j)) acc l) = foldl (fun acc j => if (j =? i)%nat then acc else acc * g j) (NativeToZr acc) l) as Hl.
  { intros l. induction l as [|j l IH]; intros acc HF; [done|]. apply Forall_cons in HF as [Hj HF]. cbn [foldl]. rewrite IH by done. f_equal.
    destruct (j =? i)%nat; [done|]. by rewrite native_mul, H. }
  rewrite Hl, native_one; [done|]. apply Forall_seq. lia.
Qed.

Lemma native_denoms m l : small_index m -> distinct_below m -> Forall (fun i => (i < m)%nat) l ->
  NativeToZr <$> NativeBatchInverse ((fun i => native_skip_product (fun j => Fr_int (Z.of_nat i - Z.of_nat j)) m i) <$> l)
  = (fun i => InvModOrder (denom m i)) <$> l.
Proof.
  intros Hm Hd HF. assert (forall i, i ∈ l -> NativeToZr (native_skip_product (fun j => Fr_int (Z.of_nat i - Z.of_nat j)) m i) = denom m i) as E.
  { intros i Hi. rewrite Forall_forall in HF. specialize (HF i Hi). rewrite <- denom_spec by done. apply native_skip. intros j Hj.
    rewrite Fr_int_sub, fieldDiffInt_spec; [done|unfold small_index in *; lia..]. }
  rewrite NativeBatchInverse_map.
  - rewrite <- !list_fmap_compose. apply list_fmap_ext. intros k i Hi%list_elem_of_lookup_2. cbn. by rewrite E.
  - apply Forall_fmap, Forall_forall. intros i Hi. cbn. rewrite E by done. rewrite Forall_forall in HF. apply denom_nonzero; auto.
Qed.

Definition denom_points (n : nat) (partial : bool) : nat := if partial then (2 * n + 1)%nat else S n.
Definition denom_indices (n : nat) (partial : bool) : list nat := if partial then relevant n else seq 0 (S n).

Lemma computeDenomInvs_spec n partial : small_index (2 * n + 1) -> distinct_below (2 * n + 1) ->
  NativeToZr <$> computeDenomInvs n partial = (fun i => InvModOrder (denom (denom_points n partial) i)) <$> denom_indices n partial.
Proof.
  intros Hm Hd. unfold computeDenomInvs, denom_points, denom_indices. destruct partial.
  - apply native_denoms; [done..|apply relevant_below].
  - apply native_denoms; [unfold small_index in *; lia|by apply (distinct_le (S n) (2 * n + 1)); [lia|]|apply Forall_seq; lia].
Qed.

(** Every entry of the cache is what would be computed. *)
Definition cache_ok (cache : denom_cache) : Prop := forall n partial invs, cache (n, partial) = Some invs -> invs = computeDenomInvs n partial.

Lemma getOrCompute_ok cache cache' n partial : cache_ok cache -> cache_ok cache' ->
  let '(invs, after) := getOrComputeDenomInvs cache cache' n partial in invs = computeDenomInvs n partial /\ cache_ok after.
Proof.
  intros H H'. unfold getOrComputeDenomInvs. destruct (cache (n, partial)) as [invs|] eqn:E; [split; [by apply H|done]|].
  destruct (cache' (n, partial)) as [invs|] eqn:E'; [split; [by apply H'|done]|]. split; [done|].
  intros m p invs. case_bool_decide as Hk; [injection Hk as -> ->; by intros [= <-]|apply H'].
Qed.

Definition env_ok (env : lagrange_env) : Prop := cache_ok (le_cache env) /\ cache_ok (le_cache' env).

Lemma denomInvs_ok env n partial : env_ok env -> denomInvs_of env n partial = computeDenomInvs n partial.
Proof.
  intros [H H']. unfold denomInvs_of. pose proof (getOrCompute_ok _ _ n partial H H') as E. destruct (getOrComputeDenomInvs _ _ _ _). by destruct E.
Qed.

Lemma native_value_spec v : NativeToZr (native_value v) = v.
Proof.
  unfold native_value. rewrite zr_is_zero, zr_is_one. case_bool_decide as E; [subst; apply native_zero|]. case_bool_decide as E1; [subst; apply native_one|]. apply native_set.
Qed.

Lemma native_extend_sum px l : forall acc,
  NativeToZr (foldl (fun val '(inv, dinv, v) => Fr_Add val (Fr_Mul (Fr_Mul (Fr_Mul px inv) dinv) v)) acc l)
  = foldl (fun val '(inv, dinv, v) => val + NativeToZr px * inv * dinv * v) (NativeToZr acc) (prod_map (prod_map NativeToZr NativeToZr) NativeToZr <$> l).
Proof.
  induction l as [|[[a b] v] l IH]; intros acc; [done|]. cbn [foldl]. rewrite IH. rewrite fmap_cons. cbn [foldl prod_map]. by rewrite native_add, !native_mul.
Qed.

Lemma zip_fmap2 {A B C D} (f : A -> C) (g : B -> D) l : forall r, prod_map f g <$> zip l r = zip (f <$> l) (g <$> r).
Proof. induction l as [|x l IH]; intros [|y r]; try done. cbn. f_equal. apply IH. Qed.

Lemma native_interpolate n values denomInvs : small_index (2 * n + 1) -> distinct_below (2 * n + 1) -> length values = S n ->
  NativeToZr <$> denomInvs = (fun i => InvModOrder (denom (S n) i)) <$> seq 0 (S n) -> interpolateNative n values denomInvs = extended n values.
Proof.
  intros Hm Hd Hl Hi. rewrite <- generic_interpolate by done. unfold interpolateNative, genericInterpolate. f_equal.
  rewrite BatchInverse_denoms; [|unfold small_index in *; lia|by apply (distinct_le (S n) (2 * n + 1)); [lia|]|apply Forall_seq; lia].
  apply list_fmap_ext. intros k x Hx%list_elem_of_lookup_2%elem_of_seq. unfold native_extend_at, extend_at. rewrite native_extend_sum, native_zero.
  assert (NativeToZr <$> ((fun j => Fr_int (Z.of_nat x - Z.of_nat j)) <$> seq 0 (S n)) = fieldDiffInt x <$> seq 0 (S n)) as Ed.
  { rewrite <- list_fmap_compose. apply list_fmap_ext. intros t j Hj%list_elem_of_lookup_2%elem_of_seq. cbn.
    rewrite Fr_int_sub, fieldDiffInt_spec; [done|unfold small_index in *; lia..]. }
  assert (forall l acc, NativeToZr (foldl Fr_Mul acc l) = foldl ModMul (NativeToZr acc) (NativeToZr <$> l)) as Hpx.
  { intros l. induction l as [|y l IH]; intros acc; [done|]. cbn [foldl]. rewrite IH, native_mul. done. }
  rewrite Hpx, native_one, Ed. assert (Forall (fun y => y <> Zero) (fieldDiffInt x <$> seq 0 (S n))) as Hnz.
  { apply Forall_fmap, Forall_seq. intros j Hj. cbn. rewrite fieldDiffInt_spec by (unfold small_index in *; lia). apply (diff_nonzero (2 * n + 1)); [done|lia..]. }
  pose proof Hnz as Hnn. rewrite <- Ed, Forall_fmap in Hnn.
  rewrite !zip_fmap2, NativeBatchInverse_map, Ed, BatchInverse_map, Hi by done.
  do 3 f_equal. rewrite <- list_fmap_compose. transitivity (id <$> values); [|by rewrite list_fmap_id]. apply list_fmap_ext. intros t v _. apply native_value_spec.
Qed.
End LagrangeSpec.
