(* ===== verification/LagrangeTree.v ===== *)
(** * The tree of products (lagrange_native.go, [computeNumeratorsBinaryTree])

    The routine computes, for every [i], the product of all [c - j] with [j]
    different from [i], without divisions: products of subtrees bottom up, then
    products of everything outside a subtree top down.  The proof follows the
    frontier of the heap: the nodes [t, ..., 2t] partition the leaves for every
    [t]. *)

From S2P Require Import Prelude GoStd Der Asn1 ZkMath ZkIpa ZkRange ZkSigma ZkCodec ZkTransfer Csp CspFold Lagrange LagrangeSpec.
From Stdlib Require Import ZArith Lia Ring.

(** A loop with an invariant. *)
Lemma foldR_inv {S} (step : S -> nat -> res S) (P : nat -> S -> Prop) n s0 : P 0%nat s0 ->
  (forall i s, (i < n)%nat -> P i s -> exists s', step s i = Ok s' /\ P (Datatypes.S i) s') ->
  exists s', foldR step s0 (seq 0 n) = Ok s' /\ P n s'.
Proof.
  intros H0 H. induction n as [|n IH]; [by exists s0|]. destruct IH as (s & Hs & HP); [intros i s Hi; apply H; lia|].
  destruct (H n s) as (s' & Hs' & HP'); [lia|done|]. exists s'. split; [|done]. rewrite seq_S, foldR_app, Hs. cbn [mbind res_mbind foldR Nat.add]. by rewrite Hs'.
Qed.

Section Tree.
Context {CO : Curve} {CL : CurveLaws} {NA : Native} {NL : NativeLaws} {WI : Wire} {CC : CspCurve} {CP : CspLaws}.
Add Ring zr_tree : zr_ring.
Local Open Scope zr_scope.

(** The scalar a node holds. *)
Definition val (s : list Fr) (i : nat) : Zr := NativeToZr (nth i s Fr_Zero).

Lemma val_insert s i e j : (i < length s)%nat -> val (<[i := e]> s) j = if decide (j = i) then NativeToZr e else val s j.
Proof.
  intros Hi. unfold val. rewrite !nth_lookup. destruct (decide (j = i)) as [->|]; [by rewrite list_lookup_insert_eq|by rewrite list_lookup_insert_ne].
Qed.

Lemma set_index_ok {A} (s : list A) i e : (i < length s)%nat -> set_index s i e = Ok (<[i := e]> s).
Proof. intros Hi. unfold set_index. by destruct (Nat.ltb_spec i (length s)); [|lia]. Qed.

Context (m : nat) (Hm : (0 < m <= 1000)%nat) (c : Zr).
Let m2 := (m / 2)%nat.
Let odd := (m mod 2)%nat.
Let cE := SetNativeFromZr c.

Lemma m_split : m = (2 * m2 + odd)%nat /\ (odd = 0 \/ odd = 1)%nat.
Proof. unfold m2, odd. split; [apply Nat.div_mod; lia|]. pose proof (Nat.mod_upper_bound m 2). lia. Qed.

Lemma small_m i : (i <= m * m)%nat -> small_index i.
Proof using Hm. intros Hi. unfold small_index. assert (i <= 1000 * 1000)%nat as H by (etransitivity; [exact Hi|]; apply Nat.mul_le_mono; lia). lia. Qed.

Lemma sub_int i : (i <= m)%nat -> NativeToZr (Fr_Sub cE (Fr_int (Z.of_nat i))) = c - ones i.
Proof using Hm NL CL CP.
  intros Hi. unfold cE. rewrite native_sub, native_set, Fr_int_ones by (apply small_m; nia). done.
Qed.

(** The leaf [k] holds [c - leaf_index k]. *)
Definition leaf_index (k : nat) : nat :=
  if (k <? odd)%nat then m2 else if ((k - odd) mod 2 =? 0)%nat then ((k - odd) / 2)%nat else (m - 1 - (k - odd) / 2)%nat.

Lemma leaf_cases k : (k < m)%nat -> (odd = 1 /\ k = 0 /\ leaf_index k = m2)%nat \/
  exists i, (i < m2)%nat /\ ((k = 2 * i + odd /\ leaf_index k = i) \/ (k = 2 * i + 1 + odd /\ leaf_index k = m - 1 - i))%nat.
Proof.
  intros Hk. destruct m_split as [E Ho]. unfold leaf_index. destruct (Nat.ltb_spec k odd); [left; lia|]. right.
  pose proof (Nat.div_mod (k - odd) 2 ltac:(lia)) as Ek. pose proof (Nat.mod_upper_bound (k - odd) 2 ltac:(lia)) as Hb.
  set (q := ((k - odd) / 2)%nat) in *. set (r := ((k - odd) mod 2)%nat) in *. exists q. destruct (Nat.eqb_spec r 0); (split; [lia|]); [left|right]; lia.
Qed.

Lemma write_leaves_spec full : length full = (2 * m - 1)%nat ->
  exists full', write_leaves m cE full = Ok full' /\ length full' = length full /\ forall k, (k < m)%nat -> val full' (m - 1 + k) = c - ones (leaf_index k).
Proof using Hm NL CL CP.
  intros Hl. destruct m_split as [Em Ho]. unfold write_leaves. fold odd m2.
  assert (exists f1, (if (odd =? 1)%nat then set_index full (m - 1) (Fr_Sub cE (Fr_int (Z.of_nat m2))) else Ok full) = Ok f1 /\ length f1 = length full /\
            (odd = 1%nat -> val f1 (m - 1) = c - ones m2)) as (f1 & -> & Hl1 & H1).
  { destruct (Nat.eqb_spec odd 1) as [Eo|].
    - rewrite set_index_ok by lia. eexists. split; [done|]. rewrite length_insert. split; [done|]. intros _. rewrite val_insert, decide_True by lia. apply sub_int. lia.
    - exists full. split_and!; [done..|lia]. }
  cbn [mbind res_mbind].
  destruct (foldR_inv (fun full i => full ← set_index full (m - 1 + 2 * i + odd) (Fr_Sub cE (Fr_int (Z.of_nat i)));
    set_index full (m - 1 + 2 * i + 1 + odd) (Fr_Sub cE (Fr_int (Z.of_nat (m - 1 - i)))))
    (fun t s => length s = length full /\ (odd = 1%nat -> val s (m - 1) = c - ones m2) /\
       forall i, (i < t)%nat -> val s (m - 1 + (2 * i + odd)) = c - ones i /\ val s (m - 1 + (2 * i + 1 + odd)) = c - ones (m - 1 - i)) m2 f1) as (s & Hs & Hls & Hodd & Hv).
  - split_and!; [done..|lia].
  - intros i s Hi (Hls & Hodd & Hv). rewrite set_index_ok by lia. cbn [mbind res_mbind]. rewrite set_index_ok by (rewrite length_insert; lia).
    eexists. split; [done|]. rewrite !length_insert. split; [done|]. assert (forall e e' j, val (<[(m - 1 + 2 * i + 1 + odd)%nat := e']> (<[(m - 1 + 2 * i + odd)%nat := e]> s)) j
      = if decide (j = m - 1 + 2 * i + 1 + odd)%nat then NativeToZr e' else if decide (j = m - 1 + 2 * i + odd)%nat then NativeToZr e else val s j) as Hval.
    { intros e e' j. rewrite !val_insert by (rewrite ?length_insert; lia). done. }
    split.
    + intros Eo. rewrite Hval, !decide_False by lia. by apply Hodd.
    + intros i' Hi'. rewrite !Hval. destruct (decide (i' = i)) as [->|].
      * rewrite (decide_False (P := (m - 1 + (2 * i + odd) = m - 1 + 2 * i + 1 + odd)%nat)), (decide_True (P := (m - 1 + (2 * i + odd) = m - 1 + 2 * i + odd)%nat)) by lia.
        rewrite decide_True by lia. split; apply sub_int; lia.
      * rewrite !decide_False by lia. apply Hv. lia.
  - exists s. split; [exact Hs|]. split; [done|]. intros k Hk. destruct (leaf_cases k Hk) as [(Eo & -> & ->)|(i & Hi & [[-> ->]|[-> ->]])].
    + rewrite Nat.add_0_r. by apply Hodd.
    + by apply Hv.
    + by apply Hv.
Qed.

Lemma write_pairs_spec full : length full = (2 * m - 1)%nat ->
  (forall k, (k < m)%nat -> val full (m - 1 + k) = c - ones (leaf_index k)) ->
  exists full', write_pairs m cE full = Ok full' /\ length full' = length full /\
    (forall i, (m - 1 <= i)%nat -> val full' i = val full i) /\
    forall i, (m - 1 - m2 <= i < m - 1)%nat -> val full' i = val full' (leftChild i) * val full' (rightChild i).
Proof using Hm NL CL CP.
  intros Hl Hleaf. destruct m_split as [Em Ho]. unfold write_pairs. fold m2. set (ccm := Fr_Mul _ _).
  destruct (foldR_inv (fun full t => set_index full (m - 1 - 1 - t) (Fr_Add ccm (Fr_int (Z.of_nat ((m - 1 - 1 - t - (m - 1 - m2)) * (m - 1 - (m - 1 - 1 - t - (m - 1 - m2))))))))
    (fun t s => length s = length full /\ (forall i, (m - 1 <= i)%nat -> val s i = val full i) /\
       forall j, (m2 - t <= j < m2)%nat -> val s (m - 1 - m2 + j) = (c - ones j) * (c - ones (m - 1 - j))) m2 full) as (s & Hs & Hls & Hk & Hv).
  - split_and!; [done..|lia].
  - intros t s Ht (Hls & Hk & Hv). rewrite set_index_ok by lia. eexists. split; [done|]. rewrite length_insert. split; [done|]. split.
    + intros i Hi. rewrite val_insert, decide_False by lia. by apply Hk.
    + intros j Hj. rewrite val_insert by lia. destruct (decide (j = m2 - S t)%nat) as [->|].
      * rewrite decide_True by lia. set (j := (m2 - S t)%nat). replace (m - 1 - 1 - t - (m - 1 - m2))%nat with j by lia.
        rewrite native_add. unfold ccm. rewrite native_mul, (sub_int (m - 1)), Fr_int_ones by (lia || apply small_m; nia). unfold cE. rewrite native_set, ones_mul.
        replace (m - 1)%nat with (j + (m - 1 - j))%nat at 1 by lia. rewrite ones_add. ring.
      * rewrite decide_False by lia. apply Hv. lia.
  - exists s. split; [exact Hs|]. split; [done|]. split; [done|]. intros i Hi. set (j := (i - (m - 1 - m2))%nat).
    replace i with (m - 1 - m2 + j)%nat at 1 by lia. rewrite Hv by lia. unfold leftChild, rightChild. rewrite !Hk by lia.
    replace (2 * i + 1)%nat with (m - 1 + (2 * j + odd))%nat by lia. replace (2 * i + 2)%nat with (m - 1 + (2 * j + 1 + odd))%nat by lia. rewrite !Hleaf by lia.
    destruct (leaf_cases (2 * j + odd)) as [?|(x & ? & [[? ->]|[? ->]])]; [lia|lia| |lia]. destruct (leaf_cases (2 * j + 1 + odd)) as [?|(y & ? & [[? ->]|[? ->]])]; [lia|lia|lia|].
    replace x with j by lia. by replace y with j by lia.
Qed.

(** Every inner node is the product of its children. *)
Definition product_tree (s : list Fr) : Prop := forall i, (i < m - 1)%nat -> val s i = val s (leftChild i) * val s (rightChild i).

Lemma write_inner_spec full : length full = (2 * m - 1)%nat ->
  (forall i, (m - 1 - m2 <= i < m - 1)%nat -> val full i = val full (leftChild i) * val full (rightChild i)) ->
  exists full', write_inner m full = Ok full' /\ length full' = length full /\ (forall i, (m - 1 <= i)%nat -> val full' i = val full i) /\ product_tree full'.
Proof using Hm NL CL.
  intros Hl Hp. destruct m_split as [Em Ho]. unfold write_inner. fold m2. set (ps := (m - 1 - m2)%nat).
  destruct (foldR_inv (fun full t => l ← index full (leftChild (ps - 1 - t)); r ← index full (rightChild (ps - 1 - t)); set_index full (ps - 1 - t) (Fr_Mul l r))
    (fun t s => length s = length full /\ (forall i, (m - 1 <= i)%nat -> val s i = val full i) /\
       forall i, (ps - t <= i < m - 1)%nat -> val s i = val s (leftChild i) * val s (rightChild i)) ps full) as (s & Hs & Hls & Hk & Hv).
  - split_and!; [done..|]. intros i Hi. apply Hp. lia.
  - intros t s Ht (Hls & Hk & Hv). unfold leftChild, rightChild in *. rewrite !(index_nth _ _ Fr_Zero) by lia. cbn [mbind res_mbind]. rewrite set_index_ok by lia.
    eexists. split; [done|]. rewrite length_insert. split; [done|]. split.
    + intros i Hi. rewrite val_insert, decide_False by lia. by apply Hk.
    + intros i Hi. rewrite !val_insert by lia. rewrite (decide_False (P := (2 * i + 1 = ps - 1 - t)%nat)), (decide_False (P := (2 * i + 2 = ps - 1 - t)%nat)) by lia.
      destruct (decide (i = ps - 1 - t)%nat) as [->|]; [by rewrite native_mul|]. apply Hv. lia.
  - exists s. split; [exact Hs|]. split; [done|]. split; [done|]. intros i Hi. apply Hv. lia.
Qed.

(** The product of the frontier [t, ..., 2t] without the node [k]. *)
Definition frontier_without (s : list Fr) (t k : nat) : Zr := zpr (val s <$> filter (fun j : nat => j <> k) (seq t (S t))).

Lemma filter_seq_head t n k : (k <> t)%nat -> filter (fun j : nat => j <> k) (seq t (S n)) = t :: filter (fun j : nat => j <> k) (seq (S t) n).
Proof. intros H. cbn [seq]. by rewrite filter_cons_True by congruence. Qed.

Lemma filter_seq_all t n k : (k < t)%nat \/ (t + n <= k)%nat -> filter (fun j : nat => j <> k) (seq t n) = seq t n.
Proof.
  revert t. induction n as [|n IH]; intros t H; [done|]. cbn [seq]. rewrite filter_cons_True by lia. by rewrite IH by lia.
Qed.

(** The next frontier replaces [t] by its children. *)
Lemma frontier_step s t k : (t < m - 1)%nat -> product_tree s -> (S t <= k <= 2 * t)%nat -> frontier_without s (S t) k = frontier_without s t k.
Proof using Hm CL.
  intros Ht Hp Hk. unfold frontier_without. rewrite (filter_seq_head t t k) by lia. rewrite fmap_cons, zpr_cons, (Hp t Ht).
  replace (S (S t)) with (t + 2)%nat by lia. rewrite seq_app, filter_app, fmap_app, zpr_app.
  rewrite (filter_seq_all (S t + t) 2 k) by lia. cbn [seq]. rewrite !fmap_cons, fmap_nil, !zpr_cons. unfold leftChild, rightChild.
  replace (S t + t)%nat with (2 * t + 1)%nat by lia. replace (S (2 * t + 1)) with (2 * t + 2)%nat by lia. change (zpr []) with One. ring.
Qed.

Lemma frontier_left s t : (t < m - 1)%nat -> frontier_without s (S t) (leftChild t) = frontier_without s t t * val s (rightChild t).
Proof using Hm CL.
  intros Ht. unfold frontier_without, leftChild, rightChild. replace (S (S t)) with (t + 2)%nat by lia. rewrite seq_app, filter_app, fmap_app, zpr_app.
  rewrite (filter_seq_all (S t) t) by lia. cbn [seq]. rewrite (filter_cons_False _ t) by naive_solver. rewrite (filter_seq_all (S t) t) by lia. f_equal.
  rewrite filter_cons_False, filter_cons_True by lia. rewrite filter_nil, fmap_cons, fmap_nil, zpr_cons. replace (S (S t + t)) with (2 * t + 2)%nat by lia.
  change (zpr []) with One. ring.
Qed.

Lemma frontier_right s t : (t < m - 1)%nat -> frontier_without s (S t) (rightChild t) = frontier_without s t t * val s (leftChild t).
Proof using Hm CL.
  intros Ht. unfold frontier_without, leftChild, rightChild. replace (S (S t)) with (t + 2)%nat by lia. rewrite seq_app, filter_app, fmap_app, zpr_app.
  rewrite (filter_seq_all (S t) t) by lia. cbn [seq]. rewrite (filter_cons_False _ t) by naive_solver. rewrite (filter_seq_all (S t) t) by lia. f_equal.
  rewrite filter_cons_True, filter_cons_False by lia. rewrite filter_nil, fmap_cons, fmap_nil, zpr_cons. replace (S t + t)%nat with (2 * t + 1)%nat by lia.
  change (zpr []) with One. ring.
Qed.

Lemma write_excluded_spec full exclude : length full = (2 * m - 1)%nat -> length exclude = (2 * m - 1)%nat -> product_tree full ->
  exists exclude', write_excluded m full exclude = Ok exclude' /\ length exclude' = length exclude /\
    forall k, (m - 1 <= k <= 2 * (m - 1))%nat -> val exclude' k = frontier_without full (m - 1) k.
Proof using Hm NL CL.
  intros Hf He Hp. unfold write_excluded. rewrite set_index_ok by lia. cbn [mbind res_mbind].
  match goal with |- exists _, foldR ?step ?s0 _ = _ /\ _ => destruct (foldR_inv step (fun t s => length s = length exclude /\
    forall k, (t <= k <= 2 * t)%nat -> val s k = frontier_without full t k) (m - 1) s0) as (s & Hs & Hls & Hv) end.
  - rewrite length_insert. split; [done|]. intros k Hk. replace k with 0%nat by lia. rewrite val_insert, decide_True by lia. apply native_one.
  - intros t s Ht (Hls & Hv). unfold leftChild, rightChild in *. rewrite !(index_nth full _ Fr_Zero) by lia. cbn [mbind res_mbind]. rewrite (index_nth s _ Fr_Zero) by lia.
    cbn [mbind res_mbind]. rewrite set_index_ok by lia. cbn [mbind res_mbind]. rewrite (index_nth _ _ Fr_Zero) by (rewrite length_insert; lia). cbn [mbind res_mbind].
    rewrite set_index_ok by (rewrite length_insert; lia). eexists. split; [done|]. rewrite !length_insert. split; [done|]. intros k Hk.
    rewrite !val_insert by (rewrite ?length_insert; lia). rewrite !nth_lookup, list_lookup_insert_ne, <- !nth_lookup by lia. specialize (Hv t ltac:(lia)) as Hvt.
    destruct (decide (k = 2 * t + 2)%nat) as [->|]; [|destruct (decide (k = 2 * t + 1)%nat) as [->|]].
    + rewrite native_mul. change (val s t * val full (2 * t + 1) = frontier_without full (S t) (2 * t + 2)). rewrite Hvt. symmetry. by apply frontier_right.
    + rewrite native_mul. change (val s t * val full (2 * t + 2) = frontier_without full (S t) (2 * t + 1)). rewrite Hvt. symmetry. by apply frontier_left.
    + rewrite frontier_step by (done || lia). apply Hv. lia.
  - exists s. done.
Qed.

(** ** The arrangement of the leaves is a permutation *)

Lemma leaf_index_lt k : (k < m)%nat -> (leaf_index k < m)%nat.
Proof using Hm. intros Hk. destruct m_split as [Em Ho]. destruct (leaf_cases k Hk) as [(? & ? & ->)|(i & ? & [[? ->]|[? ->]])]; lia. Qed.

Lemma leaf_index_inj k l : (k < m)%nat -> (l < m)%nat -> leaf_index k = leaf_index l -> k = l.
Proof using Hm.
  intros Hk Hl. destruct m_split as [Em Ho]. destruct (leaf_cases k Hk) as [(? & ? & ->)|(i & ? & [[? ->]|[? ->]])];
    destruct (leaf_cases l Hl) as [(? & ? & ->)|(j & ? & [[? ->]|[? ->]])]; lia.
Qed.

Lemma leaf_index_surj j : (j < m)%nat -> exists k, (k < m)%nat /\ leaf_index k = j.
Proof using Hm.
  intros Hj. destruct m_split as [Em Ho]. assert (exists k, (k < m)%nat /\ ((odd = 1 /\ j = m2 /\ k = 0) \/ (j < m2 /\ k = 2 * j + odd) \/ (m - 1 - j < m2 /\ k = 2 * (m - 1 - j) + 1 + odd))%nat) as (k & Hk & H).
  { destruct (Nat.lt_ge_cases j m2); [exists (2 * j + odd)%nat; lia|]. destruct (Nat.lt_ge_cases (m - 1 - j) m2); [exists (2 * (m - 1 - j) + 1 + odd)%nat; lia|]. exists 0%nat. lia. }
  exists k. split; [done|]. destruct (leaf_cases k Hk) as [(? & ? & ->)|(i & ? & [[? ->]|[? ->]])]; lia.
Qed.

Lemma others_leaves k : (k < m)%nat -> leaf_index <$> filter (fun j : nat => j <> k) (seq 0 m) ≡ₚ others m (leaf_index k).
Proof using Hm.
  intros Hk. apply NoDup_Permutation; [|apply NoDup_filter, NoDup_seq|].
  - apply NoDup_fmap_2_strong; [|apply NoDup_filter, NoDup_seq]. intros x y [_ Hx%elem_of_seq]%list_elem_of_filter [_ Hy%elem_of_seq]%list_elem_of_filter.
    apply leaf_index_inj; lia.
  - intros j. rewrite others_spec, list_elem_of_fmap. split.
    + intros (x & -> & [Hne Hx%elem_of_seq]%list_elem_of_filter). split; [|apply leaf_index_lt; lia]. intros E. apply Hne, leaf_index_inj; [lia..|done].
    + intros [Hne Hj]. destruct (leaf_index_surj j Hj) as (x & Hx & <-). exists x. split; [done|]. apply list_elem_of_filter. split; [congruence|apply elem_of_seq; lia].
Qed.

Lemma frontier_leaves full k : (k < m)%nat -> (forall k, (k < m)%nat -> val full (m - 1 + k) = c - ones (leaf_index k)) ->
  frontier_without full (m - 1) (m - 1 + k) = numer m c (leaf_index k).
Proof using Hm CL.
  intros Hk Hl. unfold frontier_without, numer. rewrite <- (others_leaves k Hk). replace (S (m - 1)) with m by lia.
  assert (forall l, Forall (fun x => (x < m)%nat) l -> val full <$> filter (fun j : nat => j <> (m - 1 + k)%nat) (Nat.add (m - 1) <$> l)
            = (fun j => c - ones j) <$> (leaf_index <$> filter (fun j : nat => j <> k) l)) as H.
  { intros l. induction 1 as [|x l Hx _ IH]; [done|]. rewrite fmap_cons. destruct (decide (x = k)) as [->|Hne].
    - rewrite !filter_cons_False by naive_solver. exact IH.
    - rewrite !filter_cons_True by lia. rewrite !fmap_cons, IH, Hl by done. done. }
  rewrite <- H by (apply Forall_seq; lia). by rewrite fmap_add_seq, Nat.add_0_r.
Qed.

Lemma read_numerators_spec exclude : length exclude = (2 * m - 1)%nat ->
  exists numers, read_numerators m exclude = Ok numers /\ length numers = m /\ forall k, (k < m)%nat -> val numers (leaf_index k) = val exclude (m - 1 + k).
Proof using Hm.
  intros Hl. destruct m_split as [Em Ho]. unfold read_numerators. fold odd m2.
  assert (exists f1, (if (odd =? 1)%nat then e ← index exclude (m - 1); set_index (replicate m Fr_Zero) m2 e else Ok (replicate m Fr_Zero)) = Ok f1 /\ length f1 = m /\
            (odd = 1%nat -> val f1 m2 = val exclude (m - 1))) as (f1 & -> & Hl1 & H1).
  { destruct (Nat.eqb_spec odd 1) as [Eo|].
    - rewrite (index_nth _ _ Fr_Zero) by lia. cbn [mbind res_mbind]. rewrite set_index_ok by (rewrite length_replicate; lia). eexists. split; [done|].
      rewrite length_insert, length_replicate. split; [done|]. intros _. by rewrite val_insert, decide_True by (rewrite ?length_replicate; lia).
    - exists (replicate m Fr_Zero). rewrite length_replicate. split_and!; [done..|lia]. }
  cbn [mbind res_mbind].
  match goal with |- exists _, foldR ?step _ _ = _ /\ _ => destruct (foldR_inv step (fun t s => length s = m /\ (odd = 1%nat -> val s m2 = val exclude (m - 1)) /\
    forall i, (i < t)%nat -> val s i = val exclude (m - 1 + (2 * i + odd)) /\ val s (m - 1 - i) = val exclude (m - 1 + (2 * i + 1 + odd))) m2 f1) as (s & Hs & Hls & Hodd & Hv) end.
  - split_and!; [done..|lia].
  - intros i s Hi (Hls & Hodd & Hv). rewrite !(index_nth exclude _ Fr_Zero) by lia. cbn [mbind res_mbind]. rewrite set_index_ok by lia. cbn [mbind res_mbind].
    rewrite set_index_ok by (rewrite length_insert; lia). eexists. split; [done|]. rewrite !length_insert. split; [done|]. split.
    + intros Eo. rewrite !val_insert by (rewrite ?length_insert; lia). rewrite !decide_False by lia. by apply Hodd.
    + intros i' Hi'. rewrite !val_insert by (rewrite ?length_insert; lia). destruct (decide (i' = i)) as [->|].
      * rewrite (decide_False (P := (i = m - 1 - i)%nat)), !decide_True by lia. unfold val. split; do 2 f_equal; lia.
      * rewrite !decide_False by lia. apply Hv. lia.
  - exists s. split; [exact Hs|]. split; [done|]. intros k Hk. destruct (leaf_cases k Hk) as [(Eo & -> & ->)|(i & Hi & [[-> ->]|[-> ->]])].
    + rewrite Nat.add_0_r. by apply Hodd.
    + by apply Hv.
    + by apply Hv.
Qed.

(** The routine returns, whatever memory it is given, the products of all
    factors but one. *)
Lemma computeNumerators_spec slab : length slab = (2 * (2 * m - 1))%nat ->
  exists numers, computeNumeratorsBinaryTree m c slab = Ok numers /\ NativeToZr <$> numers = numer m c <$> seq 0 m.
Proof using Hm NL CL CP.
  intros Hl. unfold computeNumeratorsBinaryTree. fold cE.
  destruct (write_leaves_spec (take (2 * m - 1) slab)) as (f1 & -> & L1 & V1); [rewrite length_take; lia|]. rewrite length_take in L1. cbn [mbind res_mbind].
  destruct (write_pairs_spec f1) as (f2 & -> & L2 & K2 & V2); [lia|done|]. cbn [mbind res_mbind].
  destruct (write_inner_spec f2) as (f3 & -> & L3 & K3 & V3); [lia|done|]. cbn [mbind res_mbind].
  destruct (write_excluded_spec f3 (drop (2 * m - 1) slab)) as (e & -> & Le & Ve); [lia|rewrite length_drop; lia|done|]. rewrite length_drop in Le. cbn [mbind res_mbind].
  destruct (read_numerators_spec e) as (numers & -> & Ln & Vn); [lia|]. exists numers. split; [done|]. apply list_eq. intros j. rewrite !list_lookup_fmap.
  destruct (Nat.lt_ge_cases j m) as [Hj|Hj]; [|rewrite (lookup_ge_None_2 numers), (lookup_ge_None_2 (seq 0 m)) by (rewrite ?length_seq; lia); done].
  rewrite lookup_seq_lt by done. destruct (lookup_lt_is_Some_2 numers j) as [x Hx]; [lia|]. rewrite Hx. cbn. f_equal.
  destruct (leaf_index_surj j Hj) as (k & Hk & E). transitivity (val numers j); [unfold val; by rewrite nth_lookup, Hx|]. rewrite <- E, Vn, Ve by lia.
  apply frontier_leaves; [done|]. intros k' Hk'. rewrite K3, K2 by lia. by apply V1.
Qed.
End Tree.

(** ** The routines after dispatch *)

Section Dispatch.
Context {CO : Curve} {CL : CurveLaws} {NA : Native} {NL : NativeLaws} {WI : Wire} {CC : CspCurve} {CP : CspLaws}.
Add Ring zr_disp : zr_ring.
Local Open Scope zr_scope.

Lemma length_getTreeArrays m pooled : length (getTreeArrays m pooled) = (2 * (2 * m - 1))%nat.
Proof. unfold getTreeArrays. destruct (Nat.eqb_spec (length pooled) (2 * (2 * m - 1))); [done|]. by rewrite length_replicate. Qed.

Lemma fmap_lookup_inv {A B} (f : A -> B) (l : list A) (g : nat -> B) (idx : list nat) (k i : nat) : f <$> l = g <$> idx -> idx !! k = Some i -> exists x, l !! k = Some x /\ f x = g i.
Proof. intros E H. apply (f_equal (fun l => l !! k)) in E. rewrite !list_lookup_fmap, H in E. destruct (l !! k) as [x|]; [|done]. exists x. split; [done|]. by injection E. Qed.

Lemma native_products n (M : nat) c numers invs idx : NativeToZr <$> numers = numer M c <$> seq 0 M ->
  NativeToZr <$> invs = (fun i => InvModOrder (denom M i)) <$> idx -> length idx = S n -> Forall (fun i => (i < M)%nat) idx ->
  mapM (fun '(k, i) => a ← index numers i; b ← index invs k; Ok (NativeToZr (Fr_Mul a b))) (zip (seq 0 (S n)) idx) = Ok (basis M c <$> idx).
Proof.
  intros Hn Hi Hl HF. transitivity (Ok ((fun '(k, i) => basis M c i) <$> zip (seq 0 (S n)) idx)).
  - apply mapM_pure. intros [k i] (t & Ht)%list_elem_of_lookup. apply lookup_zip_with_Some in Ht as (k' & i' & [= <- <-] & Hk & Hidx).
    apply lookup_seq in Hk as [-> Ht]. cbn [Nat.add]. rewrite Forall_lookup in HF. pose proof (HF t i Hidx) as HiM.
    destruct (fmap_lookup_inv _ _ _ _ i i Hn) as (a & Ha & Ea); [by apply lookup_seq_lt|]. destruct (fmap_lookup_inv _ _ _ _ t i Hi Hidx) as (b & Hb & Eb).
    rewrite (index_Some _ _ _ Ha), (index_Some _ _ _ Hb). cbn [mbind res_mbind]. rewrite native_mul, Ea, Eb. done.
  - f_equal. transitivity (basis M c <$> (snd <$> zip (seq 0 (S n)) idx)); [rewrite <- list_fmap_compose; by apply list_fmap_ext; intros ? [? ?]|].
    by rewrite snd_zip by (rewrite length_seq; lia).
Qed.

Context (env : lagrange_env) (Henv : env_ok env) (n : nat) (Hn : (n <= 64)%nat) (Hd : distinct_below (2 * n + 1)).

Lemma n_small : small_index (2 * n + 1).
Proof using Hn. unfold small_index. lia. Qed.

Lemma distinct_S : distinct_below (S n).
Proof using Hn Hd. apply (distinct_le (S n) (2 * n + 1)); [lia|done]. Qed.

Lemma multipliers_spec c : getLagrangeMultipliers env n c = Ok (basis (S n) c <$> seq 0 (S n)).
Proof using All.
  unfold getLagrangeMultipliers. destruct native_curve.
  - unfold getLagrangeMultipliersNative. rewrite denomInvs_ok by done.
    destruct (computeNumerators_spec (S n) ltac:(lia) c (getTreeArrays (S n) (le_pooled env (S n)))) as (numers & -> & Hnum); [apply length_getTreeArrays|]. cbn [mbind res_mbind].
    rewrite <- (native_products n (S n) c numers (computeDenomInvs n false) (seq 0 (S n)) Hnum); [|apply (computeDenomInvs_spec n false n_small Hd)|by rewrite length_seq|apply Forall_seq; lia].
    generalize (seq 0 (S n)). clear. intros l. induction l as [|i l IH]; [done|]. cbn [zip_with]. rewrite !mapM_cons_res, IH. done.
  - by rewrite generic_multipliers by (apply distinct_S || unfold small_index; lia).
Qed.

Lemma partial_spec c : getLagrangeMultipliersPartial env n c = Ok (basis (2 * n + 1) c <$> relevant n).
Proof using All.
  unfold getLagrangeMultipliersPartial. destruct native_curve.
  - unfold getLagrangeMultipliersPartialNative. rewrite denomInvs_ok by done.
    destruct (computeNumerators_spec (2 * n + 1) ltac:(lia) c (getTreeArrays (2 * n + 1) (le_pooled env (2 * n + 1)%nat))) as (numers & -> & Hnum); [apply length_getTreeArrays|]. cbn [mbind res_mbind].
    apply (native_products n (2 * n + 1)); [done|apply (computeDenomInvs_spec n true n_small Hd)|cbn; by rewrite length_seq|apply relevant_below].
  - by rewrite generic_partial by (apply n_small || done).
Qed.

Lemma interpolate_spec values : length values = S n -> interpolate env n values = extended n values.
Proof using All.
  intros Hl. unfold interpolate. destruct native_curve.
  - rewrite denomInvs_ok by done. apply native_interpolate; [apply n_small|done..|]. apply (computeDenomInvs_spec n false n_small Hd).
  - by apply generic_interpolate; [apply n_small|..].
Qed.

(** The values of a function at the integers [idx]. *)
Definition at_ints (f : Zr -> Zr) (idx : list nat) : list Zr := (fun i => f (ones i)) <$> idx.

Lemma ip_fmaps (f g : nat -> Zr) l : ip (f <$> l) (g <$> l) = zsum ((fun i => f i * g i) <$> l).
Proof. unfold ip. by rewrite zip_with_fmaps. Qed.

Lemma multipliers_evaluate c f : polyf n f -> ip (basis (S n) c <$> seq 0 (S n)) (at_ints f (seq 0 (S n))) = f c.
Proof using Hn Hd CL.
  intros Hf. unfold at_ints. rewrite ip_fmaps. apply (lagrange_unique (S n) f); [lia|apply distinct_S|]. by replace (S n - 1)%nat with n by lia.
Qed.

Lemma partial_evaluate c f : polyf (2 * n) f -> (forall i, (1 <= i <= n)%nat -> f (ones i) = Zero) ->
  ip (basis (2 * n + 1) c <$> relevant n) (at_ints f (relevant n)) = f c.
Proof using Hn Hd CL.
  intros Hf Hz. unfold at_ints. rewrite ip_fmaps. rewrite <- (lagrange_unique (2 * n + 1) f) by (lia || done || replace (2 * n + 1 - 1)%nat with (2 * n)%nat by lia; done).
  unfold lagrange. assert (seq 0 (2 * n + 1) = 0%nat :: seq 1 n ++ seq (S n) n) as ->.
  { replace (2 * n + 1)%nat with (S (n + n)) by lia. cbn [seq]. by rewrite seq_app. }
  rewrite fmap_cons, zsum_cons, fmap_app, zsum_app.
  assert (zsum ((fun i => basis (2 * n + 1) c i * f (ones i)) <$> seq 1 n) = Zero) as ->.
  { assert (forall l, Forall (fun i => (1 <= i <= n)%nat) l -> zsum ((fun i => basis (2 * n + 1) c i * f (ones i)) <$> l) = Zero) as H.
    { intros l. induction 1 as [|i l Hi _ IH]; [done|]. rewrite fmap_cons, zsum_cons, IH, Hz by done. ring. }
    apply H. apply Forall_seq. lia. }
  unfold relevant. rewrite fmap_cons, zsum_cons. ring.
Qed.

Lemma extended_values f : polyf n f -> extended n (at_ints f (seq 0 (S n))) = at_ints f (seq 0 (2 * n + 1)).
Proof using Hn Hd CL.
  intros Hf. unfold extended. replace (2 * n + 1)%nat with (S n + n)%nat by lia. rewrite seq_app. unfold at_ints at 3. rewrite fmap_app. f_equal. cbn [Nat.add].
  apply list_fmap_ext. intros k x _. rewrite <- (lagrange_unique (S n) f) by (lia || apply distinct_S || replace (S n - 1)%nat with n by lia; done).
  unfold lagrange. f_equal. apply list_fmap_ext. intros t i Hi%list_elem_of_lookup_2%elem_of_seq. f_equal. unfold value_at, at_ints.
  by rewrite nth_lookup, list_lookup_fmap, lookup_seq_lt by lia.
Qed.
End Dispatch.
