(* ===== verification/CspRange.v ===== *)
(** * Range proofs over the compressed sigma protocol
      (core/zkatdlog/nogh/v1/crypto/rp/csp: rp.go, rp_native.go, the range part
      of validation.go, rangecorrectness.go)

    The prover encodes the bits of the value as a polynomial [a], shows with
    values of [b = a (a - 1)] that they are bits, that they add up to the value
    and that [a] and [b] match at a random point, all as one linear form over a
    blinded vector, and proves the form with the compressed sigma protocol. *)

From S2P Require Import Prelude GoStd Der Asn1 ZkMath ZkIpa ZkRange ZkSigma ZkCodec ZkTransfer Csp Lagrange.
From Stdlib Require Import ZArith Lia.

Record csp_RangeProof `{!Curve} := {
  xp_pComm : G1;
  xp_pokA : G1;
  xp_pokZ : list Zr;
  xp_u : Zr;
  xp_sComm : G1;
  xp_sEval : Zr;
  xp_cspProof : csp_Proof;
}.

(** A proof as it was decoded. *)
Record wcsp_RangeProof `{!Curve} := {
  wx_pComm : option (wire G1);
  wx_pokA : option (wire G1);
  wx_pokZ : option (list (wire Zr));
  wx_u : option (wire Zr);
  wx_sComm : option (wire G1);
  wx_sEval : option (wire Zr);
  wx_cspProof : wcsp_Proof;
}.

Section CspRange.
Context {CO : Curve} {NA : Native} {WI : Wire} {CC : CspCurve}.
Local Open Scope zr_scope.

(** ** Validation *)

Record csp_rangeProver := {
  xr_VCommitment : option G1;
  xr_v : option Zr;
  xr_r : option Zr;
  xr_VGenerators : list G1;
  xr_AGenerators : list G1;
  xr_BGenerators : list G1;
  xr_NumberOfBits : nat;
  xr_TranscriptHeader : bytes;
}.

Record csp_rangeVerifier := {
  xv_VGenerators : list G1;
  xv_AGenerators : list G1;
  xv_BGenerators : list G1;
  xv_VCommitment : option G1;
  xv_NumberOfBits : nat;
  xv_TranscriptHeader : bytes;
}.

Definition validate_bits (n : nat) : res unit :=
  reject_if (n =? 0)%nat (EWrap ErrInvalidBitCount "must be greater than 0") ;;
  reject_if (64 <? n)%nat (EWrap ErrInvalidBitCount "cannot exceed 64").

Definition validate_generators (n : nat) (V A B : list G1) : res unit :=
  validateG1Slice (Some (Own <$> V)) 2 ;;
  validateG1Slice (Some (Own <$> A)) (Z.of_nat n + 1) ;;
  validateG1Slice (Some (Own <$> B)) (Z.of_nat n + 1).

Definition validateRangeProverInputs (p : csp_rangeProver) : res unit :=
  _ ← present_or ErrNilCommitment (xr_VCommitment p);
  _ ← present_or ErrNilValue (xr_v p);
  _ ← present_or ErrNilRandomness (xr_r p);
  validate_bits (xr_NumberOfBits p) ;;
  validate_generators (xr_NumberOfBits p) (xr_VGenerators p) (xr_AGenerators p) (xr_BGenerators p).

Definition validateRangeVerifierInputs (v : csp_rangeVerifier) : res unit :=
  _ ← present_or ErrNilCommitment (xv_VCommitment v);
  validate_bits (xv_NumberOfBits v) ;;
  validate_generators (xv_NumberOfBits v) (xv_VGenerators v) (xv_AGenerators v) (xv_BGenerators v).

(** A pointer of the proof: present and of the curve; nothing is asked about
    the point at infinity. *)
Definition validate_element {T} (nilErr : error) (o : option (wire T)) : res unit :=
  match o with
  | None => Err (EWrap nilErr "cannot be nil")
  | Some (Foreign _ _) => Err (EWrap ErrWrongCurveID "proof")
  | Some (Own _) => Ok tt
  end.

Definition validateRangeProof (proof : wcsp_RangeProof) : res unit :=
  validate_element ErrNilCommitment (wx_pComm proof) ;;
  validate_element ErrNilCommitment (wx_pokA proof) ;;
  validateZrSlice (wx_pokZ proof) 2 ;;
  validate_element ErrNilValue (wx_u proof) ;;
  validate_element ErrNilCommitment (wx_sComm proof) ;;
  validate_element ErrNilValue (wx_sEval proof) ;;
  validateCSPProof (wx_cspProof proof) (length (default [] (wcsp_Left (wx_cspProof proof)))).

(** ** The vectors of the statement *)

(** [toBits]: never an error, whatever the value. *)
Definition toBits (v : Zr) (n : nat) : list Zr :=
  let value := be_value (Zr_Bytes v) in
  (fun i => NewZrFromUint64 (Z.b2z (Z.testbit value (Z.of_nat i)))) <$> seq 0 n.

(** [for paddedSize < witSize { paddedSize <<= 1; cspRounds++ }]. *)
Fixpoint pad_loop (fuel witSize paddedSize cspRounds : nat) : nat * nat :=
  match fuel with
  | O => (paddedSize, cspRounds)
  | S fuel => if (paddedSize <? witSize)%nat then pad_loop fuel witSize (2 * paddedSize) (S cspRounds) else (paddedSize, cspRounds)
  end.
Definition padding (witSize : nat) : nat * nat := pad_loop witSize witSize 1 0.

(** The aggregated linear form [L1 + gamma L2 + gamma^2 L3]. *)
Definition buildLF (n : nat) (eta gamma : Zr) (mu nu : list Zr) : list Zr :=
  let gammaSquare := gamma * gamma in
  let l1 := Zero :: ((fun i => eta * PowerOfTwo (i - 1)) <$> seq 1 n) in
  zip_with (fun l m => ModAddMul2 l One gamma m) l1 mu ++ ((fun k => gammaSquare * k) <$> nu) ++ [- eta; Zero].

Definition claimedValue (gamma u : Zr) : Zr :=
  let uMinus1 := u - One in
  ModAddMul2 gamma u (gamma * gamma) (u * uMinus1).

(** rp_native.go *)

Definition nativeRPInnerProduct (lf sBlind : list Zr) : Zr :=
  NativeToZr (foldl (fun acc '(l, s) => Fr_Add acc (Fr_Mul (SetNativeFromZr l) (SetNativeFromZr s))) Fr_Zero (zip lf sBlind)).

(** [eta * 2^{i-1}] with a running power. *)
Fixpoint native_powers2 (etaE powE : Fr) (n : nat) : list Fr :=
  match n with
  | O => []
  | S n => Fr_Mul etaE powE :: native_powers2 etaE (Fr_Mul powE (Fr_SetInt64 2)) n
  end.

(** The form, [u] and the claimed value; [aCoeffs] is given, as the prover does. *)
Definition nativeRPBuildLF (n : nat) (eta gamma : Zr) (mu nu aCoeffs : list Zr) : list Zr * Zr * Zr :=
  let etaE := SetNativeFromZr eta in
  let gammaE := SetNativeFromZr gamma in
  let gammaSqE := Fr_Mul gammaE gammaE in
  let muE := SetNativeFromZr <$> mu in
  let nuE := SetNativeFromZr <$> nu in
  let l1 := Fr_Zero :: native_powers2 etaE Fr_One n in
  let lfE := zip_with (fun l m => Fr_Add l (Fr_Mul gammaE m)) l1 muE ++ ((fun k => Fr_Mul gammaSqE k) <$> nuE) ++ [Fr_Sub Fr_Zero etaE; Fr_Zero] in
  let uE := foldl (fun acc '(a, m) => Fr_Add acc (Fr_Mul (SetNativeFromZr a) m)) Fr_Zero (zip aCoeffs muE) in
  let uMinus1E := Fr_Sub uE Fr_One in
  let lValE := Fr_Add (Fr_Mul gammaE uE) (Fr_Mul gammaSqE (Fr_Mul uE uMinus1E)) in
  (NativeToZr <$> lfE, NativeToZr uE, NativeToZr lValE).

Definition nativeRPBlindWitness (sBlind pExt : list Zr) (rho lVal sVal : Zr) : list Zr * Zr :=
  let rhoE := SetNativeFromZr rho in
  (zip_with (fun s p => NativeToZr (Fr_Add (SetNativeFromZr p) (Fr_Mul rhoE (SetNativeFromZr s)))) sBlind pExt,
   NativeToZr (Fr_Add (SetNativeFromZr lVal) (Fr_Mul rhoE (SetNativeFromZr sVal)))).

(** ** The prover; [rand] is the reader it asks for *)

(** The proof of knowledge of the opening and the first message, up to the
    commitment to the values of [a] and [b]. *)
Record first_message := {
  fm_pokA : G1;
  fm_pokZ : list Zr;
  fm_aCoeffs : list Zr;
  fm_bCoeffs : list Zr;
  fm_pComm : G1;
  fm_transcript : bytes;
}.

Definition range_first (env : lagrange_env) (rp : csp_rangeProver) (VCommitment : G1) (v r : Zr) (rand : nat -> Zr) : res first_message :=
  let n := xr_NumberOfBits rp in
  let tr := Absorb (xr_TranscriptHeader rp) (G1_Bytes VCommitment) in
  let pokTv := rand 0%nat in
  let pokTr := rand 1%nat in
  let pokA := smallMSM (xr_VGenerators rp) [pokTv; pokTr] in
  let '(pokE, tr) := Squeeze (Absorb tr (G1_Bytes pokA)) in
  let pokZv := ModAddMul2 pokTv One pokE v in
  let pokZr := ModAddMul2 pokTr One pokE r in
  let a0 := rand 2%nat in
  let b0 := a0 - One in
  let aCoeffs := a0 :: toBits v n in
  let aCoeffsExt := interpolate env n aCoeffs in
  bs ← mapM (fun i => ai ← index aCoeffsExt (n + i); let aiMinus1 := ai - One in Ok (ai * aiMinus1)) (seq 1 n);
  let bCoeffs := a0 * b0 :: bs in
  let pComm := smallMSM (xr_AGenerators rp ++ xr_BGenerators rp) (aCoeffs ++ bCoeffs) in
  Ok {| fm_pokA := pokA; fm_pokZ := [pokZv; pokZr]; fm_aCoeffs := aCoeffs; fm_bCoeffs := bCoeffs; fm_pComm := pComm;
        fm_transcript := Absorb tr (G1_Bytes pComm) |}.

Definition csp_rangeProver_Prove (env : lagrange_env) (rp : csp_rangeProver) (rand : res (nat -> Zr)) : res csp_RangeProof :=
  wrap "invalid range prover inputs" (validateRangeProverInputs rp) ;;
  let n := xr_NumberOfBits rp in
  reject_if (length (xr_TranscriptHeader rp) =? 0)%nat (EMsg "invalid transcript header") ;;
  VCommitment ← deref (xr_VCommitment rp);
  v ← deref (xr_v rp);
  r ← deref (xr_r rp);
  rand ← wrap "failed to initialize random number generator" rand;
  m ← range_first env rp VCommitment v r rand;
  let aCoeffs := fm_aCoeffs m in
  let p := aCoeffs ++ fm_bCoeffs m in
  let g := xr_AGenerators rp ++ xr_BGenerators rp in
  let '(eta, tr) := Squeeze (fm_transcript m) in
  let '(c, tr) := Squeeze tr in
  mu ← replace_err "Unable to obtain lagrange multipliers" (getLagrangeMultipliers env n c);
  nu ← replace_err "Unable to obtain partial lagrange multipliers" (getLagrangeMultipliersPartial env n c);
  let native := native_curve in
  let u := if native then nativeRPInnerProduct aCoeffs mu else InnerProduct aCoeffs mu in
  let '(gamma, tr) := Squeeze (Absorb tr (Zr_Bytes u)) in
  let witSize := (2 * n + 4)%nat in
  let '(paddedSize, cspRounds) := padding witSize in
  let pCommExt := (fm_pComm m + VCommitment ⋅ eta)%g1 in
  g0 ← index (xr_VGenerators rp) 0;
  g1 ← index (xr_VGenerators rp) 1;
  let pExt := p ++ [v; r] in
  let gExt := g ++ [(g0 ⋅ eta)%g1; (g1 ⋅ eta)%g1] in
  let '(lf, lVal) := if native then let '(lf, _, lVal) := nativeRPBuildLF n eta gamma mu nu aCoeffs in (lf, lVal)
                     else (buildLF n eta gamma mu nu, claimedValue gamma u) in
  (* blinding *)
  let sBlind := (fun i => rand (3 + i)%nat) <$> seq 0 (length pExt) in
  let sComm := smallMSM gExt sBlind in
  let sVal := if native then nativeRPInnerProduct lf sBlind else InnerProduct lf sBlind in
  let '(rho, tr) := Squeeze (Absorb (Absorb tr (G1_Bytes sComm)) (Zr_Bytes sVal)) in
  let '(wit, witVal) := if native then nativeRPBlindWitness sBlind pExt rho lVal sVal
                        else (zip_with (fun s p => ModAddMul2 p One rho s) sBlind pExt, ModAddMul2 lVal One rho sVal) in
  let witComm := (pCommExt + sComm ⋅ rho)%g1 in
  let missing := (paddedSize - length wit)%nat in
  cspProof ← wrap "failed to generate CSP proof" (csp_Prove
    {| cp_Commitment := Some witComm; cp_Generators := gExt ++ replicate missing GenG1; cp_LinearForm := lf ++ replicate missing Zero;
       cp_Value := Some witVal; cp_NumberOfRounds := cspRounds; cp_witness := wit ++ replicate missing Zero; cp_realLen := witSize;
       cp_TranscriptHeader := xr_TranscriptHeader rp |});
  Ok {| xp_pComm := fm_pComm m; xp_pokA := fm_pokA m; xp_pokZ := fm_pokZ m; xp_u := u; xp_sComm := sComm; xp_sEval := sVal; xp_cspProof := cspProof |}.

(** ** The verifier *)

(** What the verifier computes with; a foreign element would panic. *)
Record csp_elements := {
  ce_pComm : G1;
  ce_pokA : G1;
  ce_pokZ : list Zr;
  ce_u : Zr;
  ce_sComm : G1;
  ce_sEval : Zr;
}.

Definition own_pointer {T} (o : option (wire T)) : res T := w ← deref o; own w.

Definition csp_elements_of (proof : wcsp_RangeProof) : res csp_elements :=
  pComm ← own_pointer (wx_pComm proof);
  pokA ← own_pointer (wx_pokA proof);
  pokZ ← owns (wx_pokZ proof);
  u ← own_pointer (wx_u proof);
  sComm ← own_pointer (wx_sComm proof);
  sEval ← own_pointer (wx_sEval proof);
  Ok {| ce_pComm := pComm; ce_pokA := pokA; ce_pokZ := pokZ; ce_u := u; ce_sComm := sComm; ce_sEval := sEval |}.

Definition csp_rangeVerifier_Verify (env : lagrange_env) (rv : csp_rangeVerifier) (proof : wcsp_RangeProof) : res unit :=
  wrap "invalid range verifier inputs" (validateRangeVerifierInputs rv) ;;
  wrap "invalid range proof structure" (validateRangeProof proof) ;;
  let n := xv_NumberOfBits rv in
  reject_if (length (xv_TranscriptHeader rv) =? 0)%nat (EMsg "invalid transcript header") ;;
  VCommitment ← deref (xv_VCommitment rv);
  e ← csp_elements_of proof;
  let tr := Absorb (xv_TranscriptHeader rv) (G1_Bytes VCommitment) in
  let '(pokE, tr) := Squeeze (Absorb tr (G1_Bytes (ce_pokA e))) in
  let pokLHS := smallMSM (xv_VGenerators rv) (ce_pokZ e) in
  let pokRHS := (ce_pokA e + VCommitment ⋅ pokE)%g1 in
  reject_if (negb (bool_decide (pokLHS = pokRHS))) (EMsg "proof of knowledge for value commitment failed") ;;
  let '(eta, tr) := Squeeze (Absorb tr (G1_Bytes (ce_pComm e))) in
  let '(c, tr) := Squeeze tr in
  mu ← replace_err "unable to obtain lagrange multipliers" (getLagrangeMultipliers env n c);
  nu ← replace_err "unable to obtain partial lagrange multipliers" (getLagrangeMultipliersPartial env n c);
  let '(gamma, tr) := Squeeze (Absorb tr (Zr_Bytes (ce_u e))) in
  let pCommExt := (ce_pComm e + VCommitment ⋅ eta)%g1 in
  g0 ← index (xv_VGenerators rv) 0;
  g1 ← index (xv_VGenerators rv) 1;
  let gExt := xv_AGenerators rv ++ xv_BGenerators rv ++ [(g0 ⋅ eta)%g1; (g1 ⋅ eta)%g1] in
  let lf := buildLF n eta gamma mu nu in
  let lVal := claimedValue gamma (ce_u e) in
  let '(rho, tr) := Squeeze (Absorb (Absorb tr (G1_Bytes (ce_sComm e))) (Zr_Bytes (ce_sEval e))) in
  let witComm := (pCommExt + ce_sComm e ⋅ rho)%g1 in
  let witVal := ModAddMul2 lVal One rho (ce_sEval e) in
  let '(paddedSize, cspRounds) := padding (length gExt) in
  let missing := (paddedSize - length gExt)%nat in
  csp_Verify
    {| cv_Commitment := Some witComm; cv_Generators := gExt ++ replicate missing GenG1; cv_LinearForm := lf ++ replicate missing Zero;
       cv_Value := Some witVal; cv_NumberOfRounds := cspRounds; cv_TranscriptHeader := xv_TranscriptHeader rv |}
    (wx_cspProof proof).

End CspRange.
