(* ===== verification/CspRangeSpec.v ===== *)
(** * Completeness of the range proofs over the compressed sigma protocol

    Native and generic arithmetic build the same statement; for a committed value
    within the range the statement is true, so its proof is accepted; and the
    verifier never panics. *)

From S2P Require Import Prelude GoStd Der Asn1 ZkMath ZkIpa ZkRange ZkSigma ZkCodec ZkTransfer Csp CspFold CspSound Lagrange LagrangeSpec LagrangeTree CspRange.
From Stdlib Require Import ZArith Lia Ring.

Section RangeVectors.
Context {CO : Curve} {CL : CurveLaws} {NA : Native} {NL : NativeLaws} {WI : Wire} {CC : CspCurve} {CP : CspLaws}.
Add Ring zr_crs : zr_ring.
Local Open Scope zr_scope.

(** ** Native and generic arithmetic *)

Lemma native_inner l : forall r, nativeRPInnerProduct l r = ip l r.
Proof.
  intros r. unfold nativeRPInnerProduct. assert (forall l acc, NativeToZr (foldl (fun acc '(l, s) => Fr_Add acc (Fr_Mul (SetNativeFromZr l) (SetNativeFromZr s))) acc l)
    = NativeToZr acc + zsum ((fun '(a, b) => a * b) <$> l)) as H.
  { clear l r. intros l. induction l as [|[a b] l IH]; intros acc; [cbn; ring|]. cbn [foldl]. rewrite IH, native_add, native_mul, !native_set, fmap_cons, zsum_cons. ring. }
  rewrite H, native_zero. unfold ip. transitivity (zsum ((fun '(a, b) => a * b) <$> zip l r)); [ring|]. f_equal. clear. revert r.
  induction l as [|x l IH]; intros [|y r]; try done. cbn. f_equal. apply IH.
Qed.

Definition small_order (n : nat) : Prop := (1 <= n <= 64)%nat /\ (2 * Z.of_nat n < GroupOrder)%Z.

Lemma PowerOfTwo_zpow n i : small_order n -> (i < n)%nat -> PowerOfTwo i = zpow Two i.
Proof.
  intros [Hn Ho] Hi. unfold PowerOfTwo. destruct (cached_curve && _); [done|]. apply zr_pow; unfold two64; lia.
Qed.

Lemma native_powers2_spec etaE n : forall powE i, NativeToZr powE = zpow Two i ->
  NativeToZr <$> native_powers2 etaE powE n = (fun j => NativeToZr etaE * zpow Two j) <$> seq i n.
Proof.
  induction n as [|n IH]; intros powE i H; [done|]. cbn [native_powers2 seq]. rewrite !fmap_cons, native_mul, H. f_equal.
  apply IH. rewrite native_mul, native_two, H, zpow_S. ring.
Qed.

Lemma buildLF_powers n eta : small_order n -> (fun i => eta * PowerOfTwo (i - 1)) <$> seq 1 n = (fun j => eta * zpow Two j) <$> seq 0 n.
Proof.
  intros Hn. rewrite <- fmap_S_seq, <- list_fmap_compose. apply list_fmap_ext. intros k i Hi%list_elem_of_lookup_2%elem_of_seq. cbn [compose].
  replace (S i - 1)%nat with i by lia. by rewrite (PowerOfTwo_zpow n) by (done || lia).
Qed.

Lemma zip_with_native (f : Fr -> Fr -> Fr) (g : Zr -> Zr -> Zr) l : forall r, (forall a b, NativeToZr (f a b) = g (NativeToZr a) (NativeToZr b)) ->
  NativeToZr <$> zip_with f l r = zip_with g (NativeToZr <$> l) (NativeToZr <$> r).
Proof. intros r H. revert r. induction l as [|x l IH]; intros [|y r]; try done. cbn. by rewrite H, <- IH. Qed.

Lemma set_all (l : list Zr) : NativeToZr <$> (SetNativeFromZr <$> l) = l.
Proof. rewrite <- list_fmap_compose. rewrite <- (list_fmap_id l) at 2. apply list_fmap_ext. intros k z _. apply native_set. Qed.

Lemma nativeRPBuildLF_spec n eta gamma mu nu a : small_order n -> nativeRPBuildLF n eta gamma mu nu a = (buildLF n eta gamma mu nu, ip a mu, claimedValue gamma (ip a mu)).
Proof.
  intros Hn. unfold nativeRPBuildLF. set (uE := foldl _ _ _).
  assert (NativeToZr uE = ip a mu) as Hu.
  { transitivity (nativeRPInnerProduct a mu); [|apply native_inner]. unfold uE, nativeRPInnerProduct. f_equal. generalize Fr_Zero. clear. revert mu.
    induction a as [|x a IH]; intros [|y mu] acc; try done. cbn. apply IH. }
  do 2 f_equal.
  - unfold buildLF. rewrite !fmap_app. f_equal; [|f_equal].
    + rewrite (zip_with_native _ (fun l m => ModAddMul2 l One gamma m)).
      * rewrite set_all, fmap_cons, native_zero, (native_powers2_spec _ n _ 0) by apply native_one. rewrite native_set, buildLF_powers by done. done.
      * intros x y. rewrite native_add, native_mul, native_set, zr_addmul2. ring.
    + rewrite <- !list_fmap_compose. apply list_fmap_ext. intros k x _. cbn. by rewrite !native_mul, !native_set.
    + cbn. rewrite native_sub, native_set, native_zero. do 2 f_equal. ring.
  - exact Hu.
  - unfold claimedValue. rewrite native_add, !native_mul, native_sub, !native_set, native_one, Hu, zr_addmul2. ring.
Qed.

Lemma nativeRPBlindWitness_spec s p rho lVal sVal :
  nativeRPBlindWitness s p rho lVal sVal = (zip_with (fun s p => ModAddMul2 p One rho s) s p, ModAddMul2 lVal One rho sVal).
Proof.
  unfold nativeRPBlindWitness. f_equal.
  - apply zip_with_ext3. intros x y. rewrite native_add, native_mul, !native_set, zr_addmul2. ring.
  - rewrite native_add, native_mul, !native_set, zr_addmul2. ring.
Qed.

(** ** The linear form *)

Lemma length_buildLF n eta gamma mu nu : length mu = S n -> length nu = S n -> length (buildLF n eta gamma mu nu) = (2 * n + 4)%nat.
Proof. intros Hm Hv. unfold buildLF. rewrite !length_app, length_zip_with, length_fmap. cbn [length]. rewrite length_fmap, length_seq. lia. Qed.

Lemma ip_map_l (f : Zr -> Zr -> Zr) (l m r : list Zr) gamma : length m = length l -> length r = length l -> (forall a b, f a b = a + gamma * b) ->
  ip (zip_with f l m) r = ip l r + gamma * ip m r.
Proof.
  intros H1 H2 Hf. revert m r H1 H2. induction l as [|x l IH]; intros [|y m] [|z r]; try done; cbn [length]; intros H1 H2.
  - change (Zero = Zero + gamma * Zero). ring.
  - cbn [zip_with]. rewrite !ip_cons, Hf, IH by lia. ring.
Qed.

(** The value of the form: the three conditions, weighted. *)
Lemma lf_eval n eta gamma mu nu a0 bits b v r : small_order n -> length mu = S n -> length nu = S n -> length bits = n -> length b = S n ->
  ip (buildLF n eta gamma mu nu) (((a0 :: bits) ++ b) ++ [v; r])
  = eta * (ip (zpow Two <$> seq 0 n) bits - v) + gamma * ip mu (a0 :: bits) + gamma * gamma * ip nu b.
Proof.
  intros Hn Hm Hv Hb Hl. unfold buildLF. rewrite <- (app_assoc (a0 :: bits)).
  rewrite ip_app by (rewrite length_zip_with; cbn [length]; rewrite length_fmap, length_seq; lia). rewrite ip_app by (rewrite length_fmap; lia).
  rewrite (ip_map_l _ _ _ _ gamma); [|cbn [length]; rewrite length_fmap, length_seq; lia|cbn [length]; rewrite length_fmap, length_seq; lia|intros x y; rewrite zr_addmul2; ring].
  rewrite ip_cons, buildLF_powers by done.
  assert (ip ((fun j => eta * zpow Two j) <$> seq 0 n) bits = eta * ip (zpow Two <$> seq 0 n) bits) as ->.
  { transitivity (ip ((fun x => x * eta) <$> (zpow Two <$> seq 0 n)) bits); [|rewrite ip_scale_l; ring]. f_equal. rewrite <- list_fmap_compose. apply list_fmap_ext. intros k i _. cbn. ring. }
  assert (ip ((fun k => gamma * gamma * k) <$> nu) b = gamma * gamma * ip nu b) as ->.
  { transitivity (ip ((fun x => x * (gamma * gamma)) <$> nu) b); [|rewrite ip_scale_l; ring]. f_equal. apply list_fmap_ext. intros k i _. ring. }
  rewrite !ip_cons. change (ip [] []) with Zero. ring.
Qed.

(** ** Padding *)

Lemma padding_spec n : (1 <= n <= 64)%nat -> exists k, padding (2 * n + 4) = (2 ^ k, k)%nat /\ (2 * n + 4 <= 2 ^ k)%nat /\ (1 <= k <= maxCSPRounds)%nat.
Proof.
  intros Hn. assert (forallb (fun n => let '(s, k) := padding (2 * n + 4) in ((s =? 2 ^ k) && (2 * n + 4 <=? s) && (1 <=? k) && (k <=? maxCSPRounds))%nat) (seq 1 64) = true) as H
    by (vm_compute; reflexivity).
  rewrite forallb_forall in H. specialize (H n ltac:(apply in_seq; lia)). destruct (padding (2 * n + 4)) as [s k]. exists k.
  apply andb_true_iff in H as [[[->%Nat.eqb_eq H2%Nat.leb_le]%andb_true_iff H3%Nat.leb_le]%andb_true_iff H4%Nat.leb_le]. done.
Qed.

(** ** The bits of a value *)

Lemma toBits_spec value n : (n <= 64)%nat -> (0 <= value < GroupOrder)%Z -> (value < two64)%Z ->
  toBits (NewZrFromUint64 value) n = (fun i => NewZrFromUint64 (value_bit value i)) <$> seq 0 n.
Proof.
  intros Hn Hv H64. unfold toBits. rewrite zr_bytes_value by done. apply list_fmap_ext. intros k i Hi%list_elem_of_lookup_2%elem_of_seq.
  rewrite value_bit_spec, <- Z.testbit_spec' by lia. done.
Qed.

Lemma bits_sum value n : (n <= 64)%nat -> (0 <= value < 2 ^ Z.of_nat n)%Z ->
  ip (zpow Two <$> seq 0 n) ((fun i => NewZrFromUint64 (value_bit value i)) <$> seq 0 n) = NewZrFromUint64 value.
Proof.
  intros Hn Hv. rewrite ip_fmaps. transitivity (zsum ((fun i => NewZrFromUint64 (value_bit value i) * zpow Two i) <$> seq 0 n)).
  - f_equal. apply list_fmap_ext. intros k i _. ring.
  - rewrite bits_value by lia. by rewrite Z.mod_small.
Qed.
End RangeVectors.

(** ** An honest run *)

Section Honest.
Context {CO : Curve} {CL : CurveLaws} {NA : Native} {NL : NativeLaws} {WI : Wire} {CC : CspCurve} {CP : CspLaws}.
Add Ring zr_hon : zr_ring.
Local Open Scope zr_scope.

(** The polynomial through the values, and the product that shows they are
    bits. *)
Definition poly_a (n : nat) (aCoeffs : list Zr) (x : Zr) : Zr := lagrange (S n) (value_at aCoeffs) x.
Definition poly_b (n : nat) (aCoeffs : list Zr) (x : Zr) : Zr := let a := poly_a n aCoeffs x in a * (a - One).

Lemma order_distinct n : small_order n -> distinct_below (2 * n + 1).
Proof. intros [Hn Ho] k Hk. rewrite <- small_ones by (unfold small_index; lia). apply new_nonzero; unfold two64; lia. Qed.

Lemma poly_a_degree n l : polyf n (poly_a n l).
Proof. pose proof (lagrange_poly (S n) (value_at l)) as H. replace (S n - 1)%nat with n in H by lia. exact H. Qed.

Lemma poly_b_degree n l : polyf (2 * n) (poly_b n l).
Proof.
  replace (2 * n)%nat with (n + n)%nat by lia. apply (polyf_ext _ (fun x => poly_a n l x * (poly_a n l x + - One))); [intros x; unfold poly_b; ring|].
  apply polyf_mul; [apply poly_a_degree|]. apply polyf_add; [apply poly_a_degree|apply polyf_const].
Qed.

Lemma poly_a_values n l : small_order n -> length l = S n -> at_ints (poly_a n l) (seq 0 (S n)) = l.
Proof.
  intros Hn Hl. apply list_eq. intros i. unfold at_ints. rewrite list_lookup_fmap. destruct (Nat.lt_ge_cases i (S n)) as [Hi|Hi].
  - rewrite lookup_seq_lt by done. cbn [fmap option_fmap option_map Nat.add]. unfold poly_a. rewrite lagrange_at; [|apply (distinct_le (S n) (2 * n + 1)); [destruct Hn; lia|by apply order_distinct]|done].
    destruct (lookup_lt_is_Some_2 l i) as [x Hx]; [lia|]. rewrite Hx. unfold value_at. by rewrite nth_lookup, Hx.
  - rewrite !lookup_ge_None_2 by (rewrite ?length_seq; lia). done.
Qed.

(** The bits of the value make [b] vanish at [1, ..., n]. *)
Lemma poly_b_zero n a0 bits i : small_order n -> length bits = n -> Forall (fun x => x * x = x) bits -> (1 <= i <= n)%nat -> poly_b n (a0 :: bits) (ones i) = Zero.
Proof.
  intros Hn Hl HF Hi. unfold poly_b, poly_a. rewrite lagrange_at; [|apply (distinct_le (S n) (2 * n + 1)); [destruct Hn; lia|by apply order_distinct]|lia].
  unfold value_at. destruct i as [|i]; [lia|]. cbn [nth]. destruct (lookup_lt_is_Some_2 bits i) as [x Hx]; [lia|]. rewrite nth_lookup, Hx. cbn [default].
  rewrite Forall_lookup in HF. specialize (HF i x Hx). cbn. transitivity (x * x - x); [ring|]. rewrite HF. ring.
Qed.

(** A prover with a value in the range and its opening. *)
Record csp_range_honest (p : csp_rangeProver) (g0 g1 : G1) (value : Z) (r : Zr) : Prop := {
  crh_gens : xr_VGenerators p = [g0; g1];
  crh_com : xr_VCommitment p = Some (g0 ⋅ NewZrFromUint64 value + g1 ⋅ r)%g1;
  crh_v : xr_v p = Some (NewZrFromUint64 value);
  crh_r : xr_r p = Some r;
  crh_A : length (xr_AGenerators p) = S (xr_NumberOfBits p);
  crh_B : length (xr_BGenerators p) = S (xr_NumberOfBits p);
  crh_finite : Forall finite ([g0; g1] ++ xr_AGenerators p ++ xr_BGenerators p);
  crh_header : xr_TranscriptHeader p <> [];
  crh_order : small_order (xr_NumberOfBits p);
  crh_range : (0 <= value < 2 ^ Z.of_nat (xr_NumberOfBits p))%Z;
  crh_small : (value < GroupOrder)%Z;
}.

Lemma validate_len_G1 l (n : nat) : (0 < n)%nat -> length l = n -> Forall finite l -> validateG1Slice (Some (Own <$> l)) (Z.of_nat n) = Ok tt.
Proof.
  intros Hn Hl HF. unfold validateG1Slice. cbn [present_or mbind res_mbind]. rewrite length_fmap, Hl, Z.eqb_refl, andb_false_r. cbn [reject_if mbind res_mbind].
  apply wrap_Ok, CheckElements_exact. by exists l.
Qed.

(** *** The statement given to the compressed sigma protocol *)

Lemma blinded_msm (g : list G1) rho s : forall q, length q = length g -> length s = length g ->
  msm g (zip_with (fun s p => ModAddMul2 p One rho s) s q) = (msm g q + msm g s ⋅ rho)%g1.
Proof.
  revert s. induction g as [|x g IH]; intros [|y s] [|z q]; try done; cbn [length]; intros H1 H2; [cbn; linear|].
  cbn [zip_with]. rewrite !msm_cons, zr_addmul2, IH by lia. linear.
Qed.

Lemma blinded_ip (f : list Zr) rho s : forall q, length q = length f -> length s = length f ->
  ip f (zip_with (fun s p => ModAddMul2 p One rho s) s q) = ip f q + rho * ip f s.
Proof.
  revert s. induction f as [|x f IH]; intros [|y s] [|z q]; try done; cbn [length]; intros H1 H2; [change (Zero = Zero + rho * Zero); ring|].
  cbn [zip_with]. rewrite !ip_cons, zr_addmul2, IH by lia. ring.
Qed.

Definition blinded_prover (header : bytes) (k : nat) (g : list G1) (lf s q : list Zr) (rho : Zr) : csp_prover :=
  let w := length g in let missing := (2 ^ k - w)%nat in
  {| cp_Commitment := Some (msm g q + msm g s ⋅ rho)%g1; cp_Generators := g ++ replicate missing GenG1; cp_LinearForm := lf ++ replicate missing Zero;
     cp_Value := Some (ip lf q + rho * ip lf s); cp_NumberOfRounds := k;
     cp_witness := zip_with (fun s p => ModAddMul2 p One rho s) s q ++ replicate missing Zero; cp_realLen := w; cp_TranscriptHeader := header |}.

Lemma blinded_honest header k g lf s q rho : length lf = length g -> length s = length g -> length q = length g -> Forall finite g -> header <> [] ->
  (length g <= 2 ^ k)%nat -> (1 <= k <= maxCSPRounds)%nat -> csp_honest (blinded_prover header k g lf s q rho).
Proof.
  intros Hlf Hs Hq HF Hh Hw Hk. unfold csp_honest, blinded_prover. cbn [cp_Generators cp_LinearForm cp_witness cp_NumberOfRounds cp_realLen cp_Commitment cp_Value cp_TranscriptHeader].
  set (d := (2 ^ k - length g)%nat). set (wit := zip_with _ _ _). assert (length wit = length g) as Hwit by (unfold wit; rewrite length_zip_with; lia). split_and!; try done; try lia.
  - unfold vectors. rewrite !length_app, !length_replicate. lia.
  - apply Forall_app. split; [done|]. apply Forall_replicate. apply gen_finite.
  - unfold padded. rewrite drop_app_length. rewrite <- Hlf at 1. rewrite drop_app_length. rewrite <- Hwit at 1. rewrite drop_app_length.
    split_and!; by apply Forall_replicate.
  - f_equal. rewrite msm_app, (msm_zero (replicate _ _)) by (done || by apply Forall_replicate). rewrite g1_zero_r. symmetry. by apply blinded_msm.
  - f_equal. rewrite ip_app, ip_zeros by lia. unfold wit. rewrite blinded_ip by lia. ring.
Qed.

(** The verifier of the same commitment, and a proof on the wire. *)
Definition csp_range_verifier_of (p : csp_rangeProver) : csp_rangeVerifier :=
  {| xv_VGenerators := xr_VGenerators p; xv_AGenerators := xr_AGenerators p; xv_BGenerators := xr_BGenerators p;
     xv_VCommitment := xr_VCommitment p; xv_NumberOfBits := xr_NumberOfBits p; xv_TranscriptHeader := xr_TranscriptHeader p |}.

Definition send_range (pr : csp_RangeProof) : wcsp_RangeProof :=
  {| wx_pComm := Some (Own (xp_pComm pr)); wx_pokA := Some (Own (xp_pokA pr)); wx_pokZ := Some (Own <$> xp_pokZ pr); wx_u := Some (Own (xp_u pr));
     wx_sComm := Some (Own (xp_sComm pr)); wx_sEval := Some (Own (xp_sEval pr)); wx_cspProof := send_csp (xp_cspProof pr) |}.

(** The challenge that scales the generators of the value. *)
Definition range_eta (env : lagrange_env) (p : csp_rangeProver) (rand : nat -> Zr) : res Zr :=
  com ← deref (xr_VCommitment p);
  v ← deref (xr_v p);
  r ← deref (xr_r p);
  m ← range_first env p com v r rand;
  Ok (Squeeze (fm_transcript m)).1.

(** The messages of a run that the verifier wants finite. *)
Definition csp_points (pr : csp_RangeProof) : list G1 := csp_Left (xp_cspProof pr) ++ csp_Right (xp_cspProof pr).

(** A proof none of whose slices is empty. *)
Definition csp_full (p : csp_RangeProof) : Prop :=
  xp_pokZ p <> [] /\ csp_Left (xp_cspProof p) <> [] /\ csp_Right (xp_cspProof p) <> [] /\ csp_VLeft (xp_cspProof p) <> [] /\ csp_VRight (xp_cspProof p) <> [].

Lemma validateRangeProof_send pr k : length (xp_pokZ pr) = 2%nat -> Forall finite (csp_points pr) -> (k <= maxCSPRounds)%nat ->
  length (csp_Left (xp_cspProof pr)) = k -> length (csp_Right (xp_cspProof pr)) = k -> length (csp_VLeft (xp_cspProof pr)) = k -> length (csp_VRight (xp_cspProof pr)) = k ->
  validateRangeProof (send_range pr) = Ok tt.
Proof.
  intros Hz HF Hk H1 H2 H3 H4. unfold csp_points in HF. unfold validateRangeProof, send_range. cbn [wx_pComm wx_pokA wx_pokZ wx_u wx_sComm wx_sEval wx_cspProof validate_element mbind res_mbind].
  rewrite then_Ok. split.
  - unfold validateZrSlice. cbn [present_or mbind res_mbind]. rewrite length_fmap, Hz. cbn [reject_if mbind res_mbind]. apply wrap_Ok, CheckZrElements_exact. by exists (xp_pokZ pr).
  - apply validateCSPProof_exact. destruct (xp_cspProof pr) as [L R VL VR]. cbn in *. destruct (rounds_of_spec L R VL VR) as (E1 & E2 & E3 & E4); [lia..|].
    exists (rounds_of L R VL VR). unfold carries, send_csp, round_points. cbn. rewrite E1, E2, E3, E4, !length_fmap.
    apply (f_equal length) in E1. rewrite length_fmap in E1. split_and!; (done || lia).
Qed.

Lemma length_honest_proof p : length (honest_proof p) = cp_NumberOfRounds p.
Proof. apply length_honest. Qed.

Section Run.
Context (env env' : lagrange_env) (Henv : env_ok env) (Henv' : env_ok env').
Context (p : csp_rangeProver) (g0 g1 : G1) (value : Z) (r : Zr) (H : csp_range_honest p g0 g1 value r) (rand : nat -> Zr).

Let n := xr_NumberOfBits p.
Let com : G1 := (g0 ⋅ NewZrFromUint64 value + g1 ⋅ r)%g1.
Let bits : list Zr := (fun i => NewZrFromUint64 (value_bit value i)) <$> seq 0 n.
Let aCoeffs : list Zr := rand 2%nat :: bits.
Let bCoeffs : list Zr := at_ints (poly_b n aCoeffs) (relevant n).

Lemma value64 : (value < two64)%Z.
Proof using H.
  destruct (crh_order _ _ _ _ _ H) as [Hn _]. pose proof (crh_range _ _ _ _ _ H) as [_ Hv]. assert (2 ^ Z.of_nat (xr_NumberOfBits p) <= 2 ^ 64)%Z by (apply Z.pow_le_mono_r; lia).
  unfold two64. lia.
Qed.

Lemma length_bits : length bits = n.
Proof. unfold bits. by rewrite length_fmap, length_seq. Qed.

Lemma length_aCoeffs : length aCoeffs = S n.
Proof. unfold aCoeffs. cbn [length]. by rewrite length_bits. Qed.

Lemma length_bCoeffs : length bCoeffs = S n.
Proof. unfold bCoeffs, at_ints, relevant. rewrite length_fmap. cbn [length]. by rewrite length_seq. Qed.

Lemma range_first_spec : let '(pokE, tr) := Squeeze (Absorb (Absorb (xr_TranscriptHeader p) (G1_Bytes com)) (G1_Bytes (smallMSM [g0; g1] [rand 0%nat; rand 1%nat]))) in
  let pComm := msm (xr_AGenerators p ++ xr_BGenerators p) (aCoeffs ++ bCoeffs) in
  range_first env p com (NewZrFromUint64 value) r rand
  = Ok {| fm_pokA := smallMSM [g0; g1] [rand 0%nat; rand 1%nat];
          fm_pokZ := [ModAddMul2 (rand 0%nat) One pokE (NewZrFromUint64 value); ModAddMul2 (rand 1%nat) One pokE r];
          fm_aCoeffs := aCoeffs; fm_bCoeffs := bCoeffs; fm_pComm := pComm; fm_transcript := Absorb tr (G1_Bytes pComm) |}.
Proof using Henv H CL NL CP.
  pose proof (crh_order _ _ _ _ _ H) as Ho. pose proof Ho as [Hn _]. fold n in Ho, Hn. unfold range_first. rewrite (crh_gens _ _ _ _ _ H). fold n.
  destruct (Squeeze _) as [pokE tr]. rewrite toBits_spec; [|lia|pose proof (crh_range _ _ _ _ _ H); pose proof (crh_small _ _ _ _ _ H); lia|apply value64]. fold bits. fold aCoeffs.
  rewrite interpolate_spec; [|done|lia|by apply order_distinct|apply length_aCoeffs].
  assert (extended n aCoeffs = at_ints (poly_a n aCoeffs) (seq 0 (2 * n + 1))) as ->.
  { rewrite <- (poly_a_values n aCoeffs Ho length_aCoeffs) at 1. apply extended_values; [lia|by apply order_distinct|apply poly_a_degree]. }
  assert (mapM (fun i => ai ← index (at_ints (poly_a n aCoeffs) (seq 0 (2 * n + 1))) (n + i); Ok (ai * (ai - One))) (seq 1 n) = Ok (at_ints (poly_b n aCoeffs) (seq (S n) n))) as ->.
  { rewrite (mapM_pure _ (fun i => poly_b n aCoeffs (ones (n + i)))).
    - f_equal. unfold at_ints. replace (S n) with (n + 1)%nat by lia. rewrite <- fmap_add_seq, <- list_fmap_compose. done.
    - intros i Hi%elem_of_seq. unfold at_ints. rewrite (index_Some _ _ (poly_a n aCoeffs (ones (n + i)))); [done|]. rewrite list_lookup_fmap, lookup_seq_lt by lia. done. }
  cbn [mbind res_mbind]. assert (rand 2%nat * (rand 2%nat - One) :: at_ints (poly_b n aCoeffs) (seq (S n) n) = bCoeffs) as ->.
  { unfold bCoeffs, relevant, at_ints. rewrite fmap_cons. f_equal. unfold poly_b, poly_a. rewrite lagrange_at; [done|apply (distinct_le (S n) (2 * n + 1)); [lia|by apply order_distinct]|lia]. }
  rewrite (smallMSM_spec (xr_AGenerators p ++ _)); [done|]. rewrite !length_app, (crh_A _ _ _ _ _ H), (crh_B _ _ _ _ _ H), length_aCoeffs, length_bCoeffs. done.
Qed.

Let gExt (eta : Zr) : list G1 := (xr_AGenerators p ++ xr_BGenerators p) ++ [(g0 ⋅ eta)%g1; (g1 ⋅ eta)%g1].
Let pExt : list Zr := (aCoeffs ++ bCoeffs) ++ [NewZrFromUint64 value; r].
Let mu (c : Zr) : list Zr := basis (S n) c <$> seq 0 (S n).
Let nu (c : Zr) : list Zr := basis (2 * n + 1) c <$> relevant n.
Let sBlind : list Zr := (fun i => rand (3 + i)%nat) <$> seq 0 (length pExt).

Lemma run_lengths eta c : length (gExt eta) = (2 * n + 4)%nat /\ length pExt = (2 * n + 4)%nat /\ length sBlind = (2 * n + 4)%nat /\ length (mu c) = S n /\ length (nu c) = S n.
Proof using H.
  assert (length pExt = (2 * n + 4)%nat) as Hp by (unfold pExt; rewrite !length_app, length_aCoeffs, length_bCoeffs; cbn [length]; lia).
  unfold gExt, sBlind, mu, nu, relevant. rewrite !length_app, (crh_A _ _ _ _ _ H), (crh_B _ _ _ _ _ H), !length_fmap, !length_seq. cbn [length]. rewrite length_seq. fold n. lia.
Qed.

Lemma u_is_a c : ip aCoeffs (mu c) = poly_a n aCoeffs c.
Proof using H CL CP.
  pose proof (crh_order _ _ _ _ _ H) as Ho. fold n in Ho. rewrite ip_comm. unfold mu. rewrite <- (poly_a_values n aCoeffs Ho length_aCoeffs) at 1.
  apply multipliers_evaluate; [destruct Ho; lia|by apply order_distinct|apply poly_a_degree].
Qed.

Lemma nu_is_b c : ip (nu c) bCoeffs = poly_b n aCoeffs c.
Proof using H CL CP.
  pose proof (crh_order _ _ _ _ _ H) as Ho. fold n in Ho. apply partial_evaluate; [destruct Ho; lia|by apply order_distinct|apply poly_b_degree|].
  intros i Hi. apply poly_b_zero; [done|apply length_bits| |done]. unfold bits. apply Forall_fmap, Forall_seq. intros j Hj. cbn. apply bit_square. destruct Ho. lia.
Qed.

(** The statement is true: the form has the claimed value. *)
Lemma form_value eta c gamma : ip (buildLF n eta gamma (mu c) (nu c)) pExt = claimedValue gamma (poly_a n aCoeffs c).
Proof using H CL CP.
  pose proof (crh_order _ _ _ _ _ H) as Ho. fold n in Ho. destruct (run_lengths eta c) as (_ & _ & _ & Hm & Hv). unfold pExt, aCoeffs.
  rewrite lf_eval by (done || apply length_bits || apply length_bCoeffs). fold aCoeffs. rewrite (ip_comm (mu c)), u_is_a, nu_is_b.
  unfold bits at 1. rewrite bits_sum by (destruct Ho; lia || apply (crh_range _ _ _ _ _ H)). unfold claimedValue. rewrite zr_addmul2. unfold poly_b. ring.
Qed.

Lemma statement_com eta : msm (gExt eta) pExt = (msm (xr_AGenerators p ++ xr_BGenerators p) (aCoeffs ++ bCoeffs) + com ⋅ eta)%g1.
Proof using H CL.
  unfold gExt, pExt. rewrite msm_app by (rewrite !length_app, (crh_A _ _ _ _ _ H), (crh_B _ _ _ _ _ H), length_aCoeffs, length_bCoeffs; done).
  f_equal. rewrite !msm_cons. change (msm [] []) with NewG1. unfold com. linear.
Qed.

Lemma mul_finite g x : finite g -> x <> Zero -> finite (g ⋅ x)%g1.
Proof.
  unfold finite. rewrite !infinity_spec. intros Hg Hx. apply bool_decide_eq_false in Hg. apply bool_decide_eq_false. intros E. apply Hg.
  transitivity (g ⋅ x ⋅ InvModOrder x)%g1; [rewrite g1_mul_mul, zr_inv, g1_mul_one by done; done|]. rewrite E. apply g1_zero_mul.
Qed.

Lemma gExt_finite eta : eta <> Zero -> Forall finite (gExt eta).
Proof using H CL CP.
  intros He. pose proof (crh_finite _ _ _ _ _ H) as HF. rewrite !Forall_app in HF. destruct HF as (HV & HA & HB). unfold gExt. rewrite !Forall_app.
  split; [done|]. apply Forall_cons in HV as [H0 HV]. apply Forall_cons in HV as [H1 _]. repeat constructor; by apply mul_finite.
Qed.

Lemma generators_valid : validate_generators n [g0; g1] (xr_AGenerators p) (xr_BGenerators p) = Ok tt /\ validate_bits n = Ok tt.
Proof using H.
  pose proof (crh_finite _ _ _ _ _ H) as HF. rewrite !Forall_app in HF. destruct HF as (HV & HA & HB). destruct (crh_order _ _ _ _ _ H) as [Hn _]. fold n in Hn. split.
  - unfold validate_generators. rewrite !then_Ok. replace (Z.of_nat n + 1)%Z with (Z.of_nat (S n)) by lia. change 2%Z with (Z.of_nat 2).
    split_and!; apply validate_len_G1; try done; try lia; [apply (crh_A _ _ _ _ _ H)|apply (crh_B _ _ _ _ _ H)].
  - unfold validate_bits. destruct (Nat.eqb_spec n 0); [lia|]. destruct (Nat.ltb_spec 64 n); [lia|]. done.
Qed.

(** The prover after dispatch. *)
Lemma dispatch_u c : (if native_curve then nativeRPInnerProduct aCoeffs (mu c) else InnerProduct aCoeffs (mu c)) = poly_a n aCoeffs c.
Proof using H CL NL CP.
  rewrite <- u_is_a. destruct native_curve; [apply native_inner|]. apply InnerProduct_spec. destruct (run_lengths Zero c) as (_ & _ & _ & -> & _). apply length_aCoeffs.
Qed.

Lemma dispatch_lf eta c gamma : (if native_curve then let '(lf, _, lVal) := nativeRPBuildLF n eta gamma (mu c) (nu c) aCoeffs in (lf, lVal)
    else (buildLF n eta gamma (mu c) (nu c), claimedValue gamma (poly_a n aCoeffs c)))
  = (buildLF n eta gamma (mu c) (nu c), claimedValue gamma (poly_a n aCoeffs c)).
Proof using H CL NL CP. destruct native_curve; [|done]. rewrite nativeRPBuildLF_spec by apply (crh_order _ _ _ _ _ H). by rewrite u_is_a. Qed.

Lemma dispatch_s lf : length lf = (2 * n + 4)%nat -> (if native_curve then nativeRPInnerProduct lf sBlind else InnerProduct lf sBlind) = ip lf sBlind.
Proof using H CL NL CP. intros Hl. destruct native_curve; [apply native_inner|]. apply InnerProduct_spec. destruct (run_lengths Zero Zero) as (_ & _ & -> & _). done. Qed.

Lemma dispatch_wit rho lVal sVal : (if native_curve then nativeRPBlindWitness sBlind pExt rho lVal sVal
    else (zip_with (fun s p => ModAddMul2 p One rho s) sBlind pExt, ModAddMul2 lVal One rho sVal))
  = (zip_with (fun s p => ModAddMul2 p One rho s) sBlind pExt, ModAddMul2 lVal One rho sVal).
Proof using CL NL. destruct native_curve; [|done]. apply nativeRPBlindWitness_spec. Qed.

(** What the prover returns, with its challenges. *)
Lemma range_prove_run : let pokA := smallMSM [g0; g1] [rand 0%nat; rand 1%nat] in
  let '(pokE, tr) := Squeeze (Absorb (Absorb (xr_TranscriptHeader p) (G1_Bytes com)) (G1_Bytes pokA)) in
  let pComm := msm (xr_AGenerators p ++ xr_BGenerators p) (aCoeffs ++ bCoeffs) in
  let '(eta, tr) := Squeeze (Absorb tr (G1_Bytes pComm)) in
  let '(c, tr) := Squeeze tr in
  let u := poly_a n aCoeffs c in
  let '(gamma, tr) := Squeeze (Absorb tr (Zr_Bytes u)) in
  let lf := buildLF n eta gamma (mu c) (nu c) in
  let sComm := msm (gExt eta) sBlind in
  let sVal := ip lf sBlind in
  let '(rho, _) := Squeeze (Absorb (Absorb tr (G1_Bytes sComm)) (Zr_Bytes sVal)) in
  csp_rangeProver_Prove env p (Ok rand)
  = (cspProof ← wrap "failed to generate CSP proof" (csp_Prove (blinded_prover (xr_TranscriptHeader p) (padding (2 * n + 4)).2 (gExt eta) lf sBlind pExt rho));
     Ok {| xp_pComm := pComm; xp_pokA := pokA; xp_pokZ := [ModAddMul2 (rand 0%nat) One pokE (NewZrFromUint64 value); ModAddMul2 (rand 1%nat) One pokE r];
           xp_u := u; xp_sComm := sComm; xp_sEval := sVal; xp_cspProof := cspProof |}).
Proof using Henv H CL NL CP.
  pose proof (crh_order _ _ _ _ _ H) as Ho. pose proof Ho as [Hn _]. fold n in Ho, Hn. pose proof range_first_spec as Hfirst. cbn zeta in Hfirst |- *.
  destruct (Squeeze (Absorb (Absorb (xr_TranscriptHeader p) (G1_Bytes com)) _)) as [pokE tr1]. destruct (Squeeze (Absorb tr1 _)) as [eta tr2] eqn:E2. destruct (Squeeze tr2) as [c tr3] eqn:E3.
  destruct (Squeeze (Absorb tr3 _)) as [gamma tr4] eqn:E4. destruct (Squeeze (Absorb (Absorb tr4 _) _)) as [rho tr5] eqn:E5.
  unfold csp_rangeProver_Prove. destruct generators_valid as [Hg Hb].
  assert (validateRangeProverInputs p = Ok tt) as ->.
  { unfold validateRangeProverInputs. rewrite (crh_com _ _ _ _ _ H), (crh_v _ _ _ _ _ H), (crh_r _ _ _ _ _ H). cbn [present_or mbind res_mbind].
    rewrite then_Ok, (crh_gens _ _ _ _ _ H). done. }
  cbn [wrap mbind res_mbind]. destruct (Nat.eqb_spec (length (xr_TranscriptHeader p)) 0) as [E0|_]; [apply length_zero_iff_nil in E0; by apply (crh_header _ _ _ _ _ H) in E0|].
  cbn [reject_if mbind res_mbind]. rewrite (crh_com _ _ _ _ _ H), (crh_v _ _ _ _ _ H), (crh_r _ _ _ _ _ H). cbn [deref wrap mbind res_mbind].
  fold com. rewrite Hfirst. cbn [mbind res_mbind fm_aCoeffs fm_bCoeffs fm_pComm fm_pokA fm_pokZ fm_transcript]. rewrite E2, E3. fold n.
  rewrite (multipliers_spec env Henv n ltac:(lia) (order_distinct n Ho)), (partial_spec env Henv n ltac:(lia) (order_distinct n Ho)). cbn [replace_err mbind res_mbind].
  fold (mu c). fold (nu c). rewrite dispatch_u, E4, dispatch_lf. fold pExt. fold sBlind. rewrite (crh_gens _ _ _ _ _ H).
  destruct (padding_spec n Hn) as (k & Hpad & Hk1 & Hk2). rewrite Hpad. cbn [snd].
  cbn [index lookup list_lookup mbind res_mbind]. fold (gExt eta). destruct (run_lengths eta c) as (Lg & Lp & Ls & Lm & Ln).
  rewrite (smallMSM_spec (gExt eta)) by lia. rewrite dispatch_s by (apply length_buildLF; done). rewrite E5, dispatch_wit.
  unfold blinded_prover. rewrite length_zip_with, Ls, Lp, Nat.min_id, Lg, statement_com, form_value.
  by replace (ModAddMul2 (claimedValue gamma (poly_a n aCoeffs c)) One rho (ip (buildLF n eta gamma (mu c) (nu c)) sBlind))
    with (claimedValue gamma (poly_a n aCoeffs c) + rho * ip (buildLF n eta gamma (mu c) (nu c)) sBlind) by (rewrite zr_addmul2; ring).
Qed.

Lemma range_eta_total : exists eta, range_eta env p rand = Ok eta.
Proof using Henv H CL NL CP.
  pose proof range_first_spec as Hfirst. cbn zeta in Hfirst. unfold range_eta. rewrite (crh_com _ _ _ _ _ H), (crh_v _ _ _ _ _ H), (crh_r _ _ _ _ _ H). cbn [deref mbind res_mbind]. fold com.
  destruct (Squeeze (Absorb (Absorb (xr_TranscriptHeader p) (G1_Bytes com)) _)) as [pokE tr1]. rewrite Hfirst. by eexists.
Qed.

Lemma range_complete eta : range_eta env p rand = Ok eta -> eta <> Zero ->
  exists proof, csp_rangeProver_Prove env p (Ok rand) = Ok proof /\ csp_full proof /\
    (Forall finite (csp_points proof) -> csp_rangeVerifier_Verify env' (csp_range_verifier_of p) (send_range proof) = Ok tt).
Proof using Henv Henv' H CL NL CP.
  pose proof (crh_order _ _ _ _ _ H) as Ho. pose proof Ho as [Hn _]. fold n in Ho, Hn. pose proof range_first_spec as Hfirst. pose proof range_prove_run as Hrun. cbn zeta in Hfirst, Hrun.
  unfold range_eta. rewrite (crh_com _ _ _ _ _ H), (crh_v _ _ _ _ _ H), (crh_r _ _ _ _ _ H). cbn [deref mbind res_mbind]. fold com.
  destruct (Squeeze (Absorb (Absorb (xr_TranscriptHeader p) (G1_Bytes com)) _)) as [pokE tr1] eqn:E1. rewrite Hfirst. cbn [mbind res_mbind fm_transcript].
  destruct (Squeeze (Absorb tr1 _)) as [eta' tr2] eqn:E2. intros [= ->] Hne. destruct (Squeeze tr2) as [c tr3] eqn:E3.
  destruct (Squeeze (Absorb tr3 _)) as [gamma tr4] eqn:E4. destruct (Squeeze (Absorb (Absorb tr4 _) _)) as [rho tr5] eqn:E5.
  destruct (run_lengths eta c) as (Lg & Lp & Ls & Lm & Ln). destruct (padding_spec n Hn) as (k & Hpad & Hk1 & Hk2). rewrite Hpad in Hrun. cbn [snd] in Hrun.
  set (lf := buildLF n eta gamma (mu c) (nu c)) in *. assert (length lf = (2 * n + 4)%nat) as Llf by (by apply length_buildLF).
  pose proof (blinded_honest (xr_TranscriptHeader p) k (gExt eta) lf sBlind pExt rho ltac:(lia) ltac:(lia) ltac:(lia) (gExt_finite eta Hne) (crh_header _ _ _ _ _ H) ltac:(lia) Hk2) as Hbl.
  set (bp := blinded_prover _ _ _ _ _ _ _) in *. destruct (csp_complete bp Hbl) as (cp & Hcp & Hver). pose proof (csp_Prove_honest bp Hbl) as Hcp'. rewrite Hcp in Hcp'. injection Hcp' as Ecp.
  rewrite Hcp in Hrun. cbn [wrap mbind res_mbind] in Hrun. rewrite Hrun. eexists. split; [reflexivity|].
  assert (length (honest_proof bp) = k) as Lh by apply length_honest_proof. split.
  { unfold csp_full. cbn [xp_pokZ xp_cspProof]. rewrite Ecp. destruct (honest_proof bp); [cbn in Lh; lia|done]. }
  intros HF.
  unfold csp_rangeVerifier_Verify. destruct generators_valid as [Hg Hb].
  assert (validateRangeVerifierInputs (csp_range_verifier_of p) = Ok tt) as ->.
  { unfold validateRangeVerifierInputs, csp_range_verifier_of. cbn [xv_VCommitment xv_NumberOfBits xv_VGenerators xv_AGenerators xv_BGenerators].
    rewrite (crh_com _ _ _ _ _ H), (crh_gens _ _ _ _ _ H). cbn [present_or mbind res_mbind]. by rewrite then_Ok. }
  cbn [wrap mbind res_mbind]. rewrite (validateRangeProof_send _ k) by (done || lia || (rewrite Ecp; cbn; by rewrite length_fmap)). cbn [wrap mbind res_mbind].
  unfold csp_range_verifier_of. cbn [xv_VCommitment xv_NumberOfBits xv_VGenerators xv_AGenerators xv_BGenerators xv_TranscriptHeader].
  destruct (Nat.eqb_spec (length (xr_TranscriptHeader p)) 0) as [E0|_]; [apply length_zero_iff_nil in E0; by apply (crh_header _ _ _ _ _ H) in E0|].
  cbn [reject_if mbind res_mbind]. rewrite (crh_com _ _ _ _ _ H), (crh_gens _ _ _ _ _ H). cbn [deref mbind res_mbind]. fold com.
  unfold csp_elements_of, send_range, own_pointer, owns. cbn [wx_pComm wx_pokA wx_pokZ wx_u wx_sComm wx_sEval wx_cspProof xp_pComm xp_pokA xp_pokZ xp_u xp_sComm xp_sEval xp_cspProof deref own mbind res_mbind default from_option id].
  rewrite mapM_own. cbn [mbind res_mbind ce_pComm ce_pokA ce_pokZ ce_u ce_sComm ce_sEval]. rewrite E1.
  assert (smallMSM [g0; g1] [ModAddMul2 (rand 0%nat) One pokE (NewZrFromUint64 value); ModAddMul2 (rand 1%nat) One pokE r]
          = (smallMSM [g0; g1] [rand 0%nat; rand 1%nat] + com ⋅ pokE)%g1) as Hpok.
  { cbn [smallMSM]. rewrite !g1_mul2, !zr_addmul2. unfold com. linear. }
  rewrite bool_decide_true by exact Hpok. cbn [negb reject_if mbind res_mbind]. rewrite E2, E3. fold n.
  rewrite (multipliers_spec env' Henv' n ltac:(lia) (order_distinct n Ho)), (partial_spec env' Henv' n ltac:(lia) (order_distinct n Ho)). cbn [replace_err mbind res_mbind].
  fold (mu c). fold (nu c). rewrite E4. cbn [index lookup list_lookup mbind res_mbind]. fold lf. rewrite E5.
  rewrite (app_assoc (xr_AGenerators p)). fold (gExt eta). rewrite Lg, Hpad. rewrite <- Lg. rewrite <- Hver by exact HF. f_equal.
  unfold csp_verifier_of, bp, blinded_prover. cbn [cp_Commitment cp_Generators cp_LinearForm cp_Value cp_NumberOfRounds cp_TranscriptHeader].
  rewrite statement_com, (form_value eta c gamma : ip lf pExt = _). f_equal. f_equal. rewrite zr_addmul2. ring.
Qed.
End Run.
End Honest.
