(* ===== verification/CspRangeSound.v ===== *)
(** * What the linear form of a range proof enforces

    A vector that satisfies the verifier's linear form for enough challenges
    holds the bits of a value in the range; the verifier never panics; and what
    its validation does not check. *)

From S2P Require Import Prelude GoStd Der Asn1 ZkMath ZkIpa ZkRange ZkSigma ZkCodec ZkTransfer Csp CspFold CspSound Lagrange LagrangeSpec LagrangeTree CspRange CspRangeSpec.
From Stdlib Require Import ZArith Lia Ring.

Section FormSound.
Context {CO : Curve} {CL : CurveLaws} {NA : Native} {NL : NativeLaws} {WI : Wire} {CC : CspCurve} {CP : CspLaws}.
Add Ring zr_fs : zr_ring.
Local Open Scope zr_scope.

(** A quadratic with three roots vanishes. *)
Lemma quadratic_zero K A B xs : NoDup xs -> length xs = 3%nat -> Forall (fun g => K + g * A + g * g * B = Zero) xs -> K = Zero /\ A = Zero /\ B = Zero.
Proof.
  intros Hnd Hl HF. destruct xs as [|x [|y [|z [|]]]]; try done. rewrite !NoDup_cons, !not_elem_of_cons in Hnd. destruct Hnd as ((Hxy & Hxz & _) & (Hyz & _) & _).
  rewrite !Forall_cons in HF. destruct HF as (Hx & Hy & Hz & _).
  assert (forall a b, a <> b -> K + a * A + a * a * B = Zero -> K + b * A + b * b * B = Zero -> A + (a + b) * B = Zero) as Hd.
  { intros a b Hne Ha Hb. destruct (decide (A + (a + b) * B = Zero)) as [|Hn]; [done|]. exfalso. apply (mul_nonzero (a - b) (A + (a + b) * B)); [by apply sub_nonzero|done|].
    transitivity ((K + a * A + a * a * B) - (K + b * A + b * b * B)); [ring|]. rewrite Ha, Hb. ring. }
  pose proof (Hd x y Hxy Hx Hy) as H1. pose proof (Hd x z Hxz Hx Hz) as H2.
  assert (B = Zero) as HB.
  { destruct (decide (B = Zero)) as [|Hn]; [done|]. exfalso. apply (mul_nonzero (y - z) B); [by apply sub_nonzero|done|].
    transitivity ((A + (x + y) * B) - (A + (x + z) * B)); [ring|]. rewrite H1, H2. ring. }
  rewrite HB in H1, Hx. assert (A = Zero) as HA by (rewrite <- H1; ring). rewrite HA in Hx. split_and!; [rewrite <- Hx; ring|done..].
Qed.

(** The multipliers the verifier uses for a challenge. *)
Definition mu_of (n : nat) (c : Zr) : list Zr := basis (S n) c <$> seq 0 (S n).
Definition nu_of (n : nat) (c : Zr) : list Zr := basis (2 * n + 1) c <$> relevant n.

(** The form holds for three challenges [gamma], with one [eta], [c] and [u]. *)
Definition form_holds (n : nat) (w : list Zr) (eta c u : Zr) (gammas : list Zr) : Prop :=
  eta <> Zero /\ NoDup gammas /\ length gammas = 3%nat /\
  Forall (fun gamma => ip (buildLF n eta gamma (mu_of n c) (nu_of n c)) w = claimedValue gamma u) gammas.

Lemma form_conditions n a0 bits b v r eta c u gammas : small_order n -> length bits = n -> length b = S n ->
  form_holds n (((a0 :: bits) ++ b) ++ [v; r]) eta c u gammas ->
  v = ip (zpow Two <$> seq 0 n) bits /\ ip (nu_of n c) b = poly_a n (a0 :: bits) c * (poly_a n (a0 :: bits) c - One).
Proof.
  intros Ho Hb Hl (He & Hnd & Hg & HF). pose proof Ho as [Hn _].
  assert (length (mu_of n c) = S n) as Lm by (unfold mu_of; by rewrite length_fmap, length_seq). assert (length (nu_of n c) = S n) as Ln by (unfold nu_of, relevant; rewrite length_fmap; cbn; by rewrite length_seq).
  assert (ip (mu_of n c) (a0 :: bits) = poly_a n (a0 :: bits) c) as Hu.
  { unfold mu_of. rewrite <- (poly_a_values n (a0 :: bits) Ho) at 1 by (cbn; lia). apply multipliers_evaluate; [lia|by apply order_distinct|apply poly_a_degree]. }
  destruct (quadratic_zero (eta * (ip (zpow Two <$> seq 0 n) bits - v)) (ip (mu_of n c) (a0 :: bits) - u) (ip (nu_of n c) b - u * (u - One)) gammas Hnd Hg) as (H1 & H2 & H3).
  { apply (Forall_impl _ _ _ HF). intros gamma Hf. rewrite lf_eval in Hf by done. unfold claimedValue in Hf. rewrite zr_addmul2 in Hf.
    transitivity (eta * (ip (zpow Two <$> seq 0 n) bits - v) + gamma * ip (mu_of n c) (a0 :: bits) + gamma * gamma * ip (nu_of n c) b - (gamma * u + gamma * gamma * (u * (u - One)))); [ring|].
    rewrite Hf. ring. }
  split.
  - destruct (decide (ip (zpow Two <$> seq 0 n) bits - v = Zero)) as [E|Hne]; [|exfalso; by apply (mul_nonzero eta _ He Hne)].
    replace v with (ip (zpow Two <$> seq 0 n) bits - (ip (zpow Two <$> seq 0 n) bits - v)) by ring. rewrite E. ring.
  - rewrite <- Hu. replace (ip (mu_of n c) (a0 :: bits)) with u by (transitivity (u + (ip (mu_of n c) (a0 :: bits) - u)); [rewrite H2|]; ring).
    transitivity (u * (u - One) + (ip (nu_of n c) b - u * (u - One))); [ring|]. rewrite H3. ring.
Qed.

(** The values of the second half, with zeros at [1, ..., n]. *)
Definition b_values (n : nat) (b : list Zr) (i : nat) : Zr :=
  if (i =? 0)%nat then nth 0 b Zero else if (i <=? n)%nat then Zero else nth (i - n) b Zero.

Lemma nu_interpolates n b c : length b = S n -> ip (nu_of n c) b = lagrange (2 * n + 1) (b_values n b) c.
Proof.
  intros Hl. assert (b = b_values n b <$> relevant n) as E.
  { unfold relevant. destruct b as [|b0 b]; [done|]. rewrite fmap_cons. f_equal. injection Hl as Hl. apply list_eq. intros i. rewrite list_lookup_fmap.
    destruct (Nat.lt_ge_cases i n) as [Hi|Hi]; [|rewrite !lookup_ge_None_2 by (rewrite ?length_seq; lia); done]. rewrite lookup_seq_lt by done. cbn [fmap option_fmap option_map].
    destruct (lookup_lt_is_Some_2 b i) as [x Hx]; [lia|]. rewrite Hx. unfold b_values. destruct (Nat.eqb_spec (S n + i) 0); [lia|]. destruct (Nat.leb_spec (S n + i) n); [lia|].
    replace (S n + i - n)%nat with (S i) by lia. cbn [nth]. by rewrite nth_lookup, Hx. }
  rewrite E at 1. unfold nu_of. rewrite ip_fmaps. unfold lagrange. assert (seq 0 (2 * n + 1) = 0%nat :: seq 1 n ++ seq (S n) n) as ->.
  { replace (2 * n + 1)%nat with (S (n + n)) by lia. cbn [seq]. by rewrite seq_app. }
  unfold relevant. rewrite !fmap_cons, !zsum_cons, fmap_app, zsum_app. f_equal.
  assert (forall l, Forall (fun i => (1 <= i <= n)%nat) l -> zsum ((fun i => basis (2 * n + 1) c i * b_values n b i) <$> l) = Zero) as Hz.
  { intros l. induction 1 as [|i l Hi _ IH]; [done|]. rewrite fmap_cons, zsum_cons, IH. unfold b_values. destruct (Nat.eqb_spec i 0); [lia|]. destruct (Nat.leb_spec i n); [|lia]. ring. }
  rewrite (Hz (seq 1 n)) by (apply Forall_seq; lia). ring.
Qed.

(** A scalar that equals its square is a bit. *)
Lemma bit_or x : x * (x - One) = Zero -> x = Zero \/ x = One.
Proof.
  intros H. destruct (decide (x = Zero)) as [|Hx]; [by left|right]. destruct (decide (x - One = Zero)) as [E|Hn]; [|exfalso; by apply (mul_nonzero x (x - One))].
  replace x with (x - One + One) by ring. rewrite E. ring.
Qed.

Lemma form_sound n a0 bits b v r cs : small_order n -> length bits = n -> length b = S n ->
  NoDup cs -> length cs = (2 * n + 1)%nat ->
  Forall (fun c => exists eta u gammas, form_holds n (((a0 :: bits) ++ b) ++ [v; r]) eta c u gammas) cs ->
  Forall (fun x => x = Zero \/ x = One) bits /\ v = ip (zpow Two <$> seq 0 n) bits.
Proof.
  intros Ho Hb Hl Hnd Hc HF. pose proof Ho as [Hn _]. split.
  - assert (forall x, lagrange (2 * n + 1) (b_values n b) x = poly_b n (a0 :: bits) x) as Heq.
    { apply (polyf_agree (2 * n) _ _ cs); [|apply poly_b_degree|done|lia|].
      - pose proof (lagrange_poly (2 * n + 1) (b_values n b)) as Hp. by replace (2 * n + 1 - 1)%nat with (2 * n)%nat in Hp by lia.
      - apply (Forall_impl _ _ _ HF). intros c (eta & u & gammas & Hf). rewrite <- nu_interpolates by done. by apply (form_conditions n a0 bits b v r eta c u gammas). }
    apply Forall_lookup. intros i x Hx. pose proof (lookup_lt_Some _ _ _ Hx) as Hi. apply bit_or. specialize (Heq (ones (S i))).
    rewrite (lagrange_at (2 * n + 1)) in Heq by (lia || by apply order_distinct). unfold b_values in Heq. destruct (Nat.eqb_spec (S i) 0); [lia|]. destruct (Nat.leb_spec (S i) n); [|lia].
    unfold poly_b, poly_a in Heq. rewrite lagrange_at in Heq; [|apply (distinct_le (S n) (2 * n + 1)); [lia|by apply order_distinct]|lia].
    unfold value_at in Heq. cbn [nth] in Heq. rewrite nth_lookup, Hx in Heq. by symmetry.
  - destruct cs as [|c cs]; [cbn in Hc; lia|]. apply Forall_cons in HF as [(eta & u & gammas & Hf) _]. by apply (form_conditions n a0 bits b v r eta c u gammas).
Qed.

(** Bits add up to a value in the range. *)
Lemma bits_in_range n bits : (n <= 64)%nat -> length bits = n -> Forall (fun x => x = Zero \/ x = One) bits ->
  exists value, (0 <= value < 2 ^ Z.of_nat n)%Z /\ ip (zpow Two <$> seq 0 n) bits = NewZrFromUint64 value.
Proof.
  revert n. induction bits as [|x bits IH] using rev_ind; intros n Hn Hl HF.
  - cbn in Hl. subst n. exists 0%Z. done.
  - rewrite length_app in Hl. cbn [length] in Hl. destruct n as [|n]; [lia|]. apply Forall_app in HF as [HF Hx]. apply Forall_cons in Hx as [Hx _].
    destruct (IH n) as (value & Hv & E); [lia|lia|done|]. rewrite seq_S, fmap_app, ip_app by (rewrite length_fmap, length_seq; lia). rewrite E. cbn [Nat.add].
    assert (0 < 2 ^ Z.of_nat n <= 2 ^ 63)%Z as Hp by (split; [lia|apply Z.pow_le_mono_r; lia]). rewrite Nat2Z.inj_succ, Z.pow_succ_r by lia.
    change (ip (zpow Two <$> [n]) [x]) with (zpow Two n * x + Zero). destruct Hx as [->| ->].
    + exists value. split; [lia|]. ring.
    + exists (value + 2 ^ Z.of_nat n)%Z. split; [lia|]. rewrite new_add, new_pow2 by (unfold two64; lia). ring.
Qed.

(** ** The verifier never panics *)

Lemma validate_element_own {T} e (o : option (wire T)) : validate_element e o = Ok tt -> exists t, o = Some (Own t).
Proof. destruct o as [[t|]|]; [|done..]. by exists t. Qed.

Lemma validate_element_no_panic {T} e (o : option (wire T)) : validate_element e o <> Panic.
Proof. by destruct o as [[t|]|]. Qed.

Lemma validateZrSlice_no_panic l k : validateZrSlice l k <> Panic.
Proof. unfold validateZrSlice, present_or, reject_if. np. all: apply CheckZrElements_no_panic. Qed.

Lemma validateG1Slice_no_panic l k : validateG1Slice l k <> Panic.
Proof. unfold validateG1Slice, present_or, reject_if. np. all: apply CheckElements_no_panic. Qed.

#[local] Hint Resolve validate_element_no_panic validateZrSlice_no_panic validateG1Slice_no_panic validateCSPProof_no_panic : nopanic.

Lemma validateRangeProof_no_panic proof : validateRangeProof proof <> Panic.
Proof. unfold validateRangeProof. np. Qed.

Lemma validateRangeVerifierInputs_no_panic v : validateRangeVerifierInputs v <> Panic.
Proof. unfold validateRangeVerifierInputs, validate_bits, validate_generators, present_or, reject_if. np. Qed.

Lemma validateZrSlice_own l k : validateZrSlice l k = Ok tt -> exists zs, l = Some (Own <$> zs).
Proof.
  unfold validateZrSlice. rewrite present_Ok. intros (w & -> & H). apply then_Ok in H as [_ H%wrap_Ok]. apply CheckZrElements_exact in H as (zs & -> & _). by exists zs.
Qed.

Lemma validateG1Slice_len l k : validateG1Slice (Some (Own <$> l)) (Z.of_nat k) = Ok tt -> (0 < k)%nat -> length l = k /\ Forall finite l.
Proof.
  unfold validateG1Slice. cbn [present_or mbind res_mbind]. rewrite then_Ok, reject_if_Ok, wrap_Ok, CheckElements_exact, length_fmap. intros [H (ps & Hps & _ & HF)] Hk.
  destruct (Z.ltb_spec 0 (Z.of_nat k)); [|lia]. cbn [andb] in H. apply negb_false_iff, Z.eqb_eq in H. apply list_fmap_eq_inj in Hps; [subst; split; [lia|done]|congruence].
Qed.

(** What validation of the statement establishes. *)
Lemma validateRangeVerifierInputs_Ok v : validateRangeVerifierInputs v = Ok tt ->
  is_Some (xv_VCommitment v) /\ (1 <= xv_NumberOfBits v <= 64)%nat /\ length (xv_VGenerators v) = 2%nat /\
  length (xv_AGenerators v) = S (xv_NumberOfBits v) /\ length (xv_BGenerators v) = S (xv_NumberOfBits v).
Proof.
  unfold validateRangeVerifierInputs. rewrite present_Ok. intros (com & Hc & H). rewrite then_Ok in H. destruct H as [Hb Hg].
  unfold validate_bits in Hb. rewrite then_Ok, !reject_if_Ok, Nat.eqb_neq, Nat.ltb_ge in Hb. unfold validate_generators in Hg. rewrite !then_Ok in Hg. destruct Hg as (H1 & H2 & H3).
  replace (Z.of_nat (xv_NumberOfBits v) + 1)%Z with (Z.of_nat (S (xv_NumberOfBits v))) in H2, H3 by lia. change 2%Z with (Z.of_nat 2) in H1.
  apply validateG1Slice_len in H1 as [H1 _]; [|lia]. apply validateG1Slice_len in H2 as [H2 _]; [|lia]. apply validateG1Slice_len in H3 as [H3 _]; [|lia].
  split_and!; eauto; lia.
Qed.

Lemma elements_own proof : validateRangeProof proof = Ok tt -> exists e, csp_elements_of proof = Ok e.
Proof.
  unfold validateRangeProof. rewrite !then_Ok. intros ([a Ha]%validate_element_own & [b Hb]%validate_element_own & [zs Hz]%validateZrSlice_own & [u Hu]%validate_element_own &
    [s Hs]%validate_element_own & [f Hf]%validate_element_own & _).
  unfold csp_elements_of, own_pointer, owns. rewrite Ha, Hb, Hz, Hu, Hs, Hf. cbn [deref own mbind res_mbind default from_option id]. rewrite mapM_own. cbn [mbind res_mbind]. by eexists.
Qed.

Lemma csp_range_no_panic env rv proof : env_ok env -> (2 * Z.of_nat (xv_NumberOfBits rv) < GroupOrder)%Z -> csp_rangeVerifier_Verify env rv proof <> Panic.
Proof.
  intros Henv Ho. unfold csp_rangeVerifier_Verify. destruct (validateRangeVerifierInputs rv) as [[]|e|] eqn:Ei; [|done|by apply validateRangeVerifierInputs_no_panic in Ei].
  cbn [wrap mbind res_mbind]. destruct (validateRangeProof proof) as [[]|e|] eqn:Ep; [|done|by apply validateRangeProof_no_panic in Ep]. cbn [wrap mbind res_mbind].
  destruct (_ =? 0)%nat; [done|]. cbn [reject_if mbind res_mbind]. apply validateRangeVerifierInputs_Ok in Ei as ([com Hc] & Hn & HV & HA & HB). rewrite Hc. cbn [deref mbind res_mbind].
  destruct (elements_own proof Ep) as [e ->]. cbn [mbind res_mbind]. destruct (Squeeze _) as [pokE tr1]. destruct (negb _); [done|]. cbn [reject_if mbind res_mbind].
  destruct (Squeeze (Absorb tr1 _)) as [eta tr2]. destruct (Squeeze tr2) as [c tr3]. set (n := xv_NumberOfBits rv) in *. assert (small_order n) as Hso by done.
  rewrite (multipliers_spec env Henv n ltac:(lia) (order_distinct n Hso)), (partial_spec env Henv n ltac:(lia) (order_distinct n Hso)). cbn [replace_err mbind res_mbind].
  destruct (Squeeze (Absorb tr3 _)) as [gamma tr4]. destruct (xv_VGenerators rv) as [|g0 [|g1 [|]]]; try done. cbn [index lookup list_lookup mbind res_mbind].
  destruct (Squeeze (Absorb (Absorb tr4 _) _)) as [rho tr5]. rewrite !length_app, HA, HB. cbn [length]. replace (S n + (S n + 2))%nat with (2 * n + 4)%nat by lia.
  destruct (padding_spec n Hn) as (k & -> & _ & Hk). apply csp_Verify_no_panic. cbn. lia.
Qed.
End FormSound.
