(* ===== verification/CspRangeExtract.v ===== *)
(** * Special soundness of the range proofs over the compressed sigma protocol

    What acceptance means: the proof of knowledge of the value holds and the
    compressed sigma protocol accepts one statement.  From a tree of such runs,
    with enough challenges after every message of the prover, an opening of the
    commitment to a value in the range is computed, or two different vectors with
    the same commitment. *)

From S2P Require Import Prelude GoStd Der Asn1 ZkMath ZkIpa ZkRange ZkSigma ZkCodec ZkTransfer Csp CspFold CspSound Lagrange LagrangeSpec LagrangeTree CspRange CspRangeSpec CspRangeSound.
From Stdlib Require Import ZArith Lia Ring Decidable.

Section Extract.
Context {CO : Curve} {CL : CurveLaws} {NA : Native} {NL : NativeLaws} {WI : Wire} {CC : CspCurve} {CP : CspLaws}.
Add Ring zr_ex : zr_ring.
Local Open Scope zr_scope.

(** ** The interactive verifiers *)

(** The challenges of a range proof after each of its messages, and those of the
    rounds of the compressed sigma protocol: where they come from is a parameter. *)
Record range_challenges := { rc_pokE : Zr; rc_eta : Zr; rc_c : Zr; rc_gamma : Zr; rc_rho : Zr }.
Definition range_challenger : Type := G1 -> csp_elements -> range_challenges.
Definition round_challenger : Type := csp_verifier -> G1 -> Zr -> list csp_round -> list Zr.

(** [csp_Verify] with given challenges. *)
Definition csp_VerifyWith (ask : round_challenger) (v : csp_verifier) (proof : wcsp_Proof) : res unit :=
  wrap "invalid CSP verifier inputs" (validateCSPVerifierInputs v) ;;
  wrap "invalid CSP proof" (validateCSPProof proof (cv_NumberOfRounds v)) ;;
  reject_if (length (cv_TranscriptHeader v) =? 0)%nat (EMsg "invalid transcript header") ;;
  com ← deref (cv_Commitment v);
  value ← deref (cv_Value v);
  rs ← own_rounds proof;
  let challenges := ask v com value rs in
  csp_check com (cv_Generators v) (cv_LinearForm v) rs challenges (fold_vals (zip rs challenges) value).

(** The statement the range verifier hands on. *)
Definition range_statement (rv : csp_rangeVerifier) (g0 g1 V pComm : G1) (eta : Zr) (mu nu : list Zr) (u gamma : Zr) (sComm : G1) (sEval rho : Zr) : csp_verifier :=
  let gExt := xv_AGenerators rv ++ xv_BGenerators rv ++ [(g0 ⋅ eta)%g1; (g1 ⋅ eta)%g1] in
  let missing := ((padding (length gExt)).1 - length gExt)%nat in
  {| cv_Commitment := Some (pComm + V ⋅ eta + sComm ⋅ rho)%g1; cv_Generators := gExt ++ replicate missing GenG1;
     cv_LinearForm := buildLF (xv_NumberOfBits rv) eta gamma mu nu ++ replicate missing Zero;
     cv_Value := Some (ModAddMul2 (claimedValue gamma u) One rho sEval); cv_NumberOfRounds := (padding (length gExt)).2;
     cv_TranscriptHeader := xv_TranscriptHeader rv |}.

(** [csp_rangeVerifier_Verify] with given challenges. *)
Definition csp_rangeVerifier_VerifyWith (ask : range_challenger) (ask_rounds : round_challenger) (env : lagrange_env) (rv : csp_rangeVerifier) (proof : wcsp_RangeProof) : res unit :=
  wrap "invalid range verifier inputs" (validateRangeVerifierInputs rv) ;;
  wrap "invalid range proof structure" (validateRangeProof proof) ;;
  reject_if (length (xv_TranscriptHeader rv) =? 0)%nat (EMsg "invalid transcript header") ;;
  V ← deref (xv_VCommitment rv);
  e ← csp_elements_of proof;
  let ch := ask V e in
  reject_if (negb (bool_decide (smallMSM (xv_VGenerators rv) (ce_pokZ e) = ce_pokA e + V ⋅ rc_pokE ch)%g1)) (EMsg "proof of knowledge for value commitment failed") ;;
  mu ← replace_err "unable to obtain lagrange multipliers" (getLagrangeMultipliers env (xv_NumberOfBits rv) (rc_c ch));
  nu ← replace_err "unable to obtain partial lagrange multipliers" (getLagrangeMultipliersPartial env (xv_NumberOfBits rv) (rc_c ch));
  g0 ← index (xv_VGenerators rv) 0;
  g1 ← index (xv_VGenerators rv) 1;
  csp_VerifyWith ask_rounds (range_statement rv g0 g1 V (ce_pComm e) (rc_eta ch) mu nu (ce_u e) (rc_gamma ch) (ce_sComm e) (ce_sEval e) (rc_rho ch)) (wx_cspProof proof).

(** The challenges of the transcript. *)
Definition transcript_challenges (header : bytes) : range_challenger := fun V e =>
  let tr := Absorb header (G1_Bytes V) in
  let '(pokE, tr) := Squeeze (Absorb tr (G1_Bytes (ce_pokA e))) in
  let '(eta, tr) := Squeeze (Absorb tr (G1_Bytes (ce_pComm e))) in
  let '(c, tr) := Squeeze tr in
  let '(gamma, tr) := Squeeze (Absorb tr (Zr_Bytes (ce_u e))) in
  let '(rho, _) := Squeeze (Absorb (Absorb tr (G1_Bytes (ce_sComm e))) (Zr_Bytes (ce_sEval e))) in
  {| rc_pokE := pokE; rc_eta := eta; rc_c := c; rc_gamma := gamma; rc_rho := rho |}.

Lemma csp_Verify_interactive v proof : csp_Verify v proof = csp_VerifyWith run_challenges v proof.
Proof.
  unfold csp_Verify, csp_VerifyWith. destruct (validateCSPVerifierInputs v) as [[]| |]; [|done..]. cbn [wrap mbind res_mbind]. destruct (validateCSPProof _ _) as [[]| |]; [|done..]. cbn [wrap mbind res_mbind].
  destruct (_ =? 0)%nat; [done|]. cbn [reject_if mbind res_mbind]. destruct (cv_Commitment v) as [com|]; [|done]. destruct (cv_Value v) as [val|]; [|done]. cbn [deref mbind res_mbind].
  destruct (own_rounds proof) as [rs| |]; [|done..]. cbn [mbind res_mbind]. by rewrite replay_spec.
Qed.

(** The verifier is the interactive one with the challenges of the transcript. *)
Lemma range_Verify_interactive env rv proof :
  csp_rangeVerifier_Verify env rv proof = csp_rangeVerifier_VerifyWith (transcript_challenges (xv_TranscriptHeader rv)) run_challenges env rv proof.
Proof.
  unfold csp_rangeVerifier_Verify, csp_rangeVerifier_VerifyWith, transcript_challenges. destruct (validateRangeVerifierInputs rv) as [[]| |]; [|done..]. cbn [wrap mbind res_mbind].
  destruct (validateRangeProof proof) as [[]| |]; [|done..]. cbn [wrap mbind res_mbind]. destruct (_ =? 0)%nat; [done|]. cbn [reject_if mbind res_mbind]. destruct (xv_VCommitment rv) as [V|]; [|done]. cbn [deref mbind res_mbind].
  destruct (csp_elements_of proof) as [e| |]; [|done..]. cbn [mbind res_mbind]. destruct (Squeeze _) as [pokE tr1]. destruct (Squeeze (Absorb tr1 _)) as [eta tr2]. destruct (Squeeze tr2) as [c tr3].
  destruct (Squeeze (Absorb tr3 _)) as [gamma tr4]. destruct (Squeeze (Absorb (Absorb tr4 _) _)) as [rho tr5]. cbn [rc_pokE rc_eta rc_c rc_gamma rc_rho].
  destruct (negb _); [done|]. cbn [reject_if mbind res_mbind]. destruct (replace_err _ _) as [mu| |]; [|done..]. cbn [mbind res_mbind]. destruct (replace_err _ _) as [nu| |]; [|done..]. cbn [mbind res_mbind].
  destruct (index _ 0) as [g0| |]; [|done..]. cbn [mbind res_mbind]. destruct (index _ 1) as [g1| |]; [|done..]. cbn [mbind res_mbind].
  rewrite <- csp_Verify_interactive. unfold range_statement. by destruct (padding _).
Qed.

(** ** Accepted runs *)

(** The messages of some proof are accepted with given challenges. *)
Definition accepted (rv : csp_rangeVerifier) (ch : range_challenges) (e : csp_elements) (rs : list (csp_round * Zr)) : Prop :=
  exists env proof, env_ok env /\ csp_elements_of proof = Ok e /\ own_rounds (wx_cspProof proof) = Ok rs.*1 /\
    csp_rangeVerifier_VerifyWith (fun _ _ => ch) (fun _ _ _ _ => rs.*2) env rv proof = Ok tt.

(** The statement of a run, with the multipliers as values of the basis. *)
Definition statement_at (rv : csp_rangeVerifier) (g0 g1 V pComm : G1) (eta c u gamma : Zr) (sComm : G1) (sEval rho : Zr) : csp_verifier :=
  let n := xv_NumberOfBits rv in range_statement rv g0 g1 V pComm eta (mu_of n c) (nu_of n c) u gamma sComm sEval rho.

Lemma elements_pokZ proof e : validateRangeProof proof = Ok tt -> csp_elements_of proof = Ok e -> length (ce_pokZ e) = 2%nat.
Proof.
  intros Hp He. unfold validateRangeProof in Hp. rewrite !then_Ok in Hp. destruct Hp as (_ & _ & Hz & _). unfold validateZrSlice in Hz. rewrite present_Ok in Hz. destruct Hz as (w & Hw & Hz).
  apply then_Ok in Hz as [Hlen Hz%wrap_Ok]. apply CheckZrElements_exact in Hz as (zs & -> & _). rewrite reject_if_Ok, length_fmap in Hlen. cbn in Hlen. apply negb_false_iff, Z.eqb_eq in Hlen. unfold csp_elements_of, own_pointer in He. res_inv.
  repeat match goal with H : owns _ = Ok _ |- _ => rewrite Hw in H; unfold owns in H; cbn [default from_option id] in H; rewrite mapM_own in H; injection H as <- end. cbn [ce_pokZ]. lia.
Qed.

(** An accepted run: the inputs are well formed, the proof of knowledge holds and
    the run passes the final check of the statement. *)
Lemma accepted_exact rv ch e rs : (2 * Z.of_nat (xv_NumberOfBits rv) < GroupOrder)%Z -> accepted rv ch e rs ->
  validateRangeVerifierInputs rv = Ok tt /\ length (ce_pokZ e) = 2%nat /\
  forall g0 g1 V, xv_VGenerators rv = [g0; g1] -> xv_VCommitment rv = Some V ->
    msm [g0; g1] (ce_pokZ e) = (ce_pokA e + V ⋅ rc_pokE ch)%g1 /\
    let v := statement_at rv g0 g1 V (ce_pComm e) (rc_eta ch) (rc_c ch) (ce_u e) (rc_gamma ch) (ce_sComm e) (ce_sEval e) (rc_rho ch) in
    match cv_Commitment v, cv_Value v with
    | Some com, Some val => csp_check com (cv_Generators v) (cv_LinearForm v) rs.*1 rs.*2 (fold_vals rs val) = Ok tt
    | _, _ => False
    end.
Proof.
  intros Ho (env & proof & Henv & He & Hrs & H). unfold csp_rangeVerifier_VerifyWith in H. rewrite then_Ok in H. destruct H as [Hin%wrap_Ok H]. rewrite then_Ok in H. destruct H as [Hp%wrap_Ok H].
  rewrite then_Ok in H. destruct H as [_ H]. split; [done|]. pose proof (elements_pokZ _ _ Hp He) as Hz. split; [done|]. intros g0 g1 V HG HV. apply validateRangeVerifierInputs_Ok in Hin as (_ & Hn & _). rewrite HV, He in H. cbn [deref mbind res_mbind] in H.
  apply then_Ok in H as [Hpok H]. apply reject_if_Ok, negb_false_iff, bool_decide_eq_true in Hpok. set (n := xv_NumberOfBits rv) in *. assert (small_order n) as Hso by done.
  rewrite (multipliers_spec env Henv n ltac:(lia) (order_distinct n Hso)), (partial_spec env Henv n ltac:(lia) (order_distinct n Hso)) in H. cbn [replace_err mbind res_mbind] in H.
  rewrite HG in H, Hpok. cbn [index lookup list_lookup mbind res_mbind] in H. split; [rewrite <- Hpok; symmetry; apply smallMSM_spec; cbn; lia|].
  unfold csp_VerifyWith in H. rewrite !then_Ok in H. destruct H as (_ & _ & _ & H). cbn [cv_Commitment cv_Value range_statement deref mbind res_mbind] in H. rewrite Hrs in H. cbn [mbind res_mbind] in H.
  cbn [cv_Commitment cv_Value statement_at range_statement]. by rewrite zip_fst_snd in H.
Qed.

(** ** The tree of runs *)

(** Two challenges [rho] after one blinding commitment, each with a tree of runs
    of the compressed sigma protocol. *)
Record csp_branch := {
  br_gamma : Zr;
  br_sComm : G1;
  br_sEval : Zr;
  br_rho : Zr;
  br_tree : csp_tree;
  br_rho' : Zr;
  br_tree' : csp_tree;
}.

(** The branches after one message [u]. *)
Record csp_node := {
  nd_c : Zr;
  nd_u : Zr;
  nd_branches : list csp_branch;
}.

(** The runs of a tree pass the verifier's check of a statement. *)
Definition statement_passes (v : csp_verifier) (t : csp_tree) : Prop :=
  match cv_Commitment v, cv_Value v with
  | Some com, Some val => forks (cv_NumberOfRounds v) t /\ Forall (passes com val (cv_Generators v) (cv_LinearForm v)) (runs t)
  | _, _ => False
  end.

Definition statement_extract (v : csp_verifier) (t : csp_tree) : list Zr := csp_extract t (default Zero (cv_Value v)) (cv_LinearForm v).

Section Tree.
Context (rv : csp_rangeVerifier) (g0 g1 V pComm : G1).
Local Notation n := (xv_NumberOfBits rv).

Definition branch_ok (eta c u : Zr) (b : csp_branch) : Prop :=
  br_rho b <> br_rho' b /\
  statement_passes (statement_at rv g0 g1 V pComm eta c u (br_gamma b) (br_sComm b) (br_sEval b) (br_rho b)) (br_tree b) /\
  statement_passes (statement_at rv g0 g1 V pComm eta c u (br_gamma b) (br_sComm b) (br_sEval b) (br_rho' b)) (br_tree' b).

Definition node_ok (eta : Zr) (nd : csp_node) : Prop :=
  NoDup (br_gamma <$> nd_branches nd) /\ length (nd_branches nd) = 3%nat /\ Forall (branch_ok eta (nd_c nd) (nd_u nd)) (nd_branches nd).

Definition tree_ok (eta : Zr) (nds : list csp_node) : Prop :=
  eta <> Zero /\ NoDup (nd_c <$> nds) /\ length nds = (2 * n + 1)%nat /\ Forall (node_ok eta) nds.

(** ** The extractor *)

(** The vector behind two blinded ones: their value at [rho = 0]. *)
Definition unblind (rho rho' : Zr) (w w' : list Zr) : list Zr :=
  zip_with ModAdd ((fun x => x * (rho' * InvModOrder (rho' - rho))) <$> w) ((fun x => x * (- rho * InvModOrder (rho' - rho))) <$> w').

Definition branch_vector (eta c u : Zr) (b : csp_branch) : list Zr :=
  unblind (br_rho b) (br_rho' b)
    (statement_extract (statement_at rv g0 g1 V pComm eta c u (br_gamma b) (br_sComm b) (br_sEval b) (br_rho b)) (br_tree b))
    (statement_extract (statement_at rv g0 g1 V pComm eta c u (br_gamma b) (br_sComm b) (br_sEval b) (br_rho' b)) (br_tree' b)).

(** The opening of the value from two answers of the proof of knowledge. *)
Definition pok_extract (e e' : Zr) (z z' : list Zr) : list Zr := zip_with (fun x y => (x - y) * InvModOrder (e - e')) z z'.

(** All generators: those of the bits, of the value, and of the padding. *)
Definition base : list G1 := xv_AGenerators rv ++ xv_BGenerators rv ++ [g0; g1; GenG1].

(** The opening of the first message a vector gives, once the opening [v], [r]
    of the value is known. *)
Definition opening (eta v r : Zr) (w : list Zr) : list Zr :=
  take (2 * n + 2) w ++ [eta * (nth (2 * n + 2) w Zero - v); eta * (nth (2 * n + 3) w Zero - r); zsum (drop (2 * n + 4) w)].

Definition openings (v r eta : Zr) (nds : list csp_node) : list (list Zr) :=
  concat ((fun nd => (fun b => opening eta v r (branch_vector eta (nd_c nd) (nd_u nd) b)) <$> nd_branches nd) <$> nds).

Context (Ho : small_order n) (HA : length (xv_AGenerators rv) = S n) (HB : length (xv_BGenerators rv) = S n).

Lemma unblind_weights rho rho' : rho <> rho' ->
  let a := rho' * InvModOrder (rho' - rho) in let b := - rho * InvModOrder (rho' - rho) in a + b = One /\ a * rho + b * rho' = Zero.
Proof using CL.
  intros Hne a b. unfold a, b. assert (rho' - rho <> Zero) as Hn by (apply sub_nonzero; congruence). split; [|ring].
  transitivity ((rho' - rho) * InvModOrder (rho' - rho)); [ring|by apply zr_inv].
Qed.

Lemma unblind_msm gens rho rho' w w' P S : rho <> rho' -> length w = length gens -> length w' = length gens ->
  msm gens w = (P + S ⋅ rho)%g1 -> msm gens w' = (P + S ⋅ rho')%g1 -> msm gens (unblind rho rho' w w') = P.
Proof using CL.
  intros Hne Hl Hl' Hw Hw'. destruct (unblind_weights rho rho' Hne) as [H1 H0]. unfold unblind. set (a := rho' * InvModOrder (rho' - rho)) in *. set (b := - rho * InvModOrder (rho' - rho)) in *.
  rewrite msm_zip_add, !msm_scale, Hw, Hw' by (by rewrite length_fmap). transitivity (P ⋅ (a + b) + S ⋅ (a * rho + b * rho'))%g1; [linear|]. rewrite H1, H0. linear.
Qed.

Lemma unblind_ip lf rho rho' w w' P S : rho <> rho' -> length w = length lf -> length w' = length lf ->
  ip lf w = P + rho * S -> ip lf w' = P + rho' * S -> ip lf (unblind rho rho' w w') = P.
Proof using CL.
  intros Hne Hl Hl' Hw Hw'. destruct (unblind_weights rho rho' Hne) as [H1 H0]. unfold unblind. set (a := rho' * InvModOrder (rho' - rho)) in *. set (b := - rho * InvModOrder (rho' - rho)) in *.
  rewrite ip_comm, ip_add_l, !ip_scale_l, !(ip_comm _ lf), Hw, Hw' by (by rewrite !length_fmap; congruence). transitivity (P * (a + b) + S * (a * rho + b * rho')); [ring|]. rewrite H1, H0. ring.
Qed.

(** The vector of a branch opens the extended commitment and satisfies the form. *)
Lemma branch_sound eta c u b : branch_ok eta c u b ->
  let w := branch_vector eta c u b in let gExt := xv_AGenerators rv ++ xv_BGenerators rv ++ [(g0 ⋅ eta)%g1; (g1 ⋅ eta)%g1] in
  (2 * n + 4 <= length w)%nat /\
  (msm gExt (take (2 * n + 4) w) + GenG1 ⋅ zsum (drop (2 * n + 4) w) = pComm + V ⋅ eta)%g1 /\
  ip (buildLF n eta (br_gamma b) (mu_of n c) (nu_of n c)) (take (2 * n + 4) w) = claimedValue (br_gamma b) u.
Proof using Ho HA HB CL CP.
  intros (Hne & (HF & HP) & (HF' & HP')) w gExt. unfold w, branch_vector, statement_extract. unfold statement_at, range_statement in *. cbn [cv_Commitment cv_Value cv_Generators cv_LinearForm cv_NumberOfRounds] in *.
  fold gExt in HF, HP, HF', HP' |- *. assert (length gExt = 2 * n + 4)%nat as Lg by (unfold gExt; rewrite !length_app, HA, HB; cbn; lia). rewrite Lg in *.
  destruct (padding_spec n) as (k & Hpad & Hk1 & Hk2); [apply Ho|]. rewrite Hpad in *. cbn [fst snd default from_option id] in *. set (lf := buildLF _ _ _ _ _) in *.
  assert (length lf = 2 * n + 4)%nat as Ll. { apply length_buildLF; unfold mu_of, nu_of, relevant; rewrite length_fmap; cbn; by rewrite ?length_seq. }
  set (missing := (2 ^ k - (2 * n + 4))%nat) in *. assert (length (gExt ++ replicate missing GenG1) = 2 ^ k)%nat as LG by (rewrite length_app, length_replicate, Lg; unfold missing; lia).
  assert (length (lf ++ replicate missing Zero) = 2 ^ k)%nat as LF by (rewrite length_app, length_replicate, Ll; unfold missing; lia).
  destruct (passes_extract k _ _ _ _ _ ltac:(lia) HF LG LF HP) as (L1 & M1 & I1). destruct (passes_extract k _ _ _ _ _ ltac:(lia) HF' LG LF HP') as (L2 & M2 & I2).
  set (w1 := csp_extract _ _ _) in *. set (w2 := csp_extract (br_tree' b) _ _) in *. rewrite zr_addmul2 in I1, I2.
  pose proof (unblind_msm _ _ _ _ _ _ _ Hne (eq_trans L1 (eq_sym LG)) (eq_trans L2 (eq_sym LG)) M1 M2) as HM.
  assert (ip (lf ++ replicate missing Zero) (unblind (br_rho b) (br_rho' b) w1 w2) = claimedValue (br_gamma b) u) as HI.
  { apply (unblind_ip _ _ _ _ _ _ (br_sEval b) Hne); [congruence..|rewrite I1; ring|rewrite I2; ring]. }
  assert (length (unblind (br_rho b) (br_rho' b) w1 w2) = 2 ^ k)%nat as Lw by (unfold unblind; rewrite length_zip_with, !length_fmap, L1, L2; lia).
  set (w0 := unblind _ _ _ _) in *. split; [lia|]. assert (length (take (2 * n + 4) w0) = 2 * n + 4)%nat as Lt by (rewrite length_take; lia).
  rewrite <- (take_drop (2 * n + 4) w0) in HM, HI. rewrite msm_app in HM by congruence. rewrite ip_app in HI by congruence. split.
  - rewrite <- HM. f_equal. symmetry. apply msm_run; [rewrite length_replicate, length_drop; unfold missing; lia|]. by apply Forall_replicate.
  - rewrite <- HI, (ip_comm (replicate missing Zero)), ip_zeros. ring.
Qed.

Lemma take_two (w : list Zr) m : (m + 2 <= length w)%nat -> take (m + 2) w = take m w ++ [nth m w Zero; nth (S m) w Zero].
Proof.
  intros Hl. destruct (lookup_lt_is_Some_2 w m) as [x Hx]; [lia|]. destruct (lookup_lt_is_Some_2 w (S m)) as [y Hy]; [lia|].
  replace (m + 2)%nat with (S (S m)) by lia. rewrite (take_S_r _ _ y Hy), (take_S_r _ _ x Hx), <- app_assoc, !nth_lookup, Hx, Hy. done.
Qed.

(** The opening of the first message by a branch. *)
Lemma opening_sound eta c u b v r : branch_ok eta c u b -> V = (g0 ⋅ v + g1 ⋅ r)%g1 ->
  let x := opening eta v r (branch_vector eta c u b) in length x = length base /\ msm base x = pComm.
Proof using Ho HA HB CL CP.
  intros Hb HV x. destruct (branch_sound eta c u b Hb) as (Hl & HM & _). unfold x, opening, base. set (w := branch_vector eta c u b) in *.
  assert (length (take (2 * n + 2) w) = 2 * n + 2)%nat as Lt by (rewrite length_take; lia).
  assert (length (take (2 * n + 2) w) = length (xv_AGenerators rv ++ xv_BGenerators rv)) as Lt' by (rewrite Lt, length_app, HA, HB; lia).
  split; [rewrite !length_app, Lt, HA, HB; cbn; lia|]. rewrite (app_assoc (xv_AGenerators rv)), msm_app by done. rewrite !msm_cons. change (msm [] []) with NewG1.
  replace (2 * n + 4)%nat with (2 * n + 2 + 2)%nat in HM by lia. rewrite take_two in HM by lia. rewrite (app_assoc (xv_AGenerators rv)), msm_app in HM by done.
  rewrite !msm_cons in HM. change (msm [] []) with NewG1 in HM. replace (S (2 * n + 2)) with (2 * n + 3)%nat in HM by lia. replace (2 * n + 2 + 2)%nat with (2 * n + 4)%nat in HM by lia.
  set (T := msm (_ ++ _) _) in *. set (x0 := nth (2 * n + 2) w Zero) in *. set (x1 := nth (2 * n + 3) w Zero) in *. set (z := zsum _) in *.
  transitivity ((T + (g0 ⋅ eta ⋅ x0 + (g1 ⋅ eta ⋅ x1 + NewG1)) + GenG1 ⋅ z) + (g0 ⋅ v + g1 ⋅ r) ⋅ (- eta))%g1; [linear|]. rewrite HM, HV. linear.
Qed.

(** A vector is known from the opening it gives. *)
Lemma opening_prefix eta v r w : eta <> Zero -> (2 * n + 4 <= length w)%nat -> let x := opening eta v r w in
  take (2 * n + 4) w = take (2 * n + 2) x ++ [nth (2 * n + 2) x Zero * InvModOrder eta + v; nth (2 * n + 3) x Zero * InvModOrder eta + r].
Proof using Ho HA HB CL.
  intros He Hl x. replace (2 * n + 4)%nat with (2 * n + 2 + 2)%nat by lia. rewrite take_two by lia. unfold x, opening.
  assert (length (take (2 * n + 2) w) = 2 * n + 2)%nat as Lt by (rewrite length_take; lia). rewrite take_app_length' by done. f_equal.
  rewrite !app_nth2, Lt by lia. replace (2 * n + 2 - (2 * n + 2))%nat with 0%nat by lia. replace (2 * n + 3 - (2 * n + 2))%nat with 1%nat by lia. cbn [nth].
  replace (S (2 * n + 2)) with (2 * n + 3)%nat by lia. assert (eta * InvModOrder eta = One) as Hi by (by apply zr_inv).
  assert (forall a b, eta * (a - b) * InvModOrder eta + b = a) as Hg. { intros a b. transitivity ((a - b) * (eta * InvModOrder eta) + b); [ring|]. rewrite Hi. ring. }
  by rewrite !Hg.
Qed.

(** If all branches give one opening, one vector satisfies the form for all
    challenges of the tree. *)
Lemma tree_form eta nds v r a0 bits b x y z : tree_ok eta nds -> length bits = n -> length b = S n ->
  Forall (fun o => o = ((a0 :: bits) ++ b) ++ [x; y; z]) (openings v r eta nds) ->
  Forall (fun nd => form_holds n (((a0 :: bits) ++ b) ++ [x * InvModOrder eta + v; y * InvModOrder eta + r]) eta (nd_c nd) (nd_u nd) (br_gamma <$> nd_branches nd)) nds.
Proof using Ho HA HB CL CP.
  intros (He & _ & _ & HF) Hb Hl HX. unfold openings in HX. rewrite Forall_concat, Forall_fmap in HX. apply Forall_forall. intros nd Hin. rewrite Forall_forall in HF, HX.
  destruct (HF nd Hin) as (Hg & Hlen & Hbr). specialize (HX nd Hin). cbn [compose] in HX. rewrite Forall_fmap in HX. unfold form_holds. rewrite length_fmap. split_and!; [done..|].
  apply Forall_fmap, Forall_forall. intros br Hbin. cbn [compose]. rewrite Forall_forall in Hbr, HX. specialize (HX br Hbin). cbn [compose] in HX.
  destruct (branch_sound _ _ _ _ (Hbr br Hbin)) as (Hlw & _ & HI). rewrite <- HI. f_equal. rewrite (opening_prefix eta v r) by done. rewrite HX.
  assert (length ((a0 :: bits) ++ b) = 2 * n + 2)%nat as L by (rewrite length_app; cbn; lia). rewrite take_app_length' by done. f_equal.
  rewrite !app_nth2 by lia. rewrite L. replace (2 * n + 2 - (2 * n + 2))%nat with 0%nat by lia. by replace (2 * n + 3 - (2 * n + 2))%nat with 1%nat by lia.
Qed.

Lemma openings_sound v r eta nds : tree_ok eta nds -> V = (g0 ⋅ v + g1 ⋅ r)%g1 -> Forall (fun x => length x = length base /\ msm base x = pComm) (openings v r eta nds).
Proof using Ho HA HB CL CP.
  intros (_ & _ & _ & HF) HV. unfold openings. apply Forall_concat, Forall_fmap, Forall_forall. intros nd Hin. cbn [compose]. rewrite Forall_forall in HF.
  destruct (HF nd Hin) as (_ & _ & Hbr). apply Forall_fmap. eapply Forall_impl; [exact Hbr|]. intros b Hb. by apply opening_sound.
Qed.

Lemma openings_nonempty v r eta nds : tree_ok eta nds -> openings v r eta nds <> [].
Proof using HA HB.
  intros (_ & _ & Hl & HF). destruct nds as [|nd nds]; [cbn in Hl; lia|]. apply Forall_cons in HF as [(_ & Hb & _) _]. unfold openings. rewrite fmap_cons. cbn [concat].
  by destruct (nd_branches nd).
Qed.

Lemma pok_sound pokA e e' z z' : e <> e' -> length z = 2%nat -> length z' = 2%nat ->
  msm [g0; g1] z = (pokA + V ⋅ e)%g1 -> msm [g0; g1] z' = (pokA + V ⋅ e')%g1 ->
  exists v r, pok_extract e e' z z' = [v; r] /\ V = (g0 ⋅ v + g1 ⋅ r)%g1.
Proof using CL.
  intros Hne Hz Hz' H H'. destruct z as [|a [|b [|]]]; try done. destruct z' as [|a' [|b' [|]]]; try done. eexists _, _. split; [done|].
  rewrite msm_two in H, H'. assert ((e - e') * InvModOrder (e - e') = One) as Hi by (by apply zr_inv, sub_nonzero). set (i := InvModOrder (e - e')) in *.
  transitivity (V ⋅ ((e - e') * i))%g1; [rewrite Hi; linear|]. transitivity (((pokA + V ⋅ e) + (pokA + V ⋅ e') ⋅ (- One)) ⋅ i)%g1; [linear|]. rewrite <- H, <- H'. linear.
Qed.

Lemma all_equal_or {A} `{EqDecision A} (l : list A) : l <> [] -> (exists x, x ∈ l /\ Forall (fun y => y = x) l) \/ (exists x y, x ∈ l /\ y ∈ l /\ x <> y).
Proof.
  intros Hne. destruct l as [|x l]; [done|]. destruct (decide (Forall (fun y => y = x) l)) as [HF|HF].
  - left. exists x. split; [left|]. by constructor.
  - right. apply not_Forall_Exists in HF; [|intros y; apply decide; apply _]. apply Exists_exists in HF as (y & Hy & Hne'). exists y, x. split; [by right|]. split; [left|done].
Qed.

(** Two challenges for the proof of knowledge and a tree for each of two
    challenges [eta] give an opening of the commitment to a value in the range,
    or two vectors with one commitment. *)
Lemma range_extract pokA e e' z z' eta nds eta' nds' : e <> e' -> length z = 2%nat -> length z' = 2%nat ->
  msm [g0; g1] z = (pokA + V ⋅ e)%g1 -> msm [g0; g1] z' = (pokA + V ⋅ e')%g1 ->
  eta <> eta' -> tree_ok eta nds -> tree_ok eta' nds' ->
  exists v r, pok_extract e e' z z' = [v; r] /\ V = (g0 ⋅ v + g1 ⋅ r)%g1 /\
    ((exists value, (0 <= value < 2 ^ Z.of_nat n)%Z /\ v = NewZrFromUint64 value) \/
     (exists x y, x ∈ openings v r eta nds ++ openings v r eta' nds' /\ y ∈ openings v r eta nds ++ openings v r eta' nds' /\
        x <> y /\ length x = length base /\ length y = length base /\ msm base x = msm base y)).
Proof using Ho HA HB CL CP.
  intros Hne Hz Hz' H H' Het HT HT'. destruct (pok_sound pokA e e' z z') as (v & r & Hp & HV); [done..|]. exists v, r. split_and!; [done..|].
  pose proof (openings_sound v r eta nds HT HV) as HO. pose proof (openings_sound v r eta' nds' HT' HV) as HO'.
  assert (Forall (fun x => length x = length base /\ msm base x = pComm) (openings v r eta nds ++ openings v r eta' nds')) as HF by by apply Forall_app.
  destruct (all_equal_or (openings v r eta nds ++ openings v r eta' nds')) as [(X & HX & HE)|(x & y & Hx & Hy & Hxy)].
  { intros [E _]%app_eq_nil. by apply openings_nonempty in E. }
  - left. rewrite Forall_forall in HF. destruct (HF X HX) as [LX _]. unfold base in LX. rewrite !length_app, HA, HB in LX. cbn [length] in LX.
    assert (exists a0 bits b x y z, X = ((a0 :: bits) ++ b) ++ [x; y; z] /\ length bits = n /\ length b = S n) as (a0 & bits & b & x & y & t & -> & Lb & Lb').
    { destruct X as [|a0 X]; [done|]. cbn in LX. exists a0, (take n X), (take (S n) (drop n X)). pose proof (take_drop n X) as E1. pose proof (take_drop (S n) (drop n X)) as E2.
      assert (length (drop (S n) (drop n X)) = 3)%nat as L3 by (rewrite !length_drop; lia). destruct (drop (S n) (drop n X)) as [|x [|y [|t [|]]]]; try done.
      exists x, y, t. split_and!; [cbn; f_equal; by rewrite <- app_assoc, E2, E1|rewrite length_take; lia|rewrite length_take, length_drop; lia]. }
    apply Forall_app in HE as [HE HE']. pose proof (tree_form eta nds v r a0 bits b x y t HT Lb Lb' HE) as HF1. pose proof (tree_form eta' nds' v r a0 bits b x y t HT' Lb Lb' HE') as HF2.
    destruct HT as (He & Hnd & Hln & _). destruct HT' as (He' & _ & Hln' & _).
    destruct (form_sound n a0 bits b (x * InvModOrder eta + v) (y * InvModOrder eta + r) (nd_c <$> nds)) as [Hbits Hsum]; [done..|by rewrite length_fmap| |].
    { apply Forall_fmap. eapply Forall_impl; [exact HF1|]. intros nd Hf. cbn [compose]. eexists _, _, _. exact Hf. }
    destruct nds' as [|nd' nds']; [cbn in Hln'; lia|]. apply Forall_cons in HF2 as [HF2 _]. apply form_conditions in HF2 as [Hsum' _]; [|done..].
    destruct (bits_in_range n bits) as (value & Hv & Ev); [apply Ho|done|done|]. exists value. split; [done|]. rewrite <- Ev.
    (* x / eta + v = x / eta' + v *)
    assert (eta * InvModOrder eta = One) as Hi by (by apply zr_inv). assert (eta' * InvModOrder eta' = One) as Hi' by (by apply zr_inv).
    assert (x = Zero) as Hx0.
    { destruct (decide (x = Zero)) as [|Hx]; [done|]. exfalso. apply (mul_nonzero x (eta - eta')); [done|by apply sub_nonzero|].
      set (s := ip _ bits) in *. assert (x = eta * (s - v)) as E1. { rewrite <- Hsum. transitivity (x * (eta * InvModOrder eta)); [rewrite Hi; ring|ring]. }
      assert (x = eta' * (s - v)) as E2. { rewrite <- Hsum'. transitivity (x * (eta' * InvModOrder eta')); [rewrite Hi'; ring|ring]. }
      transitivity (eta' * (s - v) * eta - eta * (s - v) * eta'); [rewrite <- E1, <- E2; ring|ring]. }
    rewrite <- Hsum, Hx0. ring.
  - right. exists x, y. rewrite Forall_forall in HF. destruct (HF x Hx) as [Lx Mx]. destruct (HF y Hy) as [Ly My]. split_and!; [done..|congruence].
Qed.

(** ** Trees of accepted runs *)

(** The runs of a tree of the compressed sigma protocol are accepted, below the
    same messages and challenges of the range proof. *)
Definition accepted_runs (eta c u : Zr) (b : csp_branch) (rho : Zr) (t : csp_tree) : Prop :=
  forks (padding (2 * n + 4)).2 t /\
  Forall (fun rs => exists pokE e, accepted rv {| rc_pokE := pokE; rc_eta := eta; rc_c := c; rc_gamma := br_gamma b; rc_rho := rho |} e rs /\
    ce_pComm e = pComm /\ ce_u e = u /\ ce_sComm e = br_sComm b /\ ce_sEval e = br_sEval b) (runs t).

(** Two [rho] below each of three [gamma] below each of [2 n + 1] [c]. *)
Definition accepted_branch (eta c u : Zr) (b : csp_branch) : Prop :=
  br_rho b <> br_rho' b /\ accepted_runs eta c u b (br_rho b) (br_tree b) /\ accepted_runs eta c u b (br_rho' b) (br_tree' b).
Definition accepted_node (eta : Zr) (nd : csp_node) : Prop :=
  NoDup (br_gamma <$> nd_branches nd) /\ length (nd_branches nd) = 3%nat /\ Forall (accepted_branch eta (nd_c nd) (nd_u nd)) (nd_branches nd).
Definition accepted_tree (eta : Zr) (nds : list csp_node) : Prop :=
  NoDup (nd_c <$> nds) /\ length nds = (2 * n + 1)%nat /\ Forall (accepted_node eta) nds.

(** The degenerate runs: [eta] is zero, or the challenges of a run fold the
    linear form to zero, so that the final check does not bind the commitment. *)
Definition folded_form (eta c u : Zr) (b : csp_branch) (rho : Zr) (rs : list (csp_round * Zr)) : Zr :=
  ip (cv_LinearForm (statement_at rv g0 g1 V pComm eta c u (br_gamma b) (br_sComm b) (br_sEval b) rho)) (csv rs.*2).
Definition degenerate_branch (eta c u : Zr) (b : csp_branch) : Prop :=
  Exists (fun rs => folded_form eta c u b (br_rho b) rs = Zero) (runs (br_tree b)) \/
  Exists (fun rs => folded_form eta c u b (br_rho' b) rs = Zero) (runs (br_tree' b)).
#[global] Instance degenerate_branch_dec eta c u b : Decision (degenerate_branch eta c u b).
Proof. unfold degenerate_branch. apply _. Defined.
Definition degenerate (eta : Zr) (nds : list csp_node) : Prop :=
  eta = Zero \/ Exists (fun nd => Exists (degenerate_branch eta (nd_c nd) (nd_u nd)) (nd_branches nd)) nds.
#[global] Instance degenerate_dec eta nds : Decision (degenerate eta nds).
Proof. unfold degenerate. apply _. Defined.

Context (HG : xv_VGenerators rv = [g0; g1]) (HV : xv_VCommitment rv = Some V).

Lemma accepted_passes eta c u b rho t : accepted_runs eta c u b rho t -> ~ Exists (fun rs => folded_form eta c u b rho rs = Zero) (runs t) ->
  statement_passes (statement_at rv g0 g1 V pComm eta c u (br_gamma b) (br_sComm b) (br_sEval b) rho) t.
Proof using Ho HA HB HG HV CL CP NL.
  intros [Hf HF] Hd. unfold statement_passes. cbn [cv_Commitment cv_Value statement_at range_statement]. split.
  - cbn [cv_NumberOfRounds statement_at range_statement]. rewrite !length_app, HA, HB. cbn [length]. by replace (S n + (S n + 2))%nat with (2 * n + 4)%nat by lia.
  - apply Forall_forall. intros rs Hin. rewrite Forall_forall in HF. destruct (HF rs Hin) as (pokE & e & Ha & E1 & E2 & E3 & E4).
    destruct (accepted_exact rv _ e rs (proj2 Ho) Ha) as (_ & _ & Hc). destruct (Hc g0 g1 V HG HV) as [_ Hc']. rewrite E1, E2, E3, E4 in Hc'. split; [exact Hc'|].
    intros E. apply Hd. apply Exists_exists. by exists rs.
Qed.

Lemma accepted_tree_ok eta nds : accepted_tree eta nds -> ~ degenerate eta nds -> tree_ok eta nds.
Proof using Ho HA HB HG HV CL CP NL.
  intros (Hnd & Hl & HF) Hd. unfold degenerate in Hd. apply Decidable.not_or in Hd as [He Hd]. split_and!; [done..|]. apply Forall_forall. intros nd Hin. rewrite Forall_forall in HF. destruct (HF nd Hin) as (Hg & H3 & Hb).
  split_and!; [done..|]. apply Forall_forall. intros b Hbin. rewrite Forall_forall in Hb. destruct (Hb b Hbin) as (Hr & A1 & A2). assert (~ degenerate_branch eta (nd_c nd) (nd_u nd) b) as Hn.
  { intros H. apply Hd, Exists_exists. exists nd. split; [done|]. apply Exists_exists. by exists b. }
  apply Decidable.not_or in Hn as [N1 N2]. split_and!; [done|by apply accepted_passes..].
Qed.
End Tree.
End Extract.
