(* ===== verification/CspTransfer.v ===== *)
(** * The proofs of transfers and issues over the compressed sigma protocol
      (zkatdlog/nogh/v1: crypto/rp/csp/rp.go and rangecorrectness.go,
      transfer/csptransfer.go, issue/cspissue.go)

    The same two proofs as in [ZkTransfer], with the second system of range
    proofs: the wire format of its proofs, the sets of proofs, and the provers
    and verifiers of transfers and issues.  The module shows that no bytes make a
    verifier panic and that the bytes of honest provers are accepted. *)

From S2P Require Import Prelude GoStd Der Asn1 ZkMath ZkIpa ZkRange ZkSigma ZkCodec ZkTransfer Csp CspFold CspSound Lagrange LagrangeSpec LagrangeTree CspRange CspRangeSpec CspRangeSound.
From Stdlib Require Import ZArith Lia.

(** The public parameters: those of [ZkTransfer] and the ones of this system. *)
Record CSPRangeProofParams `{!Curve} := {
  cpp_LeftGenerators : list G1;
  cpp_RightGenerators : list G1;
  cpp_BitLength : nat;
  cpp_RPTranscriptHeader : bytes;
}.

Record csp_params `{!Curve} := {
  cp_base : zk_params;
  cp_CSPRangeProofParams : option CSPRangeProofParams;
}.

Section CspTransfer.
Context {CO : Curve} {NA : Native} {WI : Wire} {CC : CspCurve}.

(** ** The wire format (rp.go) *)

Definition csp_RangeProof_Serialize (p : csp_RangeProof) : res bytes :=
  a1 ← NewElementArray Zr_Bytes (Some <$> xp_pokZ p);
  lft ← NewElementArray G1_Bytes (Some <$> csp_Left (xp_cspProof p));
  rgt ← NewElementArray G1_Bytes (Some <$> csp_Right (xp_cspProof p));
  vLeft ← NewElementArray Zr_Bytes (Some <$> csp_VLeft (xp_cspProof p));
  vRight ← NewElementArray Zr_Bytes (Some <$> csp_VRight (xp_cspProof p));
  MarshalMath [MG1 (Some (xp_pComm p)); MG1 (Some (xp_pokA p)); a1; MZr (Some (xp_u p)); MG1 (Some (xp_sComm p)); MZr (Some (xp_sEval p));
               lft; rgt; vLeft; vRight].

Definition csp_RangeProof_Deserialize (raw : bytes) : res wcsp_RangeProof :=
  vs ← wrap "failed to deserialize raw" (asn1_Unmarshal_values raw);
  '(pComm, vs) ← wrap "failed to deserialize Left" (NextG1 vs);
  '(pokA, vs) ← wrap "failed to deserialize Right" (NextG1 vs);
  '(pokZ, vs) ← wrap "failed to deserialize L" (NextZrArray vs);
  '(u, vs) ← wrap "failed to deserialize R" (NextZr vs);
  '(sComm, vs) ← wrap "failed to deserialize R" (NextG1 vs);
  '(sEval, vs) ← wrap "failed to deserialize R" (NextZr vs);
  '(lft, vs) ← wrap "failed to deserialize R" (NextG1Array vs);
  '(rgt, vs) ← wrap "failed to deserialize R" (NextG1Array vs);
  '(vLeft, vs) ← wrap "failed to deserialize R" (NextZrArray vs);
  '(vRight, vs) ← wrap "failed to deserialize R" (NextZrArray vs);
  Ok {| wx_pComm := pComm; wx_pokA := pokA; wx_pokZ := pokZ; wx_u := u; wx_sComm := sComm; wx_sEval := sEval;
        wx_cspProof := {| wcsp_Left := lft; wcsp_Right := rgt; wcsp_VLeft := vLeft; wcsp_VRight := vRight |} |}.

(** ** Sets of proofs (rangecorrectness.go) *)

Definition csp_RangeCorrectness_Serialize (proofs : list (option csp_RangeProof)) : res bytes :=
  asn1_Marshal_all [Some (asn1_Marshal_all (map (option_map csp_RangeProof_Serialize) proofs))].

Definition csp_RangeCorrectness_Deserialize (raw : bytes) : res (list wcsp_RangeProof) :=
  wrap "failed to unmarshal proofs" (asn1_Unmarshal1 raw [] (fun v => asn1_UnmarshalTo v csp_RangeProof_Deserialize)).

Definition csp_RangeCorrectness_Validate (proofs : list wcsp_RangeProof) : res unit :=
  rangeR (fun _ p => wrap "invalid range proof at index" (validateRangeProof p)) 0 proofs.

Record csp_RangeCorrectnessProver := {
  ccp_Commitments : list G1;
  ccp_Values : list Z;
  ccp_BlindingFactors : list Zr;
  ccp_PedersenParameters : list G1;
  ccp_LeftGenerators : list G1;
  ccp_RightGenerators : list G1;
  ccp_BitLength : nat;
  ccp_TranscriptHeader : bytes;
}.

(** [NewRangeProver]. *)
Definition csp_set_prover (p : csp_RangeCorrectnessProver) (com : G1) (value : Z) (bf : Zr) : csp_rangeProver :=
  {| xr_VCommitment := Some com; xr_v := Some (NewCachedZrFromInt (Z.to_nat value)); xr_r := Some bf; xr_VGenerators := ccp_PedersenParameters p;
     xr_AGenerators := ccp_LeftGenerators p; xr_BGenerators := ccp_RightGenerators p; xr_NumberOfBits := ccp_BitLength p;
     xr_TranscriptHeader := ccp_TranscriptHeader p |}.

(** [envs i] and [rands i] are the cache and the reader the [i]-th task meets. *)
Definition csp_RangeCorrectnessProver_Prove (p : csp_RangeCorrectnessProver) (envs : nat -> lagrange_env) (rands : nat -> res (nat -> Zr))
    : res (list (option csp_RangeProof)) :=
  reject_if (length (ccp_TranscriptHeader p) =? 0)%nat (EMsg "transcript header is empty") ;;
  run_tasks ((fun '(i, com) =>
    value ← index (ccp_Values p) i;
    bf ← index (ccp_BlindingFactors p) i;
    rp ← csp_rangeProver_Prove (envs i) (csp_set_prover p com value bf) (rands i);
    Ok (Some rp)) <$> zip (seq 0 (length (ccp_Commitments p))) (ccp_Commitments p)).

Record csp_RangeCorrectnessVerifier := {
  ccv_Commitments : list G1;
  ccv_PedersenParameters : list G1;
  ccv_LeftGenerators : list G1;
  ccv_RightGenerators : list G1;
  ccv_BitLength : nat;
  ccv_TranscriptHeader : bytes;
}.

(** [NewRangeVerifier]. *)
Definition csp_set_verifier (v : csp_RangeCorrectnessVerifier) (com : G1) : csp_rangeVerifier :=
  {| xv_VGenerators := ccv_PedersenParameters v; xv_AGenerators := ccv_LeftGenerators v; xv_BGenerators := ccv_RightGenerators v;
     xv_VCommitment := Some com; xv_NumberOfBits := ccv_BitLength v; xv_TranscriptHeader := ccv_TranscriptHeader v |}.

Definition csp_RangeCorrectnessVerifier_Verify (v : csp_RangeCorrectnessVerifier) (envs : nat -> lagrange_env) (proofs : list wcsp_RangeProof) : res unit :=
  if negb (length proofs =? length (ccv_Commitments v))%nat then Err (EMsg "invalid range proof") else
  reject_if (length (ccv_TranscriptHeader v) =? 0)%nat (EMsg "transcript header is empty") ;;
  _ ← wrap "invalid range proof at index" (run_tasks ((fun '(i, (proof, com)) => csp_rangeVerifier_Verify (envs i) (csp_set_verifier v com) proof) <$>
        zip (seq 0 (length proofs)) (zip proofs (ccv_Commitments v))));
  Ok tt.

(** ** Transfers (csptransfer.go) *)

Definition CSPProof_Serialize (ts : TypeAndSumProof) (rc : option (list (option csp_RangeProof))) : res bytes :=
  asn1_Marshal_all [Some (TypeAndSumProof_Serialize ts); option_map csp_RangeCorrectness_Serialize rc].

Definition CSPProof_Deserialize (raw : bytes) : res (wTypeAndSumProof * list wcsp_RangeProof) :=
  asn1_Unmarshal2 raw empty_ts TypeAndSumProof_Deserialize [] csp_RangeCorrectness_Deserialize.

Definition CSPProof_Validate (p : wTypeAndSumProof * list wcsp_RangeProof) : res unit :=
  err_join (err_join (TypeAndSumProof_Validate p.1) ErrInvalidSumAndTypeProof) ErrInvalidTransferProof ;;
  err_join (err_join (csp_RangeCorrectness_Validate p.2) ErrInvalidRangeProof) ErrInvalidTransferProof.

Definition csp_NewRangeCorrectnessVerifier (pp : csp_params) : res csp_RangeCorrectnessVerifier :=
  gens ← value_generators (cp_base pp);
  r ← deref (cp_CSPRangeProofParams pp);
  Ok {| ccv_Commitments := []; ccv_PedersenParameters := gens; ccv_LeftGenerators := cpp_LeftGenerators r; ccv_RightGenerators := cpp_RightGenerators r;
        ccv_BitLength := cpp_BitLength r; ccv_TranscriptHeader := cpp_RPTranscriptHeader r |}.

Definition csp_set_commitments (v : csp_RangeCorrectnessVerifier) (coms : list G1) : csp_RangeCorrectnessVerifier :=
  {| ccv_Commitments := coms; ccv_PedersenParameters := ccv_PedersenParameters v; ccv_LeftGenerators := ccv_LeftGenerators v;
     ccv_RightGenerators := ccv_RightGenerators v; ccv_BitLength := ccv_BitLength v; ccv_TranscriptHeader := ccv_TranscriptHeader v |}.

Definition csp_NewRangeCorrectnessProver (pp : csp_params) (coms : list G1) (values : list Z) (bfs : list Zr) : res csp_RangeCorrectnessProver :=
  gens ← value_generators (cp_base pp);
  r ← deref (cp_CSPRangeProofParams pp);
  Ok {| ccp_Commitments := coms; ccp_Values := values; ccp_BlindingFactors := bfs; ccp_PedersenParameters := gens;
        ccp_LeftGenerators := cpp_LeftGenerators r; ccp_RightGenerators := cpp_RightGenerators r; ccp_BitLength := cpp_BitLength r;
        ccp_TranscriptHeader := cpp_RPTranscriptHeader r |}.

Record CSPVerifier := {
  csv_PedParams : list G1;
  csv_Inputs : list commitment;
  csv_Outputs : list commitment;
  csv_RangeCorrectness : option csp_RangeCorrectnessVerifier;
}.

Definition NewCSPVerifier (inputs outputs : list commitment) (pp : csp_params) : res CSPVerifier :=
  rc ← (if negb (length inputs =? 1)%nat || negb (length outputs =? 1)%nat then rc ← csp_NewRangeCorrectnessVerifier pp; Ok (Some rc) else Ok None);
  Ok {| csv_PedParams := zp_PedersenGenerators (cp_base pp); csv_Inputs := inputs; csv_Outputs := outputs; csv_RangeCorrectness := rc |}.

Definition CSPVerifier_Verify (v : CSPVerifier) (envs : nat -> lagrange_env) (proofRaw : bytes) : res unit :=
  proof ← wrap "invalid transfer proof" (CSPProof_Deserialize proofRaw);
  wrap "invalid transfer proof" (CSPProof_Validate proof) ;;
  ts ← own_ts proof.1;
  wrap "invalid transfer proof" (verify_type_and_sum (csv_PedParams v) (csv_Inputs v) (csv_Outputs v) ts) ;;
  match csv_RangeCorrectness v with
  | None => Ok tt
  | Some rcv =>
      commitmentToType ← deref (tsp_CommitmentToType ts);
      outs ← mapM point (csv_Outputs v);
      csp_RangeCorrectnessVerifier_Verify (csp_set_commitments rcv (relative commitmentToType outs)) envs proof.2
  end.

Record CSPBasedProver := {
  csb_TypeAndSum : TypeAndSumProver;
  csb_RangeCorrectness : option csp_RangeCorrectnessProver;
}.

Definition NewCSPBasedProver (Zr_Uint : Zr -> res Z) (rand : res (nat -> Zr)) (inputWitness outputWitness : list (option ZkMetadata))
    (inputs outputs : list G1) (pp : csp_params) : res CSPBasedProver :=
  if (length inputWitness =? 0)%nat then Err (EWrap ErrInvalidInputs "cannot create CSP-based prover: no input witnesses") else
  inW ← mapM witness_ok inputWitness;
  first ← index inW 0;
  p0 ← index (zp_PedersenGenerators (cp_base pp)) 0;
  rand ← rand;
  let typeBF := rand 0%nat in
  outs ← mapM (fun m => m ← witness_ok m;
                        v ← deref (mt_Value m); v ← replace_err "invalid token witness values" (Zr_Uint v);
                        bf ← deref (mt_BlindingFactor m);
                        Ok (m, v, (bf - typeBF)%zr)) outputWitness;
  p2 ← index (zp_PedersenGenerators (cp_base pp)) 2;
  let commitmentToType := (p0 ⋅ HashToZr (mt_Type first) + p2 ⋅ typeBF)%g1 in
  tsWitness ← NewTypeAndSumWitness typeBF inW outs.*1.*1;
  rc ← (if negb (length inputWitness =? 1)%nat || negb (length outputWitness =? 1)%nat then
          rc ← csp_NewRangeCorrectnessProver pp (relative commitmentToType outputs) outs.*1.*2 outs.*2; Ok (Some rc)
        else Ok None);
  Ok {| csb_TypeAndSum := {| tsr_PedParams := zp_PedersenGenerators (cp_base pp); tsr_Inputs := inputs; tsr_Outputs := outputs;
                             tsr_CommitmentToType := commitmentToType; tsr_witness := tsWitness |};
        csb_RangeCorrectness := rc |}.

Definition CSPBasedProver_Prove (p : CSPBasedProver) (envs : nat -> lagrange_env) (rands : nat -> res (nat -> Zr)) (rand : res (nat -> Zr)) : res bytes :=
  rangeProof ← (match csb_RangeCorrectness p with
                | None => Ok None
                | Some rcp => rc ← wrap "failed to generate range proof for transfer" (csp_RangeCorrectnessProver_Prove rcp envs rands); Ok (Some rc)
                end);
  tsProof ← wrap "failed to generate transfer proof" (TypeAndSum_Prove (csb_TypeAndSum p) rand);
  CSPProof_Serialize tsProof rangeProof.

(** ** Issues (cspissue.go) *)

Definition CSPIssueProof_Serialize (st : SameType) (rc : list (option csp_RangeProof)) : res bytes :=
  asn1_Marshal_all [Some (SameType_Serialize st); Some (csp_RangeCorrectness_Serialize rc)].

Definition CSPIssueProof_Deserialize (raw : bytes) : res (wSameType * list wcsp_RangeProof) :=
  join_err ErrDeserializeProofFailed (asn1_Unmarshal2 raw empty_st SameType_Deserialize [] csp_RangeCorrectness_Deserialize).

Record CSPIssueVerifier := {
  civ_PedParams : list G1;
  civ_Tokens : list commitment;
  civ_RangeCorrectness : csp_RangeCorrectnessVerifier;
}.

Definition NewCSPIssueVerifier (tokens : list commitment) (pp : csp_params) : res CSPIssueVerifier :=
  rc ← csp_NewRangeCorrectnessVerifier pp;
  Ok {| civ_PedParams := zp_PedersenGenerators (cp_base pp); civ_Tokens := tokens; civ_RangeCorrectness := rc |}.

Definition CSPIssueVerifier_Verify (v : CSPIssueVerifier) (envs : nat -> lagrange_env) (proof : bytes) : res unit :=
  tp ← join_err ErrDeserializeProofFailed (CSPIssueProof_Deserialize proof);
  join_err ErrInvalidIssueProof (SameType_Validate tp.1) ;;
  join_err ErrInvalidIssueProof (csp_RangeCorrectness_Validate tp.2) ;;
  st ← own_st tp.1;
  join_err ErrInvalidIssueProof (SameType_Verify (civ_PedParams v) st) ;;
  tokens ← mapM point (civ_Tokens v);
  join_err ErrInvalidIssueProof
    (csp_RangeCorrectnessVerifier_Verify (csp_set_commitments (civ_RangeCorrectness v) (relative (st_CommitmentToType st) tokens)) envs tp.2).

Record CSPIssueProver := {
  cip_SameType : SameTypeProver;
  cip_RangeCorrectness : csp_RangeCorrectnessProver;
}.

Definition NewCSPIssueProver (Zr_Uint : Zr -> res Z) (rand : res (nat -> Zr)) (tw : list (option ZkMetadata)) (tokens : list G1) (pp : csp_params)
    : res CSPIssueProver :=
  if (length tw =? 0)%nat then Err (EWrap ErrInvalidIssueInputs "cannot create CSP-based prover: no token witnesses") else
  first ← index tw 0; first ← deref first;
  p0 ← index (zp_PedersenGenerators (cp_base pp)) 0;
  rand ← join_err ErrGetIssueProverFailed rand;
  let typeBF := rand 0%nat in
  p2 ← index (zp_PedersenGenerators (cp_base pp)) 2;
  let commitmentToType := (p0 ⋅ HashToZr (mt_Type first) + p2 ⋅ typeBF)%g1 in
  ws ← mapM (fun m => m ← witness_ok m;
                      v ← deref (mt_Value m); v ← join_err ErrInvalidTokenWitnessValues (Zr_Uint v);
                      bf ← deref (mt_BlindingFactor m);
                      Ok (v, (bf - typeBF)%zr)) tw;
  rc ← csp_NewRangeCorrectnessProver pp (relative commitmentToType tokens) ws.*1 ws.*2;
  Ok {| cip_SameType := {| stp_PedParams := zp_PedersenGenerators (cp_base pp); stp_tokenType := mt_Type first; stp_blindingFactor := typeBF;
                           stp_CommitmentToType := commitmentToType |};
        cip_RangeCorrectness := rc |}.

Definition CSPIssueProver_Prove (p : CSPIssueProver) (envs : nat -> lagrange_env) (rands : nat -> res (nat -> Zr)) (rand : res (nat -> Zr)) : res bytes :=
  st ← join_err ErrGenerateIssueProofFailed (SameType_Prove (cip_SameType p) rand);
  rc ← join_err ErrGenerateRangeProofFailed (csp_RangeCorrectnessProver_Prove (cip_RangeCorrectness p) envs rands);
  CSPIssueProof_Serialize st rc.

End CspTransfer.

(** ** No bytes make a verifier panic *)

Section CspTransferSafety.
Context {CO : Curve} {CL : CurveLaws} {NA : Native} {NL : NativeLaws} {WI : Wire} {WL : WireLaws} {CC : CspCurve} {CP : CspLaws}.

#[local] Hint Resolve NextZr_no_panic NextG1_no_panic NextZrArray_no_panic NextG1Array_no_panic asn1_values_no_panic Unmarshal1_no_panic UnmarshalTo_no_panic : nopanic.

Lemma csp_RangeProof_Deserialize_no_panic raw : csp_RangeProof_Deserialize raw <> Panic.
Proof. unfold csp_RangeProof_Deserialize. np. Qed.
#[local] Hint Resolve csp_RangeProof_Deserialize_no_panic : nopanic.

Lemma csp_RangeCorrectness_Deserialize_no_panic raw : csp_RangeCorrectness_Deserialize raw <> Panic.
Proof. unfold csp_RangeCorrectness_Deserialize. np. Qed.

Lemma csp_RangeCorrectness_Validate_no_panic ps : csp_RangeCorrectness_Validate ps <> Panic.
Proof. apply rangeR_np. intros. apply wrap_no_panic, validateRangeProof_no_panic. Qed.

Lemma csp_set_no_panic v envs proofs : (forall i, env_ok (envs i)) -> (2 * Z.of_nat (ccv_BitLength v) < GroupOrder)%Z ->
  csp_RangeCorrectnessVerifier_Verify v envs proofs <> Panic.
Proof.
  intros He Ho. unfold csp_RangeCorrectnessVerifier_Verify, reject_if. np. apply run_tasks_no_panic, Forall_fmap, Forall_forall. intros [i [proof com]] _.
  by apply csp_range_no_panic.
Qed.

(** Parameters as the setup generates them. *)
Definition csp_present (pp : csp_params) (p0 p1 p2 : G1) (ps : list G1) (r : CSPRangeProofParams) : Prop :=
  zp_PedersenGenerators (cp_base pp) = p0 :: p1 :: p2 :: ps /\ cp_CSPRangeProofParams pp = Some r.

Definition csp_verifier_at (r : CSPRangeProofParams) (gens coms : list G1) : csp_RangeCorrectnessVerifier :=
  {| ccv_Commitments := coms; ccv_PedersenParameters := gens; ccv_LeftGenerators := cpp_LeftGenerators r; ccv_RightGenerators := cpp_RightGenerators r;
     ccv_BitLength := cpp_BitLength r; ccv_TranscriptHeader := cpp_RPTranscriptHeader r |}.

Lemma csp_NewRangeCorrectnessVerifier_spec pp p0 p1 p2 ps r : csp_present pp p0 p1 p2 ps r ->
  csp_NewRangeCorrectnessVerifier pp = Ok (csp_verifier_at r (p1 :: p2 :: ps) []).
Proof. intros [Hp Hr]. unfold csp_NewRangeCorrectnessVerifier, value_generators. by rewrite Hp, Hr. Qed.

Lemma NewCSPVerifier_spec pp p0 p1 p2 ps r inputs outputs : csp_present pp p0 p1 p2 ps r ->
  NewCSPVerifier inputs outputs pp
  = Ok {| csv_PedParams := zp_PedersenGenerators (cp_base pp); csv_Inputs := inputs; csv_Outputs := outputs;
          csv_RangeCorrectness := if needs_range (length inputs) (length outputs) then Some (csp_verifier_at r (p1 :: p2 :: ps) []) else None |}.
Proof.
  intros Hp. unfold NewCSPVerifier, needs_range. destruct (negb _ || negb _); [|done]. by rewrite (csp_NewRangeCorrectnessVerifier_spec _ _ _ _ _ _ Hp).
Qed.

Lemma CSPVerifier_no_panic pp p0 p1 p2 ps r inputs outputs envs raw : csp_present pp p0 p1 p2 ps r ->
  (forall i, env_ok (envs i)) -> (2 * Z.of_nat (cpp_BitLength r) < GroupOrder)%Z ->
  exists v, NewCSPVerifier (present_points inputs) (present_points outputs) pp = Ok v /\ CSPVerifier_Verify v envs raw <> Panic.
Proof.
  intros Hp He Ho. rewrite (NewCSPVerifier_spec _ _ _ _ _ _ _ _ Hp). eexists. split; [done|]. unfold CSPVerifier_Verify.
  apply bind_no_panic; [apply wrap_no_panic, Unmarshal2_no_panic; [apply TypeAndSumProof_Deserialize_no_panic|apply csp_RangeCorrectness_Deserialize_no_panic]|].
  intros [ts rc]. unfold CSPProof_Validate. cbn [fst snd].
  destruct (TypeAndSumProof_Validate ts) as [[]| |] eqn:Ets; [|by cbn|by apply TypeAndSumProof_Validate_no_panic in Ets].
  destruct (csp_RangeCorrectness_Validate rc) as [[]| |] eqn:Erc; [|by cbn|by apply csp_RangeCorrectness_Validate_no_panic in Erc].
  destruct (TypeAndSumProof_valid ts Ets) as (com & ibf & iv & type & tbf & eqs & chal & ->).
  cbn [err_join wrap mbind res_mbind csv_PedParams csv_Inputs csv_Outputs csv_RangeCorrectness]. rewrite verify_points.
  apply bind_no_panic; [apply wrap_no_panic; eapply TypeAndSum_Verify_no_panic, Hp|]. intros _.
  destruct (needs_range _ _); [|done]. rewrite points_present. cbn [deref tsp_CommitmentToType mbind res_mbind]. by apply csp_set_no_panic.
Qed.

Lemma CSPIssueVerifier_no_panic pp p0 p1 p2 ps r tokens envs raw : csp_present pp p0 p1 p2 ps r ->
  (forall i, env_ok (envs i)) -> (2 * Z.of_nat (cpp_BitLength r) < GroupOrder)%Z ->
  exists v, NewCSPIssueVerifier (present_points tokens) pp = Ok v /\ CSPIssueVerifier_Verify v envs raw <> Panic.
Proof.
  intros Hp He Ho. unfold NewCSPIssueVerifier. rewrite (csp_NewRangeCorrectnessVerifier_spec _ _ _ _ _ _ Hp). eexists. split; [done|]. unfold CSPIssueVerifier_Verify.
  apply bind_no_panic; [apply join_err_no_panic, join_err_no_panic, Unmarshal2_no_panic; [apply SameType_Deserialize_no_panic|apply csp_RangeCorrectness_Deserialize_no_panic]|].
  intros [st rc]. cbn [fst snd].
  destruct (SameType_Validate st) as [[]| |] eqn:Est; [|by cbn|by apply SameType_Validate_no_panic in Est].
  destruct (csp_RangeCorrectness_Validate rc) as [[]| |] eqn:Erc; [|by cbn|by apply csp_RangeCorrectness_Validate_no_panic in Erc].
  destruct (SameType_valid st Est) as [q ->]. cbn [join_err mbind res_mbind civ_PedParams civ_RangeCorrectness]. destruct Hp as [-> _].
  apply bind_no_panic; [apply join_err_no_panic, SameType_Verify_no_panic|]. intros _. cbn [civ_Tokens]. rewrite points_present. by apply join_err_no_panic, csp_set_no_panic.
Qed.

End CspTransferSafety.

(** ** The proofs of honest provers are accepted *)

Section CspTransferComplete.
Context {CO : Curve} {CL : CurveLaws} {NA : Native} {NL : NativeLaws} {WI : Wire} {WL : WireLaws} {CC : CspCurve} {CP : CspLaws}.
Local Open Scope zr_scope.

Ltac read_next :=
  repeat (first [rewrite NextZr_read by done|rewrite NextG1_read by done|rewrite NextZrArray_read by done|rewrite NextG1Array_read by done];
          cbn [wrap join_err mbind res_mbind]).

Lemma csp_RangeProof_read p : csp_full p ->
  exists b, csp_RangeProof_Serialize p = Ok b /\ b <> [] /\ (small b -> csp_RangeProof_Deserialize b = Ok (send_range p)).
Proof.
  intros (Hz & Hl & Hr & Hvl & Hvr). unfold csp_RangeProof_Serialize. rewrite !NewElementArray_spec by done. cbn [mbind res_mbind].
  rewrite (MarshalMath_spec _ [G1_Bytes (xp_pComm p); G1_Bytes (xp_pokA p); octets_struct_Marshal (Zr_Bytes <$> xp_pokZ p); Zr_Bytes (xp_u p); G1_Bytes (xp_sComm p);
    Zr_Bytes (xp_sEval p); octets_struct_Marshal (G1_Bytes <$> csp_Left (xp_cspProof p)); octets_struct_Marshal (G1_Bytes <$> csp_Right (xp_cspProof p));
    octets_struct_Marshal (Zr_Bytes <$> csp_VLeft (xp_cspProof p)); octets_struct_Marshal (Zr_Bytes <$> csp_VRight (xp_cspProof p))]) by first [done|repeat constructor].
  eexists. split; [reflexivity|]. split; [done|]. intros Hs. unfold csp_RangeProof_Deserialize. rewrite asn1_values_read by done. cbn [wrap mbind res_mbind].
  apply small_octets in Hs. cbn [fmap list_fmap] in Hs |- *. small_entries Hs. read_next. done.
Qed.

Lemma csp_RangeCorrectness_read ps : Forall csp_full ps ->
  exists b, csp_RangeCorrectness_Serialize (Some <$> ps) = Ok b /\ b <> [] /\ (small b -> csp_RangeCorrectness_Deserialize b = Ok (send_range <$> ps)).
Proof.
  intros HF. assert (exists bs, Forall2 (fun o b => o = Some (Ok b)) (map (option_map csp_RangeProof_Serialize) (Some <$> ps)) bs /\
    (Forall small bs -> mapM (fun v => wrap "failed to deserialize value" (csp_RangeProof_Deserialize v)) bs = Ok (send_range <$> ps))) as (bs & Hm & Hr).
  { induction HF as [|p ps Hp _ (bs & Hm & IH)]; [by exists []|]. destruct (csp_RangeProof_read p Hp) as (b & Hb & _ & Rb). exists (b :: bs). split.
    - rewrite fmap_cons. cbn [map option_map]. constructor; [by rewrite <- Hb|done].
    - intros [Hs Hss]%Forall_cons. rewrite mapM_cons_res, fmap_cons, (Rb Hs). cbn [wrap mbind res_mbind]. by rewrite (IH Hss). }
  unfold csp_RangeCorrectness_Serialize. rewrite (Marshal_all_spec _ bs Hm). rewrite (Marshal_all_spec _ [octets_struct_Marshal bs]) by repeat constructor.
  eexists. split; [reflexivity|]. split; [done|]. intros Hs. unfold csp_RangeCorrectness_Deserialize, asn1_Unmarshal1. rewrite asn1_values_read by done. cbn [mbind res_mbind].
  apply small_octets in Hs. small_entries Hs.
  rewrite (unmarshal_entry_read _ (send_range <$> ps)); [done|done|]. unfold asn1_UnmarshalTo. rewrite asn1_values_read by done. cbn [mbind res_mbind].
  apply Hr. by apply small_octets.
Qed.

(** The parameters are those of a setup: the generators are finite and as many
    as the bits ask for. *)
Record csp_range_params (r : CSPRangeProofParams) (g0 g1 : G1) : Prop := {
  crp_left : length (cpp_LeftGenerators r) = S (cpp_BitLength r);
  crp_right : length (cpp_RightGenerators r) = S (cpp_BitLength r);
  crp_finite : Forall finite ([g0; g1] ++ cpp_LeftGenerators r ++ cpp_RightGenerators r);
  crp_header : cpp_RPTranscriptHeader r <> [];
  crp_order : small_order (cpp_BitLength r);
}.

Definition csp_prover_at (r : CSPRangeProofParams) (gens coms : list G1) (vals : list Z) (bfs : list Zr) : csp_RangeCorrectnessProver :=
  {| ccp_Commitments := coms; ccp_Values := vals; ccp_BlindingFactors := bfs; ccp_PedersenParameters := gens; ccp_LeftGenerators := cpp_LeftGenerators r;
     ccp_RightGenerators := cpp_RightGenerators r; ccp_BitLength := cpp_BitLength r; ccp_TranscriptHeader := cpp_RPTranscriptHeader r |}.

(** No task met the zero challenge or a message at infinity. *)
Definition csp_good_run (p : csp_RangeCorrectnessProver) (envs : nat -> lagrange_env) (rands : nat -> res (nat -> Zr)) : Prop :=
  forall i com value bf rand, ccp_Commitments p !! i = Some com -> ccp_Values p !! i = Some value -> ccp_BlindingFactors p !! i = Some bf -> rands i = Ok rand ->
    range_eta (envs i) (csp_set_prover p com value bf) rand <> Ok Zero /\
    forall proof, csp_rangeProver_Prove (envs i) (csp_set_prover p com value bf) (Ok rand) = Ok proof -> Forall finite (csp_points proof).

(** The amounts a proof can be made for. *)
Definition csp_amount (bits : nat) (v : Z) : Prop := (0 <= v < 2 ^ Z.of_nat bits)%Z /\ (v < GroupOrder)%Z.

Lemma csp_task_complete r g0 g1 coms vals bfs envs envs' rands i v bf rand : csp_range_params r g0 g1 -> env_ok (envs i) -> env_ok (envs' i) ->
  let p := csp_prover_at r [g0; g1] coms vals bfs in
  let com := (g0 ⋅ NewZrFromUint64 v + g1 ⋅ bf)%g1 in
  csp_good_run p envs rands -> coms !! i = Some com -> vals !! i = Some v -> bfs !! i = Some bf -> rands i = Ok rand -> csp_amount (cpp_BitLength r) v ->
  exists proof, csp_rangeProver_Prove (envs i) (csp_set_prover p com v bf) (Ok rand) = Ok proof /\ csp_full proof /\
    csp_rangeVerifier_Verify (envs' i) (csp_set_verifier (csp_verifier_at r [g0; g1] coms) com) (send_range proof) = Ok tt.
Proof.
  intros [HL HR HF Hh Ho] He He' p com Hgood Hc Hv Hb Hr [Hrange Hsmall].
  assert (csp_range_honest (csp_set_prover p com v bf) g0 g1 v bf) as Hh'.
  { assert (Some (NewCachedZrFromInt (Z.to_nat v)) = Some (NewZrFromUint64 v)) as Ev by (unfold NewCachedZrFromInt; by rewrite Z2Nat.id by lia). by split. }
  destruct (Hgood i com v bf rand Hc Hv Hb Hr) as [Hz Hfin]. destruct (range_eta_total (envs i) He _ _ _ _ _ Hh' rand) as [eta Heta].
  destruct (range_complete (envs i) (envs' i) He He' _ _ _ _ _ Hh' rand eta Heta) as (proof & Hprove & Hfull & Hver); [by intros ->|].
  exists proof. split; [done|]. split; [done|]. apply Hver. by apply Hfin.
Qed.

Lemma csp_accepted_valid env v proof : csp_rangeVerifier_Verify env v proof = Ok tt -> validateRangeProof proof = Ok tt.
Proof. unfold csp_rangeVerifier_Verify. rewrite then_Ok. intros [_ H]. rewrite then_Ok in H. by destruct H as [?%wrap_Ok _]. Qed.

(** The range part of a proof: proved, sent, validated, verified. *)
Lemma csp_part_complete r g0 g1 vals bfs coms envs envs' rands : csp_range_params r g0 g1 -> length bfs = length vals ->
  Forall (csp_amount (cpp_BitLength r)) vals -> coms = zip_with (fun v bf => g0 ⋅ NewZrFromUint64 v + g1 ⋅ bf)%g1 vals bfs ->
  (forall i, env_ok (envs i)) -> (forall i, env_ok (envs' i)) -> (forall i, exists rand, rands i = Ok rand) ->
  let p := csp_prover_at r [g0; g1] coms vals bfs in
  csp_good_run p envs rands ->
  exists proofs, csp_RangeCorrectnessProver_Prove p envs rands = Ok (Some <$> proofs) /\ Forall csp_full proofs /\
    csp_RangeCorrectness_Validate (send_range <$> proofs) = Ok tt /\
    csp_RangeCorrectnessVerifier_Verify (csp_verifier_at r [g0; g1] coms) envs' (send_range <$> proofs) = Ok tt.
Proof.
  intros Hr Hl Hv Hc He He' Hrands p Hgood. set (P := fun (i : nat) (com : G1) (proof : csp_RangeProof) =>
    (value ← index vals i; bf ← index bfs i; csp_rangeProver_Prove (envs i) (csp_set_prover p com value bf) (rands i)) = Ok proof /\ csp_full proof /\
    csp_rangeVerifier_Verify (envs' i) (csp_set_verifier (csp_verifier_at r [g0; g1] coms) com) (send_range proof) = Ok tt).
  destruct (list_choose P coms 0) as (proofs & Hn & Hproofs).
  { intros i com Hcom. cbn [Nat.add]. pose proof Hcom as Hcom'. rewrite Hc in Hcom'. apply lookup_zip_with_Some in Hcom' as (v & bf & -> & Hvi & Hbi).
    destruct (Hrands i) as [rand Hri]. unfold P. rewrite (index_Some _ _ _ Hvi), (index_Some _ _ _ Hbi), Hri. cbn [mbind res_mbind]. rewrite Forall_lookup in Hv.
    by apply (csp_task_complete r g0 g1 coms vals bfs envs envs' rands i v bf rand); eauto. }
  assert (forall i proof, proofs !! i = Some proof -> exists com, coms !! i = Some com /\ P i com proof) as HP.
  { intros i proof Hi. destruct (lookup_lt_is_Some_2 coms i) as [com Hcom]; [rewrite <- Hn; by eapply lookup_lt_Some|]. exists com. split; [done|]. by apply (Hproofs i). }
  pose proof (crp_header _ _ _ Hr) as Hh. assert (length (cpp_RPTranscriptHeader r) =? 0 = false)%nat as Hh0 by (by destruct (cpp_RPTranscriptHeader r)).
  exists proofs. split_and!.
  - unfold csp_RangeCorrectnessProver_Prove. cbn [p csp_prover_at ccp_TranscriptHeader ccp_Commitments ccp_Values ccp_BlindingFactors]. rewrite Hh0. cbn [reject_if mbind res_mbind].
    rewrite <- (run_tasks_Ok (Some <$> proofs)). f_equal. apply list_eq. intros i. rewrite !list_lookup_fmap, lookup_zip_with.
    destruct (proofs !! i) as [proof|] eqn:Ei.
    + destruct (HP i proof Ei) as (com & Hcom & Hp & _). rewrite Hcom, lookup_seq_lt by by eapply lookup_lt_Some. cbn. f_equal.
      destruct (index vals i) as [v| |]; [|done..]. cbn in Hp |- *. destruct (index bfs i) as [bf| |]; [|done..]. cbn in Hp |- *. fold p. by rewrite Hp.
    + rewrite (lookup_ge_None_2 coms i) by (apply lookup_ge_None in Ei; lia). by destruct (seq _ _ !! i).
  - apply Forall_lookup. intros i proof Hi. by destruct (HP i proof Hi) as (com & _ & _ & Hf & _).
  - apply rangeR_Ok. intros k w Hw. rewrite list_lookup_fmap in Hw. destruct (proofs !! k) as [proof|] eqn:Ek; [|done]. injection Hw as <-.
    destruct (HP k proof Ek) as (com & _ & _ & _ & Hver). by rewrite (csp_accepted_valid _ _ _ Hver).
  - unfold csp_RangeCorrectnessVerifier_Verify. cbn [csp_verifier_at ccv_Commitments ccv_TranscriptHeader]. rewrite length_fmap, Hn, Nat.eqb_refl, Hh0. cbn [negb reject_if mbind res_mbind].
    match goal with |- context [run_tasks ?ts] => assert (ts = Ok <$> replicate (length proofs) tt) as -> end; [|by rewrite run_tasks_Ok].
    apply list_eq. intros i. rewrite !list_lookup_fmap, !lookup_zip_with, !list_lookup_fmap. destruct (proofs !! i) as [proof|] eqn:Ei.
    + destruct (HP i proof Ei) as (com & Hcom & _ & _ & Hver). pose proof (lookup_lt_Some _ _ _ Ei) as Hi. rewrite Hcom, lookup_replicate_2, lookup_seq_lt by lia. cbn. by f_equal.
    + apply lookup_ge_None in Ei. rewrite (lookup_ge_None_2 (replicate _ _) i) by by rewrite length_replicate. cbn. by destruct (seq _ _ !! i).
Qed.

(** *** Transfers *)

Lemma NewCSPBasedProver_spec Zr_Uint rand pp p0 p1 p2 ps r type ivals ovals ibfs obfs inputs outputs :
  csp_present pp p0 p1 p2 ps r -> ivals <> [] -> length ibfs = length ivals -> length obfs = length ovals ->
  Forall (fun v => Zr_Uint (NewZrFromUint64 v) = Ok v) ovals ->
  let t := rand 0%nat in
  NewCSPBasedProver Zr_Uint (Ok rand) (Some <$> metadata type ivals ibfs) (Some <$> metadata type ovals obfs) inputs outputs pp
  = Ok {| csb_TypeAndSum := honest_ts (cp_base pp) type ivals ovals ibfs obfs inputs outputs p0 p2 t;
          csb_RangeCorrectness := if needs_range (length ivals) (length ovals)
            then Some (csp_prover_at r (p1 :: p2 :: ps) (relative (p0 ⋅ HashToZr type + p2 ⋅ t)%g1 outputs) ovals ((fun bf => bf - t) <$> obfs)) else None |}.
Proof.
  intros [Hp Hr] Hne Hi Ho HU t. unfold NewCSPBasedProver, needs_range. rewrite !length_fmap, !length_metadata by done.
  destruct ivals as [|v0 ivals]; [done|]. destruct ibfs as [|b0 ibfs]; [done|].
  change (length (v0 :: ivals) =? 0)%nat with false. cbv iota. rewrite witnesses_ok. cbn [mbind res_mbind].
  change (index (metadata type (v0 :: ivals) (b0 :: ibfs)) 0) with (Ok {| mt_Type := type; mt_Value := Some (NewZrFromUint64 v0); mt_BlindingFactor := Some b0; mt_Issuer := [] |}).
  rewrite Hp. cbn [mbind res_mbind index lookup list_lookup mt_Type]. fold t.
  rewrite (witness_loop (fun m v bf => (m, v, bf - t)) (replace_err _)) by done. cbn [mbind res_mbind].
  destruct (outs_parts t type ovals obfs Ho) as (-> & -> & ->).
  unfold NewTypeAndSumWitness. destruct (metadata_values type (v0 :: ivals) (b0 :: ibfs) Hi) as [Ev Eb]. destruct (metadata_values type ovals obfs Ho) as [Ev' Eb'].
  destruct (metadata type (v0 :: ivals) (b0 :: ibfs)) as [|m0 ms] eqn:Em; [done|]. assert (mt_Type m0 = type) as -> by (by injection Em as <- _).
  cbn [mbind res_mbind]. rewrite Ev, Eb, Ev', Eb'. unfold csp_NewRangeCorrectnessProver, value_generators, honest_ts, csp_prover_at. rewrite Hp, Hr.
  by destruct (negb _ || negb _).
Qed.

Lemma CSPProof_read ts b w (o : option (list csp_RangeProof)) : TypeAndSumProof_Serialize ts = Ok b -> b <> [] ->
  (small b -> TypeAndSumProof_Deserialize b = Ok w) -> (forall cs, o = Some cs -> Forall csp_full cs) ->
  exists raw, CSPProof_Serialize ts (fmap (M := list) Some <$> o) = Ok raw /\ (small raw -> CSPProof_Deserialize raw = Ok (w, send_range <$> default [] o)).
Proof.
  intros Hb Hne Hd Ho. unfold CSPProof_Serialize, CSPProof_Deserialize, asn1_Unmarshal2. rewrite Hb. destruct o as [cs|]; cbn [fmap option_fmap option_map].
  - destruct (csp_RangeCorrectness_read cs (Ho cs eq_refl)) as (brc & Hrc & Nrc & Rrc). rewrite Hrc. rewrite (Marshal_all_spec _ [b; brc]) by repeat constructor.
    eexists. split; [reflexivity|]. intros Hs. rewrite asn1_values_read by done. apply small_octets in Hs. small_entries Hs. cbn [mbind res_mbind].
    rewrite (unmarshal_entry_read _ _ _ _ Hne (Hd Hsm)). cbn [mbind res_mbind]. by rewrite (unmarshal_entry_read _ _ _ _ Nrc (Rrc Hsm0)).
  - eexists. split; [reflexivity|]. intros Hs. rewrite asn1_values_read by done. apply small_octets in Hs. small_entries Hs. cbn [mbind res_mbind].
    by rewrite (unmarshal_entry_read _ _ _ _ Hne (Hd Hsm)).
Qed.

Definition csp_good_transfer (p : CSPBasedProver) (envs : nat -> lagrange_env) (rands : nat -> res (nat -> Zr)) : Prop :=
  finite (tsr_CommitmentToType (csb_TypeAndSum p)) /\
  match csb_RangeCorrectness p with None => True | Some rcp => csp_good_run rcp envs rands end.

Lemma csp_amounts r g0 g1 vals : csp_range_params r g0 g1 -> Forall (csp_amount (cpp_BitLength r)) vals -> Forall (fun v => 0 <= v < two64)%Z vals.
Proof.
  intros [_ _ _ _ [Hn _]] HF. eapply Forall_impl; [exact HF|]. intros v [[H0 H1] _]. split; [done|]. eapply Z.lt_le_trans; [exact H1|].
  change two64 with (2 ^ 64)%Z. apply Z.pow_le_mono_r; lia.
Qed.

Lemma csp_transfer_completeness Zr_Uint pp p0 p1 p2 r type ivals ovals ibfs obfs inputs outputs inW outW rand rand' envs envs' rands :
  csp_present pp p0 p1 p2 [] r -> csp_range_params r p1 p2 -> ivals <> [] ->
  GetTokensWithWitnessAndBF ivals ibfs type (zp_PedersenGenerators (cp_base pp)) = Ok (inputs, inW) ->
  GetTokensWithWitnessAndBF ovals obfs type (zp_PedersenGenerators (cp_base pp)) = Ok (outputs, outW) ->
  Forall (fun v => 0 <= v < two64)%Z ivals -> Forall (csp_amount (cpp_BitLength r)) ovals ->
  foldr Z.add 0%Z ivals = foldr Z.add 0%Z ovals -> Forall (fun v => Zr_Uint (NewZrFromUint64 v) = Ok v) ovals ->
  (forall i, env_ok (envs i)) -> (forall i, env_ok (envs' i)) -> (forall i, exists rand, rands i = Ok rand) ->
  exists p, NewCSPBasedProver Zr_Uint (Ok rand) (Some <$> inW) (Some <$> outW) inputs outputs pp = Ok p /\
    (csp_good_transfer p envs rands -> exists v raw, NewCSPVerifier (present_points inputs) (present_points outputs) pp = Ok v /\
       CSPBasedProver_Prove p envs rands (Ok rand') = Ok raw /\ (small raw -> CSPVerifier_Verify v envs' raw = Ok tt)).
Proof.
  intros Hpp Hr Hne Hin Hout Bi Bo Hs HU He He' Hrands. pose proof Hpp as [Hp _]. rewrite Hp in Hin, Hout.
  apply GetTokens_spec in Hin as (Li & -> & Hi). apply GetTokens_spec in Hout as (Lo & -> & Ho).
  rewrite (NewCSPBasedProver_spec _ _ _ _ _ _ _ _ _ _ _ _ _ _ _ Hpp Hne Li Lo HU). eexists. split; [done|].
  rewrite (NewCSPVerifier_spec _ _ _ _ _ _ _ _ Hpp). set (t := rand 0%nat).
  assert (honest (honest_ts (cp_base pp) type ivals ovals ibfs obfs inputs outputs p0 p2 t) p0 p1 p2 [] (NewZrFromUint64 <$> ivals) ibfs (NewZrFromUint64 <$> ovals) obfs) as Hh.
  { split; [done..|]. pose proof (csp_amounts _ _ _ _ Hr Bo) as Bo'. by rewrite !zsum_new, Hs. }
  pose proof (length_opens _ _ _ _ _ _ _ Hi) as [Ein _]. pose proof (length_opens _ _ _ _ _ _ _ Ho) as [Eout _]. rewrite length_fmap in Ein, Eout.
  unfold csp_good_transfer. cbn [csb_TypeAndSum csb_RangeCorrectness]. intros [Hf Hgood].
  destruct (ts_part_complete _ _ _ _ _ _ _ _ _ rand' Hh) as (ts & b & w & Hprove & Hser & Hnb & Hdes & Hval & Hown & Hcom & Hver).
  { cbn [honest_ts tsr_Inputs]. destruct inputs; [|done]. destruct ivals; done. } { done. }
  assert (forall l, length (present_points l) = length l) as Lp by (intros; apply length_fmap).
  rewrite !Lp, Ein, Eout. unfold CSPBasedProver_Prove. cbn [csb_TypeAndSum csb_RangeCorrectness]. unfold CSPVerifier_Verify.
  destruct (needs_range (length ivals) (length ovals)).
  - destruct (csp_part_complete r p1 p2 ovals ((fun bf => bf - t) <$> obfs) (relative (p0 ⋅ HashToZr type + p2 ⋅ t)%g1 outputs) envs envs' rands) as
      (cs & Hrp & Hfull & Hrval & Hrver); [done|by rewrite length_fmap|done|by apply relative_values|done|done|done|done|].
    destruct (CSPProof_read ts b w (Some cs) Hser Hnb Hdes) as (raw & Hraw & Hread); [by intros ? [= <-]|].
    eexists _, raw. split; [done|]. split; [rewrite Hrp; cbn [wrap mbind res_mbind]; rewrite Hprove; exact Hraw|].
    intros Hsm. rewrite (Hread Hsm). unfold CSPProof_Validate. cbn [default wrap mbind res_mbind fst snd csv_PedParams csv_Inputs csv_Outputs csv_RangeCorrectness from_option id].
    rewrite Hval, Hrval, Hown. cbn [err_join wrap mbind res_mbind]. rewrite Hcom.
    cbn [honest_ts tsr_PedParams tsr_Inputs tsr_Outputs tsr_CommitmentToType] in Hver |- *. rewrite Hver, points_present. exact Hrver.
  - destruct (CSPProof_read ts b w None Hser Hnb Hdes) as (raw & Hraw & Hread); [done|].
    eexists _, raw. split; [done|]. split; [cbn [mbind res_mbind]; rewrite Hprove; exact Hraw|].
    intros Hsm. rewrite (Hread Hsm). unfold CSPProof_Validate. cbn [default wrap mbind res_mbind fst snd csv_PedParams csv_Inputs csv_Outputs csv_RangeCorrectness from_option id].
    rewrite Hval, Hown. cbn [err_join wrap mbind res_mbind].
    cbn [honest_ts tsr_PedParams tsr_Inputs tsr_Outputs] in Hver. by rewrite Hver.
Qed.

(** *** Issues *)

Lemma NewCSPIssueProver_spec Zr_Uint rand pp p0 p1 p2 ps r type vals bfs tokens :
  csp_present pp p0 p1 p2 ps r -> vals <> [] -> length bfs = length vals -> Forall (fun v => Zr_Uint (NewZrFromUint64 v) = Ok v) vals ->
  let t := rand 0%nat in
  NewCSPIssueProver Zr_Uint (Ok rand) (Some <$> metadata type vals bfs) tokens pp
  = Ok {| cip_SameType := honest_st (cp_base pp) type p0 p2 t;
          cip_RangeCorrectness := csp_prover_at r (p1 :: p2 :: ps) (relative (p0 ⋅ HashToZr type + p2 ⋅ t)%g1 tokens) vals ((fun bf => bf - t) <$> bfs) |}.
Proof.
  intros [Hp Hr] Hne Hl HU t. unfold NewCSPIssueProver. rewrite length_fmap, length_metadata by done. destruct vals as [|v0 vals]; [done|]. destruct bfs as [|b0 bfs]; [done|].
  change (length (v0 :: vals) =? 0)%nat with false. cbv iota.
  change (index (Some <$> metadata type (v0 :: vals) (b0 :: bfs)) 0)
    with (Ok (Some {| mt_Type := type; mt_Value := Some (NewZrFromUint64 v0); mt_BlindingFactor := Some b0; mt_Issuer := [] |})).
  cbn [mbind res_mbind deref]. rewrite Hp. cbn [mbind res_mbind index lookup list_lookup mt_Type join_err]. fold t.
  rewrite (witness_loop (fun _ v bf => (v, bf - t)) (join_err _)) by done. cbn [mbind res_mbind].
  unfold csp_NewRangeCorrectnessProver, value_generators, honest_st, csp_prover_at. rewrite Hp, Hr.
  assert (forall ws : list (Z * Zr), ws = zip (v0 :: vals) ((fun bf => bf - t) <$> (b0 :: bfs)) ->
    ws.*1 = v0 :: vals /\ ws.*2 = (fun bf => bf - t) <$> (b0 :: bfs)) as Hz.
  { intros ws ->. split; [apply fst_zip|apply snd_zip]; rewrite length_fmap; lia. }
  match goal with |- context [zip_with ?f ?a ?b] => destruct (Hz (zip_with f a b)) as [-> ->] end; [|done].
  clear. generalize (v0 :: vals) as l, (b0 :: bfs) as k. unfold metadata. induction l as [|v l IH]; intros [|b k]; try done. cbn. f_equal. apply IH.
Qed.

Definition csp_good_issue (p : CSPIssueProver) (envs : nat -> lagrange_env) (rands : nat -> res (nat -> Zr)) : Prop :=
  finite (stp_CommitmentToType (cip_SameType p)) /\ csp_good_run (cip_RangeCorrectness p) envs rands.

Lemma CSPIssueProof_read st cs : Forall csp_full cs ->
  exists raw, CSPIssueProof_Serialize st (Some <$> cs) = Ok raw /\
    (small raw -> CSPIssueProof_Deserialize raw = Ok ({| wst_Type := Some (Own (st_Type st)); wst_BlindingFactor := Some (Own (st_BlindingFactor st));
       wst_Challenge := Some (Own (st_Challenge st)); wst_CommitmentToType := Some (Own (st_CommitmentToType st)) |}, send_range <$> cs)).
Proof.
  intros HF. destruct (SameType_read st) as (b & Hb & Nb & Rb). destruct (csp_RangeCorrectness_read cs HF) as (brc & Hrc & Nrc & Rrc).
  unfold CSPIssueProof_Serialize, CSPIssueProof_Deserialize, asn1_Unmarshal2. rewrite Hb, Hrc, (Marshal_all_spec _ [b; brc]) by repeat constructor.
  eexists. split; [reflexivity|]. intros Hs. rewrite asn1_values_read by done. apply small_octets in Hs. small_entries Hs. cbn [mbind res_mbind].
  rewrite (unmarshal_entry_read _ _ _ _ Nb (Rb Hsm)). cbn [mbind res_mbind]. by rewrite (unmarshal_entry_read _ _ _ _ Nrc (Rrc Hsm0)).
Qed.

Lemma csp_issue_completeness Zr_Uint pp p0 p1 p2 r type vals bfs tokens tw rand rand' envs envs' rands :
  csp_present pp p0 p1 p2 [] r -> csp_range_params r p1 p2 -> vals <> [] ->
  GetTokensWithWitnessAndBF vals bfs type (zp_PedersenGenerators (cp_base pp)) = Ok (tokens, tw) ->
  Forall (csp_amount (cpp_BitLength r)) vals -> Forall (fun v => Zr_Uint (NewZrFromUint64 v) = Ok v) vals ->
  (forall i, env_ok (envs i)) -> (forall i, env_ok (envs' i)) -> (forall i, exists rand, rands i = Ok rand) ->
  exists p, NewCSPIssueProver Zr_Uint (Ok rand) (Some <$> tw) tokens pp = Ok p /\
    (csp_good_issue p envs rands -> exists v raw, NewCSPIssueVerifier (present_points tokens) pp = Ok v /\
       CSPIssueProver_Prove p envs rands (Ok rand') = Ok raw /\ (small raw -> CSPIssueVerifier_Verify v envs' raw = Ok tt)).
Proof.
  intros Hpp Hr Hne Htok Bv HU He He' Hrands. pose proof Hpp as [Hp _]. rewrite Hp in Htok. apply GetTokens_spec in Htok as (Hl & -> & Ho).
  rewrite (NewCSPIssueProver_spec _ _ _ _ _ _ _ _ _ _ _ _ Hpp Hne Hl HU). eexists. split; [done|]. set (t := rand 0%nat).
  unfold csp_good_issue. cbn [cip_SameType cip_RangeCorrectness]. intros [Hf Hgood]. unfold NewCSPIssueVerifier. rewrite (csp_NewRangeCorrectnessVerifier_spec _ _ _ _ _ _ Hpp).
  destruct (SameType_completeness (honest_st (cp_base pp) type p0 p2 t) p0 p1 p2 [] rand') as (st & Hst & Hcom & Hver); [exact Hp|done|].
  destruct (csp_part_complete r p1 p2 vals ((fun bf => bf - t) <$> bfs) (relative (p0 ⋅ HashToZr type + p2 ⋅ t)%g1 tokens) envs envs' rands) as
    (cs & Hrp & Hfull & Hrval & Hrver); [done|by rewrite length_fmap|done|by apply relative_values|done|done|done|done|].
  destruct (CSPIssueProof_read st cs Hfull) as (raw & Hraw & Hread). eexists _, raw. split; [done|]. unfold CSPIssueProver_Prove. cbn [cip_SameType cip_RangeCorrectness].
  rewrite Hst, Hrp. split; [exact Hraw|]. intros Hsm. unfold CSPIssueVerifier_Verify. rewrite (Hread Hsm). cbn [join_err mbind res_mbind fst snd].
  unfold SameType_Validate. cbn [wst_Type wst_BlindingFactor wst_Challenge wst_CommitmentToType CheckBaseElement CheckElement]. rewrite Hcom.
  unfold finite in Hf. cbn [honest_st stp_CommitmentToType] in Hf |- *. rewrite Hf, Hrval. cbn [wrap join_err mbind res_mbind].
  unfold own_st. cbn [wst_Type wst_BlindingFactor wst_Challenge wst_CommitmentToType own_opt own deref mbind res_mbind civ_PedParams].
  assert (st = {| st_Type := st_Type st; st_BlindingFactor := st_BlindingFactor st; st_Challenge := st_Challenge st; st_CommitmentToType := (p0 ⋅ HashToZr type + p2 ⋅ t)%g1 |})
    as <- by (destruct st; cbn in Hcom |- *; by subst).
  change (zp_PedersenGenerators (cp_base pp)) with (stp_PedParams (honest_st (cp_base pp) type p0 p2 t)). rewrite Hver. cbn [join_err mbind res_mbind]. rewrite Hcom. cbn [civ_Tokens]. rewrite points_present. cbn [mbind res_mbind civ_RangeCorrectness].
  match goal with |- join_err _ ?x = _ => assert (x = Ok tt) as ->; [exact Hrver|done] end.
Qed.

End CspTransferComplete.
