(* ===== verification/CspClaims.v ===== *)
(** * Claims on the range proofs over the compressed sigma protocol

    The theorems on the second proof system of the zero-knowledge driver, with
    their instances on the curve of five elements. *)

From S2P Require Import Prelude GoStd Der Asn1 ZkMath ZkIpa ZkRange ZkSigma ZkCodec ZkTransfer ZkClaims Csp CspFold CspSound Lagrange LagrangeSpec LagrangeTree CspRange CspRangeSpec CspRangeSound CspRangeExtract CspTransfer.
From Stdlib Require Import ZArith Lia.

(** ** The laws hold on the small curve *)

Module SmallCsp.
Import F5 Small.

#[export] Instance csp_curve : CspCurve := {|
  GenG1 := f1; GroupOrder := 5; ModNeg := neg; ModAddMul3 a b c d e f := add (add (mul a b) (mul c d)) (mul e f);
  Zr_IsZero x := bool_decide (x = f0); Zr_IsOne x := bool_decide (x = f1) |}.

Lemma native_id x : NativeToZr x = x.
Proof. by destruct x. Qed.

#[export] Instance csp_laws : CspLaws.
Proof.
  split; try done.
  - intros k [H0 H1] _. cbn in H1. assert (k = 1 \/ k = 2 \/ k = 3 \/ k = 4)%Z as H by lia. by destruct H as [->|[->|[->| ->]]].
  - intros k [H0 H1] _. cbn in H1. assert (k = 0 \/ k = 1 \/ k = 2 \/ k = 3 \/ k = 4)%Z as H by lia. by destruct H as [->|[->|[->|[->| ->]]]].
  - intros x n H _. cbn in H. assert (n = 0 \/ n = 1 \/ n = 2 \/ n = 3 \/ n = 4)%nat as Hn by lia. by destruct Hn as [->|[->|[->|[->| ->]]]], x.
  - intros k _. apply native_id.
  - intros k _. rewrite native_id. change (of_Z (- k) = neg (of_Z k)). unfold neg.
    assert (forall a b, a `mod` 5 = b `mod` 5 -> of_Z a = of_Z b)%Z as He by (intros a b E; unfold of_Z; by rewrite E). apply He.
    assert (to_Z (of_Z k) = k `mod` 5)%Z as ->. { unfold of_Z. pose proof (Z.mod_pos_bound k 5 ltac:(lia)). repeat case_match; cbn; lia. }
    rewrite <- (Z.sub_0_l k), <- (Z.sub_0_l (k `mod` 5)). symmetry. apply Zminus_mod_idemp_r.
Qed.

(** Two bits: four commitments to the values of the polynomials each. *)
Definition crpp : CSPRangeProofParams :=
  {| cpp_LeftGenerators := [f1; f2; f3]; cpp_RightGenerators := [f4; f1; f2]; cpp_BitLength := 2; cpp_RPTranscriptHeader := str "csp" |}.
Definition cpp : csp_params := {| cp_base := Small.pp; cp_CSPRangeProofParams := Some crpp |}.
Definition env : lagrange_env := {| le_cache _ := None; le_cache' _ := None; le_pooled _ := [] |}.
Definition envs (i : nat) : lagrange_env := env.
Definition cstream (seed : Z) (i : nat) : F := of_Z ((seed * (Z.of_nat i * Z.of_nat i + 7)) / 3 + Z.of_nat i * seed).
Definition crands (i : nat) : res (nat -> F) := Ok (cstream (4 + Z.of_nat i)).

Lemma env_good : env_ok env.
Proof. by split. Qed.

Lemma crands_ok i : exists rand, crands i = Ok rand.
Proof. by eexists. Qed.

Lemma cparams : csp_present cpp f1 f2 f3 [] crpp.
Proof. done. Qed.

Lemma cparams_range : csp_range_params crpp f2 f3.
Proof. split; try done; [repeat constructor|]. split; cbn; lia. Qed.

(** Evaluates whether the tasks of a set meet no point at infinity. *)
Definition good_taskb (p : csp_RangeCorrectnessProver) (i : nat) : bool :=
  match (com ← index (ccp_Commitments p) i; value ← index (ccp_Values p) i; bf ← index (ccp_BlindingFactors p) i;
         csp_rangeProver_Prove (envs i) (csp_set_prover p com value bf) (crands i)) with
  | Ok proof => forallb (fun q => negb (G1_IsInfinity q)) (csp_points proof)
  | _ => false
  end.

Lemma eta_nonzero env p rand : range_eta env p rand <> Ok Zero.
Proof.
  unfold range_eta. destruct (deref (xr_VCommitment p)) as [com| |]; [|done..]. destruct (deref (xr_v p)) as [v| |]; [|done..]. destruct (deref (xr_r p)) as [r| |]; [|done..].
  cbn [mbind res_mbind]. destruct (range_first _ _ _ _ _ _) as [m| |]; [|done..]. cbn [mbind res_mbind]. unfold Squeeze. cbn [fst]. intros [= E]. by apply hash_nonzero in E.
Qed.

Lemma good_tasks p : forallb (good_taskb p) (seq 0 (length (ccp_Commitments p))) = true -> csp_good_run p envs crands.
Proof.
  intros H i com value bf rand Hc Hv Hb Hr. split; [apply eta_nonzero|]. intros proof Hp. rewrite forallb_forall in H. specialize (H i).
  rewrite <- list_elem_of_In, elem_of_seq in H. pose proof (lookup_lt_Some _ _ _ Hc) as Hi. specialize (H ltac:(lia)). unfold good_taskb in H.
  rewrite (index_Some _ _ _ Hc), (index_Some _ _ _ Hv), (index_Some _ _ _ Hb) in H. cbn [mbind res_mbind] in H. rewrite Hr, Hp in H. rewrite forallb_forall in H.
  apply Forall_forall. intros q Hq. by apply negb_true_iff, H, list_elem_of_In.
Qed.

Definition cprover : res CSPBasedProver := NewCSPBasedProver Zr_Uint (Ok (stream 1)) (Some <$> ins.2) (Some <$> outs.2) ins.1 outs.1 cpp.
Definition csent : res bytes := p ← cprover; CSPBasedProver_Prove p envs crands (Ok (stream 4)).
Definition cverified : res unit :=
  raw ← csent; v ← NewCSPVerifier (present_points ins.1) (present_points outs.1) cpp; CSPVerifier_Verify v envs raw.

Definition cgoodb (r : res CSPBasedProver) : bool :=
  match r with
  | Ok p => negb (G1_IsInfinity (tsr_CommitmentToType (csb_TypeAndSum p))) &&
            match csb_RangeCorrectness p with Some r => forallb (good_taskb r) (seq 0 (length (ccp_Commitments r))) | None => true end
  | _ => false
  end.

Lemma cprover_good p : cprover = Ok p -> csp_good_transfer p envs crands.
Proof.
  intros Hp. assert (cgoodb cprover = true) as H by (vm_compute; reflexivity). rewrite Hp in H. apply andb_true_iff in H as [H1 H2].
  split; [by apply negb_true_iff|]. destruct (csb_RangeCorrectness p); [by apply good_tasks|done].
Qed.

Lemma csent_small raw : csent = Ok raw -> small raw.
Proof.
  intros H. assert (smallb csent = true) as Hs by (vm_compute; reflexivity). rewrite H in Hs. by apply Z.ltb_lt.
Qed.

Definition cissuer : res CSPIssueProver := NewCSPIssueProver Zr_Uint (Ok (stream 1)) (Some <$> outs.2) outs.1 cpp.
Definition cissued : res bytes := p ← cissuer; CSPIssueProver_Prove p envs crands (Ok (stream 4)).
Definition cissue_goodb (r : res CSPIssueProver) : bool :=
  match r with
  | Ok p => negb (G1_IsInfinity (stp_CommitmentToType (cip_SameType p))) &&
            forallb (good_taskb (cip_RangeCorrectness p)) (seq 0 (length (ccp_Commitments (cip_RangeCorrectness p))))
  | _ => false
  end.

Lemma cissuer_good p : cissuer = Ok p -> csp_good_issue p envs crands.
Proof.
  intros Hp. assert (cissue_goodb cissuer = true) as H by (vm_compute; reflexivity). rewrite Hp in H. apply andb_true_iff in H as [H1 H2].
  split; [by apply negb_true_iff|by apply good_tasks].
Qed.

Lemma cissued_small raw : cissued = Ok raw -> small raw.
Proof.
  intros H. assert (smallb cissued = true) as Hs by (vm_compute; reflexivity). rewrite H in Hs. by apply Z.ltb_lt.
Qed.

(** A statement of one round and its proof. *)
Definition tiny_prover : csp_prover :=
  {| cp_Generators := [f1; f2]; cp_NumberOfRounds := 1; cp_Commitment := Some f3; cp_LinearForm := [f1; f4]; cp_Value := Some f4; cp_witness := [f2; f3];
     cp_realLen := 2; cp_TranscriptHeader := str "header" |}.
Definition tiny_proof : wcsp_Proof := match csp_Prove tiny_prover with
  | Ok p => send_csp p | _ => {| wcsp_Left := None; wcsp_Right := None; wcsp_VLeft := None; wcsp_VRight := None |} end.

(** Polynomials of degrees 2 and 4, the second with zeros at 1 and 2. *)
Definition square3 (x : F) : F := add (mul x x) f3.
Definition quartic (x : F) : F := mul (mul (sub x f1) (sub x f2)) (mul x x).
End SmallCsp.

(** ** A tree of runs on the small curve *)

Module SmallTree.
Import F5 Small SmallCsp.

(** The first three challenges at each message that meet no point at infinity and
    no form that folds to zero. *)
Fixpoint honest_tree (k : nat) (gens lf wit : list F) : option csp_tree :=
  match k with
  | O => match lf with [f] => if bool_decide (f = f0) then None else Some Leaf | _ => None end
  | S k =>
      let r := honest_round gens lf wit in
      if G1_IsInfinity (rd_Left r) || G1_IsInfinity (rd_Right r) then None else
      match omap (fun c => t ← honest_tree k (foldG c gens) (foldF c lf) (foldW c wit); Some (c, t)) [f0; f1; f2; f3; f4] with
      | (c1, t1) :: (c2, t2) :: (c3, t3) :: _ => Some (Node r c1 c2 c3 t1 t2 t3)
      | _ => None
      end
  end.

(** The bit 1, committed to under one generator per coefficient. *)
Definition rv1 : csp_rangeVerifier :=
  {| xv_VGenerators := [f2; f3]; xv_AGenerators := [f1; f2]; xv_BGenerators := [f3; f4]; xv_VCommitment := Some f4; xv_NumberOfBits := 1; xv_TranscriptHeader := str "csp" |}.
Definition bits1 : list F := [f2; f1].
Definition values1 : list F := [f2; f0].
Definition pExt1 : list F := bits1 ++ values1 ++ [f1; f4].
Definition pComm1 : F := msm ([f1; f2] ++ [f3; f4]) (bits1 ++ values1).

Section Prover1.
(** A challenge [eta], the vector that blinds the witness and two [rho]. *)
Context (eta : F) (blind : list F) (rho rho' : F).

Definition tree1 (c u gamma sEval : F) (sComm : F) (x : F) : csp_tree :=
  let v := statement_at rv1 f2 f3 f4 pComm1 eta c u gamma sComm sEval x in
  let wit := zip_with (fun p s => add p (mul x s)) pExt1 blind in
  default Leaf (honest_tree (cv_NumberOfRounds v) (cv_Generators v) (cv_LinearForm v) (wit ++ replicate (length (cv_Generators v) - length wit) f0)).

Definition branch1 (c u gamma : F) : csp_branch :=
  let sComm := msm ([f1; f2] ++ [f3; f4] ++ [mul f2 eta; mul f3 eta]) blind in
  let sEval := ip (buildLF 1 eta gamma (mu_of 1 c) (nu_of 1 c)) blind in
  {| br_gamma := gamma; br_sComm := sComm; br_sEval := sEval; br_rho := rho; br_tree := tree1 c u gamma sEval sComm rho;
     br_rho' := rho'; br_tree' := tree1 c u gamma sEval sComm rho' |}.

Definition node1 (c : F) : csp_node :=
  let u := ip bits1 (mu_of 1 c) in {| nd_c := c; nd_u := u; nd_branches := branch1 c u <$> [f1; f2; f3] |}.
End Prover1.

Definition nodes2 : list csp_node := node1 f2 [f0; f1; f0; f1; f0; f4] f3 f4 <$> [f0; f1; f4].
Definition nodes4 : list csp_node := node1 f4 [f0; f1; f1; f4; f4; f3] f1 f4 <$> [f0; f1; f2].

(** The proof with given messages; its proof of knowledge answers the challenge
    [pokE] with nonces 1 and 1. *)
Definition elements1 (pokE u : F) (sComm sEval : F) : csp_elements :=
  {| ce_pComm := pComm1; ce_pokA := f0; ce_pokZ := [add f1 (mul pokE f1); add f1 (mul pokE f4)]; ce_u := u; ce_sComm := sComm; ce_sEval := sEval |}.
Definition proof1 (e : csp_elements) (rs : list csp_round) : wcsp_RangeProof :=
  {| wx_pComm := Some (Own (ce_pComm e)); wx_pokA := Some (Own (ce_pokA e)); wx_pokZ := Some (Own <$> ce_pokZ e); wx_u := Some (Own (ce_u e)); wx_sComm := Some (Own (ce_sComm e));
     wx_sEval := Some (Own (ce_sEval e)); wx_cspProof := send_csp (proof_of_rounds rs) |}.

(** Evaluates the conditions on a tree. *)
Fixpoint forksb (k : nat) (t : csp_tree) : bool :=
  match k, t with
  | O, Leaf => true
  | S k, Node _ c1 c2 c3 t1 t2 t3 => bool_decide (c1 <> c2) && bool_decide (c1 <> c3) && bool_decide (c2 <> c3) && forksb k t1 && forksb k t2 && forksb k t3
  | _, _ => false
  end.

Lemma forksb_ok k : forall t, forksb k t = true -> forks k t.
Proof.
  induction k as [|k IH]; intros [|r c1 c2 c3 t1 t2 t3] H; try done. cbn [forksb] in H. rewrite !andb_true_iff, !bool_decide_eq_true in H.
  destruct H as (((((H1 & H2) & H3) & F1) & F2) & F3). cbn [forks]. split_and!; auto.
Qed.

Definition run_of (pokE eta c gamma x : F) : range_challenges := {| rc_pokE := pokE; rc_eta := eta; rc_c := c; rc_gamma := gamma; rc_rho := x |}.
Definition acceptedb (ch : range_challenges) (e : csp_elements) (rs : list (csp_round * F)) : bool :=
  is_ok (csp_rangeVerifier_VerifyWith (fun _ _ => ch) (fun _ _ _ _ => rs.*2) env rv1 (proof1 e rs.*1)).

Lemma acceptedb_ok ch e rs : acceptedb ch e rs = true -> accepted rv1 ch e rs.
Proof.
  intros H%is_ok_true. exists env, (proof1 e rs.*1). split_and!; [exact env_good| | |exact H].
  - unfold csp_elements_of, own_pointer, owns. cbn [proof1 wx_pComm wx_pokA wx_pokZ wx_u wx_sComm wx_sEval deref own mbind res_mbind default from_option id]. rewrite mapM_own. by destruct e.
  - unfold own_rounds, owns. cbn [proof1 wx_cspProof send_csp proof_of_rounds wcsp_Left wcsp_Right wcsp_VLeft wcsp_VRight csp_Left csp_Right csp_VLeft csp_VRight default from_option id]. rewrite !mapM_own. cbn [mbind res_mbind]. by rewrite rounds_of_rounds.
Qed.

Definition accepted_runsb (eta c u : F) (b : csp_branch) (x : F) (t : csp_tree) : bool :=
  forksb (padding 6).2 t && forallb (fun rs => acceptedb (run_of f1 eta c (br_gamma b) x) (elements1 f1 u (br_sComm b) (br_sEval b)) rs && negb (bool_decide (folded_form rv1 f2 f3 f4 pComm1 eta c u b x rs = f0))) (runs t).

Lemma accepted_runsb_ok eta c u b x t : accepted_runsb eta c u b x t = true -> accepted_runs rv1 pComm1 eta c u b x t /\ ~ Exists (fun rs => folded_form rv1 f2 f3 f4 pComm1 eta c u b x rs = f0) (runs t).
Proof.
  intros [Hf%forksb_ok H]%andb_true_iff. rewrite forallb_forall in H. split; [split; [exact Hf|]|].
  - apply Forall_forall. intros rs Hin%list_elem_of_In. apply H, andb_true_iff in Hin as [Ha%acceptedb_ok _]. eexists _, _. split; [exact Ha|done].
  - intros (rs & Hin%list_elem_of_In & E)%Exists_exists. apply H, andb_true_iff in Hin as [_ Hn]. rewrite bool_decide_true in Hn by exact E. done.
Qed.

Definition branch_okb (eta c u : F) (b : csp_branch) : bool :=
  bool_decide (br_rho b <> br_rho' b) && accepted_runsb eta c u b (br_rho b) (br_tree b) && accepted_runsb eta c u b (br_rho' b) (br_tree' b).
Definition node_okb (eta : F) (nd : csp_node) : bool :=
  bool_decide (NoDup (br_gamma <$> nd_branches nd)) && bool_decide (length (nd_branches nd) = 3%nat) && forallb (branch_okb eta (nd_c nd) (nd_u nd)) (nd_branches nd).
Definition nodes_okb (eta : F) (nds : list csp_node) : bool :=
  bool_decide (eta <> f0) && bool_decide (NoDup (nd_c <$> nds)) && bool_decide (length nds = 3%nat) && forallb (node_okb eta) nds.

Lemma branch_okb_ok eta c u b : branch_okb eta c u b = true -> accepted_branch rv1 pComm1 eta c u b /\ ~ degenerate_branch rv1 f2 f3 f4 pComm1 eta c u b.
Proof.
  unfold branch_okb. rewrite !andb_true_iff, bool_decide_eq_true. intros ((Hr & [H1 N1]%accepted_runsb_ok) & [H2 N2]%accepted_runsb_ok). split; [by split_and!|]. by intros [?|?].
Qed.

Lemma nodes_ok eta nds : nodes_okb eta nds = true -> accepted_tree rv1 pComm1 eta nds /\ ~ degenerate rv1 f2 f3 f4 pComm1 eta nds.
Proof.
  unfold nodes_okb. rewrite !andb_true_iff, !bool_decide_eq_true, forallb_forall. intros (((He & Hnd) & Hl) & H).
  assert (forall nd, nd ∈ nds -> NoDup (br_gamma <$> nd_branches nd) /\ length (nd_branches nd) = 3%nat /\ forall b, b ∈ nd_branches nd -> branch_okb eta (nd_c nd) (nd_u nd) b = true) as Hn.
  { intros nd Hin%list_elem_of_In. apply H in Hin. unfold node_okb in Hin. rewrite !andb_true_iff, !bool_decide_eq_true, forallb_forall in Hin. destruct Hin as ((? & ?) & Hb). split_and!; [done..|]. intros b ?%list_elem_of_In. by apply Hb. }
  split.
  - split_and!; [done..|]. apply Forall_forall. intros nd Hin. destruct (Hn nd Hin) as (? & ? & Hb). split_and!; [done..|]. apply Forall_forall. intros b Hbin. by apply branch_okb_ok, Hb.
  - intros [?|(nd & Hin & (b & Hbin & Hd)%Exists_exists)%Exists_exists]; [done|]. revert Hd. apply branch_okb_ok. by apply Hn.
Qed.

Lemma good2 : nodes_okb f2 nodes2 = true.
Proof. vm_compute. reflexivity. Qed.
Lemma good4 : nodes_okb f4 nodes4 = true.
Proof. vm_compute. reflexivity. Qed.

(** A run of the first tree, for two challenges of the proof of knowledge. *)
Definition leaf2 : list (csp_round * F) := default [] (b ← (nd ← head nodes2; head (nd_branches nd)); head (runs (br_tree b))).
Definition elements2 (pokE : F) : csp_elements :=
  match (nd ← head nodes2; b ← head (nd_branches nd); Some (nd, b)) with
  | Some (nd, b) => elements1 pokE (nd_u nd) (br_sComm b) (br_sEval b)
  | None => elements1 pokE f0 f0 f0
  end.

Lemma pok_accepted pokE : pokE = f1 \/ pokE = f2 -> accepted rv1 (run_of pokE f2 f0 f1 f3) (elements2 pokE) leaf2.
Proof. intros [->| ->]; apply acceptedb_ok; vm_compute; reflexivity. Qed.
End SmallTree.

(** ** The theorems *)

Section Claims.
Context {CO : Curve} {CL : CurveLaws} {NA : Native} {NL : NativeLaws} {WI : Wire} {WL : WireLaws} {CC : CspCurve} {CP : CspLaws}.
Local Open Scope zr_scope.

(** C11: The range proofs are special sound.  The verifier is the interactive
    verifier of the protocol with the challenges of its transcript.  Take two runs
    the interactive verifier accepts with the same first message and different
    challenges for the proof of knowledge of the value and, after one commitment
    [pComm], for each of two challenges [eta] a tree of accepted runs: [2 n + 1]
    challenges [c], three [gamma] after each answer [u], two [rho] after each
    blinding commitment and three challenges after each message of the compressed
    sigma protocol.  Then the answers give an opening of the commitment, and its
    value is in the range, unless the runs yield two different vectors with one
    commitment under the generators, or the tree has a degenerate run: [eta] is
    zero, or the challenges of the run fold the linear form to zero, which the
    verifier does not exclude.  The group order is assumed to exceed twice the
    number of bits. *)
Theorem csp_range_special_sound rv g0 g1 V : (2 * Z.of_nat (xv_NumberOfBits rv) < GroupOrder)%Z -> xv_VGenerators rv = [g0; g1] -> xv_VCommitment rv = Some V ->
  (forall env proof, csp_rangeVerifier_Verify env rv proof = csp_rangeVerifier_VerifyWith (transcript_challenges (xv_TranscriptHeader rv)) run_challenges env rv proof) /\
  (forall ch m rs ch' m' rs' pComm eta nds eta' nds',
    accepted rv ch m rs -> accepted rv ch' m' rs' -> ce_pokA m = ce_pokA m' -> rc_pokE ch <> rc_pokE ch' ->
    eta <> eta' -> accepted_tree rv pComm eta nds -> accepted_tree rv pComm eta' nds' ->
    exists v r, pok_extract (rc_pokE ch) (rc_pokE ch') (ce_pokZ m) (ce_pokZ m') = [v; r] /\ V = (g0 ⋅ v + g1 ⋅ r)%g1 /\
      ((exists value, (0 <= value < 2 ^ Z.of_nat (xv_NumberOfBits rv))%Z /\ v = NewZrFromUint64 value) \/
       (exists x y, x ∈ openings rv g0 g1 V pComm v r eta nds ++ openings rv g0 g1 V pComm v r eta' nds' /\
          y ∈ openings rv g0 g1 V pComm v r eta nds ++ openings rv g0 g1 V pComm v r eta' nds' /\
          x <> y /\ length x = length (base rv g0 g1) /\ length y = length (base rv g0 g1) /\ msm (base rv g0 g1) x = msm (base rv g0 g1) y) \/
       degenerate rv g0 g1 V pComm eta nds \/ degenerate rv g0 g1 V pComm eta' nds')).
Proof.
  intros Ho HG HV. split; [intros env proof; apply range_Verify_interactive|]. intros ch m rs ch' m' rs' pComm eta nds eta' nds' Ha Ha' HA Hne Het HT HT'.
  destruct (accepted_exact rv ch m rs Ho Ha) as (Hin & Hz & Hc). destruct (accepted_exact rv ch' m' rs' Ho Ha') as (_ & Hz' & Hc'). apply validateRangeVerifierInputs_Ok in Hin as (_ & Hn & _ & LA & LB).
  destruct (Hc g0 g1 V HG HV) as [Hp _]. destruct (Hc' g0 g1 V HG HV) as [Hp' _]. rewrite <- HA in Hp'. destruct (pok_sound g0 g1 V (ce_pokA m) _ _ _ _ Hne Hz Hz' Hp Hp') as (v & r & Hx & HVr).
  destruct (decide (degenerate rv g0 g1 V pComm eta nds)) as [D|D]; [exists v, r; split_and!; [done..|by do 2 right; left]|]. destruct (decide (degenerate rv g0 g1 V pComm eta' nds')) as [D'|D']; [exists v, r; split_and!; [done..|by do 3 right]|].
  assert (small_order (xv_NumberOfBits rv)) as Hso by done.
  destruct (range_extract rv g0 g1 V pComm Hso LA LB (ce_pokA m) _ _ _ _ eta nds eta' nds' Hne Hz Hz' Hp Hp' Het) as (v' & r' & Hx' & HVr' & [Hr|Hr]); [by apply accepted_tree_ok..| |]; exists v', r'; (split_and!; [done..|(by left) || (by right; left)]).
Qed.

(** C13: The second proof system is complete: for tokens the library created,
    with amounts of equal sum and outputs within the range, the prover of a
    transfer returns bytes and the verifier built from the same public data
    accepts them, whatever the caches of the two hold; likewise for issues.
    The exceptions are runs that meet a zero challenge or a point at infinity
    and encodings of 2 GiB. *)
Theorem csp_proofs_complete Zr_Uint pp p0 p1 p2 r type ivals ovals ibfs obfs inputs outputs inW outW rand rand' envs envs' rands :
  csp_present pp p0 p1 p2 [] r -> csp_range_params r p1 p2 -> ivals <> [] -> ovals <> [] ->
  GetTokensWithWitnessAndBF ivals ibfs type (zp_PedersenGenerators (cp_base pp)) = Ok (inputs, inW) ->
  GetTokensWithWitnessAndBF ovals obfs type (zp_PedersenGenerators (cp_base pp)) = Ok (outputs, outW) ->
  Forall (fun v => 0 <= v < two64)%Z ivals -> Forall (csp_amount (cpp_BitLength r)) ovals ->
  foldr Z.add 0%Z ivals = foldr Z.add 0%Z ovals -> Forall (fun v => Zr_Uint (NewZrFromUint64 v) = Ok v) ovals ->
  (forall i, env_ok (envs i)) -> (forall i, env_ok (envs' i)) -> (forall i, exists rand, rands i = Ok rand) ->
  (exists p, NewCSPBasedProver Zr_Uint (Ok rand) (Some <$> inW) (Some <$> outW) inputs outputs pp = Ok p /\
    (csp_good_transfer p envs rands -> exists v raw, NewCSPVerifier (present_points inputs) (present_points outputs) pp = Ok v /\
       CSPBasedProver_Prove p envs rands (Ok rand') = Ok raw /\ (small raw -> CSPVerifier_Verify v envs' raw = Ok tt))) /\
  (exists p, NewCSPIssueProver Zr_Uint (Ok rand) (Some <$> outW) outputs pp = Ok p /\
    (csp_good_issue p envs rands -> exists v raw, NewCSPIssueVerifier (present_points outputs) pp = Ok v /\
       CSPIssueProver_Prove p envs rands (Ok rand') = Ok raw /\ (small raw -> CSPIssueVerifier_Verify v envs' raw = Ok tt))).
Proof.
  intros Hpp Hr Hi Ho Hin Hout Bi Bo Hs HU He He' Hrands. split; [by apply (csp_transfer_completeness _ _ p0 p1 p2 r type ivals ovals ibfs obfs)|by apply (csp_issue_completeness _ _ p0 p1 p2 r type ovals obfs)].
Qed.

(** C16: No bytes make the verifiers of the second proof system panic, on tokens
    of the curve: a proof is decoded and validated before the verifiers compute
    with it, and the tree of products is never indexed out of its slab. *)
Theorem csp_verifiers_never_panic pp p0 p1 p2 ps r inputs outputs envs raw : csp_present pp p0 p1 p2 ps r ->
  (forall i, env_ok (envs i)) -> (2 * Z.of_nat (cpp_BitLength r) < GroupOrder)%Z ->
  (exists v, NewCSPVerifier (present_points inputs) (present_points outputs) pp = Ok v /\ CSPVerifier_Verify v envs raw <> Panic) /\
  (exists v, NewCSPIssueVerifier (present_points outputs) pp = Ok v /\ CSPIssueVerifier_Verify v envs raw <> Panic).
Proof. intros Hp He Ho. split; [by apply (CSPVerifier_no_panic _ p0 p1 p2 ps r)|by apply (CSPIssueVerifier_no_panic _ p0 p1 p2 ps r)]. Qed.

(** C15: The Lagrange routines are exact, in native arithmetic with the tree of
    products, the slab of the pool and the cached denominators, and in generic
    arithmetic: the multipliers evaluate every polynomial of degree [n] at the
    challenge from its values at [0, ..., n], interpolation returns its values
    up to [2 n], and the partial multipliers evaluate every polynomial of degree
    [2 n] that vanishes at [1, ..., n] from its other values.  The cache stays
    correct. *)
Theorem lagrange_routines_exact env n c f h : env_ok env -> (n <= 64)%nat -> distinct_below (2 * n + 1) -> polyf n f -> polyf (2 * n) h ->
  (forall i, (1 <= i <= n)%nat -> h (ones i) = Zero) ->
  (exists mu, getLagrangeMultipliers env n c = Ok mu /\ ip mu (at_ints f (seq 0 (S n))) = f c) /\
  interpolate env n (at_ints f (seq 0 (S n))) = at_ints f (seq 0 (2 * n + 1)) /\
  (exists nu, getLagrangeMultipliersPartial env n c = Ok nu /\ ip nu (at_ints h (relevant n)) = h c) /\
  (forall partial, cache_ok (getOrComputeDenomInvs (le_cache env) (le_cache' env) n partial).2).
Proof.
  intros He Hn Hd Hf Hh Hz. split_and!.
  - eexists. split; [by apply multipliers_spec|by apply multipliers_evaluate].
  - rewrite interpolate_spec; [by apply extended_values|done..|]. unfold at_ints. by rewrite length_fmap, length_seq.
  - eexists. split; [by apply partial_spec|by apply partial_evaluate].
  - intros partial. destruct He as [H H']. pose proof (getOrCompute_ok _ _ n partial H H') as E. destruct (getOrComputeDenomInvs _ _ _ _). apply E.
Qed.
End Claims.

(** ** The claims on the small curve *)

Section Witnesses.
Import F5 Small SmallCsp SmallTree.

(** The bit 1 is extracted. *)
Lemma csp_range_special_sound_witness : exists v r, pok_extract f1 f2 [add f1 f1; add f1 f4] [add f1 f2; add f1 f3] = [v; r] /\ f4 = add (mul f2 v) (mul f3 r) /\
  ((exists value, (0 <= value < 2)%Z /\ v = of_Z value) \/ exists x y, x <> y /\ msm (base rv1 f2 f3) x = msm (base rv1 f2 f3) y).
Proof.
  destruct (csp_range_special_sound (CO := curve) (CL := laws) (NA := native) (NL := native_laws) (WI := wire) (CC := csp_curve) (CP := csp_laws) rv1 f2 f3 f4) as [_ H]; [reflexivity|reflexivity|reflexivity|].
  destruct (nodes_ok f2 nodes2 good2) as [T2 N2]. destruct (nodes_ok f4 nodes4 good4) as [T4 N4].
  destruct (H (run_of f1 f2 f0 f1 f3) (elements2 f1) leaf2 (run_of f2 f2 f0 f1 f3) (elements2 f2) leaf2 pComm1 f2 nodes2 f4 nodes4) as (v & r & Hp & HV & Hd);
    [apply pok_accepted; by left|apply pok_accepted; by right|reflexivity|done|done|exact T2|exact T4|].
  exists v, r. split; [exact Hp|]. split; [exact HV|]. destruct Hd as [Hr|[(x & y & _ & _ & Hxy & _ & _ & E)|[D|D]]]; [left; exact Hr|right; by exists x, y|by destruct (N2 D)|by destruct (N4 D)].
Defined.

Lemma csp_proofs_complete_witness : cverified = Ok tt.
Proof.
  destruct (csp_proofs_complete (CO := curve) (CL := laws) (NA := native) (NL := native_laws) (WI := wire) (WL := wire_laws) (CC := csp_curve) (CP := csp_laws)
    Zr_Uint cpp f1 f2 f3 crpp (str "EUR") [2%Z; 1%Z] [3%Z] [f1; f4] [f2] ins.1 outs.1 ins.2 outs.2 (stream 1) (stream 4) envs envs crands)
    as ((p & Hp & H) & _); [exact cparams|exact cparams_range|done|done|reflexivity|reflexivity|repeat constructor; done..|intros; exact env_good|intros; exact env_good|apply crands_ok|].
  assert (cprover = Ok p) as Hp' by exact Hp. destruct (H (cprover_good p Hp')) as (v & raw & Hv & Hprove & Hver).
  assert (csent = Ok raw) as Hs. { unfold csent. rewrite Hp'. exact Hprove. }
  unfold cverified. rewrite Hs. cbn [mbind res_mbind]. rewrite Hv. exact (Hver (csent_small raw Hs)).
Defined.

Lemma csp_verifiers_never_panic_witness : exists v, NewCSPVerifier (present_points [f1]) (present_points [f2; f3]) cpp = Ok v /\ CSPVerifier_Verify v envs (str "no proof") <> Panic.
Proof.
  destruct (csp_verifiers_never_panic (CO := curve) (CL := laws) (NA := native) (NL := native_laws) (WI := wire) (WL := wire_laws) (CC := csp_curve) (CP := csp_laws)
    cpp f1 f2 f3 [] crpp [f1] [f2; f3] envs (str "no proof")) as [H _]; [exact cparams|intros; exact env_good|reflexivity|]. exact H.
Defined.

Lemma lagrange_routines_exact_witness : interpolate env 2 [f3; f4; f2] = [f3; f4; f2; f2; f4].
Proof.
  destruct (lagrange_routines_exact (CO := curve) (CL := laws) (NA := native) (NL := native_laws) (WI := wire) (CC := csp_curve) (CP := csp_laws)
    env 2 f4 square3 quartic) as (_ & H & _); [exact env_good|lia| | | | |exact H].
  - intros k Hk. assert (k = 1 \/ k = 2 \/ k = 3 \/ k = 4)%nat as Hc by lia. destruct Hc as [->|[->|[->| ->]]]; discriminate.
  - exists f3, (fun x => x). split; [|intros []; reflexivity]. exists f0, (fun _ => f1). split; [by exists f1|intros []; reflexivity].
  - exists f0, (fun x => mul (mul (sub x f1) (sub x f2)) x). split; [|intros []; reflexivity].
    exists f0, (fun x => mul (sub x f1) (sub x f2)). split; [|intros []; reflexivity]. exists f2, (fun x => sub x f3). split; [|intros []; reflexivity].
    exists f2, (fun _ => f1). split; [by exists f1|intros []; reflexivity].
  - intros i Hi. assert (i = 1 \/ i = 2)%nat as Hc by lia. destruct Hc as [-> | ->]; reflexivity.
Defined.

Lemma csp_verifier_exact_witness : exists com val rs, csp_run (csp_verifier_of tiny_prover) tiny_proof com val rs /\ rs <> [].
Proof.
  destruct (proj1 (csp_verifier_exact (CO := curve) (CL := laws) (NA := native) (WI := wire) (CC := csp_curve) (CP := csp_laws) (csp_verifier_of tiny_prover) tiny_proof))
    as (com & val & rs & H & Hn & _); [vm_compute; reflexivity|]. exists com, val, rs. split; [exact H|exact Hn].
Defined.
End Witnesses.
