(* ===== verification/FabtokenActions.v ===== *)
(** * Actions of the fabtoken driver (token/core/fabtoken/v1/actions/output.go,
      limits.go, issue.go, transfer.go, token/services/tokens/typed.go)

    Cleartext outputs, the issue and transfer actions, their protobuf form and
    their structural validation.  Parameters: the JSON encoding of a token. *)

From S2P Require Import Prelude Der TokenTypes Request Limits.
From Stdlib Require Import ZArith Lia.
Local Open Scope Z_scope.

Definition ErrTooManyInputs := EMsg "action exceeds maximum allowed number of inputs".
Definition ErrTooManyOutputs := EMsg "action exceeds maximum allowed number of outputs".
Definition ErrTooManyMetadataEntries := EMsg "action exceeds maximum allowed number of metadata entries".
Definition ErrMetadataKeyTooLarge := EMsg "action metadata key exceeds maximum allowed size".
Definition ErrMetadataValueTooLarge := EMsg "action metadata value exceeds maximum allowed size".

(** ** Outputs (output.go, services/tokens/typed.go) *)

(** [Output] is the cleartext token of token/token/token.go. *)
Abbreviation Output := Token.

Definition fabtoken_Type : Z := 1.

(** [asn1.Marshal] of a [TypedToken], a SEQUENCE of its INTEGER type and its
    OCTET STRING. *)
Definition TypedToken_Bytes (typ : Z) (tok : bytes) : bytes := EncodeIdentity typ tok.

Definition Output_IsRedeem (t : Output) : bool := zlen (Token_Owner t) =? 0.

Definition Output_Validate (checkOwner : bool) (t : Output) : res unit :=
  if checkOwner && (zlen (Token_Owner t) =? 0) then Err (EMsg "token owner cannot be empty")
  else if zlen (Token_Quantity t) =? 0 then Err (EMsg "token quantity cannot be empty")
  else if zlen (Token_Type t) =? 0 then Err (EMsg "token type cannot be empty")
  else Ok tt.

(** ** Metadata limits (limits.go) *)

Definition checkMetadataEntry (maxKeyBytes maxValueBytes : Z) (_ : nat) (kv : bytes * bytes) : res unit :=
  reject_if (zlen (fst kv) >? maxKeyBytes) (EWrap ErrMetadataKeyTooLarge "limit") ;;
  reject_if (zlen (snd kv) >? maxValueBytes) (EWrap ErrMetadataValueTooLarge "limit").

Definition checkMetadataLimits (metadata : gomap bytes) (maxEntries maxKeyBytes maxValueBytes : Z) : res unit :=
  reject_if (zlen metadata >? maxEntries) (EWrap ErrTooManyMetadataEntries "limit") ;;
  rangeR (checkMetadataEntry maxKeyBytes maxValueBytes) 0 metadata.

(** ** Actions *)

Record FTransferActionInput := mkFInput { FIn_ID : option ID; FIn_Input : option Output }.

Record FTransferAction := mkFTransferAction {
  FT_Inputs : list (option FTransferActionInput);
  FT_Outputs : list (option Output);
  FT_Metadata : gomap bytes;
  FT_Issuer : option bytes;
  FT_limits : option ResourceLimits;
}.

Record FIssueAction := mkFIssueAction {
  FI_Issuer : bytes;
  FI_Outputs : list (option Output);
  FI_Metadata : gomap bytes;
  FI_limits : option ResourceLimits;
}.

Definition effectiveLimits (limits : option ResourceLimits) : ResourceLimits :=
  match limits with None => DefaultResourceLimits | Some l => l end.

(** The generated protobuf messages. *)
Record PToken := mkPToken { PT_Owner : bytes; PT_Type : bytes; PT_Quantity : bytes }.
Record PTransferActionInput := mkPInput { PIn_TokenId : option ID; PIn_Input : option PToken }.
Record PTransferAction := mkPTransferAction {
  PTr_Version : Z;
  PTr_Inputs : list (option PTransferActionInput);
  PTr_Outputs : list (option (option PToken));
  PTr_Metadata : gomap bytes;
  PTr_Issuer : option bytes;
}.
Record PIssueAction := mkPIssueAction {
  PIs_Version : Z;
  PIs_Issuer : option bytes;
  PIs_Outputs : list (option (option PToken));
  PIs_Metadata : gomap bytes;
}.

Definition token_proto (t : Output) : PToken := mkPToken (Token_Owner t) (Token_Type t) (Token_Quantity t).
Definition proto_token (t : PToken) : Output := mkToken (PT_Owner t) (PT_Type t) (PT_Quantity t).

(** *** Transfer (transfer.go) *)

Definition FTransferActionInput_ToProtos (a : FTransferActionInput) : res PTransferActionInput :=
  Ok (mkPInput (FIn_ID a) (token_proto <$> FIn_Input a)).

Definition FTransferActionInput_FromProtos (input : PTransferActionInput) (a : FTransferActionInput)
    : res FTransferActionInput :=
  Ok (mkFInput (match PIn_TokenId input with Some id => Some id | None => FIn_ID a end)
               (match PIn_Input input with Some t => Some (proto_token t) | None => FIn_Input a end)).

(** The message [Serialize] hands to [proto.Marshal]. *)
Definition FTransferAction_ToProtos (t : FTransferAction) : res PTransferAction :=
  inputs ← wrap "failed to serialize inputs" (ToProtosSlice FTransferActionInput_ToProtos (FT_Inputs t));
  outputs ← wrap "failed to serialize outputs"
    (ToProtosSlice (fun output => Ok (Some (token_proto output))) (FT_Outputs t));
  Ok (mkPTransferAction ProtocolV1 inputs outputs (FT_Metadata t) (FT_Issuer t)).

Definition output_FromProtos (output : option (option PToken)) : option Output :=
  match output with
  | Some (Some t) => Some (proto_token t)
  | _ => None
  end.

(** [Deserialize] after [proto.Unmarshal], with the limits set before. *)
Definition FTransferAction_FromProtos (limits : option ResourceLimits) (action : PTransferAction)
    : res FTransferAction :=
  if negb (PTr_Version action =? ProtocolV1) then Err (EMsg "invalid issue version")
  else
    let l := effectiveLimits limits in
    reject_if (zlen (PTr_Inputs action) >? MaxInputs l) (EWrap ErrTooManyInputs "limit") ;;
    reject_if (zlen (PTr_Outputs action) >? MaxOutputs l) (EWrap ErrTooManyOutputs "limit") ;;
    checkMetadataLimits (PTr_Metadata action) (MaxMetadataEntries l) (MaxMetadataKeyBytes l) (MaxMetadataValueBytes l) ;;
    inputs ← wrap "failed unmarshalling receivers metadata"
      (FromProtosSlice FTransferActionInput_FromProtos (PTr_Inputs action)
         (replicate (length (PTr_Inputs action)) (mkFInput None None)));
    Ok (mkFTransferAction inputs (output_FromProtos <$> PTr_Outputs action) (PTr_Metadata action)
          (PTr_Issuer action) limits).

Definition FT_Validate_input (_ : nat) (inp : option FTransferActionInput) : res unit :=
  match inp with
  | None => Err (EMsg "invalid input at index, empty input")
  | Some i =>
      match FIn_ID i with
      | None => Err (EMsg "invalid input's ID at index, it is empty")
      | Some id =>
          if zlen (TxId id) =? 0 then Err (EMsg "invalid input's ID at index, tx id is empty")
          else match FIn_Input i with
               | None => Err (EMsg "invalid input's token at index, empty token")
               | Some t => wrap "invalid input token at index" (Output_Validate true t)
               end
      end
  end.

(** The same loop body in both actions, up to the message for a nil output. *)
Definition Validate_output (nil_msg : string) (_ : nat) (out : option Output) : res unit :=
  match out with
  | None => Err (EMsg nil_msg)
  | Some o =>
      if zlen (Token_Type o) =? 0 then Err (EMsg "invalid output's type at index, output type is empty")
      else if zlen (Token_Quantity o) =? 0 then Err (EMsg "invalid output's quantity at index, output quantity is empty")
      else Ok tt
  end.

Definition FTransferAction_Validate (t : FTransferAction) : res unit :=
  reject_if (zlen (FT_Inputs t) =? 0) (EMsg "invalid number of token inputs, expected at least 1") ;;
  let l := effectiveLimits (FT_limits t) in
  reject_if (zlen (FT_Inputs t) >? MaxInputs l) (EWrap ErrTooManyInputs "limit") ;;
  rangeR FT_Validate_input 0 (FT_Inputs t) ;;
  reject_if (zlen (FT_Outputs t) >? MaxOutputs l) (EWrap ErrTooManyOutputs "limit") ;;
  rangeR (Validate_output "invalid output at index, empty output") 0 (FT_Outputs t) ;;
  checkMetadataLimits (FT_Metadata t) (MaxMetadataEntries l) (MaxMetadataKeyBytes l) (MaxMetadataValueBytes l).

(** *** Issue (issue.go) *)

Definition FIssueAction_ToProtos (i : FIssueAction) : res PIssueAction :=
  outputs ← wrap "failed to serialize outputs"
    (ToProtosSlice (fun output => Ok (Some (token_proto output))) (FI_Outputs i));
  Ok (mkPIssueAction ProtocolV1 (Some (FI_Issuer i)) outputs (FI_Metadata i)).

Definition FIssueAction_FromProtos (limits : option ResourceLimits) (action : PIssueAction) : res FIssueAction :=
  if negb (PIs_Version action =? ProtocolV1) then Err (EMsg "invalid issue version")
  else
    let l := effectiveLimits limits in
    reject_if (zlen (PIs_Outputs action) >? MaxOutputs l) (EWrap ErrTooManyOutputs "limit") ;;
    checkMetadataLimits (PIs_Metadata action) (MaxMetadataEntries l) (MaxMetadataKeyBytes l) (MaxMetadataValueBytes l) ;;
    Ok (mkFIssueAction (match PIs_Issuer action with Some raw => raw | None => [] end)
          (output_FromProtos <$> PIs_Outputs action) (PIs_Metadata action) limits).

Definition FIssueAction_Validate `{!IdentityOps} (i : FIssueAction) : res unit :=
  reject_if (Identity_IsNone (FI_Issuer i)) (EMsg "issuer is not set") ;;
  reject_if (zlen (FI_Outputs i) =? 0) (EMsg "no outputs in issue action") ;;
  let l := effectiveLimits (FI_limits i) in
  reject_if (zlen (FI_Outputs i) >? MaxOutputs l) (EWrap ErrTooManyOutputs "limit") ;;
  rangeR (Validate_output "nil output in issue action") 0 (FI_Outputs i) ;;
  checkMetadataLimits (FI_Metadata i) (MaxMetadataEntries l) (MaxMetadataKeyBytes l) (MaxMetadataValueBytes l).

(** *** What the translator reads off an action *)

Section Accessors.
(** [json.Marshal] of a token; of a nil pointer it is the text null. *)
Context (json_Token : option Output -> res bytes).

Definition Output_Serialize (t : option Output) : res bytes :=
  raw ← wrap "failed serializing token" (json_Token t);
  Ok (TypedToken_Bytes fabtoken_Type raw).

Definition SerializeOutputs (nil_msg err_msg : string) (outputs : list (option Output)) : res (list bytes) :=
  mapM (fun output => match output with
                      | None => Err (EMsg nil_msg)
                      | Some o => replace_err err_msg (Output_Serialize (Some o))
                      end) outputs.

Definition FT_GetSerializedOutputs (t : FTransferAction) : res (list bytes) :=
  SerializeOutputs "cannot serialize transfer action outputs: nil output" "failed to serialize output in transfer action"
    (FT_Outputs t).

Definition FI_GetSerializedOutputs (i : FIssueAction) : res (list bytes) :=
  SerializeOutputs "cannot serialize issue action outputs: nil output" "failed to serialize output in issue action"
    (FI_Outputs i).

Definition FT_IsRedeemAt (t : FTransferAction) (index : nat) : res bool :=
  match FT_Outputs t !! index with
  | Some (Some o) => Ok (Output_IsRedeem o)
  | _ => Panic
  end.

Definition FT_SerializeOutputAt (t : FTransferAction) (index : nat) : res bytes :=
  match FT_Outputs t !! index with
  | None => Err (EMsg "failed to serialize output in transfer action: it does not exist")
  | Some None => Err (EMsg "failed to serialize output in transfer action: nil output")
  | Some (Some o) => Output_Serialize (Some o)
  end.

Definition FT_GetInputs (t : FTransferAction) : res (list (option ID)) :=
  mapM (fun input => match input with None => Panic | Some i => Ok (FIn_ID i) end) (FT_Inputs t).

Definition FT_GetSerializedInputs (t : FTransferAction) : res (list bytes) :=
  mapM (fun input => match input with None => Ok [] | Some i => Output_Serialize (FIn_Input i) end) (FT_Inputs t).
End Accessors.
