(* ===== verification/FabtokenValidator.v ===== *)
(** * Validation of fabtoken requests (token/core/fabtoken/v1/validator/validator.go,
      validator_transfer.go, validator_issue.go)

    The validation functions of the cleartext driver, plugged into the
    pipeline of Validator.v.  Parameters: the deserializer of owners, issuers
    and auditors into verifiers, the clock, the registry of hash functions and
    the JSON and protobuf decoders. *)

From S2P Require Import Prelude Quantity Der TokenTypes Request Limits Validator Htlc FabtokenActions.
From Stdlib Require Import ZArith Lia.
Local Open Scope Z_scope.

Definition ErrIssuerNotAuthorized := EMsg "issuer is not authorized".

(** The public parameters the validators read. *)
Record FabtokenPP := mkFabtokenPP {
  QuantityPrecision : Z;
  PP_Issuers : list bytes;
  PP_Auditors : list bytes;
}.

Section Fabtoken.
Context `{IO : !IdentityOps} (PP : FabtokenPP).
Context (GetOwnerVerifier GetIssuerVerifier GetAuditorVerifier : bytes -> res (option verifier)).
Context (now : Z) (crypto_Hash : Z -> option (bytes -> bytes)).
Context (json_ClaimSignature_strict : bytes -> res ClaimSignature) (json_Script : bytes -> res Script).

Abbreviation FCtx := (Ctx Output).
Abbreviation F := (M FCtx).

(** ** Deserialization (validator.go) *)

Section Deserialize.
Context (proto_IssueAction : bytes -> res PIssueAction) (proto_TransferAction : bytes -> res PTransferAction).

Definition FIssueAction_Deserialize (limits : ResourceLimits) (raw : bytes) : res FIssueAction :=
  p ← wrap "failed to deserialize issue action" (proto_IssueAction raw);
  FIssueAction_FromProtos (Some limits) p.

Definition FTransferAction_Deserialize (limits : ResourceLimits) (raw : bytes) : res FTransferAction :=
  p ← wrap "failed to deserialize issue action" (proto_TransferAction raw);
  FTransferAction_FromProtos (Some limits) p.

Definition FDeserializeActions (limits : ResourceLimits) (tr : TokenRequest)
    : res (list (option FIssueAction) * list (option FTransferAction)) :=
  issues ← GetIssues tr;
  issueActions ← mapM (FIssueAction_Deserialize limits) issues;
  transfers ← GetTransfers tr;
  transferActions ← mapM (FTransferAction_Deserialize limits) transfers;
  Ok (Some <$> issueActions, Some <$> transferActions).
End Deserialize.

(** ** Transfer (validator_transfer.go) *)

Definition TransferActionValidate (_ : bytes) (_ : TokenRequest) (action : FTransferAction) : F unit :=
  lift (FTransferAction_Validate action).

Definition appendSignature (sigma : bytes) : F unit :=
  modifyS (fun c => mkCtx (SignatureProvider c) (ctx_Signatures c ++ [sigma]) (InputTokens c) (MetadataCounter c)).

Definition setInputTokens (toks : list (option Output)) : F unit :=
  modifyS (fun c => mkCtx (SignatureProvider c) (ctx_Signatures c) toks (MetadataCounter c)).

(** The loop over the inputs; the cache maps an owner to its verifier. *)
Fixpoint verifyInputs (cache : gomap (option verifier)) (inputs : list (option FTransferActionInput))
    : F (list (option Output)) :=
  match inputs with
  | [] => mret []
  | None :: _ => lift (Err (EMsg "invalid input at index: nil input or nil token"))
  | Some inp :: l =>
      match FIn_Input inp with
      | None => lift (Err (EMsg "invalid input at index: nil input or nil token"))
      | Some tok =>
          let owner := Token_Owner tok in
          '(ver, cache') ←
            match gomap_get cache owner with
            | Some ver => mret (ver, cache)
            | None =>
                ver ← wrapM "failed deserializing owner" (lift (GetOwnerVerifier owner));
                mret (ver, (owner, ver) :: cache)
            end;
          require_provider ;;
          sigma ← wrapM "failed signature verification" (HasBeenSignedBy ver);
          appendSignature sigma ;;
          rest ← verifyInputs cache' l;
          mret (Some tok :: rest)
      end
  end.

(** The search for a redeem output; a nil output before one is an error. *)
Fixpoint findRedeem (outputs : list (option Output)) : res bool :=
  match outputs with
  | [] => Ok false
  | None :: _ => Err (EMsg "invalid output at index")
  | Some o :: l => if Output_IsRedeem o then Ok true else findRedeem l
  end.

Definition verifyRedeemIssuer (action : FTransferAction) : F unit :=
  match FT_Issuer action with
  | None => lift (Err (EMsg "On Redeem action, must have at least one issuer"))
  | Some issuer =>
      if negb (zlen (PP_Issuers PP) =? 0) && negb (existsb (Identity_Equal issuer) (PP_Issuers PP))
      then lift (Err ErrIssuerNotAuthorized)
      else
        issuerVerifier ← wrapM "failed deserializing issuer" (lift (GetIssuerVerifier issuer));
        sigma ← wrapM "failed signature verification" (HasBeenSignedBy issuerVerifier);
        appendSignature sigma
  end.

Definition TransferSignatureValidate (_ : bytes) (_ : TokenRequest) (action : FTransferAction) : F unit :=
  lift (reject_if (zlen (FT_Inputs action) =? 0) (EMsg "invalid number of token inputs, expected at least 1")) ;;
  inputToken ← verifyInputs [] (FT_Inputs action);
  (if zlen (PP_Issuers PP) >? 0 then
     isRedeem ← lift (findRedeem (FT_Outputs action));
     if isRedeem : bool then verifyRedeemIssuer action else mret tt
   else mret tt) ;;
  setInputTokens inputToken.

(** The sum of a list of tokens, all of type [typ]. *)
Fixpoint sumTokens (parse_msg add_msg nil_msg type_msg : string) (typ : bytes)
    (sum : Quantity) (toks : list (option Output)) : res Quantity :=
  match toks with
  | [] => Ok sum
  | None :: _ => Err (EMsg nil_msg)
  | Some t :: l =>
      q ← wrap parse_msg (ToQuantity (Token_Quantity t) (QuantityPrecision PP));
      sum' ← wrap add_msg (Add sum q);
      if negb (bool_decide (Token_Type t = typ)) then Err (EMsg type_msg)
      else sumTokens parse_msg add_msg nil_msg type_msg typ sum' l
  end.

Definition TransferBalanceValidate (_ : bytes) (_ : TokenRequest) (action : FTransferAction) : F unit :=
  lift (reject_if (zlen (FT_Outputs action) =? 0) (EMsg "there is no output")) ;;
  c ← getS;
  match InputTokens c with
  | [] => lift (Err (EMsg "there is no input"))
  | None :: _ => lift (Err (EMsg "first input is nil"))
  | Some first :: _ =>
      let typ := Token_Type first in
      let zero := NewZeroQuantity (QuantityPrecision PP) in
      inputSum ← lift (sumTokens "failed parsing quantity" "failed adding input quantity" "input is nil"
                         "input type does not match type" typ zero (InputTokens c));
      outputSum ← lift (sumTokens "failed parsing quantity" "failed adding output quantity" "invalid output at index"
                          "output type does not match type" typ zero (FT_Outputs action));
      cmp ← lift (Cmp inputSum outputSum);
      lift (reject_if (negb (cmp =? 0)) (EMsg "input sum does not match output sum"))
  end.

(** The checks on one input; [nInputs] and [outputs] are those of the whole
    action. *)
Definition htlcInput (action : FTransferAction) (nInputs : nat) (i : nat) (inp : option Output) : F unit :=
  match inp with
  | None => lift (Err (EMsg "nil input token at index"))
  | Some tin =>
      owner ← wrapM "failed to unmarshal owner of input token" (lift (UnmarshalTypedIdentity (Token_Owner tin)));
      if TI_Type owner =? ScriptType then
        match FT_Outputs action with
        | [out] =>
            if negb (nInputs =? 1)%nat
            then lift (Err (EMsg "invalid transfer action: an htlc script only transfers the ownership of a token"))
            else
            match out with
            | None => lift (Err (EMsg "invalid transfer action: output has unexpected type"))
            | Some tok =>
                if negb (bool_decide (Token_Type tin = Token_Type tok))
                then lift (Err (EMsg "invalid transfer action: type of input does not match type of output"))
                else if negb (bool_decide (Token_Quantity tin = Token_Quantity tok))
                then lift (Err (EMsg "invalid transfer action: quantity of input does not match quantity of output"))
                else if Output_IsRedeem tok
                then lift (Err (EMsg "invalid transfer action: the output corresponding to an htlc spending should not be a redeem"))
                else
                  '(script, op) ← wrapM "failed to verify transfer from htlc script"
                    (lift (VerifyOwner json_Script (Token_Owner tin) (Token_Owner tok) now));
                  c ← getS;
                  match ctx_Signatures c !! i with
                  | None => lift (Err (EMsg "missing signature for input at index"))
                  | Some sigma =>
                      metadataKey ← wrapM "failed to check htlc metadata"
                        (lift (MetadataClaimKeyCheck crypto_Hash json_ClaimSignature_strict (FT_Metadata action) script op sigma));
                      if negb (bool_decide (op = OpReclaim)) then CountMetadataKey metadataKey else mret tt
                  end
            end
        | _ => lift (Err (EMsg "invalid transfer action: an htlc script only transfers the ownership of a token"))
        end
      else mret tt
  end.

Definition htlcOutput (action : FTransferAction) (_ : nat) (o : option Output) : F unit :=
  match o with
  | None => lift (Err (EMsg "invalid output at index"))
  | Some out =>
      if Output_IsRedeem out then mret tt
      else
        owner ← lift (UnmarshalTypedIdentity (Token_Owner out));
        if TI_Type owner =? ScriptType then
          script ← lift (json_Script (TI_Identity owner));
          wrapM "htlc script invalid" (lift (Script_Validate crypto_Hash script now)) ;;
          metadataKey ← wrapM "failed to check htlc metadata" (lift (MetadataLockKeyCheck (FT_Metadata action) script));
          CountMetadataKey metadataKey
        else mret tt
  end.

Definition TransferHTLCValidate (_ : bytes) (_ : TokenRequest) (action : FTransferAction) : F unit :=
  c ← getS;
  rangeM (htlcInput action (length (InputTokens c))) 0 (InputTokens c) ;;
  rangeM (htlcOutput action) 0 (FT_Outputs action).

Definition TransferApplicationDataValidate (_ : bytes) (_ : TokenRequest) (action : FTransferAction) : F unit :=
  ApplicationDataValidate (FT_Metadata action).

(** ** Issue (validator_issue.go) *)

Definition issueOutput (_ : nat) (output : option Output) : res unit :=
  match output with
  | None => Panic
  | Some out =>
      q ← wrap "failed parsing quantity" (ToQuantity (Token_Quantity out) (QuantityPrecision PP));
      cmp ← Cmp q (NewZeroQuantity (QuantityPrecision PP));
      reject_if (cmp =? 0) (EMsg "quantity is zero")
  end.

Definition IssueValidate (_ : bytes) (_ : TokenRequest) (action : FIssueAction) : F unit :=
  wrapM "failed validating issue action" (lift (FIssueAction_Validate action)) ;;
  lift (reject_if (zlen (FI_Outputs action) =? 0) (EMsg "there is no output")) ;;
  lift (rangeR issueOutput 0 (FI_Outputs action)) ;;
  (if negb (zlen (PP_Issuers PP) =? 0) && negb (existsb (Identity_Equal (FI_Issuer action)) (PP_Issuers PP))
   then lift (Err ErrIssuerNotAuthorized) else mret tt) ;;
  ver ← wrapM "failed getting verifier for issuer identity" (lift (GetIssuerVerifier (FI_Issuer action)));
  require_provider ;;
  wrapM "failed verifying signature" (HasBeenSignedBy ver) ;;
  mret tt.

Definition IssueApplicationDataValidate (_ : bytes) (_ : TokenRequest) (action : FIssueAction) : F unit :=
  ApplicationDataValidate (FI_Metadata action).

(** ** The validator, without extra validation functions (validator.go) *)

Definition FabtokenNewValidator (limits : ResourceLimits) (minVersion : Z)
    (proto_IssueAction : bytes -> res PIssueAction) (proto_TransferAction : bytes -> res PTransferAction)
    : Validator (TA := FTransferAction) (IA := FIssueAction) (Tok := Output) := {|
  AuditingValidators := [AuditingSignaturesValidate (PP_Auditors PP) GetAuditorVerifier];
  TransferValidators := [TransferActionValidate; TransferSignatureValidate; TransferBalanceValidate;
                         TransferHTLCValidate; TransferApplicationDataValidate];
  IssueValidators := [IssueValidate; IssueApplicationDataValidate];
  DeserializeActions := Some (FDeserializeActions proto_IssueAction proto_TransferAction limits);
  Limits := limits;
  MinProtocolVersion := minVersion;
|}.
End Fabtoken.

(** ** Lemmas: balance *)

Definition token_value (p : Z) (t : Output) : Z := default 0 (parsed p (Token_Quantity t)).

(** A well-formed list of tokens of one type. *)
Definition tokens_of (p : Z) (typ : bytes) (toks : list Output) : Prop :=
  Forall (fun t => Token_Type t = typ /\ is_Some (parsed p (Token_Quantity t))) toks.

Lemma sumTokens_Ok PP m1 m2 m3 m4 typ toks : 0 < QuantityPrecision PP < two63 -> forall acc q,
  0 <= acc < 2 ^ QuantityPrecision PP ->
  sumTokens PP m1 m2 m3 m4 typ (mkQuantity (QuantityPrecision PP) acc) toks = Ok q ->
  exists ts, toks = Some <$> ts /\ tokens_of (QuantityPrecision PP) typ ts /\
    let total := acc + Zsum (token_value (QuantityPrecision PP) <$> ts) in
    q = mkQuantity (QuantityPrecision PP) total /\ 0 <= total < 2 ^ QuantityPrecision PP.
Proof.
  intros Hp. set (p := QuantityPrecision PP) in *.
  induction toks as [|[t|] toks IH]; intros acc q Ha; cbn [sumTokens]; [| |done].
  - intros [= <-]. exists []. split; [done|]. split; [apply Forall_nil_2|]. cbn. by rewrite Z.add_0_r.
  - fold p. intros (x & Hx%wrap_Ok & (s & Hs%wrap_Ok & H)%res_bind_Ok)%res_bind_Ok.
    destruct (bool_decide (Token_Type t = typ)) eqn:Ht; [|done]. apply bool_decide_eq_true in Ht. cbn [negb] in H.
    apply ToQuantity_inv in Hx as (v & Hv & Hr & ->); [|done].
    apply (Add_Ok_iff p) in Hs as (Hwf & Hsr & Hval & Hlt);
      [|by apply wf_mkQuantity|by apply wf_mkQuantity|apply same_repr_mkQuantity].
    rewrite !value_mkQuantity in Hval, Hlt.
    assert (s = mkQuantity p (acc + v)) as ->.
    { unfold mkQuantity in *. destruct (p =? 64), s; cbn in *; destruct_and?; simplify_eq; done. }
    apply IH in H as (ts & -> & Hts & Hq & Htot); [|lia].
    assert (Hpv : parsed p (Token_Quantity t) = Some v) by (by apply parsed_Some).
    exists (t :: ts). split; [done|]. split; [apply Forall_cons_2; [by rewrite Hpv|done]|].
    assert (token_value p t = v) as Htv by (unfold token_value; by rewrite Hpv).
    cbn [fmap list_fmap Zsum foldr]. rewrite Htv, Z.add_assoc. done.
Qed.

Lemma TransferBalance_Ok PP anchor tr action (c c' : Ctx Output) u : 0 < QuantityPrecision PP < two63 ->
  TransferBalanceValidate PP anchor tr action c = (Ok u, c') ->
  c' = c /\ exists typ ins outs, InputTokens c = Some <$> ins /\ FT_Outputs action = Some <$> outs /\
    ins <> [] /\ outs <> [] /\
    tokens_of (QuantityPrecision PP) typ ins /\ tokens_of (QuantityPrecision PP) typ outs /\
    Zsum (token_value (QuantityPrecision PP) <$> ins) = Zsum (token_value (QuantityPrecision PP) <$> outs).
Proof.
  intros Hp. unfold TransferBalanceValidate. set (p := QuantityPrecision PP) in *.
  intros ([] & c1 & [Hne%reject_if_Ok ->]%lift_Ok & H)%M_bind_Ok.
  apply M_bind_Ok in H as (c1 & c2 & [= <- <-] & H).
  destruct (InputTokens c) as [|[first|] rest] eqn:Hin; [done| |done].
  cbv zeta in H. apply M_bind_Ok in H as (si & c1 & [Hsi ->]%lift_Ok & H).
  apply M_bind_Ok in H as (so & c1 & [Hso ->]%lift_Ok & H).
  apply M_bind_Ok in H as (cmp & c1 & [Hcmp ->]%lift_Ok & [Hz%reject_if_Ok ->]%lift_Ok). split; [done|].
  fold p in Hsi, Hso. change (NewZeroQuantity p) with (mkQuantity p 0) in Hsi, Hso.
  assert (H0 : 0 <= 0 < 2 ^ p) by (split; [lia|apply Z.pow_pos_nonneg; lia]).
  apply sumTokens_Ok in Hsi as (ins & Eins & Tins & -> & Ri); [|done..].
  apply sumTokens_Ok in Hso as (outs & Eouts & Touts & -> & Ro); [|done..].
  rewrite (Cmp_sgn p p) in Hcmp by (by apply wf_mkQuantity). injection Hcmp as <-.
  rewrite !value_mkQuantity in Hz. apply negb_false_iff, Z.eqb_eq, Z.sgn_null_iff in Hz.
  subst p. exists (Token_Type first), ins, outs. split_and!; try done; [|intros ->; by rewrite Eouts in Hne|lia].
  intros ->. done.
Qed.

(** ** Lemmas: signatures *)

Section SignatureLemmas.
Context `{IO : !IdentityOps} (PP : FabtokenPP).
Context (GetOwnerVerifier GetIssuerVerifier : bytes -> res (option verifier)).

Definition cache_ok (cache : gomap (option verifier)) : Prop :=
  forall o ver, gomap_get cache o = Some ver -> GetOwnerVerifier o = Ok ver.

(** The token an input carries. *)
Definition input_token (inp : option FTransferActionInput) (tok : Output) : Prop :=
  exists i, inp = Some i /\ FIn_Input i = Some tok.

Definition owner_verifier (tok : Output) (ver : verifier) : Prop :=
  GetOwnerVerifier (Token_Owner tok) = Ok (Some ver).

Lemma cached_verifier cache tok (c : Ctx Output) ver cache' c1 : cache_ok cache ->
  (match gomap_get cache (Token_Owner tok) with
   | Some ver => mret (ver, cache)
   | None => ver ← wrapM "failed deserializing owner" (lift (GetOwnerVerifier (Token_Owner tok)));
             mret (ver, (Token_Owner tok, ver) :: cache)
   end : M (Ctx Output) (option verifier * gomap (option verifier))) c = (Ok (ver, cache'), c1) ->
  c1 = c /\ GetOwnerVerifier (Token_Owner tok) = Ok ver /\ cache_ok cache'.
Proof.
  intros Hc. destruct (gomap_get cache (Token_Owner tok)) as [v|] eqn:Hg.
  - intros [[= -> ->] ->]%M_ret_Ok. split_and!; [done|by apply Hc|done].
  - intros (v & c2 & [Hv ->]%wrapM_Ok%lift_Ok & [[= -> ->] ->]%M_ret_Ok)%M_bind_Ok.
    split_and!; [done|done|]. intros o w. cbn. case_decide as Hd; [|apply Hc]. intros [= <-]. by subst.
Qed.

Lemma verifyInputs_Ok inputs : forall cache (c c' : Ctx Output) toks, cache_ok cache ->
  verifyInputs GetOwnerVerifier cache inputs c = (Ok toks, c') ->
  exists ins vs sigs, Forall2 input_token inputs ins /\ toks = Some <$> ins /\ Forall2 owner_verifier ins vs /\
    (inputs = [] /\ c' = c /\ vs = [] /\ sigs = [] \/ consumes c vs sigs c') /\
    ctx_Signatures c' = ctx_Signatures c ++ sigs /\ MetadataCounter c' = MetadataCounter c.
Proof.
  induction inputs as [|[inp|] inputs IH]; intros cache c c' toks Hcache; cbn [verifyInputs]; [| |done].
  - intros [-> ->]%M_ret_Ok. exists [], [], []. rewrite app_nil_r.
    split_and!; [constructor|done|constructor|by left|done|done].
  - destruct (FIn_Input inp) as [tok|] eqn:Htok; [|done]. cbv zeta.
    intros ([ver cache'] & c1 & (-> & Hver & Hc')%cached_verifier & H)%M_bind_Ok; [|done].
    apply M_bind_Ok in H as ([] & c1 & ->%require_provider_Ok & H).
    apply M_bind_Ok in H as (sigma & c1 & (v & -> & Hcons & Hs1 & _ & Hm1)%wrapM_Ok%HasBeenSignedBy_consumes & H).
    apply M_bind_Ok in H as ([] & c2 & Happ & H). unfold appendSignature, modifyS in Happ. injection Happ as <-.
    apply M_bind_Ok in H as (rest & c3 & (ins & vs & sigs & Hin & -> & Hvs & Hcons' & Hs2 & Hm2)%IH & [-> ->]%M_ret_Ok); [|done].
    exists (tok :: ins), (v :: vs), (sigma :: sigs).
    split_and!; [|done|by constructor|..].
    + constructor; [|done]. by exists inp.
    + right. destruct Hcons' as [(-> & -> & -> & ->)|Hcons'].
      * by eapply consumes_ctx.
      * eapply (consumes_trans c [v] [sigma]); [|exact Hcons']. by eapply consumes_ctx.
    + rewrite Hs2. cbn. rewrite Hs1, <- app_assoc. done.
    + rewrite Hm2. cbn. by rewrite Hm1.
Qed.

Lemma findRedeem_Ok outs r : findRedeem (Some <$> outs) = Ok r ->
  r = true <-> exists o, o ∈ outs /\ Token_Owner o = [].
Proof.
  revert r; induction outs as [|o outs IH]; intros r; cbn.
  - intros [= <-]. split; [done|]. by intros (o & ?%elem_of_nil & _).
  - unfold Output_IsRedeem. destruct (Z.eqb_spec (zlen (Token_Owner o)) 0) as [Hz|Hz].
    + intros [= <-]. split; [|done]. intros _. exists o. split; [left|]. unfold zlen in Hz. destruct (Token_Owner o); [done|cbn in Hz; lia].
    + intros Hr%IH. rewrite Hr. split.
      * intros (x & ? & ?). exists x. split; [by right|done].
      * intros (x & [->|?]%elem_of_cons & Hx); [by rewrite Hx in Hz|]. eauto.
Qed.
End SignatureLemmas.

(** ** Lemmas: the validators of a transfer and of an issue *)

Section ValidatorLemmas.
Context `{IO : !IdentityOps} (PP : FabtokenPP).
Context (GetOwnerVerifier GetIssuerVerifier : bytes -> res (option verifier)).

(** The issuer that approves a redeem. *)
Definition redeem_approved (action : FTransferAction) (ivs : list verifier) : Prop :=
  exists issuer ver, FT_Issuer action = Some issuer /\ issuer ∈ PP_Issuers PP /\
    GetIssuerVerifier issuer = Ok (Some ver) /\ ivs = [ver].

Definition is_redeem (outs : list Output) : Prop := exists o, o ∈ outs /\ Token_Owner o = [].

Definition issuer_policy (action : FTransferAction) (outs : list Output) (ivs : list verifier) : Prop :=
  (PP_Issuers PP <> [] /\ is_redeem outs /\ redeem_approved action ivs) \/
  ((PP_Issuers PP = [] \/ ~ is_redeem outs) /\ ivs = []).

Lemma verifyRedeemIssuer_Ok action (c c' : Ctx Output) u : PP_Issuers PP <> [] ->
  verifyRedeemIssuer PP GetIssuerVerifier action c = (Ok u, c') ->
  exists ver sigma, redeem_approved action [ver] /\ consumes c [ver] [sigma] c' /\
    ctx_Signatures c' = ctx_Signatures c ++ [sigma] /\ MetadataCounter c' = MetadataCounter c.
Proof.
  intros Hne. unfold verifyRedeemIssuer. destruct (FT_Issuer action) as [issuer|] eqn:Hi; [|done].
  replace (zlen (PP_Issuers PP) =? 0) with false by (symmetry; by apply zlen_eqb0). cbn [negb andb].
  destruct (existsb _ _) eqn:Hin; [|done]. apply existsb_Identity in Hin. cbn [negb].
  intros (v & c1 & [Hv ->]%wrapM_Ok%lift_Ok & H)%M_bind_Ok.
  apply M_bind_Ok in H as (sigma & c1 & (ver & -> & Hcons & Hs & _ & Hm)%wrapM_Ok%HasBeenSignedBy_consumes & H).
  unfold appendSignature, modifyS in H. injection H as _ <-.
  exists ver, sigma. split_and!; [by exists issuer, ver|by eapply consumes_ctx|cbn; by rewrite Hs|done].
Qed.

Lemma TransferSignature_Ok anchor tr action outs (c c' : Ctx Output) u : FT_Outputs action = Some <$> outs ->
  TransferSignatureValidate PP GetOwnerVerifier GetIssuerVerifier anchor tr action c = (Ok u, c') ->
  exists ins ovs ivs sigs, Forall2 input_token (FT_Inputs action) ins /\ InputTokens c' = Some <$> ins /\
    Forall2 (owner_verifier GetOwnerVerifier) ins ovs /\ issuer_policy action outs ivs /\
    consumes c (ovs ++ ivs) sigs c' /\
    ctx_Signatures c' = ctx_Signatures c ++ sigs /\ MetadataCounter c' = MetadataCounter c.
Proof.
  intros Houts. unfold TransferSignatureValidate.
  intros ([] & c1 & [Hne%reject_if_Ok%zlen_eqb0 ->]%lift_Ok & H)%M_bind_Ok.
  apply M_bind_Ok in H as (toks & c1 & (ins & ovs & sigs & Hin & -> & Hov & Hcons & Hs & Hm)%verifyInputs_Ok & H);
    [|by intros o w].
  destruct Hcons as [[? _]|Hcons]; [done|].
  apply M_bind_Ok in H as ([] & c2 & Hr & Hset). unfold setInputTokens, modifyS in Hset. injection Hset as _ <-.
  destruct (Z.gtb_spec (zlen (PP_Issuers PP)) 0) as [Hpos|Hz].
  - assert (PP_Issuers PP <> []) as Hiss by (intros E; by rewrite E in Hpos).
    apply M_bind_Ok in Hr as (isr & c3 & [Hf ->]%lift_Ok & Hr). rewrite Houts in Hf. apply findRedeem_Ok in Hf.
    destruct isr.
    + apply verifyRedeemIssuer_Ok in Hr as (ver & sigma & Hra & Hcons2 & Hs2 & Hm2); [|done].
      exists ins, ovs, [ver], (sigs ++ [sigma]).
      split_and!; [done|done|done|left; split_and!; [done|by apply Hf|done]|..]; cbn.
      * eapply consumes_ctx; [by eapply consumes_trans|done].
      * by rewrite Hs2, Hs, app_assoc.
      * congruence.
    + apply M_ret_Ok in Hr as [_ ->]. exists ins, ovs, [], sigs. rewrite app_nil_r.
      split_and!; [done|done|done|right; split; [right; intros Hred%Hf; done|done]|by eapply consumes_ctx|done|done].
  - apply M_ret_Ok in Hr as [_ ->]. exists ins, ovs, [], sigs. rewrite app_nil_r.
    assert (PP_Issuers PP = []) as Hiss by (apply zlen_zero_nil; pose proof (zlen_nonneg (PP_Issuers PP)); lia).
    split_and!; [done|done|done|right; split; [by left|done]|by eapply consumes_ctx|done|done].
Qed.

Lemma issueOutputs_Ok outs : 0 < QuantityPrecision PP < two63 ->
  rangeR (issueOutput PP) 0 outs = Ok tt ->
  exists os, outs = Some <$> os /\
    Forall (fun o => exists v, parsed (QuantityPrecision PP) (Token_Quantity o) = Some v /\ 0 < v) os.
Proof.
  intros Hp. generalize 0%nat. induction outs as [|o outs IH]; intros i; cbn [rangeR]; [by exists []|].
  intros ([] & Ho & (os & -> & Hos)%IH)%res_bind_Ok. destruct o as [o|]; [|done]. cbn [issueOutput] in Ho.
  apply res_bind_Ok in Ho as (q & Hq%wrap_Ok & Ho). apply ToQuantity_inv in Hq as (v & Hv & Hr & ->); [|done].
  apply res_bind_Ok in Ho as (cmp & Hcmp & Hne%reject_if_Ok).
  change (NewZeroQuantity (QuantityPrecision PP)) with (mkQuantity (QuantityPrecision PP) 0) in Hcmp.
  assert (H0 : 0 <= 0 < 2 ^ QuantityPrecision PP) by (split; [lia|apply Z.pow_pos_nonneg; lia]).
  rewrite (Cmp_sgn (QuantityPrecision PP) (QuantityPrecision PP)) in Hcmp by (by apply wf_mkQuantity). injection Hcmp as <-.
  rewrite !value_mkQuantity in Hne. apply Z.eqb_neq in Hne. rewrite Z.sgn_null_iff in Hne.
  exists (o :: os). split; [done|]. constructor; [|done]. exists v. split; [by apply parsed_Some|lia].
Qed.

Lemma IssueValidate_Ok anchor tr action (c c' : Ctx Output) u : 0 < QuantityPrecision PP < two63 ->
  IssueValidate PP GetIssuerVerifier anchor tr action c = (Ok u, c') ->
  FI_Outputs action <> [] /\
  (exists os, FI_Outputs action = Some <$> os /\
    Forall (fun o => exists v, parsed (QuantityPrecision PP) (Token_Quantity o) = Some v /\ 0 < v) os) /\
  (PP_Issuers PP <> [] -> FI_Issuer action ∈ PP_Issuers PP) /\
  exists ver sigma, GetIssuerVerifier (FI_Issuer action) = Ok (Some ver) /\ consumes c [ver] [sigma] c' /\
    MetadataCounter c' = MetadataCounter c.
Proof.
  intros Hp. unfold IssueValidate.
  intros ([] & c1 & [_ ->]%wrapM_Ok%lift_Ok & H)%M_bind_Ok.
  apply M_bind_Ok in H as ([] & c1 & [Hne%reject_if_Ok%zlen_eqb0 ->]%lift_Ok & H).
  apply M_bind_Ok in H as ([] & c1 & [Hos ->]%lift_Ok & H). apply issueOutputs_Ok in Hos; [|done].
  apply M_bind_Ok in H as ([] & c1 & Hiss & H).
  apply M_bind_Ok in H as (v & c2 & [Hv ->]%wrapM_Ok%lift_Ok & H).
  apply M_bind_Ok in H as ([] & c2 & ->%require_provider_Ok & H).
  apply M_bind_Ok in H as (sigma & c2 & (ver & -> & Hcons & _ & _ & Hm)%wrapM_Ok%HasBeenSignedBy_consumes & [_ ->]%M_ret_Ok).
  destruct (negb (zlen (PP_Issuers PP) =? 0) && _) eqn:E; [done|]. apply M_ret_Ok in Hiss as [_ ->].
  split_and!; [done|done| |by exists ver, sigma].
  intros Hi. rewrite (proj2 (zlen_eqb0 _)) in E by done. cbn in E.
  destruct (existsb _ _) eqn:Hin; [|done]. by apply existsb_Identity in Hin.
Qed.
End ValidatorLemmas.
