(* ===== verification/FabtokenSafety.v ===== *)
(** * What an accepted fabtoken request guarantees (token/core/fabtoken/v1/validator)

    The pipeline of Validator.v run with the validators of FabtokenValidator.v:
    value is conserved, every spent token is signed for by its owner, redeems
    and issues by an authorized issuer, hash time-locks are respected, and no
    metadata entry goes unchecked. *)

From S2P Require Import Prelude GoStd Quantity Der TokenTypes Request Limits Validator Htlc FabtokenActions FabtokenValidator.
From Stdlib Require Import ZArith Lia.
Local Open Scope Z_scope.

(** ** Lemmas *)

(** Structural validation leaves no input without an id. *)
Lemma Validate_ids a u : FTransferAction_Validate a = Ok u -> exists ids, FT_GetInputs a = Ok (Some <$> ids).
Proof.
  unfold FTransferAction_Validate. intros ([] & _ & H)%res_bind_Ok. cbv zeta in H.
  apply res_bind_Ok in H as ([] & _ & H). apply res_bind_Ok in H as ([] & Hin & _). clear -Hin.
  unfold FT_GetInputs. revert Hin. generalize 0%nat. induction (FT_Inputs a) as [|inp l IH]; intros n; cbn [rangeR mapM].
  - by exists [].
  - intros ([] & Hi & (ids & Hids)%IH)%res_bind_Ok. destruct inp as [i|]; [|done]. cbn in Hi.
    destruct (FIn_ID i) as [id|] eqn:Hid; [|done]. exists (id :: ids). cbn [mbind res_mbind]. by rewrite Hids.
Qed.

Section Safety.
Context `{IO : !IdentityOps} (PP : FabtokenPP).
Context (GetOwnerVerifier GetIssuerVerifier GetAuditorVerifier : bytes -> res (option verifier)).
Context (now : Z) (crypto_Hash : Z -> option (bytes -> bytes)).
Context (json_ClaimSignature_strict : bytes -> res ClaimSignature) (json_Script : bytes -> res Script).
Context (limits : ResourceLimits) (minVersion : Z).
Context (proto_IssueAction : bytes -> res PIssueAction) (proto_TransferAction : bytes -> res PTransferAction).
Context (proto_Unmarshal : bytes -> res PTokenRequest) (json_Marshal : list bytes -> res bytes).

Abbreviation FV :=
  (FabtokenNewValidator PP GetOwnerVerifier GetIssuerVerifier GetAuditorVerifier now crypto_Hash
     json_ClaimSignature_strict json_Script limits minVersion proto_IssueAction proto_TransferAction).
Abbreviation p := (QuantityPrecision PP).

(** The verdict of the fabtoken validator on a raw request. *)
Definition FabtokenVerify (anchor raw : bytes)
    : res (list (action_value (TA := FTransferAction) (IA := FIssueAction)) * ValidationAttributes) :=
  VerifyTokenRequestFromRaw FT_Metadata FI_Metadata FV proto_Unmarshal json_Marshal anchor raw.

(** *** Hash time-locks *)

(** The owner of [tok] is the script [script]. *)
Definition script_owner (tok : Output) (script : Script) : Prop :=
  exists id, UnmarshalTypedIdentity (Token_Owner tok) = Ok (mkTypedIdentity ScriptType id) /\ json_Script id = Ok script.

(** A script's token moves alone, unchanged, to the recipient before the
    deadline or back to the sender after it. *)
Definition script_spent (a : FTransferAction) (sigs : list bytes) (nIns : nat) (outs : list (option Output))
    (i : nat) (tin : Output) (script : Script) : Prop :=
  exists out, nIns = 1%nat /\ outs = [Some out] /\
    Token_Type out = Token_Type tin /\ Token_Quantity out = Token_Quantity tin /\
    ((now < Script_Deadline script /\ Token_Owner out = Script_Recipient script /\
      exists sigma k, sigs !! i = Some sigma /\ claim_published crypto_Hash json_ClaimSignature_strict (FT_Metadata a) script sigma k) \/
     (Script_Deadline script <= now /\ Token_Owner out = Script_Sender script)).

(** A metadata key the HTLC checks account for. *)
Definition htlc_key (a : FTransferAction) (sigs : list bytes) (ins outs : list (option Output)) (k : bytes) : Prop :=
  (exists i tin script sigma, ins !! i = Some (Some tin) /\ script_owner tin script /\ now < Script_Deadline script /\
     sigs !! i = Some sigma /\ claim_published crypto_Hash json_ClaimSignature_strict (FT_Metadata a) script sigma k) \/
  (exists out script, Some out ∈ outs /\ script_owner out script /\ lock_published (FT_Metadata a) script k).

Lemma htlcInput_Ok a n i tin (c c' : Ctx Output) u :
  htlcInput now crypto_Hash json_ClaimSignature_strict json_Script a n i (Some tin) c = (Ok u, c') ->
  (forall script, script_owner tin script -> script_spent a (ctx_Signatures c) n (FT_Outputs a) i tin script) /\
  exists ks, counts c ks c' /\
    Forall (fun k => exists script sigma, script_owner tin script /\ now < Script_Deadline script /\
                      ctx_Signatures c !! i = Some sigma /\ claim_published crypto_Hash json_ClaimSignature_strict (FT_Metadata a) script sigma k) ks.
Proof.
  unfold htlcInput. intros ([ty id] & c1 & [Hu ->]%wrapM_Ok%lift_Ok & H)%M_bind_Ok. cbn [TI_Type] in H.
  destruct (Z.eqb_spec ty ScriptType) as [->|Hty].
  2: { apply M_ret_Ok in H as [_ ->]. split.
       - intros script (id' & Hu' & _). rewrite Hu in Hu'. by injection Hu'.
       - exists []. split; [apply counts_refl|constructor]. }
  destruct (FT_Outputs a) as [|[out|] [|]] eqn:Houts; try done.
  all: destruct (Nat.eqb_spec n 1) as [->|]; [|done]; cbn [negb] in H; try done.
  case_bool_decide as Ht; [|done]. case_bool_decide as Hq; [|done]. cbn [negb] in H.
  destruct (Output_IsRedeem out); [done|].
  apply M_bind_Ok in H as ([script op] & c1 & [Ho ->]%wrapM_Ok%lift_Ok & H).
  apply VerifyOwner_Ok in Ho as (_ & (id' & Hu' & Hj) & Hcase); try done.
  apply M_bind_Ok in H as (c1 & c2 & [= <- <-] & H).
  destruct (ctx_Signatures c !! i) as [sigma|] eqn:Hs; [|done].
  apply M_bind_Ok in H as (k & c1 & [Hk ->]%wrapM_Ok%lift_Ok & H).
  assert (Hown : script_owner tin script) by (by exists id').
  assert (Huniq : forall s, script_owner tin s -> s = script).
  { intros s (id2 & Hu2 & Hj2). rewrite Hu' in Hu2. injection Hu2 as <-. congruence. }
  destruct Hcase as [(Hn & -> & Hout)|(Hn & -> & Hout)].
  - rewrite bool_decide_eq_false_2 in H by done. cbn [negb] in H. apply CountMetadataKey_counts in H.
    apply MetadataClaimKeyCheck_Ok in Hk; [|done]. split.
    + intros s ->%Huniq. exists out. split_and!; [done..|]. left. split_and!; [done..|]. by exists sigma, k.
    + exists [k]. split; [done|]. apply Forall_singleton. by exists script, sigma.
  - rewrite bool_decide_eq_true_2 in H by done. cbn [negb] in H. apply M_ret_Ok in H as [_ ->]. split.
    + intros s ->%Huniq. exists out. split_and!; [done..|]. by right.
    + exists []. split; [apply counts_refl|constructor].
Qed.

Lemma htlcOutput_Ok a i out (c c' : Ctx Output) u :
  htlcOutput now crypto_Hash json_Script a i (Some out) c = (Ok u, c') ->
  (forall script, Token_Owner out <> [] -> script_owner out script ->
     Script_Validate crypto_Hash script now = Ok tt /\ exists k, lock_published (FT_Metadata a) script k) /\
  exists ks, counts c ks c' /\ Forall (fun k => exists script, script_owner out script /\ lock_published (FT_Metadata a) script k) ks.
Proof.
  unfold htlcOutput, Output_IsRedeem. destruct (Z.eqb_spec (zlen (Token_Owner out)) 0) as [Hz%zlen_zero_nil|Hz].
  { intros [_ ->]%M_ret_Ok. split; [done|]. exists []. split; [apply counts_refl|constructor]. }
  intros ([ty id] & c1 & [Hu ->]%lift_Ok & H)%M_bind_Ok. cbn [TI_Type TI_Identity] in H.
  destruct (Z.eqb_spec ty ScriptType) as [->|Hty].
  2: { apply M_ret_Ok in H as [_ ->]. split.
       - intros script _ (id' & Hu' & _). rewrite Hu in Hu'. by injection Hu'.
       - exists []. split; [apply counts_refl|constructor]. }
  apply M_bind_Ok in H as (script & c1 & [Hj ->]%lift_Ok & H).
  apply M_bind_Ok in H as ([] & c1 & [Hv ->]%wrapM_Ok%lift_Ok & H).
  apply M_bind_Ok in H as (k & c1 & [Hk%MetadataLockKeyCheck_Ok ->]%wrapM_Ok%lift_Ok & H%CountMetadataKey_counts).
  split.
  - intros s _ (id' & Hu' & Hj'). rewrite Hu in Hu'. injection Hu' as <-. rewrite Hj in Hj'. injection Hj' as <-.
    split; [done|]. by exists k.
  - exists [k]. split; [done|]. apply Forall_singleton. exists script. split; [by exists id|done].
Qed.

(** *** An accepted transfer *)

Lemma TransferHTLC_Ok anchor tr a ins outs (c c' : Ctx Output) u :
  InputTokens c = Some <$> ins -> FT_Outputs a = Some <$> outs ->
  TransferHTLCValidate now crypto_Hash json_ClaimSignature_strict json_Script anchor tr a c = (Ok u, c') ->
  (forall i tin script, ins !! i = Some tin -> script_owner tin script ->
     script_spent a (ctx_Signatures c) (length ins) (FT_Outputs a) i tin script) /\
  (forall out script, out ∈ outs -> Token_Owner out <> [] -> script_owner out script ->
     Script_Validate crypto_Hash script now = Ok tt /\ exists k, lock_published (FT_Metadata a) script k) /\
  exists ks, counts c ks c' /\ Forall (htlc_key a (ctx_Signatures c) (InputTokens c) (FT_Outputs a)) ks.
Proof.
  intros Hins Houts. unfold TransferHTLCValidate. intros (c0 & c1 & [= <- <-] & H)%M_bind_Ok.
  apply M_bind_Ok in H as ([] & c1 & Hi & Ho).
  eapply (rangeM_counts _ (ctx_Signatures c)
    (fun i x => forall tin script, x = Some tin -> script_owner tin script ->
        script_spent a (ctx_Signatures c) (length ins) (FT_Outputs a) i tin script)
    (htlc_key a (ctx_Signatures c) (InputTokens c) (FT_Outputs a)) (InputTokens c)) in Hi as (HQ & ks & Hc & HP); [|..|done].
  2: { intros i x c2 c2' u2 Hx Hs. cbn [Nat.add]. rewrite Hins in Hx |- *. rewrite list_lookup_fmap in Hx.
       destruct (ins !! i) as [tin|] eqn:Hti; [|done]. cbn in Hx. injection Hx as <-. rewrite length_fmap.
       intros (Hsp & ks & Hks & HP)%htlcInput_Ok. rewrite Hs in Hsp, HP. split.
       - intros t script [= <-]. apply Hsp.
       - exists ks. split; [done|]. eapply Forall_impl; [exact HP|]. cbn.
         intros k (script & sigma & ? & ? & ? & ?). left. exists i, tin, script, sigma.
         rewrite list_lookup_fmap, Hti. done. }
  assert (Hs1 : ctx_Signatures c1 = ctx_Signatures c) by (by rewrite Hc).
  eapply (rangeM_counts _ (ctx_Signatures c)
    (fun _ x => forall out script, x = Some out -> Token_Owner out <> [] -> script_owner out script ->
        Script_Validate crypto_Hash script now = Ok tt /\ exists k, lock_published (FT_Metadata a) script k)
    (htlc_key a (ctx_Signatures c) (InputTokens c) (FT_Outputs a)) (FT_Outputs a)) in Ho as (HQ' & ks' & Hc' & HP'); [|..|done].
  2: { intros i x c2 c2' u2 Hx Hs. pose proof Hx as Hx'. rewrite Houts, list_lookup_fmap in Hx.
       destruct (outs !! i) as [out|] eqn:Hti; [|done]. cbn in Hx. injection Hx as <-.
       intros (Hsp & ks2 & Hks & HP2)%htlcOutput_Ok. split.
       - intros t script [= <-]. apply Hsp.
       - exists ks2. split; [done|]. eapply Forall_impl; [exact HP2|]. cbn.
         intros k (script & ? & ?). right. exists out, script. split_and!; [|done|done].
         by apply list_elem_of_lookup_2 with i. }
  split_and!.
  - intros i tin script Hi. apply (HQ i (Some tin)); [|done]. by rewrite Hins, list_lookup_fmap, Hi.
  - intros out script (i & Hi)%list_elem_of_lookup. apply (HQ' i (Some out)); [|done]. by rewrite Houts, list_lookup_fmap, Hi.
  - exists (ks ++ ks'). split; [by eapply counts_trans|by apply Forall_app].
Qed.

(** The facts about one accepted transfer, with its spent tokens [ins], its
    outputs [outs] and the signatures [sigs] the request attaches to it. *)
Record transfer_accepted (m : bytes) (sigs : list bytes) (a : FTransferAction) (typ : bytes)
    (ins outs : list Output) (ovs ivs : list verifier) : Prop := {
  ta_inputs : Forall2 input_token (FT_Inputs a) ins;
  ta_ids : exists ids, FT_GetInputs a = Ok (Some <$> ids);
  ta_outputs : FT_Outputs a = Some <$> outs;
  ta_ins : ins <> [];
  ta_outs : outs <> [];
  ta_ins_of : tokens_of p typ ins;
  ta_outs_of : tokens_of p typ outs;
  ta_balance : Zsum (token_value p <$> ins) = Zsum (token_value p <$> outs);
  ta_owners : Forall2 (owner_verifier GetOwnerVerifier) ins ovs;
  ta_issuer : issuer_policy PP GetIssuerVerifier a outs ivs;
  ta_signed : Forall2 (fun (ver : verifier) s => ver m s = Ok tt) (ovs ++ ivs) sigs;
  ta_spent : forall i tin script, ins !! i = Some tin -> script_owner tin script ->
     script_spent a sigs (length ins) (FT_Outputs a) i tin script;
  ta_locked : forall out script, out ∈ outs -> Token_Owner out <> [] -> script_owner out script ->
     Script_Validate crypto_Hash script now = Ok tt /\ exists k, lock_published (FT_Metadata a) script k;
  ta_metadata : gomap_wf (FT_Metadata a) -> forall k, k ∈ (FT_Metadata a).*1 ->
     PublicMetadataPrefix `prefix_of` k \/ htlc_key a sigs (Some <$> ins) (FT_Outputs a) k;
}.

Lemma htlc_key_in a sigs ins outs k : htlc_key a sigs ins outs k -> k ∈ (FT_Metadata a).*1.
Proof. intros [(i & tin & script & sigma & _ & _ & _ & _ & H%claim_published_in)|(out & script & _ & _ & H%lock_published_in)]; done. Qed.

Lemma VerifyTransfer_Ok anchor tr a m sigs b' : 0 < p < two63 ->
  VerifyTransfer FT_Metadata FV anchor tr (Some a) (Some (NewBackend m sigs)) = (Ok tt, Some b') ->
  Cursor b' = length (Sigs b') ->
  exists typ ins outs ovs ivs, transfer_accepted m sigs a typ ins outs ovs ivs.
Proof.
  intros Hp H Hex. apply in_context_Ok in H as ([] & c & H & Hmd & Hprov). cbn [rangeM TransferValidators FabtokenNewValidator] in H.
  apply M_bind_Ok in H as ([] & c1 & [Hids%Validate_ids ->]%lift_Ok & H).
  apply M_bind_Ok in H as ([] & c1 & Hsig & H). apply M_bind_Ok in H as ([] & c2 & Hbal & H).
  apply TransferBalance_Ok in Hbal as (-> & typ & ins & outs & Hins & Houts & Hne & Hne' & Ti & To & Hsum); [|done].
  eapply TransferSignature_Ok in Hsig as (ins' & ovs & ivs & sg & Hin & Hins' & Hov & Hiv & Hcons & Hs & Hmc); [|exact Houts].
  assert (ins' = ins) as -> by (rewrite Hins in Hins'; by apply (inj (fmap Some)) in Hins').
  cbn in Hs, Hmc. apply M_bind_Ok in H as ([] & c2 & Hht & H).
  eapply TransferHTLC_Ok in Hht as (Hsp & Hlk & ks & Hc & Hks); [|exact Hins|exact Houts].
  apply M_bind_Ok in H as ([] & c3 & (ks' & Hc' & Hks')%ApplicationData_Ok & [_ ->]%M_ret_Ok).
  pose proof (counts_trans _ _ _ _ _ Hc Hc') as Hct. clear Hc Hc'.
  assert (Hp1 : SignatureProvider c1 = Some b') by (rewrite Hct in Hprov; exact Hprov).
  destruct (consumes_all _ _ _ _ _ b' Hcons eq_refl eq_refl Hp1 Hex) as [Esg Hsig].
  cbn [Sigs Message NewBackend] in Esg, Hsig. rewrite Esg in Hs.
  exists typ, ins, outs, ovs, ivs. rewrite Hs in *. split; try done.
  intros Hwf k Hk. rewrite Hct in Hmd. cbn [MetadataCounter] in Hmd. rewrite Hmc in Hmd.
  eapply check_metadata_all in Hmd; [|done| |exact Hk].
  - apply elem_of_app in Hmd as [Hm|Hm].
    + right. rewrite <- Hins. by apply (proj1 (Forall_forall _ _) Hks).
    + left. by apply (proj1 (Forall_forall _ _) Hks') in Hm as [? _].
  - apply Forall_app. split.
    + eapply Forall_impl; [exact Hks|]. intros x. apply htlc_key_in.
    + eapply Forall_impl; [exact Hks'|]. by intros x [_ ?].
Qed.

Lemma accepted_transfer anchor raw acts attrs i a : 0 < p < two63 -> MaxActions limits <= two32 ->
  FabtokenVerify anchor raw = Ok (acts, attrs) -> acts !! i = Some (VTransfer (Some a)) ->
  exists tr, TokenRequest_FromBytes proto_Unmarshal raw = Ok tr /\
    MarshalToMessageToSign tr anchor = Ok (TokenRequestToSign attrs) /\
    exists typ ins outs ovs ivs,
      transfer_accepted (TokenRequestToSign attrs) (action_signatures tr (Z.of_nat i)) a typ ins outs ovs ivs.
Proof.
  intros Hp Hmax H Hi. pose proof H as (tr' & acts' & Htr' & _ & _ & _ & _ & Hm & _)%FromRaw_Ok; [|done].
  apply actions_in_order in H as (tr & d & iss & trs & Htr & _ & _ & _ & _ & _ & Hall); [|done].
  assert (tr' = tr) as -> by congruence. exists tr. split_and!; [done|done|].
  apply Hall in Hi as (b' & Hex & Hv). by eapply VerifyTransfer_Ok.
Qed.

Lemma VerifyIssue_Ok anchor tr a m sigs b' : 0 < p < two63 ->
  VerifyIssue FI_Metadata FV anchor tr (Some a) (Some (NewBackend m sigs)) = (Ok tt, Some b') ->
  Cursor b' = length (Sigs b') ->
  (exists os, FI_Outputs a = Some <$> os /\ os <> [] /\
     Forall (fun o => exists v, parsed p (Token_Quantity o) = Some v /\ 0 < v) os) /\
  (PP_Issuers PP <> [] -> FI_Issuer a ∈ PP_Issuers PP) /\
  (exists ver sigma, GetIssuerVerifier (FI_Issuer a) = Ok (Some ver) /\ sigs = [sigma] /\ ver m sigma = Ok tt) /\
  (gomap_wf (FI_Metadata a) -> forall k, k ∈ (FI_Metadata a).*1 -> PublicMetadataPrefix `prefix_of` k).
Proof.
  intros Hp H Hex. apply in_context_Ok in H as ([] & c & H & Hmd & Hprov).
  cbn [rangeM IssueValidators FabtokenNewValidator] in H.
  apply M_bind_Ok in H as ([] & c1 & (Hne & (os & Hos & Hpos) & Hiss & ver & sigma & Hver & Hcons & Hmc)%IssueValidate_Ok & H); [|done].
  apply M_bind_Ok in H as ([] & c2 & (ks & Hc & Hks)%ApplicationData_Ok & [_ ->]%M_ret_Ok).
  assert (Hp1 : SignatureProvider c1 = Some b') by (rewrite Hc in Hprov; exact Hprov).
  destruct (consumes_all _ _ _ _ _ b' Hcons eq_refl eq_refl Hp1 Hex) as [Esg Hsig].
  cbn [Sigs Message NewBackend] in Esg, Hsig. split_and!.
  - exists os. split_and!; [done| |done]. intros ->. by rewrite Hos in Hne.
  - done.
  - exists ver, sigma. split_and!; [done|done|]. rewrite <- Esg in Hsig. by apply Forall2_cons in Hsig as [? _].
  - intros Hwf k Hk. rewrite Hc in Hmd. cbn [MetadataCounter] in Hmd. rewrite Hmc in Hmd.
    assert (k ∈ ks) as Hin.
    { refine (check_metadata_all _ _ Hwf _ Hmd k Hk). eapply Forall_impl; [exact Hks|]. by intros x [_ ?]. }
    by apply (proj1 (Forall_forall _ _) Hks) in Hin as [? _].
Qed.

(** ** Properties *)

Section Properties.
Hypothesis precision : 0 < p < two63.
Hypothesis action_ids : MaxActions limits <= two32.

(** C3: an accepted transfer neither creates nor destroys value.  All its
    inputs and outputs carry tokens of one type, every quantity parses at the
    configured precision, and the exact sum of the inputs equals the exact sum
    of the outputs; no addition overflowed on the way. *)
Theorem fabtoken_transfer_conserves anchor raw acts attrs i a :
  FabtokenVerify anchor raw = Ok (acts, attrs) -> acts !! i = Some (VTransfer (Some a)) ->
  exists typ ins outs, Forall2 input_token (FT_Inputs a) ins /\ FT_Outputs a = Some <$> outs /\
    ins <> [] /\ outs <> [] /\ tokens_of p typ ins /\ tokens_of p typ outs /\
    Zsum (token_value p <$> ins) = Zsum (token_value p <$> outs).
Proof.
  intros H Hi. destruct (accepted_transfer _ _ _ _ _ _ precision action_ids H Hi)
    as (tr & _ & _ & typ & ins & outs & ovs & ivs & []). by exists typ, ins, outs.
Qed.

(** C4: an accepted transfer is authorized.  The signatures the request
    attaches to the action are, one for one and in order, accepted by the
    verifiers of the owners of its inputs, on the message built from this
    request and anchor; if issuers are configured and an output is a redeem,
    one more signature follows, by the issuer the action names, which is a
    configured one; no signature is left over. *)
Theorem fabtoken_transfer_authorized anchor raw acts attrs i a :
  FabtokenVerify anchor raw = Ok (acts, attrs) -> acts !! i = Some (VTransfer (Some a)) ->
  exists tr m ins outs ovs ivs, TokenRequest_FromBytes proto_Unmarshal raw = Ok tr /\
    MarshalToMessageToSign tr anchor = Ok m /\
    Forall2 input_token (FT_Inputs a) ins /\ FT_Outputs a = Some <$> outs /\
    Forall2 (owner_verifier GetOwnerVerifier) ins ovs /\ issuer_policy PP GetIssuerVerifier a outs ivs /\
    Forall2 (fun (ver : verifier) s => ver m s = Ok tt) (ovs ++ ivs) (action_signatures tr (Z.of_nat i)).
Proof.
  intros H Hi. destruct (accepted_transfer _ _ _ _ _ _ precision action_ids H Hi)
    as (tr & Htr & Hm & typ & ins & outs & ovs & ivs & []).
  by exists tr, (TokenRequestToSign attrs), ins, outs, ovs, ivs.
Qed.

(** C37: an accepted transfer respects hash time-locks.  A token owned by a
    script is spent alone, into a single output of the same type and quantity:
    before the deadline the output goes to the script's recipient, and the
    signature carries a preimage whose image names a metadata entry that
    publishes it; from the deadline on the output goes back to the sender.  A
    token locked under a new script has a script that is valid now, and the
    lock is published in the metadata. *)
Theorem fabtoken_transfer_htlc anchor raw acts attrs i a :
  FabtokenVerify anchor raw = Ok (acts, attrs) -> acts !! i = Some (VTransfer (Some a)) ->
  exists tr ins outs, TokenRequest_FromBytes proto_Unmarshal raw = Ok tr /\
    Forall2 input_token (FT_Inputs a) ins /\ FT_Outputs a = Some <$> outs /\
    (forall j tin script, ins !! j = Some tin -> script_owner tin script ->
       script_spent a (action_signatures tr (Z.of_nat i)) (length ins) (FT_Outputs a) j tin script) /\
    (forall out script, out ∈ outs -> Token_Owner out <> [] -> script_owner out script ->
       Script_Validate crypto_Hash script now = Ok tt /\ exists k, lock_published (FT_Metadata a) script k).
Proof.
  intros H Hi. destruct (accepted_transfer _ _ _ _ _ _ precision action_ids H Hi)
    as (tr & Htr & Hm & typ & ins & outs & ovs & ivs & []). by exists tr, ins, outs.
Qed.

(** No metadata rides along unchecked.  Every metadata key of an accepted
    transfer is a public application key, the claim key of a script one of its
    inputs is owned by, or the lock key of a script one of its outputs is
    owned by; every metadata key of an accepted issue is public. *)
Theorem fabtoken_metadata_accounted anchor raw acts attrs i :
  FabtokenVerify anchor raw = Ok (acts, attrs) ->
  (forall a, acts !! i = Some (VTransfer (Some a)) -> gomap_wf (FT_Metadata a) ->
     exists tr ins, TokenRequest_FromBytes proto_Unmarshal raw = Ok tr /\ Forall2 input_token (FT_Inputs a) ins /\
       forall k, k ∈ (FT_Metadata a).*1 -> PublicMetadataPrefix `prefix_of` k \/
         htlc_key a (action_signatures tr (Z.of_nat i)) (Some <$> ins) (FT_Outputs a) k) /\
  (forall a, acts !! i = Some (VIssue (Some a)) -> gomap_wf (FI_Metadata a) ->
     forall k, k ∈ (FI_Metadata a).*1 -> PublicMetadataPrefix `prefix_of` k).
Proof.
  intros H. split; intros a Hi Hwf.
  - destruct (accepted_transfer _ _ _ _ _ _ precision action_ids H Hi)
      as (tr & Htr & Hm & typ & ins & outs & ovs & ivs & []). exists tr, ins. eauto.
  - apply actions_in_order in H as (tr & d & iss & trs & _ & _ & _ & _ & _ & _ & Hall); [|done].
    apply Hall in Hi as (b' & Hex & Hv). by apply VerifyIssue_Ok in Hv as (_ & _ & _ & Hk); [apply Hk|..].
Qed.

(** Tokens are created only by authorized issuers.  An accepted issue has
    outputs, each of a positive quantity at the configured precision; if
    issuers are configured the action's issuer is one of them; and the request
    attaches exactly one signature to the action, accepted by the verifier of
    that issuer on the message built from this request and anchor. *)
Theorem fabtoken_issue_authorized anchor raw acts attrs i a :
  FabtokenVerify anchor raw = Ok (acts, attrs) -> acts !! i = Some (VIssue (Some a)) ->
  exists tr m outs, TokenRequest_FromBytes proto_Unmarshal raw = Ok tr /\ MarshalToMessageToSign tr anchor = Ok m /\
    FI_Outputs a = Some <$> outs /\ outs <> [] /\
    Forall (fun o => exists v, parsed p (Token_Quantity o) = Some v /\ 0 < v) outs /\
    (PP_Issuers PP <> [] -> FI_Issuer a ∈ PP_Issuers PP) /\
    exists ver sigma, GetIssuerVerifier (FI_Issuer a) = Ok (Some ver) /\
      action_signatures tr (Z.of_nat i) = [sigma] /\ ver m sigma = Ok tt.
Proof.
  intros H Hi. pose proof H as (tr' & acts' & Htr' & _ & _ & _ & _ & Hm & _)%FromRaw_Ok; [|done].
  apply actions_in_order in H as (tr & d & iss & trs & Htr & _ & _ & _ & _ & _ & Hall); [|done].
  assert (tr' = tr) as -> by congruence. apply Hall in Hi as (b' & Hex & Hv).
  apply VerifyIssue_Ok in Hv as ((os & ? & ? & ?) & ? & ? & _); [|done..].
  by exists tr, (TokenRequestToSign attrs), os.
Qed.
End Properties.
End Safety.

(** ** Witnesses: an issue, and the claim of a locked token *)

Definition bob : bytes := WrapWithType X509IdentityType (str "bob").
Definition swap : Script := mkScript (str "alice") bob 100 example_info.
Definition swap_owner : bytes := WrapWithType ScriptType (str "{}").
Definition accept_sig : verifier := fun _ s => if bool_decide (s = str "sig") then Ok tt else Err (EMsg "bad").

Definition example_PP : FabtokenPP := mkFabtokenPP 64 [str "issuer"] [str "auditor"].
Definition claim_key : bytes := Eval vm_compute in ClaimKey (sha256 (str "secret")).
Definition example_PIssue : PIssueAction :=
  mkPIssueAction 1 (Some (str "issuer")) [Some (Some (mkPToken bob (str "EUR") (str "0x0a")))] [(str "pub.note", str "n")].
Definition example_PTransfer : PTransferAction :=
  mkPTransferAction 1
    [Some (mkPInput (Some (mkID (str "tx0") 0)) (Some (mkPToken swap_owner (str "EUR") (str "0x0a"))))]
    [Some (Some (mkPToken bob (str "EUR") (str "0x0a")))] [(str "pub.note", str "n"); (claim_key, str "secret")] None.
Definition example_raw_request (_ : bytes) : res PTokenRequest := Ok (mkPTokenRequest 1
  [Some (PTyped (Some (mkPTypedAction 1 (str "issue")))); Some (PTyped (Some (mkPTypedAction 2 (str "transfer"))))]
  [Some (PActionSig (Some (mkPActionSignature 0 (Some (str "sig")))));
   Some (PActionSig (Some (mkPActionSignature 1 (Some (str "sig")))));
   Some (PAuditorSig (Some (mkPAuditorSignature (Some (str "auditor")) (Some (str "sig")))))]).

Abbreviation accept_all := (fun _ : bytes => Ok (Some accept_sig)).
Abbreviation example_FabtokenVerify :=
  (@FabtokenVerify bytes_identity example_PP accept_all accept_all accept_all 99 example_hash example_claim
     (fun _ => Ok swap) DefaultResourceLimits 1 (fun _ => Ok example_PIssue) (fun _ => Ok example_PTransfer)
     example_raw_request example_json).

Definition example_transfer : FTransferAction :=
  mkFTransferAction [Some (mkFInput (Some (mkID (str "tx0") 0)) (Some (mkToken swap_owner (str "EUR") (str "0x0a"))))]
    [Some (mkToken bob (str "EUR") (str "0x0a"))] [(str "pub.note", str "n"); (claim_key, str "secret")] None
    (Some DefaultResourceLimits).
Definition example_issue : FIssueAction :=
  mkFIssueAction (str "issuer") [Some (mkToken bob (str "EUR") (str "0x0a"))] [(str "pub.note", str "n")]
    (Some DefaultResourceLimits).
Definition example_actions := [VIssue (Some example_issue); VTransfer (Some example_transfer)].
Definition example_fabtoken_attrs : ValidationAttributes := Eval vm_compute in
  match example_FabtokenVerify (str "tx1") (str "raw") with Ok (_, a) => a | _ => mkValidationAttributes [] [] end.

Lemma example_verified : example_FabtokenVerify (str "tx1") (str "raw") = Ok (example_actions, example_fabtoken_attrs).
Proof. vm_compute. reflexivity. Qed.

Lemma example_precision : 0 < QuantityPrecision example_PP < two63.
Proof. done. Qed.
Lemma example_action_ids : MaxActions DefaultResourceLimits <= two32.
Proof. done. Qed.

Lemma fabtoken_transfer_conserves_witness :
  exists typ ins outs, Forall2 input_token (FT_Inputs example_transfer) ins /\ FT_Outputs example_transfer = Some <$> outs /\
    ins <> [] /\ outs <> [] /\ tokens_of 64 typ ins /\ tokens_of 64 typ outs /\
    Zsum (token_value 64 <$> ins) = Zsum (token_value 64 <$> outs).
Proof.
  apply (fabtoken_transfer_conserves (IO := bytes_identity) example_PP accept_all accept_all accept_all 99 example_hash
    example_claim (fun _ => Ok swap) DefaultResourceLimits 1 (fun _ => Ok example_PIssue) (fun _ => Ok example_PTransfer)
    example_raw_request example_json example_precision example_action_ids (str "tx1") (str "raw") example_actions
    example_fabtoken_attrs 1%nat example_transfer example_verified eq_refl).
Defined.

Lemma fabtoken_transfer_authorized_witness :
  exists tr m ins outs ovs ivs, TokenRequest_FromBytes example_raw_request (str "raw") = Ok tr /\
    MarshalToMessageToSign tr (str "tx1") = Ok m /\
    Forall2 input_token (FT_Inputs example_transfer) ins /\ FT_Outputs example_transfer = Some <$> outs /\
    Forall2 (owner_verifier accept_all) ins ovs /\ issuer_policy example_PP accept_all example_transfer outs ivs /\
    Forall2 (fun (ver : verifier) s => ver m s = Ok tt) (ovs ++ ivs) (action_signatures tr 1).
Proof.
  apply (fabtoken_transfer_authorized (IO := bytes_identity) example_PP accept_all accept_all accept_all 99 example_hash
    example_claim (fun _ => Ok swap) DefaultResourceLimits 1 (fun _ => Ok example_PIssue) (fun _ => Ok example_PTransfer)
    example_raw_request example_json example_precision example_action_ids (str "tx1") (str "raw") example_actions
    example_fabtoken_attrs 1%nat example_transfer example_verified eq_refl).
Defined.

Lemma fabtoken_transfer_htlc_witness :
  exists tr ins outs, TokenRequest_FromBytes example_raw_request (str "raw") = Ok tr /\
    Forall2 input_token (FT_Inputs example_transfer) ins /\ FT_Outputs example_transfer = Some <$> outs /\
    (forall j tin script, ins !! j = Some tin -> script_owner (fun _ => Ok swap) tin script ->
       script_spent 99 example_hash example_claim example_transfer (action_signatures tr 1) (length ins)
         (FT_Outputs example_transfer) j tin script) /\
    (forall out script, out ∈ outs -> Token_Owner out <> [] -> script_owner (fun _ => Ok swap) out script ->
       @Script_Validate bytes_identity example_hash script 99 = Ok tt /\ exists k, lock_published (FT_Metadata example_transfer) script k).
Proof.
  apply (fabtoken_transfer_htlc (IO := bytes_identity) example_PP accept_all accept_all accept_all 99 example_hash
    example_claim (fun _ => Ok swap) DefaultResourceLimits 1 (fun _ => Ok example_PIssue) (fun _ => Ok example_PTransfer)
    example_raw_request example_json example_precision example_action_ids (str "tx1") (str "raw") example_actions
    example_fabtoken_attrs 1%nat example_transfer example_verified eq_refl).
Defined.

Lemma fabtoken_metadata_accounted_witness :
  exists tr ins, TokenRequest_FromBytes example_raw_request (str "raw") = Ok tr /\
    Forall2 input_token (FT_Inputs example_transfer) ins /\
    forall k, k ∈ (FT_Metadata example_transfer).*1 -> PublicMetadataPrefix `prefix_of` k \/
      htlc_key 99 example_hash example_claim (fun _ => Ok swap) example_transfer (action_signatures tr 1) (Some <$> ins)
        (FT_Outputs example_transfer) k.
Proof.
  refine (proj1 (fabtoken_metadata_accounted (IO := bytes_identity) example_PP accept_all accept_all accept_all 99
    example_hash example_claim (fun _ => Ok swap) DefaultResourceLimits 1 (fun _ => Ok example_PIssue)
    (fun _ => Ok example_PTransfer) example_raw_request example_json example_precision example_action_ids (str "tx1")
    (str "raw") example_actions example_fabtoken_attrs 1%nat example_verified) example_transfer eq_refl _).
  apply NoDup_cons_2; [apply (bool_decide_unpack _); vm_compute; exact I|apply NoDup_singleton].
Defined.

Lemma fabtoken_issue_authorized_witness :
  exists tr m outs, TokenRequest_FromBytes example_raw_request (str "raw") = Ok tr /\
    MarshalToMessageToSign tr (str "tx1") = Ok m /\
    FI_Outputs example_issue = Some <$> outs /\ outs <> [] /\
    Forall (fun o => exists v, parsed 64 (Token_Quantity o) = Some v /\ 0 < v) outs /\
    (PP_Issuers example_PP <> [] -> FI_Issuer example_issue ∈ PP_Issuers example_PP) /\
    exists ver sigma, Ok (Some accept_sig) = Ok (Some ver) /\ action_signatures tr 0 = [sigma] /\ ver m sigma = Ok tt.
Proof.
  apply (fabtoken_issue_authorized (IO := bytes_identity) example_PP accept_all accept_all accept_all 99 example_hash
    example_claim (fun _ => Ok swap) DefaultResourceLimits 1 (fun _ => Ok example_PIssue) (fun _ => Ok example_PTransfer)
    example_raw_request example_json example_precision example_action_ids (str "tx1") (str "raw") example_actions
    example_fabtoken_attrs 0%nat example_issue example_verified eq_refl).
Defined.
