(* ===== verification/FabtokenLedger.v ===== *)
(** * The token chaincode over the fabtoken driver (token/services/network/fabric/tcc/tcc.go,
      token/core/fabtoken/v1/actions)

    [ProcessRequest]: verification (FabtokenSafety.v) followed by translation
    (Chain.v).  The theorem joins the two halves: over a whole history the
    supply of every token type changes only by issues and redeems.  Parameter:
    the JSON encoding of a token. *)

From S2P Require Import Prelude GoStd Quantity Der TokenTypes Request Limits Validator.
From S2P Require Import Htlc FabtokenActions FabtokenValidator FabtokenSafety Keys Rwset Translator Ledger Chain.
From Stdlib Require Import ZArith Lia Permutation.
Local Open Scope Z_scope.

Abbreviation Action := (action_value (TA := FTransferAction) (IA := FIssueAction)).

(** ** The driver's actions as the translator sees them *)

Section Actions.
Context (json_Token : option Output -> res bytes).

Definition issue_action (a : FIssueAction) : IssueAction :=
  mkIssueAction (mkActionWithInputs [] (Ok []) []) (FI_GetSerializedOutputs json_Token a) (FI_Metadata a) false.

Definition transfer_action (ids : list (option ID)) (a : FTransferAction) : TransferAction :=
  mkTransferAction (mkActionWithInputs ids (FT_GetSerializedInputs json_Token a) []) (length (FT_Outputs a))
    (fun i => match FT_IsRedeemAt a i with Ok b => b | _ => false end)
    (FT_SerializeOutputAt json_Token a) (FT_Metadata a) false.

(** A nil input or output is dereferenced by [GetInputs] or [IsRedeemAt]. *)
Definition to_action (a : Action) : res action :=
  match a with
  | VIssue (Some a) => Ok (AIssue (issue_action a))
  | VTransfer (Some a) =>
      ids ← FT_GetInputs a;
      if bool_decide (None ∈ FT_Outputs a) then Panic else Ok (ATransfer (transfer_action ids a))
  | _ => Panic
  end.

(** The tokens an action creates, issues, redeems and spends. *)
Definition created (a : Action) : list Output :=
  match a with
  | VIssue (Some a) => omap id (FI_Outputs a)
  | VTransfer (Some a) => filter (fun o => Output_IsRedeem o = false) (omap id (FT_Outputs a))
  | _ => []
  end.
Definition issued (a : Action) : list Output :=
  match a with VIssue (Some a) => omap id (FI_Outputs a) | _ => [] end.
Definition redeemed (a : Action) : list Output :=
  match a with
  | VTransfer (Some a) => filter (fun o => Output_IsRedeem o = true) (omap id (FT_Outputs a))
  | _ => []
  end.
Definition spent_by (a : Action) : list Output :=
  match a with VTransfer (Some a) => omap (fun i => i ≫= FIn_Input) (FT_Inputs a) | _ => [] end.

(** *** The bytes on the ledger are those of the tokens *)

Definition serialized (b : bytes) (t : Output) : Prop := Output_Serialize json_Token (Some t) = Ok b.

Lemma mapM_Forall2 {A B} (f : A -> res B) l r : mapM f l = Ok r -> Forall2 (fun x y => f x = Ok y) l r.
Proof.
  revert r; induction l as [|x l IH]; intros r; cbn [mapM].
  - intros [= <-]. constructor.
  - intros (y & Hy & (k & Hk & [= <-])%res_bind_Ok)%res_bind_Ok. constructor; [done|by apply IH].
Qed.

Lemma SerializeOutputs_Ok m1 m2 outs os : SerializeOutputs json_Token m1 m2 outs = Ok os ->
  Forall2 serialized os (omap id outs).
Proof.
  intros H%mapM_Forall2. induction H as [|[o|] b outs os Hb _ IH]; [constructor| |done].
  cbn. constructor; [|done]. by apply replace_err_Ok in Hb.
Qed.

Lemma transfer_outs_serialized TxID ids a base outs : FT_Outputs a = Some <$> outs -> forall m rest os,
  drop m outs = rest ->
  transfer_outs TxID (transfer_action ids a) base (seq m (length rest)) = Ok os ->
  Forall2 serialized os.*2 (filter (fun o => Output_IsRedeem o = false) rest).
Proof.
  intros Houts m rest. revert m. induction rest as [|o rest IH]; intros m os Hd; cbn [length seq transfer_outs].
  - intros [= <-]. constructor.
  - assert (Ho : outs !! m = Some o) by (rewrite <- (Nat.add_0_r m), <- lookup_drop, Hd; done).
    assert (Hd' : drop (S m) outs = rest) by (rewrite <- Nat.add_1_r, <- drop_drop, Hd; done).
    cbn [transfer_action IsRedeemAt SerializeOutputAt]. unfold FT_IsRedeemAt, FT_SerializeOutputAt.
    rewrite Houts, list_lookup_fmap, Ho. cbn [fmap option_fmap option_map].
    rewrite filter_cons. destruct (Output_IsRedeem o) eqn:Hr.
    + rewrite decide_False by done. by apply IH.
    + rewrite decide_True by done. intros (b & Hb & (r & Hr' & [= <-])%res_bind_Ok)%res_bind_Ok.
      cbn. constructor; [done|]. by eapply (IH (S m)).
Qed.

Lemma no_nil_some {A} (l : list (option A)) : None ∉ l -> exists l', l = Some <$> l'.
Proof.
  induction l as [|[x|] l IH]; [by exists []| |intros H; exfalso; apply H; by left].
  intros (l' & ->)%not_elem_of_cons%proj2%IH. by exists (x :: l').
Qed.

Lemma action_created TxID base a act os : to_action a = Ok act -> action_outs TxID base act = Ok os ->
  Forall2 serialized os.*2 (created a).
Proof.
  destruct a as [[a|]|[a|]]; cbn [to_action]; [|done| |done].
  - intros [= <-]. cbn [action_outs issue_action issue_GetSerializedOutputs].
    intros (bs & Hbs%SerializeOutputs_Ok & [= <-])%res_bind_Ok. cbn [created].
    assert ((imap (fun i o => (mkID TxID (u64 (base + Z.of_nat i)), o)) bs).*2 = bs) as ->; [|done].
    apply list_eq. intros i. rewrite list_lookup_fmap, list_lookup_imap. by destruct (bs !! i).
  - intros (ids & _ & H)%res_bind_Ok. case_bool_decide as Hn; [done|]. injection H as <-.
    apply no_nil_some in Hn as (outs & Houts). cbn [action_outs created]. rewrite Houts, omap_some.
    cbn [transfer_action NumOutputs]. rewrite Houts, length_fmap. by apply (transfer_outs_serialized TxID ids a base outs Houts 0).
Qed.

Lemma request_created TxID acts : forall actions base os,
  mapM to_action acts = Ok actions -> request_outputs TxID base actions = Ok os ->
  Forall2 serialized os.*2 (concat (created <$> acts)).
Proof.
  induction acts as [|a acts IH]; intros actions base os; cbn [mapM].
  - intros [= <-] [= <-]. constructor.
  - intros (x & Hx & (xs & Hxs & [= <-])%res_bind_Ok)%res_bind_Ok. cbn [request_outputs].
    intros (o1 & Ho1 & (o2 & Ho2 & [= <-])%res_bind_Ok)%res_bind_Ok.
    rewrite fmap_app. cbn [fmap list_fmap concat]. apply Forall2_app; [by eapply action_created|by eapply IH].
Qed.

(** The inputs of an action, with ids and tokens. *)
Definition inputs_ok (a : Action) : Prop :=
  match a with
  | VTransfer (Some a) => exists ids ins, FT_GetInputs a = Ok (Some <$> ids) /\ Forall2 input_token (FT_Inputs a) ins
  | _ => True
  end.

Lemma inputs_spent_serialized inputs ins : Forall2 input_token inputs ins -> forall ids sis,
  mapM (fun input => match input with None => Panic | Some i => Ok (FIn_ID i) end) inputs = Ok (Some <$> ids) ->
  mapM (fun input => match input with None => Ok [] | Some i => Output_Serialize json_Token (FIn_Input i) end) inputs = Ok sis ->
  Forall2 serialized (omap (fun '(input, si) => match input with Some id => Some (id, si) | None => None end)
                        (zip (Some <$> ids) sis)).*2 (omap (fun i => i ≫= FIn_Input) inputs).
Proof.
  induction 1 as [|inp tok inputs ins (i & -> & Hi) _ IH]; intros ids sis; cbn [mapM].
  - intros [= Hn] [= <-]. destruct ids; [constructor|done].
  - intros (x & [= <-] & (xs & Hxs & [= Hids])%res_bind_Ok)%res_bind_Ok.
    destruct ids as [|id0 ids]; [done|]. cbn in Hids. injection Hids as Hid Hids. subst xs.
    intros (s & Hs & (ss & Hss & [= <-])%res_bind_Ok)%res_bind_Ok. cbn. rewrite Hi. cbn.
    constructor; [by rewrite Hi in Hs|by apply IH].
Qed.

Lemma action_spent a act : inputs_ok a -> to_action a = Ok act ->
  (forall t, act = ATransfer t -> exists sis, GetSerializedInputs (transfer_inputs t) = Ok sis) ->
  Forall2 serialized (action_spends act).*2 (spent_by a).
Proof.
  destruct a as [[a|]|[a|]]; cbn [to_action inputs_ok]; [|done| |done].
  - intros _ [= <-] _. constructor.
  - intros (ids & ins & Hids & Hins). rewrite Hids. cbn [mbind res_mbind].
    case_bool_decide; [done|]. intros [= <-] Hs. destruct (Hs _ eq_refl) as [sis Hsis].
    cbn [action_spends transfer_action transfer_inputs spent_by]. unfold inputs_spent.
    cbn [transfer_action transfer_inputs GetSerializedInputs GetInputs] in *. rewrite Hsis.
    by eapply inputs_spent_serialized.
Qed.

Lemma request_spent TxID KT st acts : forall actions ws base, Forall inputs_ok acts ->
  mapM to_action acts = Ok actions -> request_checked KT TxID st ws base actions ->
  Forall2 serialized (request_spends actions).*2 (concat (spent_by <$> acts)).
Proof.
  induction acts as [|a acts IH]; intros actions ws base Hok; cbn [mapM].
  - intros [= <-] _. constructor.
  - apply Forall_cons in Hok as [Ha Hok]. intros (x & Hx & (xs & Hxs & [= <-])%res_bind_Ok)%res_bind_Ok.
    cbn [request_checked]. intros (Hc & e & w1 & _ & _ & Hrest).
    unfold request_spends. cbn [fmap list_fmap concat]. rewrite fmap_app. apply Forall2_app; [|by eapply IH].
    apply action_spent; [done..|]. intros t ->. destruct Hc as (sis & Hs & _). eauto.
Qed.
End Actions.

(** ** Lemmas: totals by type *)

Definition value_of (p : Z) (typ : bytes) (t : Output) : Z := if decide (Token_Type t = typ) then token_value p t else 0.

Definition total (p : Z) (typ : bytes) (ts : list Output) : Z := Zsum (value_of p typ <$> ts).

Lemma total_cons p typ t ts : total p typ (t :: ts) = value_of p typ t + total p typ ts.
Proof. done. Qed.

Lemma total_app p typ l k : total p typ (l ++ k) = total p typ l + total p typ k.
Proof. induction l as [|t l IH]; [done|]. cbn [app]. rewrite !total_cons, IH. lia. Qed.

Lemma total_perm p typ l k : l ≡ₚ k -> total p typ l = total p typ k.
Proof. induction 1; rewrite ?total_cons in *; lia. Qed.

Lemma total_redeem p typ l :
  total p typ (filter (fun o => Output_IsRedeem o = false) l) + total p typ (filter (fun o => Output_IsRedeem o = true) l)
  = total p typ l.
Proof.
  induction l as [|t l IH]; [done|]. rewrite !filter_cons, total_cons.
  destruct (Output_IsRedeem t); (rewrite decide_False by done; rewrite decide_True by done)
    || (rewrite decide_True by done; rewrite decide_False by done); rewrite total_cons; lia.
Qed.

Lemma total_of p typ ty ts : tokens_of p ty ts ->
  total p typ ts = if decide (ty = typ) then Zsum (token_value p <$> ts) else 0.
Proof.
  induction 1 as [|t ts [Ht _] _ IH]; [by destruct (decide (ty = typ))|].
  rewrite total_cons, IH. unfold value_of. rewrite Ht. by destruct (decide (ty = typ)).
Qed.

Lemma spent_by_tokens inputs ins : Forall2 input_token inputs ins -> omap (fun i => i ≫= FIn_Input) inputs = ins.
Proof. induction 1 as [|inp tok inputs ins (i & -> & Hi) _ IH]; [done|]. cbn. rewrite Hi. by f_equal. Qed.

(** If the bytes are a permutation, so are the tokens they serialize. *)
Lemma serialized_split js bs ts us bs' ts' :
  (forall b t t', t ∈ ts -> t' ∈ ts' -> serialized js b t -> serialized js b t' -> t = t') ->
  Forall2 (serialized js) bs ts -> Forall2 (serialized js) bs' ts' -> bs ≡ₚ us ++ bs' ->
  exists uts, Forall2 (serialized js) us uts /\ ts ≡ₚ uts ++ ts'.
Proof.
  intros Hinj H H' Hp. destruct (Permutation_Forall2 Hp H) as (k & Hk & HF).
  apply Forall2_app_inv_l in HF as (uts & ts2 & Hu & H2 & ->). exists uts. split; [done|].
  assert (ts2 = ts') as ->; [|done].
  assert (Hin : forall t, t ∈ ts2 -> t ∈ ts) by (intros t Ht; rewrite Hk; apply elem_of_app; by right).
  clear -Hinj H' H2 Hin. revert ts' Hinj H'. induction H2 as [|b t bs' ts2 Hb _ IH]; intros ts' Hinj H'.
  - by apply Forall2_nil_inv_l in H' as ->.
  - apply Forall2_cons_inv_l in H' as (t' & ts3 & Hb' & H3 & ->). f_equal.
    + eapply Hinj; [apply Hin; left|left|done|done].
    + apply IH; [intros x Hx; apply Hin; by right| |done]. intros b0 x y Hx Hy. apply Hinj; [done|by right].
Qed.

(** ** The chaincode (tcc.go) *)

(** A submitted request: the transaction id, the bytes, and the time at which
    it is validated. *)
Record submission := mkSubmission { sub_id : bytes; sub_raw : bytes; sub_now : Z }.

Section Chaincode.
Context {S : Type} `{HR : !ExRWSet S} `{HL : !ExRWSetLaws S} (w : option error).
Context `{IO : !IdentityOps} (PP : FabtokenPP).
Context (GetOwnerVerifier GetIssuerVerifier GetAuditorVerifier : bytes -> res (option verifier)).
Context (crypto_Hash : Z -> option (bytes -> bytes)).
Context (json_ClaimSignature_strict : bytes -> res ClaimSignature) (json_Script : bytes -> res Script).
Context (limits : ResourceLimits) (minVersion : Z).
Context (proto_IssueAction : bytes -> res PIssueAction) (proto_TransferAction : bytes -> res PTransferAction).
Context (proto_Unmarshal : bytes -> res PTokenRequest) (json_Marshal : list bytes -> res bytes).
Context (json_Token : option Output -> res bytes).
Abbreviation p := (QuantityPrecision PP).

Definition verify (x : submission) : res (list Action * ValidationAttributes) :=
  FabtokenVerify PP GetOwnerVerifier GetIssuerVerifier GetAuditorVerifier (sub_now x) crypto_Hash
    json_ClaimSignature_strict json_Script limits minVersion proto_IssueAction proto_TransferAction
    proto_Unmarshal json_Marshal (sub_id x) (sub_raw x).

Definition ProcessRequest (x : submission) : M S unit := fun s =>
  match replace_err "failed to verify token request" (verify x) with
  | Ok (acts, attributes) =>
      match mapM (to_action json_Token) acts with
      | Ok actions =>
          let '(r, t) := WriteRequest (keys_Translator w) (sub_id x) actions (TokenRequestToSign attributes) (New s) in
          (r, t_RWSet t)
      | Err e => (Err e, s)
      | Panic => (Panic, s)
      end
  | Err e => (Err e, s)
  | Panic => (Panic, s)
  end.

(** What the verifier accepts of a submission, and its transaction. *)
Definition accepted (x : submission) : list Action :=
  match verify x with Ok (acts, _) => acts | _ => [] end.

Definition sub_tx (x : submission) : tx :=
  match verify x with
  | Ok (acts, attributes) =>
      mkTx (sub_id x) (match mapM (to_action json_Token) acts with Ok actions => actions | _ => [] end)
        (TokenRequestToSign attributes)
  | _ => mkTx (sub_id x) [] []
  end.

(** The states a ledger reaches by processed requests. *)
Inductive ledger (P : ID -> bytes -> Prop) (st0 : state) : list submission -> state -> Prop :=
| ledger_empty : ledger P st0 [] st0
| ledger_process h st x s s' st' : ledger P st0 h st -> tx_ok P (sub_tx x) ->
    (forall k, store s k = st k) -> pending s = [] -> ProcessRequest x s = (Ok tt, s') ->
    (forall k, st' k = apply_writes st (pending s') k) -> ledger P st0 (h ++ [x]) st'.

Lemma ProcessRequest_Ok x s s' : ProcessRequest x s = (Ok tt, s') ->
  exists attributes actions t', verify x = Ok (accepted x, attributes) /\
    mapM (to_action json_Token) (accepted x) = Ok actions /\
    sub_tx x = mkTx (sub_id x) actions (TokenRequestToSign attributes) /\
    WriteRequest (keys_Translator w) (sub_id x) actions (TokenRequestToSign attributes) (New s) = (Ok tt, t') /\
    s' = t_RWSet t'.
Proof.
  unfold ProcessRequest, accepted, sub_tx. destruct (verify x) as [[acts attributes]| |]; [|done..]. cbn [replace_err].
  destruct (mapM (to_action json_Token) acts) as [actions| |] eqn:Ea; [|done..].
  destruct (WriteRequest _ _ _ _ _) as [r t] eqn:E. intros [= -> <-]. by exists attributes, actions, t.
Qed.

Lemma ledger_chain P st0 h st : ledger P st0 h st -> chain w P st0 (sub_tx <$> h) st.
Proof.
  induction 1 as [|h st x s s' st' _ IH Hok Hst Hp H Hst']; [constructor|]. rewrite fmap_app.
  apply (chain_commit w P st0 _ st); [done|done|].
  destruct (ProcessRequest_Ok _ _ _ H) as (attributes & actions & t' & _ & _ & Htx & HW & ->).
  exists s, t', tt. rewrite Htx. done.
Qed.

(** What a processed request issues, redeems and creates, over a history. *)
Definition over (f : Action -> list Output) (h : list submission) : list Output :=
  concat ((fun x => concat (f <$> accepted x)) <$> h).

Lemma over_snoc f h x : over f (h ++ [x]) = over f h ++ concat (f <$> accepted x).
Proof. unfold over. rewrite fmap_app, concat_app. cbn. by rewrite app_nil_r. Qed.

Lemma accepted_balance x attributes : 0 < p < two63 -> MaxActions limits <= two32 ->
  verify x = Ok (accepted x, attributes) -> Forall (fun a => inputs_ok a /\ forall typ,
    total p typ (created a) + total p typ (redeemed a) = total p typ (issued a) + total p typ (spent_by a)) (accepted x).
Proof.
  intros Hp Hmax Hv. apply Forall_forall. intros a (i & Hi)%list_elem_of_lookup.
  destruct a as [[a|]|[a|]]; cbn [inputs_ok created redeemed issued spent_by]; [|done| |done].
  { split; [done|]. intros typ. unfold total at 2 4. cbn. lia. }
  destruct (accepted_transfer _ _ _ _ _ _ _ _ _ _ _ _ _ _ _ _ _ _ _ _ Hp Hmax Hv Hi)
    as (tr & _ & _ & ty & ins & outs & ovs & ivs & [Hin Hids Houts _ _ Ti To Hsum _ _ _ _ _ _]).
  destruct Hids as (ids & Hids). split; [by exists ids, ins|]. intros typ.
  rewrite (spent_by_tokens _ _ Hin), Houts, omap_some, total_redeem, (total_of _ _ _ _ Ti), (total_of _ _ _ _ To), Hsum.
  unfold total at 1. cbn. lia.
Qed.

Lemma accepted_totals (acts : list Action) typ : Forall (fun a => inputs_ok a /\ forall typ,
    total p typ (created a) + total p typ (redeemed a) = total p typ (issued a) + total p typ (spent_by a)) acts ->
  total p typ (concat (created <$> acts)) + total p typ (concat (redeemed <$> acts)) =
  total p typ (concat (issued <$> acts)) + total p typ (concat (spent_by <$> acts)).
Proof.
  induction 1 as [|a acts [_ Ha] _ IH]; [done|]. specialize (Ha typ). rewrite !fmap_cons. cbn [concat]. rewrite !total_app. lia.
Qed.

(** The tokens behind the bytes a history creates and spends, and their
    balance. *)
Lemma ledger_totals P st0 h st : 0 < p < two63 -> MaxActions limits <= two32 -> ledger P st0 h st ->
  Forall2 (serialized json_Token) (creates_of (sub_tx <$> h)).*2 (over created h) /\
  Forall2 (serialized json_Token) (spends_of (sub_tx <$> h)).*2 (over spent_by h) /\
  forall typ, total p typ (over created h) + total p typ (over redeemed h) =
              total p typ (over issued h) + total p typ (over spent_by h).
Proof.
  intros Hp Hmax. induction 1 as [|h st x s s' st' _ (IHc & IHs & IHt) Hok Hst Hpend H Hst'].
  { split_and!; [constructor|constructor|done]. }
  destruct (ProcessRequest_Ok _ _ _ H) as (attributes & actions & t' & Hv & Hm & Htx & HW & ->).
  pose proof (accepted_balance _ _ Hp Hmax Hv) as Hbal.
  destruct (WriteRequest_effect _ _ _ _ _ _ _ HW) as (l & ws & sp & kr & kh & v & Hl & _ & _ & _ & _ & _ & _ & _ & _ & Hchk & _).
  destruct (request_log_output _ _ _ _ Hl) as (outs & Houts & _).
  rewrite fmap_app. change (sub_tx <$> [x]) with [sub_tx x].
  rewrite creates_of_snoc, spends_of_snoc, !fmap_app, !over_snoc. rewrite Htx. cbn [tx_actions]. split_and!.
  - apply Forall2_app; [done|]. unfold tx_outs. cbn [tx_id tx_actions]. rewrite Houts. by eapply request_created.
  - apply Forall2_app; [done|]. eapply request_spent; [|done|done].
    eapply Forall_impl; [exact Hbal|]. by intros a [? _].
  - intros typ. rewrite !total_app. specialize (IHt typ). pose proof (accepted_totals _ typ Hbal) as E. lia.
Qed.

(** ** Properties *)

(** C1: the supply of every token type changes only by issues and redeems.
    Start from a ledger without tokens and process any requests through the
    chaincode.  Then the tokens created and not spent are all on the ledger,
    under their ids, and for every type their total value is what was issued
    of the type minus what was redeemed.  The tokens of the history have
    distinct serializations and distinct serial-number keys. *)
Theorem fabtoken_supply P st0 h st :
  0 < p < two63 -> MaxActions limits <= two32 ->
  sn_distinct w P -> (forall id o, P id o -> id_ok id) -> sn_free w P st0 ->
  (forall b t t', t ∈ over created h -> t' ∈ over spent_by h ->
     serialized json_Token b t -> serialized json_Token b t' -> t = t') ->
  ledger P st0 h st ->
  exists unspent, Forall2 (serialized json_Token) (unspent_of (sub_tx <$> h)).*2 unspent /\
    (forall id o k, (id, o) ∈ unspent_of (sub_tx <$> h) ->
       CreateOutputKey (keys_Translator w) (TxId id) (Index id) = Ok k -> st k = o) /\
    forall typ, total p typ unspent = total p typ (over issued h) - total p typ (over redeemed h).
Proof.
  intros Hp Hmax HP Hok Hfree Hser Hled. pose proof (ledger_chain _ _ _ _ Hled) as Hch.
  destruct (ledger_totals _ _ _ _ Hp Hmax Hled) as (Hc & Hs & Ht).
  destruct (chain_creates w P HP Hok _ _ _ Hfree Hch) as [_ Hlive].
  pose proof (chain_partition w P HP Hok _ _ _ Hfree Hch) as Hpart.
  apply (fmap_Permutation snd) in Hpart. rewrite fmap_app in Hpart.
  destruct (serialized_split _ _ _ _ _ _ Hser Hc Hs Hpart) as (uts & Hu & Hperm).
  exists uts. split_and!; [done|done|]. intros typ. specialize (Ht typ).
  rewrite (total_perm _ _ _ _ Hperm), total_app in Ht. lia.
Qed.
End Chaincode.

(** ** Witness: ten issued, six transferred and four redeemed *)

#[local] Existing Instance example_rws.

Definition carol : bytes := WrapWithType X509IdentityType (str "carol").
Definition coin10 : Output := mkToken bob (str "EUR") (str "0x0a").
Definition coin6 : Output := mkToken carol (str "EUR") (str "0x06").
Definition coin4 : Output := mkToken [] (str "EUR") (str "0x04").
Definition json_coin (t : option Output) : res bytes :=
  match t with Some t => Ok (Token_Owner t ++ str "|" ++ Token_Type t ++ str "|" ++ Token_Quantity t) | None => Ok (str "null") end.

Definition supply_issue : PIssueAction :=
  mkPIssueAction 1 (Some (str "issuer")) [Some (Some (token_proto coin10))] [].
Definition supply_transfer : PTransferAction :=
  mkPTransferAction 1 [Some (mkPInput (Some (mkID (str "tx1") 0)) (Some (token_proto coin10)))]
    [Some (Some (token_proto coin6)); Some (Some (token_proto coin4))] [] (Some (str "issuer")).
Definition supply_request (raw : bytes) : res PTokenRequest :=
  let sig := Some (PActionSig (Some (mkPActionSignature 0 (Some (str "sig"))))) in
  let audit := Some (PAuditorSig (Some (mkPAuditorSignature (Some (str "auditor")) (Some (str "sig"))))) in
  if decide (raw = str "issue") then Ok (mkPTokenRequest 1 [Some (PTyped (Some (mkPTypedAction 1 raw)))] [sig; audit])
  else Ok (mkPTokenRequest 1 [Some (PTyped (Some (mkPTypedAction 2 raw)))] [sig; sig; audit]).

Abbreviation supply_ProcessRequest :=
  (@ProcessRequest stub example_rws None bytes_identity example_PP accept_all accept_all accept_all example_hash example_claim
     (fun _ => Ok swap) DefaultResourceLimits 1 (fun _ => Ok supply_issue) (fun _ => Ok supply_transfer)
     supply_request example_json json_coin).
Abbreviation supply_tx :=
  (@sub_tx bytes_identity example_PP accept_all accept_all accept_all example_hash example_claim
     (fun _ => Ok swap) DefaultResourceLimits 1 (fun _ => Ok supply_issue) (fun _ => Ok supply_transfer)
     supply_request example_json json_coin).
Abbreviation supply_over :=
  (@over bytes_identity example_PP accept_all accept_all accept_all example_hash example_claim
     (fun _ => Ok swap) DefaultResourceLimits 1 (fun _ => Ok supply_issue) (fun _ => Ok supply_transfer)
     supply_request example_json).
Abbreviation supply_ledger :=
  (@ledger stub example_rws (@RWSetWrapper_laws stub _ [] _) None bytes_identity example_PP accept_all accept_all accept_all
     example_hash example_claim (fun _ => Ok swap) DefaultResourceLimits 1 (fun _ => Ok supply_issue)
     (fun _ => Ok supply_transfer) supply_request example_json json_coin).

Definition sub1 : submission := mkSubmission (str "tx1") (str "issue") 0.
Definition sub2 : submission := mkSubmission (str "tx2") (str "transfer") 1.
Definition bytes10 : bytes := Eval vm_compute in match Output_Serialize json_coin (Some coin10) with Ok b => b | _ => [] end.
Definition bytes6 : bytes := Eval vm_compute in match Output_Serialize json_coin (Some coin6) with Ok b => b | _ => [] end.
Definition supply_P : ID -> bytes -> Prop := two_tokens (mkID (str "tx1") 0, bytes10) (mkID (str "tx2") 0, bytes6).

Definition supply_state1 : stub := Eval vm_compute in stub_commit (snd (supply_ProcessRequest sub1 genesis)).
Definition supply_state2 : stub := Eval vm_compute in stub_commit (snd (supply_ProcessRequest sub2 supply_state1)).
Example supply_run : (fst (supply_ProcessRequest sub1 genesis), fst (supply_ProcessRequest sub2 supply_state1)) = (Ok tt, Ok tt).
Proof. vm_compute. reflexivity. Qed.

Definition supply_key1 : bytes := Eval vm_compute in match sn_key_of (mkID (str "tx1") 0, bytes10) with Ok k => k | _ => [] end.
Definition supply_key2 : bytes := Eval vm_compute in match sn_key_of (mkID (str "tx2") 0, bytes6) with Ok k => k | _ => [] end.

Lemma supply_distinct : sn_distinct None supply_P.
Proof. apply (two_distinct _ _ supply_key1 supply_key2); [vm_compute; reflexivity..|discriminate]. Qed.

Lemma supply_ids id o : supply_P id o -> id_ok id.
Proof. intros [[= -> ->]|[= -> ->]]%two_tokens_cases; (split; [done|by apply not_reserved; vm_compute]). Qed.

Lemma supply_free : sn_free None supply_P (fun k => default [] (stub_state genesis !! k)).
Proof. apply (two_free _ _ supply_key1 supply_key2); vm_compute; reflexivity. Qed.

(** A log that writes the serial numbers of two tokens only. *)
Definition sn_events (l : res (list event)) (a b : ID * bytes) : bool :=
  match l with
  | Ok l => forallb (fun e => match e with
                              | EvWrite (EOutputSN id i o) _ => bool_decide ((mkID id i, o) ∈ [a; b])
                              | _ => true
                              end) l
  | _ => true
  end.

Lemma sn_events_ok r a b l id i o v : sn_events r a b = true -> r = Ok l -> EvWrite (EOutputSN id i o) v ∈ l ->
  two_tokens a b (mkID id i) o.
Proof.
  intros H -> Hin. cbn in H. rewrite forallb_forall in H. apply list_elem_of_In, H in Hin. by apply bool_decide_eq_true in Hin.
Qed.

Lemma supply_tx_ok x ins : tx_id (supply_tx x) ∉ reserved_prefixes -> request_inputs (tx_actions (supply_tx x)) = ins ->
  Forall id_ok ins -> Forall (fun id => TxId id <> tx_id (supply_tx x)) ins ->
  request_size (tx_actions (supply_tx x)) <= two64 ->
  sn_events (request_log (tx_id (supply_tx x)) 0 (tx_actions (supply_tx x))) (mkID (str "tx1") 0, bytes10) (mkID (str "tx2") 0, bytes6) = true ->
  tx_ok supply_P (supply_tx x).
Proof. intros Hr <- Hi Hs Hz He. split_and!; [done..|]. intros l id i o v Hl Hin. by eapply sn_events_ok. Qed.

Lemma supply_tx1_ok : tx_ok supply_P (supply_tx sub1).
Proof.
  apply (supply_tx_ok sub1 []); [apply not_reserved; vm_compute; reflexivity|vm_compute; reflexivity|constructor|constructor| |].
  - apply Z.leb_le. vm_compute. reflexivity.
  - vm_compute. reflexivity.
Qed.

Lemma supply_tx2_ok : tx_ok supply_P (supply_tx sub2).
Proof.
  apply (supply_tx_ok sub2 [mkID (str "tx1") 0]);
    [apply not_reserved; vm_compute; reflexivity|vm_compute; reflexivity| | | |].
  - apply Forall_singleton. split; [done|by apply not_reserved; vm_compute].
  - apply Forall_singleton. assert (E : tx_id (supply_tx sub2) = str "tx2") by (vm_compute; reflexivity). by rewrite E.
  - apply Z.leb_le. vm_compute. reflexivity.
  - vm_compute. reflexivity.
Qed.

Definition view (s : stub) : state := fun k => default [] (stub_state s !! k).

Lemma supply_step st0 h s x s1 : supply_ledger supply_P st0 h (view s) -> stub_writes s = [] ->
  tx_ok supply_P (supply_tx x) -> fst (supply_ProcessRequest x s) = Ok tt ->
  s1 = stub_commit (snd (supply_ProcessRequest x s)) -> supply_ledger supply_P st0 (h ++ [x]) (view s1).
Proof.
  intros Hl Hw Hok Hr ->. apply run_ok in Hr.
  eapply (@ledger_process stub _ _ None _ _ _ _ _ _ _ _ _ _ _ _ _ _ _ supply_P st0 h (view s) x s); [done|done|done|done|exact Hr|].
  pose proof (ProcessRequest_Ok _ _ _ _ _ _ _ _ _ _ _ _ _ _ _ _ _ _ Hr) as (attributes & actions & t' & _ & _ & _ & HW & Hs').
  destruct (WriteRequest_effect _ _ _ _ _ _ _ HW) as (l & ws & sp & kr & kh & v & _ & _ & _ & _ & _ & Hst & _).
  intros k. unfold view at 1. rewrite stub_commit_spec, Hs'.
  change (fun k => default [] (stub_state (t_RWSet t') !! k)) with (store (t_RWSet t')). by rewrite Hst.
Qed.

Lemma supply_history : supply_ledger supply_P (view genesis) [sub1; sub2] (view supply_state2).
Proof.
  apply (supply_step _ [sub1] supply_state1); [|reflexivity|apply supply_tx2_ok|vm_compute; reflexivity|vm_compute; reflexivity].
  apply (supply_step _ [] genesis); [constructor|reflexivity|apply supply_tx1_ok|vm_compute; reflexivity|vm_compute; reflexivity].
Qed.

Lemma supply_created : supply_over created [sub1; sub2] = [coin10; coin6].
Proof. vm_compute. reflexivity. Qed.
Lemma supply_spent : supply_over spent_by [sub1; sub2] = [coin10].
Proof. vm_compute. reflexivity. Qed.

Lemma serialized_bytes t b b' : serialized json_coin b t -> Output_Serialize json_coin (Some t) = Ok b' -> b = b'.
Proof. unfold serialized. congruence. Qed.

Lemma supply_serialized b t t' : t ∈ supply_over created [sub1; sub2] -> t' ∈ supply_over spent_by [sub1; sub2] ->
  serialized json_coin b t -> serialized json_coin b t' -> t = t'.
Proof.
  rewrite supply_created, supply_spent, !elem_of_cons, !elem_of_nil. intros Ht [->|[]] Hb Hb'.
  apply (serialized_bytes _ _ bytes10) in Hb'; [|vm_compute; reflexivity]. destruct Ht as [->|[->|[]]]; [done|].
  apply (serialized_bytes _ _ bytes6) in Hb; [|vm_compute; reflexivity]. subst b. discriminate.
Qed.

Lemma fabtoken_supply_witness :
  exists unspent, Forall2 (serialized json_coin) (unspent_of (supply_tx <$> [sub1; sub2])).*2 unspent /\
    (forall id o k, (id, o) ∈ unspent_of (supply_tx <$> [sub1; sub2]) ->
       CreateOutputKey (keys_Translator None) (TxId id) (Index id) = Ok k -> view supply_state2 k = o) /\
    forall typ, total 64 typ unspent = total 64 typ (supply_over issued [sub1; sub2]) - total 64 typ (supply_over redeemed [sub1; sub2]).
Proof.
  apply (@fabtoken_supply stub example_rws (@RWSetWrapper_laws stub _ [] _) None bytes_identity example_PP accept_all accept_all
    accept_all example_hash example_claim (fun _ => Ok swap) DefaultResourceLimits 1 (fun _ => Ok supply_issue)
    (fun _ => Ok supply_transfer) supply_request example_json json_coin supply_P (view genesis) [sub1; sub2]
    (view supply_state2) example_precision example_action_ids supply_distinct supply_ids supply_free supply_serialized supply_history).
Defined.
