(* ===== verification/ZkActions.v ===== *)
(** * Actions of the zero-knowledge driver (zkatdlog/nogh/v1/transfer/action.go,
      transfer/limits.go, issue/action.go, issue/limits.go, token/token.go,
      nogh/protos-go/utils/proto.go)

    Tokens that are commitments, the issue and transfer actions over them, their
    protobuf form and their structural validation.  Points and scalars travel as
    the JSON of the curve library, which names the curve: an action can hold
    points of any curve the library knows.  Parameters: that JSON codec, and the
    protobuf codec of tokens. *)

From S2P Require Import Prelude GoStd Der TokenTypes Request Limits FabtokenActions ZkMath ZkIpa ZkRange ZkSigma ZkCodec ZkTransfer.
From Stdlib Require Import ZArith Lia.
Local Open Scope Z_scope.

(** [rp.ProofType]. *)
Definition RangeProofType : Z := 1.
Definition CSPRangeProofType : Z := 2.

(** [comm.Type]. *)
Definition comm_Type : Z := 2.

Definition ErrMissingFabToken : error := EMsg "missing FabToken".
Definition ErrMissingFabTokenOwner : error := EMsg "missing FabToken.Owner".
Definition ErrMissingFabTokenType : error := EMsg "missing FabToken.Type".
Definition ErrMissingFabTokenQuantity : error := EMsg "missing FabToken.Quantity".
Definition ErrMissingUpgradeBlindingFactor : error := EMsg "missing BlindingFactor".
Definition ErrInvalidTransferProofType : error := EMsg "Type is invalid".
Definition ErrInvalidIssueProofType : error := EMsg "invalid proof type".
Definition ErrEmptyProof : error := EMsg "proof cannot be empty".

(** ** Limits (limits.go); [act] is "transfer action" or "issue action" *)

Definition limit_error (act what : string) : error := EWrap (EMsg (act +:+ what)) "limit".

Definition zk_checkMetadataEntry (act : string) (maxKeyBytes maxValueBytes : Z) (_ : nat) (kv : bytes * bytes) : res unit :=
  reject_if (zlen (fst kv) >? maxKeyBytes) (limit_error act " metadata key exceeds maximum allowed size") ;;
  reject_if (zlen (snd kv) >? maxValueBytes) (limit_error act " metadata value exceeds maximum allowed size").

Definition zk_checkMetadataLimits (act : string) (metadata : gomap bytes) (maxEntries maxKeyBytes maxValueBytes : Z) : res unit :=
  reject_if (zlen metadata >? maxEntries) (limit_error act " exceeds maximum allowed number of metadata entries") ;;
  rangeR (zk_checkMetadataEntry act maxKeyBytes maxValueBytes) 0 metadata.

(** The generated messages.  [math.G1] and [math.Zr] hold raw JSON. *)
Record PzToken := mkPzToken { pzt_Owner : bytes; pzt_Data : option bytes }.
Record PUpgradeWitness := mkPUpgradeWitness { puw_Output : option PToken; puw_BlindingFactor : option bytes }.
Record PzInput := mkPzInput { pzi_TokenId : option ID; pzi_Input : option PzToken; pzi_UpgradeWitness : option PUpgradeWitness }.
Inductive PProof := PProof_None | PProof_Proof (b : bytes) | PProof_Csp (b : bytes).
Record PzTransferAction := mkPzTransfer {
  pzt_Version : Z;
  pzt_Inputs : list (option PzInput);
  pzt_Outputs : list (option (option PzToken));
  pzt_Proof : option PProof;
  pzt_Metadata : gomap bytes;
  pzt_Issuer : option bytes;
}.
Record PzIssueInput := mkPzIssueInput { pii_Id : option ID; pii_Token : bytes }.
Record PzIssueAction := mkPzIssue {
  pzi_Version : Z;
  pzi_Issuer : option bytes;
  pzi_Inputs : list (option PzIssueInput);
  pzi_Outputs : list (option (option PzToken));
  pzi_Proof : option PProof;
  pzi_Metadata : gomap bytes;
}.

Definition GetProof (p : PProof) : bytes := match p with PProof_Proof b => b | _ => [] end.
Definition GetCspBasedProof (p : PProof) : bytes := match p with PProof_Csp b => b | _ => [] end.

Section Actions.
Context {CO : Curve} {NA : Native} {WI : Wire}.
Context (G1_MarshalJSON : wire G1 -> res bytes) (Zr_MarshalJSON : wire Zr -> res bytes).
Context (G1_UnmarshalJSON : bytes -> res (wire G1)) (Zr_UnmarshalJSON : bytes -> res (wire Zr)).

(** ** Elements (nogh/protos-go/utils/proto.go) *)

Definition ToProtoG1 (s : option (wire G1)) : res bytes := match s with None => Ok [] | Some w => G1_MarshalJSON w end.
Definition ToProtoZr (s : option (wire Zr)) : res bytes := match s with None => Ok [] | Some w => Zr_MarshalJSON w end.

(** A panic of the library's decoder is recovered. *)
Definition recovered {A} (msg caught : string) (r : res A) : res A :=
  match r with Panic => Err (EMsg caught) | _ => wrap msg r end.

Definition FromG1Proto (p : option bytes) : res (option (wire G1)) :=
  match p with
  | None | Some [] => Ok None
  | Some raw => w ← recovered "failed to unmarshal G1" "failed to unmarshal G1: caught panic" (G1_UnmarshalJSON raw); Ok (Some w)
  end.

Definition FromZrProto (p : option bytes) : res (option (wire Zr)) :=
  match p with
  | None => Ok None
  | Some raw => w ← recovered "failed to unmarshal Zr" "failed to unmarshal Zr: caught panic" (Zr_UnmarshalJSON raw); Ok (Some w)
  end.

(** ** Tokens (token/token.go) *)

Record zToken := mkzToken { zt_Owner : bytes; zt_Data : commitment }.

Definition zToken_IsRedeem (t : zToken) : bool := zlen (zt_Owner t) =? 0.

Definition zToken_Validate (checkOwner : bool) (t : zToken) : res unit :=
  if checkOwner && (zlen (zt_Owner t) =? 0) then Err zk_ErrEmptyOwner
  else match zt_Data t with None => Err zk_ErrEmptyTokenData | Some _ => Ok tt end.

Record UpgradeWitness := mkUpgradeWitness { uw_FabToken : option Output; uw_BlindingFactor : option (wire Zr) }.

Definition UpgradeWitness_Validate (u : UpgradeWitness) : res unit :=
  match uw_FabToken u with
  | None => Err ErrMissingFabToken
  | Some t =>
      reject_if (zlen (Token_Owner t) =? 0) ErrMissingFabTokenOwner ;;
      reject_if (zlen (Token_Type t) =? 0) ErrMissingFabTokenType ;;
      reject_if (zlen (Token_Quantity t) =? 0) ErrMissingFabTokenQuantity ;;
      match uw_BlindingFactor u with None => Err ErrMissingUpgradeBlindingFactor | Some _ => Ok tt end
  end.

Section TokenCodec.
(** [proto.Marshal] and [proto.Unmarshal] of [actions.Token]. *)
Context (proto_MarshalToken : PzToken -> res bytes) (proto_UnmarshalToken : bytes -> res PzToken).

Definition zToken_Serialize (t : zToken) : res bytes :=
  data ← wrap "failed to serialize output" (ToProtoG1 (zt_Data t));
  raw ← wrap "failed serializing token" (proto_MarshalToken (mkPzToken (zt_Owner t) (Some data)));
  Ok (TypedToken_Bytes comm_Type raw).
End TokenCodec.

(** ** The transfer action *)

Record ZActionInput := mkZInput { zin_ID : option ID; zin_Token : option zToken; zin_UpgradeWitness : option UpgradeWitness }.

Record ZTransferAction := mkZTransferAction {
  ZT_Inputs : list (option ZActionInput);
  ZT_Outputs : list (option zToken);
  ZT_ProofType : Z;
  ZT_Proof : bytes;
  ZT_Metadata : gomap bytes;
  ZT_Issuer : option bytes;
  ZT_limits : option ResourceLimits;
}.

Definition ZActionInput_ToProtos (a : ZActionInput) : res PzInput :=
  input ← (match zin_Token a with
           | None => Ok None
           | Some t => data ← ToProtoG1 (zt_Data t); Ok (Some (mkPzToken (zt_Owner t) (Some data)))
           end);
  witness ← (match zin_UpgradeWitness a with
             | None => Ok None
             | Some u => bf ← ToProtoZr (uw_BlindingFactor u); Ok (Some (mkPUpgradeWitness (token_proto <$> uw_FabToken u) (Some bf)))
             end);
  Ok (mkPzInput (zin_ID a) input witness).

Definition ZActionInput_FromProtos (input : PzInput) (a : ZActionInput) : res ZActionInput :=
  token ← (match pzi_Input input with
           | None => Ok (zin_Token a)
           | Some t => data ← FromG1Proto (pzt_Data t); Ok (Some (mkzToken (pzt_Owner t) data))
           end);
  witness ← (match pzi_UpgradeWitness input with
             | None => Ok (zin_UpgradeWitness a)
             | Some u => bf ← FromZrProto (puw_BlindingFactor u); Ok (Some (mkUpgradeWitness (proto_token <$> puw_Output u) bf))
             end);
  Ok (mkZInput (match pzi_TokenId input with Some id => Some id | None => zin_ID a end) token witness).

(** The outputs of both actions. *)
Definition zToken_ToProtos (output : zToken) : res (option PzToken) :=
  data ← ToProtoG1 (zt_Data output); Ok (Some (mkPzToken (zt_Owner output) (Some data))).

Definition zToken_FromProtos (act : string) (fail : forall A, res A -> res A) (output : option (option PzToken)) : res (option zToken) :=
  match output with
  | None => Err (EMsg ("invalid " +:+ act +:+ ": output at index is nil"))
  | Some None => Err (EMsg ("invalid " +:+ act +:+ ": token of output at index is nil"))
  | Some (Some t) => data ← fail _ (FromG1Proto (pzt_Data t)); Ok (Some (mkzToken (pzt_Owner t) data))
  end.

(** The oneof of both actions. *)
Definition proof_ToProtos (bad : error) (typ : Z) (proof : bytes) : res PProof :=
  if typ =? RangeProofType then Ok (PProof_Proof proof)
  else if typ =? CSPRangeProofType then Ok (PProof_Csp proof) else Err bad.

Definition proof_FromProtos (bad : error) (p : option PProof) : res (Z * bytes) :=
  match p with
  | None => Ok (0, [])
  | Some (PProof_Csp b) => Ok (CSPRangeProofType, b)
  | Some (PProof_Proof b) => Ok (RangeProofType, b)
  | Some PProof_None => Err bad
  end.

Definition proof_within (act : string) (l : ResourceLimits) (p : option PProof) : res unit :=
  match p with
  | None => Ok tt
  | Some p => reject_if ((zlen (GetProof p) >? MaxProofBytes l) || (zlen (GetCspBasedProof p) >? MaxProofBytes l))
                (limit_error act " proof exceeds maximum allowed size")
  end.

(** An identity field: protobuf has no empty value of [bytes]. *)
Definition identity_field (raw : option bytes) : option bytes := match raw with Some (b :: l) => Some (b :: l) | _ => None end.

(** The message [Serialize] hands to [proto.Marshal]. *)
Definition ZTransferAction_ToProtos (t : ZTransferAction) : res PzTransferAction :=
  inputs ← wrap "failed to serialize inputs" (ToProtosSlice ZActionInput_ToProtos (ZT_Inputs t));
  outputs ← wrap "failed to serialize outputs" (ToProtosSlice (fun o => wrap "failed to serialize output" (zToken_ToProtos o)) (ZT_Outputs t));
  proof ← proof_ToProtos ErrInvalidTransferProofType (ZT_ProofType t) (ZT_Proof t);
  Ok (mkPzTransfer ProtocolV1 inputs outputs (Some proof) (ZT_Metadata t) (ZT_Issuer t)).

(** [Deserialize] after [proto.Unmarshal]. *)
Definition ZTransferAction_FromProtos (limits : option ResourceLimits) (action : PzTransferAction) : res ZTransferAction :=
  let act := "transfer action" in
  if negb (pzt_Version action =? ProtocolV1) then Err (EWrap (EMsg "invalid transfer version") "expected") else
  let l := effectiveLimits limits in
  reject_if (zlen (pzt_Inputs action) >? MaxInputs l) (limit_error act " exceeds maximum allowed number of inputs") ;;
  reject_if (zlen (pzt_Outputs action) >? MaxOutputs l) (limit_error act " exceeds maximum allowed number of outputs") ;;
  zk_checkMetadataLimits act (pzt_Metadata action) (MaxMetadataEntries l) (MaxMetadataKeyBytes l) (MaxMetadataValueBytes l) ;;
  proof_within act l (pzt_Proof action) ;;
  inputs ← wrap "failed unmarshalling inputs"
    (FromProtosSlice ZActionInput_FromProtos (pzt_Inputs action) (replicate (length (pzt_Inputs action)) (mkZInput None None None)));
  outputs ← mapM (zToken_FromProtos act (fun _ r => wrap "failed to deserialize output" r)) (pzt_Outputs action);
  '(typ, proof) ← proof_FromProtos ErrInvalidTransferProofType (pzt_Proof action);
  Ok (mkZTransferAction inputs outputs typ proof (pzt_Metadata action) (identity_field (pzt_Issuer action)) limits).

Definition ZT_Validate_input (_ : nat) (inp : option ZActionInput) : res unit :=
  match inp with
  | None => Err (EWrap (EMsg "invalid input, empty input") "invalid input at index, empty input")
  | Some i =>
      match zin_ID i with
      | None => Err (EWrap (EMsg "invalid input's ID, it is empty") "invalid input's ID at index, it is empty")
      | Some id =>
          if zlen (TxId id) =? 0 then Err (EWrap (EMsg "invalid input's ID, tx id is empty") "invalid input's ID at index, tx id is empty") else
          match zin_Token i with
          | None => Err (EWrap (EMsg "invalid input's token, empty token") "invalid input's token at index, empty token")
          | Some t =>
              wrap "invalid input token at index" (zToken_Validate true t) ;;
              match zin_UpgradeWitness i with
              | None => Ok tt
              | Some u => wrap "invalid input's upgrade witness at index" (UpgradeWitness_Validate u)
              end
          end
      end
  end.

Definition ZT_Validate_output (_ : nat) (out : option zToken) : res unit :=
  match out with
  | None => Err (EWrap (EMsg "invalid output token, empty token") "invalid output token at index")
  | Some o => wrap "invalid output at index" (zToken_Validate false o)
  end.

Definition ZTransferAction_Validate (t : ZTransferAction) : res unit :=
  let act := "transfer action" in
  reject_if (zlen (ZT_Inputs t) =? 0) ErrInvalidInputs ;;
  let l := effectiveLimits (ZT_limits t) in
  reject_if (zlen (ZT_Inputs t) >? MaxInputs l) (limit_error act " exceeds maximum allowed number of inputs") ;;
  rangeR ZT_Validate_input 0 (ZT_Inputs t) ;;
  reject_if (zlen (ZT_Outputs t) =? 0) (EMsg "invalid number of token outputs, expected at least 1") ;;
  reject_if (zlen (ZT_Outputs t) >? MaxOutputs l) (limit_error act " exceeds maximum allowed number of outputs") ;;
  rangeR ZT_Validate_output 0 (ZT_Outputs t) ;;
  reject_if (negb (ZT_ProofType t =? RangeProofType) && negb (ZT_ProofType t =? CSPRangeProofType)) ErrInvalidTransferProofType ;;
  reject_if (zlen (ZT_Proof t) =? 0) ErrEmptyProof ;;
  reject_if (zlen (ZT_Proof t) >? MaxProofBytes l) (limit_error act " proof exceeds maximum allowed size") ;;
  zk_checkMetadataLimits act (ZT_Metadata t) (MaxMetadataEntries l) (MaxMetadataKeyBytes l) (MaxMetadataValueBytes l).

(** [NewAction]. *)
Definition NewTransferAction (tokenIDs : list (option ID)) (inputToken : list (option zToken)) (commitments : list commitment) (owners : list bytes)
    (proof : bytes) (proofType : Z) : res ZTransferAction :=
  if negb (length commitments =? length owners)%nat then Err (EWrap (EMsg "number of recipients does not match number of outputs") "number of recipients does not match number of outputs") else
  if negb (length tokenIDs =? length inputToken)%nat then Err (EWrap (EMsg "number of inputs does not match number of input tokens") "number of inputs does not match number of input tokens") else
  Ok (mkZTransferAction (zip_with (fun id t => Some (mkZInput id t None)) tokenIDs inputToken)
        (zip_with (fun o owner => Some (mkzToken owner o)) commitments owners) proofType proof [] None None).

(** *** What the translator and the validator read off a transfer *)

Definition ZT_GetInputs (t : ZTransferAction) : list (option ID) :=
  (fun i => match i with None => None | Some i => zin_ID i end) <$> ZT_Inputs t.

Definition ZT_GetOutputCommitments (t : ZTransferAction) : list commitment := zt_Data <$> omap id (ZT_Outputs t).

Definition ZT_IsRedeemAt (t : ZTransferAction) (index : nat) : bool :=
  match ZT_Outputs t !! index with Some (Some o) => zToken_IsRedeem o | _ => false end.

Section Serialized.
Context (proto_MarshalToken : PzToken -> res bytes) (json_Token : option Output -> res bytes).

(** An upgraded input stands for the cleartext token it opens to. *)
Definition ZT_GetSerializedInputs (t : ZTransferAction) : res (list bytes) :=
  mapM (fun input => match input with
                     | None => Ok []
                     | Some i => match zin_UpgradeWitness i with
                                 | Some w => Output_Serialize json_Token (uw_FabToken w)
                                 | None => match zin_Token i with
                                           | None => Err (EMsg "nil token in input at index")
                                           | Some t => zToken_Serialize proto_MarshalToken t
                                           end
                                 end
                     end) (ZT_Inputs t).

Definition ZT_SerializeOutputAt (t : ZTransferAction) (index : nat) : res bytes :=
  match ZT_Outputs t !! index with
  | None => Err (EMsg "SerializeOutputAt: index out of bounds")
  | Some None => Err (EMsg "SerializeOutputAt: nil output at index")
  | Some (Some o) => zToken_Serialize proto_MarshalToken o
  end.

Definition ZT_GetSerializedOutputs (t : ZTransferAction) : res (list bytes) :=
  mapM (fun o => match o with None => Err (EMsg "nil output entry at index") | Some o => zToken_Serialize proto_MarshalToken o end) (ZT_Outputs t).
End Serialized.

(** ** The issue action *)

Definition ErrSerializeInputsFailed : error := EMsg "failed to serialize inputs".
Definition ErrSerializeOutputFailed : error := EMsg "failed to serialize output".
Definition ErrSerializeOutputsFailed : error := EMsg "failed to serialize outputs".
Definition ErrDeserializeOutputFailed : error := EMsg "failed to deserialize output".
Definition ErrUnmarshalReceiversMetadataFailed : error := EMsg "failed unmarshalling receivers metadata".
Definition ErrNilOutput : error := EMsg "nil output in issue action".
Definition ErrInvalidOutput : error := EMsg "invalid output in issue action".

Record ZIssueInput := mkZIssueInput { zii_ID : ID; zii_Token : bytes }.

Record ZIssueAction := mkZIssueAction {
  ZI_Issuer : bytes;
  ZI_Inputs : list (option ZIssueInput);
  ZI_Outputs : list (option zToken);
  ZI_ProofType : Z;
  ZI_Proof : bytes;
  ZI_Metadata : gomap bytes;
  ZI_limits : option ResourceLimits;
}.

Definition ZIssueInput_ToProtos (i : ZIssueInput) : res PzIssueInput := Ok (mkPzIssueInput (Some (zii_ID i)) (zii_Token i)).

Definition ZIssueInput_FromProtos (p : PzIssueInput) (i : ZIssueInput) : res ZIssueInput :=
  Ok (mkZIssueInput (match pii_Id p with Some id => id | None => zii_ID i end) (pii_Token p)).

Definition ZIssueAction_ToProtos (i : ZIssueAction) : res PzIssueAction :=
  inputs ← join_err ErrSerializeInputsFailed (ToProtosSlice ZIssueInput_ToProtos (ZI_Inputs i));
  outputs ← join_err ErrSerializeOutputsFailed (ToProtosSlice (fun o => join_err ErrSerializeOutputFailed (zToken_ToProtos o)) (ZI_Outputs i));
  proof ← proof_ToProtos ErrInvalidIssueProofType (ZI_ProofType i) (ZI_Proof i);
  Ok (mkPzIssue ProtocolV1 (Some (ZI_Issuer i)) inputs outputs (Some proof) (ZI_Metadata i)).

Definition ZIssueAction_FromProtos (limits : option ResourceLimits) (action : PzIssueAction) : res ZIssueAction :=
  let act := "issue action" in
  if negb (pzi_Version action =? ProtocolV1) then Err (EJoin (EMsg "invalid protocol version") (EMsg "expected")) else
  let l := effectiveLimits limits in
  reject_if (zlen (pzi_Inputs action) >? MaxInputs l) (limit_error act " exceeds maximum allowed number of inputs") ;;
  reject_if (zlen (pzi_Outputs action) >? MaxOutputs l) (limit_error act " exceeds maximum allowed number of outputs") ;;
  zk_checkMetadataLimits act (pzi_Metadata action) (MaxMetadataEntries l) (MaxMetadataKeyBytes l) (MaxMetadataValueBytes l) ;;
  proof_within act l (pzi_Proof action) ;;
  inputs ← join_err ErrUnmarshalReceiversMetadataFailed
    (FromProtosSlice ZIssueInput_FromProtos (pzi_Inputs action) (replicate (length (pzi_Inputs action)) (mkZIssueInput (mkID [] 0) [])));
  outputs ← mapM (zToken_FromProtos act (fun _ r => join_err ErrDeserializeOutputFailed r)) (pzi_Outputs action);
  '(typ, proof) ← proof_FromProtos ErrInvalidIssueProofType (pzi_Proof action);
  Ok (mkZIssueAction (default [] (pzi_Issuer action)) inputs outputs typ proof (pzi_Metadata action) limits).

Definition ZI_Validate_input (_ : nat) (inp : option ZIssueInput) : res unit :=
  match inp with
  | None => Err (EMsg "nil input in issue action")
  | Some i =>
      reject_if (zlen (zii_Token i) =? 0) (EMsg "nil input token in issue action") ;;
      reject_if (zlen (TxId (zii_ID i)) =? 0) (EMsg "nil input id in issue action")
  end.

Definition ZI_Validate_output (_ : nat) (out : option zToken) : res unit :=
  match out with
  | None => Err ErrNilOutput
  | Some o => join_err ErrInvalidOutput (zToken_Validate false o)
  end.

Definition ZIssueAction_Validate `{!IdentityOps} (i : ZIssueAction) : res unit :=
  let act := "issue action" in
  reject_if (Identity_IsNone (ZI_Issuer i)) (EMsg "issuer is not set") ;;
  rangeR ZI_Validate_input 0 (ZI_Inputs i) ;;
  reject_if (zlen (ZI_Outputs i) =? 0) (EMsg "no outputs in issue action") ;;
  rangeR ZI_Validate_output 0 (ZI_Outputs i) ;;
  reject_if (negb (ZI_ProofType i =? RangeProofType) && negb (ZI_ProofType i =? CSPRangeProofType)) ErrInvalidIssueProofType ;;
  reject_if (zlen (ZI_Proof i) =? 0) ErrEmptyProof ;;
  let l := effectiveLimits (ZI_limits i) in
  reject_if (zlen (ZI_Proof i) >? MaxProofBytes l) (limit_error act " proof exceeds maximum allowed size") ;;
  reject_if (zlen (ZI_Inputs i) >? MaxInputs l) (limit_error act " exceeds maximum allowed number of inputs") ;;
  reject_if (zlen (ZI_Outputs i) >? MaxOutputs l) (limit_error act " exceeds maximum allowed number of outputs") ;;
  zk_checkMetadataLimits act (ZI_Metadata i) (MaxMetadataEntries l) (MaxMetadataKeyBytes l) (MaxMetadataValueBytes l).

(** [NewAction]. *)
Definition NewIssueAction (issuer : bytes) (coms : list commitment) (owners : list bytes) (proof : bytes) : res ZIssueAction :=
  if negb (length owners =? length coms)%nat then Err (EMsg "number of owners does not match number of tokens") else
  Ok (mkZIssueAction issuer [] (zip_with (fun c owner => Some (mkzToken owner c)) coms owners) RangeProofType proof [] None).

Definition ZI_GetCommitments (i : ZIssueAction) : res (list commitment) :=
  mapM (fun o => match o with
                 | None => Err ErrNilOutput
                 | Some t => match zt_Data t with None => Err (EMsg "nil output commitment in issue action") | Some w => Ok (Some w) end
                 end) (ZI_Outputs i).

Definition ZI_GetInputs (i : ZIssueAction) : list (option ID) := option_map zii_ID <$> ZI_Inputs i.

Definition ZI_GetSerializedInputs (i : ZIssueAction) : list bytes := (fun i => match i with None => [] | Some i => zii_Token i end) <$> ZI_Inputs i.

Definition ZI_GetSerializedOutputs (proto_MarshalToken : PzToken -> res bytes) (i : ZIssueAction) : res (list bytes) :=
  mapM (fun o => match o with
                 | None => Err ErrNilOutput
                 | Some t => join_err ErrSerializeOutputFailed (zToken_Serialize proto_MarshalToken t)
                 end) (ZI_Outputs i).
End Actions.
