(* ===== verification/ZkValidator.v ===== *)
(** * Validation of requests of the zero-knowledge driver
      (zkatdlog/nogh/v1/validator/validator.go, validator_transfer.go,
      validator_issue.go, transfer/transfer.go, issue/issue.go)

    The validation functions of the driver, plugged into the pipeline of
    Validator.v.  Parameters: the deserializer of identities, the clock, the hash
    functions, the JSON and protobuf decoders, and the verifier of the proofs of
    the second range-proof system (crypto/rp/csp). *)

From S2P Require Import Prelude GoStd Quantity Der TokenTypes Request Limits Validator Htlc FabtokenActions FabtokenValidator ZkMath ZkIpa ZkRange ZkSigma ZkCodec ZkTransfer Csp Lagrange CspRange CspTransfer ZkActions.
From Stdlib Require Import ZArith Lia.
Local Open Scope Z_scope.

Definition ErrInvalidZKP : error := EMsg "invalid zero-knowledge proof".
Definition ErrProofTypeMismatch : error := EMsg "proof type in action is not available in public parameters".
Definition ErrFabTokenNotFound : error := EMsg "fabtoken token not found in witness".
Definition ErrCommitmentMismatch : error := EMsg "recomputed commitment does not match".
Definition ErrOwnersMismatch : error := EMsg "owners do not correspond".
Definition ErrInvalidHTLCAction : error := EMsg "invalid transfer action: an htlc script only transfers the ownership of a token".
Definition ErrHTLCOutputNotFound : error := EMsg "invalid transfer action: an htlc script only transfers the ownership of a token, output not found".
Definition ErrMissingIssuer : error := EMsg "On Redeem action, must have at least one issuer".
Definition ErrIssueVerificationFailed : error := EMsg "failed to verify issue".

(** The public parameters the validators read. *)
Record ZkPP `{!Curve} := mkZkPP {
  zpp_params : zk_params;
  zpp_CSP : option CSPRangeProofParams;
  zpp_QuantityPrecision : Z;
  zpp_Issuers : list bytes;
  zpp_Auditors : list bytes;
}.

Section ZkValidator.
Context `{IO : !IdentityOps} {CO : Curve} {NA : Native} {WI : Wire} {CC : CspCurve} (PP : ZkPP).
Context (GetOwnerVerifier GetIssuerVerifier GetAuditorVerifier : bytes -> res (option verifier)).
Context (now : Z) (crypto_Hash : Z -> option (bytes -> bytes)).
Context (json_ClaimSignature_strict : bytes -> res ClaimSignature) (json_Script : bytes -> res Script).
(** The caches the verifiers of the second proof type meet. *)
Context (envs : nat -> lagrange_env).

Abbreviation ZCtx := (Ctx zToken).
Abbreviation V := (M ZCtx).

(** ** Deserialization *)

Section Deserialize.
Context (G1_UnmarshalJSON : bytes -> res (wire G1)) (Zr_UnmarshalJSON : bytes -> res (wire Zr)).
Context (proto_IssueAction : bytes -> res PzIssueAction) (proto_TransferAction : bytes -> res PzTransferAction).

Definition ZIssueAction_Deserialize (limits : ResourceLimits) (raw : bytes) : res ZIssueAction :=
  p ← join_err (EMsg "failed to deserialize issue action") (proto_IssueAction raw);
  ZIssueAction_FromProtos G1_UnmarshalJSON (Some limits) p.

Definition ZTransferAction_Deserialize (limits : ResourceLimits) (raw : bytes) : res ZTransferAction :=
  p ← wrap "failed to deserialize transfer action" (proto_TransferAction raw);
  ZTransferAction_FromProtos G1_UnmarshalJSON Zr_UnmarshalJSON (Some limits) p.

Definition ZDeserializeActions (limits : ResourceLimits) (tr : TokenRequest) : res (list (option ZIssueAction) * list (option ZTransferAction)) :=
  issues ← GetIssues tr;
  issueActions ← mapM (ZIssueAction_Deserialize limits) issues;
  transfers ← GetTransfers tr;
  transferActions ← mapM (ZTransferAction_Deserialize limits) transfers;
  Ok (Some <$> issueActions, Some <$> transferActions).
End Deserialize.

(** ** The verifier of a proof type (setup.go, transfer.go, issue.go) *)

Definition SupportsRangeProofType (proofType : Z) : bool :=
  if proofType =? RangeProofType then match zp_RangeProofParams (zpp_params PP) with Some _ => true | None => false end
  else if proofType =? CSPRangeProofType then match zpp_CSP PP with Some _ => true | None => false end else false.

Definition csp_pp : csp_params := {| cp_base := zpp_params PP; cp_CSPRangeProofParams := zpp_CSP PP |}.

Definition verify_transfer_proof (proofType : Z) (inputs outputs : list commitment) (proof : bytes) : res unit :=
  if negb (SupportsRangeProofType proofType) then Err (EWrap ErrProofTypeMismatch "proof type is not available in public parameters") else
  if proofType =? RangeProofType then v ← NewBulletProofVerifier inputs outputs (zpp_params PP); BulletProofVerifier_Verify v proof
  else v ← NewCSPVerifier inputs outputs csp_pp; CSPVerifier_Verify v envs proof.

Definition verify_issue_proof (proofType : Z) (tokens : list commitment) (proof : bytes) : res unit :=
  if negb (SupportsRangeProofType proofType) then Err (EWrap ErrProofTypeMismatch "proof type is not available in public parameters") else
  if proofType =? RangeProofType then v ← NewIssueVerifier tokens (zpp_params PP); IssueVerifier_Verify v proof
  else v ← NewCSPIssueVerifier tokens csp_pp; CSPIssueVerifier_Verify v envs proof.

(** ** Transfer (validator_transfer.go) *)

Definition ZTransferActionValidate (_ : bytes) (_ : TokenRequest) (action : ZTransferAction) : V unit :=
  lift (ZTransferAction_Validate action).

(** The loop over the inputs: their tokens and signatures. *)
Fixpoint zk_verifyInputs (inputs : list (option ZActionInput)) : V (list (option zToken) * list bytes) :=
  match inputs with
  | [] => mret ([], [])
  | None :: _ => lift (Err (EMsg "invalid input at index: nil input or nil token"))
  | Some inp :: l =>
      match zin_Token inp with
      | None => lift (Err (EMsg "invalid input at index: nil input or nil token"))
      | Some tok =>
          ver ← wrapM "failed deserializing owner" (lift (GetOwnerVerifier (zt_Owner tok)));
          require_provider ;;
          sigma ← wrapM "failed signature verification" (HasBeenSignedBy ver);
          '(toks, sigs) ← zk_verifyInputs l;
          mret (Some tok :: toks, sigma :: sigs)
      end
  end.

(** The search for a redeem output skips nil outputs. *)
Definition zk_isRedeem (outputs : list (option zToken)) : bool :=
  existsb (fun o => match o with None => false | Some o => zToken_IsRedeem o end) outputs.

Definition zk_appendSignature (sigma : bytes) : V unit :=
  modifyS (fun c => mkCtx (SignatureProvider c) (ctx_Signatures c ++ [sigma]) (InputTokens c) (MetadataCounter c)).

Definition zk_verifyRedeemIssuer (action : ZTransferAction) : V unit :=
  match ZT_Issuer action with
  | None => lift (Err ErrMissingIssuer)
  | Some issuer =>
      if negb (zlen (zpp_Issuers PP) =? 0) && negb (existsb (Identity_Equal issuer) (zpp_Issuers PP))
      then lift (Err ErrIssuerNotAuthorized)
      else
        issuerVerifier ← wrapM "failed deserializing issuer" (lift (GetIssuerVerifier issuer));
        sigma ← wrapM "failed signature verification" (HasBeenSignedBy issuerVerifier);
        zk_appendSignature sigma
  end.

Definition ZTransferSignatureValidate (_ : bytes) (_ : TokenRequest) (action : ZTransferAction) : V unit :=
  lift (reject_if (zlen (ZT_Inputs action) =? 0) ErrInvalidInputs) ;;
  '(inputToken, signatures) ← zk_verifyInputs (ZT_Inputs action);
  modifyS (fun c => mkCtx (SignatureProvider c) signatures inputToken (MetadataCounter c)) ;;
  if (zlen (zpp_Issuers PP) >? 0) && zk_isRedeem (ZT_Outputs action) then zk_verifyRedeemIssuer action else mret tt.

(** One input with an upgrade witness: the commitment is recomputed from the
    cleartext token and its blinding factor. *)
Definition upgradeInput (_ : nat) (inp : option ZActionInput) : res unit :=
  inp ← deref inp;
  match zin_UpgradeWitness inp with
  | None => Ok tt
  | Some witness =>
      match uw_FabToken witness with
      | None => Err ErrFabTokenNotFound
      | Some fab =>
          q ← wrap "failed to unmarshal quantity" (ToQuantity (Token_Quantity fab) (zpp_QuantityPrecision PP));
          v ← ToBigInt q;
          bf ← own_opt (uw_BlindingFactor witness);
          tokens ← wrap "failed to compute commitment"
            (match bf with
             | Some bf => '(tokens, _) ← GetTokensWithWitnessAndBF [u64 v] [bf] (Token_Type fab) (zp_PedersenGenerators (zpp_params PP)); Ok tokens
             | None => wrap "cannot get tokens with witness" (wrap "failed to compute token" (Err zk_ErrNilCommitElement))
             end);
          tok ← deref (zin_Token inp);
          first ← index tokens 0;
          data ← point (zt_Data tok);
          if negb (bool_decide (data = first)) then Err ErrCommitmentMismatch else
          if (zlen (zt_Owner tok) =? 0) || (zlen (Token_Owner fab) =? 0) then Err ErrOwnersMismatch else
          if negb (bool_decide (zt_Owner tok = Token_Owner fab)) then Err ErrOwnersMismatch else Ok tt
      end
  end.

Definition ZTransferUpgradeWitnessValidate (_ : bytes) (_ : TokenRequest) (action : ZTransferAction) : V unit :=
  lift (rangeR upgradeInput 0 (ZT_Inputs action)).

Definition ZTransferZKProofValidate (_ : bytes) (_ : TokenRequest) (action : ZTransferAction) : V unit :=
  c ← getS;
  ins ← lift (mapM (fun t => match t with None => Err (EMsg "nil input token at index") | Some t => Ok (zt_Data t) end) (InputTokens c));
  lift (err_join (verify_transfer_proof (ZT_ProofType action) ins (ZT_GetOutputCommitments action) (ZT_Proof action)) ErrInvalidZKP).

(** The checks on one input; [nInputs] is the number of inputs. *)
Definition zk_htlcInput (action : ZTransferAction) (nInputs : nat) (i : nat) (inp : option zToken) : V unit :=
  match inp with
  | None => lift (Err (EMsg "nil input token at index"))
  | Some tin =>
      owner ← wrapM "failed to unmarshal owner of input token" (lift (UnmarshalTypedIdentity (zt_Owner tin)));
      if TI_Type owner =? ScriptType then
        match ZT_Outputs action with
        | [out] =>
            if negb (nInputs =? 1)%nat then lift (Err ErrInvalidHTLCAction) else
            match out with
            | None => lift (Err ErrHTLCOutputNotFound)
            | Some tok =>
                '(script, op) ← wrapM "failed to verify transfer from htlc script" (lift (VerifyOwner json_Script (zt_Owner tin) (zt_Owner tok) now));
                c ← getS;
                match ctx_Signatures c !! i with
                | None => lift (Err (EMsg "missing signature for input at index"))
                | Some sigma =>
                    metadataKey ← wrapM "failed to check htlc metadata"
                      (lift (MetadataClaimKeyCheck crypto_Hash json_ClaimSignature_strict (ZT_Metadata action) script op sigma));
                    if negb (bool_decide (op = OpReclaim)) then CountMetadataKey metadataKey else mret tt
                end
            end
        | _ => lift (Err ErrInvalidHTLCAction)
        end
      else mret tt
  end.

Definition zk_htlcOutput (action : ZTransferAction) (_ : nat) (o : option zToken) : V unit :=
  match o with
  | None => mret tt
  | Some out =>
      if zToken_IsRedeem out then mret tt
      else
        owner ← lift (UnmarshalTypedIdentity (zt_Owner out));
        if TI_Type owner =? ScriptType then
          script ← lift (json_Script (TI_Identity owner));
          wrapM "htlc script invalid" (lift (Script_Validate crypto_Hash script now)) ;;
          metadataKey ← wrapM "failed to check htlc metadata" (lift (MetadataLockKeyCheck (ZT_Metadata action) script));
          CountMetadataKey metadataKey
        else mret tt
  end.

Definition ZTransferHTLCValidate (_ : bytes) (_ : TokenRequest) (action : ZTransferAction) : V unit :=
  c ← getS;
  rangeM (zk_htlcInput action (length (InputTokens c))) 0 (InputTokens c) ;;
  rangeM (zk_htlcOutput action) 0 (ZT_Outputs action).

Definition ZTransferApplicationDataValidate (_ : bytes) (_ : TokenRequest) (action : ZTransferAction) : V unit :=
  ApplicationDataValidate (ZT_Metadata action).

(** ** Issue (validator_issue.go) *)

Definition ZIssueValidate (_ : bytes) (_ : TokenRequest) (action : ZIssueAction) : V unit :=
  wrapM "failed validating issue action" (lift (ZIssueAction_Validate action)) ;;
  commitments ← lift (match ZI_GetCommitments action with Err _ => Err ErrIssueVerificationFailed | r => r end);
  lift (err_join (verify_issue_proof (ZI_ProofType action) commitments (ZI_Proof action)) ErrInvalidZKP) ;;
  (if negb (zlen (zpp_Issuers PP) =? 0) && negb (existsb (Identity_Equal (ZI_Issuer action)) (zpp_Issuers PP))
   then lift (Err ErrIssuerNotAuthorized) else mret tt) ;;
  ver ← wrapM "failed getting verifier for issuer" (lift (GetIssuerVerifier (ZI_Issuer action)));
  require_provider ;;
  wrapM "failed verifying signature" (HasBeenSignedBy ver) ;;
  mret tt.

Definition ZIssueApplicationDataValidate (_ : bytes) (_ : TokenRequest) (action : ZIssueAction) : V unit :=
  ApplicationDataValidate (ZI_Metadata action).

(** ** The validator, without extra validation functions (validator.go) *)

Definition ZkNewValidator (limits : ResourceLimits) (minVersion : Z)
    (G1_UnmarshalJSON : bytes -> res (wire G1)) (Zr_UnmarshalJSON : bytes -> res (wire Zr))
    (proto_IssueAction : bytes -> res PzIssueAction) (proto_TransferAction : bytes -> res PzTransferAction)
    : Validator (TA := ZTransferAction) (IA := ZIssueAction) (Tok := zToken) := {|
  AuditingValidators := [AuditingSignaturesValidate (zpp_Auditors PP) GetAuditorVerifier];
  TransferValidators := [ZTransferActionValidate; ZTransferSignatureValidate; ZTransferUpgradeWitnessValidate;
                         ZTransferZKProofValidate; ZTransferHTLCValidate; ZTransferApplicationDataValidate];
  IssueValidators := [ZIssueValidate; ZIssueApplicationDataValidate];
  DeserializeActions := Some (ZDeserializeActions G1_UnmarshalJSON Zr_UnmarshalJSON proto_IssueAction proto_TransferAction limits);
  Limits := limits;
  MinProtocolVersion := minVersion;
|}.
End ZkValidator.
