(* ===== verification/ZkSafety.v ===== *)
(** * What an accepted request of the zero-knowledge driver guarantees
      (zkatdlog/nogh/v1/validator)

    The pipeline of Validator.v run with the validators of ZkValidator.v: every
    spent token is signed for by its owner, redeems and issues by an authorized
    issuer, the proofs are verified for exactly the commitments of the action,
    and upgraded inputs are commitments to the cleartext tokens they replace. *)

From S2P Require Import Prelude GoStd Quantity Der TokenTypes Request Limits Validator Htlc FabtokenActions FabtokenValidator FabtokenSafety ZkMath ZkIpa ZkRange ZkSigma ZkCodec ZkTransfer Csp Lagrange CspRange CspTransfer CspClaims ZkActions ZkValidator ZkClaims.
From Stdlib Require Import ZArith Lia.
Local Open Scope Z_scope.

(** ** What an accepted proof of a transfer is *)

Section AcceptedProof.
Context {CO : Curve} {CL : CurveLaws} {NA : Native} {WI : Wire} {WL : WireLaws} {CC : CspCurve}.

Lemma points_inv (coms : list commitment) : forall ps, mapM point coms = Ok ps -> coms = present_points ps.
Proof.
  induction coms as [|c coms IH]; intros ps H; [by injection H as <-|]. rewrite mapM_cons_res in H. apply res_bind_Ok in H as (p & Hp & H).
  apply res_bind_Ok in H as (qs & Hq & [= <-]). rewrite (IH qs Hq). destruct c as [[q|]|]; try done. by injection Hp as <-.
Qed.

Lemma zip_points {A : Type} (vs : list (option A)) : forall (inputs : list commitment) ps, length vs = length inputs ->
  mapM (fun '(value, input) => match value with None => Err ErrMissingSumAndTypeInputValue | Some _ => point input end) (zip vs inputs) = Ok ps ->
  inputs = present_points ps.
Proof.
  induction vs as [|v vs IH]; intros [|i inputs] ps Hl H; try done; [by injection H as <-|]. cbn [zip_with] in H. rewrite mapM_cons_res in H.
  apply res_bind_Ok in H as (p & Hp & H). apply res_bind_Ok in H as (qs & Hq & [= <-]). destruct v as [v|]; [|done].
  rewrite (IH inputs qs) by (done || (cbn in Hl; lia)). destruct i as [[q|]|]; try done. by injection Hp as <-.
Qed.

(** The inputs and outputs are points of the curve, the proof of types and sums
    holds for them and, unless one token only changes its owner, every output
    has a range proof. *)
Definition transfer_proved (pp : zk_params) (p1 p2 : G1) (ps : list G1) (r : RangeProofParams) (inputs outputs : list commitment) (raw : bytes) : Prop :=
  exists proof ts com ins outs, Proof_Deserialize raw = Ok proof /\ own_ts proof.1 = Ok ts /\ tsp_CommitmentToType ts = Some com /\
    inputs = present_points ins /\ outputs = present_points outs /\
    TypeAndSum_Verify {| tsv_PedParams := zp_PedersenGenerators pp; tsv_Inputs := ins; tsv_Outputs := outs |} ts = Ok tt /\
    (needs_range (length ins) (length outs) = true ->
       exists rc, own_rc proof.2 = Ok rc /\ RangeCorrectnessVerifier_Verify (range_verifier r (p1 :: p2 :: ps) (relative com outs)) rc = Ok tt).

Lemma verify_type_and_sum_Ok PedParams inputs outputs stp : verify_type_and_sum PedParams inputs outputs stp = Ok tt ->
  exists ins outs, inputs = present_points ins /\ outputs = present_points outs /\
    TypeAndSum_Verify {| tsv_PedParams := PedParams; tsv_Inputs := ins; tsv_Outputs := outs |} stp = Ok tt.
Proof.
  unfold verify_type_and_sum. destruct (tsp_TypeBlindingFactor stp), (tsp_Type stp), (tsp_CommitmentToType stp), (tsp_EqualityOfSum stp); try done.
  destruct (negb _); [done|]. destruct (Nat.eqb_spec (length (tsp_InputValues stp)) (length inputs)) as [Hl|]; [|done]. cbn [negb].
  intros (c & _ & H)%res_bind_Ok. apply res_bind_Ok in H as (ins & Hi%zip_points & H); [|done]. apply res_bind_Ok in H as (outs & Ho%points_inv & H). eauto.
Qed.

Lemma TypeAndSum_Verify_com v ts : TypeAndSum_Verify v ts = Ok tt -> exists com, tsp_CommitmentToType ts = Some com.
Proof. unfold TypeAndSum_Verify. destruct (tsp_TypeBlindingFactor ts), (tsp_Type ts); try done. destruct (tsp_CommitmentToType ts); [by eexists|done]. Qed.

Lemma BulletProofVerifier_accepted pp p0 p1 p2 ps r inputs outputs v raw : params_present pp p0 p1 p2 ps r ->
  NewBulletProofVerifier inputs outputs pp = Ok v -> BulletProofVerifier_Verify v raw = Ok tt -> transfer_proved pp p1 p2 ps r inputs outputs raw.
Proof.
  intros Hpp. rewrite (NewBulletProofVerifier_spec _ _ _ _ _ _ _ _ Hpp). intros [= <-]. unfold BulletProofVerifier_Verify.
  cbn [bpv_PedParams bpv_Inputs bpv_Outputs bpv_RangeCorrectness].
  intros (proof & Hd%wrap_Ok & H)%res_bind_Ok. apply res_bind_Ok in H as ([] & Hval%wrap_Ok & H). apply res_bind_Ok in H as (ts & Hts & H).
  apply res_bind_Ok in H as ([] & (ins & outs & -> & -> & Hv)%wrap_Ok%verify_type_and_sum_Ok & H).
  destruct (TypeAndSum_Verify_com _ _ Hv) as [com Hcom].
  exists proof, ts, com, ins, outs. split_and!; try done. intros Hn. unfold present_points in H. rewrite !length_fmap, Hn in H. cbn [wrap mbind res_mbind] in H.
  rewrite Hcom in H. cbn [deref mbind res_mbind] in H. fold (present_points outs) in H. rewrite points_present in H. cbn [mbind res_mbind] in H.
  apply res_bind_Ok in H as (rc & Hrc & H). by exists rc.
Qed.

(** The same for the second proof type. *)
Definition csp_transfer_proved (pp : csp_params) (p1 p2 : G1) (ps : list G1) (r : CSPRangeProofParams) (envs : nat -> lagrange_env)
    (inputs outputs : list commitment) (raw : bytes) : Prop :=
  exists proof ts com ins outs, CSPProof_Deserialize raw = Ok proof /\ own_ts proof.1 = Ok ts /\ tsp_CommitmentToType ts = Some com /\
    inputs = present_points ins /\ outputs = present_points outs /\
    TypeAndSum_Verify {| tsv_PedParams := zp_PedersenGenerators (cp_base pp); tsv_Inputs := ins; tsv_Outputs := outs |} ts = Ok tt /\
    (needs_range (length ins) (length outs) = true ->
       csp_RangeCorrectnessVerifier_Verify (csp_verifier_at r (p1 :: p2 :: ps) (relative com outs)) envs proof.2 = Ok tt).

Lemma CSPVerifier_accepted pp p0 p1 p2 ps r envs inputs outputs v raw : csp_present pp p0 p1 p2 ps r ->
  NewCSPVerifier inputs outputs pp = Ok v -> CSPVerifier_Verify v envs raw = Ok tt -> csp_transfer_proved pp p1 p2 ps r envs inputs outputs raw.
Proof.
  intros Hpp. rewrite (NewCSPVerifier_spec _ _ _ _ _ _ _ _ Hpp). intros [= <-]. unfold CSPVerifier_Verify.
  cbn [csv_PedParams csv_Inputs csv_Outputs csv_RangeCorrectness].
  intros (proof & Hd%wrap_Ok & H)%res_bind_Ok. apply res_bind_Ok in H as ([] & Hval%wrap_Ok & H). apply res_bind_Ok in H as (ts & Hts & H).
  apply res_bind_Ok in H as ([] & (ins & outs & -> & -> & Hv)%wrap_Ok%verify_type_and_sum_Ok & H). destruct (TypeAndSum_Verify_com _ _ Hv) as [com Hcom].
  exists proof, ts, com, ins, outs. split_and!; try done. intros Hn. unfold present_points in H. rewrite !length_fmap, Hn in H. cbn [wrap mbind res_mbind] in H.
  rewrite Hcom in H. cbn [deref mbind res_mbind] in H. fold (present_points outs) in H. by rewrite points_present in H.
Qed.

(** The tokens are points of the curve, the proof of the type holds, and every
    token has a range proof. *)
Definition issue_proved (pp : zk_params) (p1 p2 : G1) (ps : list G1) (r : RangeProofParams) (tokens : list commitment) (raw : bytes) : Prop :=
  exists proof st rc toks, BulletProof_Deserialize raw = Ok proof /\ own_st proof.1 = Ok st /\ own_rc proof.2 = Ok rc /\
    tokens = present_points toks /\ SameType_Verify (zp_PedersenGenerators pp) st = Ok tt /\
    RangeCorrectnessVerifier_Verify (range_verifier r (p1 :: p2 :: ps) (relative (st_CommitmentToType st) toks)) rc = Ok tt.

Lemma IssueVerifier_accepted pp p0 p1 p2 ps r tokens v raw : params_present pp p0 p1 p2 ps r ->
  NewIssueVerifier tokens pp = Ok v -> IssueVerifier_Verify v raw = Ok tt -> issue_proved pp p1 p2 ps r tokens raw.
Proof.
  intros Hpp. unfold NewIssueVerifier. rewrite (NewRangeCorrectnessVerifier_spec _ _ _ _ _ _ Hpp). intros [= <-]. unfold IssueVerifier_Verify.
  cbn [isv_PedParams isv_Tokens isv_RangeCorrectness].
  intros (proof & Hd%join_err_Ok & H)%res_bind_Ok. apply res_bind_Ok in H as ([] & _ & H). apply res_bind_Ok in H as ([] & _ & H).
  apply res_bind_Ok in H as (st & Hst & H). apply res_bind_Ok in H as ([] & Hv%join_err_Ok & H).
  apply res_bind_Ok in H as (toks & ->%points_inv & H). apply res_bind_Ok in H as (rc & Hrc & H%join_err_Ok).
  exists proof, st, rc, toks. by split_and!.
Qed.

Definition csp_issue_proved (pp : csp_params) (p1 p2 : G1) (ps : list G1) (r : CSPRangeProofParams) (envs : nat -> lagrange_env) (tokens : list commitment) (raw : bytes) : Prop :=
  exists proof st toks, CSPIssueProof_Deserialize raw = Ok proof /\ own_st proof.1 = Ok st /\
    tokens = present_points toks /\ SameType_Verify (zp_PedersenGenerators (cp_base pp)) st = Ok tt /\
    csp_RangeCorrectnessVerifier_Verify (csp_verifier_at r (p1 :: p2 :: ps) (relative (st_CommitmentToType st) toks)) envs proof.2 = Ok tt.

Lemma CSPIssueVerifier_accepted pp p0 p1 p2 ps r envs tokens v raw : csp_present pp p0 p1 p2 ps r ->
  NewCSPIssueVerifier tokens pp = Ok v -> CSPIssueVerifier_Verify v envs raw = Ok tt -> csp_issue_proved pp p1 p2 ps r envs tokens raw.
Proof.
  intros Hpp. unfold NewCSPIssueVerifier. rewrite (csp_NewRangeCorrectnessVerifier_spec _ _ _ _ _ _ Hpp). intros [= <-]. unfold CSPIssueVerifier_Verify.
  cbn [civ_PedParams civ_Tokens civ_RangeCorrectness].
  intros (proof & Hd%join_err_Ok & H)%res_bind_Ok. apply res_bind_Ok in H as ([] & _ & H). apply res_bind_Ok in H as ([] & _ & H).
  apply res_bind_Ok in H as (st & Hst & H). apply res_bind_Ok in H as ([] & Hv%join_err_Ok & H).
  apply res_bind_Ok in H as (toks & ->%points_inv & H%join_err_Ok). exists proof, st, toks. by split_and!.
Qed.

End AcceptedProof.

(** ** Accepted actions *)

Section ZkSafety.
Context `{IO : !IdentityOps} {CO : Curve} {CL : CurveLaws} {NA : Native} {WI : Wire} {WL : WireLaws} {CC : CspCurve} (PP : ZkPP).
Context (GetOwnerVerifier GetIssuerVerifier GetAuditorVerifier : bytes -> res (option verifier)).
Context (now : Z) (crypto_Hash : Z -> option (bytes -> bytes)).
Context (json_ClaimSignature_strict : bytes -> res ClaimSignature) (json_Script : bytes -> res Script).
Context (envs : nat -> lagrange_env).
Context (limits : ResourceLimits) (minVersion : Z).
Context (G1_UnmarshalJSON : bytes -> res (wire G1)) (Zr_UnmarshalJSON : bytes -> res (wire Zr)).
Context (proto_IssueAction : bytes -> res PzIssueAction) (proto_TransferAction : bytes -> res PzTransferAction).
Context (proto_Unmarshal : bytes -> res PTokenRequest) (json_Marshal : list bytes -> res bytes).

Abbreviation ZV :=
  (ZkNewValidator PP GetOwnerVerifier GetIssuerVerifier GetAuditorVerifier now crypto_Hash json_ClaimSignature_strict json_Script
     envs limits minVersion G1_UnmarshalJSON Zr_UnmarshalJSON proto_IssueAction proto_TransferAction).

(** The verdict of the validator on a raw request. *)
Definition ZkVerify (anchor raw : bytes) : res (list (action_value (TA := ZTransferAction) (IA := ZIssueAction)) * ValidationAttributes) :=
  VerifyTokenRequestFromRaw ZT_Metadata ZI_Metadata ZV proto_Unmarshal json_Marshal anchor raw.

(** The token an input carries, and the verifier of its owner. *)
Definition zk_input_token (inp : option ZActionInput) (tok : zToken) : Prop := exists i, inp = Some i /\ zin_Token i = Some tok.
Definition zk_owner_verifier (tok : zToken) (ver : verifier) : Prop := GetOwnerVerifier (zt_Owner tok) = Ok (Some ver).

Lemma zk_verifyInputs_Ok inputs : forall (c c' : Ctx zToken) toks sigs,
  zk_verifyInputs GetOwnerVerifier inputs c = (Ok (toks, sigs), c') ->
  exists ins vs, Forall2 zk_input_token inputs ins /\ toks = Some <$> ins /\ Forall2 zk_owner_verifier ins vs /\
    (inputs = [] /\ c' = c /\ vs = [] /\ sigs = [] \/ consumes c vs sigs c') /\ MetadataCounter c' = MetadataCounter c.
Proof.
  induction inputs as [|[inp|] inputs IH]; intros c c' toks sigs; cbn [zk_verifyInputs]; [| |done].
  - intros [[= -> ->] ->]%M_ret_Ok. exists [], []. split_and!; [constructor|done|constructor|by left|done].
  - destruct (zin_Token inp) as [tok|] eqn:Htok; [|done].
    intros (v & c1 & [Hv ->]%wrapM_Ok%lift_Ok & H)%M_bind_Ok. apply M_bind_Ok in H as ([] & c1 & ->%require_provider_Ok & H).
    apply M_bind_Ok in H as (sigma & c1 & (ver & -> & Hcons & _ & _ & Hm1)%wrapM_Ok%HasBeenSignedBy_consumes & H).
    apply M_bind_Ok in H as ([toks' sigs'] & c2 & (ins & vs & Hin & -> & Hvs & Hcons' & Hm2)%IH & [[= -> ->] ->]%M_ret_Ok).
    exists (tok :: ins), (ver :: vs). split_and!; [|done|by constructor| |congruence].
    + constructor; [by exists inp|done].
    + right. destruct Hcons' as [(-> & -> & -> & ->)|Hcons']; [done|]. by eapply (consumes_trans c [ver] [sigma]).
Qed.

(** The issuer that approves a redeem. *)
Definition zk_redeem_approved (action : ZTransferAction) (ivs : list verifier) : Prop :=
  exists issuer ver, ZT_Issuer action = Some issuer /\ issuer ∈ zpp_Issuers PP /\ GetIssuerVerifier issuer = Ok (Some ver) /\ ivs = [ver].

Definition zk_is_redeem (outs : list zToken) : Prop := exists o, o ∈ outs /\ zt_Owner o = [].

Definition zk_issuer_policy (action : ZTransferAction) (outs : list zToken) (ivs : list verifier) : Prop :=
  (zpp_Issuers PP <> [] /\ zk_is_redeem outs /\ zk_redeem_approved action ivs) \/
  ((zpp_Issuers PP = [] \/ ~ zk_is_redeem outs) /\ ivs = []).

Lemma zk_isRedeem_spec outs : zk_isRedeem (Some <$> outs) = true <-> zk_is_redeem outs.
Proof.
  unfold zk_isRedeem, zk_is_redeem. rewrite existsb_exists. split.
  - intros (o & (t & -> & Ht)%list_elem_of_In%list_elem_of_fmap & Hr). exists t. split; [done|]. apply Z.eqb_eq in Hr. by apply zlen_zero_nil.
  - intros (t & Ht & Ho). exists (Some t). split; [apply list_elem_of_In, list_elem_of_fmap; by exists t|]. unfold zToken_IsRedeem. by rewrite Ho.
Qed.

Lemma zk_verifyRedeemIssuer_Ok action (c c' : Ctx zToken) u : zpp_Issuers PP <> [] ->
  zk_verifyRedeemIssuer PP GetIssuerVerifier action c = (Ok u, c') ->
  exists ver sigma, zk_redeem_approved action [ver] /\ consumes c [ver] [sigma] c' /\ ctx_Signatures c' = ctx_Signatures c ++ [sigma] /\
    InputTokens c' = InputTokens c /\ MetadataCounter c' = MetadataCounter c.
Proof.
  intros Hne. unfold zk_verifyRedeemIssuer. destruct (ZT_Issuer action) as [issuer|] eqn:Hi; [|done].
  replace (zlen (zpp_Issuers PP) =? 0) with false by (symmetry; by apply zlen_eqb0). cbn [negb andb].
  destruct (existsb _ _) eqn:Hin; [|done]. apply existsb_Identity in Hin. cbn [negb].
  intros (v & c1 & [Hv ->]%wrapM_Ok%lift_Ok & H)%M_bind_Ok.
  apply M_bind_Ok in H as (sigma & c1 & (ver & -> & Hcons & Hs & Ht & Hm)%wrapM_Ok%HasBeenSignedBy_consumes & H).
  unfold zk_appendSignature, modifyS in H. injection H as _ <-.
  exists ver, sigma. split_and!; [by exists issuer, ver|by eapply consumes_ctx|cbn; by rewrite Hs|done|done].
Qed.

Lemma ZTransferSignature_Ok anchor tr action outs (c c' : Ctx zToken) u : ZT_Outputs action = Some <$> outs ->
  ZTransferSignatureValidate PP GetOwnerVerifier GetIssuerVerifier anchor tr action c = (Ok u, c') ->
  exists ins ovs ivs sigs, ins <> [] /\ Forall2 zk_input_token (ZT_Inputs action) ins /\ InputTokens c' = Some <$> ins /\
    Forall2 zk_owner_verifier ins ovs /\ zk_issuer_policy action outs ivs /\ consumes c (ovs ++ ivs) sigs c' /\
    ctx_Signatures c' = sigs /\ MetadataCounter c' = MetadataCounter c.
Proof.
  intros Houts. unfold ZTransferSignatureValidate. intros ([] & c1 & [Hne%reject_if_Ok%zlen_eqb0 ->]%lift_Ok & H)%M_bind_Ok.
  apply M_bind_Ok in H as ([toks sigs] & c1 & (ins & ovs & Hin & -> & Hov & Hcons & Hm)%zk_verifyInputs_Ok & H).
  destruct Hcons as [[? _]|Hcons]; [done|]. apply M_bind_Ok in H as ([] & c2 & Hset & H). unfold modifyS in Hset. injection Hset as <-.
  assert (ins <> []) as Hins by (intros ->; apply Forall2_length in Hin; by destruct (ZT_Inputs action)).
  rewrite Houts in H. destruct (Z.gtb_spec (zlen (zpp_Issuers PP)) 0) as [Hpos|Hz].
  - assert (zpp_Issuers PP <> []) as Hiss by (intros E; by rewrite E in Hpos). cbn [andb] in H.
    destruct (zk_isRedeem (Some <$> outs)) eqn:Hr.
    + apply zk_verifyRedeemIssuer_Ok in H as (ver & sigma & Hra & Hcons2 & Hs2 & Ht2 & Hm2); [|done].
      exists ins, ovs, [ver], (sigs ++ [sigma]). split_and!; [done|done|by rewrite Ht2|done| | |by rewrite Hs2|by rewrite Hm2].
      * left. split_and!; [done|by apply zk_isRedeem_spec|done].
      * eapply consumes_trans; [eapply consumes_ctx; [exact Hcons|done]|exact Hcons2].
    + apply M_ret_Ok in H as [_ ->]. exists ins, ovs, [], sigs. rewrite app_nil_r.
      split_and!; [done|done|done|done|right; split; [right|done]|by eapply consumes_ctx|done|done].
      intros Hred%zk_isRedeem_spec. congruence.
  - cbn [andb] in H. apply M_ret_Ok in H as [_ ->]. exists ins, ovs, [], sigs. rewrite app_nil_r.
    assert (zpp_Issuers PP = []) as Hiss by (apply zlen_zero_nil; pose proof (zlen_nonneg (zpp_Issuers PP)); lia).
    split_and!; [done|done|done|done|right; split; [by left|done]|by eapply consumes_ctx|done|done].
Qed.

Lemma ZT_Validate_outputs a u : ZTransferAction_Validate a = Ok u -> exists outs, ZT_Outputs a = Some <$> outs /\ outs <> [].
Proof.
  unfold ZTransferAction_Validate. intros ([] & _ & H)%res_bind_Ok. cbv zeta in H. apply res_bind_Ok in H as ([] & _ & H).
  apply res_bind_Ok in H as ([] & _ & H). apply res_bind_Ok in H as ([] & Hne%reject_if_Ok%zlen_eqb0 & H). apply res_bind_Ok in H as ([] & _ & H).
  apply res_bind_Ok in H as ([] & Ho & _). assert (exists outs, ZT_Outputs a = Some <$> outs) as [outs Eo].
  { clear Hne. revert Ho. generalize 0%nat. induction (ZT_Outputs a) as [|o l IH]; intros n; [by exists []|]. cbn [rangeR].
    intros ([] & Hh & (outs & ->)%IH)%res_bind_Ok. destruct o as [o|]; [|done]. by exists (o :: outs). }
  exists outs. split; [done|]. intros ->. by rewrite Eo in Hne.
Qed.

(** An upgraded input commits to the type and amount of the cleartext token it
    replaces, and has its owner. *)
Definition upgrade_opens (i : ZActionInput) : Prop := forall w, zin_UpgradeWitness i = Some w ->
  exists fab tok v bf data mds, uw_FabToken w = Some fab /\ zin_Token i = Some tok /\ parsed (zpp_QuantityPrecision PP) (Token_Quantity fab) = Some v /\
    uw_BlindingFactor w = Some (Own bf) /\ zt_Data tok = Some (Own data) /\ zt_Owner tok = Token_Owner fab /\ zt_Owner tok <> [] /\
    GetTokensWithWitnessAndBF [u64 v] [bf] (Token_Type fab) (zp_PedersenGenerators (zpp_params PP)) = Ok ([data], mds).

Lemma upgradeInput_Ok n i : 0 < zpp_QuantityPrecision PP < two63 -> upgradeInput PP n (Some i) = Ok tt -> upgrade_opens i.
Proof.
  intros Hp H w Hw. unfold upgradeInput in H. cbn [deref mbind res_mbind] in H. rewrite Hw in H. destruct (uw_FabToken w) as [fab|]; [|done].
  apply res_bind_Ok in H as (q & Hq%wrap_Ok & H). apply ToQuantity_inv in Hq as (v & Hv & Hr & ->); [|done].
  apply res_bind_Ok in H as (v' & Hv' & H). assert (v' = v) as ->. { unfold mkQuantity in Hv'. destruct (_ =? 64) in Hv'; by injection Hv'. }
  apply res_bind_Ok in H as (obf & Hbf & H). apply res_bind_Ok in H as (tokens & Ht%wrap_Ok & H).
  destruct obf as [bf|]; [|done]. apply res_bind_Ok in Ht as ([ts mds] & Ht & [= ->]).
  apply res_bind_Ok in H as (tok & Htok & H). apply res_bind_Ok in H as (first & Hf & H). apply res_bind_Ok in H as (data & Hd & H).
  case_bool_decide as Hdf; [|done]. cbn [negb] in H. destruct (_ || _) eqn:Hz; [done|]. case_bool_decide as How; [|done].
  apply orb_false_iff in Hz as [Hz1%zlen_eqb0 _]. subst first.
  destruct (zin_Token i) as [t|]; [|done]. injection Htok as <-.
  assert (uw_BlindingFactor w = Some (Own bf)) as Ebf. { destruct (uw_BlindingFactor w) as [[z|]|]; try done. by injection Hbf as ->. }
  assert (zt_Data t = Some (Own data)) as Ed. { destruct (zt_Data t) as [[z|]|]; try done. by injection Hd as ->. }
  exists fab, t, v, bf, data, mds. split_and!; try done; [by apply parsed_Some|].
  rewrite Ht. assert (tokens = [data]) as ->; [|done].
  unfold GetTokensWithWitnessAndBF in Ht. cbn [length Nat.eqb negb zip_with] in Ht. apply res_bind_Ok in Ht as (ts & Hc%wrap_Ok & [= -> _]).
  unfold computeTokens in Hc. rewrite mapM_cons_res in Hc. apply res_bind_Ok in Hc as (t0 & _ & Hc). apply res_bind_Ok in Hc as (rest & Hrest & [= <-]).
  injection Hrest as <-. cbn in Hf. by injection Hf as ->.
Qed.

(** *** Hash time-locks *)

Definition zk_script_owner (tok : zToken) (script : Script) : Prop :=
  exists id, UnmarshalTypedIdentity (zt_Owner tok) = Ok (mkTypedIdentity ScriptType id) /\ json_Script id = Ok script.

(** A script's token moves alone into a single output, to the recipient before
    the deadline or back to the sender after it. *)
Definition zk_script_spent (a : ZTransferAction) (sigs : list bytes) (nIns : nat) (i : nat) (script : Script) : Prop :=
  exists out, nIns = 1%nat /\ ZT_Outputs a = [Some out] /\
    ((now < Script_Deadline script /\ zt_Owner out = Script_Recipient script /\
      exists sigma k, sigs !! i = Some sigma /\ claim_published crypto_Hash json_ClaimSignature_strict (ZT_Metadata a) script sigma k) \/
     (Script_Deadline script <= now /\ zt_Owner out = Script_Sender script)).

Definition zk_locked (a : ZTransferAction) (out : zToken) : Prop := forall script, zt_Owner out <> [] -> zk_script_owner out script ->
  Script_Validate crypto_Hash script now = Ok tt /\ exists k, lock_published (ZT_Metadata a) script k.

(** A metadata key the HTLC checks account for. *)
Definition zk_htlc_key (a : ZTransferAction) (sigs : list bytes) (ins outs : list zToken) (k : bytes) : Prop :=
  (exists i tin script sigma, ins !! i = Some tin /\ zk_script_owner tin script /\ now < Script_Deadline script /\
     sigs !! i = Some sigma /\ claim_published crypto_Hash json_ClaimSignature_strict (ZT_Metadata a) script sigma k) \/
  (exists out script, out ∈ outs /\ zk_script_owner out script /\ lock_published (ZT_Metadata a) script k).

Lemma zk_htlc_key_in a sigs ins outs k : zk_htlc_key a sigs ins outs k -> k ∈ (ZT_Metadata a).*1.
Proof. intros [(i & tin & script & sigma & _ & _ & _ & _ & H%claim_published_in)|(out & script & _ & _ & H%lock_published_in)]; done. Qed.

Lemma zk_htlcInput_Ok a n i tin (c c' : Ctx zToken) u :
  zk_htlcInput now crypto_Hash json_ClaimSignature_strict json_Script a n i (Some tin) c = (Ok u, c') ->
  (forall script, zk_script_owner tin script -> zk_script_spent a (ctx_Signatures c) n i script) /\
  exists ks, counts c ks c' /\
    Forall (fun k => exists script sigma, zk_script_owner tin script /\ now < Script_Deadline script /\
       ctx_Signatures c !! i = Some sigma /\ claim_published crypto_Hash json_ClaimSignature_strict (ZT_Metadata a) script sigma k) ks.
Proof.
  unfold zk_htlcInput. intros ([ty id] & c1 & [Hu ->]%wrapM_Ok%lift_Ok & H)%M_bind_Ok. cbn [TI_Type] in H.
  destruct (Z.eqb_spec ty ScriptType) as [->|Hty].
  2: { apply M_ret_Ok in H as [_ ->]. split.
       - intros script (id' & Hu' & _). rewrite Hu in Hu'. by injection Hu'.
       - exists []. split; [apply counts_refl|constructor]. }
  destruct (ZT_Outputs a) as [|[out|] [|]] eqn:Houts; try done.
  all: destruct (Nat.eqb_spec n 1) as [->|]; [|done]; cbn [negb] in H; try done.
  apply M_bind_Ok in H as ([script op] & c1 & [Ho ->]%wrapM_Ok%lift_Ok & H).
  apply VerifyOwner_Ok in Ho as (_ & (id' & Hu' & Hj) & Hcase); try done.
  apply M_bind_Ok in H as (c1 & c2 & [= <- <-] & H).
  destruct (ctx_Signatures c !! i) as [sigma|] eqn:Hs; [|done].
  apply M_bind_Ok in H as (k & c1 & [Hk ->]%wrapM_Ok%lift_Ok & H).
  assert (Hown : zk_script_owner tin script) by (by exists id').
  assert (Huniq : forall s, zk_script_owner tin s -> s = script).
  { intros s (id2 & Hu2 & Hj2). rewrite Hu' in Hu2. injection Hu2 as <-. congruence. }
  destruct Hcase as [(Hn & -> & Hout)|(Hn & -> & Hout)].
  - rewrite bool_decide_eq_false_2 in H by done. cbn [negb] in H. apply CountMetadataKey_counts in H.
    apply MetadataClaimKeyCheck_Ok in Hk; [|done]. split.
    + intros s ->%Huniq. exists out. split_and!; [done..|]. left. split_and!; [done..|]. by exists sigma, k.
    + exists [k]. split; [done|]. apply Forall_singleton. by exists script, sigma.
  - rewrite bool_decide_eq_true_2 in H by done. cbn [negb] in H. apply M_ret_Ok in H as [_ ->]. split.
    + intros s ->%Huniq. exists out. split_and!; [done..|]. by right.
    + exists []. split; [apply counts_refl|constructor].
Qed.

Lemma zk_htlcOutput_Ok a i out (c c' : Ctx zToken) u :
  zk_htlcOutput now crypto_Hash json_Script a i (Some out) c = (Ok u, c') ->
  zk_locked a out /\
  exists ks, counts c ks c' /\ Forall (fun k => exists script, zk_script_owner out script /\ lock_published (ZT_Metadata a) script k) ks.
Proof.
  unfold zk_htlcOutput, zToken_IsRedeem. destruct (Z.eqb_spec (zlen (zt_Owner out)) 0) as [Hz%zlen_zero_nil|Hz].
  { intros [_ ->]%M_ret_Ok. split; [by intros script|]. exists []. split; [apply counts_refl|constructor]. }
  intros ([ty id] & c1 & [Hu ->]%lift_Ok & H)%M_bind_Ok. cbn [TI_Type TI_Identity] in H.
  destruct (Z.eqb_spec ty ScriptType) as [->|Hty].
  2: { apply M_ret_Ok in H as [_ ->]. split.
       - intros script _ (id' & Hu' & _). rewrite Hu in Hu'. by injection Hu'.
       - exists []. split; [apply counts_refl|constructor]. }
  apply M_bind_Ok in H as (script & c1 & [Hj ->]%lift_Ok & H).
  apply M_bind_Ok in H as ([] & c1 & [Hv ->]%wrapM_Ok%lift_Ok & H).
  apply M_bind_Ok in H as (k & c1 & [Hk%MetadataLockKeyCheck_Ok ->]%wrapM_Ok%lift_Ok & H%CountMetadataKey_counts).
  split.
  - intros s _ (id' & Hu' & Hj'). rewrite Hu in Hu'. injection Hu' as <-. rewrite Hj in Hj'. injection Hj' as <-.
    split; [done|]. by exists k.
  - exists [k]. split; [done|]. apply Forall_singleton. exists script. split; [by exists id|done].
Qed.

Lemma ZTransferHTLC_Ok anchor tr a ins outs (c c' : Ctx zToken) u :
  InputTokens c = Some <$> ins -> ZT_Outputs a = Some <$> outs ->
  ZTransferHTLCValidate now crypto_Hash json_ClaimSignature_strict json_Script anchor tr a c = (Ok u, c') ->
  (forall i tin script, ins !! i = Some tin -> zk_script_owner tin script -> zk_script_spent a (ctx_Signatures c) (length ins) i script) /\
  (forall out, out ∈ outs -> zk_locked a out) /\
  exists ks, counts c ks c' /\ Forall (zk_htlc_key a (ctx_Signatures c) ins outs) ks.
Proof.
  intros Hins Houts. unfold ZTransferHTLCValidate. intros (c0 & c1 & [= <- <-] & H)%M_bind_Ok.
  apply M_bind_Ok in H as ([] & c1 & Hi & Ho). rewrite Hins, length_fmap in Hi. rewrite Houts in Ho.
  eapply (rangeM_counts _ (ctx_Signatures c)
    (fun i x => forall tin script, x = Some tin -> zk_script_owner tin script -> zk_script_spent a (ctx_Signatures c) (length ins) i script)
    (zk_htlc_key a (ctx_Signatures c) ins outs) (Some <$> ins)) in Hi as (HQ & ks & Hc & HP); [|..|done].
  2: { intros i x c2 c2' u2 Hx Hs. cbn [Nat.add]. rewrite list_lookup_fmap in Hx.
       destruct (ins !! i) as [tin|] eqn:Hti; [|done]. cbn in Hx. injection Hx as <-.
       intros (Hsp & ks & Hks & HP)%zk_htlcInput_Ok. rewrite Hs in Hsp, HP. split.
       - intros t script [= <-]. apply Hsp.
       - exists ks. split; [done|]. eapply Forall_impl; [exact HP|]. cbn.
         intros k (script & sigma & ? & ? & ? & ?). left. by exists i, tin, script, sigma. }
  assert (Hs1 : ctx_Signatures c1 = ctx_Signatures c) by (by rewrite Hc).
  eapply (rangeM_counts _ (ctx_Signatures c) (fun _ x => forall out, x = Some out -> zk_locked a out)
    (zk_htlc_key a (ctx_Signatures c) ins outs) (Some <$> outs)) in Ho as (HQ' & ks' & Hc' & HP'); [|..|done].
  2: { intros i x c2 c2' u2 Hx Hs. rewrite list_lookup_fmap in Hx.
       destruct (outs !! i) as [out|] eqn:Hti; [|done]. cbn in Hx. injection Hx as <-.
       intros (Hsp & ks2 & Hks & HP2)%zk_htlcOutput_Ok. split; [by intros t [= <-]|].
       exists ks2. split; [done|]. eapply Forall_impl; [exact HP2|]. cbn.
       intros k (script & ? & ?). right. exists out, script. split_and!; [|done|done]. by apply list_elem_of_lookup_2 with i. }
  split_and!.
  - intros i tin script Hi. apply (HQ i (Some tin)); [|done]. by rewrite list_lookup_fmap, Hi.
  - intros out (i & Hi)%list_elem_of_lookup. apply (HQ' i (Some out)); [|done]. by rewrite list_lookup_fmap, Hi.
  - exists (ks ++ ks'). split; [by eapply counts_trans|by apply Forall_app].
Qed.

(** *** Accepted actions *)

(** The facts about one accepted transfer. *)
Record zk_transfer_accepted (m : bytes) (sigs : list bytes) (a : ZTransferAction) (ins outs : list zToken) (ovs ivs : list verifier) : Prop := {
  zta_inputs : Forall2 zk_input_token (ZT_Inputs a) ins;
  zta_outputs : ZT_Outputs a = Some <$> outs;
  zta_ins : ins <> [];
  zta_outs : outs <> [];
  zta_owners : Forall2 zk_owner_verifier ins ovs;
  zta_issuer : zk_issuer_policy a outs ivs;
  zta_signed : Forall2 (fun (ver : verifier) s => ver m s = Ok tt) (ovs ++ ivs) sigs;
  zta_upgrades : 0 < zpp_QuantityPrecision PP < two63 -> forall i, Some i ∈ ZT_Inputs a -> upgrade_opens i;
  zta_proof : verify_transfer_proof PP envs (ZT_ProofType a) (zt_Data <$> ins) (zt_Data <$> outs) (ZT_Proof a) = Ok tt;
  zta_spent : forall i tin script, ins !! i = Some tin -> zk_script_owner tin script -> zk_script_spent a sigs (length ins) i script;
  zta_locked : forall out, out ∈ outs -> zk_locked a out;
  zta_metadata : gomap_wf (ZT_Metadata a) -> forall k, k ∈ (ZT_Metadata a).*1 ->
     PublicMetadataPrefix `prefix_of` k \/ zk_htlc_key a sigs ins outs k;
}.

Lemma upgrades_Ok l : forall n, 0 < zpp_QuantityPrecision PP < two63 -> rangeR (upgradeInput PP) n l = Ok tt ->
  forall i, Some i ∈ l -> upgrade_opens i.
Proof.
  induction l as [|x l IH]; intros n Hp H i Hi; [by apply not_elem_of_nil in Hi|]. cbn [rangeR] in H.
  apply res_bind_Ok in H as ([] & Hx & H). apply elem_of_cons in Hi as [<-|Hi]; [by eapply upgradeInput_Ok|by eapply IH].
Qed.

Lemma ZTransferZKProof_Ok anchor tr a ins outs (c c' : Ctx zToken) u : InputTokens c = Some <$> ins -> ZT_Outputs a = Some <$> outs ->
  ZTransferZKProofValidate PP envs anchor tr a c = (Ok u, c') ->
  c' = c /\ verify_transfer_proof PP envs (ZT_ProofType a) (zt_Data <$> ins) (zt_Data <$> outs) (ZT_Proof a) = Ok tt.
Proof.
  intros Hins Houts. unfold ZTransferZKProofValidate. intros (c0 & c1 & [= <- <-] & H)%M_bind_Ok.
  apply M_bind_Ok in H as (ds & c1 & [Hd ->]%lift_Ok & [Hv ->]%lift_Ok). split; [done|].
  assert (ds = zt_Data <$> ins) as ->.
  { rewrite Hins in Hd. clear -Hd. revert ds Hd. induction ins as [|t ins IH]; intros ds Hd; [by injection Hd as <-|].
    rewrite fmap_cons, mapM_cons_res in Hd. apply res_bind_Ok in Hd as (x & [= <-] & Hd). apply res_bind_Ok in Hd as (xs & ->%IH & [= <-]). done. }
  unfold ZT_GetOutputCommitments in Hv. rewrite Houts, omap_some in Hv. destruct u. by apply err_join_Ok in Hv.
Qed.

Lemma VerifyZkTransfer_Ok anchor tr a m sigs b' :
  VerifyTransfer ZT_Metadata ZV anchor tr (Some a) (Some (NewBackend m sigs)) = (Ok tt, Some b') ->
  Cursor b' = length (Sigs b') -> exists ins outs ovs ivs, zk_transfer_accepted m sigs a ins outs ovs ivs.
Proof.
  intros H Hex. apply in_context_Ok in H as ([] & c & H & Hmd & Hprov). cbn [rangeM TransferValidators ZkNewValidator] in H.
  apply M_bind_Ok in H as ([] & c1 & [(outs & Houts & Hne')%ZT_Validate_outputs ->]%lift_Ok & H).
  apply M_bind_Ok in H as ([] & c1 & Hsig & H). apply M_bind_Ok in H as ([] & c2 & [Hup ->]%lift_Ok & H).
  eapply ZTransferSignature_Ok in Hsig as (ins & ovs & ivs & sg & Hne & Hin & Hins & Hov & Hiv & Hcons & Hs & Hmc); [|exact Houts].
  apply M_bind_Ok in H as ([] & c2 & Hpr & H). eapply ZTransferZKProof_Ok in Hpr as [-> Hpr]; [|exact Hins|exact Houts].
  cbn in Hs, Hmc. apply M_bind_Ok in H as ([] & c2 & Hht & H).
  eapply ZTransferHTLC_Ok in Hht as (Hsp & Hlk & ks & Hc & Hks); [|exact Hins|exact Houts].
  apply M_bind_Ok in H as ([] & c3 & (ks' & Hc' & Hks')%ApplicationData_Ok & [_ ->]%M_ret_Ok).
  pose proof (counts_trans _ _ _ _ _ Hc Hc') as Hct. clear Hc Hc'.
  assert (Hp1 : SignatureProvider c1 = Some b') by (rewrite Hct in Hprov; exact Hprov).
  destruct (consumes_all _ _ _ _ _ b' Hcons eq_refl eq_refl Hp1 Hex) as [Esg Hsig].
  cbn [Sigs Message NewBackend] in Esg, Hsig. rewrite Esg in Hs.
  exists ins, outs, ovs, ivs. rewrite Hs in *. split; try done; [by intros Hp; eapply upgrades_Ok|].
  intros Hwf k Hk. rewrite Hct in Hmd. cbn [MetadataCounter] in Hmd. rewrite Hmc in Hmd.
  eapply check_metadata_all in Hmd; [|done| |exact Hk].
  - apply elem_of_app in Hmd as [Hm|Hm]; [right; by apply (proj1 (Forall_forall _ _) Hks)|left].
    by apply (proj1 (Forall_forall _ _) Hks') in Hm as [? _].
  - apply Forall_app. split; [eapply Forall_impl; [exact Hks|]; intros x; apply zk_htlc_key_in|].
    eapply Forall_impl; [exact Hks'|]. by intros x [_ ?].
Qed.

Lemma accepted_zk_transfer anchor raw acts attrs i a : MaxActions limits <= two32 ->
  ZkVerify anchor raw = Ok (acts, attrs) -> acts !! i = Some (VTransfer (Some a)) ->
  exists tr, TokenRequest_FromBytes proto_Unmarshal raw = Ok tr /\ MarshalToMessageToSign tr anchor = Ok (TokenRequestToSign attrs) /\
    exists ins outs ovs ivs, zk_transfer_accepted (TokenRequestToSign attrs) (action_signatures tr (Z.of_nat i)) a ins outs ovs ivs.
Proof.
  intros Hmax H Hi. pose proof H as (tr' & acts' & Htr' & _ & _ & _ & _ & Hm & _)%FromRaw_Ok; [|done].
  apply actions_in_order in H as (tr & d & iss & trs & Htr & _ & _ & _ & _ & _ & Hall); [|done].
  assert (tr' = tr) as -> by congruence. exists tr. split_and!; [done|done|].
  apply Hall in Hi as (b' & Hex & Hv). by eapply VerifyZkTransfer_Ok.
Qed.

(** An accepted issue: its outputs carry commitments, the proof is verified for
    exactly these, the issuer is authorized and its single signature verifies. *)
Definition zk_issue_accepted (m : bytes) (sigs : list bytes) (a : ZIssueAction) (outs : list zToken) : Prop :=
  ZI_Outputs a = Some <$> outs /\ outs <> [] /\
  verify_issue_proof PP envs (ZI_ProofType a) (zt_Data <$> outs) (ZI_Proof a) = Ok tt /\
  (zpp_Issuers PP <> [] -> ZI_Issuer a ∈ zpp_Issuers PP) /\
  (exists ver sigma, GetIssuerVerifier (ZI_Issuer a) = Ok (Some ver) /\ sigs = [sigma] /\ ver m sigma = Ok tt) /\
  (gomap_wf (ZI_Metadata a) -> forall k, k ∈ (ZI_Metadata a).*1 -> PublicMetadataPrefix `prefix_of` k).

Lemma ZI_GetCommitments_Ok a coms : ZI_GetCommitments a = Ok coms -> exists outs, ZI_Outputs a = Some <$> outs /\ coms = zt_Data <$> outs.
Proof.
  unfold ZI_GetCommitments. generalize (ZI_Outputs a). intros l. revert coms. induction l as [|o l IH]; intros coms H; [injection H as <-; by exists []|].
  rewrite mapM_cons_res in H. apply res_bind_Ok in H as (x & Hx & H). apply res_bind_Ok in H as (xs & (outs & -> & ->)%IH & [= <-]).
  destruct o as [t|]; [|done]. exists (t :: outs). split; [done|]. rewrite fmap_cons. destruct (zt_Data t); [|done]. by injection Hx as <-.
Qed.

Lemma ZI_Validate_outputs a u : ZIssueAction_Validate a = Ok u -> ZI_Outputs a <> [].
Proof.
  unfold ZIssueAction_Validate. cbv zeta. intros ([] & _ & H)%res_bind_Ok. apply res_bind_Ok in H as ([] & _ & H).
  by apply res_bind_Ok in H as ([] & Hne%reject_if_Ok%zlen_eqb0 & _).
Qed.

Lemma VerifyZkIssue_Ok anchor tr a m sigs b' :
  VerifyIssue ZI_Metadata ZV anchor tr (Some a) (Some (NewBackend m sigs)) = (Ok tt, Some b') ->
  Cursor b' = length (Sigs b') -> exists outs, zk_issue_accepted m sigs a outs.
Proof.
  intros H Hex. apply in_context_Ok in H as ([] & c & H & Hmd & Hprov). cbn [rangeM IssueValidators ZkNewValidator] in H.
  apply M_bind_Ok in H as ([] & c1 & Hv & H). apply M_bind_Ok in H as ([] & c2 & (ks & Hc & Hks)%ApplicationData_Ok & [_ ->]%M_ret_Ok).
  unfold ZIssueValidate in Hv. apply M_bind_Ok in Hv as ([] & c2' & [Hne%ZI_Validate_outputs ->]%wrapM_Ok%lift_Ok & Hv).
  apply M_bind_Ok in Hv as (coms & c2' & [Hcoms ->]%lift_Ok & Hv). destruct (ZI_GetCommitments a) as [coms'| |] eqn:Eg; [|done|done].
  injection Hcoms as ->. apply ZI_GetCommitments_Ok in Eg as (outs & Houts & ->).
  apply M_bind_Ok in Hv as ([] & c2' & [Hpr%err_join_Ok ->]%lift_Ok & Hv). apply M_bind_Ok in Hv as ([] & c2' & Hiss & Hv).
  destruct (negb (zlen (zpp_Issuers PP) =? 0) && _) eqn:E; [done|]. apply M_ret_Ok in Hiss as [_ ->].
  apply M_bind_Ok in Hv as (v & c2' & [Hver ->]%wrapM_Ok%lift_Ok & Hv). apply M_bind_Ok in Hv as ([] & c2' & ->%require_provider_Ok & Hv).
  apply M_bind_Ok in Hv as (sigma & c2' & (ver & -> & Hcons & _ & _ & Hmc)%wrapM_Ok%HasBeenSignedBy_consumes & [_ ->]%M_ret_Ok).
  assert (Hp1 : SignatureProvider c2' = Some b') by (rewrite Hc in Hprov; exact Hprov).
  destruct (consumes_all _ _ _ _ _ b' Hcons eq_refl eq_refl Hp1 Hex) as [Esg Hsig]. cbn [Sigs Message NewBackend] in Esg, Hsig.
  exists outs. unfold zk_issue_accepted. split_and!; [done|intros ->; by rewrite Houts in Hne|done| | |].
  - intros Hi. rewrite (proj2 (zlen_eqb0 _)) in E by done. cbn in E. destruct (existsb _ _) eqn:Hin; [|done]. by apply existsb_Identity in Hin.
  - exists ver, sigma. split_and!; [done|done|]. rewrite <- Esg in Hsig. by apply Forall2_cons in Hsig as [? _].
  - intros Hwf k Hk. rewrite Hc in Hmd. cbn [MetadataCounter] in Hmd. rewrite Hmc in Hmd. assert (k ∈ ks) as Hin.
    { refine (check_metadata_all _ _ Hwf _ Hmd k Hk). eapply Forall_impl; [exact Hks|]. by intros x [_ ?]. }
    by apply (proj1 (Forall_forall _ _) Hks) in Hin as [? _].
Qed.

Lemma accepted_zk_issue anchor raw acts attrs i a : MaxActions limits <= two32 ->
  ZkVerify anchor raw = Ok (acts, attrs) -> acts !! i = Some (VIssue (Some a)) ->
  exists tr, TokenRequest_FromBytes proto_Unmarshal raw = Ok tr /\ MarshalToMessageToSign tr anchor = Ok (TokenRequestToSign attrs) /\
    exists outs, zk_issue_accepted (TokenRequestToSign attrs) (action_signatures tr (Z.of_nat i)) a outs.
Proof.
  intros Hmax H Hi. pose proof H as (tr' & acts' & Htr' & _ & _ & _ & _ & Hm & _)%FromRaw_Ok; [|done].
  apply actions_in_order in H as (tr & d & iss & trs & Htr & _ & _ & _ & _ & _ & Hall); [|done].
  assert (tr' = tr) as -> by congruence. exists tr. split_and!; [done|done|].
  apply Hall in Hi as (b' & Hex & Hv). by eapply VerifyZkIssue_Ok.
Qed.

(** What an accepted proof of a transfer shows, for each of the two proof types
    the parameters may support. *)
Definition zk_transfer_proved (proofType : Z) (p1 p2 : G1) (ps : list G1) (inputs outputs : list commitment) (raw : bytes) : Prop :=
  (proofType = RangeProofType /\ exists r, zp_RangeProofParams (zpp_params PP) = Some r /\ transfer_proved (zpp_params PP) p1 p2 ps r inputs outputs raw) \/
  (proofType = CSPRangeProofType /\ exists r, zpp_CSP PP = Some r /\ csp_transfer_proved (csp_pp PP) p1 p2 ps r envs inputs outputs raw).

Definition zk_issue_proved (proofType : Z) (p1 p2 : G1) (ps : list G1) (tokens : list commitment) (raw : bytes) : Prop :=
  (proofType = RangeProofType /\ exists r, zp_RangeProofParams (zpp_params PP) = Some r /\ issue_proved (zpp_params PP) p1 p2 ps r tokens raw) \/
  (proofType = CSPRangeProofType /\ exists r, zpp_CSP PP = Some r /\ csp_issue_proved (csp_pp PP) p1 p2 ps r envs tokens raw).

Lemma SupportsRangeProofType_cases proofType : SupportsRangeProofType PP proofType = true ->
  (proofType = RangeProofType /\ (proofType =? RangeProofType) = true /\ is_Some (zp_RangeProofParams (zpp_params PP))) \/
  (proofType = CSPRangeProofType /\ (proofType =? RangeProofType) = false /\ is_Some (zpp_CSP PP)).
Proof.
  unfold SupportsRangeProofType. destruct (Z.eqb_spec proofType RangeProofType) as [->|]; [destruct (zp_RangeProofParams _); [left|done]; by split_and!|].
  destruct (Z.eqb_spec proofType CSPRangeProofType) as [->|]; [|done]. destruct (zpp_CSP PP); [right|done]. by split_and!.
Qed.

Lemma transfer_proof_accepted proofType p0 p1 p2 ps inputs outputs raw : zp_PedersenGenerators (zpp_params PP) = p0 :: p1 :: p2 :: ps ->
  verify_transfer_proof PP envs proofType inputs outputs raw = Ok tt -> zk_transfer_proved proofType p1 p2 ps inputs outputs raw.
Proof.
  intros Hp. unfold verify_transfer_proof. destruct (SupportsRangeProofType PP proofType) eqn:Es; [|done]. cbn [negb].
  apply SupportsRangeProofType_cases in Es as [(E & -> & r & Hr)|(E & -> & r & Hr)]; intros (v & Hv & H)%res_bind_Ok; [left|right]; (split; [done|]); exists r; (split; [done|]).
  - by eapply BulletProofVerifier_accepted; [split|..].
  - by eapply CSPVerifier_accepted; [split|..].
Qed.

Lemma issue_proof_accepted proofType p0 p1 p2 ps tokens raw : zp_PedersenGenerators (zpp_params PP) = p0 :: p1 :: p2 :: ps ->
  verify_issue_proof PP envs proofType tokens raw = Ok tt -> zk_issue_proved proofType p1 p2 ps tokens raw.
Proof.
  intros Hp. unfold verify_issue_proof. destruct (SupportsRangeProofType PP proofType) eqn:Es; [|done]. cbn [negb].
  apply SupportsRangeProofType_cases in Es as [(E & -> & r & Hr)|(E & -> & r & Hr)]; intros (v & Hv & H)%res_bind_Ok; [left|right]; (split; [done|]); exists r; (split; [done|]).
  - by eapply IssueVerifier_accepted; [split|..].
  - by eapply CSPIssueVerifier_accepted; [split|..].
Qed.

(** ** Properties *)

(** C10: a transfer the zero-knowledge driver accepts is authorized and proved.
    The signatures the request attaches to the action are, one for one and in
    order, accepted by the verifiers of the owners of the spent tokens, followed
    by one of a configured issuer exactly when issuers are configured and an
    output is a redeem; every upgraded input commits to the type and amount of
    the cleartext token it replaces; and, in the range-proof system the action
    names, which the public parameters support, the tokens' data are points of
    the curve for which the proof of type and sum holds, with a range proof for
    every output unless one token only changes its owner. *)
Theorem zk_transfer_authorized anchor raw acts attrs i a p0 p1 p2 ps :
  MaxActions limits <= two32 -> 0 < zpp_QuantityPrecision PP < two63 -> zp_PedersenGenerators (zpp_params PP) = p0 :: p1 :: p2 :: ps ->
  ZkVerify anchor raw = Ok (acts, attrs) -> acts !! i = Some (VTransfer (Some a)) ->
  exists tr m ins outs ovs ivs, TokenRequest_FromBytes proto_Unmarshal raw = Ok tr /\ MarshalToMessageToSign tr anchor = Ok m /\
    Forall2 zk_input_token (ZT_Inputs a) ins /\ ZT_Outputs a = Some <$> outs /\
    Forall2 zk_owner_verifier ins ovs /\ zk_issuer_policy a outs ivs /\
    Forall2 (fun (ver : verifier) s => ver m s = Ok tt) (ovs ++ ivs) (action_signatures tr (Z.of_nat i)) /\
    (forall inp, Some inp ∈ ZT_Inputs a -> upgrade_opens inp) /\
    zk_transfer_proved (ZT_ProofType a) p1 p2 ps (zt_Data <$> ins) (zt_Data <$> outs) (ZT_Proof a).
Proof.
  intros Hmax Hp Hpp H Hi. destruct (accepted_zk_transfer _ _ _ _ _ _ Hmax H Hi) as (tr & Htr & Hm & ins & outs & ovs & ivs & [? ? ? ? ? ? ? Hup Hpr ? ? ?]).
  exists tr, (TokenRequestToSign attrs), ins, outs, ovs, ivs. split_and!; try done; [by apply Hup|].
  by eapply transfer_proof_accepted.
Qed.

(** A transfer the zero-knowledge driver accepts respects hash time-locks and
    accounts for its metadata.  A token owned by a script is spent alone into one
    output, which goes to the script's recipient before the deadline, with a
    published preimage, and back to the sender from the deadline on; new scripts
    are valid and their locks published; every metadata key is a public
    application key or belongs to one of these scripts. *)
Theorem zk_transfer_htlc anchor raw acts attrs i a :
  MaxActions limits <= two32 -> ZkVerify anchor raw = Ok (acts, attrs) -> acts !! i = Some (VTransfer (Some a)) ->
  exists tr ins outs, TokenRequest_FromBytes proto_Unmarshal raw = Ok tr /\
    Forall2 zk_input_token (ZT_Inputs a) ins /\ ZT_Outputs a = Some <$> outs /\
    (forall j tin script, ins !! j = Some tin -> zk_script_owner tin script ->
       zk_script_spent a (action_signatures tr (Z.of_nat i)) (length ins) j script) /\
    (forall out, out ∈ outs -> zk_locked a out) /\
    (gomap_wf (ZT_Metadata a) -> forall k, k ∈ (ZT_Metadata a).*1 ->
       PublicMetadataPrefix `prefix_of` k \/ zk_htlc_key a (action_signatures tr (Z.of_nat i)) ins outs k).
Proof.
  intros Hmax H Hi. destruct (accepted_zk_transfer _ _ _ _ _ _ Hmax H Hi) as (tr & Htr & _ & ins & outs & ovs & ivs & []).
  by exists tr, ins, outs.
Qed.

(** C20: tokens of the zero-knowledge driver are created only by authorized
    issuers, with a proof.  An accepted issue has outputs; if issuers are
    configured its issuer is one of them; the request attaches exactly one
    signature to the action, accepted by the verifier of that issuer on the
    message built from this request and anchor; and, in the range-proof system
    the action names, which the public parameters support, the outputs are points
    of the curve for which the proof of type and every range proof hold. *)
Theorem zk_issue_authorized anchor raw acts attrs i a p0 p1 p2 ps :
  MaxActions limits <= two32 -> zp_PedersenGenerators (zpp_params PP) = p0 :: p1 :: p2 :: ps ->
  ZkVerify anchor raw = Ok (acts, attrs) -> acts !! i = Some (VIssue (Some a)) ->
  exists tr m outs ver sigma, TokenRequest_FromBytes proto_Unmarshal raw = Ok tr /\ MarshalToMessageToSign tr anchor = Ok m /\
    ZI_Outputs a = Some <$> outs /\ outs <> [] /\ (zpp_Issuers PP <> [] -> ZI_Issuer a ∈ zpp_Issuers PP) /\
    GetIssuerVerifier (ZI_Issuer a) = Ok (Some ver) /\ action_signatures tr (Z.of_nat i) = [sigma] /\ ver m sigma = Ok tt /\
    zk_issue_proved (ZI_ProofType a) p1 p2 ps (zt_Data <$> outs) (ZI_Proof a).
Proof.
  intros Hmax Hpp H Hi. destruct (accepted_zk_issue _ _ _ _ _ _ Hmax H Hi) as (tr & Htr & Hm & outs & ? & ? & Hpr & ? & (ver & sigma & ? & ? & ?) & _).
  exists tr, (TokenRequestToSign attrs), outs, ver, sigma. split_and!; try done.
  by eapply issue_proof_accepted.
Qed.
End ZkSafety.

(** ** Witnesses: an issue, the claim of a locked token, and a transfer of an
       upgraded token, on the small curve *)

Module SmallRequest.
Import F5 Small SmallCsp.

Definition G1_JSON (raw : bytes) : res (ZkCodec.wire F) := Ok (Own (of_bytes raw)).
Definition Zr_JSON (raw : bytes) : res (ZkCodec.wire F) := Ok (Own (of_bytes raw)).
Definition point_JSON (p : F) : option bytes := Some (z2b 5 :: bytes_of p).
Definition PP : ZkPP := mkZkPP _ pp None 64 [str "issuer"] [str "auditor"].

Definition token (owner : bytes) (p : F) : option PzToken := Some (mkPzToken owner (point_JSON p)).
Definition input (owner : bytes) (p : F) (w : option PUpgradeWitness) : option PzInput :=
  Some (mkPzInput (Some (mkID (str "tx0") 0)) (token owner p) w).
Definition proof_of (r : res bytes) : option PProof := Some (PProof_Proof (match r with Ok b => b | _ => [] end)).

(** One token of three changes its owner. *)
Definition locked : list F * list ZkMetadata := tokens [3%Z] [f1].
Definition claim_proof : res bytes :=
  p ← NewBulletProofProver Zr_Uint (Ok (stream 1)) (Some <$> locked.2) (Some <$> outs.2) locked.1 outs.1 pp;
  BulletProofProver_Prove p (rands 2) (Ok (stream 4)).

Definition the_issue : PzIssueAction :=
  mkPzIssue 1 (Some (str "issuer")) [] (Some ∘ token bob <$> outs.1) (proof_of issued) [(str "pub.note", str "n")].
Definition the_claim : PzTransferAction :=
  mkPzTransfer 1 ((fun p => input swap_owner p None) <$> locked.1) (Some ∘ token bob <$> outs.1) (proof_of claim_proof) [(claim_key, str "secret")] None.
Definition the_upgrade : option PUpgradeWitness := Some (mkPUpgradeWitness (Some (mkPToken bob (str "EUR") (str "0x01"))) (Some (bytes_of f4))).
Definition the_transfer : PzTransferAction :=
  mkPzTransfer 1 (zip_with (input bob) ins.1 [None; the_upgrade]) (Some ∘ token [] <$> outs.1) (proof_of sent) [] (Some (str "issuer")).

Definition issue_message (_ : bytes) : res PzIssueAction := Ok the_issue.
Definition transfer_message (raw : bytes) : res PzTransferAction := Ok (if bool_decide (raw = str "claim") then the_claim else the_transfer).

Definition action_sig (i : Z) : option PSignatureOneof := Some (PActionSig (Some (mkPActionSignature i (Some (str "sig"))))).
Definition raw_request (_ : bytes) : res PTokenRequest := Ok (mkPTokenRequest 1
  [Some (PTyped (Some (mkPTypedAction 1 (str "issue")))); Some (PTyped (Some (mkPTypedAction 2 (str "claim")))); Some (PTyped (Some (mkPTypedAction 2 (str "transfer"))))]
  [action_sig 0; action_sig 1; action_sig 2; action_sig 2; action_sig 2;
   Some (PAuditorSig (Some (mkPAuditorSignature (Some (str "auditor")) (Some (str "sig")))))]).

Abbreviation small_ZkVerify :=
  (ZkVerify (IO := bytes_identity) (CO := curve) (NA := native) (WI := Small.wire) PP accept_all accept_all accept_all 99 example_hash example_claim (fun _ => Ok swap)
     envs DefaultResourceLimits 1 G1_JSON Zr_JSON
     issue_message transfer_message raw_request example_json).

Lemma PP_precision : 0 < zpp_QuantityPrecision PP < two63.
Proof. done. Qed.

Abbreviation verdict := (small_ZkVerify (str "tx1") (str "raw")).

(** The kind of the action at an index. *)
Definition is_transfer {A} (r : res (list (action_value (TA := ZTransferAction) (IA := ZIssueAction)) * A)) (i : nat) : bool :=
  match r with
  | Ok (acts, _) => match acts !! i with Some (VTransfer (Some a)) => ZT_ProofType a =? RangeProofType | _ => false end
  | _ => false
  end.
Definition is_issue {A} (r : res (list (action_value (TA := ZTransferAction) (IA := ZIssueAction)) * A)) (i : nat) : bool :=
  match r with
  | Ok (acts, _) => match acts !! i with Some (VIssue (Some a)) => ZI_ProofType a =? RangeProofType | _ => false end
  | _ => false
  end.

Lemma is_transfer_inv {A} (r : res (list _ * A)) i : is_transfer r i = true ->
  exists acts attrs a, r = Ok (acts, attrs) /\ acts !! i = Some (VTransfer (Some a)) /\ ZT_ProofType a = RangeProofType.
Proof.
  destruct r as [[acts attrs]| |]; try done. cbn [is_transfer]. destruct (acts !! i) as [[|[a|]]|] eqn:E; try done.
  intros H%Z.eqb_eq. by exists acts, attrs, a.
Qed.

Lemma is_issue_inv {A} (r : res (list _ * A)) i : is_issue r i = true ->
  exists acts attrs a, r = Ok (acts, attrs) /\ acts !! i = Some (VIssue (Some a)) /\ ZI_ProofType a = RangeProofType.
Proof.
  destruct r as [[acts attrs]| |]; try done. cbn [is_issue]. destruct (acts !! i) as [[[a|]|]|] eqn:E; try done.
  intros H%Z.eqb_eq. by exists acts, attrs, a.
Qed.

Lemma verdict_actions : is_issue verdict 0 && is_transfer verdict 1 && is_transfer verdict 2 = true.
Proof. vm_compute. reflexivity. Qed.

Lemma verdict_issue : is_issue verdict 0 = true.
Proof. pose proof verdict_actions as H. by apply andb_true_iff in H as [[? _]%andb_true_iff _]. Qed.
Lemma verdict_claim : is_transfer verdict 1 = true.
Proof. pose proof verdict_actions as H. by apply andb_true_iff in H as [[_ ?]%andb_true_iff _]. Qed.
Lemma verdict_transfer : is_transfer verdict 2 = true.
Proof. pose proof verdict_actions as H. by apply andb_true_iff in H as [_ ?]. Qed.
End SmallRequest.

Section Witnesses.
Import F5 Small SmallCsp SmallRequest.

Lemma zk_transfer_authorized_witness : exists a ins outs, Forall2 zk_input_token (ZT_Inputs a) ins /\ ZT_Outputs a = Some <$> outs /\
  zk_transfer_proved PP envs (ZT_ProofType a) f2 f3 [] (zt_Data <$> ins) (zt_Data <$> outs) (ZT_Proof a) /\ (forall inp, Some inp ∈ ZT_Inputs a -> upgrade_opens PP inp).
Proof.
  destruct (is_transfer_inv verdict 2 verdict_transfer) as (acts & attrs & a & Hv & Ha & Ht).
  destruct (zk_transfer_authorized (IO := bytes_identity) (CO := curve) (NA := native) (WI := Small.wire) PP accept_all accept_all accept_all 99 example_hash example_claim (fun _ => Ok swap)
     envs DefaultResourceLimits 1 G1_JSON Zr_JSON
     issue_message transfer_message raw_request example_json
     (str "tx1") (str "raw") acts attrs 2%nat a f1 f2 f3 [] example_action_ids PP_precision eq_refl Hv Ha)
    as (tr & m & ins & outs & ovs & ivs & _ & _ & Hin & Hout & _ & _ & _ & Hup & Hp).
  exists a, ins, outs. split; [exact Hin|]. split; [exact Hout|]. split; [exact Hp|exact Hup].
Defined.

Lemma zk_transfer_htlc_witness : exists a tr ins, TokenRequest_FromBytes raw_request (str "raw") = Ok tr /\ Forall2 zk_input_token (ZT_Inputs a) ins /\
  forall j tin script, ins !! j = Some tin -> zk_script_owner (fun _ => Ok swap) tin script ->
    zk_script_spent 99 example_hash example_claim a (action_signatures tr 1) (length ins) j script.
Proof.
  destruct (is_transfer_inv verdict 1 verdict_claim) as (acts & attrs & a & Hv & Ha & Ht).
  destruct (zk_transfer_htlc (IO := bytes_identity) (CO := curve) (NA := native) (WI := Small.wire) PP accept_all accept_all accept_all 99 example_hash example_claim (fun _ => Ok swap)
     envs DefaultResourceLimits 1 G1_JSON Zr_JSON
     issue_message transfer_message raw_request example_json
     (str "tx1") (str "raw") acts attrs 1%nat a example_action_ids Hv Ha)
    as (tr & ins & outs & Htr & Hin & Hout & Hs & _).
  exists a, tr, ins. split; [exact Htr|]. split; [exact Hin|exact Hs].
Defined.

Lemma zk_issue_authorized_witness : exists a outs, ZI_Outputs a = Some <$> outs /\ outs <> [] /\ zk_issue_proved PP envs (ZI_ProofType a) f2 f3 [] (zt_Data <$> outs) (ZI_Proof a).
Proof.
  destruct (is_issue_inv verdict 0 verdict_issue) as (acts & attrs & a & Hv & Ha & Ht).
  destruct (zk_issue_authorized (IO := bytes_identity) (CO := curve) (NA := native) (WI := Small.wire) PP accept_all accept_all accept_all 99 example_hash example_claim (fun _ => Ok swap)
     envs DefaultResourceLimits 1 G1_JSON Zr_JSON
     issue_message transfer_message raw_request example_json
     (str "tx1") (str "raw") acts attrs 0%nat a f1 f2 f3 [] example_action_ids eq_refl Hv Ha)
    as (tr & m & outs & ver & sigma & _ & _ & Hout & Hne & _ & _ & _ & _ & Hp).
  exists a, outs. split; [exact Hout|]. split; [exact Hne|exact Hp].
Defined.
End Witnesses.
