(* ===== verification/ZkSetup.v ===== *)
(** * The public parameters of the zero-knowledge driver
      (core/zkatdlog/nogh/v1/setup/setup.go, core/naming.go,
      core/common/encoding/pp/pp.go)

    Generation, validation and the wire format of the public parameters.  The
    provers and verifiers index and compute with the generators without checks
    of their own; the module shows that validated parameters give them what they
    rely on, that generated ones validate, and that encoding and decoding
    restores them. *)

From S2P Require Import Prelude GoStd Quantity Der TokenTypes Asn1 Request Limits Validator Htlc FabtokenActions ZkMath ZkIpa ZkRange ZkSigma ZkCodec ZkTransfer Csp CspFold CspSound Lagrange LagrangeSpec LagrangeTree CspRange CspRangeSpec CspRangeSound CspTransfer ZkActions ZkValidator ZkClaims CspClaims.
From Stdlib Require Import ZArith Lia.
Open Scope Z_scope.

(** The parameters as they are stored: generators may be nil or of any curve. *)
Record wRangeProofParams `{!Curve} := {
  wrp_LeftGenerators : list commitment;
  wrp_RightGenerators : list commitment;
  wrp_P : commitment;
  wrp_Q : commitment;
  wrp_BitLength : Z;
  wrp_NumberOfRounds : Z;
}.

Record wCSPRangeProofParams `{!Curve} := {
  wcp_LeftGenerators : list commitment;
  wcp_RightGenerators : list commitment;
  wcp_BitLength : Z;
  wcp_RPTranscriptHeader : bytes;
}.

Record IdemixIssuerPublicKey := mkIdemix { ik_PublicKey : bytes; ik_Curve : Z }.

Record PublicParams `{!Curve} := mkPublicParams {
  sp_DriverName : bytes;
  sp_DriverVersion : Z;
  sp_Curve : Z;
  sp_PedersenGenerators : list commitment;
  sp_RangeProofParams : option wRangeProofParams;
  sp_IdemixIssuerPublicKeys : list (option IdemixIssuerPublicKey);
  sp_AuditorIDs : list bytes;
  sp_IssuerIDs : list bytes;
  sp_MaxToken : Z;
  sp_QuantityPrecision : Z;
  sp_ExtraData : gomap bytes;
  sp_CSPRangeProofParams : option wCSPRangeProofParams;
}.

(** The protobuf messages; an element is its JSON form. *)
Record PRangeProofParams := {
  prp_LeftGenerators : list (option bytes);
  prp_RightGenerators : list (option bytes);
  prp_P : option bytes;
  prp_Q : option bytes;
  prp_BitLength : Z;
  prp_NumberOfRounds : Z;
}.

Record PCSPRangeProofParams := {
  pcp_LeftGenerators : list (option bytes);
  pcp_RightGenerators : list (option bytes);
  pcp_BitLength : Z;
}.

Record PIdemixKey := { pik_PublicKey : option bytes; pik_CurveId : option Z }.

Record PPublicParameters := {
  psp_TokenDriverName : bytes;
  psp_TokenDriverVersion : Z;
  psp_CurveId : option Z;
  psp_PedersenGenerators : list (option bytes);
  psp_RangeProofParams : option PRangeProofParams;
  psp_CspRangeProofParams : option PCSPRangeProofParams;
  psp_IdemixIssuerPublicKeys : list (option PIdemixKey);
  psp_Auditors : list (option bytes);
  psp_Issuers : list (option bytes);
  psp_MaxToken : Z;
  psp_QuantityPrecision : Z;
  psp_Metadata : gomap bytes;
}.

(** The container: an identifier of the driver and the encoded parameters. *)
Record PContainer := { pct_Identifier : bytes; pct_Raw : bytes }.

Record SetupParams := {
  su_DriverName : bytes;
  su_DriverVersion : Z;
  su_BitLength : Z;
  su_IdemixIssuerPK : bytes;
  su_CurveID : Z;
  su_ProofType : Z;
}.

Definition DLogNoGHDriverName : bytes := str "zkatdlognogh".
Definition setup_ProtocolV1 : Z := 1.
Definition SupportedPrecisions : list Z := [16; 32; 64].

(** [1 << n] on [uint64]. *)
Definition shl64 (n : Z) : Z := if n <? 64 then 2 ^ n else 0.

(** [bits.Len64(x) - 1]. *)
Definition log2 (x : Z) : Z := if x =? 0 then 0 else Z.log2 x.

(** [big.Int.Bytes] of a [uint64]: big-endian without leading zeros. *)
Fixpoint drop_zeros (b : bytes) : bytes := match b with x :: b' => if b2z x =? 0 then drop_zeros b' else b | [] => [] end.
Definition uint_Bytes (n : Z) : bytes := drop_zeros (be_bytes 8 n).

(** [DriverIdentifier]: [name.vN]. *)
Definition DriverIdentifier (name : bytes) (ver : Z) : bytes := name ++ str ".v" ++ format_nat 10 ver.

Section Setup.
Context {CO : Curve} {NA : Native} {WI : Wire} {CC : CspCurve}.
(** The library on points of other curves, hashing to a curve, and the codecs. *)
Context (foreign_IsInfinity : Z -> bytes -> bool) (foreign_Bytes : Z -> bytes -> bytes) (HashToG1 : Z -> bytes -> wire G1).
Context (G1_MarshalJSON : wire G1 -> res bytes) (G1_UnmarshalJSON : bytes -> res (wire G1)).
Context (proto_Marshal : PPublicParameters -> res bytes) (proto_Unmarshal : bytes -> res PPublicParameters).
Context (json_Marshal : PContainer -> res bytes) (json_Unmarshal : bytes -> res PContainer).

(** ** Checks of elements against the curve of the parameters *)

(** [element.CurveID() == curveID]; a [Foreign] element is of another curve than
    [curve_id]. *)
Definition of_curve {T} (w : wire T) (curveID : Z) : bool :=
  match w with Own _ => curve_id =? curveID | Foreign id _ => (id =? curveID) && negb (curveID =? curve_id) end.
Definition wire_IsInfinity (w : wire G1) : bool := match w with Own p => G1_IsInfinity p | Foreign id b => foreign_IsInfinity id b end.
Definition wire_Bytes (w : wire G1) : bytes := match w with Own p => G1_Bytes p | Foreign id b => foreign_Bytes id b end.

Definition check_element (curveID : Z) (o : commitment) : res unit :=
  match o with
  | None => Err (EMsg "element is nil")
  | Some w => if negb (of_curve w curveID) then Err (EMsg "element curve must equal curve ID")
              else if wire_IsInfinity w then Err (EMsg "element is infinity") else Ok tt
  end.

Definition check_elements (l : list commitment) (curveID len : Z) : res unit :=
  if negb (zlen l =? len) then Err (EMsg "length of elements does not match length of curveID")
  else rangeR (fun _ e => check_element curveID e) 0 l.

Definition RangeProofParams_Validate (rpp : wRangeProofParams) (curveID : Z) : res unit :=
  reject_if (wrp_BitLength rpp =? 0) (EMsg "invalid range proof parameters: bit length is zero") ;;
  reject_if (wrp_NumberOfRounds rpp =? 0) (EMsg "invalid range proof parameters: number of rounds is zero") ;;
  reject_if (64 <? wrp_NumberOfRounds rpp) (EMsg "invalid range proof parameters: number of rounds must be smaller or equal to 64") ;;
  reject_if (negb (wrp_BitLength rpp =? shl64 (wrp_NumberOfRounds rpp))) (EMsg "invalid range proof parameters: bit length should be") ;;
  reject_if (negb (zlen (wrp_LeftGenerators rpp) =? zlen (wrp_RightGenerators rpp)))
    (EMsg "invalid range proof parameters: the size of the left generators does not match the size of the right generators") ;;
  wrap "invalid range proof parameters: generator Q is invalid" (check_element curveID (wrp_Q rpp)) ;;
  wrap "invalid range proof parameters: generator P is invalid" (check_element curveID (wrp_P rpp)) ;;
  wrap "invalid range proof parameters, left generators is invalid" (check_elements (wrp_LeftGenerators rpp) curveID (wrp_BitLength rpp)) ;;
  wrap "invalid range proof parameters, right generators is invalid" (check_elements (wrp_RightGenerators rpp) curveID (wrp_BitLength rpp)).

Definition CSPRangeProofParams_Validate (rpp : wCSPRangeProofParams) (curveID : Z) : res unit :=
  reject_if (wcp_BitLength rpp =? 0) (EMsg "invalid range proof parameters: bit length is zero") ;;
  reject_if (negb (zlen (wcp_LeftGenerators rpp) =? zlen (wcp_RightGenerators rpp)))
    (EMsg "invalid range proof parameters: the size of the left generators does not match the size of the right generators") ;;
  wrap "invalid range proof parameters, left generators is invalid" (check_elements (wcp_LeftGenerators rpp) curveID (u64 (wcp_BitLength rpp + 1))) ;;
  wrap "invalid range proof parameters, right generators is invalid" (check_elements (wcp_RightGenerators rpp) curveID (u64 (wcp_BitLength rpp + 1))).

(** ** The transcript header and the largest token *)

Definition set_csp (p : PublicParams) (r : wCSPRangeProofParams) : PublicParams :=
  mkPublicParams _ (sp_DriverName p) (sp_DriverVersion p) (sp_Curve p) (sp_PedersenGenerators p) (sp_RangeProofParams p) (sp_IdemixIssuerPublicKeys p)
    (sp_AuditorIDs p) (sp_IssuerIDs p) (sp_MaxToken p) (sp_QuantityPrecision p) (sp_ExtraData p) (Some r).

Definition set_header (r : wCSPRangeProofParams) (h : bytes) : wCSPRangeProofParams :=
  {| wcp_LeftGenerators := wcp_LeftGenerators r; wcp_RightGenerators := wcp_RightGenerators r; wcp_BitLength := wcp_BitLength r; wcp_RPTranscriptHeader := h |}.

Definition InitHasher : bytes := InitHasherWithDomain (str "CSP-RangeProof-v1").

(** The curve is looked up by index; a nil generator panics. *)
Definition initCSPTranscriptHeader (p : PublicParams) : res PublicParams :=
  match sp_CSPRangeProofParams p with
  | None => Ok p
  | Some r =>
      if (sp_Curve p <? 0) || (num_curves <=? sp_Curve p) then Panic else
      points ← mapM deref (sp_PedersenGenerators p ++ wcp_LeftGenerators r ++ wcp_RightGenerators r);
      let tr := foldl (fun tr g => Absorb tr (wire_Bytes g)) InitHasher points in
      Ok (set_csp p (set_header r (Absorb tr (uint_Bytes (wcp_BitLength r)))))
  end.

Definition ComputeMaxTokenValue (p : PublicParams) : Z :=
  match sp_RangeProofParams p, sp_CSPRangeProofParams p with
  | Some r, _ => u64 (shl64 (wrp_BitLength r) - 1)
  | None, Some r => u64 (shl64 (wcp_BitLength r) - 1)
  | None, None => 0
  end.

(** ** Validation; it sets the header, also when the last check fails *)

Definition idemix_check (curveID : Z) (k : option IdemixIssuerPublicKey) : res unit :=
  match k with
  | None => Err (EMsg "invalid idemix issuer public key, it is nil")
  | Some k =>
      reject_if (zlen (ik_PublicKey k) =? 0) (EMsg "expected idemix issuer public key to be non-empty") ;;
      reject_if (num_curves - 1 <? ik_Curve k) (EMsg "invalid public parameters: invalid idemix curveID")
  end.

Definition precision_check (p : PublicParams) (bitLength : Z) (valid : res unit) : res unit :=
  reject_if (negb (bool_decide (bitLength ∈ SupportedPrecisions))) (EMsg "invalid bit length") ;;
  wrap "invalid public parameters" valid ;;
  reject_if (negb (sp_QuantityPrecision p =? bitLength)) (EMsg "invalid public parameters: quantity precision").

Definition validate_checks (p : PublicParams) : res unit :=
  reject_if (num_curves - 1 <? sp_Curve p) (EMsg "invalid public parameters: invalid curveID") ;;
  reject_if (zlen (sp_IdemixIssuerPublicKeys p) =? 0) (EMsg "expected at least one idemix issuer public key") ;;
  rangeR (fun _ k => idemix_check (sp_Curve p) k) 0 (sp_IdemixIssuerPublicKeys p) ;;
  wrap "invalid pedersen generators" (check_elements (sp_PedersenGenerators p) (sp_Curve p) 3) ;;
  reject_if (match sp_RangeProofParams p, sp_CSPRangeProofParams p with None, None => true | _, _ => false end)
    (EMsg "invalid public parameters: nil range proof parameters") ;;
  match sp_RangeProofParams p with
  | Some r => precision_check p (wrp_BitLength r) (RangeProofParams_Validate r (sp_Curve p))
  | None => Ok tt
  end ;;
  match sp_CSPRangeProofParams p with
  | Some r => precision_check p (wcp_BitLength r) (CSPRangeProofParams_Validate r (sp_Curve p))
  | None => Ok tt
  end.

Definition PublicParams_Validate (p : PublicParams) : res unit * PublicParams :=
  match validate_checks p with
  | Ok _ =>
      match initCSPTranscriptHeader p with
      | Ok p' => (reject_if (negb (ComputeMaxTokenValue p' =? sp_MaxToken p')) (EMsg "invalid max token"), p')
      | Err e => (Err e, p)
      | Panic => (Panic, p)
      end
  | Err e => (Err e, p)
  | Panic => (Panic, p)
  end.

(** ** Generation *)

Definition domainPrefix (name : bytes) (ver : Z) : bytes := str "lfdt-panurus." ++ name ++ str "." ++ format_nat 10 ver ++ str ".".

(** [mathlib.Curves[id]]. *)
Definition curve_lookup (id : Z) : res Z := if (id <? 0) || (num_curves <=? id) then Panic else Ok id.

Definition generators (curve : Z) (prefix label : bytes) (n : nat) : list commitment :=
  (fun i => Some (HashToG1 curve (prefix ++ label ++ format_nat 10 (Z.of_nat i)))) <$> seq 0 n.

Definition GeneratePedersenParameters (p : PublicParams) : res PublicParams :=
  curve ← curve_lookup (sp_Curve p);
  Ok (mkPublicParams _ (sp_DriverName p) (sp_DriverVersion p) (sp_Curve p)
        (generators curve (domainPrefix (sp_DriverName p) (sp_DriverVersion p)) (str "PedersenGenerators.") 3)
        (sp_RangeProofParams p) (sp_IdemixIssuerPublicKeys p) (sp_AuditorIDs p) (sp_IssuerIDs p) (sp_MaxToken p) (sp_QuantityPrecision p) (sp_ExtraData p)
        (sp_CSPRangeProofParams p)).

Definition GenerateRangeProofParameters (p : PublicParams) (bitLength : Z) : res PublicParams :=
  curve ← curve_lookup (sp_Curve p);
  let prefix := domainPrefix (sp_DriverName p) (sp_DriverVersion p) in
  Ok (mkPublicParams _ (sp_DriverName p) (sp_DriverVersion p) (sp_Curve p) (sp_PedersenGenerators p)
        (Some {| wrp_LeftGenerators := generators curve prefix (str "RangeProof.L.") (Z.to_nat bitLength);
                 wrp_RightGenerators := generators curve prefix (str "RangeProof.R.") (Z.to_nat bitLength);
                 wrp_P := Some (HashToG1 curve (prefix ++ str "RangeProof.P")); wrp_Q := Some (HashToG1 curve (prefix ++ str "RangeProof.Q"));
                 wrp_BitLength := bitLength; wrp_NumberOfRounds := log2 bitLength |})
        (sp_IdemixIssuerPublicKeys p) (sp_AuditorIDs p) (sp_IssuerIDs p) (sp_MaxToken p) (sp_QuantityPrecision p) (sp_ExtraData p) (sp_CSPRangeProofParams p)).

Definition GenerateCSPRangeProofParameters (p : PublicParams) (bitLength : Z) : res PublicParams :=
  curve ← curve_lookup (sp_Curve p);
  let prefix := domainPrefix (sp_DriverName p) (sp_DriverVersion p) in
  initCSPTranscriptHeader (set_csp p
    {| wcp_LeftGenerators := generators curve prefix (str "CSPRangeProof.L.") (Z.to_nat (u64 (bitLength + 1)));
       wcp_RightGenerators := generators curve prefix (str "CSPRangeProof.R.") (Z.to_nat (u64 (bitLength + 1)));
       wcp_BitLength := bitLength; wcp_RPTranscriptHeader := [] |}).

Definition set_MaxToken (p : PublicParams) (m : Z) : PublicParams :=
  mkPublicParams _ (sp_DriverName p) (sp_DriverVersion p) (sp_Curve p) (sp_PedersenGenerators p) (sp_RangeProofParams p) (sp_IdemixIssuerPublicKeys p)
    (sp_AuditorIDs p) (sp_IssuerIDs p) m (sp_QuantityPrecision p) (sp_ExtraData p) (sp_CSPRangeProofParams p).

Definition NewWith (params : SetupParams) : res PublicParams :=
  reject_if (64 <? su_BitLength params) (EMsg "invalid bit length, should be smaller than 64") ;;
  reject_if (su_BitLength params =? 0) (EMsg "invalid bit length, should be greater than 0") ;;
  let pp := mkPublicParams _ (su_DriverName params) (su_DriverVersion params) (su_CurveID params) [] None
              [Some (mkIdemix (su_IdemixIssuerPK params) (su_CurveID params))] [] [] 0 (su_BitLength params) [] None in
  pp ← wrap "failed to generated pedersen parameters" (GeneratePedersenParameters pp);
  pp ← (if su_ProofType params =? RangeProofType then
          wrap "failed to generated range-proof parameters" (GenerateRangeProofParameters pp (su_BitLength params))
        else if su_ProofType params =? CSPRangeProofType then
          wrap "failed to generated CSP range-proof parameters" (GenerateCSPRangeProofParameters pp (su_BitLength params))
        else Err (EMsg "unrecognized range proof type"));
  pp ← initCSPTranscriptHeader pp;
  Ok (set_MaxToken pp (ComputeMaxTokenValue pp)).

(** [Setup], [WithVersion] and [WithVersionAndProofType]. *)
Definition WithVersionAndProofType (bitLength : Z) (idemixIssuerPK : bytes) (curveID version proofType : Z) : res PublicParams :=
  NewWith {| su_DriverName := DLogNoGHDriverName; su_DriverVersion := version; su_BitLength := bitLength; su_IdemixIssuerPK := idemixIssuerPK;
             su_CurveID := curveID; su_ProofType := proofType |}.

Definition WithVersion (bitLength : Z) (idemixIssuerPK : bytes) (curveID version : Z) : res PublicParams :=
  WithVersionAndProofType bitLength idemixIssuerPK curveID version RangeProofType.

Definition Setup (bitLength : Z) (idemixIssuerPK : bytes) (curveID : Z) : res PublicParams :=
  NewWith {| su_DriverName := DLogNoGHDriverName; su_DriverVersion := setup_ProtocolV1; su_BitLength := bitLength; su_IdemixIssuerPK := idemixIssuerPK;
             su_CurveID := curveID; su_ProofType := RangeProofType |}.

(** ** Updates and queries *)

Definition set_parties (p : PublicParams) (auditors issuers : list bytes) : PublicParams :=
  mkPublicParams _ (sp_DriverName p) (sp_DriverVersion p) (sp_Curve p) (sp_PedersenGenerators p) (sp_RangeProofParams p) (sp_IdemixIssuerPublicKeys p)
    auditors issuers (sp_MaxToken p) (sp_QuantityPrecision p) (sp_ExtraData p) (sp_CSPRangeProofParams p).

Definition AddAuditor (p : PublicParams) (auditor : bytes) : PublicParams := set_parties p (sp_AuditorIDs p ++ [auditor]) (sp_IssuerIDs p).
Definition AddIssuer (p : PublicParams) (id : bytes) : PublicParams := set_parties p (sp_AuditorIDs p) (sp_IssuerIDs p ++ [id]).
Definition SetIssuers (p : PublicParams) (ids : list bytes) : PublicParams := set_parties p (sp_AuditorIDs p) ids.
Definition SetAuditors (p : PublicParams) (ids : list bytes) : res unit * PublicParams := (Ok tt, set_parties p ids (sp_IssuerIDs p)).

Definition ValidateForDeployment (p : PublicParams) : res unit :=
  reject_if (zlen (sp_IssuerIDs p) =? 0) (EMsg "open-policy mode: IssuerIDs is empty").

(** A nil dereference when neither part is set. *)
Definition BitLength (p : PublicParams) : res Z :=
  match sp_RangeProofParams p, sp_CSPRangeProofParams p with
  | Some r, _ => Ok (wrp_BitLength r)
  | None, Some r => Ok (wcp_BitLength r)
  | None, None => Panic
  end.

(** ** The wire format *)

(** [ToProtoG1Slice]: nil entries stay nil; [FromG1ProtoSlice]. *)
Definition ToProtoG1Slice (l : list commitment) : res (list (option bytes)) := ToProtosSlice (fun w => ToProtoG1 G1_MarshalJSON (Some w)) l.
Definition FromG1ProtoSlice (l : list (option bytes)) : res (list commitment) := mapM (FromG1Proto G1_UnmarshalJSON) l.

Definition RangeProofParams_ToProtos (rpp : wRangeProofParams) : res PRangeProofParams :=
  l ← wrap "failed to convert left generators to protos" (ToProtoG1Slice (wrp_LeftGenerators rpp));
  r ← wrap "failed to convert right generators to protos" (ToProtoG1Slice (wrp_RightGenerators rpp));
  p ← wrap "failed to convert p to proto" (ToProtoG1 G1_MarshalJSON (wrp_P rpp));
  q ← wrap "failed to convert q to proto" (ToProtoG1 G1_MarshalJSON (wrp_Q rpp));
  Ok {| prp_LeftGenerators := l; prp_RightGenerators := r; prp_P := Some p; prp_Q := Some q;
        prp_BitLength := wrp_BitLength rpp; prp_NumberOfRounds := wrp_NumberOfRounds rpp |}.

Definition RangeProofParams_FromProto (params : PRangeProofParams) : res wRangeProofParams :=
  l ← wrap "failed to convert left generators to protos" (FromG1ProtoSlice (prp_LeftGenerators params));
  r ← wrap "failed to convert right generators to protos" (FromG1ProtoSlice (prp_RightGenerators params));
  p ← wrap "failed to convert p to proto" (FromG1Proto G1_UnmarshalJSON (prp_P params));
  q ← wrap "failed to convert q to proto" (FromG1Proto G1_UnmarshalJSON (prp_Q params));
  Ok {| wrp_LeftGenerators := l; wrp_RightGenerators := r; wrp_P := p; wrp_Q := q;
        wrp_BitLength := prp_BitLength params; wrp_NumberOfRounds := prp_NumberOfRounds params |}.

(** The transcript header is not part of the message. *)
Definition CSPRangeProofParams_ToProtos (rpp : wCSPRangeProofParams) : res PCSPRangeProofParams :=
  l ← wrap "failed to convert left generators to protos" (ToProtoG1Slice (wcp_LeftGenerators rpp));
  r ← wrap "failed to convert right generators to protos" (ToProtoG1Slice (wcp_RightGenerators rpp));
  Ok {| pcp_LeftGenerators := l; pcp_RightGenerators := r; pcp_BitLength := wcp_BitLength rpp |}.

Definition CSPRangeProofParams_FromProto (params : PCSPRangeProofParams) : res wCSPRangeProofParams :=
  l ← wrap "failed to convert left generators to protos" (FromG1ProtoSlice (pcp_LeftGenerators params));
  r ← wrap "failed to convert right generators to protos" (FromG1ProtoSlice (pcp_RightGenerators params));
  Ok {| wcp_LeftGenerators := l; wcp_RightGenerators := r; wcp_BitLength := pcp_BitLength params; wcp_RPTranscriptHeader := [] |}.

Definition IdemixIssuerPublicKey_ToProtos (i : IdemixIssuerPublicKey) : res PIdemixKey :=
  if ik_Curve i <? 0 then Err (EMsg "invalid curve id")
  else Ok {| pik_PublicKey := match ik_PublicKey i with [] => None | k => Some k end; pik_CurveId := Some (ik_Curve i) |}.

Definition IdemixIssuerPublicKey_FromProtos (s : PIdemixKey) (_ : IdemixIssuerPublicKey) : res IdemixIssuerPublicKey :=
  pk ← present_or (EMsg "invalid idemix public key, it is nil") (pik_PublicKey s);
  id ← present_or (EMsg "invalid idemix issuer public key") (pik_CurveId s);
  reject_if (two63 - 1 <? id) (EMsg "curve id out of range") ;;
  Ok (mkIdemix pk id).

(** A nil identity has no entry in the message and is read back as nil. *)
Definition identity_ToProto (id : bytes) : option bytes := match id with [] => None | _ => Some id end.
Definition identity_FromProto (o : option bytes) : bytes := default [] o.

Definition PublicParams_ToProtos (p : PublicParams) : res PPublicParameters :=
  pg ← wrap "failed to serialize public parameters" (ToProtoG1Slice (sp_PedersenGenerators p));
  rpp ← (match sp_RangeProofParams p with
         | Some r => m ← wrap "failed to serialize range proof parameters" (RangeProofParams_ToProtos r); Ok (Some m)
         | None => Ok None
         end);
  cspRPP ← (match sp_CSPRangeProofParams p with
            | Some r => m ← wrap "failed to serialize csp-based range proof parameters" (CSPRangeProofParams_ToProtos r); Ok (Some m)
            | None => Ok None
            end);
  keys ← wrap "failed to serialize idemix issuer public keys" (ToProtosSlice IdemixIssuerPublicKey_ToProtos (sp_IdemixIssuerPublicKeys p));
  Ok {| psp_TokenDriverName := sp_DriverName p; psp_TokenDriverVersion := sp_DriverVersion p; psp_CurveId := Some (u64 (sp_Curve p));
        psp_PedersenGenerators := pg; psp_RangeProofParams := rpp; psp_CspRangeProofParams := cspRPP; psp_IdemixIssuerPublicKeys := keys;
        psp_Auditors := identity_ToProto <$> sp_AuditorIDs p; psp_Issuers := identity_ToProto <$> sp_IssuerIDs p;
        psp_MaxToken := sp_MaxToken p; psp_QuantityPrecision := sp_QuantityPrecision p; psp_Metadata := sp_ExtraData p |}.

Definition PublicParams_Serialize (p : PublicParams) : res bytes * PublicParams :=
  let '(valid, p) := PublicParams_Validate p in
  (wrap "failed to serialize public parameters" valid ;;
   m ← PublicParams_ToProtos p;
   raw ← proto_Marshal m;
   json_Marshal {| pct_Identifier := DriverIdentifier (sp_DriverName p) (sp_DriverVersion p); pct_Raw := raw |}, p).

(** [ComputeHash]; writing to a hash never fails. *)
Definition ComputeHash (p : PublicParams) : res bytes * PublicParams :=
  let '(raw, p) := PublicParams_Serialize p in
  (raw ← wrap "failed to serialize public params" raw; Ok (sha256 raw), p).

Definition PublicParams_FromProtos (m : PPublicParameters) : res PublicParams :=
  curve ← present_or (EMsg "invalid curve id, expecting curve id, got nil") (psp_CurveId m);
  reject_if (two63 - 1 <? curve) (EMsg "curve id out of range") ;;
  pg ← wrap "failed to deserialize public parameters" (FromG1ProtoSlice (psp_PedersenGenerators m));
  keys ← wrap "failed to deserialize idemix issuer public keys"
    (FromProtosSlice IdemixIssuerPublicKey_FromProtos (psp_IdemixIssuerPublicKeys m) (replicate (length (psp_IdemixIssuerPublicKeys m)) (mkIdemix [] 0)));
  rpp ← (match psp_RangeProofParams m with
         | Some r => r ← wrap "failed to deserialize range proof parameters" (RangeProofParams_FromProto r); Ok (Some r)
         | None => Ok None
         end);
  csp ← (match psp_CspRangeProofParams m with
         | Some r => r ← wrap "failed to deserialize csp range proof parameters" (CSPRangeProofParams_FromProto r); Ok (Some r)
         | None => Ok None
         end);
  Ok (mkPublicParams _ (psp_TokenDriverName m) (psp_TokenDriverVersion m) curve pg rpp keys (identity_FromProto <$> psp_Auditors m)
        (identity_FromProto <$> psp_Issuers m) (psp_MaxToken m) (psp_QuantityPrecision m) (psp_Metadata m) csp).

(** [NewPublicParamsFromBytes] and [Deserialize]. *)
Definition NewPublicParamsFromBytes (raw : bytes) (driverName : bytes) (driverVersion : Z) : res PublicParams :=
  wrap "failed parsing public parameters"
    (container ← wrap "failed to deserialize public parameters" (json_Unmarshal raw);
     reject_if (negb (bool_decide (pct_Identifier container = DriverIdentifier driverName driverVersion))) (EMsg "invalid identifier") ;;
     m ← wrap "failed unmarshalling public parameters" (proto_Unmarshal (pct_Raw container));
     PublicParams_FromProtos m).

(** ** The parameters the provers and verifiers compute with *)

Definition points_of (l : list commitment) : res (list G1) := mapM point l.

Definition own_RangeProofParams (r : wRangeProofParams) : res RangeProofParams :=
  l ← points_of (wrp_LeftGenerators r); rr ← points_of (wrp_RightGenerators r); p ← point (wrp_P r); q ← point (wrp_Q r);
  Ok {| rpp_LeftGenerators := l; rpp_RightGenerators := rr; rpp_P := p; rpp_Q := q;
        rpp_BitLength := Z.to_nat (wrp_BitLength r); rpp_NumberOfRounds := Z.to_nat (wrp_NumberOfRounds r) |}.

Definition own_CSPRangeProofParams (r : wCSPRangeProofParams) : res CSPRangeProofParams :=
  l ← points_of (wcp_LeftGenerators r); rr ← points_of (wcp_RightGenerators r);
  Ok {| cpp_LeftGenerators := l; cpp_RightGenerators := rr; cpp_BitLength := Z.to_nat (wcp_BitLength r);
        cpp_RPTranscriptHeader := wcp_RPTranscriptHeader r |}.

Definition own_params (p : PublicParams) : res ZkPP :=
  gens ← points_of (sp_PedersenGenerators p);
  r ← (match sp_RangeProofParams p with Some r => r ← own_RangeProofParams r; Ok (Some r) | None => Ok None end);
  c ← (match sp_CSPRangeProofParams p with Some r => r ← own_CSPRangeProofParams r; Ok (Some r) | None => Ok None end);
  Ok (mkZkPP _ {| zp_PedersenGenerators := gens; zp_RangeProofParams := r |} c (sp_QuantityPrecision p) (sp_IssuerIDs p) (sp_AuditorIDs p)).

End Setup.

(** Reads the fields of constructed parameters. *)
Ltac sp := cbn [set_MaxToken set_csp set_header sp_DriverName sp_DriverVersion sp_Curve sp_PedersenGenerators sp_RangeProofParams sp_IdemixIssuerPublicKeys sp_AuditorIDs sp_IssuerIDs
  sp_MaxToken sp_QuantityPrecision sp_ExtraData sp_CSPRangeProofParams wrp_BitLength wrp_NumberOfRounds wrp_LeftGenerators wrp_RightGenerators wrp_P wrp_Q wcp_BitLength wcp_LeftGenerators
  wcp_RightGenerators wcp_RPTranscriptHeader ik_PublicKey ik_Curve reject_if wrap mbind res_mbind].

(** ** Validated parameters are what the provers and verifiers rely on *)

Section SetupProofs.
Context {CO : Curve} {CL : CurveLaws} {NA : Native} {NL : NativeLaws} {WI : Wire} {WL : WireLaws} {CC : CspCurve} {CP : CspLaws}.
Context (foreign_IsInfinity : Z -> bytes -> bool) (foreign_Bytes : Z -> bytes -> bytes).
Local Notation Validate := (PublicParams_Validate foreign_IsInfinity foreign_Bytes).
Local Notation checks := (validate_checks foreign_IsInfinity).

Lemma check_element_exact o : check_element foreign_IsInfinity curve_id o = Ok tt <-> exists p, o = Some (Own p) /\ finite p.
Proof.
  split.
  - destruct o as [[p|id b]|]; cbn; [|by rewrite Z.eqb_refl, andb_false_r|done]. rewrite Z.eqb_refl. cbn [negb]. destruct (G1_IsInfinity p) eqn:E; [done|]. intros _. by exists p.
  - intros (p & -> & Hf). cbn. rewrite Z.eqb_refl. cbn [negb]. unfold finite in Hf. by rewrite Hf.
Qed.

Lemma check_elements_exact l len : check_elements foreign_IsInfinity l curve_id len = Ok tt <->
  exists ps, l = present_points ps /\ zlen ps = len /\ Forall finite ps.
Proof.
  unfold check_elements. split.
  - destruct (Z.eqb_spec (zlen l) len) as [Hl|]; [|done]. cbn [negb]. rewrite rangeR_Ok. intros H.
    assert (exists ps, l = present_points ps /\ Forall finite ps) as (ps & -> & HF).
    { clear Hl. induction l as [|o l IH]; [by exists []|]. destruct IH as (ps & -> & HF); [intros k x Hx; by apply (H (S k))|].
      destruct (proj1 (check_element_exact o) (H 0%nat o eq_refl)) as (p & -> & Hp). exists (p :: ps). split; [done|]. by constructor. }
    exists ps. split_and!; [done| |done]. unfold zlen, present_points in *. by rewrite length_fmap in Hl.
  - intros (ps & -> & Hl & HF). assert (zlen (present_points ps) = len) as -> by (unfold zlen, present_points in *; by rewrite length_fmap).
    rewrite Z.eqb_refl. cbn [negb]. apply rangeR_Ok. intros k x Hx. unfold present_points in Hx. rewrite list_lookup_fmap in Hx.
    destruct (ps !! k) as [q|] eqn:Eq; [|done]. injection Hx as <-. apply check_element_exact. exists q. split; [done|]. rewrite Forall_lookup in HF. by apply (HF k).
Qed.

(** The checks on the parameters of one curve. *)
Record checked_params (p : PublicParams) (p0 p1 p2 : G1) : Prop := {
  ck_gens : sp_PedersenGenerators p = present_points [p0; p1; p2];
  ck_finite : Forall finite [p0; p1; p2];
  ck_some : is_Some (sp_RangeProofParams p) \/ is_Some (sp_CSPRangeProofParams p);
  ck_rpp r : sp_RangeProofParams p = Some r -> wrp_BitLength r ∈ SupportedPrecisions /\ sp_QuantityPrecision p = wrp_BitLength r /\
    0 < wrp_NumberOfRounds r <= 64 /\ wrp_BitLength r = shl64 (wrp_NumberOfRounds r) /\
    exists l rr P Q, wrp_LeftGenerators r = present_points l /\ wrp_RightGenerators r = present_points rr /\ wrp_P r = Some (Own P) /\ wrp_Q r = Some (Own Q) /\
      zlen l = wrp_BitLength r /\ zlen rr = wrp_BitLength r;
  ck_csp r : sp_CSPRangeProofParams p = Some r -> wcp_BitLength r ∈ SupportedPrecisions /\ sp_QuantityPrecision p = wcp_BitLength r /\
    exists l rr, wcp_LeftGenerators r = present_points l /\ wcp_RightGenerators r = present_points rr /\
      zlen l = wcp_BitLength r + 1 /\ zlen rr = wcp_BitLength r + 1 /\ Forall finite (l ++ rr);
}.

Lemma precision_check_Ok p n v : precision_check p n v = Ok tt <-> n ∈ SupportedPrecisions /\ v = Ok tt /\ sp_QuantityPrecision p = n.
Proof. unfold precision_check. rewrite !then_Ok, !reject_if_Ok, wrap_Ok, !negb_false_iff, bool_decide_eq_true, Z.eqb_eq. done. Qed.

Lemma RangeProofParams_Validate_Ok r : 0 <= wrp_NumberOfRounds r -> RangeProofParams_Validate foreign_IsInfinity r curve_id = Ok tt ->
  0 < wrp_NumberOfRounds r <= 64 /\ wrp_BitLength r = shl64 (wrp_NumberOfRounds r) /\
  exists l rr P Q, wrp_LeftGenerators r = present_points l /\ wrp_RightGenerators r = present_points rr /\ wrp_P r = Some (Own P) /\ wrp_Q r = Some (Own Q) /\
    zlen l = wrp_BitLength r /\ zlen rr = wrp_BitLength r.
Proof.
  unfold RangeProofParams_Validate. rewrite !then_Ok, !reject_if_Ok, !wrap_Ok, !negb_false_iff, !check_element_exact, !check_elements_exact, !Z.eqb_eq, !Z.eqb_neq, Z.ltb_ge.
  intros Hu (_ & Hr & Hr' & Hb & _ & (Q & HQ & _) & (P & HP & _) & (l & Hl & Ll & _) & (rr & Hrr & Lr & _)).
  split_and!; [lia|lia|done|]. exists l, rr, P, Q. by split_and!.
Qed.

Lemma CSPRangeProofParams_Validate_Ok r : wcp_BitLength r ∈ SupportedPrecisions -> CSPRangeProofParams_Validate foreign_IsInfinity r curve_id = Ok tt ->
  exists l rr, wcp_LeftGenerators r = present_points l /\ wcp_RightGenerators r = present_points rr /\
    zlen l = wcp_BitLength r + 1 /\ zlen rr = wcp_BitLength r + 1 /\ Forall finite (l ++ rr).
Proof.
  intros Hs. unfold CSPRangeProofParams_Validate. rewrite !then_Ok, !reject_if_Ok, !wrap_Ok, !check_elements_exact.
  intros (_ & _ & (l & Hl & Ll & Fl) & (rr & Hrr & Lr & Fr)). assert (u64 (wcp_BitLength r + 1) = wcp_BitLength r + 1) as Hu.
  { unfold SupportedPrecisions in Hs. rewrite !elem_of_cons, elem_of_nil in Hs. apply Z.mod_small. unfold two64. lia. }
  rewrite Hu in Ll, Lr. exists l, rr. split_and!; [done..|]. by apply Forall_app.
Qed.

(** Integers of the record are unsigned. *)
Definition unsigned (p : PublicParams) : Prop := forall r, sp_RangeProofParams p = Some r -> 0 <= wrp_NumberOfRounds r.

Lemma checks_Ok p : sp_Curve p = curve_id -> unsigned p -> checks p = Ok tt -> exists p0 p1 p2, checked_params p p0 p1 p2.
Proof.
  intros Hc Hu. unfold validate_checks. rewrite Hc, !then_Ok, wrap_Ok, check_elements_exact.
  intros (_ & _ & _ & (ps & Hps & Lps & Fps) & Hsome%reject_if_Ok & Hr & Hp). unfold zlen in Lps. destruct ps as [|p0 [|p1 [|p2 [|]]]]; try (cbn in Lps; lia).
  exists p0, p1, p2. split; [done|done| | |].
  - destruct (sp_RangeProofParams p); [left; by eexists|]. destruct (sp_CSPRangeProofParams p); [right; by eexists|done].
  - intros r E. rewrite E in Hr. apply precision_check_Ok in Hr as (Hs & Hv & Hq). apply RangeProofParams_Validate_Ok in Hv as H; [|by apply Hu]. by split; [|split].
  - intros r E. rewrite E in Hp. apply precision_check_Ok in Hp as (Hs & Hv & Hq). split_and!; [done..|]. by apply CSPRangeProofParams_Validate_Ok.
Qed.

Lemma deref_points ps : mapM deref (present_points ps) = Ok (Own <$> ps).
Proof. induction ps as [|q ps IH]; [done|]. unfold present_points. rewrite fmap_cons, mapM_cons_res. cbn [deref mbind res_mbind]. fold (present_points ps). by rewrite IH. Qed.

Lemma present_app ps qs : present_points (ps ++ qs) = present_points ps ++ present_points qs.
Proof. apply fmap_app. Qed.

(** The header that is set is never empty. *)
Lemma init_Ok p p0 p1 p2 : checked_params p p0 p1 p2 -> sp_Curve p = curve_id ->
  exists h, h <> [] /\ initCSPTranscriptHeader foreign_Bytes p
    = Ok (match sp_CSPRangeProofParams p with None => p | Some r => set_csp p (set_header r h) end).
Proof.
  intros [Hg _ _ _ Hcsp] Hc. unfold initCSPTranscriptHeader. destruct (sp_CSPRangeProofParams p) as [r|]; [|by exists [z2b 0]].
  destruct (Hcsp r eq_refl) as (_ & _ & l & rr & -> & -> & _). destruct curve_id_range as [[H0 H1] _]. rewrite Hc.
  assert ((curve_id <? 0) || (num_curves <=? curve_id) = false) as -> by (apply orb_false_iff; split; [by apply Z.ltb_ge|by apply Z.leb_gt]).
  rewrite Hg, <- !present_app, deref_points. cbn [mbind res_mbind]. eexists. split; [|done]. unfold Absorb at 1. intros E. apply (f_equal length) in E. by rewrite sha256_length in E.
Qed.

Lemma precision_nat n : n ∈ SupportedPrecisions -> (1 <= Z.to_nat n <= 64)%nat /\ Z.of_nat (Z.to_nat n) = n.
Proof. unfold SupportedPrecisions. rewrite !elem_of_cons, elem_of_nil. lia. Qed.

Lemma length_zlen {A} (l : list A) n : 0 <= n -> zlen l = n -> length l = Z.to_nat n.
Proof. unfold zlen. lia. Qed.

(** The parameters of the first proof type. *)
Lemma own_range p p0 p1 p2 r : checked_params p p0 p1 p2 -> sp_RangeProofParams p = Some r -> DispatchCurve <> (false, false) \/ cached_curve = true ->
  exists q, own_RangeProofParams r = Ok q /\ range_params q /\ verifier_params_ok (rpp_BitLength q).
Proof.
  intros [_ _ _ Hr _] E Hd. destruct (Hr r E) as (Hs & _ & Hn & Hb & l & rr & P & Q & Hl & Hrr & HP & HQ & Ll & Lr). destruct (precision_nat _ Hs) as [Hbn Hbz].
  unfold own_RangeProofParams, points_of. rewrite Hl, Hrr, !points_present, HP, HQ. cbn [point deref own mbind res_mbind]. eexists. split; [done|].
  assert (Z.to_nat (wrp_BitLength r) = 2 ^ Z.to_nat (wrp_NumberOfRounds r))%nat as Hpow.
  { apply Nat2Z.inj. rewrite Hbz, Hb, Nat2Z.inj_pow, Z2Nat.id by lia. unfold shl64 in *. destruct (Z.ltb_spec (wrp_NumberOfRounds r) 64); [done|]. lia. }
  pose proof (length_zlen l (wrp_BitLength r)) as Hl1. pose proof (length_zlen rr (wrp_BitLength r)) as Hl2. unfold range_params, verifier_params_ok, NumBits.
  cbn [rpp_BitLength rpp_NumberOfRounds rpp_LeftGenerators rpp_RightGenerators]. split; [split_and!; try done; lia|]. destruct Hd; [by left|by right].
Qed.

(** And of the second. *)
Lemma own_csp p p0 p1 p2 r h : checked_params p p0 p1 p2 -> sp_CSPRangeProofParams p = Some r -> h <> [] -> 2 * wcp_BitLength r < GroupOrder ->
  exists q, own_CSPRangeProofParams (set_header r h) = Ok q /\ csp_range_params q p1 p2.
Proof.
  intros [_ Hf _ _ Hr] E Hh Ho. destruct (Hr r E) as (Hs & _ & l & rr & Hl & Hrr & Ll & Lr & HF). destruct (precision_nat _ Hs) as [Hbn Hbz].
  unfold own_CSPRangeProofParams, points_of. cbn [set_header wcp_LeftGenerators wcp_RightGenerators wcp_BitLength wcp_RPTranscriptHeader].
  rewrite Hl, Hrr, !points_present. cbn [mbind res_mbind]. eexists. split; [done|]. pose proof (length_zlen l (wcp_BitLength r + 1)) as Hl1. pose proof (length_zlen rr (wcp_BitLength r + 1)) as Hl2.
  split; cbn [cpp_LeftGenerators cpp_RightGenerators cpp_BitLength cpp_RPTranscriptHeader]; [rewrite Hl1; lia|rewrite Hl2; lia| |done|split; lia].
  apply Forall_app. split; [|done]. by apply Forall_cons in Hf as [_ ?].
Qed.

(** What validated parameters are for the provers and verifiers. *)
Record usable (PP : ZkPP) (p0 p1 p2 : G1) : Prop := {
  us_gens : zp_PedersenGenerators (zpp_params PP) = [p0; p1; p2];
  us_some : SupportsRangeProofType PP RangeProofType = true \/ SupportsRangeProofType PP CSPRangeProofType = true;
  us_rpp r : zp_RangeProofParams (zpp_params PP) = Some r -> range_params r /\ verifier_params_ok (rpp_BitLength r);
  us_csp r : zpp_CSP PP = Some r -> csp_range_params r p1 p2;
}.

Lemma validated_usable p p' : Validate p = (Ok tt, p') -> sp_Curve p = curve_id -> unsigned p -> (forall r, sp_CSPRangeProofParams p = Some r -> 2 * wcp_BitLength r < GroupOrder) ->
  DispatchCurve <> (false, false) \/ cached_curve = true ->
  exists PP p0 p1 p2, own_params p' = Ok PP /\ usable PP p0 p1 p2.
Proof.
  intros HV Hc Hu Ho Hd. unfold PublicParams_Validate in HV. destruct (checks p) as [[]|e|] eqn:Ec; [|done..]. destruct (checks_Ok p Hc Hu Ec) as (p0 & p1 & p2 & Hck).
  destruct (init_Ok p p0 p1 p2 Hck Hc) as (h & Hh & Hi). rewrite Hi in HV. injection HV as _ <-.
  assert (exists rr, (match sp_RangeProofParams p with Some r => r ← own_RangeProofParams r; Ok (Some r) | None => Ok None end) = Ok rr /\
    (is_Some (sp_RangeProofParams p) -> is_Some rr) /\ forall r, rr = Some r -> range_params r /\ verifier_params_ok (rpp_BitLength r)) as (rr & Hrr & Srr & Prr).
  { destruct (sp_RangeProofParams p) as [r|] eqn:Er; [|exists None; split_and!; [done|by intros []|done]]. destruct (own_range p p0 p1 p2 r Hck Er Hd) as (q & -> & Hq). exists (Some q).
    split_and!; [done|done|]. by intros ? [= <-]. }
  set (p' := match sp_CSPRangeProofParams p with Some r => _ | None => _ end).
  assert (exists cc, (match sp_CSPRangeProofParams p' with Some r => r ← own_CSPRangeProofParams r; Ok (Some r) | None => Ok None end) = Ok cc /\
    (is_Some (sp_CSPRangeProofParams p) -> is_Some cc) /\ forall r, cc = Some r -> csp_range_params r p1 p2) as (cc & Hcc & Scc & Pcc).
  { unfold p'. destruct (sp_CSPRangeProofParams p) as [r|] eqn:Er; [|rewrite Er; exists None; split_and!; [done|by intros []|done]].
    cbn [set_csp sp_CSPRangeProofParams]. destruct (own_csp p p0 p1 p2 r h Hck Er Hh (Ho r eq_refl)) as (q & -> & Hq). exists (Some q). split_and!; [done|done|]. by intros ? [= <-]. }
  assert (sp_PedersenGenerators p' = sp_PedersenGenerators p /\ sp_RangeProofParams p' = sp_RangeProofParams p) as [E1 E2] by (unfold p'; by destruct (sp_CSPRangeProofParams p)).
  unfold own_params. rewrite Hcc, E1, E2, Hrr, (ck_gens _ _ _ _ Hck). unfold points_of. rewrite points_present. cbn [mbind res_mbind].
  eexists _, p0, p1, p2. split; [done|]. split; cbn [zpp_params zpp_CSP zp_PedersenGenerators zp_RangeProofParams]; [done| |exact Prr|exact Pcc].
  unfold SupportsRangeProofType. cbn. destruct (ck_some _ _ _ _ Hck) as [[? ->]%Srr|[? ->]%Scc]; [by left|by right].
Qed.

Lemma usable_no_panic PP p0 p1 p2 envs proofType inputs outputs raw : usable PP p0 p1 p2 -> (forall i, env_ok (envs i)) ->
  verify_transfer_proof PP envs proofType (present_points inputs) (present_points outputs) raw <> Panic /\
  verify_issue_proof PP envs proofType (present_points outputs) raw <> Panic.
Proof.
  intros [Hg _ Hr Hc] He. unfold verify_transfer_proof, verify_issue_proof, SupportsRangeProofType.
  destruct (Z.eqb_spec proofType RangeProofType) as [->|_].
  - destruct (zp_RangeProofParams (zpp_params PP)) as [r|] eqn:E; [|done]. cbn [negb]. destruct (Hr r eq_refl) as [_ Hv]. assert (params_present (zpp_params PP) p0 p1 p2 [] r) as Hp by done.
    destruct (BulletProofVerifier_no_panic _ _ _ _ _ _ inputs outputs raw Hp Hv) as (v & -> & H). destruct (IssueVerifier_no_panic _ _ _ _ _ _ outputs raw Hp Hv) as (v' & -> & H'). by split.
  - destruct (Z.eqb_spec proofType CSPRangeProofType) as [->|_]; [|done]. destruct (zpp_CSP PP) as [r|] eqn:E; [|done]. cbn [negb].
    assert (csp_present (csp_pp PP) p0 p1 p2 [] r) as Hp by done. destruct (Hc r eq_refl) as [_ _ _ _ [_ Ho]].
    destruct (CSPVerifier_no_panic _ _ _ _ _ _ inputs outputs envs raw Hp He Ho) as (v & -> & H). destruct (CSPIssueVerifier_no_panic _ _ _ _ _ _ outputs envs raw Hp He Ho) as (v' & -> & H'). by split.
Qed.

(** ** Generated parameters *)

Context (HashToG1 : Z -> bytes -> wire G1) (hash_point : forall b, exists q, HashToG1 curve_id b = Own q /\ finite q).
Local Notation Generate := (NewWith foreign_Bytes HashToG1).

Lemma generators_points prefix label n : exists ps, generators HashToG1 curve_id prefix label n = present_points ps /\ length ps = n /\ Forall finite ps.
Proof using hash_point.
  unfold generators. generalize 0%nat. induction n as [|n IH]; intros k; [by exists []|]. destruct (IH (S k)) as (ps & E & Hl & HF). cbn [seq]. rewrite fmap_cons, E.
  destruct (hash_point (prefix ++ label ++ format_nat 10 (Z.of_nat k))) as (q & -> & Hq). exists (q :: ps). split_and!; [done|cbn; by f_equal|by constructor].
Qed.

Lemma curve_lookup_own : curve_lookup curve_id = Ok curve_id.
Proof using WL.
  unfold curve_lookup. destruct curve_id_range as [[H0 H1] _]. by replace ((curve_id <? 0) || (num_curves <=? curve_id)) with false by (symmetry; apply orb_false_iff; split; [by apply Z.ltb_ge|by apply Z.leb_gt]).
Qed.

Lemma shl_log2 n : n ∈ SupportedPrecisions -> log2 n <> 0 /\ log2 n <= 64 /\ n = shl64 (log2 n) /\ n <> 0.
Proof. unfold SupportedPrecisions. rewrite !elem_of_cons, elem_of_nil. intros [->|[->|[->|[]]]]; by vm_compute. Qed.

Lemma max_supported n : n ∈ SupportedPrecisions -> u64 (shl64 n - 1) = 2 ^ n - 1.
Proof. unfold SupportedPrecisions. rewrite !elem_of_cons, elem_of_nil. intros [->|[->|[->|[]]]]; by vm_compute. Qed.

Lemma init_points p r ps l rr : sp_Curve p = curve_id -> sp_PedersenGenerators p = present_points ps -> sp_CSPRangeProofParams p = Some r ->
  wcp_LeftGenerators r = present_points l -> wcp_RightGenerators r = present_points rr ->
  initCSPTranscriptHeader foreign_Bytes p
  = Ok (set_csp p (set_header r (Absorb (foldl (fun tr g => Absorb tr (wire_Bytes foreign_Bytes g)) InitHasher (Own <$> (ps ++ l ++ rr))) (uint_Bytes (wcp_BitLength r))))).
Proof using WL.
  intros Hc Hg E Hl Hr. unfold initCSPTranscriptHeader. rewrite E, Hc. pose proof curve_lookup_own as Hcl. unfold curve_lookup in Hcl. destruct (_ || _); [done|].
  by rewrite Hg, Hl, Hr, <- !present_app, deref_points.
Qed.

Lemma check_points ps len : zlen ps = len -> Forall finite ps -> check_elements foreign_IsInfinity (present_points ps) curve_id len = Ok tt.
Proof. intros Hl HF. apply check_elements_exact. by exists ps. Qed.

Lemma checks_rest q pk ps : pk <> [] -> sp_Curve q = curve_id -> sp_IdemixIssuerPublicKeys q = [Some (mkIdemix pk curve_id)] -> sp_PedersenGenerators q = present_points ps ->
  zlen ps = 3 -> Forall finite ps ->
  checks q = (reject_if (match sp_RangeProofParams q, sp_CSPRangeProofParams q with None, None => true | _, _ => false end) (EMsg "invalid public parameters: nil range proof parameters") ;;
    match sp_RangeProofParams q with Some r => precision_check q (wrp_BitLength r) (RangeProofParams_Validate foreign_IsInfinity r curve_id) | None => Ok tt end ;;
    match sp_CSPRangeProofParams q with Some r => precision_check q (wcp_BitLength r) (CSPRangeProofParams_Validate foreign_IsInfinity r curve_id) | None => Ok tt end).
Proof using WL.
  intros Hpk E1 E2 E3 Hl HF. unfold validate_checks. rewrite E1, E2, E3. assert (num_curves - 1 <? curve_id = false) as Hn by (destruct curve_id_range; apply Z.ltb_ge; lia).
  rewrite Hn. sp. change (zlen [Some (mkIdemix pk curve_id)] =? 0) with false. cbn [rangeR idemix_check]. sp.
  assert (zlen pk =? 0 = false) as -> by (apply Z.eqb_neq; unfold zlen; destruct pk; [done|cbn; lia]). sp. rewrite Hn. sp. by rewrite check_points.
Qed.

Lemma range_part q n l rr P Q : n ∈ SupportedPrecisions -> sp_QuantityPrecision q = n -> length l = Z.to_nat n -> length rr = Z.to_nat n ->
  Forall finite l -> Forall finite rr -> finite P -> finite Q ->
  precision_check q n (RangeProofParams_Validate foreign_IsInfinity
    {| wrp_LeftGenerators := present_points l; wrp_RightGenerators := present_points rr; wrp_P := Some (Own P); wrp_Q := Some (Own Q);
       wrp_BitLength := n; wrp_NumberOfRounds := log2 n |} curve_id) = Ok tt.
Proof.
  intros Hs Eq Ll Lr Fl Fr HP HQ. destruct (shl_log2 _ Hs) as (Hr0 & Hr64 & Hshl & Hn0), (precision_nat _ Hs) as [Hbn Hbz].
  apply precision_check_Ok. split_and!; [done| |done]. unfold RangeProofParams_Validate. sp.
  rewrite !then_Ok, !reject_if_Ok, !wrap_Ok, !negb_false_iff, !check_element_exact, !Z.eqb_eq, !Z.eqb_neq, Z.ltb_ge.
  split_and!; first [done|by exists Q|by exists P|by unfold zlen, present_points; rewrite !length_fmap, Ll, Lr|apply check_points; [unfold zlen; lia|done]].
Qed.

Lemma csp_part q n r l rr : n ∈ SupportedPrecisions -> sp_QuantityPrecision q = n -> wcp_BitLength r = n -> wcp_LeftGenerators r = present_points l -> wcp_RightGenerators r = present_points rr ->
  length l = Z.to_nat (n + 1) -> length rr = Z.to_nat (n + 1) -> Forall finite l -> Forall finite rr ->
  precision_check q n (CSPRangeProofParams_Validate foreign_IsInfinity r curve_id) = Ok tt.
Proof.
  intros Hs Eq Eb El Er Ll Lr Fl Fr. destruct (precision_nat _ Hs) as [Hbn Hbz]. apply precision_check_Ok. split_and!; [done| |done]. unfold CSPRangeProofParams_Validate. rewrite Eb, El, Er.
  assert (u64 (n + 1) = n + 1) as -> by (apply Z.mod_small; unfold two64; lia). rewrite !then_Ok, !reject_if_Ok, !wrap_Ok, Z.eqb_neq, negb_false_iff, Z.eqb_eq.
  split_and!; first [lia|by unfold zlen, present_points; rewrite !length_fmap, Ll, Lr|apply check_points; [unfold zlen; lia|done]].
Qed.

Lemma NewWith_valid su : su_CurveID su = curve_id -> su_IdemixIssuerPK su <> [] -> su_BitLength su ∈ SupportedPrecisions ->
  su_ProofType su = RangeProofType \/ su_ProofType su = CSPRangeProofType ->
  exists p, Generate su = Ok p /\ Validate p = (Ok tt, p) /\ sp_Curve p = curve_id /\ unsigned p.
Proof using hash_point WL.
  intros Hc Hpk Hs Ht. destruct (precision_nat _ Hs) as [Hbn Hbz]. unfold NewWith.
  assert (64 <? su_BitLength su = false) as -> by (apply Z.ltb_ge; lia). assert (su_BitLength su =? 0 = false) as -> by (apply Z.eqb_neq; lia). sp.
  unfold GeneratePedersenParameters. sp. rewrite Hc, curve_lookup_own. sp.
  set (prefix := domainPrefix _ _). destruct (generators_points prefix (str "PedersenGenerators.") 3) as (ps & Eps & Lps & Fps). rewrite Eps.
  assert (zlen ps = 3) as Zps by (unfold zlen; by rewrite Lps).
  destruct Ht as [->| ->]; [rewrite Z.eqb_refl|change (CSPRangeProofType =? RangeProofType) with false; rewrite Z.eqb_refl]; cbv iota.
  - unfold GenerateRangeProofParameters. sp. rewrite curve_lookup_own. sp. fold prefix.
    destruct (generators_points prefix (str "RangeProof.L.") (Z.to_nat (su_BitLength su))) as (l & -> & Ll & Fl).
    destruct (generators_points prefix (str "RangeProof.R.") (Z.to_nat (su_BitLength su))) as (rr & -> & Lr & Fr).
    destruct (hash_point (prefix ++ str "RangeProof.P")) as (P & -> & HP). destruct (hash_point (prefix ++ str "RangeProof.Q")) as (Q & -> & HQ).
    unfold initCSPTranscriptHeader at 1. sp. eexists. split; [done|]. split; [|split; [done|intros r [= <-]; sp; unfold log2; case_match; [done|apply Z.log2_nonneg]]].
    unfold PublicParams_Validate. rewrite (checks_rest _ (su_IdemixIssuerPK su) ps) by done. sp.
    rewrite range_part by done. unfold initCSPTranscriptHeader. sp. unfold ComputeMaxTokenValue. sp. by rewrite Z.eqb_refl.
  - unfold GenerateCSPRangeProofParameters. sp. rewrite curve_lookup_own. sp. fold prefix.
    assert (u64 (su_BitLength su + 1) = su_BitLength su + 1) as Hu by (apply Z.mod_small; unfold two64; lia). rewrite Hu.
    destruct (generators_points prefix (str "CSPRangeProof.L.") (Z.to_nat (su_BitLength su + 1))) as (l & -> & Ll & Fl).
    destruct (generators_points prefix (str "CSPRangeProof.R.") (Z.to_nat (su_BitLength su + 1))) as (rr & -> & Lr & Fr).
    erewrite init_points by done. sp. erewrite init_points by done. sp. set (h := Absorb _ _). eexists. split; [done|]. split; [|by split].
    unfold PublicParams_Validate. rewrite (checks_rest _ (su_IdemixIssuerPK su) ps) by done. sp.
    rewrite (csp_part _ _ _ l rr) by done. erewrite init_points by done. sp. fold h. unfold ComputeMaxTokenValue. sp. by rewrite Z.eqb_refl.
Qed.

Lemma init_fields p p' : initCSPTranscriptHeader foreign_Bytes p = Ok p' -> sp_QuantityPrecision p' = sp_QuantityPrecision p /\ ComputeMaxTokenValue p' = ComputeMaxTokenValue p.
Proof.
  unfold initCSPTranscriptHeader, ComputeMaxTokenValue. destruct (sp_CSPRangeProofParams p) as [r|] eqn:E; [|intros [= <-]; by rewrite E].
  destruct (_ || _); [done|]. intros (pts & _ & [= <-])%res_bind_Ok. by sp.
Qed.

Lemma NewWith_fields su p : Generate su = Ok p -> sp_QuantityPrecision p = su_BitLength su /\ sp_MaxToken p = u64 (shl64 (su_BitLength su) - 1).
Proof.
  unfold NewWith, GeneratePedersenParameters. destruct (64 <? _); [done|]. destruct (_ =? 0); [done|]. cbn [reject_if mbind res_mbind]. sp.
  destruct (curve_lookup (su_CurveID su)) as [c|e|] eqn:Ec; [|done..]. sp. intros (q & Hq & (q' & Hi & [= <-])%res_bind_Ok)%res_bind_Ok.
  destruct (init_fields q q' Hi) as [E1 E2]. sp. rewrite E1, E2. destruct (_ =? RangeProofType); [|destruct (_ =? CSPRangeProofType); [|done]]; apply wrap_Ok in Hq.
  - unfold GenerateRangeProofParameters in Hq. apply res_bind_Ok in Hq as (c' & _ & [= <-]). by sp.
  - unfold GenerateCSPRangeProofParameters in Hq. apply res_bind_Ok in Hq as (c' & _ & Hq). destruct (init_fields _ _ Hq) as [-> ->]. by sp.
Qed.
End SetupProofs.

(** ** Encoding and decoding *)

(** A message as it is read back: [proto.Marshal] writes the nil entries of a
    repeated field as empty messages. *)
Definition fill_entries {A} (empty : A) (l : list (option A)) : list (option A) := (fun o => Some (default empty o)) <$> l.

Definition fill_range (r : PRangeProofParams) : PRangeProofParams :=
  {| prp_LeftGenerators := fill_entries [] (prp_LeftGenerators r); prp_RightGenerators := fill_entries [] (prp_RightGenerators r);
     prp_P := prp_P r; prp_Q := prp_Q r; prp_BitLength := prp_BitLength r; prp_NumberOfRounds := prp_NumberOfRounds r |}.

Definition fill_csp (r : PCSPRangeProofParams) : PCSPRangeProofParams :=
  {| pcp_LeftGenerators := fill_entries [] (pcp_LeftGenerators r); pcp_RightGenerators := fill_entries [] (pcp_RightGenerators r);
     pcp_BitLength := pcp_BitLength r |}.

Definition as_written (m : PPublicParameters) : PPublicParameters :=
  {| psp_TokenDriverName := psp_TokenDriverName m; psp_TokenDriverVersion := psp_TokenDriverVersion m; psp_CurveId := psp_CurveId m;
     psp_PedersenGenerators := fill_entries [] (psp_PedersenGenerators m); psp_RangeProofParams := fill_range <$> psp_RangeProofParams m;
     psp_CspRangeProofParams := fill_csp <$> psp_CspRangeProofParams m;
     psp_IdemixIssuerPublicKeys := fill_entries {| pik_PublicKey := None; pik_CurveId := None |} (psp_IdemixIssuerPublicKeys m);
     psp_Auditors := fill_entries [] (psp_Auditors m); psp_Issuers := fill_entries [] (psp_Issuers m);
     psp_MaxToken := psp_MaxToken m; psp_QuantityPrecision := psp_QuantityPrecision m; psp_Metadata := psp_Metadata m |}.

Section Roundtrip.
Context {CO : Curve} {NA : Native} {WI : Wire} {WL : WireLaws} {CC : CspCurve}.
Context (foreign_IsInfinity : Z -> bytes -> bool) (foreign_Bytes : Z -> bytes -> bytes).
Context (G1_MarshalJSON : wire G1 -> res bytes) (G1_UnmarshalJSON : bytes -> res (wire G1)).
Context (proto_Marshal : PPublicParameters -> res bytes) (proto_Unmarshal : bytes -> res PPublicParameters).
Context (json_Marshal : PContainer -> res bytes) (json_Unmarshal : bytes -> res PContainer).
Local Notation Validate := (PublicParams_Validate foreign_IsInfinity foreign_Bytes).
Local Notation checks := (validate_checks foreign_IsInfinity).

(** The codecs of the libraries read back what they wrote; a nil entry of a
    repeated field is written as the empty message. *)
Context (json_element : forall w b, G1_MarshalJSON w = Ok b -> b <> [] /\ G1_UnmarshalJSON b = Ok w).
Context (proto_reads : forall m b, proto_Marshal m = Ok b -> proto_Unmarshal b = Ok (as_written m)).
Context (json_reads : forall c b, json_Marshal c = Ok b -> json_Unmarshal b = Ok c).

Definition clear_header (p : PublicParams) : PublicParams :=
  match sp_CSPRangeProofParams p with None => p | Some r => set_csp p (set_header r []) end.

Lemma G1_read o b : ToProtoG1 G1_MarshalJSON o = Ok b -> FromG1Proto G1_UnmarshalJSON (Some b) = Ok o.
Proof using json_element.
  destruct o as [w|]; cbn [ToProtoG1]; [|by intros [= <-]]. intros H. destruct (json_element w b H) as [Hne Hr]. destruct b; [done|]. cbn [FromG1Proto]. by rewrite Hr.
Qed.

Lemma G1Slice_read l : forall bs, ToProtoG1Slice G1_MarshalJSON l = Ok bs -> FromG1ProtoSlice G1_UnmarshalJSON (fill_entries [] bs) = Ok l.
Proof using json_element.
  unfold ToProtoG1Slice, FromG1ProtoSlice, fill_entries. induction l as [|[w|] l IH]; intros bs H; cbn [ToProtosSlice] in H; [by injection H as <-|..].
  - apply res_bind_Ok in H as (b & Hb & H). apply res_bind_Ok in H as (bs' & Hbs & [= <-]). rewrite fmap_cons, mapM_cons_res. cbn [from_option id]. by rewrite (G1_read (Some w) b Hb), (IH bs' Hbs).
  - apply res_bind_Ok in H as (bs' & Hbs & [= <-]). rewrite fmap_cons, mapM_cons_res. cbn [from_option id FromG1Proto]. by rewrite (IH bs' Hbs).
Qed.

Lemma range_params_read r m : RangeProofParams_ToProtos G1_MarshalJSON r = Ok m -> RangeProofParams_FromProto G1_UnmarshalJSON (fill_range m) = Ok r.
Proof using json_element.
  unfold RangeProofParams_ToProtos. intros (l & Hl%wrap_Ok & H)%res_bind_Ok. apply res_bind_Ok in H as (rr & Hr%wrap_Ok & H). apply res_bind_Ok in H as (P & HP%wrap_Ok & H).
  apply res_bind_Ok in H as (Q & HQ%wrap_Ok & [= <-]). unfold RangeProofParams_FromProto, fill_range. cbn [prp_LeftGenerators prp_RightGenerators prp_P prp_Q prp_BitLength prp_NumberOfRounds].
  rewrite (G1Slice_read _ _ Hl), (G1Slice_read _ _ Hr), (G1_read _ _ HP), (G1_read _ _ HQ). by destruct r.
Qed.

Lemma csp_params_read r m : CSPRangeProofParams_ToProtos G1_MarshalJSON r = Ok m -> CSPRangeProofParams_FromProto G1_UnmarshalJSON (fill_csp m) = Ok (set_header r []).
Proof using json_element.
  unfold CSPRangeProofParams_ToProtos. intros (l & Hl%wrap_Ok & H)%res_bind_Ok. apply res_bind_Ok in H as (rr & Hr%wrap_Ok & [= <-]).
  unfold CSPRangeProofParams_FromProto, fill_csp. cbn [pcp_LeftGenerators pcp_RightGenerators pcp_BitLength]. by rewrite (G1Slice_read _ _ Hl), (G1Slice_read _ _ Hr).
Qed.

Lemma keys_read keys : Forall (fun k => idemix_check 0 k = Ok tt) keys -> forall ms, ToProtosSlice IdemixIssuerPublicKey_ToProtos keys = Ok ms ->
  fill_entries {| pik_PublicKey := None; pik_CurveId := None |} ms = ms /\ FromProtosSlice IdemixIssuerPublicKey_FromProtos ms (replicate (length ms) (mkIdemix [] 0)) = Ok keys.
Proof using WL.
  induction 1 as [|k keys Hk _ IH]; intros ms H; cbn [ToProtosSlice] in H; [by injection H as <-|]. destruct k as [[pk id]|]; [|done].
  apply res_bind_Ok in H as (m & Hm & H). apply res_bind_Ok in H as (ms' & Hms & [= <-]). unfold IdemixIssuerPublicKey_ToProtos in Hm. cbn [ik_Curve ik_PublicKey] in Hm.
  destruct (Z.ltb_spec id 0) as [|H0]; [done|]. injection Hm as <-. cbn [idemix_check ik_PublicKey ik_Curve] in Hk. rewrite then_Ok, !reject_if_Ok, Z.eqb_neq, Z.ltb_ge in Hk. destruct Hk as [Hpk Hid].
  cbn [length replicate FromProtosSlice]. destruct pk as [|x pk]; [done|]. cbn [IdemixIssuerPublicKey_FromProtos pik_PublicKey pik_CurveId present_or mbind res_mbind].
  destruct curve_id_range as [_ Hn]. assert (two63 - 1 <? id = false) as -> by (apply Z.ltb_ge; unfold two63; lia). cbn [reject_if mbind res_mbind]. destruct (IH ms' Hms) as [Hf ->]. split; [|done]. unfold fill_entries in *. by rewrite fmap_cons, Hf.
Qed.

Lemma identities_read (l : list bytes) : identity_FromProto <$> fill_entries [] (identity_ToProto <$> l) = l.
Proof. induction l as [|id l IH]; [done|]. unfold fill_entries in *. rewrite !fmap_cons, IH. by destruct id. Qed.

Lemma message_read p m : PublicParams_ToProtos G1_MarshalJSON p = Ok m -> 0 <= sp_Curve p < two63 -> Forall (fun k => idemix_check 0 k = Ok tt) (sp_IdemixIssuerPublicKeys p) ->
  PublicParams_FromProtos G1_UnmarshalJSON (as_written m) = Ok (clear_header p).
Proof using WL json_element.
  intros H Hc Hk. unfold PublicParams_ToProtos in H. apply res_bind_Ok in H as (pg & Hpg%wrap_Ok & H). apply res_bind_Ok in H as (rpp & Hrpp & H).
  apply res_bind_Ok in H as (csp & Hcsp & H). apply res_bind_Ok in H as (keys & Hkeys%wrap_Ok & [= <-]). unfold PublicParams_FromProtos, as_written. destruct (keys_read _ Hk _ Hkeys) as [Hfk Hkr].
  cbn [psp_CurveId psp_PedersenGenerators psp_RangeProofParams psp_CspRangeProofParams psp_IdemixIssuerPublicKeys psp_Auditors psp_Issuers psp_MaxToken psp_QuantityPrecision psp_Metadata
    psp_TokenDriverName psp_TokenDriverVersion present_or mbind res_mbind].
  assert (u64 (sp_Curve p) = sp_Curve p) as -> by (apply Z.mod_small; unfold two63, two64 in *; lia). assert (two63 - 1 <? sp_Curve p = false) as -> by (apply Z.ltb_ge; lia).
  cbn [reject_if mbind res_mbind]. rewrite (G1Slice_read _ _ Hpg), Hfk, Hkr, !identities_read. cbn [wrap mbind res_mbind].
  assert ((match fill_range <$> rpp with Some r => r ← wrap "failed to deserialize range proof parameters" (RangeProofParams_FromProto G1_UnmarshalJSON r); Ok (Some r) | None => Ok None end)
          = Ok (sp_RangeProofParams p)) as ->.
  { destruct (sp_RangeProofParams p) as [r|]; [|by injection Hrpp as <-]. apply res_bind_Ok in Hrpp as (m & Hm%wrap_Ok & [= <-]). cbn [fmap option_fmap option_map]. by rewrite (range_params_read _ _ Hm). }
  cbn [mbind res_mbind]. unfold clear_header. destruct (sp_CSPRangeProofParams p) as [r|] eqn:Er; [|injection Hcsp as <-; destruct p; cbn in Er |- *; by subst].
  apply res_bind_Ok in Hcsp as (m & Hm%wrap_Ok & [= <-]). cbn [fmap option_fmap option_map]. by rewrite (csp_params_read _ _ Hm).
Qed.

Lemma clear_init p p' : initCSPTranscriptHeader foreign_Bytes p = Ok p' -> initCSPTranscriptHeader foreign_Bytes (clear_header p') = Ok p'.
Proof using Type.
  unfold initCSPTranscriptHeader, clear_header. destruct (sp_CSPRangeProofParams p) as [r|] eqn:Er; [|intros [= <-]; by rewrite Er, Er].
  destruct (_ || _) eqn:Ec; [done|]. intros (pts & Hp & [= <-])%res_bind_Ok. sp. by rewrite Ec, Hp.
Qed.

Lemma clear_checks p p' : initCSPTranscriptHeader foreign_Bytes p = Ok p' -> checks (clear_header p') = checks p.
Proof using Type.
  unfold initCSPTranscriptHeader, clear_header. destruct (sp_CSPRangeProofParams p) as [r|] eqn:Er; [|intros [= <-]; by rewrite Er].
  destruct (_ || _) eqn:Ec; [done|]. intros (pts & Hp & [= <-])%res_bind_Ok. unfold validate_checks. sp. by rewrite Er.
Qed.

Lemma params_read p raw p' : PublicParams_Serialize foreign_IsInfinity foreign_Bytes G1_MarshalJSON proto_Marshal json_Marshal p = (Ok raw, p') -> 0 <= sp_Curve p ->
  exists q, NewPublicParamsFromBytes G1_UnmarshalJSON proto_Unmarshal json_Unmarshal raw (sp_DriverName p) (sp_DriverVersion p) = Ok q /\ Validate q = (Ok tt, p').
Proof using WL json_element proto_reads json_reads.
  intros H Hc. unfold PublicParams_Serialize, PublicParams_Validate in H. destruct (checks p) as [[]|e|] eqn:Ec; [|done..].
  destruct (initCSPTranscriptHeader foreign_Bytes p) as [p1|e|] eqn:Ei; [|done..]. injection H as H <-. apply res_bind_Ok in H as ([] & Hmax%wrap_Ok & H).
  apply res_bind_Ok in H as (m & Hm & H). apply res_bind_Ok in H as (b & Hb & Hj). exists (clear_header p1).
  assert (sp_Curve p1 = sp_Curve p /\ sp_IdemixIssuerPublicKeys p1 = sp_IdemixIssuerPublicKeys p /\ sp_DriverName p1 = sp_DriverName p /\ sp_DriverVersion p1 = sp_DriverVersion p) as (E1 & E2 & E3 & E4).
  { unfold initCSPTranscriptHeader in Ei. destruct (sp_CSPRangeProofParams p); [|by injection Ei as <-]. destruct (_ || _); [done|]. by apply res_bind_Ok in Ei as (pts & _ & [= <-]). }
  split.
  - unfold NewPublicParamsFromBytes. rewrite (json_reads _ _ Hj). cbn [wrap mbind res_mbind pct_Identifier pct_Raw]. rewrite E3, E4, bool_decide_true by done. cbn [negb reject_if mbind res_mbind].
    rewrite (proto_reads _ _ Hb). cbn [wrap mbind res_mbind]. rewrite (message_read p1 m Hm); [done|..].
    + rewrite E1. unfold validate_checks in Ec. rewrite then_Ok, reject_if_Ok, Z.ltb_ge in Ec. destruct Ec as [Hn _], curve_id_range as [_ Hn']. unfold two63. lia.
    + rewrite E2. unfold validate_checks in Ec. rewrite !then_Ok, rangeR_Ok in Ec. destruct Ec as (_ & _ & Hk & _). apply Forall_lookup. intros i k Hi. by apply (Hk i).
  - unfold PublicParams_Validate. rewrite (clear_checks p p1 Ei), Ec, (clear_init p p1 Ei). by rewrite Hmax.
Qed.
End Roundtrip.
