(* ===== verification/ZkSetupClaims.v ===== *)
(** * What the public parameters guarantee

    The theorems on the public parameters of the zero-knowledge driver (module
    [ZkSetup]), with runs on the curve of five elements: parameters the setup
    generates for sixteen bits, of either proof type. *)

From S2P Require Import Prelude GoStd Quantity Der TokenTypes Asn1 Request Limits Validator Htlc FabtokenActions ZkMath ZkIpa ZkRange ZkSigma ZkCodec ZkTransfer Csp CspFold CspSound Lagrange LagrangeSpec LagrangeTree CspRange CspRangeSpec CspRangeSound CspTransfer ZkActions ZkValidator ZkClaims CspClaims ZkSetup.
From Stdlib Require Import ZArith Lia.
Open Scope Z_scope.

(** Parameters generated over the curve of five elements, and codecs that write
    one message. *)
Module SmallSetup.
Import F5 Small SmallCsp.

#[export] Instance PRangeProofParams_eq : EqDecision PRangeProofParams.
Proof. solve_decision. Defined.
#[export] Instance PCSPRangeProofParams_eq : EqDecision PCSPRangeProofParams.
Proof. solve_decision. Defined.
#[export] Instance PIdemixKey_eq : EqDecision PIdemixKey.
Proof. solve_decision. Defined.
#[export] Instance PPublicParameters_eq : EqDecision PPublicParameters.
Proof. solve_decision. Defined.
#[export] Instance PContainer_eq : EqDecision PContainer.
Proof. solve_decision. Defined.

Definition at_infinity (_ : Z) (_ : bytes) : bool := false.
Definition foreign (_ : Z) (b : bytes) : bytes := b.
Definition to_point (_ : Z) (b : bytes) : ZkCodec.wire F := Own (hash b).
Definition setup_for (proofType : Z) : SetupParams :=
  {| su_DriverName := str "zkatdlognogh"; su_DriverVersion := 1; su_BitLength := 16; su_IdemixIssuerPK := str "key"; su_CurveID := 1; su_ProofType := proofType |}.
Definition no_params : PublicParams := mkPublicParams _ [] 0 0 [] None [] [] [] 0 0 [] None.
Definition generated (proofType : Z) : PublicParams := match NewWith foreign to_point (setup_for proofType) with Ok p => p | _ => no_params end.

Lemma to_point_finite b : exists q, to_point curve_id b = Own q /\ finite q.
Proof. exists (hash b). split; [done|]. unfold finite. cbn. apply bool_decide_eq_false, hash_nonzero. Qed.

Definition marshal_point (w : ZkCodec.wire F) : res bytes := match w with Own x => Ok [z2b (to_Z x)] | Foreign _ _ => Err (EMsg "another curve") end.
Definition unmarshal_point (b : bytes) : res (ZkCodec.wire F) := match b with [x] => Ok (Own (of_Z (b2z x))) | _ => Err (EMsg "not a point") end.

Lemma point_read w b : marshal_point w = Ok b -> b <> [] /\ unmarshal_point b = Ok w.
Proof. destruct w as [x|]; [|done]. intros [= <-]. split; [done|]. by destruct x. Qed.

(** One message of a codec that knows no other. *)
Definition only {A} `{!EqDecision A} (m : A) (x : A) : res bytes := if decide (x = m) then Ok (str "message") else Err (EMsg "another message").
Definition message : PPublicParameters := match PublicParams_ToProtos marshal_point (generated CSPRangeProofType) with
  | Ok m => m | _ => {| psp_TokenDriverName := []; psp_TokenDriverVersion := 0; psp_CurveId := None; psp_PedersenGenerators := []; psp_RangeProofParams := None;
                        psp_CspRangeProofParams := None; psp_IdemixIssuerPublicKeys := []; psp_Auditors := []; psp_Issuers := []; psp_MaxToken := 0;
                        psp_QuantityPrecision := 0; psp_Metadata := [] |} end.
Definition container : PContainer := {| pct_Identifier := str "zkatdlognogh.v1"; pct_Raw := str "message" |}.

Lemma only_read {A} `{!EqDecision A} (m x : A) (b : bytes) : only m x = Ok b -> x = m.
Proof. unfold only. by destruct (decide (x = m)). Qed.

Definition written : res bytes * PublicParams :=
  PublicParams_Serialize at_infinity foreign marshal_point (only message) (only container) (generated CSPRangeProofType).

Lemma written_eq : written = (Ok (str "message"), generated CSPRangeProofType).
Proof. vm_cast_no_check (eq_refl (Ok (str "message"), generated CSPRangeProofType)). Qed.

Definition first_rounds : Z := match sp_RangeProofParams (generated RangeProofType) with Some r => wrp_NumberOfRounds r | None => 0 end.

Lemma first_valid : PublicParams_Validate at_infinity foreign (generated RangeProofType) = (Ok tt, generated RangeProofType).
Proof. vm_cast_no_check (eq_refl (@Ok unit tt, generated RangeProofType)). Qed.

Lemma first_fields : sp_Curve (generated RangeProofType) = 1 /\ sp_CSPRangeProofParams (generated RangeProofType) = None /\ first_rounds = 4.
Proof. vm_cast_no_check (conj (eq_refl 1) (conj (eq_refl (@None wCSPRangeProofParams)) (eq_refl 4))). Qed.

Lemma first_unsigned : unsigned (generated RangeProofType).
Proof. intros r E. pose proof (proj2 (proj2 first_fields)) as H. unfold first_rounds in H. rewrite E in H. lia. Qed.

Lemma written_names : sp_DriverName (generated CSPRangeProofType) = str "zkatdlognogh" /\ sp_DriverVersion (generated CSPRangeProofType) = 1 /\ sp_Curve (generated CSPRangeProofType) = 1.
Proof. vm_cast_no_check (conj (eq_refl (str "zkatdlognogh")) (conj (eq_refl 1) (eq_refl 1))). Qed.
End SmallSetup.

Section SetupClaims.
Context {CO : Curve} {CL : CurveLaws} {NA : Native} {NL : NativeLaws} {WI : Wire} {WL : WireLaws} {CC : CspCurve} {CP : CspLaws}.

(** C14: Public parameters of the driver's curve that [Validate] accepts are what
    the provers and verifiers rely on: three Pedersen generators, at least one
    proof type, for the first as many generators on each side as bits and a
    number of rounds that halves them to one, for the second one generator more
    on each side, none at infinity, and a transcript header that is set; and
    with them neither verifier panics, on any proof type and bytes, however
    adversarial, and any commitments that are present and of the driver's curve: a
    token of another curve can make a verifier panic under the same parameters
    ([foreign_token_panics]).  The curve must be one that the range proof
    dispatches on or that is cached, and its group order must exceed twice the bit
    length of the second range proof, as for the curves the library supports. *)
Theorem validated_params_usable foreign_IsInfinity foreign_Bytes p p' :
  PublicParams_Validate foreign_IsInfinity foreign_Bytes p = (Ok tt, p') -> sp_Curve p = curve_id -> unsigned p ->
  (forall r, sp_CSPRangeProofParams p = Some r -> 2 * wcp_BitLength r < GroupOrder) -> DispatchCurve <> (false, false) \/ cached_curve = true ->
  exists PP p0 p1 p2, own_params p' = Ok PP /\ usable PP p0 p1 p2 /\
    forall envs proofType inputs outputs raw, (forall i, env_ok (envs i)) ->
      verify_transfer_proof PP envs proofType (present_points inputs) (present_points outputs) raw <> Panic /\
      verify_issue_proof PP envs proofType (present_points outputs) raw <> Panic.
Proof.
  intros HV Hc Hu Ho Hd. destruct (validated_usable _ _ p p' HV Hc Hu Ho Hd) as (PP & p0 & p1 & p2 & HPP & HU).
  exists PP, p0, p1, p2. split; [done|]. split; [done|]. intros. by apply (usable_no_panic PP p0 p1 p2).
Qed.

(** The setup generates valid parameters: for a supported precision, an
    issuer key, the driver's curve and either proof type, [NewWith] succeeds,
    [Validate] accepts the result and leaves it as it is, the transcript header
    and the largest token included. *)
Theorem setup_generates_valid foreign_IsInfinity foreign_Bytes HashToG1 su :
  (forall b, exists q, HashToG1 curve_id b = Own q /\ finite q) -> su_CurveID su = curve_id -> su_IdemixIssuerPK su <> [] ->
  su_BitLength su ∈ SupportedPrecisions -> su_ProofType su = RangeProofType \/ su_ProofType su = CSPRangeProofType ->
  exists p, NewWith foreign_Bytes HashToG1 su = Ok p /\ PublicParams_Validate foreign_IsInfinity foreign_Bytes p = (Ok tt, p) /\
    sp_Curve p = curve_id /\ sp_QuantityPrecision p = su_BitLength su /\ sp_MaxToken p = 2 ^ su_BitLength su - 1.
Proof.
  intros Hh Hc Hpk Hs Ht. destruct (NewWith_valid foreign_IsInfinity foreign_Bytes HashToG1 Hh su Hc Hpk Hs Ht) as (p & Hp & HV & Hcp & _).
  destruct (NewWith_fields foreign_Bytes HashToG1 su p Hp) as [Hq Hm]. exists p. split_and!; [done..|]. rewrite Hm. by apply max_supported.
Qed.

(** C17: Public parameters are restored from their encoding: what [Serialize]
    writes, [NewPublicParamsFromBytes] reads for the same driver name and
    version, and validating what was read gives the parameters the writer holds
    after its own validation, the recomputed transcript header included, which
    is not part of the encoding. *)
Theorem public_params_roundtrip foreign_IsInfinity foreign_Bytes G1_MarshalJSON G1_UnmarshalJSON proto_Marshal proto_Unmarshal json_Marshal json_Unmarshal p raw p' :
  (forall w b, G1_MarshalJSON w = Ok b -> b <> [] /\ G1_UnmarshalJSON b = Ok w) -> (forall m b, proto_Marshal m = Ok b -> proto_Unmarshal b = Ok (as_written m)) ->
  (forall c b, json_Marshal c = Ok b -> json_Unmarshal b = Ok c) -> 0 <= sp_Curve p ->
  PublicParams_Serialize foreign_IsInfinity foreign_Bytes G1_MarshalJSON proto_Marshal json_Marshal p = (Ok raw, p') ->
  exists q, NewPublicParamsFromBytes G1_UnmarshalJSON proto_Unmarshal json_Unmarshal raw (sp_DriverName p) (sp_DriverVersion p) = Ok q /\
    PublicParams_Validate foreign_IsInfinity foreign_Bytes q = (Ok tt, p').
Proof. intros He Hm Hj Hc H. by eapply params_read. Qed.
End SetupClaims.

(** ** Runs on the curve of five elements *)

Section SetupWitnesses.
Import F5 Small SmallCsp SmallSetup.

Lemma validated_params_usable_witness : exists PP p0 p1 p2, own_params (generated RangeProofType) = Ok PP /\ usable PP p0 p1 p2.
Proof.
  destruct (validated_params_usable (CO := curve) (CL := laws) (NA := native) (NL := native_laws) (WI := wire) (WL := wire_laws) (CC := csp_curve) (CP := csp_laws)
    at_infinity foreign (generated RangeProofType) (generated RangeProofType)) as (PP & p0 & p1 & p2 & H & HU & _);
    [exact first_valid|exact (proj1 first_fields)|exact first_unsigned|by rewrite (proj1 (proj2 first_fields))|left; discriminate|].
  exists PP, p0, p1, p2. split; [exact H|exact HU].
Defined.

Lemma setup_generates_valid_witness : exists p, NewWith foreign to_point (setup_for CSPRangeProofType) = Ok p /\ PublicParams_Validate at_infinity foreign p = (Ok tt, p).
Proof.
  destruct (setup_generates_valid (CO := curve) (NA := native) (WI := wire) (WL := wire_laws)
    at_infinity foreign to_point (setup_for CSPRangeProofType)) as (p & H & HV & _); [exact to_point_finite|reflexivity|discriminate|apply list_elem_of_here|by right|].
  exists p. split; [exact H|exact HV].
Defined.

Lemma public_params_roundtrip_witness : exists q, NewPublicParamsFromBytes unmarshal_point (fun _ => Ok (as_written message)) (fun _ => Ok container) (str "message") (str "zkatdlognogh") 1 = Ok q /\
  PublicParams_Validate at_infinity foreign q = (Ok tt, generated CSPRangeProofType).
Proof.
  destruct (public_params_roundtrip (CO := curve) (NA := native) (WI := wire) (WL := wire_laws)
    at_infinity foreign marshal_point unmarshal_point (only message) (fun _ => Ok (as_written message)) (only container) (fun _ => Ok container)
    (generated CSPRangeProofType) (str "message") (generated CSPRangeProofType)) as (q & H & HV);
    [exact point_read|by intros m b ->%only_read|by intros c b ->%only_read|rewrite (proj2 (proj2 written_names)); lia|exact written_eq|].
  rewrite (proj1 written_names), (proj1 (proj2 written_names)) in H.  exists q. split; [exact H|exact HV].
Defined.
End SetupWitnesses.
