(* ===== verification/Sherdlock.v ===== *)
(** * The sherdlock token selector (services/selector/sherdlock/selector.go,
      tuning.go, token/selector.go)

    A selection scans candidate tokens, claims them through a lock store shared
    with other processes, and retries until the requested quantity is covered.
    Everything outside the selector is the world [W]: the candidate source, the
    lock store, random numbers and the goroutine that may close the selector
    between two of its critical sections.  Every call may change the world
    arbitrarily, which is how other processes act.  An iterator is the sequence
    of what its [Next] calls return until the end.  Metrics and the release of
    database cursors are left out. *)

From S2P Require Import Prelude Quantity TokenTypes.
From Stdlib Require Import ZArith Lia.
Local Open Scope Z_scope.

(** ** Errors (token/selector.go, storage/db/driver/token.go) *)

Definition SelectorInsufficientFunds : error := EMsg "insufficient funds".
Definition SelectorSufficientButLockedFunds : error := EMsg "sufficient but partially locked funds".
Definition SelectorSufficientFundsButConcurrencyIssue : error := EMsg "sufficient funds but concurrency issue".
Definition SelectorRateLimited : error := EMsg "selection rate limit exceeded".
Definition ErrTokenAlreadyLocked : error := EMsg "token already locked".
Definition ErrTokenNotSpendable : error := EMsg "token is not spendable".
Definition ErrSelectorClosed : error := EMsg "selector is already closed".

(** [errors.Is] on a possibly nil error. *)
Definition is_err (e : option error) (target : error) : bool :=
  match e with None => false | Some e => errors_Is e target end.

Record UnspentTokenInWallet := mkUnspentTokenInWallet { uw_Id : ID; uw_WalletID : bytes; uw_Type : bytes; uw_Quantity : bytes }.

Record BatchLockOutcome := mkBatchLockOutcome { Won : list ID; Stale : list ID }.

(** ** Tuning (tuning.go) *)

Definition defaultMaxImmediateRetries : Z := 5.
Definition defaultSufficiencyWindow : Z := 4.
Definition defaultMaxSufficiencyRatio : Z := 5.
Definition defaultMaxBatchWindow : Z := 256.
Definition MaxBatchWindowLimit : Z := 4096.

Record Tuning := mkTuning {
  SufficiencyWindow : Z;
  MaxSufficiencyRatio : Z;
  MaxImmediateRetries : Z;
  MaxBatchWindow : Z;
}.

Definition Tuning_normalize (t : Tuning) : Tuning := mkTuning
  (if SufficiencyWindow t <=? 0 then defaultSufficiencyWindow else SufficiencyWindow t)
  (if MaxSufficiencyRatio t <=? 0 then defaultMaxSufficiencyRatio else MaxSufficiencyRatio t)
  (if MaxImmediateRetries t <=? 0 then defaultMaxImmediateRetries else MaxImmediateRetries t)
  (if MaxBatchWindow t <=? 0 then defaultMaxBatchWindow
   else if MaxBatchWindow t >? MaxBatchWindowLimit then MaxBatchWindowLimit else MaxBatchWindow t).

Definition Option_ : Type := Tuning -> Tuning.
Definition WithSufficiencyWindow (window : Z) : Option_ := fun t => mkTuning window (MaxSufficiencyRatio t) (MaxImmediateRetries t) (MaxBatchWindow t).
Definition WithMaxSufficiencyRatio (ratio : Z) : Option_ := fun t => mkTuning (SufficiencyWindow t) ratio (MaxImmediateRetries t) (MaxBatchWindow t).
Definition WithMaxImmediateRetries (retries : Z) : Option_ := fun t => mkTuning (SufficiencyWindow t) (MaxSufficiencyRatio t) retries (MaxBatchWindow t).
Definition WithMaxBatchWindow (window : Z) : Option_ := fun t => mkTuning (SufficiencyWindow t) (MaxSufficiencyRatio t) (MaxImmediateRetries t) window.
Definition WithTuning (tuning : Tuning) : Option_ := fun _ => tuning.

Definition CompileOptions (opts : list (option Option_)) : Tuning :=
  Tuning_normalize (foldl (fun t opt => match opt with Some f => f t | None => t end) (mkTuning 0 0 0 0) opts).

(** ** The world of a selection *)

Abbreviation candidate := UnspentTokenInWallet.
Abbreviation iterator := (list (res candidate)).

(** The candidate source, the lock store bound to the transaction of the
    selection, and the rest of the runtime. *)
Class Sherd (W : Type) := {
  TryLock : ID -> bytes -> W -> (bool * option error) * W;
  (** The store may support batches. *)
  TryLockBatch : option (list ID -> bytes -> W -> (BatchLockOutcome * option error) * W);
  locker_UnlockAll : W -> option error * W;
  UnspentTokensIteratorBy : bytes -> bytes -> W -> res iterator * W;
  HasEnoughSpendableTokens : bytes -> bytes -> Z -> W -> res bool * W;
  (** The source may be a cache. *)
  InvalidateCache : option (W -> W);
  (** A random number, and whether another goroutine has closed the selector
      since the last critical section. *)
  rand_draw : W -> Z * W;
  closed_by_other : W -> bool * W;
  (** How the library's set of pointers lists its elements. *)
  Set_ToSlice : list ID -> list ID;
}.

Section Selector.
Context {W : Type} {SH : Sherd W} (precision : Z) (tuning : Tuning).

(** The mutable fields of a [Selector]; a closed one has no cache. *)
Record Selector := mkSelector { sel_cache : option iterator; sel_pending : list candidate; sel_world : W }.

Abbreviation S := (M Selector).

Definition NewSelector (w : W) : Selector := mkSelector (Some []) [] w.

(** A call into the world. *)
Definition call {A} (f : W -> A * W) : S A := fun s =>
  let '(a, w) := f (sel_world s) in (Ok a, mkSelector (sel_cache s) (sel_pending s) w).
Definition callR {A} (f : W -> res A * W) : S A := fun s =>
  let '(r, w) := f (sel_world s) in (r, mkSelector (sel_cache s) (sel_pending s) w).

(** [s.mu.Lock()]: another goroutine may have closed the selector before. *)
Definition mu_Lock : S unit :=
  closed ← call closed_by_other;
  if closed : bool then modifyS (fun s => mkSelector None [] (sel_world s)) else mret tt.

(** [rand.IntN]; the caller passes a positive bound. *)
Definition rand_IntN (n : nat) : S nat := x ← call rand_draw; mret (Z.to_nat (x `mod` Z.of_nat n)).

Definition isClosed : S bool := mu_Lock ;; s ← getS; mret (match sel_cache s with None => true | Some _ => false end).

Definition dequeue : S (option candidate) :=
  mu_Lock ;;
  s ← getS;
  match sel_cache s with
  | None => lift (Err ErrSelectorClosed)
  | Some cache =>
      match sel_pending s with
      | t :: pending => putS (mkSelector (Some cache) pending (sel_world s)) ;; mret (Some t)
      | [] =>
          match cache with
          | [] => mret None
          | r :: cache => putS (mkSelector (Some cache) [] (sel_world s)) ;; t ← lift r; mret (Some t)
          end
      end
  end.

Definition requeue (tokens : list candidate) : S unit :=
  match tokens with
  | [] => mret tt
  | _ => mu_Lock ;; modifyS (fun s => mkSelector (sel_cache s) (tokens ++ sel_pending s) (sel_world s))
  end.

Definition dropPending : S unit := mu_Lock ;; modifyS (fun s => mkSelector (sel_cache s) [] (sel_world s)).

Definition swapCache (it : iterator) : S unit :=
  mu_Lock ;;
  s ← getS;
  match sel_cache s with
  | None => lift (Err ErrSelectorClosed)
  | Some _ => putS (mkSelector (Some it) [] (sel_world s))
  end.

Definition Selector_Close : S unit :=
  mu_Lock ;;
  s ← getS;
  match sel_cache s with
  | None => lift (Err ErrSelectorClosed)
  | Some _ => putS (mkSelector None [] (sel_world s))
  end.

Definition invalidateCandidateCache : S unit :=
  match InvalidateCache with
  | None => mret tt
  | Some f => modifyS (fun s => mkSelector (sel_cache s) (sel_pending s) (f (sel_world s)))
  end.

(** ** The next candidate *)

(** What [dequeue] can still hand out; it bounds the loops that drain it. *)
Definition available (s : Selector) : nat := length (sel_pending s) + match sel_cache s with Some l => length l | None => 0 end.

(** The lookahead of [nextCandidate]: the candidates that join [window], each
    sufficient on its own and at most [threshold]. *)
Fixpoint growSufficiency (fuel : nat) (isBlacklisted : ID -> bool) (threshold : Z) (window : list candidate) : S (list candidate) :=
  if negb (zlen window <? SufficiencyWindow tuning) then mret window else
  match fuel with
  | O => lift Panic
  | Datatypes.S fuel =>
      next ← dequeue;
      match next with
      | None => mret window
      | Some next =>
          if isBlacklisted (uw_Id next) then growSufficiency fuel isBlacklisted threshold window else
          nq ← wrapM "invalid token found" (lift (ToQuantity (uw_Quantity next) precision));
          v ← lift (ToBigInt nq);
          if v >? threshold then requeue [next] ;; mret window
          else growSufficiency fuel isBlacklisted threshold (window ++ [next])
      end
  end.

Definition nextCandidate (remaining : Quantity) (isBlacklisted : ID -> bool) : S (option candidate) :=
  t ← dequeue;
  match t with
  | None => mret None
  | Some t =>
      if isBlacklisted (uw_Id t) then mret (Some t) else
      tq ← wrapM "invalid token found" (lift (ToQuantity (uw_Quantity t) precision));
      c ← lift (Cmp tq remaining);
      if c <? 0 then mret (Some t) else
      v ← lift (ToBigInt tq);
      s ← getS;
      window ← growSufficiency (Datatypes.S (available s)) isBlacklisted (v * MaxSufficiencyRatio tuning) [t];
      idx ← (if (1 <? length window)%nat then rand_IntN (length window) else mret 0%nat);
      chosen ← lift (match window !! idx with Some c => Ok c | None => Panic end);
      requeue (take idx window ++ drop (Datatypes.S idx) window) ;;
      mret (Some chosen)
  end.

(** ** One selection attempt *)

(** The local variables of [selectInternal]. *)
Record attempt := mkAttempt {
  at_sum : Quantity;
  at_selected : list candidate;
  at_lockedByOthers : bool;
  at_retries : Z;
  at_blacklisted : list ID;
  at_saw : bool;
  at_fetched : bool;
}.

Definition blacklisted (a : attempt) (id : ID) : bool := bool_decide (id ∈ at_blacklisted a).

Definition refreshCandidates (walletID typ : bytes) (immediateRetries : Z) (alreadyFetched : bool) : S Z :=
  if immediateRetries >? MaxImmediateRetries tuning then lift (Err SelectorSufficientButLockedFunds) else
  (if alreadyFetched then invalidateCandidateCache else mret tt) ;;
  it ← wrapM "failed to reload tokens for retry" (callR (UnspentTokensIteratorBy walletID typ));
  swapCache it ;;
  mret (immediateRetries + 1).

(** A won token is added to the sum and resets the retry budget. *)
Definition win (a : attempt) (t : candidate) : res attempt :=
  q ← wrap "invalid token found" (ToQuantity (uw_Quantity t) precision);
  sum ← wrap "failed to add quantity" (Add (at_sum a) q);
  Ok (mkAttempt sum (at_selected a ++ [t]) (at_lockedByOthers a) 0 (at_blacklisted a) (at_saw a) (at_fetched a)).

Definition lose (a : attempt) (t : candidate) (lockedByOthers : bool) : attempt :=
  mkAttempt (at_sum a) (at_selected a) lockedByOthers (at_retries a) (uw_Id t :: at_blacklisted a) (at_saw a) (at_fetched a).

Definition seen (a : attempt) : attempt :=
  mkAttempt (at_sum a) (at_selected a) (at_lockedByOthers a) (at_retries a) (at_blacklisted a) true (at_fetched a).

(** The verdicts of a batch: won, stale, or lost to another process. *)
Definition classify (outcome : BatchLockOutcome) (a : attempt) (wt : candidate) : res attempt :=
  let a := seen a in
  if bool_decide (uw_Id wt ∈ Won outcome) then win a wt
  else if bool_decide (uw_Id wt ∈ Stale outcome) then Ok (lose a wt (at_lockedByOthers a))
  else Ok (lose a wt true).

(** The verdicts of a batch that failed: only the wins are used. *)
Definition harvest (outcome : BatchLockOutcome) (a : attempt) (wt : candidate) : res attempt :=
  if bool_decide (uw_Id wt ∈ Won outcome) then win a wt else Ok a.

Fixpoint foldR {A B} (f : A -> B -> res A) (a : A) (l : list B) : res A :=
  match l with
  | [] => Ok a
  | x :: l => a ← f a x; foldR f a l
  end.

(** The covering window of a batch. *)
Fixpoint growBatch (fuel : nat) (isBlacklisted : ID -> bool) (remaining windowSum : Quantity) (window : list candidate) : S (list candidate) :=
  c ← lift (Cmp windowSum remaining);
  if negb ((c <? 0) && (zlen window <? MaxBatchWindow tuning)) then mret window else
  match fuel with
  | O => lift Panic
  | Datatypes.S fuel =>
      next ← wrapM "failed to get tokens" dequeue;
      match next with
      | None => mret window
      | Some next =>
          if isBlacklisted (uw_Id next) then growBatch fuel isBlacklisted remaining windowSum window else
          nq ← wrapM "invalid token found" (lift (ToQuantity (uw_Quantity next) precision));
          windowSum ← wrapM "failed to add quantity" (lift (Add windowSum nq));
          growBatch fuel isBlacklisted remaining windowSum (window ++ [next])
      end
  end.

(** The result: the ids, the sum and the retries since the last win. *)
Definition selection : Type := list ID * Quantity * Z.

(** [if sum.Cmp(quantity) >= 0 { return ... }]. *)
Definition covered (quantity : Quantity) (a : attempt) : res (option selection) :=
  c ← Cmp (at_sum a) quantity;
  Ok (if c >=? 0 then Some (Set_ToSlice (uw_Id <$> at_selected a), at_sum a, at_retries a) else None).

(** One iteration ends the selection or goes on with new locals. *)
Definition finish (quantity : Quantity) (a : attempt) : S (attempt + selection) :=
  r ← lift (covered quantity a); mret (match r with Some r => inr r | None => inl a end).

Definition refresh (walletID typ : bytes) (a : attempt) : S attempt :=
  retries ← refreshCandidates walletID typ (at_retries a) (at_fetched a);
  mret (mkAttempt (at_sum a) (at_selected a) (at_lockedByOthers a) retries (at_blacklisted a) (at_saw a) true).

(** No candidate is left. *)
Definition exhausted (quantity : Quantity) (walletID typ : bytes) (a : attempt) : S (attempt + selection) :=
  (if at_lockedByOthers a then mret tt else
   target ← lift (ToBigInt quantity);
   hasEnough ← wrapM "failed to check for locked tokens" (callR (HasEnoughSpendableTokens walletID typ target));
   if hasEnough : bool then mret tt
   else lift (Err (EWrap SelectorInsufficientFunds "insufficient funds, no other process has any tokens locked"))) ;;
  let blacklist := if negb (at_saw a) && negb (zlen (at_blacklisted a) =? 0) then [] else at_blacklisted a in
  a ← refresh walletID typ (mkAttempt (at_sum a) (at_selected a) (at_lockedByOthers a) (at_retries a) blacklist false (at_fetched a));
  mret (inl (mkAttempt (at_sum a) (at_selected a) false (at_retries a) (at_blacklisted a) (at_saw a) (at_fetched a))).

Definition batchClaim (batch : list ID -> bytes -> W -> (BatchLockOutcome * option error) * W) (quantity remaining : Quantity)
    (walletID typ : bytes) (a : attempt) (t : candidate) : S (attempt + selection) :=
  windowSum ← wrapM "invalid token found" (lift (ToQuantity (uw_Quantity t) precision));
  s ← getS;
  window ← growBatch (Datatypes.S (available s)) (blacklisted a) remaining windowSum [t];
  '(outcome, lockErr) ← call (batch (uw_Id <$> window) walletID);
  match lockErr with
  | Some e =>
      if errors_Is e SelectorRateLimited then lift (Err e) else
      a ← lift (foldR (harvest outcome) a window);
      r ← lift (covered quantity a);
      match r with
      | Some r => mret (inr r)
      | None =>
          a ← refresh walletID typ (mkAttempt (at_sum a) (at_selected a) true (at_retries a) (at_blacklisted a) true (at_fetched a));
          mret (inl a)
      end
  | None =>
      a ← lift (foldR (classify outcome) a window);
      (if existsb (fun wt => negb (bool_decide (uw_Id wt ∈ Won outcome)) && bool_decide (uw_Id wt ∈ Stale outcome)) window
       then invalidateCandidateCache else mret tt) ;;
      finish quantity a
  end.

Definition singleClaim (quantity : Quantity) (walletID : bytes) (a : attempt) (t : candidate) : S (attempt + selection) :=
  let a := seen a in
  '(locked, lockErr) ← call (TryLock (uw_Id t) walletID);
  if locked : bool then
    a ← lift (win a t);
    finish quantity a
  else
  if is_err lockErr SelectorRateLimited then lift (match lockErr with Some e => Err e | None => Panic end) else
  if is_err lockErr ErrTokenNotSpendable then
    invalidateCandidateCache ;;
    mret (inl (lose a t (at_lockedByOthers a)))
  else if is_err lockErr ErrTokenAlreadyLocked then mret (inl (lose a t true))
  else mret (inl (mkAttempt (at_sum a) (at_selected a) true (at_retries a) (at_blacklisted a) (at_saw a) (at_fetched a))).

(** One iteration of the loop of [selectInternal]. *)
Definition iteration (quantity : Quantity) (walletID typ : bytes) (a : attempt) : S (attempt + selection) :=
  remaining ← wrapM "failed to compute remaining amount" (lift (Sub quantity (at_sum a)));
  t ← wrapM "failed to get tokens" (nextCandidate remaining (blacklisted a));
  match t with
  | None => exhausted quantity walletID typ a
  | Some t =>
      if blacklisted a (uw_Id t) then
        mret (inl (mkAttempt (at_sum a) (at_selected a) true (at_retries a) (at_blacklisted a) (at_saw a) (at_fetched a)))
      else match TryLockBatch with
           | Some batch => batchClaim batch quantity remaining walletID typ a t
           | None => singleClaim quantity walletID a t
           end
  end.

(** The loop, [None] when [fuel] runs out. *)
Fixpoint selectLoop (fuel : nat) (quantity : Quantity) (walletID typ : bytes) (a : attempt) : S (option selection) :=
  match fuel with
  | O => mret None
  | Datatypes.S fuel =>
      r ← iteration quantity walletID typ a;
      match r with
      | inr r => mret (Some r)
      | inl a => selectLoop fuel quantity walletID typ a
      end
  end.

Definition first_attempt : attempt := mkAttempt (NewZeroQuantity precision) [] true 0 [] false false.

Definition selectInternal (fuel : nat) (walletID q typ : bytes) : S (option selection) :=
  closed ← isClosed;
  if closed : bool then lift (Err ErrSelectorClosed) else
  quantity ← wrapM "failed to create quantity" (lift (ToQuantity q precision));
  dropPending ;;
  selectLoop fuel quantity walletID typ first_attempt.

(** An error releases the locks; a failure to do so is only logged. *)
Definition selectWithoutMetrics (fuel : nat) (walletID q typ : bytes) : S (option selection) := fun s =>
  match selectInternal fuel walletID q typ s with
  | (Err e, s) => let '(_, s) := call locker_UnlockAll s in (Err e, s)
  | r => r
  end.

(** [Selector.Select] differs in its metrics only. *)
Definition Selector_Select (fuel : nat) (walletID q typ : bytes) : S (option selection) := selectWithoutMetrics fuel walletID q typ.

(** [StubbornSelector.Select]: [backoff] waits and tells whether the context
    was cancelled meanwhile; [n] attempts are left. *)
Section Stubborn.
Context (backoff : W -> bool * W).
Definition ErrCancelled : error := EMsg "context canceled".

Fixpoint StubbornSelect (n : nat) (fuel : nat) (walletID q typ : bytes) : S (option selection) :=
  match n with
  | O => lift (Err (EWrap SelectorInsufficientFunds "aborted too many times and no other process unlocked or added tokens"))
  | Datatypes.S n => fun s =>
      match selectWithoutMetrics fuel walletID q typ s with
      | (Err e, s) =>
          if errors_Is e SelectorSufficientButLockedFunds
          then (cancelled ← call backoff;
                if cancelled : bool then (call locker_UnlockAll ;; lift (Err ErrCancelled)) else StubbornSelect n fuel walletID q typ) s
          else (Err e, s)
      | r => r
      end
  end.

Definition Stubborn_Select (maxRetriesAfterBackoff : Z) (fuel : nat) (walletID q typ : bytes) : S (option selection) :=
  StubbornSelect (Z.to_nat (maxRetriesAfterBackoff + 1)) fuel walletID q typ.
End Stubborn.
End Selector.
