(* ===== verification/SherdlockSafety.v ===== *)
(** * What a sherdlock selection guarantees

    Laws of the lock store, the bookkeeping lemmas of the candidate buffer, and
    the theorems: a successful selection covers the request with distinct tokens
    it locked itself, a failed one leaves nothing locked, selection terminates,
    and an uncontended wallet that can pay is served. *)

From S2P Require Import Prelude Quantity TokenTypes Sherdlock.
From Stdlib Require Import ZArith Lia.
Local Open Scope Z_scope.

(** [held w i]: the transaction of the selection holds the lock of [i]. *)
Class SherdLaws (W : Type) {SH : Sherd W} (held : W -> ID -> Prop) := {
  TryLock_won : forall id wallet w e w', TryLock id wallet w = ((true, e), w') ->
    ~ held w id /\ forall i, held w' i <-> held w i \/ i = id;
  TryLock_lost : forall id wallet w e w', TryLock id wallet w = ((false, e), w') -> forall i, held w' i <-> held w i;
  TryLockBatch_won : forall f ids wallet w o e w', TryLockBatch = Some f -> f ids wallet w = ((o, e), w') ->
    forall i, i ∈ Won o -> i ∈ ids /\ ~ held w i;
  TryLockBatch_held : forall f ids wallet w o e w', TryLockBatch = Some f -> f ids wallet w = ((o, e), w') ->
    forall i, held w i \/ i ∈ Won o -> held w' i;
  (** A batch that fails may have claimed more than it reports. *)
  TryLockBatch_exact : forall f ids wallet w o w', TryLockBatch = Some f -> f ids wallet w = ((o, None), w') ->
    forall i, held w' i -> held w i \/ i ∈ Won o;
  UnlockAll_releases : forall w w', locker_UnlockAll w = (None, w') -> forall i, ~ held w' i;
  fetch_calm : forall wallet typ w r w', UnspentTokensIteratorBy wallet typ w = (r, w') -> forall i, held w' i <-> held w i;
  balance_calm : forall wallet typ v w r w', HasEnoughSpendableTokens wallet typ v w = (r, w') -> forall i, held w' i <-> held w i;
  invalidate_calm : forall f w, InvalidateCache = Some f -> forall i, held (f w) i <-> held w i;
  rand_calm : forall w x w', rand_draw w = (x, w') -> forall i, held w' i <-> held w i;
  closed_calm : forall w b w', closed_by_other w = (b, w') -> forall i, held w' i <-> held w i;
  ToSlice_perm : forall l, Set_ToSlice l ≡ₚ l;
}.

(** ** Quantities of one precision *)

Lemma mkQuantity_unique p a c : wf p c -> same_repr (mkQuantity p a) c -> c = mkQuantity p (value c).
Proof. unfold mkQuantity. intros Hw Hs. destruct (Z.eqb_spec p 64), c; cbn in *; try done. by destruct Hw as [-> _]. Qed.

Lemma mkQuantity_Add p a b c : 0 < p < two63 -> 0 <= a < 2 ^ p -> 0 <= b < 2 ^ p ->
  Add (mkQuantity p a) (mkQuantity p b) = Ok c -> c = mkQuantity p (a + b) /\ 0 <= a + b < 2 ^ p.
Proof.
  intros Hp Ha Hb H. eapply Add_Ok_iff in H as (Hw & Hs & Hv & Hl); [|by apply wf_mkQuantity..|apply same_repr_mkQuantity].
  rewrite !value_mkQuantity in Hv, Hl. apply mkQuantity_unique in Hs; [|done]. rewrite Hv in Hs. split; [done|lia].
Qed.

Lemma mkQuantity_Add_fits p a b : 0 < p < two63 -> 0 <= a < 2 ^ p -> 0 <= b < 2 ^ p -> a + b < 2 ^ p ->
  Add (mkQuantity p a) (mkQuantity p b) = Ok (mkQuantity p (a + b)).
Proof.
  intros Hp Ha Hb Hl. pose proof (Add_cases p _ _ (wf_mkQuantity p a Hp Ha) (wf_mkQuantity p b Hp Hb) (same_repr_mkQuantity p a b)) as H.
  rewrite !value_mkQuantity in H. destruct (Z.ltb_spec (a + b) (2 ^ p)); [|lia]. destruct H as (c & H & _). rewrite H. by apply mkQuantity_Add in H as [-> _].
Qed.

Lemma mkQuantity_Add_no_panic p a b : 0 < p < two63 -> 0 <= a < 2 ^ p -> 0 <= b < 2 ^ p -> Add (mkQuantity p a) (mkQuantity p b) <> Panic.
Proof.
  intros Hp Ha Hb. pose proof (Add_cases p _ _ (wf_mkQuantity p a Hp Ha) (wf_mkQuantity p b Hp Hb) (same_repr_mkQuantity p a b)) as H.
  destruct (_ <? _); [destruct H as (c & -> & _)|destruct H as (e & ->)]; done.
Qed.

Lemma mkQuantity_Sub p a b : 0 < p < two63 -> 0 <= b <= a -> a < 2 ^ p -> Sub (mkQuantity p a) (mkQuantity p b) = Ok (mkQuantity p (a - b)).
Proof.
  intros Hp Hb Ha. destruct (Quantity_Sub_exact p (mkQuantity p a) (mkQuantity p b)) as [H _]; [apply wf_mkQuantity; lia..|apply same_repr_mkQuantity|].
  rewrite !value_mkQuantity in H. destruct H as (c & -> & Hw & Hs & Hv); [lia|]. apply mkQuantity_unique in Hs as ->; [|done]. by rewrite Hv.
Qed.

Lemma mkQuantity_Cmp p a b : 0 < p < two63 -> 0 <= a < 2 ^ p -> 0 <= b < 2 ^ p -> Cmp (mkQuantity p a) (mkQuantity p b) = Ok (Z.sgn (a - b)).
Proof. intros. rewrite (Cmp_sgn p p) by (by apply wf_mkQuantity). by rewrite !value_mkQuantity. Qed.

Lemma mkQuantity_big p a : ToBigInt (mkQuantity p a) = Ok a.
Proof. unfold mkQuantity. by destruct (_ =? 64). Qed.

(** ** The buffer of candidates *)

Section Buffer.
Context {W : Type} {SH : Sherd W} (precision : Z) (tuning : Tuning).
Abbreviation Sel := (Selector (W := W)).

(** The candidates that can still be handed out. *)
Definition stock (s : Sel) : list candidate :=
  sel_pending s ++ match sel_cache s with Some l => omap (fun r => match r with Ok t => Some t | _ => None end) l | None => [] end.

Definition is_open (s : Sel) : Prop := sel_cache s <> None.

Lemma call_Ok {A} (f : W -> A * W) s a s' : call f s = (Ok a, s') ->
  f (sel_world s) = (a, sel_world s') /\ sel_cache s' = sel_cache s /\ sel_pending s' = sel_pending s.
Proof. unfold call. destruct (f (sel_world s)) as [x w]. by intros [= <- <-]. Qed.

Lemma callR_Ok {A} (f : W -> res A * W) s a s' : callR f s = (Ok a, s') ->
  f (sel_world s) = (Ok a, sel_world s') /\ sel_cache s' = sel_cache s /\ sel_pending s' = sel_pending s.
Proof. unfold callR. destruct (f (sel_world s)) as [x w]. by intros [= <- <-]. Qed.

(** What one step of the selector does to the fields other than the world: it
    keeps them, or another goroutine has closed the selector. *)
Definition kept (s s' : Sel) : Prop :=
  (sel_cache s' = sel_cache s /\ sel_pending s' = sel_pending s) \/ (sel_cache s' = None /\ sel_pending s' = []).

Section Calm.
(** A relation between worlds that every call but a claim respects. *)
Context (calm : W -> W -> Prop) {PO : PreOrder calm}.
Hypothesis calm_rand : forall w x w', rand_draw w = (x, w') -> calm w w'.
Hypothesis calm_closed : forall w b w', closed_by_other w = (b, w') -> calm w w'.

Lemma mu_Lock_Ok s u s' : mu_Lock s = (Ok u, s') -> kept s s' /\ calm (sel_world s) (sel_world s').
Proof.
  unfold mu_Lock. intros (b & s1 & (Hc & E1 & E2)%call_Ok & H)%M_bind_Ok. apply calm_closed in Hc. destruct b.
  - unfold modifyS in H. injection H as _ <-. split; [by right|done].
  - apply M_ret_Ok in H as [_ ->]. split; [by left|done].
Qed.

Lemma dequeue_Ok s r s' : dequeue s = (Ok r, s') -> is_open s /\ is_open s' /\ calm (sel_world s) (sel_world s') /\
  match r with
  | Some t => stock s = t :: stock s' /\ (available s' < available s)%nat /\ sel_pending s' = tail (sel_pending s)
  | None => stock s = [] /\ stock s' = [] /\ available s' = 0%nat /\ sel_pending s' = []
  end.
Proof.
  unfold dequeue. intros ([] & s1 & [Hk Hc]%mu_Lock_Ok & H)%M_bind_Ok. apply M_bind_Ok in H as (s2 & s3 & [= <- <-] & H).
  destruct (sel_cache s1) as [cache|] eqn:Ec; [|done].
  destruct Hk as [[E1 E2]|[E1 _]]; [|congruence]. rewrite Ec in E1. unfold stock, available, is_open. rewrite <- E1, <- E2.
  destruct (sel_pending s1) as [|t pending] eqn:Ep.
  - destruct cache as [|x cache].
    + apply M_ret_Ok in H as [-> ->]. by rewrite Ec, Ep.
    + apply M_bind_Ok in H as ([] & s2 & Hput & H). unfold putS in Hput. injection Hput as <-.
      apply M_bind_Ok in H as (t & s2 & [-> ->]%lift_Ok & [-> ->]%M_ret_Ok). cbn. split_and!; try done. lia.
  - apply M_bind_Ok in H as ([] & s2 & Hput & [-> ->]%M_ret_Ok). unfold putS in Hput. injection Hput as <-. cbn. split_and!; try done. lia.
Qed.

(** A step that turns the candidates [l] into [l'] loses some only if the
    selector is closed, or if [black] excludes them. *)
Definition moves (black : ID -> bool) (l : list candidate) (s : Sel) (l' : list candidate) (s' : Sel) : Prop :=
  calm (sel_world s) (sel_world s') /\ (is_open s' -> is_open s) /\ (length l' + available s' <= length l + available s)%nat /\
  exists dropped, l ++ stock s ≡ₚ dropped ++ l' ++ stock s' /\ (is_open s' -> Forall (fun t => black (uw_Id t) = true) dropped).

Lemma carries_refl black l s : moves black l s l s.
Proof. split_and!; [done|done|lia|]. by exists []. Qed.

Lemma carries_trans black l1 s1 l2 s2 l3 s3 : moves black l1 s1 l2 s2 -> moves black l2 s2 l3 s3 -> moves black l1 s1 l3 s3.
Proof.
  intros (C1 & O1 & A1 & d1 & P1 & B1) (C2 & O2 & A2 & d2 & P2 & B2). split_and!; [by etrans|auto|lia|].
  exists (d1 ++ d2). split; [by rewrite P1, P2, app_assoc|]. intros Ho. apply Forall_app. auto.
Qed.

Lemma moves_app black l s l' s' k : moves black l s l' s' -> moves black (k ++ l) s (k ++ l') s'.
Proof.
  intros (C & O & A & d & P & B). split_and!; [done|done|rewrite !length_app; lia|]. exists d. split; [|done].
  rewrite <- !app_assoc, P, (app_assoc k d), (Permutation_app_comm k d). by rewrite <- !app_assoc.
Qed.

Lemma dequeue_moves black s r s' : dequeue s = (Ok r, s') -> moves black [] s (option_list r) s' /\
  match r with Some _ => sel_pending s' = tail (sel_pending s) | None => sel_pending s' = [] /\ stock s = [] end /\ is_open s'.
Proof.
  intros (O & O' & C & H)%dequeue_Ok. destruct r as [t|].
  - destruct H as (E & A & Et). split; [|done]. split_and!; [done|done|cbn; lia|]. exists []. split; [cbn; by rewrite E|by constructor].
  - destruct H as (E & E' & A & Et). split; [|done]. split_and!; [done|done|cbn; lia|]. exists []. split; [cbn; by rewrite E, E'|by constructor].
Qed.

Lemma requeue_moves black l s u s' : requeue l s = (Ok u, s') -> moves black l s [] s' /\
  (length (sel_pending s') <= length l + length (sel_pending s))%nat.
Proof.
  unfold requeue. destruct l as [|x l]; [intros [_ ->]%M_ret_Ok; split; [apply carries_refl|lia]|].
  intros ([] & s1 & [Hk Hc]%mu_Lock_Ok & H)%M_bind_Ok. unfold modifyS in H. injection H as _ <-.
  unfold moves, is_open, available, stock. cbn [sel_world sel_cache sel_pending]. destruct Hk as [[-> ->]|[-> ->]].
  - split; [|cbn; rewrite ?length_app; lia]. split_and!; [done|done|cbn; rewrite ?length_app; lia|]. exists []. split; [|constructor]. cbn [app]. by rewrite !app_assoc.
  - split; [|cbn; rewrite ?length_app; cbn; lia]. split_and!; [done|done|cbn; rewrite ?length_app; cbn; lia|]. exists (stock s). split; [|done].
    cbn [app]. rewrite !app_nil_r. apply (Permutation_app_comm (x :: l) (stock s)).
Qed.

Lemma grow_step black window s next s1 : dequeue s = (Ok (Some next), s1) ->
  moves black window s (window ++ [next]) s1 /\ (black (uw_Id next) = true -> moves black window s window s1).
Proof.
  intros Hd. pose proof (dequeue_moves black _ _ _ Hd) as [Hm _]. split.
  - apply (moves_app _ _ _ _ _ window) in Hm. by rewrite app_nil_r in Hm.
  - intros Hb. destruct Hm as (C & O & A & d & P & B). split_and!; [done|done|cbn in A; lia|]. exists (d ++ [next]). split.
    + cbn [app option_list] in P. rewrite P, (app_assoc window d), (Permutation_app_comm window d), <- !app_assoc. f_equiv.
      cbn [app]. by rewrite Permutation_middle.
    + intros Ho. apply Forall_app. split; [auto|by constructor].
Qed.

Definition worth (t : candidate) : option Z := parsed precision (uw_Quantity t).

Hypothesis precision_ok : 0 < precision < two63.

Lemma worth_Ok t q : ToQuantity (uw_Quantity t) precision = Ok q -> exists v, worth t = Some v /\ q = mkQuantity precision v /\ 0 <= v < 2 ^ precision.
Proof.
  intros H. pose proof (ToQuantity_parsed precision (uw_Quantity t) precision_ok) as Hp. unfold worth. destruct (parsed _ _) as [v|] eqn:E.
  - rewrite Hp in H. injection H as <-. exists v. split; [done|]. split; [done|]. by apply parsed_Some in E as [_ ?].
  - destruct Hp as [e Hp]. congruence.
Qed.

Lemma growSufficiency_Ok fuel : forall black threshold window s window' s',
  growSufficiency precision tuning fuel black threshold window s = (Ok window', s') ->
  moves black window s window' s' /\ (0 < SufficiencyWindow tuning ->
     Z.of_nat (length window' + length (sel_pending s')) <= Z.max (SufficiencyWindow tuning) (Z.of_nat (length window + length (sel_pending s)))) /\
  exists added, window' = window ++ added /\ Forall (fun t => exists v, worth t = Some v /\ v <= threshold) added.
Proof.
  induction fuel as [|fuel IH]; intros black threshold window s window' s'; cbn [growSufficiency]; destruct (Z.ltb_spec (zlen window) (SufficiencyWindow tuning)) as [Hlt|Hge]; cbn [negb]; try done.
  1,3: intros [-> ->]%M_ret_Ok; split; [apply carries_refl|]; split; [lia|exists []; by rewrite app_nil_r].
  intros (next & s1 & Hd & H)%M_bind_Ok. destruct next as [next|].
  2: { apply M_ret_Ok in H as [-> ->]. destruct (dequeue_moves black _ _ _ Hd) as (Hm & [E _] & _). split; [|split].
       - apply (moves_app _ _ _ _ _ window) in Hm. by rewrite !app_nil_r in Hm.
       - rewrite E. cbn. unfold zlen in Hlt. lia.
       - exists []. by rewrite app_nil_r. }
  destruct (dequeue_moves black _ _ _ Hd) as (_ & Et & Ho1). destruct (grow_step black window _ _ _ Hd) as [Hm Hmb].
  assert (Z.of_nat (length window + 1 + length (sel_pending s1)) <= Z.max (SufficiencyWindow tuning) (Z.of_nat (length window + length (sel_pending s)))) as Hb.
  { rewrite Et. unfold zlen in Hlt. destruct (sel_pending s); cbn; lia. }
  destruct (black (uw_Id next)) eqn:Hbl.
  - apply IH in H as (Hm' & Hb' & Ha). split; [by eapply carries_trans; [apply Hmb|]|]. split; [intros Hw; specialize (Hb' Hw); lia|done].
  - apply M_bind_Ok in H as (nq & s2 & [(v & Hv & -> & Hr)%worth_Ok ->]%wrapM_Ok%lift_Ok & H).
    apply M_bind_Ok in H as (v' & s2 & [Hv' ->]%lift_Ok & H). rewrite mkQuantity_big in Hv'. injection Hv' as <-.
    destruct (Z.gtb_spec v threshold) as [Hgt|Hle].
    + apply M_bind_Ok in H as ([] & s3 & [Hm2 Hl]%(requeue_moves black) & [-> ->]%M_ret_Ok). split; [|split].
      * eapply carries_trans; [exact Hm|]. apply (moves_app _ _ _ _ _ window) in Hm2. by rewrite app_nil_r in Hm2.
      * cbn in Hl. lia.
      * exists []. by rewrite app_nil_r.
    + apply IH in H as (Hm' & Hb' & added & -> & Ha). split; [by eapply carries_trans|]. split; [intros Hw; specialize (Hb' Hw); revert Hb'; rewrite !length_app; cbn [length]; lia|].
      exists (next :: added). split; [by rewrite <- app_assoc|]. constructor; [by exists v|done].
Qed.
Lemma take_drop_perm {A} (l : list A) i x : l !! i = Some x -> l ≡ₚ x :: take i l ++ drop (S i) l.
Proof. intros H. rewrite <- (take_drop_middle l i x H) at 1. symmetry. apply Permutation_middle. Qed.

(** The next candidate: one of the stock.  If the smallest candidate is enough
    on its own, so is the chosen one, or it is at most [MaxSufficiencyRatio]
    times that size. *)
Lemma nextCandidate_Ok remaining black s r s' : nextCandidate precision tuning remaining black s = (Ok r, s') ->
  is_open s /\ moves black [] s (option_list r) s' /\
  (0 < SufficiencyWindow tuning -> Z.of_nat (length (sel_pending s)) < SufficiencyWindow tuning -> Z.of_nat (length (sel_pending s')) < SufficiencyWindow tuning) /\
  match r with
  | None => stock s = [] /\ is_open s'
  | Some t => black (uw_Id t) = true \/ exists first rest v v1, stock s = first :: rest /\ worth first = Some v1 /\ worth t = Some v /\
      (t = first \/ v <= v1 * MaxSufficiencyRatio tuning)
  end.
Proof.
  unfold nextCandidate. intros (t & s1 & Hd & H)%M_bind_Ok. pose proof (dequeue_Ok _ _ _ Hd) as (Ho & Ho1 & _ & Hst).
  destruct (dequeue_moves black _ _ _ Hd) as (Hm & Ht & _). split; [done|]. destruct t as [t|].
  2: { apply M_ret_Ok in H as [-> ->]. destruct Ht as [Ep Es]. split; [done|]. split; [rewrite Ep; cbn; lia|done]. }
  assert (Z.of_nat (length (sel_pending s)) < SufficiencyWindow tuning -> Z.of_nat (length (sel_pending s1)) < SufficiencyWindow tuning /\
    (0 < SufficiencyWindow tuning -> Z.of_nat (1 + length (sel_pending s1)) <= SufficiencyWindow tuning)) as Hp.
  { rewrite Ht. destruct (sel_pending s); cbn; lia. }
  destruct (black (uw_Id t)) eqn:Hb.
  { apply M_ret_Ok in H as [-> ->]. split; [done|]. split; [tauto|by left]. }
  apply M_bind_Ok in H as (tq & s2 & [(v1 & Hv1 & -> & Hr1)%worth_Ok ->]%wrapM_Ok%lift_Ok & H).
  apply M_bind_Ok in H as (c & s2 & [Hc ->]%lift_Ok & H). destruct Hst as (Es & _ & _).
  destruct (c <? 0).
  { apply M_ret_Ok in H as [-> ->]. split; [done|]. split; [tauto|]. right. exists t, (stock s1), v1, v1. by repeat (split; [done|]); left. }
  apply M_bind_Ok in H as (v & s2 & [Hv ->]%lift_Ok & H). rewrite mkQuantity_big in Hv. injection Hv as <-.
  apply M_bind_Ok in H as (s2 & s3 & [= <- <-] & H). apply M_bind_Ok in H as (window & s2 & Hg & H).
  apply growSufficiency_Ok in Hg as (Hm2 & Hb2 & added & -> & Ha).
  apply M_bind_Ok in H as (idx & s3 & Hidx & H). apply M_bind_Ok in H as (chosen & s4 & [Hch ->]%lift_Ok & H).
  destruct (([t] ++ added) !! idx) as [c'|] eqn:Hl; [|done]. injection Hch as ->.
  apply M_bind_Ok in H as ([] & s4 & [Hm4 Hl4]%(requeue_moves black) & [-> ->]%M_ret_Ok).
  assert (Hq : calm (sel_world s2) (sel_world s3) /\ sel_cache s3 = sel_cache s2 /\ sel_pending s3 = sel_pending s2).
  { destruct (1 <? _)%nat; [|by apply M_ret_Ok in Hidx as [_ ->]]. unfold rand_IntN in Hidx.
    apply M_bind_Ok in Hidx as (x & s5 & (Hx & E1 & E2)%call_Ok & [_ ->]%M_ret_Ok). apply calm_rand in Hx. done. }
  destruct Hq as (Hcalm & Ec & Epd).
  assert (moves black ([t] ++ added) s2 ([chosen] ++ (take idx ([t] ++ added) ++ drop (S idx) ([t] ++ added))) s3) as Hm3.
  { pose proof (take_drop_perm _ _ _ Hl) as Hperm. unfold moves, is_open, available, stock. rewrite Ec, Epd. split_and!; [done|done| |].
    - apply Permutation_length in Hperm. rewrite Hperm. cbn [app]. lia.
    - exists []. split; [|constructor]. by rewrite Hperm at 1. }
  split.
  { eapply carries_trans; [exact Hm|]. eapply carries_trans; [exact Hm2|]. eapply carries_trans; [exact Hm3|]. apply (moves_app _ _ _ _ _ [chosen]) in Hm4. exact Hm4. }
  split.
  { intros Hw Hps. destruct (Hp Hps) as [_ Hp1]. specialize (Hp1 Hw). specialize (Hb2 Hw). rewrite Epd in Hl4.
    apply take_drop_perm, Permutation_length in Hl. rewrite Hl in Hb2. cbn [length] in Hb2, Hl4. revert Hb2 Hl4. generalize (length (take idx ([t] ++ added) ++ drop (S idx) ([t] ++ added))). cbn [length]. lia. }
  right. exists t, (stock s1). destruct idx as [|idx].
  - cbn in Hl. injection Hl as <-. exists v1, v1. by repeat (split; [done|]); left.
  - cbn in Hl. apply list_elem_of_lookup_2 in Hl. apply (proj1 (Forall_forall _ _) Ha) in Hl as (v & Hv2 & Hle). exists v, v1. by repeat (split; [done|]); right.
Qed.

Lemma growBatch_Ok fuel : forall black remaining windowSum window s window' s' r q,
  remaining = mkQuantity precision r -> 0 <= r < 2 ^ precision -> windowSum = mkQuantity precision q -> 0 <= q < 2 ^ precision ->
  growBatch precision tuning fuel black remaining windowSum window s = (Ok window', s') ->
  moves black window s window' s' /\ (length (sel_pending s') <= length (sel_pending s))%nat /\
  exists added, window' = window ++ added /\ Forall (fun t => black (uw_Id t) = false /\ is_Some (worth t)) added.
Proof.
  induction fuel as [|fuel IH]; intros black remaining windowSum window s window' s' r q Er Hr Eq Hq; cbn [growBatch].
  all: intros (c & s1 & [Hc ->]%lift_Ok & H)%M_bind_Ok; destruct (negb _) eqn:Hn; [apply M_ret_Ok in H as [-> ->]|]; try done.
  1,2: split; [apply carries_refl|]; split; [done|exists []; by rewrite app_nil_r].
  apply M_bind_Ok in H as (next & s1 & Hd%wrapM_Ok & H). destruct next as [next|].
  2: { apply M_ret_Ok in H as [-> ->]. destruct (dequeue_moves black _ _ _ Hd) as (Hm & [E _] & _). split; [|split].
       - apply (moves_app _ _ _ _ _ window) in Hm. by rewrite !app_nil_r in Hm.
       - rewrite E. cbn. lia.
       - exists []. by rewrite app_nil_r. }
  destruct (dequeue_moves black _ _ _ Hd) as (_ & Et & Ho1). destruct (grow_step black window _ _ _ Hd) as [Hm Hmb].
  assert (length (sel_pending s1) <= length (sel_pending s))%nat as Hl by (rewrite Et; destruct (sel_pending s); cbn; lia).
  destruct (black (uw_Id next)) eqn:Hbl.
  - eapply IH in H as (Hm' & Hl' & Ha); [|done..]. split; [by eapply carries_trans; [apply Hmb|]|]. split; [lia|done].
  - apply M_bind_Ok in H as (nq & s2 & [(v & Hv & -> & Hrv)%worth_Ok ->]%wrapM_Ok%lift_Ok & H).
    apply M_bind_Ok in H as (ws & s2 & [Ha ->]%wrapM_Ok%lift_Ok & H). subst windowSum. apply mkQuantity_Add in Ha as [-> Hsum]; [|done..].
    eapply IH in H as (Hm' & Hl' & added & -> & Hadd); [|done..]. split; [by eapply carries_trans|]. split; [lia|].
    exists (next :: added). split; [by rewrite <- app_assoc|]. constructor; [done|done].
Qed.
End Calm.
End Buffer.

(** The next candidate.  The candidates handed out, kept and (when excluded)
    dropped are exactly those there were, so the lookahead loses none; the
    lookahead buffer stays smaller than the sufficiency window; and a candidate
    that replaces the smallest one is at most [MaxSufficiencyRatio] times its
    size. *)
Theorem sherdlock_next_candidate {W} {SH : Sherd W} precision tuning remaining black s r s' : 0 < precision < two63 ->
  0 < SufficiencyWindow tuning -> zlen (sel_pending s) < SufficiencyWindow tuning ->
  nextCandidate precision tuning remaining black s = (Ok r, s') ->
  zlen (sel_pending s') < SufficiencyWindow tuning /\
  (exists dropped, stock s ≡ₚ dropped ++ option_list r ++ stock s' /\ (is_open s' -> Forall (fun t => black (uw_Id t) = true) dropped)) /\
  match r with
  | None => stock s = []
  | Some t => black (uw_Id t) = true \/ exists first rest v v1, stock s = first :: rest /\ worth precision first = Some v1 /\ worth precision t = Some v /\
      (t = first \/ v <= v1 * MaxSufficiencyRatio tuning)
  end.
Proof.
  intros Hp Hw Hl H. pose proof (Build_PreOrder (fun _ _ : W => True) ltac:(done) ltac:(done)) as PO.
  apply (nextCandidate_Ok precision tuning (fun _ _ => True) ltac:(done) ltac:(done) Hp) in H as (_ & (_ & _ & _ & Hd) & Hb & Hr). split; [by apply Hb|]. split; [done|].
  destruct r; [done|by destruct Hr].
Qed.

(** ** The locals of an attempt *)

Section Attempt.
Context {W : Type} {SH : Sherd W} (precision : Z) (tuning : Tuning).
Hypothesis precision_ok : 0 < precision < two63.
Abbreviation worth := (worth precision).

(** The value of tokens, with zero for one that does not parse. *)
Definition sum_of (l : list candidate) : Z := foldr (fun t n => default 0 (worth t) + n) 0 l.

Lemma sum_of_cons t l : sum_of (t :: l) = default 0 (worth t) + sum_of l.
Proof. done. Qed.

Lemma sum_of_app l k : sum_of (l ++ k) = sum_of l + sum_of k.
Proof. induction l as [|t l IH]; [done|]. rewrite <- app_comm_cons, !sum_of_cons, IH. lia. Qed.

Lemma sum_of_perm l k : l ≡ₚ k -> sum_of l = sum_of k.
Proof. induction 1; rewrite ?sum_of_cons; lia. Qed.

Lemma worth_range t v : worth t = Some v -> 0 <= v < 2 ^ precision.
Proof. intros H. by apply parsed_Some in H as [_ ?]. Qed.

Lemma sum_of_nonneg l : 0 <= sum_of l.
Proof. induction l as [|t l IH]; [done|]. rewrite sum_of_cons. destruct (worth t) as [v|] eqn:E; cbn; [apply worth_range in E|]; lia. Qed.

(** The sum is that of the selected tokens, all of which parse. *)
Definition sum_ok (a : attempt) : Prop :=
  at_sum a = mkQuantity precision (sum_of (at_selected a)) /\ sum_of (at_selected a) < 2 ^ precision /\ Forall (fun t => is_Some (worth t)) (at_selected a).

Lemma win_Ok a t a' : sum_ok a -> win precision a t = Ok a' -> sum_ok a' /\ at_selected a' = at_selected a ++ [t] /\ at_retries a' = 0 /\
  at_fetched a' = at_fetched a /\ at_blacklisted a' = at_blacklisted a /\ is_Some (worth t).
Proof.
  intros (Es & Hlt & Hw) H. unfold win in H. apply res_bind_Ok in H as (q & Hq%wrap_Ok & H). apply res_bind_Ok in H as (sum & Ha%wrap_Ok & [= <-]).
  apply (worth_Ok precision precision_ok) in Hq as (v & Hv & -> & Hr). rewrite Es in Ha. apply mkQuantity_Add in Ha as [-> Hs]; [|done|pose proof (sum_of_nonneg (at_selected a)); lia|done].
  cbn [at_selected at_retries at_fetched at_sum at_blacklisted]. split; [|done]. unfold sum_ok. cbn [at_selected at_sum]. assert (sum_of [t] = v) as Et by (rewrite sum_of_cons, Hv; cbn; lia).
  rewrite sum_of_app, Et. split; [done|]. split; [lia|]. apply Forall_app. split; [done|]. constructor; [by exists v|done].
Qed.

Definition wins (o : BatchLockOutcome) (l : list candidate) : list candidate := filter (fun t => uw_Id t ∈ Won o) l.

(** A fold over the verdicts of a batch. *)
Lemma verdicts_Ok o (f : attempt -> candidate -> res attempt) :
  (forall a t a', sum_ok a -> f a t = Ok a' -> sum_ok a' /\ at_fetched a' = at_fetched a /\
     (uw_Id t ∈ Won o -> at_selected a' = at_selected a ++ [t] /\ at_retries a' = 0) /\
     (uw_Id t ∉ Won o -> at_selected a' = at_selected a /\ at_retries a' = at_retries a)) ->
  forall l a a', sum_ok a -> foldR f a l = Ok a' -> sum_ok a' /\ at_fetched a' = at_fetched a /\ at_selected a' = at_selected a ++ wins o l /\
    (wins o l = [] -> at_retries a' = at_retries a) /\ (wins o l <> [] -> at_retries a' = 0).
Proof.
  intros Hf. induction l as [|t l IH]; intros a a' Hs H; cbn [foldR] in H.
  { injection H as <-. cbn. by rewrite app_nil_r. }
  apply res_bind_Ok in H as (a1 & H1 & H). destruct (Hf _ _ _ Hs H1) as (Hs1 & Ef & Hin & Hout). apply IH in H as (Hs2 & Ef2 & Esel & Hr & Hr2); [|done].
  split; [done|]. split; [congruence|]. unfold wins in *. rewrite filter_cons. destruct (decide (uw_Id t ∈ Won o)) as [Hi|Hn].
  - destruct (Hin Hi) as [E0 E1]. rewrite Esel, E0, <- app_assoc. split; [done|]. split; [done|]. intros _.
    destruct (filter _ l) as [|x k]; [rewrite Hr; done|by apply Hr2].
  - destruct (Hout Hn) as [E0 E1]. rewrite Esel, E0. rewrite E1 in Hr. done.
Qed.

Lemma classify_Ok o a t a' : sum_ok a -> classify precision o a t = Ok a' -> sum_ok a' /\ at_fetched a' = at_fetched a /\
  (uw_Id t ∈ Won o -> at_selected a' = at_selected a ++ [t] /\ at_retries a' = 0) /\ (uw_Id t ∉ Won o -> at_selected a' = at_selected a /\ at_retries a' = at_retries a).
Proof.
  intros Hs. unfold classify. case_bool_decide as Hi.
  - intros (Hs' & E1 & E2 & E3 & _)%win_Ok; [|exact Hs]. done.
  - destruct (bool_decide (uw_Id t ∈ Stale o)); intros [= <-]; done.
Qed.

Lemma harvest_Ok o a t a' : sum_ok a -> harvest precision o a t = Ok a' -> sum_ok a' /\ at_fetched a' = at_fetched a /\
  (uw_Id t ∈ Won o -> at_selected a' = at_selected a ++ [t] /\ at_retries a' = 0) /\ (uw_Id t ∉ Won o -> at_selected a' = at_selected a /\ at_retries a' = at_retries a).
Proof.
  intros Hs. unfold harvest. case_bool_decide as Hi.
  - intros (Hs' & E1 & E2 & E3 & _)%win_Ok; [|exact Hs]. done.
  - intros [= <-]. done.
Qed.

Lemma covered_Ok q a r : sum_ok a -> 0 <= q < 2 ^ precision -> covered (mkQuantity precision q) a = Ok r ->
  match r with
  | Some r => r = (Set_ToSlice (uw_Id <$> at_selected a), mkQuantity precision (sum_of (at_selected a)), at_retries a) /\ q <= sum_of (at_selected a)
  | None => sum_of (at_selected a) < q
  end.
Proof.
  intros (Es & Hlt & Hw) Hq. unfold covered. rewrite Es, mkQuantity_Cmp by (pose proof (sum_of_nonneg (at_selected a)); lia).
  cbn [mbind res_mbind]. intros [= <-]. destruct (Z.geb_spec (Z.sgn (sum_of (at_selected a) - q)) 0); [split; [done|]|]; lia.
Qed.
End Attempt.

(** ** The invariant of a selection *)

Section Safety.
Context {W : Type} {SH : Sherd W} (held : W -> ID -> Prop) {SL : SherdLaws W held}.
Context (precision : Z) (tuning : Tuning) (wallet typ : bytes).
Hypothesis precision_ok : 0 < precision < two63.

(** The candidates the selection may meet: those its source returns for the
    wallet and type, and those an earlier selection left. *)
Context (source : candidate -> Prop).
Definition fetched (it : iterator) : list candidate := omap (fun r => match r with Ok t => Some t | _ => None end) it.
Hypothesis fetch_ok : forall w it w', UnspentTokensIteratorBy wallet typ w = (Ok it, w') -> NoDup (uw_Id <$> fetched it) /\ Forall source (fetched it).

(** A store whose failed batches claim what they report. *)
Definition exact_store : Prop := forall f ids w o e w', TryLockBatch = Some f -> f ids wallet w = ((o, e), w') -> forall i, held w' i -> held w i \/ i ∈ Won o.

(** The locks held before the selection. *)
Context (before : ID -> Prop).

Definition calm (w w' : W) : Prop := forall i, held w' i <-> held w i.
#[local] Instance calm_po : PreOrder calm.
Proof. split; [done|]. intros w1 w2 w3 H1 H2 i. by rewrite (H2 i), (H1 i). Qed.

Record Inv (a : attempt) (s : Selector (W := W)) : Prop := {
  inv_sum : sum_ok precision a;
  inv_source : Forall source (at_selected a);
  inv_nodup : NoDup (uw_Id <$> at_selected a);
  inv_mine : forall t, t ∈ at_selected a -> held (sel_world s) (uw_Id t) /\ ~ before (uw_Id t);
  inv_old : forall i, before i -> held (sel_world s) i;
  inv_exact : exact_store -> forall i, held (sel_world s) i -> before i \/ i ∈ uw_Id <$> at_selected a;
  inv_stock : NoDup (uw_Id <$> stock s);
  inv_stock_source : Forall source (stock s);
}.

Lemma Inv_calm a a' s s' : at_sum a' = at_sum a -> at_selected a' = at_selected a -> calm (sel_world s) (sel_world s') ->
  NoDup (uw_Id <$> stock s') -> Forall source (stock s') -> Inv a s -> Inv a' s'.
Proof.
  intros E1 E2 Hc Hn Hs []. split; rewrite ?E2; try done.
  - unfold sum_ok. by rewrite E1, E2.
  - intros t Ht. rewrite (Hc _). auto.
  - intros i Hi. rewrite (Hc _). auto.
  - intros He i. rewrite (Hc _). auto.
Qed.

Lemma Inv_locals a a' s : Inv a s -> at_sum a' = at_sum a -> at_selected a' = at_selected a -> Inv a' s.
Proof. intros HI E1 E2. pose proof HI as []. by apply (Inv_calm a a' s s). Qed.

Lemma Inv_moves a black k s l s' : Inv a s -> NoDup (uw_Id <$> k ++ stock s) -> Forall source k -> moves calm black k s l s' ->
  Inv a s' /\ NoDup (uw_Id <$> l ++ stock s') /\ Forall source l.
Proof.
  intros HI Hn Hk (Hc & _ & _ & d & P & _). pose proof (inv_stock_source _ _ HI) as Hs. pose proof (proj2 (Forall_app _ _ _) (conj Hk Hs)) as Hks.
  rewrite P in Hn, Hks. rewrite fmap_app in Hn. apply NoDup_app in Hn as (_ & _ & Hn). apply Forall_app in Hks as [_ Hks]. apply Forall_app in Hks as [Hl Hs'].
  split; [|done]. eapply (Inv_calm a a s); try done. rewrite fmap_app in Hn. by apply NoDup_app in Hn as (_ & _ & ?).
Qed.

(** Claims: the wins join the selected tokens. *)
Lemma Inv_claim a a' s s' won : Inv a s -> sum_ok precision a' -> at_selected a' = at_selected a ++ won -> sel_cache s' = sel_cache s -> sel_pending s' = sel_pending s ->
  NoDup (uw_Id <$> won) -> Forall source won -> (forall t, t ∈ won -> ~ held (sel_world s) (uw_Id t)) ->
  (forall i, held (sel_world s) i \/ i ∈ uw_Id <$> won -> held (sel_world s') i) ->
  (exact_store -> forall i, held (sel_world s') i -> held (sel_world s) i \/ i ∈ uw_Id <$> won) -> Inv a' s'.
Proof.
  intros HI Hs E Ec Ep Hn Hsrc Hfree Hheld Hex. pose proof HI as []. split; rewrite ?E; unfold stock; rewrite ?Ec, ?Ep; try done.
  - by apply Forall_app.
  - rewrite fmap_app. apply NoDup_app. split_and!; [done| |done]. intros i (t & -> & Ht)%list_elem_of_fmap (t' & E' & Ht')%list_elem_of_fmap.
    destruct (inv_mine0 t Ht) as [Hh _]. rewrite E' in Hh. by apply (Hfree t').
  - intros t [Ht|Ht]%elem_of_app.
    + destruct (inv_mine0 t Ht) as [Hh Hb]. split; [by apply Hheld; left|done].
    + split; [apply Hheld; right; by apply list_elem_of_fmap_2|]. intros Hb. by apply (Hfree t Ht), inv_old0.
  - intros i Hi. apply Hheld. left. auto.
  - intros He i [Hi|Hi]%(Hex He); [destruct (inv_exact0 He i Hi) as [?|?]; [by left|right]|right]; rewrite fmap_app; apply elem_of_app; auto.
Qed.

Lemma refresh_Ok a s a' s' : Inv a s -> refresh tuning wallet typ a s = (Ok a', s') ->
  Inv a' s' /\ at_sum a' = at_sum a /\ at_selected a' = at_selected a /\ at_retries a' = at_retries a + 1 /\ at_retries a <= MaxImmediateRetries tuning /\ sel_pending s' = [].
Proof.
  intros HI. unfold refresh, refreshCandidates. intros (r & s1 & H & [-> ->]%M_ret_Ok)%M_bind_Ok. cbn [at_sum at_selected at_retries].
  destruct (Z.gtb_spec (at_retries a) (MaxImmediateRetries tuning)) as [|Hle]; [done|].
  apply M_bind_Ok in H as ([] & s2 & Hinv & H). apply M_bind_Ok in H as (it & s3 & (Hf & E1 & E2)%wrapM_Ok%callR_Ok & H).
  apply M_bind_Ok in H as ([] & s4 & Hsw & [-> ->]%M_ret_Ok). unfold swapCache in Hsw.
  apply M_bind_Ok in Hsw as ([] & s5 & [_ Hc5]%(mu_Lock_Ok calm closed_calm) & Hsw).
  apply M_bind_Ok in Hsw as (s6 & s7 & [= <- <-] & Hsw). destruct (sel_cache s5); [|done]. unfold putS in Hsw. injection Hsw as <-.
  assert (calm (sel_world s) (sel_world s2)) as Hc2.
  { destruct (at_fetched a); [|by apply M_ret_Ok in Hinv as [_ ->]]. unfold invalidateCandidateCache in Hinv. destruct InvalidateCache as [f|] eqn:Ei; [|by apply M_ret_Ok in Hinv as [_ ->]].
    unfold modifyS in Hinv. injection Hinv as <-. cbn. by intros i; apply invalidate_calm. }
  destruct (fetch_ok _ _ _ Hf) as [Hn Hs]. split; [|done]. eapply (Inv_calm a _ s); try done; cbn [stock sel_world sel_pending sel_cache app]; [|done..].
  etrans; [exact Hc2|]. etrans; [|exact Hc5]. intros i. by eapply fetch_calm.
Qed.
(** A finished selection. *)
Definition selected_by (q : Z) (r : selection) (s : Selector (W := W)) : Prop :=
  exists toks retries, r = (Set_ToSlice (uw_Id <$> toks), mkQuantity precision (sum_of precision toks), retries) /\ q <= sum_of precision toks < 2 ^ precision /\
    NoDup (uw_Id <$> toks) /\ Forall source toks /\ Forall (fun t => is_Some (worth precision t)) toks /\
    (forall t, t ∈ toks -> held (sel_world s) (uw_Id t) /\ ~ before (uw_Id t)) /\
    (exact_store -> forall i, held (sel_world s) i -> before i \/ i ∈ uw_Id <$> toks).

Definition goes_on (q : Z) (r : attempt + selection) (s : Selector (W := W)) : Prop :=
  match r with inl a => Inv a s /\ sum_of precision (at_selected a) <= q | inr r => selected_by q r s end.

Lemma covered_goes_on q a s r : Inv a s -> 0 <= q < 2 ^ precision -> covered (mkQuantity precision q) a = Ok r ->
  match r with Some r => selected_by q r s | None => sum_of precision (at_selected a) <= q end.
Proof.
  intros HI Hq H. pose proof HI as []. apply (covered_Ok precision precision_ok) in H; [|done..]. destruct r as [r|]; [|lia]. destruct H as [-> Hle].
  destruct inv_sum0 as (_ & Hlt & Hw). exists (at_selected a), (at_retries a). done.
Qed.

Lemma finish_Ok q a s r s' : Inv a s -> 0 <= q < 2 ^ precision -> finish (mkQuantity precision q) a s = (Ok r, s') -> goes_on q r s'.
Proof.
  intros HI Hq. unfold finish. intros (o & s1 & [Ho ->]%lift_Ok & [-> ->]%M_ret_Ok)%M_bind_Ok. apply (covered_goes_on _ _ s) in Ho; [|done..]. by destruct o.
Qed.

Lemma invalidate_Ok u s s' : invalidateCandidateCache s = (Ok u, s') -> calm (sel_world s) (sel_world s') /\ sel_cache s' = sel_cache s /\ sel_pending s' = sel_pending s.
Proof.
  unfold invalidateCandidateCache. destruct InvalidateCache as [f|] eqn:Ei; [|by intros [_ ->]%M_ret_Ok]. unfold modifyS. intros [= _ <-]. cbn.
  split; [|done]. intros i. by apply invalidate_calm.
Qed.

Lemma Inv_world a s s' : calm (sel_world s) (sel_world s') -> sel_cache s' = sel_cache s -> sel_pending s' = sel_pending s -> Inv a s -> Inv a s'.
Proof. intros Hc E1 E2 HI. eapply (Inv_calm a a s); [done|done|exact Hc| | |done]; unfold stock; rewrite E1, E2; by destruct HI. Qed.

Lemma singleClaim_Ok q a t s r s' : Inv a s -> source t -> 0 <= q < 2 ^ precision -> sum_of precision (at_selected a) <= q ->
  singleClaim precision (mkQuantity precision q) wallet a t s = (Ok r, s') -> goes_on q r s'.
Proof.
  intros HI Hsrc Hq Hle. unfold singleClaim. intros ([locked lockErr] & s1 & (Hl & E1 & E2)%call_Ok & H)%M_bind_Ok. destruct locked.
  - apply M_bind_Ok in H as (a1 & s2 & [Hw ->]%lift_Ok & H). apply (win_Ok precision precision_ok) in Hw as (Hs & Esel & _); [|by destruct HI].
    destruct (TryLock_won _ _ _ _ _ Hl) as [Hfree Hh]. eapply finish_Ok in H; [done| |done].
    eapply (Inv_claim a a1 s s1 [t]); try done.
    + apply NoDup_singleton.
    + by constructor.
    + intros t' ->%list_elem_of_singleton. exact Hfree.
    + intros i. rewrite Hh. cbn. set_solver.
    + intros _ i. rewrite Hh. cbn. set_solver.
  - assert (HI1 : Inv a s1). { eapply Inv_world; [|done|done|exact HI]. intros i. by eapply TryLock_lost. }
    destruct (is_err lockErr SelectorRateLimited); [by destruct lockErr|]. destruct (is_err lockErr ErrTokenNotSpendable).
    + apply M_bind_Ok in H as ([] & s2 & (Hc & E3 & E4)%invalidate_Ok & [-> ->]%M_ret_Ok). split; [|done]. pose proof (Inv_world a s1 s2 Hc E3 E4 HI1) as []. by split.
    + destruct (is_err lockErr ErrTokenAlreadyLocked); apply M_ret_Ok in H as [-> ->]; split; try done; destruct HI1; by split.
Qed.

Lemma wins_spec o l t : t ∈ wins o l <-> uw_Id t ∈ Won o /\ t ∈ l.
Proof. unfold wins. by rewrite list_elem_of_filter. Qed.

Lemma fmap_unique l t t' : NoDup (uw_Id <$> l) -> t ∈ l -> t' ∈ l -> uw_Id t = uw_Id t' -> t = t'.
Proof.
  induction l as [|x l IH]; [by intros _ ?%not_elem_of_nil|]. rewrite fmap_cons, NoDup_cons. intros [Hx Hn] [->|Ht]%elem_of_cons [->|Ht']%elem_of_cons E; auto.
  - destruct Hx. rewrite E. by apply list_elem_of_fmap_2.
  - destruct Hx. rewrite <- E. by apply list_elem_of_fmap_2.
Qed.

Lemma batchClaim_Ok f q r0 a t s r s' : TryLockBatch = Some f -> Inv a s -> NoDup (uw_Id <$> t :: stock s) -> source t -> 0 <= q < 2 ^ precision -> 0 <= r0 < 2 ^ precision ->
  sum_of precision (at_selected a) <= q ->
  batchClaim precision tuning f (mkQuantity precision q) (mkQuantity precision r0) wallet typ a t s = (Ok r, s') -> goes_on q r s'.
Proof.
  intros Hf HI Hn Hsrc Hq Hr Hle. unfold batchClaim. intros (ws & s1 & [(v & Hv & -> & Hrv)%(worth_Ok precision precision_ok) ->]%wrapM_Ok%lift_Ok & H)%M_bind_Ok.
  apply M_bind_Ok in H as (s1 & s2 & [= <- <-] & H). apply M_bind_Ok in H as (window & s1 & Hg & H).
  eapply (growBatch_Ok precision tuning calm closed_calm precision_ok) in Hg as (Hm & _); [|done..].
  destruct (Inv_moves a (blacklisted a) [t] s window s1 HI Hn (Forall_cons_2 _ _ _ Hsrc (Forall_nil_2 _)) Hm) as (HI1 & Hn1 & Hs1). rewrite fmap_app in Hn1. apply NoDup_app in Hn1 as (Hnw & _ & _).
  apply M_bind_Ok in H as ([o e] & s2 & (Hl & E1 & E2)%call_Ok & H).
  assert (Hw : NoDup (uw_Id <$> wins o window)). { eapply sublist_NoDup; [exact Hnw|]. apply fmap_sublist, sublist_filter. }
  assert (Hsw : Forall source (wins o window)). { apply Forall_forall. intros t' [_ Ht']%wins_spec. by apply (proj1 (Forall_forall _ _) Hs1). }
  assert (Hwon : forall i, i ∈ Won o <-> i ∈ uw_Id <$> wins o window).
  { intros i. rewrite list_elem_of_fmap. split.
    - intros Hi. destruct (TryLockBatch_won _ _ _ _ _ _ _ Hf Hl i Hi) as [(t' & -> & Ht')%list_elem_of_fmap _]. exists t'. by rewrite wins_spec.
    - intros (t' & -> & [? _]%wins_spec). done. }
  assert (Hclaim : forall a', sum_ok precision a' -> at_selected a' = at_selected a ++ wins o window -> Inv a' s2).
  { intros a' Hs Esel. eapply (Inv_claim a a' s1 s2); try done.
    - intros t' [Hi _]%wins_spec. by eapply (TryLockBatch_won _ _ _ _ _ _ _ Hf Hl).
    - intros i. rewrite <- Hwon. by eapply TryLockBatch_held.
    - intros He i. rewrite <- Hwon. by eapply He. }
  destruct e as [e|].
  - destruct (errors_Is e SelectorRateLimited); [done|]. apply M_bind_Ok in H as (a1 & s3 & [Hh ->]%lift_Ok & H).
    eapply (verdicts_Ok precision o) in Hh as (Hs & _ & Esel & _); [|intros a0 t0 a0'; by apply harvest_Ok|by destruct HI].
    specialize (Hclaim a1 Hs Esel). apply M_bind_Ok in H as (r1 & s3 & [Hcov ->]%lift_Ok & H). apply (covered_goes_on q a1 s2) in Hcov; [|done..].
    destruct r1 as [r1|]; [by apply M_ret_Ok in H as [-> ->]|]. apply M_bind_Ok in H as (a2 & s3 & Hr2 & [-> ->]%M_ret_Ok).
    eapply refresh_Ok in Hr2 as (HI2 & _ & Esel2 & _). { split; [done|]. rewrite Esel2. exact Hcov. } by destruct Hclaim; split.
  - apply M_bind_Ok in H as (a1 & s3 & [Hh ->]%lift_Ok & H).
    eapply (verdicts_Ok precision o) in Hh as (Hs & _ & Esel & _); [|intros a0 t0 a0'; by apply classify_Ok|by destruct HI].
    specialize (Hclaim a1 Hs Esel). apply M_bind_Ok in H as ([] & s3 & Hinv & H). eapply finish_Ok; [|exact Hq|exact H].
    destruct (existsb _ _); [|by apply M_ret_Ok in Hinv as [_ ->]]. apply invalidate_Ok in Hinv as (Hc & E3 & E4). by eapply Inv_world.
Qed.

Lemma exhausted_Ok q a s r s' : Inv a s -> sum_of precision (at_selected a) <= q ->
  exhausted tuning (mkQuantity precision q) wallet typ a s = (Ok r, s') -> goes_on q r s'.
Proof.
  intros HI Hle. unfold exhausted. intros ([] & s1 & Hc & H)%M_bind_Ok. apply M_bind_Ok in H as (a1 & s2 & Hr & [-> ->]%M_ret_Ok).
  assert (HI1 : Inv a s1).
  { destruct (at_lockedByOthers a); [by apply M_ret_Ok in Hc as [_ ->]|]. apply M_bind_Ok in Hc as (v & s3 & [_ ->]%lift_Ok & Hc).
    apply M_bind_Ok in Hc as (b & s3 & (Hb & E1 & E2)%wrapM_Ok%callR_Ok & Hc). destruct b; [|done]. apply M_ret_Ok in Hc as [_ ->].
    eapply Inv_world; [|done|done|exact HI]. intros i. by eapply balance_calm. }
  eapply refresh_Ok in Hr as (HI2 & _ & Esel & _); [|destruct HI1; by split]. cbn [at_selected] in Esel.
  split; [destruct HI2; by split|]. cbn [at_selected]. by rewrite Esel.
Qed.

Lemma iteration_Ok q a s r s' : Inv a s -> 0 <= q < 2 ^ precision -> sum_of precision (at_selected a) <= q ->
  iteration precision tuning (mkQuantity precision q) wallet typ a s = (Ok r, s') -> goes_on q r s'.
Proof.
  intros HI Hq Hle. pose proof (sum_of_nonneg precision precision_ok (at_selected a)) as Hnn. unfold iteration. destruct (inv_sum _ _ HI) as (Es & _ & _).
  rewrite Es, mkQuantity_Sub by (done || lia). intros (rem & s1 & [[= <-] ->]%wrapM_Ok%lift_Ok & H)%M_bind_Ok.
  apply M_bind_Ok in H as (t & s1 & Hn%wrapM_Ok & H). apply (nextCandidate_Ok precision tuning calm rand_calm closed_calm precision_ok) in Hn as (Ho & Hm & _ & Ht).
  destruct (Inv_moves a _ [] _ _ _ HI (inv_stock _ _ HI) ltac:(constructor) Hm) as (HI1 & Hn1 & Hs1).
  destruct t as [t|]; [|by eapply exhausted_Ok]. cbn [option_list] in *. apply Forall_cons in Hs1 as [Hsrc _].
  destruct (blacklisted a (uw_Id t)); [apply M_ret_Ok in H as [-> ->]; split; [by apply (Inv_locals a)|done]|].
  destruct TryLockBatch as [f|] eqn:Hf; [|by eapply singleClaim_Ok].
  eapply (batchClaim_Ok f q (q - sum_of precision (at_selected a)) a t s1); try done; lia.
Qed.

Lemma selectLoop_Ok fuel q : forall a s r s', Inv a s -> 0 <= q < 2 ^ precision -> sum_of precision (at_selected a) <= q ->
  selectLoop precision tuning fuel (mkQuantity precision q) wallet typ a s = (Ok (Some r), s') -> selected_by q r s'.
Proof.
  induction fuel as [|fuel IH]; intros a s r s' HI Hq Hle; [done|]. cbn [selectLoop]. intros (x & s1 & Hi & H)%M_bind_Ok.
  eapply iteration_Ok in Hi; [|done..]. destruct x as [a1|x]; [destruct Hi; by eapply IH|]. apply M_ret_Ok in H as [[= ->] ->]. exact Hi.
Qed.
End Safety.

Section Select.
Context {W : Type} {SH : Sherd W} (held : W -> ID -> Prop) {SL : SherdLaws W held}.
Context (precision : Z) (tuning : Tuning) (wallet typ : bytes).
Hypothesis precision_ok : 0 < precision < two63.

(** What the candidate source can return for the wallet and type, and what an
    earlier selection has left in the selector's iterator. *)
Definition offers (t : candidate) : Prop := exists w it w', UnspentTokensIteratorBy wallet typ w = (Ok it, w') /\ t ∈ fetched it.
Definition lists_once : Prop := forall w it w', UnspentTokensIteratorBy wallet typ w = (Ok it, w') -> NoDup (uw_Id <$> fetched it).
Definition leftover (s : Selector (W := W)) : list candidate := match sel_cache s with Some it => fetched it | None => [] end.

(** A selection starts with the candidates left in the iterator. *)
Lemma selectInternal_Ok fuel q s r s' : selectInternal precision tuning fuel wallet q typ s = (Ok r, s') ->
  exists n s1, parsed precision q = Some n /\ 0 <= n < 2 ^ precision /\ (forall i, held (sel_world s1) i <-> held (sel_world s) i) /\
    (sel_cache s1 = sel_cache s \/ sel_cache s1 = None) /\ sel_pending s1 = [] /\
    selectLoop precision tuning fuel (mkQuantity precision n) wallet typ (first_attempt precision) s1 = (Ok r, s').
Proof.
  unfold selectInternal, isClosed, dropPending. intros (c & s1 & Hc & H)%M_bind_Ok. apply M_bind_Ok in Hc as ([] & s2 & [Hk1 Hc1]%(mu_Lock_Ok (calm held) closed_calm) & Hc).
  apply M_bind_Ok in Hc as (s3 & s4 & [= <- <-] & [-> ->]%M_ret_Ok). destruct (sel_cache s2) eqn:E2; [|done].
  apply M_bind_Ok in H as (n & s1 & [Hn ->]%wrapM_Ok%lift_Ok & H). pose proof (ToQuantity_parsed precision q precision_ok) as Hp.
  destruct (parsed precision q) as [v|] eqn:Ev; [|destruct Hp; congruence]. rewrite Hp in Hn. injection Hn as <-.
  apply M_bind_Ok in H as ([] & s1 & Hd & H). apply M_bind_Ok in Hd as ([] & s3 & [Hk3 Hc3]%(mu_Lock_Ok (calm held) closed_calm) & Hd).
  unfold modifyS in Hd. injection Hd as <-. exists v. eexists. split; [done|]. split; [by apply parsed_Some in Ev as [_ ?]|]. split; [|split; [|split; [|exact H]]]; cbn.
  - intros i. by rewrite (Hc3 i), (Hc1 i).
  - destruct Hk3 as [[-> _]|[-> _]]; [|by right]. destruct Hk1 as [[<- _]|[E _]]; [left; by rewrite E2|congruence].
  - done.
Qed.

Lemma first_Inv (source : candidate -> Prop) s : NoDup (uw_Id <$> leftover s) -> Forall source (leftover s) -> sel_pending s = [] ->
  Inv held precision wallet source (fun i => held (sel_world s) i) (first_attempt precision) s.
Proof.
  intros Hn Hr Hp. unfold leftover in Hn, Hr. unfold first_attempt.
  assert (NoDup (uw_Id <$> stock s) /\ Forall source (stock s)) as [H1 H2].
  { unfold stock. rewrite Hp. by destruct (sel_cache s). }
  split; cbn [at_selected at_sum]; try done; try (by constructor).
  all: try (intros t Ht; by apply not_elem_of_nil in Ht).
  all: try (intros _ i Hi; by left).
  split; [by apply NewZeroQuantity_mk|]. split; [cbn; lia|constructor].
Qed.

(** C27: a successful selection covers the request exactly as it reports.  The
    ids are those of distinct tokens, each of which the candidate source returns
    for the wallet and type, or an earlier selection of the same selector has left
    in its iterator; the sum is theirs and at least what was asked for; every lock
    is one this selection obtained, and, when failing batches report what they
    claimed, no other lock is left.  So the tokens are of the wallet and type if
    the source returns no others and the selector is new or was used for them
    only.  It is assumed that neither the source nor the left-over iterator lists
    a token twice. *)
Theorem sherdlock_select_safe fuel q s ids sum retries s' :
  lists_once -> NoDup (uw_Id <$> leftover s) ->
  Selector_Select precision tuning fuel wallet q typ s = (Ok (Some (ids, sum, retries)), s') ->
  exists requested toks, parsed precision q = Some requested /\ ids ≡ₚ uw_Id <$> toks /\ NoDup ids /\
    Forall (fun t => offers t \/ t ∈ leftover s) toks /\
    sum = mkQuantity precision (sum_of precision toks) /\ requested <= sum_of precision toks /\
    (forall i, i ∈ ids -> held (sel_world s') i /\ ~ held (sel_world s) i) /\
    (exact_store held wallet -> forall i, held (sel_world s') i -> held (sel_world s) i \/ i ∈ ids).
Proof.
  intros Hsrc Hr. unfold Selector_Select, selectWithoutMetrics. destruct (selectInternal _ _ _ _ _ _ _) as [[x|e|] s1] eqn:H; [|destruct (call _ _)|]; try done.
  intros [= -> ->]. apply selectInternal_Ok in H as (n & s1 & Hn & Hq & Hw & Hc & Hp & H). set (met := fun t => offers t \/ t ∈ leftover s).
  assert (NoDup (uw_Id <$> leftover s1) /\ Forall met (leftover s1)) as [Hr1 Hm1].
  { unfold leftover at 1 2. destruct Hc as [-> | ->]; [|by split; constructor]. split; [exact Hr|]. apply Forall_forall. intros t Ht. by right. }
  eapply (selectLoop_Ok held precision tuning wallet typ precision_ok met) with (before := fun i => held (sel_world s1) i) in H; [| |by apply first_Inv|done|cbn; lia].
  2: { intros w it w' Hf. split; [by eapply Hsrc|]. apply Forall_forall. intros t Ht. left. by exists w, it, w'. }
  destruct H as (toks & ret & [= -> -> ->] & [Hle _] & Hnd & Hs & _ & Hm & Hex). pose proof (ToSlice_perm (uw_Id <$> toks)) as Hperm. exists n, toks.
  split; [done|]. split; [done|]. split; [by rewrite Hperm|]. split; [done|]. split; [done|]. split; [done|]. split.
  - intros i. rewrite Hperm. intros (t & -> & Ht)%list_elem_of_fmap. rewrite <- Hw. auto.
  - intros He i Hi. rewrite Hperm, <- Hw. auto.
Qed.

(** A failed attempt ends with [UnlockAll]. *)
Lemma failed_attempt_unlocked fuel q s e s' : (forall w, (locker_UnlockAll w).1 = None) ->
  selectWithoutMetrics precision tuning fuel wallet q typ s = (Err e, s') -> forall i, ~ held (sel_world s') i.
Proof.
  intros Hu. unfold selectWithoutMetrics. destruct (selectInternal _ _ _ _ _ _ _) as [[x|e1|] s1]; try done. unfold call.
  specialize (Hu (sel_world s1)). destruct (locker_UnlockAll (sel_world s1)) as [o w] eqn:E. cbn in Hu. subst o. intros [= _ <-]. by eapply UnlockAll_releases.
Qed.

(** A selection that fails, with its retries and backoffs, leaves no lock
    behind when the lock store can release: not those of its own attempts and
    not those of earlier selections of the transaction. *)
Theorem stubborn_failure_releases backoff maxRetriesAfterBackoff fuel q s e s' :
  (forall w, (locker_UnlockAll w).1 = None) -> (forall w b w', backoff w = (b, w') -> forall i, held w' i <-> held w i) ->
  0 <= maxRetriesAfterBackoff ->
  Stubborn_Select precision tuning backoff maxRetriesAfterBackoff fuel wallet q typ s = (Err e, s') -> forall i, ~ held (sel_world s') i.
Proof.
  intros Hu Hb Hmax. unfold Stubborn_Select. assert (Z.to_nat (maxRetriesAfterBackoff + 1) <> O) as Hn by lia. revert Hn. generalize (Z.to_nat (maxRetriesAfterBackoff + 1)) as n.
  assert (forall n s, (n = O -> forall i, ~ held (sel_world s) i) -> StubbornSelect precision tuning backoff n fuel wallet q typ s = (Err e, s') -> forall i, ~ held (sel_world s') i) as H.
  2: { intros n Hn. by apply H. }
  clear s. intros n. induction n as [|n IH]; intros s H0; cbn [StubbornSelect]; [intros [= _ <-]; auto|].
  destruct (selectWithoutMetrics _ _ _ _ _ _ _) as [[x|e1|] s1] eqn:Hs; try done. pose proof (failed_attempt_unlocked _ _ _ _ _ Hu Hs) as Hfree.
  destruct (errors_Is e1 _); [|by intros [= _ <-]]. unfold mbind, M_mbind, call. destruct (backoff (sel_world s1)) as [c w] eqn:Eb. pose proof (Hb _ _ _ Eb) as Hw. destruct c.
  - cbn [sel_world]. specialize (Hu w). destruct (locker_UnlockAll w) as [o w2] eqn:E. cbn in Hu. subst o. intros [= _ <-]. by eapply UnlockAll_releases.
  - apply IH. intros _ i. cbn [sel_world]. rewrite (Hw i). apply Hfree.
Qed.
End Select.
