(* ===== verification/SherdlockTotal.v ===== *)
(** * A sherdlock selection ends, and serves a wallet that can pay

    [wp E m s Q]: [m] does not panic, a result satisfies [Q], and an error is
    possible only if [E].  With [E] true this is the absence of panics, the
    model's fuel included; with [E] false it is success. *)

From S2P Require Import Prelude Quantity TokenTypes Sherdlock SherdlockSafety.
From Stdlib Require Import ZArith Lia.
Local Open Scope Z_scope.

(** ** Runs without panics *)

Section Wp.
Context {S : Type} (E : Prop).

Definition wp {A} (m : M S A) (s : S) (Q : A -> S -> Prop) : Prop :=
  match m s with (Ok a, s') => Q a s' | (Err _, _) => E | (Panic, _) => False end.

Lemma wp_bind {A B} (m : M S A) (f : A -> M S B) s Q : wp m s (fun a s' => wp (f a) s' Q) -> wp (m ≫= f) s Q.
Proof. unfold wp, mbind, M_mbind. by destruct (m s) as [[] ?]. Qed.

Lemma wp_ret {A} (a : A) s (Q : A -> S -> Prop) : Q a s -> wp (mret a) s Q.
Proof. done. Qed.

Lemma wp_lift {A} (r : res A) s (Q : A -> S -> Prop) : match r with Ok a => Q a s | Err _ => E | Panic => False end -> wp (lift r) s Q.
Proof. by destruct r. Qed.

Lemma wp_wrapM {A} msg (m : M S A) s Q : wp m s Q -> wp (wrapM msg m) s Q.
Proof. unfold wp, wrapM. by destruct (m s) as [[] ?]. Qed.

Lemma wp_mono {A} (m : M S A) s (Q R : A -> S -> Prop) : wp m s Q -> (forall a s', m s = (Ok a, s') -> Q a s' -> R a s') -> wp m s R.
Proof. unfold wp. destruct (m s) as [[] ?] eqn:H; naive_solver. Qed.

Lemma wp_getS s (Q : S -> S -> Prop) : Q s s -> wp getS s Q.
Proof. done. Qed.
End Wp.

(** Runs a bind through the specification of its first computation. *)
Ltac wp_step H := apply wp_bind; eapply wp_mono; [first [exact H | apply wp_wrapM; exact H | eapply H | apply wp_wrapM; eapply H]|].

#[local] Instance trivial_po {W} : PreOrder (fun _ _ : W => True).
Proof. by split. Qed.

Section Total.
Context {W : Type} {SH : Sherd W} (precision : Z) (tuning : Tuning) (E : Prop).
Hypothesis precision_ok : 0 < precision < two63.
Hypothesis open_world : forall w, (closed_by_other w).1 = true -> E.
Abbreviation Sel := (Selector (W := W)).
Abbreviation worth := (worth precision).

(** Candidates of positive worth, and iterators that fail only if [E]. *)
Definition token_ok (t : candidate) : Prop := match worth t with Some v => 0 < v | None => E end.
Definition item_ok (r : res candidate) : Prop := match r with Ok t => token_ok t | Err _ => E | Panic => False end.
Definition sound (s : Sel) : Prop := Forall token_ok (sel_pending s) /\ match sel_cache s with Some it => Forall item_ok it | None => E end.

Abbreviation trivial_calm := (fun _ _ : W => True).
Lemma mu_Lock_wp s : sound s -> wp E mu_Lock s (fun _ s' => sound s').
Proof.
  intros [Hp Hc]. unfold mu_Lock, call. apply wp_bind. unfold wp at 1. pose proof (open_world (sel_world s)) as Ho.
  destruct (closed_by_other (sel_world s)) as [[] w]; cbn in *; [|done]. split; cbn; [constructor|auto].
Qed.

Lemma dequeue_wp s : sound s -> wp E dequeue s (fun r s' => sound s' /\ Forall token_ok (option_list r) /\ (r <> None -> (available s' < available s)%nat)).
Proof.
  intros Hs. eapply wp_mono with (Q := fun r s' => sound s' /\ Forall token_ok (option_list r)).
  2: { intros r s' Hd [H1 H2]. split; [done|]. split; [done|]. apply (dequeue_Ok trivial_calm ltac:(done)) in Hd as (_ & _ & _ & Hd). destruct r; [|done]. intros _. by destruct Hd as (_ & ? & _). }
  unfold dequeue. wp_step (mu_Lock_wp s Hs). intros [] s1 _ Hs1. apply wp_bind, wp_getS. pose proof Hs1 as [Hp Hc]. destruct (sel_cache s1) as [it|]; [|by apply wp_lift].
  destruct (sel_pending s1) as [|t pend].
  - destruct it as [|r it]; [by apply wp_ret|]. apply Forall_cons in Hc as [Hr Hc]. apply wp_bind. unfold wp at 1, putS. apply wp_bind, wp_lift.
    destruct r as [t|e|]; [|done..]. apply wp_ret. split; [done|]. by constructor.
  - apply Forall_cons in Hp as [Ht Hp]. apply wp_bind. unfold wp at 1, putS. apply wp_ret. split; [done|]. by constructor.
Qed.

Lemma requeue_wp l s : sound s -> Forall token_ok l -> wp E (requeue l) s (fun _ s' => sound s').
Proof.
  intros Hs Hl. unfold requeue. destruct l as [|t l]; [done|]. wp_step (mu_Lock_wp s Hs). intros [] s1 _ [Hp Hc]. split; [|done]. by apply (Forall_app _ (t :: l)).
Qed.

Lemma ToQuantity_wp t s (Q : Quantity -> Sel -> Prop) : token_ok t -> (forall v, worth t = Some v -> 0 < v < 2 ^ precision -> Q (mkQuantity precision v) s) ->
  wp E (wrapM "invalid token found" (lift (ToQuantity (uw_Quantity t) precision))) s Q.
Proof.
  intros Ht HQ. apply wp_wrapM, wp_lift. pose proof (ToQuantity_parsed precision (uw_Quantity t) precision_ok) as Hp. unfold token_ok in Ht.
  change (parsed precision (uw_Quantity t)) with (worth t) in Hp. destruct (worth t) as [v|] eqn:Ev; [|by destruct Hp as [e ->]].
  rewrite Hp. apply HQ; [done|]. pose proof (worth_range precision t v Ev). lia.
Qed.

Lemma growSufficiency_wp fuel : forall black threshold window s, (available s < fuel)%nat -> sound s -> Forall token_ok window ->
  wp E (growSufficiency precision tuning fuel black threshold window) s (fun window s' => sound s' /\ Forall token_ok window).
Proof.
  induction fuel as [|fuel IH]; intros black threshold window s Hf Hs Hw; cbn [growSufficiency]; [lia|]. destruct (negb _); [done|].
  wp_step (dequeue_wp s Hs). intros next s1 _ (Hs1 & Hn & Ha). destruct next as [next|]; [|done]. cbn [option_list] in Hn. apply Forall_cons in Hn as [Hn _].
  specialize (Ha ltac:(done)). destruct (black (uw_Id next)); [apply IH; [lia|done..]|].
  apply wp_bind, ToQuantity_wp; [done|]. intros v Hv Hr. apply wp_bind, wp_lift. rewrite mkQuantity_big.
  assert (Hw' : Forall token_ok [next]) by (by constructor). destruct (v >? threshold).
  - wp_step (requeue_wp [next] s1 Hs1 Hw'). intros [] s2 _ Hs2. done.
  - apply IH; [lia|done|]. by apply Forall_app.
Qed.

Lemma nextCandidate_wp n black s : 0 <= n < 2 ^ precision -> sound s ->
  wp E (nextCandidate precision tuning (mkQuantity precision n) black) s (fun r s' => sound s' /\ Forall token_ok (option_list r)).
Proof.
  intros Hn Hs. unfold nextCandidate. wp_step (dequeue_wp s Hs). intros t s1 _ (Hs1 & Ht & _). destruct t as [t|]; [|done]. cbn [option_list] in Ht. pose proof Ht as Hl. apply Forall_cons in Ht as [Ht _].
  destruct (black (uw_Id t)); [done|]. apply wp_bind, ToQuantity_wp; [done|]. intros v Hv Hr. apply wp_bind, wp_lift. rewrite mkQuantity_Cmp by (done || lia).
  destruct (_ <? 0); [done|]. apply wp_bind, wp_lift. rewrite mkQuantity_big. apply wp_bind, wp_getS.
  wp_step (growSufficiency_wp (Datatypes.S (available s1)) black (v * MaxSufficiencyRatio tuning) [t] s1 ltac:(lia) Hs1 Hl).
  intros window s2 Hg (Hs2 & Hw2). apply (growSufficiency_Ok precision tuning trivial_calm ltac:(done) precision_ok) in Hg as (_ & _ & added & -> & _).
  apply wp_bind. eapply wp_mono with (Q := fun idx s3 => (idx < length ([t] ++ added))%nat /\ sound s3).
  - destruct (Nat.ltb_spec 1 (length ([t] ++ added))); [|apply wp_ret; split; [cbn; lia|done]]. unfold rand_IntN, call. apply wp_bind. unfold wp at 1.
    destruct (rand_draw (sel_world s2)) as [x w]. apply wp_ret. split; [|exact Hs2]. pose proof (Z.mod_pos_bound x (Z.of_nat (length ([t] ++ added)))). lia.
  - intros idx s3 _ [Hi Hs3]. apply wp_bind, wp_lift. destruct (lookup_lt_is_Some_2 _ _ Hi) as [c Hc]. rewrite Hc.
    pose proof (take_drop_perm _ _ _ Hc) as Hperm. rewrite Hperm in Hw2. apply Forall_cons in Hw2 as [Hcok Hrest].
    wp_step (requeue_wp _ s3 Hs3 Hrest). intros [] s4 _ Hs4. apply wp_ret. split; [done|]. by constructor.
Qed.

Lemma growBatch_wp fuel n : forall black window s, 0 <= n < 2 ^ precision -> (available s < fuel)%nat -> sound s -> Forall token_ok window ->
  sum_of precision window < 2 ^ precision -> E \/ sum_of precision window + sum_of precision (stock s) < 2 ^ precision ->
  wp E (growBatch precision tuning fuel black (mkQuantity precision n) (mkQuantity precision (sum_of precision window)) window) s (fun window s' => sound s' /\ Forall token_ok window).
Proof.
  induction fuel as [|fuel IH]; intros black window s Hn Hf Hs Hw Hlt Hfit; [lia|]. cbn [growBatch]. pose proof (sum_of_nonneg precision precision_ok window) as Hnn.
  apply wp_bind, wp_lift. rewrite mkQuantity_Cmp by (done || lia). destruct (negb _); [done|].
  wp_step (dequeue_wp s Hs). intros next s1 Hd (Hs1 & Hnx & Ha). destruct next as [next|]; [|done]. cbn [option_list] in Hnx. apply Forall_cons in Hnx as [Hnx _].
  specialize (Ha ltac:(done)). apply wrapM_Ok, (dequeue_Ok trivial_calm ltac:(done)) in Hd as (_ & _ & _ & Hst & _). rewrite Hst, sum_of_cons in Hfit.
  pose proof (sum_of_nonneg precision precision_ok (stock s1)) as Hnn1.
  destruct (black (uw_Id next)).
  { apply IH; try done; [lia|]. destruct Hfit as [?|Hfit]; [by left|right]. pose proof (sum_of_nonneg precision precision_ok [next]) as Hx. rewrite sum_of_cons in Hx. cbn [sum_of foldr] in Hx. lia. }
  apply wp_bind, ToQuantity_wp; [done|]. intros v Hv Hr. rewrite Hv in Hfit. cbn [default from_option id] in Hfit. apply wp_bind, wp_wrapM, wp_lift.
  assert (sum_of precision (window ++ [next]) = sum_of precision window + v) as Es by (rewrite sum_of_app, sum_of_cons, Hv; cbn; lia).
  pose proof (mkQuantity_Add_no_panic precision (sum_of precision window) v precision_ok ltac:(lia) ltac:(lia)) as Hnp.
  destruct (Add _ _) as [q|e|] eqn:HA; [|destruct Hfit as [?|?]; [done|rewrite mkQuantity_Add_fits in HA; [done|lia..]]|done].
  apply mkQuantity_Add in HA as [-> Hs']; [|done|lia|lia]. rewrite <- Es. apply IH; try done; [lia|apply Forall_app; split; [done|by constructor]|lia|].
  destruct Hfit as [?|?]; [by left|right; lia].
Qed.

(** *** Claims *)

Definition total {A} (r : res A) : Prop := match r with Ok _ => True | Err _ => E | Panic => False end.

Lemma win_total a t : sum_ok precision a -> token_ok t -> E \/ sum_of precision (at_selected a) + sum_of precision [t] < 2 ^ precision -> total (win precision a t).
Proof.
  intros (Es & Hlt & _) Ht Hfit. pose proof (sum_of_nonneg precision precision_ok (at_selected a)) as Hnn. unfold win. pose proof (ToQuantity_parsed precision (uw_Quantity t) precision_ok) as Hp.
  rewrite sum_of_cons in Hfit. cbn [sum_of foldr] in Hfit. unfold token_ok in Ht. change (parsed precision (uw_Quantity t)) with (worth t) in Hp.
  destruct (worth t) as [v|] eqn:Ev; [|by destruct Hp as [e ->]]. rewrite Hp. cbn [wrap mbind res_mbind]. rewrite Es. cbn [default from_option id] in Hfit. pose proof (worth_range precision t v Ev) as Hr.
  pose proof (mkQuantity_Add_no_panic precision (sum_of precision (at_selected a)) v precision_ok ltac:(lia) ltac:(lia)) as Hnp.
  destruct Hfit as [He|Hfit]; [destruct (Add _ _); cbn; done|]. by rewrite mkQuantity_Add_fits by (done || lia).
Qed.

(** A fold of verdicts none of which fails. *)
Lemma verdicts_total o (f : attempt -> candidate -> res attempt) :
  (forall a t a', sum_ok precision a -> f a t = Ok a' -> sum_ok precision a' /\ at_fetched a' = at_fetched a /\
     (uw_Id t ∈ Won o -> at_selected a' = at_selected a ++ [t] /\ at_retries a' = 0) /\
     (uw_Id t ∉ Won o -> at_selected a' = at_selected a /\ at_retries a' = at_retries a)) ->
  (forall a t, sum_ok precision a -> token_ok t -> E \/ sum_of precision (at_selected a) + sum_of precision [t] < 2 ^ precision -> total (f a t)) ->
  forall l a, sum_ok precision a -> Forall token_ok l -> E \/ sum_of precision (at_selected a) + sum_of precision l < 2 ^ precision -> total (foldR f a l).
Proof.
  intros Hok Hf. induction l as [|t l IH]; intros a Hs Hl Hfit; [done|]. apply Forall_cons in Hl as [Ht Hl]. cbn [foldR].
  pose proof (sum_of_nonneg precision precision_ok l) as Hnn. pose proof (sum_of_nonneg precision precision_ok [t]) as Hnt. change (t :: l) with ([t] ++ l) in Hfit. rewrite sum_of_app in Hfit.
  specialize (Hf a t Hs Ht). destruct (f a t) as [a1|e|] eqn:Ef; cbn [mbind res_mbind]; [|apply Hf; destruct Hfit; [by left|right; lia]..].
  destruct (Hok _ _ _ Hs Ef) as (Hs1 & _ & Hin & Hout). apply IH; [done..|]. destruct Hfit as [?|Hfit]; [by left|right].
  destruct (decide (uw_Id t ∈ Won o)) as [Hi|Hi]; [destruct (Hin Hi) as [-> _]; rewrite sum_of_app|destruct (Hout Hi) as [-> _]]; lia.
Qed.

Lemma classify_total o a t : sum_ok precision a -> token_ok t -> E \/ sum_of precision (at_selected a) + sum_of precision [t] < 2 ^ precision -> total (classify precision o a t).
Proof. intros Hs Ht Hf. unfold classify. destruct (bool_decide _); [by apply win_total|]. by destruct (bool_decide _). Qed.

Lemma harvest_total o a t : sum_ok precision a -> token_ok t -> E \/ sum_of precision (at_selected a) + sum_of precision [t] < 2 ^ precision -> total (harvest precision o a t).
Proof. intros Hs Ht Hf. unfold harvest. destruct (bool_decide _); [by apply win_total|done]. Qed.

Lemma wp_total {A} (r : res A) (s : Sel) Q : total r -> (forall a, r = Ok a -> Q a s) -> wp E (lift r) s Q.
Proof. intros Hr HQ. apply wp_lift. destruct r; [by apply HQ|exact Hr..]. Qed.

Lemma covered_wp q a s (Q : option selection -> Sel -> Prop) : sum_ok precision a -> 0 <= q < 2 ^ precision ->
  (forall r, match r with Some _ => q <= sum_of precision (at_selected a) | None => sum_of precision (at_selected a) < q end -> Q r s) ->
  wp E (lift (covered (mkQuantity precision q) a)) s Q.
Proof.
  intros Hs Hq HQ. apply wp_total; [|intros r Hr; apply HQ; apply (covered_Ok precision precision_ok q a r Hs Hq) in Hr; destruct r; [by destruct Hr|done]].
  unfold covered. destruct Hs as (-> & Hlt & _). by rewrite mkQuantity_Cmp by (pose proof (sum_of_nonneg precision precision_ok (at_selected a)); done || lia).
Qed.

Lemma sum_of_pos l : Forall token_ok l -> Forall (fun t => is_Some (worth t)) l -> l <> [] -> 0 < sum_of precision l.
Proof.
  destruct l as [|t l]; [done|]. intros [Ht _]%Forall_cons [[v Hv] _]%Forall_cons _. rewrite sum_of_cons. unfold token_ok in Ht. rewrite Hv in *.
  cbn [default from_option id]. pose proof (sum_of_nonneg precision precision_ok l). lia.
Qed.
End Total.

(** ** Termination *)

Section Ends.
Context {W : Type} {SH : Sherd W} (precision : Z) (tuning : Tuning) (wallet typ : bytes).
Hypothesis precision_ok : 0 < precision < two63.
Abbreviation Sel := (Selector (W := W)).

(** A source whose tokens have a positive worth when they have one, and whose
    calls return. *)
Definition lively_source : Prop := forall w,
  match (UnspentTokensIteratorBy wallet typ w).1 with Ok it => Forall (item_ok precision True) it | Err _ => True | Panic => False end /\
  forall v, (HasEnoughSpendableTokens wallet typ v w).1 <> Panic.
Hypothesis lively : lively_source.

Abbreviation wpT := (wp True).
Abbreviation soundT := (sound (W := W) precision True).
Abbreviation spent := (fun a => sum_of precision (at_selected a)).

Lemma any_world : forall w : W, (closed_by_other w).1 = true -> True.
Proof. done. Qed.

Lemma call_wp {A} (f : W -> A * W) (s : Sel) : wpT (call f) s (fun a s' => sel_cache s' = sel_cache s /\ sel_pending s' = sel_pending s).
Proof. unfold wp, call. by destruct (f _). Qed.

(** What a step keeps. *)
Definition going (q : Z) (a : attempt) (s : Sel) : Prop := sum_ok precision a /\ spent a <= q /\ soundT s.

(** A step that goes on has a larger sum, or one retry more, or fewer candidates
    left. *)
Definition advanced (a : attempt) (s : Sel) (a' : attempt) (s' : Sel) : Prop :=
  spent a < spent a' \/
  (spent a' = spent a /\ at_retries a <= MaxImmediateRetries tuning /\ at_retries a' = at_retries a + 1) \/
  (spent a' = spent a /\ at_retries a' = at_retries a /\ (available s' < available s)%nat).

Definition progress (q : Z) (a : attempt) (s : Sel) (r : attempt + selection) (s' : Sel) : Prop :=
  match r with inl a' => going q a' s' /\ advanced a s a' s' | inr _ => True end.

Lemma sound_fields (s s' : Sel) : sel_cache s' = sel_cache s -> sel_pending s' = sel_pending s -> soundT s -> soundT s'.
Proof. unfold sound. by intros -> ->. Qed.

Lemma invalidate_wp s : soundT s -> wpT invalidateCandidateCache s (fun _ s' => soundT s' /\ available s' = available s).
Proof. intros Hs. unfold invalidateCandidateCache. by destruct InvalidateCache. Qed.

Lemma refresh_wp a s : soundT s -> wpT (refresh tuning wallet typ a) s (fun a' s' => soundT s' /\ at_sum a' = at_sum a /\ at_selected a' = at_selected a /\
  at_retries a <= MaxImmediateRetries tuning /\ at_retries a' = at_retries a + 1).
Proof.
  intros Hs. unfold refresh, refreshCandidates. apply wp_bind. destruct (Z.gtb_spec (at_retries a) (MaxImmediateRetries tuning)) as [|Hle]; [done|].
  apply wp_bind. eapply wp_mono with (Q := fun _ s' => soundT s').
  { destruct (at_fetched a); [|done]. eapply wp_mono; [by apply invalidate_wp|]. naive_solver. }
  intros [] s1 _ Hs1. apply wp_bind, wp_wrapM. unfold callR. unfold wp at 1. destruct (lively (sel_world s1)) as [Hf _].
  destruct (UnspentTokensIteratorBy wallet typ (sel_world s1)) as [r w]. cbn in Hf. destruct r as [it|e|]; [|done..].
  apply wp_bind. unfold swapCache. apply wp_bind. eapply wp_mono; [apply (mu_Lock_wp precision True any_world); by apply (sound_fields s1)|].
  intros [] s2 _ Hs2. apply wp_bind, wp_getS. destruct (sel_cache s2); [|done]. unfold wp at 1, putS. apply wp_ret, wp_ret. split; [|done]. by split; [constructor|].
Qed.

Lemma finish_wp q a s a' s' : going q a s -> 0 <= q < 2 ^ precision -> sum_ok precision a' -> soundT s' -> advanced a s a' s' ->
  wpT (finish (mkQuantity precision q) a') s' (progress q a s).
Proof.
  intros Hg Hq Hs Hso Ha. unfold finish. apply wp_bind, (covered_wp precision True precision_ok); [done..|]. intros [r|] Hr; apply wp_ret; [done|].
  split; [|done]. split; [done|]. split; [lia|done].
Qed.

Lemma exhausted_wp q a s0 s : going q a s0 -> soundT s -> wpT (exhausted tuning (mkQuantity precision q) wallet typ a) s (progress q a s0).
Proof.
  intros (Hs & Hle & _) Hso. unfold exhausted. apply wp_bind. eapply wp_mono with (Q := fun _ s' => soundT s').
  { destruct (at_lockedByOthers a); [done|]. apply wp_bind, wp_lift. rewrite mkQuantity_big. apply wp_bind, wp_wrapM. unfold callR. unfold wp at 1.
    destruct (lively (sel_world s)) as [_ Hb]. specialize (Hb q). destruct (HasEnoughSpendableTokens wallet typ q (sel_world s)) as [[b|e|] w]; [|done..]. by destruct b. }
  intros [] s1 _ Hs1. wp_step (refresh_wp (mkAttempt (at_sum a) (at_selected a) (at_lockedByOthers a) (at_retries a) (if negb (at_saw a) && negb (zlen (at_blacklisted a) =? 0) then [] else at_blacklisted a) false (at_fetched a)) s1 Hs1).
  cbn [at_sum at_selected at_retries]. intros a2 s2 _ (Hs2 & E1 & E2 & Hr & E3). apply wp_ret. split; [|right; left; cbn [at_selected at_retries]; by rewrite E2].
  split; [|split; [cbn [at_selected]; by rewrite E2|done]]. unfold sum_ok. cbn [at_selected at_sum]. by rewrite E1, E2.
Qed.

(** Winning a candidate adds to the sum, losing all takes them away. *)
Lemma verdicts_gain o a a' l : sum_ok precision a' -> Forall (token_ok precision True) l -> at_selected a' = at_selected a ++ wins o l ->
  (wins o l = [] -> at_retries a' = at_retries a) -> spent a < spent a' \/ (spent a' = spent a /\ at_retries a' = at_retries a).
Proof.
  intros (_ & _ & Hw) Hl Esel Hr. rewrite Esel in *. rewrite !sum_of_app. apply Forall_app in Hw as [_ Hw]. destruct (wins o l) as [|t k] eqn:Ew.
  - right. rewrite Hr by done. cbn. split; [lia|done].
  - left. assert (Forall (token_ok precision True) (t :: k)) as Hk by (rewrite <- Ew; apply Forall_forall; intros x [_ Hx]%wins_spec; by apply (proj1 (Forall_forall _ _) Hl)).
    pose proof (sum_of_pos precision True precision_ok (t :: k) Hk Hw ltac:(done)). lia.
Qed.

Lemma singleClaim_wp q a s0 t s : going q a s0 -> 0 <= q < 2 ^ precision -> soundT s -> token_ok precision True t -> (available s < available s0)%nat ->
  wpT (singleClaim precision (mkQuantity precision q) wallet a t) s (progress q a s0).
Proof.
  intros Hg Hq Hso Ht Hav. pose proof Hg as (Hs & Hle & _). unfold singleClaim. wp_step (call_wp (TryLock (uw_Id t) wallet) s). intros [locked lockErr] s1 _ [E1 E2].
  assert (soundT s1) as Hs1 by (by apply (sound_fields s)). assert (available s1 = available s) as Ea by (unfold available; by rewrite E1, E2).
  assert (forall b l, progress q a s0 (inl (mkAttempt (at_sum a) (at_selected a) b (at_retries a) l true (at_fetched a))) s1) as Hlost.
  { intros b l. split; [done|]. right. right. split; [done|]. split; [done|lia]. }
  destruct locked.
  - apply wp_bind, wp_total; [apply win_total; [done|done|done|by left]|]. intros a' Hw. apply (win_Ok precision precision_ok) in Hw as (Hs' & Esel & _ & _ & _ & [v Hv]); [|done].
    apply finish_wp; [done..|]. left. rewrite Esel, sum_of_app, sum_of_cons. unfold token_ok in Ht. rewrite Hv in *. change (sum_of precision []) with 0. cbn [default from_option id seen at_selected]. lia.
  - destruct (is_err lockErr SelectorRateLimited) eqn:He; [by destruct lockErr|]. destruct (is_err lockErr ErrTokenNotSpendable).
    + wp_step (invalidate_wp s1 Hs1). intros [] s2 _ [Hs2 Ea2]. apply wp_ret. split; [done|]. right. right. split; [done|]. split; [done|lia].
    + destruct (is_err lockErr ErrTokenAlreadyLocked); apply wp_ret; apply Hlost.
Qed.

Lemma batchClaim_wp f q r0 a s0 t s : going q a s0 -> 0 <= q < 2 ^ precision -> 0 <= r0 < 2 ^ precision -> soundT s -> token_ok precision True t -> (available s < available s0)%nat ->
  wpT (batchClaim precision tuning f (mkQuantity precision q) (mkQuantity precision r0) wallet typ a t) s (progress q a s0).
Proof.
  intros Hg Hq Hr Hso Ht Hav. pose proof Hg as (Hs & Hle & _). unfold batchClaim. apply wp_bind, (ToQuantity_wp precision True precision_ok); [done|]. intros v Hv Hrv.
  assert (sum_of precision [t] = v) as Et by (rewrite sum_of_cons, Hv; cbn; lia). apply wp_bind, wp_getS. rewrite <- Et.
  wp_step (growBatch_wp precision tuning True precision_ok any_world (Datatypes.S (available s)) r0 (blacklisted a) [t] s Hr ltac:(lia) Hso ltac:(by constructor) ltac:(lia) ltac:(by left)).
  intros window s1 Hgr [Hs1 Hw]. eapply (growBatch_Ok precision tuning (fun _ _ => True) ltac:(done) precision_ok) in Hgr as (Hm & _ & added & Ew & _); [|done|done|done|lia].
  assert (available s1 < available s0)%nat as Hav1 by (destruct Hm as (_ & _ & Hm & _); rewrite Ew in Hm; cbn [app length] in Hm; lia).
  wp_step (call_wp (f (uw_Id <$> window) wallet) s1). intros [o e] s2 _ [E1 E2].
  assert (soundT s2) as Hs2 by (by apply (sound_fields s1)). assert (available s2 = available s1) as Ea by (unfold available; by rewrite E1, E2).
  destruct e as [e|].
  - destruct (errors_Is e SelectorRateLimited); [done|]. apply wp_bind, wp_total.
    { apply (verdicts_total precision True precision_ok o); [intros ???; by apply harvest_Ok|intros ??; by apply harvest_total|done..|by left]. }
    intros a1 Hh. eapply (verdicts_Ok precision o) in Hh as (Hsa & _ & Esel & Hret & _); [|intros a0 t0 a0'; by apply harvest_Ok|done].
    pose proof (verdicts_gain o a a1 window Hsa Hw Esel Hret) as Hadv.
    apply wp_bind, (covered_wp precision True precision_ok); [done..|]. intros [r|] Hcov; [done|].
    wp_step (refresh_wp (mkAttempt (at_sum a1) (at_selected a1) true (at_retries a1) (at_blacklisted a1) true (at_fetched a1)) s2 Hs2). cbn [at_sum at_selected at_retries].
    intros a2 s3 _ (Hs3 & E3 & E4 & Hmax & E5). apply wp_ret. split; [split; [unfold sum_ok; by rewrite E3, E4|split; [rewrite E4; lia|done]]|].
    unfold advanced in *. rewrite E4, E5. destruct Hadv as [?|[? Hr1]]; [by left|right; left]. split; [done|]. split; lia.
  - apply wp_bind, wp_total.
    { apply (verdicts_total precision True precision_ok o); [intros ???; by apply classify_Ok|intros ??; by apply classify_total|done..|by left]. }
    intros a1 Hh. eapply (verdicts_Ok precision o) in Hh as (Hsa & _ & Esel & Hret & _); [|intros a0 t0 a0'; by apply classify_Ok|done].
    apply wp_bind. eapply wp_mono with (Q := fun _ s3 => soundT s3 /\ available s3 = available s2).
    { destruct (existsb _ _); [by apply invalidate_wp|done]. }
    intros [] s3 _ [Hs3 Ea3]. apply finish_wp; try done. destruct (verdicts_gain o a a1 window Hsa Hw Esel Hret) as [?|[? ?]]; [by left|right; right]. split; [done|]. split; [done|lia].
Qed.

Lemma iteration_wp q a s : going q a s -> 0 <= q < 2 ^ precision -> wpT (iteration precision tuning (mkQuantity precision q) wallet typ a) s (progress q a s).
Proof.
  intros Hg Hq. pose proof Hg as (Hs & Hle & Hso). pose proof (sum_of_nonneg precision precision_ok (at_selected a)) as Hnn. pose proof Hs as (Es & _ & _). unfold iteration.
  rewrite Es, mkQuantity_Sub by (done || lia). apply wp_bind, wp_wrapM, wp_lift.
  wp_step (nextCandidate_wp precision tuning True precision_ok any_world (q - spent a) (blacklisted a) s ltac:(lia) Hso).
  intros t s1 Hn [Hs1 Ht]. apply wrapM_Ok, (nextCandidate_Ok precision tuning (fun _ _ => True) ltac:(done) ltac:(done) precision_ok) in Hn as (_ & (_ & _ & Hav & _) & _).
  destruct t as [t|]; [|by apply exhausted_wp]. change (1 + available s1 <= available s)%nat in Hav. apply Forall_cons in Ht as [Ht _].
  destruct (blacklisted a (uw_Id t)).
  - apply wp_ret. split; [split; [|done]|].
    + destruct Hs as (_ & ? & ?). done.
    + right. right. split; [done|]. split; [done|lia].
  - destruct TryLockBatch as [f|]; [apply batchClaim_wp|apply singleClaim_wp]; done || lia.
Qed.

(** The lexicographic measure: what is missing, the retries left, the
    candidates left. *)
Lemma selectLoop_ends q : 0 <= q < 2 ^ precision -> forall n1 n2 n3 a s, going q a s ->
  Z.to_nat (q - spent a) = n1 -> Z.to_nat (MaxImmediateRetries tuning + 1 - at_retries a) = n2 -> available s = n3 ->
  exists n, forall fuel, (n <= fuel)%nat -> wpT (selectLoop precision tuning fuel (mkQuantity precision q) wallet typ a) s (fun r _ => r <> None).
Proof.
  intros Hq n1. induction (lt_wf n1) as [n1 _ IH1]. intros n2. induction (lt_wf n2) as [n2 _ IH2]. intros n3. induction (lt_wf n3) as [n3 _ IH3]. intros a s Hg E1 E2 E3.
  pose proof (iteration_wp q a s Hg Hq) as Hi. unfold wp in Hi. destruct (iteration _ _ _ _ _ _ _) as [[r|e|] s1] eqn:Hit; [|exists 1%nat|done].
  2: { intros [|fuel] Hf; [lia|]. cbn [selectLoop]. apply wp_bind. unfold wp at 1. by rewrite Hit. }
  destruct r as [a1|r].
  2: { exists 1%nat. intros [|fuel] Hf; [lia|]. cbn [selectLoop]. apply wp_bind. unfold wp at 1. by rewrite Hit. }
  assert (exists n, forall fuel, (n <= fuel)%nat -> wpT (selectLoop precision tuning fuel (mkQuantity precision q) wallet typ a1) s1 (fun r _ => r <> None)) as [n Hn].
  { destruct Hi as [Hg1 Hadv]. pose proof Hg1 as (_ & Hle1 & _). pose proof Hg as (_ & Hle & _). destruct Hadv as [Hlt|[(Es & Hle' & Er)|(Es & Er & Hav)]].
    - eapply (IH1 (Z.to_nat (q - spent a1))); [lia|done..].
    - eapply (IH2 (Z.to_nat (MaxImmediateRetries tuning + 1 - at_retries a1))); [lia|done|by rewrite Es|done..].
    - eapply (IH3 (available s1)); [lia|done|by rewrite Es|by rewrite Er|done]. }
  exists (S n). intros [|fuel] Hf; [lia|]. cbn [selectLoop]. apply wp_bind. unfold wp at 1. rewrite Hit. apply Hn. lia.
Qed.

(** C29: selection ends: from any state of the selector, with enough fuel a
    selection returns tokens or an error, and does not panic, whatever the other
    processes do, when the candidates are of positive worth. *)
Theorem sherdlock_select_terminates q (s : Sel) : soundT s ->
  exists n, forall fuel, (n <= fuel)%nat ->
    match (Selector_Select precision tuning fuel wallet q typ s).1 with Ok r => r <> None | Err _ => True | Panic => False end.
Proof.
  intros Hs. assert (exists n, forall fuel, (n <= fuel)%nat -> wpT (selectInternal precision tuning fuel wallet q typ) s (fun r _ => r <> None)) as [n Hn].
  { unfold selectInternal, isClosed, dropPending, wp, mbind, M_mbind. pose proof (mu_Lock_wp precision True any_world s Hs) as Hm. unfold wp in Hm.
    destruct (mu_Lock s) as [[u|e|] s1]; [|by exists O|done]. cbn [getS mret M_mret]. destruct (sel_cache s1); [|by exists O].
    unfold wrapM, lift. pose proof (ToQuantity_parsed precision q precision_ok) as Hp. destruct (parsed precision q) as [v|] eqn:Ev; [rewrite Hp|destruct Hp as [e ->]; by exists O].
    cbn [wrap]. pose proof (mu_Lock_wp precision True any_world s1 Hm) as Hm1. unfold wp in Hm1. destruct (mu_Lock s1) as [[u1|e|] s2]; [|by exists O|done].
    unfold modifyS. apply parsed_Some in Ev as [_ Hv]. destruct Hm1 as [_ Hc]. eapply selectLoop_ends; try done.
    split; [|split; [cbn; lia|by split; [constructor|]]]. split; [by apply NewZeroQuantity_mk|]. split; [cbn; lia|constructor]. }
  exists n. intros fuel Hf. specialize (Hn fuel Hf). unfold Selector_Select, selectWithoutMetrics. unfold wp in Hn. destruct (selectInternal _ _ _ _ _ _ _) as [[r|e|] s1]; [done| |done].
  by destruct (call _ _).
Qed.
End Ends.

(** ** Liveness *)

Section Served.
Context {W : Type} {SH : Sherd W} (held : W -> ID -> Prop) {SL : SherdLaws W held}.
Context (precision : Z) (tuning : Tuning) (wallet typ : bytes) (w0 : W) (q : Z).
Hypothesis precision_ok : 0 < precision < two63.
Abbreviation Sel := (Selector (W := W)).
Abbreviation same_locks := (calm held).

(** Nobody competes for the tokens or closes the selector. *)
Record uncontended : Prop := {
  not_closed : forall w : W, (closed_by_other w).1 = false;
  single_wins : forall id w, ~ held w id -> ((TryLock id wallet w).1).1 = true;
  batch_wins : forall f ids w, TryLockBatch = Some f -> NoDup ids -> (forall i, i ∈ ids -> ~ held w i) ->
    ((f ids wallet w).1).2 = None /\ forall i, i ∈ ids -> i ∈ Won ((f ids wallet w).1).1;
}.

(** The free tokens of the wallet cover the request. *)
Definition can_pay : Prop := forall w, same_locks w0 w -> exists toks w', UnspentTokensIteratorBy wallet typ w = (Ok (Ok <$> toks), w') /\
  NoDup (uw_Id <$> toks) /\ (forall t, t ∈ toks -> ~ held w (uw_Id t)) /\ Forall (token_ok precision False) toks /\ q <= sum_of precision toks < 2 ^ precision.

Hypothesis alone : uncontended.
Hypothesis pays : can_pay.
Hypothesis q_pos : 0 < q.

#[local] Instance same_locks_po : PreOrder same_locks := calm_po held.

Abbreviation wpF := (wp False).
Abbreviation soundF := (sound (W := W) precision False).
Abbreviation spent := (fun a => sum_of precision (at_selected a)).

Lemma never_closed : forall w : W, (closed_by_other w).1 = true -> False.
Proof. intros w. by rewrite (not_closed alone). Qed.

Record serving (a : attempt) (s : Sel) : Prop := {
  sv_sum : sum_ok precision a;
  sv_short : spent a < q;
  sv_black : at_blacklisted a = [];
  sv_sound : soundF s;
  sv_nodup : NoDup (uw_Id <$> stock s);
  sv_free : forall t, t ∈ stock s -> ~ held (sel_world s) (uw_Id t);
  sv_pays : q <= spent a + sum_of precision (stock s) < 2 ^ precision;
}.

Definition served (n : nat) (r : attempt + selection) (s : Sel) : Prop :=
  match r with inl a => serving a s /\ (available s < n)%nat | inr _ => True end.

Lemma sound_open s : soundF s -> is_open s.
Proof. intros [_ Hc]. unfold is_open. by destruct (sel_cache s). Qed.

(** Nothing is dropped while the selector is open and nothing is excluded. *)
Lemma moves_all black l s l' s' : (forall i, black i = false) -> soundF s' -> moves same_locks black l s l' s' -> l ++ stock s ≡ₚ l' ++ stock s' /\ same_locks (sel_world s) (sel_world s').
Proof.
  intros Hb Hs (Hc & _ & _ & d & P & Hd). split; [|done]. specialize (Hd (sound_open _ Hs)). destruct d as [|t d]; [done|].
  apply Forall_cons in Hd as [Hd _]. by rewrite Hb in Hd.
Qed.

(** After a claim that wins all of [l]. *)
Lemma finish_served a a' s s' l n : serving a s -> sum_ok precision a' -> at_selected a' = at_selected a ++ l -> at_blacklisted a' = [] ->
  stock s ≡ₚ l ++ stock s' -> soundF s' -> (forall i, held (sel_world s') i -> held (sel_world s) i \/ i ∈ uw_Id <$> l) -> (available s' < n)%nat ->
  wpF (finish (mkQuantity precision q) a') s' (served n).
Proof.
  intros [] Hs Esel Eb Hperm Hso Hh Hn. rewrite (sum_of_perm _ _ _ Hperm), sum_of_app in sv_pays0.
  pose proof (sum_of_nonneg precision precision_ok (stock s)) as N0. pose proof (sum_of_nonneg precision precision_ok (at_selected a)) as N1.
  pose proof (sum_of_nonneg precision precision_ok (stock s')) as N2. pose proof (sum_of_nonneg precision precision_ok l) as N3.
  unfold finish. apply wp_bind, (covered_wp precision False precision_ok); [done|lia|]. intros [r|] Hr; apply wp_ret; [done|].
  split; [|done]. rewrite Hperm, fmap_app in sv_nodup0. apply NoDup_app in sv_nodup0 as (_ & Hdis & Hnd). split; try done.
  - intros t Ht Hheld. apply Hh in Hheld as [Hheld|Hin]; [|by apply (Hdis (uw_Id t) Hin), list_elem_of_fmap_2].
    apply (sv_free0 t); [|done]. rewrite Hperm. apply elem_of_app. by right.
  - rewrite Esel, sum_of_app. lia.
Qed.

Lemma classify_all_won o : forall l a a', Forall (fun t => uw_Id t ∈ Won o) l -> sum_ok precision a -> foldR (classify precision o) a l = Ok a' -> at_blacklisted a' = at_blacklisted a.
Proof.
  induction l as [|t l IH]; intros a a' Hl Hs; cbn [foldR]; [by intros [= ->]|]. apply Forall_cons in Hl as [Ht Hl]. intros (a1 & H1 & H)%res_bind_Ok.
  unfold classify in H1. rewrite bool_decide_eq_true_2 in H1 by done. apply (win_Ok precision precision_ok) in H1 as (Hs1 & _ & _ & _ & Eb & _); [|exact Hs].
  apply IH in H; [|done..]. by rewrite H, Eb.
Qed.

Lemma wins_all o l : (forall i, i ∈ uw_Id <$> l -> i ∈ Won o) -> wins o l = l /\ Forall (fun t => uw_Id t ∈ Won o) l.
Proof.
  intros H. assert (Forall (fun t => uw_Id t ∈ Won o) l) as Hl by (apply Forall_forall; intros t Ht; by apply H, list_elem_of_fmap_2). split; [|done].
  unfold wins. clear H. induction Hl as [|t l Ht _ IH]; [done|]. rewrite filter_cons_True by done. by rewrite IH.
Qed.

Lemma singleClaim_served a t s s1 : serving a s -> soundF s1 -> stock s ≡ₚ t :: stock s1 -> same_locks (sel_world s) (sel_world s1) -> (available s1 < available s)%nat ->
  token_ok precision False t -> wpF (singleClaim precision (mkQuantity precision q) wallet a t) s1 (served (available s)).
Proof.
  intros Hv Hs1 Hperm Hc Hav Ht. pose proof Hv as []. unfold singleClaim, call. apply wp_bind. unfold wp at 1.
  assert (~ held (sel_world s1) (uw_Id t)) as Hfree. { rewrite (Hc _). apply sv_free0. rewrite Hperm. by left. }
  pose proof (single_wins alone (uw_Id t) (sel_world s1) Hfree) as Hwin. destruct (TryLock (uw_Id t) wallet (sel_world s1)) as [[b e] w] eqn:El. cbn in Hwin. subst b.
  destruct (TryLock_won _ _ _ _ _ El) as [_ Hh]. pose proof (sum_of_nonneg precision precision_ok (stock s1)) as Hnn.
  assert (sum_of precision (stock s) = sum_of precision [t] + sum_of precision (stock s1)) as Es by (rewrite (sum_of_perm _ _ _ Hperm); apply (sum_of_app precision [t])).
  apply wp_bind, wp_total; [apply win_total; [done|done|done|right; change (at_selected (seen a)) with (at_selected a); lia]|].
  intros a' Hw. apply (win_Ok precision precision_ok) in Hw as (Hs' & Esel & _ & _ & Eb & _); [|done].
  eapply (finish_served a a' s _ [t]); try done; [by rewrite Eb|]. cbn [sel_world]. intros i Hi. apply Hh in Hi as [Hi| ->]; [left; by apply Hc|right; by left].
Qed.

Lemma batchClaim_served f r0 a t s s1 : TryLockBatch = Some f -> serving a s -> soundF s1 -> stock s ≡ₚ t :: stock s1 -> same_locks (sel_world s) (sel_world s1) -> (available s1 < available s)%nat ->
  token_ok precision False t -> 0 <= r0 < 2 ^ precision ->
  wpF (batchClaim precision tuning f (mkQuantity precision q) (mkQuantity precision r0) wallet typ a t) s1 (served (available s)).
Proof.
  intros Hf Hv Hs1 Hperm Hc Hav Ht Hr. pose proof Hv as []. unfold batchClaim. apply wp_bind, (ToQuantity_wp precision False precision_ok); [done|]. intros v Ev Hrv.
  assert (sum_of precision [t] = v) as Et by (rewrite sum_of_cons, Ev; cbn; lia). apply wp_bind, wp_getS. rewrite <- Et.
  pose proof (sum_of_nonneg precision precision_ok (stock s1)) as N1. pose proof (sum_of_nonneg precision precision_ok (at_selected a)) as N2.
  assert (sum_of precision (stock s) = sum_of precision [t] + sum_of precision (stock s1)) as Es by (rewrite (sum_of_perm _ _ _ Hperm); apply (sum_of_app precision [t])).
  wp_step (growBatch_wp precision tuning False precision_ok never_closed (Datatypes.S (available s1)) r0 (blacklisted a) [t] s1 Hr ltac:(lia) Hs1 ltac:(by constructor) ltac:(lia) ltac:(right; lia)).
  intros window s2 Hg [Hs2 Hwok]. eapply (growBatch_Ok precision tuning same_locks closed_calm precision_ok) in Hg as (Hm & _ & added & Ew & _); [|done|done|done|lia].
  assert (available s2 < available s)%nat as Hav2 by (destruct Hm as (_ & _ & Hm & _); rewrite Ew in Hm; cbn [app length] in Hm; lia).
  apply moves_all in Hm as [Hp2 Hc2]; [|unfold blacklisted; rewrite sv_black0; done|done].
  assert (stock s ≡ₚ window ++ stock s2) as Hperm2 by (rewrite Hperm, <- Hp2; done).
  assert (NoDup (uw_Id <$> window) /\ forall i, i ∈ uw_Id <$> window -> ~ held (sel_world s2) i) as [Hnd Hfree].
  { split.
    - rewrite Hperm2, fmap_app in sv_nodup0. by apply NoDup_app in sv_nodup0 as [? _].
    - intros i (x & -> & Hx)%list_elem_of_fmap. rewrite (Hc2 _), (Hc _). apply sv_free0. rewrite Hperm2. apply elem_of_app. by left. }
  destruct (batch_wins alone f _ (sel_world s2) Hf Hnd Hfree) as [He Hall]. unfold call. apply wp_bind. unfold wp at 1.
  destruct (f (uw_Id <$> window) wallet (sel_world s2)) as [[o e] w] eqn:El. cbn in He, Hall. subst e.
  destruct (wins_all o window Hall) as [Ewin Hwon]. pose proof (TryLockBatch_exact _ _ _ _ _ _ Hf El) as Hex.
  assert (sum_of precision (stock s) = sum_of precision window + sum_of precision (stock s2)) as Es2 by (rewrite (sum_of_perm _ _ _ Hperm2); apply sum_of_app).
  pose proof (sum_of_nonneg precision precision_ok (stock s2)) as N3.
  apply wp_bind, wp_total.
  { apply (verdicts_total precision False precision_ok o); [intros ???; by apply classify_Ok|intros ??; by apply classify_total|done..|right; lia]. }
  intros a' Hcl. pose proof (classify_all_won o window a a' Hwon sv_sum0 Hcl) as Eb.
  eapply (verdicts_Ok precision o) in Hcl as (Hs' & _ & Esel & _); [|intros a0 t0 a0'; by apply classify_Ok|done]. rewrite Ewin in Esel.
  apply wp_bind. eapply wp_mono with (Q := fun _ s3 => sel_cache s3 = sel_cache s2 /\ sel_pending s3 = sel_pending s2 /\ same_locks w (sel_world s3)).
  { destruct (existsb _ _); [|done]. unfold invalidateCandidateCache. destruct InvalidateCache as [g|] eqn:Ei; [|done]. split; [done|]. split; [done|]. intros i. cbn [sel_world]. by apply invalidate_calm. }
  intros [] s3 _ (E1 & E2 & Hc3). eapply (finish_served a a' s s3 window); try done.
  - by rewrite Eb.
  - unfold stock in *. by rewrite E1, E2.
  - unfold sound in *. by rewrite E1, E2.
  - intros i Hi. apply Hc3, Hex in Hi as [Hi|Hi]; [left; by apply Hc, Hc2|right]. by apply (TryLockBatch_won _ _ _ _ _ _ _ Hf El) in Hi as [? _].
  - unfold available in *. by rewrite E1, E2.
Qed.

Lemma iteration_served a s : serving a s -> wpF (iteration precision tuning (mkQuantity precision q) wallet typ a) s (served (available s)).
Proof.
  intros Hv. pose proof Hv as []. pose proof (sum_of_nonneg precision precision_ok (at_selected a)) as Hnn. pose proof (sum_of_nonneg precision precision_ok (stock s)) as Hns.
  unfold iteration. rewrite (proj1 sv_sum0), mkQuantity_Sub by (done || lia). apply wp_bind, wp_wrapM, wp_lift.
  wp_step (nextCandidate_wp precision tuning False precision_ok never_closed (q - spent a) (blacklisted a) s ltac:(lia) sv_sound0).
  intros t s1 Hn [Hs1 Ht]. apply wrapM_Ok, (nextCandidate_Ok precision tuning same_locks rand_calm closed_calm precision_ok) in Hn as (_ & Hm & _ & Hst).
  destruct t as [t|]; [|destruct Hst as [E _]; rewrite E in sv_pays0; cbn in sv_pays0; lia].
  assert (forall i, blacklisted a i = false) as Hb by (intros i; unfold blacklisted; rewrite sv_black0; done). rewrite Hb.
  assert (available s1 < available s)%nat as Hav by (destruct Hm as (_ & _ & Hm & _); change (1 + available s1 <= available s)%nat in Hm; lia).
  apply moves_all in Hm as [Hp Hc]; [|done..]. apply Forall_cons in Ht as [Ht _].
  destruct TryLockBatch as [f|] eqn:Hf; [apply batchClaim_served|apply singleClaim_served]; done || lia.
Qed.

Lemma selectLoop_served : forall fuel a s, (available s < fuel)%nat -> serving a s -> wpF (selectLoop precision tuning fuel (mkQuantity precision q) wallet typ a) s (fun r _ => r <> None).
Proof.
  induction fuel as [|fuel IH]; intros a s Hf Hv; [lia|]. cbn [selectLoop]. wp_step (iteration_served a s Hv). intros [a1|r] s1 _ Hr; [|done].
  destruct Hr as [Hv1 Ha]. apply IH; [lia|done].
Qed.

Lemma fetched_Ok toks : fetched (Ok <$> toks) = toks.
Proof. unfold fetched. induction toks as [|t l IH]; cbn; [done|by f_equal]. Qed.

(** The first step of a selection fetches the candidates. *)
Definition fresh (s : Sel) : Prop := sel_cache s = Some [] /\ sel_pending s = [] /\ same_locks w0 (sel_world s).

Lemma fresh_lock s : fresh s -> wpF mu_Lock s (fun _ s' => fresh s').
Proof.
  intros (E1 & E2 & Hc). eapply wp_mono; [apply (mu_Lock_wp precision False never_closed); unfold sound; by rewrite E1, E2|].
  intros [] s' [Hk Hc']%(mu_Lock_Ok same_locks closed_calm) [_ Hs]. destruct Hk as [[E3 E4]|[E3 _]]; [|by rewrite E3 in Hs].
  split; [congruence|]. split; [congruence|]. by etrans.
Qed.

Lemma refresh_served a s : 0 <= MaxImmediateRetries tuning -> at_retries a = 0 -> at_fetched a = false -> at_blacklisted a = [] -> at_selected a = [] -> at_sum a = mkQuantity precision 0 ->
  fresh s -> wpF (refresh tuning wallet typ a) s (fun a' s' => serving a' s').
Proof.
  intros Hmax Hr Hf Hb Hsel Hsum (E1 & E2 & Hc). unfold refresh, refreshCandidates. apply wp_bind. rewrite Hr, Hf. destruct (Z.gtb_spec 0 (MaxImmediateRetries tuning)); [lia|].
  apply wp_bind, wp_ret. apply wp_bind, wp_wrapM. unfold callR. unfold wp at 1. destruct (pays (sel_world s) Hc) as (toks & w' & Eit & Hnd & Hfree & Hok & Hsumok). rewrite Eit.
  assert (same_locks (sel_world s) w') as Hc' by (intros i; by eapply fetch_calm). apply wp_bind. unfold swapCache.
  wp_step fresh_lock; [split; [done|]; split; [done|]; by etrans|].
  intros [] s2 Hm (E3 & _ & Hc2). apply wp_bind, wp_getS. rewrite E3. unfold wp at 1, putS. apply wp_ret, wp_ret.
  assert (stock (mkSelector (Some (Ok <$> toks)) [] (sel_world s2)) = toks) as Est by apply fetched_Ok.
  split; rewrite ?Est; cbn [at_selected at_sum at_blacklisted sel_world]; rewrite ?Hsel; try done.
  - unfold sum_ok. cbn [at_selected at_sum]. rewrite ?Hsel, ?Hsum. split; [done|]. split; [cbn; lia|constructor].
  - split; [constructor|]. cbn [sel_cache]. apply Forall_fmap. exact Hok.
  - intros t Ht. rewrite (Hc2 _), <- (Hc _). by apply Hfree.
Qed.

Lemma first_step s : 0 <= MaxImmediateRetries tuning -> q < 2 ^ precision -> fresh s ->
  wpF (iteration precision tuning (mkQuantity precision q) wallet typ (first_attempt precision)) s (fun r s' => exists a, r = inl a /\ serving a s').
Proof.
  intros Hmax Hq Hfr. pose proof Hfr as (E1 & E2 & Hc). unfold iteration. change (at_sum (first_attempt precision)) with (NewZeroQuantity precision).
  rewrite NewZeroQuantity_mk, mkQuantity_Sub by (done || lia). apply wp_bind, wp_wrapM, wp_lift.
  assert (wpF (nextCandidate precision tuning (mkQuantity precision (q - 0)) (blacklisted (first_attempt precision))) s (fun r s' => r = None /\ fresh s')) as Hn.
  { unfold nextCandidate. apply wp_bind. unfold dequeue. wp_step (fresh_lock s Hfr). intros [] s1 _ Hfr1. apply wp_bind, wp_getS. by rewrite (proj1 Hfr1), (proj1 (proj2 Hfr1)). }
  wp_step Hn. intros t s1 _ [-> Hfr1]. unfold exhausted. apply wp_bind, wp_ret.
  wp_step refresh_served; [done|done|done|done|done|apply NewZeroQuantity_mk|exact Hfr1|]. intros a s2 _ Hv. apply wp_ret. eexists. split; [done|]. destruct Hv. by split.
Qed.

(** C28: a wallet that can pay is served: with nobody competing for its tokens
    and free tokens that cover the request, a new selector returns a selection. *)
Theorem sherdlock_select_serves qs : 0 <= MaxImmediateRetries tuning -> parsed precision qs = Some q ->
  exists n, forall fuel, (n <= fuel)%nat -> exists r s', Selector_Select precision tuning fuel wallet qs typ (NewSelector w0) = (Ok (Some r), s').
Proof.
  intros Hmax Hqs. assert (fresh (NewSelector w0)) as Hfr by (split; [done|]; split; [done|]; by intros i).
  assert (exists n, forall fuel, (n <= fuel)%nat -> wpF (selectInternal precision tuning fuel wallet qs typ) (NewSelector w0) (fun r _ => r <> None)) as [n Hn].
  { pose proof (proj1 (parsed_Some _ _ _) Hqs) as [_ Hq]. unfold selectInternal, isClosed, dropPending, wp, mbind, M_mbind. pose proof (fresh_lock _ Hfr) as Hm. unfold wp in Hm.
    destruct (mu_Lock (NewSelector w0)) as [[u|e|] s1]; [|done..]. cbn [getS mret M_mret]. rewrite (proj1 Hm).
    unfold wrapM, lift. pose proof (ToQuantity_parsed precision qs precision_ok) as Hp. rewrite Hqs in Hp. rewrite Hp.
    cbn [wrap]. pose proof (fresh_lock s1 Hm) as Hm1. unfold wp in Hm1. destruct (mu_Lock s1) as [[u1|e|] s2]; [|done..]. unfold modifyS. destruct Hm1 as (E1 & _ & Hc).
    pose proof (first_step (mkSelector (sel_cache s2) [] (sel_world s2)) Hmax ltac:(lia) ltac:(by split)) as Hi. unfold wp in Hi.
    destruct (iteration _ _ _ _ _ _ _) as [[r|e|] s3] eqn:Hit; [|done..]. destruct Hi as (a & -> & Hv). exists (S (S (available s3))).
    intros [|fuel] Hf; [lia|]. cbn [selectLoop]. unfold mbind, M_mbind. rewrite Hit. apply (selectLoop_served fuel a s3); [lia|done]. }
  exists n. intros fuel Hf. specialize (Hn fuel Hf). unfold Selector_Select, selectWithoutMetrics. unfold wp in Hn. destruct (selectInternal _ _ _ _ _ _ _) as [[[r|]|e|] s1]; try done. by eexists _, _.
Qed.
End Served.
