(* ===== verification/SherdlockWitness.v ===== *)
(** * Sherdlock selections on a concrete store

    A small bank with a lock table instantiates the interfaces of the selector,
    discharges its laws, and runs it: the witnesses of the selection theorems,
    and a second selection on a used selector that takes tokens of the wrong
    type. *)

From S2P Require Import Prelude Quantity TokenTypes Sherdlock SherdlockSafety SherdlockTotal.
From Stdlib Require Import ZArith Lia.
Local Open Scope Z_scope.

Definition coin (tx : string) (typ q : string) : candidate := mkUnspentTokenInWallet (mkID (str tx) 0) (str "alice") (str typ) (str q).
Definition bank : list candidate := [coin "a" "USD" "3"; coin "b" "USD" "5"; coin "c" "EUR" "4"; coin "d" "USD" "8"; coin "e" "EUR" "9"].

Definition spendable (wallet typ : bytes) (w : list ID) : list candidate :=
  filter (fun t => uw_WalletID t = wallet /\ uw_Type t = typ /\ uw_Id t ∉ w) bank.

(** The locks the transaction holds are the world. *)
#[local] Instance bank_sherd : Sherd (list ID) := {
  TryLock id _ w := if decide (id ∈ w) then ((false, Some ErrTokenAlreadyLocked), w) else ((true, None), id :: w);
  TryLockBatch := Some (fun ids _ w => let won := filter (fun i => i ∉ w) ids in ((mkBatchLockOutcome won [], None), won ++ w));
  locker_UnlockAll w := (None, []);
  UnspentTokensIteratorBy wallet typ w := (Ok (Ok <$> spendable wallet typ w), w);
  HasEnoughSpendableTokens wallet typ v w := (Ok (v <=? sum_of 64 (spendable wallet typ [])), w);
  InvalidateCache := None;
  rand_draw w := (3, w);
  closed_by_other w := (false, w);
  Set_ToSlice l := l;
}.

Definition bank_held (w : list ID) (i : ID) : Prop := i ∈ w.

#[local] Instance bank_laws : SherdLaws (list ID) bank_held.
Proof.
  unfold bank_held. split; try (by intros; naive_solver); cbn.
  - intros id wallet w e w'. case_decide; intros [= <- <-]. split; [done|]. set_solver.
  - intros id wallet w e w'. case_decide; by intros [= <- <-].
  - intros f ids wallet w o e w' [= <-] [= <- <- <-] i. cbn. rewrite list_elem_of_filter. naive_solver.
  - intros f ids wallet w o e w' [= <-] [= <- <- <-] i. cbn. set_solver.
  - intros f ids wallet w o w' [= <-] [= <- <-] i. cbn. set_solver.
  - intros w w' [= <-] i. apply not_elem_of_nil.
Qed.

Lemma bank_nodup : NoDup (uw_Id <$> bank).
Proof. apply (bool_decide_unpack _). vm_compute. exact I. Qed.

Lemma bank_lists_once wallet typ : lists_once wallet typ.
Proof. intros w it w' [= <- _]. rewrite fetched_Ok. eapply sublist_NoDup; [exact bank_nodup|]. apply fmap_sublist, sublist_filter. Qed.

Definition alice_tuning : Tuning := CompileOptions [].
Definition pay (typ q : string) := Selector_Select 64 alice_tuning 20 (str "alice") (str q) (str typ).

(** The request of 6 is paid with the coins [a] and [b]. *)
Example pay_runs : (pay "USD" "6" (NewSelector [])).1 = Ok (Some ([mkID (str "a") 0; mkID (str "b") 0], mkQuantity 64 8, 0)).
Proof. vm_compute. reflexivity. Qed.

Lemma precision64 : 0 < 64 < two63.
Proof. done. Qed.

Lemma sherdlock_select_safe_witness : exists requested toks, parsed 64 (str "6") = Some requested /\ [mkID (str "a") 0; mkID (str "b") 0] ≡ₚ uw_Id <$> toks /\
  NoDup [mkID (str "a") 0; mkID (str "b") 0] /\ Forall (fun t => offers (str "alice") (str "USD") t \/ t ∈ leftover (NewSelector ([] : list ID))) toks /\ mkQuantity 64 8 = mkQuantity 64 (sum_of 64 toks) /\ requested <= sum_of 64 toks /\
  (forall i, i ∈ [mkID (str "a") 0; mkID (str "b") 0] -> bank_held (sel_world (pay "USD" "6" (NewSelector [])).2) i /\ ~ bank_held [] i) /\
  (exact_store bank_held (str "alice") -> forall i, bank_held (sel_world (pay "USD" "6" (NewSelector [])).2) i -> bank_held [] i \/ i ∈ [mkID (str "a") 0; mkID (str "b") 0]).
Proof.
  apply (sherdlock_select_safe bank_held 64 alice_tuning (str "alice") (str "USD") precision64 20 (str "6") (NewSelector []) [mkID (str "a") 0; mkID (str "b") 0] (mkQuantity 64 8) 0).
  - exact (bank_lists_once (str "alice") (str "USD")).
  - constructor.
  - vm_compute. reflexivity.
Defined.

(** A request nobody can pay, with the coins of an earlier selection locked. *)
Lemma stubborn_failure_releases_witness :
  ~ bank_held (sel_world (Stubborn_Select 64 alice_tuning (fun w => (false, w)) 2 20 (str "alice") (str "100") (str "USD") (NewSelector [mkID (str "a") 0])).2) (mkID (str "a") 0).
Proof.
  apply (stubborn_failure_releases bank_held 64 alice_tuning (str "alice") (str "USD") (fun w => (false, w)) 2 20 (str "100") (NewSelector [mkID (str "a") 0])
    (EWrap SelectorInsufficientFunds "insufficient funds, no other process has any tokens locked")).
  - intros w. reflexivity.
  - intros w b w' [= _ <-] i. reflexivity.
  - lia.
  - vm_compute. reflexivity.
Defined.

Lemma bank_tokens_ok E : Forall (token_ok 64 E) bank.
Proof. repeat constructor. Qed.

Lemma spendable_ok E wallet typ w : Forall (token_ok 64 E) (spendable wallet typ w).
Proof. apply Forall_forall. intros t [_ Ht]%list_elem_of_filter. by apply (proj1 (Forall_forall _ _) (bank_tokens_ok E)). Qed.

Lemma sherdlock_select_terminates_witness : exists n, forall fuel, (n <= fuel)%nat ->
  match (Selector_Select 64 alice_tuning fuel (str "alice") (str "6") (str "USD") (NewSelector [])).1 with Ok r => r <> None | Err _ => True | Panic => False end.
Proof.
  apply (sherdlock_select_terminates 64 alice_tuning (str "alice") (str "USD") precision64).
  - intros w. split; [|done]. cbn. apply Forall_fmap. exact (spendable_ok True (str "alice") (str "USD") w).
  - split; [constructor|]. constructor.
Defined.

Lemma sherdlock_select_serves_witness : exists n, forall fuel, (n <= fuel)%nat -> exists r s',
  Selector_Select 64 alice_tuning fuel (str "alice") (str "6") (str "USD") (NewSelector []) = (Ok (Some r), s').
Proof.
  apply (sherdlock_select_serves bank_held 64 alice_tuning (str "alice") (str "USD") [] 6 precision64).
  - split.
    + reflexivity.
    + intros id w Hn. cbn. unfold bank_held in Hn. by rewrite decide_False.
    + intros f ids w [= <-] _ Hfree. split; [reflexivity|]. intros i Hi. cbn. apply list_elem_of_filter. split; [by apply Hfree|done].
  - intros w Hw. assert (w = []) as ->. { destruct w as [|i w]; [done|]. exfalso. apply (not_elem_of_nil i), (Hw i), elem_of_cons. by left. }
    exists (spendable (str "alice") (str "USD") []), []. split; [reflexivity|]. split; [|split; [|split]].
    + eapply sublist_NoDup; [exact bank_nodup|]. apply fmap_sublist, sublist_filter.
    + intros t _. apply not_elem_of_nil.
    + apply spendable_ok.
    + vm_compute. split; [discriminate|reflexivity].
  - lia.
  - vm_compute. discriminate.
  - vm_compute. reflexivity.
Defined.

(** The candidates a selection leaves in the iterator are scanned by the next
    one, for whatever wallet and type it is: euros are paid with dollars.  The
    interface promises tokens of the requested type. *)
Theorem reused_selector_crosses_types : let s := (pay "USD" "6" (NewSelector [])).2 in
  (pay "EUR" "4" s).1 = Ok (Some ([mkID (str "d") 0], mkQuantity 64 8, 0)) /\ coin "d" "USD" "8" ∈ bank /\
  (pay "EUR" "4" (NewSelector [])).1 = Ok (Some ([mkID (str "e") 0], mkQuantity 64 9, 0)).
Proof. split; [vm_compute; reflexivity|]. split; [|vm_compute; reflexivity]. apply list_elem_of_In. vm_compute. auto 10. Qed.

Definition stocked : Selector (W := list ID) := mkSelector (Some (Ok <$> spendable (str "alice") (str "USD") [])) [] [].
Definition excluded (i : ID) : bool := bool_decide (i ∈ [mkID (str "b") 0]).

Lemma sherdlock_next_candidate_witness : 
  (zlen (sel_pending (nextCandidate 64 alice_tuning (mkQuantity 64 2) excluded stocked).2) < SufficiencyWindow alice_tuning) /\
  (exists dropped, stock stocked ≡ₚ dropped ++ [coin "d" "USD" "8"] ++ stock (nextCandidate 64 alice_tuning (mkQuantity 64 2) excluded stocked).2 /\
     (is_open (nextCandidate 64 alice_tuning (mkQuantity 64 2) excluded stocked).2 -> Forall (fun t => excluded (uw_Id t) = true) dropped)) /\
  (excluded (uw_Id (coin "d" "USD" "8")) = true \/ exists first rest v v1, stock stocked = first :: rest /\ worth 64 first = Some v1 /\ worth 64 (coin "d" "USD" "8") = Some v /\
      (coin "d" "USD" "8" = first \/ v <= v1 * MaxSufficiencyRatio alice_tuning)).
Proof.
  apply (sherdlock_next_candidate 64 alice_tuning (mkQuantity 64 2) excluded stocked (Some (coin "d" "USD" "8"))).
  - exact precision64.
  - vm_compute. reflexivity.
  - vm_compute. reflexivity.
  - vm_compute. reflexivity.
Defined.
