(* ===== verification/ShardedLocker.v ===== *)
(** * The in-memory token locker (services/selector/simple/inmemory/locker.go)

    Every owner has a shard of locks with its own mutex; a registry maps owners
    to shards, and empty shards are pruned from it.  Any number of goroutines run
    [Lock], [UnlockIDs], [UnlockByTxID], [IsLocked] and the collector [scan] at
    once.  A goroutine is a program counter, a step of it is one critical
    section (of a shard's mutex or of the registry's) or one call to the
    transaction store, and the steps of the goroutines interleave freely.  Shards
    are shared objects: a registry entry and a goroutine's reference to a shard
    are pointers into a heap, so that a goroutine may work on a shard that has
    left the registry meanwhile. *)

From S2P Require Import Prelude TokenTypes.
From stdpp Require Import gmap fin_maps.
From Stdlib Require Import ZArith Lia.
Local Open Scope Z_scope.

#[global] Program Instance ID_countable : Countable ID := inj_countable' (fun i => (TxId i, Index i)) (fun p => mkID p.1 p.2) _.
Next Obligation. by intros []. Qed.

Definition AlreadyLockedError : error := EMsg "already locked".
Definition errShardPruned : error := EMsg "shard pruned".

(** [ttxdb.TxStatus] (token/driver/vault.go). *)
Definition Unknown : Z := 0.
Definition Pending : Z := 1.
Definition Confirmed : Z := 2.
Definition Deleted : Z := 3.

(** ** Shards and the registry *)

Record lockEntry := mkLockEntry { le_TxID : bytes; le_Identity : bytes; le_Created : Z; le_LastAccess : Z }.

Abbreviation tid := nat.
Abbreviation ptr := nat.

(** [sh_mu] is the goroutine that holds the mutex for writing. *)
Record shard := mkShard { sh_locked : gmap ID lockEntry; sh_pruned : bool; sh_mu : option tid }.

Record locker := mkLocker { lk_shards : gmap bytes ptr; lk_heap : gmap ptr shard }.

Definition newShard : shard := mkShard ∅ false None.
Definition NewLocker : locker := mkLocker ∅ ∅.

Definition set_shard (d : locker) (p : ptr) (s : shard) : locker := mkLocker (lk_shards d) (<[p := s]> (lk_heap d)).

(** The two halves of [getOrCreateShard]: the read of the registry, and the
    re-check and creation under its write lock. *)
Definition registered (d : locker) (owner : bytes) : option ptr := lk_shards d !! owner.
Definition createShard (d : locker) (owner : bytes) : ptr * locker :=
  match lk_shards d !! owner with
  | Some p => (p, d)
  | None => let p := fresh (dom (lk_heap d)) in (p, mkLocker (<[owner := p]> (lk_shards d)) (<[p := newShard]> (lk_heap d)))
  end.

(** [pruneEmptyShard], and the release of the mutex its caller holds. *)
Definition pruneEmptyShard (d : locker) (owner : bytes) (p : ptr) (s : shard) : locker :=
  if decide (sh_locked s = ∅ /\ lk_shards d !! owner = Some p)
  then mkLocker (delete owner (lk_shards d)) (<[p := mkShard (sh_locked s) true None]> (lk_heap d))
  else set_shard d p (mkShard (sh_locked s) (sh_pruned s) None).

(** ** Locking *)

Record lockRequest := mkLockRequest { lr_owner : bytes; lr_id : ID; lr_txID : bytes; lr_reclaim : bool }.

(** What a reclaim saw: the holder, its last access, and its status. *)
Record observation := mkObservation { ob_TxID : bytes; ob_LastAccess : Z; ob_status : Z }.

(** The critical section of [lockInShard]: the entries, and the holder and error
    that are returned.  The text of the error depends on the log level. *)
Definition lockWrite (debug : bool) (now : Z) (r : lockRequest) (obs : option observation) (locked : gmap ID lockEntry) : gmap ID lockEntry * (bytes * option error) :=
  let mine := <[lr_id r := mkLockEntry (lr_txID r) (lr_owner r) now now]> in
  match locked !! lr_id r with
  | None => (mine locked, ([], None))
  | Some e =>
      let unchanged := match obs with Some o => bool_decide (le_TxID e = ob_TxID o) && (le_LastAccess e =? ob_LastAccess o) | None => false end in
      let reclaimed := lr_reclaim r && unchanged && match obs with Some o => ob_status o =? Deleted | None => false end in
      if reclaimed then (mine locked, ([], None))
      else (<[lr_id r := mkLockEntry (le_TxID e) (le_Identity e) (le_Created e) now]> locked,
            (le_TxID e, Some (if debug then EMsg "already locked by" else AlreadyLockedError)))
  end.

(** ** Unlocking *)

(** The loop of [UnlockIDs]: the entries left and the ids that were not locked. *)
Fixpoint unlockLoop (locked : gmap ID lockEntry) (ids : list ID) : gmap ID lockEntry * list ID :=
  match ids with
  | [] => (locked, [])
  | id :: ids =>
      match locked !! id with
      | None => let '(l, notFound) := unlockLoop locked ids in (l, id :: notFound)
      | Some _ => unlockLoop (delete id locked) ids
      end
  end.

(** The loop of [UnlockByTxID] over one shard. *)
Definition unlockTx (txID : bytes) (locked : gmap ID lockEntry) : gmap ID lockEntry := filter (fun ie => le_TxID ie.2 <> txID) locked.

(** ** The collector *)

Record observedEntry := mkObservedEntry { oe_id : ID; oe_txID : bytes; oe_lastAccess : Z }.

Definition inspect (entries : list (ID * lockEntry)) : list observedEntry := (fun ie => mkObservedEntry ie.1 (le_TxID ie.2) (le_LastAccess ie.2)) <$> entries.

(** Whether an entry is to be removed, given the status of its transaction
    ([None]: the lookup failed). *)
Definition removable (timeout now : Z) (e : observedEntry) (status : option Z) : bool :=
  match status with
  | None => true
  | Some status =>
      if status =? Confirmed then now - oe_lastAccess e >? timeout
      else status =? Deleted
  end.

(** The delete phase, which re-validates each entry. *)
Definition collect (locked : gmap ID lockEntry) (removeList : list observedEntry) : gmap ID lockEntry :=
  foldl (fun l o => match l !! oe_id o with
                    | Some e => if bool_decide (le_TxID e = oe_txID o) && (le_LastAccess e =? oe_lastAccess o) then delete (oe_id o) l else l
                    | None => l
                    end) locked removeList.

(** ** Goroutines *)

Inductive result :=
| RLocked (holder : bytes) (err : option error)
| RNotFound (ids : list ID)
| RUnit
| RBool (b : bool).

Abbreviation todo := (list (bytes * ptr)).

Inductive pc :=
(** [Lock] and [lockInShard] *)
| LockGet (r : lockRequest)
| LockCreate (r : lockRequest)
| LockCheck (p : ptr) (r : lockRequest)
| LockObserve (p : ptr) (r : lockRequest)
| LockStatus (p : ptr) (r : lockRequest) (txID : bytes) (lastAccess : Z)
| LockWrite (p : ptr) (r : lockRequest) (obs : option observation)
(** [UnlockIDs] *)
| UnlockGet (owner : bytes) (ids : list ID)
| UnlockCreate (owner : bytes) (ids : list ID)
| UnlockDelete (p : ptr) (owner : bytes) (ids : list ID)
| UnlockPrune (p : ptr) (owner : bytes) (notFound : list ID)
(** [UnlockByTxID] *)
| TxSnapshot (txID : bytes)
| TxDelete (txID : bytes) (l : todo)
| TxPrune (txID : bytes) (owner : bytes) (p : ptr) (l : todo)
(** [IsLocked] *)
| IsLockedSnapshot (id : ID)
| IsLockedNext (id : ID) (l : todo)
(** [scan] and [lockedCount] *)
| ScanStart
| ScanInspect (l : todo)
| ScanStatus (owner : bytes) (p : ptr) (observed removeList : list observedEntry) (l : todo)
| ScanDelete (owner : bytes) (p : ptr) (removeList : list observedEntry) (l : todo)
| ScanPrune (owner : bytes) (p : ptr) (l : todo)
| ScanSleep
| ScanCount (l : todo) (total : nat)
| Returned (res : result).

(** What a step takes from outside: the clock, the transaction store, the order
    in which Go ranges over maps, and whether the context is cancelled. *)
Record oracle := mkOracle {
  or_now : Z;
  or_GetStatus : bytes -> option Z;
  or_shards : gmap bytes ptr -> todo;
  or_entries : gmap ID lockEntry -> list (ID * lockEntry);
  or_cancelled : bool;
}.

Definition fair_oracle (o : oracle) : Prop := (forall m, or_shards o m ≡ₚ map_to_list m) /\ (forall m, or_entries o m ≡ₚ map_to_list m).

Section Step.
Context (debug : bool) (validTxEvictionTimeout : Z).

(** The shard at [p], if no goroutine holds its mutex for writing. *)
Definition free_shard (d : locker) (p : ptr) : option shard :=
  s ← lk_heap d !! p; match sh_mu s with None => Some s | Some _ => None end.

(** [getOrCreateShard], [Lock] and [lockInShard]. *)
Definition lockStep (o : oracle) (c : pc) (d : locker) : option (pc * locker) :=
  match c with
  | LockGet r => Some (match registered d (lr_owner r) with Some p => (LockCheck p r, d) | None => (LockCreate r, d) end)
  | LockCreate r => let '(p, d) := createShard d (lr_owner r) in Some (LockCheck p r, d)
  | LockCheck p r =>
      s ← free_shard d p;
      Some (match sh_locked s !! lr_id r with
            | Some e => if lr_reclaim r then (LockObserve p r, d) else (Returned (RLocked (le_TxID e) (Some AlreadyLockedError)), d)
            | None => if lr_reclaim r then (LockObserve p r, d) else (LockWrite p r None, d)
            end)
  | LockObserve p r =>
      s ← free_shard d p;
      Some (match sh_locked s !! lr_id r with
            | Some e => (LockStatus p r (le_TxID e) (le_LastAccess e), d)
            | None => (LockWrite p r None, d)
            end)
  | LockStatus p r txID lastAccess =>
      Some (LockWrite p r (status ← or_GetStatus o txID; Some (mkObservation txID lastAccess status)), d)
  | LockWrite p r obs =>
      s ← free_shard d p;
      if sh_pruned s then Some (LockGet r, d) else
      let '(locked, (holder, err)) := lockWrite debug (or_now o) r obs (sh_locked s) in
      Some (Returned (RLocked holder err), set_shard d p (mkShard locked (sh_pruned s) None))
  | _ => None
  end.

(** [UnlockIDs]. *)
Definition unlockStep (t : tid) (c : pc) (d : locker) : option (pc * locker) :=
  match c with
  | UnlockGet owner ids => Some (match registered d owner with Some p => (UnlockDelete p owner ids, d) | None => (UnlockCreate owner ids, d) end)
  | UnlockCreate owner ids => let '(p, d) := createShard d owner in Some (UnlockDelete p owner ids, d)
  | UnlockDelete p owner ids =>
      s ← free_shard d p;
      let '(locked, notFound) := unlockLoop (sh_locked s) ids in
      Some (UnlockPrune p owner notFound, set_shard d p (mkShard locked (sh_pruned s) (Some t)))
  | UnlockPrune p owner notFound =>
      s ← lk_heap d !! p; Some (Returned (RNotFound notFound), pruneEmptyShard d owner p s)
  | _ => None
  end.

(** [UnlockByTxID]. *)
Definition unlockByTxStep (o : oracle) (t : tid) (c : pc) (d : locker) : option (pc * locker) :=
  match c with
  | TxSnapshot txID => Some (TxDelete txID (or_shards o (lk_shards d)), d)
  | TxDelete txID [] => Some (Returned RUnit, d)
  | TxDelete txID ((owner, p) :: l) =>
      s ← free_shard d p;
      Some (TxPrune txID owner p l, set_shard d p (mkShard (unlockTx txID (sh_locked s)) (sh_pruned s) (Some t)))
  | TxPrune txID owner p l => s ← lk_heap d !! p; Some (TxDelete txID l, pruneEmptyShard d owner p s)
  | _ => None
  end.

(** [IsLocked]. *)
Definition isLockedStep (o : oracle) (c : pc) (d : locker) : option (pc * locker) :=
  match c with
  | IsLockedSnapshot id => Some (IsLockedNext id (or_shards o (lk_shards d)), d)
  | IsLockedNext id [] => Some (Returned (RBool false), d)
  | IsLockedNext id ((_, p) :: l) =>
      s ← free_shard d p;
      Some (match sh_locked s !! id with Some _ => (Returned (RBool true), d) | None => (IsLockedNext id l, d) end)
  | _ => None
  end.

(** [scan] and [lockedCount]. *)
Definition scanStep (o : oracle) (t : tid) (c : pc) (d : locker) : option (pc * locker) :=
  match c with
  | ScanStart => Some (if or_cancelled o then (Returned RUnit, d) else (ScanInspect (or_shards o (lk_shards d)), d))
  | ScanInspect [] => Some (ScanSleep, d)
  | ScanInspect ((owner, p) :: l) =>
      s ← free_shard d p; Some (ScanStatus owner p (inspect (or_entries o (sh_locked s))) [] l, d)
  | ScanStatus owner p [] removeList l => Some (ScanDelete owner p removeList l, d)
  | ScanStatus owner p (e :: observed) removeList l =>
      let removeList := if removable validTxEvictionTimeout (or_now o) e (or_GetStatus o (oe_txID e)) then removeList ++ [e] else removeList in
      Some (ScanStatus owner p observed removeList l, d)
  | ScanDelete owner p removeList l =>
      s ← free_shard d p;
      Some (ScanPrune owner p l, set_shard d p (mkShard (collect (sh_locked s) removeList) (sh_pruned s) (Some t)))
  | ScanPrune owner p l => s ← lk_heap d !! p; Some (ScanInspect l, pruneEmptyShard d owner p s)
  | ScanSleep => Some (if or_cancelled o then (Returned RUnit, d) else (ScanCount (or_shards o (lk_shards d)) 0, d))
  | ScanCount [] total => Some (if (0 <? total)%nat then (ScanStart, d) else (ScanSleep, d))
  | ScanCount ((_, p) :: l) total => s ← free_shard d p; Some (ScanCount l (total + size (sh_locked s)), d)
  | _ => None
  end.

(** One step of goroutine [t]; [None] when it waits for a mutex or has returned. *)
Definition step (o : oracle) (t : tid) (c : pc) (d : locker) : option (pc * locker) :=
  match c with
  | LockGet _ | LockCreate _ | LockCheck _ _ | LockObserve _ _ | LockStatus _ _ _ _ | LockWrite _ _ _ => lockStep o c d
  | UnlockGet _ _ | UnlockCreate _ _ | UnlockDelete _ _ _ | UnlockPrune _ _ _ => unlockStep t c d
  | TxSnapshot _ | TxDelete _ _ | TxPrune _ _ _ _ => unlockByTxStep o t c d
  | IsLockedSnapshot _ | IsLockedNext _ _ => isLockedStep o c d
  | ScanStart | ScanInspect _ | ScanStatus _ _ _ _ _ | ScanDelete _ _ _ _ | ScanPrune _ _ _ | ScanSleep | ScanCount _ _ => scanStep o t c d
  | Returned _ => None
  end.

(** The goroutines of a process: they start with one of the operations and take
    steps in any order. *)
Definition config : Type := gmap tid pc * locker.

Definition initial (c : pc) : bool :=
  match c with LockGet _ | UnlockGet _ _ | TxSnapshot _ | IsLockedSnapshot _ | ScanStart => true | _ => false end.

Inductive Step : config -> config -> Prop :=
| Step_call t c T d : T !! t = None -> initial c = true -> Step (T, d) (<[t := c]> T, d)
| Step_run t o c c' T d d' : T !! t = Some c -> fair_oracle o -> step o t c d = Some (c', d') -> Step (T, d) (<[t := c']> T, d').

Inductive Reachable : config -> Prop :=
| Reachable_init : Reachable (∅, NewLocker)
| Reachable_step x y : Reachable x -> Step x y -> Reachable y.
End Step.
