(* ===== verification/ShardedLockerSafety.v ===== *)
(** * What the in-memory locker guarantees

    The invariant of the shards and of the goroutines' references to them, and
    the theorems: every step of the goroutines is an operation on one table of
    locks per owner, no lock is written where nobody sees it, the goroutines do
    not deadlock, and [Lock] returns. *)

From S2P Require Import Prelude TokenTypes ShardedLocker.
From stdpp Require Import gmap fin_maps.
From Stdlib Require Import ZArith Lia.
Local Open Scope Z_scope.

(** ** The invariant *)

(** The shards a goroutine refers to, with their owners, and the shard whose
    mutex it holds between two steps. *)
Definition refs (c : pc) : todo :=
  match c with
  | LockCheck p r | LockObserve p r | LockStatus p r _ _ | LockWrite p r _ => [(lr_owner r, p)]
  | UnlockDelete p owner _ | UnlockPrune p owner _ => [(owner, p)]
  | TxDelete _ l | IsLockedNext _ l | ScanInspect l | ScanCount l _ => l
  | TxPrune _ owner p l | ScanStatus owner p _ _ l | ScanDelete owner p _ l | ScanPrune owner p l => (owner, p) :: l
  | _ => []
  end.

Definition holds (c : pc) : option ptr :=
  match c with UnlockPrune p _ _ | TxPrune _ _ p _ | ScanPrune _ p _ => Some p | _ => None end.

(** A reference is to the registered shard of the owner or to one that was
    pruned. *)
Definition ref_ok (d : locker) (op : bytes * ptr) : Prop :=
  exists s, lk_heap d !! op.2 = Some s /\ (sh_pruned s = true \/ lk_shards d !! op.1 = Some op.2).

Record shards_ok (d : locker) : Prop := {
  so_registered : forall o p, lk_shards d !! o = Some p -> exists s, lk_heap d !! p = Some s /\ sh_pruned s = false;
  so_unique : forall o1 o2 p, lk_shards d !! o1 = Some p -> lk_shards d !! o2 = Some p -> o1 = o2;
  so_live : forall p s, lk_heap d !! p = Some s -> sh_pruned s = false -> exists o, lk_shards d !! o = Some p;
  so_empty : forall p s, lk_heap d !! p = Some s -> sh_pruned s = true -> sh_locked s = ∅;
}.

Record locker_inv (x : config) : Prop := {
  li_shards : shards_ok x.2;
  li_refs : forall t c op, x.1 !! t = Some c -> op ∈ refs c -> ref_ok x.2 op;
  li_mutex : forall p s t, lk_heap x.2 !! p = Some s -> sh_mu s = Some t -> exists c, x.1 !! t = Some c /\ holds c = Some p;
  li_holder : forall t c p, x.1 !! t = Some c -> holds c = Some p -> exists s, lk_heap x.2 !! p = Some s /\ sh_mu s = Some t;
}.

(** ** What a step does to the shards *)

Inductive effect (t : tid) : option ptr -> option ptr -> locker -> locker -> Prop :=
| eff_none d : effect t None None d d
| eff_create d owner : effect t None None d (createShard d owner).2
| eff_write d p s locked mu : free_shard d p = Some s -> (sh_pruned s = true -> locked = ∅) -> mu = None \/ mu = Some t ->
    effect t None (if mu then Some p else None) d (set_shard d p (mkShard locked (sh_pruned s) mu))
| eff_prune d owner p s : lk_heap d !! p = Some s -> effect t (Some p) None d (pruneEmptyShard d owner p s).

Lemma free_shard_Some d p s : free_shard d p = Some s -> lk_heap d !! p = Some s /\ sh_mu s = None.
Proof. unfold free_shard. destruct (lk_heap d !! p) as [s'|]; [|done]. cbn. destruct (sh_mu s') eqn:E; [done|]. by intros [= <-]. Qed.

Lemma createShard_spec d owner : match lk_shards d !! owner with
  | Some p => createShard d owner = (p, d)
  | None => exists p, lk_heap d !! p = None /\ createShard d owner = (p, mkLocker (<[owner := p]> (lk_shards d)) (<[p := newShard]> (lk_heap d)))
  end.
Proof.
  unfold createShard. destruct (lk_shards d !! owner); [done|]. eexists. split; [|done]. apply not_elem_of_dom, is_fresh.
Qed.

(** The locked tokens after each operation are among those before. *)
Lemma unlockLoop_lookup : forall ids locked i, (unlockLoop locked ids).1 !! i = if decide (i ∈ ids) then None else locked !! i.
Proof.
  induction ids as [|id ids IH]; intros locked i; cbn [unlockLoop]; [by rewrite decide_False by apply not_elem_of_nil|].
  destruct (locked !! id) as [e|] eqn:E.
  - rewrite IH. destruct (decide (i ∈ ids)) as [Hi|Hi]; [by rewrite decide_True by (by right)|]. destruct (decide (i = id)) as [->|Hne].
    + rewrite lookup_delete_eq, decide_True; [done|by left].
    + rewrite lookup_delete_ne, decide_False; [done| |done]. by rewrite elem_of_cons; intros [?|?].
  - specialize (IH locked i). destruct (unlockLoop locked ids) as [l nf]. cbn in *. rewrite IH. destruct (decide (i ∈ ids)) as [Hi|Hi]; [by rewrite decide_True by (by right)|].
    destruct (decide (i = id)) as [->|Hne]; [by rewrite decide_True, E by (by left)|]. rewrite decide_False; [done|]. by rewrite elem_of_cons; intros [?|?].
Qed.

Lemma unlockTx_lookup tx locked i : unlockTx tx locked !! i = match locked !! i with Some e => if decide (le_TxID e = tx) then None else Some e | None => None end.
Proof.
  unfold unlockTx. rewrite map_lookup_filter. destruct (locked !! i) as [e|]; [|done]. cbn. destruct (decide (le_TxID e = tx)); [by rewrite option_guard_False by tauto|by rewrite option_guard_True].
Qed.

(** [collect] deletes an entry exactly when one of the removed ones is it. *)
Definition same_entry (i : ID) (e : lockEntry) (o : observedEntry) : Prop := oe_id o = i /\ oe_txID o = le_TxID e /\ oe_lastAccess o = le_LastAccess e.

Lemma collect_lookup : forall l locked i, collect locked l !! i = match locked !! i with Some e => if decide (Exists (same_entry i e) l) then None else Some e | None => None end.
Proof.
  induction l as [|o l IH]; intros locked i; [cbn; destruct (locked !! i); [by rewrite decide_False by (by intros ?%Exists_nil)|done]|].
  change (collect locked (o :: l)) with (collect (match locked !! oe_id o with Some e => if bool_decide (le_TxID e = oe_txID o) && (le_LastAccess e =? oe_lastAccess o) then delete (oe_id o) locked else locked | None => locked end) l).
  rewrite IH. clear IH. destruct (decide (i = oe_id o)) as [->|Hne].
  - destruct (locked !! oe_id o) as [e|] eqn:E; [|by rewrite E]. destruct (bool_decide _ && _) eqn:Hb.
    + rewrite lookup_delete_eq. apply andb_true_iff in Hb as [Hb1%bool_decide_eq_true Hb2%Z.eqb_eq]. rewrite decide_True; [done|]. left. done.
    + rewrite E. apply andb_false_iff in Hb. rewrite (decide_ext _ (Exists (same_entry (oe_id o) e) (o :: l))); [done|]. rewrite Exists_cons. split; [by right|]. intros [(_ & E1 & E2)|?]; [|done].
      rewrite E1, E2, bool_decide_eq_true_2, Z.eqb_refl in Hb by done. by destruct Hb.
  - assert (forall m : gmap ID lockEntry, delete (oe_id o) m !! i = m !! i) as Hd by (intros m; by apply lookup_delete_ne).
    assert (match locked !! oe_id o with Some e => if bool_decide (le_TxID e = oe_txID o) && (le_LastAccess e =? oe_lastAccess o) then delete (oe_id o) locked else locked | None => locked end !! i = locked !! i) as ->.
    { destruct (locked !! oe_id o); [|done]. by destruct (_ && _). }
    destruct (locked !! i) as [e|]; [|done]. apply decide_ext. rewrite Exists_cons. split; [by right|]. intros [(? & _)|?]; [congruence|done].
Qed.

(** ** The invariant is preserved *)

Lemma ref_ok_effect t h h' d d' op : shards_ok d -> effect t h h' d d' -> ref_ok d op -> ref_ok d' op.
Proof.
  intros Hd He (s & Hs & Hp). destruct op as [o p]. cbn in *. destruct He as [d|d owner|d p' s' locked mu Hf _ _|d owner p' s' Hs'].
  - by exists s.
  - pose proof (createShard_spec d owner) as H. destruct (lk_shards d !! owner) as [q|] eqn:E; [rewrite H; by exists s|]. destruct H as (q & Hq & ->). exists s. cbn.
    rewrite lookup_insert_ne by congruence. split; [done|]. destruct Hp as [?|?]; [by left|right]. rewrite lookup_insert_ne; [done|congruence].
  - apply free_shard_Some in Hf as [Hf _]. unfold set_shard, ref_ok. cbn. destruct (decide (p = p')) as [->|Hne].
    + rewrite lookup_insert_eq. eexists. split; [done|]. cbn. congruence.
    + rewrite lookup_insert_ne by done. by exists s.
  - unfold pruneEmptyShard, ref_ok. destruct (decide _) as [[He Ho]|_]; cbn; (destruct (decide (p = p')) as [->|Hne]; [rewrite lookup_insert_eq; eexists; split; [done|]; cbn|rewrite lookup_insert_ne by done; exists s; split; [done|]]).
    + by left.
    + destruct Hp as [?|Hp]; [by left|right]. rewrite lookup_delete_ne; [done|]. congruence.
    + rewrite Hs' in Hs. injection Hs as ->. done.
    + done.
Qed.

Lemma shards_ok_effect t h h' d d' : shards_ok d -> effect t h h' d d' -> shards_ok d'.
Proof.
  intros Hd He. pose proof Hd as []. destruct He as [d|d owner|d p' s' locked mu Hf Hl _|d owner p' s' Hs'].
  - done.
  - pose proof (createShard_spec d owner) as H. destruct (lk_shards d !! owner) as [q|] eqn:E; [by rewrite H|]. destruct H as (q & Hq & ->). split; cbn.
    + intros o p. rewrite lookup_insert_Some. intros [[-> ->]|[Hne Ho]]; [rewrite lookup_insert_eq; by eexists|]. destruct (so_registered0 o p Ho) as (s & Hs & Hp). exists s. rewrite lookup_insert_ne by congruence. done.
    + intros o1 o2 p. rewrite !lookup_insert_Some. intros [[-> ->]|[H1 H1']] [[-> E2]|[H2 H2']]; try done; [|subst|by eapply so_unique0].
      * destruct (so_registered0 o2 p H2') as (s & Hs & _). congruence.
      * destruct (so_registered0 o1 p H1') as (s & Hs & _). congruence.
    + intros p s. rewrite lookup_insert_Some. intros [[-> <-]|[Hne Hs]] Hp; [exists owner; by rewrite lookup_insert_eq|].
      destruct (so_live0 p s Hs Hp) as [o Ho]. exists o. rewrite lookup_insert_ne; [done|congruence].
    + intros p s. rewrite lookup_insert_Some. intros [[-> <-]|[Hne Hs]]; [done|by eapply so_empty0].
  - apply free_shard_Some in Hf as [Hf _]. split; cbn.
    + intros o p Ho. destruct (so_registered0 o p Ho) as (s & Hs & Hp). destruct (decide (p = p')) as [->|Hne]; [rewrite lookup_insert_eq; eexists; split; [done|]; cbn; congruence|].
      rewrite lookup_insert_ne by done. by exists s.
    + done.
    + intros p s. rewrite lookup_insert_Some. intros [[-> <-]|[Hne Hs]] Hp; [by eapply so_live0|by eapply so_live0].
    + intros p s. rewrite lookup_insert_Some. intros [[-> <-]|[Hne Hs]] Hp; [by apply Hl|by eapply so_empty0].
  - unfold pruneEmptyShard. destruct (decide _) as [[He Ho]|_]; split; cbn.
    + intros o p [Hne Ho']%lookup_delete_Some. destruct (so_registered0 o p Ho') as (s & Hs & Hp). exists s. rewrite lookup_insert_ne; [done|]. intros <-. by apply Hne, (so_unique0 _ _ p').
    + intros o1 o2 p [_ H1]%lookup_delete_Some [_ H2]%lookup_delete_Some. by eapply so_unique0.
    + intros p s. rewrite lookup_insert_Some. intros [[-> <-]|[Hne Hs]] Hp; [done|]. destruct (so_live0 p s Hs Hp) as [o Ho']. exists o. rewrite lookup_delete_ne; [done|]. congruence.
    + intros p s. rewrite lookup_insert_Some. intros [[-> <-]|[Hne Hs]] Hp; [done|by eapply so_empty0].
    + intros o p Ho. destruct (so_registered0 o p Ho) as (s & Hs & Hp). destruct (decide (p = p')) as [->|Hne]; [rewrite lookup_insert_eq; eexists; split; [done|]; cbn; congruence|].
      rewrite lookup_insert_ne by done. by exists s.
    + done.
    + intros p s. rewrite lookup_insert_Some. intros [[-> <-]|[Hne Hs]] Hp; [by eapply so_live0|by eapply so_live0].
    + intros p s. rewrite lookup_insert_Some. intros [[-> <-]|[Hne Hs]] Hp; [by apply (so_empty0 _ _ Hs')|by eapply so_empty0].
Qed.

Lemma registered_ok d o p : shards_ok d -> lk_shards d !! o = Some p -> ref_ok d (o, p).
Proof. intros Hd Ho. destruct (so_registered _ Hd o p Ho) as (s & Hs & _). exists s. by split; [|right]. Qed.

Lemma snapshot_ok o d op : fair_oracle o -> shards_ok d -> op ∈ or_shards o (lk_shards d) -> ref_ok d op.
Proof. intros [Ho _] Hd. rewrite Ho. destruct op as [w p]. intros H%elem_of_map_to_list. by apply registered_ok. Qed.

Lemma created_ok d o : shards_ok d -> ref_ok (createShard d o).2 (o, (createShard d o).1).
Proof.
  intros Hd. pose proof (createShard_spec d o) as H. destruct (lk_shards d !! o) as [q|] eqn:E; [rewrite H; by apply registered_ok|]. destruct H as (q & Hq & ->). cbn.
  exists newShard. cbn. rewrite !lookup_insert_eq. by split; [|right].
Qed.

Lemma lookup_all_empty (m : gmap ID lockEntry) : (forall i, m !! i = None) -> m = ∅.
Proof. intros H. apply map_eq. intros i. by rewrite H, lookup_empty. Qed.

Lemma unlockLoop_empty ids : (unlockLoop ∅ ids).1 = ∅.
Proof. apply lookup_all_empty. intros i. rewrite unlockLoop_lookup. by destruct (decide _). Qed.
Lemma unlockTx_empty tx : unlockTx tx ∅ = ∅.
Proof. apply lookup_all_empty. intros i. by rewrite unlockTx_lookup. Qed.
Lemma collect_empty l : collect ∅ l = ∅.
Proof. apply lookup_all_empty. intros i. by rewrite collect_lookup. Qed.

Ltac step_inv := repeat match goal with
  | H : Some _ = Some _ |- _ => injection H as <- <-
  | H : None = Some _ |- _ => discriminate H
  | H : (match ?x with Some _ => _ | None => None end) = Some _ |- _ => destruct x as [|] eqn:?; [|discriminate H]
  | H : (_ ≫= _) = Some _ |- _ => apply bind_Some in H as (? & ? & H)
  end.

(** The references of the next step are among those of this one. *)
Ltac old_refs := intros ? Hop; first [by left | by left; right | by apply not_elem_of_nil in Hop].

Section Run.
Context (debug : bool) (validTxEvictionTimeout : Z).
Abbreviation step := (step debug validTxEvictionTimeout).

Lemma step_effect o t c d c' d' : fair_oracle o -> shards_ok d -> (forall op, op ∈ refs c -> ref_ok d op) -> step o t c d = Some (c', d') ->
  effect t (holds c) (holds c') d d' /\ forall op, op ∈ refs c' -> op ∈ refs c \/ ref_ok d' op.
Proof.
  intros Ho Hd Hr H.
  assert (forall p s, free_shard d p = Some s -> sh_pruned s = true -> sh_locked s = ∅) as Hempty.
  { intros p s [Hs _]%free_shard_Some. by apply (so_empty _ Hd p). }
  destruct c; cbn [ShardedLocker.step lockStep unlockStep unlockByTxStep isLockedStep scanStep] in H.
  - unfold registered in H. destruct (lk_shards d !! lr_owner r) as [p|] eqn:E; step_inv; (split; [constructor|]); intros op; cbn; [|by intros ?%not_elem_of_nil].
    intros ->%list_elem_of_singleton. right. by apply registered_ok.
  - pose proof (eff_create t d (lr_owner r)) as He. pose proof (created_ok d (lr_owner r) Hd) as Hc. destruct (createShard d (lr_owner r)) as [p d1]. step_inv. split; [exact He|].
    intros op ->%list_elem_of_singleton. by right.
  - step_inv. destruct (sh_locked x !! lr_id r), (lr_reclaim r); step_inv; (split; [constructor|]); old_refs.
  - step_inv. destruct (sh_locked x !! lr_id r); step_inv; (split; [constructor|]); old_refs.
  - step_inv. split; [constructor|]. auto.
  - step_inv. destruct (sh_pruned x) eqn:Ep; step_inv; [split; [constructor|]; by intros op ?%not_elem_of_nil|].
    destruct (lockWrite _ _ _ _ _) as [locked [holder err]]. step_inv. split; [|by intros op ?%not_elem_of_nil]. rewrite <- Ep. by apply (eff_write t d p x locked None); [|rewrite Ep|left].
  - unfold registered in H. destruct (lk_shards d !! owner) as [p|] eqn:E; step_inv; (split; [constructor|]); intros op; cbn; [|by intros ?%not_elem_of_nil].
    intros ->%list_elem_of_singleton. right. by apply registered_ok.
  - pose proof (eff_create t d owner) as He. pose proof (created_ok d owner Hd) as Hc. destruct (createShard d owner) as [p d1]. step_inv. split; [exact He|].
    intros op ->%list_elem_of_singleton. by right.
  - step_inv. pose proof (unlockLoop_empty ids) as Hu. destruct (unlockLoop (sh_locked x) ids) as [locked nf] eqn:E. step_inv. split; [|cbn; auto].
    apply (eff_write t d p x locked (Some t)); [done| |by right]. intros Hp. rewrite (Hempty p x) in E by done. by rewrite E in Hu.
  - step_inv. split; [by constructor|]. by intros op ?%not_elem_of_nil.
  - step_inv. split; [constructor|]. intros op Hop. right. by eapply snapshot_ok.
  - destruct l as [|[owner p] l]; step_inv; [split; [constructor|]; by intros op ?%not_elem_of_nil|]. split; [|cbn; auto].
    apply (eff_write t d p x _ (Some t)); [done| |by right]. intros Hp. rewrite (Hempty p x) by done. apply unlockTx_empty.
  - step_inv. split; [by constructor|]. intros op Hop. left. by right.
  - step_inv. split; [constructor|]. intros op Hop. right. by eapply snapshot_ok.
  - destruct l as [|[owner p] l]; step_inv; [split; [constructor|]; by intros op ?%not_elem_of_nil|].
    destruct (sh_locked x !! id); step_inv; (split; [constructor|]); intros op; cbn; [by intros ?%not_elem_of_nil|]. intros Hop. left. by right.
  - destruct (or_cancelled o); step_inv; (split; [constructor|]); intros op; [by intros ?%not_elem_of_nil|]. right. by eapply snapshot_ok.
  - destruct l as [|[owner p] l]; step_inv; (split; [constructor|]); old_refs.
  - destruct observed as [|e observed]; step_inv; (split; [constructor|]); old_refs.
  - step_inv. split; [|cbn; auto]. apply (eff_write t d p x _ (Some t)); [done| |by right]. intros Hp. rewrite (Hempty p x) by done. apply collect_empty.
  - step_inv. split; [by constructor|]. intros op Hop. left. by right.
  - destruct (or_cancelled o); step_inv; (split; [constructor|]); intros op; [by intros ?%not_elem_of_nil|]. right. by eapply snapshot_ok.
  - destruct l as [|[owner p] l]; step_inv.
    + destruct (0 <? total)%nat; step_inv; (split; [constructor|]); by intros op ?%not_elem_of_nil.
    + split; [constructor|]. intros op Hop. left. by right.
  - done.
Qed.

(** Goroutines hold a shard's mutex exactly while its mark says so. *)
Lemma mutex_effect T d t c c' d' : T !! t = Some c -> effect t (holds c) (holds c') d d' -> locker_inv (T, d) ->
  (forall p s t', lk_heap d' !! p = Some s -> sh_mu s = Some t' -> exists x, <[t := c']> T !! t' = Some x /\ holds x = Some p) /\
  (forall t' x p, <[t := c']> T !! t' = Some x -> holds x = Some p -> exists s, lk_heap d' !! p = Some s /\ sh_mu s = Some t').
Proof.
  intros Ht He [_ _ Hm Hh]. cbn in Hm, Hh. remember (holds c) as h eqn:Ec. remember (holds c') as h' eqn:Ec'.
  assert (forall p s t', lk_heap d !! p = Some s -> sh_mu s = Some t' -> h <> Some p -> exists x, <[t := c']> T !! t' = Some x /\ holds x = Some p) as Hm'.
  { intros p s t' Hs Hmu Hne. destruct (Hm p s t' Hs Hmu) as (x & Hx & Hp). exists x. rewrite lookup_insert_ne; [done|]. intros ->. congruence. }
  assert (forall t' x p, <[t := c']> T !! t' = Some x -> holds x = Some p -> h' = Some p /\ t' = t \/ t' <> t /\ exists s, lk_heap d !! p = Some s /\ sh_mu s = Some t') as Hh'.
  { intros t' x p. rewrite lookup_insert_Some. intros [[-> <-]|[Hne Hx]] Hp; [left; by rewrite Ec'|right]. split; [done|]. by eapply Hh. }
  destruct He as [d|d owner|d p s locked mu Hf _ Hmu|d owner p s Hs].
  - split; [intros p s t' Hs Hmu; by eapply Hm'|]. intros t' x p Hx Hp. by destruct (Hh' t' x p Hx Hp) as [[? _]|[_ ?]].
  - pose proof (createShard_spec d owner) as H. assert ((createShard d owner).2 = d \/ exists p, lk_heap d !! p = None /\ lk_heap (createShard d owner).2 = <[p := newShard]> (lk_heap d)) as [->|(q & Hq & ->)].
    { destruct (lk_shards d !! owner); [rewrite H; by left|]. destruct H as (q & Hq & ->). right. by exists q. }
    + split; [intros p s t' Hs Hmu; by eapply Hm'|]. intros t' x p Hx Hp. by destruct (Hh' t' x p Hx Hp) as [[? _]|[_ ?]].
    + split; [intros p s t'; rewrite lookup_insert_Some; intros [[<- <-]|[_ Hs]] Hmu; [done|by eapply Hm']|].
      intros t' x p Hx Hp. destruct (Hh' t' x p Hx Hp) as [[? _]|[_ (s & Hs & Hmu)]]; [done|]. exists s. by rewrite lookup_insert_ne by congruence.
  - apply free_shard_Some in Hf as [Hs Hfree]. cbn. split.
    + intros p' s' t'. rewrite lookup_insert_Some. intros [[<- <-]|[_ Hs']] Hmu'; [|by eapply Hm']. cbn in Hmu'. destruct Hmu as [->| ->]; [done|]. injection Hmu' as <-.
      exists c'. by rewrite lookup_insert_eq.
    + intros t' x p' Hx Hp. destruct (Hh' t' x p' Hx Hp) as [[E ->]|[_ (s' & Hs' & Hmu')]].
      * destruct Hmu as [->| ->]; [done|]. injection E as <-. rewrite lookup_insert_eq. by eexists.
      * exists s'. rewrite lookup_insert_ne; [done|]. congruence.
  - assert (exists s', lk_heap (pruneEmptyShard d owner p s) = <[p := s']> (lk_heap d) /\ sh_mu s' = None) as (s1 & -> & Hs1) by (unfold pruneEmptyShard; destruct (decide _); by eexists).
    destruct (Hh t c p Ht (eq_sym Ec)) as (s2 & Hs2 & Hmu2). split.
    + intros p' s' t'. rewrite lookup_insert_Some. intros [[<- <-]|[Hne Hs']] Hmu'; [congruence|]. eapply Hm'; [done..|]. congruence.
    + intros t' x p' Hx Hp. destruct (Hh' t' x p' Hx Hp) as [[? _]|[Hne (s' & Hs' & Hmu')]]; [done|]. exists s'. rewrite lookup_insert_ne; [done|]. congruence.
Qed.

Lemma step_inv_preserved o t c d c' d' T : fair_oracle o -> T !! t = Some c -> step o t c d = Some (c', d') -> locker_inv (T, d) -> locker_inv (<[t := c']> T, d').
Proof.
  intros Ho Ht H Hi. pose proof Hi as [Hd Hr _ _]. cbn in Hd, Hr. destruct (step_effect o t c d c' d' Ho Hd (fun op => Hr t c op Ht) H) as [He Hrefs].
  destruct (mutex_effect T d t c c' d' Ht He Hi) as [Hm Hh]. split; cbn; [by eapply shards_ok_effect| |done|done].
  intros t' x op. rewrite lookup_insert_Some. intros [[-> <-]|[Hne Hx]] Hop; [|eapply ref_ok_effect; [done|done|by eapply Hr]].
  apply Hrefs in Hop as [Hop|?]; [|done]. eapply ref_ok_effect; [done|done|by eapply Hr].
Qed.

Lemma reachable_inv x : Reachable debug validTxEvictionTimeout x -> locker_inv x.
Proof.
  induction 1 as [|x y _ IH Hs]; [split; cbn; [split; cbn|..]; intros *; by rewrite ?lookup_empty|].
  destruct Hs as [t c T d Ht Hc|t o c c' T d d' Ht Ho Hs]; [|by eapply step_inv_preserved].
  destruct IH as [Hd Hr Hm Hh]. cbn in *. split; cbn; [done|..].
  - intros t' x op. rewrite lookup_insert_Some. intros [[-> <-]|[Hne Hx]]; [destruct c; try done; by intros ?%not_elem_of_nil|by apply (Hr t')].
  - intros p s t' Hs Hmu. destruct (Hm p s t' Hs Hmu) as (x & Hx & Hp). exists x. rewrite lookup_insert_ne; [done|]. congruence.
  - intros t' x p. rewrite lookup_insert_Some. intros [[-> <-]|[Hne Hx]]; [by destruct c|by apply (Hh t')].
Qed.

(** ** The table of locks *)

(** What the locker promises is one table of locks for every owner; a lock is
    in it when the owner's registered shard has it. *)
Definition table : Type := bytes -> ID -> option lockEntry.
Definition lock_of (d : locker) : table := fun owner i => p ← lk_shards d !! owner; s ← lk_heap d !! p; sh_locked s !! i.

Definition unchanged (L L' : table) : Prop := forall o i, L' o i = L o i.
Definition for_owner (owner : bytes) (f : ID -> option lockEntry -> option lockEntry) (L L' : table) : Prop :=
  forall o i, L' o i = if decide (o = owner) then f i (L o i) else L o i.

(** The shard a goroutine refers to is the registered one of the owner, and not
    one that was pruned since. *)
Definition live (d : locker) (owner : bytes) (p : nat) : Prop := lk_shards d !! owner = Some p.
#[local] Instance live_dec d owner p : Decision (live d owner p).
Proof. unfold live. apply _. Defined.

(** What a step of a goroutine does to the table and what it reports.  An unlock
    and the collector remove exactly the locks they are to remove, unless the
    shard they refer to was pruned meanwhile: then they remove nothing.  An unlock
    by transaction and the collector visit every shard registered when they
    start; the collector marks exactly the entries whose transaction is unknown,
    deleted, or confirmed and idle for too long. *)
Definition promised (o : oracle) (d : locker) (c c' : pc) (L L' : table) : Prop :=
  match c, c' with
  | LockCheck _ r, Returned (RLocked holder err) => unchanged L L' /\ err <> None /\ exists e, L (lr_owner r) (lr_id r) = Some e /\ holder = le_TxID e
  | LockWrite _ r obs, Returned (RLocked holder None) =>
      (L (lr_owner r) (lr_id r) = None \/
       exists e s, L (lr_owner r) (lr_id r) = Some e /\ lr_reclaim r = true /\ obs = Some (mkObservation (le_TxID e) (le_LastAccess e) s) /\ s = Deleted) /\
      exists now, for_owner (lr_owner r) (fun i e => if decide (i = lr_id r) then Some (mkLockEntry (lr_txID r) (lr_owner r) now now) else e) L L'
  | LockWrite _ r obs, Returned (RLocked holder (Some _)) =>
      exists e now, L (lr_owner r) (lr_id r) = Some e /\ holder = le_TxID e /\
        for_owner (lr_owner r) (fun i x => if decide (i = lr_id r) then Some (mkLockEntry (le_TxID e) (le_Identity e) (le_Created e) now) else x) L L'
  | UnlockDelete p owner ids, UnlockPrune _ _ notFound =>
      if decide (live d owner p)
      then for_owner owner (fun i e => if decide (i ∈ ids) then None else e) L L' /\ (NoDup ids -> forall i, i ∈ notFound <-> i ∈ ids /\ L owner i = None)
      else unchanged L L' /\ notFound = ids
  | UnlockDelete _ _ _, _ => False
  | TxSnapshot txID, c' => unchanged L L' /\ exists l, c' = TxDelete txID l /\ forall owner p, live d owner p -> (owner, p) ∈ l
  | TxDelete txID ((owner, p) :: l), c' => c' = TxPrune txID owner p l /\
      if decide (live d owner p)
      then for_owner owner (fun i e => match e with Some e => if decide (le_TxID e = txID) then None else Some e | None => None end) L L'
      else unchanged L L'
  | IsLockedSnapshot id, c' => unchanged L L' /\ exists l, c' = IsLockedNext id l /\ forall owner p, live d owner p -> (owner, p) ∈ l
  | IsLockedNext id [], c' => unchanged L L' /\ c' = Returned (RBool false)
  | IsLockedNext id ((owner, p) :: l), c' => unchanged L L' /\
      c' = match (if decide (live d owner p) then L owner id else None) with Some _ => Returned (RBool true) | None => IsLockedNext id l end
  | TxPrune txID _ _ l, c' => unchanged L L' /\ c' = TxDelete txID l
  | ScanStart, ScanInspect l => unchanged L L' /\ forall owner p, live d owner p -> (owner, p) ∈ l
  | ScanInspect ((owner, p) :: l), c' => unchanged L L' /\ exists observed, c' = ScanStatus owner p observed [] l /\
      (live d owner p -> forall i e, L owner i = Some e -> Exists (same_entry i e) observed)
  | ScanStatus owner p (e :: observed) marked l, c' => unchanged L L' /\
      c' = ScanStatus owner p observed (if removable validTxEvictionTimeout (or_now o) e (or_GetStatus o (oe_txID e)) then marked ++ [e] else marked) l
  | ScanStatus owner p [] marked l, c' => unchanged L L' /\ c' = ScanDelete owner p marked l
  | ScanDelete owner p removed l, c' => c' = ScanPrune owner p l /\
      if decide (live d owner p)
      then for_owner owner (fun i e => match e with Some e => if decide (Exists (same_entry i e) removed) then None else Some e | None => None end) L L'
      else unchanged L L'
  | _, _ => unchanged L L'
  end.

Lemma lock_of_create d owner : shards_ok d -> unchanged (lock_of d) (lock_of (createShard d owner).2).
Proof.
  intros Hd o i. pose proof (createShard_spec d owner) as H. destruct (lk_shards d !! owner) as [q|] eqn:E; [by rewrite H|]. destruct H as (q & Hq & ->). unfold lock_of. cbn.
  destruct (decide (o = owner)) as [->|Hne]; [rewrite lookup_insert_eq, E; cbn; by rewrite lookup_insert_eq|]. rewrite lookup_insert_ne by done.
  destruct (lk_shards d !! o) as [p|] eqn:Eo; [|done]. cbn. destruct (so_registered _ Hd o p Eo) as (s & Hs & _). by rewrite lookup_insert_ne by congruence.
Qed.

Lemma lock_of_prune d owner p s : shards_ok d -> lk_heap d !! p = Some s -> unchanged (lock_of d) (lock_of (pruneEmptyShard d owner p s)).
Proof.
  intros Hd Hs o i. unfold lock_of, pruneEmptyShard. destruct (decide _) as [[He Ho]|_]; cbn.
  - destruct (decide (o = owner)) as [->|Hne]; [rewrite lookup_delete_eq, Ho; cbn; by rewrite Hs; cbn; rewrite He|]. rewrite lookup_delete_ne by done.
    destruct (lk_shards d !! o) as [q|] eqn:E; [|done]. cbn. rewrite lookup_insert_ne; [done|]. intros <-. by apply Hne, (so_unique _ Hd _ _ p).
  - destruct (lk_shards d !! o) as [q|]; [|done]. cbn. destruct (decide (q = p)) as [->|Hne]; [by rewrite lookup_insert_eq, Hs|by rewrite lookup_insert_ne].
Qed.

(** A write to a shard that is in the registry changes the table of its owner;
    one to a pruned shard changes nothing. *)
Lemma lock_of_write d owner p s locked mu : shards_ok d -> ref_ok d (owner, p) -> lk_heap d !! p = Some s ->
  let d' := set_shard d p (mkShard locked (sh_pruned s) mu) in
  if sh_pruned s then unchanged (lock_of d) (lock_of d')
  else (forall i, lock_of d owner i = sh_locked s !! i) /\ forall o i, lock_of d' o i = if decide (o = owner) then locked !! i else lock_of d o i.
Proof.
  intros Hd (s' & Hs' & Hp) Hs d'. cbn in Hs', Hp. assert (s' = s) as -> by congruence.
  assert (forall o i, lk_shards d !! o <> Some p -> lock_of d' o i = lock_of d o i) as Hne.
  { intros o i Ho. unfold lock_of. cbn. destruct (lk_shards d !! o) as [q|]; [|done]. cbn. by rewrite lookup_insert_ne by congruence. }
  destruct (sh_pruned s) eqn:Ep.
  - intros o i. apply Hne. intros Ho. destruct (so_registered _ Hd o p Ho) as (s2 & Hs2 & ?). congruence.
  - destruct Hp as [?|Ho]; [done|]. split.
    + intros i. unfold lock_of. rewrite Ho. cbn. by rewrite Hs.
    + intros o i. destruct (decide (o = owner)) as [->|Hn]; [|apply Hne; intros Ho'; by apply Hn, (so_unique _ Hd _ _ p)]. unfold lock_of. cbn. rewrite Ho. cbn. by rewrite lookup_insert_eq.
Qed.

Lemma unlockLoop_notFound : forall ids locked, NoDup ids -> forall i, i ∈ (unlockLoop locked ids).2 <-> i ∈ ids /\ locked !! i = None.
Proof.
  induction ids as [|id ids IH]; intros locked Hnd i; cbn [unlockLoop]; [set_solver|]. apply NoDup_cons in Hnd as [Hid Hnd]. destruct (locked !! id) as [e|] eqn:E.
  - rewrite IH by done. rewrite elem_of_cons. destruct (decide (i = id)) as [->|Hne]; [split; [tauto|intros [_ ?]; congruence]|]. rewrite lookup_delete_ne by done. tauto.
  - specialize (IH locked Hnd i). destruct (unlockLoop locked ids) as [l nf]. cbn in *. rewrite !elem_of_cons, IH. destruct (decide (i = id)) as [->|Hne]; tauto.
Qed.

Lemma unlockLoop_notFound_empty ids : (unlockLoop ∅ ids).2 = ids.
Proof. induction ids as [|id ids IH]; [done|]. cbn [unlockLoop]. rewrite lookup_empty. destruct (unlockLoop ∅ ids). cbn in *. by f_equal. Qed.

(** A shard is live exactly when it was not pruned. *)
Lemma live_pruned {A} d owner p s (x y : A) : shards_ok d -> ref_ok d (owner, p) -> lk_heap d !! p = Some s ->
  (if decide (live d owner p) then x else y) = if sh_pruned s then y else x.
Proof.
  intros Hd (s' & Hs' & Hp) Hs. cbn in Hs', Hp. assert (s' = s) as -> by congruence. destruct (decide (live d owner p)) as [Hl|Hl].
  - destruct (so_registered _ Hd _ _ Hl) as (s2 & Hs2 & E). assert (s2 = s) as -> by congruence. by rewrite E.
  - destruct Hp as [->|?]; done.
Qed.

(** The shards a fair range visits. *)
Lemma visits_live o d owner p : fair_oracle o -> live d owner p -> (owner, p) ∈ or_shards o (lk_shards d).
Proof. intros [Ho _] Hl. rewrite Ho. by apply elem_of_map_to_list. Qed.

Lemma LockWrite_promised o t p r obs d c' d' : shards_ok d -> ref_ok d (lr_owner r, p) -> step o t (LockWrite p r obs) d = Some (c', d') ->
  promised o d (LockWrite p r obs) c' (lock_of d) (lock_of d').
Proof.
  intros Hd Hr H. cbn [ShardedLocker.step lockStep unlockStep unlockByTxStep isLockedStep scanStep] in H. apply bind_Some in H as (s & [Hs Hmu]%free_shard_Some & H).
  pose proof (fun l => lock_of_write d (lr_owner r) p s l None Hd Hr Hs) as Hw. cbn zeta in Hw. destruct (sh_pruned s); [by injection H as <- <-|].
  destruct (lockWrite _ _ _ _ _) as [locked [holder err]] eqn:El. injection H as <- <-. destruct (Hw locked) as [Hold Hnew]. clear Hw. unfold lockWrite in El.
  destruct (sh_locked s !! lr_id r) as [e|] eqn:Ee.
  - destruct (_ && _ && _) eqn:Hb.
    + injection El as <- <- <-. split.
      * right. apply andb_true_iff in Hb as [Hb Hst]. apply andb_true_iff in Hb as [Hrec Hob]. destruct obs as [[tx la st]|]; [|done]. cbn in *. apply andb_true_iff in Hob as [E1%bool_decide_eq_true E2%Z.eqb_eq].
        apply Z.eqb_eq in Hst. exists e, st. rewrite Hold, Ee. subst. done.
      * exists (or_now o). intros o' i. rewrite Hnew. destruct (decide (o' = lr_owner r)) as [->|]; [|done]. rewrite Hold. destruct (decide (i = lr_id r)) as [->|Hne]; [by rewrite lookup_insert_eq|by rewrite lookup_insert_ne].
    + injection El as <- <- <-. exists e, (or_now o). rewrite Hold, Ee. split; [done|]. split; [done|].
      intros o' i. rewrite Hnew. destruct (decide (o' = lr_owner r)) as [->|]; [|done]. rewrite Hold. destruct (decide (i = lr_id r)) as [->|Hne]; [by rewrite lookup_insert_eq|by rewrite lookup_insert_ne].
  - injection El as <- <- <-. split; [left; by rewrite Hold|]. exists (or_now o). intros o' i. rewrite Hnew.
    destruct (decide (o' = lr_owner r)) as [->|]; [|done]. rewrite Hold. destruct (decide (i = lr_id r)) as [->|Hne]; [by rewrite lookup_insert_eq|by rewrite lookup_insert_ne].
Qed.

Lemma UnlockDelete_promised o t p owner ids d c' d' : shards_ok d -> ref_ok d (owner, p) -> step o t (UnlockDelete p owner ids) d = Some (c', d') ->
  promised o d (UnlockDelete p owner ids) c' (lock_of d) (lock_of d').
Proof.
  intros Hd Hr H. cbn [ShardedLocker.step lockStep unlockStep unlockByTxStep isLockedStep scanStep] in H. apply bind_Some in H as (s & [Hs Hmu]%free_shard_Some & H). destruct (unlockLoop (sh_locked s) ids) as [locked nf] eqn:El. injection H as <- <-.
  pose proof (lock_of_write d owner p s locked (Some t) Hd Hr Hs) as Hw. cbn zeta in Hw. cbn [promised]. rewrite (live_pruned d owner p s _ _ Hd Hr Hs). destruct (sh_pruned s) eqn:Ep.
  - split; [done|]. rewrite (so_empty _ Hd p s) in El by done. pose proof (unlockLoop_notFound_empty ids) as Hn. by rewrite El in Hn.
  - destruct Hw as [Hold Hnew]. split.
    + intros o' i. rewrite Hnew. destruct (decide (o' = owner)) as [->|]; [|done]. rewrite Hold. pose proof (unlockLoop_lookup ids (sh_locked s) i) as Hl. by rewrite El in Hl.
    + intros Hnd i. rewrite Hold. pose proof (unlockLoop_notFound ids (sh_locked s) Hnd i) as Hn. by rewrite El in Hn.
Qed.

Lemma step_promised o t c d c' d' : fair_oracle o -> shards_ok d -> (forall op, op ∈ refs c -> ref_ok d op) -> step o t c d = Some (c', d') -> promised o d c c' (lock_of d) (lock_of d').
Proof.
  intros Hfair Hd Hr H. destruct c; try (by eapply LockWrite_promised; [done|apply Hr; left|exact H]); try (by eapply UnlockDelete_promised; [done|apply Hr; left|exact H]); cbn [ShardedLocker.step lockStep unlockStep unlockByTxStep isLockedStep scanStep] in H.
  - unfold registered in H. destruct (lk_shards d !! _); by step_inv.
  - pose proof (lock_of_create d (lr_owner r) Hd) as Hc. destruct (createShard d (lr_owner r)) as [p d1]. by step_inv.
  - step_inv. destruct (sh_locked x !! lr_id r) as [e|] eqn:Ee, (lr_reclaim r); step_inv; try done. cbn. split; [done|]. split; [done|]. exists e. split; [|done].
    apply free_shard_Some in H0 as [Hs _]. destruct (Hr (lr_owner r, p)) as (s & Hs' & Hp); [by left|]. cbn in Hs', Hp. assert (s = x) as -> by congruence.
    destruct Hp as [Hp|Ho]; [by rewrite (so_empty _ Hd p x Hs Hp) in Ee|]. unfold lock_of. rewrite Ho. cbn. by rewrite Hs.
  - step_inv. destruct (sh_locked x !! lr_id r); by step_inv.
  - by step_inv.
  - unfold registered in H. destruct (lk_shards d !! _); by step_inv.
  - pose proof (lock_of_create d owner Hd) as Hc. destruct (createShard d owner) as [p d1]. by step_inv.
  - step_inv. by apply lock_of_prune.
  - step_inv. split; [done|]. eexists. split; [done|]. intros. by apply visits_live.
  - destruct l as [|[owner p] l]; step_inv; [done|]. apply free_shard_Some in H0 as [Hs _]. cbn [promised]. split; [done|]. rewrite (live_pruned d owner p x) by (try done; apply Hr; by left).
    pose proof (lock_of_write d owner p x (unlockTx txID (sh_locked x)) (Some t) Hd (Hr (owner, p) ltac:(by left)) Hs) as Hw. cbn zeta in Hw. destruct (sh_pruned x); [done|].
    destruct Hw as [Hold Hnew]. intros o' i. rewrite Hnew. destruct (decide (o' = owner)) as [->|]; [|done]. by rewrite Hold, unlockTx_lookup.
  - step_inv. split; [by apply lock_of_prune|done].
  - step_inv. split; [done|]. eexists. split; [done|]. intros. by apply visits_live.
  - destruct l as [|[owner p] l]; step_inv; [done|]. apply free_shard_Some in H0 as [Hs _]. cbn [promised]. rewrite (live_pruned d owner p x) by (try done; apply Hr; by left).
    destruct (Hr (owner, p) ltac:(by left)) as (s & Hs' & Hp). cbn in Hs', Hp. assert (s = x) as -> by congruence. destruct (sh_pruned x) eqn:Ep.
    + rewrite (so_empty _ Hd p x Hs Ep), lookup_empty in H. by step_inv.
    + destruct Hp as [?|Ho]; [done|]. unfold lock_of at 3. rewrite Ho. cbn. rewrite Hs. cbn. destruct (sh_locked x !! id); by step_inv.
  - destruct (or_cancelled o); step_inv; [done|]. split; [done|]. intros. by apply visits_live.
  - destruct l as [|[owner p] l]; step_inv; [done|]. split; [done|]. eexists. split; [done|]. intros Hl i e. apply free_shard_Some in H0 as [Hs _]. unfold lock_of. rewrite Hl. cbn. rewrite Hs. cbn.
    intros He. apply Exists_exists. exists (mkObservedEntry i (le_TxID e) (le_LastAccess e)). split; [|done]. unfold inspect. apply list_elem_of_fmap. exists (i, e). split; [done|].
    destruct Hfair as [_ Hfair]. rewrite Hfair. by apply elem_of_map_to_list.
  - destruct observed; by step_inv.
  - step_inv. apply free_shard_Some in H0 as [Hs _]. cbn [promised]. split; [done|]. rewrite (live_pruned d owner p x) by (try done; apply Hr; by left).
    pose proof (lock_of_write d owner p x (collect (sh_locked x) removeList) (Some t) Hd (Hr (owner, p) ltac:(by left)) Hs) as Hw. cbn zeta in Hw. destruct (sh_pruned x); [done|].
    destruct Hw as [Hold Hnew]. intros o' i. rewrite Hnew. destruct (decide (o' = owner)) as [->|]; [|done]. by rewrite Hold, collect_lookup.
  - step_inv. by apply lock_of_prune.
  - destruct (or_cancelled o); by step_inv.
  - destruct l as [|[owner p] l]; step_inv; [destruct (0 <? total)%nat; by step_inv|done].
  - done.
Qed.

(** C30: the goroutines implement one table of locks.  Whatever they do and
    however they interleave, a step of [Lock] that succeeds finds its token
    unlocked, or held by a transaction whose status was read as deleted and whose
    entry has not changed since, and puts its lock in the table; one that fails
    names the holder and keeps its lock.  An unlock removes exactly the locks it
    names and reports those that were not there; an unlock by transaction visits
    every shard registered when it starts and removes exactly the locks of the
    transaction; the collector inspects every lock of the shards registered when
    it starts, marks those whose transaction is unknown, deleted, or confirmed and
    idle for too long, and removes the marked entries that did not change since.
    [IsLocked] reports the lock of the shard it reads.  A shard that was pruned
    between the lookup and the removal is left alone, and nothing else changes the table, the pruning of shards included. *)
Theorem locker_refines_table T d t c o c' d' : Reachable debug validTxEvictionTimeout (T, d) -> T !! t = Some c -> fair_oracle o ->
  step o t c d = Some (c', d') -> promised o d c c' (lock_of d) (lock_of d').
Proof. intros Hr Ht Ho Hs. apply reachable_inv in Hr as [Hd Hrefs _ _]. eapply step_promised; [done|done| |done]. intros op. by apply (Hrefs t). Qed.

(** ** Progress *)

Lemma holder_steps T d t c p o : locker_inv (T, d) -> T !! t = Some c -> holds c = Some p -> is_Some (step o t c d).
Proof. intros [_ _ _ Hh] Ht Hp. destruct (Hh t c p Ht Hp) as (s & Hs & _). cbn in Hs. destruct c; try done; injection Hp as ->; cbn; rewrite Hs; by eexists. Qed.

(** A goroutine waits at most for the mutex of a shard it refers to. *)
Lemma step_or_waits o t c d : (forall res, c <> Returned res) -> (forall op, op ∈ refs c -> is_Some (lk_heap d !! op.2)) ->
  is_Some (step o t c d) \/ exists op s t', op ∈ refs c /\ lk_heap d !! op.2 = Some s /\ sh_mu s = Some t'.
Proof.
  intros Hc Hr.
  assert (forall op, op ∈ refs c -> (exists s, free_shard d op.2 = Some s) \/ exists op s t', op ∈ refs c /\ lk_heap d !! op.2 = Some s /\ sh_mu s = Some t') as Hf.
  { intros op Hop. destruct (Hr op Hop) as [s Hs]. destruct (sh_mu s) as [t'|] eqn:Em; [right; by exists op, s, t'|left; exists s]. unfold free_shard. rewrite Hs. cbn. by rewrite Em. }
  destruct c as [r|r|p r|p r|p r tx la|p r obs|owner ids|owner ids|p owner ids|p owner nf|tx|tx l|tx owner p l|id|id l| |l|owner p ob rm l|owner p rm l|owner p l| |l total|res]; cbn [ShardedLocker.step lockStep unlockStep unlockByTxStep isLockedStep scanStep refs] in *;
    try (by left; eexists); try (left; destruct (createShard _ _); by eexists); try (by destruct (Hc res)).
  all: try (destruct l as [|[ow q] l]; [by left; eexists|]).
  all: try (destruct (Hf _ ltac:(by left)) as [[s Hs]|?]; [cbn in Hs; left; rewrite Hs; cbn|by right]).
  all: try (by eexists).
  - destruct (sh_pruned s); [by eexists|]. destruct (lockWrite _ _ _ _ _) as [? [? ?]]. by eexists.
  - destruct (unlockLoop _ _). by eexists.
  - destruct (Hr (owner, p) ltac:(by left)) as [s Hs]. cbn in Hs. left. rewrite Hs. by eexists.
  - destruct (Hr (owner, p) ltac:(by left)) as [s Hs]. cbn in Hs. left. rewrite Hs. by eexists.
  - left. destruct ob; by eexists.
  - destruct (Hr (owner, p) ltac:(by left)) as [s Hs]. cbn in Hs. left. rewrite Hs. by eexists.
Qed.

(** No deadlock: a goroutine that has not returned can take a step, or waits
    for a mutex held by another one that can. *)
Theorem locker_no_deadlock T d t c o : Reachable debug validTxEvictionTimeout (T, d) -> T !! t = Some c -> (forall res, c <> Returned res) ->
  is_Some (step o t c d) \/ exists t' c' p, t' <> t /\ T !! t' = Some c' /\ holds c' = Some p /\ is_Some (step o t' c' d).
Proof.
  intros Hr Ht Hc. pose proof (reachable_inv _ Hr) as Hi. pose proof Hi as [_ Hrefs Hm Hh]. cbn in Hrefs, Hm, Hh. destruct (step_or_waits o t c d Hc) as [?|(op & s & t' & Hop & Hs & Hmu)]; [|by left|].
  { intros op Hop. destruct (Hrefs t c op Ht Hop) as (s & Hs & _). by eexists. }
  destruct (Hm _ s t' Hs Hmu) as (c' & Hc' & Hp). pose proof (holder_steps T d t' c' op.2 o Hi Hc' Hp) as Hst. destruct (decide (t' = t)) as [->|Hne]; [left|right; by exists t', c', op.2].
  by assert (c' = c) as -> by congruence.
Qed.

(** ** A goroutine on its own *)

Fixpoint solo (os : list oracle) (t : tid) (c : pc) (d : locker) : pc * locker :=
  match os with
  | [] => (c, d)
  | o :: os => match step o t c d with Some (c', d') => solo os t c' d' | None => (c, d) end
  end.

Definition in_Lock (c : pc) : bool :=
  match c with LockGet _ | LockCreate _ | LockCheck _ _ | LockObserve _ _ | LockStatus _ _ _ _ | LockWrite _ _ _ => true | _ => false end.

Definition answers (n : nat) (t : tid) (c : pc) (d : locker) : Prop :=
  forall os, (n <= length os)%nat -> exists holder err d', solo os t c d = (Returned (RLocked holder err), d').

Lemma answers_step n t c d : (forall o, exists c' d', step o t c d = Some (c', d') /\ answers n t c' d') -> answers (S n) t c d.
Proof. intros H [|o os] Hl; cbn in Hl; [lia|]. destruct (H o) as (c' & d' & E & Ha). cbn. rewrite E. apply Ha. lia. Qed.

Lemma answers_returned t holder err d n : answers n t (Returned (RLocked holder err)) d.
Proof. intros [|o os] _; by eexists _, _, _. Qed.

Lemma answers_mono n m t c d : (n <= m)%nat -> answers n t c d -> answers m t c d.
Proof. intros Hle Ha os Hl. apply Ha. lia. Qed.

Section Solo.
Context (t : tid) (r : lockRequest).

(** The shard at [p] is free, and writing to it takes [n] steps. *)
Definition usable (n : nat) (p : ptr) (d : locker) : Prop := exists s, free_shard d p = Some s /\ forall obs, answers n t (LockWrite p r obs) d.

Lemma live_usable p d s : free_shard d p = Some s -> sh_pruned s = false -> usable 1 p d.
Proof.
  intros Hf Hp. exists s. split; [done|]. intros obs. apply answers_step. intros o. cbn [ShardedLocker.step lockStep unlockStep unlockByTxStep isLockedStep scanStep]. rewrite Hf. cbn. rewrite Hp. destruct (lockWrite _ _ _ _ _) as [l [h e]].
  eexists _, _. split; [done|apply answers_returned].
Qed.

Lemma LockStatus_answers n p d tx la : usable n p d -> answers (S n) t (LockStatus p r tx la) d.
Proof. intros (s & _ & Ha). apply answers_step. intros o. eexists _, _. split; [done|]. apply Ha. Qed.

Lemma LockObserve_answers n p d : usable n p d -> answers (S (S n)) t (LockObserve p r) d.
Proof.
  intros Hu. pose proof Hu as (s & Hf & Ha). apply answers_step. intros o. cbn [ShardedLocker.step lockStep unlockStep unlockByTxStep isLockedStep scanStep]. rewrite Hf. cbn. destruct (sh_locked s !! lr_id r); eexists _, _; (split; [done|]); [by apply LockStatus_answers|].
  eapply answers_mono; [|apply Ha]. lia.
Qed.

Lemma LockCheck_answers n p d : usable n p d -> answers (S (S (S n))) t (LockCheck p r) d.
Proof.
  intros Hu. pose proof Hu as (s & Hf & Ha). apply answers_step. intros o. cbn [ShardedLocker.step lockStep unlockStep unlockByTxStep isLockedStep scanStep]. rewrite Hf. cbn.
  destruct (sh_locked s !! lr_id r), (lr_reclaim r); eexists _, _; (split; [done|]); [by apply LockObserve_answers|apply answers_returned|by apply LockObserve_answers|].
  eapply answers_mono; [|apply Ha]. lia.
Qed.

Lemma LockGet_answers d : shards_ok d -> (forall p s, lk_heap d !! p = Some s -> sh_mu s = None) -> answers 5 t (LockCreate r) d /\ answers 6 t (LockGet r) d.
Proof.
  intros Hd Hfree.
  assert (forall p, lk_shards d !! lr_owner r = Some p -> usable 1 p d) as Hreg.
  { intros p Ho. destruct (so_registered _ Hd _ p Ho) as (s & Hs & Hp). apply (live_usable p d s); [|done]. unfold free_shard. rewrite Hs. cbn. by rewrite (Hfree p s Hs). }
  assert (answers 5 t (LockCreate r) d) as Hcr.
  { apply answers_step. intros o. cbn [ShardedLocker.step lockStep unlockStep unlockByTxStep isLockedStep scanStep]. pose proof (createShard_spec d (lr_owner r)) as H. destruct (lk_shards d !! lr_owner r) as [p|] eqn:E.
    - rewrite H. eexists _, _. split; [done|]. by apply (LockCheck_answers 1), Hreg.
    - destruct H as (p & Hp & ->). eexists _, _. split; [done|]. apply (LockCheck_answers 1), (live_usable p _ newShard); [|done]. unfold free_shard. cbn. by rewrite lookup_insert_eq. }
  split; [done|]. apply answers_step. intros o. cbn [ShardedLocker.step lockStep unlockStep unlockByTxStep isLockedStep scanStep]. unfold registered. destruct (lk_shards d !! lr_owner r) as [p|] eqn:E; eexists _, _; (split; [done|]); [|done].
  eapply answers_mono; [|apply (LockCheck_answers 1), Hreg, eq_refl]. lia.
Qed.
End Solo.

(** [Lock] returns: a goroutine inside [Lock], even one that holds a shard
    that was pruned behind its back, returns within ten of its own steps when no
    other goroutine is in a critical section. *)
Theorem lock_returns_alone T d t c : Reachable debug validTxEvictionTimeout (T, d) -> T !! t = Some c -> in_Lock c = true ->
  (forall p s, lk_heap d !! p = Some s -> sh_mu s = None) -> answers 10 t c d.
Proof.
  intros Hr Ht Hc Hfree. apply reachable_inv in Hr as [Hd Hrefs _ _]. cbn in Hd, Hrefs.
  assert (forall r p, (lr_owner r, p) ∈ refs c -> usable t r 7 p d) as Hu.
  { intros r p Hp. destruct (Hrefs t c _ Ht Hp) as (s & Hs & _). cbn in Hs. assert (free_shard d p = Some s) as Hf by (unfold free_shard; rewrite Hs; cbn; by rewrite (Hfree p s Hs)).
    destruct (sh_pruned s) eqn:Ep.
    - exists s. split; [done|]. intros obs. apply answers_step. intros o. cbn [ShardedLocker.step lockStep unlockStep unlockByTxStep isLockedStep scanStep]. rewrite Hf. cbn. rewrite Ep. eexists _, _. split; [done|]. by apply LockGet_answers.
    - destruct (live_usable t r p d s Hf Ep) as (s' & Hs' & Ha). exists s'. split; [done|]. intros obs. eapply answers_mono; [|apply Ha]. lia. }
  destruct c; try done; cbn [refs] in Hu.
  - eapply answers_mono; [|by apply LockGet_answers]. lia.
  - eapply answers_mono; [|by apply LockGet_answers]. lia.
  - apply (LockCheck_answers t r 7), Hu. by left.
  - eapply answers_mono; [|apply (LockObserve_answers t r 7), Hu; by left]. lia.
  - eapply answers_mono; [|apply (LockStatus_answers t r 7), Hu; by left]. lia.
  - destruct (Hu r p) as (s & _ & Ha); [by left|]. eapply answers_mono; [|apply Ha]. lia.
Qed.
End Run.

(** ** A run *)

Definition demo_oracle : oracle := mkOracle 100 (fun _ => Some Pending) map_to_list map_to_list false.

(** Calls and steps in a given order, all with the same clock and store. *)
Inductive script := Call (t : tid) (c : pc) | Run (t : tid).

Definition play1 (a : script) (x : config) : option config :=
  match a with
  | Call t c => match x.1 !! t with None => if initial c then Some (<[t := c]> x.1, x.2) else None | Some _ => None end
  | Run t => c ← x.1 !! t; '(c', d') ← step false 0 demo_oracle t c x.2; Some (<[t := c']> x.1, d')
  end.
Definition play (l : list script) (x : config) : option config := foldl (fun x a => x ≫= play1 a) (Some x) l.

Lemma play_reachable l x y : Reachable false 0 x -> play l x = Some y -> Reachable false 0 y.
Proof.
  unfold play. revert x. induction l as [|a l IH]; intros x Hx; [by intros [= <-]|]. cbn [foldl]. cbn [mbind option_bind]. destruct (play1 a x) as [z|] eqn:E; [apply IH|].
  2: { intros Hf. exfalso. clear -Hf. induction l as [|b l IH]; [done|]. by apply IH. }
  apply (Reachable_step _ _ x); [done|]. destruct x as [T d]. destruct a as [t c|t]; cbn in E.
  - destruct (T !! t) eqn:Et; [done|]. destruct (initial c) eqn:Ec; [|done]. injection E as <-. by constructor.
  - destruct (T !! t) as [c|] eqn:Et; [|done]. cbn in E. destruct (step _ _ _ _ _ _) as [[c' d']|] eqn:Es; [|done]. injection E as <-. eapply Step_run; [done| |done]. split; reflexivity.
Qed.

Definition alice : bytes := str "alice".
Definition lock_a : lockRequest := mkLockRequest alice (mkID (str "a") 0) (str "tx1") false.
Definition lock_b : lockRequest := mkLockRequest alice (mkID (str "b") 0) (str "tx2") false.

(** Goroutine 2 gets the shard of alice; goroutine 1 unlocks the only token and
    prunes it; goroutine 2 starts again and is about to write to a new one. *)
Definition pruned_behind : list script :=
  [Call 0 (LockGet lock_a); Run 0; Run 0; Run 0; Run 0; Call 2 (LockGet lock_b); Run 2; Run 2;
   Call 1 (UnlockGet alice [mkID (str "a") 0]); Run 1; Run 1; Run 1]%nat.
Definition retried : list script := pruned_behind ++ [Run 2; Run 2; Run 2; Run 2]%nat.

Definition at_rest (l : list script) : config := default (∅, NewLocker) (play l (∅, NewLocker)).

Definition plays (l : list script) : bool := match play l (∅, NewLocker) with Some _ => true | None => false end.

Lemma at_rest_reachable l : plays l = true -> Reachable false 0 ((at_rest l).1, (at_rest l).2).
Proof. unfold plays, at_rest. destruct (play l (∅, NewLocker)) as [y|] eqn:Hy; [|done]. intros _. cbn. destruct y. eapply play_reachable; [constructor|done]. Qed.

Lemma locker_refines_table_witness : promised 0 demo_oracle (at_rest retried).2 (LockWrite 1 lock_b None) (Returned (RLocked [] None)) (lock_of (at_rest retried).2)
  (lock_of (default (Returned RUnit, NewLocker) (step false 0 demo_oracle 2%nat (LockWrite 1 lock_b None) (at_rest retried).2)).2).
Proof.
  apply (locker_refines_table false 0 (at_rest retried).1 (at_rest retried).2 2%nat (LockWrite 1 lock_b None) demo_oracle).
  - apply at_rest_reachable. vm_compute. reflexivity.
  - vm_compute. reflexivity.
  - split; reflexivity.
  - vm_compute. reflexivity.
Defined.

(** Goroutine 1 is between the deletion and the pruning of the shard. *)
Definition unlocking : list script :=
  [Call 0 (LockGet lock_a); Run 0; Run 0; Run 0; Run 0; Call 2 (LockGet lock_b); Run 2;
   Call 1 (UnlockGet alice [mkID (str "a") 0]); Run 1; Run 1]%nat.

Lemma locker_no_deadlock_witness : is_Some (step false 0 demo_oracle 2%nat (LockCheck 0 lock_b) (at_rest unlocking).2) \/
  exists t' c' p, t' <> 2%nat /\ (at_rest unlocking).1 !! t' = Some c' /\ holds c' = Some p /\ is_Some (step false 0 demo_oracle t' c' (at_rest unlocking).2).
Proof.
  apply (locker_no_deadlock false 0 (at_rest unlocking).1 (at_rest unlocking).2 2%nat (LockCheck 0 lock_b) demo_oracle).
  - apply at_rest_reachable. vm_compute. reflexivity.
  - vm_compute. reflexivity.
  - discriminate.
Defined.

Lemma lock_returns_alone_witness : exists holder err d',
  solo false 0 (repeat demo_oracle 10) 2%nat (LockWrite 0 lock_b None) (at_rest pruned_behind).2 = (Returned (RLocked holder err), d').
Proof.
  apply (lock_returns_alone false 0 (at_rest pruned_behind).1 (at_rest pruned_behind).2 2%nat (LockWrite 0 lock_b None)).
  - apply at_rest_reachable. vm_compute. reflexivity.
  - vm_compute. reflexivity.
  - reflexivity.
  - assert (map_Forall (fun _ s => sh_mu s = None) (lk_heap (at_rest pruned_behind).2)) as H by (apply (bool_decide_unpack _); vm_compute; exact I). intros p s. apply H.
  - cbn. lia.
Defined.
