(* ===== verification/SimpleSelector.v ===== *)
(** * The simple token selector (services/selector/simple/selector.go)

    A selection scans the wallet's tokens, locks them one by one, and starts over
    when it could not lock enough or when the tokens turn out to be gone.  The
    lock store, the queries, the waits and everything other processes do are the
    world [W]; metrics and database cursors are left out. *)

From S2P Require Import Prelude Quantity TokenTypes Sherdlock SherdlockSafety.
From Stdlib Require Import ZArith Lia.
Local Open Scope Z_scope.

Abbreviation tokens := (list (res UnspentToken)).

(** [Locker], [QueryService] and the wait between two attempts. *)
Class SimpleWorld (W : Type) := {
  Lock : bytes -> ID -> bytes -> bool -> W -> (bytes * option error) * W;
  UnlockIDs : bytes -> list ID -> W -> list ID * W;
  unspent_by : bytes -> bytes -> W -> res tokens * W;
  GetTokens : list ID -> W -> option error * W;
  (** [Some e]: the context was cancelled meanwhile. *)
  wait : W -> option error * W;
}.

Section Simple.
Context {W : Type} {SW : SimpleWorld W} (txID : bytes) (precision : Z) (numRetry : Z).

Definition callW {A} (f : W -> A * W) : M W A := fun w => let '(a, w) := f w in (Ok a, w).
Definition callWR {A} (f : W -> res A * W) : M W A := fun w => f w.

(** [UnlockIDs] of [toBeSpent], and of [toBeCertified] which is always nil. *)
Definition unlockBoth (id : bytes) (toBeSpent : list ID) : M W unit :=
  callW (UnlockIDs id toBeSpent) ;; callW (UnlockIDs id []) ;; mret tt.

(** An error of [r] releases what was locked before it is returned. *)
Definition orUnlock {A} (id : bytes) (toBeSpent : list ID) (r : res A) : M W A :=
  match r with
  | Err e => unlockBoth id toBeSpent ;; lift (Err e)
  | r => lift r
  end.

(** The inner loop: the tokens locked, their sum, and the sum of all seen. *)
Fixpoint scanTokens (id : bytes) (target : Quantity) (reclaim : bool) (it : tokens) (toBeSpent : list ID) (sum potential : Quantity) : M W (list ID * Quantity * Quantity) :=
  match it with
  | [] => mret (toBeSpent, sum, potential)
  | r :: it =>
      t ← wrapM "token selection failed" (lift r);
      q ← orUnlock id toBeSpent (wrap "failed to convert quantity" (ToQuantity (UnspentToken_Quantity t) precision));
      '(_, lockErr) ← callW (Lock id (UnspentToken_Id t) txID reclaim);
      match lockErr with
      | Some e =>
          if errors_Is e SelectorRateLimited then unlockBoth id toBeSpent ;; lift (Err e) else
          potential ← orUnlock id toBeSpent (wrap "failed to add locked quantity" (Add potential q));
          scanTokens id target reclaim it toBeSpent sum potential
      | None =>
          let toBeSpent := toBeSpent ++ [UnspentToken_Id t] in
          sum ← orUnlock id toBeSpent (wrap "failed to add quantity" (Add sum q));
          potential ← orUnlock id toBeSpent (wrap "failed to add quantity" (Add potential q));
          c ← lift (Cmp target sum);
          if c <=? 0 then mret (toBeSpent, sum, potential) else scanTokens id target reclaim it toBeSpent sum potential
      end
  end.

(** The error of the last attempt. *)
Definition failure (concurrencyIssue : bool) (target sum potential : Quantity) : res error :=
  if concurrencyIssue then Ok (EWrap SelectorSufficientFundsButConcurrencyIssue "token selection failed") else
  c1 ← Cmp target potential;
  c2 ← Cmp potential sum;
  Ok (if (c1 <=? 0) && negb (c2 =? 0) then EWrap SelectorSufficientButLockedFunds "token selection failed"
      else EWrap SelectorInsufficientFunds "token selection failed").

(** One turn of the outer loop up to the retry: the selection, or, with the locks
    released, whether the tokens were gone and the two sums. *)
Definition oneTurn (i : Z) (id typ : bytes) (target : Quantity) : M W (list ID * Quantity + bool * Quantity * Quantity) :=
  it ← wrapM "token selection failed" (callWR (unspent_by id typ));
  '(toBeSpent, sum, potential) ← scanTokens id target ((numRetry =? 1) || (i >? 0)) it [] (NewZeroQuantity precision) (NewZeroQuantity precision);
  c ← lift (Cmp target sum);
  checked ← (if c <=? 0 then e ← callW (GetTokens toBeSpent); mret (Some e) else mret None);
  match checked with
  | Some None => mret (inl (toBeSpent, sum))
  | _ => unlockBoth id toBeSpent ;; mret (inr (match checked with Some _ => true | None => false end, sum, potential))
  end.

(** The outer loop: [n] more turns after this one, which is the [i]th. *)
Fixpoint attempts (n : nat) (i : Z) (id typ : bytes) (target : Quantity) : M W (list ID * Quantity) :=
  r ← oneTurn i id typ target;
  match r with
  | inl r => mret r
  | inr (concurrencyIssue, sum, potential) =>
      match n with
      | O => e ← lift (failure concurrencyIssue target sum potential); lift (Err e)
      | Datatypes.S n =>
          cancelled ← callW wait;
          match cancelled with
          | Some e => lift (Err (EWrap e "token selection aborted while backing off"))
          | None => attempts n (i + 1) id typ target
          end
      end
  end.

Definition selectByID (id q typ : bytes) : M W (list ID * Quantity) :=
  target ← wrapM "failed to convert quantity" (lift (ToQuantity q precision));
  attempts (Z.to_nat (numRetry - 1)) 0 id typ target.

(** [owner] is the wallet's id, [None] for a nil filter. *)
Definition simple_Select (owner : option bytes) (q typ : bytes) : M W (list ID * Quantity) :=
  match owner with
  | Some ((_ :: _) as id) => selectByID id q typ
  | _ => lift (Err (EMsg "no owner filter specified"))
  end.
End Simple.

(** ** What a simple selection guarantees *)

(** [held w i]: the transaction holds the lock of [i] on behalf of the owner;
    [ok] is the lock store's own invariant. *)
Class SimpleLaws (W : Type) {SW : SimpleWorld W} (owner txID : bytes) (ok : W -> Prop) (held : W -> ID -> Prop) := {
  Lock_won : forall i reclaim w h w', ok w -> Lock owner i txID reclaim w = ((h, None), w') -> ok w' /\ forall j, held w' j <-> held w j \/ j = i;
  Lock_lost : forall i reclaim w h e w', ok w -> Lock owner i txID reclaim w = ((h, Some e), w') -> ok w' /\ forall j, held w' j <-> held w j;
  UnlockIDs_releases : forall ids w nf w', ok w -> UnlockIDs owner ids w = (nf, w') -> ok w' /\ forall j, held w' j <-> held w j /\ j ∉ ids;
  unspent_calm : forall typ w r w', ok w -> unspent_by owner typ w = (r, w') -> ok w' /\ forall j, held w' j <-> held w j;
  GetTokens_calm : forall ids w r w', ok w -> GetTokens ids w = (r, w') -> ok w' /\ forall j, held w' j <-> held w j;
  wait_calm : forall w r w', ok w -> wait w = (r, w') -> ok w' /\ forall j, held w' j <-> held w j;
}.

Section Safety.
Context {W : Type} {SW : SimpleWorld W} (owner txID : bytes) (ok : W -> Prop) (held : W -> ID -> Prop) {SL : SimpleLaws W owner txID ok held}.
Context (precision numRetry : Z) (typ : bytes).
Hypothesis precision_ok : 0 < precision < two63.

Definition value_of (l : list UnspentToken) : Z := foldr (fun t n => default 0 (parsed precision (UnspentToken_Quantity t)) + n) 0 l.
Definition listed (it : tokens) : list UnspentToken := omap (fun r => match r with Ok t => Some t | _ => None end) it.

(** The locks are those held before and those of [ids]. *)
Definition locks (w0 : W) (ids : list ID) (w : W) : Prop := ok w /\ forall j, held w j <-> held w0 j \/ j ∈ ids.
(** No lock is held that was not before. *)
Definition released (w0 w : W) : Prop := ok w /\ forall j, held w j -> held w0 j.

Lemma value_of_cons t l : value_of (t :: l) = default 0 (parsed precision (UnspentToken_Quantity t)) + value_of l.
Proof. done. Qed.

Lemma value_of_app l k : value_of (l ++ k) = value_of l + value_of k.
Proof. induction l as [|t l IH]; [done|]. rewrite <- app_comm_cons, !value_of_cons, IH. lia. Qed.

Lemma unlockBoth_spec w0 ids w : locks w0 ids w -> exists w', unlockBoth owner ids w = (Ok tt, w') /\ released w0 w'.
Proof.
  intros [Hok Hh]. unfold unlockBoth, mbind, M_mbind, callW. destruct (UnlockIDs owner ids w) as [nf w1] eqn:E1. destruct (UnlockIDs_releases _ _ _ _ Hok E1) as [Hok1 H1].
  destruct (UnlockIDs owner [] w1) as [nf2 w2] eqn:E2. destruct (UnlockIDs_releases _ _ _ _ Hok1 E2) as [Hok2 H2]. exists w2. split; [done|]. split; [done|].
  intros j Hj%H2. destruct Hj as [Hj _]. apply H1 in Hj as [Hj Hn]. apply Hh in Hj as [?|?]; done.
Qed.

Lemma orUnlock_spec {A} w0 ids (r : res A) w : locks w0 ids w ->
  match r with Ok a => orUnlock owner ids r w = (Ok a, w) | Err e => exists w', orUnlock owner ids r w = (Err e, w') /\ released w0 w' | Panic => orUnlock owner ids r w = (Panic, w) end.
Proof.
  intros Hl. destruct r as [a|e|]; [done| |done]. destruct (unlockBoth_spec w0 ids w Hl) as (w' & E & Hr). exists w'. split; [|done]. unfold orUnlock, mbind, M_mbind. by rewrite E.
Qed.

(** A scan: it locks some of the tokens listed and adds them up. *)
Definition scanned (w0 : W) (prev : list UnspentToken) (it : tokens) (r : res (list ID * Quantity * Quantity)) (w : W) : Prop :=
  match r with
  | Ok (ids, sum, potential) => exists more p, sublist more (listed it) /\ ids = UnspentToken_Id <$> prev ++ more /\ sum = mkQuantity precision (value_of (prev ++ more)) /\
      0 <= value_of (prev ++ more) < 2 ^ precision /\ potential = mkQuantity precision p /\ 0 <= p < 2 ^ precision /\ locks w0 ids w
  | Err _ => (exists e, Err e ∈ it) \/ released w0 w
  | Panic => Panic ∈ it
  end.

Lemma scanned_more w0 prev t it r w : scanned w0 (prev ++ [t]) it r w -> scanned w0 prev (Ok t :: it) r w.
Proof.
  destruct r as [[[ids sum] pot]|e|]; cbn.
  - intros (more & p & Hsub & Ei & Es & Hr & Ep & Hp & Hl). exists (t :: more), p. rewrite <- app_assoc in Ei, Es, Hr. cbn in Ei, Es, Hr. split; [by constructor|done].
  - intros [[e' He]|?]; [left; exists e'; by right|by right].
  - by right.
Qed.

Lemma scanned_skip w0 prev x it r w : scanned w0 prev it r w -> scanned w0 prev (x :: it) r w.
Proof.
  destruct r as [[[ids sum] pot]|e|]; cbn.
  - intros (more & p & Hsub & H). exists more, p. split; [|done]. destruct x; [by constructor|done..].
  - intros [[e' He]|?]; [left; exists e'; by right|by right].
  - by right.
Qed.

Lemma scanTokens_spec w0 target reclaim : 0 <= target < 2 ^ precision -> forall it prev p w r w', locks w0 (UnspentToken_Id <$> prev) w ->
  0 <= value_of prev < 2 ^ precision -> 0 <= p < 2 ^ precision ->
  scanTokens txID precision owner (mkQuantity precision target) reclaim it (UnspentToken_Id <$> prev) (mkQuantity precision (value_of prev)) (mkQuantity precision p) w = (r, w') ->
  scanned w0 prev it r w'.
Proof.
  intros Ht. induction it as [|x it IH]; intros prev p w r w' Hl Hv Hp; cbn [scanTokens].
  { intros [= <- <-]. exists [], p. rewrite app_nil_r. done. }
  unfold mbind at 1, M_mbind at 1, wrapM, lift. destruct x as [t|e|]; cbn [wrap]; [|intros [= <- <-]; left; exists e; by left|intros [= <- <-]; by left].
  unfold mbind at 1, M_mbind at 1. pose proof (ToQuantity_parsed precision (UnspentToken_Quantity t) precision_ok) as Hq.
  pose proof (orUnlock_spec w0 _ (wrap "failed to convert quantity" (ToQuantity (UnspentToken_Quantity t) precision)) w Hl) as Hu.
  destruct (parsed precision (UnspentToken_Quantity t)) as [v|] eqn:Ev.
  2: { destruct Hq as [e Hq]. rewrite Hq in *. cbn [wrap] in *. destruct Hu as (w1 & -> & Hrel). intros [= <- <-]. by right. }
  rewrite Hq in *. cbn [wrap] in *. rewrite Hu. clear Hu. apply parsed_Some in Ev as Hvr. destruct Hvr as [_ Hvr].
  unfold mbind at 1, M_mbind at 1, callW. destruct (Lock owner (UnspentToken_Id t) txID reclaim w) as [[h [e|]] w1] eqn:EL.
  - destruct (Lock_lost _ _ _ _ _ _ (proj1 Hl) EL) as [Hok1 Hh1]. assert (Hl1 : locks w0 (UnspentToken_Id <$> prev) w1) by (split; [done|]; intros j; rewrite (Hh1 j); apply Hl).
    destruct (errors_Is e SelectorRateLimited).
    { destruct (unlockBoth_spec w0 _ w1 Hl1) as (w2 & E2 & Hrel). unfold mbind, M_mbind. rewrite E2. intros [= <- <-]. by right. }
    unfold mbind, M_mbind. pose proof (orUnlock_spec w0 _ (wrap "failed to add locked quantity" (Add (mkQuantity precision p) (mkQuantity precision v))) w1 Hl1) as Hu.
    pose proof (mkQuantity_Add_no_panic precision p v precision_ok Hp Hvr) as Hnp. destruct (Add (mkQuantity precision p) _) as [pot|e'|] eqn:EA; [|destruct Hu as (w2 & -> & Hrel); intros [= <- <-]; by right|done].
    cbn [wrap] in *. rewrite Hu. apply mkQuantity_Add in EA as [-> Hp']; [|done..]. intros H. apply scanned_skip. by eapply IH.
  - destruct (Lock_won _ _ _ _ _ (proj1 Hl) EL) as [Hok1 Hh1].
    assert (Hl1 : locks w0 (UnspentToken_Id <$> prev ++ [t]) w1). { split; [done|]. intros j. rewrite (Hh1 j), (proj2 Hl j), fmap_app. cbn. rewrite elem_of_app, list_elem_of_singleton. tauto. }
    assert (Ei : (UnspentToken_Id <$> prev) ++ [UnspentToken_Id t] = UnspentToken_Id <$> prev ++ [t]) by (by rewrite fmap_app). rewrite Ei.
    assert (Ew : value_of (prev ++ [t]) = value_of prev + v) by (rewrite value_of_app, value_of_cons, Ev; cbn; lia).
    unfold mbind, M_mbind. pose proof (orUnlock_spec w0 _ (wrap "failed to add quantity" (Add (mkQuantity precision (value_of prev)) (mkQuantity precision v))) w1 Hl1) as Hu.
    pose proof (mkQuantity_Add_no_panic precision (value_of prev) v precision_ok Hv Hvr) as Hnp. destruct (Add (mkQuantity precision (value_of prev)) _) as [sum|e'|] eqn:EA; [|destruct Hu as (w2 & -> & Hrel); intros [= <- <-]; by right|done].
    cbn [wrap] in *. rewrite Hu. clear Hu Hnp. apply mkQuantity_Add in EA as [-> Hs']; [|done..]. rewrite <- Ew in Hs'.
    pose proof (orUnlock_spec w0 _ (wrap "failed to add quantity" (Add (mkQuantity precision p) (mkQuantity precision v))) w1 Hl1) as Hu.
    pose proof (mkQuantity_Add_no_panic precision p v precision_ok Hp Hvr) as Hnp. destruct (Add (mkQuantity precision p) _) as [pot|e'|] eqn:EA; [|destruct Hu as (w2 & -> & Hrel); intros [= <- <-]; by right|done].
    cbn [wrap] in *. rewrite Hu. apply mkQuantity_Add in EA as [-> Hp']; [|done..]. rewrite <- Ew. unfold lift. rewrite mkQuantity_Cmp by done.
    destruct (_ <=? 0); [|intros H; apply scanned_more; by eapply IH].
    intros [= <- <-]. apply scanned_more. exists [], (p + v). rewrite app_nil_r. split; [apply sublist_nil_l|done].
Qed.

(** The tokens of a successful selection, and the locks after it. *)
Definition selected (w0 : W) (target : Z) (r : res (list ID * Quantity)) (w : W) : Prop :=
  match r with
  | Ok (ids, sum) => exists w1 it w2 toks, unspent_by owner typ w1 = (Ok it, w2) /\ sublist toks (listed it) /\ ids = UnspentToken_Id <$> toks /\
      sum = mkQuantity precision (value_of toks) /\ target <= value_of toks < 2 ^ precision /\ ok w /\
      (forall j, j ∈ ids -> held w j) /\ (forall j, held w j -> held w0 j \/ j ∈ ids)
  | Err _ => released w0 w
  | Panic => False
  end.

(** Queries whose iterators do not fail half way. *)
Definition whole_iterators : Prop := forall w r w', unspent_by owner typ w = (r, w') -> r <> Panic /\ forall it, r = Ok it -> (forall e, Err e ∉ it) /\ Panic ∉ it.

Lemma released_trans w0 w1 w2 : ok w2 -> (forall j, held w2 j -> held w1 j) -> released w0 w1 -> released w0 w2.
Proof. intros Hok H [_ H1]. split; [done|]. auto. Qed.

Lemma failure_Ok c target sum p : 0 <= target < 2 ^ precision -> 0 <= sum < 2 ^ precision -> 0 <= p < 2 ^ precision ->
  exists e, failure c (mkQuantity precision target) (mkQuantity precision sum) (mkQuantity precision p) = Ok e.
Proof. intros. unfold failure. destruct c; [by eexists|]. rewrite !mkQuantity_Cmp by done. by eexists. Qed.

Lemma oneTurn_spec w0 target i w r w' : whole_iterators -> 0 <= target < 2 ^ precision -> released w0 w ->
  oneTurn txID precision numRetry i owner typ (mkQuantity precision target) w = (r, w') ->
  match r with
  | Ok (inl x) => selected w0 target (Ok x) w'
  | Ok (inr (_, sum, potential)) => released w0 w' /\ exists s p, sum = mkQuantity precision s /\ 0 <= s < 2 ^ precision /\ potential = mkQuantity precision p /\ 0 <= p < 2 ^ precision
  | Err e => selected w0 target (Err e) w'
  | Panic => False
  end.
Proof.
  intros Hwhole Ht Hrel. unfold oneTurn, mbind at 1, M_mbind at 1, wrapM, callWR.
  destruct (unspent_by owner typ w) as [x w1] eqn:Ex. destruct (Hwhole _ _ _ Ex) as [Hnp Hit]. destruct (unspent_calm _ _ _ _ (proj1 Hrel) Ex) as [Hok1 Hc1].
  assert (Hrel1 : released w0 w1) by (eapply released_trans; [done| |done]; apply Hc1).
  destruct x as [it|e|]; cbn [wrap]; [|by intros [= <- <-]|done]. destruct (Hit it eq_refl) as [Herr Hpan].
  unfold mbind at 1, M_mbind at 1. destruct (scanTokens _ _ _ _ _ _ _ _ _ _) as [x w2] eqn:Es.
  rewrite NewZeroQuantity_mk in Es. eapply (scanTokens_spec w1 target _ Ht it [] 0) in Es; [|by split; [done|]; intros j; split; [by left|intros [?|Hj%not_elem_of_nil]]|cbn; lia|cbn; lia].
  destruct x as [[[ids sum] pot]|e|]; cbn [scanned] in Es.
  2: { destruct Es as [[e' He]|Hr]; [by destruct (Herr e')|]. intros [= <- <-]. cbn. destruct Hr as [Hok2 Hr2]. by eapply released_trans. }
  2: by destruct (Hpan Es).
  destruct Es as (toks & p & Hsub & -> & -> & Hv & -> & Hp & Hl). cbn [app] in *.
  assert (Hun : forall w3, ok w3 -> (forall j, held w3 j <-> held w2 j) -> exists w4, unlockBoth owner (UnspentToken_Id <$> toks) w3 = (Ok tt, w4) /\ released w0 w4).
  { intros w3 Hok3 Hh3. destruct (unlockBoth_spec w1 (UnspentToken_Id <$> toks) w3) as (w4 & E4 & Hr4); [split; [done|]; intros j; rewrite Hh3; apply Hl|]. exists w4. split; [done|].
    destruct Hr4 as [Hok4 Hr4]. by eapply released_trans. }
  unfold mbind, M_mbind, lift. rewrite mkQuantity_Cmp by done. destruct (Z.leb_spec (Z.sgn (target - value_of toks)) 0) as [Hle|Hgt]; cbn [mret M_mret].
  - unfold callW. destruct (GetTokens (UnspentToken_Id <$> toks) w2) as [e w3] eqn:EG. destruct (GetTokens_calm _ _ _ _ (proj1 Hl) EG) as [Hok3 Hc3]. destruct e as [e|]; cbn [mret M_mret].
    + destruct (Hun w3 Hok3 Hc3) as (w4 & -> & Hr4). intros [= <- <-]. split; [done|]. by exists (value_of toks), p.
    + intros [= <- <-]. exists w, it, w1, toks. split; [done|]. split; [done|]. split; [done|]. split; [done|]. split; [lia|]. split; [done|]. split.
      * intros j Hj. apply Hc3, Hl. by right.
      * intros j Hj%Hc3. apply Hl in Hj as [Hj|Hj]; [left; by apply Hrel1|by right].
  - destruct (Hun w2 (proj1 Hl) ltac:(done)) as (w4 & -> & Hr4). intros [= <- <-]. split; [done|]. by exists (value_of toks), p.
Qed.

Lemma attempts_spec w0 target : whole_iterators -> 0 <= target < 2 ^ precision -> forall n i w r w', released w0 w ->
  attempts txID precision numRetry n i owner typ (mkQuantity precision target) w = (r, w') -> selected w0 target r w'.
Proof.
  intros Hwhole Ht n. induction n as [|n IH]; intros i w r w' Hrel; cbn [attempts]; unfold mbind at 1, M_mbind at 1;
    destruct (oneTurn _ _ _ _ _ _ _ _) as [x w1] eqn:Ex; apply (oneTurn_spec w0 target) in Ex; try done; (destruct x as [[x|[[ci sum] pot]]|e|]; [by intros [= <- <-]| |by intros [= <- <-]|done]).
  all: destruct Ex as (Hrel1 & s & p & -> & Hs & -> & Hp).
  - destruct (failure_Ok ci target s p Ht Hs Hp) as [e He]. unfold mbind, M_mbind, lift. rewrite He. intros [= <- <-]. exact Hrel1.
  - unfold mbind, M_mbind, callW. destruct (wait w1) as [c w2] eqn:Ew. destruct (wait_calm _ _ _ (proj1 Hrel1) Ew) as [Hok2 Hc2].
    assert (Hrel2 : released w0 w2) by (eapply released_trans; [done| |done]; apply Hc2). destruct c as [e|]; [by intros [= <- <-]|]. by apply IH.
Qed.

(** C31: a simple selection returns, and is all or nothing.  A success names tokens
    of one query of the wallet and type, reports exactly their sum, which covers
    the request, and holds their locks and no other new one; a failure of any kind
    leaves no lock it took, when the iterators of the queries do not fail half
    way. *)
Theorem simple_select_atomic q w r w' : whole_iterators -> ok w -> owner <> [] ->
  simple_Select txID precision numRetry (Some owner) q typ w = (r, w') ->
  match parsed precision q with
  | Some target => selected w target r w'
  | None => exists e, r = Err e /\ w' = w
  end.
Proof.
  intros Hwhole Hok Ho. assert (simple_Select txID precision numRetry (Some owner) q typ = selectByID txID precision numRetry owner q typ) as -> by (clear SL Hwhole; by destruct owner). unfold selectByID, mbind, M_mbind, wrapM, lift.
  pose proof (ToQuantity_parsed precision q precision_ok) as Hq. destruct (parsed precision q) as [target|] eqn:Ep.
  - rewrite Hq. cbn [wrap]. apply attempts_spec; [done| |by split]. by apply parsed_Some in Ep as [_ ?].
  - destruct Hq as [e ->]. cbn [wrap]. intros [= <- <-]. by eexists.
Qed.
End Safety.
