(* ===== verification/SimpleLocking.v ===== *)
(** * The simple selector over the in-memory locker

    The operations of the sharded locker, run by one goroutine from a state in
    which no mutex is held, implement the [Locker] the simple selector expects:
    its laws follow from the theorems about the goroutines.  A selection over the
    locker gives the witness of the selector's theorem, and one whose query fails
    half way keeps the locks it took. *)

From S2P Require Import Prelude Quantity TokenTypes Sherdlock SherdlockSafety ShardedLocker ShardedLockerSafety SimpleSelector.
From stdpp Require Import gmap fin_maps.
From Stdlib Require Import ZArith Lia.
Local Open Scope Z_scope.

(** The request a goroutine of [Lock] works on. *)
Definition request (c : pc) : option lockRequest :=
  match c with LockGet r | LockCreate r | LockCheck _ r | LockObserve _ r | LockStatus _ r _ _ | LockWrite _ r _ => Some r | _ => None end.

Section Serial.
Context (debug : bool) (timeout : Z) (o : oracle).
Hypothesis fair : fair_oracle o.

Definition serial_Lock (owner : bytes) (id : ID) (txID : bytes) (reclaim : bool) (d : locker) : (bytes * option error) * locker :=
  match solo debug timeout (repeat o 10) 0 (LockGet (mkLockRequest owner id txID reclaim)) d with
  | (Returned (RLocked holder err), d) => ((holder, err), d)
  | (_, d) => (([], Some errShardPruned), d)
  end.

Definition serial_UnlockIDs (owner : bytes) (ids : list ID) (d : locker) : list ID * locker :=
  match solo debug timeout (repeat o 10) 0 (UnlockGet owner ids) d with
  | (Returned (RNotFound notFound), d) => (notFound, d)
  | (_, d) => (ids, d)
  end.

(** Between operations no goroutine is in a critical section. *)
Definition quiet (d : locker) : Prop := shards_ok d /\ forall p s, lk_heap d !! p = Some s -> sh_mu s = None.

Definition holds_lock (owner txID : bytes) (d : locker) (i : ID) : Prop := le_TxID <$> lock_of d owner i = Some txID.

Lemma quiet_inv c d : quiet d -> holds c = None -> (forall op, op ∈ refs c -> ref_ok d op) -> locker_inv ({[0%nat := c]}, d).
Proof.
  intros [Hd Hmu] Hh Hr. split; cbn; [done|..].
  - intros t x op [<- <-]%lookup_singleton_Some. apply Hr.
  - intros p s t Hs Hm. rewrite (Hmu p s Hs) in Hm. done.
  - intros t x p [<- <-]%lookup_singleton_Some. congruence.
Qed.

Lemma inv_quiet c d : locker_inv ({[0%nat := c]}, d) -> holds c = None -> quiet d.
Proof.
  intros [Hd _ Hm _] Hh. cbn in Hm. split; [done|]. intros p s Hs. destruct (sh_mu s) as [t|] eqn:E; [|done]. destruct (Hm p s t Hs E) as (x & [<- <-]%lookup_singleton_Some & Hp). congruence.
Qed.

(** What [Lock] does to the table. *)
Definition lock_outcome (r : lockRequest) (err : option error) (L L' : table) : Prop :=
  match err with
  | None => forall w i, le_TxID <$> L' w i = if decide (w = lr_owner r /\ i = lr_id r) then Some (lr_txID r) else le_TxID <$> L w i
  | Some _ => forall w i, le_TxID <$> L' w i = le_TxID <$> L w i
  end.

Lemma lock_step r c d c' d' : request c = Some r -> locker_inv ({[0%nat := c]}, d) -> step debug timeout o 0 c d = Some (c', d') ->
  (request c' = Some r /\ unchanged (lock_of d) (lock_of d')) \/ exists h err, c' = Returned (RLocked h err) /\ lock_outcome r err (lock_of d) (lock_of d').
Proof.
  intros Hr Hi Hs. pose proof Hi as [Hd Hrefs _ _]. cbn in Hd. pose proof (step_promised debug timeout o 0 c d c' d' fair Hd (fun op => Hrefs 0%nat c op (lookup_singleton_eq 0%nat c)) Hs) as Hp.
  destruct c; try done; cbn [request] in Hr; injection Hr as ->; cbn [ShardedLocker.step lockStep unlockStep unlockByTxStep isLockedStep scanStep] in Hs.
  - destruct (registered d _); injection Hs as <- <-; by left.
  - destruct (createShard d _) as [p d1]. injection Hs as <- <-. by left.
  - apply bind_Some in Hs as (s & _ & Hs). destruct (sh_locked s !! lr_id r), (lr_reclaim r); injection Hs as <- <-; try (by left). right. eexists _, _. split; [done|]. intros w i. done.
  - apply bind_Some in Hs as (s & _ & Hs). destruct (sh_locked s !! lr_id r); injection Hs as <- <-; by left.
  - injection Hs as <- <-. by left.
  - apply bind_Some in Hs as (s & _ & Hs). destruct (sh_pruned s); [injection Hs as <- <-; by left|]. destruct (lockWrite _ _ _ _ _) as [l [h err]]. injection Hs as <- <-. right. exists h, err. split; [done|].
    destruct err as [e|]; cbn [promised] in Hp.
    + destruct Hp as (x & now & Hx & _ & Hf). intros w i. rewrite Hf. destruct (decide (w = lr_owner r)) as [->|]; [|done]. destruct (decide (i = lr_id r)) as [->|]; [|done]. by rewrite Hx.
    + destruct Hp as (_ & now & Hf). intros w i. rewrite Hf. destruct (decide (w = lr_owner r)) as [->|Hw]; [|by rewrite decide_False by tauto].
      destruct (decide (i = lr_id r)) as [->|Hn]; [by rewrite decide_True|by rewrite decide_False by tauto].
Qed.

Lemma solo_lock r : forall n c d c' d', request c = Some r -> locker_inv ({[0%nat := c]}, d) -> solo debug timeout (repeat o n) 0 c d = (c', d') ->
  locker_inv ({[0%nat := c']}, d') /\ ((request c' = Some r /\ unchanged (lock_of d) (lock_of d')) \/ exists h err, c' = Returned (RLocked h err) /\ lock_outcome r err (lock_of d) (lock_of d')).
Proof.
  induction n as [|n IH]; intros c d c' d' Hr Hi; cbn [repeat solo]; [intros [= <- <-]; split; [done|by left]|].
  destruct (step debug timeout o 0 c d) as [[c1 d1]|] eqn:Hs; [|intros [= <- <-]; split; [done|by left]].
  pose proof (step_inv_preserved debug timeout o 0 c d c1 d1 _ fair (lookup_singleton_eq 0%nat c) Hs Hi) as Hi1. rewrite insert_singleton_eq in Hi1.
  destruct (lock_step r c d c1 d1 Hr Hi Hs) as [[Hr1 Hu]|(h & err & -> & Hout)].
  - intros H. destruct (IH c1 d1 c' d' Hr1 Hi1 H) as [Hi' Hd']. split; [done|]. destruct Hd' as [[? Hu']|(h & err & -> & Hout)]; [left|right].
    + split; [done|]. intros w i. by rewrite Hu', Hu.
    + exists h, err. split; [done|]. destruct err; intros w i; rewrite Hout, Hu; done.
  - destruct n; cbn [repeat solo]; intros [= <- <-]; (split; [done|]); right; by exists h, err.
Qed.

Lemma serial_Lock_spec owner id txID reclaim d h err d' : quiet d -> serial_Lock owner id txID reclaim d = ((h, err), d') ->
  quiet d' /\ lock_outcome (mkLockRequest owner id txID reclaim) err (lock_of d) (lock_of d').
Proof.
  intros Hq. pose proof Hq as [Hd Hmu]. unfold serial_Lock. destruct (LockGet_answers debug timeout 0%nat (mkLockRequest owner id txID reclaim) d Hd Hmu) as [_ Ha].
  destruct (Ha (repeat o 10)) as (h1 & e1 & d1 & E); [cbn; lia|]. rewrite E. intros [= <- <- <-].
  apply (solo_lock (mkLockRequest owner id txID reclaim)) in E as [Hi [[? _]|(h2 & e2 & [= <- <-] & Hout)]]; [done|split; [by eapply inv_quiet|done]|done|].
  apply quiet_inv; [done|done|]. by intros op ?%not_elem_of_nil.
Qed.

(** [UnlockIDs] on a registered shard. *)
Definition unlock_outcome (owner : bytes) (ids : list ID) (L L' : table) : Prop := forall w i, L' w i = if decide (w = owner /\ i ∈ ids) then None else L w i.

Lemma solo_returned n r d : solo debug timeout (repeat o n) 0 (Returned r) d = (Returned r, d).
Proof. by destruct n. Qed.

Lemma solo_cons n c d c' d' : step debug timeout o 0 c d = Some (c', d') -> solo debug timeout (repeat o (S n)) 0 c d = solo debug timeout (repeat o n) 0 c' d'.
Proof. intros E. cbn [repeat solo]. by rewrite E. Qed.

Lemma solo_delete n owner ids p d : quiet d -> lk_shards d !! owner = Some p ->
  exists nf d', solo debug timeout (repeat o (S (S n))) 0 (UnlockDelete p owner ids) d = (Returned (RNotFound nf), d') /\ quiet d' /\ unlock_outcome owner ids (lock_of d) (lock_of d').
Proof.
  intros Hq Ho. pose proof Hq as [Hd Hmu]. destruct (so_registered _ Hd owner p Ho) as (s & Hs & Hp).
  assert (Hf : free_shard d p = Some s) by (unfold free_shard; rewrite Hs; cbn; by rewrite (Hmu p s Hs)).
  assert (Hi : locker_inv ({[0%nat := UnlockDelete p owner ids]}, d)).
  { apply quiet_inv; [done..|]. intros op ->%list_elem_of_singleton. by apply registered_ok. }
  destruct (step debug timeout o 0 (UnlockDelete p owner ids) d) as [[c1 d1]|] eqn:E1; [|cbn in E1; rewrite Hf in E1; cbn in E1; by destruct (unlockLoop _ _)].
  pose proof (step_inv_preserved debug timeout o 0 _ d c1 d1 _ fair (lookup_singleton_eq 0%nat _) E1 Hi) as Hi1. rewrite insert_singleton_eq in Hi1.
  assert (exists nf, c1 = UnlockPrune p owner nf /\ d1 = set_shard d p (mkShard (unlockLoop (sh_locked s) ids).1 (sh_pruned s) (Some 0%nat))) as (nf & -> & Ed1).
  { clear -E1 Hf. cbn in E1. rewrite Hf in E1. cbn in E1. destruct (unlockLoop _ _) as [l nf]. injection E1 as <- <-. by exists nf. }
  set (s1 := mkShard (unlockLoop (sh_locked s) ids).1 (sh_pruned s) (Some 0%nat)) in *. assert (Hs1 : lk_heap d1 !! p = Some s1) by (rewrite Ed1; cbn; by rewrite lookup_insert_eq).
  assert (E2 : step debug timeout o 0 (UnlockPrune p owner nf) d1 = Some (Returned (RNotFound nf), pruneEmptyShard d1 owner p s1)) by (cbn; by rewrite Hs1).
  pose proof (step_inv_preserved debug timeout o 0 _ d1 _ _ _ fair (lookup_singleton_eq 0%nat _) E2 Hi1) as Hi2. rewrite insert_singleton_eq in Hi2.
  exists nf, (pruneEmptyShard d1 owner p s1). split; [cbn [repeat solo]; rewrite E1, E2; apply solo_returned|]. split; [by eapply inv_quiet|].
  intros w i. rewrite (lock_of_prune d1 owner p s1 (li_shards _ Hi1) Hs1). pose proof (lock_of_write d owner p s (unlockLoop (sh_locked s) ids).1 (Some 0%nat) Hd (registered_ok d owner p Hd Ho) Hs) as Hw.
  cbn zeta in Hw. fold s1 in Hw. rewrite <- Ed1, Hp in Hw. destruct Hw as [Hold Hnew]. rewrite Hnew. destruct (decide (w = owner)) as [->|Hne]; [|by rewrite decide_False by tauto].
  rewrite unlockLoop_lookup, Hold. destruct (decide (i ∈ ids)); [by rewrite decide_True|by rewrite decide_False by tauto].
Qed.

Lemma createShard_quiet owner d : quiet d -> quiet (createShard d owner).2 /\ lk_shards (createShard d owner).2 !! owner = Some (createShard d owner).1.
Proof.
  intros [Hd Hmu]. assert (shards_ok (createShard d owner).2) as Hd' by (eapply (shards_ok_effect 0%nat None None d); [done|constructor]).
  pose proof (createShard_spec d owner) as H. destruct (lk_shards d !! owner) as [p|] eqn:E; [by rewrite H|]. destruct H as (p & Hp & Ec). rewrite Ec in *. cbn. rewrite lookup_insert_eq.
  split; [|done]. split; [done|]. intros q s. cbn. rewrite lookup_insert_Some. intros [[-> <-]|[_ Hs]]; [done|by eapply Hmu].
Qed.

Lemma serial_UnlockIDs_spec owner ids d nf d' : quiet d -> serial_UnlockIDs owner ids d = (nf, d') -> quiet d' /\ unlock_outcome owner ids (lock_of d) (lock_of d').
Proof.
  intros Hq. unfold serial_UnlockIDs. destruct (lk_shards d !! owner) as [p|] eqn:E.
  - rewrite (solo_cons 9 (UnlockGet owner ids) d (UnlockDelete p owner ids) d) by (cbn; unfold registered; by rewrite E).
    destruct (solo_delete 7 owner ids p d Hq E) as (nf' & d1 & -> & Hq1 & Hu). by intros [= _ <-].
  - destruct (createShard_quiet owner d Hq) as [Hqc Hreg]. pose proof (lock_of_create d owner (proj1 Hq)) as Hun.
    rewrite (solo_cons 9 (UnlockGet owner ids) d (UnlockCreate owner ids) d) by (cbn; unfold registered; by rewrite E).
    rewrite (solo_cons 8 (UnlockCreate owner ids) d (UnlockDelete (createShard d owner).1 owner ids) (createShard d owner).2) by (cbn; by destruct (createShard d owner)).
    destruct (solo_delete 6 owner ids _ _ Hqc Hreg) as (nf' & d2 & -> & Hq2 & Hu). intros [= _ <-]. split; [done|]. intros w i. by rewrite Hu, Hun.
Qed.

(** ** The locker as the selector's lock store *)

Context (unspent : bytes -> bytes -> locker -> res tokens) (alive : list ID -> option error).

#[local] Instance locker_world : SimpleWorld locker := {
  Lock := serial_Lock;
  UnlockIDs := serial_UnlockIDs;
  unspent_by owner typ d := (unspent owner typ d, d);
  GetTokens ids d := (alive ids, d);
  wait d := (None, d);
}.

Lemma locker_laws owner txID : SimpleLaws locker owner txID quiet (holds_lock owner txID).
Proof.
  split; cbn.
  - intros i reclaim d h d' Hq [Hq' Hout]%serial_Lock_spec; [|done]. split; [done|]. intros j. unfold holds_lock. rewrite Hout. cbn. destruct (decide (owner = owner /\ j = i)) as [[_ ->]|Hne]; [split; [by right|done]|].
    split; [by left|]. intros [?| ->]; [done|]. by destruct Hne.
  - intros i reclaim d h e d' Hq [Hq' Hout]%serial_Lock_spec; [|done]. split; [done|]. intros j. unfold holds_lock. by rewrite Hout.
  - intros ids d nf d' Hq [Hq' Hu]%serial_UnlockIDs_spec; [|done]. split; [done|]. intros j. unfold holds_lock. rewrite Hu. destruct (decide (owner = owner /\ j ∈ ids)) as [[_ ?]|Hn]; [split; [done|tauto]|].
    split; [|tauto]. intros ?. split; [done|]. intros Hj. by apply Hn.
  - by intros typ d r d' Hq [= _ <-].
  - by intros ids d r d' Hq [= _ <-].
  - by intros d r d' Hq [= _ <-].
Qed.
End Serial.

(** ** Two selections *)

Definition note (tx q : string) : UnspentToken := mkUnspentToken (mkID (str tx) 0) (str "alice") (str "USD") (str q).
Definition wallet_tokens : tokens := [Ok (note "a" "3"); Ok (note "b" "5"); Ok (note "c" "9")].

#[local] Instance good_world : SimpleWorld locker := locker_world false 0 demo_oracle (fun _ _ _ => Ok wallet_tokens) (fun _ => None).

Lemma demo_fair : fair_oracle demo_oracle.
Proof. split; reflexivity. Qed.

Lemma simple_select_atomic_witness : selected (SW := good_world) alice quiet (holds_lock alice (str "tx1")) 64 (str "USD") NewLocker 6
  (Ok ([mkID (str "a") 0; mkID (str "b") 0], mkQuantity 64 8)) (simple_Select (SW := good_world) (str "tx1") 64 2 (Some alice) (str "6") (str "USD") NewLocker).2.
Proof.
  refine (simple_select_atomic (SW := good_world) alice (str "tx1") quiet (holds_lock alice (str "tx1")) (SL := locker_laws false 0 demo_oracle demo_fair _ _ alice (str "tx1")) 64 2 (str "USD") _
    (str "6") NewLocker (Ok ([mkID (str "a") 0; mkID (str "b") 0], mkQuantity 64 8)) _ _ _ _ _).
  - done.
  - intros w r w' [= <- <-]. split; [done|]. intros it [= <-]. split; [intros e|]; unfold wallet_tokens; rewrite !elem_of_cons, elem_of_nil; intros [|[|[|]]]; done.
  - split; [split|]; cbn; intros *; by rewrite ?lookup_empty.
  - done.
  - vm_compute. reflexivity.
Defined.

(** A query whose iterator fails after the first token: the selection fails and
    keeps the lock of that token, although every other failure releases what was
    locked. *)
#[local] Instance torn_world : SimpleWorld locker := locker_world false 0 demo_oracle (fun _ _ _ => Ok [Ok (note "a" "3"); Err (EMsg "connection reset")]) (fun _ => None).

Theorem simple_iterator_error_leaks :
  (simple_Select (SW := torn_world) (str "tx1") 64 2 (Some alice) (str "6") (str "USD") NewLocker).1 = Err (EWrap (EMsg "connection reset") "token selection failed") /\
  le_TxID <$> lock_of (simple_Select (SW := torn_world) (str "tx1") 64 2 (Some alice) (str "6") (str "USD") NewLocker).2 alice (mkID (str "a") 0) = Some (str "tx1").
Proof. split; vm_compute; reflexivity. Qed.

(** ** The locker under the sherdlock selector (sherdlock/inmemory/locker.go) *)

(** [Lock] of the adapter: a lost race is to be reported as
    [ErrTokenAlreadyLocked]. *)
Definition adapter_Lock (err : option error) : option error :=
  match err with
  | Some e => if errors_Is e AlreadyLockedError then Some ErrTokenAlreadyLocked else Some e
  | None => None
  end.

(** A race lost inside the critical section is reported so at the normal log
    level; with debug logging the error is another one, and the selector does not
    recognize it. *)
Theorem adapter_misses_race_when_debugging now r e locked : locked !! lr_id r = Some e -> lr_reclaim r = false ->
  adapter_Lock (lockWrite false now r None locked).2.2 = Some ErrTokenAlreadyLocked /\
  is_err (adapter_Lock (lockWrite true now r None locked).2.2) ErrTokenAlreadyLocked = false.
Proof. intros He Hr. unfold lockWrite. rewrite He, Hr. done. Qed.
