(* ===== verification/Fetcher.v ===== *)
(** * The candidate sources of the sherdlock selector
      (services/selector/sherdlock/fetcher.go)

    The lazy fetcher queries the token store, the eager one answers from a cache
    of all wallets that it refreshes, the mixed one combines both.  A store's
    iterator is the sequence of what its [Next] calls return.  The cache is a
    third-party bounded cache: an entry may disappear at any time.  Goroutines of
    the eager fetcher interleave between critical sections and atomic accesses.
    Metrics and logging are left out. *)

From S2P Require Import Prelude Quantity TokenTypes Sherdlock SherdlockSafety SherdlockTotal.
From stdpp Require Import gmap.
From Stdlib Require Import ZArith Lia.
Local Open Scope Z_scope.

(** ** Permutations of the candidates *)

Section Permutation.
(** [rand.Shuffle] of the bucket that starts at an index. *)
Context (shuffle : nat -> list candidate -> list candidate).

(** The longest prefix of equal quantity, and the rest. *)
Fixpoint takeRun (q : bytes) (l : list candidate) : list candidate * list candidate :=
  match l with
  | [] => ([], [])
  | t :: l => if decide (uw_Quantity t = q) then let '(run, rest) := takeRun q l in (t :: run, rest) else ([], t :: l)
  end.

(** The loop of [NewPermutation] from [start]; the fuel is the length. *)
Fixpoint permuteFrom (fuel : nat) (start : nat) (l : list candidate) : list candidate :=
  match fuel, l with
  | S fuel, t :: l =>
      let '(run, rest) := takeRun (uw_Quantity t) l in
      shuffle start (t :: run) ++ permuteFrom fuel (start + length (t :: run)) rest
  | _, _ => []
  end.

Definition NewPermutation (items : list candidate) : list candidate := permuteFrom (length items) 0 items.

Hypothesis shuffle_perm : forall start l, shuffle start l ≡ₚ l.

Lemma takeRun_spec q l : let '(run, rest) := takeRun q l in l = run ++ rest /\ Forall (fun t => uw_Quantity t = q) run.
Proof.
  induction l as [|t l IH]; cbn; [done|]. destruct (decide (uw_Quantity t = q)); [|done]. destruct (takeRun q l) as [run rest]. destruct IH as [-> Hr]. split; [done|by constructor].
Qed.

(** All of one quantity, in any order. *)
Lemma same_quantity l k q : l ≡ₚ k -> Forall (fun t => uw_Quantity t = q) k -> uw_Quantity <$> l = uw_Quantity <$> k.
Proof.
  intros Hp Hk. assert (forall x, Forall (fun t => uw_Quantity t = q) x -> uw_Quantity <$> x = replicate (length x) q) as Hrep.
  { intros x Hx. induction Hx as [|t x Ht _ IH]; [done|]. rewrite fmap_cons, Ht, IH. done. }
  rewrite (Hrep k Hk). rewrite <- Hp in Hk. rewrite (Hrep l Hk). by rewrite Hp.
Qed.

Lemma permuteFrom_spec : forall fuel start l, (length l <= fuel)%nat -> permuteFrom fuel start l ≡ₚ l /\ uw_Quantity <$> permuteFrom fuel start l = uw_Quantity <$> l.
Proof.
  induction fuel as [|fuel IH]; intros start l Hl; [by destruct l; cbn in *; [|lia]|]. destruct l as [|t l]; [done|]. cbn [permuteFrom].
  pose proof (takeRun_spec (uw_Quantity t) l) as Hr. destruct (takeRun (uw_Quantity t) l) as [run rest]. destruct Hr as [-> Hrun]. cbn [length] in Hl. rewrite length_app in Hl.
  destruct (IH (start + length (t :: run))%nat rest) as [Hp Hq]; [lia|]. split.
  - rewrite Hp, shuffle_perm. done.
  - rewrite fmap_app, Hq. rewrite (same_quantity _ (t :: run) (uw_Quantity t) (shuffle_perm _ _)) by (by constructor). by rewrite <- fmap_app.
Qed.

(** The permutation of the candidates hands out exactly the candidates of the
    store and keeps the order of their amounts: only tokens of equal quantity
    trade places. *)
Theorem NewPermutation_ordered items : NewPermutation items ≡ₚ items /\ uw_Quantity <$> NewPermutation items = uw_Quantity <$> items.
Proof. by apply permuteFrom_spec. Qed.
End Permutation.

(** ** Grouping by wallet and type *)

Definition EOF : error := EMsg "EOF".

Definition tokenKey (walletID typ : bytes) : bytes := walletID ++ str "." ++ typ.

Abbreviation groups := (gmap bytes (list candidate)).

(** The loop of [groupTokensByKey]: the groups, and what is left of the iterator
    when the loop ends. *)
Fixpoint groupLoop (m : groups) (it : iterator) : res (groups * iterator) :=
  match it with
  | Ok t :: it => let key := tokenKey (uw_WalletID t) (uw_Type t) in groupLoop (<[key := default [] (m !! key) ++ [t]]> m) it
  | Err _ :: it => Ok (m, it)
  | Panic :: _ => Panic
  | [] => Ok (m, [])
  end.

(** The loop drops the error it ends with, and the check after it asks the
    iterator once more. *)
Definition groupTokensByKey (it : iterator) : res groups :=
  '(m, rest) ← groupLoop ∅ it;
  match rest with
  | Err e :: _ => if errors_Is e EOF then Ok m else Err e
  | Panic :: _ => Panic
  | _ => Ok m
  end.

(** The tokens of a key, in the order of the store. *)
Definition of_key (key : bytes) (l : list candidate) : list candidate := filter (fun t => tokenKey (uw_WalletID t) (uw_Type t) = key) l.

(** The tokens an iterator yields before its end or its first failure, and what
    the call after that one returns: an iterator is kept unless that call fails
    for another reason than the end. *)
Fixpoint read_of (it : iterator) : list candidate := match it with Ok t :: it => t :: read_of it | _ => [] end.
Fixpoint stop_of (it : iterator) : iterator := match it with Ok _ :: it => stop_of it | it => it end.
Definition kept (it : iterator) : bool :=
  match stop_of it with Panic :: _ | _ :: Panic :: _ => false | _ :: Err e :: _ => errors_Is e EOF | _ => true end.

Lemma groupLoop_exact : forall it m, match groupLoop m it with
  | Ok (m', rest) => (forall key, default [] (m' !! key) = default [] (m !! key) ++ of_key key (read_of it)) /\ (match stop_of it with [] => rest = [] | Err _ :: rest' => rest = rest' | _ => False end)
  | Err _ => False
  | Panic => exists rest, stop_of it = Panic :: rest
  end.
Proof.
  induction it as [|[t|e|] it IH]; intros m; cbn [groupLoop read_of stop_of]; [by split; [intros key; rewrite app_nil_r|]| |by split; [intros key; rewrite app_nil_r|]|by eexists].
  set (k := tokenKey (uw_WalletID t) (uw_Type t)). specialize (IH (<[k := default [] (m !! k) ++ [t]]> m)). destruct (groupLoop _ it) as [[m' rest]|e|]; [|done|done]. destruct IH as [H Hst]. split; [|done].
  intros key. rewrite H. unfold of_key. rewrite filter_cons. fold k. destruct (decide (k = key)) as [<-|Hne]; [rewrite lookup_insert_eq; cbn; by rewrite <- app_assoc|by rewrite lookup_insert_ne].
Qed.

(** The groups are those of the part read of an iterator that is kept. *)
Lemma groupTokensByKey_exact it m : groupTokensByKey it = Ok m -> kept it = true /\ forall key, default [] (m !! key) = of_key key (read_of it).
Proof.
  unfold groupTokensByKey, kept. pose proof (groupLoop_exact it ∅) as H. destruct (groupLoop ∅ it) as [[m' rest]|e|]; [|done|done]. cbn. destruct H as [H Hst].
  intros Hm. assert (m' = m) as ->. { destruct rest as [|[t|e|] rest]; [| |destruct (errors_Is e EOF)|]; congruence. }
  split; [|intros key; by rewrite H, lookup_empty]. destruct (stop_of it) as [|[t|e|] rest']; [done|done| |done]. subst rest'. destruct rest as [|[t'|e'|] rest]; [done|done| |done]. by destruct (errors_Is e' EOF).
Qed.

(** An iterator that fails half way gives a partial result and no error, although
    the function is documented to return an error then. *)
Theorem groupTokensByKey_partial e t : exists m, groupTokensByKey [Ok t; Err e] = Ok m /\ m !! tokenKey (uw_WalletID t) (uw_Type t) = Some [t].
Proof. eexists. split; [done|]. by rewrite lookup_insert_eq. Qed.

(** Two wallets can share a key: dots are allowed in both parts. *)
Theorem tokenKey_collides : tokenKey (str "alice.b") (str "USD") = tokenKey (str "alice") (str "b.USD").
Proof. reflexivity. Qed.

Lemma tokenKey_inj w1 t1 w2 t2 : Byte.x2e ∉ w1 -> Byte.x2e ∉ w2 -> tokenKey w1 t1 = tokenKey w2 t2 -> w1 = w2 /\ t1 = t2.
Proof.
  unfold tokenKey. revert w2. induction w1 as [|b w1 IH]; intros [|c w2] H1 H2 E; cbn in E.
  - injection E as ->. done.
  - injection E as <- _. destruct H2. by left.
  - injection E as -> _. destruct H1. by left.
  - injection E as -> E. destruct (IH w2) as [-> ->]; [set_solver..|exact E|done].
Qed.

(** ** The lazy and the mixed fetcher *)

Section Mixed.
(** The library's [ReadAllPointers], the store's query, and the eager fetcher's
    answer. *)
Context (shuffle : nat -> list candidate -> list candidate) (ReadAllPointers : iterator -> res (list candidate)) (SpendableTokensIteratorBy : bytes -> bytes -> res iterator).

Definition lazy_UnspentTokensIteratorBy (walletID currency : bytes) : res iterator :=
  it ← SpendableTokensIteratorBy walletID currency;
  items ← ReadAllPointers it;
  Ok (Ok <$> NewPermutation shuffle items).

(** The iterator that still yields its first element, if there is one. *)
Definition peekIterator (it : iterator) : res (option iterator) :=
  match it with
  | [] => Ok None
  | r :: rest => first ← r; Ok (Some (Ok first :: rest))
  end.

Definition mixed_UnspentTokensIteratorBy (eager : res iterator) (walletID currency : bytes) : res iterator :=
  match eager with
  | Panic => Panic
  | Err _ => lazy_UnspentTokensIteratorBy walletID currency
  | Ok it =>
      match peekIterator it with
      | Panic => Panic
      | Ok (Some peeked) => Ok peeked
      | _ => lazy_UnspentTokensIteratorBy walletID currency
      end
  end.

Hypothesis shuffle_perm : forall start l, shuffle start l ≡ₚ l.
Hypothesis reads_all : forall l, ReadAllPointers (Ok <$> l) = Ok l.

(** The mixed fetcher answers with the cache's tokens when it has some, with the
    store's otherwise. *)
Lemma mixed_exact cached stored walletID currency : SpendableTokensIteratorBy walletID currency = Ok (Ok <$> stored) ->
  exists l, mixed_UnspentTokensIteratorBy (Ok (Ok <$> cached)) walletID currency = Ok (Ok <$> l) /\
    (if decide (cached = []) then l ≡ₚ stored /\ uw_Quantity <$> l = uw_Quantity <$> stored else l = cached).
Proof.
  intros Hs. destruct cached as [|t l]; cbn.
  - unfold lazy_UnspentTokensIteratorBy. rewrite Hs. cbn. rewrite reads_all. cbn. eexists. split; [done|]. by apply permuteFrom_spec.
  - by exists (t :: l).
Qed.
End Mixed.

(** ** The cache *)

(** A bounded cache: what it returns for a key is what was last added under it. *)
Class TokenCache (C : Type) := {
  cache_Get : bytes -> C -> option (list candidate);
  cache_Add : bytes -> list candidate -> C -> C;
  cache_Delete : bytes -> C -> C;
}.

Class TokenCacheLaws (C : Type) {TC : TokenCache C} := {
  Get_Add : forall k k' v v' c, cache_Get k' (cache_Add k v c) = Some v' -> if decide (k' = k) then v' = v else cache_Get k' c = Some v';
  Get_Delete : forall k k' v' c, cache_Get k' (cache_Delete k c) = Some v' -> k' <> k /\ cache_Get k' c = Some v';
}.

Section Cache.
Context {C : Type} {TC : TokenCache C}.

(** [updateCache]: new entries are added before stale keys are removed; the two
    lists are the orders in which Go ranges over the maps. *)
Definition addEntries (entries : list (bytes * list candidate)) (c : C) : C := foldl (fun c kv => cache_Add kv.1 kv.2 c) c entries.
Definition removeStale (newKeys : gset bytes) (oldKeys : list bytes) (c : C) : C := foldl (fun c k => if decide (k ∈ newKeys) then c else cache_Delete k c) c oldKeys.
Definition updateCache (m : groups) (prevKeys : gset bytes) (c : C) : C * gset bytes :=
  let newKeys := dom m in (removeStale newKeys (elements prevKeys) (addEntries (map_to_list m) c), newKeys).

Context {TL : TokenCacheLaws C}.

Lemma addEntries_Get : forall l c k v, NoDup l.*1 -> cache_Get k (addEntries l c) = Some v -> (k, v) ∈ l \/ (k ∉ l.*1 /\ cache_Get k c = Some v).
Proof.
  induction l as [|[k1 v1] l IH]; intros c k v Hnd; cbn; [right; split; [apply not_elem_of_nil|done]|]. apply NoDup_cons in Hnd as [Hk1 Hnd]. intros [?|[Hn H]]%IH; [left; by right| |done].
  apply Get_Add in H. destruct (decide (k = k1)) as [->|Hne]; [subst; left; by left|]. right. split; [|done]. rewrite elem_of_cons. tauto.
Qed.

Lemma removeStale_Get new : forall l c k v, cache_Get k (removeStale new l c) = Some v -> cache_Get k c = Some v /\ (k ∈ l -> k ∈ new).
Proof.
  induction l as [|x l IH]; intros c k v; cbn; [by intros ?; split; [|intros ?%not_elem_of_nil]|]. intros [H Hl]%IH. destruct (decide (x ∈ new)) as [Hx|Hx].
  - split; [done|]. intros [->|?]%elem_of_cons; [done|auto].
  - apply Get_Delete in H as [Hne H]. split; [done|]. intros [->|?]%elem_of_cons; [done|auto].
Qed.

(** The cache holds keys of the last refresh only. *)
Definition tracked (prevKeys : gset bytes) (c : C) : Prop := forall k v, cache_Get k c = Some v -> k ∈ prevKeys.

Lemma updateCache_exact m prevKeys c : tracked prevKeys c -> let '(c', keys) := updateCache m prevKeys c in tracked keys c' /\ forall k v, cache_Get k c' = Some v -> m !! k = Some v.
Proof.
  intros Ht. cbn. assert (forall k v, cache_Get k (removeStale (dom m) (elements prevKeys) (addEntries (map_to_list m) c)) = Some v -> m !! k = Some v) as H.
  { intros k v [H Hs]%removeStale_Get. apply addEntries_Get in H as [H|[Hn H]]; [by apply elem_of_map_to_list| |apply NoDup_fst_map_to_list].
    exfalso. apply Hn. apply Ht in H. rewrite elem_of_elements in Hs. apply Hs, elem_of_dom in H as [v' Hv']. apply list_elem_of_fmap. exists (k, v'). split; [done|]. by apply elem_of_map_to_list. }
  split; [|done]. intros k v Hk. apply H in Hk. by eapply elem_of_dom_2.
Qed.
End Cache.

(** ** The eager fetcher *)

Record fetcher (C : Type) := mkFetcher {
  fc_cache : C; fc_lastFetched : Z; fc_invalidations : Z; fc_queries : Z; fc_prevKeys : gset bytes; fc_isUpdating : bool; fc_mu : option nat;
}.
Arguments mkFetcher {C}.
Arguments fc_cache {C}.
Arguments fc_lastFetched {C}.
Arguments fc_invalidations {C}.
Arguments fc_queries {C}.
Arguments fc_prevKeys {C}.
Arguments fc_isUpdating {C}.
Arguments fc_mu {C}.

(** Goroutines of the fetcher: [update] on its own or within a query, which then
    reads the cache, and [InvalidateCache]. *)
Definition after : Type := option (bytes * bytes).

Inductive fpc :=
| UpdateEnter (k : after)
| UpdateWait (k : after)
| UpdateStart (k : after)
| UpdateRead (k : after) (start : Z)
| UpdateFail (k : after)
| UpdateCheck (k : after) (start : Z) (m : groups)
| UpdateOvertaken (k : after) (m : groups)
| UpdateUnstamp (k : after)
| UpdateRecheck (k : after) (start : Z) (m : groups)
| UpdateInstall (k : after) (start : Z) (m : groups)
| UpdateStamp (k : after) (start : Z)
| UpdateReset (k : after)
| UpdateFinish (k : after)
| QueryStart (walletID typ : bytes)
| QueryGet (walletID typ : bytes)
| QueryCount (r : list candidate)
| InvalidateCount
| InvalidateStamp
| FDone (r : option (list candidate)).

Section Eager.
Context {C : Type} {TC : TokenCache C} (freshnessInterval maxQueriesBeforeRefresh : Z).

(** Clock, randomness, and the answer of the store to a query for all tokens. *)
Record foracle := mkFOracle { fo_now : Z; fo_shuffle : nat -> list candidate -> list candidate; fo_tokens : res iterator }.

Definition isCacheOverused (f : fetcher C) : bool := fc_queries f >=? maxQueriesBeforeRefresh.
Definition isCacheStale (now : Z) (f : fetcher C) : bool := if fc_lastFetched f =? 0 then true else now - fc_lastFetched f >? freshnessInterval.

Definition set_mu (f : fetcher C) (mu : option nat) : fetcher C := mkFetcher (fc_cache f) (fc_lastFetched f) (fc_invalidations f) (fc_queries f) (fc_prevKeys f) (fc_isUpdating f) mu.
Definition set_updating (f : fetcher C) (b : bool) : fetcher C := mkFetcher (fc_cache f) (fc_lastFetched f) (fc_invalidations f) (fc_queries f) (fc_prevKeys f) b (fc_mu f).
Definition set_lastFetched (f : fetcher C) (t : Z) : fetcher C := mkFetcher (fc_cache f) t (fc_invalidations f) (fc_queries f) (fc_prevKeys f) (fc_isUpdating f) (fc_mu f).
Definition set_queries (f : fetcher C) (n : Z) : fetcher C := mkFetcher (fc_cache f) (fc_lastFetched f) (fc_invalidations f) n (fc_prevKeys f) (fc_isUpdating f) (fc_mu f).
Definition install (f : fetcher C) (m : groups) : fetcher C :=
  let '(c, keys) := updateCache m (fc_prevKeys f) (fc_cache f) in mkFetcher c (fc_lastFetched f) (fc_invalidations f) (fc_queries f) keys (fc_isUpdating f) (fc_mu f).

(** [finishUpdate]. *)
Definition finishUpdate (f : fetcher C) : fetcher C := set_mu (set_updating f false) None.

Definition continue_ (k : after) : fpc := match k with Some (w, t) => QueryGet w t | None => FDone None end.

(** The mutex, when nobody holds it. *)
Definition mutex (t : nat) (f : fetcher C) : option (fetcher C) := match fc_mu f with None => Some (set_mu f (Some t)) | Some _ => None end.

(** [update] and [finishUpdate]. *)
Definition updateStep (o : foracle) (t : nat) (c : fpc) (f : fetcher C) : option (fpc * fetcher C) :=
  match c with
  | UpdateEnter k =>
      g ← mutex t f;
      Some (if fc_isUpdating f then (UpdateWait k, f)
            else if negb (isCacheStale (fo_now o) f) && negb (isCacheOverused f) then (continue_ k, f)
            else (UpdateStart k, set_updating g true))
  | UpdateWait k => _ ← mutex t f; if fc_isUpdating f then None else Some (continue_ k, f)
  | UpdateStart k => Some (UpdateRead k (fc_invalidations f), set_mu f None)
  | UpdateRead k start =>
      match (it ← fo_tokens o; groupTokensByKey it) with
      | Ok m => Some (UpdateCheck k start m, f)
      | Err _ => Some (UpdateFail k, f)
      | Panic => None
      end
  | UpdateFail k => g ← mutex t f; Some (continue_ k, finishUpdate g)
  | UpdateCheck k start m => g ← mutex t f; Some (if fc_invalidations f =? start then UpdateRecheck k start m else UpdateOvertaken k m, g)
  | UpdateOvertaken k m => Some (UpdateUnstamp k, install f m)
  | UpdateUnstamp k => Some (UpdateReset k, set_lastFetched f 0)
  | UpdateRecheck k start m =>
      Some (if negb (isCacheStale (fo_now o) f) && negb (isCacheOverused f) then UpdateFinish k else UpdateInstall k start m, f)
  | UpdateInstall k start m => Some (UpdateStamp k start, install f m)
  | UpdateStamp k _ => Some (UpdateReset k, set_lastFetched f (fo_now o))
  | UpdateReset k => Some (UpdateFinish k, set_queries f 0)
  | UpdateFinish k => Some (continue_ k, finishUpdate f)
  | _ => None
  end.

(** [UnspentTokensIteratorBy]; the refresh it starts in the background when the
    cache is overused is a goroutine of its own. *)
Definition queryStep (o : foracle) (t : nat) (c : fpc) (f : fetcher C) : option (fpc * fetcher C) :=
  match c with
  | QueryStart w typ =>
      _ ← mutex t f;
      Some (if isCacheStale (fo_now o) f then UpdateEnter (Some (w, typ))
            else QueryCount (match cache_Get (tokenKey w typ) (fc_cache f) with Some items => NewPermutation (fo_shuffle o) items | None => [] end), f)
  | QueryGet w typ =>
      _ ← mutex t f;
      Some (QueryCount (match cache_Get (tokenKey w typ) (fc_cache f) with Some items => NewPermutation (fo_shuffle o) items | None => [] end), f)
  | QueryCount r => Some (FDone (Some r), set_queries f ((fc_queries f + 1) `mod` 2 ^ 32))
  | _ => None
  end.

(** [InvalidateCache]. *)
Definition invalidateStep (c : fpc) (f : fetcher C) : option (fpc * fetcher C) :=
  match c with
  | InvalidateCount => Some (InvalidateStamp, mkFetcher (fc_cache f) (fc_lastFetched f) ((fc_invalidations f + 1) `mod` 2 ^ 64) (fc_queries f) (fc_prevKeys f) (fc_isUpdating f) (fc_mu f))
  | InvalidateStamp => Some (FDone None, set_lastFetched f 0)
  | _ => None
  end.

Definition fstep (o : foracle) (t : nat) (c : fpc) (f : fetcher C) : option (fpc * fetcher C) :=
  match c with
  | UpdateEnter _ | UpdateWait _ | UpdateStart _ | UpdateRead _ _ | UpdateFail _ | UpdateCheck _ _ _ | UpdateOvertaken _ _ | UpdateUnstamp _ | UpdateRecheck _ _ _ | UpdateInstall _ _ _ | UpdateStamp _ _ | UpdateReset _ | UpdateFinish _ => updateStep o t c f
  | QueryStart _ _ | QueryGet _ _ | QueryCount _ => queryStep o t c f
  | InvalidateCount | InvalidateStamp => invalidateStep c f
  | FDone _ => None
  end.

Definition finitial (c : fpc) : bool := match c with UpdateEnter None | QueryStart _ _ | InvalidateCount => true | _ => false end.

Definition fconfig : Type := gmap nat fpc * fetcher C.

Inductive FStep (ok_oracle : foracle -> Prop) : fconfig -> fconfig -> Prop :=
| FStep_call t c T f : T !! t = None -> finitial c = true -> FStep ok_oracle (T, f) (<[t := c]> T, f)
| FStep_run t o c c' T f f' : T !! t = Some c -> ok_oracle o -> fstep o t c f = Some (c', f') -> FStep ok_oracle (T, f) (<[t := c']> T, f').

Inductive FReachable (ok_oracle : foracle -> Prop) (x0 : fconfig) : fconfig -> Prop :=
| FReachable_init : FReachable ok_oracle x0 x0
| FReachable_step x y : FReachable ok_oracle x0 x -> FStep ok_oracle x y -> FReachable ok_oracle x0 y.
End Eager.
