(* ===== verification/FetcherSafety.v ===== *)
(** * What the eager fetcher guarantees

    Whatever its goroutines do, one of them refreshes the cache at a time, and
    every answer is the group of a key in what was read of one iterator of the
    token store.  An invalidation makes the fetcher read the store again, unless it
    falls between the moment a refresh compares the counters and its end: then it
    is overwritten by that refresh. *)

From S2P Require Import Prelude Quantity TokenTypes Sherdlock SherdlockSafety SherdlockTotal Fetcher.
From stdpp Require Import gmap.
From Stdlib Require Import ZArith Lia.
Local Open Scope Z_scope.

(** Goroutines between the start and the end of a refresh, and those that hold
    the mutex between two steps. *)
Definition updating (c : fpc) : bool :=
  match c with
  | UpdateStart _ | UpdateRead _ _ | UpdateFail _ | UpdateCheck _ _ _ | UpdateOvertaken _ _ | UpdateUnstamp _ | UpdateRecheck _ _ _ | UpdateInstall _ _ _
  | UpdateStamp _ _ | UpdateReset _ | UpdateFinish _ => true
  | _ => false
  end.

Definition locking (c : fpc) : bool :=
  match c with
  | UpdateStart _ | UpdateOvertaken _ _ | UpdateUnstamp _ | UpdateRecheck _ _ _ | UpdateInstall _ _ _ | UpdateStamp _ _ | UpdateReset _ | UpdateFinish _ => true
  | _ => false
  end.

Definition grouped (c : fpc) : option groups :=
  match c with UpdateCheck _ _ m | UpdateOvertaken _ m | UpdateRecheck _ _ m | UpdateInstall _ _ m => Some m | _ => None end.

Section Safety.
Context {C : Type} {TC : TokenCache C} {TL : TokenCacheLaws C} (freshnessInterval maxQueriesBeforeRefresh : Z).
Abbreviation fstep := (fstep (C := C) freshnessInterval maxQueriesBeforeRefresh).

(** The iterators the store has returned for all its tokens. *)
Context (snapshot : iterator -> Prop).

Definition fair_store (o : foracle) : Prop :=
  (forall start l, fo_shuffle o start l ≡ₚ l) /\ forall it, fo_tokens o = Ok it -> snapshot it.

(** Groups of what was read of one iterator. *)
Definition groups_ok (m : groups) : Prop := exists it, snapshot it /\ kept it = true /\ forall key, default [] (m !! key) = of_key key (read_of it).

Definition cache_ok (c : C) : Prop := forall k v, cache_Get k c = Some v -> exists it, snapshot it /\ kept it = true /\ v = of_key k (read_of it).

Record finv (x : fconfig (C := C)) : Prop := {
  fi_updating : forall t c, x.1 !! t = Some c -> updating c = true -> fc_isUpdating x.2 = true;
  fi_unique : forall t1 c1 t2 c2, x.1 !! t1 = Some c1 -> x.1 !! t2 = Some c2 -> updating c1 = true -> updating c2 = true -> t1 = t2;
  fi_locking : forall t c, x.1 !! t = Some c -> locking c = true -> fc_mu x.2 = Some t;
  fi_groups : forall t c m, x.1 !! t = Some c -> grouped c = Some m -> groups_ok m;
  fi_tracked : tracked (fc_prevKeys x.2) (fc_cache x.2);
  fi_cache : cache_ok (fc_cache x.2);
}.

Lemma mutex_Some t (f g : fetcher C) : mutex t f = Some g -> fc_mu f = None /\ g = set_mu f (Some t).
Proof. unfold mutex. destruct (fc_mu f); [done|]. by intros [= <-]. Qed.

(** What a refresh reads. *)
Lemma read_groups o m : fair_store o -> (it ← fo_tokens o; groupTokensByKey it) = Ok m -> groups_ok m.
Proof. intros [_ Ho]. destruct (fo_tokens o) as [it|e|]; [|done|done]. cbn. intros Hm%groupTokensByKey_exact. exists it. by split; [apply Ho|]. Qed.

(** Closes the cases of a step. *)
Ltac frame_tac := cbn in *; repeat (split; [solve [intros; (done || auto || congruence)] |]); first [solve [intros; (done || auto || congruence)] | solve [left; done] | solve [right; eexists; split; [done | congruence]] | idtac].

(** What a step of goroutine [t] keeps of the parts of the state. *)
Definition frame (t : nat) (c c' : fpc) (f f' : fetcher C) : Prop :=
  (updating c' = true -> fc_isUpdating f' = true /\ (updating c = true \/ fc_isUpdating f = false)) /\
  (fc_isUpdating f = true -> fc_isUpdating f' = true \/ updating c = true) /\
  (locking c' = true -> fc_mu f' = Some t) /\
  (fc_mu f' = fc_mu f \/ fc_mu f = None \/ locking c = true) /\
  (forall m, grouped c' = Some m -> groups_ok m) /\
  ((fc_cache f' = fc_cache f /\ fc_prevKeys f' = fc_prevKeys f) \/
   exists m, grouped c = Some m /\ (fc_cache f', fc_prevKeys f') = updateCache m (fc_prevKeys f) (fc_cache f)).

Lemma fstep_frame o t c f c' f' : fair_store o -> (locking c = true -> fc_mu f = Some t) -> (updating c = true -> fc_isUpdating f = true) -> (forall m, grouped c = Some m -> groups_ok m) ->
  fstep o t c f = Some (c', f') -> frame t c c' f f'.
Proof.
  intros Ho Hl Hu Hg H. unfold frame. destruct c; cbn [Fetcher.fstep updateStep queryStep invalidateStep] in H; try (apply bind_Some in H as (g & [Hmu ->]%mutex_Some & H)).
  4: { destruct (it ← fo_tokens o; groupTokensByKey it) as [m|e|] eqn:Em; [|injection H as <- <-; frame_tac|done]. injection H as <- <-. apply read_groups in Em; [|done]. frame_tac. }
  all: try (destruct (fc_isUpdating f) eqn:Eu; [try discriminate H|]); try (destruct (negb _ && negb _)); try (destruct (_ =? start)); try (destruct (isCacheStale _ _ _)).
  all: try (injection H as <- <-); try (destruct k as [[w typ]|]); unfold install; try (destruct (updateCache _ _ _) as [cc kk] eqn:Ecc); frame_tac.
  all: try (by discriminate (Hu eq_refl)); naive_solver.
Qed.

Lemma install_ok m prevKeys c c' keys : tracked prevKeys c -> groups_ok m -> (c', keys) = updateCache m prevKeys c -> tracked keys c' /\ cache_ok c'.
Proof.
  intros Ht (it & Hs & Hk & Hm) E. pose proof (updateCache_exact m prevKeys c Ht) as H. rewrite <- E in H. destruct H as [Ht' H]. split; [done|].
  intros k v Hv. exists it. split_and!; [done..|]. rewrite <- Hm. by rewrite (H _ _ Hv).
Qed.

Lemma frame_inv T f t c c' f' : T !! t = Some c -> frame t c c' f f' -> finv (T, f) -> finv (<[t := c']> T, f').
Proof.
  intros Ht (F1 & F2 & F3 & F4 & F5 & F6) [Hu Hn Hl Hg Htr Hc]. cbn in *. split; cbn.
  - intros t' x. rewrite lookup_insert_Some. intros [[-> <-]|[Hne Hx]] Hup; [by apply F1|]. destruct (F2 (Hu t' x Hx Hup)) as [?|Hup']; [done|]. destruct Hne. by eapply Hn.
  - intros t1 c1 t2 c2. rewrite !lookup_insert_Some. intros [[-> <-]|[Hne1 H1]] [[-> <-]|[Hne2 H2]] U1 U2; [done| | |by eapply Hn].
    + destruct (F1 U1) as [_ [?|E]]; [by eapply (Hn _ c)|]. rewrite (Hu t2 c2 H2 U2) in E. done.
    + destruct (F1 U2) as [_ [?|E]]; [by eapply (Hn _ c1 _ c)|]. rewrite (Hu t1 c1 H1 U1) in E. done.
  - intros t' x. rewrite lookup_insert_Some. intros [[-> <-]|[Hne Hx]] Hlk; [by apply F3|]. pose proof (Hl t' x Hx Hlk) as Hmu. destruct F4 as [->|[E|E]]; [done|congruence|]. rewrite (Hl t c Ht E) in Hmu. congruence.
  - intros t' x m. rewrite lookup_insert_Some. intros [[-> <-]|[Hne Hx]] Hm; [by apply F5|by eapply Hg].
  - destruct F6 as [[-> ->]|(m & Hm & E)]; [done|]. by eapply install_ok; [|by eapply Hg|].
  - destruct F6 as [[-> _]|(m & Hm & E)]; [done|]. by eapply install_ok; [|by eapply Hg|].
Qed.

(** A fetcher over an empty cache. *)
Definition NewCachedFetcher (c : C) : fetcher C := mkFetcher c 0 0 0 ∅ false None.

Lemma freachable_inv c0 x : (forall k, cache_Get k c0 = None) -> FReachable freshnessInterval maxQueriesBeforeRefresh fair_store (∅, NewCachedFetcher c0) x -> finv x.
Proof.
  intros H0. induction 1 as [|x y _ IH Hs].
  - split; cbn; try (intros *; by rewrite ?lookup_empty). + intros k v. by rewrite H0. + intros k v. by rewrite H0.
  - destruct Hs as [t c T f Ht Hc|t o c c' T f f' Ht Ho Hs].
    + destruct IH as [Hu Hn Hl Hg Htr Hcc]. cbn in *. split; cbn; [..|done|done].
      * intros t' x. rewrite lookup_insert_Some. intros [[-> <-]|[Hne Hx]] Hup; [by destruct c as [[[]|]| | | | | | | | | | | | | | | | | |]|by eapply Hu].
      * intros t1 c1 t2 c2. rewrite !lookup_insert_Some. intros [[-> <-]|[Hne1 H1]] [[-> <-]|[Hne2 H2]] U1 U2; [done|by destruct c|by destruct c|by eapply Hn].
      * intros t' x. rewrite lookup_insert_Some. intros [[-> <-]|[Hne Hx]] Hlk; [by destruct c|by eapply Hl].
      * intros t' x m. rewrite lookup_insert_Some. intros [[-> <-]|[Hne Hx]] Hm; [by destruct c|by eapply Hg].
    + pose proof IH as [Hu Hn Hl Hg Htr Hcc]. cbn in *. eapply frame_inv; [done| |done]. eapply fstep_frame; [done|by apply Hl|by eapply Hu|intros m; by eapply Hg|done].
Qed.

(** At most one goroutine refreshes the cache at a time. *)
Theorem eager_single_refresh c0 T f t1 t2 c1 c2 : (forall k, cache_Get k c0 = None) ->
  FReachable freshnessInterval maxQueriesBeforeRefresh fair_store (∅, NewCachedFetcher c0) (T, f) ->
  T !! t1 = Some c1 -> T !! t2 = Some c2 -> updating c1 = true -> updating c2 = true -> t1 = t2.
Proof. intros H0 Hr. apply freachable_inv in Hr; [|done]. by apply (fi_unique _ Hr). Qed.

(** The tokens of a wallet and type in a snapshot. *)
Definition of_wallet (w typ : bytes) (l : list candidate) : list candidate := filter (fun t => uw_WalletID t = w /\ uw_Type t = typ) l.

Lemma of_key_wallet w typ l : Byte.x2e ∉ w -> Forall (fun t => Byte.x2e ∉ uw_WalletID t) l -> of_key (tokenKey w typ) l = of_wallet w typ l.
Proof.
  intros Hw Hl. unfold of_key, of_wallet. induction Hl as [|t l Ht _ IH]; [done|]. rewrite !filter_cons, IH.
  destruct (decide (tokenKey (uw_WalletID t) (uw_Type t) = tokenKey w typ)) as [E|Hne]; [apply tokenKey_inj in E as [-> ->]; [|done..]; by rewrite decide_True|].
  rewrite decide_False; [done|]. intros [E1 E2]. apply Hne. by rewrite E1, E2.
Qed.

(** An answer to a query: the tokens of the wallet and type in what was read of
    one iterator, the order of their amounts kept. *)
Definition answered (w typ : bytes) (r : list candidate) : Prop :=
  r = [] \/ exists it, snapshot it /\ kept it = true /\ r ≡ₚ of_wallet w typ (read_of it) /\ uw_Quantity <$> r = uw_Quantity <$> of_wallet w typ (read_of it).

Definition no_dots : Prop := forall it, snapshot it -> Forall (fun t => Byte.x2e ∉ uw_WalletID t) (read_of it).

(** What a query takes from the cache. *)
Lemma answer_ok (o : foracle) (c : C) w typ : no_dots -> Byte.x2e ∉ w -> (forall start l, fo_shuffle o start l ≡ₚ l) -> cache_ok c ->
  answered w typ (match cache_Get (tokenKey w typ) c with Some items => NewPermutation (fo_shuffle o) items | None => [] end).
Proof.
  intros Hd Hw Hsh Hc. destruct (cache_Get _ c) as [v|] eqn:E; [|by left]. right. destruct (Hc _ _ E) as (it & Hs & Hk & ->). exists it. rewrite of_key_wallet by auto.
  split_and!; [done..| |]; apply (permuteFrom_spec (fo_shuffle o) Hsh); lia.
Qed.
End Safety.

(** ** Freshness after an invalidation *)

(** The value of the counter a refresh started with, and the refreshes that have
    already compared it. *)
Definition started (c : fpc) : option Z :=
  match c with UpdateRead _ s | UpdateCheck _ s _ | UpdateRecheck _ s _ | UpdateInstall _ s _ | UpdateStamp _ s => Some s | _ => None end.
Definition compared (c : fpc) : bool := match c with UpdateRecheck _ _ _ | UpdateInstall _ _ _ | UpdateStamp _ _ => true | _ => false end.

Section Fresh.
Context {C : Type} {TC : TokenCache C} {TL : TokenCacheLaws C} (freshnessInterval maxQueriesBeforeRefresh : Z).
Abbreviation fstep := (fstep (C := C) freshnessInterval maxQueriesBeforeRefresh).
Abbreviation FStep := (FStep (C := C) freshnessInterval maxQueriesBeforeRefresh).

(** Executions with their number of steps. *)
Inductive FSteps (ok_oracle : foracle -> Prop) (x0 : fconfig (C := C)) : Z -> fconfig (C := C) -> Prop :=
| FSteps_init : FSteps ok_oracle x0 0 x0
| FSteps_step n x y : FSteps ok_oracle x0 n x -> FStep ok_oracle x y -> FSteps ok_oracle x0 (n + 1) y.

Lemma FSteps_count ok x0 n x : FSteps ok x0 n x -> 0 <= n.
Proof. induction 1; lia. Qed.

Lemma FStep_mono (ok ok' : foracle -> Prop) x y : (forall o, ok o -> ok' o) -> FStep ok x y -> FStep ok' x y.
Proof. intros H [t c T f Ht Hc|t o c c' T f f' Ht Ho Hs]; [by constructor|]. by eapply FStep_run; [|apply H|]. Qed.

Lemma fair_any P o : fair_store P o -> fair_store (fun _ => True) o.
Proof. intros [H _]. by split. Qed.

Lemma FSteps_reachable P x0 x1 n x : FReachable freshnessInterval maxQueriesBeforeRefresh (fair_store (fun _ => True)) x0 x1 -> FSteps (fair_store P) x1 n x ->
  FReachable freshnessInterval maxQueriesBeforeRefresh (fair_store (fun _ => True)) x0 x.
Proof. intros H. induction 1 as [|n x y _ IH Hs]; [done|]. eapply FReachable_step; [done|]. eapply FStep_mono; [|done]. apply fair_any. Qed.

(** The counter grows by at most one a step, and refreshes start with its value. *)
Record counting (n : Z) (x : fconfig (C := C)) : Prop := {
  ct_bound : 0 <= fc_invalidations x.2 <= n;
  ct_started : forall t c s, x.1 !! t = Some c -> started c = Some s -> s <= fc_invalidations x.2;
}.

Ltac step_cases H :=
  match type of H with Fetcher.fstep _ _ _ _ ?c ?f = _ =>
    destruct c; cbn [Fetcher.fstep updateStep queryStep invalidateStep] in H; try (let g := fresh "g" in let Hmu := fresh "Hmu" in apply bind_Some in H as (g & [Hmu ->]%mutex_Some & H));
    try (destruct (it ← fo_tokens _; groupTokensByKey it) as [?|?|] eqn:?); try (destruct (fc_isUpdating f) eqn:?; [try discriminate H|]); try (destruct (negb _ && negb _)); try (match type of H with context [fc_invalidations f =? ?s] => destruct (Z.eqb_spec (fc_invalidations f) s) end);
    try (destruct (isCacheStale _ _ _)); try discriminate H; try (injection H as <- <-); try (match goal with |- context [continue_ ?k] => destruct k as [[? ?]|] end); unfold install; try (destruct (updateCache _ _ _) as [? ?] eqn:?)
  end.

Lemma fstep_counter o t c f c' f' : 0 <= fc_invalidations f < 2 ^ 64 - 1 -> fstep o t c f = Some (c', f') ->
  fc_invalidations f <= fc_invalidations f' <= fc_invalidations f + 1 /\ forall s, started c' = Some s -> started c = Some s \/ s = fc_invalidations f.
Proof. intros Hb H. step_cases H; cbn -[Z.pow Z.modulo Z.add]; rewrite ?Z.mod_small by lia; (split; [lia|]); naive_solver. Qed.

Lemma counting_step ok n x y : n < 2 ^ 64 - 1 -> counting n x -> FStep ok x y -> counting (n + 1) y /\ fc_invalidations x.2 <= fc_invalidations y.2.
Proof.
  intros Hn Hx0 Hst. revert Hx0. destruct Hst as [t c T f Ht Hc|t o c c' T f f' Ht Ho H]; intros [Hb Hs]; cbn in *.
  - split; [|lia]. split; cbn; [lia|]. intros t' x s. rewrite lookup_insert_Some. intros [[-> <-]|[_ Hx]] Hst; [by destruct c|by eapply Hs].
  - apply fstep_counter in H as [Hc Hst]; [|lia]. split; [|lia]. split; cbn; [lia|]. intros t' x s. rewrite lookup_insert_Some. intros [[-> <-]|[_ Hx]] Hx'; [|by specialize (Hs _ _ _ Hx Hx'); lia].
    apply Hst in Hx' as [Hx'| ->]; [specialize (Hs _ _ _ Ht Hx')|]; lia.
Qed.

Lemma FSteps_counting ok (c0 : C) n x : FSteps ok (∅, NewCachedFetcher c0) n x -> n < 2 ^ 64 -> counting n x.
Proof.
  induction 1 as [|n x y Hr IH Hs]; intros Hn; [by split|]. eapply counting_step; [|apply IH|done]; lia.
Qed.

(** The executions after an invalidation by [u] that brought the counter to
    [count]; [later] are the iterators the store returns from then on. *)
Context (later : iterator -> Prop) (count : Z) (u : nat).

Record renewed (x : fconfig (C := C)) : Prop := {
  rn_count : count <= fc_invalidations x.2;
  rn_compared : forall t c s, x.1 !! t = Some c -> started c = Some s -> compared c = true -> count <= s;
  rn_groups : forall t c s m, x.1 !! t = Some c -> started c = Some s -> count <= s -> grouped c = Some m -> groups_ok later m;
  rn_stamp : forall t k s, x.1 !! t = Some (UpdateStamp k s) -> cache_ok later (fc_cache x.2);
  rn_last : fc_lastFetched x.2 <> 0 -> cache_ok later (fc_cache x.2) \/ x.1 !! u = Some InvalidateStamp \/ exists t k, x.1 !! t = Some (UpdateUnstamp k);
}.

(** What a step does for the freshness of the cache. *)
Definition renews (c c' : fpc) (f f' : fetcher C) : Prop :=
  (forall s, started c' = Some s -> compared c' = true -> count <= s) /\
  (forall s m, started c' = Some s -> count <= s -> grouped c' = Some m -> groups_ok later m) /\
  (forall k s, c' = UpdateStamp k s -> cache_ok later (fc_cache f')) /\
  (fc_cache f' = fc_cache f \/ updating c = true) /\
  (fc_lastFetched f' <> 0 -> cache_ok later (fc_cache f') \/ (exists k, c' = UpdateUnstamp k) \/
    (fc_lastFetched f' = fc_lastFetched f /\ fc_cache f' = fc_cache f /\ c <> InvalidateStamp /\ forall k, c <> UpdateUnstamp k)).

Lemma fstep_renews o t c f c' f' : fair_store later o -> count <= fc_invalidations f -> (forall s, started c = Some s -> compared c = true -> count <= s) ->
  (forall s m, started c = Some s -> count <= s -> grouped c = Some m -> groups_ok later m) -> (forall k s, c = UpdateStamp k s -> cache_ok later (fc_cache f)) ->
  tracked (fc_prevKeys f) (fc_cache f) -> fstep o t c f = Some (c', f') -> renews c c' f f'.
Proof.
  intros Ho Hc Hcmp Hg Hst Htr H. unfold renews. step_cases H; cbn in *.
  all: split_and!; try solve [intros; discriminate | left; done | right; done | intros _; right; right; split_and!; (done || intros; discriminate) | intros _; right; left; by eexists | done].
  all: first [ solve [intros s m0 _ _ [= <-]; by eapply read_groups] | solve [intros s [= <-] _; (lia || by apply Hcmp)] | solve [intros; left; by eapply Hst] | idtac ].
  all: assert (cache_ok later c) as Hok by (eapply install_ok; [exact Htr|by eapply Hg; [|apply Hcmp|]|by symmetry]); intros; (exact Hok || by left).
Qed.

Lemma renewed_step n P x y : n < 2 ^ 64 - 1 -> counting n x -> finv P x -> renewed x -> FStep (fair_store later) x y -> renewed y.
Proof.
  intros Hn Hct Hinv Hrn Hs. pose proof (proj2 (counting_step _ _ _ _ Hn Hct Hs)) as Hup. revert Hup Hinv Hrn. destruct Hs as [t c T f Ht Hc|t o c c' T f f' Ht Ho Hs]; intros Hup Hinv [Rc Rs Rg Rt Rl]; cbn in *.
  - split; cbn; [done|..].
    + intros t' x s. rewrite lookup_insert_Some. intros [[-> <-]|[_ Hx]]; [by destruct c|by eapply Rs].
    + intros t' x s m. rewrite lookup_insert_Some. intros [[-> <-]|[_ Hx]]; [by destruct c|by eapply Rg].
    + intros t' k s. rewrite lookup_insert_Some. intros [[-> ->]|[_ Hx]]; [done|by eapply Rt].
    + intros Hl. destruct (Rl Hl) as [?|[Hu|(t' & k & Ht')]]; [by left|right; left; by rewrite lookup_insert_ne by congruence|]. right. right. exists t', k. by rewrite lookup_insert_ne by congruence.
  - destruct (fstep_renews o t c f c' f') as (S1 & S2 & S3 & S4 & S5); [done|done|intros s; by eapply Rs|intros s m; by eapply Rg|intros k s ->; by eapply Rt|by apply Hinv|done|]. split; cbn; [lia|..].
    + intros t' x s. rewrite lookup_insert_Some. intros [[-> <-]|[_ Hx]]; [by apply S1|by eapply Rs].
    + intros t' x s m. rewrite lookup_insert_Some. intros [[-> <-]|[_ Hx]]; [by apply S2|by eapply Rg].
    + intros t' k s. rewrite lookup_insert_Some. intros [[-> ->]|[Hne Hx]]; [by eapply S3|]. destruct S4 as [->|Hup']; [by eapply Rt|]. destruct Hne. by eapply (fi_unique _ _ Hinv); [exact Ht|exact Hx|..].
    + intros Hl. destruct (S5 Hl) as [?|[[k ->]|(El & -> & Hni & Hnu)]]; [by left|right; right; exists t, k; by rewrite lookup_insert_eq|]. rewrite El in Hl.
      destruct (Rl Hl) as [?|[Hu|(t' & k & Ht')]]; [by left|right; left; by rewrite lookup_insert_ne by congruence|]. right. right. exists t', k. rewrite lookup_insert_ne; [done|]. intros ->. rewrite Ht in Ht'. injection Ht' as ->. by destruct (Hnu k).
Qed.

(** From the step that counts the invalidation on. *)
Lemma renewed_run c0 n T f m x : (forall k, cache_Get k c0 = None) -> FReachable freshnessInterval maxQueriesBeforeRefresh (fair_store (fun _ => True)) (∅, NewCachedFetcher c0) (T, f) ->
  counting n (T, f) -> renewed (T, f) -> FSteps (fair_store later) (T, f) m x -> n + m < 2 ^ 64 -> renewed x /\ counting (n + m) x /\ finv (fun _ => True) x.
Proof.
  intros H0 Hr Hct Hrn Hs. pose proof Hs as Hs'. induction Hs as [|m x y Hxs IH Hxy]; intros Hm.
  - rewrite Z.add_0_r. split_and!; [done..|]. by eapply freachable_inv.
  - destruct (IH Hxs) as (Ix & Ic & If); [lia|]. pose proof (FSteps_count _ _ _ _ Hxs). split_and!.
    + eapply (renewed_step (n + m)); [lia|done..].
    + rewrite Z.add_assoc. eapply counting_step; [|done..]. lia.
    + eapply freachable_inv; [done|]. by eapply FSteps_reachable.
Qed.

(** A query that finds the cache fresh, once the invalidation has returned. *)
Lemma renewed_query P T f w typ t o r f' : no_dots later -> Byte.x2e ∉ w -> (forall start l, fo_shuffle o start l ≡ₚ l) -> renewed (T, f) -> finv P (T, f) -> T !! u = Some (FDone None) ->
  fstep o t (QueryStart w typ) f = Some (QueryCount r, f') -> answered later w typ r.
Proof.
  intros Hd Hw Hsh [_ _ _ _ Rl] Hinv Hu Hs. cbn in *. apply bind_Some in Hs as (g & [Hmu _]%mutex_Some & Hs). destruct (isCacheStale _ _ _) eqn:Est; [done|]. injection Hs as <- _.
  apply answer_ok; [done..|]. unfold isCacheStale in Est. destruct (Z.eqb_spec (fc_lastFetched f) 0) as [|Hl]; [done|]. destruct (Rl Hl) as [?|[?|(t' & k & Ht')]]; [done|congruence|].
  pose proof (fi_locking _ _ Hinv t' _ Ht' eq_refl) as E. cbn in E. congruence.
Qed.
End Fresh.

Section Claim.
Context {C : Type} {TC : TokenCache C} {TL : TokenCacheLaws C} (freshnessInterval maxQueriesBeforeRefresh : Z).
Abbreviation fstep := (fstep (C := C) freshnessInterval maxQueriesBeforeRefresh).

(** The state after a goroutine has counted its invalidation, while no refresh is
    between its comparison of the counter and its end. *)
Lemma invalidated_renewed later n T f u o f1 : counting n (T, f) -> n < 2 ^ 64 - 1 -> (forall t c, T !! t = Some c -> compared c = false) -> T !! u = Some InvalidateCount ->
  fstep o u InvalidateCount f = Some (InvalidateStamp, f1) -> renewed later (fc_invalidations f1) u (<[u := InvalidateStamp]> T, f1) /\ counting (n + 1) (<[u := InvalidateStamp]> T, f1).
Proof.
  intros [Hb Hst] Hn Hcmp Hu Hs. cbn in *. injection Hs as <-. split; split; cbn -[Z.pow Z.modulo Z.add] in *; rewrite ?Z.mod_small by lia; [lia|..].
  - intros t x s. rewrite lookup_insert_Some. intros [[-> <-]|[_ Hx]] _; [done|]. by rewrite (Hcmp _ _ Hx).
  - intros t x s m. rewrite lookup_insert_Some. intros [[-> <-]|[_ Hx]] Hs; [done|]. specialize (Hst _ _ _ Hx Hs). lia.
  - intros t k s. rewrite lookup_insert_Some. intros [[_ ?]|[_ Hx]]; [done|]. by specialize (Hcmp _ _ Hx).
  - intros _. right. left. by rewrite lookup_insert_eq.
  - lia.
  - intros t x s. rewrite lookup_insert_Some. intros [[-> <-]|[_ Hx]] Hs; [done|]. specialize (Hst _ _ _ Hx Hs). lia.
Qed.

(** C32: what the eager fetcher answers, as long as no wallet id contains a dot.
    Whatever other goroutines refresh or invalidate meanwhile, the answer to a
    query is empty or consists of exactly the tokens of the wallet and type in
    what was read of one iterator of the store, with the order of the amounts
    kept.  An iterator is read up to its end or its first failure, and its tokens
    are used unless the call after that one fails too: an iterator that fails half
    way can thus give a partial answer.  After an invalidation that is counted
    while no refresh is between its comparison of the counter and its end, and
    once that invalidation has returned, a query that finds the cache fresh is
    answered from an iterator that the store returned after the count: refreshes
    that were under way then do not hide the invalidation.  The counter must not
    wrap, which takes 2^64 steps. *)
Theorem eager_fetch_sound (c0 : C) (before later : iterator -> Prop) w : (forall k, cache_Get k c0 = None) -> no_dots before -> no_dots later -> Byte.x2e ∉ w ->
  (forall T f t o c f' typ r, FReachable freshnessInterval maxQueriesBeforeRefresh (fair_store before) (∅, NewCachedFetcher c0) (T, f) -> T !! t = Some c -> c = QueryStart w typ \/ c = QueryGet w typ ->
     fair_store before o -> fstep o t c f = Some (QueryCount r, f') -> answered before w typ r) /\
  (forall n m T1 f1 u oi f2 T f t o f' typ r, FSteps freshnessInterval maxQueriesBeforeRefresh (fair_store before) (∅, NewCachedFetcher c0) n (T1, f1) ->
     (forall t c, T1 !! t = Some c -> compared c = false) -> T1 !! u = Some InvalidateCount -> fstep oi u InvalidateCount f1 = Some (InvalidateStamp, f2) ->
     FSteps freshnessInterval maxQueriesBeforeRefresh (fair_store later) (<[u := InvalidateStamp]> T1, f2) m (T, f) -> n + m + 1 < 2 ^ 64 ->
     T !! u = Some (FDone None) -> fair_store later o -> fstep o t (QueryStart w typ) f = Some (QueryCount r, f') -> answered later w typ r).
Proof.
  intros H0 Hdb Hdl Hw. split.
  - intros T f t o c f' typ r Hr Ht Hc [Hsh _] Hs. apply freachable_inv in Hr as [_ _ _ _ _ Hcache]; [|done]. cbn in Hcache.
    destruct Hc as [->| ->]; cbn [Fetcher.fstep updateStep queryStep invalidateStep] in Hs; apply bind_Some in Hs as (g & _ & Hs); [destruct (isCacheStale _ _ _); [done|]|]; injection Hs as <- _; by apply answer_ok.
  - intros n m T1 f1 u oi f2 T f t o f' typ r Hr Hcmp Hu Hi Hl Hnm Hdone [Hsh _] Hs. pose proof (FSteps_count _ _ _ _ _ _ Hl).
    pose proof (FSteps_counting _ _ _ _ _ _ Hr ltac:(lia)) as Hct. destruct (invalidated_renewed later n T1 f1 u oi f2 Hct ltac:(lia) Hcmp Hu Hi) as [Hrn Hct'].
    edestruct (renewed_run freshnessInterval maxQueriesBeforeRefresh later (fc_invalidations f2) u c0) as (Hx & _ & Hinv); [done| |done|done|done|lia|by eapply renewed_query].
    eapply FReachable_step; [eapply FSteps_reachable; [constructor|exact Hr]|]. apply (FStep_run _ _ _ u (mkFOracle 0 (fun _ l => l) Panic) InvalidateCount); [done|by split|exact Hi].
Qed.
End Claim.

(** ** Runs *)

#[local] Instance map_cache : TokenCache (gmap bytes (list candidate)) := { cache_Get k c := c !! k; cache_Add k v c := <[k := v]> c; cache_Delete k c := delete k c }.
#[local] Instance map_cache_laws : TokenCacheLaws (gmap bytes (list candidate)).
Proof.
  split; cbn.
  - intros k k' v v' c. destruct (decide (k' = k)) as [->|Hne]; [by rewrite lookup_insert_eq; intros [= ->]|by rewrite lookup_insert_ne].
  - by intros k k' v' c [? ?]%lookup_delete_Some.
Qed.

Definition gold (tx q : string) : candidate := mkUnspentTokenInWallet (mkID (str tx) 0) (str "alice") (str "GLD") (str q).
Definition vault : list candidate := [gold "a" "1"; gold "b" "2"; gold "c" "2"].
Definition vault_snapshot (it : iterator) : Prop := it = Ok <$> vault.
Definition clock100 : foracle := mkFOracle 100 (fun _ l => rev l) (Ok (Ok <$> vault)).

(** The store later on; its iterator fails after one token and is exhausted then. *)
Definition broken : iterator := [Ok (gold "d" "5"); Err (EMsg "connection lost"); Err EOF].
Definition broken_snapshot (it : iterator) : Prop := it = broken.
Definition clock200 : foracle := mkFOracle 200 (fun _ l => rev l) (Ok broken).

Lemma clock100_fair : fair_store vault_snapshot clock100.
Proof. split; [intros start l; cbn; symmetry; apply Permutation_rev|by intros it [= <-]]. Qed.
Lemma clock200_fair : fair_store broken_snapshot clock200.
Proof. split; [intros start l; cbn; symmetry; apply Permutation_rev|by intros it [= <-]]. Qed.

Inductive fscript := FCall (t : nat) (c : fpc) | FRun (t : nat).
Abbreviation mconfig := (fconfig (C := gmap bytes (list candidate))).

Definition fplay1 (o : foracle) (a : fscript) (x : mconfig) : option mconfig :=
  match a with
  | FCall t c => match x.1 !! t with None => if finitial c then Some (<[t := c]> x.1, x.2) else None | Some _ => None end
  | FRun t => c ← x.1 !! t; '(c', f') ← fstep 1000 5 o t c x.2; Some (<[t := c']> x.1, f')
  end.
Fixpoint fplay (o : foracle) (l : list fscript) (x : mconfig) : option mconfig :=
  match l with [] => Some x | a :: l => y ← fplay1 o a x; fplay o l y end.

Lemma fplay_steps (ok : foracle -> Prop) o : ok o -> forall l x0 n x y, FSteps 1000 5 ok x0 n x -> fplay o l x = Some y -> FSteps 1000 5 ok x0 (n + zlen l) y.
Proof.
  intros Ho. induction l as [|a l IH]; intros x0 n x y Hx; cbn -[Z.add]; [intros [= <-]; by rewrite Z.add_0_r|]. intros (z & E & H)%bind_Some.
  replace (n + zlen (a :: l)) with (n + 1 + zlen l) by (unfold zlen; cbn [length]; lia). eapply IH; [|exact H]. apply (FSteps_step _ _ _ _ _ x); [done|]. destruct x as [T f]. destruct a as [t c|t]; cbn in E.
  - destruct (T !! t) eqn:Et; [done|]. destruct (finitial c) eqn:Ec; [|done]. injection E as <-. by constructor.
  - destruct (T !! t) as [c|] eqn:Et; [|done]. cbn in E. destruct (fstep _ _ _ _ _ _) as [[c' f']|] eqn:Es; [|done]. injection E as <-. by eapply FStep_run.
Qed.

Definition new_config : mconfig := (∅, NewCachedFetcher ∅).
Definition played (o : foracle) (l : list fscript) (x : mconfig) : mconfig := default x (fplay o l x).
Definition runs (o : foracle) (l : list fscript) (x : mconfig) : bool := match fplay o l x with Some _ => true | None => false end.
Definition fat (l : list fscript) : mconfig := played clock100 l new_config.

Lemma played_steps (ok : foracle -> Prop) o l x : ok o -> runs o l x = true -> FSteps 1000 5 ok x (zlen l) ((played o l x).1, (played o l x).2).
Proof.
  intros Ho. unfold runs, played. destruct (fplay o l x) as [[T f]|] eqn:Hy; [|done]. intros _. cbn. eapply (fplay_steps ok o Ho l x 0) in Hy; [done|constructor].
Qed.

Lemma fat_reachable l : runs clock100 l new_config = true -> FReachable 1000 5 (fair_store vault_snapshot) new_config ((fat l).1, (fat l).2).
Proof.
  intros H. apply (played_steps (fair_store vault_snapshot)) in H; [|exact clock100_fair]. fold (fat l) in H. remember (fat l).1 as T. remember (fat l).2 as f. clear HeqT Heqf.
  remember (zlen l) as n. clear Heqn. induction H as [|n x y _ IH Hs]; [constructor|]. by eapply FReachable_step.
Qed.

(** A query that refreshes the cache first, while another waits for it. *)
Definition querying : list fscript :=
  FCall 0 (QueryStart (str "alice") (str "GLD")) :: FCall 1 (QueryStart (str "alice") (str "GLD")) :: FRun 0 :: FRun 1 :: FRun 0 :: FRun 0 :: FRun 1 :: replicate 7 (FRun 0).

Lemma eager_single_refresh_witness : 0%nat = 0%nat.
Proof.
  apply (eager_single_refresh 1000 5 vault_snapshot ∅ (fat (take 6 querying)).1 (fat (take 6 querying)).2 0%nat 0%nat (UpdateRead (Some (str "alice", str "GLD")) 0) (UpdateRead (Some (str "alice", str "GLD")) 0)).
  - reflexivity.
  - apply fat_reachable. vm_compute. reflexivity.
  - vm_compute. reflexivity.
  - vm_compute. reflexivity.
  - reflexivity.
  - reflexivity.
Defined.

Definition answer : list candidate := [gold "a" "1"; gold "c" "2"; gold "b" "2"].

(** The cache of that refresh is invalidated; a query refreshes it from the store
    of then, and the next one finds it fresh. *)
Definition invalidation : list fscript := querying ++ [FCall 2 InvalidateCount].
Definition invalidated : mconfig := fat invalidation.
Definition counted : mconfig := played clock200 [FRun 2] invalidated.
Definition refreshing : list fscript := FRun 2 :: FCall 3 (QueryStart (str "alice") (str "GLD")) :: replicate 11 (FRun 3) ++ [FCall 4 (QueryStart (str "alice") (str "GLD"))].
Definition refreshed : mconfig := played clock200 refreshing counted.

Lemma eager_fetch_sound_witness : answered vault_snapshot (str "alice") (str "GLD") answer /\ answered broken_snapshot (str "alice") (str "GLD") [gold "d" "5"].
Proof.
  destruct (eager_fetch_sound 1000 5 (∅ : gmap bytes (list candidate)) vault_snapshot broken_snapshot (str "alice")) as [Hany Hfresh].
  - reflexivity.
  - intros it ->. apply (bool_decide_unpack _). vm_compute. exact I.
  - intros it ->. apply (bool_decide_unpack _). vm_compute. exact I.
  - apply (bool_decide_unpack _). vm_compute. exact I.
  - split.
    + apply (Hany (fat querying).1 (fat querying).2 0%nat clock100 (QueryGet (str "alice") (str "GLD")) (fat querying).2); [apply fat_reachable; vm_compute; reflexivity|vm_compute; reflexivity|by right|exact clock100_fair|vm_compute; reflexivity].
    + apply (Hfresh 15 14 invalidated.1 invalidated.2 2%nat clock200 counted.2 refreshed.1 refreshed.2 4%nat clock200 refreshed.2 (str "GLD")).
      * apply (played_steps _ clock100 invalidation new_config clock100_fair). vm_compute. reflexivity.
      * apply map_Forall_lookup, (bool_decide_unpack _). vm_compute. exact I.
      * vm_compute. reflexivity.
      * vm_compute. reflexivity.
      * apply (played_steps _ clock200 refreshing counted clock200_fair). vm_compute. reflexivity.
      * reflexivity.
      * vm_compute. reflexivity.
      * exact clock200_fair.
      * vm_compute. reflexivity.
Defined.

(** An invalidation that completes after the refresh has compared the counters
    and before it stamps the cache is lost: the cache holds the older snapshot and
    counts as fresh, which the counter is there to prevent. *)
Definition invalidating : list fscript :=
  FCall 0 (UpdateEnter None) :: replicate 6 (FRun 0) ++ FCall 1 InvalidateCount :: FRun 1 :: FRun 1 :: replicate 3 (FRun 0).

Theorem invalidation_lost :
  FReachable 1000 5 (fair_store vault_snapshot) new_config ((fat invalidating).1, (fat invalidating).2) /\
  (fat invalidating).1 !! 0%nat = Some (FDone None) /\ (fat invalidating).1 !! 1%nat = Some (FDone None) /\
  fc_invalidations (fat invalidating).2 = 1 /\ isCacheStale 1000 100 (fat invalidating).2 = false.
Proof. split; [apply fat_reachable; vm_compute; reflexivity|]. split; [vm_compute; reflexivity|]. split; [vm_compute; reflexivity|]. split; vm_compute; reflexivity. Qed.
