(* ===== verification/Metadata.v ===== *)
(** * Request metadata (token/driver/request.go from line 456,
      token/driver/marshaller.go, token/driver/protos-go/utils/proto.go)

    What a client discloses about a request to its auditors and recipients: for
    every action the identities behind inputs and outputs with their audit
    information, and the openings of the outputs.  A Go identity may be nil,
    which is not the same as empty where the code compares with nil, so it is an
    [option]; the protobuf messages are the records prefixed with [P]. *)

From S2P Require Import Prelude TokenTypes Request.
From Stdlib Require Import ZArith Lia.
Local Open Scope Z_scope.

(** ** Conversions shared by the messages (marshaller.go, proto.go) *)

Definition ToTokenID (id : option ID) : option ID :=
  match id with None => None | Some id => Some (mkID (TxId id) (Index id)) end.

Definition utils_ToTokenID (id : option ID) : res (option ID) :=
  match id with None => Ok None | Some id => Ok (Some (mkID (TxId id) (Index id))) end.

(** The message [Identity] wraps a byte slice, which may be nil. *)
Definition ToIdentity (id : option (option bytes)) : option bytes :=
  match id with None => None | Some raw => raw end.

(** The bytes of a possibly nil slice. *)
Definition raw_of (id : option bytes) : bytes := default [] id.

(** ** Auditable identities *)

Record AuditableIdentity := mkAuditableIdentity { AI_Identity : option bytes; AI_AuditInfo : bytes }.
Record PAuditableIdentity := mkPAuditableIdentity { PAI_Identity : option (option bytes); PAI_AuditInfo : bytes }.

Definition AuditableIdentity_ToProtos (a : AuditableIdentity) : res PAuditableIdentity :=
  Ok (mkPAuditableIdentity (Some (AI_Identity a)) (AI_AuditInfo a)).

Definition AuditableIdentity_FromProtos (p : option PAuditableIdentity) (a : AuditableIdentity) : res AuditableIdentity :=
  match p with
  | None => Ok (mkAuditableIdentity None [])
  | Some p => Ok (mkAuditableIdentity (ToIdentity (PAI_Identity p)) (PAI_AuditInfo p))
  end.

(** As an element of a slice of pointers. *)
Definition AuditableIdentity_FromProtos_elem (p : PAuditableIdentity) (a : AuditableIdentity) : res AuditableIdentity :=
  AuditableIdentity_FromProtos (Some p) a.

Definition ToProtoAuditableIdentitySliceFromAuditable (identities : list AuditableIdentity) : res (list (option PAuditableIdentity)) :=
  mapM (fun id => p ← AuditableIdentity_ToProtos id; Ok (Some p)) identities.

Definition FromProtoAuditableIdentitySliceToAuditable (identities : list (option PAuditableIdentity)) : res (list AuditableIdentity) :=
  mapM (fun id => AuditableIdentity_FromProtos id (mkAuditableIdentity None [])) identities.

(** The identities of a slice of pointers, nil where the pointer is. *)
Definition identities_of (l : list (option AuditableIdentity)) : list (option bytes) :=
  (fun a => match a with None => None | Some a => AI_Identity a end) <$> l.

(** [for _, x := range xs { res = append(res, f(x)...) }] over pointers the
    body follows. *)
Fixpoint concat_deref {A B} (f : A -> list B) (xs : list (option A)) : res (list B) :=
  match xs with
  | [] => Ok []
  | None :: _ => Panic
  | Some x :: xs => rest ← concat_deref f xs; Ok (f x ++ rest)
  end.

(** [res[index]] behind a bounds check. *)
Definition checked_at {A} (l : list (option A)) (index : Z) : option A :=
  if (index <? 0) || (index >=? zlen l) then None else mjoin (l !! Z.to_nat index).

(** ** Issue actions *)

Record IssueInputMetadata := mkIssueInputMetadata { IIM_TokenID : option ID }.
Record PIssueInputMetadata := mkPIssueInputMetadata { PIIM_TokenId : option ID }.

Definition IssueInputMetadata_ToProtos (i : IssueInputMetadata) : res PIssueInputMetadata :=
  tokenID ← wrap "failed to marshal token ID" (utils_ToTokenID (IIM_TokenID i));
  Ok (mkPIssueInputMetadata tokenID).

Definition IssueInputMetadata_FromProtos (p : PIssueInputMetadata) (i : IssueInputMetadata) : res IssueInputMetadata :=
  Ok (mkIssueInputMetadata (ToTokenID (PIIM_TokenId p))).

Record IssueOutputMetadata := mkIssueOutputMetadata {
  IOM_OutputMetadata : bytes;
  IOM_OutputAuditInfo : bytes;
  IOM_Receivers : list (option AuditableIdentity);
}.
Record POutputMetadata := mkPOutputMetadata {
  POM_Metadata : bytes;
  POM_AuditInfo : bytes;
  POM_Receivers : list (option PAuditableIdentity);
}.

(** A slice of freshly allocated elements, filled from the messages. *)
Definition fill {S T} (conv : T -> S -> res S) (zero : S) (t : list (option T)) : res (list (option S)) :=
  FromProtosSlice conv t (replicate (length t) zero).

Definition receivers_FromProtos (t : list (option PAuditableIdentity)) : res (list (option AuditableIdentity)) :=
  fill AuditableIdentity_FromProtos_elem (mkAuditableIdentity None []) t.

Definition IssueOutputMetadata_ToProtos (i : IssueOutputMetadata) : res POutputMetadata :=
  receivers ← wrap "failed marshalling receivers" (ToProtosSlice AuditableIdentity_ToProtos (IOM_Receivers i));
  Ok (mkPOutputMetadata (IOM_OutputMetadata i) (IOM_OutputAuditInfo i) receivers).

Definition IssueOutputMetadata_FromProtos (p : POutputMetadata) (i : IssueOutputMetadata) : res IssueOutputMetadata :=
  receivers ← wrap "failed unmarshalling receivers metadata" (receivers_FromProtos (POM_Receivers p));
  Ok (mkIssueOutputMetadata (POM_Metadata p) (POM_AuditInfo p) receivers).

Definition IssueOutputMetadata_RecipientAt (i : IssueOutputMetadata) (index : Z) : option AuditableIdentity :=
  checked_at (IOM_Receivers i) index.

Record IssueMetadata := mkIssueMetadata {
  IM_Issuer : AuditableIdentity;
  IM_Inputs : list (option IssueInputMetadata);
  IM_Outputs : list (option IssueOutputMetadata);
  IM_ExtraSigners : list AuditableIdentity;
}.
Record PIssueMetadata := mkPIssueMetadata {
  PIM_Issuer : option PAuditableIdentity;
  PIM_Inputs : list (option PIssueInputMetadata);
  PIM_Outputs : list (option POutputMetadata);
  PIM_ExtraSigners : list (option PAuditableIdentity);
}.

Definition IssueMetadata_ToProtos (i : IssueMetadata) : res PIssueMetadata :=
  issuer ← wrap "failed marshalling issuer" (AuditableIdentity_ToProtos (IM_Issuer i));
  inputs ← wrap "failed marshalling inputs" (ToProtosSlice IssueInputMetadata_ToProtos (IM_Inputs i));
  outputs ← wrap "failed marshalling outputs" (ToProtosSlice IssueOutputMetadata_ToProtos (IM_Outputs i));
  extraSigners ← wrap "failed marshalling extra signers" (ToProtoAuditableIdentitySliceFromAuditable (IM_ExtraSigners i));
  Ok (mkPIssueMetadata (Some issuer) inputs outputs extraSigners).

(** On a freshly allocated receiver, as the only caller has it. *)
Definition IssueMetadata_FromProtos (p : PIssueMetadata) : res IssueMetadata :=
  issuer ← wrap "failed unmarshalling issuer" (AuditableIdentity_FromProtos (PIM_Issuer p) (mkAuditableIdentity None []));
  inputs ← wrap "failed unmarshalling input metadata"
    (fill IssueInputMetadata_FromProtos (mkIssueInputMetadata None) (PIM_Inputs p));
  outputs ← wrap "failed unmarshalling output metadata"
    (fill IssueOutputMetadata_FromProtos (mkIssueOutputMetadata [] [] []) (PIM_Outputs p));
  extraSigners ← wrap "failed unmarshalling extra signers" (FromProtoAuditableIdentitySliceToAuditable (PIM_ExtraSigners p));
  Ok (mkIssueMetadata issuer inputs outputs extraSigners).

Definition IssueMetadata_Receivers (i : IssueMetadata) : res (list (option bytes)) :=
  concat_deref (fun output => identities_of (IOM_Receivers output)) (IM_Outputs i).

Definition IssueMetadata_IsOutputAbsent (i : IssueMetadata) (j : Z) : bool :=
  match checked_at (IM_Outputs i) j with None => true | Some _ => false end.

(** ** Transfer actions *)

Record TransferInputMetadata := mkTransferInputMetadata {
  TIM_TokenID : option ID;
  TIM_Senders : list (option AuditableIdentity);
}.
Record PTransferInputMetadata := mkPTransferInputMetadata {
  PTIM_TokenId : option ID;
  PTIM_Senders : list (option PAuditableIdentity);
}.

Definition TransferInputMetadata_ToProtos (t : TransferInputMetadata) : res PTransferInputMetadata :=
  senders ← wrap "failed marshalling senders" (ToProtosSlice AuditableIdentity_ToProtos (TIM_Senders t));
  tokenID ← wrap "failed marshalling tokenID" (utils_ToTokenID (TIM_TokenID t));
  Ok (mkPTransferInputMetadata tokenID senders).

Definition TransferInputMetadata_FromProtos (p : PTransferInputMetadata) (t : TransferInputMetadata) : res TransferInputMetadata :=
  senders ← wrap "failed unmarshalling token metadata" (receivers_FromProtos (PTIM_Senders p));
  Ok (mkTransferInputMetadata (ToTokenID (PTIM_TokenId p)) senders).

Record TransferOutputMetadata := mkTransferOutputMetadata {
  TOM_OutputMetadata : bytes;
  TOM_OutputAuditInfo : bytes;
  TOM_Receivers : list (option AuditableIdentity);
}.

Definition TransferOutputMetadata_ToProtos (t : TransferOutputMetadata) : res POutputMetadata :=
  receivers ← wrap "failed marshalling receivers" (ToProtosSlice AuditableIdentity_ToProtos (TOM_Receivers t));
  Ok (mkPOutputMetadata (TOM_OutputMetadata t) (TOM_OutputAuditInfo t) receivers).

Definition TransferOutputMetadata_FromProtos (p : POutputMetadata) (t : TransferOutputMetadata) : res TransferOutputMetadata :=
  receivers ← wrap "failed unmarshalling receivers metadata" (receivers_FromProtos (POM_Receivers p));
  Ok (mkTransferOutputMetadata (POM_Metadata p) (POM_AuditInfo p) receivers).

Definition TransferOutputMetadata_RecipientAt (t : TransferOutputMetadata) (index : Z) : option AuditableIdentity :=
  checked_at (TOM_Receivers t) index.

Record TransferMetadata := mkTransferMetadata {
  TM_Inputs : list (option TransferInputMetadata);
  TM_Outputs : list (option TransferOutputMetadata);
  TM_ExtraSigners : list AuditableIdentity;
  TM_Issuer : AuditableIdentity;
}.
Record PTransferMetadata := mkPTransferMetadata {
  PTM_Inputs : list (option PTransferInputMetadata);
  PTM_Outputs : list (option POutputMetadata);
  PTM_ExtraSigners : list (option PAuditableIdentity);
  PTM_Issuer : option PAuditableIdentity;
}.

(** The element behind the bounds check is followed unchecked. *)
Definition TransferMetadata_TokenIDAt (t : TransferMetadata) (index : Z) : res (option ID) :=
  if (index <? 0) || (index >=? zlen (TM_Inputs t)) then Ok None
  else match TM_Inputs t !! Z.to_nat index with
       | Some (Some i) => Ok (TIM_TokenID i)
       | _ => Panic
       end.

Definition TransferMetadata_ToProtos (t : TransferMetadata) : res PTransferMetadata :=
  inputs ← wrap "failed marshalling inputs" (ToProtosSlice TransferInputMetadata_ToProtos (TM_Inputs t));
  outputs ← wrap "failed marshalling outputs" (ToProtosSlice TransferOutputMetadata_ToProtos (TM_Outputs t));
  extraSigners ← wrap "failed marshalling extra signers" (ToProtoAuditableIdentitySliceFromAuditable (TM_ExtraSigners t));
  issuer ← (match AI_Identity (TM_Issuer t) with
            | None => Ok None
            | Some _ => i ← wrap "failed marshalling issuer" (AuditableIdentity_ToProtos (TM_Issuer t)); Ok (Some i)
            end);
  Ok (mkPTransferMetadata inputs outputs extraSigners issuer).

Definition TransferMetadata_FromProtos (p : PTransferMetadata) : res TransferMetadata :=
  inputs ← wrap "failed unmarshalling inputs"
    (fill TransferInputMetadata_FromProtos (mkTransferInputMetadata None []) (PTM_Inputs p));
  outputs ← wrap "failed unmarshalling outputs"
    (fill TransferOutputMetadata_FromProtos (mkTransferOutputMetadata [] [] []) (PTM_Outputs p));
  extraSigners ← wrap "failed unmarshalling extra signers" (FromProtoAuditableIdentitySliceToAuditable (PTM_ExtraSigners p));
  issuer ← wrap "failed unmarshalling issuer" (AuditableIdentity_FromProtos (PTM_Issuer p) (mkAuditableIdentity None []));
  Ok (mkTransferMetadata inputs outputs extraSigners issuer).

Definition TransferMetadata_Receivers (t : TransferMetadata) : res (list (option bytes)) :=
  concat_deref (fun output => identities_of (TOM_Receivers output)) (TM_Outputs t).

Definition TransferMetadata_Senders (t : TransferMetadata) : res (list (option bytes)) :=
  concat_deref (fun input => identities_of (TIM_Senders input)) (TM_Inputs t).

Definition TransferMetadata_TokenIDs (t : TransferMetadata) : list (option ID) :=
  omap (fun input => match input with None => None | Some i => Some (TIM_TokenID i) end) (TM_Inputs t).

Definition TransferMetadata_IsOutputAbsent (t : TransferMetadata) (j : Z) : bool :=
  match checked_at (TM_Outputs t) j with None => true | Some _ => false end.

Definition TransferMetadata_IsInputAbsent (t : TransferMetadata) (j : Z) : bool :=
  match checked_at (TM_Inputs t) j with None => true | Some i => zlen (TIM_Senders i) =? 0 end.

(** ** Matching an action (driver.IssueAction, driver.TransferAction)

    What the interfaces of actions give the metadata and the auditors. *)

Class IssueActionI (A : Type) := {
  IA_Validate : A -> res unit;
  IA_NumInputs : A -> Z;
  IA_NumOutputs : A -> Z;
  IA_ExtraSigners : A -> list bytes;
  IA_GetIssuer : A -> bytes;
}.

Class TransferActionI (A : Type) := {
  TA_Validate : A -> res unit;
  TA_NumInputs : A -> Z;
  TA_NumOutputs : A -> Z;
  TA_ExtraSigners : A -> list bytes;
  TA_GetIssuer : A -> option bytes;
  TA_IsRedeem : A -> res bool;
}.

Section Match.
Context {IO : IdentityOps}.

(** Every signer of the action is among those of the metadata, in any order. *)
Definition IssueMetadata_Match `{!IssueActionI A} (i : IssueMetadata) (action : A) : res unit :=
  wrap "failed validating issue action" (IA_Validate action) ;;
  reject_if (negb (zlen (IM_Inputs i) =? IA_NumInputs action)) (EMsg "expected inputs") ;;
  reject_if (negb (zlen (IM_Outputs i) =? IA_NumOutputs action)) (EMsg "expected outputs") ;;
  let extraSigners := IA_ExtraSigners action in
  reject_if (negb (zlen (IM_ExtraSigners i) =? zlen extraSigners)) (EMsg "expected extra signers") ;;
  rangeR (fun _ signer =>
    reject_if (negb (existsb (fun a => Identity_Equal signer (raw_of (AI_Identity a))) (IM_ExtraSigners i)))
      (EMsg "extra signer from action not found in metadata")) 0 extraSigners ;;
  reject_if (negb (Identity_Equal (raw_of (AI_Identity (IM_Issuer i))) (IA_GetIssuer action))) (EMsg "expected issuer").

(** Position by position; indexing out of range would panic. *)
Definition TransferMetadata_Match `{!TransferActionI A} (t : TransferMetadata) (action : A) : res unit :=
  wrap "failed validating transfer action" (TA_Validate action) ;;
  reject_if (negb (zlen (TM_Inputs t) =? TA_NumInputs action)) (EMsg "expected inputs") ;;
  reject_if (negb (zlen (TM_Outputs t) =? TA_NumOutputs action)) (EMsg "expected outputs") ;;
  let extraSigners := TA_ExtraSigners action in
  reject_if (negb (zlen (TM_ExtraSigners t) =? zlen extraSigners)) (EMsg "expected extra signers") ;;
  rangeR (fun k signer =>
    match TM_ExtraSigners t !! k with
    | None => Panic
    | Some a => reject_if (negb (Identity_Equal signer (raw_of (AI_Identity a)))) (EMsg "expected extra signer")
    end) 0 extraSigners ;;
  reject_if (negb (Identity_Equal (raw_of (AI_Identity (TM_Issuer t))) (raw_of (TA_GetIssuer action)))) (EMsg "expected issuer").
End Match.

(** ** Metadata of a request *)

Record ActionMetadataEntry := mkActionMetadataEntry {
  AM_ActionID : Z;
  AM_IssueMetadata : option IssueMetadata;
  AM_TransferMetadata : option TransferMetadata;
}.

Record TokenRequestMetadata := mkTokenRequestMetadata {
  TRM_Actions : list (option ActionMetadataEntry);
  TRM_Application : gomap bytes;
}.

(** The loop of [GetIssueMetadata] and [GetTransferMetadata]. *)
Fixpoint nth_metadata {X} (proj : ActionMetadataEntry -> option X) (actions : list (option ActionMetadataEntry)) (index count : Z) : res (option X) :=
  match actions with
  | [] => Ok None
  | None :: _ => Panic
  | Some a :: l =>
      match proj a with
      | Some x => if count =? index then Ok (Some x) else nth_metadata proj l index (count + 1)
      | None => nth_metadata proj l index count
      end
  end.

Definition GetIssueMetadata (m : TokenRequestMetadata) (index : Z) : res IssueMetadata :=
  r ← nth_metadata AM_IssueMetadata (TRM_Actions m) index 0;
  match r with Some x => Ok x | None => Err (EMsg "issue metadata at index out of range") end.

Definition GetTransferMetadata (m : TokenRequestMetadata) (index : Z) : res TransferMetadata :=
  r ← nth_metadata AM_TransferMetadata (TRM_Actions m) index 0;
  match r with Some x => Ok x | None => Err (EMsg "transfer metadata at index out of range") end.

Fixpoint count_metadata {X} (proj : ActionMetadataEntry -> option X) (actions : list (option ActionMetadataEntry)) (count : Z) : res Z :=
  match actions with
  | [] => Ok count
  | None :: _ => Panic
  | Some a :: l => count_metadata proj l (match proj a with Some _ => count + 1 | None => count end)
  end.

Definition TRM_NumIssues (m : TokenRequestMetadata) : res Z := count_metadata AM_IssueMetadata (TRM_Actions m) 0.
Definition TRM_NumTransfers (m : TokenRequestMetadata) : res Z := count_metadata AM_TransferMetadata (TRM_Actions m) 0.

(** The generated messages; the oneof of an action's metadata. *)
Inductive PMetadataOneof :=
| PIssueMeta (m : option PIssueMetadata)
| PTransferMeta (m : option PTransferMetadata)
| PNoMeta.
Record PActionMetadata := mkPActionMetadata { PAM_ActionId : Z; PAM_Metadata : PMetadataOneof }.
Record PTokenRequestMetadata := mkPTokenRequestMetadata {
  PTRM_Version : Z;
  PTRM_Metadata : list (option PActionMetadata);
  PTRM_ApplicationMetadata : gomap bytes;
}.

Definition entry_ToProtos (action : option ActionMetadataEntry) : res (option PActionMetadata) :=
  match action with
  | None => Err (EMsg "nil action metadata found")
  | Some a =>
      match AM_IssueMetadata a, AM_TransferMetadata a with
      | Some im, _ =>
          p ← wrap "failed marshalling issue metadata" (IssueMetadata_ToProtos im);
          Ok (Some (mkPActionMetadata (AM_ActionID a) (PIssueMeta (Some p))))
      | None, Some tm =>
          p ← wrap "failed marshalling transfer metadata" (TransferMetadata_ToProtos tm);
          Ok (Some (mkPActionMetadata (AM_ActionID a) (PTransferMeta (Some p))))
      | None, None => Err (EMsg "action metadata must have either IssueMetadata or TransferMetadata, but it is nil")
      end
  end.

Definition TokenRequestMetadata_ToProtos (m : TokenRequestMetadata) : res PTokenRequestMetadata :=
  metadata ← mapM entry_ToProtos (TRM_Actions m);
  Ok (mkPTokenRequestMetadata ProtocolV1 metadata (TRM_Application m)).

Definition entry_FromProtos (meta : option PActionMetadata) : res (option ActionMetadataEntry) :=
  match meta with
  | None => Panic
  | Some p =>
      match PAM_Metadata p with
      | PIssueMeta (Some im) =>
          m ← wrap "failed unmarshalling issue metadata" (IssueMetadata_FromProtos im);
          Ok (Some (mkActionMetadataEntry (PAM_ActionId p) (Some m) None))
      | PTransferMeta (Some tm) =>
          m ← wrap "failed unmarshalling transfer metadata" (TransferMetadata_FromProtos tm);
          Ok (Some (mkActionMetadataEntry (PAM_ActionId p) None (Some m)))
      | _ => Err (EMsg "failed unmarshalling metadata, type not recognized")
      end
  end.

Definition TokenRequestMetadata_FromProtos (trm : PTokenRequestMetadata) : res TokenRequestMetadata :=
  if negb (PTRM_Version trm =? ProtocolV1) then Err (EMsg "invalid token request metadata version")
  else
    actions ← mapM entry_FromProtos (PTRM_Metadata trm);
    Ok (mkTokenRequestMetadata actions (PTRM_ApplicationMetadata trm)).

(** [Bytes] and [FromBytes], over the protobuf library. *)
Definition TokenRequestMetadata_Bytes (proto_Marshal : PTokenRequestMetadata -> res bytes) (m : TokenRequestMetadata) : res bytes :=
  trm ← TokenRequestMetadata_ToProtos m; proto_Marshal trm.

Definition TokenRequestMetadata_FromBytes (proto_Unmarshal : bytes -> res PTokenRequestMetadata) (raw : bytes) : res TokenRequestMetadata :=
  trm ← wrap "failed to unmarshal token request metadata" (proto_Unmarshal raw);
  TokenRequestMetadata_FromProtos trm.

(** ** What decoding makes of an encoded metadata

    Encoding keeps one kind of metadata per action and drops the audit
    information of a transfer's issuer when there is no issuer. *)

Definition normal_transfer (t : TransferMetadata) : TransferMetadata :=
  mkTransferMetadata (TM_Inputs t) (TM_Outputs t) (TM_ExtraSigners t)
    (match AI_Identity (TM_Issuer t) with None => mkAuditableIdentity None [] | Some _ => TM_Issuer t end).

Definition normal_entry (a : ActionMetadataEntry) : ActionMetadataEntry :=
  match AM_IssueMetadata a with
  | Some im => mkActionMetadataEntry (AM_ActionID a) (Some im) None
  | None => mkActionMetadataEntry (AM_ActionID a) None (normal_transfer <$> AM_TransferMetadata a)
  end.

Definition normal_metadata (m : TokenRequestMetadata) : TokenRequestMetadata :=
  mkTokenRequestMetadata (option_map normal_entry <$> TRM_Actions m) (TRM_Application m).

(** An entry that can be encoded. *)
Definition entry_ok (a : option ActionMetadataEntry) : Prop :=
  match a with
  | None => False
  | Some a => AM_IssueMetadata a <> None \/ AM_TransferMetadata a <> None
  end.

(** Encoding succeeds, and decoding gives the value back whatever the
    destination held. *)
Definition survives {S T} (to : S -> res T) (from : T -> S -> res S) (x : S) : Prop :=
  exists p, to x = Ok p /\ forall d, from p d = Ok x.

Lemma slice_survives {S T} (to : S -> res T) (from : T -> S -> res S) zero :
  (forall x, survives to from x) -> forall l, exists ps, ToProtosSlice to l = Ok ps /\ fill from zero ps = Ok l.
Proof.
  intros H l. unfold fill. induction l as [|[x|] l (ps & IH1 & IH2)].
  - by exists [].
  - destruct (H x) as (p & Hp & Hd). exists (Some p :: ps). cbn. rewrite Hp. cbn. rewrite IH1. cbn.
    by rewrite Hd, IH2.
  - exists (None :: ps). cbn. rewrite IH1. cbn. by rewrite IH2.
Qed.

Lemma mapM_survives {A B C} (to : A -> res B) (from : B -> res C) (g : A -> C) l :
  (forall x, x ∈ l -> exists p, to x = Ok p /\ from p = Ok (g x)) ->
  exists ps, mapM to l = Ok ps /\ mapM from ps = Ok (g <$> l).
Proof.
  induction l as [|x l IH]; intros H; [by exists []|].
  destruct (H x) as (p & Hp & Hf); [left|]. destruct IH as (ps & H1 & H2); [intros y Hy; apply H; by right|].
  exists (p :: ps). change (mapM to (x :: l)) with (y ← to x; ys ← mapM to l; mret (y :: ys)).
  change (mapM from (p :: ps)) with (y ← from p; ys ← mapM from ps; mret (y :: ys)).
  rewrite Hp, H1, Hf, H2. done.
Qed.

Lemma ToTokenID_id id : ToTokenID id = id.
Proof. by destruct id as [[]|]. Qed.

Lemma utils_ToTokenID_id id : utils_ToTokenID id = Ok id.
Proof. by destruct id as [[]|]. Qed.

Lemma AuditableIdentity_survives a : survives AuditableIdentity_ToProtos AuditableIdentity_FromProtos_elem a.
Proof. destruct a. by eexists. Qed.

Lemma receivers_survive l : exists ps, ToProtosSlice AuditableIdentity_ToProtos l = Ok ps /\ receivers_FromProtos ps = Ok l.
Proof. apply slice_survives, AuditableIdentity_survives. Qed.

Lemma signers_survive l : exists ps, ToProtoAuditableIdentitySliceFromAuditable l = Ok ps /\
  FromProtoAuditableIdentitySliceToAuditable ps = Ok l.
Proof.
  destruct (mapM_survives (fun id => p ← AuditableIdentity_ToProtos id; Ok (Some p))
    (fun id => AuditableIdentity_FromProtos id (mkAuditableIdentity None [])) id l) as (ps & ? & H).
  - intros [id ai] _. by eexists.
  - exists ps. by rewrite list_fmap_id in H.
Qed.

(** Rewriting with the pieces of a message that survive. *)
Ltac survive := cbn [wrap mbind res_mbind]; match goal with H : ?r = Ok _ |- context [?r] => rewrite H end.

Lemma IssueInputMetadata_survives i : survives IssueInputMetadata_ToProtos IssueInputMetadata_FromProtos i.
Proof.
  destruct i as [id]. exists (mkPIssueInputMetadata id). unfold IssueInputMetadata_ToProtos. cbn [IIM_TokenID].
  rewrite utils_ToTokenID_id. split; [done|]. intros d. unfold IssueInputMetadata_FromProtos. cbn [PIIM_TokenId]. by rewrite ToTokenID_id.
Qed.

Lemma IssueOutputMetadata_survives i : survives IssueOutputMetadata_ToProtos IssueOutputMetadata_FromProtos i.
Proof.
  destruct i as [m a l]. destruct (receivers_survive l) as (ps & H1 & H2). exists (mkPOutputMetadata m a ps).
  unfold IssueOutputMetadata_ToProtos, IssueOutputMetadata_FromProtos; cbn -[receivers_FromProtos]. by rewrite H1, H2.
Qed.

Lemma TransferInputMetadata_survives t : survives TransferInputMetadata_ToProtos TransferInputMetadata_FromProtos t.
Proof.
  destruct t as [id l]. destruct (receivers_survive l) as (ps & H1 & H2). exists (mkPTransferInputMetadata id ps).
  unfold TransferInputMetadata_ToProtos, TransferInputMetadata_FromProtos; cbn -[receivers_FromProtos utils_ToTokenID ToTokenID].
  rewrite H1, H2, utils_ToTokenID_id. split; [done|]. intros _. by rewrite ToTokenID_id.
Qed.

Lemma TransferOutputMetadata_survives t : survives TransferOutputMetadata_ToProtos TransferOutputMetadata_FromProtos t.
Proof.
  destruct t as [m a l]. destruct (receivers_survive l) as (ps & H1 & H2). exists (mkPOutputMetadata m a ps).
  unfold TransferOutputMetadata_ToProtos, TransferOutputMetadata_FromProtos; cbn -[receivers_FromProtos]. by rewrite H1, H2.
Qed.

Lemma IssueMetadata_survives i : exists p, IssueMetadata_ToProtos i = Ok p /\ IssueMetadata_FromProtos p = Ok i.
Proof.
  destruct i as [[issuer ai] ins outs extra].
  destruct (slice_survives _ _ (mkIssueInputMetadata None) IssueInputMetadata_survives ins) as (pi & ? & ?).
  destruct (slice_survives _ _ (mkIssueOutputMetadata [] [] []) IssueOutputMetadata_survives outs) as (po & ? & ?).
  destruct (signers_survive extra) as (pe & ? & ?).
  exists (mkPIssueMetadata (Some (mkPAuditableIdentity (Some issuer) ai)) pi po pe).
  unfold IssueMetadata_ToProtos, IssueMetadata_FromProtos. cbn [IM_Issuer IM_Inputs IM_Outputs IM_ExtraSigners
    PIM_Issuer PIM_Inputs PIM_Outputs PIM_ExtraSigners AuditableIdentity_ToProtos AuditableIdentity_FromProtos AI_Identity AI_AuditInfo].
  split; repeat survive; done.
Qed.

Lemma TransferMetadata_survives t : exists p, TransferMetadata_ToProtos t = Ok p /\ TransferMetadata_FromProtos p = Ok (normal_transfer t).
Proof.
  destruct t as [ins outs extra [issuer ai]].
  destruct (slice_survives _ _ (mkTransferInputMetadata None []) TransferInputMetadata_survives ins) as (pi & ? & ?).
  destruct (slice_survives _ _ (mkTransferOutputMetadata [] [] []) TransferOutputMetadata_survives outs) as (po & ? & ?).
  destruct (signers_survive extra) as (pe & ? & ?).
  exists (mkPTransferMetadata pi po pe (match issuer with None => None | Some _ => Some (mkPAuditableIdentity (Some issuer) ai) end)).
  unfold TransferMetadata_ToProtos, TransferMetadata_FromProtos, normal_transfer. cbn [TM_Inputs TM_Outputs TM_ExtraSigners TM_Issuer
    PTM_Inputs PTM_Outputs PTM_ExtraSigners PTM_Issuer AI_Identity AI_AuditInfo].
  split; repeat survive; by destruct issuer.
Qed.

Lemma entry_survives a : entry_ok a -> exists p, entry_ToProtos a = Ok p /\ entry_FromProtos p = Ok (option_map normal_entry a).
Proof.
  destruct a as [[id [im|] tm]|]; [..|done].
  - intros _. destruct (IssueMetadata_survives im) as (p & H1 & H2). exists (Some (mkPActionMetadata id (PIssueMeta (Some p)))).
    unfold entry_ToProtos, entry_FromProtos. cbn [AM_IssueMetadata PAM_Metadata]. by rewrite H1, H2.
  - cbn. intros [|]; [done|]. destruct tm as [tm|]; [|done].
    destruct (TransferMetadata_survives tm) as (p & H1 & H2). exists (Some (mkPActionMetadata id (PTransferMeta (Some p)))).
    unfold entry_ToProtos, entry_FromProtos. cbn [AM_IssueMetadata AM_TransferMetadata PAM_Metadata]. by rewrite H1, H2.
Qed.

Lemma entry_ToProtos_ok a p : entry_ToProtos a = Ok p -> entry_ok a.
Proof. destruct a as [[id [im|] [tm|]]|]; intros H; try done; [by left..|by right]. Qed.

(** ** What a match means *)

Lemma eqb_len {A B} (l : list A) (k : list B) : negb (zlen l =? zlen k) = false -> length l = length k.
Proof. intros H%negb_false_iff%Z.eqb_eq. unfold zlen in H. lia. Qed.

Section Matched.
Context {IO : IdentityOps}.

Record issue_matches `{!IssueActionI A} (i : IssueMetadata) (action : A) : Prop := {
  imt_valid : IA_Validate action = Ok tt;
  imt_inputs : zlen (IM_Inputs i) = IA_NumInputs action;
  imt_outputs : zlen (IM_Outputs i) = IA_NumOutputs action;
  imt_count : length (IM_ExtraSigners i) = length (IA_ExtraSigners action);
  imt_signers : forall s, s ∈ IA_ExtraSigners action -> s ∈ (fun a => raw_of (AI_Identity a)) <$> IM_ExtraSigners i;
  imt_issuer : raw_of (AI_Identity (IM_Issuer i)) = IA_GetIssuer action;
}.

Record transfer_matches `{!TransferActionI A} (t : TransferMetadata) (action : A) : Prop := {
  tmt_valid : TA_Validate action = Ok tt;
  tmt_inputs : zlen (TM_Inputs t) = TA_NumInputs action;
  tmt_outputs : zlen (TM_Outputs t) = TA_NumOutputs action;
  tmt_signers : (fun a => raw_of (AI_Identity a)) <$> TM_ExtraSigners t = TA_ExtraSigners action;
  tmt_issuer : raw_of (AI_Identity (TM_Issuer t)) = raw_of (TA_GetIssuer action);
}.

Lemma negb_eqb x y : negb (x =? y) = false <-> x = y.
Proof. by rewrite negb_false_iff, Z.eqb_eq. Qed.

Lemma negb_Identity x y : negb (Identity_Equal x y) = false <-> x = y.
Proof. by rewrite negb_false_iff, Identity_Equal_spec. Qed.

Lemma IssueMetadata_Match_exact `{!IssueActionI A} i (action : A) : IssueMetadata_Match i action = Ok tt <-> issue_matches i action.
Proof.
  unfold IssueMetadata_Match. cbv zeta. split.
  - intros H. apply res_bind_Ok in H as ([] & Hv%wrap_Ok & H). apply res_bind_Ok in H as (? & Hi%reject_if_Ok & H).
    apply res_bind_Ok in H as (? & Ho%reject_if_Ok & H). apply res_bind_Ok in H as (? & Hn%reject_if_Ok & H).
    apply res_bind_Ok in H as ([] & Hs & Hu%reject_if_Ok). split; [done|by apply negb_eqb..|by apply eqb_len| |by apply negb_Identity].
    intros s (k & Hk)%list_elem_of_lookup. pose proof (proj1 (rangeR_Ok _ _ _) Hs k s Hk) as E%reject_if_Ok%negb_false_iff.
    apply existsb_exists in E as (a & Ha & E%Identity_Equal_spec). apply list_elem_of_fmap. exists a. split; [done|by apply list_elem_of_In].
  - intros [Hv Hi Ho Hn Hs Hu]. rewrite Hv. cbn. rewrite (proj2 (negb_eqb _ _) Hi), (proj2 (negb_eqb _ _) Ho). cbn.
    unfold zlen. rewrite Hn, Z.eqb_refl. cbn. rewrite (proj2 (rangeR_Ok _ _ _)); [cbn; by rewrite (proj2 (negb_Identity _ _) Hu)|].
    intros k s Hk. apply reject_if_Ok, negb_false_iff, existsb_exists.
    apply list_elem_of_lookup_2, Hs, list_elem_of_fmap in Hk as (x & -> & Hx). exists x. split; [by apply list_elem_of_In|by apply Identity_Equal_spec].
Qed.

Lemma TransferMetadata_Match_exact `{!TransferActionI A} t (action : A) : TransferMetadata_Match t action = Ok tt <-> transfer_matches t action.
Proof.
  unfold TransferMetadata_Match. cbv zeta. split.
  - intros H. apply res_bind_Ok in H as ([] & Hv%wrap_Ok & H). apply res_bind_Ok in H as (? & Hi%reject_if_Ok & H).
    apply res_bind_Ok in H as (? & Ho%reject_if_Ok & H). apply res_bind_Ok in H as (? & Hn%reject_if_Ok%eqb_len & H).
    apply res_bind_Ok in H as ([] & Hs & Hu%reject_if_Ok). split; [done|by apply negb_eqb..| |by apply negb_Identity].
    apply list_eq_same_length with (n := length (TM_ExtraSigners t)); rewrite ?length_fmap; [lia..|].
    intros k y z _ Hx Hy. pose proof (proj1 (rangeR_Ok _ _ _) Hs k z Hy) as E. cbn in E.
    rewrite list_lookup_fmap in Hx. destruct (TM_ExtraSigners t !! k) as [a|]; [|done]. injection Hx as <-.
    apply reject_if_Ok, negb_Identity in E. done.
  - intros [Hv Hi Ho Hs Hu]. rewrite Hv. cbn. rewrite (proj2 (negb_eqb _ _) Hi), (proj2 (negb_eqb _ _) Ho). cbn.
    rewrite <- Hs. unfold zlen at 1 2. rewrite length_fmap, Z.eqb_refl. cbn. rewrite (proj2 (rangeR_Ok _ _ _)); [cbn; by rewrite (proj2 (negb_Identity _ _) Hu)|].
    intros k s Hk. cbn. rewrite list_lookup_fmap in Hk. destruct (TM_ExtraSigners t !! k) as [a|]; [|done]. injection Hk as <-.
    apply reject_if_Ok, negb_Identity. done.
Qed.
End Matched.

(** ** Properties *)

(** C38: request metadata survives its protobuf form.  It can be encoded exactly
    when every action has an entry with metadata of one kind at least, and what
    is decoded is the same metadata, entry by entry and with the same action
    ids, except that an entry with both kinds keeps the issue's, and that audit
    information of a missing issuer of a transfer is dropped. *)
Theorem metadata_roundtrip m :
  (Forall entry_ok (TRM_Actions m) <-> exists p, TokenRequestMetadata_ToProtos m = Ok p) /\
  (forall p, TokenRequestMetadata_ToProtos m = Ok p -> TokenRequestMetadata_FromProtos p = Ok (normal_metadata m)).
Proof.
  assert (HF : Forall entry_ok (TRM_Actions m) -> exists ps, mapM entry_ToProtos (TRM_Actions m) = Ok ps /\
                 mapM entry_FromProtos ps = Ok (option_map normal_entry <$> TRM_Actions m)).
  { intros HF. apply mapM_survives. intros x Hx. apply entry_survives. by eapply Forall_forall. }
  assert (HB : forall p, TokenRequestMetadata_ToProtos m = Ok p -> Forall entry_ok (TRM_Actions m)).
  { intros p (ps & Hps & _)%res_bind_Ok. clear HF. revert ps Hps. induction (TRM_Actions m) as [|a l IH]; intros ps; [done|].
    change (mapM entry_ToProtos (a :: l)) with (y ← entry_ToProtos a; ys ← mapM entry_ToProtos l; mret (y :: ys)).
    intros (y & Hy & (ys & Hys & _)%res_bind_Ok)%res_bind_Ok. constructor; [by eapply entry_ToProtos_ok|by eapply IH]. }
  split; [split|].
  - intros (ps & H1 & _)%HF. unfold TokenRequestMetadata_ToProtos. rewrite H1. by eexists.
  - intros [p Hp]. by eapply HB.
  - intros p Hp. destruct (HF (HB _ Hp)) as (ps & H1 & H2). unfold TokenRequestMetadata_ToProtos in Hp. rewrite H1 in Hp.
    injection Hp as <-. unfold TokenRequestMetadata_FromProtos. cbn [PTRM_Version PTRM_Metadata Z.eqb negb]. rewrite H2. done.
Qed.
