(* ===== verification/Auditor.v ===== *)
(** * Auditing, generic in the driver (token/core/common/auditor.go)

    An auditor gets a request with its metadata, extracts the ids of the tokens
    the metadata says are spent, retrieves these tokens from its own store, and
    checks every action against its metadata.  The store is the world [W] behind
    the class [QueryEngine]: every call may change it, as the listener that
    persists tokens does.  Loggers, tracers and the deserializer no validation
    function reads are left out. *)

From S2P Require Import Prelude Quantity GoText TokenTypes Request Metadata.
From Stdlib Require Import ZArith Lia.
Local Open Scope Z_scope.

Definition DefaultAuditTokensNumRetries : Z := 3.

(** ** Token ids as map keys (token/token.go) *)

Definition ID_String (id : ID) : bytes := str "[" ++ TxId id ++ str ":" ++ format_nat 10 (Index id) ++ str "]".

Abbreviation audit_tokens := (gmap bytes (option Token)).

(** ** Extraction of the token ids *)

(** The local map and slice of the extraction. *)
Record id_set := mkid_set { tokenIDMap : gmap bytes ID; tokenIDs : list ID }.

Definition recordTokenID (s : id_set) (id : ID) : res id_set :=
  let idKey := ID_String id in
  match tokenIDMap s !! idKey with
  | Some _ => Err (EMsg "duplicate token ID found in metadata")
  | None => Ok (mkid_set (<[idKey := id]> (tokenIDMap s)) (tokenIDs s ++ [id]))
  end.

(** [for _, id := range ids { if id == nil { continue }; recordTokenID(id) }]. *)
Fixpoint recordTokenIDs (s : id_set) (ids : list (option ID)) : res id_set :=
  match ids with
  | [] => Ok s
  | None :: ids => recordTokenIDs s ids
  | Some id :: ids => s' ← recordTokenID s id; recordTokenIDs s' ids
  end.

Definition extractTransferActionTokenIDs (action : ActionMetadataEntry) (s : id_set) : res id_set :=
  match AM_TransferMetadata action with
  | None => Ok s
  | Some tm => recordTokenIDs s (TransferMetadata_TokenIDs tm)
  end.

Definition issue_input_id (input : option IssueInputMetadata) : option ID :=
  match input with None => None | Some i => IIM_TokenID i end.

Definition extractIssueActionTokenIDs (action : ActionMetadataEntry) (s : id_set) : res id_set :=
  match AM_IssueMetadata action with
  | None => Ok s
  | Some im => recordTokenIDs s (issue_input_id <$> IM_Inputs im)
  end.

Definition extractActionTokenIDs (action : option ActionMetadataEntry) (s : id_set) : res id_set :=
  match action with
  | None => Panic
  | Some action => s' ← extractTransferActionTokenIDs action s; extractIssueActionTokenIDs action s'
  end.

Fixpoint extract_loop (actions : list (option ActionMetadataEntry)) (s : id_set) : res id_set :=
  match actions with
  | [] => Ok s
  | a :: l => s' ← extractActionTokenIDs a s; extract_loop l s'
  end.

Definition ExtractTokenIDsAndCheckDuplicates (metadata : option TokenRequestMetadata) : res (list ID) :=
  match metadata with
  | None => Err (EMsg "metadata cannot be nil")
  | Some m => s ← extract_loop (TRM_Actions m) (mkid_set ∅ []); Ok (tokenIDs s)
  end.

(** ** Retrieval of the audit tokens *)

Class QueryEngine (W : Type) := {
  ListAuditTokens : list ID -> M W (list (option Token));
  IsPending : ID -> M W bool;
  (** The wait between two attempts; true if the context ends first. *)
  retry_wait : W -> bool * W;
  ctx_Err : error;
}.

Section Retrieve.
Context {W : Type} {QE : QueryEngine W}.

Fixpoint anyTokenPending (ids : list ID) (lookupErr : error) : M W bool :=
  match ids with
  | [] => mret false
  | id :: ids => fun w =>
      match IsPending id w with
      | (Ok true, w) => (Ok true, w)
      | (Ok false, w) => anyTokenPending ids lookupErr w
      | (Err err, w) => (Err (EWrap (EJoin lookupErr err) "failed to retrieve audit tokens: cannot determine pending status of token"), w)
      | (Panic, w) => (Panic, w)
      end
  end.

(** The loop with [attempts] attempts left. *)
Fixpoint attempt_loop (attempts : nat) (ids : list ID) : M W (list (option Token)) := fun w =>
  match attempts with
  | O => (Err (EMsg "failed to retrieve audit tokens"), w)
  | S attempts =>
      match ListAuditTokens ids w with
      | (Ok tokens, w) => (Ok tokens, w)
      | (Panic, w) => (Panic, w)
      | (Err err, w) =>
          match anyTokenPending ids err w with
          | (Err pendingCheckErr, w) => (Err pendingCheckErr, w)
          | (Panic, w) => (Panic, w)
          | (Ok false, w) => (Err err, w)
          | (Ok true, w) =>
              match attempts with
              | O => (Err (EWrap err "failed to get audit tokens, transaction is still pending"), w)
              | S _ => let '(ended, w) := retry_wait w in
                       if ended : bool then (Err ctx_Err, w) else attempt_loop attempts ids w
              end
          end
      end
  end.

Definition listAuditTokensWithRetry (ids : list ID) (numRetries : Z) : M W (list (option Token)) :=
  attempt_loop (Z.to_nat (Z.max 1 numRetries)) ids.

(** [for i, id := range tokenIDs { auditTokens[id.String()] = tokens[i] }]. *)
Fixpoint index_tokens (ids : list ID) (tokens : list (option Token)) (acc : audit_tokens) : res audit_tokens :=
  match ids with
  | [] => Ok acc
  | id :: ids => match tokens with
                 | [] => Panic
                 | t :: tokens => index_tokens ids tokens (<[ID_String id := t]> acc)
                 end
  end.

Definition RetrieveAuditTokens (ids : list ID) (numRetries : Z) : M W audit_tokens :=
  if zlen ids =? 0 then mret ∅
  else
    tokens ← wrapM "failed to retrieve audit tokens" (listAuditTokensWithRetry ids numRetries);
    lift (index_tokens ids tokens ∅).
End Retrieve.

(** ** Structure *)

Definition validateActionStructure (i : nat) (action : option TypedAction) (metadata : option ActionMetadataEntry) : res unit :=
  match action with
  | None => Err (EMsg "action at index is nil")
  | Some action =>
      match metadata with
      | None => Err (EMsg "metadata at index is nil")
      | Some metadata =>
          if negb (AM_ActionID metadata =? u32 (Z.of_nat i)) then Err (EMsg "metadata at index has incorrect ActionID") else
          if TA_Type action =? ACTION_TYPE_ISSUE then
            match AM_IssueMetadata metadata with
            | None => Err (EMsg "action at index is ISSUE but metadata has no IssueMetadata")
            | Some _ => match AM_TransferMetadata metadata with
                        | Some _ => Err (EMsg "action at index is ISSUE but metadata also has TransferMetadata")
                        | None => Ok tt
                        end
            end
          else if TA_Type action =? ACTION_TYPE_TRANSFER then
            match AM_TransferMetadata metadata with
            | None => Err (EMsg "action at index is TRANSFER but metadata has no TransferMetadata")
            | Some _ => match AM_IssueMetadata metadata with
                        | Some _ => Err (EMsg "action at index is TRANSFER but metadata also has IssueMetadata")
                        | None => Ok tt
                        end
            end
          else Err (EMsg "action at index has unknown type")
      end
  end.

Definition ValidateStructure (tokenRequest : option TokenRequest) (tokenRequestMetadata : option TokenRequestMetadata) : res unit :=
  match tokenRequest, tokenRequestMetadata with
  | None, _ => Err (EMsg "tokenRequest cannot be nil")
  | Some _, None => Err (EMsg "tokenRequestMetadata cannot be nil")
  | Some tr, Some trm =>
      reject_if (negb (length (Actions tr) =? length (TRM_Actions trm))%nat) (EMsg "action count mismatch") ;;
      rangeR (fun i action => match TRM_Actions trm !! i with
                              | None => Panic
                              | Some metadata => validateActionStructure i action metadata
                              end) 0 (Actions tr)
  end.

(** ** Token types of the inputs *)

Definition checkIssueInputTokenType (auditTokens : audit_tokens) (inputMetadata : IssueInputMetadata) (actionTokenType : bytes) : res bytes :=
  match IIM_TokenID inputMetadata with
  | None => Ok actionTokenType
  | Some id =>
      match auditTokens !! ID_String id with
      | None => Err (EMsg "input token at index not found in audit tokens")
      | Some None => Ok actionTokenType
      | Some (Some inputToken) =>
          if zlen (Token_Type inputToken) =? 0 then Ok actionTokenType
          else if zlen actionTokenType =? 0 then Ok (Token_Type inputToken)
          else if bool_decide (actionTokenType = Token_Type inputToken) then Ok actionTokenType
          else Err (EMsg "token type mismatch in issue action")
      end
  end.

Fixpoint issue_inputs_loop (auditTokens : audit_tokens) (inputs : list (option IssueInputMetadata)) (actionTokenType : bytes) : res unit :=
  match inputs with
  | [] => Ok tt
  | None :: l => issue_inputs_loop auditTokens l actionTokenType
  | Some i :: l => t ← checkIssueInputTokenType auditTokens i actionTokenType; issue_inputs_loop auditTokens l t
  end.

Definition ValidateIssueActionTokenTypes (metadata : option IssueMetadata) (auditTokens : option audit_tokens) : res unit :=
  match metadata, auditTokens with
  | None, _ => Err (EMsg "metadata cannot be nil for issue action validation")
  | Some _, None => Err (EMsg "auditTokens cannot be nil for issue action validation")
  | Some m, Some toks => issue_inputs_loop toks (IM_Inputs m) []
  end.

(** [inputSum] is a nil interface unless the values are to be summed. *)
Definition checkTransferInputTokenType (auditTokens : audit_tokens) (inputMetadata : option TransferInputMetadata) (actionTokenType : bytes)
    (inputSum : option Quantity) (validateValueSum : bool) (precision : Z) : res (bytes * option Quantity) :=
  match inputMetadata with
  | None => Err (EMsg "input metadata at index is nil")
  | Some im =>
      match TIM_TokenID im with
      | None => Err (EMsg "input at index has nil TokenID")
      | Some id =>
          match auditTokens !! ID_String id with
          | None => Err (EMsg "input token at index not found in audit tokens")
          | Some None => Err (EMsg "input token at index is nil in audit tokens")
          | Some (Some inputToken) =>
              typ ← (if zlen actionTokenType =? 0 then Ok (Token_Type inputToken)
                     else if bool_decide (actionTokenType = Token_Type inputToken) then Ok actionTokenType
                     else Err (EMsg "token type mismatch in transfer action"));
              if validateValueSum then
                inputQty ← wrap "failed to convert input quantity at index" (ToQuantity (Token_Quantity inputToken) precision);
                match inputSum with
                | None => Panic
                | Some sum => sum' ← wrap "failed to add input quantity at index" (Add sum inputQty); Ok (typ, Some sum')
                end
              else Ok (typ, inputSum)
          end
      end
  end.

Fixpoint transfer_inputs_loop (auditTokens : audit_tokens) (inputs : list (option TransferInputMetadata)) (actionTokenType : bytes)
    (inputSum : option Quantity) (validateValueSum : bool) (precision : Z) : res unit :=
  match inputs with
  | [] => Ok tt
  | i :: l =>
      '(typ, sum) ← checkTransferInputTokenType auditTokens i actionTokenType inputSum validateValueSum precision;
      transfer_inputs_loop auditTokens l typ sum validateValueSum precision
  end.

Definition ValidateTransferActionTokenTypes (metadata : option TransferMetadata) (auditTokens : option audit_tokens) (validateValueSum : bool)
    (precision : Z) : res unit :=
  match metadata, auditTokens with
  | None, _ => Err (EMsg "metadata cannot be nil for transfer action validation")
  | Some _, None => Err (EMsg "auditTokens cannot be nil for transfer action validation")
  | Some m, Some toks =>
      if bool_decide (toks = ∅) then Err (EMsg "auditTokens cannot be empty for transfer action validation")
      else transfer_inputs_loop toks (TM_Inputs m) []
             (if validateValueSum then Some (NewZeroQuantity precision) else None) validateValueSum precision
  end.

(** ** The auditor *)

Section Auditor.
Context {P IA TA : Type}.

Record AuditContext := mkAuditContext {
  ac_PP : P;
  ac_Anchor : bytes;
  ac_TokenRequest : TokenRequest;
  ac_TokenRequestMetadata : TokenRequestMetadata;
  ac_AuditTokens : audit_tokens;
  ac_IssueAction : option IA;
  ac_TransferAction : option TA;
  ac_ActionIndex : nat;
}.

Record Auditor := mkAuditor {
  aud_PublicParams : P;
  aud_DeserializeActions : TokenRequest -> res (list (option IA) * list (option TA));
  aud_IssueValidators : list (AuditContext -> res unit);
  aud_TransferValidators : list (AuditContext -> res unit);
}.

(** [for _, v := range validators { if err := v(ctx, context); err != nil { return err } }]. *)
Definition run_validators (vs : list (AuditContext -> res unit)) (c : AuditContext) : res unit := rangeR (fun _ v => v c) 0 vs.

Definition CheckIssue (a : Auditor) (anchor : bytes) (tr : TokenRequest) (trm : TokenRequestMetadata) (action : option IA)
    (auditTokens : audit_tokens) (actionIndex : nat) : res unit :=
  run_validators (aud_IssueValidators a) (mkAuditContext (aud_PublicParams a) anchor tr trm auditTokens action None actionIndex).

Definition CheckTransfer (a : Auditor) (anchor : bytes) (tr : TokenRequest) (trm : TokenRequestMetadata) (action : option TA)
    (auditTokens : audit_tokens) (actionIndex : nat) : res unit :=
  run_validators (aud_TransferValidators a) (mkAuditContext (aud_PublicParams a) anchor tr trm auditTokens None action actionIndex).

(** The entry of the metadata at the index of the action, as the validators of
    both drivers fetch it. *)
Definition entry_at (c : AuditContext) : res ActionMetadataEntry :=
  if (length (TRM_Actions (ac_TokenRequestMetadata c)) <=? ac_ActionIndex c)%nat then Err (EMsg "action index out of range")
  else match TRM_Actions (ac_TokenRequestMetadata c) !! ac_ActionIndex c with
       | Some (Some e) => Ok e
       | _ => Panic
       end.

(** The loop over the actions; [issues] and [transfers] are the deserialized
    actions from [issueIndex] and [transferIndex] on. *)
Fixpoint check_loop (a : Auditor) (anchor : bytes) (tr : TokenRequest) (trm : TokenRequestMetadata) (auditTokens : audit_tokens)
    (i : nat) (actions : list (option TypedAction)) (issues : list (option IA)) (transfers : list (option TA)) : res unit :=
  match actions with
  | [] => Ok tt
  | None :: _ => Panic
  | Some action :: l =>
      if TA_Type action =? ACTION_TYPE_ISSUE then
        match issues with
        | [] => Panic
        | x :: issues =>
            wrap "failed to check issue action at" (CheckIssue a anchor tr trm x auditTokens i) ;;
            check_loop a anchor tr trm auditTokens (S i) l issues transfers
        end
      else if TA_Type action =? ACTION_TYPE_TRANSFER then
        match transfers with
        | [] => Panic
        | x :: transfers =>
            wrap "failed to check transfer action at" (CheckTransfer a anchor tr trm x auditTokens i) ;;
            check_loop a anchor tr trm auditTokens (S i) l issues transfers
        end
      else Err (EMsg "unknown action type at index")
  end.

Definition Auditor_Check (a : Auditor) (tokenRequest : option TokenRequest) (tokenRequestMetadata : option TokenRequestMetadata) (txID : bytes)
    (auditTokens : option audit_tokens) : res unit :=
  match tokenRequest, tokenRequestMetadata, auditTokens with
  | None, _, _ => Err (EMsg "tokenRequest cannot be nil")
  | _, None, _ => Err (EMsg "tokenRequestMetadata cannot be nil")
  | _, _, None => Err (EMsg "auditTokens cannot be nil")
  | Some tr, Some trm, Some toks =>
      wrap "structural validation failed" (ValidateStructure (Some tr) (Some trm)) ;;
      '(issueActions, transferActions) ← wrap "failed to deserialize actions" (aud_DeserializeActions a tr);
      check_loop a txID tr trm toks 0 (Actions tr) issueActions transferActions
  end.

(** [AuditorService.AuditorCheck] of both drivers (fabtoken/v1/auditor.go,
    zkatdlog/nogh/v1/auditor.go), which differ in the auditor they build.  The
    count of transfers is computed for a log line, before the metadata is
    checked for nil. *)
Definition AuditorCheck `{!QueryEngine W} (a : Auditor) (numRetries : Z) (request : option TokenRequest) (metadata : option TokenRequestMetadata)
    (anchor : bytes) : M W unit :=
  m ← lift (match metadata with None => Panic | Some m => Ok m end);
  lift (TRM_NumTransfers m) ;;
  ids ← lift (ExtractTokenIDsAndCheckDuplicates (Some m));
  auditTokens ← RetrieveAuditTokens ids numRetries;
  lift (wrap "failed to perform auditor check" (Auditor_Check a request (Some m) anchor (Some auditTokens))).
End Auditor.
Arguments AuditContext : clear implicits.
Arguments Auditor : clear implicits.

(** ** What an accepted request satisfies *)

(** The ids one entry of the metadata says are spent, and those of all. *)
Definition entry_ids (a : ActionMetadataEntry) : list ID :=
  omap id (match AM_TransferMetadata a with None => [] | Some tm => TransferMetadata_TokenIDs tm end) ++
  omap id (match AM_IssueMetadata a with None => [] | Some im => issue_input_id <$> IM_Inputs im end).

Definition spent_ids (l : list (option ActionMetadataEntry)) : list ID := concat (entry_ids <$> omap id l).

(** The invariant of the extraction: the map holds exactly the ids of the
    slice, which are distinct as keys. *)
Definition id_set_wf (s : id_set) : Prop :=
  NoDup (ID_String <$> tokenIDs s) /\ forall k, is_Some (tokenIDMap s !! k) <-> k ∈ ID_String <$> tokenIDs s.

Lemma recordTokenID_wf s id : id_set_wf s ->
  (recordTokenID s id = Err (EMsg "duplicate token ID found in metadata") /\ ID_String id ∈ ID_String <$> tokenIDs s) \/
  exists s', recordTokenID s id = Ok s' /\ tokenIDs s' = tokenIDs s ++ [id] /\ id_set_wf s'.
Proof.
  intros [Hn Hm]. unfold recordTokenID. cbv zeta. destruct (tokenIDMap s !! ID_String id) eqn:E.
  { left. split; [done|]. apply Hm. by rewrite E. }
  right. eexists. split_and!; [done..|]. unfold id_set_wf. cbn [tokenIDs tokenIDMap].
  assert (Hni : ID_String id ∉ ID_String <$> tokenIDs s) by (rewrite <- Hm, E; by intros []).
  split.
  - rewrite fmap_app. apply NoDup_app. split_and!; [done| |apply NoDup_singleton].
    intros k Hk Hk'. apply list_elem_of_singleton in Hk' as ->. done.
  - intros k. rewrite fmap_app, elem_of_app, <- Hm. cbn. rewrite list_elem_of_singleton.
    destruct (decide (ID_String id = k)) as [<-|Hne].
    + rewrite lookup_insert_eq. naive_solver.
    + rewrite lookup_insert_ne by done. naive_solver.
Qed.

(** An extraction step from a well-formed set records its ids or rejects a
    duplicate. *)
Definition records (f : id_set -> res id_set) (ids : list ID) : Prop := forall s, id_set_wf s ->
  if decide (NoDup (ID_String <$> (tokenIDs s ++ ids)))
  then exists s', f s = Ok s' /\ tokenIDs s' = tokenIDs s ++ ids /\ id_set_wf s'
  else f s = Err (EMsg "duplicate token ID found in metadata").

Lemma records_nil f : (forall s, f s = Ok s) -> records f [].
Proof.
  intros H s Hs. rewrite app_nil_r. rewrite decide_True by apply Hs. exists s. by rewrite H.
Qed.

Lemma records_seq f g a b : records f a -> records g b -> records (fun s => s' ← f s; g s') (a ++ b).
Proof.
  intros Hf Hg s Hs. specialize (Hf s Hs). destruct (decide (NoDup (ID_String <$> (tokenIDs s ++ a)))) as [Ha|Ha].
  - destruct Hf as (s' & -> & Hids & Hs'). cbn [mbind res_mbind]. specialize (Hg s' Hs'). rewrite Hids, <- app_assoc in Hg. done.
  - rewrite decide_False; [by rewrite Hf|]. intros H. apply Ha. rewrite app_assoc, fmap_app in H. by apply NoDup_app in H as [? _].
Qed.

Lemma recordTokenIDs_records ids : records (fun s => recordTokenIDs s ids) (omap id ids).
Proof.
  induction ids as [|[i|] ids IH]; [by apply records_nil| |done].
  change (records (fun s => s' ← recordTokenID s i; recordTokenIDs s' ids) ([i] ++ omap id ids)). apply records_seq; [|done].
  intros s Hs. destruct (recordTokenID_wf s i Hs) as [[He Hin]|(s' & He & Hids & Hs')].
  - rewrite decide_False; [done|]. rewrite fmap_app. intros (_ & Hd & _)%NoDup_app. eapply Hd; [done|]. cbn. by left.
  - rewrite decide_True; [by eauto|]. rewrite <- Hids. apply Hs'.
Qed.

Lemma extractActionTokenIDs_records a : records (extractActionTokenIDs (Some a)) (entry_ids a).
Proof.
  unfold entry_ids. change (extractActionTokenIDs (Some a)) with (fun s => s' ← extractTransferActionTokenIDs a s; extractIssueActionTokenIDs a s').
  apply records_seq.
  - unfold extractTransferActionTokenIDs. destruct (AM_TransferMetadata a); [apply recordTokenIDs_records|by apply records_nil].
  - unfold extractIssueActionTokenIDs. destruct (AM_IssueMetadata a); [apply recordTokenIDs_records|by apply records_nil].
Qed.

Lemma extract_loop_records l : None ∉ l -> records (extract_loop l) (spent_ids l).
Proof.
  induction l as [|[a|] l IH]; intros Hn; [by apply records_nil| |by destruct Hn; left].
  change (records (fun s => s' ← extractActionTokenIDs (Some a) s; extract_loop l s') (entry_ids a ++ spent_ids l)).
  apply records_seq; [apply extractActionTokenIDs_records|]. apply IH. intros H. apply Hn. by right.
Qed.

Lemma extract_loop_Ok_no_nil l : forall s s', extract_loop l s = Ok s' -> None ∉ l.
Proof.
  induction l as [|[a|] l IH]; intros s s'; cbn [extract_loop]; [intros _ ?%elem_of_nil; done| |done].
  intros (s1 & _ & H)%res_bind_Ok [|Hin]%elem_of_cons; [done|]. by eapply IH.
Qed.

Lemma id_set_wf_empty : id_set_wf (mkid_set ∅ []).
Proof. split; [constructor|]. intros k. cbn. rewrite lookup_empty. split; [by intros []|by intros ?%elem_of_nil]. Qed.

(** The extraction returns the ids of the metadata in order, or rejects the
    metadata because two of them agree. *)
Lemma Extract_exact m : None ∉ TRM_Actions m ->
  ExtractTokenIDsAndCheckDuplicates (Some m) =
  if decide (NoDup (ID_String <$> spent_ids (TRM_Actions m))) then Ok (spent_ids (TRM_Actions m))
  else Err (EMsg "duplicate token ID found in metadata").
Proof.
  intros Hn. unfold ExtractTokenIDsAndCheckDuplicates. pose proof (extract_loop_records _ Hn _ id_set_wf_empty) as H.
  cbn [tokenIDs app] in H. destruct (decide _); [|by rewrite H]. destruct H as (s' & -> & Hs & _). cbn. by rewrite Hs.
Qed.

Lemma Extract_Ok m ids : ExtractTokenIDsAndCheckDuplicates (Some m) = Ok ids ->
  ids = spent_ids (TRM_Actions m) /\ NoDup (ID_String <$> ids).
Proof.
  intros H. assert (None ∉ TRM_Actions m) as Hn.
  { apply res_bind_Ok in H as (s & H & _). by eapply extract_loop_Ok_no_nil. }
  rewrite Extract_exact in H by done. destruct (decide _); simplify_eq. done.
Qed.

(** Keys determine ids. *)
Lemma split_last {A} (c : A) a b a' b' : c ∉ b -> c ∉ b' -> a ++ c :: b = a' ++ c :: b' -> a = a' /\ b = b'.
Proof.
  revert a'. induction a as [|x a IH]; intros [|y a'] Hb Hb' H; cbn in H; simplify_eq.
  - done.
  - exfalso. apply Hb. apply elem_of_app. right. left.
  - exfalso. apply Hb'. apply elem_of_app. right. left.
  - destruct (IH a' Hb Hb') as [-> ->]; done.
Qed.

Lemma format_nat_no_colon n : 0 <= n -> ch ":" ∉ format_nat 10 n.
Proof.
  intros Hn. destruct (format_nat_digits 10 n) as (ds & -> & _ & HF & _); [lia..|]. intros (d & Hd & Hin)%list_elem_of_fmap.
  rewrite Forall_forall in HF. apply HF in Hin. pose proof (digit_char_ascii d ltac:(lia)) as Hc. rewrite <- Hd in Hc.
  change (b2z (ch ":")) with 58 in Hc. lia.
Qed.

Lemma ID_String_inj a b : 0 <= Index a -> 0 <= Index b -> ID_String a = ID_String b -> a = b.
Proof.
  destruct a as [ta ia], b as [tb ib]. cbn [Index]. intros Ha Hb H. unfold ID_String in H; cbn [TxId Index] in H.
  apply app_inv_head in H. change (str ":") with [ch ":"] in H. cbn [app] in H.
  rewrite !app_comm_cons, !app_assoc in H. apply app_inv_tail in H.
  apply split_last in H as [-> Hi]; [|by apply format_nat_no_colon..]. f_equal.
  apply (f_equal SetString0) in Hi. rewrite !SetString0_decimal in Hi by done. by injection Hi.
Qed.

(** ** The retrieved tokens *)

Lemma index_tokens_Ok ids : forall tokens acc toks, index_tokens ids tokens acc = Ok toks -> NoDup (ID_String <$> ids) ->
  (forall k, k ∉ ID_String <$> ids -> toks !! k = acc !! k) /\
  (forall i id, ids !! i = Some id -> exists t, tokens !! i = Some t /\ toks !! ID_String id = Some t).
Proof.
  induction ids as [|id ids IH]; intros tokens acc toks; cbn [index_tokens fmap list_fmap].
  { intros [= <-] _. split; [done|]. intros i id. by rewrite lookup_nil. }
  destruct tokens as [|t tokens]; [done|]. intros H [Hni Hnd]%NoDup_cons.
  destruct (IH _ _ _ H Hnd) as [Hother Hin]. split.
  - intros k Hk. apply not_elem_of_cons in Hk as [Hne Hk]. rewrite Hother by done. by rewrite lookup_insert_ne.
  - intros [|i] id' Hi; cbn in Hi; simplify_eq; [|by apply Hin].
    exists t. split; [done|]. rewrite Hother by done. apply lookup_insert_eq.
Qed.

Section Retrieved.
Context {W : Type} {QE : QueryEngine W}.

Lemma attempt_loop_Ok n ids : forall w tokens w', attempt_loop n ids w = (Ok tokens, w') -> exists w1, ListAuditTokens ids w1 = (Ok tokens, w').
Proof.
  induction n as [|n IH]; intros w tokens w'; cbn [attempt_loop]; [done|].
  destruct (ListAuditTokens ids w) as [[ts|e|] w1] eqn:E; [intros [= <- <-]; by exists w| |done].
  destruct (anyTokenPending ids e w1) as [[[|]|e'|] w2]; try done. destruct n as [|n]; [done|].
  destruct (retry_wait w2) as [[|] w3]; [done|]. apply IH.
Qed.

(** The tokens checked are those one query of the store returned, each under
    its own id. *)
Lemma Retrieve_Ok ids n w toks w' : RetrieveAuditTokens ids n w = (Ok toks, w') -> NoDup (ID_String <$> ids) -> ids <> [] ->
  exists w1 tokens, ListAuditTokens ids w1 = (Ok tokens, w') /\
    forall i id, ids !! i = Some id -> exists t, tokens !! i = Some t /\ toks !! ID_String id = Some t.
Proof.
  intros H Hnd Hne. unfold RetrieveAuditTokens in H. destruct (Z.eqb_spec (zlen ids) 0) as [E|_]; [by apply zlen_zero_nil in E|].
  apply M_bind_Ok in H as (tokens & w1 & H1%wrapM_Ok & [H2 ->]%lift_Ok). apply attempt_loop_Ok in H1 as [w2 H1].
  exists w2, tokens. split; [done|]. by apply (index_tokens_Ok _ _ _ _ H2 Hnd).
Qed.

(** Failed attempts whose tokens are pending, [n] of them, each followed by a
    wait that the context outlives. *)
Inductive pending_attempts (ids : list ID) : nat -> W -> W -> Prop :=
| pending_done w : pending_attempts ids 0 w w
| pending_again n e w w1 w2 w3 w' : ListAuditTokens ids w = (Err e, w1) -> anyTokenPending ids e w1 = (Ok true, w2) ->
    retry_wait w2 = (false, w3) -> pending_attempts ids n w3 w' -> pending_attempts ids (S n) w w'.

(** The retries wait for a pending transaction: tokens that appear within the
    configured number of attempts are returned. *)
Lemma retry_serves ids n k w w1 tokens w2 : pending_attempts ids k w w1 -> ListAuditTokens ids w1 = (Ok tokens, w2) ->
  (Z.of_nat k < Z.max 1 n) -> listAuditTokensWithRetry ids n w = (Ok tokens, w2).
Proof.
  intros Hp Hl Hk. unfold listAuditTokensWithRetry.
  assert (k < Z.to_nat (Z.max 1 n))%nat as Hlt by lia. clear Hk. revert Hlt. generalize (Z.to_nat (Z.max 1 n)) as m.
  induction Hp as [w|k e w w1' w2' w3 w' H1 H2 H3 _ IH]; intros [|m] Hm; try lia; cbn [attempt_loop].
  - by rewrite Hl.
  - rewrite H1, H2. destruct m as [|m]; [lia|]. rewrite H3. apply IH; [done|lia].
Qed.
End Retrieved.

(** ** Actions and their metadata *)

(** The metadata of an accepted structure: one entry per action, of its kind
    and with its position. *)
Definition entry_for (i : nat) (action : TypedAction) (e : ActionMetadataEntry) : Prop :=
  AM_ActionID e = u32 (Z.of_nat i) /\
  ((TA_Type action = ACTION_TYPE_ISSUE /\ exists im, AM_IssueMetadata e = Some im /\ AM_TransferMetadata e = None) \/
   (TA_Type action = ACTION_TYPE_TRANSFER /\ exists tm, AM_TransferMetadata e = Some tm /\ AM_IssueMetadata e = None)).

Lemma validateActionStructure_Ok i a m : validateActionStructure i a m = Ok tt <->
  exists action e, a = Some action /\ m = Some e /\ entry_for i action e.
Proof.
  unfold entry_for. split.
  - destruct a as [a|], m as [e|]; try done. cbn. destruct (Z.eqb_spec (AM_ActionID e) (u32 (Z.of_nat i))); [|done]. cbn [negb].
    intros H. exists a, e. split_and!; [done..|]. destruct (Z.eqb_spec (TA_Type a) ACTION_TYPE_ISSUE).
    { left. destruct (AM_IssueMetadata e) eqn:?, (AM_TransferMetadata e) eqn:?; naive_solver. }
    destruct (Z.eqb_spec (TA_Type a) ACTION_TYPE_TRANSFER); [|done].
    right. destruct (AM_IssueMetadata e) eqn:?, (AM_TransferMetadata e) eqn:?; naive_solver.
  - intros (action & e & -> & -> & Hid & [(Ht & im & H1 & H2)|(Ht & tm & H1 & H2)]); cbn; rewrite Hid, Z.eqb_refl, Ht, H1, H2; done.
Qed.

(** The structural check is exact. *)
Lemma ValidateStructure_exact tr trm : ValidateStructure (Some tr) (Some trm) = Ok tt <->
  length (Actions tr) = length (TRM_Actions trm) /\
  forall i a, Actions tr !! i = Some a -> exists action e, a = Some action /\ TRM_Actions trm !! i = Some (Some e) /\ entry_for i action e.
Proof.
  cbn. rewrite res_bind_Ok. split.
  - intros ([] & Hl%reject_if_Ok & H). apply negb_false_iff, Nat.eqb_eq in Hl. split; [done|]. intros i a Hi.
    pose proof (proj1 (rangeR_Ok _ _ _) H i a Hi) as Ha. cbn in Ha. destruct (TRM_Actions trm !! i) as [e|] eqn:E; [|done].
    apply validateActionStructure_Ok in Ha as (action & e' & -> & -> & He). by eauto.
  - intros [Hl H]. exists tt. rewrite Hl, Nat.eqb_refl. split; [done|]. apply rangeR_Ok. intros k x Hk. cbn.
    destruct (H k x Hk) as (action & e & -> & -> & He). apply validateActionStructure_Ok. by eauto.
Qed.

(** ** The token types of the inputs *)

(** The retrieved token of an input of a transfer. *)
Definition retrieved_input (toks : audit_tokens) (im : option TransferInputMetadata) (t : Token) : Prop :=
  exists i id, im = Some i /\ TIM_TokenID i = Some id /\ toks !! ID_String id = Some (Some t).

(** All of one type; a token without a type is skipped. *)
Definition of_type (typ : bytes) (t : Token) : Prop := Token_Type t = typ \/ Token_Type t = [].

Lemma checkTransferInput_Ok toks im typ sum b p typ' sum' :
  checkTransferInputTokenType toks im typ sum b p = Ok (typ', sum') ->
  exists t, retrieved_input toks im t /\ (typ = [] \/ typ' = typ) /\ typ' = Token_Type t.
Proof.
  destruct im as [im|]; [|done]. cbn -[ID_String]. destruct (TIM_TokenID im) as [id|] eqn:Eid; [|done].
  destruct (toks !! ID_String id) as [[t|]|] eqn:Et; try done. intros (ty & Hty & H)%res_bind_Ok.
  assert (ty = typ') as ->.
  { destruct b; [|by injection H as -> _]. apply res_bind_Ok in H as (q & _ & H). destruct sum; [|done].
    apply res_bind_Ok in H as (s' & _ & H). by injection H as -> _. }
  exists t. split; [by exists im, id|]. destruct (Z.eqb_spec (zlen typ) 0) as [E|E].
  - apply zlen_zero_nil in E. injection Hty as <-. auto.
  - case_bool_decide; [|done]. injection Hty as <-. auto.
Qed.

Lemma transfer_inputs_Ok toks b p ins : forall typ sum, transfer_inputs_loop toks ins typ sum b p = Ok tt ->
  exists ts ty, Forall2 (retrieved_input toks) ins ts /\ (typ = [] \/ ty = typ) /\ Forall (of_type ty) ts.
Proof.
  induction ins as [|im ins IH]; intros typ sum; cbn [transfer_inputs_loop].
  { intros _. exists [], typ. split_and!; [constructor|by right|constructor]. }
  intros ([typ' sum'] & H1%checkTransferInput_Ok & H2)%res_bind_Ok. destruct H1 as (t & Ht & Htyp & E).
  destruct (IH _ _ H2) as (ts & ty & HF & Hty & HA). exists (t :: ts), ty. split_and!.
  - by constructor.
  - destruct Htyp as [->| ->]; [by left|]. destruct Hty as [->| ->]; [by left|by right].
  - constructor; [|done]. unfold of_type. destruct Hty as [Hn| ->]; [right|left]; by rewrite <- E.
Qed.

Lemma ValidateTransferTypes_Ok m toks b p : ValidateTransferActionTokenTypes (Some m) (Some toks) b p = Ok tt ->
  exists ts ty, Forall2 (retrieved_input toks) (TM_Inputs m) ts /\ Forall (of_type ty) ts.
Proof.
  cbn. case_bool_decide; [done|]. intros (ts & ty & ? & _ & ?)%transfer_inputs_Ok. by exists ts, ty.
Qed.

(** An input of an issue: without an id, or with a retrieved token. *)
Definition issue_input_known (toks : audit_tokens) (im : IssueInputMetadata) : Prop :=
  forall id, IIM_TokenID im = Some id -> is_Some (toks !! ID_String id).

Lemma issue_inputs_Ok toks ins : forall typ, issue_inputs_loop toks ins typ = Ok tt -> forall im, Some im ∈ ins -> issue_input_known toks im.
Proof.
  induction ins as [|[i|] ins IH]; intros typ; cbn [issue_inputs_loop]; [by intros _ im ?%elem_of_nil| |].
  - intros (t & H1 & H2)%res_bind_Ok im [[= ->]|Hin]%elem_of_cons; [|by eapply IH].
    intros id Hid. unfold checkIssueInputTokenType in H1. rewrite Hid in H1. destruct (toks !! ID_String id); [by eexists|done].
  - intros H im [|Hin]%elem_of_cons; [done|]. by eapply IH.
Qed.

Lemma entry_at_Ok {P IA TA} (c : AuditContext P IA TA) e : entry_at c = Ok e ->
  TRM_Actions (ac_TokenRequestMetadata c) !! ac_ActionIndex c = Some (Some e).
Proof. unfold entry_at. destruct (_ <=? _)%nat; [done|]. repeat case_match; naive_solver. Qed.

(** ** The auditor's check *)

Section Checked.
Context {P IA TA : Type} (a : Auditor P IA TA) (dI : bytes -> res IA) (dT : bytes -> res TA).

(** The check of one action: it deserializes and its validators accept it. *)
Definition action_checked (anchor : bytes) (tr : TokenRequest) (trm : TokenRequestMetadata) (toks : audit_tokens) (i : nat) (action : TypedAction) : Prop :=
  (TA_Type action = ACTION_TYPE_ISSUE /\ exists x, dI (TA_Raw action) = Ok x /\ CheckIssue a anchor tr trm (Some x) toks i = Ok tt) \/
  (TA_Type action = ACTION_TYPE_TRANSFER /\ exists x, dT (TA_Raw action) = Ok x /\ CheckTransfer a anchor tr trm (Some x) toks i = Ok tt).

Lemma check_loop_Ok anchor tr trm toks actions : forall i issues transfers li lt,
  actions_of_type ACTION_TYPE_ISSUE actions = Ok issues -> mapM dI issues = Ok li ->
  actions_of_type ACTION_TYPE_TRANSFER actions = Ok transfers -> mapM dT transfers = Ok lt ->
  check_loop a anchor tr trm toks i actions (Some <$> li) (Some <$> lt) = Ok tt ->
  forall k action, actions !! k = Some (Some action) -> action_checked anchor tr trm toks (i + k) action.
Proof.
  induction actions as [|[x|] l IH]; intros i issues transfers li lt Hi Hli Ht Hlt H k action Hk; [by rewrite lookup_nil in Hk| |done].
  cbn [actions_of_type] in Hi, Ht. apply res_bind_Ok in Hi as (ri & Hi & [= <-]). apply res_bind_Ok in Ht as (rt & Ht & [= <-]).
  assert (HIH : forall li' lt' k', mapM dI ri = Ok li' -> mapM dT rt = Ok lt' ->
            check_loop a anchor tr trm toks (S i) l (Some <$> li') (Some <$> lt') = Ok tt -> l !! k' = Some (Some action) ->
            action_checked anchor tr trm toks (S i + k') action) by (intros; by eapply IH).
  cbn [check_loop] in H. unfold action_checked in *. destruct (Z.eqb_spec (TA_Type x) ACTION_TYPE_ISSUE) as [Ei|Ei].
  - rewrite Ei in Hlt. cbn in Hlt. change (y ← dI (TA_Raw x); ys ← mapM dI ri; mret (y :: ys)) with (mapM dI (TA_Raw x :: ri)) in Hli.
    apply res_bind_Ok in Hli as (y & Hy & (ys & Hys & [= <-])%res_bind_Ok). cbn [fmap list_fmap] in H.
    apply res_bind_Ok in H as ([] & Hc%wrap_Ok & H). destruct k as [|k]; cbn in Hk.
    + injection Hk as <-. rewrite Nat.add_0_r. left. by eauto.
    + rewrite <- Nat.add_succ_comm. by eapply HIH.
  - destruct (Z.eqb_spec (TA_Type x) ACTION_TYPE_TRANSFER) as [Et|]; [|done].
    apply res_bind_Ok in Hlt as (y & Hy & (ys & Hys & [= <-])%res_bind_Ok). cbn [fmap list_fmap] in H.
    apply res_bind_Ok in H as ([] & Hc%wrap_Ok & H). destruct k as [|k]; cbn in Hk.
    + injection Hk as <-. rewrite Nat.add_0_r. right. by eauto.
    + rewrite <- Nat.add_succ_comm. by eapply HIH.
Qed.

(** Both drivers deserialize the issues, then the transfers. *)
Hypothesis deserialize : forall tr, aud_DeserializeActions a tr =
  (issues ← GetIssues tr; li ← mapM dI issues; transfers ← GetTransfers tr; lt ← mapM dT transfers; Ok (Some <$> li, Some <$> lt)).

Lemma Check_Ok tr trm txID toks : Auditor_Check a (Some tr) (Some trm) txID (Some toks) = Ok tt ->
  ValidateStructure (Some tr) (Some trm) = Ok tt /\
  forall i action, Actions tr !! i = Some (Some action) -> action_checked txID tr trm toks i action.
Proof.
  unfold Auditor_Check. rewrite res_bind_Ok. intros ([] & Hs%wrap_Ok & H). split; [done|].
  apply res_bind_Ok in H as ([xs ys] & Hd%wrap_Ok & H).
  rewrite deserialize in Hd. apply res_bind_Ok in Hd as (issues & Hi & Hd). apply res_bind_Ok in Hd as (li & Hli & Hd).
  apply res_bind_Ok in Hd as (ts & Ht & Hd). apply res_bind_Ok in Hd as (lt & Hlt & [= <- <-]).
  intros i action Hia. by eapply (check_loop_Ok txID tr trm toks (Actions tr) 0 issues ts li lt).
Qed.

(** What the service's acceptance means, driver by driver: the ids in the
    metadata are distinct, their tokens come from the store, the structure
    matches and every action is checked. *)
Lemma AuditorCheck_Ok `{!QueryEngine W} n request metadata anchor (w w' : W) :
  AuditorCheck a n request metadata anchor w = (Ok tt, w') ->
  exists tr trm toks, request = Some tr /\ metadata = Some trm /\
    NoDup (ID_String <$> spent_ids (TRM_Actions trm)) /\
    RetrieveAuditTokens (spent_ids (TRM_Actions trm)) n w = (Ok toks, w') /\
    ValidateStructure (Some tr) (Some trm) = Ok tt /\
    forall i action, Actions tr !! i = Some (Some action) -> action_checked anchor tr trm toks i action.
Proof.
  unfold AuditorCheck. rewrite M_bind_Ok. intros (m & w1 & [Hm ->]%lift_Ok & H). destruct metadata as [trm|]; [injection Hm as ->|done].
  apply M_bind_Ok in H as (? & w2 & [_ ->]%lift_Ok & H). apply M_bind_Ok in H as (ids & w3 & [[-> Hnd]%Extract_Ok ->]%lift_Ok & H).
  apply M_bind_Ok in H as (toks & w4 & Hr & [Hc%wrap_Ok ->]%lift_Ok). destruct request as [tr|]; [|done].
  destruct (Check_Ok _ _ _ _ Hc) as [Hs Ha]. by exists tr, m, toks.
Qed.
End Checked.
