(* ===== verification/FabtokenAudit.v ===== *)
(** * Auditing in the fabtoken driver (token/core/fabtoken/v1/audit/auditor.go,
      token/core/fabtoken/v1/auditor.go)

    The validation functions of the cleartext driver's auditor, plugged into
    [Auditor].  Parameters: the protobuf decoders of actions and the store of
    audit tokens. *)

From S2P Require Import Prelude Quantity Der TokenTypes Request Limits Metadata Auditor FabtokenActions FabtokenValidator.
From Stdlib Require Import ZArith Lia.
Local Open Scope Z_scope.

(** [TransferAction.IsRedeem]: a nil output panics. *)
Fixpoint FT_IsRedeem_loop (outputs : list (option Output)) : res bool :=
  match outputs with
  | [] => Ok false
  | None :: _ => Panic
  | Some o :: l => if Output_IsRedeem o then Ok true else FT_IsRedeem_loop l
  end.

Definition FT_IsRedeem (t : FTransferAction) : res bool := FT_IsRedeem_loop (FT_Outputs t).

#[global] Instance FIssueAction_I `{!IdentityOps} : IssueActionI FIssueAction := {|
  IA_Validate := FIssueAction_Validate;
  IA_NumInputs _ := 0;
  IA_NumOutputs i := zlen (FI_Outputs i);
  IA_ExtraSigners _ := [];
  IA_GetIssuer := FI_Issuer;
|}.

#[global] Instance FTransferAction_I : TransferActionI FTransferAction := {|
  TA_Validate := FTransferAction_Validate;
  TA_NumInputs t := zlen (FT_Inputs t);
  TA_NumOutputs t := zlen (FT_Outputs t);
  TA_ExtraSigners _ := [];
  TA_GetIssuer := FT_Issuer;
  TA_IsRedeem := FT_IsRedeem;
|}.

Section FabtokenAudit.
Context `{IO : !IdentityOps}.
Abbreviation FAuditContext := (AuditContext FabtokenPP FIssueAction FTransferAction).

Definition FIssueAuditValidate (c : FAuditContext) : res unit :=
  match ac_IssueAction c with
  | None => Err (EMsg "issue action is nil")
  | Some action =>
      actionMeta ← entry_at c;
      match AM_IssueMetadata actionMeta with
      | None => Err (EMsg "issue metadata not found at action index")
      | Some metadata =>
          wrap "issue action does not match metadata" (IssueMetadata_Match metadata action) ;;
          wrap "token type validation failed for issue action" (ValidateIssueActionTokenTypes (Some metadata) (Some (ac_AuditTokens c)))
      end
  end.

Definition FTransferAuditValidate (precision : Z) (c : FAuditContext) : res unit :=
  match ac_TransferAction c with
  | None => Err (EMsg "transfer action is nil")
  | Some action =>
      actionMeta ← entry_at c;
      match AM_TransferMetadata actionMeta with
      | None => Err (EMsg "transfer metadata not found at action index")
      | Some metadata =>
          wrap "transfer action does not match metadata" (TransferMetadata_Match metadata action) ;;
          wrap "token type validation failed for transfer action"
            (ValidateTransferActionTokenTypes (Some metadata) (Some (ac_AuditTokens c)) false precision) ;;
          redeem ← TA_IsRedeem action;
          if redeem && (zlen (PP_Issuers (ac_PP c)) >? 0) then
            match TA_GetIssuer action with
            | None => Err (EMsg "on redeem, must have at least one issuer")
            | Some issuer =>
                reject_if (negb (existsb (Identity_Equal issuer) (PP_Issuers (ac_PP c)))) (EMsg "issuer is not a recognized issuer")
            end
          else Ok tt
      end
  end.

Context (proto_IssueAction : bytes -> res PIssueAction) (proto_TransferAction : bytes -> res PTransferAction).

Definition FNewAuditor (pp : FabtokenPP) (precision : Z) (limits : ResourceLimits) : Auditor FabtokenPP FIssueAction FTransferAction := {|
  aud_PublicParams := pp;
  aud_DeserializeActions := FDeserializeActions proto_IssueAction proto_TransferAction limits;
  aud_IssueValidators := [FIssueAuditValidate];
  aud_TransferValidators := [FTransferAuditValidate precision];
|}.

(** [AuditorService.AuditorCheck]. *)
Definition FAuditorCheck `{!QueryEngine W} (pp : FabtokenPP) (limits : ResourceLimits) (numRetries : Z)
    (request : option TokenRequest) (metadata : option TokenRequestMetadata) (anchor : bytes) : M W unit :=
  AuditorCheck (FNewAuditor pp (QuantityPrecision pp) limits) numRetries request metadata anchor.

(** ** What acceptance means *)

Lemma redeem_dec outputs r : FT_IsRedeem_loop outputs = Ok r -> r = true <-> exists o, Some o ∈ outputs /\ Output_IsRedeem o = true.
Proof.
  induction outputs as [|[o|] l IH]; cbn [FT_IsRedeem_loop]; [|..|done].
  - intros [= <-]. split; [done|]. by intros (o & ?%elem_of_nil & _).
  - destruct (Output_IsRedeem o) eqn:E.
    + intros [= <-]. split; [|done]. intros _. exists o. split; [left|done].
    + intros H%IH. rewrite H. split; intros (o' & Hin & Ho'); exists o'; (split; [|done]).
      * by right.
      * apply elem_of_cons in Hin as [[= ->]|]; [congruence|done].
Qed.

(** A transfer as its metadata describes it to the auditor. *)
Record f_transfer_audited (pp : FabtokenPP) (toks : audit_tokens) (action : FTransferAction) (m : TransferMetadata) : Prop := {
  fta_matches : transfer_matches m action;
  fta_tokens : exists ts ty, Forall2 (retrieved_input toks) (TM_Inputs m) ts /\ Forall (of_type ty) ts;
  fta_redeem : PP_Issuers pp <> [] -> (exists o, Some o ∈ FT_Outputs action /\ Output_IsRedeem o = true) ->
               exists issuer, FT_Issuer action = Some issuer /\ issuer ∈ PP_Issuers pp;
}.

Lemma FIssueAuditValidate_Ok c action : FIssueAuditValidate c = Ok tt -> ac_IssueAction c = Some action ->
  exists e m, TRM_Actions (ac_TokenRequestMetadata c) !! ac_ActionIndex c = Some (Some e) /\ AM_IssueMetadata e = Some m /\
    issue_matches m action.
Proof.
  unfold FIssueAuditValidate. intros H Ha. rewrite Ha in H. apply res_bind_Ok in H as (e & He%entry_at_Ok & H).
  destruct (AM_IssueMetadata e) as [m|] eqn:Em; [|done]. exists e, m. split_and!; [done..|].
  apply res_bind_Ok in H as ([] & Hm%wrap_Ok & _). by apply IssueMetadata_Match_exact.
Qed.

Lemma zlen_pos {A} (l : list A) : (zlen l >? 0) = true <-> l <> [].
Proof. rewrite Z.gtb_lt. destruct l; cbn; [|rewrite zlen_cons; pose proof (zlen_nonneg l)]; split; (done || lia). Qed.

Lemma FTransferAuditValidate_Ok precision c action : FTransferAuditValidate precision c = Ok tt -> ac_TransferAction c = Some action ->
  exists e m, TRM_Actions (ac_TokenRequestMetadata c) !! ac_ActionIndex c = Some (Some e) /\ AM_TransferMetadata e = Some m /\
    f_transfer_audited (ac_PP c) (ac_AuditTokens c) action m.
Proof.
  unfold FTransferAuditValidate. intros H Ha. rewrite Ha in H. apply res_bind_Ok in H as (e & He%entry_at_Ok & H).
  destruct (AM_TransferMetadata e) as [m|] eqn:Em; [|done]. exists e, m. split_and!; [done..|].
  apply res_bind_Ok in H as ([] & Hm%wrap_Ok & H). apply res_bind_Ok in H as ([] & Ht%wrap_Ok & H).
  apply res_bind_Ok in H as (r & Hr & H). split.
  - by apply TransferMetadata_Match_exact.
  - by eapply ValidateTransferTypes_Ok.
  - intros Hne Hred. apply (redeem_dec _ _ Hr) in Hred as ->. rewrite (proj2 (zlen_pos _) Hne) in H. cbn in H.
    destruct (FT_Issuer action) as [issuer|]; [|done]. exists issuer. split; [done|].
    apply reject_if_Ok, negb_false_iff in H. by apply existsb_Identity.
Qed.

Lemma FDeserialize_eq pp precision limits tr : aud_DeserializeActions (FNewAuditor pp precision limits) tr =
  (issues ← GetIssues tr; li ← mapM (FIssueAction_Deserialize proto_IssueAction limits) issues;
   transfers ← GetTransfers tr; lt ← mapM (FTransferAction_Deserialize proto_TransferAction limits) transfers;
   Ok (Some <$> li, Some <$> lt)).
Proof. done. Qed.

(** What the auditor has established of the action at a position. *)
Definition f_action_audited (pp : FabtokenPP) (limits : ResourceLimits) (trm : TokenRequestMetadata) (toks : audit_tokens) (i : nat)
    (action : TypedAction) : Prop :=
  exists e, TRM_Actions trm !! i = Some (Some e) /\ entry_for i action e /\
  ((exists a m, FIssueAction_Deserialize proto_IssueAction limits (TA_Raw action) = Ok a /\ AM_IssueMetadata e = Some m /\ issue_matches m a) \/
   (exists a m, FTransferAction_Deserialize proto_TransferAction limits (TA_Raw action) = Ok a /\ AM_TransferMetadata e = Some m /\
      f_transfer_audited pp toks a m)).

(** The auditor of the cleartext driver accepts a request only if its metadata
    has one entry per action, of its kind and at its position, names no token
    twice, and only names tokens of the auditor's own store; and if every action
    is valid and agrees with its entry: numbers of inputs and outputs, issuer,
    one type for all retrieved input tokens, and an issuer of the public
    parameters for a redeem, when they list any. *)
Lemma f_audit_sound `{!QueryEngine W} pp limits n request metadata anchor (w w' : W) :
  FAuditorCheck pp limits n request metadata anchor w = (Ok tt, w') ->
  exists tr trm toks, request = Some tr /\ metadata = Some trm /\
    length (Actions tr) = length (TRM_Actions trm) /\
    NoDup (ID_String <$> spent_ids (TRM_Actions trm)) /\
    RetrieveAuditTokens (spent_ids (TRM_Actions trm)) n w = (Ok toks, w') /\
    forall i a, Actions tr !! i = Some a -> exists action, a = Some action /\ f_action_audited pp limits trm toks i action.
Proof.
  intros H. destruct (AuditorCheck_Ok _ _ _ (FDeserialize_eq _ _ _) _ _ _ _ _ _ H)
    as (tr & trm & toks & -> & -> & Hnd & Hr & [Hl Hs]%ValidateStructure_exact & Hc).
  exists tr, trm, toks. split_and!; try done. intros i a Hi. destruct (Hs i a Hi) as (action & e & -> & He & Hf).
  exists action. split; [done|]. exists e. split_and!; [done..|].
  destruct (Hc i action Hi) as [(_ & x & Hx & Hv)|(_ & x & Hx & Hv)].
  - left. apply res_bind_Ok in Hv as ([] & Hv & _). apply FIssueAuditValidate_Ok with (action := x) in Hv as (e' & m & He' & Hm & Hmm); [|done].
    cbn in He'. assert (e' = e) as -> by congruence. by exists x, m.
  - right. apply res_bind_Ok in Hv as ([] & Hv & _). apply FTransferAuditValidate_Ok with (action := x) in Hv as (e' & m & He' & Hm & Hmm); [|done].
    cbn in He'. assert (e' = e) as -> by congruence. by exists x, m.
Qed.

(** ** What the auditor does not see *)

(** Two transfers with the same shape, the same issuer and the same redeem
    flag. *)
Record same_shape (a b : FTransferAction) : Prop := {
  ss_valid : FTransferAction_Validate a = Ok tt /\ FTransferAction_Validate b = Ok tt;
  ss_inputs : length (FT_Inputs a) = length (FT_Inputs b);
  ss_outputs : length (FT_Outputs a) = length (FT_Outputs b);
  ss_issuer : FT_Issuer a = FT_Issuer b;
  ss_redeem : FT_IsRedeem a = FT_IsRedeem b;
}.

Definition with_transfer (c : FAuditContext) (t : FTransferAction) : FAuditContext :=
  mkAuditContext (ac_PP c) (ac_Anchor c) (ac_TokenRequest c) (ac_TokenRequestMetadata c) (ac_AuditTokens c) (ac_IssueAction c) (Some t) (ac_ActionIndex c).

(** The fabtoken auditor does not compare the tokens a transfer spends and
    creates with its metadata or with the retrieved audit tokens: two valid
    transfers with as many inputs and outputs, the same issuer and the same
    redeem flag get the same verdict from the same metadata, whatever tokens,
    owners, types and amounts they have. *)
Theorem fabtoken_audit_blind precision c a b : same_shape a b ->
  FTransferAuditValidate precision (with_transfer c a) = FTransferAuditValidate precision (with_transfer c b).
Proof.
  intros [[Ha Hb] Hi Ho Hu Hr]. unfold FTransferAuditValidate, TransferMetadata_Match.
  cbn [ac_TransferAction with_transfer ac_AuditTokens ac_PP TA_Validate TA_NumInputs TA_NumOutputs TA_ExtraSigners TA_GetIssuer TA_IsRedeem FTransferAction_I].
  change (entry_at (with_transfer c a)) with (entry_at (with_transfer c b)). destruct (entry_at _); [|done..]. cbn [mbind res_mbind].
  rewrite Ha, Hb, Hu, Hr. unfold zlen. by rewrite Hi, Ho.
Qed.
End FabtokenAudit.

(** A transfer of five euros, and one of a hundred dollars into seven yen; the
    metadata names a third token, of francs. *)
Module BlindAudit.
Definition moves (tx typ qty typ' qty' : string) : FTransferAction :=
  mkFTransferAction [Some (mkFInput (Some (mkID (str tx) 0)) (Some (mkToken (str "alice") (str typ) (str qty))))]
    [Some (mkToken (str "bob") (str typ') (str qty'))] [] None None.

Definition honest : FTransferAction := moves "tx1" "EUR" "5" "EUR" "5".
Definition other : FTransferAction := moves "tx2" "USD" "100" "YEN" "7".

Definition described : TransferMetadata :=
  mkTransferMetadata [Some (mkTransferInputMetadata (Some (mkID (str "tx3") 4)) [])] [Some (mkTransferOutputMetadata [] [] [])] []
    (mkAuditableIdentity None []).
Definition stored : audit_tokens := {[ ID_String (mkID (str "tx3") 4) := Some (mkToken (str "carol") (str "CHF") (str "1")) ]}.

Definition context : AuditContext FabtokenPP FIssueAction FTransferAction :=
  mkAuditContext (mkFabtokenPP 64 [str "issuer"] []) (str "tx") (mkTokenRequest 1 [Some (mkTypedAction ACTION_TYPE_TRANSFER (str "raw"))] [])
    (mkTokenRequestMetadata [Some (mkActionMetadataEntry 0 None (Some described))] []) stored None None 0.
End BlindAudit.

Section Witnesses.
Import BlindAudit.

Lemma fabtoken_audit_blind_witness :
  FTransferAuditValidate (IO := bytes_identity) 64 (with_transfer context honest) =
  FTransferAuditValidate (IO := bytes_identity) 64 (with_transfer context other) /\
  FTransferAuditValidate (IO := bytes_identity) 64 (with_transfer context other) = Ok tt.
Proof.
  split; [|vm_compute; reflexivity].
  apply (fabtoken_audit_blind (IO := bytes_identity) 64 context honest other). split; [split|..]; vm_compute; reflexivity.
Defined.
End Witnesses.
