(* ===== verification/ZkAudit.v ===== *)
(** * Auditing in the zero-knowledge driver
      (zkatdlog/nogh/v1/audit/auditor.go, zkatdlog/nogh/v1/auditor.go,
      Metadata of zkatdlog/nogh/v1/token/token.go,
      services/tokens/typed.go, services/tokens/core/comm/token.go)

    The auditor opens the commitments of the outputs with the openings the
    metadata carries and matches the identities with their audit information.
    Parameters: the matcher of audit information and the extraction of
    recipients, the protobuf decoders of actions and of token metadata, the JSON
    decoders of points and scalars, and the store of audit tokens. *)

From S2P Require Import Prelude GoStd Quantity Der TokenTypes Asn1 Request Limits Metadata Auditor FabtokenActions ZkMath ZkIpa ZkRange ZkSigma ZkCodec ZkTransfer ZkActions ZkValidator.
From Stdlib Require Import ZArith Lia.
Local Open Scope Z_scope.

(** ** Typed tokens (services/tokens/typed.go, core/comm/token.go) *)

Record TypedToken := mkTypedToken { tt_Type : Z; tt_Token : bytes }.

(** [asn1.Unmarshal] into the structure: an [int32] and a byte slice. *)
Definition TypedToken_asn1 (b : bytes) : res (TypedToken * bytes) :=
  '(body, rest) ← parse_tagged tagSequence b;
  '(iv, body) ← parse_tagged tagInteger body;
  typ ← parse_int iv;
  if (typ <? -2147483648) || (typ >? 2147483647) then Err (asn1_err "integer too large") else
  '(raw, _) ← parse_tagged tagOctetString body;
  Ok (mkTypedToken typ raw, rest).

Definition UnmarshalTypedToken (token : bytes) : res TypedToken :=
  '(si, rest) ← wrap "failed to unmarshal to TypedToken" (TypedToken_asn1 token);
  if negb (zlen rest =? 0) then Err (EMsg "trailing bytes after TypedToken") else Ok si.

Definition comm_UnmarshalTypedToken (token : bytes) : res TypedToken :=
  ttoken ← wrap "failed unmarshalling token" (UnmarshalTypedToken token);
  if negb (tt_Type ttoken =? comm_Type) then Err (EMsg "invalid token type") else Ok ttoken.

(** [IsRedeem] of a transfer follows every output. *)
Section IsRedeem.
Context {CO : Curve} {NA : Native} {WI : Wire}.

Fixpoint ZT_IsRedeem_loop (outputs : list (option zToken)) : res bool :=
  match outputs with
  | [] => Ok false
  | None :: _ => Panic
  | Some o :: l => if zToken_IsRedeem o then Ok true else ZT_IsRedeem_loop l
  end.

Definition ZT_IsRedeem (t : ZTransferAction) : res bool := ZT_IsRedeem_loop (ZT_Outputs t).

#[global] Instance ZIssueAction_I `{!IdentityOps} : IssueActionI ZIssueAction := {|
  IA_Validate := ZIssueAction_Validate;
  IA_NumInputs i := zlen (ZI_Inputs i);
  IA_NumOutputs i := zlen (ZI_Outputs i);
  IA_ExtraSigners _ := [];
  IA_GetIssuer := ZI_Issuer;
|}.

#[global] Instance ZTransferAction_I : TransferActionI ZTransferAction := {|
  TA_Validate := ZTransferAction_Validate;
  TA_NumInputs t := zlen (ZT_Inputs t);
  TA_NumOutputs t := zlen (ZT_Outputs t);
  TA_ExtraSigners _ := [];
  TA_GetIssuer := ZT_Issuer;
  TA_IsRedeem := ZT_IsRedeem;
|}.
End IsRedeem.

Section ZkAudit.
Context `{IO : !IdentityOps} {CO : Curve} {NA : Native} {WI : Wire}.

(** [InfoMatcher]. *)
Context (MatchIdentity : bytes -> bytes -> res unit) (Recipients : bytes -> res (list bytes)).
Context (G1_UnmarshalJSON : bytes -> res (wire G1)) (Zr_UnmarshalJSON : bytes -> res (wire Zr)).

(** ** Openings (token/token.go) *)

(** A decoded opening: its scalars may be of another curve. *)
Record TokenMetadata := mkTokenMetadata {
  wm_Type : bytes;
  wm_Value : option (wire Zr);
  wm_BlindingFactor : option (wire Zr);
  wm_Issuer : bytes;
}.
Record PTokenMetadata := mkPTokenMetadata {
  ptm_Type : bytes;
  ptm_Value : option bytes;
  ptm_BlindingFactor : option bytes;
  ptm_Issuer : option bytes;
}.

Context (proto_TokenMetadata : bytes -> res PTokenMetadata).

Definition Metadata_Deserialize (b : bytes) : res TokenMetadata :=
  typed ← wrap "failed deserializing metadata" (comm_UnmarshalTypedToken b);
  metadata ← wrap "failed unmarshalling metadata" (proto_TokenMetadata (tt_Token typed));
  value ← wrap "failed to deserialize metadata" (FromZrProto Zr_UnmarshalJSON (ptm_Value metadata));
  bf ← wrap "failed to deserialize metadata" (FromZrProto Zr_UnmarshalJSON (ptm_BlindingFactor metadata));
  Ok (mkTokenMetadata (ptm_Type metadata) value bf (default [] (ptm_Issuer metadata))).

Definition Metadata_Validate (checkIssuer : bool) (m : TokenMetadata) : res unit :=
  if zlen (wm_Type m) =? 0 then Err zk_ErrEmptyType else
  match wm_Value m with
  | None => Err zk_ErrEmptyValue
  | Some _ =>
      match wm_BlindingFactor m with
      | None => Err zk_ErrEmptyBlindingFactor
      | Some _ =>
          if checkIssuer && (zlen (wm_Issuer m) =? 0) then Err zk_ErrMissingIssuer
          else if negb checkIssuer && negb (zlen (wm_Issuer m) =? 0) then Err zk_ErrUnexpectedIssuer
          else Ok tt
      end
  end.

(** ** Inspection *)

Record InspectableIdentity := mkInspectableIdentity { ii_Identity : bytes; ii_IdentityFromMeta : bytes; ii_AuditInfo : bytes }.
Record InspectableData := mkInspectableData {
  id_Data : commitment;
  id_TokenType : bytes;
  id_Value : option (wire Zr);
  id_BF : option (wire Zr);
}.
Record InspectableToken := mkInspectableToken { it_Identity : InspectableIdentity; it_Data : InspectableData }.

Definition NewInspectableToken (token : zToken) (ownerAuditInfo tokenType : bytes) (value bf : option (wire Zr)) : res InspectableToken :=
  Ok (mkInspectableToken (mkInspectableIdentity (zt_Owner token) [] ownerAuditInfo) (mkInspectableData (zt_Data token) tokenType value bf)).

Definition InspectIdentity (identity : InspectableIdentity) : res unit :=
  reject_if (Identity_IsNone (ii_Identity identity)) (EMsg "identity at index is nil, cannot inspect it") ;;
  reject_if (zlen (ii_AuditInfo identity) =? 0) (EMsg "failed to inspect identity at index: audit info is nil") ;;
  reject_if (negb (zlen (ii_IdentityFromMeta identity) =? 0) && negb (bool_decide (ii_IdentityFromMeta identity = ii_Identity identity)))
    (EMsg "failed to inspect identity at index: identity does not match the identity from metadata") ;;
  wrap "owner at index does not match the provided opening" (MatchIdentity (ii_Identity identity) (ii_AuditInfo identity)).

(** The auditor's own [commit]: it does not check what it is given. *)
Fixpoint audit_commit_loop (com : G1) (vector : list (option (wire Zr))) (generators : list G1) : res G1 :=
  match vector with
  | [] => Ok com
  | v :: vector =>
      match generators with
      | [] => Panic
      | g :: generators => w ← deref v; z ← own w; audit_commit_loop (com + g ⋅ z)%g1 vector generators
      end
  end.

Definition audit_commit (vector : list (option (wire Zr))) (generators : list G1) : res G1 := audit_commit_loop NewG1 vector generators.

Definition InspectOutput (pedersenParams : list G1) (output : InspectableToken) : res unit :=
  let data := it_Data output in
  match id_Data data with
  | None => Err (EMsg "invalid output at index")
  | Some _ =>
      tokenComm ← audit_commit [Some (Own (HashToZr (id_TokenType data))); id_Value data; id_BF data] pedersenParams;
      p ← point (id_Data data);
      reject_if (negb (bool_decide (tokenComm = p))) (EMsg "output at index does not match the provided opening") ;;
      if negb (Identity_IsNone (ii_Identity (it_Identity output)))
      then wrap "failed inspecting output at index" (InspectIdentity (it_Identity output)) else Ok tt
  end.

(** ** Validation of the parts of an action *)

Definition validateRedeemIssuer (issuers : list bytes) (issuer : bytes) : res unit :=
  if existsb (fun i => Identity_Equal i issuer) issuers then Ok tt else Err (EMsg "issuer is not a recognized issuer").

(** [inputsMetadata[i]]. *)
Definition zk_issueInput (inputsMetadata : list (option IssueInputMetadata)) (i : nat) (input : option ZIssueInput) : res unit :=
  match input with
  | None => Err (EMsg "input at index is nil")
  | Some input =>
      reject_if (zlen (zii_Token input) =? 0) (EMsg "input token at index is nil") ;;
      inputMetadata ← index inputsMetadata i;
      match inputMetadata with
      | None => Err (EMsg "input metadata at index is nil")
      | Some m => match IIM_TokenID m with
                  | None => Ok tt
                  | Some id => reject_if (negb (ID_Equal id (zii_ID input))) (EMsg "token ID mismatch at input")
                  end
      end
  end.

Definition validateIssueInputs (inputs : list (option ZIssueInput)) (inputsMetadata : list (option IssueInputMetadata)) : res unit :=
  rangeR (zk_issueInput inputsMetadata) 0 inputs.

(** One receiver against the recipient at its position. *)
Definition receiverCheck (recipients : list bytes) (requireNonEmpty : bool) (j : nat) (receiver : option AuditableIdentity) : res unit :=
  match receiver with
  | None => Err (EMsg "receiver at index is nil")
  | Some r =>
      let identity := raw_of (AI_Identity r) in
      (if requireNonEmpty then
         if zlen identity =? 0 then Err (EMsg "recipient at index does not match receiver identity in metadata")
         else recipient ← index recipients j;
              reject_if (negb (bool_decide (recipient = identity))) (EMsg "recipient at index does not match receiver identity in metadata")
       else
         if zlen identity >? 0
         then recipient ← index recipients j;
              reject_if (negb (bool_decide (recipient = identity))) (EMsg "recipient at index does not match receiver identity in metadata")
         else Ok tt) ;;
      wrap "failed inspecting receiver" (InspectIdentity (mkInspectableIdentity identity [] (AI_AuditInfo r)))
  end.

Definition validateOutputReceivers (owner : bytes) (receivers : list (option AuditableIdentity)) (requireNonEmpty : bool) : res unit :=
  recipients ← wrap "failed to extract recipients from output owner at index" (Recipients owner);
  reject_if (zlen recipients =? 0) (EMsg "output at index has no recipients") ;;
  reject_if (negb (zlen receivers =? zlen recipients)) (EMsg "output at index has recipients but metadata has receivers") ;;
  rangeR (receiverCheck recipients requireNonEmpty) 0 receivers.

Definition zk_issueOutput (pedersenParams : list G1) (outputsMetadata : list (option IssueOutputMetadata)) (i : nat) (output : option zToken) : res unit :=
  match output with
  | None => Err (EMsg "output at index is nil")
  | Some output =>
      om ← index outputsMetadata i;
      match om with
      | None => Err (EMsg "output metadata at index is nil")
      | Some om =>
          reject_if (zToken_IsRedeem output) (EMsg "issue action cannot redeem tokens") ;;
          tokenMetadata ← wrap "failed to deserialize token metadata at index" (Metadata_Deserialize (IOM_OutputMetadata om));
          wrap "invalid token metadata at index" (Metadata_Validate true tokenMetadata) ;;
          inspectable ← wrap "failed to create inspectable token for output"
            (NewInspectableToken output (IOM_OutputAuditInfo om) (wm_Type tokenMetadata) (wm_Value tokenMetadata) (wm_BlindingFactor tokenMetadata));
          wrap "failed inspecting output" (InspectOutput pedersenParams inspectable) ;;
          validateOutputReceivers (zt_Owner output) (IOM_Receivers om) true
      end
  end.

Definition validateIssueOutputs (pedersenParams : list G1) (outputs : list (option zToken)) (outputsMetadata : list (option IssueOutputMetadata)) : res unit :=
  rangeR (zk_issueOutput pedersenParams outputsMetadata) 0 outputs.

Definition validateIssuer (issuers : list bytes) (issuer : bytes) (issuerMetadata : AuditableIdentity) : res unit :=
  wrap "failed checking issuer identity"
    (InspectIdentity (mkInspectableIdentity issuer (raw_of (AI_Identity issuerMetadata)) (AI_AuditInfo issuerMetadata))) ;;
  reject_if (negb (zlen issuers =? 0) && negb (existsb (Identity_Equal issuer) issuers)) (EMsg "issuer is not a recognized issuer").

Definition zk_transferInput (inputsMetadata : list (option TransferInputMetadata)) (i : nat) (actionInput : option ZActionInput) : res unit :=
  match actionInput with
  | None => Err (EMsg "input at index is nil")
  | Some inp =>
      match zin_Token inp with
      | None => Err (EMsg "input at index is nil")
      | Some tok =>
          match zin_ID inp with
          | None => Err (EMsg "input at index has nil ID")
          | Some id =>
              im ← index inputsMetadata i;
              match im with
              | None => Err (EMsg "metadata for input at index is nil")
              | Some im =>
                  match TIM_Senders im with
                  | [sender] =>
                      match sender with
                      | None => Err (EMsg "sender at index is nil")
                      | Some s =>
                          reject_if (negb (bool_decide (raw_of (AI_Identity s) = zt_Owner tok)))
                            (EMsg "sender identity at index does not match token owner") ;;
                          match TIM_TokenID im with
                          | None => Ok tt
                          | Some mid => reject_if (negb (ID_Equal mid id)) (EMsg "token ID mismatch at input")
                          end ;;
                          inspectable ← wrap "failed to create inspectable token for input at index"
                            (NewInspectableToken tok (AI_AuditInfo s) [] None None);
                          if negb (Identity_IsNone (ii_Identity (it_Identity inspectable)))
                          then wrap "failed inspecting input sender at index" (InspectIdentity (it_Identity inspectable)) else Ok tt
                      end
                  | _ => Err (EMsg "input metadata at index must have exactly one sender")
                  end
              end
          end
      end
  end.

Definition validateTransferInputs (inputs : list (option ZActionInput)) (inputsMetadata : list (option TransferInputMetadata)) : res unit :=
  rangeR (zk_transferInput inputsMetadata) 0 inputs.

Definition zk_transferOutput (pedersenParams : list G1) (outputsMetadata : list (option TransferOutputMetadata)) (i : nat) (output : option zToken) : res unit :=
  match output with
  | None => Err (EMsg "output at index is nil")
  | Some output =>
      om ← index outputsMetadata i;
      match om with
      | None => Err (EMsg "output metadata at index is nil")
      | Some om =>
          (if negb (zToken_IsRedeem output) then validateOutputReceivers (zt_Owner output) (TOM_Receivers om) false else Ok tt) ;;
          tokenMetadata ← wrap "failed to deserialize token metadata at index" (Metadata_Deserialize (TOM_OutputMetadata om));
          wrap "invalid token metadata at index" (Metadata_Validate false tokenMetadata) ;;
          inspectable ← wrap "failed to create inspectable token at index"
            (NewInspectableToken output (TOM_OutputAuditInfo om) (wm_Type tokenMetadata) (wm_Value tokenMetadata) (wm_BlindingFactor tokenMetadata));
          wrap "failed inspecting output at index" (InspectOutput pedersenParams inspectable)
      end
  end.

Definition validateTransferOutputs (pedersenParams : list G1) (outputs : list (option zToken)) (outputsMetadata : list (option TransferOutputMetadata)) : res unit :=
  rangeR (zk_transferOutput pedersenParams outputsMetadata) 0 outputs.

(** ** The auditor *)

(** The public parameters [NewAuditor] builds: only these fields are set. *)
Record AuditPP := mkAuditPP { app_PedersenGenerators : list G1; app_QuantityPrecision : Z; app_IssuerIDs : list bytes }.

Abbreviation ZAuditContext := (AuditContext AuditPP ZIssueAction ZTransferAction).

Definition ZIssueAuditValidate (pedersenParams : list G1) (c : ZAuditContext) : res unit :=
  match ac_IssueAction c with
  | None => Err (EMsg "issue action is nil")
  | Some action =>
      actionMeta ← entry_at c;
      match AM_IssueMetadata actionMeta with
      | None => Err (EMsg "issue metadata not found at action index")
      | Some metadata =>
          wrap "issue action does not match metadata" (IssueMetadata_Match metadata action) ;;
          validateIssueInputs (ZI_Inputs action) (IM_Inputs metadata) ;;
          validateIssueOutputs pedersenParams (ZI_Outputs action) (IM_Outputs metadata) ;;
          wrap "token type validation failed for issue action" (ValidateIssueActionTokenTypes (Some metadata) (Some (ac_AuditTokens c))) ;;
          validateIssuer (app_IssuerIDs (ac_PP c)) (ZI_Issuer action) (IM_Issuer metadata)
      end
  end.

Definition ZTransferAuditValidate (pedersenParams : list G1) (precision : Z) (c : ZAuditContext) : res unit :=
  match ac_TransferAction c with
  | None => Err (EMsg "transfer action is nil")
  | Some action =>
      actionMeta ← entry_at c;
      match AM_TransferMetadata actionMeta with
      | None => Err (EMsg "transfer metadata not found at action index")
      | Some metadata =>
          wrap "transfer action does not match metadata" (TransferMetadata_Match metadata action) ;;
          validateTransferInputs (ZT_Inputs action) (TM_Inputs metadata) ;;
          validateTransferOutputs pedersenParams (ZT_Outputs action) (TM_Outputs metadata) ;;
          wrap "token type validation failed for transfer action"
            (ValidateTransferActionTokenTypes (Some metadata) (Some (ac_AuditTokens c)) true precision) ;;
          redeem ← TA_IsRedeem action;
          if redeem && negb (Identity_IsNone (raw_of (AI_Identity (TM_Issuer metadata))))
          then validateRedeemIssuer (app_IssuerIDs (ac_PP c)) (raw_of (AI_Identity (TM_Issuer metadata))) else Ok tt
      end
  end.

Context (proto_IssueAction : bytes -> res PzIssueAction) (proto_TransferAction : bytes -> res PzTransferAction).

(** The auditor deserializes without setting limits, so the defaults apply. *)
Definition audit_IssueAction_Deserialize (raw : bytes) : res ZIssueAction :=
  p ← join_err (EMsg "failed to deserialize issue action") (proto_IssueAction raw);
  ZIssueAction_FromProtos G1_UnmarshalJSON None p.

Definition audit_TransferAction_Deserialize (raw : bytes) : res ZTransferAction :=
  p ← wrap "failed to deserialize transfer action" (proto_TransferAction raw);
  ZTransferAction_FromProtos G1_UnmarshalJSON Zr_UnmarshalJSON None p.

Definition audit_DeserializeActions (tr : TokenRequest) : res (list (option ZIssueAction) * list (option ZTransferAction)) :=
  issues ← GetIssues tr;
  issueActions ← mapM audit_IssueAction_Deserialize issues;
  transfers ← GetTransfers tr;
  transferActions ← mapM audit_TransferAction_Deserialize transfers;
  Ok (Some <$> issueActions, Some <$> transferActions).

Definition ZNewAuditor (pp : list G1) (precision : Z) (issuers : list bytes) : Auditor AuditPP ZIssueAction ZTransferAction := {|
  aud_PublicParams := mkAuditPP pp precision issuers;
  aud_DeserializeActions := audit_DeserializeActions;
  aud_IssueValidators := [ZIssueAuditValidate pp];
  aud_TransferValidators := [ZTransferAuditValidate pp precision];
|}.

(** [AuditorService.AuditorCheck]. *)
Definition ZAuditorCheck `{!QueryEngine W} (PP : ZkPP) (numRetries : Z) (request : option TokenRequest) (metadata : option TokenRequestMetadata)
    (anchor : bytes) : M W unit :=
  AuditorCheck (ZNewAuditor (zp_PedersenGenerators (zpp_params PP)) (zpp_QuantityPrecision PP) (zpp_Issuers PP)) numRetries request metadata anchor.
End ZkAudit.
