(* ===== verification/ZkAuditSafety.v ===== *)
(** * What an audit by the zero-knowledge driver establishes

    Exact specifications of the auditor's checks on receivers, inputs and
    outputs, what the acceptance of a request means, and what it leaves open. *)

From S2P Require Import Prelude GoStd Quantity Der TokenTypes Asn1 Request Limits Metadata Auditor FabtokenActions ZkMath ZkIpa ZkRange ZkSigma ZkCodec ZkTransfer ZkClaims ZkActions ZkValidator ZkAudit.
From Stdlib Require Import ZArith Lia.
Local Open Scope Z_scope.

Section ZkAuditSafety.
Context `{IO : !IdentityOps} {CO : Curve} {NA : Native} {WI : Wire}.
Context (MatchIdentity : bytes -> bytes -> res unit) (Recipients : bytes -> res (list bytes)).
Context (G1_UnmarshalJSON : bytes -> res (wire G1)) (Zr_UnmarshalJSON : bytes -> res (wire Zr)).
Context (proto_TokenMetadata : bytes -> res PTokenMetadata).

(** ** Identities *)

(** The audit information is there and belongs to the identity. *)
Definition inspected (identity info : bytes) : Prop := identity <> [] /\ info <> [] /\ MatchIdentity identity info = Ok tt.

Lemma zlen_nil {A} (l : list A) : (zlen l =? 0) = false <-> l <> [].
Proof. rewrite Z.eqb_neq. split; [by intros H ->|]. intros H E. by apply zlen_zero_nil in E. Qed.

Lemma IsNone_false i : Identity_IsNone i = false <-> i <> [].
Proof. rewrite <- not_true_iff_false, Identity_IsNone_spec. done. Qed.

Lemma InspectIdentity_exact i : InspectIdentity MatchIdentity i = Ok tt <->
  inspected (ii_Identity i) (ii_AuditInfo i) /\ (ii_IdentityFromMeta i = [] \/ ii_IdentityFromMeta i = ii_Identity i).
Proof.
  unfold InspectIdentity, inspected. destruct i as [a m f]. cbn [ii_Identity ii_IdentityFromMeta ii_AuditInfo]. split.
  - intros H. apply res_bind_Ok in H as (? & Ha%reject_if_Ok%IsNone_false & H). apply res_bind_Ok in H as (? & Hf%reject_if_Ok%zlen_nil & H).
    apply res_bind_Ok in H as (? & Hm%reject_if_Ok & H%wrap_Ok). split; [done|]. apply andb_false_iff in Hm as [Hm|Hm]; apply negb_false_iff in Hm.
    + left. by apply zlen_zero_nil, Z.eqb_eq.
    + right. by apply bool_decide_eq_true in Hm.
  - intros [(Ha%IsNone_false & Hf%zlen_nil & H) Hm]. rewrite Ha, Hf, H. cbn. destruct Hm as [->| ->]; [done|].
    rewrite bool_decide_true by done. by rewrite andb_false_r.
Qed.

(** ** Receivers *)

(** The receivers of an output are the recipients of its owner, in order, each
    with its audit information. *)
Definition receivers_audited (owner : bytes) (receivers : list (option AuditableIdentity)) : Prop :=
  exists recipients, Recipients owner = Ok recipients /\ recipients <> [] /\
    Forall2 (fun recipient r => exists a, r = Some a /\ raw_of (AI_Identity a) = recipient /\ inspected recipient (AI_AuditInfo a)) recipients receivers.

Lemma receiverCheck_exact recipients b j r : receiverCheck MatchIdentity recipients b j r = Ok tt <->
  exists a recipient, r = Some a /\ recipients !! j = Some recipient /\ raw_of (AI_Identity a) = recipient /\ inspected recipient (AI_AuditInfo a).
Proof.
  unfold receiverCheck. destruct r as [a|]; [|naive_solver]. cbv zeta. set (identity := raw_of (AI_Identity a)).
  rewrite res_bind_Ok.
  assert (Hx : index recipients j ≫= (fun recipient => reject_if (negb (bool_decide (recipient = identity)))
             (EMsg "recipient at index does not match receiver identity in metadata")) = Ok tt <-> recipients !! j = Some identity).
  { unfold index. destruct (recipients !! j) as [x|]; [|done]. cbn. rewrite reject_if_Ok, negb_false_iff, bool_decide_eq_true. naive_solver. }
  split.
  - intros ([] & Hr & [Hi _]%wrap_Ok%InspectIdentity_exact). cbn in Hi. exists a, identity. split_and!; try done. destruct Hi as [Hne _]. apply zlen_nil in Hne.
    destruct b; rewrite ?Hne in Hr; [by apply Hx|]. rewrite Z.gtb_ltb in Hr. pose proof (zlen_nonneg identity).
    apply Z.eqb_neq in Hne. destruct (Z.ltb_spec 0 (zlen identity)); [by apply Hx|lia].
  - intros (a' & x & [= <-] & Hj & <- & Hi). exists tt. split; [|apply wrap_Ok, InspectIdentity_exact; by auto]. apply Hx in Hj.
    pose proof (proj1 Hi) as Hne. apply zlen_nil in Hne. fold identity in Hne.
    destruct b; rewrite ?Hne; [done|]. rewrite Z.gtb_ltb. pose proof (zlen_nonneg identity). apply Z.eqb_neq in Hne.
    by destruct (Z.ltb_spec 0 (zlen identity)); [|lia].
Qed.

Lemma validateOutputReceivers_exact owner receivers b :
  validateOutputReceivers MatchIdentity Recipients owner receivers b = Ok tt <-> receivers_audited owner receivers.
Proof.
  unfold validateOutputReceivers, receivers_audited. rewrite res_bind_Ok. setoid_rewrite wrap_Ok.
  apply exist_proper. intros rs. split.
  - intros (Hr & H). apply res_bind_Ok in H as (? & Hne%reject_if_Ok%zlen_nil & H). apply res_bind_Ok in H as (? & Hl%reject_if_Ok%eqb_len & H).
    split_and!; [done..|]. apply Forall2_same_length_lookup. split; [done|].
    intros k y r Hk Hkr. apply (proj1 (rangeR_Ok _ _ _) H) in Hkr. apply receiverCheck_exact in Hkr as (a & x' & -> & Hx' & <- & Hi). cbn in Hx'. rewrite Hk in Hx'. injection Hx' as ->. by exists a.
  - intros (Hr & Hne%zlen_nil & [Hl H]%Forall2_same_length_lookup). split; [done|]. rewrite Hne. unfold zlen. rewrite Hl, Z.eqb_refl. cbn [negb reject_if mbind res_mbind].
    apply rangeR_Ok. intros k r Hk. apply receiverCheck_exact. destruct (lookup_lt_is_Some_2 rs k) as [x Hx].
    { rewrite Hl. by eapply lookup_lt_Some. }
    destruct (H k x r Hx Hk) as (a & -> & <- & Hi). by exists a, (raw_of (AI_Identity a)).
Qed.

(** ** Outputs *)

(** The decoded opening of a commitment. *)
Definition opens (gens : list G1) (md : TokenMetadata) (data : commitment) : Prop :=
  exists p0 p1 p2 ps v bf, gens = p0 :: p1 :: p2 :: ps /\ wm_Value md = Some (Own v) /\ wm_BlindingFactor md = Some (Own bf) /\
    data = Some (Own (NewG1 + p0 ⋅ HashToZr (wm_Type md) + p1 ⋅ v + p2 ⋅ bf)%g1).

(** What the auditor knows of an output: the opening in the metadata names a
    type, is for the commitment, and carries an issuer exactly for an issue; the
    owner, if there is one, has its audit information. *)
Definition output_audited (issue : bool) (gens : list G1) (out : zToken) (raw info : bytes) : Prop :=
  exists md, Metadata_Deserialize Zr_UnmarshalJSON proto_TokenMetadata raw = Ok md /\ wm_Type md <> [] /\
    (wm_Issuer md <> [] <-> issue = true) /\ opens gens md (zt_Data out) /\ (zt_Owner out <> [] -> inspected (zt_Owner out) info).

Lemma point_Ok o p : point o = Ok p <-> o = Some (Own p).
Proof. unfold point. destruct o as [[x|]|]; cbn; naive_solver. Qed.

Lemma own_Ok {T} (o : option (wire T)) (t : T) : (w ← ZkSigma.deref o; own w) = Ok t <-> o = Some (Own t).
Proof. destruct o as [[x|]|]; cbn; naive_solver. Qed.

Lemma audit_commit_Ok h v bf gens com : audit_commit [Some (Own h); v; bf] gens = Ok com ->
  exists p0 p1 p2 ps zv zb, gens = p0 :: p1 :: p2 :: ps /\ v = Some (Own zv) /\ bf = Some (Own zb) /\
    com = (NewG1 + p0 ⋅ h + p1 ⋅ zv + p2 ⋅ zb)%g1.
Proof.
  unfold audit_commit. destruct gens as [|p0 [|p1 [|p2 ps]]]; cbn [audit_commit_loop ZkSigma.deref mbind res_mbind own]; [done..| | |].
  1-2: intros H; destruct v as [[zv|]|]; try done; destruct bf as [[zb|]|]; done.
  intros H. destruct v as [[zv|]|]; try done. destruct bf as [[zb|]|]; try done. injection H as <-. by exists p0, p1, p2, ps, zv, zb.
Qed.

Lemma inspect_output_Ok b gens out info md : Metadata_Validate b md = Ok tt ->
  InspectOutput MatchIdentity gens (mkInspectableToken (mkInspectableIdentity (zt_Owner out) [] info)
    (mkInspectableData (zt_Data out) (wm_Type md) (wm_Value md) (wm_BlindingFactor md))) = Ok tt ->
  wm_Type md <> [] /\ (wm_Issuer md <> [] <-> b = true) /\ opens gens md (zt_Data out) /\ (zt_Owner out <> [] -> inspected (zt_Owner out) info).
Proof.
  intros Hv H. assert (wm_Type md <> [] /\ (wm_Issuer md <> [] <-> b = true)) as [Ht Hu].
  { unfold Metadata_Validate in Hv. destruct (zlen (wm_Type md) =? 0) eqn:Et; [done|]. apply zlen_nil in Et. split; [done|].
    destruct (wm_Value md), (wm_BlindingFactor md); try done. destruct (zlen (wm_Issuer md) =? 0) eqn:Ei.
    - apply Z.eqb_eq, zlen_zero_nil in Ei. rewrite Ei. by destruct b.
    - apply zlen_nil in Ei. destruct b; [naive_solver|done]. }
  split_and!; [done..| |]; unfold InspectOutput in H; cbn [it_Data it_Identity id_Data id_TokenType id_Value id_BF ii_Identity] in H;
    cbv zeta in H; destruct (zt_Data out) as [w|] eqn:Ed; try done;
    apply res_bind_Ok in H as (com & Hc%audit_commit_Ok & H); apply res_bind_Ok in H as (p & Hp%point_Ok & H);
    apply res_bind_Ok in H as (? & Heq%reject_if_Ok%negb_false_iff%bool_decide_eq_true & H).
  - destruct Hc as (p0 & p1 & p2 & ps & zv & zb & -> & Hzv & Hzb & ->). exists p0, p1, p2, ps, zv, zb. by rewrite Hp, Heq.
  - intros Hne. apply IsNone_false in Hne. rewrite Hne in H. by apply wrap_Ok, InspectIdentity_exact in H as [? _].
Qed.

(** ** Actions *)

Definition issue_output_audited (gens : list G1) (out : option zToken) (om : option IssueOutputMetadata) : Prop :=
  exists o m, out = Some o /\ om = Some m /\ zt_Owner o <> [] /\
    output_audited true gens o (IOM_OutputMetadata m) (IOM_OutputAuditInfo m) /\ receivers_audited (zt_Owner o) (IOM_Receivers m).

Definition transfer_output_audited (gens : list G1) (out : option zToken) (om : option TransferOutputMetadata) : Prop :=
  exists o m, out = Some o /\ om = Some m /\ output_audited false gens o (TOM_OutputMetadata m) (TOM_OutputAuditInfo m) /\
    (zt_Owner o <> [] -> receivers_audited (zt_Owner o) (TOM_Receivers m)).

(** An input: the sender the metadata names is the owner of the token, with
    matching audit information, and the ids agree where there is one. *)
Definition transfer_input_audited (inp : option ZActionInput) (im : option TransferInputMetadata) : Prop :=
  exists i m tok id s, inp = Some i /\ im = Some m /\ zin_Token i = Some tok /\ zin_ID i = Some id /\
    TIM_Senders m = [Some s] /\ raw_of (AI_Identity s) = zt_Owner tok /\ (forall mid, TIM_TokenID m = Some mid -> mid = id) /\
    (zt_Owner tok <> [] -> inspected (zt_Owner tok) (AI_AuditInfo s)).

Lemma IsRedeem_owner t : zToken_IsRedeem t = false <-> zt_Owner t <> [].
Proof. apply zlen_nil. Qed.

Lemma zk_issueOutput_Ok gens oms i out : zk_issueOutput MatchIdentity Recipients Zr_UnmarshalJSON proto_TokenMetadata gens oms i out = Ok tt ->
  exists om, oms !! i = Some om /\ issue_output_audited gens out om.
Proof.
  unfold zk_issueOutput. destruct out as [o|]; [|done]. intros H. apply res_bind_Ok in H as (om & Hom & H). unfold index in Hom.
  destruct (oms !! i) as [om'|] eqn:E; [injection Hom as ->|done]. exists om. split; [done|]. destruct om as [m|]; [|done].
  apply res_bind_Ok in H as (? & Hr%reject_if_Ok%IsRedeem_owner & H). apply res_bind_Ok in H as (md & Hmd%wrap_Ok & H).
  apply res_bind_Ok in H as ([] & Hv%wrap_Ok & H). apply res_bind_Ok in H as (it & [= <-] & H). apply res_bind_Ok in H as ([] & Hi%wrap_Ok & H).
  exists o, m. split_and!; try done; [|by apply validateOutputReceivers_exact in H]. exists md. split; [done|].
  by apply (inspect_output_Ok true).
Qed.

Lemma zk_transferOutput_Ok gens oms i out : zk_transferOutput MatchIdentity Recipients Zr_UnmarshalJSON proto_TokenMetadata gens oms i out = Ok tt ->
  exists om, oms !! i = Some om /\ transfer_output_audited gens out om.
Proof.
  unfold zk_transferOutput. destruct out as [o|]; [|done]. intros H. apply res_bind_Ok in H as (om & Hom & H). unfold index in Hom.
  destruct (oms !! i) as [om'|] eqn:E; [injection Hom as ->|done]. exists om. split; [done|]. destruct om as [m|]; [|done].
  apply res_bind_Ok in H as ([] & Hr & H). apply res_bind_Ok in H as (md & Hmd%wrap_Ok & H).
  apply res_bind_Ok in H as ([] & Hv%wrap_Ok & H). apply res_bind_Ok in H as (it & [= <-] & Hi%wrap_Ok).
  exists o, m. split_and!; try done.
  - exists md. split; [done|]. by apply (inspect_output_Ok false).
  - intros Hne%IsRedeem_owner. rewrite Hne in Hr. by apply validateOutputReceivers_exact in Hr.
Qed.

Lemma zk_transferInput_Ok ims i inp : zk_transferInput MatchIdentity ims i inp = Ok tt ->
  exists im, ims !! i = Some im /\ transfer_input_audited inp im.
Proof.
  unfold zk_transferInput. destruct inp as [a|]; [|done]. destruct (zin_Token a) as [tok|] eqn:Et; [|done].
  destruct (zin_ID a) as [id|] eqn:Eid; [|done]. intros H. apply res_bind_Ok in H as (im & Him & H). unfold index in Him.
  destruct (ims !! i) as [im'|] eqn:E; [injection Him as ->|done]. exists im. split; [done|]. destruct im as [m|]; [|done].
  destruct (TIM_Senders m) as [|[s|] [|]] eqn:Es; try done.
  apply res_bind_Ok in H as (? & Ho%reject_if_Ok%negb_false_iff%bool_decide_eq_true & H). apply res_bind_Ok in H as ([] & Hid & H).
  apply res_bind_Ok in H as (it & [= <-] & H). cbn [it_Identity ii_Identity] in H.
  exists a, m, tok, id, s. split_and!; try done.
  - intros mid Hm. rewrite Hm in Hid. apply reject_if_Ok, negb_false_iff, ID_Equal_true in Hid. done.
  - intros Hne%IsNone_false. rewrite Hne in H. by apply wrap_Ok, InspectIdentity_exact in H as [? _].
Qed.

Lemma zlen_inj {A B} (l : list A) (k : list B) : zlen l = zlen k -> length k = length l.
Proof. unfold zlen. lia. Qed.

(** A loop whose body finds its partner in a slice of the same length. *)
Lemma rangeR_Forall2 {A B} (f : nat -> A -> res unit) (R : A -> B -> Prop) l k : length l = length k ->
  (forall i a, f i a = Ok tt -> exists b, k !! i = Some b /\ R a b) -> rangeR f 0 l = Ok tt -> Forall2 R l k.
Proof.
  intros Hl Hf H. apply Forall2_same_length_lookup. split; [done|]. intros i a b Ha Hb.
  destruct (Hf i a (proj1 (rangeR_Ok _ _ _) H i a Ha)) as (b' & Hb' & HR). congruence.
Qed.

(** What acceptance establishes of a transfer and of an issue. *)
Record zk_transfer_audited (gens : list G1) (issuers : list bytes) (toks : audit_tokens) (action : ZTransferAction) (m : TransferMetadata) : Prop := {
  zta_matches : transfer_matches m action;
  zta_inputs : Forall2 transfer_input_audited (ZT_Inputs action) (TM_Inputs m);
  zta_outputs : Forall2 (transfer_output_audited gens) (ZT_Outputs action) (TM_Outputs m);
  zta_tokens : exists ts ty, Forall2 (retrieved_input toks) (TM_Inputs m) ts /\ Forall (of_type ty) ts;
  zta_redeem : (exists o, Some o ∈ ZT_Outputs action /\ zt_Owner o = []) -> raw_of (ZT_Issuer action) <> [] -> raw_of (ZT_Issuer action) ∈ issuers;
}.

Record zk_issue_audited (gens : list G1) (issuers : list bytes) (toks : audit_tokens) (action : ZIssueAction) (m : IssueMetadata) : Prop := {
  zia_matches : issue_matches m action;
  zia_inputs : Forall2 (fun inp im => exists i x, inp = Some i /\ im = Some x /\
                 forall id, IIM_TokenID x = Some id -> id = zii_ID i /\ is_Some (toks !! ID_String id)) (ZI_Inputs action) (IM_Inputs m);
  zia_outputs : Forall2 (issue_output_audited gens) (ZI_Outputs action) (IM_Outputs m);
  zia_issuer : inspected (ZI_Issuer action) (AI_AuditInfo (IM_Issuer m)) /\ (issuers <> [] -> ZI_Issuer action ∈ issuers);
}.

Lemma zk_redeem_dec outputs r : ZT_IsRedeem_loop outputs = Ok r -> (exists o, Some o ∈ outputs /\ zt_Owner o = []) -> r = true.
Proof.
  induction outputs as [|[o|] l IH]; cbn [ZT_IsRedeem_loop]; [|..|done].
  - by intros _ (o & ?%elem_of_nil & _).
  - destruct (zToken_IsRedeem o) eqn:E; [by intros [= <-]|]. intros H (o' & [[= ->]|Hin]%elem_of_cons & Ho'); [|by eauto].
    apply IsRedeem_owner in E. done.
Qed.

Lemma zk_issueInput_Ok ims i inp : zk_issueInput ims i inp = Ok tt ->
  exists im, ims !! i = Some im /\ exists a x, inp = Some a /\ im = Some x /\ forall id, IIM_TokenID x = Some id -> id = zii_ID a.
Proof.
  unfold zk_issueInput. destruct inp as [a|]; [|done]. intros H. apply res_bind_Ok in H as (? & _ & H). apply res_bind_Ok in H as (im & Him & H).
  unfold index in Him. destruct (ims !! i) as [im'|] eqn:E; [injection Him as ->|done]. exists im. split; [done|]. destruct im as [x'|]; [|done].
  exists a, x'. split_and!; try done. intros id Hid. rewrite Hid in H. by apply reject_if_Ok, negb_false_iff, ID_Equal_true in H.
Qed.

Lemma ZIssueAuditValidate_Ok gens c action :
  ZIssueAuditValidate MatchIdentity Recipients Zr_UnmarshalJSON proto_TokenMetadata gens c = Ok tt -> ac_IssueAction c = Some action ->
  exists e m, TRM_Actions (ac_TokenRequestMetadata c) !! ac_ActionIndex c = Some (Some e) /\ AM_IssueMetadata e = Some m /\
    zk_issue_audited gens (app_IssuerIDs (ac_PP c)) (ac_AuditTokens c) action m.
Proof.
  unfold ZIssueAuditValidate. intros H Ha. rewrite Ha in H. apply res_bind_Ok in H as (e & He%entry_at_Ok & H).
  destruct (AM_IssueMetadata e) as [m|] eqn:Em; [|done]. exists e, m. split_and!; [done..|].
  apply res_bind_Ok in H as ([] & Hm%wrap_Ok%IssueMetadata_Match_exact & H). apply res_bind_Ok in H as ([] & Hi & H).
  apply res_bind_Ok in H as ([] & Ho & H). apply res_bind_Ok in H as ([] & Ht%wrap_Ok & H). pose proof (issue_inputs_Ok _ _ _ Ht) as Hk.
  pose proof (zlen_inj _ _ (imt_inputs _ _ Hm)) as Hni. pose proof (zlen_inj _ _ (imt_outputs _ _ Hm)) as Hno.
  split; [done| | |].
  - eapply rangeR_Forall2 in Hi as [Hl Hi]%Forall2_same_length_lookup; [|done|apply zk_issueInput_Ok].
    apply Forall2_same_length_lookup. split; [done|]. intros k inp im H1 H2. destruct (Hi k inp im H1 H2) as (a & x & -> & -> & Hid).
    exists a, x. split_and!; [done..|]. intros id E. split; [by apply Hid|]. eapply Hk; [|done]. by eapply list_elem_of_lookup_2.
  - eapply rangeR_Forall2; [done|apply zk_issueOutput_Ok|done].
  - apply res_bind_Ok in H as ([] & Hins%wrap_Ok%InspectIdentity_exact & H%reject_if_Ok). cbn in Hins. split; [apply Hins|].
    intros Hne%zlen_nil. rewrite Hne in H. cbn in H. apply negb_false_iff in H. by apply existsb_Identity.
Qed.

Lemma ZTransferAuditValidate_Ok gens precision c action :
  ZTransferAuditValidate MatchIdentity Recipients Zr_UnmarshalJSON proto_TokenMetadata gens precision c = Ok tt -> ac_TransferAction c = Some action ->
  exists e m, TRM_Actions (ac_TokenRequestMetadata c) !! ac_ActionIndex c = Some (Some e) /\ AM_TransferMetadata e = Some m /\
    zk_transfer_audited gens (app_IssuerIDs (ac_PP c)) (ac_AuditTokens c) action m.
Proof.
  unfold ZTransferAuditValidate. intros H Ha. rewrite Ha in H. apply res_bind_Ok in H as (e & He%entry_at_Ok & H).
  destruct (AM_TransferMetadata e) as [m|] eqn:Em; [|done]. exists e, m. split_and!; [done..|].
  apply res_bind_Ok in H as ([] & Hm%wrap_Ok%TransferMetadata_Match_exact & H). apply res_bind_Ok in H as ([] & Hi & H).
  apply res_bind_Ok in H as ([] & Ho & H). apply res_bind_Ok in H as ([] & Ht%wrap_Ok & H). apply res_bind_Ok in H as (r & Hr & H).
  pose proof (zlen_inj _ _ (tmt_inputs _ _ Hm)) as Hni. pose proof (zlen_inj _ _ (tmt_outputs _ _ Hm)) as Hno. split; [done|..].
  - eapply rangeR_Forall2; [done|apply zk_transferInput_Ok|done].
  - eapply rangeR_Forall2; [done|apply zk_transferOutput_Ok|done].
  - by eapply ValidateTransferTypes_Ok.
  - intros Hred Hne. apply (zk_redeem_dec _ _ Hr) in Hred as ->. pose proof (tmt_issuer _ _ Hm) as Hu. cbn [TA_GetIssuer ZTransferAction_I] in Hu.
    rewrite Hu in H. apply IsNone_false in Hne. rewrite Hne in H. cbn in H. unfold validateRedeemIssuer in H.
    destruct (existsb _ _) eqn:E; [|done]. apply existsb_exists in E as (x & Hin & E%Identity_Equal_spec). rewrite <- E. by apply list_elem_of_In.
Qed.

(** ** Requests *)

Context (proto_IssueAction : bytes -> res PzIssueAction) (proto_TransferAction : bytes -> res PzTransferAction).

Abbreviation transfer_of := (audit_TransferAction_Deserialize G1_UnmarshalJSON Zr_UnmarshalJSON proto_TransferAction).
Abbreviation issue_of := (audit_IssueAction_Deserialize G1_UnmarshalJSON proto_IssueAction).

(** What the auditor has established of the action at a position. *)
Definition zk_action_audited (PP : ZkPP) (trm : TokenRequestMetadata) (toks : audit_tokens) (i : nat) (action : TypedAction) : Prop :=
  exists e, TRM_Actions trm !! i = Some (Some e) /\ entry_for i action e /\
  ((exists a m, issue_of (TA_Raw action) = Ok a /\ AM_IssueMetadata e = Some m /\
      zk_issue_audited (zp_PedersenGenerators (zpp_params PP)) (zpp_Issuers PP) toks a m) \/
   (exists a m, transfer_of (TA_Raw action) = Ok a /\ AM_TransferMetadata e = Some m /\
      zk_transfer_audited (zp_PedersenGenerators (zpp_params PP)) (zpp_Issuers PP) toks a m)).

Abbreviation audit := (ZAuditorCheck MatchIdentity Recipients G1_UnmarshalJSON Zr_UnmarshalJSON proto_TokenMetadata proto_IssueAction proto_TransferAction).

Lemma zk_audit_accepted `{!QueryEngine W} PP n request metadata anchor (w w' : W) :
  audit PP n request metadata anchor w = (Ok tt, w') ->
  exists tr trm toks, request = Some tr /\ metadata = Some trm /\
    length (Actions tr) = length (TRM_Actions trm) /\
    NoDup (ID_String <$> spent_ids (TRM_Actions trm)) /\
    RetrieveAuditTokens (spent_ids (TRM_Actions trm)) n w = (Ok toks, w') /\
    forall i a, Actions tr !! i = Some a -> exists action, a = Some action /\ zk_action_audited PP trm toks i action.
Proof.
  intros H. unfold ZAuditorCheck in H. eapply AuditorCheck_Ok in H as (tr & trm & toks & -> & -> & Hnd & Hr & [Hl Hs]%ValidateStructure_exact & Hc); [|done].
  exists tr, trm, toks. split_and!; try done. intros i a Hi. destruct (Hs i a Hi) as (action & e & -> & He & Hf).
  exists action. split; [done|]. exists e. split_and!; [done..|].
  destruct (Hc i action Hi) as [(_ & x & Hx & Hv)|(_ & x & Hx & Hv)]; apply res_bind_Ok in Hv as ([] & Hv & _).
  - left. apply ZIssueAuditValidate_Ok with (action := x) in Hv as (e' & m & He' & Hm & Hmm); [|done].
    cbn in He'. assert (e' = e) as -> by congruence. by exists x, m.
  - right. apply ZTransferAuditValidate_Ok with (action := x) in Hv as (e' & m & He' & Hm & Hmm); [|done].
    cbn in He'. assert (e' = e) as -> by congruence. by exists x, m.
Qed.


(** An input of a transfer of the request, by the positions of the action and
    of the input. *)
Definition transfer_input_at (tr : TokenRequest) (i k : nat) (id : ID) : Prop :=
  exists action a inp, Actions tr !! i = Some (Some action) /\ TA_Type action = ACTION_TYPE_TRANSFER /\
    transfer_of (TA_Raw action) = Ok a /\ ZT_Inputs a !! k = Some (Some inp) /\ zin_ID inp = Some id.

Lemma NoDup_concat_lookup {A} (ll : list (list A)) : NoDup (concat ll) -> forall i j a b k l x,
  ll !! i = Some a -> ll !! j = Some b -> a !! k = Some x -> b !! l = Some x -> i = j /\ k = l.
Proof.
  induction ll as [|c ll IH]; intros Hnd i j a b k l x Hi Hj Hk Hl; [done|]. cbn in Hnd. apply NoDup_app in Hnd as (Hc & Hd & Hll).
  assert (forall m y z, ll !! m = Some y -> z ∈ y -> z ∈ concat ll) as Hin.
  { intros m y z Hm Hz. apply list_elem_of_In, in_concat. exists y. split; apply list_elem_of_In; [by eapply list_elem_of_lookup_2|done]. }
  destruct i as [|i], j as [|j]; cbn in Hi, Hj; simplify_eq.
  - split; [done|]. exact (NoDup_lookup _ _ _ _ Hc Hk Hl).
  - exfalso. eapply Hd; [by eapply list_elem_of_lookup_2|]. eapply Hin; [done|]. by eapply list_elem_of_lookup_2.
  - exfalso. eapply Hd; [by eapply list_elem_of_lookup_2|]. eapply Hin; [done|]. by eapply list_elem_of_lookup_2.
  - destruct (IH Hll i j a b k l x) as [-> ->]; done.
Qed.

(** The ids of the metadata of a checked transfer, position by position. *)
Lemma transfer_entry_ids gens issuers toks a m e k inp id : zk_transfer_audited gens issuers toks a m ->
  AM_TransferMetadata e = Some m -> ZT_Inputs a !! k = Some (Some inp) -> zin_ID inp = Some id -> entry_ids e !! k = Some id.
Proof.
  intros [_ Hin _ (ts & ty & Hts & _) _] He Hk Hid. unfold entry_ids. rewrite He.
  assert (exists ids, omap Datatypes.id (TransferMetadata_TokenIDs m) = ids /\ Forall2 (fun im id => exists i, im = Some i /\ TIM_TokenID i = Some id) (TM_Inputs m) ids)
    as (ids & -> & HF).
  { clear Hin Hk. unfold TransferMetadata_TokenIDs. induction Hts as [|im t l ts (i & x & -> & Hx & _) _ (ids & IH & HF)]; [by exists []|].
    exists (x :: ids). cbn. rewrite Hx. cbn. split; [by f_equal|]. constructor; [by exists i|done]. }
  apply lookup_app_l_Some. destruct (Forall2_lookup_l _ _ _ _ _ Hin Hk) as (im & Him & (i' & m' & tok & id' & s & [= <-] & -> & _ & Hid' & _ & _ & Hm & _)).
  destruct (Forall2_lookup_l _ _ _ _ _ HF Him) as (x & Hx & (m'' & [= <-] & Hm'')). rewrite Hx. f_equal. rewrite (Hm _ Hm''). congruence.
Qed.

(** C26: an auditor of the zero-knowledge driver accepts a request only if the
    metadata has one entry per action, of its kind and at its position, and the
    store holds the tokens it names.  For an issue, the issuer is matched by its
    audit information and is one of those configured, if any are; every output's
    commitment is opened by the disclosed type, value and blinding factor, its
    owner is matched by its audit information, and the receivers are the
    recipients of the owner in order, none empty, each matched by its audit
    information.  For a transfer, every input's owner is the disclosed sender,
    matched by its audit information where the input has an owner, its id is the
    disclosed one if one is disclosed, and all retrieved tokens have one type;
    every output's commitment is opened likewise; the owner and the receivers of
    an output are matched as those of an issue unless the output is redeemed: of
    redeemed outputs only the opening is checked, and of the issuer a redeem names
    only that it is one of those configured, since its audit information is not
    inspected.  (That receivers of a transfer must not be empty is what the code
    does, contrary to its comment.) *)
Theorem zk_audit_sound `{!QueryEngine W} PP n request metadata anchor (w w' : W) :
  audit PP n request metadata anchor w = (Ok tt, w') ->
  exists tr trm toks, request = Some tr /\ metadata = Some trm /\ length (Actions tr) = length (TRM_Actions trm) /\
    (spent_ids (TRM_Actions trm) <> [] -> exists w1 tokens, ListAuditTokens (spent_ids (TRM_Actions trm)) w1 = (Ok tokens, w') /\
       forall i id, spent_ids (TRM_Actions trm) !! i = Some id -> exists t, tokens !! i = Some t /\ toks !! ID_String id = Some t) /\
    forall i a, Actions tr !! i = Some a -> exists action, a = Some action /\ zk_action_audited PP trm toks i action.
Proof.
  intros (tr & trm & toks & -> & -> & Hl & Hnd & Hr & Ha)%zk_audit_accepted. exists tr, trm, toks. split_and!; try done.
  intros Hne. by eapply Retrieve_Ok.
Qed.

(** No token is spent twice in a request an auditor of the zero-knowledge
    driver accepts: an id occurs as the input of one transfer, at one position. *)
Theorem zk_audit_no_double_spend `{!QueryEngine W} PP n tr metadata anchor (w w' : W) i j k l id :
  audit PP n (Some tr) metadata anchor w = (Ok tt, w') ->
  transfer_input_at tr i k id -> transfer_input_at tr j l id -> i = j /\ k = l.
Proof.
  intros (tr' & trm & toks & [= <-] & -> & Hlen & Hnd & _ & Ha)%zk_audit_accepted Hi Hj.
  assert (Hall : None ∉ TRM_Actions trm).
  { intros (x & Hx)%list_elem_of_lookup. destruct (lookup_lt_is_Some_2 (Actions tr) x) as [y Hy].
    { rewrite Hlen. by eapply lookup_lt_Some. }
    destruct (Ha x y Hy) as (? & -> & e & He & _). congruence. }
  destruct (all_some _ Hall) as [es Hes]. unfold spent_ids in Hnd. rewrite Hes, omap_some in Hnd. apply NoDup_fmap_1 in Hnd.
  assert (Hx : forall i k, transfer_input_at tr i k id -> exists ids, (entry_ids <$> es) !! i = Some ids /\ ids !! k = Some id).
  { clear i j k l Hi Hj. intros i k (action & a & inp & Hi & Ht & Hd & Hk & Hid). destruct (Ha i _ Hi) as (? & [= <-] & e & He & [_ Hf] & Hv).
    rewrite Hes, list_lookup_fmap in He. destruct (es !! i) as [e'|] eqn:Ee; [|done]. injection He as ->.
    exists (entry_ids e). rewrite list_lookup_fmap, Ee. split; [done|]. destruct Hv as [(? & m & _ & Hm & _)|(a' & m & Hd' & Hm & Hv)].
    - destruct Hf as [[Hf _]|(_ & tm & _ & Hf)]; [by rewrite Ht in Hf|congruence].
    - assert (a' = a) as -> by congruence. by eapply transfer_entry_ids. }
  destruct (Hx i k Hi) as (a & Ha1 & Ha2), (Hx j l Hj) as (b & Hb1 & Hb2). by eapply NoDup_concat_lookup.
Qed.

(** The receivers of an output are checked in the same way for issues and
    transfers: with and without the demand for non-empty identities the check
    accepts exactly the lists of receivers that name the recipients of the owner
    in order, each with matching audit information.  The empty identity the flag
    is meant to allow for transfers is rejected by the inspection that follows. *)
Theorem receivers_flag_irrelevant owner receivers :
  validateOutputReceivers MatchIdentity Recipients owner receivers false = Ok tt <->
  validateOutputReceivers MatchIdentity Recipients owner receivers true = Ok tt.
Proof. by rewrite !validateOutputReceivers_exact. Qed.
End ZkAuditSafety.

(** ** Requests on the small curve *)

Module SmallAudit.
Import F5 Small.

Definition scalar_JSON (raw : bytes) : res (ZkCodec.wire F) := Ok (Own (of_bytes raw)).
Definition matcher (id info : bytes) : res unit := if bool_decide (info = id ++ str "-info") then Ok tt else Err (EMsg "no match").
Definition recipients (owner : bytes) : res (list bytes) := Ok [owner].
Definition PP : ZkPP := mkZkPP _ pp None 64 [str "issuer"] [str "auditor"].

(** An opening as raw metadata: the type, then one byte for each scalar. *)
Definition opening (typ : string) (v bf : F) (issuer : option bytes) : PTokenMetadata :=
  mkPTokenMetadata (str typ) (Some (bytes_of v)) (Some (bytes_of bf)) issuer.
Definition token_metadata (raw : bytes) : res PTokenMetadata :=
  Ok (if bool_decide (raw = str "sent") then opening "EUR" f3 f1 None
      else if bool_decide (raw = str "burnt") then opening "USD" f4 f2 None else opening "EUR" f2 f4 (Some (str "issuer"))).
Definition wrapped (raw : string) : bytes := TypedToken_Bytes comm_Type (str raw).
Definition commits (typ : string) (v bf : F) : option bytes :=
  Some (z2b 5 :: bytes_of (add (add (mul f1 (hash (str typ))) (mul f2 v)) (mul f3 bf))).

Definition proof : option PProof := Some (PProof_Proof (str "proof")).
Definition input (tx : string) : option PzInput := Some (mkPzInput (Some (mkID (str tx) 0)) (Some (mkPzToken (str "alice") (commits "EUR" f3 f0))) None).
Definition sent : PzTransferAction := mkPzTransfer 1 [input "tx1"] [Some (Some (mkPzToken (str "bob") (commits "EUR" f3 f1)))] proof [] None.
Definition burnt : PzTransferAction := mkPzTransfer 1 [input "tx2"] [Some (Some (mkPzToken [] (commits "USD" f4 f2)))] proof [] None.
Definition issued : PzIssueAction :=
  mkPzIssue 1 (Some (str "issuer")) [] [Some (Some (mkPzToken (str "bob") (commits "EUR" f2 f4)))] proof [].
Definition transfer_message (raw : bytes) : res PzTransferAction := Ok (if bool_decide (raw = str "sent") then sent else burnt).
Definition issue_message (_ : bytes) : res PzIssueAction := Ok issued.

Definition who (name : string) : option AuditableIdentity := Some (mkAuditableIdentity (Some (str name)) (str name ++ str "-info")).
Definition sender (tx : string) : option TransferInputMetadata := Some (mkTransferInputMetadata (Some (mkID (str tx) 0)) [who "alice"]).
Definition nobody : AuditableIdentity := mkAuditableIdentity None [].

Definition sent_metadata : ActionMetadataEntry := mkActionMetadataEntry 1 None (Some (mkTransferMetadata [sender "tx1"]
  [Some (mkTransferOutputMetadata (wrapped "sent") (str "bob-info") [who "bob"])] [] nobody)).
Definition burnt_metadata (i : Z) : ActionMetadataEntry := mkActionMetadataEntry i None (Some (mkTransferMetadata [sender "tx2"]
  [Some (mkTransferOutputMetadata (wrapped "burnt") [] [])] [] nobody)).
Definition issued_metadata : ActionMetadataEntry := mkActionMetadataEntry 0 (Some (mkIssueMetadata
  (mkAuditableIdentity (Some (str "issuer")) (str "issuer-info")) [] [Some (mkIssueOutputMetadata (wrapped "issued") (str "bob-info") [who "bob"])] [])) None.

Definition request (actions : list (Z * string)) : TokenRequest :=
  mkTokenRequest 1 ((fun a => Some (mkTypedAction (fst a) (str (snd a)))) <$> actions) [].
Definition whole : TokenRequest := request [(ACTION_TYPE_ISSUE, "issued"%string); (ACTION_TYPE_TRANSFER, "sent"%string)].
Definition whole_metadata : TokenRequestMetadata := mkTokenRequestMetadata [Some issued_metadata; Some sent_metadata] [].
Definition redeem : TokenRequest := request [(ACTION_TYPE_TRANSFER, "burnt"%string)].
Definition redeem_metadata : TokenRequestMetadata := mkTokenRequestMetadata [Some (burnt_metadata 0)] [].

(** The auditor's store: every token is three euros. *)
Definition in_store : Token := mkToken (str "alice") (str "EUR") (str "3").
#[export] Instance store : QueryEngine unit := {|
  ListAuditTokens ids w := (Ok ((fun _ => Some in_store) <$> ids), w);
  IsPending _ w := (Ok false, w);
  retry_wait w := (false, w);
  ctx_Err := EMsg "context canceled";
|}.

Abbreviation small_audit :=
  (ZAuditorCheck (IO := bytes_identity) (CO := curve) matcher recipients scalar_JSON scalar_JSON token_metadata issue_message transfer_message PP 3).

Lemma whole_accepted : small_audit (Some whole) (Some whole_metadata) (str "tx") tt = (Ok tt, tt).
Proof. vm_compute. reflexivity. Qed.

(** The second action as the auditor decodes it, and its input. *)
Definition sent_point (v bf : F) : commitment := Some (Own (of_bytes (default [] (commits "EUR" v bf)))).
Definition sent_input : ZActionInput := mkZInput (Some (mkID (str "tx1") 0)) (Some (mkzToken (str "alice") (sent_point f3 f0))) None.
Definition sent_action : ZTransferAction :=
  mkZTransferAction [Some sent_input] [Some (mkzToken (str "bob") (sent_point f3 f1))] RangeProofType (str "proof") [] None None.

Lemma whole_input : transfer_input_at scalar_JSON scalar_JSON transfer_message whole 1 0 (mkID (str "tx1") 0).
Proof.
  exists (mkTypedAction ACTION_TYPE_TRANSFER (str "sent")), sent_action, sent_input.
  split; [reflexivity|]. split; [reflexivity|]. split; [vm_cast_no_check (eq_refl (Ok sent_action))|]. split; reflexivity.
Qed.
End SmallAudit.

Section Witnesses.
Import F5 Small SmallAudit.

Lemma zk_audit_sound_witness : exists tr trm toks, Some whole = Some tr /\ Some whole_metadata = Some trm /\ length (Actions tr) = length (TRM_Actions trm) /\
  forall i a, Actions tr !! i = Some a -> exists action, a = Some action /\
    zk_action_audited (IO := bytes_identity) (CO := curve) matcher recipients scalar_JSON scalar_JSON token_metadata
      issue_message transfer_message PP trm toks i action.
Proof.
  destruct (zk_audit_sound (IO := bytes_identity) (CO := curve) matcher recipients scalar_JSON scalar_JSON token_metadata
    issue_message transfer_message PP 3 (Some whole) (Some whole_metadata) (str "tx") tt tt whole_accepted) as (tr & trm & toks & H1 & H2 & H3 & _ & H4).
  exists tr, trm, toks. split; [exact H1|]. split; [exact H2|]. split; [exact H3|exact H4].
Defined.

Lemma zk_audit_no_double_spend_witness : small_audit (Some whole) (Some whole_metadata) (str "tx") tt = (Ok tt, tt) /\ (1 = 1 /\ 0 = 0)%nat.
Proof.
  split; [exact whole_accepted|].
  exact (zk_audit_no_double_spend (IO := bytes_identity) (CO := curve) matcher recipients scalar_JSON scalar_JSON token_metadata
    issue_message transfer_message PP 3 whole (Some whole_metadata) (str "tx") tt tt 1 1 0 0 (mkID (str "tx1") 0) whole_accepted whole_input whole_input).
Defined.

(** What an audit by the zero-knowledge driver does not check.  The auditor
    accepts the redemption of an output that opens to four dollars out of an
    input its own store knows as three euros, and without an issuer although the
    public parameters list one. *)
Theorem zk_audit_unbalanced :
  small_audit (Some redeem) (Some redeem_metadata) (str "tx") tt = (Ok tt, tt) /\
  (Token_Type in_store, Token_Quantity in_store) = (str "EUR", str "3") /\
  token_metadata (str "burnt") = Ok (opening "USD" f4 f2 None) /\ zpp_Issuers PP = [str "issuer"] /\ pzt_Issuer burnt = None.
Proof. vm_compute. done. Qed.
End Witnesses.
