(* ===== verification/ZkTokens.v ===== *)
(** * Tokens services (zkatdlog/nogh/v1/token/service.go, fabtoken.go and the
      codecs of token.go, core/fabtoken/v1/tokens.go, services/utils/hashable.go)

    The wallets' view of tokens: the formats a driver supports, the opening of
    commitments with the metadata a counterparty sends, and the local upgrade of
    cleartext tokens.  Elements of any curve of the library can reach this code,
    so commitments are computed on elements tagged with their curve; the library
    on the other curves is the class [ForeignCurves].  The extraction of
    recipients and the protobuf and JSON codecs are parameters. *)

From S2P Require Import Prelude GoStd Quantity Der TokenTypes Asn1 Request Limits Metadata Auditor FabtokenActions ZkMath ZkIpa ZkRange ZkSigma ZkCodec ZkTransfer Csp CspTransfer ZkActions ZkValidator ZkSetup ZkAudit.
From Stdlib Require Import ZArith Lia.
Local Open Scope Z_scope.

(** ** Formats (services/utils/hashable.go: [Hasher]) *)

Definition AddInt32 (i : Z) : bytes := le_bytes 4 i.
Definition AddInt (i : Z) : bytes := le_bytes 8 i.
Definition AddUInt64 (i : Z) : bytes := le_bytes 8 i.

(** What was written to the hasher, hashed. *)
Definition Digest (written : bytes) : bytes := sha256 written.
Definition HexDigest (written : bytes) : bytes := hex_EncodeToString (sha256 written).

(** core/fabtoken/v1/tokens.go: [SupportedTokenFormat]. *)
Definition fab_SupportedTokenFormat (precision : Z) : bytes := HexDigest (AddInt32 fabtoken_Type ++ str "x509" ++ AddUInt64 precision).

(** The formats of cleartext tokens, [Precisions]. *)
Definition Precisions : list (bytes * Z) := (fun p => (fab_SupportedTokenFormat p, p)) <$> [16; 32; 64].
Definition in_Precisions (format : bytes) : bool := existsb (fun '(f, _) => bool_decide (f = format)) Precisions.

(** ** Commitments on elements of any curve *)

Class ForeignCurves := {
  fc_HashToZr : Z -> bytes -> bytes;
  fc_NewZrFromUint64 : Z -> Z -> bytes;
  fc_NewG1 : Z -> bytes;
  fc_Mul : Z -> bytes -> bytes -> bytes;
  fc_Add : Z -> bytes -> bytes -> bytes;
  fc_Equals : Z -> bytes -> bytes -> bool;
  fc_String : Z -> bytes -> bytes;
  fc_IsInfinity : Z -> bytes -> bool;
  fc_Bytes : Z -> bytes -> bytes;
}.

Section Wires.
Context {CO : Curve} {NA : Native} {WI : Wire} {FC : ForeignCurves}.
Context (Zr_String : Zr -> bytes).

Definition wHashToZr (curve : Z) (b : bytes) : wire Zr := if curve =? curve_id then Own (HashToZr b) else Foreign curve (fc_HashToZr curve b).
Definition wNewZr (curve v : Z) : wire Zr := if curve =? curve_id then Own (NewZrFromUint64 v) else Foreign curve (fc_NewZrFromUint64 curve v).
Definition wNewG1 (curve : Z) : wire G1 := if curve =? curve_id then Own NewG1 else Foreign curve (fc_NewG1 curve).

(** An operation on elements of two curves panics. *)
Definition wMul (g : wire G1) (z : wire Zr) : res (wire G1) :=
  match g, z with
  | Own g, Own z => Ok (Own (g ⋅ z)%g1)
  | Foreign c g, Foreign c' z => if c =? c' then Ok (Foreign c (fc_Mul c g z)) else Panic
  | _, _ => Panic
  end.

Definition wAdd (g h : wire G1) : res (wire G1) :=
  match g, h with
  | Own g, Own h => Ok (Own (g + h)%g1)
  | Foreign c g, Foreign c' h => if c =? c' then Ok (Foreign c (fc_Add c g h)) else Panic
  | _, _ => Panic
  end.

Definition wEquals (g h : wire G1) : res bool :=
  match g, h with
  | Own g, Own h => Ok (bool_decide (g = h))
  | Foreign c g, Foreign c' h => if c =? c' then Ok (fc_Equals c g h) else Panic
  | _, _ => Panic
  end.

Definition wString (z : wire Zr) : bytes := match z with Own z => Zr_String z | Foreign c b => fc_String c b end.

(** [commit]. *)
Fixpoint wcommit_loop (com : wire G1) (vector : list (option (wire Zr))) (generators : list commitment) : res (wire G1) :=
  match vector with
  | [] => Ok com
  | None :: _ => Err zk_ErrNilCommitElement
  | Some v :: vector =>
      match generators with
      | [] => Panic
      | g :: generators => g ← deref g; gv ← wMul g v; com ← wAdd com gv; wcommit_loop com vector generators
      end
  end.

Definition wcommit (curve : Z) (vector : list (option (wire Zr))) (generators : list commitment) : res (wire G1) :=
  if (length generators <? length vector)%nat then Err (EMsg "insufficient generators: expecting at least")
  else wcommit_loop (wNewG1 curve) vector generators.

(** [math.CheckBaseElement]. *)
Definition check_base_element (curveID : Z) (o : option (wire Zr)) : res unit :=
  match o with
  | None => Err (EMsg "element is nil")
  | Some w => if negb (of_curve w curveID) then Err (EMsg "element curve must equal curve ID") else Ok tt
  end.

(** [Token.ToClear]. *)
Definition wToClear (t : zToken) (meta : TokenMetadata) (pp : PublicParams) : res Token :=
  curve ← curve_lookup (sp_Curve pp);
  com ← wrap "cannot retrieve token in the clear: failed to check token data"
    (wcommit curve [Some (wHashToZr curve (wm_Type meta)); wm_Value meta; wm_BlindingFactor meta] (sp_PedersenGenerators pp));
  data ← deref (zt_Data t);
  eq ← wEquals com data;
  if negb eq then Err zk_ErrTokenMismatch else
  v ← deref (wm_Value meta);
  Ok (mkToken (zt_Owner t) (wm_Type meta) (str "0x" ++ wString v)).

(** [GetTokensWithWitness] for one value: the commitment and the blinding
    factor the reader [rand] yields. *)
Definition wGetToken (rand : res (wire Zr)) (curve value : Z) (tokenType : bytes) (generators : list commitment) : res (wire G1 * wire Zr) :=
  bf ← wrap "cannot get tokens with witness" rand;
  tok ← wrap "cannot get tokens with witness" (wrap "failed to compute token"
    (wcommit curve [Some (wHashToZr curve tokenType); Some (wNewZr curve value); Some bf] generators));
  Ok (tok, bf).

(** ** Formats of commitments *)

Definition zk_SupportedTokenFormat (pp : PublicParams) (precision : Z) : res bytes :=
  points ← mapM deref (sp_PedersenGenerators pp);
  Ok (HexDigest (AddInt32 comm_Type ++ AddInt (sp_Curve pp) ++ AddUInt64 precision ++ concat ((wire_Bytes fc_Bytes) <$> points))).

Definition CommTokenFormats (pp : PublicParams) : res (list bytes) :=
  maxPrecision ← BitLength pp;
  mapM (fun precision => wrap "failed computing comm token format with precision" (zk_SupportedTokenFormat pp precision))
    (List.filter (fun precision => negb (precision >? maxPrecision)) SupportedPrecisions).

(** ** The service; [pp] is what the manager of the public parameters returns
    at the call *)

Record TokensService := mkTokensService { ts_OutputTokenFormat : bytes; ts_SupportedTokenFormatList : list bytes }.

Definition NewTokensService (pp : PublicParams) : res TokensService :=
  maxPrecision ← BitLength pp;
  outputTokenFormat ← wrap "failed computing comm token types" (zk_SupportedTokenFormat pp maxPrecision);
  formats ← wrap "failed computing comm token types" (CommTokenFormats pp);
  Ok (mkTokensService outputTokenFormat
        (formats ++ (fab_SupportedTokenFormat <$> List.filter (fun precision => precision <=? maxPrecision) [16; 32; 64]))).

Context (ident_Recipients : bytes -> res (list bytes)).
Context (G1_UnmarshalJSON : bytes -> res (wire G1)) (Zr_UnmarshalJSON : bytes -> res (wire Zr)).
Context (proto_UnmarshalToken : bytes -> res PzToken) (proto_TokenMetadata : bytes -> res PTokenMetadata).
Context (json_Output : bytes -> res Output) (json_OutputMetadata : bytes -> res bytes).

(** [Token.Deserialize]. *)
Definition zToken_Deserialize (b : bytes) : res zToken :=
  typed ← wrap "failed deserializing token" (comm_UnmarshalTypedToken b);
  if negb (tt_Type typed =? comm_Type) then Err (EMsg "invalid token type") else
  token ← wrap "failed unmarshalling token" (proto_UnmarshalToken (tt_Token typed));
  data ← FromG1Proto G1_UnmarshalJSON (pzt_Data token);
  Ok (mkzToken (pzt_Owner token) data).

(** core/fabtoken/v1/actions/output.go: [Output.Deserialize] and
    [OutputMetadata.Deserialize]. *)
Definition fabtoken_UnmarshalTypedToken (token : bytes) : res TypedToken :=
  ttoken ← wrap "failed unmarshalling token" (UnmarshalTypedToken token);
  if negb (tt_Type ttoken =? fabtoken_Type) then Err (EMsg "invalid token type") else Ok ttoken.

Definition Output_Deserialize (b : bytes) : res Output :=
  typed ← wrap "failed deserializing token" (fabtoken_UnmarshalTypedToken b);
  json_Output (tt_Token typed).

Definition OutputMetadata_Deserialize (b : bytes) : res bytes :=
  typed ← wrap "failed deserializing metadata" (fabtoken_UnmarshalTypedToken b);
  json_OutputMetadata (tt_Token typed).

(** fabtoken.go: [q.Uint64()] keeps the low 64 bits. *)
Definition ParseFabtokenToken (tok : bytes) (maxPrecision : Z) : res (Output * Z) :=
  output ← wrap "failed to unmarshal fabtoken" (Output_Deserialize tok);
  q ← wrap "failed to create quantity" (NewUBigQuantity (Token_Quantity output) maxPrecision);
  v ← ToBigInt q;
  Ok (output, u64 v).

Definition zk_Recipients (output : bytes) : res (list bytes) :=
  tok ← wrap "failed to deserialize token" (zToken_Deserialize output);
  wrap "failed to get recipients" (ident_Recipients (zt_Owner tok)).

Definition getOutput (pp : PublicParams) (outputRaw : bytes) (checkOwner : bool) : res zToken :=
  output ← wrap "failed to deserialize token" (zToken_Deserialize outputRaw);
  if checkOwner && (zlen (zt_Owner output) =? 0) then Err (EMsg "token owner not found in output") else
  wrap "data is invalid in output" (check_element fc_IsInfinity (sp_Curve pp) (zt_Data output)) ;;
  Ok output.

Definition deserializeTokenWithOutputTokenFormat (pp : PublicParams) (outputRaw metadataRaw : bytes) : res (zToken * TokenMetadata) :=
  output ← wrap "failed getting token output" (getOutput pp outputRaw false);
  metadata ← wrap "failed to deserialize token metadata" (Metadata_Deserialize Zr_UnmarshalJSON proto_TokenMetadata metadataRaw);
  Ok (output, metadata).

Definition deserializeCommToken (pp : PublicParams) (outputRaw metadataRaw : bytes) (checkOwner : bool) : res (zToken * TokenMetadata * Token) :=
  output ← wrap "failed getting token output" (getOutput pp outputRaw checkOwner);
  metadata ← wrap "failed to deserialize token metadata" (Metadata_Deserialize Zr_UnmarshalJSON proto_TokenMetadata metadataRaw);
  tok ← wrap "failed to deserialize token" (wToClear output metadata pp);
  Ok (output, metadata, tok).

(** A token in the clear, its issuer, its recipients and its format. *)
Definition revealed : Type := Token * bytes * list bytes * bytes.

Definition deobfuscateAsCommType (s : TokensService) (pp : PublicParams) (output outputMetadata : bytes) : res revealed :=
  '(_, metadata, tok) ← wrap "failed to deobfuscate token" (deserializeCommToken pp output outputMetadata false);
  recipients ← wrap "failed to get recipients" (ident_Recipients (Token_Owner tok));
  Ok (tok, wm_Issuer metadata, recipients, ts_OutputTokenFormat s).

Definition deobfuscateAsFabtokenType (s : TokensService) (output outputMetadata : bytes) : res revealed :=
  tok ← wrap "failed unmarshalling token" (Output_Deserialize output);
  issuer ← wrap "failed unmarshalling token information" (OutputMetadata_Deserialize outputMetadata);
  recipients ← wrap "failed to get recipients" (ident_Recipients (Token_Owner tok));
  Ok (mkToken (Token_Owner tok) (Token_Type tok) (Token_Quantity tok), issuer, recipients, ts_OutputTokenFormat s).

Definition Deobfuscate (s : TokensService) (pp : PublicParams) (output outputMetadata : bytes) : res revealed :=
  match deobfuscateAsCommType s pp output outputMetadata with
  | Ok r => Ok r
  | Panic => Panic
  | Err _ => wrap "failed to deobfuscate token" (deobfuscateAsFabtokenType s output outputMetadata)
  end.

(** The token, its opening and, for a cleartext token, the witness of its local
    upgrade; [rand] is the reader of the curve. *)
Definition DeserializeToken (s : TokensService) (pp : PublicParams) (rand : res (wire Zr)) (outputFormat outputRaw metadataRaw : bytes)
  : res (zToken * TokenMetadata * option UpgradeWitness) :=
  if negb (bool_decide (outputFormat ∈ ts_SupportedTokenFormatList s)) then Err (EMsg "invalid token format, expected one of") else
  if bool_decide (outputFormat = ts_OutputTokenFormat s) then
    '(tok, meta) ← wrap "failed to deserialize token with output token format" (deserializeTokenWithOutputTokenFormat pp outputRaw metadataRaw);
    Ok (tok, meta, None)
  else
  if negb (in_Precisions outputFormat) then Err (EMsg "unsupported token format") else
  '(fabToken, value) ← wrap "failed to unmarshal fabtoken token" (ParseFabtokenToken outputRaw (sp_QuantityPrecision pp));
  curve ← curve_lookup (sp_Curve pp);
  '(com, bf) ← wrap "failed to compute commitment" (wGetToken rand curve value (Token_Type fabToken) (sp_PedersenGenerators pp));
  Ok (mkzToken (Token_Owner fabToken) (Some com),
      mkTokenMetadata (Token_Type fabToken) (Some (wNewZr curve value)) (Some bf) [],
      Some (mkUpgradeWitness (Some fabToken) (Some bf))).

(** core/fabtoken/v1/tokens.go: the service of the cleartext driver. *)
Definition fab_NewTokensService (precision : Z) : TokensService := mkTokensService (fab_SupportedTokenFormat precision) [fab_SupportedTokenFormat precision].

Definition fab_Recipients (output : bytes) : res (list bytes) :=
  tok ← wrap "failed unmarshalling token" (Output_Deserialize output);
  wrap "failed to get recipients" (ident_Recipients (Token_Owner tok)).

Definition fab_Deobfuscate (s : TokensService) (output outputMetadata : bytes) : res revealed := deobfuscateAsFabtokenType s output outputMetadata.

(** ** Encoding of openings ([Metadata.Serialize]) *)

Context (Zr_MarshalJSON : wire Zr -> res bytes) (proto_MarshalTokenMetadata : PTokenMetadata -> res bytes).

Definition Metadata_Serialize (m : TokenMetadata) : res bytes :=
  value ← wrap "failed to serialize metadata" (ToProtoZr Zr_MarshalJSON (wm_Value m));
  bf ← wrap "failed to serialize metadata" (ToProtoZr Zr_MarshalJSON (wm_BlindingFactor m));
  raw ← wrap "failed serializing token" (proto_MarshalTokenMetadata (mkPTokenMetadata (wm_Type m) (Some value) (Some bf) (Some (wm_Issuer m))));
  Ok (TypedToken_Bytes comm_Type raw).
End Wires.

(** ** What the service returns *)

Section TokensProofs.
Context {CO : Curve} {CL : CurveLaws} {NA : Native} {WI : Wire} {WL : WireLaws} {FC : ForeignCurves}.

Lemma typed_tlv typ raw : TypedToken_Bytes typ raw = tlv tagSequence (tlv tagInteger (encodeInt32 typ) ++ tlv tagOctetString raw).
Proof using Type. unfold TypedToken_Bytes, EncodeIdentity. by rewrite !appendTLV_eq. Qed.

(** A type tag is read back. *)
Lemma typed_read typ raw : typ = fabtoken_Type \/ typ = comm_Type -> small (TypedToken_Bytes typ raw) ->
  UnmarshalTypedToken (TypedToken_Bytes typ raw) = Ok (mkTypedToken typ raw).
Proof using Type.
  intros Ht Hs. rewrite typed_tlv in *.
  assert (exists c, encodeInt32 typ = [c] /\ parse_int [c] = Ok typ /\ (typ <? -2147483648) || (typ >? 2147483647) = false) as (c & Hc & Hp & Hr).
  { destruct Ht as [->| ->]; eexists; split_and!; by vm_compute. }
  rewrite Hc in *.
  pose proof (tlv_bounds tagSequence (tlv tagInteger [c] ++ tlv tagOctetString raw)) as B1.
  pose proof (tlv_bounds tagOctetString raw) as B2. pose proof (zlen_nonneg (tlv tagInteger [c])) as B3. unfold small in *. rewrite zlen_app in B1.
  unfold UnmarshalTypedToken, TypedToken_asn1. rewrite <- (app_nil_r (tlv tagSequence _)), parse_tagged_tlv; [|done|unfold small; rewrite zlen_app; lia].
  cbn [mbind res_mbind]. rewrite parse_tagged_tlv; [|done|done]. cbn [mbind res_mbind]. rewrite Hp. cbn [mbind res_mbind]. rewrite Hr.
  rewrite <- (app_nil_r (tlv tagOctetString raw)), parse_tagged_tlv; [done|done|unfold small; lia].
Qed.

(** On the curve of the driver the commitments are those of the driver. *)
Lemma wcommit_own vs gens : wcommit curve_id ((fun v => Some (Own v)) <$> vs) (present_points gens)
  = (c ← commit (Some <$> vs) gens; Ok (Own c)).
Proof using Type.
  unfold wcommit, commit, present_points. rewrite !length_fmap. destruct (_ <? _)%nat; [done|]. unfold wNewG1. rewrite Z.eqb_refl. generalize NewG1.
  revert gens. induction vs as [|v vs IH]; intros gens com; [done|]. destruct gens as [|g gens]; [done|]. cbn. apply IH.
Qed.

(** The opening [typ], [v], [bf] of a commitment under public parameters. *)
Definition opens (pp : PublicParams) (data : wire G1) (typ : bytes) (v bf : wire Zr) : Prop :=
  exists com, wcommit (sp_Curve pp) [Some (wHashToZr (sp_Curve pp) typ); Some v; Some bf] (sp_PedersenGenerators pp) = Ok com /\ wEquals com data = Ok true.

Lemma curve_lookup_Ok id c : curve_lookup id = Ok c -> c = id.
Proof using Type. unfold curve_lookup. destruct (_ || _); [done|]. by intros [= ->]. Qed.

Lemma wcommit_present curve vs gens com : wcommit curve vs gens = Ok com -> Forall is_Some vs.
Proof using Type.
  unfold wcommit. destruct (_ <? _)%nat; [done|]. generalize (wNewG1 curve). revert gens. induction vs as [|[v|] vs IH]; intros gens c H; [constructor| |done].
  destruct gens as [|g gens]; [done|]. cbn in H. apply res_bind_Ok in H as (? & _ & H). apply res_bind_Ok in H as (? & _ & H). apply res_bind_Ok in H as (? & _ & H).
  constructor; [by eexists|by eapply IH].
Qed.

Lemma wToClear_Ok Zr_String t meta pp tok : wToClear Zr_String t meta pp = Ok tok <->
  curve_lookup (sp_Curve pp) = Ok (sp_Curve pp) /\ exists data v bf, zt_Data t = Some data /\ wm_Value meta = Some v /\ wm_BlindingFactor meta = Some bf /\ opens pp data (wm_Type meta) v bf /\
    tok = mkToken (zt_Owner t) (wm_Type meta) (str "0x" ++ wString Zr_String v).
Proof using Type.
  unfold wToClear, opens. split.
  - intros (c & Hc & H)%res_bind_Ok. pose proof (curve_lookup_Ok _ _ Hc) as ->. apply res_bind_Ok in H as (com & Hcom%wrap_Ok & H). apply res_bind_Ok in H as (data & Hd & H).
    apply res_bind_Ok in H as ([] & Heq & H); [|done]. cbn [negb] in H. apply res_bind_Ok in H as (v & Hv & [= <-]).
    pose proof (wcommit_present _ _ _ _ Hcom) as HF. apply Forall_cons in HF as [_ HF]. apply Forall_cons in HF as [_ HF]. apply Forall_cons in HF as [[bf Hbf] _].
    destruct (zt_Data t) as [d|]; [|done]. injection Hd as ->. destruct (wm_Value meta) as [v'|]; [|done]. injection Hv as ->. rewrite Hbf in Hcom.
    split; [done|]. exists data, v, bf. split_and!; try done. by exists com.
  - intros (-> & data & v & bf & Hd & Hv & Hbf & (com & Hcom & Heq) & ->). cbn [mbind res_mbind]. rewrite Hv, Hbf, Hcom. cbn [wrap mbind res_mbind]. rewrite Hd.
    cbn [deref mbind res_mbind]. by rewrite Heq.
Qed.

(** ** Encoding and decoding *)

Section Codecs.
Context (G1_MarshalJSON : wire G1 -> res bytes) (G1_UnmarshalJSON : bytes -> res (wire G1)).
Context (Zr_MarshalJSON : wire Zr -> res bytes) (Zr_UnmarshalJSON : bytes -> res (wire Zr)).
Context (proto_MarshalToken : PzToken -> res bytes) (proto_UnmarshalToken : bytes -> res PzToken).
Context (proto_MarshalTokenMetadata : PTokenMetadata -> res bytes) (proto_TokenMetadata : bytes -> res PTokenMetadata).

(** The codecs of the libraries read back what they wrote. *)
Record codec_laws : Prop := {
  cl_G1 w b : G1_MarshalJSON w = Ok b -> b <> [] /\ G1_UnmarshalJSON b = Ok w;
  cl_Zr w b : Zr_MarshalJSON w = Ok b -> b <> [] /\ Zr_UnmarshalJSON b = Ok w;
  cl_token m b : proto_MarshalToken m = Ok b -> proto_UnmarshalToken b = Ok m;
  cl_metadata m b : proto_MarshalTokenMetadata m = Ok b -> proto_TokenMetadata b = Ok m;
}.
Context (CDL : codec_laws).

Lemma Zr_read w b : ToProtoZr Zr_MarshalJSON (Some w) = Ok b -> FromZrProto Zr_UnmarshalJSON (Some b) = Ok (Some w).
Proof using CDL. intros H. destruct (cl_Zr CDL w b H) as [_ Hr]. cbn [FromZrProto]. by rewrite Hr. Qed.

Lemma token_read t raw : zToken_Serialize G1_MarshalJSON proto_MarshalToken t = Ok raw -> small raw ->
  zToken_Deserialize G1_UnmarshalJSON proto_UnmarshalToken raw = Ok t.
Proof using CDL.
  unfold zToken_Serialize. intros (data & Hd%wrap_Ok & H)%res_bind_Ok. apply res_bind_Ok in H as (b & Hb%wrap_Ok & [= <-]). intros Hs.
  unfold zToken_Deserialize, comm_UnmarshalTypedToken. rewrite typed_read; [|by right|done]. cbn [wrap mbind res_mbind tt_Type tt_Token]. rewrite Z.eqb_refl. cbn [negb mbind res_mbind wrap tt_Token tt_Type].
  rewrite Z.eqb_refl. cbn [negb]. rewrite (cl_token CDL _ _ Hb). cbn [wrap mbind res_mbind pzt_Data pzt_Owner]. rewrite (G1_read G1_MarshalJSON G1_UnmarshalJSON (cl_G1 CDL) _ _ Hd). by destruct t.
Qed.

(** A nil scalar is written as an empty message, which is not read back. *)
Lemma metadata_read m v0 bf0 raw : wm_Value m = Some v0 -> wm_BlindingFactor m = Some bf0 ->
  Metadata_Serialize Zr_MarshalJSON proto_MarshalTokenMetadata m = Ok raw -> small raw ->
  Metadata_Deserialize Zr_UnmarshalJSON proto_TokenMetadata raw = Ok m.
Proof using CDL.
  unfold Metadata_Serialize. intros Ev Ebf. rewrite Ev, Ebf. intros (v & Hv%wrap_Ok & H)%res_bind_Ok. apply res_bind_Ok in H as (bf & Hbf%wrap_Ok & H). apply res_bind_Ok in H as (b & Hb%wrap_Ok & [= <-]). intros Hs.
  unfold Metadata_Deserialize, comm_UnmarshalTypedToken. rewrite typed_read; [|by right|done]. cbn [wrap mbind res_mbind tt_Type tt_Token]. rewrite Z.eqb_refl. cbn [negb mbind res_mbind wrap tt_Token].
  rewrite (cl_metadata CDL _ _ Hb). cbn [wrap mbind res_mbind ptm_Type ptm_Value ptm_BlindingFactor ptm_Issuer]. rewrite (Zr_read _ _ Hv), (Zr_read _ _ Hbf). cbn. rewrite <- Ev, <- Ebf. by destruct m.
Qed.

(** ** Opening *)

Context (Zr_String : Zr -> bytes) (ident_Recipients : bytes -> res (list bytes)) (json_Output : bytes -> res Output) (json_OutputMetadata : bytes -> res bytes).
Local Notation Reveal := (Deobfuscate Zr_String ident_Recipients G1_UnmarshalJSON Zr_UnmarshalJSON proto_UnmarshalToken proto_TokenMetadata json_Output json_OutputMetadata).

Lemma commType_Ok s pp raw mraw r : deobfuscateAsCommType Zr_String ident_Recipients G1_UnmarshalJSON Zr_UnmarshalJSON proto_UnmarshalToken proto_TokenMetadata s pp raw mraw = Ok r <->
  exists t m data v bf rs, zToken_Deserialize G1_UnmarshalJSON proto_UnmarshalToken raw = Ok t /\ Metadata_Deserialize Zr_UnmarshalJSON proto_TokenMetadata mraw = Ok m /\
    check_element fc_IsInfinity (sp_Curve pp) (zt_Data t) = Ok tt /\ curve_lookup (sp_Curve pp) = Ok (sp_Curve pp) /\
    zt_Data t = Some data /\ wm_Value m = Some v /\ wm_BlindingFactor m = Some bf /\ opens pp data (wm_Type m) v bf /\ ident_Recipients (zt_Owner t) = Ok rs /\
    r = (mkToken (zt_Owner t) (wm_Type m) (str "0x" ++ wString Zr_String v), wm_Issuer m, rs, ts_OutputTokenFormat s).
Proof using Type.
  clear CDL. unfold deobfuscateAsCommType, deserializeCommToken, getOutput. split.
  - intros ([[o m] tok] & H%wrap_Ok & H')%res_bind_Ok. apply res_bind_Ok in H as (t & Ht%wrap_Ok & H). apply res_bind_Ok in H as (m' & Hm%wrap_Ok & H). apply res_bind_Ok in H as (tok' & Hc%wrap_Ok & [= -> -> ->]).
    apply res_bind_Ok in Ht as (t' & Ht%wrap_Ok & He). cbn [andb] in He. apply res_bind_Ok in He as ([] & He%wrap_Ok & [= ->]).
    apply wToClear_Ok in Hc as (Hl & data & v & bf & Hd & Hv & Hbf & Ho & ->). apply res_bind_Ok in H' as (rs & Hrs%wrap_Ok & [= <-]). by exists o, m, data, v, bf, rs.
  - intros (t & m & data & v & bf & rs & Ht & Hm & He & Hl & Hd & Hv & Hbf & Ho & Hrs & ->). rewrite Ht. cbn [wrap mbind res_mbind andb]. rewrite He. cbn [wrap mbind res_mbind]. rewrite Hm. cbn [wrap mbind res_mbind].
    rewrite (proj2 (wToClear_Ok Zr_String t m pp (mkToken (zt_Owner t) (wm_Type m) (str "0x" ++ wString Zr_String v)))); [|split; [done|by exists data, v, bf]].
    cbn [wrap mbind res_mbind Token_Owner]. by rewrite Hrs.
Qed.

Lemma reveal_sent s pp t m raw mraw data v bf rs : zToken_Serialize G1_MarshalJSON proto_MarshalToken t = Ok raw -> small raw ->
  Metadata_Serialize Zr_MarshalJSON proto_MarshalTokenMetadata m = Ok mraw -> small mraw ->
  curve_lookup (sp_Curve pp) = Ok (sp_Curve pp) -> check_element fc_IsInfinity (sp_Curve pp) (zt_Data t) = Ok tt ->
  zt_Data t = Some data -> wm_Value m = Some v -> wm_BlindingFactor m = Some bf -> opens pp data (wm_Type m) v bf -> ident_Recipients (zt_Owner t) = Ok rs ->
  Reveal s pp raw mraw = Ok (mkToken (zt_Owner t) (wm_Type m) (str "0x" ++ wString Zr_String v), wm_Issuer m, rs, ts_OutputTokenFormat s).
Proof using CDL.
  intros Hr Sr Hm Sm Hl He Hd Hv Hbf Ho Hrs. unfold Deobfuscate. rewrite (proj2 (commType_Ok s pp raw mraw
    (mkToken (zt_Owner t) (wm_Type m) (str "0x" ++ wString Zr_String v), wm_Issuer m, rs, ts_OutputTokenFormat s))); [done|].
  exists t, m, data, v, bf, rs. split_and!; try done; [by apply token_read|by apply (metadata_read m v bf)].
Qed.

(** An opening of another curve makes the arithmetic panic. *)
Lemma reveal_foreign s pp p0 p1 p2 t m raw mraw c b : zToken_Deserialize G1_UnmarshalJSON proto_UnmarshalToken raw = Ok t ->
  Metadata_Deserialize Zr_UnmarshalJSON proto_TokenMetadata mraw = Ok m -> sp_Curve pp = curve_id -> sp_PedersenGenerators pp = present_points [p0; p1; p2] ->
  check_element fc_IsInfinity (sp_Curve pp) (zt_Data t) = Ok tt -> wm_Value m = Some (Foreign c b) -> Reveal s pp raw mraw = Panic.
Proof using WL.
  intros Ht Hm Hc Hg He Hv. unfold Deobfuscate, deobfuscateAsCommType, deserializeCommToken, getOutput. rewrite Ht. cbn [wrap mbind res_mbind andb]. rewrite He.
  cbn [wrap mbind res_mbind]. rewrite Hm. cbn [wrap mbind res_mbind]. unfold wToClear. rewrite Hc, curve_lookup_own. cbn [mbind res_mbind]. unfold wcommit. rewrite Hg, Hv.
  unfold wNewG1, wHashToZr. rewrite Z.eqb_refl. done.
Qed.
End Codecs.

(** ** The local upgrade *)

Lemma ToQuantity_of_big b p q : NewUBigQuantity b p = Ok q -> exists q', ToQuantity b p = Ok q' /\ forall v, ToBigInt q = Ok v -> exists v', ToBigInt q' = Ok v' /\ u64 v' = u64 v.
Proof using Type.
  unfold NewUBigQuantity, ToQuantity. destruct (p =? 0); [done|]. destruct (SetString0 b) as [v|]; [|done]. intros ([] & -> & [= <-])%res_bind_Ok. cbn [mbind res_mbind].
  destruct (p =? 64); eexists; (split; [done|]); cbn; intros ? [= <-]; eexists; (split; [done|]); [|done]. unfold u64. by rewrite Z.mod_mod.
Qed.

Lemma own_gens pp PP : own_params pp = Ok PP -> sp_PedersenGenerators pp = present_points (zp_PedersenGenerators (zpp_params PP)) /\ zpp_QuantityPrecision PP = sp_QuantityPrecision pp.
Proof using Type.
  unfold own_params. intros (gens & Hg & H)%res_bind_Ok. apply res_bind_Ok in H as (r & _ & H). apply res_bind_Ok in H as (cc & _ & [= <-]). cbn. split; [|done].
  revert gens Hg. unfold points_of. induction (sp_PedersenGenerators pp) as [|o l IH]; intros gens Hg; [by injection Hg as <-|]. rewrite mapM_cons_res in Hg.
  apply res_bind_Ok in Hg as (x & Hx & Hg). apply res_bind_Ok in Hg as (xs & Hxs & [= <-]). destruct o as [[y|]|]; try done. injection Hx as ->. unfold present_points. rewrite fmap_cons. by rewrite (IH xs Hxs).
Qed.

Lemma upgrade_accepted Zr_UnmarshalJSON proto_TokenMetadata G1_UnmarshalJSON proto_UnmarshalToken json_Output s pp PP rand format raw meta tok m w id n :
  own_params pp = Ok PP -> sp_Curve pp = curve_id ->
  DeserializeToken G1_UnmarshalJSON Zr_UnmarshalJSON proto_UnmarshalToken proto_TokenMetadata json_Output s pp rand format raw meta = Ok (tok, m, Some w) -> zt_Owner tok <> [] ->
  upgradeInput PP n (Some (mkZInput id (Some tok) (Some w))) = Ok tt /\
  exists data v bf, zt_Data tok = Some data /\ wm_Value m = Some v /\ wm_BlindingFactor m = Some bf /\ opens pp data (wm_Type m) v bf.
Proof using WL.
  intros HPP Hc H Hne. destruct (own_gens pp PP HPP) as [Hg Hq]. unfold DeserializeToken in H. destruct (negb _); [done|]. case_bool_decide.
  { by apply res_bind_Ok in H as ([? ?] & _ & ?). }
  destruct (negb _); [done|]. apply res_bind_Ok in H as ([fab value] & Hp%wrap_Ok & H). rewrite Hc, curve_lookup_own in H. cbn [mbind res_mbind] in H.
  apply res_bind_Ok in H as ([com bf] & Hcom%wrap_Ok & [= <- <- <-]). unfold ParseFabtokenToken in Hp. apply res_bind_Ok in Hp as (o & _ & Hp). apply res_bind_Ok in Hp as (q & HqQ%wrap_Ok & Hp).
  apply res_bind_Ok in Hp as (v & Hv & [= <- <-]). destruct (ToQuantity_of_big _ _ _ HqQ) as (q' & Hq' & Hval). destruct (Hval v Hv) as (v' & Hv' & Ev).
  unfold wGetToken in Hcom. apply res_bind_Ok in Hcom as (bf' & _ & Hcom). apply res_bind_Ok in Hcom as (c & Hcm%wrap_Ok%wrap_Ok & [= -> ->]).
  assert (exists z, bf = Own z) as [z ->].
  { destruct bf as [z|]; [by exists z|]. exfalso. rewrite Hg in Hcm. unfold wcommit, wHashToZr, wNewZr, wNewG1 in Hcm. rewrite Z.eqb_refl in Hcm.
    destruct (zp_PedersenGenerators (zpp_params PP)) as [|g0 [|g1 [|g2 gs]]]; done. }
  assert (Hcm' := Hcm). rewrite Hg in Hcm'. unfold wHashToZr, wNewZr in Hcm'. rewrite Z.eqb_refl in Hcm'.
  assert (wcommit curve_id ((fun v => Some (Own v)) <$> [HashToZr (Token_Type o); NewZrFromUint64 (u64 v); z]) (present_points (zp_PedersenGenerators (zpp_params PP))) = Ok com) as Hw by exact Hcm'.
  rewrite wcommit_own in Hw. apply res_bind_Ok in Hw as (c & Hcc & [= <-]). cbn [zt_Owner] in Hne. split.
  - unfold upgradeInput. cbn [deref mbind res_mbind zin_UpgradeWitness uw_FabToken uw_BlindingFactor zin_Token zt_Data zt_Owner]. rewrite Hq, Hq'. cbn [wrap mbind res_mbind]. rewrite Hv'.
    cbn [mbind res_mbind own_opt own]. unfold GetTokensWithWitnessAndBF, computeTokens. cbn [length Nat.eqb negb zip_with mt_Type mt_Value mt_BlindingFactor]. rewrite mapM_cons_res. cbn [mt_Type mt_Value mt_BlindingFactor].
    rewrite Ev. cbn [fmap list_fmap] in Hcc. rewrite Hcc. cbn. rewrite bool_decide_true by done. cbn [negb].
    destruct (Token_Owner o) as [|x l]; [done|]. cbn. by rewrite bool_decide_true.
  - cbn [zt_Data wm_Value wm_BlindingFactor wm_Type]. eexists _, _, _. split_and!; [done..|]. exists (Own c). rewrite Hc. split; [exact Hcm|]. cbn. by rewrite bool_decide_true.
Qed.
End TokensProofs.
