(* ===== verification/Upgrade.v ===== *)
(** * The upgrade service (zkatdlog/nogh/v1/crypto/upgrade/service.go, proof.go,
      pphistory.go)

    Tokens a driver cannot spend as they are, cleartext tokens of a higher
    precision and commitments of earlier public parameters, are re-issued: the
    owner signs a challenge of the issuer together with the tokens, the issuer
    opens the tokens and checks the signatures.  The public parameters that
    produced a commitment are found in the history of the node, a cache over its
    store that concurrent requests fill. *)

From S2P Require Import Prelude GoStd Quantity Der TokenTypes Asn1 Request Limits Metadata Auditor FabtokenActions ZkMath ZkIpa ZkRange ZkSigma ZkCodec ZkTransfer Csp CspTransfer ZkActions ZkValidator ZkSetup ZkAudit ZkTokens.
From Stdlib Require Import ZArith Lia.
Local Open Scope Z_scope.

Definition ChallengeSize : Z := 32.
Definition MaxUpgradeRequestTokens : Z := 256.
Definition ErrPublicParamsNotFound : error := EMsg "public parameters not found".

(** ** proof.go *)

Record UpgradeProof := mkUpgradeProof {
  up_Challenge : bytes;
  up_Tokens : list LedgerToken;
  up_Signatures : list bytes;
  up_PublicParamsHashes : list bytes;
}.

Definition token_written (t : LedgerToken) : bytes :=
  TxId (LedgerToken_ID t) ++ AddUInt64 (Index (LedgerToken_ID t)) ++ LedgerToken_Token t ++ LedgerToken_TokenMetadata t ++ LedgerToken_Format t.

Definition SHA256Digest (ch : bytes) (tokens : list LedgerToken) : bytes := Digest (ch ++ concat (token_written <$> tokens)).

Section Upgrade.
Context {CO : Curve} {NA : Native} {WI : Wire} {CC : CspCurve} {FC : ForeignCurves}.
Context (Zr_String : Zr -> bytes).
Context (G1_UnmarshalJSON : bytes -> res (wire G1)) (Zr_UnmarshalJSON : bytes -> res (wire Zr)).
Context (proto_UnmarshalToken : bytes -> res PzToken) (proto_TokenMetadata : bytes -> res PTokenMetadata).
Context (json_Output : bytes -> res Output).
Context (proto_UnmarshalPP : bytes -> res PPublicParameters) (json_UnmarshalPP : bytes -> res PContainer).

(** ** pphistory.go *)

Record PPHistory := mkPPHistory {
  hi_byHash : gmap bytes PublicParams;
  hi_byFormat : gmap bytes (PublicParams * bytes);
  hi_step : nat;
}.

Definition NewPublicParamsHistory : PPHistory := mkPPHistory ∅ ∅ 0.

(** The store at a step, and what other goroutines do to the two maps before
    it. *)
Context (PublicParamsHashes : nat -> res (list bytes)) (PublicParamsByHash : nat -> bytes -> res bytes).
Context (others : nat -> gmap bytes PublicParams * gmap bytes (PublicParams * bytes) -> gmap bytes PublicParams * gmap bytes (PublicParams * bytes)).

Definition H (A : Type) : Type := M PPHistory A.

(** The mutex is taken: others may have run. *)
Definition lock (h : PPHistory) : PPHistory :=
  let '(a, b) := others (hi_step h) (hi_byHash h, hi_byFormat h) in mkPPHistory a b (S (hi_step h)).

Definition load (raw : bytes) : res PublicParams :=
  pp ← wrap "failed to deserialize the public parameters with hash" (NewPublicParamsFromBytes G1_UnmarshalJSON proto_UnmarshalPP json_UnmarshalPP raw DLogNoGHDriverName setup_ProtocolV1);
  let '(valid, pp) := PublicParams_Validate fc_IsInfinity fc_Bytes pp in
  wrap "invalid public parameters with hash" valid ;;
  Ok pp.

Definition byHashCached (hash : bytes) : H PublicParams :=
  modifyS lock ;;
  h ← getS;
  match hi_byHash h !! hash with
  | Some pp => mret pp
  | None =>
      raw ← wrapM "failed to load the public parameters with hash" (lift (PublicParamsByHash (hi_step h) hash));
      if zlen raw =? 0 then lift (Err (EWrap ErrPublicParamsNotFound "no public parameters stored with hash")) else
      pp ← lift (load raw);
      modifyS lock ;;
      modifyS (fun h => mkPPHistory (<[hash := pp]> (hi_byHash h)) (hi_byFormat h) (hi_step h)) ;;
      mret pp
  end.

Definition ByHashAndFormat (hash format : bytes) : H PublicParams :=
  lift (reject_if (zlen hash =? 0) (EMsg "no public parameters hash provided for token format")) ;;
  lift (reject_if (zlen format =? 0) (EMsg "no token format provided")) ;;
  pp ← byHashCached hash;
  formats ← wrapM "failed computing the token formats of public parameters" (lift (CommTokenFormats pp));
  if negb (bool_decide (format ∈ formats)) then lift (Err (EMsg "public parameters do not generate token format")) else
  modifyS lock ;;
  modifyS (fun h => match hi_byFormat h !! format with
                    | Some _ => h
                    | None => mkPPHistory (hi_byHash h) (<[format := (pp, hash)]> (hi_byFormat h)) (hi_step h)
                    end) ;;
  mret pp.

(** The loop over the stored hashes: an entry that cannot be used is skipped. *)
Fixpoint scan_hashes (format : bytes) (hashes : list bytes) (skipped : nat) : H (PublicParams * bytes) :=
  match hashes with
  | [] => lift (Err (EMsg (if (skipped =? 0)%nat then "no stored public parameters generate token format"
                           else "no stored public parameters generate token format; stored entries were unusable, see the warnings above")))
  | hash :: rest => fun h =>
      match byHashCached hash h with
      | (Panic, h) => (Panic, h)
      | (Err _, h) => scan_hashes format rest (S skipped) h
      | (Ok pp, h) =>
          match CommTokenFormats pp with
          | Panic => (Panic, h)
          | Err _ => scan_hashes format rest (S skipped) h
          | Ok formats =>
              if negb (bool_decide (format ∈ formats)) then scan_hashes format rest skipped h else
              let h := lock h in
              (Ok (pp, hash), mkPPHistory (hi_byHash h) (<[format := (pp, hash)]> (hi_byFormat h)) (hi_step h))
          end
      end
  end.

Definition ByFormat (format : bytes) : H (PublicParams * bytes) :=
  lift (reject_if (zlen format =? 0) (EMsg "no token format provided")) ;;
  modifyS lock ;;
  h ← getS;
  match hi_byFormat h !! format with
  | Some r => mret r
  | None =>
      hashes ← wrapM "failed to list the stored public parameters" (lift (PublicParamsHashes (hi_step h)));
      scan_hashes format hashes 0
  end.

(** ** service.go *)

Record UpgradeService := mkUpgradeService {
  us_MaxPrecision : Z;
  us_UpgradeSupportedTokenFormatList : list bytes;
  us_SupportedTokenFormatList : list bytes;
  us_PublicParamsHistory : bool;
}.

Definition NewUpgradeService (maxPrecision : Z) (supportedTokenFormats : list bytes) (publicParamsHistory : bool) : UpgradeService :=
  mkUpgradeService maxPrecision (fab_SupportedTokenFormat <$> List.filter (fun precision => precision >? maxPrecision) [16; 32; 64]) supportedTokenFormats publicParamsHistory.

(** The random reader fills the challenge. *)
Definition NewUpgradeChallenge (rand : res bytes) : res bytes :=
  key ← wrap "error getting random bytes" rand;
  reject_if (negb (zlen key =? ChallengeSize)) (EMsg "invalid key size") ;;
  Ok key.

Definition checkUpgradable (s : UpgradeService) (format : bytes) : H unit :=
  if bool_decide (format ∈ us_SupportedTokenFormatList s) then lift (Err (EMsg "upgrade of already supported token format requested")) else
  if bool_decide (format ∈ us_UpgradeSupportedTokenFormatList s) then mret tt else
  if negb (us_PublicParamsHistory s) then lift (Err (EMsg "upgrade of unsupported token format requested")) else
  _ ← wrapM "upgrade of unsupported token format requested" (ByFormat format);
  mret tt.

Definition processFabtoken (s : UpgradeService) (tok : LedgerToken) : res Token :=
  '(fabToken, _) ← wrap "failed to check unspent tokens" (ParseFabtokenToken json_Output (LedgerToken_Token tok) (us_MaxPrecision s));
  Ok (mkToken (Token_Owner fabToken) (Token_Type fabToken) (Token_Quantity fabToken)).

Definition processCommToken (tok : LedgerToken) (pp : PublicParams) : res Token :=
  output ← wrap "failed to deserialize the commitment of token" (zToken_Deserialize G1_UnmarshalJSON proto_UnmarshalToken (LedgerToken_Token tok));
  wrap "invalid commitment token" (zToken_Validate true output) ;;
  wrap "invalid commitment in token" (check_element fc_IsInfinity (sp_Curve pp) (zt_Data output)) ;;
  metadata ← wrap "failed to deserialize the opening of token" (Metadata_Deserialize Zr_UnmarshalJSON proto_TokenMetadata (LedgerToken_TokenMetadata tok));
  reject_if (zlen (wm_Type metadata) =? 0) (EWrap zk_ErrEmptyType "invalid opening of token") ;;
  wrap "invalid value in the opening of token" (check_base_element (sp_Curve pp) (wm_Value metadata)) ;;
  wrap "invalid blinding factor in the opening of token" (check_base_element (sp_Curve pp) (wm_BlindingFactor metadata)) ;;
  wrap "failed to open the commitment of token" (wToClear Zr_String output metadata pp).

(** One token of [ProcessTokens], with the hash of the public parameters that
    opened it and whether it is a commitment. *)
Definition processToken (s : UpgradeService) (tok : LedgerToken) : H (Token * bytes * bool) :=
  if in_Precisions (LedgerToken_Format tok) then
    parsed ← lift (processFabtoken s tok);
    mret (parsed, [], false)
  else if negb (us_PublicParamsHistory s) then lift (Err (EMsg "unsupported token format"))
  else
    '(pp, hash) ← wrapM "unsupported token format" (ByFormat (LedgerToken_Format tok));
    parsed ← lift (processCommToken tok pp);
    mret (parsed, hash, true).

Definition ProcessTokens (s : UpgradeService) (ledgerTokens : list LedgerToken) : H (list Token * list bytes) :=
  l ← mapM (processToken s) ledgerTokens;
  mret ((fun r => r.1.1) <$> l, if existsb snd l then (fun r => r.1.2) <$> l else []).

(** The public parameters a proof names; those this node does not store are
    looked up by the format. *)
Definition resolve (hash format : bytes) : H PublicParams := fun h =>
  match ByHashAndFormat hash format h with
  | (Err err, h) =>
      if negb (errors_Is err ErrPublicParamsNotFound) then (Err (EWrap err "failed to resolve the public parameters of token"), h) else
      match ByFormat format h with
      | (Ok (pp, _), h) => (Ok pp, h)
      | (Err fallbackErr, h) => (Err (EWrap (EJoin err fallbackErr) "failed to resolve the public parameters of token"), h)
      | (Panic, h) => (Panic, h)
      end
  | r => r
  end.

Definition processTokenWith (s : UpgradeService) (tok : LedgerToken) (hash : bytes) : H Token :=
  if in_Precisions (LedgerToken_Format tok) then
    lift (reject_if (negb (zlen hash =? 0)) (EMsg "unexpected public parameters hash for fabtoken entry")) ;;
    lift (processFabtoken s tok)
  else if negb (us_PublicParamsHistory s) then lift (Err (EMsg "unsupported token format"))
  else
    lift (reject_if (zlen hash =? 0) (EMsg "no public parameters hash provided for token")) ;;
    pp ← resolve hash (LedgerToken_Format tok);
    lift (processCommToken tok pp).

Definition processTokensWith (s : UpgradeService) (ledgerTokens : list LedgerToken) (ppHashes : list bytes) : H (list Token) :=
  lift (reject_if (negb (zlen ppHashes =? 0) && negb (zlen ppHashes =? zlen ledgerTokens)) (EMsg "proof with invalid number of public parameters hashes")) ;;
  mapM (fun '(tok, i) => processTokenWith s tok (nth i ppHashes [])) (zip ledgerTokens (seq 0 (length ledgerTokens))).

(** ** Proofs; identities and the JSON codec are those of other packages *)

Context (GetOwnerVerifier : bytes -> res (bytes -> bytes -> res unit)) (GetSigner : bytes -> res (bytes -> res bytes)).
Context (json_MarshalProof : UpgradeProof -> res bytes) (json_UnmarshalProof : bytes -> res UpgradeProof).

Definition sign_token (digest : bytes) (tok : Token) : res bytes :=
  signer ← wrap "failed to get identity signer" (GetSigner (Token_Owner tok));
  wrap "failed to get signature" (signer digest).

Definition GenUpgradeProof (s : UpgradeService) (ch : bytes) (ledgerTokens : list LedgerToken) (witness : bytes) : H bytes :=
  lift (reject_if (negb (zlen ch =? ChallengeSize)) (EMsg "invalid challenge size")) ;;
  lift (reject_if (zlen ledgerTokens =? 0) (EMsg "no ledger tokens provided")) ;;
  lift (reject_if (negb (zlen witness =? 0)) (EMsg "proof witness not expected")) ;;
  '(tokens, ppHashes) ← wrapM "failed to process ledgerTokens upgrade request" (ProcessTokens s ledgerTokens);
  signatures ← lift (mapM (sign_token (SHA256Digest ch ledgerTokens)) tokens);
  wrapM "failed to serialize proof" (lift (json_MarshalProof (mkUpgradeProof ch ledgerTokens signatures ppHashes))).

Definition match_tokens (proofTokens ledgerTokens : list LedgerToken) : res unit :=
  rangeR (fun _ '(t, lt) => reject_if (negb (LedgerToken_Equal t lt)) (EMsg "tokens do not match at index")) 0 (zip proofTokens ledgerTokens).

Definition verify_signature (digest : bytes) (p : Token * bytes) : res unit :=
  verifier ← wrap "failed to get owner verifier" (GetOwnerVerifier (Token_Owner p.1));
  wrap "failed to verify signature at index" (verifier digest p.2).

Definition checkUpgradeProof (s : UpgradeService) (ch proofRaw : bytes) (ledgerTokens : list LedgerToken) : H (list Token) :=
  lift (reject_if (negb (zlen ch =? ChallengeSize)) (EMsg "invalid challenge size")) ;;
  lift (reject_if (zlen ledgerTokens =? 0) (EMsg "no ledger tokens provided")) ;;
  lift (reject_if (zlen ledgerTokens >? MaxUpgradeRequestTokens) (EMsg "too many ledger tokens provided")) ;;
  lift (reject_if (zlen proofRaw =? 0) (EMsg "no proof provided")) ;;
  proof ← wrapM "failed to deserialize proof" (lift (json_UnmarshalProof proofRaw));
  lift (reject_if (negb (zlen (up_Tokens proof) =? zlen ledgerTokens)) (EMsg "proof with invalid token count")) ;;
  lift (match_tokens (up_Tokens proof) ledgerTokens) ;;
  lift (reject_if (negb (bool_decide (up_Challenge proof = ch))) (EMsg "proof with invalid challenge")) ;;
  lift (reject_if (negb (zlen (up_Signatures proof) =? zlen ledgerTokens)) (EMsg "proof with invalid number of token signatures")) ;;
  let digest := SHA256Digest (up_Challenge proof) (up_Tokens proof) in
  tokens ← wrapM "failed to process ledgerTokens" (processTokensWith s (up_Tokens proof) (up_PublicParamsHashes proof));
  lift (rangeR (fun _ => verify_signature digest) 0 (zip tokens (up_Signatures proof))) ;;
  mret tokens.

Definition CheckUpgradeProof (s : UpgradeService) (ch proof : bytes) (tokens : list LedgerToken) : H bool :=
  _ ← checkUpgradeProof s ch proof tokens;
  mret true.

(** The formats of the request, each once, in order. *)
Fixpoint check_formats (s : UpgradeService) (checked : list bytes) (tokens : list LedgerToken) : H unit :=
  match tokens with
  | [] => mret tt
  | tok :: rest =>
      let f := LedgerToken_Format tok in
      if bool_decide (f ∈ checked) then check_formats s checked rest
      else checkUpgradable s f ;; check_formats s (f :: checked) rest
  end.

Record TokenUpgradeRequest := mkTokenUpgradeRequest { ur_Challenge : bytes; ur_Tokens : list LedgerToken; ur_Proof : bytes }.

Definition ProcessTokensUpgradeRequest (s : UpgradeService) (utp : option TokenUpgradeRequest) : H (list Token) :=
  match utp with
  | None => lift (Err (EMsg "nil token upgrade request"))
  | Some utp =>
      lift (reject_if (zlen (ur_Tokens utp) >? MaxUpgradeRequestTokens) (EMsg "upgrade request carries too many tokens")) ;;
      check_formats s [] (ur_Tokens utp) ;;
      wrapM "failed to check upgrade proof" (checkUpgradeProof s (ur_Challenge utp) (ur_Proof utp) (ur_Tokens utp))
  end.
End Upgrade.
