(* ===== verification/UpgradeSafety.v ===== *)
(** * What the upgrade service guarantees

    An upgraded token is what the ledger token says, opened under public
    parameters that produced its format, and signed for by its owner; no request
    makes the service panic; the cache of the history never answers with other
    parameters than those stored, whatever concurrent requests do.  An honest
    owner's proof is accepted. *)

From S2P Require Import Prelude GoStd Quantity Der TokenTypes Asn1 Request Limits Metadata Auditor FabtokenActions ZkMath ZkIpa ZkRange ZkSigma ZkCodec ZkTransfer Csp CspFold CspTransfer ZkActions ZkValidator ZkSetup ZkAudit ZkTokens Upgrade.
From Stdlib Require Import ZArith Lia.
Local Open Scope Z_scope.

(** ** Elements of one curve *)

Section OneCurve.
Context {CO : Curve} {NA : Native} {WI : Wire} {WL : WireLaws} {CC : CspCurve} {FC : ForeignCurves}.

Definition good {T} (curve : Z) (w : wire T) : Prop := of_curve w curve = true.

Ltac one_curve := unfold good, of_curve in *; repeat match goal with
  | H : (_ && _) = true |- _ => apply andb_true_iff in H as [? ?]
  | H : negb _ = true |- _ => apply negb_true_iff in H
  | H : (_ =? _) = true |- _ => apply Z.eqb_eq in H; subst
  end.

Lemma good_Mul c g z : good c g -> good c z -> exists r, wMul g z = Ok r /\ good c r.
Proof using Type.
  intros Hg Hz. destruct g as [g|i g], z as [z|j z]; one_curve; try (by rewrite Z.eqb_refl in * ); eexists; (split; [cbn; try rewrite Z.eqb_refl; done|]); cbn; rewrite Z.eqb_refl; [done|].
  by destruct (Z.eqb_spec c curve_id).
Qed.

Lemma good_Add c g h : good c g -> good c h -> exists r, wAdd g h = Ok r /\ good c r.
Proof using Type.
  intros Hg Hz. destruct g as [g|i g], h as [z|j z]; one_curve; try (by rewrite Z.eqb_refl in * ); eexists; (split; [cbn; try rewrite Z.eqb_refl; done|]); cbn; rewrite Z.eqb_refl; [done|].
  by destruct (Z.eqb_spec c curve_id).
Qed.

Lemma good_Equals c g h : good c g -> good c h -> exists b, wEquals g h = Ok b.
Proof using Type. intros Hg Hz. destruct g as [g|i g], h as [z|j z]; one_curve; try (by rewrite Z.eqb_refl in * ); eexists; cbn; try rewrite Z.eqb_refl; done. Qed.

Lemma good_G1 c : good c (wNewG1 c).
Proof using Type. unfold wNewG1, good. destruct (Z.eqb_spec c curve_id) as [->|H]; cbn; rewrite Z.eqb_refl; [done|]. by destruct (Z.eqb_spec c curve_id). Qed.

Lemma good_Hash c b : good c (wHashToZr c b).
Proof using Type. unfold wHashToZr, good. destruct (Z.eqb_spec c curve_id) as [->|H]; cbn; rewrite Z.eqb_refl; [done|]. by destruct (Z.eqb_spec c curve_id). Qed.

(** Generators that are present and of one curve. *)
Definition good_points (c : Z) (l : list commitment) : Prop := Forall (fun o => exists w, o = Some w /\ good c w) l.

Lemma good_commit c vs : forall gens com, Forall (good c) vs -> good_points c gens -> (length vs <= length gens)%nat -> good c com ->
  exists r, wcommit_loop com (Some <$> vs) gens = Ok r /\ good c r.
Proof using Type.
  induction vs as [|v vs IH]; intros gens com Hv Hg Hl Hc; [by exists com|]. apply Forall_cons in Hv as [Hv Hvs]. destruct gens as [|g gens]; [cbn in Hl; lia|].
  apply Forall_cons in Hg as [(w & -> & Hw) Hg]. cbn [fmap list_fmap wcommit_loop deref mbind res_mbind]. destruct (good_Mul c w v Hw Hv) as (x & -> & Hx). cbn [mbind res_mbind].
  destruct (good_Add c com x Hc Hx) as (y & -> & Hy). cbn [mbind res_mbind]. apply (IH gens y Hvs Hg); [cbn in Hl; lia|done].
Qed.

Lemma check_element_good c o : check_element fc_IsInfinity c o = Ok tt -> exists w, o = Some w /\ good c w.
Proof using Type. destruct o as [w|]; [|done]. cbn. destruct (of_curve w c) eqn:E; [|done]. intros _. by exists w. Qed.

Lemma check_base_good c o : check_base_element c o = Ok tt -> exists w, o = Some w /\ good c w.
Proof using Type. destruct o as [w|]; [|done]. cbn. destruct (of_curve w c) eqn:E; [|done]. intros _. by exists w. Qed.

Lemma check_elements_good c l n : check_elements fc_IsInfinity l c n = Ok tt -> zlen l = n /\ good_points c l.
Proof using Type.
  unfold check_elements. destruct (Z.eqb_spec (zlen l) n) as [Hl|]; [|done]. cbn [negb]. rewrite rangeR_Ok. intros H. split; [done|]. apply Forall_lookup. intros i o Hi.
  by apply check_element_good, (H i).
Qed.

(** Parameters whose use cannot panic. *)
Record sound_params (pp : PublicParams) : Prop := {
  so_curve : curve_lookup (sp_Curve pp) = Ok (sp_Curve pp);
  so_gens : length (sp_PedersenGenerators pp) = 3%nat /\ good_points (sp_Curve pp) (sp_PedersenGenerators pp);
  so_bits : exists n, BitLength pp = Ok n;
}.

Lemma good_points_deref c l : good_points c l -> exists ws, mapM deref l = Ok ws.
Proof using Type.
  induction 1 as [|o l (w & -> & _) _ (ws & IH)]; [by exists []|]. exists (w :: ws). rewrite mapM_cons_res. cbn [deref mbind res_mbind]. by rewrite IH.
Qed.

Lemma formats_total pp : sound_params pp -> exists fs, CommTokenFormats pp = Ok fs.
Proof using Type.
  intros [_ [_ Hg] [n Hn]]. unfold CommTokenFormats. rewrite Hn. cbn [mbind res_mbind]. destruct (good_points_deref _ _ Hg) as [ws Hws].
  assert (forall x, exists f, zk_SupportedTokenFormat pp x = Ok f) as Hf by (intros x; unfold zk_SupportedTokenFormat; rewrite Hws; by eexists).
  induction (List.filter _ SupportedPrecisions) as [|x l (fs & IH)]; [by exists []|]. destruct (Hf x) as [f Hx]. exists (f :: fs). rewrite mapM_cons_res, Hx. cbn [wrap mbind res_mbind]. by rewrite IH.
Qed.

Lemma ToClear_total Zr_String t m pp : sound_params pp -> check_element fc_IsInfinity (sp_Curve pp) (zt_Data t) = Ok tt ->
  check_base_element (sp_Curve pp) (wm_Value m) = Ok tt -> check_base_element (sp_Curve pp) (wm_BlindingFactor m) = Ok tt -> wToClear Zr_String t m pp <> Panic.
Proof using Type.
  intros [Hc [Hl Hg] _] Hd Hv Hbf. apply check_element_good in Hd as (d & Hd & Gd). apply check_base_good in Hv as (v & Hv & Gv). apply check_base_good in Hbf as (bf & Hbf & Gbf).
  unfold wToClear. rewrite Hc. cbn [mbind res_mbind]. rewrite Hd, Hv, Hbf. unfold wcommit. rewrite Hl. cbn [length Nat.ltb Nat.leb].
  destruct (good_commit (sp_Curve pp) [wHashToZr (sp_Curve pp) (wm_Type m); v; bf] (sp_PedersenGenerators pp) (wNewG1 (sp_Curve pp))) as (r & Hr & Gr);
    [by repeat (constructor; [first [apply good_Hash|done]|])|done|cbn; lia|apply good_G1|].
  cbn [fmap list_fmap] in Hr. rewrite Hr. cbn [wrap mbind res_mbind deref]. destruct (good_Equals _ _ _ Gr Gd) as [[] ->]; done.
Qed.
End OneCurve.

(** ** The public parameters of the store *)

Section Loading.
Context {CO : Curve} {NA : Native} {WI : Wire} {WL : WireLaws} {CC : CspCurve} {FC : ForeignCurves}.
Context (G1_UnmarshalJSON : bytes -> res (wire G1)) (proto_UnmarshalPP : bytes -> res PPublicParameters) (json_UnmarshalPP : bytes -> res PContainer).

Ltac returns := repeat first [done | apply bind_no_panic; [|intros ?] | apply wrap_no_panic | progress unfold reject_if, present_or, recovered | progress cbn [mbind res_mbind] | case_match].

Lemma FromG1Proto_returns p : FromG1Proto G1_UnmarshalJSON p <> Panic.
Proof using Type. destruct p as [[|b l]|]; [done| |done]. cbn [FromG1Proto]. apply bind_no_panic; [|done]. unfold recovered. by destruct (G1_UnmarshalJSON _). Qed.

Lemma G1Slice_returns l : FromG1ProtoSlice G1_UnmarshalJSON l <> Panic.
Proof using Type. apply mapM_no_panic. intros. apply FromG1Proto_returns. Qed.

Lemma keys_returns l : forall ds, FromProtosSlice IdemixIssuerPublicKey_FromProtos l ds <> Panic.
Proof using Type.
  induction l as [|[k|] l IH]; intros [|d ds]; try done; cbn [FromProtosSlice]; [|apply bind_no_panic; [apply IH|done]].
  apply bind_no_panic; [|intros; apply bind_no_panic; [apply IH|done]]. unfold IdemixIssuerPublicKey_FromProtos. returns.
Qed.

Lemma FromProtos_returns m : PublicParams_FromProtos G1_UnmarshalJSON m <> Panic.
Proof using Type.
  unfold PublicParams_FromProtos, RangeProofParams_FromProto, CSPRangeProofParams_FromProto.
  returns; first [apply G1Slice_returns|apply FromG1Proto_returns|apply keys_returns].
Qed.

Lemma FromProtos_curve m pp : PublicParams_FromProtos G1_UnmarshalJSON m = Ok pp -> psp_CurveId m = Some (sp_Curve pp).
Proof using Type.
  unfold PublicParams_FromProtos. destruct (psp_CurveId m) as [c|]; [|done]. cbn [present_or mbind res_mbind]. intros (? & _ & H)%res_bind_Ok.
  do 4 apply res_bind_Ok in H as (? & _ & H). by injection H as <-.
Qed.

Context (pp_returns : forall b, proto_UnmarshalPP b <> Panic) (container_returns : forall b, json_UnmarshalPP b <> Panic).
Context (curve_unsigned : forall b m c, proto_UnmarshalPP b = Ok m -> psp_CurveId m = Some c -> 0 <= c).
Local Notation Load := (load G1_UnmarshalJSON proto_UnmarshalPP json_UnmarshalPP).

Lemma read_unsigned raw name ver pp : NewPublicParamsFromBytes G1_UnmarshalJSON proto_UnmarshalPP json_UnmarshalPP raw name ver = Ok pp -> 0 <= sp_Curve pp.
Proof using curve_unsigned.
  unfold NewPublicParamsFromBytes. rewrite wrap_Ok. intros (c & _ & H)%res_bind_Ok. apply res_bind_Ok in H as (? & _ & H). apply res_bind_Ok in H as (m & Hm%wrap_Ok & H).
  apply FromProtos_curve in H as Hc. by eapply curve_unsigned.
Qed.

Lemma checks_return pp : validate_checks fc_IsInfinity pp <> Panic.
Proof using Type.
  assert (forall c o, check_element fc_IsInfinity c o <> Panic) as He by (intros c o; destruct o; cbn; by repeat case_match).
  assert (forall l c n, check_elements fc_IsInfinity l c n <> Panic) as Hes.
  { intros l c n. unfold check_elements. destruct (negb _); [done|]. pose proof (rangeR_no_panic (fun _ e => check_element fc_IsInfinity c e) l 0) as Hr.
    intros E. rewrite E in Hr. apply Hr. intros k x _. specialize (He c x). by destruct (check_element _ _ _). }
  unfold validate_checks, precision_check, RangeProofParams_Validate, CSPRangeProofParams_Validate.
  returns; first [apply He|apply Hes|idtac].
  all: match goal with |- rangeR ?f 0 ?l <> Panic => pose proof (rangeR_no_panic f l 0) as Hr end; intros E; rewrite E in Hr; apply Hr; intros k x _; unfold idemix_check; destruct x; [|done].
  all: unfold reject_if; by repeat case_match.
Qed.

Lemma checks_sound pp : 0 <= sp_Curve pp -> validate_checks fc_IsInfinity pp = Ok tt -> sound_params pp /\
  forall r, sp_CSPRangeProofParams pp = Some r -> good_points (sp_Curve pp) (wcp_LeftGenerators r) /\ good_points (sp_Curve pp) (wcp_RightGenerators r).
Proof using Type.
  intros Hc. unfold validate_checks. rewrite !then_Ok, wrap_Ok, !reject_if_Ok. intros (Hn & _ & _ & Hg & Hs & _ & Hp). apply check_elements_good in Hg as [Hl Hg].
  split; [split|].
  - unfold curve_lookup. apply Z.ltb_ge in Hn. replace ((sp_Curve pp <? 0) || (num_curves <=? sp_Curve pp)) with false; [done|].
    symmetry. apply orb_false_iff. split; [by apply Z.ltb_ge|apply Z.leb_gt; lia].
  - split; [unfold zlen in Hl; lia|done].
  - unfold BitLength. destruct (sp_RangeProofParams pp) as [r|]; [by eexists|]. destruct (sp_CSPRangeProofParams pp) as [r|]; [by eexists|done].
  - intros r E. rewrite E in Hp. apply precision_check_Ok in Hp as (_ & Hv & _). unfold CSPRangeProofParams_Validate in Hv. rewrite !then_Ok, !wrap_Ok in Hv.
    destruct Hv as (_ & _ & Hv & Hv'). by apply check_elements_good in Hv as [_ ?], Hv' as [_ ?].
Qed.

Lemma init_total pp : sound_params pp -> (forall r, sp_CSPRangeProofParams pp = Some r -> good_points (sp_Curve pp) (wcp_LeftGenerators r) /\ good_points (sp_Curve pp) (wcp_RightGenerators r)) ->
  exists pp', initCSPTranscriptHeader fc_Bytes pp = Ok pp' /\ sound_params pp'.
Proof using Type.
  intros Hs Hg. unfold initCSPTranscriptHeader. destruct (sp_CSPRangeProofParams pp) as [r|] eqn:E; [|by exists pp]. destruct (Hg r eq_refl) as [Hl Hr]. destruct Hs as [Hc [Hl3 Hg3] [n Hn]].
  pose proof Hc as Hc'. unfold curve_lookup in Hc'. destruct (_ || _); [done|].
  destruct (good_points_deref (sp_Curve pp) (sp_PedersenGenerators pp ++ wcp_LeftGenerators r ++ wcp_RightGenerators r)) as [ws ->]; [by repeat (apply Forall_app; split)|].
  cbn [mbind res_mbind]. eexists. split; [done|]. split; [done|done|]. unfold BitLength in *. cbn [set_csp sp_RangeProofParams sp_CSPRangeProofParams]. destruct (sp_RangeProofParams pp); by eexists.
Qed.

Lemma load_sound raw : Load raw <> Panic /\ forall pp, Load raw = Ok pp -> sound_params pp.
Proof using pp_returns container_returns curve_unsigned.
  unfold load. destruct (NewPublicParamsFromBytes _ _ _ _ _ _) as [q|e|] eqn:E; [|done|].
  - apply read_unsigned in E as Hq. cbn [wrap mbind res_mbind]. unfold PublicParams_Validate. destruct (validate_checks fc_IsInfinity q) as [[]|e|] eqn:Ec; [|done|by apply checks_return in Ec].
    destruct (checks_sound q Hq Ec) as [Hs Hg]. destruct (init_total q Hs Hg) as (q' & -> & Hs'). unfold reject_if. destruct (negb _); cbn [wrap mbind res_mbind]; [done|]. split; [done|]. by intros ? [= <-].
  - exfalso. revert E. unfold NewPublicParamsFromBytes. apply wrap_no_panic. apply bind_no_panic; [apply wrap_no_panic, container_returns|intros c]. apply bind_no_panic; [by unfold reject_if; case_match|intros _].
    apply bind_no_panic; [apply wrap_no_panic, pp_returns|intros m]. apply FromProtos_returns.
Qed.
End Loading.

(** ** The service *)

Section Service.
Context {CO : Curve} {NA : Native} {WI : Wire} {WL : WireLaws} {CC : CspCurve} {FC : ForeignCurves}.
Context (Zr_String : Zr -> bytes).
Context (G1_UnmarshalJSON : bytes -> res (wire G1)) (Zr_UnmarshalJSON : bytes -> res (wire Zr)).
Context (proto_UnmarshalToken : bytes -> res PzToken) (proto_TokenMetadata : bytes -> res PTokenMetadata) (json_Output : bytes -> res Output).
Context (proto_UnmarshalPP : bytes -> res PPublicParameters) (json_UnmarshalPP : bytes -> res PContainer).
Context (PublicParamsHashes : nat -> res (list bytes)) (PublicParamsByHash : nat -> bytes -> res bytes).
Context (others : nat -> gmap bytes PublicParams * gmap bytes (PublicParams * bytes) -> gmap bytes PublicParams * gmap bytes (PublicParams * bytes)).
Context (GetOwnerVerifier : bytes -> res (bytes -> bytes -> res unit)) (GetSigner : bytes -> res (bytes -> res bytes)).
Context (json_MarshalProof : UpgradeProof -> res bytes) (json_UnmarshalProof : bytes -> res UpgradeProof).

Local Notation Load := (load G1_UnmarshalJSON proto_UnmarshalPP json_UnmarshalPP).
Local Notation Hash := (byHashCached G1_UnmarshalJSON proto_UnmarshalPP json_UnmarshalPP PublicParamsByHash others).
Local Notation HashAndFormat := (ByHashAndFormat G1_UnmarshalJSON proto_UnmarshalPP json_UnmarshalPP PublicParamsByHash others).
Local Notation Scan := (scan_hashes G1_UnmarshalJSON proto_UnmarshalPP json_UnmarshalPP PublicParamsByHash others).
Local Notation Format := (ByFormat G1_UnmarshalJSON proto_UnmarshalPP json_UnmarshalPP PublicParamsHashes PublicParamsByHash others).
Local Notation Resolve := (resolve G1_UnmarshalJSON proto_UnmarshalPP json_UnmarshalPP PublicParamsHashes PublicParamsByHash others).
Local Notation Comm := (processCommToken Zr_String G1_UnmarshalJSON Zr_UnmarshalJSON proto_UnmarshalToken proto_TokenMetadata).
Local Notation TokenWith := (processTokenWith Zr_String G1_UnmarshalJSON Zr_UnmarshalJSON proto_UnmarshalToken proto_TokenMetadata json_Output proto_UnmarshalPP json_UnmarshalPP
  PublicParamsHashes PublicParamsByHash others).

(** The public parameters the store has kept under a hash. *)
Definition generation (hash : bytes) (pp : PublicParams) : Prop := exists t raw, PublicParamsByHash t hash = Ok raw /\ raw <> [] /\ Load raw = Ok pp.
Definition generates (pp : PublicParams) (format : bytes) : Prop := exists fs, CommTokenFormats pp = Ok fs /\ format ∈ fs.

(** What the two maps hold. *)
Definition maps_ok (m : gmap bytes PublicParams * gmap bytes (PublicParams * bytes)) : Prop :=
  (forall hash pp, m.1 !! hash = Some pp -> generation hash pp) /\
  (forall format pp hash, m.2 !! format = Some (pp, hash) -> generation hash pp /\ generates pp format).
Definition inv (h : PPHistory) : Prop := maps_ok (hi_byHash h, hi_byFormat h).

(** Libraries and other packages return, and other requests keep the maps. *)
Record environment : Prop := {
  en_others n m : maps_ok m -> maps_ok (others n m);
  en_hashes t : PublicParamsHashes t <> Panic;
  en_byHash t h : PublicParamsByHash t h <> Panic;
  en_pp b : proto_UnmarshalPP b <> Panic;
  en_container b : json_UnmarshalPP b <> Panic;
  en_curve b m c : proto_UnmarshalPP b = Ok m -> psp_CurveId m = Some c -> 0 <= c;
  en_token b : proto_UnmarshalToken b <> Panic;
  en_metadata b : proto_TokenMetadata b <> Panic;
  en_output b : json_Output b <> Panic;
  en_proof b : json_UnmarshalProof b <> Panic;
  en_verifier id : GetOwnerVerifier id <> Panic;
  en_verify id v m sig : GetOwnerVerifier id = Ok v -> v m sig <> Panic;
}.
Context (ENV : environment).

(** Keeps the maps, does not panic, and returns what [Q] says. *)
Definition spec {A} (m : H A) (Q : A -> Prop) : Prop := forall h, inv h -> inv (m h).2 /\ (m h).1 <> Panic /\ forall a, (m h).1 = Ok a -> Q a.

Lemma spec_ret {A} (a : A) (Q : A -> Prop) : Q a -> spec (mret a) Q.
Proof using Type. intros HQ h Hh. split_and!; [done|done|]. by intros ? [= <-]. Qed.

Lemma spec_bind {A B} (m : H A) (f : A -> H B) (P : A -> Prop) (Q : B -> Prop) : spec m P -> (forall a, P a -> spec (f a) Q) -> spec (m ≫= f) Q.
Proof using Type.
  intros Hm Hf h Hh. destruct (Hm h Hh) as (Hi & Hp & Ha). unfold mbind, M_mbind. destruct (m h) as [[a|e|] h']; cbn in *; [by apply (Hf a (Ha a eq_refl))|done|done].
Qed.

Lemma spec_lift {A} (r : res A) : r <> Panic -> spec (lift r) (fun a => r = Ok a).
Proof using Type. intros Hr h Hh. by split_and!. Qed.

Lemma spec_wrap {A} msg (m : H A) (Q : A -> Prop) : spec m Q -> spec (wrapM msg m) Q.
Proof using Type.
  intros Hm h Hh. destruct (Hm h Hh) as (Hi & Hp & Ha). unfold wrapM. destruct (m h) as [r h']; cbn in *. split_and!; [done|by apply wrap_no_panic|]. intros a Hr%wrap_Ok. by apply Ha.
Qed.

Lemma spec_weaken {A} (m : H A) (P Q : A -> Prop) : spec m P -> (forall a, P a -> Q a) -> spec m Q.
Proof using Type. intros Hm Hpq h Hh. destruct (Hm h Hh) as (Hi & Hp & Ha). split_and!; [done|done|]. intros a E. by apply Hpq, Ha. Qed.

Lemma spec_reject b e : spec (lift (reject_if b e)) (fun _ => b = false).
Proof using Type. eapply spec_weaken; [apply spec_lift; unfold reject_if; by destruct b|]. intros [] H. by apply reject_if_Ok in H. Qed.

Lemma spec_mapM {A B} (f : A -> H B) (Q : A -> B -> Prop) l : (forall x, x ∈ l -> spec (f x) (Q x)) -> spec (mapM f l) (Forall2 Q l).
Proof using Type.
  induction l as [|x l IH]; intros Hf; [by apply spec_ret|]. change (mapM f (x :: l)) with (f x ≫= fun y => mapM f l ≫= fun ys => mret (y :: ys)).
  eapply spec_bind; [apply Hf; left|]. intros y Hy. eapply spec_bind; [apply IH; intros; apply Hf; by right|]. intros ys Hys. apply spec_ret. by constructor.
Qed.

Lemma lock_inv h : inv h -> inv (lock others h).
Proof using ENV. intros Hh. unfold lock. pose proof (en_others ENV (hi_step h) _ Hh) as Ho. by destruct (others _ _). Qed.

Lemma spec_locked {A} (f : PPHistory -> H A) (Q : A -> Prop) : (forall h, inv h -> spec (f h) Q) -> spec (modifyS (lock others) ;; h ← getS; f h) Q.
Proof using ENV. intros Hf h Hh. apply lock_inv in Hh. exact (Hf _ Hh _ Hh). Qed.

Lemma spec_update (g : PPHistory -> PPHistory) : (forall h, inv h -> inv (g h)) -> spec (modifyS (lock others) ;; modifyS g) (fun _ => True).
Proof using ENV. intros Hg h Hh. apply lock_inv in Hh. split_and!; [by apply Hg|done|done]. Qed.

Lemma Hash_spec hash : spec (Hash hash) (fun pp => generation hash pp).
Proof using ENV.
  unfold byHashCached. apply spec_locked. intros h Hh. destruct (hi_byHash h !! hash) as [pp|] eqn:E; [apply spec_ret; by apply Hh|].
  eapply spec_bind; [apply spec_wrap, spec_lift, (en_byHash ENV)|]. intros raw Hraw. cbn beta in Hraw. destruct (Z.eqb_spec (zlen raw) 0) as [|Hne].
  { eapply spec_weaken; [by apply spec_lift|]. done. }
  eapply spec_bind; [apply spec_lift, (load_sound _ _ _ (en_pp ENV) (en_container ENV) (en_curve ENV))|]. intros pp Hpp. cbn beta in Hpp.
  assert (generation hash pp) as Hgen by (exists (hi_step h), raw; split_and!; try done; by intros ->).
  apply (spec_bind (modifyS (lock others)) _ (fun _ => True)); [intros g Hg; by split_and!; [apply lock_inv|..]|]. intros _ _.
  apply (spec_bind (modifyS _) _ (fun _ => True)); [|intros _ _; by apply spec_ret].
  intros g [Hg1 Hg2]. split_and!; [|done|done]. split; [|exact Hg2]. intros k q. cbn. rewrite lookup_insert. case_decide as Hk; [subst; by intros [= <-]|apply Hg1].
Qed.

Lemma generation_sound hash pp : generation hash pp -> sound_params pp.
Proof using ENV. intros (t & raw & _ & _ & Hl). by apply (load_sound G1_UnmarshalJSON proto_UnmarshalPP json_UnmarshalPP (en_pp ENV) (en_container ENV) (en_curve ENV) raw). Qed.

Lemma add_format h format pp hash : inv h -> generation hash pp -> generates pp format ->
  inv (mkPPHistory (hi_byHash h) (<[format := (pp, hash)]> (hi_byFormat h)) (hi_step h)).
Proof using Type. intros [H1 H2] Hg Hf. split; [exact H1|]. intros k q hq. cbn. rewrite lookup_insert. case_decide as Hk; [subst; by intros [= <- <-]|apply H2]. Qed.

Lemma HashAndFormat_spec hash format : spec (HashAndFormat hash format) (fun pp => generation hash pp /\ generates pp format).
Proof using ENV.
  unfold ByHashAndFormat. eapply spec_bind; [apply spec_reject|intros _ _]. eapply spec_bind; [apply spec_reject|intros _ _]. eapply spec_bind; [apply Hash_spec|intros pp Hpp].
  destruct (formats_total pp (generation_sound _ _ Hpp)) as [fs Hfs]. eapply spec_bind; [apply spec_wrap, spec_lift; by rewrite Hfs|]. intros fs' Hfs'. cbn beta in Hfs'.
  case_bool_decide as Hin; cbn [negb]; [|eapply spec_weaken; [by apply spec_lift|done]].
  assert (generates pp format) as Hgen by (by exists fs').
  apply (spec_bind (modifyS (lock others)) _ (fun _ => True)); [intros g Hg; by split_and!; [apply lock_inv|..]|]. intros _ _.
  apply (spec_bind (modifyS _) _ (fun _ => True)); [|intros _ _; by apply spec_ret]. intros g Hg. split_and!; [|done|done]. cbn.
  destruct (hi_byFormat g !! format); [done|]. by apply add_format.
Qed.

Lemma Scan_spec format hashes : forall skipped, spec (Scan format hashes skipped) (fun r => generation r.2 r.1 /\ generates r.1 format).
Proof using ENV.
  induction hashes as [|hash rest IH]; intros skipped h Hh; [by split_and!|]. cbn [scan_hashes]. destruct (Hash_spec hash h Hh) as (Hi & Hp & Ha). destruct (Hash hash h) as [[pp|e|] h'] eqn:E; cbn in *; [|by apply IH|done].
  destruct (formats_total pp (generation_sound _ _ (Ha pp eq_refl))) as [fs Hfs]. rewrite Hfs. case_bool_decide as Hin; cbn [negb]; [|by apply IH].
  assert (generates pp format) as Hg by (by exists fs). split_and!; [apply add_format; [by apply lock_inv|by apply Ha|done]|done|]. intros a [= <-]. split; [by apply Ha|done].
Qed.

Lemma Format_spec format : spec (Format format) (fun r => generation r.2 r.1 /\ generates r.1 format).
Proof using ENV.
  unfold ByFormat. eapply spec_bind; [apply spec_reject|intros _ _]. apply spec_locked. intros h Hh. destruct (hi_byFormat h !! format) as [[pp hash]|] eqn:E; [apply spec_ret; by apply Hh|].
  eapply spec_bind; [apply spec_wrap, spec_lift, (en_hashes ENV)|]. intros hashes _. apply Scan_spec.
Qed.

(** ** Tokens *)

(** A commitment opened under public parameters. *)
Definition opened (tok : LedgerToken) (pp : PublicParams) (t : Token) : Prop :=
  exists output m data v bf, zToken_Deserialize G1_UnmarshalJSON proto_UnmarshalToken (LedgerToken_Token tok) = Ok output /\ zt_Owner output <> [] /\ zt_Data output = Some data /\
    Metadata_Deserialize Zr_UnmarshalJSON proto_TokenMetadata (LedgerToken_TokenMetadata tok) = Ok m /\ wm_Type m <> [] /\ wm_Value m = Some v /\ wm_BlindingFactor m = Some bf /\
    opens pp data (wm_Type m) v bf /\ t = mkToken (zt_Owner output) (wm_Type m) (str "0x" ++ wString Zr_String v).

(** A cleartext token whose quantity fits the precision of the driver. *)
Definition cleartext (s : UpgradeService) (tok : LedgerToken) (t : Token) : Prop :=
  Output_Deserialize json_Output (LedgerToken_Token tok) = Ok t /\ exists q, NewUBigQuantity (Token_Quantity t) (us_MaxPrecision s) = Ok q.

(** What a ledger token is upgraded to. *)
Definition genuine (s : UpgradeService) (tok : LedgerToken) (t : Token) : Prop :=
  if in_Precisions (LedgerToken_Format tok) then cleartext s tok t
  else exists hash pp, generation hash pp /\ generates pp (LedgerToken_Format tok) /\ opened tok pp t.

Definition upgradable (s : UpgradeService) (format : bytes) : Prop :=
  format ∉ us_SupportedTokenFormatList s /\
  (format ∈ us_UpgradeSupportedTokenFormatList s \/ us_PublicParamsHistory s = true /\ exists hash pp, generation hash pp /\ generates pp format).

Definition signed (message : bytes) (t : Token) (sig : bytes) : Prop :=
  exists verify, GetOwnerVerifier (Token_Owner t) = Ok verify /\ verify message sig = Ok tt.

Lemma typed_returns b : UnmarshalTypedToken b <> Panic.
Proof using Type.
  unfold UnmarshalTypedToken, TypedToken_asn1. apply bind_no_panic; [apply wrap_no_panic|intros [? ?]; by case_match].
  apply bind_no_panic; [apply parse_tagged_no_panic|intros [body rest]]. apply bind_no_panic; [apply parse_tagged_no_panic|intros [iv body']].
  apply bind_no_panic; [apply parse_int_no_panic|intros typ]. case_match; [done|]. apply bind_no_panic; [apply parse_tagged_no_panic|by intros [? ?]].
Qed.

Lemma comm_typed_returns b : comm_UnmarshalTypedToken b <> Panic.
Proof using Type. apply bind_no_panic; [apply wrap_no_panic, typed_returns|intros; by case_match]. Qed.

Lemma token_returns b : zToken_Deserialize G1_UnmarshalJSON proto_UnmarshalToken b <> Panic.
Proof using ENV.
  apply bind_no_panic; [apply wrap_no_panic, comm_typed_returns|intros typed]. case_match; [done|].
  apply bind_no_panic; [apply wrap_no_panic, (en_token ENV)|intros t]. apply bind_no_panic; [apply FromG1Proto_returns|done].
Qed.

Lemma FromZrProto_returns p : FromZrProto Zr_UnmarshalJSON p <> Panic.
Proof using Type. destruct p as [b|]; [|done]. cbn [FromZrProto]. apply bind_no_panic; [|done]. unfold recovered. by destruct (Zr_UnmarshalJSON _). Qed.

Lemma metadata_returns b : Metadata_Deserialize Zr_UnmarshalJSON proto_TokenMetadata b <> Panic.
Proof using ENV.
  apply bind_no_panic; [apply wrap_no_panic, comm_typed_returns|intros typed]. apply bind_no_panic; [apply wrap_no_panic, (en_metadata ENV)|intros m].
  apply bind_no_panic; [apply wrap_no_panic, FromZrProto_returns|intros v]. apply bind_no_panic; [apply wrap_no_panic, FromZrProto_returns|done].
Qed.

Lemma Comm_spec tok pp : sound_params pp -> Comm tok pp <> Panic /\ forall t, Comm tok pp = Ok t -> opened tok pp t.
Proof using ENV.
  intros Hs. unfold processCommToken. pose proof (token_returns (LedgerToken_Token tok)) as Ht. destruct (zToken_Deserialize _ _ _) as [o|e|] eqn:Eo; [|done..]. cbn [wrap mbind res_mbind].
  destruct (zToken_Validate true o) as [[]|e|] eqn:Ev; cbn [wrap mbind res_mbind]; [|done|by (unfold zToken_Validate in Ev; repeat case_match)].
  destruct (check_element _ _ _) as [[]|e|] eqn:Ed; cbn [wrap mbind res_mbind]; [|done|by (unfold check_element in Ed; repeat case_match)].
  pose proof (metadata_returns (LedgerToken_TokenMetadata tok)) as Hm. destruct (Metadata_Deserialize _ _ _) as [m|e|] eqn:Em; [|done..]. cbn [wrap mbind res_mbind].
  unfold reject_if. destruct (Z.eqb_spec (zlen (wm_Type m)) 0) as [|Hty]; [done|]. cbn [mbind res_mbind].
  destruct (check_base_element (sp_Curve pp) (wm_Value m)) as [[]|e|] eqn:Ec; cbn [wrap mbind res_mbind]; [|done|by (unfold check_base_element in Ec; repeat case_match)].
  destruct (check_base_element (sp_Curve pp) (wm_BlindingFactor m)) as [[]|e|] eqn:Eb; cbn [wrap mbind res_mbind]; [|done|by (unfold check_base_element in Eb; repeat case_match)].
  split; [by apply wrap_no_panic, ToClear_total|]. intros t (_ & data & v & bf & H1 & H2 & H3 & Hopen & ->)%wrap_Ok%wToClear_Ok. exists o, m, data, v, bf. split_and!; try done.
  - intros E. unfold zToken_Validate in Ev. by rewrite E in Ev.
  - intros E. by rewrite E in Hty.
Qed.

Lemma Fab_spec s tok : processFabtoken json_Output s tok <> Panic /\ forall t, processFabtoken json_Output s tok = Ok t -> cleartext s tok t.
Proof using ENV.
  unfold processFabtoken, ParseFabtokenToken, cleartext. destruct (Output_Deserialize json_Output (LedgerToken_Token tok)) as [o|e|] eqn:Eo; [|done|].
  - cbn [wrap mbind res_mbind]. destruct (NewUBigQuantity (Token_Quantity o) (us_MaxPrecision s)) as [q|e|] eqn:Eq; cbn [wrap mbind res_mbind]; [|done|].
    + assert (exists v, ToBigInt q = Ok v) as [v Hv].
      { unfold NewUBigQuantity in Eq. destruct (_ =? 0); [done|]. destruct (SetString0 _); [|done]. apply res_bind_Ok in Eq as (? & _ & [= <-]). by eexists. }
      rewrite Hv. cbn [wrap mbind res_mbind]. split; [done|]. intros t [= <-]. destruct o. cbn in *. split; [done|by exists q].
    + exfalso. unfold NewUBigQuantity in Eq. destruct (_ =? 0); [done|]. destruct (SetString0 _); [|done]. revert Eq. apply bind_no_panic; [|done].
      unfold validateBigIntForQuantity. by repeat case_match.
  - exfalso. revert Eo. apply bind_no_panic; [|intros; apply (en_output ENV)]. apply wrap_no_panic, bind_no_panic; [apply wrap_no_panic, typed_returns|intros; by case_match].
Qed.

Lemma Resolve_spec hash format : spec (Resolve hash format) (fun pp => exists hash', generation hash' pp /\ generates pp format).
Proof using ENV.
  intros h Hh. unfold resolve. destruct (HashAndFormat_spec hash format h Hh) as (Hi & Hp & Ha). destruct (HashAndFormat hash format h) as [[pp|e|] h'] eqn:E; cbn in *; [|clear Ha Hp|done].
  - split_and!; [done|done|]. intros a [= <-]. destruct (Ha pp eq_refl). by exists hash.
  - destruct (negb _); [by split_and!|]. destruct (Format_spec format h' Hi) as (Hi' & Hp' & Ha'). destruct (Format format h') as [[[pp hash']|e'|] h''] eqn:E'; cbn in *; [|done|done].
    split_and!; [done|done|]. intros a [= <-]. destruct (Ha' _ eq_refl). by exists hash'.
Qed.

Lemma TokenWith_spec s tok hash : spec (TokenWith s tok hash) (genuine s tok).
Proof using ENV.
  unfold processTokenWith, genuine. destruct (in_Precisions _).
  - eapply spec_bind; [apply spec_reject|intros _ _]. eapply spec_weaken; [apply spec_lift, Fab_spec|]. intros t. apply Fab_spec.
  - destruct (negb _); [eapply spec_weaken; [by apply spec_lift|done]|]. eapply spec_bind; [apply spec_reject|intros _ _]. eapply spec_bind; [apply Resolve_spec|]. intros pp (hash' & Hg & Hf).
    destruct (Comm_spec tok pp (generation_sound _ _ Hg)) as [Hp Ho]. eapply spec_weaken; [by apply spec_lift|]. intros t Ht. exists hash', pp. split_and!; [done|done|by apply Ho].
Qed.

(** ** Requests *)

Local Notation TokensWith := (processTokensWith Zr_String G1_UnmarshalJSON Zr_UnmarshalJSON proto_UnmarshalToken proto_TokenMetadata json_Output proto_UnmarshalPP json_UnmarshalPP
  PublicParamsHashes PublicParamsByHash others).
Local Notation Upgradable := (checkUpgradable G1_UnmarshalJSON proto_UnmarshalPP json_UnmarshalPP PublicParamsHashes PublicParamsByHash others).
Local Notation Formats := (check_formats G1_UnmarshalJSON proto_UnmarshalPP json_UnmarshalPP PublicParamsHashes PublicParamsByHash others).
Local Notation CheckProof := (checkUpgradeProof Zr_String G1_UnmarshalJSON Zr_UnmarshalJSON proto_UnmarshalToken proto_TokenMetadata json_Output proto_UnmarshalPP json_UnmarshalPP
  PublicParamsHashes PublicParamsByHash others GetOwnerVerifier json_UnmarshalProof).
Local Notation Process := (ProcessTokensUpgradeRequest Zr_String G1_UnmarshalJSON Zr_UnmarshalJSON proto_UnmarshalToken proto_TokenMetadata json_Output proto_UnmarshalPP json_UnmarshalPP
  PublicParamsHashes PublicParamsByHash others GetOwnerVerifier json_UnmarshalProof).

Lemma fst_zip_seq {A} (l : list A) k : fst <$> zip l (seq k (length l)) = l.
Proof using Type. revert k. induction l as [|x l IH]; intros k; [done|]. cbn. f_equal. apply IH. Qed.

Lemma TokensWith_spec s tokens hashes : spec (TokensWith s tokens hashes) (Forall2 (genuine s) tokens).
Proof using ENV.
  unfold processTokensWith. eapply spec_bind; [apply spec_reject|intros _ _].
  eapply spec_weaken; [apply (spec_mapM _ (fun p t => genuine s p.1 t)); intros [tok i] _; apply TokenWith_spec|].
  intros ts Hts. rewrite <- (fst_zip_seq tokens 0). by apply Forall2_fmap_l.
Qed.

Lemma match_tokens_eq l : forall k, length l = length k -> match_tokens l k = Ok tt -> l = k.
Proof using Type.
  unfold match_tokens. induction l as [|t l IH]; intros [|u k] Hl H; try done. rewrite rangeR_Ok in H. f_equal.
  - specialize (H 0%nat (t, u) eq_refl). cbn in H. apply reject_if_Ok, negb_false_iff in H. by apply LedgerToken_Equal_true.
  - apply IH; [by injection Hl|]. apply rangeR_Ok. intros i x Hx. exact (H (S i) x Hx).
Qed.

Lemma match_returns l k : match_tokens l k <> Panic.
Proof using Type.
  unfold match_tokens. match goal with |- rangeR ?f 0 ?l <> Panic => pose proof (rangeR_no_panic f l 0) as Hr end. intros E. rewrite E in Hr. apply Hr. intros i [t u] _. unfold reject_if. by case_match.
Qed.

Lemma signatures_returns digest l : rangeR (fun _ => verify_signature GetOwnerVerifier digest) 0 l <> Panic.
Proof using ENV.
  match goal with |- rangeR ?f 0 ?l <> Panic => pose proof (rangeR_no_panic f l 0) as Hr end. intros E. rewrite E in Hr. apply Hr. intros i [t sig] _. unfold verify_signature. cbn.
  pose proof (en_verifier ENV (Token_Owner t)) as Hv. destruct (GetOwnerVerifier (Token_Owner t)) as [v|e|] eqn:Ev; [|done..]. cbn [wrap mbind res_mbind].
  pose proof (en_verify ENV _ v digest sig Ev) as Hs. by destruct (v digest sig).
Qed.

Definition accepted_proof (s : UpgradeService) (ch : bytes) (tokens : list LedgerToken) (ts : list Token) : Prop :=
  zlen ch = ChallengeSize /\ 0 < zlen tokens <= MaxUpgradeRequestTokens /\ Forall2 (genuine s) tokens ts /\
  exists sigs, Forall2 (signed (SHA256Digest ch tokens)) ts sigs.

Lemma CheckProof_spec s ch raw tokens : spec (CheckProof s ch raw tokens) (accepted_proof s ch tokens).
Proof using ENV.
  unfold checkUpgradeProof. eapply spec_bind; [apply spec_reject|intros _ Hch%negb_false_iff%Z.eqb_eq]. eapply spec_bind; [apply spec_reject|intros _ Hn%Z.eqb_neq].
  eapply spec_bind; [apply spec_reject|intros ? Hm]. eapply spec_bind; [apply spec_reject|intros _ _]. eapply spec_bind; [apply spec_wrap, spec_lift, (en_proof ENV)|intros proof _].
  eapply spec_bind; [apply spec_reject|intros _ Hl%negb_false_iff%Z.eqb_eq]. eapply spec_bind; [apply spec_lift, match_returns|intros [] Hmt].
  eapply spec_bind; [apply spec_reject|intros _ Hc%negb_false_iff%bool_decide_eq_true]. eapply spec_bind; [apply spec_reject|intros _ Hs%negb_false_iff%Z.eqb_eq].
  assert (up_Tokens proof = tokens) as Et by (apply match_tokens_eq; [unfold zlen in Hl; lia|done]). rewrite Et, Hc.
  eapply spec_bind; [apply spec_wrap, TokensWith_spec|intros ts Hts]. eapply spec_bind; [apply spec_lift, signatures_returns|intros [] Hv]. apply spec_ret. split; [done|]. split; [|split; [done|]].
  - pose proof (zlen_nonneg tokens). rewrite Z.gtb_ltb in Hm. apply Z.ltb_ge in Hm. lia.
  - exists (up_Signatures proof). rewrite rangeR_Ok in Hv. apply Forall2_length in Hts. unfold zlen in Hs.
    apply Forall2_same_length_lookup_2; [lia|]. intros i t sig Ht Hsig. specialize (Hv i (t, sig)). rewrite lookup_zip_with, Ht, Hsig in Hv. specialize (Hv eq_refl).
    unfold verify_signature in Hv. cbn in Hv. apply res_bind_Ok in Hv as (v & Hv%wrap_Ok & Hok%wrap_Ok). by exists v.
Qed.

Lemma Upgradable_spec s format : spec (Upgradable s format) (fun _ => upgradable s format).
Proof using ENV.
  unfold checkUpgradable, upgradable. case_bool_decide as H1; [eapply spec_weaken; [by apply spec_lift|done]|]. case_bool_decide as H2; [apply spec_ret; auto|].
  destruct (us_PublicParamsHistory s) eqn:Eh; cbn [negb]; [|eapply spec_weaken; [by apply spec_lift|done]].
  eapply spec_bind; [apply spec_wrap, Format_spec|]. intros [pp hash] [Hg Hf]. apply spec_ret. split; [done|]. right. split; [done|]. by exists hash, pp.
Qed.

Lemma Formats_spec s tokens : forall checked, Forall (upgradable s) checked -> spec (Formats s checked tokens) (fun _ => Forall (fun t => upgradable s (LedgerToken_Format t)) tokens).
Proof using ENV.
  induction tokens as [|t tokens IH]; intros checked Hc; [by apply spec_ret|]. cbn [check_formats]. case_bool_decide as Hin.
  - eapply spec_weaken; [by apply IH|]. intros ? H. constructor; [|done]. rewrite Forall_forall in Hc. by apply Hc.
  - eapply spec_bind; [apply Upgradable_spec|]. intros ? Hu. eapply spec_weaken; [apply IH; by constructor|]. intros ? H. by constructor.
Qed.

Lemma Process_spec s utp : spec (Process s utp) (fun ts => exists r, utp = Some r /\ Forall (fun t => upgradable s (LedgerToken_Format t)) (ur_Tokens r) /\
  accepted_proof s (ur_Challenge r) (ur_Tokens r) ts).
Proof using ENV.
  destruct utp as [r|]; [|eapply spec_weaken; [by apply spec_lift|done]]. cbn [ProcessTokensUpgradeRequest]. eapply spec_bind; [apply spec_reject|intros _ _].
  eapply spec_bind; [by apply Formats_spec|intros ? Hf]. eapply spec_weaken; [apply spec_wrap, CheckProof_spec|]. intros ts Ha. by exists r.
Qed.
(** ** An honest owner *)

Local Notation Tok := (processToken Zr_String G1_UnmarshalJSON Zr_UnmarshalJSON proto_UnmarshalToken proto_TokenMetadata json_Output proto_UnmarshalPP json_UnmarshalPP
  PublicParamsHashes PublicParamsByHash others).

(** What the owner computed for a token: its content, the hash of the parameters
    that opened it, and whether it is a commitment. *)
Definition processed (s : UpgradeService) (tok : LedgerToken) (r : Token * bytes * bool) : Prop :=
  if in_Precisions (LedgerToken_Format tok) then processFabtoken json_Output s tok = Ok r.1.1 /\ r.1.2 = [] /\ r.2 = false
  else us_PublicParamsHistory s = true /\ r.2 = true /\ LedgerToken_Format tok <> [] /\
    exists pp, generation r.1.2 pp /\ generates pp (LedgerToken_Format tok) /\ Comm tok pp = Ok r.1.1.

Lemma Tok_spec s tok : spec (Tok s tok) (processed s tok).
Proof using ENV.
  unfold processToken, processed. destruct (in_Precisions _) eqn:Ep.
  - eapply spec_bind; [apply spec_lift, Fab_spec|]. intros t Ht. by apply spec_ret.
  - destruct (us_PublicParamsHistory s); cbn [negb]; [|eapply spec_weaken; [by apply spec_lift|done]]. destruct (decide (LedgerToken_Format tok = [])) as [E|Hne].
    { rewrite E. eapply spec_bind; [apply spec_wrap, (spec_lift (Err _)); done|]. done. }
    eapply spec_bind; [apply spec_wrap, Format_spec|]. intros [pp hash] [Hg Hf]. cbn in *. eapply spec_bind; [apply spec_lift, Comm_spec, (generation_sound _ _ Hg)|]. intros t Ht. apply spec_ret.
    split_and!; [done..|]. by exists pp.
Qed.

(** Computations that succeed. *)
Definition total {A} (m : H A) (Q : A -> Prop) : Prop := forall h, inv h -> inv (m h).2 /\ exists a, (m h).1 = Ok a /\ Q a.

Lemma total_ret {A} (a : A) (Q : A -> Prop) : Q a -> total (mret a) Q.
Proof using Type. intros HQ h Hh. split; [done|by exists a]. Qed.

Lemma total_lift {A} (r : res A) (Q : A -> Prop) a : r = Ok a -> Q a -> total (lift r) Q.
Proof using Type. intros -> HQ h Hh. split; [done|by exists a]. Qed.

Lemma total_bind {A B} (m : H A) (f : A -> H B) (P : A -> Prop) (Q : B -> Prop) : total m P -> (forall a, P a -> total (f a) Q) -> total (m ≫= f) Q.
Proof using Type.
  intros Hm Hf h Hh. destruct (Hm h Hh) as (Hi & a & Ea & Ha). unfold mbind, M_mbind. destruct (m h) as [r h']; cbn in *. subst r. by apply Hf.
Qed.

Lemma total_wrap {A} msg (m : H A) (Q : A -> Prop) : total m Q -> total (wrapM msg m) Q.
Proof using Type. intros Hm h Hh. destruct (Hm h Hh) as (Hi & a & Ea & Ha). unfold wrapM. destruct (m h) as [r h']; cbn in *. subst r. split; [done|by exists a]. Qed.

Lemma total_mapM {A B} (f : A -> H B) (Q : A -> B -> Prop) l : (forall x, x ∈ l -> total (f x) (Q x)) -> total (mapM f l) (Forall2 Q l).
Proof using Type.
  induction l as [|x l IH]; intros Hf; [by apply total_ret|]. change (mapM f (x :: l)) with (f x ≫= fun y => mapM f l ≫= fun ys => mret (y :: ys)).
  eapply total_bind; [apply Hf; left|]. intros y Hy. eapply total_bind; [apply IH; intros; apply Hf; by right|]. intros ys Hys. apply total_ret. by constructor.
Qed.

(** Parameters the store keeps and lists. *)
Definition held (hash : bytes) (pp : PublicParams) : Prop :=
  exists raw, (forall t, PublicParamsByHash t hash = Ok raw /\ exists l, PublicParamsHashes t = Ok l /\ hash ∈ l) /\ raw <> [] /\ Load raw = Ok pp.

Lemma Hash_total hash pp : held hash pp -> total (Hash hash) (eq pp).
Proof using ENV.
  intros (raw & Hr & Hne & Hl) h Hh. destruct (Hash_spec hash h Hh) as (Hi & _ & Ha). split; [done|].
  assert (exists q, (Hash hash h).1 = Ok q) as [q Hq].
  { unfold byHashCached, mbind, M_mbind, modifyS, getS. cbn. destruct (hi_byHash (lock others h) !! hash) as [q|]; [by exists q|]. exists pp. unfold lift, wrapM.
    rewrite (proj1 (Hr _)). cbn. destruct (Z.eqb_spec (zlen raw) 0) as [E|_]; [by destruct raw|]. by rewrite Hl. }
  exists q. split; [done|]. destruct (Ha q Hq) as (t & raw' & Hr' & _ & Hl'). rewrite (proj1 (Hr t)) in Hr'. congruence.
Qed.

Lemma total_reject b e : b = false -> total (lift (reject_if b e)) (fun _ => True).
Proof using Type. intros ->. by eapply total_lift. Qed.

Lemma HashAndFormat_total hash format pp : hash <> [] -> format <> [] -> held hash pp -> generates pp format -> total (HashAndFormat hash format) (eq pp).
Proof using ENV.
  intros Hh Hf Hp (fs & Hfs & Hin) h Hi. destruct (HashAndFormat_spec hash format h Hi) as (Hi' & _ & Ha). split; [done|]. exists pp. split; [|done].
  unfold ByHashAndFormat, mbind, M_mbind. rewrite (proj2 (Z.eqb_neq (zlen hash) 0)) by (by destruct hash). rewrite (proj2 (Z.eqb_neq (zlen format) 0)) by (by destruct format). cbn.
  destruct (Hash_total hash pp Hp h Hi) as (_ & q & Eq & <-). destruct (Hash hash h) as [r h']. cbn in Eq |- *. subst r. cbn. rewrite Hfs. cbn. by rewrite bool_decide_true.
Qed.

Lemma Scan_total format hashes hash pp : hash ∈ hashes -> held hash pp -> generates pp format -> forall skipped, total (Scan format hashes skipped) (fun _ => True).
Proof using ENV.
  intros Hin Hp (fs & Hfs & Hf). induction hashes as [|hash' rest IH]; [by apply not_elem_of_nil in Hin|]. intros skipped h Hh. cbn [scan_hashes]. apply elem_of_cons in Hin as [<-|Hin].
  - destruct (Hash_total hash pp Hp h Hh) as (Hi & q & Eq & <-). destruct (Hash hash h) as [r h'] eqn:E. cbn in Eq, Hi. subst r. rewrite Hfs, bool_decide_true by done. cbn.
    split; [|by eexists]. destruct (Hash_spec hash h Hh) as (_ & _ & Ha). rewrite E in Ha. apply (add_format (lock others h') format pp hash); [by apply lock_inv|by apply Ha|by exists fs].
  - destruct (Hash_spec hash' h Hh) as (Hi & Hpn & Ha). destruct (Hash hash' h) as [[q|e|] h'] eqn:E; cbn in *; [|by apply IH|done].
    destruct (formats_total q (generation_sound _ _ (Ha q eq_refl))) as [fs' Hfs']. rewrite Hfs'. case_bool_decide as Hin'; cbn [negb]; [|by apply IH].
    split; [|by eexists]. apply (add_format (lock others h') format q hash'); [by apply lock_inv|by apply Ha|by exists fs'].
Qed.

Lemma Format_total format hash pp : format <> [] -> held hash pp -> generates pp format -> total (Format format) (fun _ => True).
Proof using ENV.
  intros Hf Hp Hg. unfold ByFormat. rewrite (proj2 (Z.eqb_neq (zlen format) 0)) by (by destruct format). eapply total_bind; [by apply total_reject|intros _ _].
  intros h Hh. apply lock_inv in Hh. destruct Hp as (raw & Hs & Hp). destruct (Hs (hi_step (lock others h))) as (_ & l & Hl & Hin).
  unfold modifyS, getS, mbind, M_mbind. cbn. destruct (hi_byFormat (lock others h) !! format) as [r|]; [split; [done|by exists r]|].
  unfold wrapM, lift. rewrite Hl. cbn. exact (Scan_total format l hash pp Hin (ex_intro _ raw (conj Hs Hp)) Hg 0 _ Hh).
Qed.

(** What the owner computed, a node that holds the same parameters computes
    too. *)
Definition resolvable (s : UpgradeService) (tok : LedgerToken) (r : Token * bytes * bool) : Prop :=
  if in_Precisions (LedgerToken_Format tok) then processFabtoken json_Output s tok = Ok r.1.1 /\ r.1.2 = [] /\ r.2 = false
  else us_PublicParamsHistory s = true /\ r.2 = true /\ LedgerToken_Format tok <> [] /\ r.1.2 <> [] /\
    exists pp, held r.1.2 pp /\ generates pp (LedgerToken_Format tok) /\ Comm tok pp = Ok r.1.1.

Lemma TokenWith_total s tok r : resolvable s tok r -> total (TokenWith s tok r.1.2) (eq r.1.1).
Proof using ENV.
  destruct r as [[t hash] comm]. unfold resolvable, processTokenWith. cbn [fst snd]. destruct (in_Precisions _).
  - intros (Ht & Eh & _). rewrite Eh. eapply total_bind; [by apply total_reject|intros _ _]. by eapply total_lift.
  - intros (Eh & _ & Hf & Hh & pp & Hp & Hg & Ht). rewrite Eh. cbn [negb]. eapply total_bind; [apply total_reject; by destruct hash|intros _ _].
    apply (total_bind _ _ (eq pp)); [|intros q <-; by eapply total_lift]. intros h Hi. unfold resolve. destruct (HashAndFormat_total hash (LedgerToken_Format tok) pp Hh Hf Hp Hg h Hi) as (Hi' & q & Eq & <-).
    destruct (HashAndFormat hash (LedgerToken_Format tok) h) as [x h']. cbn in Eq, Hi'. subst x. split; [done|by exists pp].
Qed.

(** The hashes a proof carries. *)
Definition proof_hashes (rs : list (Token * bytes * bool)) : list bytes := if existsb snd rs then (fun r => r.1.2) <$> rs else [].

Lemma proof_hash s tokens rs i r : Forall2 (resolvable s) tokens rs -> rs !! i = Some r -> nth i (proof_hashes rs) [] = r.1.2.
Proof using Type.
  intros Hrs Hi. unfold proof_hashes. destruct (existsb snd rs) eqn:E.
  - rewrite nth_lookup, list_lookup_fmap, Hi. done.
  - destruct (Forall2_lookup_r _ _ _ _ _ Hrs Hi) as (tok & _ & Hr). unfold resolvable in Hr. replace (nth i [] []) with (@nil byte) by (by destruct i). destruct (in_Precisions _); [by destruct Hr as (_ & -> & _)|].
    exfalso. assert (existsb snd rs = true) as Ht; [|congruence]. apply existsb_exists. exists r. split; [|by destruct Hr as (_ & -> & _)]. apply list_elem_of_In, list_elem_of_lookup. by exists i.
Qed.

Lemma proof_hashes_length rs : zlen (proof_hashes rs) = 0 \/ zlen (proof_hashes rs) = zlen rs.
Proof using Type. unfold proof_hashes, zlen. destruct (existsb _ _); [right; by rewrite length_fmap|by left]. Qed.

Lemma TokensWith_total s tokens rs : Forall2 (resolvable s) tokens rs -> total (TokensWith s tokens (proof_hashes rs)) (eq ((fun r => r.1.1) <$> rs)).
Proof using ENV.
  intros Hrs. pose proof (Forall2_length _ _ _ Hrs) as Hl. unfold processTokensWith. eapply total_bind; [apply total_reject|intros _ _].
  { destruct (proof_hashes_length rs) as [->| ->]; [done|]. unfold zlen. rewrite Hl, Z.eqb_refl. by rewrite andb_false_r. }
  intros h Hh. destruct (total_mapM (fun '(tok, i) => TokenWith s tok (nth i (proof_hashes rs) [])) (fun p t => exists r, rs !! p.2 = Some r /\ t = r.1.1)
    (zip tokens (seq 0 (length tokens)))) with (h := h) as (Hi & ts & Ets & Hts); [|done|].
  - intros [tok i] (k & Hk)%list_elem_of_lookup. apply lookup_zip_with_Some in Hk as (? & ? & [= <- <-] & Htok & Hk). apply lookup_seq in Hk as [-> Hk]. cbn [Nat.add].
    destruct (Forall2_lookup_l _ _ _ _ _ Hrs Htok) as (r & Hr & Hres). rewrite (proof_hash s tokens rs k r Hrs Hr). intros g Hg. destruct (TokenWith_total s tok r Hres g Hg) as (Hg' & t & Et & <-).
    split; [done|]. exists r.1.1. split; [done|by exists r].
  - split; [done|]. exists ts. split; [done|]. apply list_eq. intros i. rewrite list_lookup_fmap. pose proof (Forall2_length _ _ _ Hts) as Hlt. rewrite length_zip_with, length_seq, Nat.min_id in Hlt.
    destruct (rs !! i) as [r|] eqn:Er; cbn.
    + destruct (Forall2_lookup_r _ _ _ _ _ Hrs Er) as (tok & Htok & _). assert ((zip tokens (seq 0 (length tokens))) !! i = Some (tok, i)) as Hz.
      { rewrite lookup_zip_with, Htok. cbn. by rewrite (lookup_seq_lt 0 (length tokens) i) by (by eapply lookup_lt_Some). }
      destruct (Forall2_lookup_l _ _ _ _ _ Hts Hz) as (t & -> & r' & Hr' & ->). cbn in Hr'. congruence.
    + symmetry. apply lookup_ge_None. apply lookup_ge_None in Er. lia.
Qed.

Lemma match_same tokens : match_tokens tokens tokens = Ok tt.
Proof using Type.
  unfold match_tokens. apply rangeR_Ok. intros i [t u] (? & ? & [= <- <-] & H1 & H2)%lookup_zip_with_Some. rewrite H1 in H2. injection H2 as ->. cbn.
  by rewrite (proj2 (LedgerToken_Equal_true u u)).
Qed.

Lemma CheckProof_total s ch raw tokens rs sigs : zlen ch = ChallengeSize -> 0 < zlen tokens <= MaxUpgradeRequestTokens -> raw <> [] ->
  json_UnmarshalProof raw = Ok (mkUpgradeProof ch tokens sigs (proof_hashes rs)) -> Forall2 (resolvable s) tokens rs ->
  Forall2 (signed (SHA256Digest ch tokens)) ((fun r => r.1.1) <$> rs) sigs -> total (CheckProof s ch raw tokens) (eq ((fun r => r.1.1) <$> rs)).
Proof using ENV.
  intros Hch Ht Hraw Hp Hrs Hsig. pose proof (Forall2_length _ _ _ Hrs) as L1. pose proof (Forall2_length _ _ _ Hsig) as L2. rewrite length_fmap in L2. unfold checkUpgradeProof.
  eapply total_bind; [apply total_reject; by rewrite Hch|intros _ _]. eapply total_bind; [apply total_reject, Z.eqb_neq; lia|intros _ _].
  eapply total_bind; [apply total_reject; rewrite Z.gtb_ltb; apply Z.ltb_ge; lia|intros _ _]. eapply total_bind; [apply total_reject, Z.eqb_neq; by destruct raw|intros _ _].
  eapply (total_bind _ _ (eq (mkUpgradeProof ch tokens sigs (proof_hashes rs)))); [apply total_wrap; by eapply total_lift|intros ? <-]. cbn [up_Tokens up_Challenge up_Signatures up_PublicParamsHashes].
  eapply total_bind; [apply total_reject; by rewrite Z.eqb_refl|intros _ _]. eapply total_bind; [eapply (total_lift _ (fun _ => True)); [apply match_same|done]|intros _ _].
  eapply total_bind; [apply total_reject; by rewrite bool_decide_true|intros _ _]. eapply total_bind; [apply total_reject; unfold zlen; by rewrite <- L2, <- L1, Z.eqb_refl|intros _ _].
  apply (total_bind _ _ (eq ((fun r => r.1.1) <$> rs))); [by apply total_wrap, TokensWith_total|intros ? <-]. eapply total_bind; [|intros _ _; by apply total_ret].
  eapply (total_lift _ (fun _ => True)); [|done]. apply rangeR_Ok. intros i [t sig] (? & ? & [= <- <-] & H1 & H2)%lookup_zip_with_Some. unfold verify_signature. cbn [fst snd].
  destruct (Forall2_lookup_lr _ _ _ _ _ _ Hsig H1 H2) as (v & -> & Hv). cbn [wrap mbind res_mbind]. by rewrite Hv.
Qed.

(** A format a request may carry. *)
Definition requestable (s : UpgradeService) (format : bytes) : Prop :=
  format ∉ us_SupportedTokenFormatList s /\ (in_Precisions format = true -> format ∈ us_UpgradeSupportedTokenFormatList s).

Lemma Upgradable_total s tok r : requestable s (LedgerToken_Format tok) -> resolvable s tok r -> total (Upgradable s (LedgerToken_Format tok)) (fun _ => True).
Proof using ENV.
  intros [Hn Hu] Hr. unfold checkUpgradable. rewrite bool_decide_false by done. case_bool_decide as Hin; [by apply total_ret|]. unfold resolvable in Hr. destruct (in_Precisions _); [by destruct Hin; apply Hu|].
  destruct Hr as (-> & _ & Hf & _ & pp & Hp & Hg & _). cbn [negb]. eapply total_bind; [apply total_wrap, (Format_total _ _ _ Hf Hp Hg)|]. intros. by apply total_ret.
Qed.

Lemma Formats_all s tokens rs : Forall (fun t => requestable s (LedgerToken_Format t)) tokens -> Forall2 (resolvable s) tokens rs -> forall checked, total (Formats s checked tokens) (fun _ => True).
Proof using ENV.
  intros Hq Hrs. induction Hrs as [|tok r tokens rs Hr Hrs IH]; intros checked; [by apply total_ret|]. apply Forall_cons in Hq as [Ht Hq]. cbn [check_formats]. case_bool_decide; [by apply IH|].
  eapply total_bind; [by eapply Upgradable_total|]. intros _ _. by apply IH.
Qed.

Lemma Process_total s ch raw tokens rs sigs : zlen ch = ChallengeSize -> 0 < zlen tokens <= MaxUpgradeRequestTokens -> raw <> [] ->
  json_UnmarshalProof raw = Ok (mkUpgradeProof ch tokens sigs (proof_hashes rs)) -> Forall (fun t => requestable s (LedgerToken_Format t)) tokens -> Forall2 (resolvable s) tokens rs ->
  Forall2 (signed (SHA256Digest ch tokens)) ((fun r => r.1.1) <$> rs) sigs -> total (Process s (Some (mkTokenUpgradeRequest ch tokens raw))) (eq ((fun r => r.1.1) <$> rs)).
Proof using ENV.
  intros Hch Ht Hraw Hp Hq Hrs Hsig. cbn [ProcessTokensUpgradeRequest ur_Tokens ur_Challenge ur_Proof]. eapply total_bind; [apply total_reject; rewrite Z.gtb_ltb; apply Z.ltb_ge; lia|intros _ _].
  eapply total_bind; [by eapply Formats_all|intros _ _]. apply total_wrap. by eapply CheckProof_total.
Qed.

Local Notation Gen := (GenUpgradeProof Zr_String G1_UnmarshalJSON Zr_UnmarshalJSON proto_UnmarshalToken proto_TokenMetadata json_Output proto_UnmarshalPP json_UnmarshalPP
  PublicParamsHashes PublicParamsByHash others GetSigner json_MarshalProof).

Lemma bind_run {A B} (m : H A) (f : A -> H B) h a h' : m h = (Ok a, h') -> (m ≫= f) h = f a h'.
Proof using Type. intros E. unfold mbind, M_mbind. by rewrite E. Qed.

(** What a generated proof holds. *)
Lemma Gen_Ok s ch tokens witness h raw h' : inv h -> Gen s ch tokens witness h = (Ok raw, h') ->
  exists rs sigs, zlen ch = ChallengeSize /\ 0 < zlen tokens /\ Forall2 (processed s) tokens rs /\
    Forall2 (fun t sig => sign_token GetSigner (SHA256Digest ch tokens) t = Ok sig) ((fun r => r.1.1) <$> rs) sigs /\
    json_MarshalProof (mkUpgradeProof ch tokens sigs (proof_hashes rs)) = Ok raw /\
    (ProcessTokens Zr_String G1_UnmarshalJSON Zr_UnmarshalJSON proto_UnmarshalToken proto_TokenMetadata json_Output proto_UnmarshalPP json_UnmarshalPP
      PublicParamsHashes PublicParamsByHash others s tokens h).1 = Ok ((fun r => r.1.1) <$> rs, proof_hashes rs).
Proof using ENV.
  intros Hh. unfold GenUpgradeProof, ProcessTokens. intros H. res_inv. destruct_and?; subst.
  assert (spec (mapM (Tok s) tokens) (Forall2 (processed s) tokens)) as Hs by (apply spec_mapM; intros; apply Tok_spec).
  destruct (Hs h Hh) as (_ & _ & Hts). pose proof (zlen_nonneg tokens).
  match goal with Hm : mapM (Tok s) tokens h = (Ok ?rs, _), Hg : mapM (sign_token _ _) _ = Ok ?sigs |- _ => exists rs, sigs; rewrite Hm in Hts; apply mapM_res_Ok in Hg end.
  rewrite negb_false_iff, Z.eqb_eq in *. rewrite Z.eqb_neq in *. split_and!; [done|lia|by apply Hts|done|done|].
  match goal with Hm : mapM (Tok s) tokens h = _ |- _ => by rewrite (bind_run _ _ _ _ _ Hm) end.
Qed.
End Service.
