(* ===== verification/UpgradeClaims.v ===== *)
(** * Upgrades of tokens

    What an accepted upgrade request proves, that an honest owner's request is
    accepted, that cleartext tokens upgraded locally are spendable, and what the
    signed digest does not bind; runs on the curve of five elements. *)

From S2P Require Import Prelude GoStd Quantity Der TokenTypes Asn1 Request Limits Metadata Auditor FabtokenActions ZkMath ZkIpa ZkRange ZkSigma ZkCodec ZkTransfer Csp CspFold CspTransfer ZkActions ZkValidator ZkClaims CspClaims ZkSetup ZkSetupClaims ZkAudit ZkTokens Upgrade UpgradeSafety.
From Stdlib Require Import ZArith Lia.
Open Scope Z_scope.

Section UpgradeClaims.
Context {CO : Curve} {NA : Native} {WI : Wire} {WL : WireLaws} {FC : ForeignCurves}.
Context (Zr_String : Zr -> bytes).
Context (G1_UnmarshalJSON : bytes -> res (wire G1)) (Zr_UnmarshalJSON : bytes -> res (wire Zr)).
Context (proto_UnmarshalToken : bytes -> res PzToken) (proto_TokenMetadata : bytes -> res PTokenMetadata).
Context (json_Output : bytes -> res Output).
Context (proto_UnmarshalPP : bytes -> res PPublicParameters) (json_UnmarshalPP : bytes -> res PContainer).
Context (PublicParamsHashes : nat -> res (list bytes)) (PublicParamsByHash : nat -> bytes -> res bytes).
Context (others : nat -> gmap bytes PublicParams * gmap bytes (PublicParams * bytes) -> gmap bytes PublicParams * gmap bytes (PublicParams * bytes)).
Context (GetOwnerVerifier : bytes -> res (bytes -> bytes -> res unit)) (GetSigner : bytes -> res (bytes -> res bytes)).
Context (json_MarshalProof : UpgradeProof -> res bytes) (json_UnmarshalProof : bytes -> res UpgradeProof).

Local Notation env := (environment G1_UnmarshalJSON proto_UnmarshalToken proto_TokenMetadata json_Output proto_UnmarshalPP json_UnmarshalPP).
Local Notation invariant := (inv G1_UnmarshalJSON proto_UnmarshalPP json_UnmarshalPP).
Local Notation Process := (ProcessTokensUpgradeRequest Zr_String G1_UnmarshalJSON Zr_UnmarshalJSON proto_UnmarshalToken proto_TokenMetadata json_Output proto_UnmarshalPP json_UnmarshalPP).
Local Notation Gen := (GenUpgradeProof Zr_String G1_UnmarshalJSON Zr_UnmarshalJSON proto_UnmarshalToken proto_TokenMetadata json_Output proto_UnmarshalPP json_UnmarshalPP).
Local Notation can_upgrade := (upgradable G1_UnmarshalJSON proto_UnmarshalPP json_UnmarshalPP PublicParamsByHash).
Local Notation accepted := (accepted_proof Zr_String G1_UnmarshalJSON Zr_UnmarshalJSON proto_UnmarshalToken proto_TokenMetadata json_Output proto_UnmarshalPP json_UnmarshalPP
  PublicParamsByHash GetOwnerVerifier).

(** C21: An upgrade request, whatever bytes it carries and whatever concurrent
    requests do to the cache of public parameters, does not make the service
    panic and leaves the cache with parameters of the store that produce the
    formats they are cached under.  If the request is accepted, no token has a
    format the driver already supports, each has one it upgrades, there are at
    least one and at most 256, the challenge has its size, every token returned
    is the content of the ledger token at its place (the cleartext token itself,
    within the driver's precision, or the opening of the commitment under
    parameters of the store that produce its format), and the owner of each has
    signed the digest of the challenge and of all tokens. *)
Theorem upgrade_request_sound s request h :
  env PublicParamsHashes PublicParamsByHash others GetOwnerVerifier json_UnmarshalProof -> invariant PublicParamsByHash h ->
  let '(r, h') := Process PublicParamsHashes PublicParamsByHash others GetOwnerVerifier json_UnmarshalProof s request h in
  invariant PublicParamsByHash h' /\ r <> Panic /\
  forall ts, r = Ok ts -> exists q, request = Some q /\ Forall (fun t => can_upgrade s (LedgerToken_Format t)) (ur_Tokens q) /\ accepted s (ur_Challenge q) (ur_Tokens q) ts.
Proof using Type.
  intros ENV Hh. pose proof (Process_spec Zr_String _ Zr_UnmarshalJSON _ _ _ _ _ _ _ _ _ _ ENV s request h Hh) as H. by destruct (Process _ _ _ _ _ _ _ _).
Qed.

(** ** An owner and an issuer *)

Context (PublicParamsHashes' : nat -> res (list bytes)) (PublicParamsByHash' : nat -> bytes -> res bytes).
Context (others' : nat -> gmap bytes PublicParams * gmap bytes (PublicParams * bytes) -> gmap bytes PublicParams * gmap bytes (PublicParams * bytes)).

Lemma processed_resolvable s tok r :
  (forall hash pp, generation G1_UnmarshalJSON proto_UnmarshalPP json_UnmarshalPP PublicParamsByHash hash pp ->
    hash <> [] /\ held G1_UnmarshalJSON proto_UnmarshalPP json_UnmarshalPP PublicParamsHashes' PublicParamsByHash' hash pp) ->
  processed Zr_String G1_UnmarshalJSON Zr_UnmarshalJSON proto_UnmarshalToken proto_TokenMetadata json_Output proto_UnmarshalPP json_UnmarshalPP PublicParamsByHash s tok r ->
  resolvable Zr_String G1_UnmarshalJSON Zr_UnmarshalJSON proto_UnmarshalToken proto_TokenMetadata json_Output proto_UnmarshalPP json_UnmarshalPP PublicParamsHashes' PublicParamsByHash' s tok r.
Proof using Type.
  intros Hs. unfold processed, resolvable. destruct (in_Precisions _); [done|]. intros (Hh & Hc & Hf & pp & Hg & Hrest). destruct (Hs _ _ Hg). split_and!; [done..|]. by exists pp.
Qed.

(** C22: An honest owner's upgrade is accepted.  If the owner's node generates a
    proof for a challenge and tokens, the issuer's node, with a store and a cache
    of its own that hold the public parameters the owner's store holds, accepts
    the request with that proof and returns the very tokens the owner computed,
    for requests of at most 256 tokens whose formats the driver does not support
    and, for cleartext tokens, upgrades: the proof's encoding is read back, its
    hashes resolve to the parameters that opened the commitments, and the
    signatures verify. *)
Theorem honest_upgrade_accepted s ch tokens h raw h1 h' :
  env PublicParamsHashes PublicParamsByHash others GetOwnerVerifier json_UnmarshalProof -> env PublicParamsHashes' PublicParamsByHash' others' GetOwnerVerifier json_UnmarshalProof ->
  invariant PublicParamsByHash h -> invariant PublicParamsByHash' h' ->
  (forall hash pp, generation G1_UnmarshalJSON proto_UnmarshalPP json_UnmarshalPP PublicParamsByHash hash pp ->
    hash <> [] /\ held G1_UnmarshalJSON proto_UnmarshalPP json_UnmarshalPP PublicParamsHashes' PublicParamsByHash' hash pp) ->
  (forall p b, json_MarshalProof p = Ok b -> b <> [] /\ json_UnmarshalProof b = Ok p) ->
  (forall id sign m sig, GetSigner id = Ok sign -> sign m = Ok sig -> exists verify, GetOwnerVerifier id = Ok verify /\ verify m sig = Ok tt) ->
  zlen tokens <= MaxUpgradeRequestTokens -> Forall (fun t => requestable s (LedgerToken_Format t)) tokens ->
  Gen PublicParamsHashes PublicParamsByHash others GetSigner json_MarshalProof s ch tokens [] h = (Ok raw, h1) ->
  exists ts hashes h2,
    (ProcessTokens Zr_String G1_UnmarshalJSON Zr_UnmarshalJSON proto_UnmarshalToken proto_TokenMetadata json_Output proto_UnmarshalPP json_UnmarshalPP
      PublicParamsHashes PublicParamsByHash others s tokens h).1 = Ok (ts, hashes) /\
    Process PublicParamsHashes' PublicParamsByHash' others' GetOwnerVerifier json_UnmarshalProof s (Some (mkTokenUpgradeRequest ch tokens raw)) h' = (Ok ts, h2).
Proof using Type.
  intros E1 E2 I1 I2 Hs Hj Hv Hn Hq Hg.
  destruct (Gen_Ok Zr_String _ Zr_UnmarshalJSON _ _ _ _ _ _ _ _ GetOwnerVerifier GetSigner json_MarshalProof json_UnmarshalProof E1 s ch tokens [] h raw h1 I1 Hg) as (rs & sigs & Hch & Hpos & Hrs & Hsig & Hm & Hts).
  destruct (Hj _ _ Hm) as [Hne Hread].
  destruct (Process_total Zr_String _ Zr_UnmarshalJSON _ _ _ _ _ _ _ _ _ _ E2 s ch raw tokens rs sigs) with (h := h') as (_ & ts & Ht & <-); try done.
  - eapply Forall2_impl; [exact Hrs|]. intros tok r. by apply processed_resolvable.
  - eapply Forall2_impl; [exact Hsig|]. intros t sig Ho. unfold sign_token in Ho. apply res_bind_Ok in Ho as (sign & Hsg%wrap_Ok & Hok%wrap_Ok). by apply (Hv _ sign).
  - eexists _, _, _. split; [exact Hts|]. rewrite <- Ht. apply surjective_pairing.
Qed.
End UpgradeClaims.

(** ** Local upgrades and openings *)

Section TokensClaims.
Context {CO : Curve} {NA : Native} {WI : Wire} {WL : WireLaws} {FC : ForeignCurves}.

(** C23: A cleartext token a wallet upgrades while spending it is accepted.  When
    [DeserializeToken] turns a cleartext token with an owner into a commitment
    with a witness, the validator's check of that input holds on every node with
    the same parameters, and the opening the wallet keeps opens the commitment,
    so that the transfer can be proved with it. *)
Theorem local_upgrade_accepted Zr_UnmarshalJSON proto_TokenMetadata G1_UnmarshalJSON proto_UnmarshalToken json_Output s pp PP rand format raw meta tok m w id n :
  own_params pp = Ok PP -> sp_Curve pp = curve_id ->
  DeserializeToken G1_UnmarshalJSON Zr_UnmarshalJSON proto_UnmarshalToken proto_TokenMetadata json_Output s pp rand format raw meta = Ok (tok, m, Some w) -> zt_Owner tok <> [] ->
  upgradeInput PP n (Some (mkZInput id (Some tok) (Some w))) = Ok tt /\
  exists data v bf, zt_Data tok = Some data /\ wm_Value m = Some v /\ wm_BlindingFactor m = Some bf /\ opens pp data (wm_Type m) v bf.
Proof using WL. apply upgrade_accepted. Qed.

(** An opening whose value is a scalar of another curve makes [Deobfuscate]
    panic: the curve of the commitment is checked, those of the scalars a
    counterparty sends are not. *)
Theorem deobfuscate_foreign_panics Zr_String ident_Recipients G1_UnmarshalJSON Zr_UnmarshalJSON proto_UnmarshalToken proto_TokenMetadata json_Output json_OutputMetadata
    s pp p0 p1 p2 t m raw mraw c b :
  zToken_Deserialize G1_UnmarshalJSON proto_UnmarshalToken raw = Ok t -> Metadata_Deserialize Zr_UnmarshalJSON proto_TokenMetadata mraw = Ok m ->
  sp_Curve pp = curve_id -> sp_PedersenGenerators pp = present_points [p0; p1; p2] ->
  check_element fc_IsInfinity (sp_Curve pp) (zt_Data t) = Ok tt -> wm_Value m = Some (Foreign c b) ->
  Deobfuscate Zr_String ident_Recipients G1_UnmarshalJSON Zr_UnmarshalJSON proto_UnmarshalToken proto_TokenMetadata json_Output json_OutputMetadata s pp raw mraw = Panic.
Proof using WL. apply reveal_foreign. Qed.
(** A format the service lists as supported is not always spendable: a
    commitment of the same generators and a lower precision, as an earlier
    generation of the parameters with fewer bits made it, is neither the output
    format nor that of a cleartext token, so [DeserializeToken] rejects it; and
    an upgrade service that got the list refuses to upgrade it, because the list
    has it. *)
Theorem lower_precision_stranded G1_UnmarshalJSON Zr_UnmarshalJSON proto_UnmarshalToken proto_TokenMetadata json_Output proto_UnmarshalPP json_UnmarshalPP
    PublicParamsHashes PublicParamsByHash others pp ts bits precision format s h :
  NewTokensService pp = Ok ts -> BitLength pp = Ok bits -> precision ∈ SupportedPrecisions -> precision < bits -> zk_SupportedTokenFormat pp precision = Ok format ->
  format <> ts_OutputTokenFormat ts -> in_Precisions format = false -> us_SupportedTokenFormatList s = ts_SupportedTokenFormatList ts ->
  format ∈ ts_SupportedTokenFormatList ts /\
  (forall rand raw meta, DeserializeToken G1_UnmarshalJSON Zr_UnmarshalJSON proto_UnmarshalToken proto_TokenMetadata json_Output ts pp rand format raw meta = Err (EMsg "unsupported token format")) /\
  checkUpgradable G1_UnmarshalJSON proto_UnmarshalPP json_UnmarshalPP PublicParamsHashes PublicParamsByHash others s format h =
    (Err (EMsg "upgrade of already supported token format requested"), h).
Proof using Type.
  intros Hts Hb Hp Hlt Hf Hne Hn Hs. assert (format ∈ ts_SupportedTokenFormatList ts) as Hin.
  { unfold NewTokensService in Hts. rewrite Hb in Hts. cbn [mbind res_mbind] in Hts. apply res_bind_Ok in Hts as (out & _ & Hts). apply res_bind_Ok in Hts as (fs & Hfs%wrap_Ok & [= <-]). cbn.
    apply elem_of_app. left. unfold CommTokenFormats in Hfs. rewrite Hb in Hfs. cbn [mbind res_mbind] in Hfs. apply mapM_res_Ok in Hfs.
    assert (precision ∈ List.filter (fun p => negb (p >? bits)) SupportedPrecisions) as (i & Hi)%list_elem_of_lookup.
    { apply list_elem_of_In, List.filter_In. split; [by apply list_elem_of_In|]. apply negb_true_iff. rewrite Z.gtb_ltb. apply Z.ltb_ge. lia. }
    destruct (Forall2_lookup_l _ _ _ _ _ Hfs Hi) as (f & Hfi & Heq%wrap_Ok). rewrite Hf in Heq. injection Heq as ->. apply list_elem_of_lookup. by exists i. }
  split_and!; [done| |].
  - intros. unfold DeserializeToken. rewrite bool_decide_true by done. cbn [negb]. rewrite bool_decide_false by done. by rewrite Hn.
  - unfold checkUpgradable. rewrite Hs. by rewrite bool_decide_true.
Qed.
End TokensClaims.

(** The fields of a token enter the digest one after the other, without their
    lengths: bytes moved from the end of the token to the beginning of its
    metadata leave the digest, and with it the owner's signature, valid. *)
Theorem digest_moves_bytes ch id a b c format rest :
  SHA256Digest ch (mkLedgerToken id format (a ++ b) c :: rest) = SHA256Digest ch (mkLedgerToken id format a (b ++ c) :: rest).
Proof.
  assert (token_written (mkLedgerToken id format (a ++ b) c) = token_written (mkLedgerToken id format a (b ++ c))) as E.
  { unfold token_written. cbn [LedgerToken_ID LedgerToken_Token LedgerToken_TokenMetadata LedgerToken_Format]. by rewrite <- !app_assoc. }
  unfold SHA256Digest. rewrite !fmap_cons. by rewrite E.
Qed.

(** ** Runs on the curve of five elements *)

Module SmallUpgrade.
Import F5 Small SmallCsp SmallSetup.

#[export] Instance others_curves : ForeignCurves := {|
  fc_HashToZr _ b := b; fc_NewZrFromUint64 _ v := [z2b v]; fc_NewG1 _ := []; fc_Mul _ g _ := g; fc_Add _ g h := g ++ h;
  fc_Equals _ g h := bool_decide (g = h); fc_String _ b := b; fc_IsInfinity := at_infinity; fc_Bytes := foreign |}.

Definition digits (z : F) : bytes := [z2b (48 + to_Z z)].
Definition pp : PublicParams := generated CSPRangeProofType.
Definition read_token (_ : bytes) : res PzToken :=
  c ← wcommit 1 [Some (wHashToZr 1 (str "USD")); Some (Own f3); Some (Own f2)] (sp_PedersenGenerators pp);
  data ← marshal_point c;
  Ok (mkPzToken (str "alice") (Some data)).
Definition read_opening (_ : bytes) : res PTokenMetadata := Ok (mkPTokenMetadata (str "USD") (Some [z2b 3]) (Some [z2b 2]) (Some (str "issuer"))).
Definition read_output (_ : bytes) : res Output := Ok (mkToken (str "bob") (str "EUR") (str "0x07")).
Definition read_params (_ : bytes) : res PPublicParameters := Ok (as_written message).
Definition read_container (_ : bytes) : res PContainer := Ok container.

(** A commitment of the stored parameters and a cleartext token. *)
Definition old_format : bytes := match CommTokenFormats pp with Ok (f :: _) => f | _ => [] end.
Definition owned : list LedgerToken :=
  [ mkLedgerToken (mkID (str "tx1") 0) old_format (TypedToken_Bytes comm_Type (str "c")) (TypedToken_Bytes comm_Type (str "m"));
    mkLedgerToken (mkID (str "tx2") 1) (fab_SupportedTokenFormat 32) (TypedToken_Bytes fabtoken_Type (str "o")) [] ].
Definition content : list Token := [mkToken (str "alice") (str "USD") (str "0x3"); mkToken (str "bob") (str "EUR") (str "0x07")].

Definition service : UpgradeService := NewUpgradeService 16 [fab_SupportedTokenFormat 16] true.
Definition listed (_ : nat) : res (list bytes) := Ok [str "old"].
Definition stored (_ : nat) (hash : bytes) : res bytes := Ok (if decide (hash = str "old") then str "message" else []).
Definition alone (_ : nat) (m : gmap bytes PublicParams * gmap bytes (PublicParams * bytes)) := m.
Definition signer (id : bytes) : res (bytes -> res bytes) := Ok (fun m => Ok (id ++ m)).
Definition owner_verifier (id : bytes) : res (bytes -> bytes -> res unit) := Ok (fun m sig => if decide (sig = id ++ m) then Ok tt else Err (EMsg "invalid signature")).

#[export] Instance LedgerToken_eq_dec : EqDecision LedgerToken.
Proof. solve_decision. Defined.
#[export] Instance UpgradeProof_eq_dec : EqDecision UpgradeProof.
Proof. solve_decision. Defined.

Definition challenge : bytes := replicate 32 (z2b 7).
Definition proof : UpgradeProof :=
  mkUpgradeProof challenge owned ((fun t => Token_Owner t ++ SHA256Digest challenge owned) <$> content) [str "old"; []].
Definition write_proof (p : UpgradeProof) : res bytes := if decide (p = proof) then Ok (str "proof") else Err (EMsg "another proof").
Definition read_proof (_ : bytes) : res UpgradeProof := Ok proof.

Definition generate : res bytes * PPHistory :=
  GenUpgradeProof digits unmarshal_point unmarshal_point read_token read_opening read_output read_params read_container listed stored alone signer write_proof service challenge owned [] NewPublicParamsHistory.
Definition request : TokenUpgradeRequest := mkTokenUpgradeRequest challenge owned (str "proof").
Definition process : res (list Token) * PPHistory :=
  ProcessTokensUpgradeRequest digits unmarshal_point unmarshal_point read_token read_opening read_output read_params read_container listed stored alone owner_verifier read_proof service (Some request) NewPublicParamsHistory.

Lemma generated_proof : generate.1 = Ok (str "proof").
Proof. vm_cast_no_check (eq_refl (@Ok bytes (str "proof"))). Qed.

Lemma processed_request : process.1 = Ok content.
Proof. vm_cast_no_check (eq_refl (Ok content)). Qed.

Lemma owned_requestable : Forall (fun t => requestable service (LedgerToken_Format t)) owned.
Proof.
  assert (forallb (fun t => negb (bool_decide (LedgerToken_Format t ∈ us_SupportedTokenFormatList service)) &&
    (negb (in_Precisions (LedgerToken_Format t)) || bool_decide (LedgerToken_Format t ∈ us_UpgradeSupportedTokenFormatList service))) owned = true) as H
    by vm_cast_no_check (eq_refl true).
  apply Forall_forall. intros t Ht%list_elem_of_In. rewrite forallb_forall in H. specialize (H t Ht). apply andb_true_iff in H as [H1%negb_true_iff%bool_decide_eq_false H2].
  split; [done|]. intros E. rewrite E in H2. by apply bool_decide_eq_true in H2.
Qed.

Lemma message_curve : psp_CurveId (as_written message) = Some 1.
Proof. vm_cast_no_check (eq_refl (Some 1)). Qed.

Lemma small_environment : environment unmarshal_point read_token read_opening read_output read_params read_container listed stored alone owner_verifier read_proof.
Proof.
  split; try done.
  - intros b m c [= <-]. rewrite message_curve. by intros [= <-].
  - intros id v m sig [= <-]. by destruct (decide _).
Qed.

Lemma empty_inv : UpgradeSafety.inv unmarshal_point read_params read_container stored NewPublicParamsHistory.
Proof. split; cbn [fst snd hi_byHash hi_byFormat NewPublicParamsHistory]; intros *; by rewrite lookup_empty. Qed.

Lemma stores_agree hash pp' : generation unmarshal_point read_params read_container stored hash pp' -> hash <> [] /\ held unmarshal_point read_params read_container listed stored hash pp'.
Proof.
  intros (t & raw & Hr & Hne & Hl). unfold stored in Hr. destruct (decide (hash = str "old")) as [->|]; injection Hr as <-; [|exact (False_ind _ (Hne eq_refl))].
  split; [discriminate|]. exists (str "message"). split; [|split; [exact Hne|exact Hl]]. intros u. split; [reflexivity|]. exists [str "old"]. split; [reflexivity|apply list_elem_of_here].
Qed.

Lemma proof_read p b : write_proof p = Ok b -> b <> [] /\ read_proof b = Ok p.
Proof. unfold write_proof. destruct (decide (p = proof)) as [->|]; [|done]. by intros [= <-]. Qed.

Lemma signature_verifies id sign m sig : signer id = Ok sign -> sign m = Ok sig -> exists verify, owner_verifier id = Ok verify /\ verify m sig = Ok tt.
Proof. intros [= <-] [= <-]. eexists. split; [done|]. cbn. by destruct (decide _). Qed.

(** A cleartext token spent under the parameters. *)
Definition wallet : TokensService := match NewTokensService pp with Ok s => s | _ => mkTokensService [] [] end.
Definition spend : res (zToken * TokenMetadata * option UpgradeWitness) :=
  DeserializeToken unmarshal_point unmarshal_point read_token read_opening read_output wallet pp (Ok (Own f2)) (fab_SupportedTokenFormat 16) (TypedToken_Bytes fabtoken_Type (str "o")) [].
Definition spendable : bool := match own_params pp, spend with Ok _, Ok (tok, _, Some _) => bool_decide (zt_Owner tok = str "bob") | _, _ => false end.

(** Parameters of 32 bits: a commitment of 16 bits has a format of its own. *)
Definition wide : PublicParams := match NewWith foreign to_point
  {| su_DriverName := str "zkatdlognogh"; su_DriverVersion := 1; su_BitLength := 32; su_IdemixIssuerPK := str "key"; su_CurveID := 1; su_ProofType := RangeProofType |} with Ok p => p | _ => no_params end.
Definition stranded : bool := match NewTokensService wide, BitLength wide, zk_SupportedTokenFormat wide 16 with
  | Ok ts, Ok bits, Ok f => (16 <? bits) && negb (bool_decide (f = ts_OutputTokenFormat ts)) && negb (in_Precisions f) | _, _, _ => false end.

Example stranded_format : stranded = true.
Proof. vm_cast_no_check (eq_refl true). Qed.

Lemma spend_ok : spendable = true.
Proof. vm_cast_no_check (eq_refl true). Qed.
End SmallUpgrade.

Section UpgradeWitnesses.
Import F5 Small SmallCsp SmallSetup SmallUpgrade.

Lemma upgrade_request_sound_witness : process.1 = Ok content /\
  accepted_proof digits unmarshal_point unmarshal_point read_token read_opening read_output read_params read_container stored owner_verifier service challenge owned content.
Proof.
  split; [exact processed_request|].
  pose proof (upgrade_request_sound (CO := curve) (NA := native) (WI := Small.wire) (FC := others_curves) digits unmarshal_point unmarshal_point read_token read_opening read_output
    read_params read_container listed stored alone owner_verifier read_proof service (Some request) NewPublicParamsHistory small_environment empty_inv) as H.
  fold process in H. pose proof processed_request as E. destruct process as [r h]. cbn in E. destruct H as (_ & _ & H). destruct (H content E) as (q & [= <-] & _ & Hq). exact Hq.
Defined.

Lemma honest_upgrade_accepted_witness : exists ts hashes h2,
  (ProcessTokens digits unmarshal_point unmarshal_point read_token read_opening read_output read_params read_container listed stored alone service owned NewPublicParamsHistory).1 = Ok (ts, hashes) /\
  process = (Ok ts, h2).
Proof.
  apply (honest_upgrade_accepted (CO := curve) (NA := native) (WI := Small.wire) (FC := others_curves) digits unmarshal_point unmarshal_point read_token read_opening read_output
    read_params read_container listed stored alone owner_verifier signer write_proof read_proof listed stored alone service challenge owned NewPublicParamsHistory (str "proof") generate.2 NewPublicParamsHistory);
    [exact small_environment|exact small_environment|exact empty_inv|exact empty_inv|exact stores_agree|exact proof_read|exact signature_verifies|by vm_compute|exact owned_requestable|].
  fold generate. rewrite <- generated_proof. apply surjective_pairing.
Defined.

Lemma local_upgrade_accepted_witness : exists PP tok m w, own_params pp = Ok PP /\ spend = Ok (tok, m, Some w) /\ zt_Owner tok = str "bob" /\
  upgradeInput PP 0 (Some (mkZInput None (Some tok) (Some w))) = Ok tt.
Proof.
  pose proof spend_ok as H. unfold spendable in H. destruct (own_params pp) as [PP| |] eqn:HP; [|discriminate H..]. destruct spend as [[[tok m] [w|]]| |] eqn:E; [|discriminate H..].
  apply bool_decide_eq_true in H. exists PP, tok, m, w. split; [reflexivity|]. split; [reflexivity|]. split; [exact H|].
  refine (proj1 (local_upgrade_accepted (CO := curve) (NA := native) (WI := Small.wire) (WL := wire_laws) (FC := others_curves) unmarshal_point read_opening unmarshal_point read_token read_output
    wallet pp PP (Ok (Own f2)) (fab_SupportedTokenFormat 16) (TypedToken_Bytes fabtoken_Type (str "o")) [] tok m w None 0 HP _ E _)); [exact (proj2 (proj2 written_names))|rewrite H; discriminate].
Defined.
End UpgradeWitnesses.
